(* ===== verification/_CoqProject ===== *)
-Q . S2P
Prelude.v
Bytes.v
OMap.v
KvTypes.v
TxBuffer.v
MockStore.v
MergingIterator.v
SharedBuffer.v
MockEngine.v
Transactions.v
Wire.v
RaftTypes.v
MessageCodec.v
ProposalPayload.v
KvStateMachine.v
GroupRouter.v
LogStore.v
RaftState.v
RaftNode.v
RaftInvariants.v
RaftElection.v
ElectionSafety.v
RaftCommit.v
RaftLiveness.v
SqlTypes.v
Temporal.v
KeyCodec.v
SqlKeyRange.v
SqlTruth.v
Rewriter.v
Optimizer.v
Schema.v
RowCodec.v
KeyPrefix.v
KvApi.v
Table.v
TableSpec.v
TableScan.v
Catalog.v
CatalogSpec.v
Planner.v
Executor.v
Execute.v
ExecutorSpec.v
RowOrder.v
PlanRanges.v
KeySet.v
ScanSpec.v
SelectSpec.v
DmlSpec.v
LiveScan.v
UpdateSpec.v
StmtBuilder.v
StmtValidator.v
ValidatorSpec.v
TxApi.v
Session.v
SessionSteps.v
SessionSpec.v
Protocol.v
LevelDb.v
LevelEngine.v
LevelIter.v
LevelSpec.v
LevelLogStore.v
LevelLogSpec.v
RaftKv.v
RaftKvSpec.v
RaftKvData.v
Remote.v
RemoteSpec.v
Peers.v
Config.v
ConfigSpec.v
AstHeap.v
AstOwn.v
AstPrint.v
AstPrintSpec.v
Parser.v
SourceSpans.v
