(* ===== verification/Prelude.v ===== *)
(** * Verification of the sqldb engine

    The program is an SQL database: a key/value storage layer with transactions,
    a raft layer that replicates it, and an SQL layer (types and keys, planner,
    relations, executor, sessions, network protocol). This library models the
    parts that carry its logic as executable definitions, written from the
    sources under [src/], and proves what makes each part correct. This file is
    the prelude: results and their notation, the tactics and the lemmas every
    other file uses.

    ** Parts, files and sources

    Storage ([src/storage/]):
    - [KvTypes]: keys, values, batches, ranges and the [Iterator] interface
      ([kv_engine/kv_engine.h]); [OMap]: the ordered map ([std::map]) under every
      store;
    - [TxBuffer]: the write buffer of a transaction ([kv_engine/tx_buffer]);
      [MergingIterator]: its cursor and the merge with a database iterator
      ([kv_engine/merging_iterator]); [SharedBuffer]: the same iterator while the
      buffer it points into is written;
    - [MockStore], [MockEngine]: the in-memory engine and its connections
      ([mock_engine/]); [Transactions]: worlds of several connections, runs as
      sequences of steps, and the transaction theorems.

    Raft ([src/raft/]):
    - [RaftTypes], [MessageCodec], [ProposalPayload], over the reader monad of
      [Wire]: data and wire formats ([types.h], [message_codec], [proposal_payload]);
    - [KvStateMachine]: the replicated machine over the classes [KvStore] and
      [RequestResultStore]; [GroupRouter]: sharding; [LogStore]: the log interface
      as a class, its abstract log, and the in-memory instance;
    - [RaftState], [RaftNode]: the node as a state monad with errors, every
      handler of [raft_node.cpp]; time is an argument and sent messages go to an
      outbox. [RaftInvariants], [RaftElection], [ElectionSafety], [RaftCommit]: a
      group of nodes with a network that loses, duplicates and reorders messages
      and with crashes, and the protocol theorems; [RaftLiveness]: the conversation
      of a leader with a follower that is behind.

    SQL ([src/sql_types/], [src/planner/]):
    - [Bytes]: byte strings, big-endian integers, the byte buffers; [SqlTypes],
      [Temporal]: types, values, calendar; [KeyCodec]: the order-preserving key
      encoding; [SqlKeyRange]: key ranges and the intervals they scan; [KeySet]:
      sets of points with their lazy sorting ([sql_types/key_set.h]);
    - [SqlTruth]: three-valued logic, comparison, [LIKE], condition trees;
      [Rewriter]: the passes over a [WHERE] tree; [Optimizer]: from a [WHERE] tree
      to sorted scan ranges and a residual filter.
    - [Schema], [RowCodec]: table schemas and rows ([sql_types/schema],
      [sql_types/row]): builder calls, validation and storage formats;
    - [KeyPrefix]: the layout of tables in the key space
      ([relation/key_prefix.h]);
    - [KvApi]: the storage interface as classes of operations and laws, with the
      in-memory engine as the instance that discharges them; everything above is
      proved against the laws;
    - [Table], [TableSpec], [TableScan]: tables and their cursors
      ([relation/table], [relation/cursor]), as maps from keys to rows;
    - [Catalog], [CatalogSpec]: databases, tables and statistics in the key
      space ([relation/kv_catalog]);
    - [Planner]: statements, plan trees, the optimizer's entry and the planner
      ([sql_types/query.h], [planner/plan.h], [planner/planner.cpp]);
    - [Executor], [Execute]: the Volcano operators, their factory and the result
      cursor ([executor/executor]); the C++ interface is a class, an operator
      over a child is parametric in the child;
    - [ExecutorSpec], [RowOrder], [PlanRanges], [ScanSpec]: what each operator
      does to a stream of rows; [SelectSpec], [DmlSpec]: whole statements;
      [LiveScan], [UpdateSpec]: a scan that is read while the table is written,
      and UPDATE, which does that;
    - [StmtBuilder], [StmtValidator], [ValidatorSpec]: the productions of the
      grammar and the trees of their actions, their translation and its checks
      ([parser/sql.y], [parser/ast.h], [statement/stmt_builder],
      [statement/stmt_validator]);
    - [TxApi]: transactions of a storage engine as a class with laws; [Session],
      [SessionSteps], [SessionSpec]: the life of a statement in a session
      ([session/session.cpp]) and the transaction machine it refines;
    - [LevelDb]: the third-party LevelDB library as a class of operations with
      its documented laws; [LevelEngine], [LevelIter], [LevelSpec]: the disk
      engine on top of it ([storage/leveldb_engine]), a second instance of the
      storage contract; [LevelLogStore], [LevelLogSpec]: the raft log and the
      request results on disk ([raft/leveldb_log_store],
      [raft/leveldb_request_result_store]);
    - [RaftKv], [RaftKvSpec], [RaftKvData]: the replicated store under SQL
      ([raft/raft_kv_store], [raft/raft_executor.h]);
    - [Protocol]: frames and payloads between client and server
      ([common/proto/protocol]); [Remote], [RemoteSpec]: the server's handling of
      a client, and the local and remote connections ([server/server.cpp],
      [client/connection]);
    - [Peers], [Config], [ConfigSpec]: the list of members of a group and the
      configuration file of the server ([raft/peers.cpp], [server/config.cpp]);
    - [AstHeap]: the trees of the grammar as heap allocations with their
      constructors and destructors ([parser/ast.cpp]); [AstOwn]: who owns
      which cell, and sequences of constructor calls; [AstPrint],
      [AstPrintSpec]: the printers and the text they produce; [Parser]: the class
      around the generated parser ([parser/parser.cpp]);
    - [SourceSpans]: positions of names and errors in a text, colours, and the
      cutting of a script into statements ([statement/source_span],
      [statement/sql_highlight], [common/ansi_color.h], [client/repl.cpp]).

    ** What the theorems show

    - Transactions: reads inside a transaction do not change under it, commits are
      atomic and install exactly what the transaction wrote, scans merge buffer
      and store, at most one connection writes. The connections keep to a
      discipline with the write slot, which [session.cpp] does: no write outside a
      transaction under a slot taken explicitly, no slot given back inside one.
    - Raft: one leader per term, one vote per term, logs agree up to what a
      follower acknowledges, a follower that is behind catches up (the entries it
      lacks being of the leader's term, neither log compacted), the commit index
      only moves to entries half of the group, rounded up, stores; codecs are exact inverses; the state machine applies an entry once
      however often and late it is repeated, and its snapshots restore it; routing partitions the key space.
    - SQL: the key encoding is an order isomorphism, range algebra is set algebra
      and the interval scanned is the range meant; comparison is coherent; the
      structural passes of the rewriter keep truth; a plan keeps
      exactly the rows of its condition and scans in key order.
    - Relations: every table operation refines an operation on a map
      from primary keys to rows and leaves other tables alone; scans return the
      rows of a range in order; schemas and rows survive storage; creating and
      dropping a table does that and nothing else.
    - Statements: optimizer, planner and executor together return the rows SQL
      asks for (SELECT), remove them (DELETE), replace them (UPDATE, although the
      rows are written while they are scanned) and insert rows one by one (INSERT);
      the assumptions (a catalog that knows the table, constants of the kind of
      the key, a WHERE the rewriter keeps the truth of, ranges the engine scans
      faithfully) are hypotheses, and counterexamples show where they are needed.
      The builder makes of every statement of the grammar what it says; what the
      validator accepts, without a repeated column, the executor can run.
    - Sessions: every statement is a step of a transaction machine; uncommitted
      work leaves no trace; a failing statement aborts its transaction exactly if
      it had begun to run, and an aborted one accepts nothing but its end.
    - Disk: a connection of the disk engine behaves as one of the in-memory
      engine on the same rows; the raft log on disk refines the abstract log and
      survives a restart.
    - Replicated store: a transaction proposes to one group only, under that
      group's slot, in every run that leaves the slot to the engine and in those
      that use the slot calls with discipline; a commit leaves in the replica what
      the transaction read.
    - Wire: the frames of the client protocol are exactly those of at most 16 MiB;
      a statement over the wire has the outcome it has inside the process, within
      the limits of rows, frames and queues.
    - Configuration: the text decides and the defaults fill in; what validation
      accepts can be used without an exception and in range; peer lists round trip.
    - Syntax trees in memory: what the constructors allocate is freed exactly once,
      no call follows a dead pointer; printing stays inside its buffer. The fuel of
      [free_ast] and [print_node] is one more than the number of cells of the tree.
    - Positions: the names collected from a tree are those of its statement, in
      order; colouring leaves the visible text alone; a script is run whole, every
      statement with its true line and column, and so are the errors in it.

    ** Conventions and bounds

    A machine integer is a number with its wrap-around written out ([two64],
    [wrap64]); a byte string is a [list byte]; [std::map] is an ordered
    association list ([OMap]); [std::expected] is [result]; [std::optional] and a
    pointer that may be null are [option]. Recursion that is not structural takes
    fuel, and a lemma shows the fuel given by the entry point suffices: the length
    of the input for loops over bytes or rows, the length of the pattern for
    [LIKE], the height of the tree for the rewriter, the number of ranges for the
    merging of points. The loops over table cursors and row operators take the
    number of their turns as an argument; the theorems hold for every number
    larger than the rows of the table and the ranges of the plan.

    Interfaces are classes with their laws ([Iterator], [KvStore],
    [RequestResultStore], [LogStore]); the clients are proved against the classes
    and the instances discharge them. The state machine of a raft node, the cost
    comparison of the optimizer, the parser of a session, the texts of EXPLAIN and
    the LevelDB library are parameters.

    ** Not modelled

    Sockets, threads, coroutines, files, terminals and process set-up; the
    lexer and the automaton generated from the grammar; debug output and
    statistics; the LevelDB library itself.
*)

From stdpp Require Export prelude list gmap strings.
From Stdlib Require Export NArith ZArith Lia.

(** ** Results

    [std::expected<A, E>] and the status-returning functions of the code. *)

Inductive result (E A : Type) : Type :=
| Ok (a : A)
| Err (e : E).
Arguments Ok {E A} a.
Arguments Err {E A} e.

Definition result_bind {E A B} (m : result E A) (k : A -> result E B) : result E B :=
  match m with Ok a => k a | Err e => Err e end.

Definition is_ok {E A} (m : result E A) : bool :=
  match m with Ok _ => true | Err _ => false end.

Declare Scope sqldb_scope.
Delimit Scope sqldb_scope with sqldb.
Open Scope sqldb_scope.

Notation "'let*' p ':=' m 'in' k" :=
  (result_bind m (fun p => k))
  (at level 10, p pattern, m at level 200, k at level 200) : sqldb_scope.

(** [guard! b 'else' e 'in' k]: an early return with the error [e] unless [b]. *)
Notation "'guard!' b 'else' e 'in' k" :=
  (if (b : bool) then k else Err e)
  (at level 10, b at level 200, e at level 200, k at level 200) : sqldb_scope.

(** ** Tactics *)

(** Case analysis on the innermost [match]/[if] scrutinee of the goal. *)
Ltac case_goal :=
  match goal with
  | |- context [match ?x with _ => _ end] =>
      lazymatch x with
      | context [match _ with _ => _ end] => fail
      | _ => destruct x eqn:?
      end
  end.

(** The same on a hypothesis. *)
Ltac case_hyp H :=
  match type of H with
  | context [match ?x with _ => _ end] =>
      lazymatch x with
      | context [match _ with _ => _ end] => fail
      | _ => destruct x eqn:?
      end
  end.

(** Boolean tests of the code to propositions. *)
Ltac boolify :=
  repeat match goal with
  | H : (_ && _)%bool = true |- _ => apply andb_prop in H; destruct H
  | H : (_ || _)%bool = false |- _ => apply orb_false_elim in H; destruct H
  | H : negb _ = true |- _ => apply negb_true_iff in H
  | H : negb _ = false |- _ => apply negb_false_iff in H
  | H : N.eqb _ _ = true |- _ => apply N.eqb_eq in H
  | H : N.eqb _ _ = false |- _ => apply N.eqb_neq in H
  | H : N.ltb _ _ = true |- _ => apply N.ltb_lt in H
  | H : N.ltb _ _ = false |- _ => apply N.ltb_ge in H
  | H : N.leb _ _ = true |- _ => apply N.leb_le in H
  | H : N.leb _ _ = false |- _ => apply N.leb_gt in H
  | H : Z.eqb _ _ = true |- _ => apply Z.eqb_eq in H
  | H : Z.eqb _ _ = false |- _ => apply Z.eqb_neq in H
  | H : Z.ltb _ _ = true |- _ => apply Z.ltb_lt in H
  | H : Z.ltb _ _ = false |- _ => apply Z.ltb_ge in H
  | H : Z.leb _ _ = true |- _ => apply Z.leb_le in H
  | H : Z.leb _ _ = false |- _ => apply Z.leb_gt in H
  | H : Nat.eqb _ _ = true |- _ => apply Nat.eqb_eq in H
  | H : Nat.eqb _ _ = false |- _ => apply Nat.eqb_neq in H
  | H : Nat.ltb _ _ = true |- _ => apply Nat.ltb_lt in H
  | H : Nat.ltb _ _ = false |- _ => apply Nat.ltb_ge in H
  | H : Nat.leb _ _ = true |- _ => apply Nat.leb_le in H
  | H : Nat.leb _ _ = false |- _ => apply Nat.leb_gt in H
  end.

(** Split every existential and conjunction among the hypotheses. *)
Ltac deex :=
  repeat match goal with
  | H : ex _ |- _ => destruct H
  | H : _ /\ _ |- _ => destruct H
  end.

(** ** Machine words *)

Definition two64 : N := 18446744073709551616.
Definition two32 : N := 4294967296.

(** [uint64_t] and [uint32_t] values. *)
Definition u64 (n : N) : Prop := (n < two64)%N.
Definition u32 (n : N) : Prop := (n < two32)%N.

Lemma two64_pow : two64 = (2 ^ 64)%N.
Proof. reflexivity. Qed.

Lemma two32_pow : two32 = (2 ^ 32)%N.
Proof. reflexivity. Qed.

(** ** Lists *)

Lemma drop_app_exact {A} (l k : list A) : drop (length l) (l ++ k) = k.
Proof. by rewrite drop_app_length. Qed.

Lemma take_app_exact {A} (l k : list A) : take (length l) (l ++ k) = l.
Proof. by rewrite take_app_length. Qed.

Lemma filter_ext_in {A} (P Q : A -> Prop) `{!forall x, Decision (P x), !forall x, Decision (Q x)}
    (l : list A) :
  (forall x, x ∈ l -> P x <-> Q x) -> filter P l = filter Q l.
Proof.
  induction l as [|x l IH]; intros Hiff; [done|]. rewrite !filter_cons.
  rewrite IH by (intros y Hy; apply Hiff; by right).
  pose proof (Hiff x ltac:(left)) as Hx.
  case_decide as HP; case_decide as HQ; [done| | |done]; tauto.
Qed.

Lemma elem_of_take_drop {A} (x : A) n (l : list A) : x ∈ take n l \/ x ∈ drop n l <-> x ∈ l.
Proof. rewrite <- (take_drop n l) at 3. by rewrite elem_of_app. Qed.
