(* ===== verification/Bytes.v ===== *)
(** * Byte strings

    [std::string] used as a byte sequence: unsigned lexicographic order
    (the order of [std::string::operator<], which every key comparison of the
    storage layer uses), big-endian integers, and the length-prefixed
    [ByteWriter]/[ByteReader] of [sql_types/byte_buffer.h]. *)

From Stdlib Require Export Strings.Byte.
From S2P Require Import Prelude.
Local Open Scope N_scope.

(** ** Bytes *)

#[export] Instance byte_eq_dec : EqDecision byte := Byte.byte_eq_dec.

Definition byte_of_N (n : N) : byte := default x00 (Byte.of_N (n mod 256)).

Lemma byte_to_N_lt (b : byte) : Byte.to_N b < 256.
Proof. pose proof (Byte.to_N_bounded b). lia. Qed.

Lemma to_N_byte_of_N (n : N) : Byte.to_N (byte_of_N n) = n mod 256.
Proof.
  unfold byte_of_N. assert (Hlt : n mod 256 < 256) by (apply N.mod_lt; lia).
  destruct (Byte.of_N (n mod 256)) as [b|] eqn:E; simpl.
  - by apply Byte.to_of_N.
  - apply Byte.of_N_None_iff in E. lia.
Qed.

Lemma byte_of_N_to_N (b : byte) : byte_of_N (Byte.to_N b) = b.
Proof.
  unfold byte_of_N. rewrite N.mod_small by apply byte_to_N_lt.
  by rewrite Byte.of_to_N.
Qed.

Lemma byte_to_N_inj (a b : byte) : Byte.to_N a = Byte.to_N b -> a = b.
Proof. intros H. by rewrite <- (byte_of_N_to_N a), H, byte_of_N_to_N. Qed.

(** A byte string: [std::string] / [std::string_view]. *)
Abbreviation bytes := (list byte).

Definition bytes_of_string (s : string) : bytes := String.list_byte_of_string s.

(** ** Unsigned lexicographic order: [std::string::operator<] *)

Fixpoint bytes_ltb (a b : bytes) : bool :=
  match a, b with
  | [], [] => false
  | [], _ :: _ => true
  | _ :: _, [] => false
  | x :: a', y :: b' =>
      if Byte.to_N x <? Byte.to_N y then true
      else if Byte.to_N y <? Byte.to_N x then false
      else bytes_ltb a' b'
  end.

Definition bytes_eqb (a b : bytes) : bool := bool_decide (a = b).

Definition bytes_leb (a b : bytes) : bool := negb (bytes_ltb b a).

Definition bytes_lt (a b : bytes) : Prop := bytes_ltb a b = true.

Lemma bytes_ltb_irrefl a : bytes_ltb a a = false.
Proof. induction a; simpl; [done|]. by rewrite N.ltb_irrefl. Qed.

Lemma bytes_ltb_trans a b c :
  bytes_ltb a b = true -> bytes_ltb b c = true -> bytes_ltb a c = true.
Proof.
  revert b c; induction a as [|x a IH]; intros [|y b] [|z c]; simpl; try done.
  repeat case_match; boolify; intros; try done; try lia; eauto.
Qed.

Lemma bytes_ltb_antisym a b : bytes_ltb a b = false -> bytes_ltb b a = false -> a = b.
Proof.
  revert b; induction a as [|x a IH]; intros [|y b]; simpl; try done.
  repeat case_match; boolify; try done; intros. f_equal; [|by auto].
  apply byte_to_N_inj. lia.
Qed.

Lemma bytes_ltb_trichotomy a b :
  bytes_ltb a b = true \/ a = b \/ bytes_ltb b a = true.
Proof.
  destruct (bytes_ltb a b) eqn:E; [by left|].
  destruct (bytes_ltb b a) eqn:F; [by right; right|].
  right; left. by apply bytes_ltb_antisym.
Qed.

Lemma bytes_ltb_asym a b : bytes_ltb a b = true -> bytes_ltb b a = false.
Proof.
  intros H. destruct (bytes_ltb b a) eqn:E; [|done].
  pose proof (bytes_ltb_trans _ _ _ H E). by rewrite bytes_ltb_irrefl in H0.
Qed.

Lemma bytes_ltb_le_trans a b c :
  bytes_ltb a b = true -> bytes_ltb c b = false -> bytes_ltb a c = true.
Proof.
  intros H1 H2. destruct (bytes_ltb_trichotomy b c) as [H|[->|H]]; try congruence.
  by eapply bytes_ltb_trans.
Qed.

Lemma bytes_le_ltb_trans a b c :
  bytes_ltb b a = false -> bytes_ltb b c = true -> bytes_ltb a c = true.
Proof.
  intros H1 H2. destruct (bytes_ltb_trichotomy a b) as [H|[->|H]]; try congruence.
  by eapply bytes_ltb_trans.
Qed.

Lemma bytes_le_trans a b c :
  bytes_ltb b a = false -> bytes_ltb c b = false -> bytes_ltb c a = false.
Proof.
  intros H1 H2. destruct (bytes_ltb c a) eqn:E; [|done].
  pose proof (bytes_ltb_le_trans _ _ _ E H1). congruence.
Qed.

Lemma bytes_ltb_neq a b : bytes_ltb a b = true -> a <> b.
Proof. intros H ->. by rewrite bytes_ltb_irrefl in H. Qed.

Lemma bytes_eqb_eq a b : bytes_eqb a b = true <-> a = b.
Proof. unfold bytes_eqb. by rewrite bool_decide_eq_true. Qed.

Lemma bytes_eqb_refl a : bytes_eqb a a = true.
Proof. by apply bytes_eqb_eq. Qed.

#[export] Instance bytes_lt_strict : StrictOrder bytes_lt.
Proof.
  split; unfold bytes_lt.
  - intros a H. by rewrite bytes_ltb_irrefl in H.
  - intros a b c. apply bytes_ltb_trans.
Qed.

Create HintDb bytes_order.
#[export] Hint Resolve bytes_ltb_irrefl bytes_ltb_asym bytes_ltb_neq : bytes_order.
#[export] Hint Resolve bytes_ltb_trans bytes_ltb_le_trans bytes_le_ltb_trans
  bytes_le_trans : bytes_order.

(** Decide the order of [a] and [b], substituting in the equal case. *)
Ltac bytes_cmp a b :=
  let H := fresh "Hcmp" in
  destruct (bytes_ltb_trichotomy a b) as [H|[H|H]];
  [ | subst; try rewrite !bytes_ltb_irrefl in * | ].

(** Prefixes are smaller, and comparisons go through a common prefix. *)
Lemma bytes_ltb_app_common p a b : bytes_ltb (p ++ a) (p ++ b) = bytes_ltb a b.
Proof. induction p as [|x p IH]; simpl; [done|]. by rewrite N.ltb_irrefl. Qed.

Lemma bytes_ltb_app_r a b : b <> [] -> bytes_ltb a (a ++ b) = true.
Proof.
  intros Hb. rewrite <- (app_nil_r a) at 1. rewrite bytes_ltb_app_common.
  by destruct b.
Qed.

Lemma bytes_ltb_nil_r a : bytes_ltb a [] = false.
Proof. by destruct a. Qed.

(** [a ++ 0x00] is the immediate successor of [a]. *)
Lemma bytes_ltb_succ a b : bytes_ltb b (a ++ [x00]) = negb (bytes_ltb a b).
Proof.
  revert b; induction a as [|x a IH]; intros [|y b]; simpl; try done.
  - destruct (Byte.to_N y <? 0) eqn:E; [boolify; lia|].
    destruct (0 <? Byte.to_N y) eqn:F; [done|]. by destruct b.
  - destruct (Byte.to_N y <? Byte.to_N x) eqn:E, (Byte.to_N x <? Byte.to_N y) eqn:F;
      boolify; try done; try lia.
Qed.

(** ** Big-endian integers

    [be_put n v] are the [n] bytes [(v >> (8 * (n - 1 - i))) & 0xff], which is
    what every [put_u32]/[put_u64]/[append_u64]/[encode_be64] loop of the code
    pushes; [be_get] is the loop [result = (result << 8) | byte]. *)

Fixpoint be_put (n : nat) (v : N) : bytes :=
  match n with
  | O => []
  | S m => byte_of_N (N.land (N.shiftr v (8 * N.of_nat m)) 255) :: be_put m v
  end.

Definition be_get (l : bytes) : N :=
  fold_left (fun acc b => N.lor (N.shiftl acc 8) (Byte.to_N b)) l 0.

Lemma lor_shiftl_add acc b : b < 256 -> N.lor (N.shiftl acc 8) b = acc * 256 + b.
Proof.
  intros Hb. assert (N.land (N.shiftl acc 8) b = 0) as Hland.
  { apply N.bits_inj. intros i. rewrite N.land_spec, N.bits_0.
    destruct (N.lt_ge_cases i 8).
    - by rewrite N.shiftl_spec_low.
    - rewrite (N.bits_above_log2 b); [by rewrite andb_false_r|].
      destruct (N.eq_dec b 0) as [->|Hnz]; [simpl; lia|].
      apply N.log2_lt_pow2; [lia|]. apply N.lt_le_trans with (2 ^ 8); [done|].
      apply N.pow_le_mono_r; lia. }
  rewrite <- N.lxor_lor, <- N.add_nocarry_lxor by done.
  by rewrite N.shiftl_mul_pow2.
Qed.

Lemma land_255 v : N.land v 255 = v mod 256.
Proof. change 255 with (N.ones 8). by rewrite N.land_ones. Qed.

Lemma length_be_put n v : length (be_put n v) = n.
Proof. induction n; simpl; congruence. Qed.

Lemma to_N_be_digit v k :
  Byte.to_N (byte_of_N (N.land (N.shiftr v k) 255)) = (v / 2 ^ k) mod 256.
Proof.
  rewrite to_N_byte_of_N, land_255, N.shiftr_div_pow2.
  by rewrite N.Div0.mod_mod.
Qed.

Definition be_acc (acc : N) (l : bytes) : N :=
  fold_left (fun acc b => N.lor (N.shiftl acc 8) (Byte.to_N b)) l acc.

Lemma be_acc_put acc n v :
  be_acc acc (be_put n v) = acc * 2 ^ (8 * N.of_nat n) + v mod 2 ^ (8 * N.of_nat n).
Proof.
  revert acc; induction n as [|n IH]; intros acc; cbn [be_put be_acc fold_left].
  { rewrite N.mod_1_r. simpl. lia. }
  fold (be_acc (N.lor (N.shiftl acc 8)
    (Byte.to_N (byte_of_N (N.land (N.shiftr v (8 * N.of_nat n)) 255)))) (be_put n v)).
  rewrite IH, to_N_be_digit, lor_shiftl_add by (apply N.mod_lt; lia).
  replace (8 * N.of_nat (S n)) with (8 * N.of_nat n + 8) by lia.
  rewrite N.pow_add_r. set (p := 2 ^ (8 * N.of_nat n)).
  assert (p <> 0) by (apply N.pow_nonzero; lia).
  rewrite (N.Div0.mod_mul_r v p (2 ^ 8)). change (2 ^ 8) with 256. lia.
Qed.

Lemma be_get_put n v : v < 2 ^ (8 * N.of_nat n) -> be_get (be_put n v) = v.
Proof.
  intros H. change (be_get (be_put n v)) with (be_acc 0 (be_put n v)).
  rewrite be_acc_put, N.mod_small by done. lia.
Qed.

Lemma be_acc_lt acc l :
  be_acc acc l < (acc + 1) * 2 ^ (8 * N.of_nat (length l)).
Proof.
  revert acc; induction l as [|b l IH]; intros acc; cbn [be_acc fold_left length].
  { simpl. lia. }
  fold (be_acc (N.lor (N.shiftl acc 8) (Byte.to_N b)) l).
  pose proof (byte_to_N_lt b). rewrite lor_shiftl_add by done.
  eapply N.lt_le_trans; [apply IH|].
  replace (8 * N.of_nat (S (length l))) with (8 + 8 * N.of_nat (length l)) by lia.
  rewrite N.pow_add_r. change (2 ^ 8) with 256.
  assert (2 ^ (8 * N.of_nat (length l)) <> 0) by (apply N.pow_nonzero; lia). nia.
Qed.

Lemma be_get_lt l : be_get l < 2 ^ (8 * N.of_nat (length l)).
Proof. pose proof (be_acc_lt 0 l). unfold be_acc, be_get in *. lia. Qed.

Lemma be_put_mod n v : be_put n v = be_put n (v mod 2 ^ (8 * N.of_nat n)).
Proof.
  assert (forall m, (m <= n)%nat ->
    be_put m v = be_put m (v mod 2 ^ (8 * N.of_nat n))) as Hm; [|by apply Hm].
  induction m as [|m IH]; intros Hle; simpl; [done|].
  f_equal; [|apply IH; lia]. apply byte_to_N_inj.
  rewrite !to_N_be_digit.
  replace (8 * N.of_nat n) with (8 * N.of_nat m + (8 + 8 * N.of_nat (n - S m))) by lia.
  rewrite (N.pow_add_r 2 (8 * N.of_nat m)). set (p := 2 ^ (8 * N.of_nat m)).
  assert (p <> 0) by (apply N.pow_nonzero; lia).
  rewrite N.Div0.mod_mul_r, N.add_comm, N.mul_comm, N.div_add_l by done.
  rewrite (N.div_small (v mod p)) by (apply N.mod_lt; done).
  rewrite N.add_0_r, N.pow_add_r. change (2 ^ 8) with 256.
  rewrite N.Div0.mod_mul_r, N.mul_comm, N.add_comm.
  rewrite N.Div0.add_mod, N.Div0.mod_mul, N.add_0_l, !N.Div0.mod_mod. done.
Qed.

Lemma div_lt_lt p a b : a / p < b / p -> a < b.
Proof.
  intros H. destruct (N.lt_ge_cases a b) as [|Hge]; [done|].
  pose proof (N.Div0.div_le_mono b a p Hge). lia.
Qed.

(** Big-endian encodings of equal width compare like the numbers. *)
Lemma bytes_ltb_be_put n a b :
  a < 2 ^ (8 * N.of_nat n) -> b < 2 ^ (8 * N.of_nat n) ->
  bytes_ltb (be_put n a) (be_put n b) = (a <? b).
Proof.
  revert a b; induction n as [|n IH]; intros a b Ha Hb; cbn [be_put bytes_ltb].
  { simpl in *. symmetry. apply N.ltb_ge. lia. }
  rewrite !to_N_be_digit.
  replace (8 * N.of_nat (S n)) with (8 * N.of_nat n + 8) in * by lia.
  rewrite N.pow_add_r in *. set (p := 2 ^ (8 * N.of_nat n)) in *.
  change (2 ^ 8) with 256 in *.
  assert (p <> 0) by (apply N.pow_nonzero; lia).
  rewrite (N.mod_small (a / p)), (N.mod_small (b / p)) by (apply N.Div0.div_lt_upper_bound; lia).
  pose proof (N.div_mod a p ltac:(done)). pose proof (N.div_mod b p ltac:(done)).
  pose proof (N.mod_lt a p ltac:(done)). pose proof (N.mod_lt b p ltac:(done)).
  destruct (a / p <? b / p) eqn:E1; boolify.
  { symmetry. apply N.ltb_lt. by apply (div_lt_lt p). }
  destruct (b / p <? a / p) eqn:E2; boolify.
  { symmetry. apply N.ltb_ge. apply N.lt_le_incl. by apply (div_lt_lt p). }
  rewrite (be_put_mod n a), (be_put_mod n b), IH by (apply N.mod_lt; done).
  fold p. assert (a / p = b / p) as Heq by lia. rewrite Heq in *.
  destruct (a mod p <? b mod p) eqn:E3; boolify; symmetry;
    [apply N.ltb_lt | apply N.ltb_ge]; lia.
Qed.

Lemma be_put_get l : be_put (length l) (be_get l) = l.
Proof.
  induction l as [|b l IH] using rev_ind; [done|].
  unfold be_get. rewrite fold_left_app. cbn [fold_left]. fold (be_get l).
  rewrite lor_shiftl_add by apply byte_to_N_lt. rewrite length_app. cbn [length].
  assert (forall n v d, d < 256 -> be_put (n + 1) (v * 256 + d) = be_put n v ++ [byte_of_N d])
    as Hsnoc.
  { clear. induction n as [|n IH]; intros v d Hd; cbn [be_put app Nat.add].
    - rewrite N.mul_0_r, N.shiftr_0_r, land_255.
      rewrite N.add_comm, N.Div0.mod_add. f_equal. f_equal. by apply N.mod_small.
    - rewrite IH by done. f_equal. apply byte_to_N_inj. rewrite !to_N_be_digit.
      replace (8 * N.of_nat (n + 1)) with (8 + 8 * N.of_nat n) by lia.
      rewrite N.pow_add_r, <- N.Div0.div_div. change (2 ^ 8) with 256.
      by rewrite N.div_add_l, (N.div_small d), N.add_0_r by lia. }
  rewrite Hsnoc by apply byte_to_N_lt. by rewrite IH, byte_of_N_to_N.
Qed.

(** The decoding loops of [ByteReader::get_u32] and [KeyCodecs::decode_be64]
    accumulate [v |= byte << shift] instead; they compute the same number. *)
Fixpoint be_or (l : bytes) : N :=
  match l with
  | [] => 0
  | b :: t => N.lor (N.shiftl (Byte.to_N b) (8 * N.of_nat (length t))) (be_or t)
  end.

Lemma be_acc_or acc l :
  be_acc acc l = N.lor (N.shiftl acc (8 * N.of_nat (length l))) (be_or l).
Proof.
  revert acc; induction l as [|b l IH]; intros acc; cbn [be_acc fold_left be_or length].
  { by rewrite N.shiftl_0_r, N.lor_0_r. }
  fold (be_acc (N.lor (N.shiftl acc 8) (Byte.to_N b)) l).
  rewrite IH, N.shiftl_lor, N.shiftl_shiftl, N.lor_assoc. do 3 f_equal. lia.
Qed.

Lemma be_or_get l : be_or l = be_get l.
Proof. change (be_get l) with (be_acc 0 l). by rewrite be_acc_or, N.shiftl_0_l. Qed.

#[global] Opaque be_put be_get.

(** ** [sql_types/byte_buffer.h]

    [ByteWriter] is its buffer [buf_]; every [put_*] appends to it.
    [ByteReader] keeps the unread part of [data_] (everything from [pos_] on)
    and the sticky flag [ok_]. *)

Definition put_u8 (buf : bytes) (v : N) : bytes := buf ++ [byte_of_N v].
Definition put_u32 (buf : bytes) (v : N) : bytes := buf ++ be_put 4 v.
Definition put_str (buf : bytes) (s : bytes) : bytes :=
  put_u32 buf (N.of_nat (length s) mod two32) ++ s.

Record ByteReader := mkByteReader { unread : bytes; ok_ : bool }.

Definition byte_reader (data : bytes) : ByteReader := mkByteReader data true.
Definition br_remaining (r : ByteReader) : N := N.of_nat (length (unread r)).
Definition br_eof (r : ByteReader) : bool := br_remaining r =? 0.
Definition br_fail (r : ByteReader) : ByteReader := mkByteReader (unread r) false.

Definition get_u8 (r : ByteReader) : ByteReader * N :=
  if negb (ok_ r) || (br_remaining r <? 1) then (br_fail r, 0)
  else (mkByteReader (drop 1 (unread r)) true,
        Byte.to_N (default x00 (unread r !! 0%nat))).

Definition get_u32 (r : ByteReader) : ByteReader * N :=
  if negb (ok_ r) || (br_remaining r <? 4) then (br_fail r, 0)
  else (mkByteReader (drop 4 (unread r)) true, be_or (take 4 (unread r))).

Definition get_str (r : ByteReader) : ByteReader * bytes :=
  let '(r, len) := get_u32 r in
  if negb (ok_ r) || (br_remaining r <? len) then (br_fail r, [])
  else (mkByteReader (drop (N.to_nat len) (unread r)) true,
        take (N.to_nat len) (unread r)).

Lemma get_u32_put (v : N) rest :
  u32 v -> get_u32 (mkByteReader (be_put 4 v ++ rest) true) = (mkByteReader rest true, v).
Proof.
  intros Hv. unfold get_u32, br_remaining. cbn [ok_ unread negb orb].
  rewrite length_app, length_be_put.
  destruct (N.of_nat (4 + length rest) <? 4) eqn:E; boolify; [lia|].
  rewrite <- (length_be_put 4 v) at 1. rewrite drop_app_exact.
  rewrite <- (length_be_put 4 v) at 1. rewrite take_app_exact, be_or_get.
  by rewrite be_get_put.
Qed.

Lemma get_str_put (s : bytes) rest :
  u32 (N.of_nat (length s)) ->
  get_str (mkByteReader (put_str [] s ++ rest) true) = (mkByteReader rest true, s).
Proof.
  intros Hs. unfold get_str, put_str, put_u32. rewrite N.mod_small by done.
  rewrite <- app_assoc, app_nil_l, get_u32_put by done.
  unfold br_remaining. cbn [ok_ unread negb orb]. rewrite length_app.
  destruct (N.of_nat (length s + length rest) <? N.of_nat (length s)) eqn:E; boolify; [lia|].
  by rewrite Nat2N.id, drop_app_exact, take_app_exact.
Qed.

(** The reader's failure flag is sticky: once a read failed every later read
    fails and yields the default value. *)
Lemma get_u32_failed (r : ByteReader) :
  ok_ r = false -> get_u32 r = (br_fail r, 0).
Proof. intros H. unfold get_u32. by rewrite H. Qed.

Lemma get_str_failed (r : ByteReader) :
  ok_ r = false -> get_str r = (br_fail r, []).
Proof. intros H. unfold get_str. by rewrite get_u32_failed. Qed.

Lemma get_u8_put (v : N) rest :
  v < 256 -> get_u8 (mkByteReader (put_u8 [] v ++ rest) true) = (mkByteReader rest true, v).
Proof.
  intros Hv. unfold get_u8, br_remaining. cbn [ok_ unread negb orb put_u8 app length].
  destruct (N.of_nat (S (length rest)) <? 1) eqn:E; boolify; [lia|].
  simpl.
  by rewrite drop_0, to_N_byte_of_N, N.mod_small.
Qed.

(** Writers append: what is written does not depend on what was written before. *)
Lemma put_u8_app buf v : put_u8 buf v = buf ++ put_u8 [] v.
Proof. done. Qed.
Lemma put_u32_app buf v : put_u32 buf v = buf ++ be_put 4 v.
Proof. done. Qed.
Lemma put_str_app buf s : put_str buf s = buf ++ put_str [] s.
Proof. unfold put_str, put_u32. by rewrite app_nil_l, app_assoc. Qed.

Lemma fold_put_app {A} (f : bytes -> A -> bytes) (l : list A) (buf : bytes) :
  (forall buf a, f buf a = buf ++ f [] a) ->
  fold_left f l buf = buf ++ concat (map (f []) l).
Proof.
  intros Hf. revert buf. induction l as [|a l IH]; intros buf; simpl; [by rewrite app_nil_r|].
  by rewrite IH, Hf, app_assoc.
Qed.
