(* ===== verification/OMap.v ===== *)
(** * [std::map<std::string, V>]

    The ordered maps of the storage layer ([MockStore::data_],
    [TxBuffer::view_], the snapshots) as association lists kept in strictly
    increasing key order; an iterator is a position in the list, the length
    standing for [end()]. *)

From Stdlib Require Export Sorting.Sorted.
From S2P Require Import Prelude Bytes.

Abbreviation omap V := (list (bytes * V)).

Section OMap.
Context {V : Type}.
Implicit Types (m : omap V) (k : bytes) (v : V).

Definition key_before (p q : bytes * V) : Prop := bytes_lt p.1 q.1.

(** The representation invariant. *)
Definition sorted m : Prop := StronglySorted key_before m.

Fixpoint mfind k m : option V :=
  match m with
  | [] => None
  | (k', v') :: m' =>
      if bytes_ltb k k' then None
      else if bytes_ltb k' k then mfind k m' else Some v'
  end.

(** [m[k] = v] *)
Fixpoint minsert k v m : omap V :=
  match m with
  | [] => [(k, v)]
  | (k', v') :: m' =>
      if bytes_ltb k k' then (k, v) :: m
      else if bytes_ltb k' k then (k', v') :: minsert k v m'
      else (k', v) :: m'
  end.

(** [m.erase(k)] *)
Fixpoint merase k m : omap V :=
  match m with
  | [] => []
  | (k', v') :: m' =>
      if bytes_ltb k k' then m
      else if bytes_ltb k' k then (k', v') :: merase k m' else m'
  end.

(** [m.lower_bound(k)]: the first position whose key is not below [k];
    [m.upper_bound(k)]: the first position whose key is above [k]. *)
Fixpoint lower_bound k m : nat :=
  match m with
  | [] => 0
  | (k', _) :: m' => if bytes_ltb k' k then S (lower_bound k m') else 0
  end.

Fixpoint upper_bound k m : nat :=
  match m with
  | [] => 0
  | (k', _) :: m' => if bytes_ltb k k' then 0 else S (upper_bound k m')
  end.

(** Erase from an iterator while the key is below [e]. *)
Fixpoint drop_below (e : bytes) m : omap V :=
  match m with
  | [] => []
  | (k', v') :: m' => if bytes_ltb k' e then drop_below e m' else m
  end.

(** [it = lower_bound(b); while (it != end && it->first < e) it = erase(it);] *)
Definition erase_range (b e : bytes) m : omap V :=
  take (lower_bound b m) m ++ drop_below e (drop (lower_bound b m) m).

Lemma sorted_nil : sorted [].
Proof. constructor. Qed.

Lemma sorted_tail p m : sorted (p :: m) -> sorted m.
Proof. by inversion 1. Qed.

Lemma sorted_head p m : sorted (p :: m) -> Forall (key_before p) m.
Proof. by inversion 1. Qed.

Lemma sorted_app m1 m2 :
  sorted (m1 ++ m2) <->
  sorted m1 /\ sorted m2 /\ forall p q, p ∈ m1 -> q ∈ m2 -> key_before p q.
Proof.
  unfold sorted. induction m1 as [|x m1 IH]; simpl.
  { split; [intros H; split_and!; [constructor|done|]|by intros (_&?&_)].
    intros p q Hp. by apply elem_of_nil in Hp. }
  split.
  - inversion 1 as [|? ? Hs Hf]; subst. apply IH in Hs as (Hs1&Hs2&H12).
    apply Forall_app in Hf as [Hf1 Hf2]. split_and!; [by constructor|done|].
    intros p q [->|Hp]%elem_of_cons Hq; [by eapply Forall_forall in Hf2|eauto].
  - intros (Hs1&Hs2&H12). inversion Hs1; subst. constructor.
    + apply IH. split_and!; [done|done|]. intros p q Hp Hq. apply H12; [by right|done].
    + apply Forall_app; split; [done|]. apply Forall_forall. intros q Hq.
      apply H12; [left|done].
Qed.

Lemma find_above k m : Forall (fun p => bytes_lt k p.1) m -> mfind k m = None.
Proof. destruct m as [|[k' v'] m]; simpl; [done|]. inversion 1; subst. simpl in *.
  unfold bytes_lt in *. by rewrite H2. Qed.

Lemma find_cons_eq k v m : mfind k ((k, v) :: m) = Some v.
Proof. simpl. by rewrite bytes_ltb_irrefl. Qed.

Lemma find_cons_gt k k' v m :
  bytes_ltb k' k = true -> mfind k ((k', v) :: m) = mfind k m.
Proof. intros H. simpl. by rewrite (bytes_ltb_asym _ _ H), H. Qed.

Lemma find_cons_ne k k' v m :
  sorted ((k', v) :: m) -> k <> k' -> mfind k ((k', v) :: m) = mfind k m.
Proof.
  intros Hs Hne. bytes_cmp k k'; [|done|by apply find_cons_gt].
  simpl. rewrite Hcmp. symmetry. apply find_above.
  eapply Forall_impl; [apply (sorted_head _ _ Hs)|].
  intros p Hp. unfold key_before, bytes_lt in *. simpl in Hp. by eapply bytes_ltb_trans.
Qed.

Lemma find_elem k v m : sorted m -> mfind k m = Some v <-> (k, v) ∈ m.
Proof.
  induction m as [|[k' v'] m IH]; intros Hs.
  { simpl. split; [done|]. by intros ?%elem_of_nil. }
  rewrite elem_of_cons. destruct (decide (k = k')) as [->|Hne].
  - rewrite find_cons_eq. split; [intros [= ->]; by left|].
    intros [[= ->]|Hin]; [done|].
    pose proof (sorted_head _ _ Hs) as Hf. eapply Forall_forall in Hf; [|done].
    unfold key_before, bytes_lt in Hf. simpl in Hf. by rewrite bytes_ltb_irrefl in Hf.
  - rewrite find_cons_ne by done. rewrite IH by by eapply sorted_tail.
    split; [by right|]. intros [[= -> ->]|?]; done.
Qed.

Lemma mfind_insert_eq k v m : mfind k (minsert k v m) = Some v.
Proof.
  induction m as [|[k' v'] m IH]; cbn [minsert]; [apply find_cons_eq|].
  destruct (bytes_ltb k k') eqn:E1; [apply find_cons_eq|].
  destruct (bytes_ltb k' k) eqn:E2; [by rewrite find_cons_gt|].
  cbn [mfind]. by rewrite E1, E2.
Qed.

Lemma minsert_Forall (P : bytes * V -> Prop) k v m :
  P (k, v) -> (forall k' v', P (k', v') -> P (k', v)) ->
  Forall P m -> Forall P (minsert k v m).
Proof.
  intros Hkv Hmono. induction m as [|[k' v'] m IH]; intros Hf; cbn [minsert]; [by constructor|].
  inversion Hf; subst. repeat case_match; constructor; eauto.
Qed.

Lemma msorted_insert k v m : sorted m -> sorted (minsert k v m).
Proof.
  induction m as [|[k' v'] m IH]; intros Hs; cbn [minsert].
  { repeat constructor. }
  inversion Hs; subst. destruct (bytes_ltb k k') eqn:E1; [|destruct (bytes_ltb k' k) eqn:E2].
  - constructor; [done|]. constructor; [done|].
    eapply Forall_impl; [done|]. intros p Hp. unfold key_before, bytes_lt in *.
    simpl in *. by eapply bytes_ltb_trans.
  - constructor; [by apply IH|]. apply minsert_Forall; done.
  - by constructor.
Qed.

Lemma mfind_insert_ne k k0 v m :
  sorted m -> k0 <> k -> mfind k0 (minsert k v m) = mfind k0 m.
Proof.
  intros Hs Hne. induction m as [|[k' v'] m IH]; cbn [minsert].
  { cbn [mfind]. bytes_cmp k0 k; rewrite ?Hcmp; [done|done|].
    by rewrite (bytes_ltb_asym _ _ Hcmp). }
  destruct (bytes_ltb k k') eqn:E1; [|destruct (bytes_ltb k' k) eqn:E2].
  - rewrite find_cons_ne; [done| |done].
    constructor; [done|]. constructor; [done|].
    eapply Forall_impl; [apply (sorted_head _ _ Hs)|]. intros p Hp.
    unfold key_before, bytes_lt in *. simpl in *. by eapply bytes_ltb_trans.
  - cbn [mfind]. rewrite IH by by eapply sorted_tail. done.
  - assert (k' = k) as -> by by apply bytes_ltb_antisym.
    rewrite (find_cons_ne _ _ v') by done. apply find_cons_ne; [|done].
    inversion Hs; subst. by constructor.
Qed.

Lemma msorted_erase k m : sorted m -> sorted (merase k m).
Proof.
  induction m as [|[k' v'] m IH]; intros Hs; cbn [merase]; [done|].
  inversion Hs; subst. repeat case_match; [done| |done].
  constructor; [by apply IH|]. clear -H2. induction m as [|[k2 v2] m IH]; cbn [merase]; [done|].
  inversion H2; subst. repeat case_match; try done. constructor; auto.
Qed.

Lemma mfind_erase_eq k m : sorted m -> mfind k (merase k m) = None.
Proof.
  induction m as [|[k' v'] m IH]; intros Hs; cbn [merase]; [done|].
  destruct (bytes_ltb k k') eqn:E1; [by cbn [mfind]; rewrite E1|].
  destruct (bytes_ltb k' k) eqn:E2.
  - rewrite find_cons_gt by done. apply IH. by eapply sorted_tail.
  - assert (k' = k) as -> by by apply bytes_ltb_antisym.
    apply find_above. by apply (sorted_head _ _ Hs).
Qed.

Lemma mfind_erase_ne k k0 m : sorted m -> k0 <> k -> mfind k0 (merase k m) = mfind k0 m.
Proof.
  intros Hs Hne. induction m as [|[k' v'] m IH]; cbn [merase]; [done|].
  destruct (bytes_ltb k k') eqn:E1; [done|].
  destruct (bytes_ltb k' k) eqn:E2.
  - cbn [mfind]. by rewrite IH by by eapply sorted_tail.
  - assert (k' = k) as -> by by apply bytes_ltb_antisym.
    by rewrite find_cons_ne.
Qed.

(** Extensionality: a sorted map is determined by its lookups. *)
Lemma omap_ext m1 m2 :
  sorted m1 -> sorted m2 -> (forall k, mfind k m1 = mfind k m2) -> m1 = m2.
Proof.
  revert m2. induction m1 as [|[k1 v1] m1 IH]; intros [|[k2 v2] m2] Hs1 Hs2 Hext.
  - done.
  - specialize (Hext k2). by rewrite find_cons_eq in Hext.
  - specialize (Hext k1). by rewrite find_cons_eq in Hext.
  - assert (k1 = k2) as ->.
    { pose proof (Hext k1) as H1. pose proof (Hext k2) as H2.
      rewrite find_cons_eq in H1. rewrite find_cons_eq in H2.
      bytes_cmp k1 k2; [|done|].
      - cbn [mfind] in H1. by rewrite Hcmp in H1.
      - cbn [mfind] in H2. by rewrite Hcmp in H2. }
    pose proof (Hext k2) as Hk. rewrite !find_cons_eq in Hk. injection Hk as ->.
    f_equal. apply IH; [by eapply sorted_tail..|]. intros k.
    destruct (decide (k = k2)) as [->|Hne].
    + rewrite !find_above by (by apply (sorted_head (k2, v2))). done.
    + specialize (Hext k). by rewrite !find_cons_ne in Hext.
Qed.

(** Filtering by a predicate on keys. *)
Lemma sorted_filter (P : bytes * V -> bool) m :
  sorted m -> sorted (filter (fun p => P p = true) m).
Proof.
  induction 1 as [|p m Hs IH Hf]; [constructor|]. rewrite filter_cons. case_decide; [|done].
  constructor; [done|]. apply Forall_forall. intros q [_ Hq]%list_elem_of_filter.
  by eapply Forall_forall in Hf.
Qed.

Lemma find_filter (P : bytes -> bool) k m :
  sorted m ->
  mfind k (filter (fun p => P p.1 = true) m) = if P k then mfind k m else None.
Proof.
  induction m as [|[k' v'] m IH]; intros Hs; [by destruct (P k)|].
  pose proof (sorted_tail _ _ Hs) as Hs'. pose proof (sorted_filter (fun p => P p.1) _ Hs) as Hsf.
  specialize (IH Hs').
  destruct (decide (k = k')) as [->|Hne].
  - rewrite find_cons_eq, filter_cons. cbn [fst]. case_decide as Hd.
    + by rewrite find_cons_eq, Hd.
    + destruct (P k'); [done|]. done.
  - rewrite (find_cons_ne _ _ _ m) by done. rewrite <- IH.
    rewrite filter_cons in *. cbn [fst] in *. case_decide; [|done].
    by apply find_cons_ne.
Qed.

Lemma filter_none (P : bytes -> bool) m :
  Forall (fun p => P p.1 = false) m -> filter (fun p => P p.1 = true) m = [].
Proof.
  induction 1 as [|p m Hp Hf IH]; [done|]. rewrite filter_cons. by rewrite Hp.
Qed.

Lemma filter_all (P : bytes -> bool) m :
  Forall (fun p => P p.1 = true) m -> filter (fun p => P p.1 = true) m = m.
Proof.
  induction 1 as [|p m Hp Hf IH]; [done|]. rewrite filter_cons. rewrite Hp. by rewrite IH.
Qed.

Lemma sorted_not_below k p m :
  sorted (p :: m) -> bytes_ltb p.1 k = false ->
  Forall (fun q => bytes_ltb q.1 k = false) m.
Proof.
  intros Hs Hp. eapply Forall_impl; [apply (sorted_head _ _ Hs)|].
  intros q Hq. unfold key_before, bytes_lt in Hq.
  destruct (bytes_ltb q.1 k) eqn:E2; [|done].
  pose proof (bytes_ltb_trans _ _ _ Hq E2). congruence.
Qed.

(** The prefix before [lower_bound(k)] are the keys below [k], the suffix from
    it on the others. *)
Lemma take_lower_bound k m :
  sorted m -> take (lower_bound k m) m = filter (fun p => bytes_ltb p.1 k = true) m.
Proof.
  induction m as [|[k' v'] m IH]; intros Hs; simpl; [done|].
  rewrite filter_cons. simpl. destruct (bytes_ltb k' k) eqn:E; simpl.
  - by rewrite IH by by eapply sorted_tail.
  - symmetry. apply (filter_none (fun x => bytes_ltb x k)). by eapply sorted_not_below.
Qed.

Lemma drop_lower_bound k m :
  sorted m -> drop (lower_bound k m) m = filter (fun p => negb (bytes_ltb p.1 k) = true) m.
Proof.
  induction m as [|[k' v'] m IH]; intros Hs; simpl; [done|].
  rewrite filter_cons. simpl. destruct (bytes_ltb k' k) eqn:E; simpl.
  - by apply IH; eapply sorted_tail.
  - f_equal. symmetry. apply (filter_all (fun x => negb (bytes_ltb x k))).
    eapply Forall_impl; [by eapply sorted_not_below|]. simpl. by intros q ->.
Qed.

Lemma drop_below_filter e m :
  sorted m -> drop_below e m = filter (fun p => negb (bytes_ltb p.1 e) = true) m.
Proof.
  induction m as [|[k' v'] m IH]; intros Hs; simpl; [done|].
  rewrite filter_cons. simpl. destruct (bytes_ltb k' e) eqn:E; simpl.
  - by apply IH; eapply sorted_tail.
  - f_equal. symmetry. apply (filter_all (fun x => negb (bytes_ltb x e))).
    eapply Forall_impl; [by eapply sorted_not_below|]. simpl. by intros q ->.
Qed.

Lemma take_upper_bound k m :
  sorted m -> take (upper_bound k m) m = filter (fun p => negb (bytes_ltb k p.1) = true) m.
Proof.
  induction m as [|[k' v'] m IH]; intros Hs; simpl; [done|].
  rewrite filter_cons. simpl. destruct (bytes_ltb k k') eqn:E; simpl.
  - symmetry. apply (filter_none (fun x => negb (bytes_ltb k x))).
    eapply Forall_impl; [apply (sorted_head _ _ Hs)|]. intros p Hp.
    unfold key_before, bytes_lt in Hp. simpl in *. by rewrite (bytes_ltb_trans k k').
  - by rewrite IH by by eapply sorted_tail.
Qed.

Lemma upper_bound_le k m : upper_bound k m <= length m.
Proof. induction m as [|[? ?] m IH]; simpl; [done|]. case_match; lia. Qed.

Definition in_range (b e k : bytes) : bool := negb (bytes_ltb k b) && bytes_ltb k e.

Lemma erase_range_filter b e m :
  sorted m -> bytes_ltb e b = false ->
  erase_range b e m = filter (fun p => negb (in_range b e p.1) = true) m.
Proof.
  intros Hs Hbe. unfold erase_range.
  rewrite take_lower_bound, drop_lower_bound, drop_below_filter
    by (try apply (sorted_filter (fun p => negb (bytes_ltb p.1 b))); done).
  unfold in_range. induction m as [|[k v] m IH]; [done|].
  pose proof (sorted_tail _ _ Hs) as Hs'. specialize (IH Hs').
  rewrite !(filter_cons _ (k, v)). simpl.
  destruct (bytes_ltb k b) eqn:E1; simpl.
  - by rewrite IH.
  - rewrite (filter_none (fun x => bytes_ltb x b)) in * by by eapply sorted_not_below.
    rewrite app_nil_l in *. rewrite filter_cons. simpl.
    destruct (bytes_ltb k e) eqn:E2; simpl; [done|]. by f_equal.
Qed.

Lemma sorted_erase_range b e m :
  sorted m -> bytes_ltb e b = false -> sorted (erase_range b e m).
Proof.
  intros. rewrite erase_range_filter by done.
  by apply (sorted_filter (fun p => negb (in_range b e p.1))).
Qed.

Lemma find_erase_range b e k m :
  sorted m -> bytes_ltb e b = false ->
  mfind k (erase_range b e m) = if in_range b e k then None else mfind k m.
Proof.
  intros. rewrite erase_range_filter, (find_filter (fun x => negb (in_range b e x))) by done.
  by destruct (in_range b e k).
Qed.

End OMap.

Create HintDb omap.
#[export] Hint Resolve sorted_nil msorted_insert msorted_erase sorted_erase_range : omap.
