(* ===== verification/KvTypes.v ===== *)
(** * The storage interface: [storage/kv_engine/kv_engine.h]

    Status codes, write batches, physical key ranges and the iterator
    interface.  The iterator interface is a class of operations ([Iterator])
    with its laws ([IteratorLaws]): an iterator stands for a list of rows in
    scan order, the rows already passed and the rows still to come, and the
    clients (scans, the merging iterator, snapshots) are proved against the
    laws. *)

From S2P Require Import Prelude Bytes OMap.

Abbreviation Key := bytes.
Abbreviation ByteValue := bytes.

(** [struct KVPair] *)
Record KVPair := mkKVPair { pkey : Key; pvalue : option ByteValue }.

(** [enum class Status] *)
Inductive Status :=
| StOK | StNotFound | StAlreadyExists | StInvalidArgument | StNotSupported
| StIOError | StInternalError | StTransactionConflict | StBusy | StTimeout
| StNotLeader | StCrossGroupTransaction.

#[export] Instance Status_eq_dec : EqDecision Status.
Proof. solve_decision. Defined.

Definition status_to_string (s : Status) : string :=
  match s with
  | StOK => "OK"
  | StNotFound => "NotFound"
  | StAlreadyExists => "AlreadyExists"
  | StInvalidArgument => "InvalidArgument"
  | StNotSupported => "NotSupported"
  | StIOError => "IOError"
  | StInternalError => "InternalError"
  | StTransactionConflict => "TransactionConflict"
  | StBusy => "Busy"
  | StTimeout => "Timeout"
  | StNotLeader => "NotLeader"
  | StCrossGroupTransaction => "CrossGroupTransaction"
  end.

Inductive MissingKeyPolicy := kReturnEmpty | kReturnError.

(** ** [class WriteBatch] *)

Inductive OpType := kPut | kRemove | kRemoveRange.

#[export] Instance OpType_eq_dec : EqDecision OpType.
Proof. solve_decision. Defined.

Record Op := mkOp { op_type : OpType; op_data : KVPair; range_end : Key }.

Record WriteBatch := mkWriteBatch { ops : list Op; batch_sync : bool }.

Definition empty_batch : WriteBatch := mkWriteBatch [] false.

Definition batch_push (o : Op) (b : WriteBatch) : WriteBatch :=
  mkWriteBatch (ops b ++ [o]) (batch_sync b).
Definition batch_put (key : Key) (value : ByteValue) (b : WriteBatch) : WriteBatch :=
  batch_push (mkOp kPut (mkKVPair key (Some value)) []) b.
Definition batch_remove (key : Key) (b : WriteBatch) : WriteBatch :=
  batch_push (mkOp kRemove (mkKVPair key None) []) b.
Definition batch_remove_range (b e : Key) (batch : WriteBatch) : WriteBatch :=
  batch_push (mkOp kRemoveRange (mkKVPair b None) e) batch.
Definition set_sync (sync : bool) (b : WriteBatch) : WriteBatch :=
  mkWriteBatch (ops b) sync.

(** [put_all] stops at the first pair without a value. *)
Fixpoint put_all (pairs : list KVPair) (b : WriteBatch) : WriteBatch :=
  match pairs with
  | [] => b
  | p :: rest =>
      match pvalue p with
      | Some v => put_all rest (batch_put (pkey p) v b)
      | None => b
      end
  end.
Definition remove_all (keys : list Key) (b : WriteBatch) : WriteBatch :=
  fold_left (fun acc k => batch_remove k acc) keys b.

(** ** [struct KeyRange] *)

Inductive ScanDirection := kForward | kReverse.

#[export] Instance ScanDirection_eq_dec : EqDecision ScanDirection.
Proof. solve_decision. Defined.

Record KeyRange := mkKeyRange {
  start : option Key; end_ : option Key; limit : N; direction : ScanDirection }.

Definition range_all : KeyRange := mkKeyRange None None 0 kForward.
Definition range_between (s e : Key) : KeyRange := mkKeyRange (Some s) (Some e) 0 kForward.
Definition range_prefix (p : Key) : KeyRange :=
  mkKeyRange (Some p) (Some (p ++ [xff])) 0 kForward.

Definition range_contains (r : KeyRange) (key : Key) : bool :=
  if match start r with Some s => bytes_ltb key s | None => false end then false
  else if match end_ r with Some e => bytes_leb e key | None => false end then false
  else true.

(** ** [class Iterator] *)

Class Iterator (I : Type) := {
  it_seek : Key -> I -> I;
  it_seek_to_first : I -> I;
  it_seek_to_last : I -> I;
  it_next : I -> I;
  it_prev : I -> I;
  it_valid : I -> bool;
  it_key : I -> Key;
  it_value : I -> ByteValue;
  it_status : I -> Status }.

(** [before_in_scan d a b]: the key [a] comes strictly before [b] when scanning
    in direction [d]. *)
Definition before_in_scan (d : ScanDirection) (a b : Key) : bool :=
  match d with kForward => bytes_ltb a b | kReverse => bytes_ltb b a end.

(** Rows in scan order. *)
Definition scan_order {V} (d : ScanDirection) (rows : omap V) : omap V :=
  match d with kForward => rows | kReverse => reverse rows end.
Definition scan_sorted {V} (d : ScanDirection) (rows : omap V) : Prop :=
  StronglySorted (fun p q => before_in_scan d p.1 q.1 = true) rows.

Section ScanOrder.
Context {V : Type}.
Implicit Types (l : omap V) (d : ScanDirection).

Lemma scan_sorted_app d l1 l2 :
  scan_sorted d l1 -> scan_sorted d l2 ->
  (forall p q, p ∈ l1 -> q ∈ l2 -> before_in_scan d p.1 q.1 = true) ->
  scan_sorted d (l1 ++ l2).
Proof.
  intros H1 H2 H12. induction H1 as [|p l1 Hl IH Hp]; simpl; [done|]. constructor.
  - apply IH. intros p' q Hp' Hq. apply H12; [by right|done].
  - apply Forall_app; split; [done|]. apply Forall_forall. intros q Hq. apply H12; [left|done].
Qed.

Lemma scan_sorted_order d l : sorted l -> scan_sorted d (scan_order d l).
Proof.
  destruct d; simpl; [done|]. induction 1 as [|p l Hl IH Hp]; [constructor|].
  rewrite reverse_cons. apply scan_sorted_app; [done|repeat constructor|].
  intros q p' Hq ->%list_elem_of_singleton. simpl.
  eapply Forall_forall in Hp; [exact Hp|]. by apply elem_of_reverse.
Qed.

Lemma scan_sorted_filter (P : bytes * V -> Prop) `{!forall p, Decision (P p)} d l :
  scan_sorted d l -> scan_sorted d (filter P l).
Proof.
  induction 1 as [|p l Hl IH Hp]; [constructor|]. rewrite filter_cons. case_decide; [|done].
  constructor; [done|]. apply Forall_forall. intros q [_ Hq]%list_elem_of_filter.
  by eapply Forall_forall in Hp.
Qed.

Lemma before_in_scan_irrefl d k : before_in_scan d k k = false.
Proof. destruct d; apply bytes_ltb_irrefl. Qed.

Lemma before_in_scan_asym d a b : before_in_scan d a b = true -> before_in_scan d b a = false.
Proof. destruct d; apply bytes_ltb_asym. Qed.

Lemma before_in_scan_trans d a b c :
  before_in_scan d a b = true -> before_in_scan d b c = true -> before_in_scan d a c = true.
Proof. destruct d; simpl; eauto using bytes_ltb_trans. Qed.

Lemma before_in_scan_total d a b :
  before_in_scan d a b = false -> before_in_scan d b a = false -> a = b.
Proof. destruct d; simpl; intros; by apply bytes_ltb_antisym. Qed.

(** Two lists in scan order with the same rows are equal. *)
Lemma scan_sorted_ext d l1 l2 :
  scan_sorted d l1 -> scan_sorted d l2 -> (forall p, p ∈ l1 <-> p ∈ l2) -> l1 = l2.
Proof.
  intros H1. revert l2. induction H1 as [|p l1 Hl IH Hp]; intros l2 H2 Hext.
  { destruct l2 as [|q l2]; [done|]. pose proof (proj2 (Hext q) ltac:(left)) as Hq.
    by apply elem_of_nil in Hq. }
  destruct H2 as [|q l2 Hl2 Hq].
  { pose proof (proj1 (Hext p) ltac:(left)) as Hp'. by apply elem_of_nil in Hp'. }
  rewrite Forall_forall in Hp, Hq.
  assert (p = q) as ->.
  { pose proof (proj1 (Hext p) ltac:(left)) as Hpin. apply elem_of_cons in Hpin as [|Hpin]; [done|].
    pose proof (proj2 (Hext q) ltac:(left)) as Hqin. apply elem_of_cons in Hqin as [|Hqin]; [done|].
    pose proof (before_in_scan_asym _ _ _ (Hp _ Hqin)). by rewrite (Hq _ Hpin) in H. }
  f_equal. apply IH; [done|]. intros r. specialize (Hext r). rewrite !elem_of_cons in Hext.
  split; intros Hr.
  - destruct (proj1 Hext (or_intror Hr)) as [->|]; [|done].
    apply Hp in Hr. by rewrite before_in_scan_irrefl in Hr.
  - destruct (proj2 Hext (or_intror Hr)) as [->|]; [|done].
    apply Hq in Hr. by rewrite before_in_scan_irrefl in Hr.
Qed.

(** Once a scan leaves a range it does not come back. *)
Lemma scan_leaves_range r d p l :
  scan_sorted d (p :: l) -> range_contains r p.1 = true ->
  match l with [] => True | q :: _ => range_contains r q.1 = false end ->
  filter (fun p => range_contains r p.1 = true) l = [].
Proof.
  intros Hs Hp Hq. destruct l as [|q l]; [done|].
  inversion Hs as [|? ? Hs' Hpq]; subst. inversion Hs' as [|? ? _ Hql]; subst.
  inversion Hpq as [|? ? Hpq1 _]; subst.
  apply (filter_none (range_contains r)). constructor; [done|].
  eapply Forall_impl; [exact Hql|]. intros x Hx. simpl in *.
  unfold range_contains, bytes_leb in *. destruct d; simpl in *.
  - destruct (start r) as [s|].
    + destruct (bytes_ltb p.1 s) eqn:E1; [done|].
      rewrite (bytes_ltb_asym s q.1) in Hq by (eapply bytes_le_ltb_trans; eauto).
      destruct (bytes_ltb x.1 s); [done|].
      destruct (end_ r) as [e|]; [|done]. destruct (bytes_ltb q.1 e) eqn:E2; [done|].
      simpl in *. destruct (bytes_ltb x.1 e) eqn:E3; [|done].
      pose proof (bytes_ltb_trans _ _ _ Hx E3). congruence.
    + destruct (end_ r) as [e|]; [|done]. destruct (bytes_ltb q.1 e) eqn:E2; [done|].
      simpl in *. destruct (bytes_ltb x.1 e) eqn:E3; [|done].
      pose proof (bytes_ltb_trans _ _ _ Hx E3). congruence.
  - destruct (end_ r) as [e|].
    + destruct (match start r with Some s => bytes_ltb p.1 s | None => false end); [done|].
      destruct (bytes_ltb p.1 e) eqn:E1; [|done].
      rewrite (bytes_ltb_trans q.1 p.1 e) in Hq by done. simpl in Hq.
      destruct (start r) as [s|]; [|done]. destruct (bytes_ltb q.1 s) eqn:E2; [|done].
      by rewrite (bytes_ltb_trans x.1 q.1 s).
    + destruct (start r) as [s|]; [|done]. destruct (bytes_ltb q.1 s) eqn:E2; [|done].
      by rewrite (bytes_ltb_trans x.1 q.1 s).
Qed.
End ScanOrder.

(** What the callers rely on.  [it_wf] is the implementation's invariant,
    [it_rest] are the rows from the current one on in scan order, [it_all]
    every row of the iterator in scan order. *)
Class IteratorLaws (I : Type) `{Iterator I} := {
  it_wf : I -> Prop;
  it_all : I -> list (Key * ByteValue);
  it_rest : I -> list (Key * ByteValue);
  it_dir : I -> ScanDirection;
  it_valid_rest : forall it, it_wf it -> it_valid it = bool_decide (it_rest it <> []);
  it_current : forall it k v r, it_wf it -> it_rest it = (k, v) :: r ->
    it_key it = k /\ it_value it = v /\ it_rest (it_next it) = r;
  it_next_all : forall it, it_wf it ->
    it_wf (it_next it) /\ it_all (it_next it) = it_all it /\ it_dir (it_next it) = it_dir it;
  it_first_rest : forall it, it_wf it ->
    it_rest (it_seek_to_first it) = it_all it /\ it_wf (it_seek_to_first it) /\
    it_all (it_seek_to_first it) = it_all it /\ it_dir (it_seek_to_first it) = it_dir it;
  it_seek_rest : forall k it, it_wf it ->
    it_rest (it_seek k it) =
      filter (fun p => negb (before_in_scan (it_dir it) p.1 k) = true) (it_all it) /\
    it_wf (it_seek k it) /\
    it_all (it_seek k it) = it_all it /\ it_dir (it_seek k it) = it_dir it }.

(** [Iterator::collect] and the loop of [KVEngine::scan]; the fuel bounds the
    number of [next] calls. *)
Fixpoint collect_fuel {I} `{Iterator I} (fuel : nat) (it : I) : list (Key * ByteValue) :=
  match fuel with
  | O => []
  | S f => if it_valid it then (it_key it, it_value it) :: collect_fuel f (it_next it) else []
  end.

Section Collect.
Context {I : Type} `{IteratorLaws I}.

Lemma collect_rest (it : I) fuel :
  it_wf it -> length (it_rest it) <= fuel -> collect_fuel fuel it = it_rest it.
Proof.
  revert it; induction fuel as [|fuel IH]; intros it Hwf Hlen; simpl.
  { by destruct (it_rest it); simpl in Hlen; [|lia]. }
  rewrite it_valid_rest by done. destruct (it_rest it) as [|[k v] r] eqn:E; [done|].
  destruct (it_current it k v r Hwf E) as (-> & -> & Hr).
  destruct (it_next_all it Hwf) as (Hwf' & _).
  simpl. rewrite IH; rewrite ?Hr; [done|done|simpl in Hlen; lia].
Qed.
End Collect.

(** [struct ScanResult] and [KVEngine::scan]: with a limit the scan stops after
    [limit] pairs and reports the next key. *)
Record ScanResult := mkScanResult { pairs : list KVPair; next_start_key : option Key }.

Fixpoint scan_loop {I} `{Iterator I} (fuel : nat) (lim count : N) (it : I) : list KVPair * option Key :=
  match fuel with
  | O => ([], None)
  | S f =>
      if it_valid it then
        let p := mkKVPair (it_key it) (Some (it_value it)) in
        let count := (count + 1)%N in
        if ((0 <? lim) && (lim <=? count))%N then
          let it' := it_next it in
          ([p], if it_valid it' then Some (it_key it') else None)
        else
          let '(ps, nxt) := scan_loop f lim count (it_next it) in
          (p :: ps, nxt)
      else ([], None)
  end.

Definition kvpair_of (p : Key * ByteValue) : KVPair := mkKVPair p.1 (Some p.2).

Section Scan.
Context {I : Type} `{IteratorLaws I}.

Lemma scan_loop_unlimited (it : I) fuel count :
  it_wf it -> length (it_rest it) < fuel ->
  scan_loop fuel 0 count it = (map kvpair_of (it_rest it), None).
Proof.
  revert it count; induction fuel as [|fuel IH]; intros it count Hwf Hlen; [lia|].
  cbn [scan_loop]. rewrite it_valid_rest by done.
  destruct (it_rest it) as [|[k v] r] eqn:E; [done|].
  destruct (it_current it k v r Hwf E) as (-> & -> & Hr).
  destruct (it_next_all it Hwf) as (Hwf' & _).
  rewrite bool_decide_eq_true_2 by done. cbn [N.ltb andb].
  rewrite IH by (rewrite ?Hr; simpl in Hlen; (done || lia)). by rewrite Hr.
Qed.

Lemma scan_loop_limited (it : I) fuel lim count :
  it_wf it -> length (it_rest it) < fuel -> (count < lim)%N ->
  scan_loop fuel lim count it =
    (map kvpair_of (take (N.to_nat (lim - count)) (it_rest it)),
     fst <$> (drop (N.to_nat (lim - count)) (it_rest it)) !! 0).
Proof.
  revert it count; induction fuel as [|fuel IH]; intros it count Hwf Hlen Hlim; [lia|].
  cbn [scan_loop]. rewrite it_valid_rest by done.
  destruct (it_rest it) as [|[k v] r] eqn:E.
  { rewrite take_nil, drop_nil. done. }
  destruct (it_current it k v r Hwf E) as (-> & -> & Hr).
  destruct (it_next_all it Hwf) as (Hwf' & _).
  rewrite bool_decide_eq_true_2 by done.
  destruct (N.to_nat (lim - count)) as [|m] eqn:Em; [lia|].
  destruct ((0 <? lim) && (lim <=? count + 1))%N eqn:El; boolify.
  - assert (m = 0) as -> by lia. rewrite it_valid_rest, Hr by done. simpl. rewrite drop_0.
    destruct r as [|[k2 v2] r2]; simpl; [done|].
    by destruct (it_current _ _ _ _ Hwf' Hr) as (-> & _).
  - apply andb_false_iff in El. destruct El; boolify; [lia|].
    rewrite IH by (rewrite ?Hr; simpl in Hlen; (done || lia)). rewrite Hr.
    replace (N.to_nat (lim - (count + 1))) with m by lia. done.
Qed.
End Scan.
