(* ===== verification/TxBuffer.v ===== *)
(** * The transaction buffer: [storage/kv_engine/tx_buffer.{h,cpp}]

    [TxBuffer] keeps the writes of one transaction twice: [view_], the merged
    answer per key, with the range deletes beside it, and [log_], the ordered
    operations a commit writes.  The main result of this file is that the two
    agree: [lookup] answers for every key exactly what the last operation of
    the log that touches the key did ([tx_lookup_log]). *)

From S2P Require Import Prelude Bytes OMap KvTypes.
Local Open Scope N_scope.

(** [struct OverlayOp]: the value is present exactly when the kind is [kValue]. *)
Inductive OverlayOp := OvNone | OvValue (value : ByteValue) | OvTombstone.

#[export] Instance OverlayOp_eq_dec : EqDecision OverlayOp.
Proof. solve_decision. Defined.

Definition covered (o : OverlayOp) : bool :=
  match o with OvNone => false | _ => true end.
Definition has_value (o : OverlayOp) : bool :=
  match o with OvValue _ => true | _ => false end.
Definition is_tombstone (o : OverlayOp) : bool :=
  match o with OvTombstone => true | _ => false end.

(** [struct TxEntry], [struct TxRangeDelete] *)
Record TxEntry := mkTxEntry { te_op : OverlayOp; te_seq : N }.
Record TxRangeDelete := mkTxRangeDelete { rd_begin : Key; rd_end : Key; rd_seq : N }.

Record TxBuffer := mkTxBuffer {
  view_ : omap TxEntry;
  range_deletes_ : list TxRangeDelete;
  log_ : list Op;
  bytes_ : N;
  next_seq_ : N }.

Definition empty_tx : TxBuffer := mkTxBuffer [] [] [] 0 1.

Definition entry_cost (key_size value_size : N) : N := key_size + value_size + 64.
Definition sz (b : bytes) : N := N.of_nat (length b).

Definition tx_put (key : Key) (value : ByteValue) (t : TxBuffer) : TxBuffer :=
  mkTxBuffer (minsert key (mkTxEntry (OvValue value) (next_seq_ t)) (view_ t))
    (range_deletes_ t)
    (log_ t ++ [mkOp kPut (mkKVPair key (Some value)) []])
    (bytes_ t + entry_cost (sz key) (sz value))
    (next_seq_ t + 1).

Definition tx_remove (key : Key) (t : TxBuffer) : TxBuffer :=
  mkTxBuffer (minsert key (mkTxEntry OvTombstone (next_seq_ t)) (view_ t))
    (range_deletes_ t)
    (log_ t ++ [mkOp kRemove (mkKVPair key None) []])
    (bytes_ t + entry_cost (sz key) 0)
    (next_seq_ t + 1).

Definition tx_remove_range (b e : Key) (t : TxBuffer) : TxBuffer :=
  mkTxBuffer (view_ t)
    (range_deletes_ t ++ [mkTxRangeDelete b e (next_seq_ t)])
    (log_ t ++ [mkOp kRemoveRange (mkKVPair b None) e])
    (bytes_ t + entry_cost (sz b) (sz e))
    (next_seq_ t + 1).

(** The loop of [lookup] over the range deletes. *)
Definition covering_seq (key : Key) (ranges : list TxRangeDelete) : N :=
  fold_left (fun range_seq r =>
    if bytes_leb (rd_begin r) key && bytes_ltb key (rd_end r) && (range_seq <? rd_seq r)
    then rd_seq r else range_seq) ranges 0.

Definition tx_lookup (key : Key) (t : TxBuffer) : OverlayOp :=
  let entry := mfind key (view_ t) in
  let key_seq := match entry with Some e => te_seq e | None => 0 end in
  let range_seq := covering_seq key (range_deletes_ t) in
  if key_seq <? range_seq then OvTombstone
  else match entry with None => OvNone | Some e => te_op e end.

(** One op of the log re-issued on the batch under construction. *)
Definition to_batch_op (batch : WriteBatch) (o : Op) : WriteBatch :=
  match op_type o with
  | kPut => batch_put (pkey (op_data o)) (default [] (pvalue (op_data o))) batch
  | kRemove => batch_remove (pkey (op_data o)) batch
  | kRemoveRange => batch_remove_range (pkey (op_data o)) (range_end o) batch
  end.
Definition to_batch (t : TxBuffer) : WriteBatch :=
  fold_left to_batch_op (log_ t) empty_batch.

Definition tx_clear (t : TxBuffer) : TxBuffer := empty_tx.
Definition kDefaultLimit : N := 64 * 1024 * 1024.
Definition tx_exceeds (t : TxBuffer) : bool := kDefaultLimit <? bytes_ t.

(** ** Reference semantics of an operation log *)

Definition op_effect (o : Op) (key : Key) : OverlayOp :=
  match op_type o with
  | kPut => if bool_decide (key = pkey (op_data o))
            then OvValue (default [] (pvalue (op_data o))) else OvNone
  | kRemove => if bool_decide (key = pkey (op_data o)) then OvTombstone else OvNone
  | kRemoveRange => if in_range (pkey (op_data o)) (range_end o) key
                    then OvTombstone else OvNone
  end.

(** The last operation of the log that touches [key] wins. *)
Definition log_effect (log : list Op) (key : Key) : OverlayOp :=
  fold_left (fun acc o => if covered (op_effect o key) then op_effect o key else acc)
    log OvNone.

Lemma log_effect_snoc log o key :
  log_effect (log ++ [o]) key =
  if covered (op_effect o key) then op_effect o key else log_effect log key.
Proof. unfold log_effect. by rewrite fold_left_app. Qed.

(** ** Invariant *)

Definition op_wf (o : Op) : Prop :=
  match op_type o with
  | kPut => exists v, o = mkOp kPut (mkKVPair (pkey (op_data o)) (Some v)) []
  | kRemove => o = mkOp kRemove (mkKVPair (pkey (op_data o)) None) []
  | kRemoveRange => o = mkOp kRemoveRange (mkKVPair (pkey (op_data o)) None) (range_end o)
  end.

Record tx_inv (t : TxBuffer) : Prop := {
  inv_sorted : sorted (view_ t);
  inv_seq_view : forall k e, mfind k (view_ t) = Some e -> te_seq e < next_seq_ t;
  inv_seq_range : Forall (fun r => rd_seq r < next_seq_ t) (range_deletes_ t);
  inv_seq_pos : 0 < next_seq_ t;
  inv_log_wf : Forall op_wf (log_ t);
  inv_touched : forall k e, mfind k (view_ t) = Some e -> te_op e <> OvNone;
  inv_lookup : forall k, tx_lookup k t = log_effect (log_ t) k }.

Lemma covering_seq_snoc key ranges r :
  covering_seq key (ranges ++ [r]) =
  if bytes_leb (rd_begin r) key && bytes_ltb key (rd_end r) &&
     (covering_seq key ranges <? rd_seq r)
  then rd_seq r else covering_seq key ranges.
Proof. unfold covering_seq. by rewrite fold_left_app. Qed.

Lemma covering_seq_lt key ranges n :
  0 < n -> Forall (fun r => rd_seq r < n) ranges -> covering_seq key ranges < n.
Proof.
  intros Hn. induction ranges as [|r ranges IH] using rev_ind; intros Hf; [done|].
  apply Forall_app in Hf as [Hf Hr]. inversion Hr; subst.
  rewrite covering_seq_snoc. case_match; auto.
Qed.

Lemma tx_inv_empty : tx_inv empty_tx.
Proof. by split; simpl; try constructor. Qed.

(** Writing one key: shared by [put] and [remove]. *)
Lemma tx_inv_write key ov o cost t :
  tx_inv t -> ov <> OvNone -> op_wf o ->
  (forall k, op_effect o k = if bool_decide (k = key) then ov else OvNone) ->
  tx_inv (mkTxBuffer (minsert key (mkTxEntry ov (next_seq_ t)) (view_ t))
    (range_deletes_ t) (log_ t ++ [o]) cost (next_seq_ t + 1)).
Proof.
  intros [Hs Hv Hr Hp Hw Ht Hl] Hov Hwf Heff. split; simpl.
  - by apply msorted_insert.
  - intros k e. destruct (decide (k = key)) as [->|Hne].
    + rewrite mfind_insert_eq. intros [= <-]. simpl. lia.
    + rewrite mfind_insert_ne by done. intros ?%Hv. lia.
  - eapply Forall_impl; [done|]. simpl. lia.
  - lia.
  - apply Forall_app; split; [done|by constructor].
  - intros k e. destruct (decide (k = key)) as [->|Hne].
    + rewrite mfind_insert_eq. by intros [= <-].
    + rewrite mfind_insert_ne by done. apply Ht.
  - intros k. rewrite log_effect_snoc, Heff. unfold tx_lookup. simpl.
    destruct (decide (k = key)) as [->|Hne].
    + rewrite mfind_insert_eq, bool_decide_eq_true_2 by done. simpl.
      pose proof (covering_seq_lt key _ _ Hp Hr).
      destruct (next_seq_ t <? covering_seq key (range_deletes_ t)) eqn:E; boolify; [lia|].
      by destruct ov.
    + rewrite mfind_insert_ne, bool_decide_eq_false_2 by done. simpl.
      by rewrite <- Hl.
Qed.

Lemma tx_inv_put key value t : tx_inv t -> tx_inv (tx_put key value t).
Proof. intros H. apply tx_inv_write; [done|done|by exists value|done]. Qed.

Lemma tx_inv_remove key t : tx_inv t -> tx_inv (tx_remove key t).
Proof. intros H. by apply tx_inv_write. Qed.

Lemma tx_inv_remove_range b e t : tx_inv t -> tx_inv (tx_remove_range b e t).
Proof.
  intros [Hs Hv Hr Hp Hw Ht Hl]. split; simpl; [done| | |lia| |done|].
  - intros k en ?%Hv. lia.
  - apply Forall_app; split; [|by constructor; [simpl; lia|]].
    eapply Forall_impl; [done|]. simpl. lia.
  - apply Forall_app; split; [done|by constructor].
  - intros k. rewrite log_effect_snoc. unfold tx_lookup, op_effect. simpl.
    rewrite covering_seq_snoc. simpl. fold (in_range b e k).
    change (bytes_leb b k && bytes_ltb k e) with (in_range b e k).
    pose proof (covering_seq_lt k _ _ Hp Hr) as Hlt.
    rewrite (proj2 (N.ltb_lt _ _) Hlt), andb_true_r.
    destruct (in_range b e k); simpl; [|apply Hl].
    destruct (mfind k (view_ t)) as [en|] eqn:E.
    + apply Hv in E. rewrite (proj2 (N.ltb_lt _ _)); [done|lia].
    + rewrite (proj2 (N.ltb_lt _ _)); [done|lia].
Qed.

#[export] Hint Resolve tx_inv_empty tx_inv_put tx_inv_remove tx_inv_remove_range : omap.

(** The write operations a transaction can issue, and the buffers they reach. *)
Inductive tx_write :=
| TxPut (key : Key) (value : ByteValue)
| TxRemove (key : Key)
| TxRemoveRange (b e : Key).

Definition tx_apply (t : TxBuffer) (w : tx_write) : TxBuffer :=
  match w with
  | TxPut k v => tx_put k v t
  | TxRemove k => tx_remove k t
  | TxRemoveRange b e => tx_remove_range b e t
  end.
Definition tx_run (ws : list tx_write) : TxBuffer := fold_left tx_apply ws empty_tx.

Lemma tx_inv_run ws : tx_inv (tx_run ws).
Proof.
  unfold tx_run. assert (Hall : forall t, tx_inv t -> tx_inv (fold_left tx_apply ws t)).
  { induction ws as [|w ws IH]; intros t Ht; simpl; [done|]. apply IH.
    destruct w; simpl; eauto with omap. }
  apply Hall, tx_inv_empty.
Qed.

(** [to_batch] re-issues the log unchanged. *)
Lemma to_batch_log t : tx_inv t -> ops (to_batch t) = log_ t.
Proof.
  intros [_ _ _ _ Hw _ _]. unfold to_batch.
  assert (forall b, ops (fold_left to_batch_op (log_ t) b) = ops b ++ log_ t) as Hall.
  { induction (log_ t) as [|o l IH]; intros b; simpl; [by rewrite app_nil_r|].
    inversion Hw as [|? ? Ho Hl]; subst. rewrite IH by done.
    unfold op_wf, to_batch_op in *. destruct o as [ty [k v] e]. simpl in *.
    destruct ty; deex; simplify_eq; simpl; by rewrite <- app_assoc. }
  by rewrite Hall.
Qed.
