(* ===== verification/MockStore.v ===== *)
(** * The in-memory store: [storage/mock_engine/mock_engine.{h,cpp}], store part

    [MockStore] (the data, the single write slot, the failure switch) and
    [MockIterator] (a materialised scan).  Connections are in MockEngine.v.
    The mutex of the store serialises its operations, so each operation is one
    atomic function of the store's state. *)

From S2P Require Import Prelude Bytes OMap KvTypes TxBuffer.

(** ** [MockStore] *)

Record DatabaseOptions := mkDatabaseOptions {
  path : string; create_if_missing : bool; error_if_exists : bool;
  cache_size_mb : N; compression : bool }.

Definition default_options : DatabaseOptions := mkDatabaseOptions "" true false 0 true.

(** [write_owner_] is the identity of the owning connection. *)
Record MockStore := mkMockStore {
  data_ : omap ByteValue;
  fail_writes_ : bool;
  is_open_ : bool;
  options_ : DatabaseOptions;
  write_owner_ : option nat }.

Definition new_store : MockStore := mkMockStore [] false false default_options None.

Definition set_data (d : omap ByteValue) (s : MockStore) : MockStore :=
  mkMockStore d (fail_writes_ s) (is_open_ s) (options_ s) (write_owner_ s).
Definition set_owner (o : option nat) (s : MockStore) : MockStore :=
  mkMockStore (data_ s) (fail_writes_ s) (is_open_ s) (options_ s) o.

Definition store_open (opts : DatabaseOptions) (s : MockStore) : MockStore * Status :=
  if is_open_ s then (s, StAlreadyExists)
  else (mkMockStore (data_ s) (fail_writes_ s) true opts (write_owner_ s), StOK).

Definition store_close (s : MockStore) : MockStore * Status :=
  if negb (is_open_ s) then (s, StNotFound)
  else (mkMockStore (data_ s) (fail_writes_ s) false (options_ s) None, StOK).

Definition store_acquire_write_slot (owner : nat) (s : MockStore) : MockStore * Status :=
  if negb (is_open_ s) then (s, StInternalError)
  else match write_owner_ s with
       | Some o => if bool_decide (o <> owner) then (s, StBusy)
                   else (set_owner (Some owner) s, StOK)
       | None => (set_owner (Some owner) s, StOK)
       end.

Definition store_release_write_slot (owner : nat) (s : MockStore) : MockStore * Status :=
  if bool_decide (write_owner_ s <> Some owner) then (s, StNotFound)
  else (set_owner None s, StOK).

Definition write_slot_held (s : MockStore) : bool :=
  match write_owner_ s with Some _ => true | None => false end.

Definition store_get (key : Key) (s : MockStore) : result Status ByteValue :=
  if negb (is_open_ s) then Err StInternalError
  else match mfind key (data_ s) with
       | None => Err StNotFound
       | Some v => Ok v
       end.

Definition store_put (key : Key) (value : ByteValue) (s : MockStore) : MockStore * Status :=
  if negb (is_open_ s) then (s, StInternalError)
  else (set_data (minsert key value (data_ s)) s, StOK).

Definition store_remove (key : Key) (s : MockStore) : MockStore * Status :=
  if negb (is_open_ s) then (s, StInternalError)
  else match mfind key (data_ s) with
       | None => (s, StNotFound)
       | Some _ => (set_data (merase key (data_ s)) s, StOK)
       end.

Definition store_exists (key : Key) (s : MockStore) : bool :=
  if negb (is_open_ s) then false
  else match mfind key (data_ s) with Some _ => true | None => false end.

(** The loop of [get_batch]: stops at the first missing key under
    [kReturnError]. *)
Fixpoint get_batch_loop (look : Key -> option ByteValue) (keys : list Key)
    (policy : MissingKeyPolicy) : result Status (list (option ByteValue)) :=
  match keys with
  | [] => Ok []
  | key :: rest =>
      match look key, policy with
      | None, kReturnError => Err StNotFound
      | o, _ => let* vs := get_batch_loop look rest policy in Ok (o :: vs)
      end
  end.

Definition store_get_batch (keys : list Key) (policy : MissingKeyPolicy) (s : MockStore)
    : result Status (list (option ByteValue)) :=
  if negb (is_open_ s) then Err StInternalError
  else get_batch_loop (fun k => mfind k (data_ s)) keys policy.

(** First pass of [apply_batch_locked]: every op is validated ... *)
Definition op_invalid (o : Op) : bool :=
  match op_type o with
  | kPut => match pvalue (op_data o) with None => true | Some _ => false end
  | kRemoveRange => bytes_leb (range_end o) (pkey (op_data o))
  | kRemove => false
  end.

(** ... second pass: every op is applied. *)
Definition apply_op (d : omap ByteValue) (o : Op) : omap ByteValue :=
  match op_type o with
  | kPut => minsert (pkey (op_data o)) (default [] (pvalue (op_data o))) d
  | kRemoveRange => erase_range (pkey (op_data o)) (range_end o) d
  | kRemove => merase (pkey (op_data o)) d
  end.

Definition apply_batch_locked (batch : WriteBatch) (s : MockStore) : MockStore * Status :=
  if fail_writes_ s then (s, StIOError)
  else if existsb op_invalid (ops batch) then (s, StInvalidArgument)
  else (set_data (fold_left apply_op (ops batch) (data_ s)) s, StOK).

Definition store_write_batch (batch : WriteBatch) (s : MockStore) : MockStore * Status :=
  if negb (is_open_ s) then (s, StInternalError) else apply_batch_locked batch s.

Definition data_snapshot (s : MockStore) : omap ByteValue := data_ s.
Definition store_clear (s : MockStore) : MockStore := set_data [] s.
Definition set_fail_writes (fail : bool) (s : MockStore) : MockStore :=
  mkMockStore (data_ s) fail (is_open_ s) (options_ s) (write_owner_ s).

(** ** [MockIterator] *)

(** [materialize]: from [lower_bound(start)] on while the key is below [end]. *)
Fixpoint take_below (e : option Key) (m : omap ByteValue) : omap ByteValue :=
  match m with
  | [] => []
  | (k, v) :: m' =>
      if match e with Some e => bytes_leb e k | None => false end then []
      else (k, v) :: take_below e m'
  end.

Definition materialize (data : omap ByteValue) (r : KeyRange) : omap ByteValue :=
  take_below (end_ r)
    (drop (match start r with Some s => lower_bound s data | None => 0 end) data).

Record MockIterator := mkMockIterator {
  rows_ : omap ByteValue; mi_range : KeyRange; index_ : nat; mi_status : Status }.

Definition mi_in_range (rows : omap ByteValue) (r : KeyRange) (index : nat) : bool :=
  match rows !! index with
  | None => false
  | Some (key, _) =>
      if match start r with Some s => bytes_ltb key s | None => false end then false
      else if match end_ r with Some e => bytes_leb e key | None => false end then false
      else true
  end.

Definition update_status (it : MockIterator) : MockIterator :=
  mkMockIterator (rows_ it) (mi_range it) (index_ it)
    (if length (rows_ it) <=? index_ it then StNotFound
     else if mi_in_range (rows_ it) (mi_range it) (index_ it) then StOK else StNotFound).

Definition mi_goto (index : nat) (it : MockIterator) : MockIterator :=
  update_status (mkMockIterator (rows_ it) (mi_range it) index (mi_status it)).

Definition mi_valid (it : MockIterator) : bool :=
  if bool_decide (mi_status it <> StOK) then false
  else mi_in_range (rows_ it) (mi_range it) (index_ it).

Definition mi_seek (key : Key) (it : MockIterator) : MockIterator :=
  match direction (mi_range it) with
  | kForward =>
      let target := match start (mi_range it) with
                    | Some s => if bytes_ltb key s then s else key
                    | None => key
                    end in
      mi_goto (lower_bound target (rows_ it)) it
  | kReverse =>
      let after := upper_bound key (rows_ it) in
      mi_goto (if after =? 0 then length (rows_ it) else after - 1) it
  end.

Definition mi_seek_to_first (it : MockIterator) : MockIterator :=
  if length (rows_ it) =? 0 then mi_goto 0 it
  else mi_goto (match direction (mi_range it) with
                | kForward => 0 | kReverse => length (rows_ it) - 1 end) it.

Definition mi_seek_to_last (it : MockIterator) : MockIterator :=
  if length (rows_ it) =? 0 then mi_goto 0 it
  else mi_goto (match direction (mi_range it) with
                | kForward => length (rows_ it) - 1 | kReverse => 0 end) it.

Definition mi_next (it : MockIterator) : MockIterator :=
  if negb (mi_valid it) then it
  else mi_goto (match direction (mi_range it) with
                | kForward => S (index_ it)
                | kReverse => if index_ it =? 0 then length (rows_ it) else index_ it - 1
                end) it.

Definition mi_prev (it : MockIterator) : MockIterator :=
  if negb (mi_valid it) then it
  else mi_goto (match direction (mi_range it) with
                | kForward => if index_ it =? 0 then length (rows_ it) else index_ it - 1
                | kReverse => S (index_ it)
                end) it.

Definition mi_key (it : MockIterator) : Key :=
  if mi_valid it then default [] (fst <$> rows_ it !! index_ it) else [].
Definition mi_value (it : MockIterator) : ByteValue :=
  if mi_valid it then default [] (snd <$> rows_ it !! index_ it) else [].

(** The constructor positions the iterator on the first row. *)
Definition mock_iterator (rows : omap ByteValue) (r : KeyRange) : MockIterator :=
  mi_seek_to_first (mkMockIterator rows r 0 StOK).

#[export] Instance MockIterator_ops : Iterator MockIterator := {|
  it_seek := mi_seek; it_seek_to_first := mi_seek_to_first;
  it_seek_to_last := mi_seek_to_last; it_next := mi_next; it_prev := mi_prev;
  it_valid := mi_valid; it_key := mi_key; it_value := mi_value;
  it_status := mi_status |}.

Definition store_new_iterator (r : KeyRange) (s : MockStore) : option MockIterator :=
  if negb (is_open_ s) then None
  else Some (mock_iterator (materialize (data_ s) r) r).

(** ** Batches *)

Lemma sorted_apply_op d o : sorted d -> op_invalid o = false -> sorted (apply_op d o).
Proof.
  intros Hd Ho. unfold apply_op, op_invalid in *. destruct (op_type o); eauto with omap.
  apply sorted_erase_range; [done|]. unfold bytes_leb in Ho. apply negb_false_iff in Ho.
  by apply bytes_ltb_asym.
Qed.

Lemma find_apply_op d o k :
  sorted d -> op_invalid o = false ->
  mfind k (apply_op d o) =
    match op_effect o k with
    | OvNone => mfind k d | OvValue v => Some v | OvTombstone => None
    end.
Proof.
  intros Hd Ho. unfold apply_op, op_effect, op_invalid in *. destruct (op_type o).
  - case_bool_decide as E; [subst; by rewrite mfind_insert_eq|by apply mfind_insert_ne].
  - case_bool_decide as E; [subst; by apply mfind_erase_eq|by apply mfind_erase_ne].
  - unfold bytes_leb in Ho. apply negb_false_iff, bytes_ltb_asym in Ho.
    rewrite find_erase_range by done. by destruct (in_range _ _ _).
Qed.

(** Applying a log of valid operations overlays its effect on the data. *)
Lemma find_apply_ops log d k :
  sorted d -> existsb op_invalid log = false ->
  sorted (fold_left apply_op log d) /\
  mfind k (fold_left apply_op log d) =
    match log_effect log k with
    | OvNone => mfind k d | OvValue v => Some v | OvTombstone => None
    end.
Proof.
  intros Hd. induction log as [|o log IH] using rev_ind; intros Hv; [done|].
  rewrite existsb_app in Hv. apply orb_false_elim in Hv as [Hv Ho]. simpl in Ho.
  rewrite orb_false_r in Ho. destruct (IH Hv) as [Hs Hf].
  rewrite fold_left_app. simpl. split; [by apply sorted_apply_op|].
  rewrite find_apply_op, log_effect_snoc, Hf by done. by destruct (op_effect o k).
Qed.

(** ** The materialised scan *)

Lemma take_below_filter e m :
  sorted m ->
  take_below e m =
  filter (fun p => negb (match e with Some e => bytes_leb e p.1 | None => false end) = true) m.
Proof.
  induction m as [|[k v] m IH]; intros Hs; [done|]. simpl. rewrite filter_cons. simpl.
  destruct (match e with Some e0 => bytes_leb e0 k | None => false end) eqn:E; simpl.
  - symmetry. apply (filter_none (fun x => negb (match e with Some e => bytes_leb e x | None => false end))).
    eapply Forall_impl; [apply (sorted_head _ _ Hs)|]. intros p Hp.
    destruct e as [e|]; [|done]. unfold bytes_leb, key_before, bytes_lt in *. simpl in *.
    apply negb_true_iff in E. rewrite (bytes_le_trans e k p.1); [done|done|].
    by apply bytes_ltb_asym.
  - by rewrite IH by by eapply sorted_tail.
Qed.

Lemma materialize_filter data r :
  sorted data ->
  materialize data r = filter (fun p => range_contains r p.1 = true) data.
Proof.
  intros Hs. unfold materialize, range_contains. destruct (start r) as [s|]; simpl.
  - rewrite drop_lower_bound, take_below_filter by
      (try apply (sorted_filter (fun p => negb (bytes_ltb p.1 s))); done).
    rewrite list_filter_filter. apply list_filter_iff. intros [k v]. simpl.
    destruct (bytes_ltb k s), (match end_ r with Some e => bytes_leb e k | None => false end);
      simpl; intuition congruence.
  - rewrite drop_0, take_below_filter by done. apply list_filter_iff. intros [k v]. simpl.
    by destruct (match end_ r with Some e => bytes_leb e k | None => false end).
Qed.

Lemma sorted_materialize data r : sorted data -> sorted (materialize data r).
Proof.
  intros. rewrite materialize_filter by done.
  by apply (sorted_filter (fun p => range_contains r p.1)).
Qed.

(** ** [MockIterator] satisfies the iterator laws *)

Definition mi_wf (it : MockIterator) : Prop :=
  sorted (rows_ it) /\
  Forall (fun p => range_contains (mi_range it) p.1 = true) (rows_ it) /\
  mi_status it = (if length (rows_ it) <=? index_ it then StNotFound else StOK).

Definition mi_all (it : MockIterator) := scan_order (direction (mi_range it)) (rows_ it).
Definition mi_rest (it : MockIterator) : omap ByteValue :=
  match direction (mi_range it) with
  | kForward => drop (index_ it) (rows_ it)
  | kReverse => if index_ it <? length (rows_ it)
                then reverse (take (S (index_ it)) (rows_ it)) else []
  end.

Lemma mi_in_range_spec it index :
  Forall (fun p => range_contains (mi_range it) p.1 = true) (rows_ it) ->
  mi_in_range (rows_ it) (mi_range it) index = (index <? length (rows_ it)).
Proof.
  intros Hf. unfold mi_in_range. destruct (rows_ it !! index) as [[k v]|] eqn:E.
  - pose proof (lookup_lt_Some _ _ _ E). eapply Forall_lookup_1 in Hf; [|done].
    unfold range_contains in Hf. cbn [fst] in Hf. rewrite Hf. symmetry. by apply Nat.ltb_lt.
  - apply lookup_ge_None in E. symmetry. by apply Nat.ltb_ge.
Qed.

Lemma mi_wf_goto index it : mi_wf it -> mi_wf (mi_goto index it).
Proof.
  intros (Hs & Hf & _). split_and!; [done|done|]. unfold mi_goto, update_status. simpl.
  rewrite (mi_in_range_spec it) by done.
  by destruct (length (rows_ it) <=? index) eqn:E, (index <? length (rows_ it)) eqn:F; boolify; try lia.
Qed.

Lemma mi_valid_spec it : mi_wf it -> mi_valid it = (index_ it <? length (rows_ it)).
Proof.
  intros (Hs & Hf & Hst). unfold mi_valid. rewrite Hst, (mi_in_range_spec it) by done.
  destruct (length (rows_ it) <=? index_ it) eqn:E; simpl; [|done].
  boolify. symmetry. by apply Nat.ltb_ge.
Qed.

Lemma mi_rest_forward it :
  direction (mi_range it) = kForward -> mi_rest it = drop (index_ it) (rows_ it).
Proof. unfold mi_rest. by intros ->. Qed.

Lemma mi_valid_rest it : mi_wf it -> mi_valid it = bool_decide (mi_rest it <> []).
Proof.
  intros Hwf. rewrite mi_valid_spec by done. unfold mi_rest.
  destruct (index_ it <? length (rows_ it)) eqn:E; boolify; symmetry.
  - apply bool_decide_eq_true. destruct (lookup_lt_is_Some_2 _ _ E) as [p Hp].
    destruct (direction (mi_range it)).
    + by rewrite (drop_S _ p).
    + rewrite (take_S_r _ _ p), reverse_app by done. done.
  - apply bool_decide_eq_false. intros []. destruct (direction (mi_range it)); [|done].
    by apply drop_ge.
Qed.

Lemma mi_current it k v r :
  mi_wf it -> mi_rest it = (k, v) :: r ->
  mi_key it = k /\ mi_value it = v /\ mi_rest (mi_next it) = r.
Proof.
  intros Hwf Hr.
  assert (Hv : mi_valid it = true) by (rewrite mi_valid_rest, Hr by done; done).
  unfold mi_key, mi_value, mi_next. rewrite Hv. rewrite mi_valid_spec in Hv by done. boolify.
  destruct (lookup_lt_is_Some_2 _ _ Hv) as [[k0 v0] Hp]. rewrite Hp. simpl.
  unfold mi_rest in Hr. unfold mi_rest, mi_goto, update_status. cbn [rows_ mi_range index_].
  destruct (direction (mi_range it)).
  - rewrite (drop_S _ _ _ Hp) in Hr. by simplify_eq.
  - rewrite (proj2 (Nat.ltb_lt _ _) Hv), (take_S_r _ _ _ Hp), reverse_app in Hr.
    simpl in Hr. simplify_eq. split_and!; [done|done|].
    destruct (index_ it) as [|i]; simpl; [by rewrite Nat.ltb_irrefl|].
    by rewrite Nat.sub_0_r, (proj2 (Nat.ltb_lt _ _)) by lia.
Qed.

Lemma mi_seek_rest k it :
  mi_wf it ->
  mi_rest (mi_seek k it) =
    filter (fun p => negb (before_in_scan (direction (mi_range it)) p.1 k) = true) (mi_all it).
Proof.
  intros (Hs & Hf & _). unfold mi_seek, mi_rest, mi_all.
  destruct (direction (mi_range it)) eqn:Hd; simpl; rewrite Hd.
  - rewrite drop_lower_bound by done. apply filter_ext_in. intros [k' v'] Hin. simpl.
    destruct (start (mi_range it)) as [s|] eqn:Es; [|done].
    destruct (bytes_ltb k s) eqn:E; [|done].
    eapply Forall_forall in Hf; [|done]. unfold range_contains in Hf. rewrite Es in Hf.
    simpl in Hf. destruct (bytes_ltb k' s) eqn:E2; [done|].
    rewrite (bytes_ltb_asym k k'); [done|]. by eapply bytes_ltb_le_trans.
  - rewrite filter_reverse, <- take_upper_bound by done.
    pose proof (upper_bound_le k (rows_ it)).
    destruct (upper_bound k (rows_ it)) as [|n] eqn:E; simpl.
    + by rewrite Nat.ltb_irrefl.
    + rewrite Nat.sub_0_r, (proj2 (Nat.ltb_lt _ _)) by lia. done.
Qed.

Lemma mi_first_rest it : mi_wf it -> mi_rest (mi_seek_to_first it) = mi_all it.
Proof.
  intros Hwf. unfold mi_seek_to_first, mi_rest, mi_all.
  destruct (rows_ it) as [|p rows] eqn:E.
  - simpl. rewrite E. by destruct (direction (mi_range it)).
  - cbn [length Nat.eqb]. simpl. rewrite E. destruct (direction (mi_range it)); simpl; [done|].
    rewrite Nat.sub_0_r, (proj2 (Nat.ltb_lt _ _)) by (simpl; lia).
    by rewrite firstn_all.
Qed.

#[export, refine] Instance MockIterator_laws : IteratorLaws MockIterator := {|
  it_wf := mi_wf; it_all := mi_all; it_rest := mi_rest;
  it_dir := fun it => direction (mi_range it) |}.
Proof.
  - apply mi_valid_rest.
  - apply mi_current.
  - intros it Hwf. simpl. unfold mi_next. case_match; [done|].
    split; [by apply mi_wf_goto|done].
  - intros it Hwf. split; [by apply mi_first_rest|].
    simpl. unfold mi_seek_to_first. case_match; (split; [by apply mi_wf_goto|done]).
  - intros k it Hwf. split; [by apply mi_seek_rest|].
    simpl. unfold mi_seek. case_match eqn:E; (split; [by apply mi_wf_goto|]); by unfold mi_all; simpl; rewrite E.
Defined.

Lemma mock_iterator_wf data r : sorted data -> mi_wf (mock_iterator (materialize data r) r).
Proof.
  intros Hs. unfold mock_iterator, mi_seek_to_first. simpl.
  assert (Hpre : forall i st, mi_wf (mi_goto i (mkMockIterator (materialize data r) r 0 st))).
  { intros i st. split_and!; simpl.
    - by apply sorted_materialize.
    - rewrite materialize_filter by done. apply Forall_forall.
      by intros p [Hp _]%list_elem_of_filter.
    - pose proof (mi_in_range_spec (mkMockIterator (materialize data r) r 0 st) i) as Hin.
      simpl in Hin. rewrite Hin.
      + by destruct (length (materialize data r) <=? i) eqn:E,
          (i <? length (materialize data r)) eqn:F; boolify; try lia.
      + rewrite materialize_filter by done. apply Forall_forall.
        by intros p [Hp _]%list_elem_of_filter. }
  case_match; apply Hpre.
Qed.

Lemma mock_iterator_rest data r :
  sorted data -> mi_rest (mock_iterator (materialize data r) r) =
    scan_order (direction r) (filter (fun p => range_contains r p.1 = true) data).
Proof.
  intros Hs. rewrite <- materialize_filter by done.
  unfold mock_iterator, mi_seek_to_first, mi_rest, scan_order.
  destruct (materialize data r) as [|p rows]; simpl; destruct (direction r); simpl; try done.
  rewrite Nat.sub_0_r, (proj2 (Nat.ltb_lt _ _)) by lia. by rewrite firstn_all.
Qed.
