(* ===== verification/MergingIterator.v ===== *)
(** * Scans inside a transaction

    [OverlayCursor] ([storage/kv_engine/tx_buffer.cpp]) walks the keys a
    transaction wrote; [MergingIterator]
    ([storage/kv_engine/merging_iterator.cpp]) merges it with an iterator of
    the underlying store.  The merging iterator is generic in the underlying
    iterator and is proved against [IteratorLaws]. *)

From S2P Require Import Prelude Bytes OMap KvTypes TxBuffer.

(** ** [OverlayCursor]

    [oc_pos] is the map iterator [it_]: a position of [view_], its length
    standing for [map_end_]. *)

Record OverlayCursor := mkOverlayCursor {
  oc_buffer : option TxBuffer; oc_begin : option Key; oc_end : option Key;
  oc_direction : ScanDirection; oc_pos : nat }.

Definition oc_view (c : OverlayCursor) : omap TxEntry :=
  match oc_buffer c with Some b => view_ b | None => [] end.
Definition oc_map_end (c : OverlayCursor) : nat := length (oc_view c).
Definition oc_set (p : nat) (c : OverlayCursor) : OverlayCursor :=
  mkOverlayCursor (oc_buffer c) (oc_begin c) (oc_end c) (oc_direction c) p.

(** The position before [p], or [map_end_] when there is none. *)
Definition oc_before (p : nat) (c : OverlayCursor) : nat :=
  match p with O => oc_map_end c | S q => q end.

Definition oc_in_bounds (c : OverlayCursor) : bool :=
  match oc_buffer c with
  | None => false
  | Some _ =>
      match oc_view c !! oc_pos c with
      | None => false
      | Some (k, _) =>
          if match oc_begin c with Some b => bytes_ltb k b | None => false end then false
          else if match oc_end c with Some e => negb (bytes_ltb k e) | None => false end
          then false else true
      end
  end.

Definition oc_valid (c : OverlayCursor) : bool := oc_in_bounds c.

Definition oc_next (c : OverlayCursor) : OverlayCursor :=
  match oc_buffer c with
  | None => c
  | Some _ =>
      if oc_pos c =? oc_map_end c then c
      else match oc_direction c with
           | kForward => oc_set (S (oc_pos c)) c
           | kReverse => oc_set (oc_before (oc_pos c) c) c
           end
  end.

Definition oc_prev (c : OverlayCursor) : OverlayCursor :=
  match oc_buffer c with
  | None => c
  | Some _ =>
      if oc_pos c =? oc_map_end c then oc_set (oc_before (oc_map_end c) c) c
      else match oc_direction c with
           | kForward => oc_set (oc_before (oc_pos c) c) c
           | kReverse => oc_set (S (oc_pos c)) c
           end
  end.

Definition oc_key (c : OverlayCursor) : Key :=
  default [] (fst <$> oc_view c !! oc_pos c).
Definition oc_op (c : OverlayCursor) : OverlayOp :=
  match oc_buffer c with Some b => tx_lookup (oc_key c) b | None => OvNone end.

Definition oc_seek (key : Key) (c : OverlayCursor) : OverlayCursor :=
  match oc_buffer c with
  | None => c
  | Some _ =>
      match oc_direction c with
      | kForward => oc_set (lower_bound key (oc_view c)) c
      | kReverse => oc_set (oc_before (upper_bound key (oc_view c)) c) c
      end
  end.

Definition oc_largest (c : OverlayCursor) : OverlayCursor :=
  match oc_end c with
  | Some e => oc_set (oc_before (lower_bound e (oc_view c)) c) c
  | None => oc_set (oc_before (oc_map_end c) c) c
  end.
Definition oc_smallest (c : OverlayCursor) : OverlayCursor :=
  match oc_begin c with
  | Some b => oc_set (lower_bound b (oc_view c)) c
  | None => oc_set 0 c
  end.

Definition oc_seek_start (c : OverlayCursor) : OverlayCursor :=
  match oc_buffer c with
  | None => c
  | Some _ => match oc_direction c with kForward => oc_smallest c | kReverse => oc_largest c end
  end.
Definition oc_seek_finish (c : OverlayCursor) : OverlayCursor :=
  match oc_buffer c with
  | None => c
  | Some _ => match oc_direction c with kForward => oc_largest c | kReverse => oc_smallest c end
  end.

Definition overlay_cursor (buffer : option TxBuffer) (b e : option Key) (d : ScanDirection)
    : OverlayCursor :=
  let c := mkOverlayCursor buffer b e d 0 in
  match buffer with None => c | Some _ => oc_seek_start c end.

(** ** [MergingIterator] *)

Section Merging.
Context {I : Type} `{Iterator I}.

Record MergingIterator := mkMerging {
  mg_db : I; mg_buffer : option TxBuffer; mg_overlay : OverlayCursor;
  mg_direction : ScanDirection;
  mg_valid : bool; current_key_ : Key; current_value_ : ByteValue;
  from_db_ : bool; from_overlay_ : bool }.

Definition mg_sources (db : I) (ov : OverlayCursor) (m : MergingIterator) : MergingIterator :=
  mkMerging db (mg_buffer m) ov (mg_direction m) (mg_valid m) (current_key_ m)
    (current_value_ m) (from_db_ m) (from_overlay_ m).
Definition mg_invalid (m : MergingIterator) : MergingIterator :=
  mkMerging (mg_db m) (mg_buffer m) (mg_overlay m) (mg_direction m) false
    (current_key_ m) (current_value_ m) (from_db_ m) (from_overlay_ m).
(** The end of [settle]: the item found, and which sources it came from. *)
Definition mg_found (k : Key) (v : ByteValue) (m : MergingIterator) : MergingIterator :=
  mkMerging (mg_db m) (mg_buffer m) (mg_overlay m) (mg_direction m) true k v
    (it_valid (mg_db m) && bytes_eqb (it_key (mg_db m)) k)
    (oc_valid (mg_overlay m) && bytes_eqb (oc_key (mg_overlay m)) k).

Definition ov_value (o : OverlayOp) : ByteValue :=
  match o with OvValue v => v | _ => [] end.

Definition overlay_first (m : MergingIterator) : bool :=
  if negb (oc_valid (mg_overlay m)) then false
  else if negb (it_valid (mg_db m)) then true
  else before_in_scan (mg_direction m) (oc_key (mg_overlay m)) (it_key (mg_db m)).

(** One pass of the loop either finds the item or drops a tombstone, which
    advances the overlay; the fuel bounds the dropped tombstones. *)
Fixpoint settle_fuel (fuel : nat) (m : MergingIterator) : MergingIterator :=
  match fuel with
  | O => mg_invalid m
  | S f =>
      let db_ok := it_valid (mg_db m) in
      let ov_ok := oc_valid (mg_overlay m) in
      if negb db_ok && negb ov_ok then mg_invalid m
      else if overlay_first m then
        let op := oc_op (mg_overlay m) in
        if is_tombstone op
        then settle_fuel f (mg_sources (mg_db m) (oc_next (mg_overlay m)) m)
        else mg_found (oc_key (mg_overlay m)) (ov_value op) m
      else if negb db_ok then mg_invalid m
      else
        let same_key := ov_ok && negb (before_in_scan (mg_direction m)
                                         (it_key (mg_db m)) (oc_key (mg_overlay m))) in
        if same_key then
          let op := oc_op (mg_overlay m) in
          if is_tombstone op
          then settle_fuel f (mg_sources (it_next (mg_db m)) (oc_next (mg_overlay m)) m)
          else mg_found (it_key (mg_db m)) (ov_value op) m
        else mg_found (it_key (mg_db m)) (it_value (mg_db m)) m
  end.

Definition settle (m : MergingIterator) : MergingIterator :=
  settle_fuel (S (length (oc_view (mg_overlay m)))) m.

Definition advance_sources (m : MergingIterator) : MergingIterator :=
  mg_sources (if from_db_ m then it_next (mg_db m) else mg_db m)
    (if from_overlay_ m then oc_next (mg_overlay m) else mg_overlay m) m.

Definition merging_iterator (db : I) (buffer : option TxBuffer) (r : KeyRange) : MergingIterator :=
  settle (mkMerging db buffer
    (overlay_cursor buffer (start r) (end_ r) (direction r))
    (direction r) false [] [] false false).

Definition mg_next (m : MergingIterator) : MergingIterator :=
  if negb (mg_valid m) then m else settle (advance_sources m).

Definition mg_seek (key : Key) (m : MergingIterator) : MergingIterator :=
  settle (mg_sources (it_seek key (mg_db m)) (oc_seek key (mg_overlay m)) m).

Definition mg_seek_to_first (m : MergingIterator) : MergingIterator :=
  settle (mg_sources (it_seek_to_first (mg_db m)) (oc_seek_start (mg_overlay m)) m).

Definition reposition_to (key : Key) (m : MergingIterator) : MergingIterator :=
  settle (mg_sources (it_seek key (mg_db m)) (oc_seek key (mg_overlay m)) m).

Definition mg_key (m : MergingIterator) : Key :=
  if mg_valid m then current_key_ m else [].
Definition mg_value (m : MergingIterator) : ByteValue :=
  if mg_valid m then current_value_ m else [].
Definition mg_status (m : MergingIterator) : Status := it_status (mg_db m).

(** Stepping back: both sources move strictly before the key, tombstones are
    skipped (the fuel bounds the skipped rows), the later candidate wins. *)
Fixpoint db_skip_back (fuel : nat) (buffer : option TxBuffer) (db : I) : I :=
  match fuel with
  | O => db
  | S f =>
      if it_valid db &&
         match buffer with Some b => is_tombstone (tx_lookup (it_key db) b) | None => false end
      then db_skip_back f buffer (it_prev db) else db
  end.
Fixpoint ov_skip_back (fuel : nat) (c : OverlayCursor) : OverlayCursor :=
  match fuel with
  | O => c
  | S f => if oc_valid c && is_tombstone (oc_op c) then ov_skip_back f (oc_prev c) else c
  end.

Definition later_in_scan (d : ScanDirection) (a b : Key) : bool :=
  match d with kForward => bytes_ltb b a | kReverse => bytes_ltb a b end.

(** The shared tail of [predecessor_of] and [last_item]. *)
Definition pick_later (d : ScanDirection) (db : I) (ov : OverlayCursor) : option (Key * ByteValue) :=
  let has_db := it_valid db in
  let has_ov := oc_valid ov in
  if negb has_db && negb has_ov then None
  else if has_ov && (negb has_db || later_in_scan d (oc_key ov) (it_key db))
       then Some (oc_key ov, ov_value (oc_op ov))
       else Some (it_key db, it_value db).

Definition predecessor_of (fuel : nat) (key : Key) (m : MergingIterator)
    : MergingIterator * option (Key * ByteValue) :=
  let db := it_seek key (mg_db m) in
  let db := if negb (it_valid db) then it_seek_to_last db else it_prev db in
  let db := db_skip_back fuel (mg_buffer m) db in
  let ov := oc_seek key (mg_overlay m) in
  let ov := if negb (oc_valid ov) then oc_seek_finish ov else oc_prev ov in
  let ov := ov_skip_back fuel ov in
  (mg_sources db ov m, pick_later (mg_direction m) db ov).

Definition last_item (fuel : nat) (m : MergingIterator)
    : MergingIterator * option (Key * ByteValue) :=
  let db := db_skip_back fuel (mg_buffer m) (it_seek_to_last (mg_db m)) in
  let ov := ov_skip_back fuel (oc_seek_finish (mg_overlay m)) in
  (mg_sources db ov m, pick_later (mg_direction m) db ov).

Definition mg_prev (fuel : nat) (m : MergingIterator) : MergingIterator :=
  if negb (mg_valid m) then m
  else match predecessor_of fuel (current_key_ m) m with
       | (m', None) => mg_invalid m'
       | (m', Some (k, _)) => reposition_to k m'
       end.

Definition mg_seek_to_last (fuel : nat) (m : MergingIterator) : MergingIterator :=
  match last_item fuel m with
  | (m', None) => mg_invalid m'
  | (m', Some (k, _)) => reposition_to k m'
  end.

End Merging.
Arguments MergingIterator I : clear implicits.

(** ** The overlay cursor as a list of entries *)

Definition oc_range (c : OverlayCursor) : KeyRange :=
  mkKeyRange (oc_begin c) (oc_end c) 0 (oc_direction c).

(** The entries from the position on, in scan order, bounds ignored. *)
Definition oc_raw (c : OverlayCursor) : omap TxEntry :=
  match oc_direction c with
  | kForward => drop (oc_pos c) (oc_view c)
  | kReverse => if oc_pos c <? length (oc_view c)
                then reverse (take (S (oc_pos c)) (oc_view c)) else []
  end.

Definition oc_rest (c : OverlayCursor) : omap TxEntry :=
  if oc_valid c then filter (fun p => range_contains (oc_range c) p.1 = true) (oc_raw c) else [].

Definition oc_wf (c : OverlayCursor) : Prop := sorted (oc_view c).

Lemma oc_valid_raw c :
  oc_valid c = match oc_raw c with
               | [] => false | p :: _ => range_contains (oc_range c) p.1 end.
Proof.
  unfold oc_valid, oc_in_bounds, oc_raw, oc_range, range_contains.
  destruct (oc_view c !! oc_pos c) as [[k e]|] eqn:E.
  - assert (oc_buffer c <> None).
    { intros Hb. unfold oc_view in E. by rewrite Hb in E. }
    destruct (oc_buffer c); [|done].
    pose proof (lookup_lt_Some _ _ _ E). destruct (oc_direction c).
    + by rewrite (drop_S _ _ _ E).
    + by rewrite (proj2 (Nat.ltb_lt _ _)), (take_S_r _ _ _ E), reverse_app.
  - apply lookup_ge_None in E. destruct (oc_buffer c); destruct (oc_direction c);
      rewrite ?drop_ge by done; try done; by rewrite (proj2 (Nat.ltb_ge _ _)).
Qed.

Lemma scan_sorted_raw c : oc_wf c -> scan_sorted (oc_direction c) (oc_raw c).
Proof.
  intros Hs. unfold oc_raw. unfold oc_wf in Hs. destruct (oc_direction c).
  - apply (scan_sorted_order kForward). rewrite <- (take_drop (oc_pos c)) in Hs.
    by apply sorted_app in Hs as (_ & ? & _).
  - case_match; [|constructor]. apply (scan_sorted_order kReverse).
    rewrite <- (take_drop (S (oc_pos c))) in Hs. by apply sorted_app in Hs as (? & _).
Qed.

Lemma oc_raw_next c p l :
  oc_raw c = p :: l -> oc_raw (oc_next c) = l /\ oc_key c = p.1 /\
  oc_range (oc_next c) = oc_range c /\ oc_view (oc_next c) = oc_view c /\
  oc_buffer (oc_next c) = oc_buffer c.
Proof.
  intros Hr. assert (Hlt : oc_pos c < length (oc_view c)).
  { unfold oc_raw in Hr. destruct (oc_direction c).
    - destruct (decide (oc_pos c < length (oc_view c))); [done|].
      by rewrite drop_ge in Hr by lia.
    - case_match; boolify; done. }
  destruct (lookup_lt_is_Some_2 _ _ Hlt) as [q Hq].
  unfold oc_next, oc_key, oc_map_end. rewrite Hq.
  destruct (oc_buffer c) eqn:Eb; [|unfold oc_view in Hlt; rewrite Eb in Hlt; simpl in Hlt; lia].
  rewrite (proj2 (Nat.eqb_neq _ _)) by lia.
  unfold oc_raw in Hr. destruct (oc_direction c) eqn:Ed; unfold oc_raw;
    change (oc_view (oc_set ?p c)) with (oc_view c);
    change (oc_direction (oc_set ?p c)) with (oc_direction c); rewrite Ed; cbn [oc_pos oc_set].
  - rewrite (drop_S _ _ _ Hq) in Hr. by simplify_eq.
  - rewrite (proj2 (Nat.ltb_lt _ _) Hlt), (take_S_r _ _ _ Hq), reverse_app in Hr.
    simpl in Hr. simplify_eq. split; [|done]. unfold oc_before, oc_map_end.
    destruct (oc_pos c) as [|i]; [by rewrite Nat.ltb_irrefl|].
    by rewrite (proj2 (Nat.ltb_lt _ _)) by lia.
Qed.

Lemma oc_valid_rest c : oc_valid c = bool_decide (oc_rest c <> []).
Proof.
  unfold oc_rest. destruct (oc_valid c) eqn:E; symmetry.
  - apply bool_decide_eq_true. rewrite oc_valid_raw in E.
    destruct (oc_raw c) as [|p l]; [done|]. rewrite filter_cons. by rewrite E.
  - apply bool_decide_eq_false. by intros [].
Qed.

Lemma oc_current c k e r :
  oc_wf c -> oc_rest c = (k, e) :: r ->
  oc_key c = k /\ oc_rest (oc_next c) = r /\ oc_wf (oc_next c) /\
  oc_buffer (oc_next c) = oc_buffer c /\ (k, e) ∈ oc_view c.
Proof.
  intros Hwf Hr. pose proof (oc_valid_raw c) as Hv. pose proof (scan_sorted_raw c Hwf) as Hs.
  unfold oc_rest in Hr. destruct (oc_valid c); [|done].
  destruct (oc_raw c) as [|p l] eqn:E; [done|].
  destruct (oc_raw_next c p l E) as (Hn & Hk & Hrg & Hvw & Hbuf).
  rewrite filter_cons, decide_True in Hr by done. injection Hr as -> <-. simpl in *.
  split_and!; [done| |unfold oc_wf; by rewrite Hvw|done|].
  - unfold oc_rest. rewrite oc_valid_raw, Hn, Hrg.
    destruct l as [|q l]; [done|].
    destruct (range_contains (oc_range c) q.1) eqn:Eq; [done|].
    symmetry. by eapply scan_leaves_range.
  - assert (Hin : (k, e) ∈ oc_raw c) by (rewrite E; left).
    unfold oc_raw in Hin. destruct (oc_direction c).
    + apply (elem_of_take_drop _ (oc_pos c)). by right.
    + case_match; [|by apply elem_of_nil in Hin].
      rewrite elem_of_reverse in Hin.
      apply (elem_of_take_drop _ (S (oc_pos c))). by left.
Qed.

Lemma filter_reverse_nil {V} (P : bytes -> bool) (l : omap V) :
  filter (fun p => P p.1 = true) l = [] -> filter (fun p => P p.1 = true) (reverse l) = [].
Proof. intros E. rewrite filter_reverse, E. done. Qed.

(** [drop]ping entries outside a range does not change the entries inside. *)
Lemma filter_drop_below r b (m : omap TxEntry) :
  sorted m -> start r = Some b ->
  filter (fun p => range_contains r p.1 = true) (drop (lower_bound b m) m) =
  filter (fun p => range_contains r p.1 = true) m.
Proof.
  intros Hs Hb. rewrite drop_lower_bound by done. rewrite list_filter_filter.
  apply list_filter_iff. intros p. unfold range_contains. rewrite Hb.
  destruct (bytes_ltb p.1 b); simpl; intuition congruence.
Qed.

Lemma filter_take_above r e (m : omap TxEntry) :
  sorted m -> end_ r = Some e ->
  filter (fun p => range_contains r p.1 = true) (take (lower_bound e m) m) =
  filter (fun p => range_contains r p.1 = true) m.
Proof.
  intros Hs He. rewrite take_lower_bound by done. rewrite list_filter_filter.
  apply list_filter_iff. intros p. unfold range_contains, bytes_leb. rewrite He.
  destruct (bytes_ltb p.1 e), (match start r with Some s => bytes_ltb p.1 s | None => false end);
    simpl; intuition congruence.
Qed.

(** A cursor whose raw entries contain all entries in range yields them all. *)
Lemma oc_rest_all c all :
  oc_wf c ->
  filter (fun p => range_contains (oc_range c) p.1 = true) (oc_raw c) = all ->
  (match oc_raw c with [] => True | p :: l =>
     range_contains (oc_range c) p.1 = false ->
     filter (fun p => range_contains (oc_range c) p.1 = true) l = [] end) ->
  oc_rest c = all.
Proof.
  intros Hwf Hall Hhd. unfold oc_rest. rewrite oc_valid_raw.
  destruct (oc_raw c) as [|p l]; [by rewrite <- Hall|].
  destruct (range_contains (oc_range c) p.1) eqn:E; [done|].
  rewrite <- Hall, filter_cons, decide_False by congruence. symmetry. by apply Hhd.
Qed.

Lemma not_in_range_above r p l :
  sorted (p :: l) -> range_contains r p.1 = false ->
  match start r with Some s => bytes_ltb p.1 s = false | None => True end ->
  filter (fun q => range_contains r q.1 = true) (p :: l : omap TxEntry) = [].
Proof.
  intros Hs Hp Hge. apply (filter_none (range_contains r)). constructor; [done|].
  eapply Forall_impl; [apply (sorted_head _ _ Hs)|]. intros q Hq.
  unfold key_before, bytes_lt in Hq. unfold range_contains, bytes_leb in *.
  destruct (start r) as [s|]; [rewrite Hge in Hp; destruct (bytes_ltb q.1 s); [done|]|];
    (destruct (end_ r) as [e|]; [|done]; destruct (bytes_ltb p.1 e) eqn:E; [done|]; simpl in *;
     destruct (bytes_ltb q.1 e) eqn:E2; [|done];
     pose proof (bytes_ltb_trans _ _ _ Hq E2); congruence).
Qed.

Lemma not_in_range_below r p l :
  sorted (l ++ [p]) -> range_contains r p.1 = false ->
  match end_ r with Some e => bytes_ltb p.1 e = true | None => True end ->
  filter (fun q => range_contains r q.1 = true) (l ++ [p] : omap TxEntry) = [].
Proof.
  intros (Hs & _ & Hlp)%sorted_app Hp Hlt. apply (filter_none (range_contains r)).
  apply Forall_app. split; [|by repeat constructor].
  apply Forall_forall. intros q Hq. specialize (Hlp q p Hq ltac:(left)).
  unfold key_before, bytes_lt in Hlp. unfold range_contains, bytes_leb in *.
  destruct (match start r with Some s => bytes_ltb p.1 s | None => false end) eqn:E.
  - destruct (start r) as [s|]; [|done]. by rewrite (bytes_ltb_trans q.1 p.1 s).
  - destruct (end_ r) as [e|]; [|done]. by rewrite Hlt in Hp.
Qed.

Lemma lower_bound_le {V} k (m : omap V) : lower_bound k m <= length m.
Proof. induction m as [|[? ?] m IH]; simpl; [done|]. case_match; lia. Qed.

(** Positioning at a given split of the view: forward from [i] on ... *)
Lemma oc_rest_forward_at c i :
  oc_wf c -> oc_direction c = kForward ->
  filter (fun p => range_contains (oc_range c) p.1 = true) (take i (oc_view c)) = [] ->
  (match oc_begin c with
   | Some s => Forall (fun p => bytes_ltb p.1 s = false) (drop i (oc_view c)) | None => True end) ->
  oc_rest (oc_set i c) = filter (fun p => range_contains (oc_range c) p.1 = true) (oc_view c).
Proof.
  intros Hwf Hd Htake Hge. apply oc_rest_all; [done| |].
  - unfold oc_raw. change (oc_direction (oc_set i c)) with (oc_direction c). rewrite Hd.
    change (oc_view (oc_set i c)) with (oc_view c). change (oc_range (oc_set i c)) with (oc_range c).
    cbn [oc_pos oc_set]. rewrite <- (take_drop i (oc_view c)) at 2.
    by rewrite filter_app, Htake.
  - unfold oc_raw. change (oc_direction (oc_set i c)) with (oc_direction c). rewrite Hd.
    change (oc_view (oc_set i c)) with (oc_view c). change (oc_range (oc_set i c)) with (oc_range c).
    cbn [oc_pos oc_set]. unfold oc_wf in Hwf. rewrite <- (take_drop i) in Hwf.
    apply sorted_app in Hwf as (_ & Hs & _).
    destruct (drop i (oc_view c)) as [|p l]; [done|]. intros Hp.
    pose proof (not_in_range_above _ _ _ Hs Hp) as Hnil.
    rewrite filter_cons, decide_False in Hnil by congruence. apply Hnil.
    unfold oc_range. simpl. destruct (oc_begin c); [|done]. by inversion Hge.
Qed.

(** ... and backwards from the position before [i]. *)
Lemma oc_rest_reverse_at c i :
  oc_wf c -> oc_direction c = kReverse -> i <= length (oc_view c) ->
  filter (fun p => range_contains (oc_range c) p.1 = true) (drop i (oc_view c)) = [] ->
  (match oc_end c with
   | Some e => Forall (fun p => bytes_ltb p.1 e = true) (take i (oc_view c)) | None => True end) ->
  oc_rest (oc_set (oc_before i c) c) =
    reverse (filter (fun p => range_contains (oc_range c) p.1 = true) (oc_view c)).
Proof.
  intros Hwf Hd Hi Hdrop Hlt.
  assert (Hraw : oc_raw (oc_set (oc_before i c) c) = reverse (take i (oc_view c))).
  { unfold oc_raw. change (oc_direction (oc_set ?j c)) with (oc_direction c). rewrite Hd.
    change (oc_view (oc_set ?j c)) with (oc_view c). cbn [oc_pos oc_set].
    unfold oc_before, oc_map_end. destruct i as [|i]; [by rewrite Nat.ltb_irrefl|].
    by rewrite (proj2 (Nat.ltb_lt _ _)) by lia. }
  apply oc_rest_all; [done| |].
  - rewrite Hraw. change (oc_range (oc_set ?j c)) with (oc_range c).
    rewrite filter_reverse. f_equal. rewrite <- (take_drop i (oc_view c)) at 2.
    by rewrite filter_app, Hdrop, app_nil_r.
  - rewrite Hraw. change (oc_range (oc_set ?j c)) with (oc_range c).
    unfold oc_wf in Hwf. rewrite <- (take_drop i) in Hwf. apply sorted_app in Hwf as (Hs & _ & _).
    destruct (take i (oc_view c)) as [|p l _] using rev_ind; [done|].
    rewrite reverse_app. simpl. intros Hp.
    pose proof (not_in_range_below _ _ _ Hs Hp) as Hnil. rewrite filter_reverse.
    rewrite filter_app in Hnil. apply app_eq_nil in Hnil as [-> _]; [done|].
    unfold oc_range. simpl. destruct (oc_end c); [|done].
    apply Forall_app in Hlt as [_ Hlt]. by inversion Hlt.
Qed.

Lemma filter_out_start r b (l : omap TxEntry) :
  start r = Some b -> Forall (fun p => bytes_ltb p.1 b = true) l ->
  filter (fun p => range_contains r p.1 = true) l = [].
Proof.
  intros Hb Hf. apply (filter_none (range_contains r)). eapply Forall_impl; [done|].
  intros p Hp. simpl in Hp. unfold range_contains. by rewrite Hb, Hp.
Qed.

Lemma filter_out_end r e (l : omap TxEntry) :
  end_ r = Some e -> Forall (fun p => bytes_ltb p.1 e = false) l ->
  filter (fun p => range_contains r p.1 = true) l = [].
Proof.
  intros He Hf. apply (filter_none (range_contains r)). eapply Forall_impl; [done|].
  intros p Hp. simpl in Hp. unfold range_contains, bytes_leb. rewrite He, Hp. by case_match.
Qed.

Lemma lower_bound_split k (m : omap TxEntry) :
  sorted m ->
  Forall (fun p => bytes_ltb p.1 k = true) (take (lower_bound k m) m) /\
  Forall (fun p => bytes_ltb p.1 k = false) (drop (lower_bound k m) m).
Proof.
  intros Hs. rewrite take_lower_bound, drop_lower_bound by done.
  split; apply Forall_forall; intros p [Hp _]%list_elem_of_filter; [done|].
  by apply negb_true_iff.
Qed.

(** [seek_start]: every entry of the range, in scan order. *)
Lemma oc_rest_seek_start c :
  oc_wf c ->
  oc_rest (oc_seek_start c) =
  scan_order (oc_direction c)
    (filter (fun p => range_contains (oc_range c) p.1 = true) (oc_view c)).
Proof.
  intros Hwf. unfold oc_seek_start. destruct (oc_buffer c) eqn:Eb.
  2:{ unfold oc_rest, oc_valid, oc_in_bounds, oc_view. rewrite Eb. by destruct (oc_direction c). }
  destruct (oc_direction c) eqn:Ed; simpl.
  - unfold oc_smallest. destruct (oc_begin c) as [b|] eqn:Ebg.
    + destruct (lower_bound_split b (oc_view c) Hwf) as [H1 H2].
      apply oc_rest_forward_at; [done|done| |by rewrite Ebg].
      by eapply filter_out_start.
    + apply oc_rest_forward_at; [done|done|done|by rewrite Ebg].
  - unfold oc_largest. destruct (oc_end c) as [e|] eqn:Een.
    + destruct (lower_bound_split e (oc_view c) Hwf) as [H1 H2].
      apply oc_rest_reverse_at; [done|done|apply lower_bound_le| |by rewrite Een].
      by eapply filter_out_end.
    + apply oc_rest_reverse_at; [done|done|done| |by rewrite Een].
      unfold oc_map_end. by rewrite drop_all.
Qed.

(** ** The merge as a function of the two row lists *)

(** [merge_ov] consumes overlay entries before the row [p], then continues. *)
Fixpoint merge_rows (lk : Key -> OverlayOp) (d : ScanDirection)
    (D : list (Key * ByteValue)) : omap TxEntry -> list (Key * ByteValue) :=
  fix inner (O : omap TxEntry) : list (Key * ByteValue) :=
    match O with
    | [] => D
    | (k, _) :: O' =>
        let emit := fun rest => if is_tombstone (lk k) then rest
                                else (k, ov_value (lk k)) :: rest in
        match D with
        | [] => emit (inner O')
        | (k', v') :: D' =>
            if before_in_scan d k k' then emit (inner O')
            else if before_in_scan d k' k then (k', v') :: merge_rows lk d D' O
            else emit (merge_rows lk d D' O')
        end
    end.

Lemma merge_rows_nil_r lk d D : merge_rows lk d D [] = D.
Proof. by destruct D. Qed.

(** The overlay's item for [k], unless it is a tombstone. *)
Definition emit (lk : Key -> OverlayOp) (k : Key) (rest : list (Key * ByteValue)) :=
  if is_tombstone (lk k) then rest else (k, ov_value (lk k)) :: rest.

Lemma merge_rows_nil_l lk d k e O :
  merge_rows lk d [] ((k, e) :: O) = emit lk k (merge_rows lk d [] O).
Proof. done. Qed.

Lemma merge_rows_cons lk d k1 v1 D k2 e2 O :
  merge_rows lk d ((k1, v1) :: D) ((k2, e2) :: O) =
  if before_in_scan d k2 k1 then emit lk k2 (merge_rows lk d ((k1, v1) :: D) O)
  else if before_in_scan d k1 k2 then (k1, v1) :: merge_rows lk d D ((k2, e2) :: O)
  else emit lk k2 (merge_rows lk d D O).
Proof. done. Qed.

Section MergeSpec.
Context (lk : Key -> OverlayOp) (d : ScanDirection).
Implicit Types (D : list (Key * ByteValue)) (O : omap TxEntry).

Definition all_before (k : Key) {V} (l : omap V) : Prop :=
  Forall (fun q => before_in_scan d k q.1 = true) l.

Lemma emit_all_before k k0 l :
  before_in_scan d k k0 = true -> all_before k l -> all_before k (emit lk k0 l).
Proof. intros H1 H2. unfold emit. case_match; [done|]. by constructor. Qed.

Lemma merge_rows_all_before k D O :
  all_before k D -> all_before k O -> all_before k (merge_rows lk d D O).
Proof.
  revert O; induction D as [|[k1 v1] D IHD]; intros O HD HO;
    induction O as [|[k2 e2] O IHO]; try done.
  - rewrite merge_rows_nil_l. inversion HO; subst. apply emit_all_before; [done|by apply IHO].
  - rewrite merge_rows_cons. inversion HD; subst. inversion HO; subst. simpl in *.
    case_match; [apply emit_all_before; [done|by apply IHO]|].
    case_match; [by constructor; [|apply IHD]|].
    apply emit_all_before; [done|by apply IHD].
Qed.

Lemma all_before_trans k1 k2 {V} (l : omap V) :
  before_in_scan d k1 k2 = true -> all_before k2 l -> all_before k1 l.
Proof.
  intros H1 H2. eapply Forall_impl; [done|]. intros q Hq. simpl in *.
  by eapply before_in_scan_trans.
Qed.

Lemma emit_sorted k l :
  scan_sorted d l -> all_before k l -> scan_sorted d (emit lk k l).
Proof. intros H1 H2. unfold emit. case_match; [done|]. by constructor. Qed.

Lemma merge_rows_sorted D O :
  scan_sorted d D -> scan_sorted d O -> scan_sorted d (merge_rows lk d D O).
Proof.
  revert O; induction D as [|[k1 v1] D IHD]; intros O HD HO;
    induction O as [|[k2 e2] O IHO]; try done.
  - rewrite merge_rows_nil_l. inversion HO; subst.
    apply emit_sorted; [by apply IHO|]. apply merge_rows_all_before; [constructor|done].
  - rewrite merge_rows_cons. inversion HD; subst. inversion HO; subst.
    destruct (before_in_scan d k2 k1) eqn:E1; [|destruct (before_in_scan d k1 k2) eqn:E2].
    + apply emit_sorted; [by apply IHO|]. apply merge_rows_all_before; [|done].
      constructor; [done|by eapply all_before_trans].
    + constructor; [by apply IHD|]. apply merge_rows_all_before; [done|].
      constructor; [done|by eapply all_before_trans].
    + assert (k2 = k1) as -> by by eapply before_in_scan_total.
      apply emit_sorted; [by apply IHD|]. by apply merge_rows_all_before.
Qed.

Lemma all_before_notin x {V} (l : omap V) : all_before x l -> x ∉ l.*1.
Proof.
  intros Hl (q & -> & Hq)%list_elem_of_fmap. eapply Forall_forall in Hl; [|done].
  simpl in Hl. by rewrite before_in_scan_irrefl in Hl.
Qed.

Lemma elem_of_emit k v k0 l :
  (k, v) ∈ emit lk k0 l <->
  (k = k0 /\ v = ov_value (lk k0) /\ is_tombstone (lk k0) = false) \/ (k, v) ∈ l.
Proof. unfold emit. destruct (is_tombstone (lk k0)); [naive_solver|]. rewrite elem_of_cons. naive_solver. Qed.

(** What a merged row is: the overlay decides its own keys, the rows of the
    store pass otherwise. *)
Definition merged_row D O (k : Key) (v : ByteValue) : Prop :=
  (k ∈ O.*1 /\ is_tombstone (lk k) = false /\ v = ov_value (lk k)) \/
  (k ∉ O.*1 /\ (k, v) ∈ D).

Lemma merged_row_cons_ov D k2 e2 O k v :
  k2 ∉ O.*1 -> k2 ∉ D.*1 ->
  merged_row D ((k2, e2) :: O) k v <->
  (k = k2 /\ v = ov_value (lk k2) /\ is_tombstone (lk k2) = false) \/ merged_row D O k v.
Proof.
  intros HnO HnD. unfold merged_row. rewrite fmap_cons, elem_of_cons. simpl.
  assert ((k2, v) ∉ D) by (intros Hin; apply HnD, list_elem_of_fmap; by exists (k2, v)).
  destruct (decide (k = k2)) as [->|Hne]; naive_solver.
Qed.

Lemma merged_row_cons_db k1 v1 D O k v :
  k1 ∉ O.*1 -> merged_row ((k1, v1) :: D) O k v <-> (k, v) = (k1, v1) \/ merged_row D O k v.
Proof. intros Hn. unfold merged_row. rewrite elem_of_cons. naive_solver. Qed.

Lemma merged_row_cons_both k1 v1 D e2 O k v :
  k1 ∉ O.*1 -> k1 ∉ D.*1 ->
  merged_row ((k1, v1) :: D) ((k1, e2) :: O) k v <->
  (k = k1 /\ v = ov_value (lk k1) /\ is_tombstone (lk k1) = false) \/ merged_row D O k v.
Proof.
  intros HnO HnD. rewrite <- (merged_row_cons_ov D k1 e2) by done.
  unfold merged_row. rewrite fmap_cons, !elem_of_cons. simpl. naive_solver.
Qed.

Lemma merge_rows_elem D O k v :
  scan_sorted d D -> scan_sorted d O ->
  (k, v) ∈ merge_rows lk d D O <-> merged_row D O k v.
Proof.
  revert O; induction D as [|[k1 v1] D IHD]; intros O HD HO;
    induction O as [|[k2 e2] O IHO].
  - unfold merged_row. set_solver.
  - inversion HO; subst. rewrite merge_rows_nil_l, elem_of_emit, IHO by done.
    rewrite merged_row_cons_ov; [done|by apply all_before_notin|set_solver].
  - unfold merged_row. rewrite merge_rows_nil_r. set_solver.
  - inversion HD as [|? ? HsD HbD]; subst. inversion HO as [|? ? HsO HbO]; subst.
    cbn [fst] in *.
    rewrite merge_rows_cons.
    destruct (before_in_scan d k2 k1) eqn:E1; [|destruct (before_in_scan d k1 k2) eqn:E2].
    + rewrite elem_of_emit, IHO by done.
      rewrite merged_row_cons_ov; [done|by apply all_before_notin|].
      apply all_before_notin. constructor; [done|by eapply all_before_trans].
    + rewrite elem_of_cons, IHD by done. rewrite merged_row_cons_db; [done|].
      apply all_before_notin. constructor; [done|by eapply all_before_trans].
    + assert (k2 = k1) as -> by by eapply before_in_scan_total.
      rewrite elem_of_emit, IHD by done.
      rewrite merged_row_cons_both; [done|by apply all_before_notin..].
Qed.
End MergeSpec.

(** ** The merging iterator refines the merge *)

Section Refinement.
Context {I : Type} `{IteratorLaws I}.

Definition mg_lookup (m : MergingIterator I) (k : Key) : OverlayOp :=
  match mg_buffer m with Some b => tx_lookup k b | None => OvNone end.

Record mg_inv (m : MergingIterator I) : Prop := {
  mgi_db : it_wf (mg_db m);
  mgi_ov : oc_wf (mg_overlay m);
  mgi_buf : oc_buffer (mg_overlay m) = mg_buffer m }.

(** The rows still to come, from the sources' positions. *)
Definition mg_pending (m : MergingIterator I) : list (Key * ByteValue) :=
  merge_rows (mg_lookup m) (mg_direction m) (it_rest (mg_db m)) (oc_rest (mg_overlay m)).

(** [m] shows the head of [rows] and has the tail pending. *)
Definition mg_shows (m : MergingIterator I) (rows : list (Key * ByteValue)) : Prop :=
  match rows with
  | [] => mg_valid m = false
  | (k, v) :: rest =>
      mg_valid m = true /\ current_key_ m = k /\ current_value_ m = v /\
      mg_inv (advance_sources m) /\ mg_pending (advance_sources m) = rest
  end.

Lemma oc_op_lookup m k :
  mg_inv m -> oc_key (mg_overlay m) = k -> oc_op (mg_overlay m) = mg_lookup m k.
Proof. intros [_ _ Hb] <-. unfold oc_op, mg_lookup. by rewrite Hb. Qed.

(** The item comes from the overlay only. *)
Lemma mg_found_overlay m k e O :
  mg_inv m -> oc_rest (mg_overlay m) = (k, e) :: O ->
  (forall k' v' D, it_rest (mg_db m) = (k', v') :: D -> k <> k') ->
  mg_shows (mg_found k (ov_value (mg_lookup m k)) m)
    ((k, ov_value (mg_lookup m k)) ::
     merge_rows (mg_lookup m) (mg_direction m) (it_rest (mg_db m)) O).
Proof.
  intros Hinv HO Hne. destruct Hinv as [Hdb Hov Hbuf].
  destruct (oc_current _ _ _ _ Hov HO) as (Hk & Hr & Hwf & Hb & _).
  assert (Hfo : oc_valid (mg_overlay m) && bytes_eqb (oc_key (mg_overlay m)) k = true).
  { rewrite oc_valid_rest, HO, Hk, bytes_eqb_refl. done. }
  assert (Hfd : it_valid (mg_db m) && bytes_eqb (it_key (mg_db m)) k = false).
  { rewrite it_valid_rest by done. destruct (it_rest (mg_db m)) as [|[k' v'] D] eqn:ED; [done|].
    destruct (it_current _ _ _ _ Hdb ED) as (-> & _).
    apply andb_false_iff. right. apply bool_decide_eq_false. naive_solver. }
  unfold mg_shows, advance_sources, mg_found. cbn. rewrite Hfo, Hfd.
  split_and!; try done; [split; try done; cbn; congruence|].
  unfold mg_pending, mg_lookup. cbn. by rewrite Hr.
Qed.

(** The item comes from the store only. *)
Lemma mg_found_db m k v D :
  mg_inv m -> it_rest (mg_db m) = (k, v) :: D ->
  (forall k' e' O, oc_rest (mg_overlay m) = (k', e') :: O -> k <> k') ->
  mg_shows (mg_found k v m)
    ((k, v) :: merge_rows (mg_lookup m) (mg_direction m) D (oc_rest (mg_overlay m))).
Proof.
  intros Hinv HD Hne. destruct Hinv as [Hdb Hov Hbuf].
  destruct (it_current _ _ _ _ Hdb HD) as (Hk & Hv & Hr).
  destruct (it_next_all _ Hdb) as (Hwf & _).
  assert (Hfd : it_valid (mg_db m) && bytes_eqb (it_key (mg_db m)) k = true).
  { rewrite it_valid_rest, HD, Hk, bytes_eqb_refl by done. done. }
  assert (Hfo : oc_valid (mg_overlay m) && bytes_eqb (oc_key (mg_overlay m)) k = false).
  { rewrite oc_valid_rest. destruct (oc_rest (mg_overlay m)) as [|[k' e'] O] eqn:EO; [done|].
    destruct (oc_current _ _ _ _ Hov EO) as (-> & _).
    apply andb_false_iff. right. apply bool_decide_eq_false. naive_solver. }
  unfold mg_shows, advance_sources, mg_found. cbn. rewrite Hfo, Hfd.
  split_and!; try done. unfold mg_pending, mg_lookup. cbn. by rewrite Hr.
Qed.

(** Both sources have the key; the overlay's value wins. *)
Lemma mg_found_both m k v D e O :
  mg_inv m -> it_rest (mg_db m) = (k, v) :: D -> oc_rest (mg_overlay m) = (k, e) :: O ->
  mg_shows (mg_found k (ov_value (mg_lookup m k)) m)
    ((k, ov_value (mg_lookup m k)) :: merge_rows (mg_lookup m) (mg_direction m) D O).
Proof.
  intros Hinv HD HO. destruct Hinv as [Hdb Hov Hbuf].
  destruct (it_current _ _ _ _ Hdb HD) as (Hk & Hv & Hr).
  destruct (it_next_all _ Hdb) as (Hwf & _).
  destruct (oc_current _ _ _ _ Hov HO) as (Hk2 & Hr2 & Hwf2 & Hb2 & _).
  assert (Hfd : it_valid (mg_db m) && bytes_eqb (it_key (mg_db m)) k = true).
  { rewrite it_valid_rest, HD, Hk, bytes_eqb_refl by done. done. }
  assert (Hfo : oc_valid (mg_overlay m) && bytes_eqb (oc_key (mg_overlay m)) k = true).
  { rewrite oc_valid_rest, HO, Hk2, bytes_eqb_refl. done. }
  unfold mg_shows, advance_sources, mg_found. cbn. rewrite Hfo, Hfd.
  split_and!; try done; [split; try done; cbn; congruence|].
  unfold mg_pending, mg_lookup. cbn. by rewrite Hr, Hr2.
Qed.

(** One iteration of [settle], by the rows the sources show. *)
Lemma settle_fuel_db fuel m k v D :
  mg_inv m -> it_rest (mg_db m) = (k, v) :: D -> oc_rest (mg_overlay m) = [] ->
  settle_fuel (S fuel) m = mg_found k v m.
Proof.
  intros Hinv ED EO. cbn [settle_fuel]. unfold overlay_first.
  rewrite (it_valid_rest _ (mgi_db _ Hinv)), oc_valid_rest, ED, EO.
  by destruct (it_current _ _ _ _ (mgi_db _ Hinv) ED) as (-> & -> & _).
Qed.

Lemma settle_fuel_overlay fuel m k e O :
  mg_inv m -> oc_rest (mg_overlay m) = (k, e) :: O ->
  match it_rest (mg_db m) with
  | [] => True | (k', _) :: _ => before_in_scan (mg_direction m) k k' = true end ->
  settle_fuel (S fuel) m =
    if is_tombstone (mg_lookup m k)
    then settle_fuel fuel (mg_sources (mg_db m) (oc_next (mg_overlay m)) m)
    else mg_found k (ov_value (mg_lookup m k)) m.
Proof.
  intros Hinv EO Hb. cbn [settle_fuel]. unfold overlay_first.
  destruct (oc_current _ _ _ _ (mgi_ov _ Hinv) EO) as (Hk & _).
  rewrite (it_valid_rest _ (mgi_db _ Hinv)), oc_valid_rest, EO, (oc_op_lookup m k), Hk by done.
  destruct (it_rest (mg_db m)) as [|[k' v'] D] eqn:ED; [done|].
  destruct (it_current _ _ _ _ (mgi_db _ Hinv) ED) as (-> & _).
  rewrite !bool_decide_eq_true_2 by done. cbn [negb andb]. by rewrite Hb.
Qed.

Lemma settle_fuel_both fuel m k v D k2 e O :
  mg_inv m -> it_rest (mg_db m) = (k, v) :: D -> oc_rest (mg_overlay m) = (k2, e) :: O ->
  before_in_scan (mg_direction m) k2 k = false ->
  settle_fuel (S fuel) m =
    if before_in_scan (mg_direction m) k k2 then mg_found k v m
    else if is_tombstone (mg_lookup m k2)
    then settle_fuel fuel (mg_sources (it_next (mg_db m)) (oc_next (mg_overlay m)) m)
    else mg_found k (ov_value (mg_lookup m k2)) m.
Proof.
  intros Hinv ED EO Hb. cbn [settle_fuel]. unfold overlay_first.
  destruct (oc_current _ _ _ _ (mgi_ov _ Hinv) EO) as (Hk & _).
  destruct (it_current _ _ _ _ (mgi_db _ Hinv) ED) as (Hkd & Hvd & _).
  rewrite (it_valid_rest _ (mgi_db _ Hinv)), oc_valid_rest, EO, ED, (oc_op_lookup m k2), Hk by done.
  rewrite !bool_decide_eq_true_2 by done. cbn [negb andb]. rewrite Hkd, Hvd, Hb.
  by destruct (before_in_scan (mg_direction m) k k2).
Qed.

Lemma settle_fuel_shows fuel m :
  mg_inv m -> length (oc_rest (mg_overlay m)) < fuel ->
  mg_shows (settle_fuel fuel m) (mg_pending m).
Proof.
  revert m; induction fuel as [|fuel IH]; intros m Hinv Hlen; [lia|]. unfold mg_pending.
  destruct (oc_rest (mg_overlay m)) as [|[k e] O] eqn:EO.
  { destruct (it_rest (mg_db m)) as [|[k' v'] D] eqn:ED.
    - cbn [settle_fuel]. by rewrite (it_valid_rest _ (mgi_db _ Hinv)), oc_valid_rest, EO, ED.
    - pose proof (mg_found_db m k' v' D Hinv ED) as Hf. rewrite EO in Hf.
      rewrite merge_rows_nil_r in *. rewrite (settle_fuel_db _ _ _ _ _ Hinv ED EO). by apply Hf. }
  destruct (oc_current _ _ _ _ (mgi_ov _ Hinv) EO) as (_ & Hr & Hwf & Hb & _).
  assert (Hrec : forall db, it_wf db ->
    mg_shows (settle_fuel fuel (mg_sources db (oc_next (mg_overlay m)) m))
      (merge_rows (mg_lookup m) (mg_direction m) (it_rest db) O)).
  { intros db Hdb. rewrite <- Hr. apply (IH (mg_sources db (oc_next (mg_overlay m)) m)).
    - split; cbn; [done|done|]. rewrite Hb. apply (mgi_buf _ Hinv).
    - cbn. rewrite Hr. simpl in Hlen. lia. }
  destruct (it_next_all _ (mgi_db _ Hinv)) as (Hwfn & _).
  destruct (it_rest (mg_db m)) as [|[k' v'] D] eqn:ED.
  { pose proof (mg_found_overlay m k e O Hinv EO) as Hf. rewrite ED in Hf.
    rewrite (settle_fuel_overlay _ _ _ _ _ Hinv EO), merge_rows_nil_l by by rewrite ED.
    unfold emit. case_match; [|by apply Hf]. rewrite <- ED. apply Hrec, Hinv. }
  rewrite merge_rows_cons. unfold emit. destruct (before_in_scan (mg_direction m) k k') eqn:E1.
  { rewrite (settle_fuel_overlay _ _ _ _ _ Hinv EO) by by rewrite ED.
    case_match; [rewrite <- ED; apply Hrec, Hinv|]. rewrite <- ED.
    apply (mg_found_overlay m k e O Hinv EO). rewrite ED.
    intros ? ? ? [= <- <- <-] ->. by rewrite before_in_scan_irrefl in E1. }
  rewrite (settle_fuel_both _ _ _ _ _ _ _ _ Hinv ED EO E1).
  destruct (before_in_scan (mg_direction m) k' k) eqn:E2.
  { rewrite <- EO. apply (mg_found_db m k' v' D Hinv ED). rewrite EO.
    intros ? ? ? [= <- <- <-] ->. by rewrite before_in_scan_irrefl in E2. }
  assert (k = k') as <- by by eapply before_in_scan_total.
  case_match; [|by eapply mg_found_both].
  destruct (it_current _ _ _ _ (mgi_db _ Hinv) ED) as (_ & _ & <-). by apply Hrec.
Qed.

Lemma oc_rest_length c : length (oc_rest c) <= length (oc_view c).
Proof.
  unfold oc_rest. case_match; [|simpl; lia].
  etransitivity; [apply length_filter|]. unfold oc_raw. case_match.
  - rewrite length_drop. lia.
  - case_match; [|simpl; lia]. rewrite length_reverse, length_take. lia.
Qed.

Lemma settle_shows m : mg_inv m -> mg_shows (settle m) (mg_pending m).
Proof.
  intros Hinv. apply settle_fuel_shows; [done|]. pose proof (oc_rest_length (mg_overlay m)). lia.
Qed.

(** A new merging iterator shows the merge of its rows with the entries of the
    buffer in its range. *)
Lemma merging_shows (it : I) t r : it_wf it -> tx_inv t ->
  mg_shows (merging_iterator it (Some t) r)
    (merge_rows (fun k => tx_lookup k t) (direction r) (it_rest it)
       (scan_order (direction r) (filter (fun p => range_contains r p.1 = true) (view_ t)))).
Proof.
  intros Hwf Ht. pose proof (inv_sorted _ Ht) as Hv.
  set (c := mkOverlayCursor (Some t) (start r) (end_ r) (direction r) 0).
  assert (Hc : oc_view (oc_seek_start c) = view_ t /\ oc_buffer (oc_seek_start c) = Some t).
  { unfold oc_seek_start, oc_largest, oc_smallest. cbn. by destruct (direction r), (start r), (end_ r). }
  set (m := mkMerging it (Some t) (overlay_cursor (Some t) (start r) (end_ r) (direction r)) (direction r)
    false [] [] false false).
  assert (Hm : mg_inv m).
  { split; [done| |apply Hc]. unfold oc_wf. change (mg_overlay m) with (oc_seek_start c). by rewrite (proj1 Hc). }
  pose proof (settle_shows m Hm) as Hs. unfold mg_pending in Hs. change (mg_overlay m) with (oc_seek_start c) in Hs.
  by rewrite oc_rest_seek_start in Hs by done.
Qed.

Lemma mg_next_shows m k v rows :
  mg_shows m ((k, v) :: rows) -> mg_shows (mg_next m) rows.
Proof.
  intros (Hv & _ & _ & Hinv & <-). unfold mg_next. rewrite Hv. by apply settle_shows.
Qed.

(** Reading a merging iterator to the end. *)
Fixpoint mg_collect (fuel : nat) (m : MergingIterator I) : list (Key * ByteValue) :=
  match fuel with
  | O => []
  | S f => if mg_valid m then (mg_key m, mg_value m) :: mg_collect f (mg_next m) else []
  end.

Lemma mg_collect_shows fuel m rows :
  mg_shows m rows -> length rows <= fuel -> mg_collect fuel m = rows.
Proof.
  revert m rows; induction fuel as [|fuel IH]; intros m [|[k v] rows] Hs Hlen; simpl in *; try done; try lia.
  - by rewrite Hs.
  - pose proof (mg_next_shows _ _ _ _ Hs) as Hn. destruct Hs as (Hv & Hk & Hval & _).
    unfold mg_key, mg_value. rewrite Hv, Hk, Hval. f_equal. apply IH; [done|lia].
Qed.
End Refinement.
