(* ===== verification/SharedBuffer.v ===== *)
(** * An open scan and the buffer it points into

    [MergingIterator] and [OverlayCursor] hold a pointer to the transaction's
    [TxBuffer], and [UpdateExecutor] writes to that buffer between two calls of
    [next]. The models of the scans carry the buffer they were opened on; this
    file follows the pointer instead: a [put] changes the buffer under the open
    iterator, whose [std::map] iterator stays on its node (or at the end). A write
    of a key the scan has passed leaves everything the iterator will show. *)

From S2P Require Import Prelude Bytes OMap KvTypes TxBuffer MockStore MergingIterator.

(** ** Positions of the map across an insertion *)

Section follow.
Context {V : Type}.
Implicit Types (m : omap V).

(** The position of the node that was at [p] (the end for the end). *)
Definition follow (key : Key) m (p : nat) : nat :=
  match mfind key m with
  | Some _ => p
  | None => if lower_bound key m <=? p then S p else p
  end.

Lemma follow_cons_lt key k e m p : bytes_ltb k key = true -> follow key ((k, e) :: m) (S p) = S (follow key m p).
Proof.
  intros Hk. unfold follow. simpl. rewrite Hk, (bytes_ltb_asym _ _ Hk). destruct (mfind key m); [done|].
  simpl. by destruct (lower_bound key m <=? p).
Qed.

Lemma insert_before key x m1 k0 e0 m2 : sorted (m1 ++ (k0, e0) :: m2) -> bytes_ltb key k0 = true ->
  minsert key x (m1 ++ (k0, e0) :: m2) = minsert key x m1 ++ (k0, e0) :: m2 /\
  follow key (m1 ++ (k0, e0) :: m2) (length m1) = length (minsert key x m1).
Proof.
  intros Hs Hk. induction m1 as [|[k1 e1] m1 IH].
  - unfold follow. simpl. rewrite Hk. by rewrite (bytes_ltb_asym _ _ Hk).
  - simpl app in *. pose proof (sorted_tail _ _ Hs) as Hs1. destruct (IH Hs1) as [IH1 IH2]. cbn [minsert length].
    bytes_cmp key k1; rewrite ?Hcmp.
    + unfold follow. simpl. by rewrite Hcmp, (bytes_ltb_asym _ _ Hcmp).
    + unfold follow. simpl. by rewrite bytes_ltb_irrefl.
    + rewrite (bytes_ltb_asym _ _ Hcmp), follow_cons_lt by done. simpl. by rewrite IH1, IH2.
Qed.

Lemma insert_after key x m1 k0 e0 m2 : sorted (m1 ++ (k0, e0) :: m2) -> bytes_ltb k0 key = true ->
  minsert key x (m1 ++ (k0, e0) :: m2) = m1 ++ (k0, e0) :: minsert key x m2 /\
  follow key (m1 ++ (k0, e0) :: m2) (length m1) = length m1.
Proof.
  intros Hs Hk. induction m1 as [|[k1 e1] m1 IH].
  - unfold follow. simpl. rewrite Hk, (bytes_ltb_asym _ _ Hk). by destruct (mfind key m2).
  - simpl app in *. destruct (IH (sorted_tail _ _ Hs)) as [IH1 IH2]. cbn [minsert length].
    assert (H1 : bytes_ltb k1 key = true).
    { pose proof (sorted_head _ _ Hs) as Hf. eapply Forall_forall in Hf; [|apply elem_of_app; right; left].
      by eapply bytes_ltb_trans. }
    rewrite H1, (bytes_ltb_asym _ _ H1), follow_cons_lt, IH1, IH2 by done. done.
Qed.

Lemma insert_end key x m : sorted m -> follow key m (length m) = length (minsert key x m).
Proof.
  induction m as [|[k e] m IH]; intros Hs; [done|]. cbn [minsert length]. bytes_cmp key k; rewrite ?Hcmp.
  - unfold follow. simpl. by rewrite Hcmp, (bytes_ltb_asym _ _ Hcmp).
  - unfold follow. simpl. by rewrite bytes_ltb_irrefl.
  - rewrite (bytes_ltb_asym _ _ Hcmp), follow_cons_lt by done. simpl. by rewrite (IH (sorted_tail _ _ Hs)).
Qed.
End follow.

Lemma follow_lookup {V} key x (m : omap V) p k0 e0 : sorted m -> m !! p = Some (k0, e0) -> k0 <> key ->
  minsert key x m !! follow key m p = Some (k0, e0).
Proof.
  intros Hs Hp Hne. pose proof (take_drop_middle m p _ Hp) as Hm. pose proof (lookup_lt_Some _ _ _ Hp) as Hlt.
  assert (Hlen : length (take p m) = p) by (rewrite length_take; lia). rewrite <- Hm in Hs.
  bytes_cmp key k0; [|done|].
  - destruct (insert_before key x _ _ _ _ Hs Hcmp) as [Hi Hf]. rewrite Hm, Hlen in *. rewrite Hf, Hi. apply list_lookup_middle. done.
  - destruct (insert_after key x _ _ _ _ Hs Hcmp) as [Hi Hf]. rewrite Hm, Hlen in *. rewrite Hf, Hi. by apply list_lookup_middle.
Qed.

Lemma follow_end {V} key x (m : omap V) p : sorted m -> length m <= p -> length (minsert key x m) <= follow key m p.
Proof.
  intros Hs Hp. rewrite <- (insert_end key x m Hs). unfold follow. pose proof (lower_bound_le key m) as Hle.
  destruct (mfind key m); [done|]. rewrite !(proj2 (Nat.leb_le _ _)) by lia. lia.
Qed.

(** ** The overlay cursor *)

Definition oc_put (key : Key) (value : ByteValue) (c : OverlayCursor) : OverlayCursor :=
  match oc_buffer c with
  | None => c
  | Some b => mkOverlayCursor (Some (tx_put key value b)) (oc_begin c) (oc_end c) (oc_direction c)
                (follow key (view_ b) (oc_pos c))
  end.

Lemma oc_put_raw key value c p k0 e0 : oc_wf c -> oc_view c !! p = Some (k0, e0) -> oc_pos c = p ->
  before_in_scan (oc_direction c) key k0 = true -> oc_raw (oc_put key value c) = oc_raw c.
Proof.
  intros Hwf Hp Hpos Hk. unfold oc_put, oc_wf, oc_raw, oc_view in *. destruct (oc_buffer c) as [b|] eqn:Eb; [|done].
  cbn [oc_direction oc_buffer oc_pos view_ tx_put]. rewrite Hpos. set (x := mkTxEntry _ _). pose proof (take_drop_middle (view_ b) p _ Hp) as Hm.
  pose proof (lookup_lt_Some _ _ _ Hp) as Hlt.
  assert (Hlen : length (take p (view_ b)) = p) by (rewrite length_take; lia). rewrite <- Hm in Hwf.
  destruct (oc_direction c); simpl in Hk.
  - destruct (insert_before key x _ _ _ _ Hwf Hk) as [Hi Hf]. rewrite Hm, Hlen in *. rewrite Hf, Hi, drop_app_length.
    symmetry. by apply drop_S.
  - destruct (insert_after key x _ _ _ _ Hwf Hk) as [Hi Hf]. rewrite Hm, Hlen in *. rewrite Hf, Hi.
    rewrite !(proj2 (Nat.ltb_lt _ _)); [|done|rewrite length_app, Hlen; simpl; lia]. f_equal.
    rewrite (take_S_r _ _ _ Hp), take_app_ge by lia. rewrite Hlen, Nat.sub_succ_l, Nat.sub_diag by done. done.
Qed.

Lemma oc_valid_at c : oc_valid c = match oc_view c !! oc_pos c with
  | Some (k, _) => range_contains (oc_range c) k | None => false end.
Proof.
  unfold oc_valid, oc_in_bounds, oc_range, range_contains, oc_view. destruct (oc_buffer c); [|done].
  by destruct (view_ _ !! oc_pos c) as [[k ?]|].
Qed.

Lemma oc_raw_head c p : oc_view c !! oc_pos c = Some p -> exists l, oc_raw c = p :: l.
Proof.
  intros Hp. pose proof (lookup_lt_Some _ _ _ Hp). unfold oc_raw. destruct (oc_direction c).
  - rewrite (drop_S _ _ _ Hp). eauto.
  - rewrite (proj2 (Nat.ltb_lt _ _)), (take_S_r _ _ _ Hp), reverse_app by done. simpl. eauto.
Qed.

(** A key behind the cursor. *)
Lemma oc_put_rest key value c : oc_wf c -> range_contains (oc_range c) key = true ->
  all_before (oc_direction c) key (oc_rest c) ->
  oc_rest (oc_put key value c) = oc_rest c /\ oc_wf (oc_put key value c).
Proof.
  intros Hwf Hin Hall. destruct (oc_buffer c) as [b|] eqn:Eb.
  2:{ unfold oc_put. by rewrite Eb. }
  assert (Hview : oc_view c = view_ b) by (unfold oc_view; by rewrite Eb).
  assert (Hwf' : sorted (view_ b)) by (by rewrite <- Hview).
  set (x := mkTxEntry (OvValue value) (next_seq_ b)).
  assert (Hv' : oc_view (oc_put key value c) = minsert key x (view_ b)) by (unfold oc_put; by rewrite Eb).
  assert (Hp' : oc_pos (oc_put key value c) = follow key (view_ b) (oc_pos c)) by (unfold oc_put; by rewrite Eb).
  assert (Hrange : oc_range (oc_put key value c) = oc_range c) by (unfold oc_put; by rewrite Eb).
  split; [|unfold oc_wf; rewrite Hv'; by apply msorted_insert].
  pose proof (oc_valid_at c) as Hval. pose proof (oc_valid_at (oc_put key value c)) as Hval'.
  rewrite Hv', Hp', Hrange in Hval'. unfold oc_rest in *. rewrite Hval'. rewrite Hval in *.
  destruct (oc_view c !! oc_pos c) as [[k0 e0]|] eqn:Ep; rewrite Hview in Ep.
  - assert (Hne : range_contains (oc_range c) k0 = false -> k0 <> key) by (intros Hr ->; congruence).
    destruct (range_contains (oc_range c) k0) eqn:Er.
    + assert (Hk : before_in_scan (oc_direction c) key k0 = true).
      { destruct (oc_raw_head c (k0, e0)) as [l Hl]; [by rewrite Hview|]. rewrite Hl, filter_cons, decide_True in Hall by done.
        by apply Forall_cons in Hall as [? _]. }
      rewrite (oc_put_raw key value c (oc_pos c) k0 e0), Hrange; [|done|by rewrite Hview|done|done].
      rewrite (follow_lookup key x _ _ _ _ Hwf' Ep), Er; [done|]. intros ->. by rewrite before_in_scan_irrefl in Hk.
    + rewrite (follow_lookup key x _ _ _ _ Hwf' Ep), Er by auto. done.
  - apply lookup_ge_None in Ep. pose proof (follow_end key x _ _ Hwf' Ep) as Hle.
    by rewrite (proj2 (lookup_ge_None _ _) Hle).
Qed.

(** Stepping past an entry at or after the key written, and following. *)
Lemma lower_bound_at {V} key (m : omap V) p k0 e0 : sorted m -> m !! p = Some (k0, e0) ->
  (lower_bound key m <=? p) = negb (bytes_ltb k0 key).
Proof.
  revert p. induction m as [|[k1 e1] m IH]; intros p Hs Hp; [done|]. simpl lower_bound. destruct p as [|p]; simpl in Hp.
  - injection Hp as -> ->. by destruct (bytes_ltb k0 key).
  - destruct (bytes_ltb k1 key) eqn:E1; [apply (IH p (sorted_tail _ _ Hs) Hp)|]. simpl.
    pose proof (sorted_head _ _ Hs) as Hf. eapply Forall_lookup_1 in Hf; [|exact Hp]. unfold key_before, bytes_lt in Hf. simpl in Hf.
    destruct (bytes_ltb k0 key) eqn:E0; [|done]. by rewrite (bytes_ltb_trans _ _ _ Hf E0) in E1.
Qed.

Lemma find_at {V} key (m : omap V) p e0 : sorted m -> m !! p = Some (key, e0) -> mfind key m = Some e0.
Proof. intros Hs Hp. apply find_elem; [done|]. by eapply list_elem_of_lookup_2. Qed.

Lemma insert_at {V} key x (m : omap V) p e0 : sorted m -> m !! p = Some (key, e0) -> minsert key x m !! p = Some (key, x).
Proof.
  revert p. induction m as [|[k1 e1] m IH]; intros p Hs Hp; [done|]. cbn [minsert]. destruct p as [|p]; simpl in Hp.
  - injection Hp as -> ->. by rewrite bytes_ltb_irrefl.
  - pose proof (sorted_head _ _ Hs) as Hf. eapply Forall_lookup_1 in Hf; [|exact Hp]. unfold key_before, bytes_lt in Hf. simpl in Hf.
    rewrite Hf, (bytes_ltb_asym _ _ Hf). by apply IH; [eapply sorted_tail|].
Qed.

Lemma oc_put_here key value c e0 : oc_wf c -> oc_view c !! oc_pos c = Some (key, e0) ->
  range_contains (oc_range c) key = true -> exists x l, oc_rest (oc_put key value c) = (key, x) :: l.
Proof.
  intros Hwf Hp Hin. destruct (oc_buffer c) as [b|] eqn:Eb; [|unfold oc_view in Hp; by rewrite Eb in Hp].
  assert (Hview : oc_view c = view_ b) by (unfold oc_view; by rewrite Eb). unfold oc_wf in Hwf. rewrite Hview in *.
  set (x := mkTxEntry (OvValue value) (next_seq_ b)).
  assert (Hp' : oc_view (oc_put key value c) !! oc_pos (oc_put key value c) = Some (key, x)).
  { unfold oc_put. rewrite Eb. unfold oc_view. simpl. unfold follow. rewrite (find_at _ _ _ _ Hwf Hp).
    by eapply insert_at. }
  assert (Hr : oc_range (oc_put key value c) = oc_range c) by (unfold oc_put; by rewrite Eb).
  destruct (oc_raw_head _ _ Hp') as [l Hl]. exists x. eexists. unfold oc_rest.
  rewrite oc_valid_at, Hp', Hr, Hin, Hl, filter_cons, decide_True by done. done.
Qed.

Lemma oc_next_put key value c k0 e0 : oc_wf c -> oc_view c !! oc_pos c = Some (k0, e0) ->
  before_in_scan (oc_direction c) k0 key = false -> oc_next (oc_put key value c) = oc_put key value (oc_next c).
Proof.
  intros Hwf Hp Hk. destruct c as [ob bg en d p]. unfold oc_wf, oc_view in *. cbn [oc_buffer oc_pos oc_direction] in *.
  destruct ob as [b|]; [|done]. pose proof (lookup_lt_Some _ _ _ Hp) as Hlt.
  set (x := mkTxEntry (OvValue value) (next_seq_ b)).
  assert (Hend : follow key (view_ b) (length (view_ b)) = length (minsert key x (view_ b))) by by apply insert_end.
  pose proof (lower_bound_at key _ _ _ _ Hwf Hp) as Hlb. pose proof (lower_bound_le key (view_ b)) as Hle.
  assert (Hne : follow key (view_ b) p <> length (minsert key x (view_ b))).
  { rewrite <- Hend. unfold follow. destruct (mfind key (view_ b)); [lia|].
    rewrite (proj2 (Nat.leb_le _ _) Hle). case_match; lia. }
  unfold oc_next, oc_put, oc_set, oc_before, oc_map_end, oc_view. cbn [oc_buffer oc_pos oc_direction oc_begin oc_end view_ tx_put].
  change (mkTxEntry (OvValue value) (next_seq_ b)) with x.
  rewrite (proj2 (Nat.eqb_neq _ _)) by exact Hne. rewrite (proj2 (Nat.eqb_neq _ _)) by lia.
  destruct d; simpl in Hk; cbn [oc_buffer oc_pos oc_direction oc_begin oc_end]; f_equal.
  - rewrite Hk in Hlb. apply Nat.leb_le in Hlb. unfold follow. destruct (mfind key (view_ b)); [done|].
    by rewrite !(proj2 (Nat.leb_le _ _)) by lia.
  - rewrite <- Hend. destruct (mfind key (view_ b)) eqn:Ef; [unfold follow; rewrite Ef; by destruct p|].
    assert (Hlt2 : bytes_ltb k0 key = true).
    { bytes_cmp key k0; [congruence| |done]. by rewrite (find_at _ _ _ _ Hwf Hp) in Ef. }
    rewrite Hlt2 in Hlb. apply Nat.leb_gt in Hlb. unfold follow at 1. rewrite Ef, (proj2 (Nat.leb_gt _ _) Hlb).
    destruct p as [|q]; [done|]. unfold follow. by rewrite Ef, (proj2 (Nat.leb_gt _ _)) by lia.
Qed.

Lemma oc_next_keeps c : oc_view (oc_next c) = oc_view c /\ oc_range (oc_next c) = oc_range c.
Proof. destruct c as [[b|] bg en d p]; [|done]. unfold oc_next. simpl. by destruct (p =? _), d. Qed.

(** ** The merging iterator *)

Section merging.
Context {I : Type} `{IteratorLaws I}.

Definition mg_put (key : Key) (value : ByteValue) (m : MergingIterator I) : MergingIterator I :=
  mkMerging (mg_db m) (tx_put key value <$> mg_buffer m) (oc_put key value (mg_overlay m)) (mg_direction m)
    (mg_valid m) (current_key_ m) (current_value_ m) (from_db_ m) (from_overlay_ m).

(** The overlay has passed the current key, and flagged it when it holds it. *)
Definition mg_ahead (m : MergingIterator I) : Prop :=
  mg_valid m = true ->
  all_before (mg_direction m) (current_key_ m) (oc_rest (mg_overlay (advance_sources m))) /\
  (from_overlay_ m = true -> exists e l, oc_rest (mg_overlay m) = (current_key_ m, e) :: l).

Lemma oc_rest_sorted c : oc_wf c -> scan_sorted (oc_direction c) (oc_rest c).
Proof.
  intros Hwf. unfold oc_rest. destruct (oc_valid c); [|constructor]. apply scan_sorted_filter. by apply scan_sorted_raw.
Qed.

Lemma found_ahead k v (m : MergingIterator I) : oc_wf (mg_overlay m) -> oc_direction (mg_overlay m) = mg_direction m ->
  (oc_valid (mg_overlay m) = true ->
   oc_key (mg_overlay m) = k \/ before_in_scan (mg_direction m) k (oc_key (mg_overlay m)) = true) ->
  mg_ahead (mg_found k v m).
Proof.
  intros Hwf Hd Hk _. unfold advance_sources. simpl. pose proof (oc_rest_sorted _ Hwf) as Hs. rewrite Hd in Hs.
  rewrite oc_valid_rest in *. destruct (oc_rest (mg_overlay m)) as [|[k2 e2] l] eqn:Er.
  { simpl. rewrite Er. split; [constructor|done]. }
  destruct (oc_current _ _ _ _ Hwf Er) as (Hk2 & Hn & _). rewrite Hk2 in *. simpl in Hk |- *.
  apply StronglySorted_inv in Hs as [_ Hall]. destruct (bytes_eqb k2 k) eqn:Eq.
  - apply bytes_eqb_eq in Eq as ->. rewrite Hn. split; [done|eauto].
  - rewrite Er. split; [|done]. destruct (Hk eq_refl) as [->|Hb]; [by rewrite bytes_eqb_refl in Eq|].
    constructor; [done|]. by eapply all_before_trans.
Qed.

Lemma settle_fuel_ahead fuel : forall m : MergingIterator I, oc_wf (mg_overlay m) ->
  oc_direction (mg_overlay m) = mg_direction m -> mg_ahead (settle_fuel fuel m).
Proof.
  induction fuel as [|fuel IH]; intros m Hwf Hd; [done|]. cbn [settle_fuel].
  assert (Hnext : forall db, mg_ahead (settle_fuel fuel (mg_sources db (oc_next (mg_overlay m)) m))).
  { intros db. destruct (oc_next_keeps (mg_overlay m)) as (Hv & Hr). apply IH; simpl; [unfold oc_wf; by rewrite Hv|].
    rewrite <- Hd. by injection Hr. }
  destruct (negb _ && negb _); [done|]. destruct (overlay_first m) eqn:Eo.
  { destruct (is_tombstone _); [done|]. apply found_ahead; try done. by left. }
  destruct (it_valid (mg_db m)) eqn:Ed; [|done]. cbn [negb]. unfold overlay_first in Eo.
  destruct (oc_valid (mg_overlay m)) eqn:Ev; rewrite ?Ed in Eo; cbn [negb andb] in *; [|by apply found_ahead; rewrite ?Ev].
  destruct (before_in_scan _ (it_key (mg_db m)) _) eqn:E2; cbn [negb]; [by apply found_ahead; auto|].
  destruct (is_tombstone _); [done|]. apply found_ahead; try done. left. by eapply before_in_scan_total.
Qed.

(** An iterator over the range [r] that will show [rows]. *)
Record mg_open (r : KeyRange) (m : MergingIterator I) (rows : list (Key * ByteValue)) : Prop := {
  mo_shows : mg_shows m rows;
  mo_direction : mg_direction m = direction r;
  mo_range : oc_begin (mg_overlay m) = start r /\ oc_end (mg_overlay m) = end_ r /\ oc_direction (mg_overlay m) = direction r;
  mo_ahead : mg_ahead m }.

Lemma contains_same r (c : OverlayCursor) key : oc_begin c = start r -> oc_end c = end_ r ->
  range_contains (oc_range c) key = range_contains r key.
Proof. intros Hb He. unfold range_contains, oc_range. simpl. by rewrite Hb, He. Qed.

Lemma merge_rows_lookup d (f g : Key -> OverlayOp) D O : (forall p, p ∈ O -> f p.1 = g p.1) ->
  merge_rows f d D O = merge_rows g d D O.
Proof.
  revert O. induction D as [|[k1 v1] D IHD]; intros O; induction O as [|[k2 e2] O IHO]; intros Hfg; try done;
    (assert (Hfg' : forall p, p ∈ O -> f p.1 = g p.1) by (intros p Hp; apply Hfg; by right));
    pose proof (Hfg (k2, e2) ltac:(left)) as Hk; simpl in Hk.
  - rewrite !merge_rows_nil_l. unfold emit. by rewrite Hk, IHO.
  - rewrite !merge_rows_cons. unfold emit. by rewrite Hk, IHO, !IHD.
Qed.

Lemma tx_lookup_put_other key value k b : sorted (view_ b) -> k <> key -> tx_lookup k (tx_put key value b) = tx_lookup k b.
Proof. intros Hs Hne. unfold tx_lookup. simpl. by rewrite mfind_insert_ne. Qed.

(** The sources of the next call, after the write. *)
Lemma put_advance r m k v rows key value : mg_open r m ((k, v) :: rows) ->
  before_in_scan (direction r) k key = false ->
  mg_overlay (advance_sources (mg_put key value m)) = oc_put key value (mg_overlay (advance_sources m)).
Proof.
  intros [Hs Hd (Hb & He & Hdo) Ha] Hk. destruct Hs as (Hv & Hck & _ & [_ Hwf _] & _). unfold advance_sources, mg_put in *. simpl in *.
  destruct (Ha Hv) as [_ Hf]. destruct (from_overlay_ m); [|done]. destruct (Hf eq_refl) as (e & l & Hrest).
  assert (Hval : oc_valid (mg_overlay m) = true) by by rewrite oc_valid_rest, Hrest.
  rewrite oc_valid_at in Hval. destruct (oc_view _ !! _) as [[k0 e0]|] eqn:Ep; [|done].
  unfold oc_wf in Hwf. rewrite (proj1 (oc_next_keeps _)) in Hwf. eapply oc_next_put; [exact Hwf|exact Ep|].
  destruct (oc_current _ _ _ _ Hwf Hrest) as (Hkey & _). unfold oc_key in Hkey. rewrite Ep in Hkey. simpl in Hkey.
  by rewrite Hkey, Hdo, Hck.
Qed.

(** The overlay still stands on the current key. *)
Lemma put_flagged r c k e l key value : oc_wf c -> oc_begin c = start r -> oc_end c = end_ r -> oc_direction c = direction r ->
  oc_rest c = (k, e) :: l -> range_contains r key = true -> before_in_scan (direction r) k key = false ->
  exists e' l', oc_rest (oc_put key value c) = (k, e') :: l'.
Proof.
  intros Hwf Hb He Hd Hl Hin Hk. destruct (oc_current _ _ _ _ Hwf Hl) as (Hkey & _).
  assert (Hval : oc_valid c = true) by by rewrite oc_valid_rest, Hl.
  rewrite oc_valid_at in Hval. unfold oc_key in Hkey. destruct (oc_view _ !! _) as [[k0 e0]|] eqn:Ep; [|done].
  simpl in Hkey. subst k0. destruct (decide (key = k)) as [->|Hne]; [by eapply oc_put_here|].
  destruct (oc_put_rest key value c Hwf) as [-> _]; [by rewrite (contains_same r)| |eauto].
  pose proof (oc_rest_sorted _ Hwf) as Hs. rewrite Hl, Hd in Hs |- *. apply StronglySorted_inv in Hs as [_ Hs].
  assert (Hkk : before_in_scan (direction r) key k = true).
  { destruct (before_in_scan (direction r) key k) eqn:E; [done|]. destruct Hne. by eapply before_in_scan_total. }
  constructor; [done|]. by eapply all_before_trans.
Qed.

(** A write of a key that is not ahead of the scan. *)
Lemma put_passed r m k v rows key value : mg_open r m ((k, v) :: rows) -> range_contains r key = true ->
  before_in_scan (direction r) k key = false -> mg_open r (mg_put key value m) ((k, v) :: rows).
Proof.
  intros Ho Hin Hk. pose proof (put_advance r m k v rows key value Ho Hk) as Hadv.
  destruct Ho as [(Hv & Hck & Hcv & Hinv & Hpend) Hd (Hb & He & Hdo) Ha]. destruct (Ha Hv) as [Hall Hfrom].
  pose proof Hinv as [Hdb Hwf Hbuf]. rewrite Hd, Hck in *.
  assert (Hr : oc_range (mg_overlay (advance_sources m)) = oc_range (mg_overlay m)).
  { unfold advance_sources. simpl. destruct (from_overlay_ m); [apply oc_next_keeps|done]. }
  assert (Hkall : all_before (direction r) key (oc_rest (mg_overlay (advance_sources m)))).
  { destruct (before_in_scan (direction r) key k) eqn:E; [by eapply all_before_trans|].
    by rewrite (before_in_scan_total _ _ _ E Hk). }
  assert (Hdir : oc_direction (mg_overlay (advance_sources m)) = direction r) by (rewrite <- Hdo; by injection Hr).
  destruct (oc_put_rest key value (mg_overlay (advance_sources m)) Hwf) as [Hrest Hwf'].
  { by rewrite Hr, (contains_same r). }
  { by rewrite Hdir. }
  split; [|done|simpl; unfold oc_put; by destruct (oc_buffer (mg_overlay m))|].
  - split; [done|]. split; [done|]. split; [done|]. split.
    + split; [done|by rewrite Hadv|]. rewrite Hadv. simpl. change (mg_buffer (advance_sources m)) with (mg_buffer m) in Hbuf.
      rewrite <- Hbuf. unfold oc_put. by destruct (oc_buffer _) eqn:Eb.
    + rewrite <- Hpend. unfold mg_pending. rewrite Hadv, Hrest.
      change (mg_direction (advance_sources ?x)) with (mg_direction x). change (mg_db (advance_sources (mg_put _ _ m))) with (mg_db (advance_sources m)).
      apply merge_rows_lookup. intros p Hp. unfold mg_lookup.
      change (mg_buffer (advance_sources (mg_put key value m))) with (tx_put key value <$> mg_buffer (advance_sources m)).
      rewrite <- Hbuf. unfold oc_wf, oc_view in Hwf. destruct (oc_buffer (mg_overlay (advance_sources m))) as [b|]; [|done].
      simpl. apply tx_lookup_put_other; [done|]. intros <-. eapply Forall_forall in Hp; [|exact Hkall]. simpl in Hp.
      by rewrite before_in_scan_irrefl in Hp.
  - intros _. rewrite Hadv, Hrest. simpl. rewrite Hd, Hck. split; [done|]. intros Hf. destruct (Hfrom Hf) as (e & l & Hl).
    apply (put_flagged r (mg_overlay m) k e l); try done.
    unfold oc_wf, advance_sources in *. simpl in Hwf. rewrite Hf in Hwf. by rewrite (proj1 (oc_next_keeps _)) in Hwf.
Qed.

Lemma settle_keeps m : mg_direction (settle m) = mg_direction m /\
  oc_range (mg_overlay (settle m)) = oc_range (mg_overlay m).
Proof.
  unfold settle. generalize (S (length (oc_view (mg_overlay m)))) as fuel. intros fuel. revert m.
  induction fuel as [|fuel IH]; intros m; [done|]. cbn [settle_fuel].
  destruct (negb _ && negb _); [done|]. destruct (overlay_first m).
  { destruct (is_tombstone _); [|done]. destruct (IH (mg_sources (mg_db m) (oc_next (mg_overlay m)) m)) as [-> ->].
    split; [done|]. apply oc_next_keeps. }
  destruct (negb _); [done|]. destruct (_ && _); [|done]. destruct (is_tombstone _); [|done].
  destruct (IH (mg_sources (it_next (mg_db m)) (oc_next (mg_overlay m)) m)) as [-> ->].
  split; [done|]. apply oc_next_keeps.
Qed.

Lemma settle_opens r m rows : mg_inv m -> mg_direction m = direction r ->
  oc_range (mg_overlay m) = mkKeyRange (start r) (end_ r) 0 (direction r) -> mg_pending m = rows -> mg_open r (settle m) rows.
Proof.
  intros Hinv Hd Hr Hp. destruct (settle_keeps m) as [Hd' Hr']. rewrite Hr in Hr'. unfold oc_range in Hr, Hr'.
  split; [rewrite <- Hp; by apply settle_shows|congruence| |].
  - injection Hr' as H1 H2 H3. by split_and!.
  - apply settle_fuel_ahead; [apply Hinv|]. injection Hr as _ _ H3. congruence.
Qed.

Lemma open_next r m p rows : mg_open r m (p :: rows) -> mg_open r (mg_next m) rows.
Proof.
  intros [Hs Hd (Hb & He & Hdo) _]. destruct p as [k v]. destruct Hs as (Hv & _ & _ & Hinv & Hp).
  unfold mg_next. rewrite Hv. simpl negb. cbn iota. apply settle_opens; try done. unfold advance_sources. simpl.
  transitivity (oc_range (mg_overlay m)); [|unfold oc_range; by rewrite Hb, He, Hdo].
  destruct (from_overlay_ m); [apply oc_next_keeps|done].
Qed.

(** The rows a new iterator will show. *)
Definition merged (it : I) (t : TxBuffer) (r : KeyRange) : list (Key * ByteValue) :=
  merge_rows (fun k => tx_lookup k t) (direction r) (it_rest it)
    (scan_order (direction r) (filter (fun p => range_contains r p.1 = true) (view_ t))).

Lemma merging_open it t r : it_wf it -> tx_inv t -> mg_open r (merging_iterator it (Some t) r) (merged it t r).
Proof.
  intros Hwf Ht. pose proof (inv_sorted _ Ht) as Hv.
  set (c := mkOverlayCursor (Some t) (start r) (end_ r) (direction r) 0).
  assert (Hc : oc_view (oc_seek_start c) = view_ t /\ oc_buffer (oc_seek_start c) = Some t /\
    oc_range (oc_seek_start c) = mkKeyRange (start r) (end_ r) 0 (direction r)).
  { unfold oc_seek_start, oc_largest, oc_smallest. cbn. by destruct (direction r), (start r), (end_ r). }
  destruct Hc as (Hcv & Hcb & Hcr). apply settle_opens; [|done|exact Hcr|].
  - split; [done| |exact Hcb]. unfold oc_wf. simpl. fold c. by rewrite Hcv.
  - unfold mg_pending, merged. simpl. fold c. rewrite oc_rest_seek_start by done. done.
Qed.

(** Reading an iterator to its end, with the writes of each turn made while it
    stands on the row of that turn. *)
Fixpoint read_writing (turns : list (list (Key * ByteValue))) (m : MergingIterator I) : list (Key * ByteValue) :=
  match turns with
  | [] => []
  | writes :: turns =>
      if mg_valid m
      then (mg_key m, mg_value m) ::
             read_writing turns (mg_next (fold_left (fun m w => mg_put w.1 w.2 m) writes m))
      else []
  end.

Definition behind (r : KeyRange) (row : Key * ByteValue) (writes : list (Key * ByteValue)) : Prop :=
  Forall (fun w => range_contains r w.1 = true /\ before_in_scan (direction r) row.1 w.1 = false) writes.

Lemma puts_behind r row rows writes : behind r row writes -> forall m, mg_open r m (row :: rows) ->
  mg_open r (fold_left (fun m w => mg_put w.1 w.2 m) writes m) (row :: rows).
Proof.
  induction 1 as [|[key value] writes [Hin Hk] _ IH]; intros m Ho; [done|]. simpl. apply IH. destruct row as [k v].
  by apply put_passed.
Qed.

Lemma read_writing_shows r turns : forall m rows, mg_open r m rows -> Forall2 (behind r) rows turns ->
  read_writing turns m = rows.
Proof.
  induction turns as [|writes turns IH]; intros m rows Ho Hb; inversion Hb as [|[k v] ? rows' ? Hw Hrest]; subst; [done|].
  simpl. pose proof (puts_behind _ _ _ _ Hw m Ho) as Ho'. destruct Ho as [(Hv & Hk & Hval & _) _ _ _].
  unfold mg_key, mg_value. rewrite Hv, Hk, Hval. f_equal. apply IH; [|done]. by eapply open_next.
Qed.
End merging.

(** C13: writing behind an open scan does not disturb it. An iterator opened inside
    a transaction reads the live buffer of that transaction through a pointer; when,
    while it stands on a row, the transaction puts values only under keys of the
    range that the scan has reached (as UPDATE does), the iterator still shows
    exactly the rows the store and the buffer held when it was opened, in either
    direction. *)
Theorem scan_ignores_writes_behind {I} `{IteratorLaws I} (it : I) (t : TxBuffer) (r : KeyRange) turns :
  it_wf it -> tx_inv t -> Forall2 (behind r) (merged it t r) turns ->
  read_writing turns (merging_iterator it (Some t) r) = merged it t r.
Proof. intros Hwf Ht. apply read_writing_shows. by apply merging_open. Qed.

(** Rows "a" and "c" in the store, "b" and "c" in the buffer; each row is written
    back while the scan stands on it. *)
Definition demo_range : KeyRange := mkKeyRange None None 0 kForward.
Definition shared_rows : omap ByteValue := [(bytes_of_string "a", [x01]); (bytes_of_string "c", [x02])].
Definition shared_buffer : TxBuffer := tx_run [TxPut (bytes_of_string "b") [x03]; TxPut (bytes_of_string "c") [x04]].
Definition demo_scan : MockIterator := mock_iterator (materialize shared_rows demo_range) demo_range.
Definition write_back : list (list (Key * ByteValue)) :=
  [[(bytes_of_string "a", [x07])]; [(bytes_of_string "b", [x08])]; [(bytes_of_string "a", [x09]); (bytes_of_string "c", [x07])]].

Lemma scan_ignores_writes_behind_witness :
  read_writing write_back (merging_iterator demo_scan (Some shared_buffer) demo_range) =
    [(bytes_of_string "a", [x01]); (bytes_of_string "b", [x03]); (bytes_of_string "c", [x04])].
Proof.
  rewrite (scan_ignores_writes_behind demo_scan shared_buffer demo_range write_back); [vm_compute; reflexivity|..].
  - apply mock_iterator_wf. repeat constructor.
  - apply tx_inv_run.
  - vm_compute. repeat constructor.
Defined.
