(* ===== verification/MockEngine.v ===== *)
(** * Connections: [storage/mock_engine/mock_engine.cpp], engine part

    A [MockEngine] is one connection: an optional transaction buffer, the
    snapshot taken at [begin], and whether it holds the store's write slot.
    Each operation takes the identity of the connection (the [this] pointer
    that owns the slot), the store and the connection's state. *)

From S2P Require Import Prelude Bytes OMap KvTypes TxBuffer MockStore MergingIterator.

Record MockEngine := mkMockEngine {
  tx_ : option TxBuffer; snapshot_ : option (omap ByteValue); write_slot_ : bool }.

Definition new_engine : MockEngine := mkMockEngine None None false.

(** The data the reads of this connection fall through to. *)
Definition base_data (s : MockStore) (e : MockEngine) : omap ByteValue :=
  match snapshot_ e with Some d => d | None => data_ s end.

Definition eng_get (key : Key) (s : MockStore) (e : MockEngine) : result Status ByteValue :=
  if negb (is_open_ s) then Err StInternalError
  else
    let fall :=
      match snapshot_ e with
      | Some d => match mfind key d with None => Err StNotFound | Some v => Ok v end
      | None => store_get key s
      end in
    match tx_ e with
    | Some t =>
        match tx_lookup key t with
        | OvTombstone => Err StNotFound
        | OvValue v => Ok v
        | OvNone => fall
        end
    | None => fall
    end.

Definition eng_exists (key : Key) (s : MockStore) (e : MockEngine) : bool :=
  if negb (is_open_ s) then false
  else
    let fall :=
      match snapshot_ e with
      | Some d => match mfind key d with None => false | Some _ => true end
      | None => store_exists key s
      end in
    match tx_ e with
    | Some t => if covered (tx_lookup key t) then has_value (tx_lookup key t) else fall
    | None => fall
    end.

Definition eng_acquire_write_slot (self : nat) (s : MockStore) (e : MockEngine)
    : MockStore * MockEngine * Status :=
  if write_slot_ e then (s, e, StOK)
  else if negb (is_open_ s) then (s, e, StInternalError)
  else match store_acquire_write_slot self s with
       | (s', StOK) => (s', mkMockEngine (tx_ e) None true, StOK)
       | (s', st) => (s', e, st)
       end.

Definition eng_release_write_slot (self : nat) (s : MockStore) (e : MockEngine)
    : MockStore * MockEngine :=
  if negb (write_slot_ e) then (s, e)
  else ((store_release_write_slot self s).1, mkMockEngine (tx_ e) (snapshot_ e) false).

Definition ensure_write_slot (self : nat) (s : MockStore) (e : MockEngine)
    : MockStore * MockEngine * Status :=
  if write_slot_ e then (s, e, StOK) else eng_acquire_write_slot self s e.

(** A write outside a transaction: the slot is held for this one operation. *)
Definition autocommit (self : nat) (op : MockStore -> MockStore * Status)
    (s : MockStore) (e : MockEngine) : MockStore * MockEngine * Status :=
  match store_acquire_write_slot self s with
  | (s', StOK) => let '(s'', st) := op s' in
                  ((store_release_write_slot self s'').1, e, st)
  | (s', st) => (s', e, st)
  end.

(** A write inside a transaction: into the buffer, once the slot is held. *)
Definition buffered (self : nat) (w : TxBuffer -> TxBuffer) (t : TxBuffer)
    (s : MockStore) (e : MockEngine) : MockStore * MockEngine * Status :=
  match ensure_write_slot self s e with
  | (s', e', StOK) => (s', mkMockEngine (Some (w t)) (snapshot_ e') (write_slot_ e'), StOK)
  | r => r
  end.

Definition eng_put (self : nat) (key : Key) (value : ByteValue) (s : MockStore) (e : MockEngine)
    : MockStore * MockEngine * Status :=
  if negb (is_open_ s) then (s, e, StInternalError)
  else match tx_ e with
       | Some t => buffered self (tx_put key value) t s e
       | None => autocommit self (store_put key value) s e
       end.

Definition eng_remove (self : nat) (key : Key) (s : MockStore) (e : MockEngine)
    : MockStore * MockEngine * Status :=
  if negb (is_open_ s) then (s, e, StInternalError)
  else match tx_ e with
       | Some t => buffered self (tx_remove key) t s e
       | None => autocommit self (store_remove key) s e
       end.

(** One op of a batch routed into the buffer; a put without a value is skipped. *)
Definition tx_batch_op (t : TxBuffer) (o : Op) : TxBuffer :=
  match op_type o with
  | kPut => match pvalue (op_data o) with
            | Some v => tx_put (pkey (op_data o)) v t
            | None => t
            end
  | kRemove => tx_remove (pkey (op_data o)) t
  | kRemoveRange => tx_remove_range (pkey (op_data o)) (range_end o) t
  end.

Definition eng_write_batch (self : nat) (batch : WriteBatch) (s : MockStore) (e : MockEngine)
    : MockStore * MockEngine * Status :=
  if negb (is_open_ s) then (s, e, StInternalError)
  else match tx_ e with
       | None => match ops batch with
                 | [] => (s, e, StOK)
                 | _ => autocommit self (store_write_batch batch) s e
                 end
       | Some t => buffered self (fun t => fold_left tx_batch_op (ops batch) t) t s e
       end.

Fixpoint eng_get_batch_loop (keys : list Key) (policy : MissingKeyPolicy)
    (s : MockStore) (e : MockEngine) : result Status (list (option ByteValue)) :=
  match keys with
  | [] => Ok []
  | key :: rest =>
      match eng_get key s e with
      | Ok v => let* vs := eng_get_batch_loop rest policy s e in Ok (Some v :: vs)
      | Err StNotFound =>
          match policy with
          | kReturnError => Err StNotFound
          | kReturnEmpty => let* vs := eng_get_batch_loop rest policy s e in Ok (None :: vs)
          end
      | Err st => Err st
      end
  end.

Definition eng_get_batch (keys : list Key) (policy : MissingKeyPolicy)
    (s : MockStore) (e : MockEngine) : result Status (list (option ByteValue)) :=
  if negb (is_open_ s) then Err StInternalError
  else match tx_ e with
       | None => store_get_batch keys policy s
       | Some _ => eng_get_batch_loop keys policy s e
       end.

(** The iterator of a connection: the materialised rows, merged with the
    buffer inside a transaction. *)
Inductive EngineIterator :=
| Plain (it : MockIterator)
| Merged (it : MergingIterator MockIterator).

Definition eng_new_iterator (r : KeyRange) (s : MockStore) (e : MockEngine) : option EngineIterator :=
  if negb (is_open_ s) then None
  else
    let inner := match snapshot_ e with
                 | Some d => Some (mock_iterator (materialize d r) r)
                 | None => store_new_iterator r s
                 end in
    match inner with
    | None => None
    | Some it => match tx_ e with
                 | None => Some (Plain it)
                 | Some t => Some (Merged (merging_iterator it (Some t) r))
                 end
    end.

Definition begin_transaction (s : MockStore) (e : MockEngine) : MockEngine * Status :=
  if negb (is_open_ s) then (e, StInternalError)
  else match tx_ e with
       | Some _ => (e, StBusy)
       | None => (mkMockEngine (Some empty_tx) (Some (data_snapshot s)) (write_slot_ e), StOK)
       end.

(** Dropping the buffer and the snapshot and giving the slot back. *)
Definition end_transaction (self : nat) (s : MockStore) (e : MockEngine) : MockStore * MockEngine :=
  (if write_slot_ e then (store_release_write_slot self s).1 else s,
   mkMockEngine None None false).

Definition commit_transaction (self : nat) (s : MockStore) (e : MockEngine)
    : MockStore * MockEngine * Status :=
  if negb (is_open_ s) then (s, e, StInternalError)
  else match tx_ e with
       | None => (s, e, StNotFound)
       | Some t =>
           if tx_exceeds t then (s, e, StInvalidArgument)
           else match store_write_batch (set_sync true (to_batch t)) s with
                | (s', StOK) => (end_transaction self s' e, StOK)
                | (s', st) => (s', e, st)
                end
       end.

Definition rollback_transaction (self : nat) (s : MockStore) (e : MockEngine)
    : MockStore * MockEngine * Status :=
  if negb (is_open_ s) then (s, e, StInternalError)
  else match tx_ e with
       | None => (s, e, StNotFound)
       | Some _ => (end_transaction self s e, StOK)
       end.

(** The destructor: an open transaction is dropped, the slot returned. *)
Definition eng_destroy (self : nat) (s : MockStore) (e : MockEngine) : MockStore :=
  if write_slot_ e then (store_release_write_slot self s).1 else s.
