(* ===== verification/Transactions.v ===== *)
(** * Transactions over the store: what a connection and a set of connections promise

    Part 1: one connection ([commit], [rollback], reads and scans inside a
    transaction).  Part 2: several connections on one store as a step relation
    ([wstep]), with the single-writer and the repeatable-read guarantees the
    interface comment of [KVEngine] states. *)

From S2P Require Import Prelude Bytes OMap KvTypes TxBuffer MockStore MergingIterator MockEngine.

(** ** Part 1: one connection *)

(** What a connection reads, as a function of the base data and the buffer. *)
Definition tx_view (t : TxBuffer) (d : omap ByteValue) (k : Key) : option ByteValue :=
  match tx_lookup k t with
  | OvNone => mfind k d | OvValue v => Some v | OvTombstone => None
  end.

Definition result_of (o : option ByteValue) : result Status ByteValue :=
  match o with Some v => Ok v | None => Err StNotFound end.

Lemma eng_get_tx k s e t :
  is_open_ s = true -> tx_ e = Some t ->
  eng_get k s e = result_of (tx_view t (base_data s e) k).
Proof.
  intros Ho Ht. unfold eng_get, tx_view, base_data, store_get. rewrite Ho, Ht. simpl.
  destruct (tx_lookup k t); try done. by destruct (snapshot_ e), (mfind k _).
Qed.

Lemma eng_get_no_tx k s e :
  is_open_ s = true -> tx_ e = None -> eng_get k s e = result_of (mfind k (base_data s e)).
Proof.
  intros Ho Ht. unfold eng_get, base_data, store_get. rewrite Ho, Ht. simpl.
  by destruct (snapshot_ e), (mfind k _).
Qed.

(** The range deletes of a transaction are non-empty: what [apply_batch_locked]
    validates before it applies anything. *)
Definition log_valid (t : TxBuffer) : Prop := existsb op_invalid (log_ t) = false.

Lemma commit_store_data t s s' st :
  tx_inv t -> store_write_batch (set_sync true (to_batch t)) s = (s', st) ->
  (st = StOK /\ is_open_ s = true /\ fail_writes_ s = false /\ log_valid t /\
   s' = set_data (fold_left apply_op (log_ t) (data_ s)) s) \/
  (st <> StOK /\ s' = s).
Proof.
  intros Ht. unfold store_write_batch, apply_batch_locked, log_valid. simpl.
  rewrite to_batch_log by done.
  destruct (is_open_ s) eqn:Eo; simpl; [|intros [= <- <-]; by right].
  destruct (fail_writes_ s) eqn:Ef; [intros [= <- <-]; by right|].
  case_match eqn:Ev; intros [= <- <-]; [by right|left]. done.
Qed.

Lemma release_data self s :
  data_ (store_release_write_slot self s).1 = data_ s /\
  is_open_ (store_release_write_slot self s).1 = is_open_ s /\
  fail_writes_ (store_release_write_slot self s).1 = fail_writes_ s.
Proof. unfold store_release_write_slot. by case_match. Qed.

Lemma end_transaction_data self s e :
  data_ (end_transaction self s e).1 = data_ s /\
  is_open_ (end_transaction self s e).1 = is_open_ s.
Proof.
  unfold end_transaction. simpl. destruct (write_slot_ e); [|done].
  by destruct (release_data self s) as (? & ? & _).
Qed.

(** A committed transaction's data is the overlay of its log. *)
Lemma commit_data self s e t s' e' :
  tx_ e = Some t -> tx_inv t -> sorted (data_ s) ->
  commit_transaction self s e = (s', e', StOK) ->
  is_open_ s = true /\ is_open_ s' = true /\ tx_ e' = None /\ snapshot_ e' = None /\
  write_slot_ e' = false /\ sorted (data_ s') /\ log_valid t /\
  data_ s' = fold_left apply_op (log_ t) (data_ s) /\
  forall k, mfind k (data_ s') = tx_view t (data_ s) k.
Proof.
  intros Htx Hinv Hs. unfold commit_transaction. rewrite Htx.
  destruct (is_open_ s) eqn:Eo; simpl; [|done]. case_match; [done|].
  destruct (store_write_batch _ s) as [s1 st] eqn:E.
  destruct (commit_store_data _ _ _ _ Hinv E) as [(-> & _ & _ & Hlv & ->)|[Hne _]];
    [|destruct st; try done].
  intros [= Hst <- ]. destruct (end_transaction_data self
    (set_data (fold_left apply_op (log_ t) (data_ s)) s) e) as [Hd Hop].
  unfold end_transaction in Hd, Hop. simpl in Hd, Hop. rewrite Hst in Hd, Hop.
  destruct (find_apply_ops (log_ t) (data_ s) [] Hs Hlv) as [Hsorted _].
  rewrite Hd, Hop. split_and!; try done. intros k.
  destruct (find_apply_ops (log_ t) (data_ s) k Hs Hlv) as [_ ->].
  unfold tx_view. by rewrite (inv_lookup _ Hinv).
Qed.

(** C2: read-your-writes and durability. When a transaction commits successfully
    (its buffer built by its writes, the rows of the store in order), every key it
    has put, removed or covered by a range delete reads after the commit exactly
    as it read inside the transaction just before; every other key reads as the
    store had it at the commit. If what the connection read from is what the
    store holds (it has the write slot, or nobody committed since its snapshot),
    every key at all reads as before. *)
Theorem commit_preserves_view self s e t s' e' :
  tx_ e = Some t -> tx_inv t -> sorted (data_ s) ->
  commit_transaction self s e = (s', e', StOK) ->
  (forall k, tx_lookup k t <> OvNone -> eng_get k s' e' = eng_get k s e) /\
  (forall k, tx_lookup k t = OvNone -> eng_get k s' e' = store_get k s) /\
  (base_data s e = data_ s -> forall k, eng_get k s' e' = eng_get k s e).
Proof.
  intros Htx Hinv Hs Hc.
  destruct (commit_data _ _ _ _ _ _ Htx Hinv Hs Hc) as (Ho & Ho' & Htx' & Hsn' & _ & _ & _ & _ & Hd).
  assert (Hafter : forall k, eng_get k s' e' = result_of (tx_view t (data_ s) k)).
  { intros k. rewrite (eng_get_no_tx k s' e') by done. unfold base_data. by rewrite Hsn', Hd. }
  split_and!; intros; rewrite Hafter.
  - rewrite (eng_get_tx k s e t) by done. unfold tx_view. by destruct (tx_lookup k t).
  - unfold tx_view, store_get. rewrite Ho. by destruct (tx_lookup k t), (mfind k (data_ s)).
  - rewrite (eng_get_tx k s e t) by done. by f_equal; f_equal.
Qed.

(** A store with two rows, and a transaction that overwrites, deletes and
    range-deletes. *)
Definition k1 : Key := bytes_of_string "k1".
Definition k2 : Key := bytes_of_string "k2".
Definition k3 : Key := bytes_of_string "k3".
Definition demo_store : MockStore :=
  mkMockStore [(k1, [x01]); (k2, [x02])] false true default_options (Some 7).
Definition demo_tx : TxBuffer :=
  tx_run [TxPut k3 [x03]; TxRemoveRange k1 k3; TxPut k1 [x04]].
Definition demo_engine : MockEngine := mkMockEngine (Some demo_tx) None true.

Lemma sorted_by_compute {V} (m : omap V) :
  (fix go (m : omap V) := match m with
   | p :: ((q :: _) as m') => bytes_ltb p.1 q.1 && go m' | _ => true end) m = true -> sorted m.
Proof.
  induction m as [|p m IH]; intros Hc; [constructor|].
  destruct m as [|q m]; [repeat constructor|].
  apply andb_prop in Hc as [Hpq Hc]. specialize (IH Hc).
  constructor; [done|]. constructor; [done|].
  eapply Forall_impl; [apply (sorted_head _ _ IH)|]. intros r Hr.
  unfold key_before, bytes_lt in *. by eapply bytes_ltb_trans.
Qed.

Lemma demo_sorted : sorted (data_ demo_store).
Proof. by apply sorted_by_compute. Qed.

Lemma commit_preserves_view_witness :
  eng_get k2 (commit_transaction 7 demo_store demo_engine).1.1
    (commit_transaction 7 demo_store demo_engine).1.2 = Err StNotFound.
Proof.
  destruct (commit_preserves_view 7 demo_store demo_engine demo_tx
    (commit_transaction 7 demo_store demo_engine).1.1
    (commit_transaction 7 demo_store demo_engine).1.2 eq_refl
    (tx_inv_run _) demo_sorted) as (Hwrote & _ & _); [vm_compute; reflexivity|].
  rewrite (Hwrote k2); [vm_compute; reflexivity|]. vm_compute. discriminate.
Defined.

(** A commit that does not succeed leaves no trace: the store is untouched
    and the transaction (buffer, snapshot, slot) is exactly as before, ready to
    be retried or rolled back. *)
Theorem commit_failure_atomic self s e s' e' st :
  (forall t, tx_ e = Some t -> tx_inv t) ->
  commit_transaction self s e = (s', e', st) -> st <> StOK -> s' = s /\ e' = e.
Proof.
  intros Hinv Hc Hst. unfold commit_transaction in Hc.
  destruct (is_open_ s); simpl in Hc; [|by simplify_eq].
  destruct (tx_ e) as [t|] eqn:Et; [|by simplify_eq].
  case_match; [by simplify_eq|].
  destruct (store_write_batch _ s) as [s1 st1] eqn:E.
  destruct (commit_store_data _ _ _ _ (Hinv t eq_refl) E) as [(-> & _)|[Hne ->]].
  - by simplify_eq.
  - destruct st1; by simplify_eq.
Qed.

Lemma commit_failure_atomic_witness :
  commit_transaction 7 (set_fail_writes true demo_store) demo_engine =
    (set_fail_writes true demo_store, demo_engine, StIOError) /\
  (set_fail_writes true demo_store = set_fail_writes true demo_store /\ demo_engine = demo_engine).
Proof.
  split; [vm_compute; reflexivity|].
  apply (commit_failure_atomic 7 _ _ _ _ StIOError).
  - intros t Ht. injection Ht as <-. apply tx_inv_run.
  - vm_compute; reflexivity.
  - discriminate.
Defined.

(** The overlay answers for every key of the store that a range delete of the
    transaction covers: the transaction also wrote or removed the key itself. *)
Definition ranges_expanded (t : TxBuffer) (d : omap ByteValue) (r : KeyRange) : Prop :=
  forall k v, (k, v) ∈ d -> range_contains r k = true ->
  mfind k (view_ t) = None -> tx_lookup k t <> OvTombstone.

Lemma mg_inv_initial d t r :
  sorted d -> tx_inv t ->
  let m := mkMerging (mock_iterator (materialize d r) r) (Some t)
    (overlay_cursor (Some t) (start r) (end_ r) (direction r)) (direction r)
    false [] [] false false in
  mg_inv m /\
  mg_pending m = merge_rows (fun k => tx_lookup k t) (direction r)
    (scan_order (direction r) (filter (fun p => range_contains r p.1 = true) d))
    (scan_order (direction r) (filter (fun p => range_contains r p.1 = true) (view_ t))).
Proof.
  intros Hd Ht m. pose proof (inv_sorted _ Ht) as Hv.
  set (c := mkOverlayCursor (Some t) (start r) (end_ r) (direction r) 0).
  assert (Hc : oc_view (oc_seek_start c) = view_ t /\ oc_buffer (oc_seek_start c) = Some t).
  { unfold oc_seek_start, oc_largest, oc_smallest. simpl.
    destruct (direction r), (start r), (end_ r); done. }
  split.
  - split; [by apply mock_iterator_wf| |apply Hc]. unfold oc_wf. change (mg_overlay m) with (oc_seek_start c).
    by rewrite (proj1 Hc).
  - unfold mg_pending. change (it_rest (mg_db m)) with (mi_rest (mock_iterator (materialize d r) r)).
    change (mg_overlay m) with (oc_seek_start c). rewrite mock_iterator_rest by done.
    by rewrite oc_rest_seek_start by done.
Qed.

Lemma elem_of_scan_order {V} d (l : omap V) p : p ∈ scan_order d l <-> p ∈ l.
Proof. destruct d; simpl; [done|apply elem_of_reverse]. Qed.

Lemma view_covers k t : tx_inv t -> is_Some (mfind k (view_ t)) -> tx_lookup k t <> OvNone.
Proof.
  intros Ht [en E]. unfold tx_lookup. rewrite E. case_match; [done|]. by eapply inv_touched.
Qed.

(** The merged rows are the rows the commit would leave, in scan order. *)
Lemma merge_is_commit d t r :
  sorted d -> tx_inv t -> log_valid t -> ranges_expanded t d r ->
  merge_rows (fun k => tx_lookup k t) (direction r)
    (scan_order (direction r) (filter (fun p => range_contains r p.1 = true) d))
    (scan_order (direction r) (filter (fun p => range_contains r p.1 = true) (view_ t))) =
  scan_order (direction r)
    (filter (fun p => range_contains r p.1 = true) (fold_left apply_op (log_ t) d)).
Proof.
  intros Hd Ht Hlv Hexp. pose proof (inv_sorted _ Ht) as Hv.
  destruct (find_apply_ops (log_ t) d [] Hd Hlv) as [Hs' _].
  assert (HD := scan_sorted_order (direction r) _
    (sorted_filter (fun p => range_contains r p.1) d Hd)).
  assert (HO := scan_sorted_order (direction r) _
    (sorted_filter (fun p => range_contains r p.1) (view_ t) Hv)).
  apply (scan_sorted_ext (direction r)); [by apply merge_rows_sorted| |].
  { apply scan_sorted_order, (sorted_filter (fun p => range_contains r p.1)), Hs'. }
  intros [k v]. rewrite merge_rows_elem by done. rewrite elem_of_scan_order.
  rewrite list_elem_of_filter, <- find_elem by done. cbn [fst].
  destruct (find_apply_ops (log_ t) d k Hd Hlv) as [_ ->].
  rewrite <- (inv_lookup _ Ht). unfold merged_row. rewrite elem_of_scan_order.
  rewrite (list_elem_of_filter _ d). rewrite <- (find_elem k v d) by done. cbn [fst].
  assert (HkO : k ∈ (scan_order (direction r)
      (filter (fun p => range_contains r p.1 = true) (view_ t))).*1 <->
      range_contains r k = true /\ is_Some (mfind k (view_ t))).
  { rewrite list_elem_of_fmap. split.
    - intros ([k' en] & -> & Hin). apply elem_of_scan_order, list_elem_of_filter in Hin as [Hr Hin].
      split; [done|]. exists en. by apply find_elem.
    - intros [Hr [en Hen]]. exists (k, en). split; [done|].
      apply elem_of_scan_order, list_elem_of_filter. split; [done|]. by apply find_elem. }
  rewrite HkO. destruct (range_contains r k) eqn:Er; [|naive_solver].
  destruct (mfind k (view_ t)) as [en|] eqn:Ev.
  - pose proof (view_covers k t Ht ltac:(by rewrite Ev; eexists)).
    destruct (tx_lookup k t); simpl; naive_solver.
  - assert (tx_lookup k t <> OvTombstone \/ mfind k d <> Some v) as Hnt.
    { destruct (mfind k d) eqn:Ed; [left|by right]. apply find_elem in Ed; [|done]. by eapply Hexp. }
    assert (forall w, tx_lookup k t <> OvValue w) as Hnv.
    { intros w. unfold tx_lookup. rewrite Ev. by case_match. }
    destruct (tx_lookup k t) as [|w|]; [|by destruct (Hnv w)|]; naive_solver.
Qed.

(** C12: a scan inside a transaction sees its own writes. Over any key range and
    in either direction, reading the connection's iterator to the end yields,
    in scan order, exactly the rows of the range that the store would hold if
    the transaction committed now (its puts inserted, its overwrites winning,
    its deletes gone), provided the range deletes of the transaction cover no
    other row of the range. *)
Theorem scan_sees_transaction s e t r fuel :
  is_open_ s = true -> tx_ e = Some t -> tx_inv t -> log_valid t ->
  sorted (base_data s e) -> ranges_expanded t (base_data s e) r ->
  let rows := scan_order (direction r)
    (filter (fun p => range_contains r p.1 = true)
       (fold_left apply_op (log_ t) (base_data s e))) in
  length rows <= fuel ->
  exists it, eng_new_iterator r s e = Some (Merged it) /\ mg_collect fuel it = rows.
Proof.
  intros Ho Htx Ht Hlv Hd Hexp rows Hlen.
  assert (eng_new_iterator r s e = Some (Merged
    (merging_iterator (mock_iterator (materialize (base_data s e) r) r) (Some t) r))) as ->.
  { unfold eng_new_iterator, base_data, store_new_iterator. rewrite Ho, Htx. simpl.
    by destruct (snapshot_ e). }
  eexists. split; [done|].
  destruct (mg_inv_initial (base_data s e) t r Hd Ht) as [Hinv Hpend].
  apply mg_collect_shows; [|done]. unfold merging_iterator, rows.
  rewrite <- (merge_is_commit (base_data s e) t r) by done. rewrite <- Hpend.
  by apply settle_shows.
Qed.

Definition expand_tx : TxBuffer := tx_run [TxPut k3 [x03]; TxRemove k1; TxPut k2 [x05]].
Definition expand_engine : MockEngine := mkMockEngine (Some expand_tx) None true.

Lemma scan_sees_transaction_witness :
  exists it, eng_new_iterator (mkKeyRange None None 0 kReverse) demo_store expand_engine
    = Some (Merged it) /\ mg_collect 10 it = [(k3, [x03]); (k2, [x05])].
Proof.
  destruct (scan_sees_transaction demo_store expand_engine expand_tx
    (mkKeyRange None None 0 kReverse) 10 eq_refl eq_refl (tx_inv_run _)) as (it & Hit & Hc).
  - vm_compute; reflexivity.
  - apply demo_sorted.
  - intros k v _ _ Hv. unfold tx_lookup. rewrite Hv. simpl. discriminate.
  - vm_compute. lia.
  - exists it. split; [exact Hit|]. rewrite Hc. vm_compute; reflexivity.
Defined.

(** Range deletes and scans disagree. After [remove_range] inside a
    transaction, [get] of a covered key answers NotFound, the committed store no
    longer has it, and yet a forward scan of the same connection still returns
    the row: the merge loop consults the overlay only for keys the transaction
    wrote one by one. *)
Theorem range_delete_still_scanned :
  let t := tx_run [TxRemoveRange k1 k2] in
  let e := mkMockEngine (Some t) None true in
  eng_get k1 demo_store e = Err StNotFound /\
  eng_get k1 (commit_transaction 7 demo_store e).1.1 (commit_transaction 7 demo_store e).1.2
    = Err StNotFound /\
  exists it, eng_new_iterator (range_between k1 k3) demo_store e = Some (Merged it) /\
    mg_collect 10 it = [(k1, [x01]); (k2, [x02])].
Proof.
  cbv zeta. split_and!; [vm_compute; reflexivity|vm_compute; reflexivity|].
  eexists. split; [reflexivity|vm_compute; reflexivity].
Qed.

(** ** Part 2: several connections on one store *)

Inductive cmd :=
| CPut (key : Key) (value : ByteValue)
| CRemove (key : Key)
| CBatch (batch : WriteBatch)
| CBegin
| CCommit
| CRollback
| CAcquire
| CRelease.

Definition conn_step (self : nat) (c : cmd) (s : MockStore) (e : MockEngine)
    : MockStore * MockEngine * Status :=
  match c with
  | CPut k v => eng_put self k v s e
  | CRemove k => eng_remove self k s e
  | CBatch b => eng_write_batch self b s e
  | CBegin => let '(e', st) := begin_transaction s e in (s, e', st)
  | CCommit => commit_transaction self s e
  | CRollback => rollback_transaction self s e
  | CAcquire => eng_acquire_write_slot self s e
  | CRelease => (eng_release_write_slot self s e, StOK)
  end.

(** How the callers of the interface use the slot: it is given back explicitly
    only outside a transaction, and a connection that took it explicitly opens
    a transaction before it writes. *)
Definition disciplined (c : cmd) (e : MockEngine) : Prop :=
  match c with
  | CRelease => tx_ e = None
  | CPut _ _ | CRemove _ | CBatch _ => tx_ e = None -> write_slot_ e = false
  | _ => True
  end.

Record World := mkWorld { w_store : MockStore; w_conns : gmap nat MockEngine }.

(** A step of connection [Some c], or of the store itself ([None]). *)
Inductive wstep : World -> option nat -> World -> Prop :=
| ws_cmd w c e cm s' e' st :
    w_conns w !! c = Some e -> disciplined cm e ->
    conn_step c cm (w_store w) e = (s', e', st) ->
    wstep w (Some c) (mkWorld s' (<[c := e']> (w_conns w)))
| ws_connect w c :
    w_conns w !! c = None ->
    wstep w (Some c) (mkWorld (w_store w) (<[c := new_engine]> (w_conns w)))
| ws_disconnect w c e :
    w_conns w !! c = Some e ->
    wstep w (Some c) (mkWorld (eng_destroy c (w_store w) e) (delete c (w_conns w)))
| ws_fail w b :
    wstep w None (mkWorld (set_fail_writes b (w_store w)) (w_conns w)).

Inductive reachable : World -> Prop :=
| reach_init s : is_open_ s = true -> write_owner_ s = None -> sorted (data_ s) ->
    reachable (mkWorld s ∅)
| reach_step w l w' : reachable w -> wstep w l w' -> reachable w'.

(** The invariant of one connection relative to the store. *)
Record conn_ok (s : MockStore) (c : nat) (e : MockEngine) : Prop := {
  ok_slot : write_slot_ e = true -> write_owner_ s = Some c;
  ok_tx : forall t, tx_ e = Some t -> tx_inv t;
  ok_log : forall t, tx_ e = Some t -> log_ t <> [] -> write_slot_ e = true;
  ok_base : tx_ e <> None -> snapshot_ e = None -> write_slot_ e = true;
  ok_no_tx : tx_ e = None -> snapshot_ e = None;
  ok_snap : forall d, snapshot_ e = Some d ->
    sorted d /\ (write_slot_ e = true -> d = data_ s) }.

Record store_ok (w : World) : Prop := {
  so_open : is_open_ (w_store w) = true;
  so_sorted : sorted (data_ (w_store w));
  so_owner : forall c, write_owner_ (w_store w) = Some c ->
    exists e, w_conns w !! c = Some e /\ write_slot_ e = true;
  so_conns : forall c e, w_conns w !! c = Some e -> conn_ok (w_store w) c e }.

Lemma conn_ok_new s c : conn_ok s c new_engine.
Proof. by split. Qed.

(** A connection that does not hold the slot is indifferent to the store. *)
Lemma conn_ok_frame s s' c e :
  conn_ok s c e ->
  (write_slot_ e = true -> write_owner_ s' = Some c /\ data_ s' = data_ s) ->
  conn_ok s' c e.
Proof.
  intros [Hsl Ht Hl Hb Hn Hsn] Hfr. split; try done.
  - intros Hw. by apply Hfr.
  - intros d Hd. destruct (Hsn d Hd) as [Hsd Heq]. split; [done|].
    intros Hw. destruct (Hfr Hw) as [_ ->]. by apply Heq.
Qed.

(** What one command does to the store: the slot passes from free to the
    connection, or back, and the data changes only while the connection may
    write. *)
Record step_effect (c : nat) (s s' : MockStore) (e e' : MockEngine) : Prop := {
  se_open : is_open_ s' = is_open_ s;
  se_sorted : sorted (data_ s) -> sorted (data_ s');
  se_ok : conn_ok s' c e';
  se_owner : (write_owner_ s' = Some c /\ write_slot_ e' = true) \/
             (write_owner_ s' = None /\ write_slot_ e' = false) \/
             (write_owner_ s' = write_owner_ s /\ write_owner_ s' <> Some c);
  se_other : forall o, write_owner_ s = Some o -> o <> c ->
             write_owner_ s' = Some o /\ data_ s' = data_ s }.

(** The state of the slot as seen by a connection that follows the discipline. *)
Definition slot_sync (s : MockStore) (c : nat) (e : MockEngine) : Prop :=
  write_slot_ e = false -> write_owner_ s <> Some c.

Lemma acquire_cases c s :
  is_open_ s = true ->
  (store_acquire_write_slot c s = (set_owner (Some c) s, StOK) /\
   (write_owner_ s = None \/ write_owner_ s = Some c)) \/
  (store_acquire_write_slot c s = (s, StBusy) /\
   exists o, write_owner_ s = Some o /\ o <> c).
Proof.
  intros Ho. unfold store_acquire_write_slot. rewrite Ho. simpl.
  destruct (write_owner_ s) as [o|] eqn:E; [|by left; split; [|left]].
  case_bool_decide as Hoc; [right; split; [done|by exists o]|].
  assert (o = c) as -> by (destruct (decide (o = c)); [done|by destruct Hoc]).
  left. split; [done|by right].
Qed.

Lemma release_own c s : write_owner_ s = Some c -> store_release_write_slot c s = (set_owner None s, StOK).
Proof. intros H. unfold store_release_write_slot. by rewrite bool_decide_eq_false_2 by naive_solver. Qed.

(** A command that changes nothing but the connection, whose slot stays. *)
Lemma step_effect_local c s e e' :
  conn_ok s c e' -> slot_sync s c e -> write_slot_ e' = write_slot_ e -> conn_ok s c e ->
  step_effect c s s e e'.
Proof.
  intros Hok Hsync Hw Hok0. split; try done.
  destruct (write_slot_ e') eqn:E; rewrite ?E in *.
  - left. split; [by apply (ok_slot _ _ _ Hok)|done].
  - right. right. split; [done|]. by apply Hsync.
Qed.

Lemma ensure_slot_effect c s e s' e' st :
  conn_ok s c e -> slot_sync s c e -> is_open_ s = true ->
  ensure_write_slot c s e = (s', e', st) ->
  (st = StOK /\ write_owner_ s' = Some c /\ write_slot_ e' = true /\ tx_ e' = tx_ e /\
   data_ s' = data_ s /\ is_open_ s' = is_open_ s /\
   (write_owner_ s = None \/ write_owner_ s = Some c) /\
   (snapshot_ e' = None \/ e' = e)) \/
  (st <> StOK /\ s' = s /\ e' = e).
Proof.
  intros Hok Hsync Ho. unfold ensure_write_slot, eng_acquire_write_slot.
  destruct (write_slot_ e) eqn:Ew.
  { intros [= <- <- <-]. left. split_and!; try done; [by apply (ok_slot _ _ _ Hok)| |by right].
    right. by apply (ok_slot _ _ _ Hok). }
  rewrite Ho. simpl. destruct (acquire_cases c s Ho) as [(-> & Hown)|(-> & _)].
  - intros [= <- <- <-]. left. split_and!; try done. by left.
  - intros [= <- <- <-]. by right.
Qed.

Section StepEffects.
Context (c : nat) (s : MockStore) (e : MockEngine).
Context (Hok : conn_ok s c e) (Hsync : slot_sync s c e) (Hopen : is_open_ s = true).

Lemma step_effect_refl : step_effect c s s e e.
Proof. by apply step_effect_local. Qed.

Lemma not_owner_other o : write_owner_ s = Some o -> o <> c -> write_slot_ e = false.
Proof.
  intros Ho Hne. destruct (write_slot_ e) eqn:E; [|done].
  pose proof (ok_slot _ _ _ Hok E). congruence.
Qed.

Lemma buffered_effect w t s' e' st :
  tx_ e = Some t -> (forall t, tx_inv t -> tx_inv (w t)) ->
  buffered c w t s e = (s', e', st) -> step_effect c s s' e e'.
Proof.
  intros Ht Hw. unfold buffered. destruct (ensure_write_slot c s e) as [[s1 e1] st1] eqn:E.
  destruct (ensure_slot_effect _ _ _ _ _ _ Hok Hsync Hopen E)
    as [(-> & Hown & Hsl & Htx & Hd & Hop & Hfree & Hsn)|(Hne & -> & ->)].
  - intros [= <- <- <-]. split; simpl; [done|by rewrite Hd| |by left|].
    + split; simpl; try done.
      * intros t0 [= <-]. apply Hw. by apply (ok_tx _ _ _ Hok).
      * intros d Hsnap. rewrite Hd. destruct Hsn as [?| ->]; [congruence|].
        by apply (ok_snap _ _ _ Hok).
    + intros o Ho Hne. destruct Hfree; congruence.
  - destruct st1; try done; intros [= <- <- <-]; apply step_effect_refl.
Qed.

Lemma autocommit_effect op s' e' st :
  tx_ e = None -> write_slot_ e = false ->
  (forall s0, is_open_ (op s0).1 = is_open_ s0 /\ write_owner_ (op s0).1 = write_owner_ s0 /\
    (sorted (data_ s0) -> sorted (data_ (op s0).1))) ->
  autocommit c op s e = (s', e', st) -> step_effect c s s' e e'.
Proof.
  intros Ht Hsl Hop. unfold autocommit.
  destruct (acquire_cases c s Hopen) as [(-> & Hfree)|(-> & o & Ho & Hne)].
  - destruct (op (set_owner (Some c) s)) as [s2 st2] eqn:E.
    destruct (Hop (set_owner (Some c) s)) as (Hop1 & Hop2 & Hop3). rewrite E in *. simpl in *.
    rewrite (release_own c s2) by done. intros [= <- <- <-]. split; simpl; try done.
    + eapply conn_ok_frame; [done|congruence].
    + right. by left.
    + intros o Ho Hne. destruct Hfree; congruence.
  - intros [= <- <- <-]. apply step_effect_refl.
Qed.

Lemma begin_effect e' st :
  sorted (data_ s) -> begin_transaction s e = (e', st) -> step_effect c s s e e'.
Proof.
  intros Hs. unfold begin_transaction. rewrite Hopen. simpl.
  destruct (tx_ e) as [t|] eqn:Et; intros [= <- <-]; [apply step_effect_refl|].
  apply step_effect_local; try done. split; simpl; try done.
  - apply (ok_slot _ _ _ Hok).
  - intros t [= <-]. apply tx_inv_empty.
  - by intros t [= <-].
  - by intros d [= <-].
Qed.

(** Ending a transaction after the data became [s1]. *)
Lemma end_transaction_effect s1 s' e' :
  is_open_ s1 = is_open_ s -> write_owner_ s1 = write_owner_ s ->
  (sorted (data_ s) -> sorted (data_ s1)) ->
  (write_slot_ e = false -> data_ s1 = data_ s) ->
  end_transaction c s1 e = (s', e') -> step_effect c s s' e e'.
Proof.
  intros Hop Hown Hsort Hdata. unfold end_transaction.
  destruct (write_slot_ e) eqn:Ew.
  - pose proof (ok_slot _ _ _ Hok Ew) as Hc. rewrite (release_own c s1) by congruence.
    intros [= <- <-]. split; simpl; try done; [by right; left|].
    intros o Ho Hne. congruence.
  - intros [= <- <-]. split; simpl; try done.
    + right. right. rewrite Hown. split; [done|]. by apply Hsync.
    + intros o Ho Hne. rewrite Hown. by rewrite Hdata.
Qed.

Lemma commit_effect s' e' st :
  sorted (data_ s) -> commit_transaction c s e = (s', e', st) -> step_effect c s s' e e'.
Proof.
  intros Hs. unfold commit_transaction. rewrite Hopen. simpl.
  destruct (tx_ e) as [t|] eqn:Et; [|intros [= <- <- <-]; apply step_effect_refl].
  case_match; [intros [= <- <- <-]; apply step_effect_refl|].
  destruct (store_write_batch _ s) as [s1 st1] eqn:E.
  pose proof (ok_tx _ _ _ Hok t Et) as Hinv.
  destruct (commit_store_data _ _ _ _ Hinv E) as [(-> & _ & _ & Hlv & ->)|(Hne & ->)].
  - intros Hc. apply (end_transaction_effect
      (set_data (fold_left apply_op (log_ t) (data_ s)) s)); try done; [| |congruence].
    + intros _. by apply (find_apply_ops (log_ t) (data_ s) [] Hs Hlv).
    + intros Hw. simpl. destruct (log_ t) eqn:El; [done|].
      pose proof (ok_log _ _ _ Hok t Et ltac:(by rewrite El)). congruence.
  - destruct st1; try done; intros [= <- <- <-]; apply step_effect_refl.
Qed.

Lemma rollback_effect s' e' st :
  rollback_transaction c s e = (s', e', st) -> step_effect c s s' e e'.
Proof.
  unfold rollback_transaction. rewrite Hopen. simpl.
  destruct (tx_ e); [|intros [= <- <- <-]; apply step_effect_refl].
  intros Hr. apply (end_transaction_effect s); try done. congruence.
Qed.

Lemma acquire_effect s' e' st :
  eng_acquire_write_slot c s e = (s', e', st) -> step_effect c s s' e e'.
Proof.
  intros Ha. destruct (write_slot_ e) eqn:Ew.
  { unfold eng_acquire_write_slot in Ha. rewrite Ew in Ha.
    injection Ha as <- <- <-. apply step_effect_refl. }
  assert (He : ensure_write_slot c s e = (s', e', st)) by (unfold ensure_write_slot; by rewrite Ew).
  destruct (ensure_slot_effect _ _ _ _ _ _ Hok Hsync Hopen He)
    as [(-> & Hown & Hsl & Htx & Hd & Hop & Hfree & [Hsn| ->])|(Hne & -> & ->)];
    [|congruence|apply step_effect_refl].
  split; [done|by rewrite Hd| |by left|].
  - split; try done; try congruence.
    + intros t. rewrite Htx. apply (ok_tx _ _ _ Hok).
  - intros o Ho Hne. destruct Hfree; congruence.
Qed.

Lemma release_effect s' e' :
  tx_ e = None -> eng_release_write_slot c s e = (s', e') -> step_effect c s s' e e'.
Proof.
  intros Ht. unfold eng_release_write_slot. destruct (write_slot_ e) eqn:Ew; simpl.
  2:{ intros [= <- <-]. apply step_effect_refl. }
  pose proof (ok_slot _ _ _ Hok Ew) as Hc. rewrite (release_own c s) by done.
  pose proof (ok_no_tx _ _ _ Hok Ht) as Hsn.
  intros [= <- <-]. split; simpl; try done; [|by right; left|intros; congruence].
  split; simpl; try done; try congruence.
Qed.
End StepEffects.

Lemma tx_inv_batch l t : tx_inv t -> tx_inv (fold_left tx_batch_op l t).
Proof.
  revert t; induction l as [|o l IH]; intros t Ht; simpl; [done|]. apply IH.
  unfold tx_batch_op. repeat case_match; eauto with omap.
Qed.

Lemma conn_step_effect c s e cm s' e' st :
  conn_ok s c e -> slot_sync s c e -> is_open_ s = true -> sorted (data_ s) ->
  disciplined cm e -> conn_step c cm s e = (s', e', st) -> step_effect c s s' e e'.
Proof.
  intros Hok Hsync Ho Hs Hdisc. destruct cm; simpl in *.
  - unfold eng_put. rewrite Ho. simpl. destruct (tx_ e) eqn:Et.
    + by apply buffered_effect; auto with omap.
    + apply autocommit_effect; auto. intros s0. unfold store_put.
      destruct (is_open_ s0) eqn:Eo; simpl; split_and!; auto with omap.
  - unfold eng_remove. rewrite Ho. simpl. destruct (tx_ e) eqn:Et.
    + by apply buffered_effect; auto with omap.
    + apply autocommit_effect; auto. intros s0. unfold store_remove.
      destruct (is_open_ s0) eqn:Eo; simpl; [|done]. case_match; simpl; split_and!; auto with omap.
  - unfold eng_write_batch. rewrite Ho. simpl. destruct (tx_ e) eqn:Et.
    + apply buffered_effect; auto using tx_inv_batch.
    + destruct (ops batch) eqn:Eops; [intros [= <- <- <-]; by apply step_effect_refl|].
      apply autocommit_effect; auto. intros s0.
      unfold store_write_batch, apply_batch_locked.
      destruct (is_open_ s0) eqn:Eo; simpl; [|done]. repeat case_match; simpl; try done.
      split_and!; try done. intros Hs0. by apply (find_apply_ops (ops batch) (data_ s0) [] Hs0).
  - destruct (begin_transaction s e) as [e1 st1] eqn:E. intros [= <- <- <-].
    by eapply begin_effect.
  - by apply commit_effect.
  - by apply rollback_effect.
  - by apply acquire_effect.
  - intros [= H1 H2]. eapply release_effect; [done..|]. by rewrite H1.
Qed.

(** Leaving: the destructor gives the slot back. *)
Lemma destroy_effect c s e :
  conn_ok s c e ->
  is_open_ (eng_destroy c s e) = is_open_ s /\ data_ (eng_destroy c s e) = data_ s /\
  (write_owner_ (eng_destroy c s e) = if write_slot_ e then None else write_owner_ s).
Proof.
  intros Hok. unfold eng_destroy. destruct (write_slot_ e) eqn:Ew; [|done].
  by rewrite release_own by apply (ok_slot _ _ _ Hok Ew).
Qed.

Lemma store_ok_sync w c e : store_ok w -> w_conns w !! c = Some e -> slot_sync (w_store w) c e.
Proof.
  intros Hw Hc Hsl Ho. destruct (so_owner _ Hw c Ho) as (e0 & He0 & Hsl0). congruence.
Qed.

(** The invariant of the other connections survives a step of one of them. *)
Lemma conn_ok_other c s s' e e' c2 e2 :
  step_effect c s s' e e' -> c2 <> c -> conn_ok s c2 e2 -> conn_ok s' c2 e2.
Proof.
  intros Heff Hne Hok2. eapply conn_ok_frame; [done|]. intros Hw.
  apply (se_other _ _ _ _ _ Heff); [|done]. by apply (ok_slot _ _ _ Hok2).
Qed.

Lemma store_ok_cmd w c e cm s' e' st :
  store_ok w -> w_conns w !! c = Some e -> disciplined cm e ->
  conn_step c cm (w_store w) e = (s', e', st) ->
  step_effect c (w_store w) s' e e' /\ store_ok (mkWorld s' (<[c := e']> (w_conns w))).
Proof.
  intros Hw Hc Hd Hstep.
  assert (Heff : step_effect c (w_store w) s' e e').
  { eapply conn_step_effect; eauto using so_open, so_sorted, so_conns, store_ok_sync. }
  split; [done|]. split; simpl.
  - rewrite (se_open _ _ _ _ _ Heff). apply (so_open _ Hw).
  - apply (se_sorted _ _ _ _ _ Heff), (so_sorted _ Hw).
  - intros o Ho. destruct (decide (o = c)) as [->|Hne].
    + exists e'. rewrite lookup_insert_eq. split; [done|].
      by destruct (se_owner _ _ _ _ _ Heff) as [[_ ?]|[[? _]|[_ ?]]]; [|congruence|congruence].
    + rewrite lookup_insert_ne by done. apply (so_owner _ Hw).
      destruct (se_owner _ _ _ _ _ Heff) as [[? _]|[[? _]|[Heq _]]]; congruence.
  - intros c2 e2. destruct (decide (c2 = c)) as [->|Hne].
    + rewrite lookup_insert_eq. intros [= <-]. apply (se_ok _ _ _ _ _ Heff).
    + rewrite lookup_insert_ne by done. intros H2.
      eapply conn_ok_other; [done..|]. by apply (so_conns _ Hw).
Qed.

Lemma store_ok_step w l w' : store_ok w -> wstep w l w' -> store_ok w'.
Proof.
  intros Hw Hstep. destruct Hstep as [w c e cm s' e' st Hc Hd Hs|w c Hc|w c e Hc|w b].
  - by eapply store_ok_cmd.
  - split; simpl; [apply (so_open _ Hw)|apply (so_sorted _ Hw)| |].
    + intros o Ho. destruct (so_owner _ Hw o Ho) as (e0 & He0 & ?).
      exists e0. by rewrite lookup_insert_ne by congruence.
    + intros c2 e2. destruct (decide (c2 = c)) as [->|Hne].
      * rewrite lookup_insert_eq. intros [= <-]. apply conn_ok_new.
      * rewrite lookup_insert_ne by done. apply (so_conns _ Hw).
  - destruct (destroy_effect c (w_store w) e (so_conns _ Hw _ _ Hc)) as (Ho & Hd & Hown).
    split; simpl; [rewrite Ho; apply (so_open _ Hw)|rewrite Hd; apply (so_sorted _ Hw)| |].
    + intros o. rewrite Hown. destruct (write_slot_ e) eqn:Ew; [done|]. intros Hoc.
      destruct (so_owner _ Hw o Hoc) as (e0 & He0 & ?). exists e0.
      by rewrite lookup_delete_ne by congruence.
    + intros c2 e2 [Hne H2]%lookup_delete_Some. apply conn_ok_frame with (w_store w).
      { by apply (so_conns _ Hw). }
      intros Hw2. pose proof (ok_slot _ _ _ (so_conns _ Hw _ _ H2) Hw2) as Ho2.
      rewrite Hown, Hd. destruct (write_slot_ e) eqn:Ew; [|done].
      pose proof (ok_slot _ _ _ (so_conns _ Hw _ _ Hc) Ew). congruence.
  - split; simpl; [apply (so_open _ Hw)|apply (so_sorted _ Hw)|apply (so_owner _ Hw)|].
    intros c e Hc. apply conn_ok_frame with (w_store w); [by apply (so_conns _ Hw)|].
    intros Hsl. split; [|done]. by apply (ok_slot _ _ _ (so_conns _ Hw _ _ Hc)).
Qed.

Lemma reachable_ok w : reachable w -> store_ok w.
Proof.
  induction 1 as [s Ho Hown Hs|w l w' _ IH Hstep]; [|by eapply store_ok_step].
  split; simpl; try done. congruence.
Qed.

(** C35: single writer. In every world reached by connections that come and go
    and keep to a discipline with the slot (none writes outside a transaction
    while it holds a slot it took explicitly, none gives the slot back inside a
    transaction, as [session.cpp], the only caller of the two calls, does), at most one connection holds the write slot, and the store's
    record of the owner is exact: the owner is a live connection that knows it
    holds the slot, and a connection that believes it holds the slot is the
    owner. In particular no slot is leaked when a connection goes away. *)
Theorem single_writer w c e :
  reachable w -> w_conns w !! c = Some e ->
  (write_slot_ e = true <-> write_owner_ (w_store w) = Some c) /\
  (write_slot_ e = true -> forall c' e', w_conns w !! c' = Some e' ->
     write_slot_ e' = true -> c' = c) /\
  (forall o, write_owner_ (w_store w) = Some o -> is_Some (w_conns w !! o)).
Proof.
  intros Hr Hc. pose proof (reachable_ok w Hr) as Hw.
  pose proof (so_conns _ Hw _ _ Hc) as Hok. split_and!.
  - split; [apply (ok_slot _ _ _ Hok)|]. intros Ho.
    destruct (so_owner _ Hw c Ho) as (e0 & He0 & ?). congruence.
  - intros Hsl c' e' Hc' Hsl'.
    pose proof (ok_slot _ _ _ Hok Hsl). pose proof (ok_slot _ _ _ (so_conns _ Hw _ _ Hc') Hsl').
    congruence.
  - intros o Ho. destruct (so_owner _ Hw o Ho) as (e0 & -> & _). by eexists.
Qed.

(** What the store looks like to a connection after a step of somebody else. *)
Lemma other_step_frame w l w' c e :
  store_ok w -> wstep w l w' -> l <> Some c -> w_conns w !! c = Some e ->
  w_conns w' !! c = Some e /\ is_open_ (w_store w') = is_open_ (w_store w) /\
  (write_slot_ e = true -> data_ (w_store w') = data_ (w_store w)).
Proof.
  intros Hw Hstep Hl Hc. pose proof (ok_slot _ _ _ (so_conns _ Hw _ _ Hc)) as Hsl.
  destruct Hstep as [w c2 e2 cm s' e' st Hc2 Hd Hs|w c2 Hc2|w c2 e2 Hc2|w b]; simpl.
  - destruct (store_ok_cmd _ _ _ _ _ _ _ Hw Hc2 Hd Hs) as [Heff _].
    rewrite lookup_insert_ne by congruence. split_and!; [done|apply (se_open _ _ _ _ _ Heff)|].
    intros Hs1. apply (se_other _ _ _ _ _ Heff c); [auto|congruence].
  - by rewrite lookup_insert_ne by congruence.
  - destruct (destroy_effect c2 (w_store w) e2 (so_conns _ Hw _ _ Hc2)) as (? & ? & _).
    by rewrite lookup_delete_ne by congruence.
  - done.
Qed.

(** C36: repeatable reads. In the same worlds, all connections keeping to the
    discipline of the slot, inside a transaction a connection sees its own writes
    over one frozen state: no command of another connection, no
    connect, disconnect or storage failure changes what [get], [exists] and a
    fresh scan return to it. *)
Theorem repeatable_read w l w' c e :
  reachable w -> wstep w l w' -> l <> Some c ->
  w_conns w !! c = Some e -> is_Some (tx_ e) ->
  w_conns w' !! c = Some e /\
  (forall k, eng_get k (w_store w') e = eng_get k (w_store w) e) /\
  (forall k, eng_exists k (w_store w') e = eng_exists k (w_store w) e) /\
  (forall r, eng_new_iterator r (w_store w') e = eng_new_iterator r (w_store w) e).
Proof.
  intros Hr Hstep Hl Hc [t Ht]. pose proof (reachable_ok w Hr) as Hw.
  destruct (other_step_frame _ _ _ _ _ Hw Hstep Hl Hc) as (Hc' & Ho & Hd).
  pose proof (ok_base _ _ _ (so_conns _ Hw _ _ Hc)) as Hb. split; [done|].
  unfold eng_get, eng_exists, eng_new_iterator, store_get, store_exists, store_new_iterator.
  rewrite Ho, Ht. destruct (snapshot_ e) as [d|] eqn:Es; [done|].
  rewrite Hd; [done|]. apply Hb; congruence.
Qed.

(** A reader (connection 1) inside a transaction while connection 2 writes. *)
Definition idle_store : MockStore := set_owner None demo_store.
Definition demo_world : World :=
  mkWorld (eng_put 2 k3 [x07] idle_store new_engine).1.1
    (<[2 := new_engine]> (<[1 := (begin_transaction idle_store new_engine).1]>
      (<[2 := new_engine]> (<[1 := new_engine]> ∅)))).
Definition demo_world0 : World :=
  mkWorld idle_store (<[1 := (begin_transaction idle_store new_engine).1]>
    (<[2 := new_engine]> (<[1 := new_engine]> ∅))).

Lemma demo_world0_reachable : reachable demo_world0.
Proof.
  apply (reach_step (mkWorld idle_store (<[2 := new_engine]> (<[1 := new_engine]> ∅))) (Some 1)).
  - apply (reach_step (mkWorld idle_store (<[1 := new_engine]> ∅)) (Some 2)); [|by apply (ws_connect (mkWorld _ _))].
    apply (reach_step (mkWorld idle_store ∅) (Some 1)); [|by apply (ws_connect (mkWorld _ _))].
    apply reach_init; [done|done|]. apply demo_sorted.
  - by eapply (ws_cmd (mkWorld _ _) 1 new_engine CBegin).
Qed.

Lemma demo_world_step : wstep demo_world0 (Some 2) demo_world.
Proof. by eapply (ws_cmd demo_world0 2 new_engine (CPut k3 [x07])). Qed.

Lemma repeatable_read_witness :
  eng_get k3 (w_store demo_world) new_engine = Ok [x07] /\
  eng_get k3 (w_store demo_world) (begin_transaction idle_store new_engine).1 = Err StNotFound.
Proof.
  split; [vm_compute; reflexivity|].
  destruct (repeatable_read demo_world0 (Some 2) demo_world 1
    (begin_transaction idle_store new_engine).1 demo_world0_reachable demo_world_step)
    as (_ & Hg & _); [discriminate|reflexivity|by eexists|].
  rewrite (Hg k3). vm_compute. reflexivity.
Defined.

Lemma single_writer_witness :
  exists w e, reachable w /\ w_conns w !! 2 = Some e /\ write_slot_ e = true /\
    write_owner_ (w_store w) = Some 2.
Proof.
  pose (r := conn_step 2 CAcquire idle_store new_engine).
  exists (mkWorld r.1.1 (<[2 := r.1.2]> (w_conns demo_world0))), r.1.2.
  assert (Hr : reachable (mkWorld r.1.1 (<[2 := r.1.2]> (w_conns demo_world0)))).
  { apply (reach_step demo_world0 (Some 2)); [apply demo_world0_reachable|].
    by eapply (ws_cmd demo_world0 2 new_engine CAcquire). }
  split_and!; [done|reflexivity|reflexivity|].
  apply (single_writer _ 2 r.1.2 Hr); reflexivity.
Defined.
