(* ===== verification/Wire.v ===== *)
(** * Byte-stream readers and writers of the Raft codecs

    The three binary codecs of [raft/] (proposal payloads, RPC messages,
    snapshots) each carry private [append_*]/[read_*] helpers of the same shape.
    A reader here is a function from the unread bytes (the view from [offset]
    on) to a value and the bytes left, or an error; it is a monad, and the laws
    that make a codec correct ([reader_ok], [decodes]) compose along [bind]. *)

From S2P Require Import Prelude Bytes.
Local Open Scope N_scope.

(** [raft/types.h]: [enum class ErrorCode], [struct Error]. *)
Inductive ErrorCode :=
| EcInvalidArgument | EcNotLeader | EcBusy | EcTimeout | EcInternalError | EcIOError.

#[export] Instance ErrorCode_eq_dec : EqDecision ErrorCode.
Proof. solve_decision. Defined.

Record Error := mkError { code : ErrorCode; message : string }.

Definition error_code_to_string (c : ErrorCode) : string :=
  match c with
  | EcInvalidArgument => "InvalidArgument"
  | EcNotLeader => "NotLeader"
  | EcBusy => "Busy"
  | EcTimeout => "Timeout"
  | EcInternalError => "InternalError"
  | EcIOError => "IOError"
  end.

(** ** The reader monad *)

Definition reader (A : Type) : Type := bytes -> result Error (A * bytes).

#[export] Instance reader_ret : MRet reader := fun A a l => Ok (a, l).
#[export] Instance reader_bind : MBind reader := fun A B k m l =>
  match m l with Ok (a, l') => k a l' | Err e => Err e end.

Definition reader_fail {A} (e : Error) : reader A := fun _ => Err e.

(** An early return unless the test holds. *)
Definition reader_guard (b : bool) (e : Error) : reader unit :=
  if b then mret () else reader_fail e.

(** ** Primitive readers

    [n] bytes, or the error of a truncated input. *)
Definition take_bytes (n : N) (e : Error) : reader bytes := fun l =>
  if N.of_nat (length l) <? n then Err e
  else Ok (take (N.to_nat n) l, drop (N.to_nat n) l).

(** The loop [value = (value << 8) | byte] over [n] bytes. *)
Definition take_be (n : N) (e : Error) : reader N :=
  l ← take_bytes n e; mret (be_get l).

(** A [u64] length, then that many bytes. *)
Definition take_str (e_len e : Error) : reader bytes :=
  n ← take_be 8 e_len; take_bytes n e.

(** The writers' [append_bytes]. *)
Definition be_str (s : bytes) : bytes := be_put 8 (N.of_nat (length s)) ++ s.

(** The bounded loop [for (i = 0; i < count; ++i)] of the decoders. *)
Fixpoint read_times {A} (n : nat) (r : reader A) : reader (list A) :=
  match n with
  | O => mret []
  | S n' => a ← r; l ← read_times n' r; mret (a :: l)
  end.

(** ** Laws *)

Lemma reader_bind_inv {A B} (m : reader A) (k : A -> reader B) l b l' :
  (m ≫= k) l = Ok (b, l') -> exists a l1, m l = Ok (a, l1) /\ k a l1 = Ok (b, l').
Proof.
  unfold mbind, reader_bind. destruct (m l) as [[a l1]|e] eqn:E; [|done]. eauto.
Qed.

Lemma reader_bind_ok {A B} (m : reader A) (k : A -> reader B) l a l1 :
  m l = Ok (a, l1) -> (m ≫= k) l = k a l1.
Proof. intros H. unfold mbind, reader_bind. by rewrite H. Qed.

Lemma reader_bind_err {A B} (m : reader A) (k : A -> reader B) l e :
  m l = Err e -> (m ≫= k) l = Err e.
Proof. intros H. unfold mbind, reader_bind. by rewrite H. Qed.

Lemma reader_guard_ok b e l : b = true -> reader_guard b e l = Ok ((), l).
Proof. by intros ->. Qed.

Lemma reader_guard_inv b e l u l' : reader_guard b e l = Ok (u, l') -> b = true /\ l' = l.
Proof. destruct b; [|done]. by intros [= _ <-]. Qed.

Lemma take_bytes_app s e rest : take_bytes (N.of_nat (length s)) e (s ++ rest) = Ok (s, rest).
Proof.
  unfold take_bytes. rewrite length_app.
  destruct (N.of_nat (length s + length rest) <? N.of_nat (length s)) eqn:E; boolify; [lia|].
  by rewrite Nat2N.id, take_app_exact, drop_app_exact.
Qed.

Lemma take_bytes_inv n e l s rest :
  take_bytes n e l = Ok (s, rest) -> l = s ++ rest /\ N.of_nat (length s) = n.
Proof.
  unfold take_bytes. destruct (N.of_nat (length l) <? n) eqn:E; [done|]. boolify.
  intros [= <- <-]. rewrite take_drop, length_take. split; [done|lia].
Qed.

Lemma take_be_put n (v : N) e rest :
  v < 2 ^ (8 * N.of_nat n) -> take_be (N.of_nat n) e (be_put n v ++ rest) = Ok (v, rest).
Proof.
  intros Hv. unfold take_be. erewrite reader_bind_ok.
  2:{ rewrite <- (length_be_put n v) at 1. apply take_bytes_app. }
  unfold mret, reader_ret. by rewrite be_get_put.
Qed.

Lemma take_be_inv n e l v rest :
  take_be (N.of_nat n) e l = Ok (v, rest) ->
  l = be_put n v ++ rest /\ v < 2 ^ (8 * N.of_nat n).
Proof.
  unfold take_be. intros (s & l1 & Hs & Hr)%reader_bind_inv. injection Hr as <- <-.
  apply take_bytes_inv in Hs as [-> Hlen]. apply Nat2N.inj in Hlen. subst n.
  rewrite be_put_get. split; [done|]. apply be_get_lt.
Qed.

Lemma take_be8_put v e rest : u64 v -> take_be 8 e (be_put 8 v ++ rest) = Ok (v, rest).
Proof. intros Hv. by apply (take_be_put 8). Qed.

Lemma take_be8_inv e l v rest : take_be 8 e l = Ok (v, rest) -> l = be_put 8 v ++ rest /\ u64 v.
Proof. intros H. by apply (take_be_inv 8) in H. Qed.

Lemma take_be4_put v e rest : u32 v -> take_be 4 e (be_put 4 v ++ rest) = Ok (v, rest).
Proof. intros Hv. by apply (take_be_put 4). Qed.

Lemma take_be4_inv e l v rest : take_be 4 e l = Ok (v, rest) -> l = be_put 4 v ++ rest /\ u32 v.
Proof. intros H. by apply (take_be_inv 4) in H. Qed.

(** One byte. *)
Definition byte1 (v : N) : bytes := [byte_of_N v].

Lemma be_put_1 v : be_put 1 v = byte1 v.
Proof.
  rewrite be_put_mod. change (2 ^ (8 * N.of_nat 1)) with 256.
  Transparent be_put. unfold be_put, byte1. Opaque be_put.
  rewrite N.mul_0_r, N.shiftr_0_r, land_255, N.Div0.mod_mod.
  f_equal. unfold byte_of_N. by rewrite N.Div0.mod_mod.
Qed.

Lemma take_be1_put v e rest : v < 256 -> take_be 1 e (byte1 v ++ rest) = Ok (v, rest).
Proof. intros Hv. rewrite <- be_put_1. by apply (take_be_put 1). Qed.

Lemma take_be1_inv e l v rest : take_be 1 e l = Ok (v, rest) -> l = byte1 v ++ rest /\ v < 256.
Proof. intros H. apply (take_be_inv 1) in H. by rewrite <- be_put_1. Qed.

(** [size_t] lengths: a string in memory is shorter than [2^64]. *)
Definition fits (s : bytes) : Prop := u64 (N.of_nat (length s)).

Lemma take_str_put s e1 e2 rest : fits s -> take_str e1 e2 (be_str s ++ rest) = Ok (s, rest).
Proof.
  intros Hs. unfold take_str, be_str. rewrite <- app_assoc.
  erewrite reader_bind_ok by by apply take_be8_put. apply take_bytes_app.
Qed.

Lemma take_str_inv e1 e2 l s rest :
  take_str e1 e2 l = Ok (s, rest) -> l = be_str s ++ rest /\ fits s.
Proof.
  unfold take_str, be_str, fits. intros (n & l1 & Hn & Hs)%reader_bind_inv.
  apply take_be8_inv in Hn as [-> Hn]. apply take_bytes_inv in Hs as [-> Hlen].
  by rewrite Hlen, <- app_assoc.
Qed.

Lemma read_times_put {A} (r : reader A) (enc : A -> bytes) (l : list A) rest :
  (forall a rest, a ∈ l -> r (enc a ++ rest) = Ok (a, rest)) ->
  read_times (length l) r (concat (map enc l) ++ rest) = Ok (l, rest).
Proof.
  revert rest; induction l as [|a l IH]; intros rest Hr; simpl; [done|].
  rewrite <- app_assoc. erewrite reader_bind_ok by (apply Hr; left).
  erewrite reader_bind_ok; [done|]. apply IH. intros a' rest' Hin. apply Hr. by right.
Qed.

Lemma read_times_inv {A} (r : reader A) (enc : A -> bytes) (P : A -> Prop) n l xs rest :
  (forall l a rest, r l = Ok (a, rest) -> l = enc a ++ rest /\ P a) ->
  read_times n r l = Ok (xs, rest) ->
  l = concat (map enc xs) ++ rest /\ Forall P xs /\ length xs = n.
Proof.
  intros Hr. revert l xs; induction n as [|n IH]; intros l xs; simpl.
  { intros [= <- <-]. by split_and!. }
  intros (a & l1 & Ha & (xs' & l2 & Hxs & Hret)%reader_bind_inv)%reader_bind_inv.
  injection Hret as <- <-. apply Hr in Ha as [-> HPa]. apply IH in Hxs as (-> & HP & <-).
  simpl. rewrite <- app_assoc. split_and!; auto.
Qed.

#[global] Opaque take_be take_bytes take_str reader_guard.

(** Driving a reader forwards over an encoded prefix, and inverting a
    successful run. *)
Ltac read_step :=
  lazymatch goal with
  | |- context [(_ ≫= _) ((_ ++ _) ++ _)] => rewrite <- app_assoc
  | _ => erewrite reader_bind_ok by (first
      [ apply take_be8_put; solve [auto]
      | apply take_be4_put; solve [auto]
      | apply take_be1_put; solve [auto | lia]
      | apply take_str_put; solve [auto]
      | apply reader_guard_ok; solve [auto] ])
  end.

Ltac read_inv :=
  repeat match goal with
  | H : (_ ≫= _) _ = Ok _ |- _ =>
      let a := fresh "v" in let l := fresh "l" in
      let Ha := fresh "Hv" in let Hk := fresh "Hk" in
      apply reader_bind_inv in H as (a & l & Ha & Hk)
  | H : take_be 8 _ _ = Ok _ |- _ => apply take_be8_inv in H as [-> ?]
  | H : take_be 4 _ _ = Ok _ |- _ => apply take_be4_inv in H as [-> ?]
  | H : take_be 1 _ _ = Ok _ |- _ => apply take_be1_inv in H as [-> ?]
  | H : take_str _ _ _ = Ok _ |- _ => apply take_str_inv in H as [-> ?]
  | H : reader_guard _ _ _ = Ok _ |- _ => apply reader_guard_inv in H as [? ?]; subst
  | H : mret _ _ = Ok _ |- _ => injection H as <- <-
  end.
