(* ===== verification/RaftTypes.v ===== *)
(** * Data of the Raft layer: [raft/types.h], [raft/transport.h], [raft/state_machine.h]

    Node identities, terms and indices are [uint64_t] in the code and [N]
    here; where a bound matters (the codecs) it is stated with [u64]. *)

From S2P Require Import Prelude Bytes KvTypes Wire.
Local Open Scope N_scope.

(** [struct NodeId] is its [value]. *)
Abbreviation NodeId := N.

Definition kInvalidIndex : N := 0.

Inductive Role := Follower | Candidate | Leader.

#[export] Instance Role_eq_dec : EqDecision Role.
Proof. solve_decision. Defined.

Record LogEntry := mkLogEntry { e_index : N; e_term : N; e_data : bytes }.

#[export] Instance LogEntry_eq_dec : EqDecision LogEntry.
Proof. solve_decision. Defined.

Record HardState := mkHardState { hs_term : N; hs_voted_for : option NodeId }.

Record NodeConfig := mkNodeConfig {
  node_id : NodeId;
  peers : list NodeId;
  election_timeout_ms : N;
  heartbeat_interval_ms : N;
  group_range : KeyRange;
  snapshot_entries_threshold : N;
  group_id : N }.

(** ** RPC messages *)

Record RequestVoteRequest := mkRequestVoteRequest {
  rv_term : N; rv_candidate_id : NodeId; rv_last_log_index : N; rv_last_log_term : N }.

Record RequestVoteResponse := mkRequestVoteResponse { rvr_term : N; vote_granted : bool }.

Record AppendEntriesRequest := mkAppendEntriesRequest {
  ae_term : N; ae_leader_id : NodeId; prev_log_index : N; prev_log_term : N;
  ae_entries : list LogEntry; leader_commit : N; ae_round : N }.

Record AppendEntriesResponse := mkAppendEntriesResponse {
  aer_term : N; aer_success : bool; aer_match_index : N; aer_round : N;
  hint_last_index : N }.

Record InstallSnapshotRequest := mkInstallSnapshotRequest {
  is_term : N; is_leader_id : NodeId; is_last_included_index : N;
  is_last_included_term : N; is_offset : N; is_done : bool; is_data : bytes }.

Record InstallSnapshotResponse := mkInstallSnapshotResponse {
  isr_term : N; isr_success : bool }.

Inductive Message :=
| MsgRequestVote (m : RequestVoteRequest)
| MsgRequestVoteResponse (m : RequestVoteResponse)
| MsgAppendEntries (m : AppendEntriesRequest)
| MsgAppendEntriesResponse (m : AppendEntriesResponse)
| MsgInstallSnapshot (m : InstallSnapshotRequest)
| MsgInstallSnapshotResponse (m : InstallSnapshotResponse).

(** [class StateMachine] ([raft/state_machine.h]) *)
Class StateMachine (SM : Type) := {
  sm_apply : LogEntry -> SM -> SM * result Error bytes;
  sm_snapshot : KeyRange -> SM -> result Error bytes;
  sm_restore : KeyRange -> bytes -> SM -> SM * result Error unit }.
