(* ===== verification/MessageCodec.v ===== *)
(** * The wire format of the Raft RPCs: [raft/message_codec.{h,cpp}]

    [encode_message]/[decode_message] are inverse to each other on the
    messages whose fields fit their width; [frame_payload]/[FrameDecoder]
    cut a byte stream back into the frames that were written to it, however
    the stream is chopped up. *)

From stdpp Require Import pretty.
From S2P Require Import Prelude Bytes Wire RaftTypes.
Local Open Scope N_scope.

Definition kMessageVersion : N := 3.
Definition kMaxFrameBytes : N := 64 * 1024 * 1024.

Definition truncated (what : string) : Error :=
  mkError EcInvalidArgument ("truncated raft message while reading " ++ what).
Definition malformed (what : string) : Error :=
  mkError EcInvalidArgument ("malformed raft message: " ++ what).

Definition read_u8 : reader N := take_be 1 (truncated "u8").
Definition read_u64 : reader N := take_be 8 (truncated "u64").
Definition read_u32 : reader N := take_be 4 (truncated "u32").
Definition read_bytes : reader bytes := take_str (truncated "u64") (truncated "byte string").

Definition read_bool : reader bool :=
  value ← read_u8;
  _ ← reader_guard (value <=? 1) (malformed "boolean must be 0 or 1");
  mret (value =? 1).

Definition put_bool (b : bool) : bytes := byte1 (if b then 1 else 0).

Definition put_entry (entry : LogEntry) : bytes :=
  be_put 8 (e_index entry) ++ be_put 8 (e_term entry) ++ be_str (e_data entry).

(** [enum class MessageType] *)
Definition message_type (m : Message) : N :=
  match m with
  | MsgRequestVote _ => 1
  | MsgRequestVoteResponse _ => 2
  | MsgAppendEntries _ => 3
  | MsgAppendEntriesResponse _ => 4
  | MsgInstallSnapshot _ => 5
  | MsgInstallSnapshotResponse _ => 6
  end.

(** The type-specific fields, in the order [std::visit] writes them. *)
Definition encode_fields (m : Message) : bytes :=
  match m with
  | MsgRequestVote r =>
      be_put 8 (rv_term r) ++ be_put 8 (rv_candidate_id r) ++
      be_put 8 (rv_last_log_index r) ++ be_put 8 (rv_last_log_term r)
  | MsgRequestVoteResponse r => be_put 8 (rvr_term r) ++ put_bool (vote_granted r)
  | MsgAppendEntries r =>
      be_put 8 (ae_term r) ++ be_put 8 (ae_leader_id r) ++ be_put 8 (prev_log_index r) ++
      be_put 8 (prev_log_term r) ++ be_put 8 (leader_commit r) ++ be_put 8 (ae_round r) ++
      be_put 8 (N.of_nat (length (ae_entries r))) ++ concat (map put_entry (ae_entries r))
  | MsgAppendEntriesResponse r =>
      be_put 8 (aer_term r) ++ put_bool (aer_success r) ++ be_put 8 (aer_match_index r) ++
      be_put 8 (aer_round r) ++ be_put 8 (hint_last_index r)
  | MsgInstallSnapshot r =>
      be_put 8 (is_term r) ++ be_put 8 (is_leader_id r) ++
      be_put 8 (is_last_included_index r) ++ be_put 8 (is_last_included_term r) ++
      be_put 8 (is_offset r) ++ put_bool (is_done r) ++ be_str (is_data r)
  | MsgInstallSnapshotResponse r => be_put 8 (isr_term r) ++ put_bool (isr_success r)
  end.

Definition encode_message (group_id : N) (m : Message) : bytes :=
  byte1 kMessageVersion ++ be_put 8 group_id ++ byte1 (message_type m) ++ encode_fields m.

(** The decoder reads every field of a case and reports one error for the
    case when any of the reads failed. *)
Definition fields_of {A} (what : string) (r : reader A) : reader A := fun l =>
  match r l with Ok x => Ok x | Err _ => Err (truncated what) end.

Definition read_entry : reader LogEntry :=
  fields_of "AppendEntriesRequest entry"
    (index ← read_u64; term ← read_u64; data ← read_bytes;
     mret (mkLogEntry index term data)).

Definition decode_fields (payload_size type : N) : reader Message :=
  if type =? 1 then
    fields_of "RequestVoteRequest"
      (term ← read_u64; candidate ← read_u64; last_index ← read_u64; last_term ← read_u64;
       mret (MsgRequestVote (mkRequestVoteRequest term candidate last_index last_term)))
  else if type =? 2 then
    fields_of "RequestVoteResponse"
      (term ← read_u64; granted ← read_bool;
       mret (MsgRequestVoteResponse (mkRequestVoteResponse term granted)))
  else if type =? 3 then
    '(term, leader, prev_index, prev_term, commit, round, count) ←
      fields_of "AppendEntriesRequest"
        (term ← read_u64; leader ← read_u64; prev_index ← read_u64; prev_term ← read_u64;
         commit ← read_u64; round ← read_u64; count ← read_u64;
         mret (term, leader, prev_index, prev_term, commit, round, count));
    _ ← reader_guard (count <=? payload_size) (malformed "entry count exceeds payload size");
    entries ← read_times (N.to_nat count) read_entry;
    mret (MsgAppendEntries
      (mkAppendEntriesRequest term leader prev_index prev_term entries commit round))
  else if type =? 4 then
    fields_of "AppendEntriesResponse"
      (term ← read_u64; success ← read_bool; match_index ← read_u64; round ← read_u64;
       hint ← read_u64;
       mret (MsgAppendEntriesResponse
         (mkAppendEntriesResponse term success match_index round hint)))
  else if type =? 5 then
    fields_of "InstallSnapshotRequest"
      (term ← read_u64; leader ← read_u64; last_index ← read_u64; last_term ← read_u64;
       chunk_offset ← read_u64; done_ ← read_bool; data ← read_bytes;
       mret (MsgInstallSnapshot
         (mkInstallSnapshotRequest term leader last_index last_term chunk_offset done_ data)))
  else if type =? 6 then
    fields_of "InstallSnapshotResponse"
      (term ← read_u64; success ← read_bool;
       mret (MsgInstallSnapshotResponse (mkInstallSnapshotResponse term success)))
  else reader_fail (malformed ("unknown message type " ++ pretty type)).

(** [struct DecodedRaftMessage] is the pair of the group and the message. *)
Definition decode_message (payload : bytes) : result Error (N * Message) :=
  match
    (version ← read_u8;
     _ ← reader_guard (version =? kMessageVersion)
           (malformed ("unsupported version " ++ pretty version));
     group_id ← read_u64;
     type ← read_u8;
     m ← decode_fields (N.of_nat (length payload)) type;
     mret (group_id, m)) payload
  with
  | Ok (gm, []) => Ok gm
  | Ok (_, _ :: _) => Err (malformed "trailing bytes")
  | Err e => Err e
  end.

(** ** Frames *)

Definition frame_payload (payload : bytes) : bytes :=
  be_put 4 (N.of_nat (length payload) mod two32) ++ payload.

Definition encode_frame (group_id : N) (m : Message) : bytes :=
  frame_payload (encode_message group_id m).

Definition unframe_payload (frame : bytes) : result Error bytes :=
  match read_u32 frame with
  | Err e => Err e
  | Ok (size, rest) =>
      if negb (N.of_nat (length rest) =? size)
      then Err (malformed ("frame size " ++ pretty size ++ " does not match " ++
                           pretty (N.of_nat (length rest)) ++ " bytes of payload"))
      else Ok rest
  end.

Definition decode_frame (frame : bytes) : result Error (N * Message) :=
  let* payload := unframe_payload frame in decode_message payload.

(** [class FrameDecoder]: the bytes read so far and how many are consumed.
    [next] views the buffer from [consumed_] on, which is only defined while
    [consumed_] does not exceed the size of the buffer ([fd_wf]). *)
Record FrameDecoder := mkFrameDecoder { buffer_ : bytes; consumed_ : nat }.

Definition new_decoder : FrameDecoder := mkFrameDecoder [] 0.
Definition fd_append (b : bytes) (d : FrameDecoder) : FrameDecoder :=
  mkFrameDecoder (buffer_ d ++ b) (consumed_ d).
Definition buffered_bytes (d : FrameDecoder) : nat := length (buffer_ d).
(** [clear] empties the buffer; [consumed_] keeps its value. *)
Definition fd_clear (d : FrameDecoder) : FrameDecoder := mkFrameDecoder [] (consumed_ d).

Definition fd_wf (d : FrameDecoder) : Prop := (consumed_ d <= length (buffer_ d))%nat.

(** [next]: a complete frame's payload, nothing yet, or a protocol error. *)
Definition fd_next (d : FrameDecoder) : result Error (option bytes * FrameDecoder) :=
  let pending := drop (consumed_ d) (buffer_ d) in
  if N.of_nat (length pending) <? 4 then Ok (None, d)
  else match read_u32 pending with
  | Err e => Err e
  | Ok (size, rest) =>
      if kMaxFrameBytes <? size
      then Err (malformed ("frame size " ++ pretty size ++ " exceeds the limit"))
      else if N.of_nat (length rest) <? size then Ok (None, d)
      else
        let out := take (N.to_nat size) rest in
        let consumed := (consumed_ d + (4 + N.to_nat size))%nat in
        if (consumed =? length (buffer_ d))%nat
        then Ok (Some out, mkFrameDecoder [] 0)
        else Ok (Some out, mkFrameDecoder (buffer_ d) consumed)
  end.

(** ** The message format is a bijection *)

Definition entry_wf (e : LogEntry) : Prop :=
  u64 (e_index e) /\ u64 (e_term e) /\ fits (e_data e).

(** Every field fits its width. *)
Definition message_wf (m : Message) : Prop :=
  match m with
  | MsgRequestVote r =>
      u64 (rv_term r) /\ u64 (rv_candidate_id r) /\ u64 (rv_last_log_index r) /\
      u64 (rv_last_log_term r)
  | MsgRequestVoteResponse r => u64 (rvr_term r)
  | MsgAppendEntries r =>
      u64 (ae_term r) /\ u64 (ae_leader_id r) /\ u64 (prev_log_index r) /\
      u64 (prev_log_term r) /\ u64 (leader_commit r) /\ u64 (ae_round r) /\
      u64 (N.of_nat (length (ae_entries r))) /\ Forall entry_wf (ae_entries r)
  | MsgAppendEntriesResponse r =>
      u64 (aer_term r) /\ u64 (aer_match_index r) /\ u64 (aer_round r) /\
      u64 (hint_last_index r)
  | MsgInstallSnapshot r =>
      u64 (is_term r) /\ u64 (is_leader_id r) /\ u64 (is_last_included_index r) /\
      u64 (is_last_included_term r) /\ u64 (is_offset r) /\ fits (is_data r)
  | MsgInstallSnapshotResponse r => u64 (isr_term r)
  end.

Lemma read_bool_put b rest : read_bool (put_bool b ++ rest) = Ok (b, rest).
Proof.
  unfold read_bool, put_bool, read_u8. destruct b; do 2 read_step; reflexivity.
Qed.

Lemma read_bool_inv l b rest : read_bool l = Ok (b, rest) -> l = put_bool b ++ rest.
Proof.
  unfold read_bool, read_u8, put_bool. intros H. read_inv. boolify.
  destruct (v =? 1) eqn:E; boolify; [by subst|]. by assert (v = 0) as -> by lia.
Qed.

Lemma fields_of_ok {A} what (r : reader A) l x : r l = Ok x -> fields_of what r l = Ok x.
Proof. intros H. unfold fields_of. by rewrite H. Qed.

Lemma fields_of_inv {A} what (r : reader A) l x : fields_of what r l = Ok x -> r l = Ok x.
Proof. unfold fields_of. destruct (r l); [by intros [= ->]|done]. Qed.

Ltac wire_step :=
  first [ read_step | erewrite reader_bind_ok by apply read_bool_put ].

Ltac wire_inv :=
  repeat first
  [ progress read_inv
  | match goal with
    | H : read_bool _ = Ok _ |- _ => apply read_bool_inv in H as ->
    | H : fields_of _ _ _ = Ok _ |- _ => apply fields_of_inv in H
    end ].

Lemma read_entry_put e rest : entry_wf e -> read_entry (put_entry e ++ rest) = Ok (e, rest).
Proof.
  intros (Hi & Ht & Hd). destruct e as [i t d]. unfold read_entry, put_entry, read_u64, read_bytes.
  simpl in *. apply fields_of_ok. repeat wire_step. done.
Qed.

Lemma read_entry_inv l e rest :
  read_entry l = Ok (e, rest) -> l = put_entry e ++ rest /\ entry_wf e.
Proof.
  unfold read_entry, read_u64, read_bytes. intros H. wire_inv.
  unfold put_entry, entry_wf. simpl. by rewrite <- !app_assoc.
Qed.

Lemma entries_size l : (length l <= length (concat (map put_entry l)))%nat.
Proof.
  induction l as [|e l IH]; simpl; [done|].
  rewrite length_app. unfold put_entry at 1. rewrite length_app, length_be_put. lia.
Qed.

Lemma decode_fields_put size m rest :
  message_wf m -> N.of_nat (length (encode_fields m)) <= size ->
  decode_fields size (message_type m) (encode_fields m ++ rest) = Ok (m, rest).
Proof.
  intros Hwf Hsize. unfold decode_fields.
  destruct m as [r|r|r|r|r|r]; destruct r; cbn [message_type N.eqb Pos.eqb];
    cbn in Hwf; destruct_and?; unfold encode_fields in *; simpl in *;
    unfold read_u64, read_bytes.
  1,2,4,5,6: apply fields_of_ok; repeat wire_step; reflexivity.
  assert (Hcount : N.of_nat (length ae_entries) <= size).
  { pose proof (entries_size ae_entries). rewrite !length_app in Hsize. lia. }
  erewrite reader_bind_ok by (apply fields_of_ok; repeat wire_step; reflexivity).
  simpl. erewrite reader_bind_ok by (apply reader_guard_ok; by apply N.leb_le).
  rewrite Nat2N.id. erewrite reader_bind_ok; [done|].
  apply read_times_put. intros e rest' He. apply read_entry_put.
  rewrite Forall_forall in *. auto.
Qed.

Lemma decode_fields_inv size type l m rest :
  decode_fields size type l = Ok (m, rest) ->
  l = encode_fields m ++ rest /\ message_wf m /\ message_type m = type.
Proof.
  unfold decode_fields, read_u64, read_bytes.
  repeat case_match; boolify; subst; intros H'; try done; wire_inv;
    try (simpl; rewrite <- ?app_assoc; by split_and!).
  repeat case_match. wire_inv. simplify_eq.
  match goal with H : read_times _ _ _ = Ok _ |- _ =>
    apply (read_times_inv _ put_entry entry_wf) in H as (-> & Hwf & Hlen); [|apply read_entry_inv] end.
  simpl. rewrite Hlen, N2Nat.id, <- !app_assoc. by split_and!.
Qed.

Lemma decode_message_inv payload group_id m :
  decode_message payload = Ok (group_id, m) ->
  payload = encode_message group_id m /\ u64 group_id /\ message_wf m.
Proof.
  unfold decode_message, read_u8, read_u64. intros H.
  repeat case_match; try done. injection H as ->. subst. wire_inv.
  match goal with H : decode_fields _ _ _ = Ok _ |- _ =>
    apply decode_fields_inv in H as (-> & Hwf & <-) end.
  boolify. subst. unfold encode_message. by rewrite app_nil_r.
Qed.

Lemma decode_message_encode group_id m :
  u64 group_id -> message_wf m -> decode_message (encode_message group_id m) = Ok (group_id, m).
Proof.
  intros Hg Hwf. unfold decode_message, read_u8, read_u64, encode_message.
  set (size := N.of_nat (length (byte1 kMessageVersion ++ _))).
  assert (Hsize : N.of_nat (length (encode_fields m)) <= size).
  { unfold size. rewrite !length_app. lia. }
  assert (Hmt : message_type m < 256) by (destruct m; simpl; lia).
  assert (Hv : kMessageVersion < 256) by (unfold kMessageVersion; lia).
  clearbody size. do 4 read_step.
  rewrite <- (app_nil_r (encode_fields m)).
  erewrite reader_bind_ok by by apply decode_fields_put. done.
Qed.

(** C25: the wire format of the RPCs is a bijection. [decode_message] accepts
    exactly the encodings of messages whose fields fit their width, and gives
    back the group and the message that were encoded: nothing is lost, nothing
    but canonical encodings is accepted (no trailing bytes, no other version,
    no boolean byte above 1). *)
Theorem decode_message_spec payload group_id m :
  decode_message payload = Ok (group_id, m) <->
  payload = encode_message group_id m /\ u64 group_id /\ message_wf m.
Proof.
  split; [apply decode_message_inv|]. intros (-> & Hg & Hm). by apply decode_message_encode.
Qed.

Definition sample_append : Message :=
  MsgAppendEntries (mkAppendEntriesRequest 7 2 10 6
    [mkLogEntry 11 7 [x00; xff]; mkLogEntry 12 7 []] 9 3).

Lemma decode_message_spec_witness :
  decode_message (encode_message 5 sample_append) = Ok (5, sample_append).
Proof.
  apply (decode_message_spec (encode_message 5 sample_append) 5 sample_append).
  split; [reflexivity|]. split; [reflexivity|].
  repeat (first [split | constructor]); reflexivity.
Defined.

(** ** Streams of frames *)

(** The inner loop of [RaftTcpTransport::handle_inbound]: pop frames until
    the decoder wants more bytes. Each frame takes at least its 4 byte prefix
    out of the buffer, so [fuel] above the buffer size is never used up. *)
Fixpoint fd_drain (fuel : nat) (d : FrameDecoder) : result Error (list bytes * FrameDecoder) :=
  match fuel with
  | O => Ok ([], d)
  | S fuel' =>
      match fd_next d with
      | Err e => Err e
      | Ok (None, d') => Ok ([], d')
      | Ok (Some p, d') => let* (ps, d'') := fd_drain fuel' d' in Ok (p :: ps, d'')
      end
  end.

(** One [read_some], then the inner loop; and the loop over all the reads. *)
Definition fd_feed (chunk : bytes) (d : FrameDecoder) : result Error (list bytes * FrameDecoder) :=
  let d' := fd_append chunk d in fd_drain (S (buffered_bytes d')) d'.

Fixpoint fd_feed_all (chunks : list bytes) (d : FrameDecoder)
    : result Error (list bytes * FrameDecoder) :=
  match chunks with
  | [] => Ok ([], d)
  | c :: rest =>
      let* (ps, d') := fd_feed c d in
      let* (qs, d'') := fd_feed_all rest d' in Ok (ps ++ qs, d'')
  end.

Definition pending (d : FrameDecoder) : bytes := drop (consumed_ d) (buffer_ d).

(** The decoder's invariant: unread bytes remain, or it is reset. *)
Definition fd_inv (d : FrameDecoder) : Prop :=
  (consumed_ d < length (buffer_ d))%nat \/ d = new_decoder.

Lemma fd_inv_wf d : fd_inv d -> fd_wf d.
Proof. intros [?| ->]; unfold fd_wf; simpl; lia. Qed.

Lemma fd_inv_pending_nil d : fd_inv d -> pending d = [] -> d = new_decoder.
Proof.
  intros [Hlt| ->] Hp; [|done]. exfalso. apply (f_equal length) in Hp.
  unfold pending in Hp. rewrite length_drop in Hp. simpl in Hp. lia.
Qed.

Lemma fd_append_inv b d : fd_inv d -> fd_inv (fd_append b d).
Proof.
  intros [Hlt| ->]; unfold fd_append, fd_inv; simpl.
  - left. rewrite length_app. lia.
  - destruct b; [by right|left; simpl; lia].
Qed.

Lemma fd_append_pending b d : fd_inv d -> pending (fd_append b d) = pending d ++ b.
Proof.
  intros Hinv%fd_inv_wf. unfold pending, fd_append, fd_wf in *. simpl.
  by rewrite drop_app_le.
Qed.

Lemma length_pending_le d : (length (pending d) <= buffered_bytes d)%nat.
Proof. unfold pending, buffered_bytes. rewrite length_drop. lia. Qed.

(** The size of the largest frame. *)
Definition frame_ok (p : bytes) : Prop := N.of_nat (length p) <= kMaxFrameBytes.

Lemma frame_ok_u32 p : frame_ok p -> u32 (N.of_nat (length p)).
Proof. unfold frame_ok, u32, kMaxFrameBytes, two32. lia. Qed.

Lemma length_frame p : length (frame_payload p) = (4 + length p)%nat.
Proof. unfold frame_payload. by rewrite length_app, length_be_put. Qed.

Lemma frame_payload_ok p : frame_ok p ->
  frame_payload p = be_put 4 (N.of_nat (length p)) ++ p.
Proof. intros Hp. unfold frame_payload. by rewrite N.mod_small by (by apply frame_ok_u32). Qed.

Lemma fd_next_frame d p rest :
  fd_inv d -> frame_ok p -> pending d = frame_payload p ++ rest ->
  exists d', fd_next d = Ok (Some p, d') /\ fd_inv d' /\ pending d' = rest.
Proof.
  intros Hinv Hp Hd. unfold fd_next. fold (pending d). rewrite Hd.
  rewrite length_app, length_frame.
  destruct (_ <? 4) eqn:E; boolify; [lia|clear E].
  rewrite frame_payload_ok, <- app_assoc by done. unfold read_u32.
  rewrite take_be4_put by (by apply frame_ok_u32).
  destruct (kMaxFrameBytes <? _) eqn:E; boolify; [unfold frame_ok in Hp; lia|clear E].
  rewrite length_app. destruct (_ <? _) eqn:E; boolify; [lia|clear E].
  rewrite Nat2N.id, take_app_exact.
  assert (Hlen : (length (buffer_ d) = consumed_ d + (4 + length p) + length rest)%nat).
  { pose proof (fd_inv_wf d Hinv) as Hw. unfold fd_wf in Hw. apply (f_equal length) in Hd.
    unfold pending in Hd. rewrite length_drop, length_app, length_frame in Hd. lia. }
  destruct (_ =? _)%nat eqn:E; boolify; eexists; (split; [done|]).
  - split; [by right|]. destruct rest; [done|simpl in Hlen; lia].
  - split; [left; simpl; lia|]. unfold pending. cbn [consumed_ buffer_].
    rewrite <- drop_drop. fold (pending d). rewrite Hd, <- length_frame. apply drop_app_exact.
Qed.

Lemma fd_next_partial d p tail :
  frame_ok p -> pending d ++ tail = frame_payload p -> tail <> [] -> fd_next d = Ok (None, d).
Proof.
  intros Hp Hd Ht. unfold fd_next. fold (pending d).
  destruct (_ <? 4) eqn:E; boolify; [done|].
  rewrite frame_payload_ok in Hd by done.
  assert (Hpend : pending d = be_put 4 (N.of_nat (length p)) ++ drop 4 (pending d)).
  { rewrite <- (take_drop 4 (pending d)) at 1. f_equal.
    apply (f_equal (take 4)) in Hd. rewrite take_app_le in Hd by lia. rewrite Hd.
    rewrite <- (length_be_put 4 (N.of_nat (length p))) at 1. apply take_app_exact. }
  rewrite Hpend. unfold read_u32. rewrite take_be4_put by (by apply frame_ok_u32).
  destruct (kMaxFrameBytes <? _) eqn:E2; boolify; [unfold frame_ok in Hp; lia|].
  destruct (N.of_nat (length (drop 4 (pending d))) <? _) eqn:E3; [done|]. boolify. exfalso.
  apply (f_equal length) in Hd. rewrite !length_app, length_be_put in Hd.
  rewrite length_drop in E3. destruct tail; [done|]. simpl in Hd. lia.
Qed.

(** Draining a decoder whose pending bytes begin a stream of frames. *)
Lemma fd_drain_frames fuel d ps tail :
  fd_inv d -> Forall frame_ok ps -> pending d ++ tail = concat (map frame_payload ps) ->
  (length (pending d) < fuel)%nat ->
  exists ps1 ps2 d', fd_drain fuel d = Ok (ps1, d') /\ ps = ps1 ++ ps2 /\ fd_inv d' /\
    pending d' ++ tail = concat (map frame_payload ps2) /\ (tail = [] -> ps2 = []).
Proof.
  revert d ps; induction fuel as [|fuel IH]; intros d ps Hinv Hps Hd Hfuel; [lia|].
  destruct ps as [|p ps]; simpl in Hd.
  { apply app_eq_nil in Hd as [Hd ->]. exists [], [], d.
    simpl. unfold fd_next. fold (pending d). by rewrite Hd. }
  inversion Hps as [|? ? Hp Hps']; subst.
  destruct (decide (length (frame_payload p) <= length (pending d))%nat) as [Hle|Hgt].
  - assert (Hpre : pending d = frame_payload p ++ drop (length (frame_payload p)) (pending d)).
    { rewrite <- (take_drop (length (frame_payload p)) (pending d)) at 1. f_equal.
      apply (f_equal (take (length (frame_payload p)))) in Hd.
      by rewrite take_app_le, take_app_exact in Hd by lia. }
    destruct (fd_next_frame d p _ Hinv Hp Hpre) as (d1 & Hn & Hinv1 & Hp1).
    rewrite Hpre, <- app_assoc in Hd. apply app_inv_head in Hd. rewrite <- Hp1 in Hd.
    destruct (IH d1 ps Hinv1 Hps' Hd) as (ps1 & ps2 & d' & Hdr & -> & Hrest).
    { rewrite Hp1, length_drop, length_frame. rewrite length_frame in Hle. lia. }
    exists (p :: ps1), ps2, d'. simpl. rewrite Hn, Hdr. done.
  - assert (Htail : exists t, frame_payload p = pending d ++ t /\ t <> []).
    { exists (drop (length (pending d)) (frame_payload p)). split.
      - rewrite <- (take_drop (length (pending d)) (frame_payload p)) at 1. f_equal.
        apply (f_equal (take (length (pending d)))) in Hd.
        rewrite take_app_exact, take_app_le in Hd by lia. done.
      - intros Hnil. apply (f_equal length) in Hnil. rewrite length_drop in Hnil. simpl in Hnil. lia. }
    destruct Htail as (t & Ht & Htne).
    exists [], (p :: ps), d. simpl. rewrite (fd_next_partial d p t) by done.
    split_and!; try done. intros ->. rewrite app_nil_r in Hd. exfalso.
    apply (f_equal length) in Hd. rewrite length_app in Hd. lia.
Qed.

Lemma fd_feed_all_frames chunks d ps :
  fd_inv d -> Forall frame_ok ps ->
  pending d ++ concat chunks = concat (map frame_payload ps) ->
  (chunks = [] -> ps = []) ->
  exists d', fd_feed_all chunks d = Ok (ps, d') /\ fd_inv d' /\ pending d' = [].
Proof.
  revert d ps; induction chunks as [|c chunks IH]; intros d ps Hinv Hps Hd Hnil.
  { rewrite (Hnil eq_refl) in *. simpl in Hd. apply app_eq_nil in Hd as [Hd _]. by exists d. }
  cbn [concat] in Hd. rewrite app_assoc, <- fd_append_pending in Hd by done.
  destruct (fd_drain_frames (S (buffered_bytes (fd_append c d))) _ ps _
    (fd_append_inv c d Hinv) Hps Hd)
    as (ps1 & ps2 & d1 & Hdr & -> & Hinv1 & Hd1 & Hemp).
  { pose proof (length_pending_le (fd_append c d)). lia. }
  apply Forall_app in Hps as [_ Hps2].
  destruct (IH d1 ps2 Hinv1 Hps2 Hd1) as (d' & Hf & Hd').
  { intros ->. by apply Hemp. }
  exists d'. split; [|done]. cbn [fd_feed_all]. unfold fd_feed. rewrite Hdr. simpl. by rewrite Hf.
Qed.

(** Framing survives TCP. When payloads of at most [kMaxFrameBytes] are
    framed and written to a stream, and the stream arrives in chunks of any
    sizes (split inside a length prefix, several frames at once, empty reads),
    the decoder pops exactly those payloads in order, reports no error, and
    ends with an empty buffer. *)
Theorem frame_stream_roundtrip chunks ps :
  Forall frame_ok ps -> concat chunks = concat (map frame_payload ps) ->
  fd_feed_all chunks new_decoder = Ok (ps, new_decoder).
Proof.
  intros Hps Hc.
  destruct (fd_feed_all_frames chunks new_decoder ps) as (d' & -> & Hinv & Hp); try done.
  - by right.
  - intros ->. destruct ps as [|p ps]; [done|]. exfalso. apply (f_equal length) in Hc.
    simpl in Hc. rewrite length_app, length_frame in Hc. lia.
  - by rewrite (fd_inv_pending_nil d').
Qed.

Lemma frame_stream_roundtrip_witness :
  fd_feed_all [[x00]; [x00; x00; x02; x61]; []; [x62; x00; x00; x00; x00; x00];
               [x00; x00; x01; x63]] new_decoder
  = Ok ([[x61; x62]; []; [x63]], new_decoder).
Proof.
  apply frame_stream_roundtrip; [|vm_compute; reflexivity].
  repeat constructor; discriminate.
Defined.

(** One complete frame decodes to the message it was made from, and the
    frame's size prefix is checked against the bytes that follow. *)
Theorem decode_frame_encode group_id m :
  u64 group_id -> message_wf m -> u32 (N.of_nat (length (encode_message group_id m))) ->
  decode_frame (encode_frame group_id m) = Ok (group_id, m) /\
  (forall extra, extra <> [] -> is_ok (decode_frame (encode_frame group_id m ++ extra)) = false).
Proof.
  intros Hg Hm Hlen. unfold decode_frame, encode_frame, unframe_payload, frame_payload, read_u32.
  rewrite N.mod_small by done. split.
  - rewrite take_be4_put by done. rewrite N.eqb_refl. simpl.
    by apply decode_message_encode.
  - intros extra Hne. rewrite <- app_assoc, take_be4_put by done.
    rewrite length_app. destruct (_ =? _) eqn:E; [|done]. boolify.
    destruct extra; [done|simpl in E; lia].
Qed.

Lemma decode_frame_encode_witness :
  decode_frame (encode_frame 5 sample_append) = Ok (5, sample_append).
Proof.
  apply (decode_frame_encode 5 sample_append); [reflexivity| |vm_compute; reflexivity].
  repeat (first [split | constructor]); reflexivity.
Defined.

(** [clear] forgets to reset [consumed_]: after it the view [next] builds has a
    negative size. No caller in the tree uses [clear]. *)
Lemma fd_clear_breaks_invariant :
  exists d out d', fd_next d = Ok (Some out, d') /\ fd_wf d' /\ ~ fd_wf (fd_clear d').
Proof.
  exists (mkFrameDecoder [x00; x00; x00; x01; x61; x00] 0), [x61].
  eexists. split; [vm_compute; reflexivity|]. unfold fd_wf. simpl. lia.
Qed.
