(* ===== verification/ProposalPayload.v ===== *)
(** * Proposals: [raft/proposal_payload.{h,cpp}]

    The data field of a log entry: a client id, a request id and the write
    batch. Decoding an encoded proposal gives back the batch's operations (in
    the form the [WriteBatch] builders produce), and no truncation or
    extension of an encoding is accepted. *)

From S2P Require Import Prelude Bytes KvTypes MockStore Wire RaftTypes.
Local Open Scope N_scope.

Record ProposalPayload := mkProposalPayload {
  client_id : N; request_id : N; batch : WriteBatch }.

Definition kMagic : bytes := bytes_of_string "SQRA".
Definition kPayloadVersion : N := 1.
Definition kFixedHeaderSize : N := 4 + 4 + 8 * 3.

Definition payload_error (m : string) : Error := mkError EcInvalidArgument m.
Definition truncated_payload : Error := payload_error "truncated proposal payload".

(** [class Decoder] *)
Definition dec_u8 : reader N := take_be 1 truncated_payload.
Definition dec_u32 : reader N := take_be 4 truncated_payload.
Definition dec_u64 : reader N := take_be 8 truncated_payload.
Definition dec_bytes : reader bytes := take_str truncated_payload truncated_payload.

Definition op_tag (t : OpType) : N :=
  match t with kPut => 1 | kRemove => 2 | kRemoveRange => 3 end.

Definition encode_op (o : Op) : bytes :=
  byte1 (op_tag (op_type o)) ++ be_str (pkey (op_data o)) ++
  match pvalue (op_data o) with
  | Some v => byte1 1 ++ be_str v
  | None => byte1 0
  end ++ be_str (range_end o).

Definition encode_proposal_payload (p : ProposalPayload) : bytes :=
  kMagic ++ be_put 4 kPayloadVersion ++ be_put 8 (client_id p) ++ be_put 8 (request_id p) ++
  be_put 8 (N.of_nat (length (ops (batch p)))) ++ concat (map encode_op (ops (batch p))).

Definition dec_value (has_value : N) : reader (option ByteValue) :=
  if has_value =? 1 then v ← dec_bytes; mret (Some v) else mret None.

(** One turn of the decoding loop: the operation appended to the batch. *)
Definition decode_op : reader Op :=
  type ← dec_u8;
  key ← dec_bytes;
  has_value ← dec_u8;
  _ ← reader_guard ((has_value =? 0) || (has_value =? 1))
        (payload_error "invalid value presence flag");
  value ← dec_value has_value;
  range_end ← dec_bytes;
  if type =? 1 then
    match value with
    | None => reader_fail (payload_error "put operation has no value")
    | Some v => mret (mkOp kPut (mkKVPair key (Some v)) [])
    end
  else if type =? 2 then mret (mkOp kRemove (mkKVPair key None) [])
  else if type =? 3 then
    if bytes_leb range_end key
    then reader_fail (payload_error "invalid remove_range bounds")
    else mret (mkOp kRemoveRange (mkKVPair key None) range_end)
  else reader_fail (payload_error "unknown proposal operation type").

Definition decode_body (data_size : N) : reader ProposalPayload :=
  version ← dec_u32;
  _ ← reader_guard (version =? kPayloadVersion)
        (payload_error "unsupported proposal payload version");
  client_id ← dec_u64;
  request_id ← dec_u64;
  op_count ← dec_u64;
  _ ← reader_guard (op_count <=? data_size) (payload_error "invalid proposal payload op count");
  l ← read_times (N.to_nat op_count) decode_op;
  mret (mkProposalPayload client_id request_id (fold_left (fun b o => batch_push o b) l empty_batch)).

Definition decode_proposal_payload (data : bytes) : result Error ProposalPayload :=
  if (N.of_nat (length data) <? kFixedHeaderSize) || negb (bytes_eqb (take 4 data) kMagic)
  then Err (payload_error "invalid proposal payload magic")
  else match decode_body (N.of_nat (length data)) (drop 4 data) with
       | Ok (p, []) => Ok p
       | Ok (_, _ :: _) => Err (payload_error "trailing bytes in proposal payload")
       | Err e => Err e
       end.

(** ** Properties *)

(** The operations the [WriteBatch] builders make, with fields that fit. *)
Definition op_built (o : Op) : Prop :=
  fits (pkey (op_data o)) /\ fits (range_end o) /\
  match op_type o with
  | kPut => exists v, pvalue (op_data o) = Some v /\ fits v /\ range_end o = []
  | kRemove => pvalue (op_data o) = None /\ range_end o = []
  | kRemoveRange => pvalue (op_data o) = None /\
      bytes_ltb (pkey (op_data o)) (range_end o) = true
  end.

Definition payload_wf (p : ProposalPayload) : Prop :=
  u64 (client_id p) /\ u64 (request_id p) /\ u64 (N.of_nat (length (ops (batch p)))) /\
  Forall op_built (ops (batch p)).

Lemma fold_batch_push l b :
  fold_left (fun b o => batch_push o b) l b = mkWriteBatch (ops b ++ l) (batch_sync b).
Proof.
  revert b; induction l as [|o l IH]; intros [os sy]; simpl.
  - by rewrite app_nil_r.
  - rewrite IH. simpl. by rewrite <- app_assoc.
Qed.

Lemma dec_value_some v rest : fits v -> dec_value 1 (be_str v ++ rest) = Ok (Some v, rest).
Proof. intros Hv. unfold dec_value, dec_bytes. simpl. by read_step. Qed.

Lemma dec_value_inv n l v rest :
  dec_value n l = Ok (v, rest) ->
  match v with Some v => l = be_str v ++ rest /\ fits v | None => l = rest end.
Proof.
  unfold dec_value, dec_bytes. by case_match; intros H'; read_inv.
Qed.

Lemma decode_op_encode o rest : op_built o -> decode_op (encode_op o ++ rest) = Ok (o, rest).
Proof.
  destruct o as [t [k v] e]. intros (Hk & He & Ht). simpl in *.
  unfold decode_op, encode_op, dec_u8, dec_bytes. cbn [op_type op_data pkey pvalue range_end].
  assert (op_tag t < 256) by (destruct t; simpl; lia).
  destruct t; simpl in Ht.
  - destruct Ht as (v' & -> & Hv & ->). repeat read_step.
    erewrite reader_bind_ok by by apply dec_value_some. by repeat read_step.
  - destruct Ht as [-> ->]. repeat read_step.
    erewrite reader_bind_ok by reflexivity. by repeat read_step.
  - destruct Ht as [-> Hlt]. repeat read_step.
    erewrite reader_bind_ok by reflexivity. repeat read_step. simpl.
    unfold bytes_leb. by rewrite Hlt.
Qed.

(** What the decoder accepts is a built operation; it also shows where the
    accepted operation stood in the input. *)
Lemma decode_op_inv l o rest :
  decode_op l = Ok (o, rest) -> op_built o /\ exists pre, l = pre ++ rest /\ pre <> [].
Proof.
  unfold decode_op, dec_u8, dec_bytes. intros H. read_inv.
  match goal with H : dec_value _ _ = Ok _ |- _ => apply dec_value_inv in H end.
  assert (Hb : op_built o /\ rest = l5).
  { unfold op_built. repeat case_match; read_inv; try done; simplify_eq; simpl.
    all: destruct_and?; split_and!; try done; solve [by eexists | by apply negb_false_iff]. }
  destruct Hb as [? ->]. split; [done|].
  destruct v3 as [w|]; destruct_and?; subst.
  - eexists (byte1 v ++ be_str v0 ++ byte1 v1 ++ be_str w ++ be_str v4).
    by rewrite <- !app_assoc.
  - eexists (byte1 v ++ be_str v0 ++ byte1 v1 ++ be_str v4).
    by rewrite <- !app_assoc.
Qed.

(** Readers only look at the front of their input. *)
Definition extends {A} (r : reader A) : Prop :=
  forall l a rest extra, r l = Ok (a, rest) -> r (l ++ extra) = Ok (a, rest ++ extra).

Lemma extends_bind {A B} (m : reader A) (k : A -> reader B) :
  extends m -> (forall a, extends (k a)) -> extends (m ≫= k).
Proof.
  intros Hm Hk l b rest extra (a & l1 & Ha & Hb)%reader_bind_inv.
  erewrite reader_bind_ok by by apply Hm. by apply Hk.
Qed.

Lemma extends_mret {A} (a : A) : extends (mret a).
Proof. intros l b rest extra H. by injection H as <- <-. Qed.

Lemma extends_fail {A} e : extends (@reader_fail A e).
Proof. by intros l b rest extra H. Qed.

Lemma extends_guard b e : extends (reader_guard b e).
Proof. intros l [] rest extra [-> ->]%reader_guard_inv. by rewrite reader_guard_ok. Qed.

Lemma extends_take_be n e : extends (take_be (N.of_nat n) e).
Proof.
  intros l v rest extra [-> Hv]%take_be_inv. rewrite <- app_assoc. by apply take_be_put.
Qed.

Lemma extends_take_str e1 e2 : extends (take_str e1 e2).
Proof. intros l v rest extra [-> Hv]%take_str_inv. rewrite <- app_assoc. by apply take_str_put. Qed.

Lemma extends_times {A} n (r : reader A) : extends r -> extends (read_times n r).
Proof.
  intros Hr. induction n as [|n IH]; simpl; [apply extends_mret|].
  apply extends_bind; [done|]. intros a. apply extends_bind; [done|]. intros. apply extends_mret.
Qed.

Create HintDb wire.
#[export] Hint Resolve extends_bind extends_mret extends_fail extends_guard extends_take_str
  extends_times : wire.
#[export] Hint Extern 1 (extends (take_be 8 _)) => apply (extends_take_be 8) : wire.
#[export] Hint Extern 1 (extends (take_be 4 _)) => apply (extends_take_be 4) : wire.
#[export] Hint Extern 1 (extends (take_be 1 _)) => apply (extends_take_be 1) : wire.

Lemma extends_decode_op : extends decode_op.
Proof.
  unfold decode_op, dec_u8, dec_bytes, dec_value, dec_bytes.
  repeat (apply extends_bind; [repeat case_match; eauto with wire|intros ?]).
  repeat case_match; eauto with wire.
Qed.
#[export] Hint Resolve extends_decode_op : wire.

(** A body accepted from a truncated proposal is accepted from the whole. *)
Lemma decode_body_extends size size' l p rest extra :
  size <= size' -> decode_body size l = Ok (p, rest) ->
  decode_body size' (l ++ extra) = Ok (p, rest ++ extra).
Proof.
  intros Hle H. unfold decode_body, dec_u32, dec_u64 in *.
  apply reader_bind_inv in H as (v1 & l1 & H1 & H).
  apply reader_bind_inv in H as (v2 & l2 & H2 & H).
  apply reader_bind_inv in H as (v3 & l3 & H3 & H).
  apply reader_bind_inv in H as (v4 & l4 & H4 & H).
  apply reader_bind_inv in H as (v5 & l5 & H5 & H).
  apply reader_bind_inv in H as (v6 & l6 & H6 & H).
  erewrite reader_bind_ok by by apply (extends_take_be 4).
  erewrite reader_bind_ok by by apply extends_guard.
  do 3 (erewrite reader_bind_ok by by apply (extends_take_be 8)).
  apply reader_guard_inv in H6 as [Hc ->]. boolify.
  erewrite reader_bind_ok by (apply reader_guard_ok; apply N.leb_le; lia).
  eapply extends_bind; eauto with wire.
Qed.

Lemma payload_size l : (length l <= length (concat (map encode_op l)))%nat.
Proof.
  induction l as [|o l IH]; simpl; [done|]. rewrite length_app.
  assert (1 <= length (encode_op o))%nat; [|lia].
  unfold encode_op. rewrite length_app. simpl. lia.
Qed.

Definition payload_tail (p : ProposalPayload) : bytes :=
  be_put 4 kPayloadVersion ++ be_put 8 (client_id p) ++ be_put 8 (request_id p) ++
  be_put 8 (N.of_nat (length (ops (batch p)))) ++ concat (map encode_op (ops (batch p))).

(** The batch without its sync flag, which is not replicated. *)
Definition unsynced (p : ProposalPayload) : ProposalPayload :=
  mkProposalPayload (client_id p) (request_id p) (set_sync false (batch p)).

Lemma decode_body_encode size p rest :
  payload_wf p -> N.of_nat (length (ops (batch p))) <= size ->
  decode_body size (payload_tail p ++ rest) = Ok (unsynced p, rest).
Proof.
  intros (Hc & Hr & Hn & Hops) Hsize. unfold decode_body, payload_tail, dec_u32, dec_u64.
  assert (u32 kPayloadVersion) by done.
  repeat read_step.
  erewrite reader_bind_ok by (apply reader_guard_ok; by apply N.leb_le).
  rewrite Nat2N.id. erewrite reader_bind_ok.
  2:{ apply read_times_put. intros o r Ho. apply decode_op_encode.
      rewrite Forall_forall in Hops. by apply Hops. }
  rewrite fold_batch_push. done.
Qed.

Lemma encode_payload_shape p : encode_proposal_payload p = kMagic ++ payload_tail p.
Proof. done. Qed.

Lemma length_payload_tail p :
  length (payload_tail p) = (28 + length (concat (map encode_op (ops (batch p)))))%nat.
Proof. unfold payload_tail. rewrite !length_app, !length_be_put. lia. Qed.

Lemma decode_payload_magic l :
  28 <= N.of_nat (length l) ->
  decode_proposal_payload (kMagic ++ l) =
    match decode_body (4 + N.of_nat (length l)) l with
    | Ok (p, []) => Ok p
    | Ok (_, _ :: _) => Err (payload_error "trailing bytes in proposal payload")
    | Err e => Err e
    end.
Proof.
  intros Hl. unfold decode_proposal_payload. rewrite length_app.
  change (length kMagic) with 4%nat. unfold kFixedHeaderSize.
  destruct (_ <? _) eqn:E; boolify; [lia|].
  change 4%nat with (length kMagic) at 1. rewrite take_app_exact.
  change 4%nat with (length kMagic) at 2. rewrite drop_app_exact.
  unfold bytes_eqb. rewrite bool_decide_eq_true_2 by done.
  by rewrite Nat2N.inj_add.
Qed.

Lemma decode_payload_encode p :
  payload_wf p -> decode_proposal_payload (encode_proposal_payload p) = Ok (unsynced p).
Proof.
  intros Hp. rewrite encode_payload_shape, decode_payload_magic
    by (rewrite length_payload_tail; lia).
  rewrite <- (app_nil_r (payload_tail p)) at 2.
  rewrite decode_body_encode; [done|done|].
  pose proof (payload_size (ops (batch p))). rewrite length_payload_tail. lia.
Qed.

(** Proposals survive the log. Decoding the encoding of a proposal whose
    batch was made by the [WriteBatch] builders gives back the client, the
    request and the operations in order (only the local sync flag is dropped);
    and a damaged encoding is refused: no strict prefix of it and no extension
    of it decodes. *)
Theorem proposal_payload_roundtrip p :
  payload_wf p ->
  decode_proposal_payload (encode_proposal_payload p) = Ok (unsynced p) /\
  (forall pre post, encode_proposal_payload p = pre ++ post -> post <> [] ->
     is_ok (decode_proposal_payload pre) = false) /\
  (forall extra, extra <> [] ->
     is_ok (decode_proposal_payload (encode_proposal_payload p ++ extra)) = false).
Proof.
  intros Hp. split_and!; [by apply decode_payload_encode| |].
  - intros pre post Heq Hne. unfold decode_proposal_payload.
    destruct (_ || _) eqn:E; [done|]. boolify. unfold kFixedHeaderSize in *.
    destruct (decode_body _ _) as [[q [|]]|] eqn:Ed; try done. exfalso.
    apply (decode_body_extends _ (N.of_nat (length (encode_proposal_payload p))) _ _ _ post) in Ed.
    2:{ rewrite Heq, length_app. lia. }
    rewrite <- drop_app_le, <- Heq in Ed by lia. rewrite encode_payload_shape in Ed at 2.
    change 4%nat with (length kMagic) in Ed. rewrite drop_app_exact in Ed.
    rewrite <- (app_nil_r (payload_tail p)), decode_body_encode in Ed; [|done|].
    + simpl in Ed. congruence.
    + pose proof (payload_size (ops (batch p))).
      rewrite encode_payload_shape, length_app, length_payload_tail. lia.
  - intros extra Hne. rewrite encode_payload_shape, <- app_assoc, decode_payload_magic.
    2:{ rewrite length_app, length_payload_tail. lia. }
    rewrite decode_body_encode; [by destruct extra|done|].
    pose proof (payload_size (ops (batch p))). rewrite length_app, length_payload_tail. lia.
Qed.

Definition sample_payload : ProposalPayload :=
  mkProposalPayload 9 4 (batch_remove_range [x61] [x63] (batch_remove [x62]
    (batch_put [x61] [x00] (set_sync true empty_batch)))).

Lemma proposal_payload_roundtrip_witness :
  decode_proposal_payload (encode_proposal_payload sample_payload) = Ok (unsynced sample_payload).
Proof.
  apply (proposal_payload_roundtrip sample_payload).
  split_and!; [reflexivity..|].
  repeat constructor; try reflexivity. eexists. split; [reflexivity|]. by split.
Defined.

Lemma read_times_Forall {A} (r : reader A) (P : A -> Prop) n l xs rest :
  (forall l a rest, r l = Ok (a, rest) -> P a) -> read_times n r l = Ok (xs, rest) -> Forall P xs.
Proof.
  intros Hr. revert l xs; induction n as [|n IH]; intros l xs; simpl.
  { intros [= <- _]. constructor. }
  intros H'. read_inv. constructor; eauto.
Qed.

(** What the decoder accepts can be applied: every decoded operation has the
    shape the [WriteBatch] builders give it. *)
Lemma decoded_ops_valid data p :
  decode_proposal_payload data = Ok p -> Forall op_built (ops (batch p)).
Proof.
  unfold decode_proposal_payload. repeat case_match; try done. intros [= ->]. subst.
  match goal with H : decode_body _ _ = Ok _ |- _ => revert H end.
  unfold decode_body, dec_u32, dec_u64. intros H'.
  repeat (apply reader_bind_inv in H' as (? & ? & ? & H')).
  injection H' as <- _. rewrite fold_batch_push. simpl.
  eapply read_times_Forall; [|done]. intros l a rest Ha. by apply decode_op_inv in Ha as [? _].
Qed.
