(* ===== verification/KvStateMachine.v ===== *)
(** * The replicated state machine: [raft/kv_state_machine.{h,cpp}],
      [raft/request_result_store.h]

    [KVStateMachine] applies decoded proposals to a local [KVStore] and keeps
    the last request of every client in a [RequestResultStore]. Both are
    interfaces here ([KvStore], [RequestResultStore], each with its laws),
    discharged by the in-memory store of [MockStore] and by
    [MemoryRequestResultStore]. *)

From S2P Require Import Prelude Bytes OMap KvTypes TxBuffer MockStore Wire RaftTypes ProposalPayload.
Local Open Scope N_scope.

(** ** [class KVStore], the raw operations the state machine uses *)

Class KvStore (S I : Type) `{Iterator I} := {
  kv_write_batch : WriteBatch -> S -> S * Status;
  kv_new_iterator : KeyRange -> S -> option I }.

(** A store holds ordered rows. A write batch is atomic; a store that is
    ready takes every valid batch and iterates over every range. *)
Class KvStoreLaws (S I : Type) `{KvStore S I} `{!IteratorLaws I} := {
  kv_rows : S -> omap ByteValue;
  kv_ready : S -> Prop;
  kv_rows_sorted : forall s, kv_ready s -> sorted (kv_rows s);
  kv_write_ready : forall b s, kv_ready s -> existsb op_invalid (ops b) = false ->
    exists s', kv_write_batch b s = (s', StOK) /\ kv_ready s' /\
      kv_rows s' = fold_left apply_op (ops b) (kv_rows s);
  kv_write_fail : forall b s s' st, kv_write_batch b s = (s', st) -> st <> StOK -> s' = s;
  kv_iterator_ready : forall r s, kv_ready s ->
    exists it, kv_new_iterator r s = Some it /\ it_wf it /\
      it_all it = scan_order (direction r) (filter (fun p => range_contains r p.1 = true) (kv_rows s));
  kv_iterator_status : forall it, it_wf it -> it_status it = StOK \/ it_status it = StNotFound }.

#[export] Instance MockStore_KvStore : KvStore MockStore MockIterator := {|
  kv_write_batch := store_write_batch; kv_new_iterator := store_new_iterator |}.

#[export, program] Instance MockStore_KvStoreLaws : KvStoreLaws MockStore MockIterator := {|
  kv_rows := data_;
  kv_ready s := is_open_ s = true /\ fail_writes_ s = false /\ sorted (data_ s) |}.
Next Obligation. by intros s (_ & _ & ?). Qed.
Next Obligation.
  intros b s (Ho & Hf & Hs) Hv. simpl. unfold store_write_batch, apply_batch_locked.
  rewrite Ho, Hf, Hv. eexists. split; [done|]. simpl. split; [|done]. split_and!; [done..|].
  by apply (find_apply_ops _ _ [] Hs).
Qed.
Next Obligation.
  intros b s s' st. simpl. unfold store_write_batch, apply_batch_locked.
  repeat case_match; intros [= <- <-]; done.
Qed.
Next Obligation.
  intros r s (Ho & _ & Hs). simpl. unfold store_new_iterator. rewrite Ho.
  eexists. split; [done|]. split; [by apply mock_iterator_wf|].
  rewrite <- materialize_filter by done. unfold mock_iterator, mi_seek_to_first.
  unfold mi_all. by case_match.
Qed.
Next Obligation. intros it (_ & _ & Hst). simpl in *. rewrite Hst. case_match; auto. Qed.

(** ** [class RequestResultStore] *)

Class RequestResultStore (R : Type) := {
  rr_find : N -> N -> R -> result Error (option bytes);
  rr_save : N -> N -> bytes -> R -> R * result Error unit }.

Definition stale_request : Error :=
  mkError EcInvalidArgument "request id is older than the client's latest applied request".

(** The latest request of each client decides: its own id is answered from the
    store, an older id is refused, a newer one is unknown. *)
Definition find_latest (latest : option (N * bytes)) (request_id : N)
    : result Error (option bytes) :=
  match latest with
  | None => Ok None
  | Some (rid, res) =>
      if rid =? request_id then Ok (Some res)
      else if request_id <? rid then Err stale_request
      else Ok None
  end.

Class RequestResultLaws (R : Type) `{RequestResultStore R} := {
  rr_latest : R -> N -> option (N * bytes);
  rr_find_latest : forall c r s, rr_find c r s = find_latest (rr_latest s c) r;
  rr_save_ok : forall c r res s s', rr_save c r res s = (s', Ok ()) ->
    forall c', rr_latest s' c' = if c' =? c then Some (r, res) else rr_latest s c' }.

(** A save that fails leaves what is known of every client. *)
Class RequestResultAtomic (R : Type) `{RequestResultLaws R} :=
  rr_save_fails : forall c r res s s' e, rr_save c r res s = (s', Err e) -> forall c', rr_latest s' c' = rr_latest s c'.

(** [class MemoryRequestResultStore] *)
Abbreviation MemoryRequestResultStore := (gmap N (N * bytes)).

Definition memory_find (client_id request_id : N) (entries : MemoryRequestResultStore)
    : result Error (option bytes) :=
  match entries !! client_id with
  | None => Ok None
  | Some (rid, res) =>
      if rid =? request_id then Ok (Some res)
      else if request_id <? rid then Err stale_request
      else Ok None
  end.

Definition memory_save (client_id request_id : N) (res : bytes) (entries : MemoryRequestResultStore)
    : MemoryRequestResultStore * result Error unit :=
  (<[client_id := (request_id, res)]> entries, Ok ()).

#[export] Instance Memory_RequestResultStore : RequestResultStore MemoryRequestResultStore := {|
  rr_find := memory_find; rr_save := memory_save |}.

#[export, program] Instance Memory_RequestResultLaws : RequestResultLaws MemoryRequestResultStore := {|
  rr_latest entries c := entries !! c |}.
Next Obligation. done. Qed.
Next Obligation.
  intros c r res s s' [= <-] c'. destruct (c' =? c) eqn:E; boolify; subst.
  - by rewrite lookup_insert_eq.
  - by rewrite lookup_insert_ne.
Qed.
#[export] Instance Memory_RequestResultAtomic : RequestResultAtomic MemoryRequestResultStore.
Proof. done. Qed.

(** ** [class KVStateMachine] *)

Record KVStateMachine (S R : Type) := mkStateMachine { local_ : S; request_results_ : R }.
Arguments mkStateMachine {S R}.
Arguments local_ {S R}.
Arguments request_results_ {S R}.

Definition kSnapshotMagic : bytes := bytes_of_string "SQSN".
Definition kSnapshotVersion : N := 1.

Definition snapshot_error (m : string) : Error := mkError EcInvalidArgument m.
Definition truncated_snapshot : Error := snapshot_error "truncated raft snapshot".
Definition snap_read_u64 : reader N := take_be 8 truncated_snapshot.
Definition snap_read_bytes : reader bytes := take_str truncated_snapshot truncated_snapshot.

Definition kv_status_to_error (st : Status) : Error :=
  mkError
    (match st with
     | StInvalidArgument => EcInvalidArgument
     | StIOError => EcIOError
     | _ => EcInternalError
     end)
    ("local kv write failed: " ++ status_to_string st).

(** The [for (seek_to_first; valid; next)] loops, with the iterator they end
    on. Enough fuel is one more than the number of rows ([walk_rest]). *)
Fixpoint walk {I} `{Iterator I} (fuel : nat) (it : I) : list (Key * ByteValue) * I :=
  match fuel with
  | O => ([], it)
  | Datatypes.S f =>
      if it_valid it
      then let '(rows, it') := walk f (it_next it) in ((it_key it, it_value it) :: rows, it')
      else ([], it)
  end.

Definition encode_row (p : Key * ByteValue) : bytes := be_str p.1 ++ be_str p.2.

Definition read_row : reader (Key * ByteValue) :=
  key ← snap_read_bytes; value ← snap_read_bytes; mret (key, value).

Definition status_ok_or_not_found (st : Status) : bool :=
  match st with StOK | StNotFound => true | _ => false end.

(** The range both [snapshot] and [restore] insist on. *)
Definition bad_bounds (range : KeyRange) : bool :=
  match start range with
  | None => true
  | Some s => match end_ range with Some e => bytes_leb e s | None => false end
  end.

Section StateMachine.
Context {S I R : Type} `{KvStore S I} `{RequestResultStore R}.
Implicit Types (sm : KVStateMachine S R).

Definition apply (entry : LogEntry) (sm : KVStateMachine S R)
    : KVStateMachine S R * result Error bytes :=
  match e_data entry with
  | [] => (sm, Ok (bytes_of_string "noop"))
  | _ =>
    match decode_proposal_payload (e_data entry) with
    | Err e => (sm, Err e)
    | Ok payload =>
      match rr_find (client_id payload) (request_id payload) (request_results_ sm) with
      | Err e => (sm, Err e)
      | Ok (Some previous) => (sm, Ok previous)
      | Ok None =>
        match kv_write_batch (batch payload) (local_ sm) with
        | (local', StOK) =>
            let applied := bytes_of_string "applied" in
            match rr_save (client_id payload) (request_id payload) applied (request_results_ sm) with
            | (results', Ok _) => (mkStateMachine local' results', Ok applied)
            | (results', Err e) => (mkStateMachine local' results', Err e)
            end
        | (local', st) => (mkStateMachine local' (request_results_ sm), Err (kv_status_to_error st))
        end
      end
    end
  end.

Definition snapshot_header (count : N) : bytes :=
  kSnapshotMagic ++ be_put 4 kSnapshotVersion ++ be_put 8 count.

(** [snapshot]: the count is patched into the header after the iteration. *)
Definition snapshot (fuel : nat) (range : KeyRange) (sm : KVStateMachine S R) : result Error bytes :=
  if bad_bounds range
  then Err (snapshot_error "raft snapshots require a start bound and a non-empty key range")
  else if negb (bool_decide (direction range = kForward))
  then Err (snapshot_error "P0 raft snapshots require a forward key range")
  else match kv_new_iterator range (local_ sm) with
  | None => Err (mkError EcInternalError "failed to create raft snapshot iterator")
  | Some it =>
      let '(rows, it') := walk fuel (it_seek_to_first it) in
      if negb (status_ok_or_not_found (it_status it'))
      then Err (mkError EcInternalError
                 ("raft snapshot scan failed: " ++ status_to_string (it_status it')))
      else Ok (snapshot_header (N.of_nat (length rows)) ++ concat (map encode_row rows))
  end.

(** The deletes that clear the range before the rows of the snapshot. *)
Definition clear_batch (fuel : nat) (range : KeyRange) (s : Key) (sm : KVStateMachine S R)
    : result Error WriteBatch :=
  let batch := set_sync true empty_batch in
  match end_ range with
  | Some e => Ok (batch_remove_range s e batch)
  | None =>
      match kv_new_iterator (mkKeyRange (start range) (end_ range) 0 kForward) (local_ sm) with
      | None => Err (mkError EcInternalError "failed to create raft snapshot clear iterator")
      | Some it =>
          let '(rows, it') := walk fuel (it_seek_to_first it) in
          if negb (status_ok_or_not_found (it_status it'))
          then Err (mkError EcInternalError
                     ("raft snapshot clear scan failed: " ++ status_to_string (it_status it')))
          else Ok (fold_left (fun b p => batch_remove p.1 b) rows batch)
      end
  end.

Definition restore (fuel : nat) (range : KeyRange) (snap : bytes) (sm : KVStateMachine S R)
    : KVStateMachine S R * result Error unit :=
  if (N.of_nat (length snap) <? 4 + 4 + 8) || negb (bytes_eqb (take 4 snap) kSnapshotMagic)
  then (sm, Err (snapshot_error "invalid raft snapshot magic"))
  else
    let version := be_get (take 4 (drop 4 snap)) in
    if negb (version =? kSnapshotVersion)
    then (sm, Err (snapshot_error "unsupported raft snapshot version"))
    else match snap_read_u64 (drop 8 snap) with
    | Err e => (sm, Err e)
    | Ok (count, rest) =>
      if N.of_nat (length snap) <? count
      then (sm, Err (snapshot_error "invalid raft snapshot count"))
      else match start range with
      | None => (sm, Err (snapshot_error
                  "raft snapshot restore requires a start bound and a non-empty range"))
      | Some s =>
        if bad_bounds range
        then (sm, Err (snapshot_error
               "raft snapshot restore requires a start bound and a non-empty range"))
        else if negb (bool_decide (direction range = kForward))
        then (sm, Err (snapshot_error "P0 raft snapshot restore requires a forward key range"))
        else match clear_batch fuel range s sm with
        | Err e => (sm, Err e)
        | Ok b =>
          match read_times (N.to_nat count) read_row rest with
          | Err e => (sm, Err e)
          | Ok (_, _ :: _) => (sm, Err (snapshot_error "trailing bytes in raft snapshot"))
          | Ok (rows, []) =>
            match kv_write_batch (fold_left (fun b p => batch_put p.1 p.2 b) rows b) (local_ sm) with
            | (local', StOK) => (mkStateMachine local' (request_results_ sm), Ok ())
            | (local', st) =>
                (mkStateMachine local' (request_results_ sm), Err (kv_status_to_error st))
            end
          end
        end
      end
    end.
End StateMachine.

(** ** Batches built from rows *)

Definition put_op (p : Key * ByteValue) : Op := mkOp kPut (mkKVPair p.1 (Some p.2)) [].
Definition remove_op (p : Key * ByteValue) : Op := mkOp kRemove (mkKVPair p.1 None) [].

Lemma fold_batch_put rows b :
  ops (fold_left (fun b p => batch_put p.1 p.2 b) rows b) = ops b ++ map put_op rows.
Proof.
  revert b; induction rows as [|p rows IH]; intros b; simpl; [by rewrite app_nil_r|].
  rewrite IH. simpl. by rewrite <- app_assoc.
Qed.

Lemma fold_batch_remove (rows : list (Key * ByteValue)) b :
  ops (fold_left (fun b p => batch_remove p.1 b) rows b) = ops b ++ map remove_op rows.
Proof.
  revert b; induction rows as [|p rows IH]; intros b; simpl; [by rewrite app_nil_r|].
  rewrite IH. simpl. by rewrite <- app_assoc.
Qed.

Lemma puts_valid rows : existsb op_invalid (map put_op rows) = false.
Proof. by induction rows. Qed.

Lemma removes_valid (rows : list (Key * ByteValue)) : existsb op_invalid (map remove_op rows) = false.
Proof. by induction rows. Qed.

Lemma log_effect_puts l rows k :
  sorted rows ->
  log_effect (l ++ map put_op rows) k =
    match mfind k rows with Some v => OvValue v | None => log_effect l k end.
Proof.
  revert l; induction rows as [|[k' v] rows IH]; intros l Hs; simpl; [by rewrite app_nil_r|].
  change (l ++ put_op (k', v) :: map put_op rows) with (l ++ [put_op (k', v)] ++ map put_op rows).
  rewrite app_assoc, IH by by eapply sorted_tail. rewrite log_effect_snoc.
  unfold op_effect, put_op. simpl. destruct (decide (k = k')) as [->|Hne].
  - rewrite find_above by by apply (sorted_head (k', v)).
    rewrite bool_decide_eq_true_2 by done. by rewrite bytes_ltb_irrefl.
  - rewrite bool_decide_eq_false_2 by done. simpl.
    change (match mfind k rows with Some v => OvValue v | None => log_effect l k end =
      match mfind k ((k', v) :: rows) with Some v => OvValue v | None => log_effect l k end).
    by rewrite find_cons_ne.
Qed.

Lemma log_effect_removes (rows : omap ByteValue) k :
  sorted rows ->
  log_effect (map remove_op rows) k =
    match mfind k rows with Some _ => OvTombstone | None => OvNone end.
Proof.
  intros Hs. transitivity (if existsb (fun p => bool_decide (k = p.1)) rows
                           then OvTombstone else OvNone).
  - clear Hs. induction rows as [|p rows IH] using rev_ind; [done|].
    rewrite map_app, existsb_app. cbn [map]. rewrite log_effect_snoc, IH. unfold op_effect, remove_op. simpl.
    case_bool_decide; simpl; by destruct (existsb _ rows).
  - destruct (mfind k rows) as [v|] eqn:E.
    + apply find_elem in E; [|done]. rewrite (proj2 (existsb_exists _ _)); [done|].
      exists (k, v). split; [by apply list_elem_of_In|]. by apply bool_decide_eq_true_2.
    + destruct (existsb _ rows) eqn:Ex; [|done]. apply existsb_exists in Ex as ([k' v] & Hin & Hk).
      apply bool_decide_eq_true_1 in Hk. simpl in Hk. subst k'.
      apply list_elem_of_In, find_elem in Hin; [congruence|done].
Qed.

(** Applying a batch twice is applying it once. *)
Lemma apply_ops_idempotent d l :
  sorted d -> existsb op_invalid l = false ->
  fold_left apply_op l (fold_left apply_op l d) = fold_left apply_op l d.
Proof.
  intros Hd Hv. pose proof (fun k => find_apply_ops l d k Hd Hv) as H1.
  pose proof (proj1 (H1 [])) as Hs.
  pose proof (fun k => find_apply_ops l _ k Hs Hv) as H2.
  apply omap_ext; [apply (H2 [])|done|]. intros k.
  rewrite (proj2 (H2 k)), (proj2 (H1 k)). by destruct (log_effect l k).
Qed.

Lemma op_built_valid o : op_built o -> op_invalid o = false.
Proof.
  intros (_ & _ & Hb). unfold op_invalid. destruct (op_type o); [by destruct Hb as (v & -> & _)|done|].
  destruct Hb as [_ Hb]. unfold bytes_leb. by rewrite Hb.
Qed.

Lemma ops_built_valid l : Forall op_built l -> existsb op_invalid l = false.
Proof. induction 1; simpl; [done|]. by rewrite op_built_valid. Qed.

Section Walk.
Context {I : Type} `{IteratorLaws I}.

Lemma walk_rest (it : I) fuel :
  it_wf it -> (length (it_rest it) < fuel)%nat ->
  exists it', walk fuel it = (it_rest it, it') /\ it_wf it'.
Proof.
  revert it; induction fuel as [|fuel IH]; intros it Hwf Hlen; [lia|]. simpl.
  rewrite it_valid_rest by done. destruct (it_rest it) as [|[k v] r] eqn:E.
  { exists it. done. }
  destruct (it_current it k v r Hwf E) as (-> & -> & Hr).
  destruct (it_next_all it Hwf) as (Hwf' & _).
  destruct (IH (it_next it)) as (it' & Hw & Hwf''); [done|rewrite Hr; simpl in Hlen; lia|].
  exists it'. by rewrite bool_decide_eq_true_2, Hw, Hr.
Qed.
End Walk.

Section Properties.
Context {S I R : Type} `{KvStoreLaws S I} `{RequestResultLaws R}.
Implicit Types (sm : KVStateMachine S R).

(** A request that is older than the latest one of its client is refused. *)
Lemma apply_stale entry sm p rid res :
  e_data entry <> [] -> decode_proposal_payload (e_data entry) = Ok p ->
  rr_latest (request_results_ sm) (client_id p) = Some (rid, res) -> request_id p < rid ->
  apply entry sm = (sm, Err stale_request).
Proof.
  intros Hne Hp Hl Hlt. unfold apply. destruct (e_data entry) eqn:E; [done|].
  rewrite Hp, rr_find_latest, Hl. simpl.
  rewrite (proj2 (N.eqb_neq _ _)) by lia. by rewrite (proj2 (N.ltb_lt _ _)).
Qed.

(** What [apply] does to the request table: nothing, or the request of the entry,
    newer than what was known of its client, becomes the latest. *)
Lemma apply_latest `{!RequestResultAtomic R} entry sm c :
  let sm' := (apply entry sm).1 in
  rr_latest (request_results_ sm') c = rr_latest (request_results_ sm) c \/
  exists p res, decode_proposal_payload (e_data entry) = Ok p /\ client_id p = c /\
    find_latest (rr_latest (request_results_ sm) c) (request_id p) = Ok None /\
    rr_latest (request_results_ sm') c = Some (request_id p, res).
Proof.
  unfold apply. destruct (e_data entry) as [|b data]; [by left|]. destruct (decode_proposal_payload _) as [p|]; [|by left].
  rewrite rr_find_latest. destruct (find_latest _ _) as [[prev|]|] eqn:Ef; [by left| |by left].
  destruct (kv_write_batch _ _) as [local' []]; try by left.
  destruct (rr_save _ _ _ _) as [results' [[]|err]] eqn:Es; cbn.
  - rewrite (rr_save_ok _ _ _ _ _ Es). destruct (c =? client_id p) eqn:Ec; boolify; [subst c; right|by left]. by exists p, (bytes_of_string "applied").
  - left. by apply (rr_save_fails _ _ _ _ _ _ Es).
Qed.

(** The entries of a log, one after the other, whatever each answers. *)
Definition apply_all (entries : list LogEntry) sm : KVStateMachine S R :=
  fold_left (fun sm e => (apply e sm).1) entries sm.

(** One of the entries is a newer request of the client of [p]. *)
Definition overtaken (p : ProposalPayload) (entries : list LogEntry) : Prop :=
  exists e p', e ∈ entries /\ decode_proposal_payload (e_data e) = Ok p' /\
    client_id p' = client_id p /\ request_id p < request_id p'.

(** The request stays the latest of its client, or a newer one has taken its place. *)
Lemma latest_kept `{!RequestResultAtomic R} p r later : forall sm,
  rr_latest (request_results_ sm) (client_id p) = Some (request_id p, r) ->
  rr_latest (request_results_ (apply_all later sm)) (client_id p) = Some (request_id p, r) \/
  overtaken p later /\ exists rid res, request_id p < rid /\
    rr_latest (request_results_ (apply_all later sm)) (client_id p) = Some (rid, res).
Proof.
  induction later as [|e later IH] using rev_ind; intros sm Hl; [by left|]. unfold apply_all. rewrite fold_left_app. cbn [fold_left].
  fold (apply_all later sm). assert (Hup : forall newer, overtaken newer later -> overtaken newer (later ++ [e])).
  { intros newer (x & p' & Hx & ?). exists x, p'. split; [set_solver|done]. }
  destruct (apply_latest e (apply_all later sm) (client_id p)) as [Hsame|(p' & res & Hp' & Hc & Hf & Hnew)].
  { rewrite Hsame. destruct (IH sm Hl) as [?|(Ho & Hx)]; [by left|right; auto]. }
  right. rewrite Hnew.
  assert (Hlt : request_id p < request_id p').
  { destruct (IH sm Hl) as [Hold|(_ & rid & res' & Hrid & Hold)]; rewrite Hold in Hf; cbn in Hf;
      repeat (case_match; try done); boolify; lia. }
  split; [|by exists (request_id p'), res]. exists e, p'. split; [set_solver|]. auto.
Qed.

(** C15: exactly once. When an entry was applied successfully, applying the same
    entry again, after any other entries have been applied, with success or
    without, changes neither the store nor the request table. It is answered
    with the result of the first time, or, only if a newer request of the same
    client has come in between, refused as older than the latest one. A save of
    the request table that fails leaves it as it was. *)
Theorem apply_exactly_once `{!RequestResultAtomic R} entry later sm sm1 r :
  apply entry sm = (sm1, Ok r) ->
  let sm2 := apply_all later sm1 in
  apply entry sm2 = (sm2, Ok r) \/
  apply entry sm2 = (sm2, Err stale_request) /\
    exists p, decode_proposal_payload (e_data entry) = Ok p /\ overtaken p later.
Proof.
  intros Ha sm2. assert (Hfirst : e_data entry = [] /\ r = bytes_of_string "noop" \/
    exists p, e_data entry <> [] /\ decode_proposal_payload (e_data entry) = Ok p /\
      rr_latest (request_results_ sm1) (client_id p) = Some (request_id p, r)).
  { revert Ha. unfold apply. destruct (e_data entry) as [|b data] eqn:Ed; [intros [= <- <-]; by left|].
    destruct (decode_proposal_payload _) as [p|]; [|done]. rewrite rr_find_latest.
    destruct (find_latest _ _) as [[prev|]|] eqn:Ef; [| |done].
    - intros [= <- <-]. right. exists p. split_and!; [done..|]. destruct (rr_latest _ _) as [[rid res]|]; [|done].
      cbn in Ef. repeat (case_match; try done); boolify; congruence.
    - destruct (kv_write_batch _ _) as [local' []]; try done.
      destruct (rr_save _ _ _ _) as [results' [[]|]] eqn:Es; [|done]. intros [= <- <-]. right. exists p. split_and!; [done..|].
      cbn. by rewrite (rr_save_ok _ _ _ _ _ Es), N.eqb_refl. }
  destruct Hfirst as [[Hd ->]|(p & Hne & Hp & Hl)]; [left; unfold apply; by rewrite Hd|].
  destruct (latest_kept p r later sm1 Hl) as [Hk|(Hover & rid & res & Hlt & Hk)]; fold sm2 in Hk.
  - left. unfold apply. destruct (e_data entry); [done|]. rewrite Hp, rr_find_latest, Hk. cbn. by rewrite N.eqb_refl.
  - right. split; [|by exists p]. by eapply apply_stale.
Qed.

(** What [apply] does to the rows of a ready store: the whole batch of a new
    request, nothing for anything else. *)
Lemma apply_rows entry sm sm' res :
  kv_ready (local_ sm) -> apply entry sm = (sm', res) ->
  sm' = sm \/
  exists p, decode_proposal_payload (e_data entry) = Ok p /\
    find_latest (rr_latest (request_results_ sm) (client_id p)) (request_id p) = Ok None /\
    kv_ready (local_ sm') /\
    kv_rows (local_ sm') = fold_left apply_op (ops (batch p)) (kv_rows (local_ sm)).
Proof.
  intros Hr. unfold apply. destruct (e_data entry) as [|b data] eqn:Ed; [by intros [= <- <-]; left|].
  destruct (decode_proposal_payload _) as [p|] eqn:Ep; [|by intros [= <- <-]; left].
  rewrite rr_find_latest.
  destruct (find_latest _ _) as [[prev|]|] eqn:Ef; [by intros [= <- <-]; left| |by intros [= <- <-]; left].
  destruct (kv_write_ready (batch p) (local_ sm) Hr) as (local' & -> & Hr' & Hrows).
  { apply ops_built_valid. by eapply decoded_ops_valid. }
  intros Hs. right. exists p. split; [done|]. split; [done|].
  destruct (rr_save _ _ _ _) as [results' [[]|]]; injection Hs as <- <-; done.
Qed.

(** Replay is harmless. Whatever the first application of an entry to a
    ready store returned (including a failure to record the request after its
    batch was written), applying the entry again leaves the rows as they were. *)
Theorem apply_twice_same_rows entry sm sm1 sm2 res1 res2 :
  kv_ready (local_ sm) ->
  apply entry sm = (sm1, res1) -> apply entry sm1 = (sm2, res2) ->
  kv_rows (local_ sm2) = kv_rows (local_ sm1).
Proof.
  intros Hr Ha1 Ha2. destruct (apply_rows _ _ _ _ Hr Ha1) as [->|(p & Hp & _ & Hr1 & Hrows1)].
  { rewrite Ha1 in Ha2. by injection Ha2 as <- <-. }
  destruct (apply_rows _ _ _ _ Hr1 Ha2) as [->|(p' & Hp' & _ & Hr2 & Hrows2)]; [done|].
  rewrite Hp in Hp'. injection Hp' as <-. rewrite Hrows2, Hrows1.
  apply apply_ops_idempotent; [by apply kv_rows_sorted|].
  apply ops_built_valid. by eapply decoded_ops_valid.
Qed.

(** *** Snapshots *)

Definition range_rows (range : KeyRange) (d : omap ByteValue) : omap ByteValue :=
  filter (fun p => range_contains range p.1 = true) d.

(** A range [snapshot] accepts. *)
Definition snapshot_range (range : KeyRange) : Prop :=
  bad_bounds range = false /\ direction range = kForward.

Lemma snapshot_spec fuel range sm :
  snapshot_range range -> kv_ready (local_ sm) ->
  (length (range_rows range (kv_rows (local_ sm))) < fuel)%nat ->
  snapshot fuel range sm =
    Ok (snapshot_header (N.of_nat (length (range_rows range (kv_rows (local_ sm))))) ++
        concat (map encode_row (range_rows range (kv_rows (local_ sm))))).
Proof.
  intros [Hb Hd] Hr Hf. unfold snapshot. rewrite Hb, bool_decide_eq_true_2 by done. simpl.
  destruct (kv_iterator_ready range _ Hr) as (it & -> & Hwf & Hall). rewrite Hd in Hall.
  destruct (it_first_rest it Hwf) as (Hrest & Hwf' & _). rewrite Hall in Hrest. simpl in Hrest.
  destruct (walk_rest (it_seek_to_first it) fuel) as (it' & -> & Hw); [done|by rewrite Hrest|].
  rewrite Hrest. by destruct (kv_iterator_status it' Hw) as [-> | ->].
Qed.

Lemma clear_batch_spec fuel range s sm :
  snapshot_range range -> start range = Some s -> kv_ready (local_ sm) ->
  (length (range_rows range (kv_rows (local_ sm))) < fuel)%nat ->
  exists b, clear_batch fuel range s sm = Ok b /\ existsb op_invalid (ops b) = false /\
    forall k, match log_effect (ops b) k with
              | OvNone => mfind k (kv_rows (local_ sm))
              | OvValue v => Some v
              | OvTombstone => None
              end = if range_contains range k then None else mfind k (kv_rows (local_ sm)).
Proof.
  intros [Hb Hd] Hs Hr Hf. pose proof (kv_rows_sorted _ Hr) as Hsort.
  unfold clear_batch, bad_bounds, range_contains in *. rewrite Hs in *.
  destruct (end_ range) as [e|] eqn:Ee.
  - eexists. split; [done|]. simpl. unfold op_invalid. simpl. rewrite Hb. split; [done|].
    intros k. unfold log_effect, op_effect, in_range, bytes_leb. simpl.
    destruct (bytes_ltb k s), (bytes_ltb k e); done.
  - set (scan := mkKeyRange (Some s) None 0 kForward).
    destruct (kv_iterator_ready scan _ Hr) as (it & -> & Hwf & Hall). simpl in Hall.
    assert (Heq : range_rows range (kv_rows (local_ sm)) =
      filter (fun p => range_contains scan p.1 = true) (kv_rows (local_ sm))).
    { unfold range_rows. apply list_filter_iff. intros p. unfold range_contains.
      by rewrite Hs, Ee. }
    destruct (it_first_rest it Hwf) as (Hrest & Hwf' & _). rewrite Hall in Hrest.
    destruct (walk_rest (it_seek_to_first it) fuel) as (it' & -> & Hw);
      [done|by rewrite Hrest, <- Heq|].
    rewrite Hrest.
    replace (negb (status_ok_or_not_found (it_status it'))) with false
      by (by destruct (kv_iterator_status it' Hw) as [-> | ->]).
    eexists. split; [done|]. rewrite fold_batch_remove. simpl. split; [apply removes_valid|].
    intros k. rewrite log_effect_removes by (by apply (sorted_filter (fun p => range_contains scan p.1))).
    rewrite (find_filter (range_contains scan)) by done. unfold range_contains. simpl.
    destruct (bytes_ltb k s); [done|]. by destruct (mfind k _).
Qed.

Lemma read_rows_encoded rows rest :
  Forall (fun p => fits p.1 /\ fits p.2) rows ->
  read_times (length rows) read_row (concat (map encode_row rows) ++ rest) = Ok (rows, rest).
Proof.
  intros Hfit. apply read_times_put. intros [k v] rest' Hin.
  rewrite Forall_forall in Hfit. destruct (Hfit _ Hin) as [Hk Hv]. simpl in *.
  unfold read_row, encode_row, snap_read_bytes. by repeat read_step.
Qed.

Lemma length_rows_encoded rows : (length rows <= length (concat (map encode_row rows)))%nat.
Proof.
  induction rows as [|p rows IH]; simpl; [done|]. rewrite length_app.
  unfold encode_row at 1, be_str at 1. rewrite !length_app, length_be_put. lia.
Qed.

(** A snapshot parses back into its rows, whatever the machine it is given to. *)
Lemma restore_parses fuel range rows sm s :
  snapshot_range range -> start range = Some s ->
  u64 (N.of_nat (length rows)) -> Forall (fun p => fits p.1 /\ fits p.2) rows ->
  restore fuel range (snapshot_header (N.of_nat (length rows)) ++ concat (map encode_row rows)) sm =
    match clear_batch fuel range s sm with
    | Err e => (sm, Err e)
    | Ok b =>
        match kv_write_batch (fold_left (fun b p => batch_put p.1 p.2 b) rows b) (local_ sm) with
        | (local', StOK) => (mkStateMachine local' (request_results_ sm), Ok ())
        | (local', st) => (mkStateMachine local' (request_results_ sm), Err (kv_status_to_error st))
        end
    end.
Proof.
  intros [Hb Hd] Hs Hn Hfit. unfold restore, snapshot_header. rewrite <- !app_assoc.
  set (body := be_put 8 _ ++ concat _).
  assert (Hlen : N.of_nat (length (kSnapshotMagic ++ be_put 4 kSnapshotVersion ++ body)) =
                 8 + N.of_nat (length body)).
  { rewrite !length_app, length_be_put. change (length kSnapshotMagic) with 4%nat. lia. }
  assert (Hbody : (length body = 8 + length (concat (map encode_row rows)))%nat).
  { unfold body. by rewrite length_app, length_be_put. }
  rewrite Hlen. destruct (_ <? 4 + 4 + 8) eqn:E; boolify; [lia|clear E].
  change (take 4 (kSnapshotMagic ++ ?l)) with (kSnapshotMagic ++ take 0 l).
  rewrite take_0, app_nil_r. unfold bytes_eqb. rewrite bool_decide_eq_true_2 by done. simpl orb.
  change (drop 4 (kSnapshotMagic ++ ?l)) with l.
  change (drop 8 (kSnapshotMagic ++ ?l)) with (drop 4 l).
  rewrite <- (length_be_put 4 kSnapshotVersion) at 1. rewrite take_app_exact.
  rewrite <- (length_be_put 4 kSnapshotVersion) at 2. rewrite drop_app_exact.
  rewrite be_get_put by done. simpl negb. cbv iota.
  unfold snap_read_u64, body. rewrite take_be8_put by done.
  pose proof (length_rows_encoded rows).
  destruct (_ <? N.of_nat (length rows)) eqn:E; boolify; [fold body in E; lia|].
  rewrite Hs, Hb, Hd. rewrite bool_decide_eq_true_2 by done. simpl negb. cbv iota.
  destruct (clear_batch fuel range s sm) as [b|]; [|done].
  rewrite Nat2N.id, <- (app_nil_r (concat (map encode_row rows))).
  by rewrite read_rows_encoded.
Qed.

(** C14: a snapshot carries a group over. Installing a machine's snapshot of a
    key range on another ready machine succeeds, and afterwards the second
    machine holds in that range exactly the rows of the first, while its rows
    outside the range and its request table are untouched. The range may be
    bounded or extend to the end of the key space. *)
Theorem snapshot_restore_roundtrip fuel range sm1 sm2 :
  snapshot_range range -> kv_ready (local_ sm1) -> kv_ready (local_ sm2) ->
  (length (range_rows range (kv_rows (local_ sm1))) < fuel)%nat ->
  (length (range_rows range (kv_rows (local_ sm2))) < fuel)%nat ->
  u64 (N.of_nat (length (range_rows range (kv_rows (local_ sm1))))) ->
  Forall (fun p => fits p.1 /\ fits p.2) (kv_rows (local_ sm1)) ->
  exists snap sm2',
    snapshot fuel range sm1 = Ok snap /\ restore fuel range snap sm2 = (sm2', Ok ()) /\
    request_results_ sm2' = request_results_ sm2 /\
    forall k, mfind k (kv_rows (local_ sm2')) =
      if range_contains range k then mfind k (kv_rows (local_ sm1))
      else mfind k (kv_rows (local_ sm2)).
Proof.
  intros Hrng Hr1 Hr2 Hf1 Hf2 Hn Hfit.
  destruct (start range) as [s|] eqn:Hs; [|by destruct Hrng as [Hb _]; unfold bad_bounds in Hb; rewrite Hs in Hb].
  eexists. rewrite (snapshot_spec fuel range sm1) by done.
  pose proof (kv_rows_sorted _ Hr1) as Hsort1. pose proof (kv_rows_sorted _ Hr2) as Hsort2.
  assert (Hfr : Forall (fun p => fits p.1 /\ fits p.2) (range_rows range (kv_rows (local_ sm1)))).
  { apply Forall_forall. intros p [_ Hp]%list_elem_of_filter. by rewrite Forall_forall in Hfit; apply Hfit. }
  destruct (clear_batch_spec fuel range s sm2 Hrng Hs Hr2 Hf2) as (b & Hcb & Hbv & Heff).
  destruct (kv_write_ready (fold_left (fun b p => batch_put p.1 p.2 b)
    (range_rows range (kv_rows (local_ sm1))) b) (local_ sm2) Hr2) as (local' & Hw & Hr' & Hrows).
  { by rewrite fold_batch_put, existsb_app, Hbv, puts_valid. }
  exists (mkStateMachine local' (request_results_ sm2)). split; [done|].
  rewrite (restore_parses fuel range _ sm2 s), Hcb, Hw by done.
  split; [done|]. split; [done|]. simpl. intros k. rewrite Hrows, fold_batch_put.
  rewrite (proj2 (find_apply_ops _ _ k Hsort2 ltac:(by rewrite existsb_app, Hbv, puts_valid))).
  rewrite log_effect_puts by (by apply (sorted_filter (fun p => range_contains range p.1))).
  unfold range_rows. rewrite (find_filter (range_contains range)) by done.
  specialize (Heff k). destruct (range_contains range k); [|done].
  by destruct (mfind k (kv_rows (local_ sm1))).
Qed.
End Properties.

(** The machine over the in-memory store is a [StateMachine]; one more than the
    number of rows is enough fuel for its walks. *)
#[export] Instance Kv_StateMachine : StateMachine (KVStateMachine MockStore MemoryRequestResultStore) := {|
  sm_apply := apply;
  sm_snapshot range sm := snapshot (S (length (data_ (local_ sm)))) range sm;
  sm_restore range snap sm := restore (S (length (data_ (local_ sm)))) range snap sm |}.

(** *** Concrete machines *)

Definition demo_local (d : omap ByteValue) : MockStore := mkMockStore d false true default_options None.
Definition machine (d : omap ByteValue) : KVStateMachine MockStore MemoryRequestResultStore :=
  mkStateMachine (demo_local d) ∅.
Definition put_entry_for (client request : N) (k : Key) (v : ByteValue) : LogEntry :=
  mkLogEntry request 1 (encode_proposal_payload
    (mkProposalPayload client request (batch_put k v empty_batch))).

Lemma apply_exactly_once_witness :
  let entry := put_entry_for 9 1 [x61] [x01] in
  let sm1 := (apply entry (machine [])).1 in
  let sm2 := apply_all [put_entry_for 7 5 [x61] [x02]; mkLogEntry 3 1 []] sm1 in
  apply entry sm2 = (sm2, Ok (bytes_of_string "applied")) \/
  apply entry sm2 = (sm2, Err stale_request) /\
    exists p, decode_proposal_payload (e_data entry) = Ok p /\
      overtaken p [put_entry_for 7 5 [x61] [x02]; mkLogEntry 3 1 []].
Proof.
  cbv zeta. apply (apply_exactly_once _ _ (machine []) _ (bytes_of_string "applied")).
  vm_compute. reflexivity.
Defined.

Lemma apply_twice_same_rows_witness :
  let sm1 := (apply (put_entry_for 9 1 [x61] [x01]) (machine [])).1 in
  let sm2 := (apply (put_entry_for 9 1 [x61] [x01]) sm1).1 in
  kv_rows (local_ sm2) = [([x61], [x01])].
Proof.
  cbv zeta.
  rewrite (apply_twice_same_rows (put_entry_for 9 1 [x61] [x01]) (machine [])
    (apply (put_entry_for 9 1 [x61] [x01]) (machine [])).1 _
    (Ok (bytes_of_string "applied")) (Ok (bytes_of_string "applied"))).
  - vm_compute. reflexivity.
  - split; [reflexivity|]. split; [reflexivity|constructor].
  - vm_compute. reflexivity.
  - vm_compute. reflexivity.
Defined.

Lemma snapshot_restore_roundtrip_witness :
  exists snap sm2',
    snapshot 10 (range_between [x61] [x7a]) (machine [([x61], [x01]); ([x7b], [x02])]) = Ok snap /\
    restore 10 (range_between [x61] [x7a]) snap (machine [([x62], [x09]); ([x7b], [x08])])
      = (sm2', Ok ()) /\
    mfind [x61] (kv_rows (local_ sm2')) = Some [x01] /\
    mfind [x62] (kv_rows (local_ sm2')) = None /\
    mfind [x7b] (kv_rows (local_ sm2')) = Some [x08].
Proof.
  destruct (snapshot_restore_roundtrip 10 (range_between [x61] [x7a])
    (machine [([x61], [x01]); ([x7b], [x02])]) (machine [([x62], [x09]); ([x7b], [x08])]))
    as (snap & sm2' & Hsn & Hre & _ & Hk).
  1: split; reflexivity.
  1,2: split; [reflexivity|]; split; [reflexivity|]; repeat constructor; reflexivity.
  1,2: apply Nat.ltb_lt; vm_compute; reflexivity.
  1: vm_compute; reflexivity.
  1: repeat constructor; reflexivity.
  exists snap, sm2'. rewrite !Hk. split; [exact Hsn|]. split; [exact Hre|].
  split; [reflexivity|]. split; reflexivity.
Defined.

(** A log replayed from its beginning does not go through. Only the latest
    request of a client is remembered, so once two requests of one client have
    been applied, applying the first of them again (as a node does that
    restarts from an older applied index than its durable request table)
    returns an error instead of being skipped. *)
Theorem replay_of_older_request_fails :
  let e1 := put_entry_for 9 1 [x61] [x01] in
  let e2 := put_entry_for 9 2 [x61] [x02] in
  let sm := (apply e2 (apply e1 (machine [])).1).1 in
  (apply e1 (machine [])).2 = Ok (bytes_of_string "applied") /\
  (apply e2 (apply e1 (machine [])).1).2 = Ok (bytes_of_string "applied") /\
  apply e1 sm = (sm, Err stale_request).
Proof. cbv zeta. split; [vm_compute; reflexivity|]. split; vm_compute; reflexivity. Qed.
