(* ===== verification/GroupRouter.v ===== *)
(** * Key routing between Raft groups: [raft/group_router.{h,cpp}]

    A routing table maps disjoint key ranges to groups; everything else,
    and all of [@system/], belongs to group 0. A validated table is what the
    multi-group store relies on: every key has one owner, a range or a batch is
    attributed to a group only when every key it touches belongs to it. *)

From stdpp Require Import pretty.
From S2P Require Import Prelude Bytes OMap KvTypes TxBuffer.
Local Open Scope N_scope.

Definition kSystemPrefix : bytes := bytes_of_string "@system/".

(** [std::string::starts_with] *)
Fixpoint starts_with (key prefix : bytes) : bool :=
  match prefix, key with
  | [], _ => true
  | _ :: _, [] => false
  | p :: prefix', k :: key' => bool_decide (p = k) && starts_with key' prefix'
  end.

Definition is_system_key (key : Key) : bool := starts_with key kSystemPrefix.

Record Range := mkRange { r_start : Key; r_end : Key; r_group_id : N }.

Record GroupRouter := mkGroupRouter { ranges_ : list Range }.

Definition empty_router : GroupRouter := mkGroupRouter [].

(** [std::upper_bound] on the starts, then insertion there. *)
Fixpoint insert_range (r : Range) (l : list Range) : list Range :=
  match l with
  | [] => [r]
  | r' :: l' => if bytes_ltb (r_start r) (r_start r') then r :: r' :: l'
                else r' :: insert_range r l'
  end.

Definition add_range (s e : Key) (group_id : N) (rt : GroupRouter) : GroupRouter :=
  mkGroupRouter (insert_range (mkRange s e group_id) (ranges_ rt)).

(** ** [validate] *)

Definition str (s : string) : bytes := bytes_of_string s.

Definition has_char (c : byte) (l : bytes) : bool := existsb (fun b => bool_decide (b = c)) l.
Definition comma : byte := x2c.
Definition semicolon : byte := x3b.

Definition range_text (r : Range) : bytes :=
  str "raft shards: range ['" ++ r_start r ++ str "', '" ++ r_end r.

(** The checks of one range, in order; [prev] is the range before it and
    [groups] the groups seen so far. *)
Definition check_range (prev : option Range) (groups : list N) (r : Range) : option bytes :=
  if r_group_id r =? 0 then
    Some (str "raft shards: data range for '" ++ r_start r ++
          str "' uses group 0 (reserved for @system/*)")
  else if existsb (N.eqb (r_group_id r)) groups then
    Some (str "raft shards: group " ++ str (pretty (r_group_id r)) ++
          str " appears more than once")
  else if bytes_leb (r_end r) (r_start r) then Some (range_text r ++ str "') is empty")
  else if has_char comma (r_start r) || has_char semicolon (r_start r) ||
          has_char comma (r_end r) || has_char semicolon (r_end r) then
    Some (str "raft shards: keys must not contain ',' or ';'")
  else if is_system_key (r_start r) ||
          (bytes_ltb (r_start r) kSystemPrefix && bytes_ltb kSystemPrefix (r_end r)) then
    Some (range_text r ++ str "') covers @system/* which is reserved for group 0")
  else if match prev with Some p => bytes_ltb (r_start r) (r_end p) | None => false end then
    Some (str "raft shards: ranges overlap at '" ++ r_start r ++ str "'")
  else None.

Fixpoint check_ranges (prev : option Range) (groups : list N) (l : list Range) : option bytes :=
  match l with
  | [] => None
  | r :: l' => match check_range prev groups r with
               | Some problem => Some problem
               | None => check_ranges (Some r) (r_group_id r :: groups) l'
               end
  end.

(** The second loop: the ids [1 .. size] are all present. *)
Fixpoint check_ids (n : nat) (id : N) (groups : list N) : option bytes :=
  match n with
  | O => None
  | S n' => if existsb (N.eqb id) groups then check_ids n' (id + 1) groups
            else Some (str "raft shards: group ids must be contiguous starting at 1 (missing group "
                       ++ str (pretty id) ++ str ")")
  end.

Definition validate (rt : GroupRouter) : option bytes :=
  match check_ranges None [] (ranges_ rt) with
  | Some problem => Some problem
  | None => check_ids (length (ranges_ rt)) 1 (map r_group_id (ranges_ rt))
  end.

(** ** Lookups *)

Fixpoint group_in (key : Key) (l : list Range) : N :=
  match l with
  | [] => 0
  | r :: l' => if bytes_ltb key (r_start r) then 0
               else if bytes_ltb key (r_end r) then r_group_id r
               else group_in key l'
  end.

Definition group_for (key : Key) (rt : GroupRouter) : N :=
  if is_system_key key then 0 else group_in key (ranges_ rt).

Definition crosses (s : Key) (e : option Key) (first : N) (rt : GroupRouter) (boundary : Key) : bool :=
  if bytes_leb boundary s then false
  else if match e with Some e => bytes_leb e boundary | None => false end then false
  else negb (group_for boundary rt =? first).

Definition range_group (s : Key) (e : option Key) (rt : GroupRouter) : option N :=
  let first := group_for s rt in
  if match e with Some e => bytes_leb e s | None => false end then Some first
  else if crosses s e first rt kSystemPrefix then None
  else if existsb (fun r => crosses s e first rt (r_start r) || crosses s e first rt (r_end r))
            (ranges_ rt) then None
  else Some first.

Definition op_group (o : Op) (rt : GroupRouter) : option N :=
  match op_type o with
  | kRemoveRange => range_group (pkey (op_data o)) (Some (range_end o)) rt
  | _ => Some (group_for (pkey (op_data o)) rt)
  end.

Fixpoint batch_group_loop (group : option N) (l : list Op) (rt : GroupRouter) : option N :=
  match l with
  | [] => group
  | o :: l' =>
      match op_group o rt with
      | None => None
      | Some g =>
          if match group with Some g' => negb (g' =? g) | None => false end then None
          else batch_group_loop (Some g) l' rt
      end
  end.

Definition batch_group (b : WriteBatch) (rt : GroupRouter) : option N :=
  batch_group_loop None (ops b) rt.

Definition group_count (rt : GroupRouter) : N :=
  fold_left (fun m r => if m <? r_group_id r then r_group_id r else m) (ranges_ rt) 0 + 1.

Fixpoint group_range_in (group_id : N) (l : list Range) : option KeyRange :=
  match l with
  | [] => None
  | r :: l' => if r_group_id r =? group_id
               then Some (mkKeyRange (Some (r_start r)) (Some (r_end r)) 0 kForward)
               else group_range_in group_id l'
  end.

Definition group_range (group_id : N) (rt : GroupRouter) : option KeyRange :=
  group_range_in group_id (ranges_ rt).

(** ** [parse_shards] *)

Definition is_blank (b : byte) : bool :=
  bool_decide (b = x20) || bool_decide (b = x09) || bool_decide (b = x0a) || bool_decide (b = x0d).

Fixpoint drop_blank (l : bytes) : bytes :=
  match l with
  | [] => []
  | b :: l' => if is_blank b then drop_blank l' else l
  end.

Definition trim (text : bytes) : bytes := reverse (drop_blank (reverse (drop_blank text))).

(** The digits accumulate modulo [2^64]. *)
Fixpoint parse_digits (value : N) (l : bytes) : option N :=
  match l with
  | [] => Some value
  | c :: l' =>
      let d := Byte.to_N c in
      if (d <? 48) || (57 <? d) then None
      else parse_digits ((value * 10 + (d - 48)) mod two64) l'
  end.

Definition parse_u64 (text : bytes) : option N :=
  match text with [] => None | _ => parse_digits 0 text end.

(** [find(c)]: the text before the first [c] and the text after it. *)
Fixpoint split_at (c : byte) (l : bytes) : option (bytes * bytes) :=
  match l with
  | [] => None
  | b :: l' => if bool_decide (b = c) then Some ([], l')
               else match split_at c l' with
                    | Some (before, after) => Some (b :: before, after)
                    | None => None
                    end
  end.

Definition entry_error (entry : bytes) (what : string) : bytes :=
  str "raft shards: entry '" ++ entry ++ str what.

Definition parse_entry (entry : bytes) : result bytes (Key * Key * N) :=
  match split_at comma entry with
  | None => Err (entry_error entry "' must look like <start>,<end>,<group_id>")
  | Some (s, rest) =>
      match split_at comma rest with
      | None => Err (entry_error entry "' must look like <start>,<end>,<group_id>")
      | Some (e, rest') =>
          if has_char comma rest'
          then Err (entry_error entry "' must look like <start>,<end>,<group_id>")
          else match parse_u64 (trim rest') with
               | None => Err (entry_error entry "' has an invalid group id")
               | Some g => Ok (s, e, g)
               end
      end
  end.

(** One turn of the loop per entry; the text gets shorter by at least the
    semicolon, so the length of the text is enough fuel ([parse_loop_fuel]). *)
Fixpoint parse_loop (fuel : nat) (text : bytes) (rt : GroupRouter) : result bytes GroupRouter :=
  match fuel with
  | O => Ok rt
  | S fuel' =>
      match split_at semicolon text with
      | None =>
          match trim text with
          | [] => Ok rt
          | entry => let* (s, e, g) := parse_entry entry in Ok (add_range s e g rt)
          end
      | Some (before, after) =>
          match trim before with
          | [] => Err (str "raft shards: empty entry")
          | entry => let* (s, e, g) := parse_entry entry in
                     parse_loop fuel' after (add_range s e g rt)
          end
      end
  end.

Definition parse_shards (text : bytes) : result bytes GroupRouter :=
  let* rt := parse_loop (S (length text)) text empty_router in
  match validate rt with Some problem => Err problem | None => Ok rt end.

(** ** What a validated table looks like *)

Definition in_r (r : Range) (key : Key) : bool :=
  negb (bytes_ltb key (r_start r)) && bytes_ltb key (r_end r).

Definition range_ok (r : Range) : Prop :=
  r_group_id r <> 0 /\ bytes_ltb (r_start r) (r_end r) = true /\
  is_system_key (r_start r) = false /\
  (bytes_ltb (r_start r) kSystemPrefix && bytes_ltb kSystemPrefix (r_end r)) = false.

(** [a] lies entirely before [b]. *)
Definition range_before (a b : Range) : Prop := bytes_ltb (r_start b) (r_end a) = false.

Record router_ok (rt : GroupRouter) : Prop := {
  ro_sorted : StronglySorted range_before (ranges_ rt);
  ro_ranges : Forall range_ok (ranges_ rt);
  ro_unique : NoDup (map r_group_id (ranges_ rt));
  ro_ids : forall id, 1 <= id <= N.of_nat (length (ranges_ rt)) ->
    id ∈ map r_group_id (ranges_ rt) }.

Lemma existsb_eqb_elem x l : existsb (N.eqb x) l = true <-> x ∈ l.
Proof.
  rewrite existsb_exists. split.
  - intros (y & Hy & E). boolify. subst. by apply list_elem_of_In.
  - intros Hx. exists x. split; [by apply list_elem_of_In|apply N.eqb_refl].
Qed.

Lemma check_range_ok prev groups r :
  check_range prev groups r = None ->
  range_ok r /\ r_group_id r ∉ groups /\ match prev with Some p => range_before p r | None => True end.
Proof.
  unfold check_range, range_ok, range_before, bytes_leb.
  destruct (r_group_id r =? 0) eqn:E1; [done|].
  destruct (existsb _ groups) eqn:E2; [done|].
  destruct (negb _) eqn:E3; [done|].
  destruct (_ || _ || _ || _) eqn:E4; [done|].
  destruct (is_system_key _ || _) eqn:E5; [done|].
  destruct (match prev with Some p => _ | None => _ end) eqn:E6; [done|]. intros _.
  boolify. split_and!; try done.
  - rewrite <- existsb_eqb_elem. congruence.
  - by destruct prev.
Qed.

Lemma range_before_trans a b c :
  range_ok b -> range_before a b -> range_before b c -> range_before a c.
Proof.
  unfold range_before. intros (_ & Hb & _) Hab Hbc.
  destruct (bytes_ltb (r_start c) (r_end a)) eqn:E; [|done].
  pose proof (bytes_ltb_le_trans _ _ _ E Hab) as E2.
  pose proof (bytes_ltb_trans _ _ _ E2 Hb). congruence.
Qed.

Lemma check_ranges_ok prev groups l :
  check_ranges prev groups l = None ->
  Forall range_ok l /\ StronglySorted range_before l /\ NoDup (map r_group_id l) /\
  (forall g, g ∈ map r_group_id l -> g ∉ groups) /\
  match prev with Some p => Forall (range_before p) l | None => True end.
Proof.
  revert prev groups; induction l as [|r l IH]; intros prev groups; simpl.
  { intros _. split_and!; try constructor; [intros g Hg; by apply elem_of_nil in Hg|by destruct prev]. }
  destruct (check_range prev groups r) eqn:E; [done|]. intros Hl.
  apply check_range_ok in E as (Hr & Hg & Hp).
  destruct (IH _ _ Hl) as (Hok & Hs & Hn & Hnot & Hpr). split_and!.
  - by constructor.
  - by constructor.
  - constructor; [|done]. intros Hin. apply (Hnot _ Hin). by left.
  - intros g [->|Hin]%elem_of_cons; [done|]. intros Hg'. apply (Hnot _ Hin). by right.
  - destruct prev as [p|]; [|done]. constructor; [done|].
    rewrite Forall_forall in *. intros x Hx. by eapply range_before_trans; eauto.
Qed.

Lemma check_ids_ok n id groups :
  check_ids n id groups = None -> forall i, id <= i < id + N.of_nat n -> i ∈ groups.
Proof.
  revert id; induction n as [|n IH]; intros id; simpl; [lia|].
  destruct (existsb _ groups) eqn:E; [|done]. apply existsb_eqb_elem in E. intros Hn i Hi.
  destruct (decide (i = id)) as [->|]; [done|]. apply (IH (id + 1)); [done|lia].
Qed.

Lemma validate_ok rt : validate rt = None -> router_ok rt.
Proof.
  unfold validate. destruct (check_ranges _ _ _) eqn:E; [done|]. intros Hi.
  apply check_ranges_ok in E as (Hok & Hs & Hn & _). split; try done.
  intros id Hid. eapply check_ids_ok; [done|lia].
Qed.

(** A string between a prefix and one of its extensions has the prefix. *)
Lemma starts_with_app p x : starts_with (p ++ x) p = true.
Proof. induction p; simpl; [by destruct x|]. by rewrite bool_decide_eq_true_2. Qed.

Lemma starts_with_inv k p : starts_with k p = true -> exists x, k = p ++ x.
Proof.
  revert k; induction p as [|b p IH]; intros [|c k]; simpl; try done; try (intros _; by eexists).
  intros [E Hr]%andb_prop. apply bool_decide_eq_true_1 in E as ->.
  destruct (IH _ Hr) as [x ->]. by exists x.
Qed.

Lemma starts_with_between p x a :
  bytes_ltb a p = false -> bytes_ltb (p ++ x) a = false -> starts_with a p = true.
Proof.
  revert a; induction p as [|b p IH]; intros [|c a]; simpl; try done.
  destruct (Byte.to_N c <? Byte.to_N b) eqn:E1; [done|].
  destruct (Byte.to_N b <? Byte.to_N c) eqn:E2; [done|]. boolify.
  assert (b = c) as -> by (apply byte_to_N_inj; lia).
  rewrite bool_decide_eq_true_2 by done. apply IH.
Qed.

Lemma range_no_system r key : range_ok r -> in_r r key = true -> is_system_key key = false.
Proof.
  intros (_ & Hlt & Hns & Hcov) Hin. unfold in_r in Hin. boolify.
  destruct (is_system_key key) eqn:E; [|done]. exfalso.
  destruct (starts_with_inv _ _ E) as [x ->].
  assert (Hsx : bytes_ltb (kSystemPrefix ++ x) kSystemPrefix = false).
  { destruct x as [|c x]; [rewrite app_nil_r; apply bytes_ltb_irrefl|].
    by apply bytes_ltb_asym, bytes_ltb_app_r. }
  destruct (bytes_ltb (r_start r) kSystemPrefix) eqn:E2.
  - rewrite andb_true_l in Hcov. pose proof (bytes_le_ltb_trans _ _ _ Hsx H0). congruence.
  - unfold is_system_key in Hns. by rewrite (starts_with_between _ x) in Hns.
Qed.

Section Valid.
Context (rt : GroupRouter) (Hok : router_ok rt).

Lemma group_in_found l key r :
  StronglySorted range_before l -> Forall range_ok l -> r ∈ l -> in_r r key = true ->
  group_in key l = r_group_id r.
Proof.
  intros Hs. induction Hs as [|r0 l Hs IH Hb]; intros Hf Hr Hin; [by apply elem_of_nil in Hr|].
  inversion Hf as [|? ? Hr0 Hf']; subst. unfold in_r in Hin. boolify. simpl.
  apply elem_of_cons in Hr as [->|Hr].
  - by rewrite H, H0.
  - rewrite Forall_forall in Hb. pose proof (Hb _ Hr) as Hbr. unfold range_before in Hbr.
    destruct Hr0 as (_ & Hlt & _ & _).
    assert (Hke : bytes_ltb key (r_end r0) = false) by (by eapply bytes_le_trans).
    assert (Hks : bytes_ltb key (r_start r0) = false).
    { destruct (bytes_ltb key (r_start r0)) eqn:E; [|done].
      pose proof (bytes_ltb_trans _ _ _ E Hlt). congruence. }
    rewrite Hks, Hke. apply IH; [done|done|]. unfold in_r. by rewrite H, H0.
Qed.

Lemma group_in_nonzero l key :
  group_in key l <> 0 -> exists r, r ∈ l /\ in_r r key = true /\ group_in key l = r_group_id r.
Proof.
  induction l as [|r l IH]; simpl; [done|]. unfold in_r.
  destruct (bytes_ltb key (r_start r)) eqn:E1; [done|].
  destruct (bytes_ltb key (r_end r)) eqn:E2.
  - intros _. exists r. rewrite E1, E2. split_and!; [left|done|done].
  - intros Hn. destruct (IH Hn) as (r' & Hr & Hin & Heq). exists r'.
    split_and!; [by right|done|done].
Qed.

Lemma group_for_in r key : r ∈ ranges_ rt -> in_r r key = true -> group_for key rt = r_group_id r.
Proof.
  intros Hr Hin. unfold group_for.
  rewrite (range_no_system r key); [|by eapply Forall_forall; [apply (ro_ranges _ Hok)|]|done].
  apply group_in_found; [apply (ro_sorted _ Hok)|apply (ro_ranges _ Hok)|done|done].
Qed.

Lemma group_for_nonzero key :
  group_for key rt <> 0 ->
  exists r, r ∈ ranges_ rt /\ in_r r key = true /\ group_for key rt = r_group_id r.
Proof.
  unfold group_for. destruct (is_system_key key); [done|]. apply group_in_nonzero.
Qed.

Lemma range_ok_in r : r ∈ ranges_ rt -> range_ok r.
Proof. intros Hr. eapply Forall_forall; [apply (ro_ranges _ Hok)|done]. Qed.

Lemma range_unique r r' :
  r ∈ ranges_ rt -> r' ∈ ranges_ rt -> r_group_id r = r_group_id r' -> r = r'.
Proof.
  intros Hr Hr' Heq. apply list_elem_of_lookup in Hr as [i Hi].
  apply list_elem_of_lookup in Hr' as [j Hj].
  assert (i = j) as ->; [|congruence].
  eapply (NoDup_lookup (map r_group_id (ranges_ rt))); [apply (ro_unique _ Hok)| |];
    rewrite list_lookup_fmap; [by rewrite Hi|by rewrite Hj, Heq].
Qed.
End Valid.

(** ** Claims *)

Lemma group_range_in_some g l kr :
  group_range_in g l = Some kr ->
  exists r, r ∈ l /\ r_group_id r = g /\
    kr = mkKeyRange (Some (r_start r)) (Some (r_end r)) 0 kForward.
Proof.
  induction l as [|r l IH]; simpl; [done|]. destruct (_ =? g) eqn:E; boolify.
  - intros [= <-]. exists r. split_and!; [left|done|done].
  - intros H. destruct (IH H) as (r' & ? & ? & ?). exists r'. split_and!; [by right|done|done].
Qed.

Lemma group_range_in_exists g l : g ∈ map r_group_id l -> is_Some (group_range_in g l).
Proof.
  induction l as [|r l IH]; simpl; [by intros ?%elem_of_nil|].
  intros [->|Hin]%elem_of_cons; [rewrite N.eqb_refl; by eexists|].
  destruct (_ =? g); [by eexists|by apply IH].
Qed.

Definition max_group (l : list Range) (m : N) : N :=
  fold_left (fun m r => if m <? r_group_id r then r_group_id r else m) l m.

Lemma max_group_spec l m b :
  m <= b -> (forall r, r ∈ l -> r_group_id r <= b) ->
  m <= max_group l m <= b /\ forall r, r ∈ l -> r_group_id r <= max_group l m.
Proof.
  revert m; induction l as [|r l IH]; intros m Hm Hl; cbn [max_group fold_left].
  { split; [lia|]. intros r Hr. by apply elem_of_nil in Hr. }
  fold (max_group l (if m <? r_group_id r then r_group_id r else m)).
  pose proof (Hl r ltac:(left)) as Hr0.
  destruct (IH (if m <? r_group_id r then r_group_id r else m)) as [Hb Hr].
  - destruct (m <? r_group_id r) eqn:E; boolify; lia.
  - intros r' Hr'. apply Hl. by right.
  - split; [destruct (m <? r_group_id r) eqn:E; boolify; lia|].
    intros r' [->|Hr']%elem_of_cons; [|by apply Hr].
    destruct (m <? r_group_id r) eqn:E; boolify; lia.
Qed.

Lemma ids_exact rt g :
  router_ok rt -> g ∈ map r_group_id (ranges_ rt) <-> 1 <= g <= N.of_nat (length (ranges_ rt)).
Proof.
  intros Hok. split; [|apply (ro_ids _ Hok)]. intros Hg.
  assert (Hincl : incl (map r_group_id (ranges_ rt)) (map (fun i => N.of_nat (S i)) (List.seq 0 (length (ranges_ rt))))).
  { apply NoDup_length_incl.
    - apply Finite.Injective_map_NoDup; [intros x y ?; lia|apply List.seq_NoDup].
    - by rewrite !length_map, List.length_seq.
    - intros x Hx. apply in_map_iff in Hx as (i & <- & Hi). apply in_seq in Hi.
      apply list_elem_of_In, (ro_ids _ Hok). lia. }
  apply list_elem_of_In, Hincl, in_map_iff in Hg as (i & Hgi & Hi). subst g. apply in_seq in Hi. lia.
Qed.

Lemma group_count_ok rt :
  router_ok rt -> group_count rt = N.of_nat (length (ranges_ rt)) + 1.
Proof.
  intros Hok. unfold group_count. fold (max_group (ranges_ rt) 0).
  assert (Hid : forall r, r ∈ ranges_ rt -> r_group_id r <= N.of_nat (length (ranges_ rt))).
  { intros r Hr. apply ids_exact; [done|]. by apply list_elem_of_fmap_2. }
  destruct (max_group_spec (ranges_ rt) 0 _ ltac:(lia) Hid) as [[_ Hle] Hall].
  enough (N.of_nat (length (ranges_ rt)) <= max_group (ranges_ rt) 0) by lia.
  destruct (ranges_ rt) as [|r l] eqn:E; [simpl; lia|]. rewrite <- E in *.
  assert (Hin : N.of_nat (length (ranges_ rt)) ∈ map r_group_id (ranges_ rt)).
  { apply ids_exact; [done|]. rewrite E. simpl. lia. }
  apply list_elem_of_fmap in Hin as (r' & -> & Hr'). by apply Hall.
Qed.

(** A validated table gives every key one owner. Groups are numbered
    [0 .. group_count-1] without holes; every data group owns exactly the keys
    of its range, system keys belong to group 0, and [group_for] never answers
    a group outside that numbering. *)
Theorem routing_partition rt key :
  validate rt = None ->
  group_for key rt < group_count rt /\
  (is_system_key key = true -> group_for key rt = 0) /\
  (forall g, 1 <= g < group_count rt <-> is_Some (group_range g rt)) /\
  (forall g kr, group_range g rt = Some kr -> range_contains kr key = (group_for key rt =? g)).
Proof.
  intros Hok%validate_ok. pose proof (group_count_ok rt Hok) as Hc. split_and!.
  - destruct (N.eq_dec (group_for key rt) 0) as [->|Hn]; [lia|].
    destruct (group_for_nonzero rt key Hn) as (r & Hr & _ & ->).
    pose proof (proj1 (ids_exact rt (r_group_id r) Hok)) as Hid.
    specialize (Hid ltac:(by apply list_elem_of_fmap_2)). lia.
  - unfold group_for. by intros ->.
  - intros g. unfold group_range. split.
    + intros Hg. apply group_range_in_exists, ids_exact; [done|lia].
    + intros [kr Hkr]. apply group_range_in_some in Hkr as (r & Hr & <- & _).
      assert (r_group_id r ∈ map r_group_id (ranges_ rt)) by (by apply list_elem_of_fmap_2).
      apply ids_exact in H; [lia|done].
  - intros g kr Hkr. apply group_range_in_some in Hkr as (r & Hr & <- & ->).
    assert (Hcon : range_contains (mkKeyRange (Some (r_start r)) (Some (r_end r)) 0 kForward) key
      = in_r r key).
    { unfold range_contains, in_r, bytes_leb. simpl.
      by destruct (bytes_ltb key (r_start r)), (bytes_ltb key (r_end r)). }
    rewrite Hcon. symmetry. destruct (in_r r key) eqn:E.
    + apply N.eqb_eq. by apply group_for_in.
    + apply N.eqb_neq. intros Heq.
      destruct (range_ok_in rt Hok r Hr) as (Hz & _).
      destruct (group_for_nonzero rt key ltac:(congruence)) as (r' & Hr' & Hin & Heq').
      assert (r = r') as -> by (apply (range_unique rt Hok); congruence). congruence.
Qed.

(** The keys of a half-open range. *)
Definition key_between (s : Key) (e : option Key) (key : Key) : bool :=
  negb (bytes_ltb key s) && match e with Some e => bytes_ltb key e | None => true end.

Lemma crosses_spec s e first rt b :
  crosses s e first rt b = true <->
  bytes_ltb s b = true /\ key_between s e b = true /\ group_for b rt <> first.
Proof.
  unfold crosses, key_between, bytes_leb. destruct (bytes_ltb s b) eqn:E1; simpl; [|naive_solver].
  rewrite (bytes_ltb_asym _ _ E1). simpl.
  destruct e as [e|]; simpl; [destruct (bytes_ltb b e); simpl|];
    rewrite ?negb_true_iff, ?N.eqb_neq; naive_solver.
Qed.

(** Two keys of a range with different owners have a boundary of the table
    between them. *)
Lemma boundary_between rt s key :
  router_ok rt -> bytes_ltb key s = false -> group_for key rt <> group_for s rt ->
  exists r b, r ∈ ranges_ rt /\ (b = r_start r \/ b = r_end r) /\
    bytes_ltb s b = true /\ bytes_ltb key b = false /\ group_for b rt <> group_for s rt.
Proof.
  intros Hok Hle Hne. destruct (N.eq_dec (group_for key rt) 0) as [Hz|Hz].
  - destruct (group_for_nonzero rt s ltac:(congruence)) as (r & Hr & Hin & Hg).
    destruct (range_ok_in rt Hok r Hr) as (Hrz & Hlt & _).
    exists r, (r_end r). unfold in_r in Hin. boolify. split_and!; auto.
    + destruct (bytes_ltb key (r_end r)) eqn:E; [|done]. exfalso. apply Hne.
      rewrite Hg. apply group_for_in; [done|done|]. unfold in_r. rewrite E, andb_true_r.
      apply negb_true_iff. by eapply bytes_le_trans.
    + intros Heq. rewrite Hg in Heq.
      destruct (group_for_nonzero rt (r_end r) ltac:(congruence)) as (r' & Hr' & Hin' & Hg').
      assert (r = r') as <- by (apply (range_unique rt Hok); congruence).
      unfold in_r in Hin'. boolify. by rewrite bytes_ltb_irrefl in H2.
  - destruct (group_for_nonzero rt key Hz) as (r & Hr & Hin & Hg).
    destruct (range_ok_in rt Hok r Hr) as (Hrz & Hlt & _).
    exists r, (r_start r). unfold in_r in Hin. boolify. split_and!; auto.
    + destruct (bytes_ltb s (r_start r)) eqn:E; [done|]. exfalso. apply Hne. rewrite Hg.
      symmetry. apply group_for_in; [done|done|]. unfold in_r. rewrite E. simpl.
      by eapply bytes_le_ltb_trans.
    + rewrite (group_for_in rt Hok r); [congruence|done|]. unfold in_r.
      by rewrite bytes_ltb_irrefl, Hlt.
Qed.

Lemma range_group_iff rt s e g :
  router_ok rt -> match e with Some e => bytes_ltb s e | None => true end = true ->
  range_group s e rt = Some g <->
  forall key, key_between s e key = true -> group_for key rt = g.
Proof.
  intros Hok Hne.
  assert (Hs : key_between s e s = true).
  { unfold key_between. by rewrite bytes_ltb_irrefl. }
  unfold range_group. replace (match e with Some e0 => bytes_leb e0 s | None => false end) with false
    by (destruct e; [unfold bytes_leb; by rewrite Hne|done]).
  split.
  - intros Hrg key Hk. destruct (crosses _ _ _ _ kSystemPrefix) eqn:E1; [done|].
    destruct (existsb _ _) eqn:E2; [done|]. injection Hrg as <-.
    destruct (N.eq_dec (group_for key rt) (group_for s rt)) as [|Hd]; [done|]. exfalso.
    pose proof Hk as Hk'. unfold key_between in Hk'. boolify.
    destruct (boundary_between rt s key Hok H Hd) as (r & b & Hr & Hb & Hsb & Hkb & Hgb).
    assert (Hcr : crosses s e (group_for s rt) rt b = true).
    { apply crosses_spec. split_and!; [done| |done]. unfold key_between.
      rewrite (bytes_ltb_asym _ _ Hsb). simpl. destruct e as [e|]; [|done].
      by eapply bytes_le_ltb_trans. }
    assert (Hex : existsb (fun r => crosses s e (group_for s rt) rt (r_start r) ||
      crosses s e (group_for s rt) rt (r_end r)) (ranges_ rt) = true); [|congruence].
    apply existsb_exists. exists r. split; [by apply list_elem_of_In|].
    apply orb_true_iff. destruct Hb as [->| ->]; auto.
  - intros Hall. pose proof (Hall s Hs) as Hg.
    assert (Hno : forall b, crosses s e (group_for s rt) rt b = false).
    { intros b. destruct (crosses _ _ _ _ b) eqn:E; [|done].
      apply crosses_spec in E as (_ & Hb & Hn). by rewrite (Hall b Hb), Hg in Hn. }
    rewrite Hno. destruct (existsb _ _) eqn:Hex; [|by rewrite Hg].
    apply existsb_exists in Hex as (r & _ & Hr). by rewrite !Hno in Hr.
Qed.

(** A range is attributed to a group exactly when it lies inside it.
    For a non-empty range [[s, e)] (or [[s, +oo)]) and a validated table,
    [range_group] answers [Some g] if and only if every key of the range is
    owned by [g]; it answers [None] only when two keys have different owners. *)
Theorem range_group_exact rt s e g :
  validate rt = None -> match e with Some e => bytes_ltb s e | None => true end = true ->
  (range_group s e rt = Some g <->
   forall key, key_between s e key = true -> group_for key rt = g) /\
  (range_group s e rt = None ->
   exists key, key_between s e key = true /\ group_for key rt <> group_for s rt).
Proof.
  intros Hok%validate_ok Hne. split; [by apply range_group_iff|].
  unfold range_group. intros Hrg.
  assert (Hb : exists b, crosses s e (group_for s rt) rt b = true).
  { destruct (match e with Some e0 => bytes_leb e0 s | None => false end); [done|].
    destruct (crosses _ _ _ _ kSystemPrefix) eqn:E1; [by eexists|].
    destruct (existsb _ _) eqn:E2; [|done].
    apply existsb_exists in E2 as (r & _ & Hr). apply orb_true_iff in Hr as [?|?]; by eexists. }
  destruct Hb as [b Hb]. apply crosses_spec in Hb as (_ & Hk & Hg). by exists b.
Qed.

Lemma batch_group_loop_some group l rt g :
  batch_group_loop group l rt = Some g ->
  match group with Some g' => g' = g | None => True end /\ Forall (fun o => op_group o rt = Some g) l.
Proof.
  revert group; induction l as [|o l IH]; intros group; simpl.
  { intros ->. by split; [|constructor]. }
  destruct (op_group o rt) as [g'|] eqn:E; [|done].
  destruct (match group with Some g'0 => _ | None => _ end) eqn:E2; [done|]. intros Hl.
  destruct (IH _ Hl) as [<- Hf]. split; [|by constructor].
  destruct group as [g0|]; [|done]. boolify. done.
Qed.

(** An operation is attributed to a group only if it writes nowhere else. *)
Lemma op_group_owner rt o g k :
  router_ok rt -> op_group o rt = Some g -> op_effect o k <> OvNone -> group_for k rt = g.
Proof.
  intros Hok Hf Hk. unfold op_group, op_effect in *. destruct (op_type o).
  - case_bool_decide; [subst; congruence|done].
  - case_bool_decide; [subst; congruence|done].
  - destruct (in_range _ _ _) eqn:E; [|done]. unfold in_range in E. boolify.
    eapply range_group_iff in Hf; [exact Hf|done| |].
    + by eapply bytes_le_ltb_trans.
    + unfold key_between. by rewrite H, H0.
Qed.

(** A batch is sent to one group only if it writes nowhere else. When
    [batch_group] answers [Some g],
    every key any of its operations touches is owned by [g]; so a
    batch that would cross groups is never attributed to a group. *)
Theorem batch_group_owner rt b g o k :
  validate rt = None -> batch_group b rt = Some g ->
  o ∈ ops b -> op_effect o k <> OvNone -> group_for k rt = g.
Proof.
  intros Hok%validate_ok Hb Ho. apply batch_group_loop_some in Hb as [_ Hf].
  rewrite Forall_forall in Hf. by apply op_group_owner, Hf.
Qed.

(** *** Parsing *)

Lemma split_at_length c l b a : split_at c l = Some (b, a) -> (length a < length l)%nat.
Proof.
  revert b; induction l as [|x l IH]; intros b; simpl; [done|].
  case_bool_decide; [intros [= _ <-]; lia|].
  destruct (split_at c l) as [[b' a']|]; [|done]. intros [= _ <-].
  specialize (IH b' eq_refl). lia.
Qed.

(** More fuel than the text is long changes nothing: the loop ends by itself. *)
Lemma parse_loop_fuel text rt f1 f2 :
  (length text < f1)%nat -> (length text < f2)%nat ->
  parse_loop f1 text rt = parse_loop f2 text rt.
Proof.
  revert text rt f2; induction f1 as [|f1 IH]; intros text rt [|f2] H1 H2; try lia. simpl.
  destruct (split_at semicolon text) as [[b a]|] eqn:E; [|done].
  apply split_at_length in E. destruct (trim b) as [|c t]; [done|].
  destruct (parse_entry (c :: t)) as [[[s e] g]|]; simpl; [|done]. apply IH; lia.
Qed.

(** The router a shard text describes, and its use. *)
Definition shard_text : bytes :=
  bytes_of_string "data/a,data/m,2; data/m,data/z,1;".

Definition shard_router : GroupRouter :=
  mkGroupRouter [mkRange (str "data/a") (str "data/m") 2; mkRange (str "data/m") (str "data/z") 1].

Example parse_shards_example : parse_shards shard_text = Ok shard_router.
Proof. vm_compute. reflexivity. Qed.

Lemma routing_partition_witness :
  range_contains (mkKeyRange (Some (str "data/a")) (Some (str "data/m")) 0 kForward) (str "data/b")
    = (group_for (str "data/b") shard_router =? 2) /\
  group_for (str "data/b") shard_router = 2.
Proof.
  split; [|vm_compute; reflexivity].
  apply (routing_partition shard_router (str "data/b")); vm_compute; reflexivity.
Defined.

Lemma range_group_exact_witness :
  range_group (str "data/b") (Some (str "data/m")) shard_router = Some 2 /\
  (forall key, key_between (str "data/b") (Some (str "data/m")) key = true ->
     group_for key shard_router = 2) /\
  exists key, key_between (str "data/b") (Some (str "data/n")) key = true /\
    group_for key shard_router <> group_for (str "data/b") shard_router.
Proof.
  split; [vm_compute; reflexivity|]. split.
  - apply (range_group_exact shard_router (str "data/b") (Some (str "data/m")) 2);
      vm_compute; reflexivity.
  - apply (range_group_exact shard_router (str "data/b") (Some (str "data/n")) 2);
      vm_compute; reflexivity.
Defined.

Lemma batch_group_owner_witness :
  group_for (str "data/c") shard_router = 2.
Proof.
  apply (batch_group_owner shard_router
    (batch_put (str "data/k") [] (batch_remove_range (str "data/b") (str "data/d") empty_batch)) 2
    (mkOp kRemoveRange (mkKVPair (str "data/b") None) (str "data/d")) (str "data/c")).
  - vm_compute; reflexivity.
  - vm_compute; reflexivity.
  - left.
  - vm_compute; discriminate.
Defined.

(** The group id of a shard entry is read modulo [2^64]: an id that does
    not fit is not refused but wraps around, here to the valid group 1. *)
Theorem shard_group_id_wraps :
  parse_u64 (str "18446744073709551617") = Some 1 /\
  parse_shards (str "data/a,data/m,18446744073709551617") =
    parse_shards (str "data/a,data/m,1") /\
  is_ok (parse_shards (str "data/a,data/m,18446744073709551617")) = true.
Proof. split; [vm_compute; reflexivity|]. split; vm_compute; reflexivity. Qed.
