(* ===== verification/LogStore.v ===== *)
(** * The durable Raft log: the [LogStore] interface and [raft/memory_log_store.h]

    [LogStore] is a class of operations; [LogStoreLaws] says what the node
    relies on, in terms of an abstract view of the store (the hard state, the
    snapshot boundary, the last index and the entries above the boundary). An
    operation may fail; a failed operation leaves the view unchanged.
    [MemoryLogStore] satisfies the laws. *)

From S2P Require Import Prelude Bytes Wire RaftTypes.
Local Open Scope N_scope.

Record SnapshotMetadata := mkSnapshotMetadata {
  last_included_index : N; last_included_term : N }.

Definition no_snapshot : SnapshotMetadata := mkSnapshotMetadata 0 0.

Class LogStore (L : Type) := {
  ls_append : LogEntry -> L -> L * result Error unit;
  ls_at : N -> L -> result Error LogEntry;
  ls_truncate_suffix : N -> L -> L * result Error unit;
  ls_save_hard_state : HardState -> L -> L * result Error unit;
  ls_load_hard_state : L -> result Error HardState;
  ls_last_index : L -> result Error N;
  ls_snapshot_metadata : L -> result Error SnapshotMetadata;
  ls_install_snapshot : SnapshotMetadata -> L -> L * result Error unit }.

(** The abstract contents of a store. *)
Record log_view := mkLogView {
  lv_hard : HardState;
  lv_snap : SnapshotMetadata;
  lv_last : N;
  lv_entry : N -> option LogEntry }.

Record view_wf (v : log_view) : Prop := {
  vw_snap : last_included_index (lv_snap v) <= lv_last v;
  vw_some : forall i, is_Some (lv_entry v i) <->
    last_included_index (lv_snap v) < i <= lv_last v;
  vw_index : forall i e, lv_entry v i = Some e -> e_index e = i }.

(** Views agree on everything, entry by entry. *)
Record view_eq (v w : log_view) : Prop := {
  ve_hard : lv_hard v = lv_hard w;
  ve_snap : lv_snap v = lv_snap w;
  ve_last : lv_last v = lv_last w;
  ve_entry : forall i, lv_entry v i = lv_entry w i }.

#[export] Instance view_eq_equivalence : Equivalence view_eq.
Proof.
  split.
  - by intros v.
  - intros v w [Hh Hs Hl He]. split; auto.
  - intros u v w [H1 H2 H3 H4] [G1 G2 G3 G4]. split; try congruence.
Qed.

#[export] Instance view_wf_proper : Proper (view_eq ==> iff) view_wf.
Proof.
  assert (Himp : forall v w, view_eq v w -> view_wf v -> view_wf w).
  { intros v w [Hh Hs Hl He] [W1 W2 W3].
    split; [congruence| |]; intros i; rewrite <- ?He, <- ?Hs, <- ?Hl; auto. }
  intros v w Heq. split; apply Himp; [done|by symmetry].
Qed.

(** The effect of each operation on the view. *)
Definition view_append (e : LogEntry) (v : log_view) : log_view :=
  mkLogView (lv_hard v) (lv_snap v) (e_index e)
    (fun i => if i =? e_index e then Some e else lv_entry v i).
Definition view_truncate (from : N) (v : log_view) : log_view :=
  mkLogView (lv_hard v) (lv_snap v) (from - 1)
    (fun i => if from <=? i then None else lv_entry v i).
Definition view_hard (h : HardState) (v : log_view) : log_view :=
  mkLogView h (lv_snap v) (lv_last v) (lv_entry v).
Definition view_install (m : SnapshotMetadata) (v : log_view) : log_view :=
  mkLogView (lv_hard v) m (N.max (lv_last v) (last_included_index m))
    (fun i => if i <=? last_included_index m then None else lv_entry v i).

(** One update: it succeeded and had its effect, or failed and had none. *)
Definition updates {L} (view : L -> log_view) (wf : L -> Prop)
    (pre : Prop) (f : log_view -> log_view) (s s' : L) (r : result Error unit) : Prop :=
  match r with
  | Ok _ => pre /\ wf s' /\ view_eq (view s') (f (view s))
  | Err _ => wf s' /\ view_eq (view s') (view s)
  end.

Class LogStoreLaws (L : Type) `{LogStore L} := {
  ls_view : L -> log_view;
  ls_wf : L -> Prop;
  ls_view_wf : forall s, ls_wf s -> view_wf (ls_view s);
  ls_append_spec : forall e s s' r, ls_wf s -> ls_append e s = (s', r) ->
    updates ls_view ls_wf (e_index e = lv_last (ls_view s) + 1 /\ e_term e <> 0)
      (view_append e) s s' r;
  ls_truncate_spec : forall from s s' r, ls_wf s -> ls_truncate_suffix from s = (s', r) ->
    updates ls_view ls_wf
      (last_included_index (lv_snap (ls_view s)) < from <= lv_last (ls_view s) + 1)
      (view_truncate from) s s' r;
  ls_save_spec : forall h s s' r, ls_wf s -> ls_save_hard_state h s = (s', r) ->
    updates ls_view ls_wf True (view_hard h) s s' r;
  ls_install_spec : forall m s s' r, ls_wf s ->
    last_included_index (lv_snap (ls_view s)) <= last_included_index m ->
    ls_install_snapshot m s = (s', r) ->
    updates ls_view ls_wf (last_included_index m <> 0 /\ last_included_term m <> 0)
      (view_install m) s s' r;
  ls_at_spec : forall i s e, ls_wf s -> ls_at i s = Ok e ->
    e_index e = i /\ 0 < i /\
    (if i =? last_included_index (lv_snap (ls_view s))
     then e_term e = last_included_term (lv_snap (ls_view s))
     else lv_entry (ls_view s) i = Some e);
  ls_load_spec : forall s h, ls_wf s -> ls_load_hard_state s = Ok h -> h = lv_hard (ls_view s);
  ls_last_spec : forall s n, ls_wf s -> ls_last_index s = Ok n -> n = lv_last (ls_view s);
  ls_snap_spec : forall s m, ls_wf s -> ls_snapshot_metadata s = Ok m -> m = lv_snap (ls_view s) }.

(** ** [class MemoryLogStore] *)

Record MemoryLogStore := mkMemoryLogStore {
  entries_ : list LogEntry; last_index_ : N; snapshot_meta_ : SnapshotMetadata;
  ml_hard_state_ : HardState; hard_state_writes_ : N }.

Definition new_log_store : MemoryLogStore :=
  mkMemoryLogStore [] kInvalidIndex no_snapshot (mkHardState 0 None) 0.

Definition log_error (m : string) : Error := mkError EcInvalidArgument m.

Definition ml_append (entry : LogEntry) (s : MemoryLogStore) : MemoryLogStore * result Error unit :=
  if (e_index entry =? kInvalidIndex) || (e_term entry =? 0)
  then (s, Err (log_error "invalid log entry"))
  else if negb (e_index entry =? last_index_ s + 1)
  then (s, Err (log_error "append must extend the log by exactly one entry"))
  else (mkMemoryLogStore (entries_ s ++ [entry]) (e_index entry) (snapshot_meta_ s)
          (ml_hard_state_ s) (hard_state_writes_ s), Ok ()).

(** The final read of the vector is in range whenever the store is well formed
    ([ml_wf]); out of range it would be undefined, which the last case stands
    for. *)
Definition ml_at (index : N) (s : MemoryLogStore) : result Error LogEntry :=
  if (index =? kInvalidIndex) || (last_index_ s <? index)
  then Err (log_error "log index out of range")
  else if index <? last_included_index (snapshot_meta_ s)
  then Err (log_error "log index is inside the compacted snapshot prefix")
  else if index =? last_included_index (snapshot_meta_ s)
  then Ok (mkLogEntry index (last_included_term (snapshot_meta_ s)) [])
  else match entries_ s !! N.to_nat (index - 1 - last_included_index (snapshot_meta_ s)) with
       | Some e => Ok e
       | None => Err (mkError EcInternalError "read past the end of the entries")
       end.

Definition ml_truncate_suffix (from : N) (s : MemoryLogStore) : MemoryLogStore * result Error unit :=
  if (from =? kInvalidIndex) || (from <=? last_included_index (snapshot_meta_ s)) ||
     (last_index_ s + 1 <? from)
  then (s, Err (log_error "truncate suffix out of range"))
  else (mkMemoryLogStore
          (take (N.to_nat (from - 1 - last_included_index (snapshot_meta_ s))) (entries_ s))
          (from - 1) (snapshot_meta_ s) (ml_hard_state_ s) (hard_state_writes_ s), Ok ()).

Definition ml_save_hard_state (h : HardState) (s : MemoryLogStore)
    : MemoryLogStore * result Error unit :=
  (mkMemoryLogStore (entries_ s) (last_index_ s) (snapshot_meta_ s) h (hard_state_writes_ s + 1),
   Ok ()).

Fixpoint drop_upto (index : N) (l : list LogEntry) : list LogEntry :=
  match l with
  | [] => []
  | e :: l' => if e_index e <=? index then drop_upto index l' else l
  end.

Definition ml_install_snapshot (m : SnapshotMetadata) (s : MemoryLogStore)
    : MemoryLogStore * result Error unit :=
  if (last_included_index m =? kInvalidIndex) || (last_included_term m =? 0)
  then (s, Err (log_error "invalid snapshot metadata"))
  else (mkMemoryLogStore (drop_upto (last_included_index m) (entries_ s))
          (if last_index_ s <? last_included_index m then last_included_index m else last_index_ s)
          m (ml_hard_state_ s) (hard_state_writes_ s), Ok ()).

#[export] Instance Memory_LogStore : LogStore MemoryLogStore := {|
  ls_append := ml_append; ls_at := ml_at; ls_truncate_suffix := ml_truncate_suffix;
  ls_save_hard_state := ml_save_hard_state;
  ls_load_hard_state := fun s => Ok (ml_hard_state_ s);
  ls_last_index := fun s => Ok (last_index_ s);
  ls_snapshot_metadata := fun s => Ok (snapshot_meta_ s);
  ls_install_snapshot := ml_install_snapshot |}.

(** *** The memory store satisfies the laws *)

(** The entries are numbered consecutively from the snapshot boundary on. *)
Record ml_wf (s : MemoryLogStore) : Prop := {
  mw_last : last_index_ s = last_included_index (snapshot_meta_ s) + N.of_nat (length (entries_ s));
  mw_index : forall k e, entries_ s !! k = Some e ->
    e_index e = last_included_index (snapshot_meta_ s) + 1 + N.of_nat k }.

Definition ml_entry (s : MemoryLogStore) (i : N) : option LogEntry :=
  if i <=? last_included_index (snapshot_meta_ s) then None
  else entries_ s !! N.to_nat (i - 1 - last_included_index (snapshot_meta_ s)).

Definition ml_view (s : MemoryLogStore) : log_view :=
  mkLogView (ml_hard_state_ s) (snapshot_meta_ s) (last_index_ s) (ml_entry s).

Lemma ml_view_wf s : ml_wf s -> view_wf (ml_view s).
Proof.
  intros [Hl Hi]. split; simpl; [lia| |].
  - intros i. unfold ml_entry. destruct (_ <=? _) eqn:E; boolify.
    + split; [by intros [? ?]|lia].
    + rewrite lookup_lt_is_Some. lia.
  - intros i e. unfold ml_entry. destruct (_ <=? _) eqn:E; [done|]. boolify.
    intros He%Hi. lia.
Qed.

Lemma ml_append_updates e s s' r :
  ml_wf s -> ml_append e s = (s', r) ->
  updates ml_view ml_wf (e_index e = lv_last (ml_view s) + 1 /\ e_term e <> 0) (view_append e) s s' r.
Proof.
  intros [Hl Hi]. unfold ml_append.
  destruct (_ || _) eqn:E1; [by intros [= <- <-]|].
  destruct (negb _) eqn:E2; [by intros [= <- <-]|]. boolify. intros [= <- <-]. simpl.
  split; [done|]. split.
  - split; simpl; [rewrite length_app; simpl; lia|]. intros k e'.
    rewrite lookup_app_Some. intros [Hk|[Hlen Hk]]; [by apply Hi|].
    apply list_lookup_singleton_Some in Hk as [Hk <-]. lia.
  - split; simpl; try done. intros i. unfold ml_entry. simpl.
    destruct (i <=? _) eqn:E; boolify.
    + destruct (i =? _) eqn:F; boolify; [lia|done].
    + destruct (i =? _) eqn:F; boolify.
      * subst i. rewrite lookup_app_r by lia.
        replace (_ - length (entries_ s))%nat with 0%nat by lia. done.
      * destruct (decide (N.to_nat (i - 1 - last_included_index (snapshot_meta_ s))
            < length (entries_ s))%nat); [by rewrite lookup_app_l|].
        rewrite !lookup_ge_None_2; [done|lia|rewrite length_app; simpl; lia].
Qed.

Lemma ml_truncate_updates from s s' r :
  ml_wf s -> ml_truncate_suffix from s = (s', r) ->
  updates ml_view ml_wf
    (last_included_index (lv_snap (ml_view s)) < from <= lv_last (ml_view s) + 1)
    (view_truncate from) s s' r.
Proof.
  intros [Hl Hi]. unfold ml_truncate_suffix, kInvalidIndex.
  destruct (_ || _) eqn:E1; [by intros [= <- <-]|]. boolify. intros [= <- <-]. simpl.
  split; [lia|]. split.
  - split; simpl; [rewrite length_take; lia|]. intros k e [Hk _]%lookup_take_Some. by apply Hi.
  - split; simpl; try done. intros i. unfold ml_entry. simpl.
    destruct (i <=? _) eqn:E; destruct (from <=? i) eqn:F; boolify; try done.
    + apply lookup_take_ge. lia.
    + apply lookup_take_lt. lia.
Qed.

Lemma ml_save_updates h s s' r :
  ml_wf s -> ml_save_hard_state h s = (s', r) -> updates ml_view ml_wf True (view_hard h) s s' r.
Proof. intros [Hl Hi] [= <- <-]. by repeat split. Qed.

Lemma drop_upto_drop base index l :
  (forall k e, l !! k = Some e -> e_index e = base + 1 + N.of_nat k) ->
  drop_upto index l = drop (N.to_nat (index - base)) l.
Proof.
  revert base; induction l as [|e l IH]; intros base Hi; simpl; [by rewrite drop_nil|].
  pose proof (Hi 0%nat e eq_refl) as He. destruct (e_index e <=? index) eqn:E; boolify.
  - rewrite (IH (base + 1)).
    + replace (N.to_nat (index - base)) with (S (N.to_nat (index - (base + 1)))) by lia. done.
    + intros k e' Hk. pose proof (Hi (S k) e' Hk). lia.
  - by replace (N.to_nat (index - base)) with 0%nat by lia.
Qed.

Lemma ml_install_updates m s s' r :
  ml_wf s -> last_included_index (lv_snap (ml_view s)) <= last_included_index m ->
  ml_install_snapshot m s = (s', r) ->
  updates ml_view ml_wf (last_included_index m <> 0 /\ last_included_term m <> 0)
    (view_install m) s s' r.
Proof.
  intros [Hl Hi] Hle. simpl in Hle. unfold ml_install_snapshot, kInvalidIndex.
  destruct (_ || _) eqn:E1; [by intros [= <- <-]|]. boolify. intros [= <- <-]. simpl.
  rewrite (drop_upto_drop (last_included_index (snapshot_meta_ s))) by done.
  split; [done|]. split.
  - split; simpl.
    + rewrite length_drop. destruct (_ <? _) eqn:E; boolify; lia.
    + intros k e. rewrite lookup_drop. intros Hk%Hi. lia.
  - split; simpl; try done; [destruct (_ <? _) eqn:E; boolify; lia|].
    intros i. unfold ml_entry. simpl. destruct (i <=? _) eqn:E; boolify; [done|].
    destruct (i <=? last_included_index (snapshot_meta_ s)) eqn:F; boolify; [lia|].
    rewrite lookup_drop. f_equal. lia.
Qed.

#[export, program] Instance Memory_LogStoreLaws : LogStoreLaws MemoryLogStore := {|
  ls_view := ml_view; ls_wf := ml_wf |}.
Next Obligation. apply ml_view_wf. Qed.
Next Obligation. apply ml_append_updates. Qed.
Next Obligation. apply ml_truncate_updates. Qed.
Next Obligation. apply ml_save_updates. Qed.
Next Obligation. apply ml_install_updates. Qed.
Next Obligation.
  intros i s e [Hl Hi]. simpl. unfold ml_at, kInvalidIndex, ml_entry.
  destruct (_ || _) eqn:E1; [done|]. boolify.
  destruct (i <? _) eqn:E2; [done|]. boolify.
  destruct (i =? last_included_index _) eqn:E3; boolify.
  - intros [= <-]. simpl. split_and!; [done|lia|done].
  - destruct (entries_ s !! _) as [e'|] eqn:Ee; [|done]. intros [= ->].
    pose proof (Hi _ _ Ee). split; [lia|]. split; [lia|].
    destruct (i <=? _) eqn:E4; boolify; [lia|done].
Qed.
Next Obligation. by intros s h _ [= <-]. Qed.
Next Obligation. by intros s n _ [= <-]. Qed.
Next Obligation. by intros s m _ [= <-]. Qed.

(** Stores reached from the empty one; the node never moves the snapshot
    boundary backwards. *)
Inductive ml_reach : MemoryLogStore -> Prop :=
| mr_new : ml_reach new_log_store
| mr_append s e : ml_reach s -> ml_reach (ml_append e s).1
| mr_truncate s from : ml_reach s -> ml_reach (ml_truncate_suffix from s).1
| mr_save s h : ml_reach s -> ml_reach (ml_save_hard_state h s).1
| mr_install s m : ml_reach s ->
    last_included_index (snapshot_meta_ s) <= last_included_index m ->
    ml_reach (ml_install_snapshot m s).1.

Lemma updates_wf {L} view (wf : L -> Prop) pre f s s' r :
  updates view wf pre f s s' r -> wf s'.
Proof. destruct r; simpl; [by intros (_ & ? & _)|by intros [? _]]. Qed.

Lemma ml_reach_wf s : ml_reach s -> ml_wf s.
Proof.
  induction 1 as [|s e _ IH|s from _ IH|s h _ IH|s m _ IH Hm]; [by split|..].
  - eapply updates_wf, (ml_append_updates e s); [done|apply surjective_pairing].
  - eapply updates_wf, (ml_truncate_updates from s); [done|apply surjective_pairing].
  - eapply updates_wf, (ml_save_updates h s); [done|apply surjective_pairing].
  - eapply updates_wf, (ml_install_updates m s); [done|done|apply surjective_pairing].
Qed.

(** The memory log store implements the log. In every store reached from
    the empty one by any sequence of operations (failed ones included), the
    entries are consecutively numbered above the snapshot boundary and [at]
    answers every index from the boundary to the last one with the entry of
    that index: the vector is never read out of range. *)
Theorem memory_log_at_total s i :
  ml_reach s -> 0 < i -> last_included_index (snapshot_meta_ s) <= i <= last_index_ s ->
  exists e, ml_at i s = Ok e /\ e_index e = i.
Proof.
  intros [Hl Hi]%ml_reach_wf Hpos Hr. unfold ml_at, kInvalidIndex.
  rewrite (proj2 (N.eqb_neq _ _)), (proj2 (N.ltb_ge _ _)), (proj2 (N.ltb_ge _ _)) by lia. simpl.
  destruct (i =? last_included_index _) eqn:E; boolify; [by eexists|].
  destruct (lookup_lt_is_Some_2 (entries_ s)
    (N.to_nat (i - 1 - last_included_index (snapshot_meta_ s)))) as [e He]; [lia|].
  rewrite He. eexists. split; [done|]. pose proof (Hi _ _ He). lia.
Qed.

Definition sample_log : MemoryLogStore :=
  (ml_install_snapshot (mkSnapshotMetadata 1 1)
    (ml_append (mkLogEntry 2 1 [x01]) (ml_append (mkLogEntry 1 1 []) new_log_store).1).1).1.

Lemma memory_log_at_total_witness :
  exists e, ml_at 2 sample_log = Ok e /\ e_index e = 2.
Proof.
  apply memory_log_at_total; [|lia|vm_compute; split; discriminate].
  apply mr_install; [|discriminate]. apply mr_append, mr_append, mr_new.
Defined.
