(* ===== verification/RaftState.v ===== *)
(** * The state of a Raft node: [raft/raft_node.h]

    The fields of [class RaftNode], its node-local helper structs, and a small
    state-and-error monad in which [RaftNode.v] writes its methods. The
    collaborators are part of the state: the log store, the state machine, the
    messages handed to the transport ([outbox], in sending order), and the
    completion objects shared with waiting callers ([completions], a heap
    indexed by allocation number). Apply timings are measurements of the wall
    clock and are left out. *)

From S2P Require Import Prelude Bytes KvTypes Wire RaftTypes LogStore.
Local Open Scope N_scope.

(** [class Completion]: finished once, with an error or a result. *)
Record Completion := mkCompletion { c_done : bool; c_error : option Error; c_result : bytes }.

Definition new_completion : Completion := mkCompletion false None [].

Definition finish (error : option Error) (res : bytes) (c : Completion) : Completion :=
  if c_done c then c else mkCompletion true error res.

(** [struct Proposal] and [struct ReadIndex]; [p_completion] and
    [ri_completion] point into the heap. *)
Record Proposal := mkProposal {
  p_index : N; p_term : N; p_data : bytes; p_committed : bool; p_apply_result : bytes;
  p_completion : N }.

Record ReadIndex := mkReadIndex { ri_index : N; ri_term : N; ri_completion : N }.

(** [Proposal::wait] and [ReadIndex::wait] once the completion is done; [None]
    while they would block. *)
Definition proposal_wait (heap : gmap N Completion) (p : Proposal) : option (result Error Proposal) :=
  match heap !! p_completion p with
  | None => Some (Err (mkError EcInternalError "proposal has no completion state"))
  | Some c =>
      if negb (c_done c) then None
      else match c_error c with
      | Some e => Some (Err e)
      | None => Some (Ok (mkProposal (p_index p) (p_term p) (p_data p) true (c_result c)
                           (p_completion p)))
      end
  end.

Definition read_index_wait (heap : gmap N Completion) (r : ReadIndex) : option (result Error ReadIndex) :=
  match heap !! ri_completion r with
  | None => Some (Err (mkError EcInternalError "read index has no completion state"))
  | Some c =>
      if negb (c_done c) then None
      else match c_error c with Some e => Some (Err e) | None => Some (Ok r) end
  end.

Record PendingReadBarrier := mkPendingReadBarrier {
  prb_round : N; target_index : N; prb_completion : N }.

Record PendingSnapshot := mkPendingSnapshot {
  ps_term : N; ps_last_included_index : N; ps_last_included_term : N; ps_buffer : bytes }.

Section State.
Context {L SM : Type}.

Record RaftNode := mkRaftNode {
  config_ : NodeConfig;
  log_store_ : L;
  state_machine_ : SM;
  outbox : list (NodeId * Message);
  hard_state_ : HardState;
  role_ : Role;
  leader_id_ : option NodeId;
  last_log_index_ : N;
  last_included_index_ : N;
  last_included_term_ : N;
  commit_index_ : N;
  last_applied_ : N;
  apply_count_ : N;
  read_barrier_count_ : N;
  next_index_ : gmap NodeId N;
  match_index_ : gmap NodeId N;
  votes_received_ : gset NodeId;
  pending_proposals_ : gmap N N;
  pending_read_barriers_ : list PendingReadBarrier;
  heartbeat_round_ : N;
  peer_acked_round_ : gmap NodeId N;
  pending_snapshot_ : option PendingSnapshot;
  election_deadline_ : N;
  next_heartbeat_ : N;
  last_error_ : option Error;
  completions : gmap N Completion;
  next_completion : N }.

Definition node_eta (n : RaftNode) : RaftNode :=
  mkRaftNode (config_ n) (log_store_ n) (state_machine_ n) (outbox n) (hard_state_ n) (role_ n)
    (leader_id_ n) (last_log_index_ n) (last_included_index_ n) (last_included_term_ n)
    (commit_index_ n) (last_applied_ n) (apply_count_ n) (read_barrier_count_ n) (next_index_ n)
    (match_index_ n) (votes_received_ n) (pending_proposals_ n) (pending_read_barriers_ n)
    (heartbeat_round_ n) (peer_acked_round_ n) (pending_snapshot_ n) (election_deadline_ n)
    (next_heartbeat_ n) (last_error_ n) (completions n) (next_completion n).

(** [setter f]: the record with field [f] replaced. *)
Local Ltac setter f :=
  let b := constr:(fun n : RaftNode => ltac:(
    let t := eval cbv delta [node_eta] beta in (node_eta n) in exact t)) in
  intros v n;
  let t := eval cbv beta in (b n) in
  let p := eval pattern (f n) in t in
  match p with ?g _ => let r := eval cbv beta in (g v) in exact r end.

Definition set_log_store : L -> RaftNode -> RaftNode := ltac:(setter log_store_).
Definition set_state_machine : SM -> RaftNode -> RaftNode := ltac:(setter state_machine_).
Definition set_outbox : list (NodeId * Message) -> RaftNode -> RaftNode := ltac:(setter outbox).
Definition set_hard_state : HardState -> RaftNode -> RaftNode := ltac:(setter hard_state_).
Definition set_role : Role -> RaftNode -> RaftNode := ltac:(setter role_).
Definition set_leader_id : option NodeId -> RaftNode -> RaftNode := ltac:(setter leader_id_).
Definition set_last_log_index : N -> RaftNode -> RaftNode := ltac:(setter last_log_index_).
Definition set_last_included_index : N -> RaftNode -> RaftNode := ltac:(setter last_included_index_).
Definition set_last_included_term : N -> RaftNode -> RaftNode := ltac:(setter last_included_term_).
Definition set_commit_index : N -> RaftNode -> RaftNode := ltac:(setter commit_index_).
Definition set_last_applied : N -> RaftNode -> RaftNode := ltac:(setter last_applied_).
Definition set_apply_count : N -> RaftNode -> RaftNode := ltac:(setter apply_count_).
Definition set_read_barrier_count : N -> RaftNode -> RaftNode := ltac:(setter read_barrier_count_).
Definition set_next_index : gmap NodeId N -> RaftNode -> RaftNode := ltac:(setter next_index_).
Definition set_match_index : gmap NodeId N -> RaftNode -> RaftNode := ltac:(setter match_index_).
Definition set_votes_received : gset NodeId -> RaftNode -> RaftNode := ltac:(setter votes_received_).
Definition set_pending_proposals : gmap N N -> RaftNode -> RaftNode := ltac:(setter pending_proposals_).
Definition set_pending_read_barriers : list PendingReadBarrier -> RaftNode -> RaftNode := ltac:(setter pending_read_barriers_).
Definition set_heartbeat_round : N -> RaftNode -> RaftNode := ltac:(setter heartbeat_round_).
Definition set_peer_acked_round : gmap NodeId N -> RaftNode -> RaftNode := ltac:(setter peer_acked_round_).
Definition set_pending_snapshot : option PendingSnapshot -> RaftNode -> RaftNode := ltac:(setter pending_snapshot_).
Definition set_election_deadline : N -> RaftNode -> RaftNode := ltac:(setter election_deadline_).
Definition set_next_heartbeat : N -> RaftNode -> RaftNode := ltac:(setter next_heartbeat_).
Definition set_last_error : option Error -> RaftNode -> RaftNode := ltac:(setter last_error_).
Definition set_completions : gmap N Completion -> RaftNode -> RaftNode := ltac:(setter completions).
Definition set_next_completion : N -> RaftNode -> RaftNode := ltac:(setter next_completion).

(** ** The monad of the methods

    A method changes the node and returns a value or an error; changes made
    before an error stay. *)
Definition M (A : Type) : Type := RaftNode -> RaftNode * result Error A.

#[global] Instance M_ret : MRet M := fun A a n => (n, Ok a).
#[global] Instance M_bind : MBind M := fun A B k m n =>
  match m n with
  | (n', Ok a) => k a n'
  | (n', Err e) => (n', Err e)
  end.

Definition throw {A} (e : Error) : M A := fun n => (n, Err e).
Definition get : M RaftNode := fun n => (n, Ok n).
Definition gets {A} (f : RaftNode -> A) : M A := fun n => (n, Ok (f n)).
Definition modify (f : RaftNode -> RaftNode) : M unit := fun n => (f n, Ok ()).
Definition lift {A} (r : RaftNode -> result Error A) : M A := fun n => (n, r n).

(** [if (auto r = m; !r) record_error(r.error())] *)
Definition attempt (m : M unit) : M unit := fun n =>
  match m n with
  | (n', Ok _) => (n', Ok ())
  | (n', Err e) => (set_last_error (Some e) n', Ok ())
  end.

(** [auto r = m;]: the result as a value, to be looked at later. *)
Definition outcome {A} (m : M A) : M (result Error A) := fun n =>
  let '(n', r) := m n in (n', Ok r).

(** [m], with [undo] run on failure before the error is returned. *)
Definition on_error {A} (m : M A) (undo : RaftNode -> RaftNode) : M A := fun n =>
  match m n with
  | (n', Ok a) => (n', Ok a)
  | (n', Err e) => (undo n', Err e)
  end.

Fixpoint for_each {A} (l : list A) (body : A -> M unit) : M unit :=
  match l with
  | [] => mret ()
  | a :: l' => _ ← body a; for_each l' body
  end.

(** ** Calls to the collaborators *)
Context `{LogStore L, StateMachine SM}.

Definition store_update (op : L -> L * result Error unit) : M unit := fun n =>
  let '(s', r) := op (log_store_ n) in (set_log_store s' n, r).

Definition log_at (i : N) : M LogEntry := lift (fun n => ls_at i (log_store_ n)).

(** [transport_.send(to, group, message)]; the group is the node's own. *)
Definition send (to : NodeId) (m : Message) : M unit :=
  modify (fun n => set_outbox (outbox n ++ [(to, m)]) n).

(** [completion->finish(error, result)] *)
Definition finish_completion (id : N) (error : option Error) (res : bytes) (n : RaftNode) : RaftNode :=
  set_completions (alter (finish error res) id (completions n)) n.

(** [std::make_shared<Completion>()] *)
Definition make_completion : M N := fun n =>
  (set_next_completion (next_completion n + 1)
    (set_completions (<[next_completion n := new_completion]> (completions n)) n),
   Ok (next_completion n)).
End State.

Arguments RaftNode : clear implicits.
Arguments M : clear implicits.
