(* ===== verification/RaftNode.v ===== *)
(** * A Raft node: [raft/raft_node.cpp]

    Every method of [class RaftNode], in the monad of [RaftState]. [now] is
    what the clock answers during the call. Terms, indices and rounds are
    [uint64_t] counters that only grow by one per event and are taken as
    unbounded. *)

From S2P Require Import Prelude Bytes KvTypes Wire RaftTypes LogStore RaftState.
Local Open Scope N_scope.

Definition kSnapshotChunkBytes : N := 2 ^ 20.
Definition kMaxPendingSnapshotBytes : N := 2 ^ 30.

Definition log_is_up_to_date (last_log_index last_log_term candidate_index candidate_term : N)
    : bool :=
  if negb (candidate_term =? last_log_term) then last_log_term <? candidate_term
  else last_log_index <=? candidate_index.

(** [m[k]] on a [std::map<_, uint64_t>]: absent keys read as 0. *)
Definition idx (m : gmap NodeId N) (k : NodeId) : N := default 0 (m !! k).

Definition has_quorum (config : NodeConfig) (count : nat) : bool :=
  (length (peers config) / 2 + 1 <=? count)%nat.

(** [std::sort] with [std::greater]. *)
Fixpoint insert_desc (x : N) (l : list N) : list N :=
  match l with
  | [] => [x]
  | y :: l' => if y <=? x then x :: l else y :: insert_desc x l'
  end.
Definition sort_desc (l : list N) : list N := foldr insert_desc [] l.

Definition quorum_match_index (config : NodeConfig) (match_index : gmap NodeId N) : N :=
  let matches := sort_desc (map (idx match_index) (peers config)) in
  match matches with
  | [] => kInvalidIndex
  | _ => default 0 (matches !! ((length matches - 1) / 2)%nat)
  end.

(** The constructor clamps the timeouts. *)
Definition clamp_config (c : NodeConfig) : NodeConfig :=
  mkNodeConfig (node_id c) (peers c)
    (if election_timeout_ms c =? 0 then 1 else election_timeout_ms c)
    (if heartbeat_interval_ms c =? 0 then 1 else heartbeat_interval_ms c)
    (group_range c) (snapshot_entries_threshold c) (group_id c).

Section Node.
Context {L SM : Type} `{LogStore L, StateMachine SM}.
Abbreviation node := (RaftNode L SM).
Abbreviation MM := (M L SM).

Definition new_node (config : NodeConfig) (log : L) (sm : SM) : node :=
  mkRaftNode (clamp_config config) log sm [] (mkHardState 0 None) Follower None
    0 0 0 0 0 0 0 ∅ ∅ ∅ ∅ [] 0 ∅ None 0 0 None ∅ 0.

Definition self (n : node) : NodeId := node_id (config_ n).
Definition term (n : node) : N := hs_term (hard_state_ n).

Definition reset_election_deadline (now : N) (n : node) : node :=
  let t := election_timeout_ms (config_ n) in
  set_election_deadline (now + t + (self n mod 5) * (t / 10)) n.

Definition record_error (e : Error) (n : node) : node := set_last_error (Some e) n.

(** ** Completions *)

Definition finish_all (ids : list N) (error : option Error) (res : bytes) (n : node) : node :=
  fold_left (fun n id => finish_completion id error res n) ids n.

Definition complete_applied_proposal (index : N) (res : bytes) (n : node) : node :=
  match pending_proposals_ n !! index with
  | None => n
  | Some id => finish_completion id None res
                 (set_pending_proposals (delete index (pending_proposals_ n)) n)
  end.

Definition complete_applied_proposals_upto (index : N) (n : node) : node :=
  let hit := filter (fun p => p.1 <= index) (pending_proposals_ n) in
  let keep := filter (fun p => ~ p.1 <= index) (pending_proposals_ n) in
  finish_all (map snd (map_to_list hit)) None (bytes_of_string "applied")
    (set_pending_proposals keep n).

Definition fail_pending_proposals (from_index : option N) (error : Error) (n : node) : node :=
  let from := default 0 from_index in
  let hit := filter (fun p => from <= p.1) (pending_proposals_ n) in
  let keep := filter (fun p => ~ from <= p.1) (pending_proposals_ n) in
  finish_all (map snd (map_to_list hit)) (Some error) [] (set_pending_proposals keep n).

(** ** Read barriers *)

Definition quorum_acknowledged (round : N) (n : node) : bool :=
  let acked := filter (fun p => negb (p =? self n) &&
    match peer_acked_round_ n !! p with Some r => round <=? r | None => false end = true)
    (peers (config_ n)) in
  has_quorum (config_ n) (1 + length acked).

Definition barrier_ready (n : node) (b : PendingReadBarrier) : bool :=
  quorum_acknowledged (prb_round b) n && (target_index b <=? last_applied_ n).

Definition evaluate_read_barriers (n : node) : node :=
  let ready := filter (fun b => barrier_ready n b = true) (pending_read_barriers_ n) in
  let waiting := filter (fun b => barrier_ready n b = false) (pending_read_barriers_ n) in
  finish_all (map prb_completion ready) None [] (set_pending_read_barriers waiting n).

Definition fail_read_barriers (error : Error) (n : node) : node :=
  finish_all (map prb_completion (pending_read_barriers_ n)) (Some error) []
    (set_pending_read_barriers [] n).

(** ** Applying *)

Definition run_apply (entry : LogEntry) : MM (result Error bytes) := fun n =>
  let '(sm', r) := sm_apply entry (state_machine_ n) in
  (set_apply_count (apply_count_ n + 1) (set_state_machine sm' n), Ok r).

(** The [while (last_applied_ < commit_index_)] loop: every turn applies one
    entry or returns, so the distance is enough fuel. *)
Fixpoint apply_loop (fuel : nat) : MM unit :=
  match fuel with
  | O => mret ()
  | S fuel' =>
      n ← get;
      if last_applied_ n <? commit_index_ n then
        entry ← log_at (last_applied_ n + 1);
        r ← run_apply entry;
        match r with
        | Err e =>
            _ ← modify (fail_pending_proposals (Some (last_applied_ n + 1)) e);
            _ ← modify (fail_read_barriers e);
            throw e
        | Ok res =>
            _ ← modify (set_last_applied (last_applied_ n + 1));
            _ ← modify (complete_applied_proposal (last_applied_ n + 1) res);
            apply_loop fuel'
        end
      else mret ()
  end.

Definition apply_committed : MM unit :=
  n ← get;
  _ ← apply_loop (N.to_nat (commit_index_ n - last_applied_ n));
  modify evaluate_read_barriers.

(** ** Sending *)

Definition snapshot_range (n : node) : KeyRange :=
  let r := group_range (config_ n) in
  mkKeyRange (Some (default [] (start r))) (end_ r) (limit r) kForward.

Definition last_log_term : MM N :=
  n ← get;
  if last_log_index_ n =? kInvalidIndex then mret 0
  else e ← log_at (last_log_index_ n); mret (e_term e).

(** The chunk loop of [send_snapshot]; a chunk is at least one byte. *)
Fixpoint snapshot_chunks (fuel : nat) (offset : N) (blob : bytes) : list (N * bool * bytes) :=
  match fuel with
  | O => []
  | S fuel' =>
      match blob with
      | [] => []
      | _ =>
          let tk := N.min kSnapshotChunkBytes (N.of_nat (length blob)) in
          let rest := drop (N.to_nat tk) blob in
          (offset, bool_decide (rest = []), take (N.to_nat tk) blob)
            :: snapshot_chunks fuel' (offset + tk) rest
      end
  end.

Definition send_snapshot (to : NodeId) : MM unit :=
  n ← get;
  if last_included_index_ n =? kInvalidIndex then mret ()
  else
    blob ← lift (fun n => sm_snapshot (snapshot_range n) (state_machine_ n));
    let included_index := last_applied_ n in
    included_term ←
      (if included_index =? last_included_index_ n then mret (last_included_term_ n)
       else e ← log_at included_index; mret (e_term e));
    let request offset done_ data :=
      MsgInstallSnapshot (mkInstallSnapshotRequest (term n) (self n) included_index included_term
        offset done_ data) in
    let chunks := match blob with
                  | [] => [(0, true, [])]
                  | _ => snapshot_chunks (length blob) 0 blob
                  end in
    _ ← for_each chunks (fun '(offset, done_, data) => send to (request offset done_ data));
    modify (fun n => set_next_index (<[to := included_index + 1]> (next_index_ n))
      (set_match_index (<[to := N.max (idx (match_index_ n) to) included_index]> (match_index_ n)) n)).

Fixpoint read_entries (count : nat) (index : N) : MM (list LogEntry) :=
  match count with
  | O => mret []
  | S count' => e ← log_at index; es ← read_entries count' (index + 1); mret (e :: es)
  end.

Definition contains_or_set (to : NodeId) (v : N) (m : gmap NodeId N) : gmap NodeId N :=
  match m !! to with Some _ => m | None => <[to := v]> m end.

Definition send_append_entries (to : NodeId) : MM unit :=
  _ ← modify (fun n => set_next_index (contains_or_set to (last_log_index_ n + 1) (next_index_ n)) n);
  _ ← modify (fun n => set_match_index (contains_or_set to 0 (match_index_ n)) n);
  n ← get;
  let next := idx (next_index_ n) to in
  if next <=? last_included_index_ n then send_snapshot to
  else
    let prev_index := next - 1 in
    prev_term ←
      (if prev_index =? last_included_index_ n then mret (last_included_term_ n)
       else if negb (prev_index =? kInvalidIndex)
       then e ← log_at prev_index; mret (e_term e)
       else mret 0);
    entries ← read_entries (N.to_nat (last_log_index_ n + 1 - next)) next;
    send to (MsgAppendEntries (mkAppendEntriesRequest (term n) (self n) prev_index prev_term
      entries (commit_index_ n) (heartbeat_round_ n))).

Definition send_heartbeats : MM unit :=
  _ ← modify (fun n => set_heartbeat_round (heartbeat_round_ n + 1) n);
  n ← get;
  for_each (filter (fun p => p <> self n) (peers (config_ n)))
    (fun peer => attempt (send_append_entries peer)).

(** ** Commit *)

Definition advance_commit : MM unit :=
  n ← get;
  let candidate := quorum_match_index (config_ n) (match_index_ n) in
  if (candidate <=? commit_index_ n) || (last_log_index_ n <? candidate) then mret ()
  else
    entry ← log_at candidate;
    if negb (e_term entry =? term n) then mret ()
    else
      _ ← modify (set_commit_index candidate);
      _ ← apply_committed;
      if (1 <? length (peers (config_ n)))%nat then send_heartbeats else mret ().

Definition maybe_compact_log : MM unit :=
  n ← get;
  if bool_decide (role_ n = Candidate) then mret ()
  else if snapshot_entries_threshold (config_ n) =? 0 then mret ()
  else if last_log_index_ n - last_included_index_ n <? snapshot_entries_threshold (config_ n)
  then mret ()
  else if (last_applied_ n =? kInvalidIndex) || (last_applied_ n <=? last_included_index_ n)
  then mret ()
  else
    entry ← log_at (last_applied_ n);
    _ ← store_update (ls_install_snapshot (mkSnapshotMetadata (last_applied_ n) (e_term entry)));
    _ ← modify (set_last_included_index (last_applied_ n));
    modify (set_last_included_term (e_term entry)).

(** ** Role changes *)

Definition initialize_leader_progress (n : node) : node :=
  set_next_index (list_to_map (map (fun p => (p, last_log_index_ n + 1)) (peers (config_ n))))
    (set_match_index (list_to_map
        (map (fun p => (p, if p =? self n then last_log_index_ n else 0)) (peers (config_ n))))
      (set_peer_acked_round ∅ (set_heartbeat_round 0 n))).

Definition lost_leadership (what : string) : Error :=
  mkError EcNotLeader ("leadership was lost before " ++ what).

Definition become_follower (now t : N) (leader : option NodeId) : MM unit :=
  n ← get;
  _ ← (if term n <? t then
         _ ← modify (set_hard_state (mkHardState t None));
         on_error (store_update (ls_save_hard_state (mkHardState t None)))
           (set_hard_state (hard_state_ n))
       else mret ());
  _ ← modify (set_role Follower);
  _ ← (if bool_decide (role_ n = Leader) then
         _ ← modify (fail_pending_proposals None (lost_leadership "commit"));
         modify (fail_read_barriers (lost_leadership "the read barrier completed"))
       else mret ());
  _ ← modify (set_leader_id leader);
  _ ← modify (set_votes_received ∅);
  _ ← modify (set_pending_snapshot None);
  modify (reset_election_deadline now).

Definition own_progress (index : N) (n : node) : node :=
  set_next_index (<[self n := index + 1]> (next_index_ n))
    (set_match_index (<[self n := index]> (match_index_ n)) (set_last_log_index index n)).

Definition become_leader (now : N) : MM unit :=
  n0 ← get;
  if negb (bool_decide (role_ n0 = Candidate)) then mret ()
  else
    _ ← modify (set_role Leader);
    _ ← modify (set_leader_id (Some (self n0)));
    _ ← modify initialize_leader_progress;
    n ← get;
    let index := last_log_index_ n + 1 in
    r ← outcome (store_update (ls_append (mkLogEntry index (term n) [])));
    match r with
    | Err e => _ ← become_follower now (term n) None; throw e
    | Ok _ =>
        _ ← modify (own_progress index);
        _ ← send_heartbeats;
        advance_commit
    end.

Definition start_election (now : N) : MM unit :=
  n ← get;
  let hs := mkHardState (term n + 1) (Some (self n)) in
  _ ← modify (set_role Candidate);
  _ ← modify (set_hard_state hs);
  _ ← modify (set_leader_id None);
  _ ← on_error (store_update (ls_save_hard_state hs))
        (fun n' => set_role (role_ n) (set_hard_state (hard_state_ n) n'));
  _ ← modify (set_votes_received {[ self n ]});
  _ ← modify (reset_election_deadline now);
  if has_quorum (config_ n) 1 then become_leader now
  else
    last_term ← last_log_term;
    for_each (filter (fun p => p <> self n) (peers (config_ n)))
      (fun peer => n ← get; send peer (MsgRequestVote
         (mkRequestVoteRequest (term n) (self n) (last_log_index_ n) last_term))).

(** ** Elections *)

Definition handle_request_vote (now : N) (from : NodeId) (request : RequestVoteRequest) : MM unit :=
  n0 ← get;
  if rv_term request <? term n0
  then send from (MsgRequestVoteResponse (mkRequestVoteResponse (term n0) false))
  else
    _ ← (if term n0 <? rv_term request then become_follower now (rv_term request) None
         else mret ());
    last_term ← last_log_term;
    n ← get;
    let can_vote := match hs_voted_for (hard_state_ n) with
                    | None => true
                    | Some v => v =? rv_candidate_id request
                    end in
    let log_ok := log_is_up_to_date (last_log_index_ n) last_term
                    (rv_last_log_index request) (rv_last_log_term request) in
    let granted := can_vote && log_ok in
    _ ← (if granted then
           let hs := mkHardState (term n) (Some (rv_candidate_id request)) in
           _ ← modify (set_hard_state hs);
           _ ← on_error (store_update (ls_save_hard_state hs)) (set_hard_state (hard_state_ n));
           modify (reset_election_deadline now)
         else mret ());
    n' ← get;
    send from (MsgRequestVoteResponse (mkRequestVoteResponse (term n') granted)).

Definition handle_request_vote_response (now : N) (from : NodeId) (response : RequestVoteResponse)
    : MM unit :=
  n ← get;
  if term n <? rvr_term response then attempt (become_follower now (rvr_term response) None)
  else if negb (bool_decide (role_ n = Candidate)) || negb (rvr_term response =? term n) ||
          negb (vote_granted response)
  then mret ()
  else
    _ ← modify (fun n => set_votes_received ({[ from ]} ∪ votes_received_ n) n);
    n' ← get;
    if negb (has_quorum (config_ n') (size (votes_received_ n'))) then mret ()
    else attempt (become_leader now).

(** ** Log replication *)

(** The start of both leader RPCs: a newer term, or a current leader while not
    following, makes the node a follower; otherwise the leader is noted. *)
Definition follow_leader (now t : N) (leader : NodeId) : MM unit :=
  n ← get;
  if (term n <? t) || ((t =? term n) && negb (bool_decide (role_ n = Follower)))
  then become_follower now t (Some leader)
  else
    _ ← modify (set_leader_id (Some leader));
    modify (reset_election_deadline now).

Definition inconsistent_entries : Error :=
  mkError EcInvalidArgument "append entries request has inconsistent index or term".
Definition diverging_data : Error :=
  mkError EcInternalError "same log position has different data in the same term".
Definition truncated_suffix : Error :=
  mkError EcNotLeader "proposal log suffix was truncated by a new leader".

(** One turn of the entry loop; [index] is the position of [entry]. *)
Definition store_entry (request_term index : N) (entry : LogEntry) : MM unit :=
  if negb (e_index entry =? index) || negb (e_term entry =? request_term)
  then throw inconsistent_entries
  else
    n ← get;
    _ ← (if index <=? last_log_index_ n then
           existing ← log_at index;
           if negb (e_term existing =? e_term entry) then
             _ ← store_update (ls_truncate_suffix index);
             _ ← modify (set_last_log_index (index - 1));
             modify (fail_pending_proposals (Some index) truncated_suffix)
           else if negb (bool_decide (e_data existing = e_data entry)) then throw diverging_data
           else mret ()
         else mret ());
    n' ← get;
    if last_log_index_ n' <? index then
      _ ← store_update (ls_append entry);
      modify (set_last_log_index index)
    else mret ().

(** The loop over the entries: the index of the last one. *)
Fixpoint store_entries (request_term index : N) (entries : list LogEntry) : MM N :=
  match entries with
  | [] => mret index
  | entry :: rest =>
      _ ← store_entry request_term (index + 1) entry;
      store_entries request_term (index + 1) rest
  end.

Definition ae_response (n : node) (success : bool) (match_index round hint : N) : Message :=
  MsgAppendEntriesResponse (mkAppendEntriesResponse (term n) success match_index round hint).

(** The check of [prev_log_index]: the term of that entry, or a refusal. *)
Definition prev_matches (request : AppendEntriesRequest) : MM bool :=
  n ← get;
  if last_log_index_ n <? prev_log_index request then mret false
  else if prev_log_index request <? last_included_index_ n then mret false
  else if negb (prev_log_index request =? kInvalidIndex) then
    prev_term ←
      (if prev_log_index request =? last_included_index_ n then mret (last_included_term_ n)
       else e ← log_at (prev_log_index request); mret (e_term e));
    mret (prev_term =? prev_log_term request)
  else mret true.

Definition handle_append_entries (now : N) (from : NodeId) (request : AppendEntriesRequest) : MM unit :=
  n0 ← get;
  if ae_term request <? term n0 then send from (ae_response n0 false 0 (ae_round request) 0)
  else
    _ ← follow_leader now (ae_term request) (ae_leader_id request);
    ok ← prev_matches request;
    if negb ok then
      n ← get; send from (ae_response n false 0 (ae_round request) (last_log_index_ n))
    else
      match_index ← store_entries (ae_term request) (prev_log_index request) (ae_entries request);
      _ ← modify (fun n =>
            if commit_index_ n <? leader_commit request
            then set_commit_index (N.min (leader_commit request) (last_log_index_ n)) n else n);
      apply_result ← outcome apply_committed;
      n ← get;
      _ ← send from (ae_response n true match_index (ae_round request) 0);
      match apply_result with Err e => throw e | Ok _ => mret () end.

Definition handle_append_entries_response (now : N) (from : NodeId)
    (response : AppendEntriesResponse) : MM unit :=
  n ← get;
  if term n <? aer_term response then attempt (become_follower now (aer_term response) None)
  else if negb (bool_decide (role_ n = Leader)) || negb (aer_term response =? term n) then mret ()
  else if aer_success response then
    let m := N.max (idx (match_index_ n) from) (aer_match_index response) in
    _ ← modify (set_match_index (<[from := m]> (match_index_ n)));
    _ ← modify (set_next_index (<[from := N.max (idx (next_index_ n) from) (m + 1)]> (next_index_ n)));
    _ ← modify (set_peer_acked_round
          (<[from := N.max (idx (peer_acked_round_ n) from) (aer_round response)]>
            (peer_acked_round_ n)));
    r ← outcome advance_commit;
    match r with
    | Err e => modify (record_error e)
    | Ok _ =>
        _ ← modify evaluate_read_barriers;
        n' ← get;
        if (idx (match_index_ n') from <? last_log_index_ n') ||
           negb (commit_index_ n' =? commit_index_ n)
        then attempt (send_append_entries from) else mret ()
    end
  else
    let next := idx (next_index_ n) from in
    _ ← modify (set_next_index (<[from := next]> (next_index_ n)));
    if 1 <? next then
      if hint_last_index response <? last_included_index_ n then attempt (send_snapshot from)
      else
        _ ← modify (set_next_index (<[from := next - 1]> (next_index_ n)));
        attempt (send_append_entries from)
    else attempt (send_append_entries from).

(** ** Snapshots *)

Definition is_response (n : node) (success : bool) : Message :=
  MsgInstallSnapshotResponse (mkInstallSnapshotResponse (term n) success).

Definition refuse_snapshot (from : NodeId) : MM unit :=
  n ← get; send from (is_response n false).

(** Drop the chunks received so far and refuse. *)
Definition drop_snapshot (from : NodeId) : MM unit :=
  _ ← modify (set_pending_snapshot None); refuse_snapshot from.

Definition run_restore (range : KeyRange) (snap : bytes) : MM unit := fun n =>
  let '(sm', r) := sm_restore range snap (state_machine_ n) in (set_state_machine sm' n, r).

(** Everything is in place: the indices jump to the boundary. *)
Definition jump_to (m : SnapshotMetadata) (n : node) : node :=
  let i := last_included_index m in
  set_last_included_index i (set_last_included_term (last_included_term m)
    (set_last_log_index (N.max (last_log_index_ n) i)
      (set_last_applied (if last_applied_ n <? i then i else last_applied_ n)
        (set_commit_index (if commit_index_ n <? i then i else commit_index_ n) n)))).

Definition install_pending (from : NodeId) (p : PendingSnapshot) : MM unit :=
  n ← get;
  r ← outcome (run_restore (snapshot_range n) (ps_buffer p));
  match r with
  | Err e => _ ← drop_snapshot from; throw e
  | Ok _ =>
      let m := mkSnapshotMetadata (ps_last_included_index p) (ps_last_included_term p) in
      r ← outcome (store_update (ls_install_snapshot m));
      match r with
      | Err e => _ ← drop_snapshot from; throw e
      | Ok _ =>
          _ ← modify (set_pending_snapshot None);
          _ ← modify (jump_to m);
          _ ← modify (complete_applied_proposals_upto (last_included_index m));
          _ ← modify evaluate_read_barriers;
          n ← get;
          send from (is_response n true)
      end
  end.

Definition snapshot_too_large : Error :=
  mkError EcInvalidArgument "raft snapshot exceeds the pending-buffer size limit".

Definition handle_install_snapshot (now : N) (from : NodeId) (request : InstallSnapshotRequest)
    : MM unit :=
  n0 ← get;
  if is_term request <? term n0 then send from (is_response n0 false)
  else
    let term_changed := term n0 <? is_term request in
    _ ← follow_leader now (is_term request) (is_leader_id request);
    n ← get;
    if (is_last_included_index request =? kInvalidIndex) || (is_last_included_term request =? 0)
    then refuse_snapshot from
    else if is_last_included_index request <? last_applied_ n then refuse_snapshot from
    else
      let fresh := mkPendingSnapshot (is_term request) (is_last_included_index request)
                     (is_last_included_term request) [] in
      let pending := if (is_offset request =? 0) || term_changed then fresh
                     else default fresh (pending_snapshot_ n) in
      if negb (ps_last_included_index pending =? is_last_included_index request) ||
         negb (ps_last_included_term pending =? is_last_included_term request) ||
         negb (is_offset request =? N.of_nat (length (ps_buffer pending)))
      then drop_snapshot from
      else
        let pending := mkPendingSnapshot (ps_term pending) (ps_last_included_index pending)
                         (ps_last_included_term pending) (ps_buffer pending ++ is_data request) in
        _ ← modify (set_pending_snapshot (Some pending));
        if kMaxPendingSnapshotBytes <? N.of_nat (length (ps_buffer pending)) then
          _ ← drop_snapshot from; throw snapshot_too_large
        else if negb (is_done request) then mret ()
        else install_pending from pending.

Definition handle_install_snapshot_response (now : N) (from : NodeId)
    (response : InstallSnapshotResponse) : MM unit :=
  n ← get;
  if term n <? isr_term response then attempt (become_follower now (isr_term response) None)
  else if negb (bool_decide (role_ n = Leader)) || negb (isr_term response =? term n) then mret ()
  else if isr_success response then
    let m := idx (match_index_ n) from in
    _ ← modify (set_match_index (<[from := m]> (match_index_ n)));
    if m <? last_log_index_ n then attempt (send_append_entries from) else mret ()
  else modify (record_error (mkError EcInternalError "peer failed to install the raft snapshot")).

(** ** The public interface *)

Definition handle_message (now : N) (from : NodeId) (m : Message) : MM unit :=
  match m with
  | MsgRequestVote r => attempt (handle_request_vote now from r)
  | MsgRequestVoteResponse r => handle_request_vote_response now from r
  | MsgAppendEntries r => attempt (handle_append_entries now from r)
  | MsgAppendEntriesResponse r => handle_append_entries_response now from r
  | MsgInstallSnapshot r => attempt (handle_install_snapshot now from r)
  | MsgInstallSnapshotResponse r => handle_install_snapshot_response now from r
  end.

Definition config_error (m : string) : Error := mkError EcInvalidArgument m.

Definition check_config (c : NodeConfig) : result Error unit :=
  if (node_id c =? 0) || bool_decide (peers c = [])
  then Err (config_error "node id and peers are required")
  else if negb (existsb (N.eqb (node_id c)) (peers c))
  then Err (config_error "the local node id must be included in peers")
  else if negb (size (list_to_set (peers c) : gset N) =? length (peers c))%nat
  then Err (config_error "peers must be unique")
  else if election_timeout_ms c <=? heartbeat_interval_ms c
  then Err (config_error "heartbeat interval must be smaller than election timeout")
  else Ok ().

Definition start_node (now : N) : MM unit :=
  _ ← lift (fun n => check_config (config_ n));
  hs ← lift (fun n => ls_load_hard_state (log_store_ n));
  _ ← modify (set_hard_state hs);
  last ← lift (fun n => ls_last_index (log_store_ n));
  _ ← modify (set_last_log_index last);
  meta ← lift (fun n => ls_snapshot_metadata (log_store_ n));
  _ ← modify (set_last_included_index (last_included_index meta));
  _ ← modify (set_last_included_term (last_included_term meta));
  _ ← modify (set_last_applied (last_included_index meta));
  _ ← modify (set_commit_index (last_included_index meta));
  _ ← modify (set_role Follower);
  _ ← modify (set_leader_id None);
  _ ← modify (set_votes_received ∅);
  _ ← modify (set_heartbeat_round 0);
  _ ← modify (set_peer_acked_round ∅);
  _ ← modify (set_pending_read_barriers []);
  _ ← modify (set_pending_snapshot None);
  modify (reset_election_deadline now).

Definition tick (now : N) : MM unit :=
  n ← get;
  _ ← (if bool_decide (role_ n = Leader) then
         if next_heartbeat_ n <=? now then
           _ ← send_heartbeats;
           modify (set_next_heartbeat (now + heartbeat_interval_ms (config_ n)))
         else mret ()
       else if election_deadline_ n <=? now then attempt (start_election now)
       else mret ());
  _ ← attempt apply_committed;
  attempt maybe_compact_log.

Definition not_leader (m : string) : Error := mkError EcNotLeader m.

Definition propose (data : bytes) : MM Proposal :=
  n ← get;
  if negb (bool_decide (role_ n = Leader))
  then throw (not_leader "proposal requires the leader role")
  else
    let index := last_log_index_ n + 1 in
    _ ← store_update (ls_append (mkLogEntry index (term n) data));
    _ ← modify (own_progress index);
    c ← make_completion;
    _ ← modify (fun n => set_pending_proposals (<[index := c]> (pending_proposals_ n)) n);
    _ ← attempt advance_commit;
    _ ← send_heartbeats;
    n' ← get;
    mret (mkProposal index (term n) data (index <=? commit_index_ n') [] c).

Definition read_barrier : MM ReadIndex :=
  _ ← modify (fun n => set_read_barrier_count (read_barrier_count_ n + 1) n);
  n ← get;
  if negb (bool_decide (role_ n = Leader))
  then throw (not_leader "read barrier requires the leader role")
  else
    let target := commit_index_ n in
    _ ← send_heartbeats;
    n' ← get;
    let round := heartbeat_round_ n' in
    c ← make_completion;
    let read_index := mkReadIndex target (term n) c in
    if quorum_acknowledged round n' && (target <=? last_applied_ n') then
      _ ← modify (finish_completion c None []);
      mret read_index
    else
      _ ← modify (fun n => set_pending_read_barriers
            (pending_read_barriers_ n ++ [mkPendingReadBarrier round target c]) n);
      mret read_index.
End Node.
