(* ===== verification/RaftInvariants.v ===== *)
(** * The node invariant and the effect of the methods on it

    [node_ok] ties the node to its durable log (hard state, snapshot boundary
    and last index in memory are those on disk) and orders the indices. The
    methods are walked through once, against a pointwise relation between the
    state before and after ([rel_at]); [calm] collects what everything outside
    elections leaves alone. *)

From S2P Require Import Prelude Bytes KvTypes Wire RaftTypes LogStore RaftState RaftNode.
Local Open Scope N_scope.

Section Rel.
Context {L SM : Type}.
Abbreviation node := (RaftNode L SM).

(** Running the monad, one step at a time. *)
Lemma run_modify {B} f (k : unit -> M L SM B) n : (modify f ≫= k) n = k () (f n).
Proof. done. Qed.
Lemma run_get {B} (k : node -> M L SM B) n : (get ≫= k) n = k n n.
Proof. done. Qed.
Lemma run_bind {A B} (m : M L SM A) (k : A -> M L SM B) n :
  (m ≫= k) n = match m n with (n', Ok a) => k a n' | (n', Err e) => (n', Err e) end.
Proof. done. Qed.
Lemma run_outcome {A B} (m : M L SM A) (k : result Error A -> M L SM B) n :
  (outcome m ≫= k) n = let '(n', r) := m n in k r n'.
Proof. unfold mbind, M_bind, outcome. by destruct (m n). Qed.
Lemma run_ret {A B} (a : A) (k : A -> M L SM B) n : (mret a ≫= k) n = k a n.
Proof. done. Qed.
Lemma run_store `{LogStore L, StateMachine SM} op (n : node) :
  store_update op n = let '(s', r) := op (log_store_ n) in (set_log_store s' n, r).
Proof. done. Qed.
Lemma run_on_error {A} (m : M L SM A) undo n :
  on_error m undo n = match m n with (n', Ok a) => (n', Ok a) | (n', Err e) => (undo n', Err e) end.
Proof. done. Qed.

(** Every outcome of [m] from [n] is related to [n]. *)
Definition rel_at (R : node -> node -> Prop) {A} (m : M L SM A) (n : node) : Prop :=
  forall n' r, m n = (n', r) -> R n n'.

Context (R : node -> node -> Prop) `{!PreOrder R}.

Lemma rel_ret {A} (a : A) n : rel_at R (mret a) n.
Proof. intros n' r [= <- <-]. reflexivity. Qed.

Lemma rel_throw {A} e n : rel_at R (throw e : M L SM A) n.
Proof. intros n' r [= <- <-]. reflexivity. Qed.

Lemma rel_lift {A} (f : node -> result Error A) n : rel_at R (lift f) n.
Proof. intros n' r [= <- <-]. reflexivity. Qed.

Lemma rel_modify f n : R n (f n) -> rel_at R (modify f) n.
Proof. by intros H n' r [= <- <-]. Qed.

Lemma rel_bind {A B} (m : M L SM A) (k : A -> M L SM B) n :
  rel_at R m n ->
  (forall n1 a, m n = (n1, Ok a) -> R n n1 -> rel_at R (k a) n1) ->
  rel_at R (m ≫= k) n.
Proof.
  intros Hm Hk n' r. unfold mbind, M_bind. destruct (m n) as [n1 [a|e]] eqn:E.
  - intros Hr. pose proof (Hm _ _ E) as H1. etransitivity; [exact H1|]. by eapply Hk.
  - intros [= <- <-]. by eapply Hm.
Qed.

Lemma rel_get {B} (k : node -> M L SM B) n : rel_at R (k n) n -> rel_at R (get ≫= k) n.
Proof. intros Hk n' r Hr. by apply Hk in Hr. Qed.

Lemma rel_attempt m n :
  (forall n e, R n (set_last_error e n)) -> rel_at R m n -> rel_at R (attempt m) n.
Proof.
  intros He Hm n' r. unfold attempt. destruct (m n) as [n1 [[]|e]] eqn:E; intros [= <- <-].
  - by eapply Hm.
  - etransitivity; [by eapply Hm|apply He].
Qed.

Lemma rel_outcome {A} (m : M L SM A) n : rel_at R m n -> rel_at R (outcome m) n.
Proof. intros Hm n' r. unfold outcome. destruct (m n) eqn:E. intros [= <- _]. by eapply Hm. Qed.

(** Running [m] from [n1], related back to [n]: for updates that only together
    restore an invariant. *)
Definition rel_from n {A} (m : M L SM A) (n1 : node) : Prop :=
  forall n' r, m n1 = (n', r) -> R n n'.

Lemma rel_from_at n {A} (m : M L SM A) n1 : R n n1 -> rel_at R m n1 -> rel_from n m n1.
Proof. intros H1 Hm n' r Hr. etransitivity; [exact H1|]. by eapply Hm. Qed.

Lemma rel_from_modify n {B} f (k : unit -> M L SM B) n1 :
  rel_from n (k ()) (f n1) -> rel_from n (modify f ≫= k) n1.
Proof. intros Hk n' r Hr. by apply Hk in Hr. Qed.

Lemma rel_for_each {A} (l : list A) body n :
  (forall a n, rel_at R (body a) n) -> rel_at R (for_each l body) n.
Proof.
  intros Hb. revert n; induction l as [|a l IH]; intros n; simpl; [apply rel_ret|].
  apply rel_bind; [apply Hb|]. intros n1 [] _ _. apply IH.
Qed.
End Rel.

Lemma rel_store_update {L SM B} `{LogStore L, StateMachine SM} (R : RaftNode L SM -> RaftNode L SM -> Prop)
    op (k : unit -> M L SM B) n :
  (forall s' r, op (log_store_ n) = (s', r) ->
    match r with
    | Ok _ => rel_from R n (k ()) (set_log_store s' n)
    | Err _ => R n (set_log_store s' n)
    end) ->
  rel_at R (store_update op ≫= k) n.
Proof.
  intros Hop n' r. unfold mbind, M_bind, store_update.
  destruct (op (log_store_ n)) as [s' r0] eqn:E. specialize (Hop _ _ eq_refl).
  destruct r0 as [[]|e]; [apply Hop|by intros [= <- _]].
Qed.

(** Walk through a method: binds, branches and atomic steps; what is left are
    the calls and the field updates. *)
Ltac rel_step :=
  lazymatch goal with
  | |- rel_at _ (mret _) _ => apply rel_ret; apply _
  | |- rel_at _ (throw _) _ => apply rel_throw; apply _
  | |- rel_at _ (lift _) _ => apply rel_lift; apply _
  | |- rel_at _ (get ≫= _) _ => apply rel_get
  | |- rel_at _ (_ ≫= _) _ => apply rel_bind; [apply _| |]
  | |- rel_at _ (for_each _ _) _ => apply rel_for_each; [apply _|]
  | |- rel_at _ (outcome _) _ => apply rel_outcome
  | |- rel_at _ (if ?b then _ else _) _ => destruct b eqn:?
  | |- rel_at _ (match ?x with _ => _ end) _ => destruct x eqn:?
  | |- forall _, _ => intros
  end.

(** ** Invariants *)

Section Invariants.
Context {L SM : Type} `{LogStoreLaws L, StateMachine SM}.
Abbreviation node := (RaftNode L SM).
Implicit Types n : node.

Definition node_view n : log_view := ls_view (log_store_ n).

(** Memory mirrors the disk, and the snapshot boundary is applied. *)
Record node_ok n : Prop := {
  ok_store : ls_wf (log_store_ n);
  ok_hard : lv_hard (node_view n) = hard_state_ n;
  ok_snap : lv_snap (node_view n) =
    mkSnapshotMetadata (last_included_index_ n) (last_included_term_ n);
  ok_last : lv_last (node_view n) = last_log_index_ n;
  ok_applied : last_included_index_ n <= last_applied_ n }.

(** Messages that have no part in an election. *)
Definition benign (m : Message) : bool :=
  match m with
  | MsgRequestVote _ => false
  | MsgRequestVoteResponse r => negb (vote_granted r)
  | _ => true
  end.

Definition sends (P : NodeId * Message -> Prop) n n' : Prop :=
  exists new, outbox n' = outbox n ++ new /\ Forall P new.

Lemma sends_refl P n : sends P n n.
Proof. exists []. by rewrite app_nil_r. Qed.

Lemma sends_trans P n1 n2 n3 : sends P n1 n2 -> sends P n2 n3 -> sends P n1 n3.
Proof.
  intros (a & Ea & Ha) (b & Eb & HB). exists (a ++ b).
  rewrite Eb, Ea, <- app_assoc. split; [done|]. by apply Forall_app.
Qed.

(** What everything but elections leaves alone. *)
Record calm n n' : Prop := {
  cm_config : config_ n' = config_ n;
  cm_hard : hard_state_ n' = hard_state_ n;
  cm_role : role_ n' = role_ n;
  cm_votes : votes_received_ n' = votes_received_ n;
  cm_applied : last_applied_ n <= last_applied_ n';
  cm_sends : sends (fun p => benign p.2 = true) n n' }.

#[export] Instance calm_preorder : PreOrder calm.
Proof.
  split.
  - intros n. split; try done; try lia. apply sends_refl.
  - intros a b c [A1 A2 A3 A4 A5 A6] [B1 B2 B3 B4 B5 B6].
    split; try congruence; try lia. by eapply sends_trans.
Qed.

(** The invariant is kept, and [P] holds between before and after. *)
Definition keeps (P : node -> node -> Prop) n n' : Prop := node_ok n -> node_ok n' /\ P n n'.

#[export] Instance keeps_preorder P `{!PreOrder P} : PreOrder (keeps P).
Proof.
  split.
  - intros n Hn. split; [done|reflexivity].
  - intros a b c Hab Hbc Ha. destruct (Hab Ha) as [Hb Pab]. destruct (Hbc Hb) as [Hc Pbc].
    split; [done|]. by etransitivity.
Qed.

(** A change of bookkeeping fields only. *)
Record bookkeeping n n' : Prop := {
  bk_store : log_store_ n' = log_store_ n;
  bk_config : config_ n' = config_ n;
  bk_hard : hard_state_ n' = hard_state_ n;
  bk_role : role_ n' = role_ n;
  bk_votes : votes_received_ n' = votes_received_ n;
  bk_last : last_log_index_ n' = last_log_index_ n;
  bk_inc : last_included_index_ n' = last_included_index_ n;
  bk_inct : last_included_term_ n' = last_included_term_ n;
  bk_applied : last_applied_ n' = last_applied_ n;
  bk_commit : commit_index_ n' = commit_index_ n;
  bk_out : outbox n' = outbox n }.

#[export] Instance bookkeeping_preorder : PreOrder bookkeeping.
Proof.
  split; [by intros n; split|].
  intros a b c [] []. split; congruence.
Qed.

Lemma bookkeeping_keeps n n' : bookkeeping n n' -> keeps calm n n'.
Proof.
  intros [B1 B2 B3 B4 B5 B6 B7 B8 B9 B10 B11] [O1 O2 O3 O4 O5].
  split.
  - split; unfold node_view in *; rewrite ?B1, ?B3, ?B6, ?B7, ?B8, ?B9, ?B10; done.
  - split; try congruence; try lia. exists []. by rewrite app_nil_r.
Qed.

Lemma bk_finish id e res n : bookkeeping n (finish_completion id e res n).
Proof. by split. Qed.

Lemma bk_finish_all ids e res n : bookkeeping n (finish_all ids e res n).
Proof.
  unfold finish_all. revert n; induction ids as [|id ids IH]; intros n; simpl; [reflexivity|].
  etransitivity; [apply bk_finish|apply IH].
Qed.

Lemma bk_complete index res n : bookkeeping n (complete_applied_proposal index res n).
Proof.
  unfold complete_applied_proposal. case_match; [|reflexivity].
  etransitivity; [|apply bk_finish]. by split.
Qed.

Lemma bk_complete_upto index n : bookkeeping n (complete_applied_proposals_upto index n).
Proof. etransitivity; [|apply bk_finish_all]. by split. Qed.

Lemma bk_fail_pending from e n : bookkeeping n (fail_pending_proposals from e n).
Proof. etransitivity; [|apply bk_finish_all]. by split. Qed.

Lemma bk_evaluate n : bookkeeping n (evaluate_read_barriers n).
Proof. etransitivity; [|apply bk_finish_all]. by split. Qed.

Lemma bk_fail_barriers e n : bookkeeping n (fail_read_barriers e n).
Proof. etransitivity; [|apply bk_finish_all]. by split. Qed.

Lemma bk_deadline now n : bookkeeping n (reset_election_deadline now n).
Proof. by split. Qed.

Lemma bk_last_error e n : bookkeeping n (set_last_error e n).
Proof. by split. Qed.
End Invariants.

Create HintDb raft.
#[export] Hint Resolve bookkeeping_keeps bk_finish bk_complete bk_complete_upto bk_fail_pending
  bk_evaluate bk_fail_barriers bk_deadline bk_last_error : raft.
#[export] Hint Extern 2 (bookkeeping _ _) => (by split) : raft.

(** ** Methods that only send, apply and keep books

    The relations such methods respect: [Booked R] for methods that do not
    send, [Quiet R] for all of them. The methods are walked through once for
    every such relation. *)
Class Booked {L SM : Type} (R : RaftNode L SM -> RaftNode L SM -> Prop) := {
  booked_preorder :: PreOrder R;
  booked_bk : forall n n', bookkeeping n n' -> R n n';
  booked_applied : forall n, R n (set_last_applied (last_applied_ n + 1) n) }.

Class Quiet {L SM : Type} (R : RaftNode L SM -> RaftNode L SM -> Prop) := {
  quiet_booked :: Booked R;
  quiet_send : forall to m n, benign m = true -> R n (set_outbox (outbox n ++ [(to, m)]) n) }.

Section BookedMethods.
Context {L SM : Type} `{LogStore L, StateMachine SM}.
Abbreviation node := (RaftNode L SM).
Context (R : node -> node -> Prop) `{!Booked R}.
Implicit Types n : node.

Lemma rel_attempt_quiet m n : rel_at R m n -> rel_at R (attempt m) n.
Proof. intros Hm. apply rel_attempt; [apply _| |done]. intros. apply booked_bk. by split. Qed.

Lemma rel_modify_bk f n : (forall n, bookkeeping n (f n)) -> rel_at R (modify f) n.
Proof. intros Hf. apply rel_modify. by apply booked_bk. Qed.

Lemma rel_log_at i n : rel_at R (log_at i) n.
Proof. apply rel_lift; apply _. Qed.

Ltac booked_step :=
  first
  [ rel_step
  | apply rel_log_at
  | apply rel_modify_bk; intros; solve [auto with raft]
  | apply rel_attempt_quiet ].

Lemma bk_run_apply entry n n1 r : run_apply entry n = (n1, r) -> bookkeeping n n1.
Proof. unfold run_apply. destruct (sm_apply _ _). intros [= <- _]. by split. Qed.

Lemma rel_run_apply entry n : rel_at R (run_apply entry) n.
Proof. intros n' r Hr. apply booked_bk. by eapply bk_run_apply. Qed.

Lemma rel_apply_loop fuel n : rel_at R (apply_loop fuel) n.
Proof.
  revert n; induction fuel as [|fuel IH]; intros n; simpl; [apply rel_ret; apply _|].
  apply rel_get. destruct (_ <? _) eqn:E; [|apply rel_ret; apply _]. boolify.
  apply rel_bind; [apply _|apply rel_log_at|]. intros n1 entry [= <- _] _.
  apply rel_bind; [apply _|apply rel_run_apply|]. intros n1 r Hr _.
  pose proof (bk_run_apply _ _ _ _ Hr) as Hbk.
  assert (Ha : last_applied_ n1 = last_applied_ n) by apply Hbk.
  destruct r as [res|e]; [|repeat booked_step].
  apply rel_bind; [apply _| |].
  - apply rel_modify. rewrite <- Ha. apply booked_applied.
  - intros. repeat first [apply IH | booked_step].
Qed.

Lemma rel_apply_committed n : rel_at R apply_committed n.
Proof. unfold apply_committed. repeat first [apply rel_apply_loop | booked_step]. Qed.

Lemma rel_last_log_term n : rel_at R last_log_term n.
Proof. unfold last_log_term. repeat booked_step. Qed.

Lemma rel_prev_matches request n : rel_at R (prev_matches request) n.
Proof. unfold prev_matches. repeat booked_step. Qed.

Lemma rel_read_entries count index n : rel_at R (read_entries count index) n.
Proof.
  revert index n; induction count as [|count IH]; intros index n; simpl; [apply rel_ret; apply _|].
  repeat first [apply IH | booked_step].
Qed.
End BookedMethods.

Section QuietMethods.
Context {L SM : Type} `{LogStore L, StateMachine SM}.
Abbreviation node := (RaftNode L SM).
Context (R : node -> node -> Prop) `{!Quiet R}.
Implicit Types n : node.

Lemma rel_send to m n : benign m = true -> rel_at R (send to m) n.
Proof. intros Hm. apply rel_modify. by apply quiet_send. Qed.

Ltac quiet_step :=
  first
  [ rel_step
  | apply rel_log_at; apply _
  | apply rel_send; done
  | apply rel_modify_bk; [apply _|intros; solve [auto with raft]]
  | apply rel_attempt_quiet; [apply _|] ].

Lemma rel_send_snapshot to n : rel_at R (send_snapshot to) n.
Proof. unfold send_snapshot. repeat quiet_step. Qed.

Lemma rel_send_append_entries to n : rel_at R (send_append_entries to) n.
Proof.
  unfold send_append_entries.
  repeat first [apply rel_send_snapshot | apply rel_read_entries; apply _ | quiet_step].
Qed.

Lemma rel_send_heartbeats n : rel_at R send_heartbeats n.
Proof.
  unfold send_heartbeats. repeat first [apply rel_send_append_entries | quiet_step].
Qed.
End QuietMethods.

Ltac quiet_step :=
  first
  [ rel_step
  | apply rel_send_snapshot; [apply _] | apply rel_send_append_entries; [apply _]
  | apply rel_send_heartbeats; [apply _] | apply rel_apply_committed; [apply _]
  | apply rel_last_log_term; [apply _] | apply rel_prev_matches; [apply _]
  | apply rel_log_at; [apply _]
  | apply rel_send; [apply _|done]
  | apply rel_modify_bk; [apply _|intros; solve [auto with raft]]
  | apply rel_attempt_quiet; [apply _|] ].

#[export] Instance keeps_calm_quiet {L SM} `{LogStoreLaws L} : Quiet (keeps (L:=L) (SM:=SM) calm).
Proof.
  split; [split|].
  - apply _.
  - apply bookkeeping_keeps.
  - intros n [O1 O2 O3 O4 O5]. split; [split; simpl; try done; lia|].
    split; simpl; try done; try lia. apply (sends_refl _ n).
  - intros to m n Hm [O1 O2 O3 O4 O5]. split; [by split|].
    split; simpl; try done; try lia. exists [(to, m)]. split; [done|]. by constructor.
Qed.

Section Methods.
Context {L SM : Type} `{LogStoreLaws L, StateMachine SM}.
Abbreviation node := (RaftNode L SM).
Implicit Types n : node.

Lemma keeps_set_commit c n : keeps calm n (set_commit_index c n).
Proof.
  intros [O1 O2 O3 O4 O5]. split; [split; simpl; try done; lia|].
  split; simpl; try done; try lia. apply (sends_refl _ n).
Qed.

Lemma rel_advance_commit n : rel_at (keeps calm) advance_commit n.
Proof.
  unfold advance_commit. apply rel_get. destruct (_ || _) eqn:E; [apply rel_ret; apply _|]. boolify.
  apply rel_bind; [apply _|apply rel_log_at; apply _|]. intros n1 entry [= <- _] _.
  destruct (negb _); [apply rel_ret; apply _|].
  apply rel_bind; [apply _|apply rel_modify, keeps_set_commit|]. intros n1 [] _ _.
  repeat quiet_step.
Qed.

(** *** Updates of the durable log *)

Lemma append_ok e n s' r :
  node_ok n -> ls_append e (log_store_ n) = (s', r) ->
  match r with
  | Ok _ => e_index e = last_log_index_ n + 1 /\
            keeps calm n (set_last_log_index (e_index e) (set_log_store s' n)) /\
            view_eq (ls_view s') (view_append e (node_view n))
  | Err _ => keeps calm n (set_log_store s' n) /\ view_eq (ls_view s') (node_view n)
  end.
Proof.
  intros [O1 O2 O3 O4 O5] Hs. pose proof (ls_append_spec _ _ _ _ O1 Hs) as Hu.
  destruct r as [[]|er]; simpl in Hu.
  - destruct Hu as ([Hi _] & Hwf & [V1 V2 V3 V4]). unfold node_view in *.
    split; [congruence|]. split; [|done]. intros _. split.
    + split; unfold node_view; simpl in *; try done; congruence.
    + split; simpl; try done; try lia. apply (sends_refl _ n).
  - destruct Hu as (Hwf & [V1 V2 V3 V4]). split; [|done]. intros _. split.
    + split; unfold node_view in *; simpl in *; try done; congruence.
    + split; simpl; try done; try lia. apply (sends_refl _ n).
Qed.

Lemma truncate_ok from n s' r :
  node_ok n -> ls_truncate_suffix from (log_store_ n) = (s', r) ->
  match r with
  | Ok _ => last_included_index_ n < from /\
            keeps calm n (set_last_log_index (from - 1) (set_log_store s' n)) /\
            view_eq (ls_view s') (view_truncate from (node_view n))
  | Err _ => keeps calm n (set_log_store s' n) /\ view_eq (ls_view s') (node_view n)
  end.
Proof.
  intros [O1 O2 O3 O4 O5] Hs. pose proof (ls_truncate_spec _ _ _ _ O1 Hs) as Hu.
  destruct r as [[]|er]; simpl in Hu.
  - destruct Hu as (Hr & Hwf & [V1 V2 V3 V4]). unfold node_view in *. rewrite O3 in Hr. simpl in Hr.
    split; [lia|]. split; [|done]. intros _. split.
    + split; unfold node_view; simpl in *; try done; congruence.
    + split; simpl; try done; try lia. apply (sends_refl _ n).
  - destruct Hu as (Hwf & [V1 V2 V3 V4]). split; [|done]. intros _. split.
    + split; unfold node_view in *; simpl in *; try done; congruence.
    + split; simpl; try done; try lia. apply (sends_refl _ n).
Qed.

(** The store alone, after a failed operation. *)
Lemma keeps_same_view n s' :
  ls_wf s' -> view_eq (ls_view s') (node_view n) -> keeps calm n (set_log_store s' n).
Proof.
  intros Hwf [V1 V2 V3 V4] [O1 O2 O3 O4 O5]. unfold node_view in *. split.
  - split; unfold node_view; simpl; try done; congruence.
  - split; simpl; try done; try lia. apply (sends_refl _ n).
Qed.

Lemma install_ok m n s' r :
  node_ok n -> last_applied_ n <= last_included_index m ->
  ls_install_snapshot m (log_store_ n) = (s', r) ->
  match r with
  | Ok _ => keeps calm n (jump_to m (set_log_store s' n)) /\
            view_eq (ls_view s') (view_install m (node_view n))
  | Err _ => keeps calm n (set_log_store s' n)
  end.
Proof.
  intros [O1 O2 O3 O4 O5] Hle Hs.
  assert (Hsn : last_included_index (lv_snap (ls_view (log_store_ n))) <= last_included_index m).
  { unfold node_view in O3. rewrite O3. simpl. lia. }
  pose proof (ls_install_spec _ _ _ _ O1 Hsn Hs) as Hu. destruct r as [[]|er]; simpl in Hu.
  - destruct Hu as (_ & Hwf & [V1 V2 V3 V4]). unfold node_view in *. split; [|done]. intros _. split.
    + destruct m as [mi mt]. split; unfold node_view; simpl in *; try congruence; try done.
      by destruct (last_applied_ n <? mi) eqn:E1; boolify; lia.
    + split; simpl; try done.
      * destruct (_ <? _) eqn:E1; boolify; lia.
      * apply (sends_refl _ n).
  - destruct Hu as (Hwf & Hv). by apply keeps_same_view.
Qed.

Lemma rel_maybe_compact_log n : rel_at (keeps calm) maybe_compact_log n.
Proof.
  unfold maybe_compact_log. apply rel_get.
  do 3 (rel_step; [apply rel_ret; apply _|]).
  destruct ((last_applied_ n =? _) || _) eqn:E; [apply rel_ret; apply _|]. boolify.
  apply rel_bind; [apply _|apply rel_log_at; apply _|]. intros n1 entry [= <- Hat] _.
  apply rel_store_update. intros s' r Hs. set (m := mkSnapshotMetadata _ _) in Hs.
  assert (Hnow : match r with
    | Ok _ => keeps calm n (set_last_included_term (e_term entry)
                (set_last_included_index (last_applied_ n) (set_log_store s' n)))
    | Err _ => keeps calm n (set_log_store s' n)
    end).
  { destruct r as [[]|e].
    - intros Hok. pose proof Hok as [O1 O2 O3 O4 O5].
      destruct (install_ok m n s' (Ok ()) Hok ltac:(simpl; lia) Hs) as [Hk _].
      destruct (Hk Hok) as [[P1 P2 P3 P4 P5] _].
      unfold node_view, jump_to in P1, P2, P3, P4. simpl in P1, P2, P3, P4.
      destruct (ls_at_spec _ _ _ O1 Hat) as (_ & _ & He).
      rewrite (proj2 (N.eqb_neq _ _)) in He by (unfold node_view in O3; rewrite O3; simpl; lia).
      assert (last_applied_ n <= last_log_index_ n).
      { rewrite <- O4. apply (vw_some _ (ls_view_wf _ O1) (last_applied_ n)).
        rewrite He. by eexists. }
      split; [split; unfold node_view in *; simpl in *; try done; try lia|].
      split; simpl; try done; try lia. apply (sends_refl _ n).
    - intros Hok. by apply (install_ok m n s' (Err e) Hok ltac:(simpl; lia) Hs). }
  destruct r as [[]|e]; [|done]. apply rel_from_modify.
  intros n' r' [= <- _]. exact Hnow.
Qed.

(** *** Storing the entries of an AppendEntries request *)

Lemma rel_store_entry t index entry n : rel_at (keeps calm) (store_entry t index entry) n.
Proof.
  unfold store_entry. destruct (_ || _) eqn:E; [apply rel_throw; apply _|]. boolify.
  apply rel_get. apply rel_bind; [apply _| |].
  - destruct (index <=? _) eqn:Ei; [|apply rel_ret; apply _].
    apply rel_bind; [apply _|apply rel_log_at; apply _|]. intros n1 existing [= <- _] _.
    destruct (negb _); [|repeat quiet_step].
    apply rel_store_update. intros s' r Hs. destruct r as [[]|e].
    + apply rel_from_modify. intros n' r' [= <- _] Hok.
      destruct (truncate_ok _ _ _ _ Hok Hs) as (_ & Hk & _).
      destruct (Hk Hok) as [Hok' Hc]. destruct (bookkeeping_keeps _ _
        (bk_fail_pending (Some index) truncated_suffix
          (set_last_log_index (index - 1) (set_log_store s' n))) Hok') as [? Hc'].
      split; [done|]. by etransitivity.
    + intros Hok. by destruct (truncate_ok _ _ _ _ Hok Hs) as [Hk _]; apply Hk.
  - intros n1 [] _ _. apply rel_get. destruct (_ <? index); [|apply rel_ret; apply _].
    apply rel_store_update. intros s' r Hs. destruct r as [[]|e].
    + intros n' r' [= <- _] Hok. destruct (append_ok _ _ _ _ Hok Hs) as (_ & Hk & _).
      replace index with (e_index entry) by done. by apply Hk.
    + intros Hok. by destruct (append_ok _ _ _ _ Hok Hs) as [Hk _]; apply Hk.
Qed.

Lemma rel_store_entries t index entries n : rel_at (keeps calm) (store_entries t index entries) n.
Proof.
  revert index n; induction entries as [|e es IH]; intros index n; simpl; [apply rel_ret; apply _|].
  repeat first [apply rel_store_entry | apply IH | quiet_step].
Qed.

End Methods.
