(* ===== verification/RaftElection.v ===== *)
(** * Votes and leadership: the election rules of a node

    [step_ok] says what one call of the node's interface can do to its vote,
    its role and the election messages it sends; every entry point satisfies
    it. [ElectionSafety.v] builds the cluster argument on it. *)

From S2P Require Import Prelude Bytes KvTypes Wire RaftTypes LogStore RaftState RaftNode RaftInvariants.
Local Open Scope N_scope.

(** What a node reacts to. *)
Inductive input :=
| InMsg (from : NodeId) (m : Message)
| InLocal.

(** The hard state only moves to a newer term, or from no vote to a vote. *)
Definition vote_le (h h' : HardState) : Prop :=
  hs_term h < hs_term h' \/
  (hs_term h' = hs_term h /\ (hs_voted_for h = None \/ hs_voted_for h' = hs_voted_for h)).

#[export] Instance vote_le_preorder : PreOrder vote_le.
Proof.
  split.
  - intros h. right. auto.
  - intros a b c [Hab|[Hab Vab]] [Hbc|[Hbc Vbc]]; unfold vote_le.
    + left. lia.
    + left. lia.
    + left. lia.
    + right. split; [congruence|]. destruct Vab as [|Hv]; [by left|].
      destruct Vbc as [|Hv']; [left; congruence|right; congruence].
Qed.

Section Election.
Context {L SM : Type} `{LogStoreLaws L, StateMachine SM}.
Abbreviation node := (RaftNode L SM).
Implicit Types n : node.

(** A granted vote was asked for, and is the one recorded. *)
Definition vote_msg_ok (inp : input) (self_id : NodeId) (hard : HardState) (p : NodeId * Message) : Prop :=
  match p.2 with
  | MsgRequestVote r => rv_candidate_id r = self_id
  | MsgRequestVoteResponse r =>
      vote_granted r = true ->
      exists req, inp = InMsg p.1 (MsgRequestVote req) /\
        hard = mkHardState (rvr_term r) (Some (rv_candidate_id req))
  | _ => True
  end.

(** A candidate or leader has voted for itself in its term. *)
Definition vote_ok n : Prop :=
  role_ n <> Follower -> hs_voted_for (hard_state_ n) = Some (self n).

Record step_ok (inp : input) n n' : Prop := {
  so_ok : node_ok n';
  so_vote : vote_ok n';
  so_config : config_ n' = config_ n;
  so_hard : vote_le (hard_state_ n) (hard_state_ n');
  so_applied : last_applied_ n <= last_applied_ n';
  so_sends : sends (vote_msg_ok inp (self n) (hard_state_ n')) n n';
  so_votes : role_ n' <> Follower -> forall v, v ∈ votes_received_ n' ->
    (hard_state_ n' = hard_state_ n /\ role_ n <> Follower /\ v ∈ votes_received_ n) \/
    (v = self n /\ hs_voted_for (hard_state_ n') = Some (self n)) \/
    (exists r, inp = InMsg v (MsgRequestVoteResponse r) /\ vote_granted r = true /\
      rvr_term r = term n');
  so_leader : role_ n' = Leader ->
    (role_ n = Leader /\ hard_state_ n' = hard_state_ n /\ votes_received_ n' = votes_received_ n) \/
    has_quorum (config_ n) (size (votes_received_ n')) = true }.

Lemma benign_ok inp s h p : benign p.2 = true -> vote_msg_ok inp s h p.
Proof.
  destruct p as [to []]; unfold vote_msg_ok; simpl; try done.
  intros Hb Hv. by rewrite Hv in Hb.
Qed.

Lemma sends_impl (P Q : NodeId * Message -> Prop) n n' :
  (forall p, P p -> Q p) -> sends P n n' -> sends Q n n'.
Proof. intros HPQ (new & Hn & Hf). exists new. split; [done|]. by eapply Forall_impl. Qed.

Lemma vote_ok_calm n n' : calm n n' -> vote_ok n -> vote_ok n'.
Proof. intros [C1 C2 C3 C4 C5 C6]. unfold vote_ok, self. by rewrite C1, C2, C3. Qed.

Lemma step_of_calm inp n n' : node_ok n' -> vote_ok n -> calm n n' -> step_ok inp n n'.
Proof.
  intros Hok Hv Hc. pose proof (vote_ok_calm _ _ Hc Hv) as Hv'.
  destruct Hc as [C1 C2 C3 C4 C5 C6]. split; try done.
  - rewrite C2. reflexivity.
  - eapply sends_impl; [|done]. intros p. apply benign_ok.
  - intros Hr v Hin. left. by rewrite C2, <- C3, <- C4.
  - intros Hr. left. by rewrite <- C3.
Qed.

Lemma step_then_calm inp n n1 n2 : step_ok inp n n1 -> keeps calm n1 n2 -> step_ok inp n n2.
Proof.
  intros [S1 S0 S2 S3 S4 S6 S7 S8] Hk. destruct (Hk S1) as [Hok Hc].
  pose proof (vote_ok_calm _ _ Hc S0) as S0'. destruct Hc as [C1 C2 C3 C4 C5 C6].
  assert (Hself : self n1 = self n) by (unfold self; by rewrite S2).
  unfold self, term in *. split; unfold self, term in *.
  - done.
  - done.
  - congruence.
  - by rewrite C2.
  - lia.
  - rewrite C2. eapply sends_trans; [done|]. eapply sends_impl; [|done]. intros p. apply benign_ok.
  - by rewrite C2, C3, C4.
  - by rewrite C2, C3, C4.
Qed.

(** Like [rel_at], for relations that are not transitive. *)
Definition outcomes {A} (P : node -> result Error A -> Prop) (m : M L SM A) n : Prop :=
  forall n' r, m n = (n', r) -> P n' r.

Definition stepping inp {A} n (m : M L SM A) (n1 : node) : Prop :=
  outcomes (fun n' _ => step_ok inp n n') m n1.

Lemma stepping_calm inp {A} n (m : M L SM A) n1 :
  step_ok inp n n1 -> rel_at (keeps calm) m n1 -> stepping inp n m n1.
Proof. intros Hs Hm n' r Hr. eapply step_then_calm; [done|]. by eapply Hm. Qed.

Lemma stepping_bind inp {A B} n (m : M L SM A) (k : A -> M L SM B) n1 :
  step_ok inp n n1 -> rel_at (keeps calm) m n1 ->
  (forall n2 a, m n1 = (n2, Ok a) -> step_ok inp n n2 -> keeps calm n1 n2 -> stepping inp n (k a) n2) ->
  stepping inp n (m ≫= k) n1.
Proof.
  intros Hs Hm Hk n' r. unfold mbind, M_bind. destruct (m n1) as [n2 [a|e]] eqn:E.
  - apply Hk; [done| |by eapply Hm]. eapply step_then_calm; [done|]. by eapply Hm.
  - intros [= <- _]. eapply step_then_calm; [done|]. by eapply Hm.
Qed.

Lemma stepping_seq inp {A B} n (m : M L SM A) (k : A -> M L SM B) n1 :
  stepping inp n m n1 -> (forall n2 a, step_ok inp n n2 -> stepping inp n (k a) n2) ->
  stepping inp n (m ≫= k) n1.
Proof.
  intros Hm Hk n' r. rewrite run_bind. destruct (m n1) as [n2 [a|e]] eqn:E.
  - apply Hk. by eapply Hm.
  - intros [= <- _]. by eapply Hm.
Qed.

Lemma stepping_attempt inp n m n1 : stepping inp n m n1 -> stepping inp n (attempt m) n1.
Proof.
  intros Hm n' r. unfold attempt. destruct (m n1) as [n2 [[]|e]] eqn:E; intros [= <- _].
  - by eapply Hm.
  - eapply step_then_calm; [by eapply Hm|]. apply bookkeeping_keeps. by split.
Qed.

(** ** Saving the hard state *)

Lemma save_ok h n s' r :
  node_ok n -> ls_save_hard_state h (log_store_ n) = (s', r) ->
  match r with
  | Ok _ => node_ok (set_hard_state h (set_log_store s' n))
  | Err _ => node_ok (set_log_store s' n)
  end.
Proof.
  intros [O1 O2 O3 O4 O5] Hs. pose proof (ls_save_spec _ _ _ _ O1 Hs) as Hu.
  destruct r as [[]|e]; simpl in Hu.
  - destruct Hu as (_ & Hwf & [V1 V2 V3 V4]).
    split; unfold node_view in *; simpl in *; try done; congruence.
  - destruct Hu as (Hwf & [V1 V2 V3 V4]).
    split; unfold node_view in *; simpl in *; try done; congruence.
Qed.

Lemma node_ok_bk n n' : bookkeeping n n' -> node_ok n -> node_ok n'.
Proof. intros Hb Hn. by destruct (bookkeeping_keeps n n' Hb Hn). Qed.

(** Fields of the election state aside, nothing moved. *)
Record same_log n n' : Prop := {
  sl_config : config_ n' = config_ n;
  sl_view : view_eq (view_hard (lv_hard (node_view n)) (node_view n')) (node_view n);
  sl_last : last_log_index_ n' = last_log_index_ n;
  sl_inc : last_included_index_ n' = last_included_index_ n;
  sl_applied : last_applied_ n' = last_applied_ n;
  sl_commit : commit_index_ n' = commit_index_ n;
  sl_out : outbox n' = outbox n }.

Lemma same_log_trans n1 n2 n3 : same_log n1 n2 -> same_log n2 n3 -> same_log n1 n3.
Proof.
  intros [A1 [V1 V2 V3 V4] A3 A4 A5 A6 A7] [B1 [W1 W2 W3 W4] B3 B4 B5 B6 B7].
  split; try congruence. split; simpl in *; try congruence.
Qed.

Lemma same_log_bk n n' : bookkeeping n n' -> same_log n n'.
Proof. intros [B1 B2 B3 B4 B5 B6 B7 B8 B9 B10 B11]. split; try done. unfold node_view. by rewrite B1. Qed.

Lemma save_view h n s' r :
  ls_wf (log_store_ n) -> ls_save_hard_state h (log_store_ n) = (s', r) ->
  view_eq (view_hard (lv_hard (node_view n)) (ls_view s')) (node_view n).
Proof.
  intros Hwf Hs. pose proof (ls_save_spec _ _ _ _ Hwf Hs) as Hu. unfold node_view.
  destruct r; simpl in Hu; [destruct Hu as (_ & _ & [V1 V2 V3 V4])|destruct Hu as (_ & [V1 V2 V3 V4])];
    split; simpl in *; done.
Qed.

(** ** [become_follower] *)

Definition follower_tail (now : N) (leader : option NodeId) (was_leader : bool) : M L SM unit :=
  _ ← modify (set_role Follower);
  _ ← (if was_leader then
         _ ← modify (fail_pending_proposals None (lost_leadership "commit"));
         modify (fail_read_barriers (lost_leadership "the read barrier completed"))
       else mret ());
  _ ← modify (set_leader_id leader);
  _ ← modify (set_votes_received ∅);
  _ ← modify (set_pending_snapshot None);
  modify (reset_election_deadline now).

Lemma follower_tail_spec now leader b n n' r :
  node_ok n -> follower_tail now leader b n = (n', r) ->
  node_ok n' /\ same_log n n' /\ r = Ok () /\ role_ n' = Follower /\ votes_received_ n' = ∅ /\
  hard_state_ n' = hard_state_ n.
Proof.
  intros Hok Hr.
  set (n1 := set_role Follower n).
  set (n2 := if b then fail_read_barriers (lost_leadership "the read barrier completed")
    (fail_pending_proposals None (lost_leadership "commit") n1) else n1).
  assert (Hbk : bookkeeping n1 n2).
  { unfold n2. destruct b; [|reflexivity]. etransitivity; [apply bk_fail_pending|apply bk_fail_barriers]. }
  assert (Hn' : n' = reset_election_deadline now (set_pending_snapshot None
    (set_votes_received ∅ (set_leader_id leader n2))) /\ r = Ok ()).
  { unfold n2, n1. destruct b; by injection Hr as <- <-. }
  destruct Hn' as [-> ->].
  assert (Hok1 : node_ok n1) by (by destruct Hok; split).
  assert (Hok2 : node_ok n2) by (by eapply node_ok_bk).
  destruct Hbk as [B1 B2 B3 B4 B5 B6 B7 B8 B9 B10 B11]. simpl in *.
  split_and!; try done; [by destruct Hok2; split|].
  split; simpl; try done. unfold node_view in *. simpl. by rewrite B1.
Qed.

Lemma become_follower_spec now t leader n n' r :
  node_ok n -> become_follower now t leader n = (n', r) ->
  node_ok n' /\ same_log n n' /\
  match r with
  | Ok _ => role_ n' = Follower /\ votes_received_ n' = ∅ /\
      hard_state_ n' = if term n <? t then mkHardState t None else hard_state_ n
  | Err _ => term n < t /\ role_ n' = role_ n /\ votes_received_ n' = votes_received_ n /\
      hard_state_ n' = hard_state_ n
  end.
Proof.
  intros Hok Hr. change (become_follower now t leader n) with
    ((_ ← (if term n <? t then
         _ ← modify (set_hard_state (mkHardState t None));
         on_error (store_update (ls_save_hard_state (mkHardState t None)))
           (set_hard_state (hard_state_ n))
       else mret ()); follower_tail now leader (bool_decide (role_ n = Leader))) n) in Hr.
  destruct (term n <? t) eqn:E; boolify.
  - unfold mbind, M_bind, modify, on_error, store_update in Hr. simpl in Hr.
    destruct (ls_save_hard_state _ (log_store_ n)) as [s' [[]|e]] eqn:Es.
    + pose proof (save_ok _ _ _ _ Hok Es) as Hok1. simpl in Hok1.
      apply follower_tail_spec in Hr as (Hok' & Hsl & -> & Hrl & Hv & Hh); [|exact Hok1].
      split_and!; try done. eapply same_log_trans; [|exact Hsl]. split; try done.
      apply (save_view _ _ _ _ (ok_store _ Hok) Es).
    + injection Hr as <- <-. pose proof (save_ok _ _ _ _ Hok Es) as Hok1. simpl in Hok1.
      split; [by destruct Hok1; split|]. split; [|by split_and!]. split; try done.
      apply (save_view _ _ _ _ (ok_store _ Hok) Es).
  - unfold mbind at 1, M_bind at 1 in Hr. simpl in Hr.
    apply follower_tail_spec in Hr as (Hok' & Hsl & -> & Hrl & Hv & Hh); [|done]. done.
Qed.

Lemma become_follower_step inp now t leader n n' r :
  node_ok n -> vote_ok n -> become_follower now t leader n = (n', r) -> step_ok inp n n'.
Proof.
  intros Hok Hvo Hr. destruct (become_follower_spec _ _ _ _ _ _ Hok Hr) as (Hok' & Hsl & Hm).
  destruct Hsl as [S1 S2 S3 S4 S5 S6 S7].
  assert (Hs : sends (vote_msg_ok inp (self n) (hard_state_ n')) n n').
  { exists []. by rewrite app_nil_r. }
  destruct r as [[]|e].
  - destruct Hm as (Hr' & Hv & Hh). split; try done; try lia; try congruence.
    rewrite Hh. destruct (term n <? t) eqn:E; boolify; [|reflexivity]. by left.
  - destruct Hm as (_ & Hr' & Hv & Hh). split; try done; try lia; try congruence.
    + intros Hne. rewrite Hh. unfold self. rewrite S1. apply Hvo. by rewrite <- Hr'.
    + rewrite Hh. reflexivity.
    + intros Hne v Hin. left. by rewrite Hh, <- Hr', <- Hv.
    + intros Hl. left. by rewrite <- Hr'.
Qed.

(** ** Becoming leader *)

#[local] Opaque send_heartbeats advance_commit send_append_entries send_snapshot apply_committed
  maybe_compact_log store_entries prev_matches.

(** Taking the lead is a step for a candidate that has a quorum. *)
Definition elected n : Prop :=
  role_ n = Candidate -> has_quorum (config_ n) (size (votes_received_ n)) = true.

(** The state in which the leader's no-op is appended. *)
Definition leader_state n : node :=
  initialize_leader_progress (set_leader_id (Some (self n)) (set_role Leader n)).

Lemma leader_state_step inp n n1 :
  step_ok inp n n1 -> role_ n1 = Candidate -> elected n1 -> step_ok inp n (leader_state n1).
Proof.
  intros [S1 S0 S2 S3 S4 S6 S7 S8] Ec Hel. specialize (Hel Ec). split.
  - destruct S1 as [O1 O2 O3 O4 O5]. split; assumption.
  - intros _. simpl. apply S0. by rewrite Ec.
  - exact S2.
  - exact S3.
  - exact S4.
  - exact S6.
  - intros _ v Hv. apply S7; [by rewrite Ec|exact Hv].
  - intros _. right. rewrite <- S2. exact Hel.
Qed.

Lemma become_leader_run now n :
  become_leader now n =
    if negb (bool_decide (role_ n = Candidate)) then (n, Ok ())
    else
      let n2 := leader_state n in
      let '(s', r) := ls_append (mkLogEntry (last_log_index_ n2 + 1) (term n2) []) (log_store_ n2) in
      match r with
      | Err e =>
          match become_follower now (term n2) None (set_log_store s' n2) with
          | (n', Ok _) => (n', Err e)
          | (n', Err e') => (n', Err e')
          end
      | Ok _ =>
          (_ ← send_heartbeats; advance_commit)
            (own_progress (last_log_index_ n2 + 1) (set_log_store s' n2))
      end.
Proof.
  unfold become_leader. rewrite run_get. destruct (negb _); [done|].
  rewrite !run_modify, run_get, run_outcome, run_store. fold (leader_state n). cbv zeta.
  destruct (ls_append _ _) as [s' [[]|e]]; [by rewrite run_modify|]. rewrite run_bind.
  by destruct (become_follower _ _ _ _) as [? []].
Qed.

Lemma become_leader_step inp now n n1 :
  step_ok inp n n1 -> elected n1 -> stepping inp n (become_leader now) n1.
Proof.
  intros Hs Hel n' r Hr. rewrite become_leader_run in Hr.
  destruct (negb _) eqn:Ec; [by injection Hr as <- _|].
  apply negb_false_iff, bool_decide_eq_true_1 in Ec.
  pose proof (leader_state_step inp n n1 Hs Ec Hel) as Hs2. cbv zeta in Hr.
  generalize dependent (leader_state n1). intros n2 Hr Hs2.
  pose proof (so_ok _ _ _ Hs2) as Hok2.
  destruct (ls_append _ (log_store_ n2)) as [s' [[]|e]] eqn:Ea.
  - destruct (append_ok _ _ _ _ Hok2 Ea) as (_ & Hk & _). simpl e_index in Hk.
    assert (Hk3 : keeps calm n2 (own_progress (last_log_index_ n2 + 1) (set_log_store s' n2))).
    { etransitivity; [exact Hk|]. apply bookkeeping_keeps. by split. }
    generalize dependent (own_progress (last_log_index_ n2 + 1) (set_log_store s' n2)).
    intros n3 Hr Hk3. clear Hk Ea.
    apply (stepping_bind inp n send_heartbeats (fun _ => advance_commit) n3)
      in Hr; [done|by eapply step_then_calm|apply rel_send_heartbeats; apply _|].
    intros n4 [] _ Hs4 _. apply stepping_calm; [done|apply rel_advance_commit].
  - destruct (append_ok _ _ _ _ Hok2 Ea) as (Hk & _).
    assert (Ht : term n2 = term (set_log_store s' n2)) by done. rewrite Ht in Hr.
    revert Hk Ht Hr. generalize (set_log_store s' n2). intros n3 Hk Ht Hr. clear Ea.
    pose proof (Hk Hok2) as [Hok3 Hc3].
    destruct (become_follower now (term n3) None n3) as [n4 r4] eqn:Ef.
    assert (Hr' : n' = n4) by (by destruct r4; injection Hr as <- _). subst n4. clear Hr.
    pose proof (become_follower_spec _ _ _ _ _ _ Hok3 Ef) as (Hok4 & Hsl & Hm).
    destruct r4 as [[]|]; [|lia]. destruct Hm as (Hrl & _ & Hh). rewrite N.ltb_irrefl in Hh.
    pose proof (step_then_calm _ _ _ _ Hs2 Hk) as [S1 S0 S2 S3 S4 S6 S7 S8].
    destruct Hsl as [L1 L2 L3 L4 L5 L6 L7].
    split.
    + done.
    + by intros ?.
    + congruence.
    + by rewrite Hh.
    + lia.
    + rewrite Hh. destruct S6 as (new & Hn & Hf). exists new. by rewrite L7.
    + by intros ?.
    + intros Hl. by rewrite Hl in Hrl.
Qed.

(** ** Campaigning *)

Definition campaign (now : N) (config : NodeConfig) : M L SM unit :=
  if has_quorum config 1 then become_leader now
  else
    last_term ← last_log_term;
    for_each (filter (fun p => p <> node_id config) (peers config))
      (fun peer => n ← get; send peer (MsgRequestVote
         (mkRequestVoteRequest (term n) (self n) (last_log_index_ n) last_term))).

Lemma request_votes_step inp n l lt n1 :
  step_ok inp n n1 ->
  stepping inp n (for_each l (fun peer => n ← get; send peer (MsgRequestVote
    (mkRequestVoteRequest (term n) (self n) (last_log_index_ n) lt)))) n1.
Proof.
  revert n1; induction l as [|p l IH]; intros n1 Hs n' r Hr; [by injection Hr as <- _|].
  cbn [for_each] in Hr. unfold mbind at 1, M_bind at 1 in Hr.
  unfold mbind at 1, M_bind at 1, get, send, modify in Hr.
  eapply IH; [|exact Hr]. clear IH Hr.
  destruct Hs as [S1 S0 S2 S3 S4 S6 S7 S8]. split; try done; [by destruct S1; split|]. simpl.
  eapply (sends_trans _ _ n1); [done|]. eexists [_]. split; [done|]. constructor; [|constructor].
  unfold vote_msg_ok. simpl. unfold self. by rewrite S2.
Qed.

(** The state in which the votes are asked for. *)
Definition candidate_state (now : N) (s' : L) n : node :=
  reset_election_deadline now (set_votes_received {[self n]} (set_log_store s'
    (set_leader_id None (set_hard_state (mkHardState (term n + 1) (Some (self n)))
      (set_role Candidate n))))).

Lemma start_election_run now n :
  start_election now n =
    let '(s', r) := ls_save_hard_state (mkHardState (term n + 1) (Some (self n))) (log_store_ n) in
    match r with
    | Err e => (set_role (role_ n) (set_hard_state (hard_state_ n) (set_log_store s'
        (set_leader_id None (set_hard_state (mkHardState (term n + 1) (Some (self n)))
          (set_role Candidate n))))), Err e)
    | Ok _ => campaign now (config_ n) (candidate_state now s' n)
    end.
Proof.
  unfold start_election. rewrite run_get, !run_modify, run_bind, run_on_error, run_store. simpl.
  destruct (ls_save_hard_state _ _) as [s' [[]|e]]; [|done]. rewrite !run_modify. done.
Qed.

Lemma candidate_state_step inp now n s' :
  node_ok n ->
  ls_save_hard_state (mkHardState (term n + 1) (Some (self n))) (log_store_ n) = (s', Ok ()) ->
  step_ok inp n (candidate_state now s' n).
Proof.
  intros Hok Es. pose proof (save_ok _ _ _ _ Hok Es) as [O1 O2 O3 O4 O5]. split.
  - split; assumption.
  - intros _. reflexivity.
  - reflexivity.
  - left. change (term n < term n + 1). lia.
  - apply N.le_refl.
  - exists []. by rewrite app_nil_r.
  - intros _ v Hv. right. left. change (v ∈ ({[self n]} : gset NodeId)) in Hv.
    apply elem_of_singleton in Hv. by subst.
  - intros Hl. discriminate Hl.
Qed.

Lemma start_election_step inp now n : node_ok n -> vote_ok n -> stepping inp n (start_election now) n.
Proof.
  intros Hok Hvo n' r Hr. rewrite start_election_run in Hr.
  destruct (ls_save_hard_state _ (log_store_ n)) as [s' [[]|e]] eqn:Es.
  2:{ injection Hr as <- _. apply step_of_calm; [|done|].
      - pose proof (save_ok _ _ _ _ Hok Es) as [O1 O2 O3 O4 O5]. split; assumption.
      - split; [reflexivity..|apply N.le_refl|]. exists []. by rewrite app_nil_r. }
  pose proof (candidate_state_step inp now n s' Hok Es) as Hs1.
  assert (Hv1 : votes_received_ (candidate_state now s' n) = {[self n]}) by reflexivity.
  assert (Hc1 : config_ (candidate_state now s' n) = config_ n) by reflexivity.
  revert Hr Hs1 Hv1 Hc1. generalize (candidate_state now s' n). intros n1 Hr Hs1 Hv1 Hc1.
  unfold campaign in Hr. destruct (has_quorum (config_ n) 1) eqn:Eq.
  - eapply become_leader_step; [exact Hs1| |exact Hr]. intros _.
    by rewrite Hv1, Hc1, size_singleton.
  - eapply stepping_bind in Hr; [exact Hr|exact Hs1|apply rel_last_log_term; apply _|].
    intros n2 lt _ Hs2 _. by apply request_votes_step.
Qed.

(** ** Handlers *)

Lemma step_refl inp n : node_ok n -> vote_ok n -> step_ok inp n n.
Proof. intros Hok Hv. apply step_of_calm; [done|done|reflexivity]. Qed.

Lemma last_log_term_pure n n' r : last_log_term n = (n', r) -> n' = n.
Proof.
  unfold last_log_term. rewrite run_get. destruct (_ =? _); [by intros [= <- _]|].
  rewrite run_bind. unfold log_at, lift. destruct (ls_at _ _); by intros [= <- _].
Qed.

(** Recording a vote and answering. *)
Definition voted_state (now : N) (hs : HardState) (s' : L) n : node :=
  reset_election_deadline now (set_log_store s' (set_hard_state hs n)).

Definition grant_vote (now : N) (from : NodeId) (hs : HardState) : M L SM unit :=
  n ← get;
  _ ← modify (set_hard_state hs);
  _ ← on_error (store_update (ls_save_hard_state hs)) (set_hard_state (hard_state_ n));
  _ ← modify (reset_election_deadline now);
  n' ← get;
  send from (MsgRequestVoteResponse (mkRequestVoteResponse (term n') true)).

Lemma grant_vote_step now from req n n1 :
  step_ok (InMsg from (MsgRequestVote req)) n n1 -> outbox n1 = outbox n ->
  (match hs_voted_for (hard_state_ n1) with None => true | Some v => v =? rv_candidate_id req end) = true ->
  stepping (InMsg from (MsgRequestVote req)) n
    (grant_vote now from (mkHardState (term n1) (Some (rv_candidate_id req)))) n1.
Proof.
  intros Hs Hout Hcan n' r Hr. set (hs := mkHardState _ _) in *.
  unfold grant_vote in Hr.
  rewrite run_get, run_modify, run_bind, run_on_error, run_store in Hr. simpl in Hr.
  assert (Hvl : vote_le (hard_state_ n1) hs).
  { right. split; [done|]. destruct (hs_voted_for (hard_state_ n1)) as [v|]; [|by left].
    right. boolify. by subst. }
  assert (Hsame : role_ n1 <> Follower -> hs = hard_state_ n1).
  { intros Hr1. pose proof (so_vote _ _ _ Hs Hr1) as Hself. rewrite Hself in Hcan. boolify.
    unfold hs, term. rewrite <- Hcan, <- Hself. by destruct (hard_state_ n1). }
  pose proof (so_ok _ _ _ Hs) as Hok1.
  destruct (ls_save_hard_state hs (log_store_ n1)) as [s' [[]|e]] eqn:Es.
  - rewrite run_modify, run_get in Hr. unfold send, modify in Hr. injection Hr as <- _.
    pose proof (save_ok _ _ _ _ Hok1 Es) as [O1 O2 O3 O4 O5].
    destruct Hs as [S1 S0 S2 S3 S4 S6 S7 S8]. split.
    + split; assumption.
    + intros Hne. change (role_ n1 <> Follower) in Hne.
      change (hs_voted_for hs = Some (self n1)). rewrite (Hsame Hne). by apply S0.
    + exact S2.
    + etransitivity; [exact S3|exact Hvl].
    + exact S4.
    + eexists. split; [simpl; rewrite Hout; reflexivity|]. constructor; [|constructor].
      intros _. by exists req.
    + intros Hne v Hv. change (role_ n1 <> Follower) in Hne. change (v ∈ votes_received_ n1) in Hv.
      change ((hs = hard_state_ n /\ role_ n <> Follower /\ v ∈ votes_received_ n) \/
        (v = self n /\ hs_voted_for hs = Some (self n)) \/
        (exists r, InMsg from (MsgRequestVote req) = InMsg v (MsgRequestVoteResponse r) /\
          vote_granted r = true /\ rvr_term r = hs_term hs)).
      rewrite (Hsame Hne). by apply S7.
    + intros Hl. change (role_ n1 = Leader) in Hl.
      change ((role_ n = Leader /\ hs = hard_state_ n /\ votes_received_ n1 = votes_received_ n) \/
        has_quorum (config_ n) (size (votes_received_ n1)) = true).
      rewrite (Hsame ltac:(by rewrite Hl)). by apply S8.
  - injection Hr as <- _. eapply step_then_calm; [exact Hs|]. intros _. split.
    + pose proof (save_ok _ _ _ _ Hok1 Es) as [O1 O2 O3 O4 O5]. split; assumption.
    + split; [reflexivity..|apply N.le_refl|]. exists []. by rewrite app_nil_r.
Qed.

(** Catching up with a newer term before deciding on a vote. *)
Lemma catch_up_step now req from n n1 r1 :
  node_ok n -> vote_ok n -> (rv_term req <? term n) = false ->
  (if term n <? rv_term req then become_follower now (rv_term req) None else mret ()) n = (n1, r1) ->
  step_ok (InMsg from (MsgRequestVote req)) n n1 /\ (r1 = Ok () -> outbox n1 = outbox n).
Proof.
  intros Hok Hvo Hlt E. destruct (term n <? rv_term req) eqn:E3.
  - split; [by eapply become_follower_step|]. intros ->.
    by destruct (become_follower_spec _ _ _ _ _ _ Hok E) as (_ & [? ? ? ? ? ? Ho] & _).
  - injection E as <- <-. split; [by apply step_refl|done].
Qed.

Lemma handle_request_vote_step now from req n :
  node_ok n -> vote_ok n ->
  stepping (InMsg from (MsgRequestVote req)) n (handle_request_vote now from req) n.
Proof.
  intros Hok Hvo n' r Hr. unfold handle_request_vote in Hr. rewrite run_get in Hr.
  destruct (rv_term req <? term n) eqn:E1.
  { eapply stepping_calm; [by apply step_refl| |exact Hr]. by (apply rel_send; [apply _|]). }
  rewrite run_bind in Hr.
  destruct ((if term n <? rv_term req then become_follower now (rv_term req) None else mret ()) n)
    as [n1 r1] eqn:E2.
  destruct (catch_up_step _ _ from _ _ _ Hok Hvo E1 E2) as [Hs1 Hout].
  destruct r1 as [[]|e]; [|by injection Hr as <- _]. specialize (Hout eq_refl).
  rewrite run_bind in Hr. destruct (last_log_term n1) as [n2 [lt|e]] eqn:E3;
    apply last_log_term_pure in E3; subst n2; [|by injection Hr as <- _].
  rewrite run_get in Hr. cbv zeta in Hr.
  destruct (match hs_voted_for _ with Some v => _ | None => true end) eqn:Ecan; simpl andb in Hr.
  - destruct (log_is_up_to_date _ _ _ _).
    + apply (grant_vote_step now from req n n1 Hs1 Hout Ecan n' r). unfold grant_vote.
      rewrite run_get, run_modify, !run_bind. rewrite run_bind, run_modify, run_bind in Hr.
      destruct (on_error _ _ _) as [n3 [[]|e]]; [|exact Hr].
      rewrite run_modify, run_get in *. exact Hr.
    + rewrite run_ret, run_get in Hr.
      eapply stepping_calm; [exact Hs1| |exact Hr]. by (apply rel_send; [apply _|]).
  - cbv iota in Hr. rewrite run_ret, run_get in Hr.
    eapply stepping_calm; [exact Hs1| |exact Hr]. by (apply rel_send; [apply _|]).
Qed.

Lemma handle_request_vote_response_step now from resp n :
  node_ok n -> vote_ok n ->
  stepping (InMsg from (MsgRequestVoteResponse resp)) n
    (handle_request_vote_response now from resp) n.
Proof.
  intros Hok Hvo n' r Hr. unfold handle_request_vote_response in Hr. rewrite run_get in Hr.
  destruct (term n <? rvr_term resp) eqn:E1.
  { eapply stepping_attempt; [|exact Hr]. intros n1 r1 Hbf. by eapply become_follower_step. }
  destruct (_ || _ || _) eqn:E2; [injection Hr as <- _; by apply step_refl|].
  apply orb_false_elim in E2 as [E2 Hg]. apply orb_false_elim in E2 as [Hc Ht].
  apply negb_false_iff in Hg, Hc, Ht. apply bool_decide_eq_true_1 in Hc. boolify.
  rewrite run_modify, run_get in Hr.
  set (n1 := set_votes_received ({[from]} ∪ votes_received_ n) n) in Hr.
  assert (Hs1 : step_ok (InMsg from (MsgRequestVoteResponse resp)) n n1).
  { split.
    - destruct Hok as [O1 O2 O3 O4 O5]. split; assumption.
    - exact Hvo.
    - reflexivity.
    - apply reflexivity.
    - apply N.le_refl.
    - exists []. by rewrite app_nil_r.
    - intros Hne v Hv. change (v ∈ {[from]} ∪ votes_received_ n) in Hv.
      apply elem_of_union in Hv as [Hv|Hv].
      + apply elem_of_singleton in Hv as ->. right. right. by exists resp.
      + left. by split.
    - intros Hl. change (role_ n = Leader) in Hl. congruence. }
  destruct (negb _) eqn:Eq; [by injection Hr as <- _|]. apply negb_false_iff in Eq.
  eapply stepping_attempt; [|exact Hr]. apply become_leader_step; [done|]. by intros _.
Qed.

(** Following a leader is a step of its own. *)
Lemma follow_leader_step inp now t leader n n' r :
  node_ok n -> vote_ok n -> follow_leader now t leader n = (n', r) -> step_ok inp n n'.
Proof.
  intros Hok Hvo Hr. unfold follow_leader in Hr. rewrite run_get in Hr.
  destruct (_ || _); [by eapply become_follower_step|].
  rewrite run_modify in Hr. injection Hr as <- _. eapply step_then_calm; [by apply step_refl|].
  apply bookkeeping_keeps. by split.
Qed.

Lemma handle_append_entries_step now from req n :
  node_ok n -> vote_ok n ->
  stepping (InMsg from (MsgAppendEntries req)) n (handle_append_entries now from req) n.
Proof.
  intros Hok Hvo n' r Hr. unfold handle_append_entries in Hr. rewrite run_get in Hr.
  destruct (ae_term req <? term n) eqn:E1.
  { eapply stepping_calm; [by apply step_refl| |exact Hr]. by (apply rel_send; [apply _|]). }
  rewrite run_bind in Hr. destruct (follow_leader now _ _ n) as [n1 r1] eqn:E2.
  pose proof (follow_leader_step (InMsg from (MsgAppendEntries req)) _ _ _ _ _ _ Hok Hvo E2) as Hs1.
  destruct r1 as [[]|e]; [|by injection Hr as <- _].
  eapply stepping_calm; [exact Hs1| |exact Hr]. clear.
  apply rel_bind; [apply _|apply rel_prev_matches; apply _|]. intros n1' ok _ _.
  destruct (negb ok); [apply rel_get; by (apply rel_send; [apply _|])|].
  apply rel_bind; [apply _|apply rel_store_entries|]. intros n2 mi _ _.
  apply rel_bind; [apply _| |].
  - apply rel_modify. destruct (_ <? _); [apply keeps_set_commit|]. intros Hok. by split.
  - intros n3 [] _ _. apply rel_bind; [apply _|apply rel_outcome, rel_apply_committed; apply _|].
    intros n4 ar _ _. apply rel_get.
    apply rel_bind; [apply _|by (apply rel_send; [apply _|])|]. intros n5 [] _ _.
    destruct ar; [apply rel_ret; apply _|apply rel_throw; apply _].
Qed.

Ltac calm_call :=
  first [ quiet_step | apply rel_advance_commit | apply rel_maybe_compact_log ].

Lemma handle_append_entries_response_step now from resp n :
  node_ok n -> vote_ok n ->
  stepping (InMsg from (MsgAppendEntriesResponse resp)) n
    (handle_append_entries_response now from resp) n.
Proof.
  intros Hok Hvo n' r Hr. unfold handle_append_entries_response in Hr. rewrite run_get in Hr.
  destruct (term n <? aer_term resp) eqn:E1.
  { eapply stepping_attempt; [|exact Hr]. intros n1 r1 Hbf. by eapply become_follower_step. }
  eapply stepping_calm; [by apply step_refl| |exact Hr]. clear. repeat calm_call.
Qed.

Lemma handle_install_snapshot_response_step now from resp n :
  node_ok n -> vote_ok n ->
  stepping (InMsg from (MsgInstallSnapshotResponse resp)) n
    (handle_install_snapshot_response now from resp) n.
Proof.
  intros Hok Hvo n' r Hr. unfold handle_install_snapshot_response in Hr. rewrite run_get in Hr.
  destruct (term n <? isr_term resp) eqn:E1.
  { eapply stepping_attempt; [|exact Hr]. intros n1 r1 Hbf. by eapply become_follower_step. }
  eapply stepping_calm; [by apply step_refl| |exact Hr]. clear. repeat calm_call.
Qed.

Lemma rel_drop_snapshot from n : rel_at (keeps calm) (drop_snapshot from) n.
Proof. unfold drop_snapshot, refuse_snapshot. repeat calm_call. Qed.

Lemma rel_run_restore range snap n : rel_at (keeps calm) (run_restore range snap) n.
Proof.
  intros n' r. unfold run_restore. destruct (sm_restore _ _ _). intros [= <- _].
  apply bookkeeping_keeps. by split.
Qed.

Lemma rel_install_pending from p n :
  last_applied_ n <= ps_last_included_index p -> rel_at (keeps calm) (install_pending from p) n.
Proof.
  intros Hle. unfold install_pending. apply rel_get.
  apply rel_bind; [apply _|apply rel_outcome, rel_run_restore|]. intros n1 r1 Hrr Hk1.
  assert (Ha : last_applied_ n1 = last_applied_ n).
  { unfold outcome, run_restore in Hrr. destruct (sm_restore _ _ _). by injection Hrr as <- _. }
  destruct r1 as [[]|e].
  2:{ apply rel_bind; [apply _|apply rel_drop_snapshot|]. intros. apply rel_throw; apply _. }
  intros n' r'. rewrite run_outcome, run_store.
  set (m := mkSnapshotMetadata _ _).
  destruct (ls_install_snapshot m (log_store_ n1)) as [s' [[]|e]] eqn:Es; intros Hr Hok1.
  - destruct (install_ok m n1 s' (Ok ()) Hok1 ltac:(simpl; lia) Es) as [Hj _].
    rewrite !run_modify, run_get in Hr.
    set (n3 := evaluate_read_barriers _) in Hr.
    assert (Hk3 : keeps calm n1 n3).
    { etransitivity; [exact Hj|]. apply bookkeeping_keeps. unfold n3.
      etransitivity; [|apply bk_evaluate]. etransitivity; [|apply bk_complete_upto]. by split. }
    revert Hr Hk3. generalize n3. intros n4 Hr Hk4.
    destruct (Hk4 Hok1) as [Hok4 Hc4].
    destruct (rel_send (keeps calm) from (is_response n4 true) n4 eq_refl _ _ Hr Hok4) as [Hok5 Hc5].
    split; [done|]. by etransitivity.
  - destruct (install_ok m n1 s' (Err e) Hok1 ltac:(simpl; lia) Es Hok1) as [Hok2 Hc2].
    assert (Hd : rel_at (keeps calm) (_ ← drop_snapshot from; throw e : M L SM unit) (set_log_store s' n1)).
    { apply rel_bind; [apply _|apply rel_drop_snapshot|]. intros. apply rel_throw; apply _. }
    destruct (Hd _ _ Hr Hok2) as [Hok3 Hc3]. split; [done|]. by etransitivity.
Qed.

Lemma handle_install_snapshot_step now from req n :
  node_ok n -> vote_ok n ->
  stepping (InMsg from (MsgInstallSnapshot req)) n (handle_install_snapshot now from req) n.
Proof.
  intros Hok Hvo n' r Hr. unfold handle_install_snapshot in Hr. rewrite run_get in Hr.
  destruct (is_term req <? term n) eqn:E1.
  { eapply stepping_calm; [by apply step_refl| |exact Hr]. by (apply rel_send; [apply _|]). }
  rewrite run_bind in Hr. destruct (follow_leader now _ _ n) as [n1 r1] eqn:E2.
  pose proof (follow_leader_step (InMsg from (MsgInstallSnapshot req)) _ _ _ _ _ _ Hok Hvo E2) as Hs1.
  destruct r1 as [[]|e]; [|by injection Hr as <- _].
  eapply stepping_calm; [exact Hs1| |exact Hr]. generalize (term n <? is_term req). clear.
  intros changed. apply rel_get.
  destruct (_ || _); [unfold refuse_snapshot; repeat calm_call|].
  destruct (_ <? last_applied_ n1) eqn:Ea; [unfold refuse_snapshot; repeat calm_call|]. boolify.
  set (p := if _ || changed then _ else _). clearbody p.
  destruct (negb _ || _ || _) eqn:Ep; [apply rel_drop_snapshot|].
  apply orb_false_elim in Ep as [Ep _]. apply orb_false_elim in Ep as [Ep _]. boolify.
  apply rel_bind; [apply _|apply rel_modify_bk; [apply _|intros; by split]|].
  intros n2 [] Hn2 _. injection Hn2 as <-.
  destruct (_ <? _).
  { apply rel_bind; [apply _|apply rel_drop_snapshot|]. intros. apply rel_throw; apply _. }
  destruct (negb _); [apply rel_ret; apply _|]. apply rel_install_pending. simpl. lia.
Qed.

(** ** The interface of the node *)

Inductive call :=
| CMessage (from : NodeId) (m : Message)
| CTick
| CPropose (data : bytes)
| CReadBarrier.

Definition run_call (now : N) (c : call) n : node :=
  match c with
  | CMessage from m => (handle_message now from m n).1
  | CTick => (tick now n).1
  | CPropose data => (propose data n).1
  | CReadBarrier => (read_barrier n).1
  end.

Definition call_input (c : call) : input :=
  match c with CMessage from m => InMsg from m | _ => InLocal end.

Lemma stepping_run inp {A} n (m : M L SM A) : stepping inp n m n -> step_ok inp n (m n).1.
Proof. intros Hs. apply (Hs _ (m n).2). by destruct (m n). Qed.

Lemma tick_step now n : node_ok n -> vote_ok n -> stepping InLocal n (tick now) n.
Proof.
  intros Hok Hvo n' r Hr. unfold tick in Hr. rewrite run_get in Hr. revert n' r Hr.
  apply stepping_seq.
  - intros n1 r1 E. destruct (bool_decide _) eqn:El.
    + eapply stepping_calm; [by apply step_refl| |exact E]. repeat calm_call.
    + destruct (_ <=? now); [|injection E as <- _; by apply step_refl].
      eapply stepping_attempt; [|exact E]. by apply start_election_step.
  - intros n1 [] Hs1. apply stepping_calm; [done|]. repeat calm_call.
Qed.

Lemma propose_step data n : node_ok n -> vote_ok n -> stepping InLocal n (propose data) n.
Proof.
  intros Hok Hvo n' r Hr. unfold propose in Hr. rewrite run_get in Hr.
  destruct (negb _); [injection Hr as <- _; by apply step_refl|].
  rewrite run_bind, run_store in Hr.
  destruct (ls_append _ (log_store_ n)) as [s' [[]|e]] eqn:Ea.
  - destruct (append_ok _ _ _ _ Hok Ea) as (_ & Hk & _). simpl e_index in Hk. rewrite run_modify in Hr.
    assert (Hk3 : keeps calm n (own_progress (last_log_index_ n + 1) (set_log_store s' n))).
    { etransitivity; [exact Hk|]. apply bookkeeping_keeps. by split. }
    revert Hr Hk3. generalize (own_progress (last_log_index_ n + 1) (set_log_store s' n)).
    intros n3 Hr Hk3.
    eapply stepping_calm; [eapply step_then_calm; [by apply step_refl|exact Hk3]| |exact Hr].
    apply rel_bind; [apply _| |].
    { intros n4 r4 Hmk. injection Hmk as <- _. apply bookkeeping_keeps. by split. }
    repeat calm_call.
  - injection Hr as <- _. destruct (append_ok _ _ _ _ Hok Ea) as (Hk & _).
    eapply step_then_calm; [by apply step_refl|exact Hk].
Qed.

Lemma read_barrier_step n : node_ok n -> vote_ok n -> stepping InLocal n read_barrier n.
Proof.
  intros Hok Hvo. apply stepping_calm; [by apply step_refl|]. unfold read_barrier.
  apply rel_bind; [apply _|apply rel_modify_bk; [apply _|intros; by split]|]. intros n1 [] _ _.
  apply rel_get. destruct (negb _); [apply rel_throw; apply _|].
  apply rel_bind; [apply _|apply rel_send_heartbeats; apply _|]. intros n2 [] _ _. apply rel_get.
  apply rel_bind; [apply _| |].
  { intros n4 r4 Hmk. injection Hmk as <- _. apply bookkeeping_keeps. by split. }
  repeat calm_call.
Qed.

Lemma call_step now c n : node_ok n -> vote_ok n -> step_ok (call_input c) n (run_call now c n).
Proof.
  intros Hok Hvo. destruct c as [from m| |data|]; simpl.
  - apply stepping_run. destruct m; simpl.
    + by apply stepping_attempt, handle_request_vote_step.
    + by apply handle_request_vote_response_step.
    + by apply stepping_attempt, handle_append_entries_step.
    + by apply handle_append_entries_response_step.
    + by apply stepping_attempt, handle_install_snapshot_step.
    + by apply handle_install_snapshot_response_step.
  - by apply stepping_run, tick_step.
  - by apply stepping_run, propose_step.
  - by apply stepping_run, read_barrier_step.
Qed.
End Election.
