(* ===== verification/ElectionSafety.v ===== *)
(** * Election safety of a group

    A group of nodes over an asynchronous network: messages may be lost,
    duplicated and reordered (a node may receive any message that was ever
    sent to it, any number of times), nodes tick, propose and serve reads at any
    time, and crash and restart from their durable log at any time. Two ghost
    records follow the run: every vote that was ever cast and every leadership
    that was ever held. *)

From S2P Require Import Prelude Bytes KvTypes MockStore Wire RaftTypes KvStateMachine LogStore RaftState RaftNode RaftInvariants RaftElection.
Local Open Scope N_scope.

Section Cluster.
Context {L SM : Type} `{LogStoreLaws L, StateMachine SM}.
Abbreviation node := (RaftNode L SM).
Implicit Types n : node.

(** ** Starting a node *)

Lemma start_node_spec now n n' :
  ls_wf (log_store_ n) -> start_node now n = (n', Ok ()) ->
  node_ok n' /\ config_ n' = config_ n /\ role_ n' = Follower /\ outbox n' = outbox n /\
  hard_state_ n' = lv_hard (node_view n) /\ check_config (config_ n) = Ok ().
Proof.
  intros Hwf. unfold start_node. rewrite run_bind. unfold lift at 1.
  destruct (check_config (config_ n)) as [[]|e] eqn:Ec; [|done].
  rewrite run_bind. unfold lift at 1.
  destruct (ls_load_hard_state (log_store_ n)) as [hs|e] eqn:El; [|done].
  rewrite run_modify, run_bind. unfold lift at 1. simpl log_store_.
  destruct (ls_last_index (log_store_ n)) as [last|e] eqn:Ei; [|done].
  rewrite run_modify, run_bind. unfold lift at 1. simpl log_store_.
  destruct (ls_snapshot_metadata (log_store_ n)) as [meta|e] eqn:Em; [|done].
  rewrite !run_modify. intros [= <-].
  apply (ls_load_spec _ _ Hwf) in El. apply (ls_last_spec _ _ Hwf) in Ei.
  apply (ls_snap_spec _ _ Hwf) in Em. subst.
  split_and!; [|reflexivity..].
  split; unfold node_view; simpl; try done. by destruct (lv_snap _).
Qed.

(** ** The group *)

Context (P : list NodeId).

Record Cluster := mkCluster {
  nodes : gmap NodeId node;
  soup : list (NodeId * NodeId * Message);   (** from, to, message *)
  votes : list (N * NodeId * NodeId);        (** term, voter, candidate *)
  leaders : list (N * NodeId) }.             (** term, leader *)

Definition cast_vote (i : NodeId) n : list (N * NodeId * NodeId) :=
  match hs_voted_for (hard_state_ n) with Some x => [(term n, i, x)] | None => [] end.

Definition leadership (i : NodeId) n : list (N * NodeId) :=
  if bool_decide (role_ n = Leader) then [(term n, i)] else [].

(** The group after node [i] became [n], having sent [sent]. *)
Definition record (i : NodeId) n (sent : list (NodeId * Message)) (c : Cluster) : Cluster :=
  mkCluster (<[i := n]> (nodes c)) (map (fun p => (i, p.1, p.2)) sent ++ soup c)
    (cast_vote i n ++ votes c) (leadership i n ++ leaders c).

Inductive cstep : Cluster -> Cluster -> Prop :=
| cs_call c i n now cl :
    nodes c !! i = Some n ->
    (forall from m, cl = CMessage from m -> (from, i, m) ∈ soup c) ->
    let n' := run_call now cl (set_outbox [] n) in
    cstep c (record i n' (outbox n') c)
| cs_restart c i n now n' :
    nodes c !! i = Some n ->
    start_node now (new_node (config_ n) (log_store_ n) (state_machine_ n)) = (n', Ok ()) ->
    cstep c (record i n' [] c).

(** Initially every member has started over its own log, and nothing was sent. *)
Record initial (c : Cluster) : Prop := {
  in_nodes : forall i n, nodes c !! i = Some n ->
    i ∈ P /\ exists now config log sm,
      node_id config = i /\ peers config = P /\ ls_wf log /\
      lv_hard (ls_view log) = mkHardState 0 None /\
      start_node now (new_node config log sm) = (n, Ok ());
  in_soup : soup c = [];
  in_votes : votes c = [];
  in_leaders : leaders c = [] }.

Inductive creach : Cluster -> Prop :=
| cr_init c : initial c -> creach c
| cr_step c c' : creach c -> cstep c c' -> creach c'.

(** ** The invariant *)

Record member (c : Cluster) (i : NodeId) n : Prop := {
  mb_in : i ∈ P;
  mb_id : node_id (config_ n) = i;
  mb_peers : peers (config_ n) = P;
  mb_ok : node_ok n;
  mb_vote : vote_ok n;
  mb_cast : forall x, hs_voted_for (hard_state_ n) = Some x -> (term n, i, x) ∈ votes c;
  mb_received : role_ n <> Follower -> forall v, v ∈ votes_received_ n ->
    v ∈ P /\ (term n, v, i) ∈ votes c;
  mb_leader : role_ n = Leader -> has_quorum (config_ n) (size (votes_received_ n)) = true }.

Definition quorum (Q : gset NodeId) : Prop :=
  Q ⊆ list_to_set P /\ (length P / 2 + 1 <= size Q)%nat.

Record cinv (c : Cluster) : Prop := {
  ci_nodes : forall i n, nodes c !! i = Some n -> member c i n;
  ci_votes : forall t v x, (t, v, x) ∈ votes c -> exists n, nodes c !! v = Some n /\
    (t < term n \/ (t = term n /\ hs_voted_for (hard_state_ n) = Some x));
  ci_once : forall t v x y, (t, v, x) ∈ votes c -> (t, v, y) ∈ votes c -> x = y;
  ci_soup : forall from to m, (from, to, m) ∈ soup c -> from ∈ P /\
    match m with
    | MsgRequestVote r => rv_candidate_id r = from
    | MsgRequestVoteResponse r => vote_granted r = true -> (rvr_term r, from, to) ∈ votes c
    | _ => True
    end;
  ci_leaders : forall t i, (t, i) ∈ leaders c ->
    exists Q, quorum Q /\ forall v, v ∈ Q -> (t, v, i) ∈ votes c }.

Lemma quorum_intersect Q1 Q2 : quorum Q1 -> quorum Q2 -> exists v, v ∈ Q1 /\ v ∈ Q2.
Proof.
  intros [Hs1 Hq1] [Hs2 Hq2]. destruct (decide (Q1 ## Q2)) as [Hd|Hd].
  - exfalso. pose proof (size_union _ _ Hd) as Hu.
    assert (Hle : (size (Q1 ∪ Q2) <= size (list_to_set P : gset NodeId))%nat)
      by (apply subseteq_size; set_solver).
    assert (Hp : (size (list_to_set P : gset NodeId) <= length P)%nat).
    { clear. induction P as [|x l IH]; [by rewrite list_to_set_nil, size_empty|].
      rewrite list_to_set_cons, size_union_alt. cbn [length]. pose proof (subseteq_size (list_to_set l ∖ {[x]} : gset NodeId)
        (list_to_set l) ltac:(set_solver)). rewrite size_singleton. lia. }
    pose proof (Nat.div_mod_eq (length P) 2). pose proof (Nat.mod_upper_bound (length P) 2). lia.
  - destruct (decide (Q1 ∩ Q2 = ∅)) as [He|He]; [set_solver|].
    apply set_choose_L in He as [v Hv]. exists v. set_solver.
Qed.

(** *** One node moves *)

(** The facts about the moving node that the invariant needs afterwards. *)
Record moved (c : Cluster) (i : NodeId) n n' (sent : list (NodeId * Message)) : Prop := {
  mv_config : node_id (config_ n') = i /\ peers (config_ n') = P;
  mv_ok : node_ok n';
  mv_vote : vote_ok n';
  mv_hard : vote_le (hard_state_ n) (hard_state_ n');
  mv_received : role_ n' <> Follower -> forall v, v ∈ votes_received_ n' ->
    v ∈ P /\ (term n', v, i) ∈ cast_vote i n' ++ votes c;
  mv_leader : role_ n' = Leader -> has_quorum (config_ n') (size (votes_received_ n')) = true;
  mv_sent : forall to m, (to, m) ∈ sent ->
    match m with
    | MsgRequestVote r => rv_candidate_id r = i
    | MsgRequestVoteResponse r => vote_granted r = true ->
        (rvr_term r, i, to) ∈ cast_vote i n' ++ votes c
    | _ => True
    end }.

Lemma cast_vote_elem i n t v x :
  (t, v, x) ∈ cast_vote i n <-> t = term n /\ v = i /\ hs_voted_for (hard_state_ n) = Some x.
Proof.
  unfold cast_vote. destruct (hs_voted_for (hard_state_ n)) as [y|].
  - rewrite list_elem_of_singleton. naive_solver.
  - rewrite elem_of_nil. naive_solver.
Qed.

Section Moved.
Context (c : Cluster) (i : NodeId) (n n' : node) (sent : list (NodeId * Message)).
Context (Hc : cinv c) (Hi : nodes c !! i = Some n) (Hm : moved c i n n' sent).

(** The votes of the moving node are still accounted for. *)
Lemma moved_votes t x :
  (t, i, x) ∈ votes c -> t < term n' \/ (t = term n' /\ hs_voted_for (hard_state_ n') = Some x).
Proof using All.
  intros Hv. destruct (ci_votes _ Hc _ _ _ Hv) as (n0 & Hn0 & Ht).
  assert (n0 = n) as -> by congruence. pose proof (mv_hard _ _ _ _ _ Hm) as Hle.
  unfold vote_le, term in *. destruct Hle as [Hlt|[Heq [Hn|Hs]]].
  - left. destruct Ht as [?|[? _]]; lia.
  - destruct Ht as [?|[_ Hx]]; [left; lia|congruence].
  - destruct Ht as [?|[? Hx]]; [left; lia|right; split; [lia|congruence]].
Qed.

Lemma moved_once t v x y :
  (t, v, x) ∈ cast_vote i n' ++ votes c -> (t, v, y) ∈ cast_vote i n' ++ votes c -> x = y.
Proof using All.
  rewrite !elem_of_app, !cast_vote_elem. intros Hx Hy.
  destruct Hx as [(-> & -> & Hx)|Hx], Hy as [(Et & Ev & Hy)|Hy]; try congruence.
  - destruct (moved_votes _ _ Hy) as [?|[_ ?]]; [lia|congruence].
  - subst. destruct (moved_votes _ _ Hx) as [?|[_ ?]]; [lia|congruence].
  - by eapply (ci_once _ Hc).
Qed.

Lemma moved_quorum : role_ n' = Leader ->
  exists Q, quorum Q /\ forall v, v ∈ Q -> (term n', v, i) ∈ cast_vote i n' ++ votes c.
Proof using All.
  intros Hl. exists (votes_received_ n').
  pose proof (mv_received _ _ _ _ _ Hm ltac:(by rewrite Hl)) as Hr.
  split; [|intros v Hv; by apply Hr]. split.
  - intros v Hv. apply elem_of_list_to_set. by apply Hr.
  - pose proof (mv_leader _ _ _ _ _ Hm Hl) as Hq. unfold has_quorum in Hq. boolify.
    by rewrite (proj2 (mv_config _ _ _ _ _ Hm)) in Hq.
Qed.

Lemma moved_inv : cinv (record i n' sent c).
Proof using All.
  pose proof (ci_nodes _ Hc _ _ Hi) as Hmb. split; simpl.
  - intros j m. destruct (decide (j = i)) as [->|Hne].
    + rewrite lookup_insert_eq. intros [= <-]. destruct Hm as [[M1 M2] M3 M4 M5 M6 M7 M8].
      split; simpl; try done; [apply (mb_in _ _ _ Hmb)|].
      intros x Hx. apply elem_of_app. left. by apply cast_vote_elem.
    + rewrite lookup_insert_ne by done. intros Hj.
      destruct (ci_nodes _ Hc _ _ Hj) as [B1 B2 B3 B4 B5 B6 B7 B8]. split; simpl; try done.
      * intros x Hx. apply elem_of_app. right. auto.
      * intros Hr v Hv. destruct (B7 Hr v Hv). split; [done|]. apply elem_of_app. by right.
  - intros t v x [(-> & -> & Hx)%cast_vote_elem|Hv]%elem_of_app.
    + exists n'. rewrite lookup_insert_eq. auto.
    + destruct (decide (v = i)) as [->|Hne].
      * exists n'. rewrite lookup_insert_eq. split; [done|]. by apply moved_votes.
      * rewrite lookup_insert_ne by done. by apply (ci_votes _ Hc).
  - apply moved_once.
  - intros from to m [Hin|Hin]%elem_of_app.
    + apply list_elem_of_fmap in Hin as ([to' m'] & [= -> -> ->] & Hin).
      split; [apply (mb_in _ _ _ Hmb)|]. by apply (mv_sent _ _ _ _ _ Hm).
    + destruct (ci_soup _ Hc _ _ _ Hin) as [? Hmm]. split; [done|].
      destruct m; try done. intros Hg. apply elem_of_app. right. by apply Hmm.
  - intros t j [Hin|Hin]%elem_of_app.
    + unfold leadership in Hin. case_bool_decide as Hl; [|by apply elem_of_nil in Hin].
      apply list_elem_of_singleton in Hin as [= -> ->]. by apply moved_quorum.
    + destruct (ci_leaders _ Hc _ _ Hin) as (Q & HQ & Hv). exists Q. split; [done|].
      intros v Hin'. apply elem_of_app. right. by apply Hv.
Qed.
End Moved.

(** *** Every step is such a move *)

Lemma member_fresh_outbox c i n : member c i n -> node_ok (set_outbox [] n) /\ vote_ok (set_outbox [] n).
Proof. intros [B1 B2 B3 [O1 O2 O3 O4 O5] B5 B6 B7 B8]. split; [split; assumption|exact B5]. Qed.

Lemma call_moved c i n now cl :
  cinv c -> nodes c !! i = Some n ->
  (forall from m, cl = CMessage from m -> (from, i, m) ∈ soup c) ->
  let n' := run_call now cl (set_outbox [] n) in moved c i n n' (outbox n').
Proof.
  intros Hc Hi Hsoup. pose proof (ci_nodes _ Hc _ _ Hi) as Hmb.
  destruct (member_fresh_outbox _ _ _ Hmb) as [Hok Hvo].
  pose proof (call_step now cl _ Hok Hvo) as Hs. cbv zeta.
  revert Hs. generalize (run_call now cl (set_outbox [] n)). intros n' [S1 S0 S2 S3 S4 S6 S7 S8].
  change (config_ (set_outbox [] n)) with (config_ n) in *.
  change (hard_state_ (set_outbox [] n)) with (hard_state_ n) in *.
  change (self (set_outbox [] n)) with (self n) in *.
  change (role_ (set_outbox [] n)) with (role_ n) in *.
  change (votes_received_ (set_outbox [] n)) with (votes_received_ n) in *.
  destruct Hmb as [B1 B2 B3 B4 B5 B6 B7 B8]. unfold self in *. rewrite B2 in *.
  assert (Hinput : forall from m, call_input cl = InMsg from m -> (from, i, m) ∈ soup c).
  { intros from m Hin. destruct cl; [|done..]. injection Hin as <- <-. by apply Hsoup. }
  split; try done; try congruence.
  - rewrite S2. done.
  - intros Hr v Hv. destruct (S7 Hr v Hv) as [(Hh & Hr' & Hv')|[(-> & Hvf)|(r & Hin & Hg & Ht)]].
    + destruct (B7 Hr' v Hv') as [? Hin]. split; [done|]. apply elem_of_app. right.
      unfold term. by rewrite Hh.
    + split; [done|]. apply elem_of_app. left. by apply cast_vote_elem.
    + destruct (ci_soup _ Hc _ _ _ (Hinput _ _ Hin)) as [? Hvt]. split; [done|].
      apply elem_of_app. right. rewrite <- Ht. by apply Hvt.
  - intros Hl. rewrite S2. destruct (S8 Hl) as [(Hl' & _ & ->)|Hq]; [|done]. by apply B8.
  - destruct S6 as (new & Hn & Hf). simpl in Hn. rewrite Hn. intros to m Hin.
    rewrite Forall_forall in Hf. specialize (Hf _ Hin). unfold vote_msg_ok in Hf. simpl in Hf.
    destruct m; try done. intros Hg. destruct (Hf Hg) as (req & Hin' & Hh).
    destruct (ci_soup _ Hc _ _ _ (Hinput _ _ Hin')) as [_ Hcand]. simpl in Hcand.
    apply elem_of_app. left. apply cast_vote_elem. unfold term. rewrite Hh. simpl.
    split_and!; congruence.
Qed.

Lemma restart_moved c i n now n' :
  cinv c -> nodes c !! i = Some n ->
  start_node now (new_node (config_ n) (log_store_ n) (state_machine_ n)) = (n', Ok ()) ->
  moved c i n n' [].
Proof.
  intros Hc Hi Hs. destruct (ci_nodes _ Hc _ _ Hi) as [B1 B2 B3 B4 B5 B6 B7 B8].
  apply start_node_spec in Hs as (Hok & Hcfg & Hr & Hout & Hh & _); [|apply B4].
  split.
  - by rewrite Hcfg.
  - done.
  - intros Hne. by rewrite Hr in Hne.
  - rewrite Hh. change (node_view (new_node (config_ n) (log_store_ n) (state_machine_ n)))
      with (node_view n). rewrite (ok_hard _ B4). reflexivity.
  - intros Hne. by rewrite Hr in Hne.
  - intros Hl. by rewrite Hr in Hl.
  - intros to m Hin. by apply elem_of_nil in Hin.
Qed.

Lemma cstep_inv c c' : cinv c -> cstep c c' -> cinv c'.
Proof.
  intros Hc Hstep. destruct Hstep as [c i n now cl Hi Hsoup|c i n now n' Hi Hs].
  - eapply moved_inv; [done|done|]. by apply call_moved.
  - eapply moved_inv; [done|done|]. by eapply restart_moved.
Qed.

Lemma initial_inv c : initial c -> cinv c.
Proof.
  intros [Hn Hs Hv Hl]. split.
  - intros i n Hi. destruct (Hn i n Hi) as (Hin & now & config & log & sm & Hid & Hp & Hwf & Hh & Hst).
    apply start_node_spec in Hst as (Hok & Hcfg & Hr & _ & Hh' & _); [|done].
    unfold node_view in Hh'. simpl in Hh'. rewrite Hh in Hh'.
    split.
    + done.
    + by rewrite Hcfg.
    + by rewrite Hcfg.
    + done.
    + intros Hne. by rewrite Hr in Hne.
    + rewrite Hh'. done.
    + intros Hne. by rewrite Hr in Hne.
    + intros Hl'. by rewrite Hr in Hl'.
  - intros t v x Hin. rewrite Hv in Hin. by apply elem_of_nil in Hin.
  - intros t v x y Hin. rewrite Hv in Hin. by apply elem_of_nil in Hin.
  - intros from to m Hin. rewrite Hs in Hin. by apply elem_of_nil in Hin.
  - intros t i Hin. rewrite Hl in Hin. by apply elem_of_nil in Hin.
Qed.

Lemma creach_inv c : creach c -> cinv c.
Proof. induction 1; [by apply initial_inv|by eapply cstep_inv]. Qed.

Lemma one_leader c t i j : cinv c -> (t, i) ∈ leaders c -> (t, j) ∈ leaders c -> i = j.
Proof.
  intros Hc Hi Hj. destruct (ci_leaders _ Hc _ _ Hi) as (Q1 & HQ1 & Hv1).
  destruct (ci_leaders _ Hc _ _ Hj) as (Q2 & HQ2 & Hv2).
  destruct (quorum_intersect _ _ HQ1 HQ2) as (v & H1v & H2v).
  by eapply (ci_once _ Hc); [apply Hv1|apply Hv2].
Qed.

(** C1: election safety. In every run of a group, through message loss,
    duplication and reordering, failed writes to the log store, crashes and
    restarts, no two nodes are ever leader in the same term: neither at the
    same time nor one after the other. *)
Theorem election_safety c t i j :
  creach c -> (t, i) ∈ leaders c -> (t, j) ∈ leaders c -> i = j.
Proof. intros Hr. apply one_leader. by apply creach_inv. Qed.

(** One vote per term. The votes a node ever casts in a term (its own
    candidacy included) all name the same candidate, across restarts; and what
    it holds in memory is what its log store would load after a crash. *)
Theorem vote_once_per_term c t v x y :
  creach c -> (t, v, x) ∈ votes c -> (t, v, y) ∈ votes c ->
  x = y /\ forall n, nodes c !! v = Some n -> lv_hard (node_view n) = hard_state_ n.
Proof.
  intros Hr Hx Hy. pose proof (creach_inv _ Hr) as Hc. split; [by eapply (ci_once _ Hc)|].
  intros n Hn. apply ok_hard, (mb_ok _ _ _ (ci_nodes _ Hc _ _ Hn)).
Qed.
End Cluster.

(** ** A run of three nodes

    Node 1 campaigns, node 2 votes for it, and node 1 takes the lead. *)

Abbreviation demo_node := (RaftNode MemoryLogStore (KVStateMachine MockStore MemoryRequestResultStore)).
Abbreviation demo_cluster := (@Cluster MemoryLogStore (KVStateMachine MockStore MemoryRequestResultStore)).

Definition demo_config (i : NodeId) : NodeConfig := mkNodeConfig i [1; 2; 3] 1000 100 range_all 0 0.
Definition demo_start (i : NodeId) : demo_node :=
  (start_node 0 (new_node (demo_config i) new_log_store (machine []))).1.

Definition demo_cluster0 : demo_cluster :=
  mkCluster (<[1 := demo_start 1]> (<[2 := demo_start 2]> ∅)) [] [] [].

(** The group after a call at node [i]. *)
Definition after_call (i : NodeId) (now : N) (cl : call) (c : demo_cluster) : demo_cluster :=
  match nodes c !! i with
  | Some n => let n' := run_call now cl (set_outbox [] n) in record i n' (outbox n') c
  | None => c
  end.

Definition vote_request : Message := MsgRequestVote (mkRequestVoteRequest 1 1 0 0).
Definition vote_answer : Message := MsgRequestVoteResponse (mkRequestVoteResponse 1 true).

Definition demo_cluster3 : demo_cluster :=
  after_call 1 2001 (CMessage 2 vote_answer)
    (after_call 2 2000 (CMessage 1 vote_request)
      (after_call 1 2000 CTick demo_cluster0)).

Lemma after_call_reach P i now cl c :
  creach P c -> (forall from m, cl = CMessage from m -> (from, i, m) ∈ soup c) ->
  creach P (after_call i now cl c).
Proof.
  intros Hr Hs. unfold after_call. destruct (nodes c !! i) as [n|] eqn:E; [|done].
  eapply cr_step; [done|]. by apply cs_call.
Qed.

Lemma demo_started i : i ∈ [1; 2; 3] ->
  start_node 0 (new_node (demo_config i) new_log_store (machine [])) = (demo_start i, Ok ()).
Proof.
  intros Hin. unfold demo_start. rewrite (surjective_pairing (start_node 0 _)) at 1. f_equal.
  apply elem_of_cons in Hin as [->|Hin]; [vm_compute; reflexivity|].
  apply elem_of_cons in Hin as [->|Hin]; [vm_compute; reflexivity|].
  apply list_elem_of_singleton in Hin as ->. vm_compute; reflexivity.
Qed.

Lemma two_nodes {A} (f : NodeId -> A) i n :
  (<[1 := f 1]> (<[2 := f 2]> ∅) : gmap NodeId A) !! i = Some n -> i ∈ [1; 2; 3] /\ n = f i.
Proof.
  intros [[<- <-]|[_ Hi]]%lookup_insert_Some; [split; [left|done]|].
  apply lookup_insert_Some in Hi as [[<- <-]|[_ Hi]]; [split; [right; left|done]|done].
Qed.

Lemma demo_nodes i n : nodes demo_cluster0 !! i = Some n -> i ∈ [1; 2; 3] /\ n = demo_start i.
Proof. apply (two_nodes demo_start). Qed.

Lemma demo_initial : initial [1; 2; 3] demo_cluster0.
Proof.
  split; [|reflexivity..]. intros i n Hi. apply demo_nodes in Hi as [Hin ->]. split; [exact Hin|].
  exists 0, (demo_config i), new_log_store, (machine []). split; [reflexivity|].
  split; [reflexivity|]. split; [apply ml_reach_wf, mr_new|]. split; [reflexivity|].
  exact (demo_started i Hin).
Qed.

Lemma demo_reach : creach [1; 2; 3] demo_cluster3.
Proof.
  apply after_call_reach; [apply after_call_reach; [apply after_call_reach|]|].
  - apply cr_init, demo_initial.
  - intros from m Hm. discriminate Hm.
  - intros from m Hm. injection Hm as <- <-.
    assert (Hs : soup (after_call 1 2000 CTick demo_cluster0) =
      [(1, 2, vote_request); (1, 3, vote_request)]) by (vm_compute; reflexivity).
    rewrite Hs. left.
  - intros from m Hm. injection Hm as <- <-.
    assert (Hs : soup (after_call 2 2000 (CMessage 1 vote_request)
        (after_call 1 2000 CTick demo_cluster0)) =
      [(2, 1, vote_answer); (1, 2, vote_request); (1, 3, vote_request)])
      by (vm_compute; reflexivity).
    rewrite Hs. left.
Qed.

Lemma demo_leaders : leaders demo_cluster3 = [(1, 1)].
Proof. vm_compute. reflexivity. Qed.

Lemma demo_votes : votes demo_cluster3 = [(1, 1, 1); (1, 2, 1); (1, 1, 1)].
Proof. vm_compute. reflexivity. Qed.

Lemma election_safety_witness :
  (1, 1) ∈ leaders demo_cluster3 /\ forall j, (1, j) ∈ leaders demo_cluster3 -> 1 = j.
Proof.
  assert (Hl : (1, 1) ∈ leaders demo_cluster3) by (rewrite demo_leaders; left).
  split; [exact Hl|]. intros j Hj.
  exact (election_safety [1; 2; 3] demo_cluster3 1 1 j demo_reach Hl Hj).
Defined.

Lemma vote_once_per_term_witness :
  (1, 2, 1) ∈ votes demo_cluster3 /\ forall y, (1, 2, y) ∈ votes demo_cluster3 -> 1 = y.
Proof.
  assert (Hv : (1, 2, 1) ∈ votes demo_cluster3) by (rewrite demo_votes; right; left).
  split; [exact Hv|]. intros y Hy.
  exact (proj1 (vote_once_per_term [1; 2; 3] demo_cluster3 1 2 1 y demo_reach Hv Hy)).
Defined.
