(* ===== verification/RaftCommit.v ===== *)
(** * Replication and commit rules of a node

    What an accepted AppendEntries request leaves in the follower's log, how
    many members hold an index the leader commits, and what happens to entries
    inherited from an earlier term. *)

From Stdlib Require Import Sorted.
From S2P Require Import Prelude Bytes KvTypes MockStore Wire RaftTypes KvStateMachine LogStore RaftState RaftNode RaftInvariants RaftElection ElectionSafety.
Local Open Scope N_scope.

(** ** The commit quorum *)

Definition desc (l : list N) : Prop := StronglySorted (fun a b => b <= a) l.

Lemma insert_desc_perm x l : insert_desc x l ≡ₚ x :: l.
Proof.
  induction l as [|y l IH]; simpl; [done|]. destruct (y <=? x); [done|].
  rewrite IH. by apply Permutation_swap.
Qed.

Lemma insert_desc_sorted x l : desc l -> desc (insert_desc x l).
Proof.
  induction 1 as [|y l Hs IH Hf]; simpl; [by repeat constructor|].
  destruct (y <=? x) eqn:E; boolify.
  - constructor; [by constructor|]. constructor; [done|].
    eapply Forall_impl; [done|]. simpl. lia.
  - constructor; [done|]. rewrite insert_desc_perm. constructor; [lia|done].
Qed.

Lemma sort_desc_perm l : sort_desc l ≡ₚ l.
Proof. induction l as [|x l IH]; simpl; [done|]. by rewrite insert_desc_perm, IH. Qed.

Lemma sort_desc_sorted l : desc (sort_desc l).
Proof. induction l; simpl; [constructor|by apply insert_desc_sorted]. Qed.

Definition count_ge (q : N) (l : list N) : nat := length (filter (fun x => q <= x) l).

(** The element at position [k] of a descending list: at least [k+1] elements
    reach it, at most [k] exceed it. *)
Lemma desc_rank l k x :
  desc l -> l !! k = Some x ->
  (k < count_ge x l)%nat /\ forall q, x < q -> (count_ge q l <= k)%nat.
Proof.
  unfold count_ge. intros Hs. revert k; induction Hs as [|y l Hs IH Hf]; intros k Hk; [done|].
  destruct k as [|k]; simpl in Hk.
  - injection Hk as ->. rewrite filter_cons_True by lia. split; [simpl; lia|]. intros q Hq.
    rewrite filter_cons_False by lia.
    replace (filter (fun z => q <= z) l) with (@nil N); [simpl; lia|]. symmetry.
    clear -Hf Hq. induction Hf as [|z l Hz Hf IH]; [done|]. by rewrite filter_cons_False by lia.
  - destruct (IH k Hk) as [Hge Hlt].
    assert (x <= y). { apply list_elem_of_lookup_2 in Hk. rewrite Forall_forall in Hf. by apply Hf. }
    rewrite filter_cons_True by lia. split; [simpl; lia|]. intros q Hq.
    rewrite filter_cons. destruct (decide (q <= y)); simpl; specialize (Hlt q Hq); lia.
Qed.

Section Quorum.
Context (config : NodeConfig) (match_index : gmap NodeId N).

(** The members known to store the log up to [q]. *)
Definition holders (q : N) : list NodeId := filter (fun p => q <= idx match_index p) (peers config).

Lemma holders_count q : length (holders q) = count_ge q (map (idx match_index) (peers config)).
Proof.
  unfold holders, count_ge. induction (peers config) as [|p l IH]; [done|].
  rewrite filter_cons. cbn [map]. rewrite filter_cons.
  destruct (decide (q <= idx match_index p)); simpl; by rewrite IH.
Qed.

(** The commit quorum. The index a leader may commit is the largest one
    that at least half of the members (rounded up) are known to store; and
    however the election quorums fall, each of them contains a member that
    stores it. *)
Lemma quorum_match_index_spec :
  peers config <> [] ->
  let q := quorum_match_index config match_index in
  ((length (peers config) + 1) / 2 <= length (holders q))%nat /\
  (forall q', q < q' -> (length (holders q') < (length (peers config) + 1) / 2)%nat) /\
  (NoDup (peers config) -> forall Q : gset NodeId, Q ⊆ list_to_set (peers config) ->
     has_quorum config (size Q) = true -> exists p, p ∈ Q /\ p ∈ holders q).
Proof.
  intros Hne q.
  set (l := map (idx match_index) (peers config)).
  assert (Hlen : length (sort_desc l) = length (peers config)).
  { rewrite (Permutation_length (sort_desc_perm l)). apply length_map. }
  assert (Hq : sort_desc l !! ((length (peers config) - 1) / 2)%nat = Some q).
  { unfold q, quorum_match_index. fold l. rewrite <- Hlen.
    destruct (sort_desc l) as [|y s] eqn:E; [by destruct (peers config)|].
    destruct (lookup_lt_is_Some_2 (y :: s) ((length (y :: s) - 1) / 2)) as [z Hz].
    - cbn [length]. apply Nat.Div0.div_lt_upper_bound. lia.
    - by rewrite Hz. }
  destruct (desc_rank _ _ _ (sort_desc_sorted l) Hq) as [Hge Hlt].
  assert (Hcount : forall x, count_ge x (sort_desc l) = length (holders x)).
  { intros x. rewrite holders_count. fold l. unfold count_ge. by rewrite sort_desc_perm. }
  rewrite Hcount in Hge.
  assert (Hn : (0 < length (peers config))%nat) by (destruct (peers config); [done|simpl; lia]).
  assert (Hhalf : ((length (peers config) - 1) / 2 + 1 = (length (peers config) + 1) / 2)%nat).
  { rewrite <- (Nat.div_add (length (peers config) - 1) 1 2) by lia. f_equal. lia. }
  split; [lia|]. split.
  - intros q' Hq'. specialize (Hlt q' Hq'). rewrite Hcount in Hlt. lia.
  - intros Hnd Q HQ Hquo. unfold has_quorum in Hquo. boolify.
    destruct (decide (exists p, p ∈ Q /\ p ∈ holders q)) as [|Hno]; [done|]. exfalso.
    assert (Hdis : Q ## list_to_set (holders q)).
    { intros p Hp Hp'. apply Hno. exists p. by rewrite elem_of_list_to_set in Hp'. }
    pose proof (size_union _ _ Hdis) as Hu.
    assert (Hsz : size (list_to_set (holders q) : gset NodeId) = length (holders q)).
    { apply size_list_to_set. by apply NoDup_filter. }
    assert (Hsub : Q ∪ list_to_set (holders q) ⊆ (list_to_set (peers config) : gset NodeId)).
    { apply union_subseteq. split; [done|]. intros p. rewrite !elem_of_list_to_set.
      by intros [_ ?]%list_elem_of_filter. }
    apply subseteq_size in Hsub. rewrite size_list_to_set in Hsub by done.
    pose proof (Nat.div_mod_eq (length (peers config)) 2).
    pose proof (Nat.div_mod_eq (length (peers config) + 1) 2).
    pose proof (Nat.mod_upper_bound (length (peers config)) 2).
    pose proof (Nat.mod_upper_bound (length (peers config) + 1) 2). lia.
Qed.
End Quorum.

Definition group_of (l : list NodeId) : NodeConfig := mkNodeConfig 1 l 1000 100 range_all 0 0.

Lemma quorum_match_index_spec_witness :
  exists p, p ∈ ({[2; 3; 4]} : gset NodeId) /\
    p ∈ holders (group_of [1; 2; 3; 4; 5]) (<[1 := 9]> (<[3 := 7]> (<[5 := 6]> ∅)))
          (quorum_match_index (group_of [1; 2; 3; 4; 5]) (<[1 := 9]> (<[3 := 7]> (<[5 := 6]> ∅)))).
Proof.
  apply (quorum_match_index_spec (group_of [1; 2; 3; 4; 5]) (<[1 := 9]> (<[3 := 7]> (<[5 := 6]> ∅)))).
  - discriminate.
  - apply (bool_decide_unpack _). vm_compute. exact I.
  - apply (bool_decide_unpack _). vm_compute. exact I.
  - vm_compute. reflexivity.
Defined.

(** In a group of even size half of the members are enough to commit: an
    index stored by the leader alone in a group of two, or by two members of
    four, is committed although no majority stores it. *)
Theorem even_group_commits_on_half :
  quorum_match_index (group_of [1; 2]) (<[1 := 5]> ∅) = 5 /\
  holders (group_of [1; 2]) (<[1 := 5]> ∅) 5 = [1] /\
  has_quorum (group_of [1; 2]) 1 = false /\
  quorum_match_index (group_of [1; 2; 3; 4]) (<[1 := 5]> (<[2 := 5]> ∅)) = 5 /\
  has_quorum (group_of [1; 2; 3; 4]) 2 = false.
Proof. repeat split; vm_compute; reflexivity. Qed.

(** ** What the methods leave alone *)

Section Frozen.
Context {L SM : Type}.
Abbreviation node := (RaftNode L SM).
Implicit Types n : node.

(** The log, the commit index and the role do not move. *)
Record frozen n n' : Prop := {
  fz_store : log_store_ n' = log_store_ n;
  fz_config : config_ n' = config_ n;
  fz_hard : hard_state_ n' = hard_state_ n;
  fz_role : role_ n' = role_ n;
  fz_last : last_log_index_ n' = last_log_index_ n;
  fz_inc : last_included_index_ n' = last_included_index_ n;
  fz_inct : last_included_term_ n' = last_included_term_ n;
  fz_commit : commit_index_ n' = commit_index_ n }.

#[export] Instance frozen_quiet : Quiet frozen.
Proof.
  split; [split; [split|..]|]; try by split.
  - intros a b c [] []. split; congruence.
  - intros n n' []. by split.
Qed.

(** Nothing is sent, and the commit index stays. *)
Definition mute n n' : Prop := outbox n' = outbox n /\ commit_index_ n' = commit_index_ n.

#[export] Instance mute_booked : Booked mute.
Proof.
  split; [split|..]; unfold mute.
  - done.
  - intros a b c [] []. split; congruence.
  - by intros n n' [].
  - done.
Qed.

(** Nothing is sent, and nothing of the above moves. *)
Definition silent n n' : Prop := frozen n n' /\ outbox n' = outbox n.

#[export] Instance silent_booked : Booked silent.
Proof.
  split; [split|..].
  - intros n. by split; [split|].
  - intros a b c [Hab Eab] [Hbc Ebc]. split; [by etransitivity|congruence].
  - intros n n' Hbk. split; [by apply booked_bk|apply Hbk].
  - intros n. by split; [split|].
Qed.
End Frozen.

Section Commit.
Context {L SM : Type} `{LogStoreLaws L, StateMachine SM}.
Abbreviation node := (RaftNode L SM).
Implicit Types n : node.

(** C38: the commit rule. When [advance_commit] moves the commit index, it moves
    forward, inside the leader's log, to the largest index that at least half of
    the members, rounded up, are known to store (counted over the configured
    members and what each has acknowledged; a majority in a group of odd size);
    with distinct members every election quorum has a member that stores it. The
    entry there was created in the leader's current term (or is the snapshot
    boundary of that term): entries of earlier terms are never counted on their
    own. The log is untouched. *)
Theorem commit_rule n n' r :
  node_ok n -> advance_commit n = (n', r) -> commit_index_ n' <> commit_index_ n ->
  let members := peers (config_ n) in
  let stored_by := holders (config_ n) (match_index_ n) in
  commit_index_ n < commit_index_ n' /\ commit_index_ n' <= last_log_index_ n /\
  ((length members + 1) / 2 <= length (stored_by (commit_index_ n')))%nat /\
  (forall i, commit_index_ n' < i -> (length (stored_by i) < (length members + 1) / 2)%nat) /\
  (NoDup members -> forall Q : gset NodeId, Q ⊆ list_to_set members -> (length members < 2 * size Q)%nat ->
     exists p, p ∈ Q /\ p ∈ stored_by (commit_index_ n')) /\
  log_store_ n' = log_store_ n /\
  (if commit_index_ n' =? last_included_index_ n then last_included_term_ n = term n
   else exists e, lv_entry (node_view n) (commit_index_ n') = Some e /\ e_term e = term n).
Proof.
  intros Hok Hr Hne. unfold advance_commit in Hr. rewrite run_get in Hr. cbv zeta in Hr.
  set (q := quorum_match_index _ _) in *.
  destruct (_ || _) eqn:E; [by injection Hr as <- _|]. boolify.
  rewrite run_bind in Hr. unfold log_at, lift in Hr.
  destruct (ls_at q (log_store_ n)) as [e|er] eqn:Ea; [|by injection Hr as <- _].
  destruct (negb _) eqn:Et; [by injection Hr as <- _|]. boolify.
  rewrite run_modify in Hr.
  assert (Hfz : frozen (set_commit_index q n) n').
  { revert n' r Hr Hne. generalize (set_commit_index q n). intros n1 n' r Hr _.
    assert (Hrel : rel_at frozen (_ ← apply_committed;
      if (1 <? length (peers (config_ n)))%nat then send_heartbeats else mret ()) n1)
      by (repeat quiet_step).
    by eapply Hrel. }
  destruct Hfz as [F1 F2 F3 F4 F5 F6 F7 F8]. simpl in F1, F8. cbv zeta. rewrite F8.
  assert (Hne' : peers (config_ n) <> []) by (intros Hp; assert (q = 0) by (unfold q, quorum_match_index; by rewrite Hp); lia).
  destruct (quorum_match_index_spec (config_ n) (match_index_ n) Hne') as (Hhalf & Hmax & Hmeet). fold q in Hhalf, Hmax, Hmeet.
  split_and!; try done.
  { intros Hnd Q HQ Hsz. apply Hmeet; [done..|]. unfold has_quorum. apply Nat.leb_le.
    pose proof (Nat.div_mod_eq (length (peers (config_ n))) 2). lia. }
  destruct (ls_at_spec _ _ _ (ok_store _ Hok) Ea) as (_ & _ & He).
  unfold node_view. pose proof (ok_snap _ Hok) as Hsn. unfold node_view in Hsn.
  rewrite Hsn in He. simpl in He.
  destruct (q =? last_included_index_ n); [congruence|]. by exists e.
Qed.

(** ** Accepted entries *)

Lemma view_entry_eq v w i : view_eq v w -> lv_entry v i = lv_entry w i.
Proof. by intros [_ _ _ He]. Qed.

(** What one stored entry does to the log. *)
Record stored n n' (i : N) (e : LogEntry) : Prop := {
  st_ok : node_ok n';
  st_here : lv_entry (node_view n') i = Some e;
  st_below : forall j, j < i -> lv_entry (node_view n') j = lv_entry (node_view n) j;
  st_last : i <= last_log_index_ n';
  st_inc : last_included_index_ n' = last_included_index_ n;
  st_out : outbox n' = outbox n }.

Definition quiet_facts n n1 : Prop :=
  last_included_index_ n1 = last_included_index_ n /\ outbox n1 = outbox n.

(** Cutting a conflicting suffix: the log ends before [i] or already holds [e] at [i]. *)
Lemma conflict_resolved t i e n n1 :
  node_ok n -> last_included_index_ n < i -> i <= last_log_index_ n + 1 ->
  e_index e = i -> e_term e = t ->
  (if i <=? last_log_index_ n then
     existing ← log_at i;
     if negb (e_term existing =? e_term e) then
       _ ← store_update (ls_truncate_suffix i);
       _ ← modify (set_last_log_index (i - 1));
       modify (fail_pending_proposals (Some i) truncated_suffix)
     else if negb (bool_decide (e_data existing = e_data e)) then throw diverging_data
     else mret ()
   else mret ()) n = (n1, Ok ()) ->
  node_ok n1 /\ quiet_facts n n1 /\
  (forall j, j < i -> lv_entry (node_view n1) j = lv_entry (node_view n) j) /\
  (last_log_index_ n1 + 1 = i \/
   (i <= last_log_index_ n1 /\ lv_entry (node_view n1) i = Some e)).
Proof.
  intros Hok Hinc Hi He Ht Hr. destruct (i <=? last_log_index_ n) eqn:E; boolify.
  2:{ injection Hr as <-. split_and!; try done. left. lia. }
  rewrite run_bind in Hr. unfold log_at, lift in Hr.
  destruct (ls_at i (log_store_ n)) as [x|er] eqn:Ea; [|done].
  destruct (ls_at_spec _ _ _ (ok_store _ Hok) Ea) as (Hxi & _ & Hx).
  pose proof (ok_snap _ Hok) as Hsn. unfold node_view in Hsn. rewrite Hsn in Hx. simpl in Hx.
  rewrite (proj2 (N.eqb_neq _ _)) in Hx by lia.
  destruct (negb (_ =? _)) eqn:Etm; boolify.
  - rewrite run_bind, run_store in Hr.
    destruct (ls_truncate_suffix i (log_store_ n)) as [s' [[]|er]] eqn:Es; [|done].
    rewrite run_modify in Hr. injection Hr as <-.
    destruct (truncate_ok _ _ _ _ Hok Es) as (_ & Hk & Hv). destruct (Hk Hok) as [Hok1 Hc1].
    pose proof (bk_fail_pending (Some i) truncated_suffix
      (set_last_log_index (i - 1) (set_log_store s' n))) as Hbk.
    split_and!.
    + destruct (bookkeeping_keeps _ _ Hbk Hok1) as [? _]. done.
    + destruct Hbk as [B1 B2 B3 B4 B5 B6 B7 B8 B9 B10 B11]. split; [by rewrite B7|by rewrite B11].
    + intros j Hj. unfold node_view. rewrite (bk_store _ _ Hbk). simpl.
      rewrite (view_entry_eq _ _ j Hv). simpl. by rewrite (proj2 (N.leb_gt _ _)).
    + left. rewrite (bk_last _ _ Hbk). simpl. lia.
  - destruct (negb (bool_decide _)) eqn:Ed; [done|]. apply negb_false_iff, bool_decide_eq_true_1 in Ed.
    injection Hr as <-. split_and!; try done. right. split; [done|].
    unfold node_view. rewrite Hx. f_equal. destruct x, e. simpl in *. congruence.
Qed.

Lemma store_entry_spec t i e n n' :
  node_ok n -> last_included_index_ n < i -> i <= last_log_index_ n + 1 ->
  store_entry t i e n = (n', Ok ()) -> stored n n' i e /\ e_term e = t.
Proof.
  intros Hok Hinc Hi Hr. unfold store_entry in Hr.
  destruct (_ || _) eqn:E; [done|]. boolify. split; [|done].
  rewrite run_get, run_bind in Hr.
  match type of Hr with (let (_, _) := ?m n in _) = _ => destruct (m n) as [n1 [[]|er]] eqn:E1 end;
    [|done].
  apply (conflict_resolved t) in E1 as (Hok1 & [Hinc1 Hout1] & Hbelow & Hpos); try done.
  rewrite run_get in Hr. destruct (last_log_index_ n1 <? i) eqn:E2; boolify.
  - rewrite run_bind, run_store in Hr.
    destruct (ls_append e (log_store_ n1)) as [s' [[]|er]] eqn:Es; [|done].
    injection Hr as <-. destruct (append_ok _ _ _ _ Hok1 Es) as (Hei & Hk & Hv).
    destruct (Hk Hok1) as [Hok2 _].
    assert (Hie : e_index e = i) by congruence. rewrite Hie in Hok2.
    split; try done.
    + unfold node_view. simpl. rewrite (view_entry_eq _ _ i Hv). simpl.
      by rewrite Hie, N.eqb_refl.
    + intros j Hj. unfold node_view at 1. simpl. rewrite (view_entry_eq _ _ j Hv). simpl.
      rewrite (proj2 (N.eqb_neq _ _)) by lia. by apply Hbelow.
  - injection Hr as <-. destruct Hpos as [?|[Hle Hhere]]; [lia|]. by split.
Qed.

(** What a run of stored entries does to the log. *)
Record stored_all n n' (i : N) (es : list LogEntry) : Prop := {
  sa_ok : node_ok n';
  sa_here : forall k e, es !! k = Some e -> lv_entry (node_view n') (i + 1 + N.of_nat k) = Some e;
  sa_below : forall j, j <= i -> lv_entry (node_view n') j = lv_entry (node_view n) j;
  sa_last : i + N.of_nat (length es) <= last_log_index_ n';
  sa_inc : last_included_index_ n' = last_included_index_ n;
  sa_out : outbox n' = outbox n }.

Lemma store_entries_spec t i es n n' m :
  node_ok n -> last_included_index_ n <= i -> i <= last_log_index_ n ->
  store_entries t i es n = (n', Ok m) ->
  stored_all n n' i es /\ m = i + N.of_nat (length es) /\ Forall (fun e => e_term e = t) es.
Proof.
  revert i n; induction es as [|e es IH]; intros i n Hok Hinc Hlast Hr.
  - injection Hr as <- <-. split_and!; [|simpl; lia|by constructor].
    split; try done. simpl. lia.
  - cbn [store_entries] in Hr. rewrite run_bind in Hr.
    destruct (store_entry t (i + 1) e n) as [n1 [[]|er]] eqn:E1; [|done].
    apply store_entry_spec in E1 as [[S1 S2 S3 S4 S5 S6] Ht]; [|done|lia|lia].
    destruct (IH (i + 1) n1) as ([R1 R2 R3 R4 R5 R6] & -> & Hf); try done; [rewrite S5; lia|].
    split_and!; [|cbn [length]; lia|by constructor]. split; try congruence.
    + intros [|k] e' Hk.
      * injection Hk as <-. replace (i + 1 + N.of_nat 0) with (i + 1) by lia. rewrite R3 by lia. done.
      * replace (i + 1 + N.of_nat (S k)) with (i + 1 + 1 + N.of_nat k) by lia. by apply R2.
    + intros j Hj. rewrite R3 by lia. apply S3. lia.
    + cbn [length]. lia.
Qed.

Lemma follow_leader_spec now t leader n n' r :
  node_ok n -> term n <= t -> follow_leader now t leader n = (n', r) ->
  node_ok n' /\ same_log n n' /\ (r = Ok () -> term n' = t /\ role_ n' = Follower).
Proof.
  intros Hok Hle Hr. unfold follow_leader in Hr. rewrite run_get in Hr.
  destruct (_ || _) eqn:E.
  - destruct (become_follower_spec _ _ _ _ _ _ Hok Hr) as (Hok' & Hsl & Hm).
    split_and!; try done. intros ->. destruct Hm as (Hro & _ & Hh). split; [|done].
    unfold term in *. rewrite Hh. destruct (_ <? t) eqn:Et; boolify; simpl; lia.
  - rewrite run_modify in Hr. injection Hr as <- _.
    apply orb_false_iff in E as [E1 E2]. apply andb_false_iff in E2. boolify.
    assert (Ht : t = term n) by lia.
    destruct E2 as [E2|E2]; [boolify; lia|].
    rewrite negb_false_iff in E2. apply bool_decide_eq_true_1 in E2.
    pose proof (bk_deadline now (set_leader_id (Some leader) n)) as Hbk.
    assert (Hb : bookkeeping n (reset_election_deadline now (set_leader_id (Some leader) n)))
      by (etransitivity; [|exact Hbk]; by split).
    split_and!; [by eapply node_ok_bk|by apply same_log_bk|]. intros _.
    unfold term. by rewrite (bk_role _ _ Hb), (bk_hard _ _ Hb).
Qed.

Lemma rel_store_entries_mute t i es n : rel_at mute (store_entries t i es) n.
Proof.
  assert (Hstore : forall op n, rel_at mute (store_update op) n).
  { intros op n0 n' r. unfold store_update. destruct (op _) as [s [[]|e]]; by intros [= <- _]. }
  assert (Hlast : forall k n, rel_at mute (modify (set_last_log_index k)) n).
  { intros k n0. by apply rel_modify. }
  revert i n; induction es as [|e es IH]; intros i n; cbn [store_entries]; [apply rel_ret; apply _|].
  apply rel_bind; [apply _| |intros; apply IH]. unfold store_entry.
  repeat first [apply Hstore | apply Hlast | apply rel_log_at; apply _
    | apply rel_modify_bk; [apply _|intros; apply bk_fail_pending] | rel_step].
Qed.

(** The entry before the request's is the follower's own. *)
Definition prev_agrees (req : AppendEntriesRequest) n : Prop :=
  prev_log_index req <> 0 ->
  if prev_log_index req =? last_included_index_ n
  then last_included_term_ n = prev_log_term req
  else exists e, lv_entry (node_view n) (prev_log_index req) = Some e /\ e_term e = prev_log_term req.

Lemma prev_matches_spec req n n' :
  node_ok n -> prev_matches req n = (n', Ok true) ->
  n' = n /\ last_included_index_ n <= prev_log_index req <= last_log_index_ n /\ prev_agrees req n.
Proof.
  intros Hok Hr. unfold prev_matches in Hr. rewrite run_get in Hr.
  destruct (last_log_index_ n <? _) eqn:E1; [done|].
  destruct (prev_log_index req <? _) eqn:E2; [done|]. boolify. unfold prev_agrees.
  destruct (negb _) eqn:E3.
  2:{ injection Hr as <-. apply negb_false_iff, N.eqb_eq in E3. split_and!; done. }
  rewrite run_bind in Hr. destruct (prev_log_index req =? last_included_index_ n) eqn:E4.
  - injection Hr as <- Heq. boolify. split_and!; try done; try lia.
  - rewrite run_bind in Hr. unfold log_at, lift in Hr.
    destruct (ls_at _ (log_store_ n)) as [e|er] eqn:Ea; [|done]. injection Hr as <- Heq. boolify.
    destruct (ls_at_spec _ _ _ (ok_store _ Hok) Ea) as (_ & _ & He).
    pose proof (ok_snap _ Hok) as Hsn. unfold node_view in *. rewrite Hsn in He. simpl in He.
    rewrite (proj2 (N.eqb_neq _ _) E4) in He. split_and!; try done; try lia. by exists e.
Qed.

#[local] Opaque apply_committed store_entries prev_matches follow_leader.

(** The commit index an accepted request leaves. *)
Definition follower_commit (req : AppendEntriesRequest) n : N :=
  if commit_index_ n <? leader_commit req
  then N.min (leader_commit req) (last_log_index_ n) else commit_index_ n.

(** The part of the handler after the request was found consistent. *)
Definition accept_entries (from : NodeId) (req : AppendEntriesRequest) (m : N) : M L SM unit :=
  _ ← modify (fun n =>
        if commit_index_ n <? leader_commit req
        then set_commit_index (N.min (leader_commit req) (last_log_index_ n)) n else n);
  apply_result ← outcome apply_committed;
  n ← get;
  _ ← send from (ae_response n true m (ae_round req) 0);
  match apply_result with Err e => throw e | Ok _ => mret () end.

Lemma accept_entries_run from req m n n' r :
  accept_entries from req m n = (n', r) ->
  outbox n' = outbox n ++ [(from, ae_response n true m (ae_round req) 0)] /\
  frozen (set_commit_index (follower_commit req n) n) n'.
Proof.
  intros Hr. unfold accept_entries in Hr. rewrite run_modify in Hr.
  set (n1 := if _ <? _ then _ else _) in Hr.
  assert (Hn1 : silent (set_commit_index (follower_commit req n) n) n1).
  { unfold n1, follower_commit. destruct (_ <? _); by split; [split|]. }
  clearbody n1. rewrite run_outcome in Hr.
  destruct (apply_committed n1) as [n2 ar] eqn:E.
  assert (Hn2 : silent n1 n2) by (eapply rel_apply_committed; [apply _|exact E]).
  rewrite run_get in Hr. unfold send in Hr. rewrite run_modify in Hr.
  destruct Hn1 as [F1 O1], Hn2 as [F2 O2]. simpl in O1.
  assert (Ht : term n2 = term n).
  { unfold term. by rewrite (fz_hard _ _ F2), (fz_hard _ _ F1). }
  assert (Hn' : n' = set_outbox (outbox n2 ++ [(from, ae_response n2 true m (ae_round req) 0)]) n2).
  { destruct ar as [[]|]; by injection Hr as <- _. }
  rewrite Hn'. split; [simpl; unfold ae_response; by rewrite O2, O1, Ht|].
  etransitivity; [exact F1|]. etransitivity; [exact F2|]. by split.
Qed.

(** A successful answer: what it says and what the follower's log holds. *)
Lemma append_success_spec now from req n n' r resp :
  node_ok n -> outbox n = [] ->
  handle_append_entries now from req n = (n', r) ->
  (from, MsgAppendEntriesResponse resp) ∈ outbox n' -> aer_success resp = true ->
  role_ n' = Follower /\ term n' = ae_term req /\ prev_agrees req n /\
  resp = mkAppendEntriesResponse (ae_term req) true
    (prev_log_index req + N.of_nat (length (ae_entries req))) (ae_round req) 0 /\
  (forall k e, ae_entries req !! k = Some e -> e_term e = ae_term req /\
     lv_entry (node_view n') (prev_log_index req + 1 + N.of_nat k) = Some e) /\
  (forall j, j <= prev_log_index req -> lv_entry (node_view n') j = lv_entry (node_view n) j) /\
  aer_match_index resp <= last_log_index_ n' /\
  commit_index_ n' = (if commit_index_ n <? leader_commit req
    then N.min (leader_commit req) (last_log_index_ n') else commit_index_ n).
Proof.
  intros Hok Hout Hr Hin Hsu. unfold handle_append_entries in Hr. rewrite run_get in Hr.
  destruct (ae_term req <? term n) eqn:E1; boolify.
  { injection Hr as <- _. simpl in Hin. rewrite Hout in Hin.
    apply list_elem_of_singleton in Hin. injection Hin as ->. done. }
  rewrite run_bind in Hr. destruct (follow_leader now _ _ n) as [n1 r1] eqn:E2.
  destruct (follow_leader_spec _ _ _ _ _ _ Hok E1 E2) as (Hok1 & Hsl & Hfo).
  assert (Hout1 : outbox n1 = []) by (by rewrite (sl_out _ _ Hsl)).
  destruct r1 as [[]|er]; [|injection Hr as <- _; by rewrite Hout1, elem_of_nil in Hin].
  destruct (Hfo eq_refl) as [Hterm Hrole]. clear Hfo E2.
  rewrite run_bind in Hr. destruct (prev_matches req n1) as [n2 r2] eqn:E3.
  assert (Hm2 : mute n1 n2) by (eapply rel_prev_matches; [apply _|exact E3]).
  destruct r2 as [ok|er]; [|injection Hr as <- _; by rewrite (proj1 Hm2), Hout1, elem_of_nil in Hin].
  destruct (negb ok) eqn:En.
  { rewrite run_get in Hr. injection Hr as <- _. simpl in Hin. rewrite (proj1 Hm2), Hout1 in Hin.
      apply list_elem_of_singleton in Hin. injection Hin as ->. done. }
  apply negb_false_iff in En as ->. apply prev_matches_spec in E3 as (-> & [Hlo Hhi] & Hprev); [|done].
  rewrite run_bind in Hr. destruct (store_entries _ _ _ n1) as [n3 r3] eqn:E4.
  assert (Hm3 : mute n1 n3) by (eapply rel_store_entries_mute; exact E4).
  destruct r3 as [m|er]; [|injection Hr as <- _; by rewrite (proj1 Hm3), Hout1, elem_of_nil in Hin].
  pose proof (rel_store_entries _ _ _ _ _ _ E4 Hok1) as [_ Hcm].
  apply store_entries_spec in E4 as ([S1 S2 S3 S4 S5 S6] & -> & Hts); [|done..].
  apply accept_entries_run in Hr as [Ho [F1 F2 F3 F4 F5 F6 F7 F8]].
  rewrite Ho, S6, Hout1 in Hin. apply list_elem_of_singleton in Hin. injection Hin as ->.
  destruct Hsl as [_ [_ V2 V3 V4] L1 L2 L3 L4 _]. simpl in *.
  assert (Hview : node_view n' = node_view n3) by (unfold node_view; by rewrite F1).
  unfold term in *. rewrite Hview, F3, F4, F5, F8. unfold follower_commit.
  rewrite (proj2 Hm3), L4, (cm_hard _ _ Hcm), (cm_role _ _ Hcm), Hterm.
  split_and!; try done.
  - pose proof (ok_snap _ Hok) as G0. pose proof (ok_snap _ Hok1) as G1. rewrite V2, G0 in G1.
    injection G1 as _ G1. unfold prev_agrees in *. by rewrite <- L2, G1, <- V4.
  - intros k e Hk. split; [|by apply S2]. rewrite Forall_lookup in Hts. by eapply Hts.
  - intros j Hj. by rewrite S3.
Qed.

(** ** The request a leader sends *)

Definition no_append n n' : Prop :=
  forall to req, (to, MsgAppendEntries req) ∈ outbox n' -> (to, MsgAppendEntries req) ∈ outbox n.

#[local] Instance no_append_booked : Booked no_append.
Proof.
  split; [split|..]; unfold no_append.
  - by intros n to req.
  - intros a b c Hab Hbc to req Hin. by apply Hab, Hbc.
  - intros n n' Hbk to req. by rewrite (bk_out _ _ Hbk).
  - by intros n to req.
Qed.

Lemma rel_send_snapshot_no_append to n : rel_at no_append (send_snapshot to) n.
Proof.
  unfold send_snapshot.
  repeat first [rel_step | apply rel_log_at; apply _
    | apply rel_modify_bk; [apply _|intros; by split]].
  unfold send. apply rel_modify. intros to' req. simpl. rewrite elem_of_app, list_elem_of_singleton.
  by intros [?|?].
Qed.

Lemma read_entries_spec count i n n' es :
  node_ok n -> last_included_index_ n < i ->
  read_entries count i n = (n', Ok es) ->
  n' = n /\ length es = count /\
  forall k e, es !! k = Some e -> lv_entry (node_view n) (i + N.of_nat k) = Some e.
Proof.
  intros Hok. revert i es n'; induction count as [|count IH]; intros i es n' Hi Hr.
  - by injection Hr as <- <-.
  - cbn [read_entries] in Hr. rewrite run_bind in Hr. unfold log_at, lift in Hr.
    destruct (ls_at i (log_store_ n)) as [e|er] eqn:Ea; [|done].
    destruct (ls_at_spec _ _ _ (ok_store _ Hok) Ea) as (_ & _ & He).
    pose proof (ok_snap _ Hok) as Hsn. unfold node_view in *. rewrite Hsn in He. simpl in He.
    rewrite (proj2 (N.eqb_neq _ _)) in He by lia.
    rewrite run_bind in Hr. destruct (read_entries count (i + 1) n) as [n1 [es'|er]] eqn:E1; [|done].
    apply IH in E1 as (-> & <- & Hes); [|lia]. injection Hr as <- <-. split_and!; try done.
    intros [|k] e' Hk; [injection Hk as <-; by rewrite N.add_0_r|].
    replace (i + N.of_nat (S k)) with (i + 1 + N.of_nat k) by lia. by apply Hes.
Qed.

(** The entries of the request are the leader's log from the position after
    [prev_log_index] to its end. *)
Record from_log n (req : AppendEntriesRequest) : Prop := {
  fl_term : ae_term req = term n;
  fl_leader : ae_leader_id req = self n;
  fl_prev : prev_agrees req n;
  fl_inc : last_included_index_ n <= prev_log_index req;
  fl_end : prev_log_index req + N.of_nat (length (ae_entries req)) = last_log_index_ n;
  fl_entries : forall k e, ae_entries req !! k = Some e ->
    lv_entry (node_view n) (prev_log_index req + 1 + N.of_nat k) = Some e;
  fl_commit : leader_commit req = commit_index_ n }.

#[local] Opaque send_snapshot read_entries.

(** The leader's progress map before a request goes out. *)
Definition with_progress to n : node :=
  let n1 := set_next_index (contains_or_set to (last_log_index_ n + 1) (next_index_ n)) n in
  set_match_index (contains_or_set to 0 (match_index_ n1)) n1.

Lemma prev_term_read i n n' t :
  node_ok n ->
  (if i =? last_included_index_ n then mret (last_included_term_ n)
   else if negb (i =? kInvalidIndex) then e ← log_at i; mret (e_term e) else mret 0) n = (n', Ok t) ->
  n' = n /\ (i <> 0 -> i <= last_log_index_ n) /\
  (i <> 0 -> if i =? last_included_index_ n then last_included_term_ n = t
     else exists e, lv_entry (node_view n) i = Some e /\ e_term e = t).
Proof.
  intros Hok Hr. pose proof (ls_view_wf _ (ok_store _ Hok)) as [W1 W2 _].
  pose proof (ok_snap _ Hok) as Hsn. pose proof (ok_last _ Hok) as Hla. unfold node_view in *.
  rewrite Hsn, Hla in *. simpl in *.
  destruct (i =? last_included_index_ n) eqn:E; [injection Hr as <- <-; boolify; split_and!; try done; lia|].
  destruct (negb _) eqn:E0.
  - rewrite run_bind in Hr. unfold log_at, lift in Hr.
    destruct (ls_at i (log_store_ n)) as [e|er] eqn:Ea; [|done]. injection Hr as <- <-.
    destruct (ls_at_spec _ _ _ (ok_store _ Hok) Ea) as (_ & _ & He). rewrite Hsn in He. simpl in He.
    rewrite E in He. assert (last_included_index_ n < i <= last_log_index_ n).
    { apply W2. by rewrite He. }
    split_and!; try done; try lia. intros _. by exists e.
  - injection Hr as <- <-. apply negb_false_iff, N.eqb_eq in E0. unfold kInvalidIndex in E0.
    split_and!; try done; lia.
Qed.

Lemma send_append_entries_spec to n n' r req :
  node_ok n -> outbox n = [] -> send_append_entries to n = (n', r) ->
  (to, MsgAppendEntries req) ∈ outbox n' -> from_log n req.
Proof.
  intros Hok Hout Hr Hin. unfold send_append_entries in Hr. rewrite !run_modify in Hr.
  change (set_match_index _ _) with (with_progress to n) in Hr.
  assert (Hb : bookkeeping n (with_progress to n)) by (by split).
  assert (Hok1 : node_ok (with_progress to n)) by (by eapply node_ok_bk).
  assert (Hv : node_view (with_progress to n) = node_view n) by (unfold node_view; by rewrite (bk_store _ _ Hb)).
  destruct Hb as [B1 B2 B3 B4 B5 B6 B7 B8 B9 B10 B11]. revert B1 B2 B3 B4 B5 B6 B7 B8 B9 B10 B11 Hok1 Hv Hr.
  generalize (with_progress to n). intros m B1 B2 B3 B4 B5 B6 B7 B8 B9 B10 B11 Hok1 Hv Hr.
  rewrite run_get in Hr. cbv zeta in Hr. set (next := idx (next_index_ m) to) in *.
  destruct (next <=? last_included_index_ m) eqn:E1; boolify.
  { apply rel_send_snapshot_no_append in Hr. apply Hr in Hin.
    by rewrite B11, Hout, elem_of_nil in Hin. }
  rewrite run_bind in Hr.
  match type of Hr with (let (_, _) := ?f m in _) = _ => assert (Hm1 : rel_at mute f m) by (repeat first [rel_step | apply rel_log_at; apply _]);
    destruct (f m) as [m1 [t|er]] eqn:E2 end.
  2:{ injection Hr as <- _. by rewrite (proj1 (Hm1 _ _ E2)), B11, Hout, elem_of_nil in Hin. }
  apply prev_term_read in E2 as (-> & Hle & Hprev); [|done].
  rewrite run_bind in Hr.
  destruct (read_entries _ next m) as [m2 [es|er]] eqn:E3.
  2:{ injection Hr as <- _. apply (rel_read_entries mute) in E3.
      by rewrite (proj1 E3), B11, Hout, elem_of_nil in Hin. }
  apply read_entries_spec in E3 as (-> & Hlen & Hes); [|done|lia].
  unfold send, modify in Hr. injection Hr as <- _. simpl in Hin. rewrite B11, Hout in Hin.
  apply list_elem_of_singleton in Hin. injection Hin as ->.
  unfold self, term in *. rewrite B2, B3, B6, B7, B8, B10, Hv in *.
  split; simpl; try done; try lia.
  intros k e Hk. replace (next - 1 + 1) with next by lia. by apply Hes.
Qed.

Lemma last_of_request n (req : AppendEntriesRequest) k :
  from_log n req -> prev_log_index req < k <= last_log_index_ n ->
  exists e, ae_entries req !! N.to_nat (k - prev_log_index req - 1) = Some e /\
    lv_entry (node_view n) k = Some e.
Proof.
  intros [_ _ _ _ Hend Hes _] Hk.
  destruct (lookup_lt_is_Some_2 (ae_entries req) (N.to_nat (k - prev_log_index req - 1))) as [e He];
    [lia|].
  exists e. split; [done|]. rewrite <- (Hes _ _ He). f_equal. lia.
Qed.

(** C6: replication. A leader sends a follower the part of its log after
    [prev_log_index]; when the follower answers success, the two logs hold the
    same entry at every position from there to the end of the leader's log,
    the entry before is of the same term in both, the follower reports exactly
    the leader's last index, in the leader's term, and it commits no index the
    leader had not committed (or it had not committed before). *)
Theorem replication_agreement leader leader' to r req now follower follower' r' resp :
  node_ok leader -> node_ok follower -> outbox leader = [] -> outbox follower = [] ->
  send_append_entries to leader = (leader', r) ->
  (to, MsgAppendEntries req) ∈ outbox leader' ->
  handle_append_entries now (self leader) req follower = (follower', r') ->
  (self leader, MsgAppendEntriesResponse resp) ∈ outbox follower' -> aer_success resp = true ->
  aer_term resp = term leader /\ term follower' = term leader /\
  aer_match_index resp = last_log_index_ leader /\
  prev_agrees req leader /\ prev_agrees req follower /\
  (forall k, prev_log_index req < k <= last_log_index_ leader ->
     is_Some (lv_entry (node_view leader) k) /\
     lv_entry (node_view follower') k = lv_entry (node_view leader) k) /\
  commit_index_ follower' <= N.max (commit_index_ follower) (commit_index_ leader).
Proof.
  intros Hokl Hokf Hol Hof Hs Hreq Hh Hresp Hsu.
  pose proof (send_append_entries_spec _ _ _ _ _ Hokl Hol Hs Hreq) as Hlog.
  pose proof (append_success_spec _ _ _ _ _ _ _ Hokf Hof Hh Hresp Hsu)
    as (_ & Ht & Hprev & -> & Hes & _ & _ & Hc).
  pose proof Hlog as [L1 L2 L3 L4 L5 L6 L7]. simpl. split_and!; try congruence; try done.
  - intros k Hk. destruct (last_of_request _ _ _ Hlog Hk) as (e & He & ->). split; [done|].
    destruct (Hes _ _ He) as [_ <-]. f_equal. lia.
  - rewrite Hc, L7. destruct (N.ltb_spec (commit_index_ follower) (commit_index_ leader)); lia.
Qed.

(** A request that carries an entry of an earlier term than its own is
    never acknowledged: the answer, if there is one, is a refusal. A leader
    whose log suffix for a follower contains an entry it inherited can thus not
    replicate anything from that position on. *)
Theorem inherited_entries_never_acknowledged now from req n n' r :
  node_ok n -> outbox n = [] -> Exists (fun e => e_term e <> ae_term req) (ae_entries req) ->
  handle_append_entries now from req n = (n', r) ->
  forall resp, (from, MsgAppendEntriesResponse resp) ∈ outbox n' -> aer_success resp = false.
Proof.
  intros Hok Hout Hex Hr resp Hin. apply not_true_iff_false. intros Hsu.
  pose proof (append_success_spec _ _ _ _ _ _ _ Hok Hout Hr Hin Hsu) as (_ & _ & _ & _ & Hes & _).
  apply Exists_exists in Hex as (e & He & Hne). apply list_elem_of_lookup in He as [k Hk].
  by destruct (Hes _ _ Hk).
Qed.
End Commit.

(** ** The group of three, continued

    Node 1 leads in term 1 and has appended its no-op at index 1. *)

Definition demo_at (i : NodeId) : demo_node :=
  set_outbox [] (default (demo_start i) (nodes demo_cluster3 !! i)).

Lemma node_ok_outbox (n : demo_node) : node_ok n -> node_ok (set_outbox [] n).
Proof. intros [O1 O2 O3 O4 O5]. by split. Qed.

Lemma node_ok_match m (n : demo_node) : node_ok n -> node_ok (set_match_index m n).
Proof. intros [O1 O2 O3 O4 O5]. by split. Qed.

Lemma demo_at_ok i : i ∈ [1; 2] -> node_ok (demo_at i).
Proof.
  intros Hi. apply node_ok_outbox.
  assert (Hex : is_Some (nodes demo_cluster3 !! i)).
  { apply elem_of_cons in Hi as [->|Hi]; [|apply list_elem_of_singleton in Hi as ->];
      apply (bool_decide_unpack _); vm_compute; exact I. }
  destruct Hex as [n Hn]. rewrite Hn.
  exact (mb_ok _ _ _ _ (ci_nodes _ _ (creach_inv _ _ demo_reach) _ _ Hn)).
Qed.

Definition demo_sent : AppendEntriesRequest :=
  match outbox (send_append_entries 2 (demo_at 1)).1 with
  | (_, MsgAppendEntries req) :: _ => req
  | _ => mkAppendEntriesRequest 0 0 0 0 [] 0 0
  end.

Definition demo_got : RaftNode MemoryLogStore (KVStateMachine MockStore MemoryRequestResultStore) :=
  (handle_append_entries 2002 1 demo_sent (demo_at 2)).1.

Lemma run_pair {A B} (p : A * B) : p = (p.1, p.2).
Proof. by destruct p. Qed.

Lemma replication_agreement_witness :
  lv_entry (node_view demo_got) 1 = lv_entry (node_view (demo_at 1)) 1 /\
  is_Some (lv_entry (node_view (demo_at 1)) 1).
Proof.
  assert (H : self (demo_at 1) = 1) by (vm_compute; reflexivity).
  assert (Ho : outbox (send_append_entries 2 (demo_at 1)).1 = [(2, MsgAppendEntries demo_sent)])
    by (vm_compute; reflexivity).
  assert (Hg : outbox demo_got = [(1, MsgAppendEntriesResponse (mkAppendEntriesResponse 1 true 1 1 0))])
    by (vm_compute; reflexivity).
  destruct (replication_agreement (demo_at 1) (send_append_entries 2 (demo_at 1)).1 2
    (send_append_entries 2 (demo_at 1)).2 demo_sent 2002 (demo_at 2) demo_got
    (handle_append_entries 2002 1 demo_sent (demo_at 2)).2
    (mkAppendEntriesResponse 1 true 1 1 0)) as (_ & _ & _ & _ & _ & Hlog & _).
  - apply demo_at_ok. left.
  - apply demo_at_ok. right. left.
  - reflexivity.
  - reflexivity.
  - exact (run_pair (send_append_entries 2 (demo_at 1))).
  - rewrite Ho. left.
  - rewrite H. unfold demo_got. exact (run_pair (handle_append_entries 2002 1 demo_sent (demo_at 2))).
  - rewrite H, Hg. left.
  - reflexivity.
  - destruct (Hlog 1) as [H1 H2]; [vm_compute; split; [reflexivity|discriminate]|].
    split; [exact H2|exact H1].
Defined.

(** A follower in term 2 whose log is empty is sent the leader's log, whose
    first entry the leader inherited from term 1. *)
Definition inherited_request : AppendEntriesRequest :=
  mkAppendEntriesRequest 2 1 0 0 [mkLogEntry 1 1 []; mkLogEntry 2 2 []] 0 1.

Lemma inherited_entries_never_acknowledged_witness :
  (handle_append_entries 3000 1 inherited_request (demo_at 2)).2 = Err inconsistent_entries /\
  forall resp, (1, MsgAppendEntriesResponse resp) ∈
    outbox (handle_append_entries 3000 1 inherited_request (demo_at 2)).1 -> aer_success resp = false.
Proof.
  split; [vm_compute; reflexivity|].
  apply (inherited_entries_never_acknowledged 3000 1 inherited_request (demo_at 2) _
    (handle_append_entries 3000 1 inherited_request (demo_at 2)).2).
  - apply demo_at_ok. right. left.
  - reflexivity.
  - left. discriminate.
  - exact (run_pair (handle_append_entries 3000 1 inherited_request (demo_at 2))).
Defined.

(** The leader after one follower has acknowledged index 1. *)
Definition demo_acked : demo_node := set_match_index (<[2 := 1]> (match_index_ (demo_at 1))) (demo_at 1).

Lemma commit_rule_witness : commit_index_ (advance_commit demo_acked).1 = 1 /\
  commit_index_ demo_acked < commit_index_ (advance_commit demo_acked).1.
Proof.
  split; [vm_compute; reflexivity|].
  apply (commit_rule demo_acked _ (advance_commit demo_acked).2).
  - assert (Hok : node_ok (demo_at 1)) by (apply demo_at_ok; left).
    exact (node_ok_match _ _ Hok).
  - exact (run_pair (advance_commit demo_acked)).
  - vm_compute. discriminate.
Defined.
