(* ===== verification/RaftLiveness.v ===== *)
(** * A follower that is behind catches up

    [handle_append_entries] refuses a request whose previous entry the follower
    does not have; the leader then steps [next_index] back by one and sends again
    ([raft_node.cpp], [handle_append_entries_response]). With a connection that
    delivers and log stores that do not fail, this conversation ends with the
    follower holding the leader's log. *)

From S2P Require Import Prelude Bytes KvTypes MockStore Wire RaftTypes KvStateMachine LogStore RaftState RaftNode RaftInvariants RaftElection ElectionSafety RaftCommit.
Local Open Scope N_scope.

(** A log store whose operations succeed when they are used properly. *)
Class ReliableStore (L : Type) `{LogStoreLaws L} : Prop := {
  rs_at : forall s i e, ls_wf s -> lv_entry (ls_view s) i = Some e -> ls_at i s = Ok e;
  rs_append : forall s e, ls_wf s -> e_index e = lv_last (ls_view s) + 1 -> e_term e <> 0 ->
    (ls_append e s).2 = Ok ();
  rs_truncate : forall s i, ls_wf s ->
    last_included_index (lv_snap (ls_view s)) < i <= lv_last (ls_view s) -> (ls_truncate_suffix i s).2 = Ok ();
  rs_save : forall s h, ls_wf s -> (ls_save_hard_state h s).2 = Ok () }.

#[export] Instance Memory_reliable : ReliableStore MemoryLogStore.
Proof.
  split.
  - intros s i e [Hl Hi] He. simpl in *. unfold ml_entry in He. unfold ml_at, kInvalidIndex.
    destruct (_ <=? _) eqn:E; [done|]. boolify. pose proof (lookup_lt_Some _ _ _ He).
    rewrite (proj2 (N.eqb_neq _ _)), (proj2 (N.ltb_ge _ _)) by lia. simpl.
    by rewrite (proj2 (N.ltb_ge _ _)), (proj2 (N.eqb_neq _ _)), He by lia.
  - intros s e _ He Ht. simpl in *. unfold ml_append, kInvalidIndex.
    by rewrite !(proj2 (N.eqb_neq _ _)), He, N.eqb_refl by lia.
  - intros s i _ Hi. simpl in *. unfold ml_truncate_suffix, kInvalidIndex.
    by rewrite (proj2 (N.eqb_neq _ _)), (proj2 (N.leb_gt _ _)), (proj2 (N.ltb_ge _ _)) by lia.
  - done.
Qed.

Section Liveness.
Context {L SM : Type} `{ReliableStore L, StateMachine SM}.
Abbreviation node := (RaftNode L SM).
Implicit Types n l f : node.

Definition entry_at n (i : N) : option LogEntry := lv_entry (node_view n) i.

Lemma log_at_entry n i e : node_ok n -> entry_at n i = Some e -> log_at i n = (n, Ok e).
Proof. intros Hok He. unfold log_at, lift. by rewrite (rs_at _ _ _ (ok_store _ Hok) He). Qed.

Lemma entry_exists n i : node_ok n -> last_included_index_ n < i <= last_log_index_ n -> is_Some (entry_at n i).
Proof.
  intros Hok Hi. pose proof (ls_view_wf _ (ok_store _ Hok)) as [_ W _]. apply W.
  pose proof (ok_snap _ Hok) as Hs. pose proof (ok_last _ Hok) as Hl. unfold node_view in *. by rewrite Hs, Hl.
Qed.

Lemma entry_bound n i e : node_ok n -> entry_at n i = Some e -> last_included_index_ n < i <= last_log_index_ n /\ e_index e = i.
Proof.
  intros Hok He. pose proof (ls_view_wf _ (ok_store _ Hok)) as [_ W WI]. split; [|by apply WI].
  pose proof (ok_snap _ Hok) as Hs. pose proof (ok_last _ Hok) as Hl. unfold node_view in *.
  rewrite <- Hl. assert (is_Some (lv_entry (ls_view (log_store_ n)) i)) as Hw%W by by exists e. by rewrite Hs in Hw.
Qed.

(** ** The leader's request *)

Lemma read_entries_total n count : forall i, node_ok n -> last_included_index_ n < i ->
  i + N.of_nat count <= last_log_index_ n + 1 -> exists es, read_entries count i n = (n, Ok es).
Proof.
  induction count as [|count IH]; intros i Hok Hi Hle; cbn [read_entries]; [by exists []|].
  destruct (entry_exists n i Hok) as [e He]; [lia|]. rewrite run_bind, (log_at_entry _ _ _ Hok He).
  destruct (IH (i + 1) Hok) as [es Hes]; [lia|lia|]. exists (e :: es). by rewrite run_bind, Hes.
Qed.

Lemma set_next_same n : set_next_index (next_index_ n) n = n.
Proof. by destruct n. Qed.
Lemma set_match_same n : set_match_index (match_index_ n) n = n.
Proof. by destruct n. Qed.

Lemma send_total to n next m : node_ok n -> last_included_index_ n = 0 ->
  next_index_ n !! to = Some next -> match_index_ n !! to = Some m -> 0 < next <= last_log_index_ n + 1 ->
  exists req, send_append_entries to n = (set_outbox (outbox n ++ [(to, MsgAppendEntries req)]) n, Ok ()) /\
    prev_log_index req = next - 1.
Proof.
  intros Hok Hinc Hn Hm Hb. unfold send_append_entries, contains_or_set. rewrite !run_modify, Hn, set_next_same, Hm, set_match_same.
  assert (Hidx : idx (next_index_ n) to = next) by (unfold idx; by rewrite Hn).
  rewrite run_get. cbv zeta. rewrite Hidx, Hinc, (proj2 (N.leb_gt next 0)) by lia.
  assert (Hprev : exists t, (if next - 1 =? 0 then mret (last_included_term_ n)
    else if negb (next - 1 =? kInvalidIndex) then e ← log_at (next - 1); mret (e_term e) else mret 0) n = (n, Ok t)).
  { destruct (next - 1 =? 0) eqn:E; [by eexists|]. unfold kInvalidIndex. rewrite E. change (negb false) with true. cbv iota. boolify.
    destruct (entry_exists n (next - 1) Hok) as [e He]; [lia|]. rewrite run_bind, (log_at_entry _ _ _ Hok He). by eexists. }
  destruct Hprev as [t Ht]. rewrite run_bind, Ht.
  destruct (read_entries_total n (N.to_nat (last_log_index_ n + 1 - next)) next Hok) as [es Hes]; [lia|lia|].
  rewrite run_bind, Hes. by eexists.
Qed.

(** ** The follower's answer *)

Lemma become_follower_total now t leader n : node_ok n -> exists n1, become_follower now t leader n = (n1, Ok ()).
Proof.
  intros Hok. unfold become_follower. rewrite run_get, run_bind.
  assert (Hrest : forall n0 : node, exists n1, (
    _ ← modify (set_role Follower);
    _ ← (if bool_decide (role_ n = Leader) then
           _ ← modify (fail_pending_proposals None (lost_leadership "commit"));
           modify (fail_read_barriers (lost_leadership "the read barrier completed"))
         else mret ());
    _ ← modify (set_leader_id leader);
    _ ← modify (set_votes_received ∅);
    _ ← modify (set_pending_snapshot None);
    modify (reset_election_deadline now)) n0 = (n1, Ok ())).
  { intros n0. rewrite run_modify. destruct (bool_decide _); by eexists. }
  destruct (term n <? t); [|apply Hrest]. rewrite run_modify, run_on_error, run_store. simpl.
  pose proof (rs_save (log_store_ n) (mkHardState t None) (ok_store _ Hok)) as Hs.
  destruct (ls_save_hard_state _ _) as [s' r]. simpl in Hs. subst r. apply Hrest.
Qed.

Lemma follow_leader_total now t leader n : node_ok n -> exists n1, follow_leader now t leader n = (n1, Ok ()).
Proof.
  intros Hok. unfold follow_leader. rewrite run_get. destruct (_ || _); [by apply become_follower_total|]. by eexists.
Qed.

(** The follower has the entry before the request's. *)
Definition has_prev n (req : AppendEntriesRequest) : Prop :=
  prev_log_index req = 0 \/ exists e, entry_at n (prev_log_index req) = Some e /\ e_term e = prev_log_term req.

Lemma prev_matches_total req n : node_ok n -> last_included_index_ n = 0 ->
  exists b, prev_matches req n = (n, Ok b) /\ (b = true <-> has_prev n req).
Proof.
  intros Hok Hinc. unfold prev_matches, has_prev, kInvalidIndex. rewrite run_get, Hinc.
  destruct (last_log_index_ n <? prev_log_index req) eqn:E1; boolify.
  { exists false. split; [done|]. split; [done|]. intros [Hp|(e & He & _)]; [lia|].
    apply entry_bound in He as [? _]; [lia|done]. }
  rewrite (proj2 (N.ltb_ge (prev_log_index req) 0)) by lia. destruct (prev_log_index req =? 0) eqn:E2; boolify.
  { exists true. split; [done|]. split; [by left|done]. }
  destruct (entry_exists n (prev_log_index req) Hok) as [e He]; [lia|]. change (negb false) with true. cbv iota.
  rewrite run_bind, run_bind, (log_at_entry _ _ _ Hok He). exists (e_term e =? prev_log_term req). split; [done|].
  rewrite N.eqb_eq. split; [intros Ht; right; by exists e|]. intros [?|(e' & He' & Ht)]; [lia|]. congruence.
Qed.

(** What is left above a stored entry was there before. *)
Definition trimmed n n' (i : N) : Prop := forall j, i < j -> entry_at n' j = None \/ entry_at n' j = entry_at n j.

Lemma entry_none n i : node_ok n -> last_log_index_ n < i -> entry_at n i = None.
Proof.
  intros Hok Hi. destruct (entry_at n i) as [e|] eqn:E; [|done]. apply entry_bound in E as [? _]; [lia|done].
Qed.

(** The second half of [store_entry]: the entry is appended unless it is there. *)
Lemma append_total i e n n0 : node_ok n -> e_index e = i -> e_term e <> 0 -> i <= last_log_index_ n + 1 -> trimmed n0 n i ->
  exists n', (if last_log_index_ n <? i then
      _ ← store_update (ls_append e);
      modify (set_last_log_index i)
    else mret ()) n = (n', Ok ()) /\ trimmed n0 n' i.
Proof.
  intros Hok He Ht Hi Htr. destruct (last_log_index_ n <? i) eqn:E; boolify; [|by exists n].
  rewrite run_bind, run_store. pose proof (rs_append (log_store_ n) e (ok_store _ Hok)) as Ha.
  pose proof (ok_last n Hok) as Hl. unfold node_view in Hl. specialize (Ha ltac:(lia) Ht).
  destruct (ls_append e (log_store_ n)) as [s' r] eqn:Es. simpl in Ha. subst r.
  destruct (append_ok _ _ _ _ Hok Es) as (_ & _ & Hv). eexists. split; [done|].
  intros j Hj. left. unfold entry_at, node_view. simpl. rewrite (view_entry_eq _ _ j Hv). simpl.
  rewrite (proj2 (N.eqb_neq _ _)) by lia. apply entry_none; [done|lia].
Qed.

Lemma store_entry_total t i e n : node_ok n -> last_included_index_ n < i -> i <= last_log_index_ n + 1 ->
  e_index e = i -> e_term e = t -> t <> 0 ->
  (forall x, entry_at n i = Some x -> e_term x = t -> e_data x = e_data e) ->
  exists n', store_entry t i e n = (n', Ok ()) /\ trimmed n n' i.
Proof.
  intros Hok Hinc Hi He Het Ht Hdata. unfold store_entry. rewrite He, Het, !N.eqb_refl. change (negb true || negb true) with false. cbv iota.
  rewrite run_get, run_bind. destruct (i <=? last_log_index_ n) eqn:E; boolify.
  2:{ cbv iota. apply append_total; try done; [congruence|]. by right. }
  destruct (entry_exists n i Hok) as [x Hx]; [lia|]. rewrite run_bind, (log_at_entry _ _ _ Hok Hx).
  destruct (e_term x =? t) eqn:Ex; boolify.
  - rewrite (bool_decide_eq_true_2 (e_data x = e_data e)) by auto. cbn [negb].
    apply append_total; try done; [congruence|]. by right.
  - cbn [negb]. rewrite run_bind, run_store. pose proof (rs_truncate (log_store_ n) i (ok_store _ Hok)) as Hr.
    pose proof (ok_snap _ Hok) as Hsn. pose proof (ok_last _ Hok) as Hl. unfold node_view in Hsn, Hl.
    rewrite Hsn, Hl in Hr. simpl in Hr. specialize (Hr ltac:(lia)).
    destruct (ls_truncate_suffix i (log_store_ n)) as [s' r] eqn:Es. simpl in Hr. subst r.
    destruct (truncate_ok _ _ _ _ Hok Es) as (_ & Hk & Hv). destruct (Hk Hok) as [Hok1 _].
    pose proof (bk_fail_pending (Some i) truncated_suffix (set_last_log_index (i - 1) (set_log_store s' n))) as Hbk.
    rewrite run_modify. unfold modify. cbv beta. rewrite run_get.
    apply append_total; [by eapply node_ok_bk|done|congruence|rewrite (bk_last _ _ Hbk); simpl; lia|].
    intros j Hj. left. unfold entry_at, node_view. rewrite (bk_store _ _ Hbk). simpl.
    rewrite (view_entry_eq _ _ j Hv). simpl. by rewrite (proj2 (N.leb_le _ _)) by lia.
Qed.

Lemma store_entries_total t es : forall i n, node_ok n -> last_included_index_ n <= i -> i <= last_log_index_ n -> t <> 0 ->
  (forall k e, es !! k = Some e -> e_index e = i + 1 + N.of_nat k /\ e_term e = t /\
     forall x, entry_at n (i + 1 + N.of_nat k) = Some x -> e_term x = t -> e_data x = e_data e) ->
  exists n' m, store_entries t i es n = (n', Ok m).
Proof.
  induction es as [|e es IH]; intros i n Hok Hinc Hi Ht Hes; cbn [store_entries]; [by eexists _, _|].
  destruct (Hes 0%nat e eq_refl) as (He & Het & Hd). rewrite N.add_0_r in He, Hd.
  destruct (store_entry_total t (i + 1) e n) as (n1 & Hn1 & Htr); try done; [lia|lia|]. rewrite run_bind, Hn1.
  apply store_entry_spec in Hn1 as [[S1 S2 S3 S4 S5 S6] _]; [|done|lia|lia].
  apply IH; try done; [rewrite S5; lia|]. intros k e' Hk. destruct (Hes (S k) e' Hk) as (He' & Ht' & Hd').
  replace (i + 1 + 1 + N.of_nat k) with (i + 1 + N.of_nat (S k)) by lia. split; [done|]. split; [done|].
  intros x Hx. destruct (Htr (i + 1 + N.of_nat (S k))) as [Hn|Hn]; [lia|congruence|]. rewrite Hn in Hx. by apply Hd'.
Qed.

(** ** The leader's record of the follower never goes back *)

Definition progress (to : NodeId) n n' : Prop := idx (match_index_ n) to <= idx (match_index_ n') to.

#[local] Instance progress_preorder to : PreOrder (progress to).
Proof. split; [intros n; unfold progress; lia|]. intros a b c. unfold progress. lia. Qed.

Lemma match_finish_all ids e res n : match_index_ (finish_all ids e res n) = match_index_ n.
Proof. unfold finish_all. revert n. induction ids as [|id ids IH]; intros n; simpl; [done|]. by rewrite IH. Qed.

Lemma progress_same to n n' : match_index_ n' = match_index_ n -> progress to n n'.
Proof. unfold progress. intros ->. lia. Qed.

Lemma match_complete i res n : match_index_ (complete_applied_proposal i res n) = match_index_ n.
Proof. unfold complete_applied_proposal. by case_match. Qed.
Lemma match_fail from e n : match_index_ (fail_pending_proposals from e n) = match_index_ n.
Proof. unfold fail_pending_proposals. by rewrite match_finish_all. Qed.
Lemma match_barriers n : match_index_ (evaluate_read_barriers n) = match_index_ n.
Proof. unfold evaluate_read_barriers. by rewrite match_finish_all. Qed.
Lemma match_fail_barriers e n : match_index_ (fail_read_barriers e n) = match_index_ n.
Proof. unfold fail_read_barriers. by rewrite match_finish_all. Qed.

Ltac progress_step :=
  first
  [ rel_step
  | apply rel_modify; apply progress_same; by rewrite ?match_complete, ?match_fail, ?match_barriers, ?match_fail_barriers
  | apply rel_attempt; [apply _|by intros; apply progress_same|] ].

Lemma progress_apply_committed to n : rel_at (progress to) apply_committed n.
Proof.
  assert (Hloop : forall fuel n, rel_at (progress to) (apply_loop fuel) n).
  { induction fuel as [|fuel IH]; intros n0; cbn [apply_loop]; [apply rel_ret; apply _|].
    assert (Hrun : forall e n, rel_at (progress to) (run_apply e) n).
    { intros e n1 n' r. unfold run_apply. destruct (sm_apply _ _). intros [= <- _]. by apply progress_same. }
    unfold log_at. repeat first [apply IH | apply Hrun | progress_step]. }
  unfold apply_committed. repeat first [apply Hloop | progress_step].
Qed.

Lemma progress_insert to to' v (m : gmap NodeId N) : idx m to' <= v -> idx m to <= idx (<[to' := v]> m) to.
Proof.
  intros Hv. unfold idx in *. destruct (decide (to' = to)) as [->|Hne]; [rewrite lookup_insert_eq; simpl; lia|].
  rewrite lookup_insert_ne by done. lia.
Qed.

Lemma progress_send to to' n : rel_at (progress to) (send_append_entries to') n.
Proof.
  assert (Hsnap : forall n, rel_at (progress to) (send_snapshot to') n).
  { intros n0. unfold send_snapshot, log_at, send. repeat progress_step. apply rel_modify. unfold progress. simpl.
    apply progress_insert. lia. }
  assert (Hread : forall count i n, rel_at (progress to) (read_entries count i) n).
  { induction count as [|count IH]; intros i n0; cbn [read_entries]; [apply rel_ret; apply _|].
    unfold log_at. repeat first [apply IH | progress_step]. }
  unfold send_append_entries, log_at, send. repeat first [apply Hsnap | apply Hread | progress_step].
  apply rel_modify. unfold progress. simpl. unfold contains_or_set. destruct (match_index_ _ !! to') eqn:E; [lia|].
  apply progress_insert. unfold idx. by rewrite E.
Qed.

Lemma progress_advance to n : rel_at (progress to) advance_commit n.
Proof.
  unfold advance_commit, send_heartbeats, log_at.
  repeat first [apply progress_apply_committed | apply progress_send | progress_step].
Qed.

(** ** One exchange *)

Lemma follow_entries now t leader f f1 : node_ok f -> term f <= t -> follow_leader now t leader f = (f1, Ok ()) ->
  node_ok f1 /\ term f1 = t /\ last_log_index_ f1 = last_log_index_ f /\ last_included_index_ f1 = last_included_index_ f /\
  outbox f1 = outbox f /\ forall i, entry_at f1 i = entry_at f i.
Proof.
  intros Hok Ht Hf. destruct (follow_leader_spec _ _ _ _ _ _ Hok Ht Hf) as (Hok1 & [S1 [_ _ _ V] S3 S4 S5 S6 S7] & Hr).
  destruct (Hr eq_refl) as [Hterm _]. by split_and!.
Qed.

(** The follower has not the entry before the request's: it says so. *)
Lemma request_refused now from req f : node_ok f -> last_included_index_ f = 0 -> outbox f = [] ->
  term f <= ae_term req -> ~ has_prev f req ->
  exists f', handle_append_entries now from req f = (f', Ok ()) /\ node_ok (set_outbox [] f') /\ term f' = ae_term req /\
    last_log_index_ f' = last_log_index_ f /\ last_included_index_ f' = 0 /\ (forall i, entry_at f' i = entry_at f i) /\
    outbox f' = [(from, MsgAppendEntriesResponse
      (mkAppendEntriesResponse (ae_term req) false 0 (ae_round req) (last_log_index_ f)))].
Proof.
  intros Hok Hinc Hout Ht Hno. unfold handle_append_entries. rewrite run_get, (proj2 (N.ltb_ge _ _) Ht), run_bind.
  destruct (follow_leader_total now (ae_term req) (ae_leader_id req) f Hok) as [f1 Hf]. rewrite Hf.
  destruct (follow_entries _ _ _ _ _ Hok Ht Hf) as (Hok1 & Ht1 & Hl1 & Hi1 & Ho1 & He1).
  destruct (prev_matches_total req f1 Hok1) as (b & Hp & Hb); [congruence|]. rewrite run_bind, Hp.
  destruct b.
  { destruct Hno. destruct (proj1 Hb eq_refl) as [?|(e & He & ?)]; [by left|right]. exists e. by rewrite <- He1. }
  cbn [negb]. rewrite run_get. eexists. split; [done|]. unfold ae_response. simpl. rewrite Ho1, Hout, Hl1.
  destruct Hok1 as [O1 O2 O3 O4 O5]. split; [by split|]. split; [done|]. split; [done|]. split; [congruence|].
  split; [done|]. unfold term in *. simpl. by rewrite Ht1.
Qed.

(** It has it, and the entries are the leader's own: it stores them. *)
Lemma request_accepted now from req f : node_ok f -> last_included_index_ f = 0 -> outbox f = [] ->
  term f <= ae_term req -> has_prev f req -> ae_term req <> 0 ->
  (forall k e, ae_entries req !! k = Some e -> e_index e = prev_log_index req + 1 + N.of_nat k /\ e_term e = ae_term req /\
     forall x, entry_at f (prev_log_index req + 1 + N.of_nat k) = Some x -> e_term x = ae_term req -> e_data x = e_data e) ->
  exists f' r resp, handle_append_entries now from req f = (f', r) /\
    outbox f' = [(from, MsgAppendEntriesResponse resp)] /\ aer_success resp = true.
Proof.
  intros Hok Hinc Hout Ht Hprev Hnz Hes. unfold handle_append_entries. rewrite run_get, (proj2 (N.ltb_ge _ _) Ht), run_bind.
  destruct (follow_leader_total now (ae_term req) (ae_leader_id req) f Hok) as [f1 Hf]. rewrite Hf.
  destruct (follow_entries _ _ _ _ _ Hok Ht Hf) as (Hok1 & Ht1 & Hl1 & Hi1 & Ho1 & He1).
  destruct (prev_matches_total req f1 Hok1) as (b & Hp & Hb); [congruence|]. rewrite run_bind, Hp.
  assert (Hprev1 : has_prev f1 req) by (destruct Hprev as [?|(e & He & ?)]; [by left|right; exists e; by rewrite He1]).
  rewrite (proj2 Hb Hprev1). cbn [negb].
  assert (Hle : prev_log_index req <= last_log_index_ f1).
  { destruct Hprev1 as [->|(e & He & _)]; [lia|]. apply entry_bound in He as [? _]; [lia|done]. }
  destruct (store_entries_total (ae_term req) (ae_entries req) (prev_log_index req) f1) as (f2 & m & Hs); try done.
  { rewrite Hi1, Hinc. lia. }
  { intros k e Hk. rewrite He1. by apply Hes. }
  rewrite run_bind, Hs. apply store_entries_spec in Hs as ([_ _ _ _ _ Ho2] & _ & _); [|done|rewrite Hi1, Hinc; lia|done].
  match goal with |- context [?g f2 = _] => destruct (g f2) as [f' r] eqn:Ha end.
  exists f', r. apply accept_entries_run in Ha as [Ho _]. rewrite Ho, Ho2, Ho1, Hout. by eexists.
Qed.

(** The leader steps back and sends again. *)
Lemma leader_steps_back now to resp l next m : node_ok l -> role_ l = Leader -> last_included_index_ l = 0 -> outbox l = [] ->
  next_index_ l !! to = Some next -> match_index_ l !! to = Some m -> 1 < next <= last_log_index_ l + 1 ->
  aer_term resp = term l -> aer_success resp = false ->
  exists req, handle_append_entries_response now to resp l =
      (set_outbox [(to, MsgAppendEntries req)] (set_next_index (<[to := next - 1]> (next_index_ l)) l), Ok ()) /\
    prev_log_index req = next - 2 /\ from_log l req.
Proof.
  intros Hok Hrole Hinc Hout Hn Hm Hb Ht Hs. unfold handle_append_entries_response. rewrite run_get, Ht, N.ltb_irrefl, N.eqb_refl.
  rewrite (bool_decide_eq_true_2 _ Hrole), Hs. cbn [negb orb].
  assert (Hidx : idx (next_index_ l) to = next) by (unfold idx; by rewrite Hn). cbv zeta. rewrite Hidx.
  assert (Hmap : <[to := next]> (next_index_ l) = next_index_ l) by by apply insert_id.
  rewrite run_modify, Hmap, set_next_same. rewrite (proj2 (N.ltb_lt _ _)) by lia.
  rewrite Hinc, (proj2 (N.ltb_ge _ _)), run_modify by lia. set (l1 := set_next_index _ l).
  assert (Hok1 : node_ok l1) by (destruct Hok; by split).
  destruct (send_total to l1 (next - 1) m Hok1) as (req & Hsend & Hprev); [done|simpl; by rewrite lookup_insert_eq|done|simpl; lia|].
  exists req. unfold attempt. rewrite Hsend. simpl. rewrite Hout. split; [done|]. split; [lia|].
  assert (Hlog : from_log l1 req) by (eapply send_append_entries_spec; [exact Hok1|done|exact Hsend|simpl; rewrite Hout; left]).
  destruct Hlog as [F1 F2 F3 F4 F5 F6 F7]. by split.
Qed.

(** The leader notes how far the follower is. *)
Lemma leader_records now to resp l : role_ l = Leader -> aer_term resp = term l -> aer_success resp = true ->
  aer_match_index resp <= idx (match_index_ (handle_append_entries_response now to resp l).1) to.
Proof.
  intros Hrole Ht Hs. unfold handle_append_entries_response. rewrite run_get, Ht, N.ltb_irrefl, N.eqb_refl.
  rewrite (bool_decide_eq_true_2 _ Hrole), Hs. cbn [negb orb]. cbv zeta. rewrite !run_modify.
  set (l1 := set_peer_acked_round _ _).
  assert (Hm1 : aer_match_index resp <= idx (match_index_ l1) to) by (unfold l1, idx at 1; simpl; rewrite lookup_insert_eq; simpl; lia).
  match goal with |- context [(?g l1).1] => assert (Hp : rel_at (progress to) g l1) end.
  { repeat first [apply progress_advance | apply progress_send | progress_step]. }
  match goal with |- context [(?g l1).1] => destruct (g l1) as [l2 r] eqn:E end. apply Hp in E. unfold progress in E. simpl. lia.
Qed.

(** ** The conversation *)

Definition requests_to (to : NodeId) (out : list (NodeId * Message)) : list AppendEntriesRequest :=
  omap (fun p => match p with (i, MsgAppendEntries r) => if i =? to then Some r else None | _ => None end) out.
Definition answers_to (to : NodeId) (out : list (NodeId * Message)) : list AppendEntriesResponse :=
  omap (fun p => match p with (i, MsgAppendEntriesResponse r) => if i =? to then Some r else None | _ => None end) out.

(** The leader's last request is delivered, and the answer to it. *)
Definition round (to : NodeId) (w : node * node) (now : N) : node * node :=
  let '(l, f) := w in
  match last (requests_to to (outbox l)) with
  | None => w
  | Some req =>
      let f' := (handle_message now (self l) (MsgAppendEntries req) (set_outbox [] f)).1 in
      match last (answers_to (self l) (outbox f')) with
      | None => (set_outbox [] l, f')
      | Some resp => ((handle_message now to (MsgAppendEntriesResponse resp) (set_outbox [] l)).1, f')
      end
  end.

Definition converse (to : NodeId) (times : list N) (w : node * node) : node * node := fold_left (round to) times w.

(** The two nodes have not compacted their logs, agree at position [c] (the start
    if [c] is 0), and what the leader has after [c] is of its own term; where the
    logs have an entry of the same term they agree up to there. *)
Record behind (to : NodeId) (c : N) l f : Prop := {
  bh_leader : node_ok l;
  bh_follower : node_ok f;
  bh_role : role_ l = Leader;
  bh_term : term f <= term l /\ term l <> 0;
  bh_whole : last_included_index_ l = 0 /\ last_included_index_ f = 0;
  bh_match : is_Some (match_index_ l !! to);
  bh_common : c = 0 \/ exists e, entry_at l c = Some e /\ entry_at f c = Some e;
  bh_own : forall j e, c < j -> entry_at l j = Some e -> e_term e = term l;
  bh_logs : forall i j x y, entry_at l j = Some x -> entry_at f j = Some y -> e_term x = e_term y ->
    0 < i <= j -> entry_at f i = entry_at l i }.

(** The leader's request for position [next] is on its way. *)
Record asking (to : NodeId) (c next : N) l f : Prop := {
  ak_behind : behind to c l f;
  ak_next : next_index_ l !! to = Some next;
  ak_bound : c < next <= last_log_index_ l + 1;
  ak_sent : exists req, outbox l = [(to, MsgAppendEntries req)] /\ prev_log_index req = next - 1 /\ from_log l req }.

(** The follower has the leader's log, and the leader knows. *)
Definition caught_up (to : NodeId) l0 (w : node * node) : Prop :=
  last_log_index_ l0 <= idx (match_index_ w.1) to /\
  forall i, 0 < i <= last_log_index_ l0 -> is_Some (entry_at l0 i) /\ entry_at w.2 i = entry_at l0 i.

Lemma node_ok_out o n : node_ok n -> node_ok (set_outbox o n).
Proof. intros [O1 O2 O3 O4 O5]. by split. Qed.

(** The request meets the follower's log where the logs agree. *)
Lemma asked_prev to c next l f req : behind to c l f -> from_log l req -> prev_log_index req = next - 1 ->
  c < next <= last_log_index_ l + 1 -> has_prev f req ->
  forall i, 0 < i <= prev_log_index req -> entry_at f i = entry_at l i.
Proof.
  intros Hb Hlog Hp Hc Hprev i Hi. destruct Hprev as [?|(y & Hy & Hyt)]; [lia|].
  pose proof (fl_prev _ _ Hlog) as Ha. unfold prev_agrees in Ha. specialize (Ha ltac:(lia)).
  destruct (bh_whole _ _ _ _ Hb) as [Hw _]. rewrite Hw, (proj2 (N.eqb_neq _ _)) in Ha by lia.
  destruct Ha as (x & Hx & Hxt). eapply (bh_logs _ _ _ _ Hb); [exact Hx|exact Hy|congruence|done].
Qed.

Lemma round_accepts to c next l f now req : asking to c next l f -> outbox l = [(to, MsgAppendEntries req)] ->
  prev_log_index req = next - 1 -> from_log l req -> has_prev f req -> caught_up to l (round to (l, f) now).
Proof.
  intros [Hb Hn Hc _] Hout Hp Hlog Hprev. pose proof Hb as [B1 B2 B3 [B4 B4'] [B5 B5'] B6 B7 B8 B9].
  destruct (request_accepted now (self l) req (set_outbox [] f)) as (f' & r & resp & Hh & Ho & Hsu).
  - by apply node_ok_out.
  - done.
  - done.
  - rewrite (fl_term _ _ Hlog). done.
  - done.
  - by rewrite (fl_term _ _ Hlog).
  - intros k e Hk. pose proof (fl_entries _ _ Hlog k e Hk) as He. destruct (entry_bound _ _ _ B1 He) as [_ Hi].
    rewrite (fl_term _ _ Hlog). split; [done|]. pose proof (B8 (prev_log_index req + 1 + N.of_nat k) e ltac:(lia) He) as Het. split; [done|].
    intros x Hx Hxt. change (entry_at (set_outbox [] f) ?i) with (entry_at f i) in Hx.
    assert (Heq : entry_at f (prev_log_index req + 1 + N.of_nat k) = entry_at l (prev_log_index req + 1 + N.of_nat k)).
    { eapply B9; [exact He|exact Hx|congruence|lia]. }
    unfold entry_at in *. congruence.
  - unfold round. rewrite Hout. simpl. rewrite N.eqb_refl. simpl. unfold attempt. rewrite Hh.
    assert (Hfst : forall f1 : node, f1 = (match r with Ok _ => (f', Ok ()) | Err e => (set_last_error (Some e) f', Ok ()) end : node * result Error unit).1 ->
      outbox f1 = outbox f' /\ forall i, entry_at f1 i = entry_at f' i) by (intros f1 ->; by destruct r as [[]|]).
    destruct (match r with Ok _ => _ | Err e => _ end) as [f1 r1] eqn:Ef. simpl in *.
    destruct (Hfst f1 eq_refl) as [Ho1 He1]. rewrite Ho1, Ho. simpl. rewrite N.eqb_refl. simpl.
    assert (Hok0 : node_ok (set_outbox [] f)) by by apply node_ok_out.
    destruct (append_success_spec now (self l) req (set_outbox [] f) f' r resp Hok0 eq_refl Hh) as (_ & Ht' & _ & Hresp & Hes & Hlow & _);
      [rewrite Ho; left|done|].
    split.
    + simpl. etransitivity; [|apply leader_records]; [|done|subst resp; simpl; apply Hlog|done].
      rewrite Hresp. simpl. rewrite (fl_end _ _ Hlog). done.
    + intros i Hi. split; [apply entry_exists; [done|lia]|]. simpl. rewrite He1.
      destruct (decide (i <= prev_log_index req)) as [Hle|Hgt].
      * unfold entry_at at 1. rewrite (Hlow i Hle). apply (asked_prev to c next l f req); try done; lia.
      * destruct (last_of_request _ _ i Hlog) as (e & Hk & He); [lia|]. unfold entry_at. rewrite He.
        destruct (Hes _ _ Hk) as [_ <-]. f_equal. lia.
Qed.

Lemma common_prev to c next l f req : behind to c l f -> from_log l req -> prev_log_index req = next - 1 ->
  c < next -> ~ has_prev f req -> c + 1 < next.
Proof.
  intros Hb Hlog Hp Hc Hno. destruct (decide (next = c + 1)) as [->|]; [|lia]. destruct Hno. unfold has_prev.
  replace (prev_log_index req) with c by lia. destruct (bh_common _ _ _ _ Hb) as [->|(e & He & Hf)]; [by left|right].
  exists e. split; [done|]. pose proof (fl_prev _ _ Hlog) as Ha. unfold prev_agrees in Ha.
  destruct (entry_bound _ _ _ (bh_leader _ _ _ _ Hb) He) as [Hbd _]. specialize (Ha ltac:(lia)).
  destruct (bh_whole _ _ _ _ Hb) as [Hw _]. rewrite Hw, (proj2 (N.eqb_neq _ _)) in Ha by lia.
  destruct Ha as (x & Hx & Hxt). replace (prev_log_index req) with c in Hx by lia. unfold entry_at in He. congruence.
Qed.

Lemma round_refuses to c next l f now req : asking to c next l f -> outbox l = [(to, MsgAppendEntries req)] ->
  prev_log_index req = next - 1 -> from_log l req -> ~ has_prev f req ->
  let w := round to (l, f) now in
  asking to c (next - 1) w.1 w.2 /\ last_log_index_ w.1 = last_log_index_ l /\ forall i, entry_at w.1 i = entry_at l i.
Proof.
  intros [Hb Hn Hc _] Hout Hp Hlog Hno w. pose proof Hb as [B1 B2 B3 [B4 B4'] [B5 B5'] [m B6] B7 B8 B9].
  pose proof (common_prev _ _ _ _ _ _ Hb Hlog Hp (proj1 Hc) Hno) as Hc1.
  destruct (request_refused now (self l) req (set_outbox [] f)) as (f' & Hh & Hokf & Htf & Hlf & Hif & Hef & Hof);
    [by apply node_ok_out|done|done|by rewrite (fl_term _ _ Hlog)|done|].
  set (resp := mkAppendEntriesResponse (ae_term req) false 0 (ae_round req) (last_log_index_ (set_outbox [] f))) in Hof.
  destruct (leader_steps_back now to resp (set_outbox [] l) next m) as (req' & Hl & Hp' & Hlog');
    [by apply node_ok_out|done|done|done|done|done|simpl; lia|simpl; apply Hlog|done|].
  assert (Hw : w = (set_outbox [(to, MsgAppendEntries req')] (set_next_index (<[to := next - 1]> (next_index_ l)) l), f')).
  { unfold w, round. rewrite Hout. simpl. rewrite N.eqb_refl. simpl. unfold attempt. rewrite Hh. cbn [fst snd].
    rewrite Hof. simpl. rewrite N.eqb_refl. simpl. by rewrite Hl. }
  rewrite Hw. simpl. destruct Hlog' as [F1 F2 F3 F4 F5 F6 F7].
  split; [|by split]. split; [|simpl; by rewrite lookup_insert_eq|simpl; lia|].
  - split.
    + destruct B1 as [O1 O2 O3 O4 O5]. by split.
    + destruct Hokf as [O1 O2 O3 O4 O5]. by split.
    + done.
    + split; [|done]. rewrite Htf, (fl_term _ _ Hlog). by rewrite N.le_lteq; right.
    + done.
    + by exists m.
    + destruct B7 as [?|(e & He & Hf)]; [by left|right]. exists e. split; [done|]. by rewrite Hef.
    + done.
    + intros i j x y Hx Hy. rewrite Hef in Hy |- *. by apply B9 with (j := j).
  - exists req'. split; [done|]. split; [lia|]. by split.
Qed.

Lemma conversation_ends to c fuel : forall next l f times, asking to c next l f -> (N.to_nat (next - c) <= fuel)%nat ->
  (fuel <= length times)%nat -> exists k, (k <= fuel)%nat /\ caught_up to l (converse to (take k times) (l, f)).
Proof.
  induction fuel as [|fuel IH]; intros next l f times Ha Hn Hlen; pose proof Ha as [_ _ Hc (req & Hout & Hp & Hlog)]; [lia|].
  destruct times as [|now times]; simpl in Hlen; [lia|].
  destruct (prev_matches_total req f (bh_follower _ _ _ _ (ak_behind _ _ _ _ _ Ha))) as (b & _ & Hb);
    [apply (ak_behind _ _ _ _ _ Ha)|]. destruct b.
  { apply proj1 in Hb. specialize (Hb eq_refl). exists 1%nat. split; [lia|]. simpl. by eapply round_accepts. }
  assert (Hno : ~ has_prev f req) by (by intros Hx%Hb).
  pose proof (common_prev _ _ _ _ _ _ (ak_behind _ _ _ _ _ Ha) Hlog Hp (proj1 Hc) Hno) as Hc1.
  destruct (round_refuses to c next l f now req Ha Hout Hp Hlog Hno) as (Ha' & Hlast & Hsame).
  destruct (IH (next - 1) _ _ times Ha') as (k & Hk & [Hm Hlogs]); [lia|lia|]. exists (S k). split; [lia|].
  cbn [take converse fold_left]. rewrite <- surjective_pairing in Hm, Hlogs. rewrite Hlast in Hm, Hlogs.
  split; [done|]. intros i Hi. destruct (Hlogs i Hi) as [Hs He]. rewrite Hsame in Hs, He. done.
Qed.

Lemma sending_asks to c next l f : behind to c l f -> outbox l = [] -> next_index_ l !! to = Some next ->
  c < next <= last_log_index_ l + 1 ->
  let l' := (send_append_entries to l).1 in
  asking to c next l' f /\ last_log_index_ l' = last_log_index_ l /\ forall i, entry_at l' i = entry_at l i.
Proof.
  intros Hb Hout Hn Hc l'. pose proof Hb as [B1 B2 B3 B4 [B5 B5'] [m B6] B7 B8 B9].
  destruct (send_total to l next m B1 B5 Hn B6) as (req & Hs & Hp); [lia|].
  assert (Hlog : from_log l req) by (eapply send_append_entries_spec; [exact B1|done|exact Hs|simpl; rewrite Hout; left]).
  unfold l'. rewrite Hs, Hout. simpl. split; [|done]. split; [|done|done|].
  - split; try done; first [by apply node_ok_out | by exists m].
  - exists req. split; [done|]. split; [done|]. destruct Hlog as [F1 F2 F3 F4 F5 F6 F7]. by split.
Qed.

(** C37: a follower that is behind catches up. A leader and a follower of no later
    term have logs that neither has compacted, that match (where both have an
    entry of the same term they agree up to there) and agree at position [c],
    after which the leader has only entries of its own term; the leader, with
    nothing else to send, tries [next] first, which is after [c] and at most one
    past its log. They converse over a connection that delivers, with log stores
    that do not fail. Then after at most [next - c] exchanges the follower holds
    the whole log of the leader, whatever it had after [c], and the leader knows
    that it does. *)
Theorem follower_catches_up to c next l f times : behind to c l f -> outbox l = [] ->
  next_index_ l !! to = Some next -> c < next <= last_log_index_ l + 1 -> (N.to_nat (next - c) <= length times)%nat ->
  exists k, (k <= N.to_nat (next - c))%nat /\ caught_up to l (converse to (take k times) ((send_append_entries to l).1, f)).
Proof.
  intros Hb Hout Hn Hc Hlen. destruct (sending_asks to c next l f Hb Hout Hn Hc) as (Ha & Hlast & Hsame).
  destruct (conversation_ends to c _ next _ f times Ha (le_n _) Hlen) as (k & Hk & Hm & Hlogs). exists k. split; [done|].
  rewrite Hlast in Hm, Hlogs. split; [done|]. intros i Hi. destruct (Hlogs i Hi) as [Hs He]. rewrite Hsame in Hs, He. done.
Qed.
End Liveness.

(** ** Example

    Node 1 leads in term 1 with its first entry at position 1; it believes that
    node 2, whose log is empty, has it. *)

Definition ahead_leader : demo_node := set_next_index (<[2 := 2]> (next_index_ (demo_at 1))) (demo_at 1).
Definition empty_follower : demo_node := demo_at 2.

Lemma node_ok_next m (n : demo_node) : node_ok n -> node_ok (set_next_index m n).
Proof. intros [O1 O2 O3 O4 O5]. by split. Qed.

Lemma memory_entries {SM} `{StateMachine SM} (n : RaftNode MemoryLogStore SM) es j :
  entries_ (log_store_ n) = es -> snapshot_meta_ (log_store_ n) = no_snapshot ->
  entry_at n j = if j =? 0 then None else es !! N.to_nat (j - 1).
Proof.
  intros <- Hm. unfold entry_at, node_view. simpl. unfold ml_entry. rewrite Hm. simpl. rewrite N.sub_0_r.
  destruct (j =? 0) eqn:E; boolify; [by subst|]. by rewrite (proj2 (N.leb_gt _ _)) by lia.
Qed.

Lemma ahead_log : entries_ (log_store_ ahead_leader) = [mkLogEntry 1 1 []] /\ snapshot_meta_ (log_store_ ahead_leader) = no_snapshot.
Proof. vm_compute. split; reflexivity. Qed.
Lemma empty_log : entries_ (log_store_ empty_follower) = [] /\ snapshot_meta_ (log_store_ empty_follower) = no_snapshot.
Proof. vm_compute. split; reflexivity. Qed.

Lemma follower_catches_up_witness :
  exists k, (k <= 2)%nat /\ caught_up 2 ahead_leader (converse 2 (take k [10; 20]) ((send_append_entries 2 ahead_leader).1, empty_follower)).
Proof.
  apply (follower_catches_up 2 0 2 ahead_leader empty_follower [10; 20]).
  - split.
    + apply node_ok_next. apply demo_at_ok. left.
    + apply demo_at_ok. right. left.
    + vm_compute. reflexivity.
    + vm_compute. split; discriminate.
    + vm_compute. split; reflexivity.
    + vm_compute. eexists. reflexivity.
    + left. reflexivity.
    + intros j e _ He. rewrite (memory_entries _ _ _ (proj1 ahead_log) (proj2 ahead_log)) in He.
      assert (Ht : term ahead_leader = 1) by (vm_compute; reflexivity). rewrite Ht.
      destruct (j =? 0); [discriminate He|]. destruct (N.to_nat (j - 1)); [|discriminate He]. injection He as <-. reflexivity.
    + intros i j x y _ Hy. rewrite (memory_entries _ _ _ (proj1 empty_log) (proj2 empty_log)) in Hy.
      destruct (j =? 0); discriminate Hy.
  - reflexivity.
  - vm_compute. reflexivity.
  - vm_compute. split; [reflexivity|discriminate].
  - vm_compute. lia.
Defined.
