(* ===== verification/SqlTypes.v ===== *)
(** * SQL data types and values: [sql_types/field_type.h], [sql_types/value.h]

    The type lattice (families, widths, promotion), the range checks of the
    schema layer, and [Value]. *)

From S2P Require Import Prelude Bytes.
Local Open Scope Z_scope.

(** ** [enum class DataType] *)

Inductive DataType :=
| TINYINT | SMALLINT | INT | BIGINT
| CHAR | VARCHAR | TEXT
| BOOLEAN
| DATE | TIME | DATETIME
| NULL_TYPE | UNKNOWN_TYPE.

#[export] Instance DataType_eq_dec : EqDecision DataType.
Proof. solve_decision. Defined.

Inductive DataTypeFamily := F_INTEGER | F_STRING | F_BOOLEAN | F_TEMPORAL | UNKNOWN_FAMILY.

#[export] Instance DataTypeFamily_eq_dec : EqDecision DataTypeFamily.
Proof. solve_decision. Defined.

Definition is_integer (t : DataType) : bool :=
  match t with TINYINT | SMALLINT | INT | BIGINT => true | _ => false end.
Definition is_string (t : DataType) : bool :=
  match t with CHAR | VARCHAR | TEXT => true | _ => false end.
Definition is_boolean (t : DataType) : bool :=
  match t with BOOLEAN => true | _ => false end.
Definition is_temporal (t : DataType) : bool :=
  match t with DATE | TIME | DATETIME => true | _ => false end.
Definition is_numeric (t : DataType) : bool := is_integer t || is_boolean t.
Definition is_null_type (t : DataType) : bool :=
  match t with NULL_TYPE | UNKNOWN_TYPE => true | _ => false end.
Definition is_orderable (t : DataType) : bool :=
  is_integer t || is_string t || is_boolean t || is_temporal t.

Definition get_type_family (t : DataType) : DataTypeFamily :=
  if is_integer t then F_INTEGER
  else if is_string t then F_STRING
  else if is_boolean t then F_BOOLEAN
  else if is_temporal t then F_TEMPORAL
  else UNKNOWN_FAMILY.

(** ** Widths and ranges *)

Definition integer_bytes (t : DataType) : Z :=
  match t with TINYINT => 1 | SMALLINT => 2 | INT => 4 | BIGINT => 8 | _ => 0 end.

Definition int32_min : Z := -2147483648.
Definition int32_max : Z := 2147483647.
Definition int64_min : Z := -9223372036854775808.
Definition int64_max : Z := 9223372036854775807.

(** [int64_t] values. *)
Definition i64 (v : Z) : Prop := int64_min <= v <= int64_max.

Definition integer_min (t : DataType) : Z :=
  match integer_bytes t with
  | 1 => -128 | 2 => -32768 | 4 => int32_min | 8 => int64_min | _ => 0
  end.
Definition integer_max (t : DataType) : Z :=
  match integer_bytes t with
  | 1 => 127 | 2 => 32767 | 4 => int32_max | 8 => int64_max | _ => 0
  end.

Definition kDateMinDays : Z := -719162.
Definition kDateMaxDays : Z := 2932896.
Definition kTimeMinSeconds : Z := 0.
Definition kTimeMaxSeconds : Z := 86399.
Definition kSecondsPerDay : Z := 86400.
Definition kDateTimeMinSeconds : Z := kDateMinDays * kSecondsPerDay.
Definition kDateTimeMaxSeconds : Z := kDateMaxDays * kSecondsPerDay + kTimeMaxSeconds.

Definition kMaxCharLength : N := 255.
Definition kMaxVarcharLength : N := 65535.
Definition kMaxTextLength : N := 65535.

Definition string_capacity (t : DataType) (declared_length : N) : N :=
  match t with
  | CHAR => if (declared_length =? 0)%N then kMaxCharLength else declared_length
  | VARCHAR => if (declared_length =? 0)%N then kMaxVarcharLength else declared_length
  | TEXT => kMaxTextLength
  | _ => 0
  end.

Definition can_represent_length (t : DataType) (declared_length byte_length : N) : bool :=
  (byte_length <=? string_capacity t declared_length)%N.

Definition common_string_capacity (a : DataType) (a_length : N) (b : DataType) (b_length : N) : N :=
  let cap_a := string_capacity a a_length in
  let cap_b := string_capacity b b_length in
  if (cap_b <=? cap_a)%N then cap_a else cap_b.

Definition can_represent (t : DataType) (v : Z) : bool :=
  if is_integer t then (integer_min t <=? v) && (v <=? integer_max t)
  else if is_boolean t then (v =? 0) || (v =? 1)
  else match t with
       | DATE => (kDateMinDays <=? v) && (v <=? kDateMaxDays)
       | TIME => (kTimeMinSeconds <=? v) && (v <=? kTimeMaxSeconds)
       | DATETIME => (kDateTimeMinSeconds <=? v) && (v <=? kDateTimeMaxSeconds)
       | _ => true
       end.

(** ** Families and promotion *)

Definition is_same_family (a b : DataType) : bool :=
  if bool_decide (a = b) then true
  else if is_integer a && is_integer b then true
  else if is_string a && is_string b then true
  else is_temporal a && is_temporal b.

Definition common_type (a b : DataType) : DataType :=
  if bool_decide (a = b) then a
  else if is_integer a && is_integer b then
    if integer_bytes b <=? integer_bytes a then a else b
  else if is_boolean a && is_integer b then b
  else if is_integer a && is_boolean b then a
  else if is_boolean a && is_boolean b then BOOLEAN
  else if is_string a && is_string b then
    if bool_decide (a = TEXT) || bool_decide (b = TEXT) then TEXT else VARCHAR
  else if is_temporal a && is_temporal b then
    if bool_decide (a = TIME) || bool_decide (b = TIME) then
      if bool_decide (a = b) then a else UNKNOWN_TYPE
    else DATETIME
  else UNKNOWN_TYPE.

(** ** Text to integer

    [std::from_chars] in base 10 on a [char] range: an optional minus sign,
    then at least one digit; it stops at the first other character and fails
    without a digit or when the number does not fit [int64_t]. *)
Definition digit_of (c : byte) : option Z :=
  let n := Z.of_N (Byte.to_N c) in
  if (48 <=? n) && (n <=? 57) then Some (n - 48) else None.

Fixpoint take_digits (acc : Z) (s : bytes) : Z * bytes :=
  match s with
  | [] => (acc, [])
  | c :: s' => match digit_of c with Some d => take_digits (acc * 10 + d) s' | None => (acc, s) end
  end.

Definition from_chars (s : bytes) : option (Z * bytes) :=
  let '(neg, body) := match s with c :: s' => if bool_decide (c = "-"%byte) then (true, s') else (false, s)
                               | [] => (false, []) end in
  match body with
  | [] => None
  | c :: _ =>
      match digit_of c with
      | None => None
      | Some _ =>
          let '(n, rest) := take_digits 0 body in
          let v := if neg then - n else n in
          if (int64_min <=? v) && (v <=? int64_max) then Some (v, rest) else None
      end
  end.

Definition parse_int64_strict (text : bytes) : option Z :=
  match text with
  | [] => None
  | c :: rest =>
      let digits := if bool_decide (c = "+"%byte) || bool_decide (c = "-"%byte) then rest else text in
      match digits with
      | [] => None
      | _ => match from_chars digits with
             | Some (v, []) => Some v
             | _ => None
             end
      end
  end.

Lemma digit_not_sign c d : digit_of c = Some d -> c <> "+"%byte /\ c <> "-"%byte.
Proof. intros H. split; intros ->; discriminate H. Qed.

(** The sign of an integer text is dropped. [parse_int64_strict] skips a
    leading sign and converts what follows, so the text of a negative number
    reads as its absolute value; only a doubled sign gives a negative number. *)
Theorem parse_int64_drops_sign c s :
  digit_of c <> None ->
  parse_int64_strict ("-"%byte :: c :: s) = parse_int64_strict (c :: s) /\
  parse_int64_strict (bytes_of_string "-5") = Some 5 /\
  parse_int64_strict (bytes_of_string "--5") = Some (-5).
Proof.
  intros Hc. split; [|split; vm_compute; reflexivity].
  destruct (digit_of c) as [d|] eqn:E; [|done]. destruct (digit_not_sign _ _ E) as [Hp Hm].
  unfold parse_int64_strict.
  rewrite (bool_decide_eq_true_2 ("-"%byte = "-"%byte)) by done. rewrite orb_true_r.
  by rewrite (bool_decide_eq_false_2 (c = _)), (bool_decide_eq_false_2 (c = _)).
Qed.

Lemma parse_int64_drops_sign_witness :
  parse_int64_strict (bytes_of_string "-42") = parse_int64_strict (bytes_of_string "42").
Proof. apply (parse_int64_drops_sign "4"%byte [("2"%byte)]). discriminate. Defined.

(** ** [class Value]

    The storage variant always matches the logical type: [int64_t] for the
    integer and temporal types, a string for the string types. The types of
    the two payloads are therefore their own enumerations, embedded in
    [DataType]. *)

Inductive Int64Type := I_TINYINT | I_SMALLINT | I_INT | I_BIGINT | I_DATE | I_TIME | I_DATETIME.
Inductive StringType := S_CHAR | S_VARCHAR | S_TEXT.

#[export] Instance Int64Type_eq_dec : EqDecision Int64Type.
Proof. solve_decision. Defined.
#[export] Instance StringType_eq_dec : EqDecision StringType.
Proof. solve_decision. Defined.

Definition of_int64_type (t : Int64Type) : DataType :=
  match t with
  | I_TINYINT => TINYINT | I_SMALLINT => SMALLINT | I_INT => INT | I_BIGINT => BIGINT
  | I_DATE => DATE | I_TIME => TIME | I_DATETIME => DATETIME
  end.
Definition of_string_type (t : StringType) : DataType :=
  match t with S_CHAR => CHAR | S_VARCHAR => VARCHAR | S_TEXT => TEXT end.

Inductive Value :=
| VNull
| VInt (t : Int64Type) (v : Z)
| VBool (b : bool)
| VStr (t : StringType) (s : bytes).

#[export] Instance Value_eq_dec : EqDecision Value.
Proof. solve_decision. Defined.

Definition type_of (v : Value) : DataType :=
  match v with
  | VNull => NULL_TYPE
  | VInt t _ => of_int64_type t
  | VBool _ => BOOLEAN
  | VStr t _ => of_string_type t
  end.

Definition is_null (v : Value) : bool := is_null_type (type_of v).
Definition is_int (v : Value) : bool := is_integer (type_of v).

(** [Value::operator==]: equality inside a family. *)
Definition value_eqb (a b : Value) : bool :=
  if is_null a || is_null b then is_null a && is_null b
  else if is_temporal (type_of a) || is_temporal (type_of b) then
    bool_decide (type_of a = type_of b) &&
    match a, b with VInt _ x, VInt _ y => x =? y | _, _ => false end
  else if negb (bool_decide (get_type_family (type_of a) = get_type_family (type_of b))) then false
  else match a, b with
       | VInt _ x, VInt _ y => x =? y
       | VBool x, VBool y => Bool.eqb x y
       | VStr _ x, VStr _ y => bytes_eqb x y
       | _, _ => false
       end.

Definition is_truthy (v : Value) : bool :=
  match v with
  | VNull => false
  | VInt _ x => negb (x =? 0)
  | VBool b => b
  | VStr _ s => negb (bool_decide (s = []))
  end.

(** The payload of an integer or temporal value is an [int64_t]. *)
Definition value_wf (v : Value) : Prop :=
  match v with VInt _ x => i64 x | _ => True end.

#[export] Instance value_wf_dec v : Decision (value_wf v).
Proof. destruct v; simpl; unfold i64; apply _. Defined.

(** [Value::operator==] is an equivalence relation. *)
Lemma value_eqb_refl v : value_eqb v v = true.
Proof.
  destruct v as [|t x|b|t s]; simpl; [done|destruct t|destruct b|destruct t]; unfold value_eqb;
    simpl; rewrite ?Z.eqb_refl, ?bytes_eqb_refl; done.
Qed.

Lemma value_eqb_sym a b : value_eqb a b = value_eqb b a.
Proof.
  destruct a as [|t x|p|t s], b as [|u y|q|u r]; try destruct t; try destruct u; try done;
    unfold value_eqb; simpl; rewrite ?(Z.eqb_sym x y); try done.
  all: try (destruct p, q; done).
  all: unfold bytes_eqb; apply bool_decide_ext; split; congruence.
Qed.
