(* ===== verification/Temporal.v ===== *)
(** * Dates and times: [sql_types/temporal.cpp]

    Conversion between civil dates and day numbers, and the text formats.
    [unsigned] intermediate values are reduced modulo [2^32]; [int64_t]
    division truncates. Day and second counts are unbounded here: the values
    the schema admits ([can_represent]) are far from the [int64_t] limits. *)

From S2P Require Import Prelude Bytes SqlTypes.
Local Open Scope Z_scope.

Definition to_unsigned (z : Z) : Z := z mod 4294967296.

Definition is_leap_year (year : Z) : bool :=
  ((Z.rem year 4 =? 0) && negb (Z.rem year 100 =? 0)) || (Z.rem year 400 =? 0).

Definition kDays : list Z := [31; 28; 31; 30; 31; 30; 31; 31; 30; 31; 30; 31].

Definition days_in_month (year month : Z) : Z :=
  if (month <? 1) || (12 <? month) then 0
  else if (month =? 2) && is_leap_year year then 29
  else default 0 (kDays !! Z.to_nat (month - 1)).

Definition days_from_civil (y m d : Z) : Z :=
  let y := y - (if m <=? 2 then 1 else 0) in
  let era := Z.quot (if 0 <=? y then y else y - 399) 400 in
  let yoe := to_unsigned (y - era * 400) in
  let doy := to_unsigned
    (to_unsigned (153 * to_unsigned (m + (if 2 <? m then -3 else 9)) + 2) / 5 + d - 1) in
  let doe := to_unsigned (yoe * 365 + yoe / 4 - yoe / 100 + doy) in
  era * 146097 + doe - 719468.

Definition civil_from_days (days : Z) : Z * Z * Z :=
  let days := days + 719468 in
  let era := Z.quot (if 0 <=? days then days else days - 146096) 146097 in
  let doe := to_unsigned (days - era * 146097) in
  let yoe := to_unsigned (doe - doe / 1460 + doe / 36524 - doe / 146096) / 365 in
  let y := yoe + era * 400 in
  let doy := to_unsigned (doe - to_unsigned (365 * yoe + yoe / 4 - yoe / 100)) in
  let mp := to_unsigned (5 * doy + 2) / 153 in
  let day := to_unsigned (doy - to_unsigned (153 * mp + 2) / 5 + 1) in
  let month := to_unsigned (mp + (if mp <? 10 then 3 else -9)) in
  (y + (if month <=? 2 then 1 else 0), month, day).

(** ** Text *)

Definition digit_char (d : Z) : byte := byte_of_N (Z.to_N (d + 48)).

(** The digits of a non-negative number; [fuel] bounds their count. *)
Fixpoint dec_digits (fuel : nat) (n : Z) : bytes :=
  match fuel with
  | O => []
  | S fuel' => (if n <? 10 then [] else dec_digits fuel' (n / 10)) ++ [digit_char (n mod 10)]
  end.

Definition zeros (n : nat) : bytes := replicate n "0"%byte.

(** [snprintf(buf, 8, "%0<width>lld", v)] *)
Definition pad (width : nat) (v : Z) : bytes :=
  let digits := dec_digits 20 (Z.abs v) in
  take 7 (if v <? 0 then "-"%byte :: zeros (width - 1 - length digits) ++ digits
          else zeros (width - length digits) ++ digits).
Definition pad2 : Z -> bytes := pad 2.
Definition pad4 : Z -> bytes := pad 4.

Fixpoint read_digits_loop (acc : Z) (count : nat) (s : bytes) : option Z :=
  match count with
  | O => Some acc
  | S count' =>
      match s with
      | [] => None
      | c :: s' => match digit_of c with Some d => read_digits_loop (acc * 10 + d) count' s' | None => None end
      end
  end.
Definition read_digits (s : bytes) (pos count : nat) : option Z :=
  if (length s <? pos + count)%nat then None else read_digits_loop 0 count (drop pos s).
Definition read_separator (s : bytes) (pos : nat) (expected : byte) : bool :=
  match s !! pos with Some c => bool_decide (c = expected) | None => false end.

Definition parse_date (text : bytes) : option Z :=
  if negb (length text =? 10)%nat then None
  else match read_digits text 0 4 with
  | None => None
  | Some year =>
  if negb (read_separator text 4 "-"%byte) then None
  else match read_digits text 5 2 with
  | None => None
  | Some month =>
  if negb (read_separator text 7 "-"%byte) then None
  else match read_digits text 8 2 with
  | None => None
  | Some day =>
      if (month <? 1) || (12 <? month) || (day <? 1) || (days_in_month year month <? day) then None
      else
        let days := days_from_civil year month day in
        if (days <? kDateMinDays) || (kDateMaxDays <? days) then None else Some days
  end end end.

Definition parse_time (text : bytes) : option Z :=
  if negb (length text =? 5)%nat && negb (length text =? 8)%nat then None
  else match read_digits text 0 2 with
  | None => None
  | Some hour =>
  if negb (read_separator text 2 ":"%byte) then None
  else match read_digits text 3 2 with
  | None => None
  | Some minute =>
      let second :=
        if (length text =? 8)%nat then
          if negb (read_separator text 5 ":"%byte) then None else read_digits text 6 2
        else Some 0 in
      match second with
      | None => None
      | Some second =>
          if (hour <? 0) || (23 <? hour) || (minute <? 0) || (59 <? minute) ||
             (second <? 0) || (59 <? second) then None
          else Some (hour * 3600 + minute * 60 + second)
      end
  end end.

Definition parse_datetime (text : bytes) : option Z :=
  if (length text <? 16)%nat then None
  else match parse_date (take 10 text) with
  | None => None
  | Some days =>
      match text !! 10%nat with
      | Some sep =>
          if negb (bool_decide (sep = " "%byte)) && negb (bool_decide (sep = "T"%byte)) &&
             negb (bool_decide (sep = "t"%byte)) then None
          else match parse_time (drop 11 text) with
               | None => None
               | Some secs => Some (days * kSecondsPerDay + secs)
               end
      | None => None
      end
  end.

Definition format_date (days : Z) : bytes :=
  let '(year, month, day) := civil_from_days days in
  pad4 year ++ "-"%byte :: pad2 month ++ "-"%byte :: pad2 day.

Definition format_time (seconds : Z) : bytes :=
  pad2 (Z.quot seconds 3600) ++ ":"%byte :: pad2 (Z.quot (Z.rem seconds 3600) 60) ++
  ":"%byte :: pad2 (Z.rem seconds 60).

Definition format_datetime (seconds : Z) : bytes :=
  let days := Z.quot seconds kSecondsPerDay in
  let rest := Z.rem seconds kSecondsPerDay in
  let '(days, rest) := if rest <? 0 then (days - 1, rest + kSecondsPerDay) else (days, rest) in
  format_date days ++ " "%byte :: format_time rest.

Example format_leap_day : format_date 19782 = bytes_of_string "2024-02-29".
Proof. vm_compute. reflexivity. Qed.
Example parse_before_epoch :
  parse_datetime (bytes_of_string "1969-12-31T23:59:59") = Some (-1) /\
  format_datetime (-1) = bytes_of_string "1969-12-31 23:59:59".
Proof. split; vm_compute; reflexivity. Qed.

(** ** The calendar

    [dlia] decides linear arithmetic with division by constants. A day of an
    era of 400 years is split into the year of the era ([year_of_era], which
    starts in March) and the day of that year; a day of the year into the month
    ([month_of]) and the day of the month. *)

Ltac dlia := Z.to_euclidean_division_equations; lia.

Definition leap_next (yoe : Z) : Prop := (yoe + 1) mod 4 = 0 /\ ((yoe + 1) mod 100 <> 0 \/ yoe = 399).
Definition year_of_era (doe : Z) : Z := (doe - doe / 1460 + doe / 36524 - doe / 146096) / 365.
Definition days_before (yoe : Z) : Z := yoe * 365 + yoe / 4 - yoe / 100.

(** A year of an era: century [a], four-year cycle [b], year [c] of the cycle. *)
Lemma year_split yoe : 0 <= yoe < 400 ->
  exists a b c, yoe = 100 * a + 4 * b + c /\ 0 <= a <= 3 /\ 0 <= b <= 24 /\ 0 <= c <= 3 /\
    days_before yoe = 36524 * a + 1461 * b + 365 * c /\
    (leap_next yoe <-> c = 3 /\ (b <= 23 \/ a = 3)).
Proof.
  intros Hy. exists (yoe / 100), ((yoe mod 100) / 4), (yoe mod 4). unfold days_before, leap_next.
  split_and!; try dlia.
Qed.

Lemma year_of_era_days yoe doy :
  0 <= yoe < 400 -> 0 <= doy <= 365 -> (doy = 365 -> leap_next yoe) ->
  0 <= days_before yoe + doy <= 146096 /\ year_of_era (days_before yoe + doy) = yoe.
Proof.
  intros Hy Hd Hl. destruct (year_split yoe Hy) as (a & b & c & -> & Ha & Hb & Hc & -> & Hn).
  rewrite Hn in Hl. clear Hn Hy. split; [lia|].
  unfold year_of_era. set (doe := _ + doy).
  assert (E1 : doe / 36524 = a \/ (a = 3 /\ b = 24 /\ c = 3 /\ doy = 365 /\ doe / 36524 = 4)) by (unfold doe; dlia).
  assert (E2 : doe / 146096 = 0 \/ (a = 3 /\ b = 24 /\ c = 3 /\ doy = 365 /\ doe / 146096 = 1)) by (unfold doe; dlia).
  assert (E3 : doe = 1460 * (25 * a + b) + (24 * a + b + 365 * c + doy)) by (unfold doe; lia).
  assert (E4 : doe / 1460 = 25 * a + b \/ doe / 1460 = 25 * a + b + 1) by dlia.
  clearbody doe. dlia.
Qed.

Lemma day_split doe : 0 <= doe <= 146096 ->
  exists yoe doy, 0 <= yoe < 400 /\ 0 <= doy <= 365 /\ (doy = 365 -> leap_next yoe) /\
    doe = days_before yoe + doy.
Proof.
  intros Hd.
  assert (exists a r, doe = 36524 * a + r /\ 0 <= a <= 3 /\ 0 <= r <= 36524 /\ (r = 36524 -> a = 3))
    as (a & r & -> & Ha & Hr & Hr').
  { exists (Z.min 3 (doe / 36524)), (doe - 36524 * Z.min 3 (doe / 36524)). dlia. }
  assert (exists b s, r = 1461 * b + s /\ 0 <= b <= 24 /\ 0 <= s <= 1460 /\ (s = 1460 -> b <= 23 \/ a = 3))
    as (b & s & -> & Hb & Hs & Hs').
  { exists (r / 1461), (r mod 1461). dlia. }
  assert (exists c doy, s = 365 * c + doy /\ 0 <= c <= 3 /\ 0 <= doy <= 365 /\ (doy = 365 -> c = 3))
    as (c & doy & -> & Hc & Hdoy & Hdoy').
  { exists (Z.min 3 (s / 365)), (s - 365 * Z.min 3 (s / 365)). dlia. }
  exists (100 * a + 4 * b + c), doy. unfold leap_next, days_before.
  split_and!; try dlia.
Qed.

Lemma year_of_era_inv doe : 0 <= doe <= 146096 ->
  let yoe := year_of_era doe in let doy := doe - days_before yoe in
  0 <= yoe < 400 /\ 0 <= doy <= 365 /\ (doy = 365 -> leap_next yoe).
Proof.
  intros Hd. destruct (day_split doe Hd) as (yoe & doy & Hy & Hdy & Hl & ->). cbv zeta.
  destruct (year_of_era_days yoe doy Hy Hdy Hl) as [_ ->].
  replace (days_before yoe + doy - days_before yoe) with doy by lia. done.
Qed.

(** Months counted from March: [month_start mp] days come before month [mp]. *)
Definition month_start (mp : Z) : Z := (153 * mp + 2) / 5.
Definition month_of (doy : Z) : Z := (5 * doy + 2) / 153.

Lemma month_of_start mp k :
  0 <= mp <= 11 -> 0 <= k -> (if mp =? 11 then k <= 28 else month_start mp + k < month_start (mp + 1)) ->
  0 <= month_start mp + k <= 365 /\ month_of (month_start mp + k) = mp.
Proof.
  intros Hm Hk Hd. unfold month_of, month_start in *.
  assert (Hc : mp ∈ [0; 1; 2; 3; 4; 5; 6; 7; 8; 9; 10; 11]) by (rewrite !elem_of_cons; lia).
  repeat (apply elem_of_cons in Hc as [->|Hc]; [simpl in *; dlia|]). by apply elem_of_nil in Hc.
Qed.

Lemma month_of_inv doy :
  0 <= doy <= 365 ->
  let mp := month_of doy in
  0 <= mp <= 11 /\ 0 <= doy - month_start mp /\
  (if mp =? 11 then doy - month_start mp <= 28 else doy < month_start (mp + 1)).
Proof.
  intros Hd mp. unfold mp.
  assert (Hmp : 0 <= month_of doy <= 11) by (unfold month_of; dlia). split; [done|].
  unfold month_start, month_of in *. destruct (_ =? 11) eqn:E; boolify; [rewrite E; dlia|dlia].
Qed.

Lemma unsigned_id z : 0 <= z < 4294967296 -> to_unsigned z = z.
Proof. intros H. by apply Z.mod_small. Qed.

Lemma floor_div a b : 0 < b -> Z.quot (if 0 <=? a then a else a - (b - 1)) b = a / b.
Proof.
  intros Hb. destruct (0 <=? a) eqn:E; boolify; [by apply Z.quot_div_nonneg|].
  set (c := - (a - (b - 1))). replace (a - (b - 1)) with (- c) by (unfold c; lia).
  rewrite Z.quot_opp_l, Z.quot_div_nonneg by lia.
  pose proof (Z.mod_pos_bound c b Hb). pose proof (Z.div_mod c b ltac:(lia)).
  apply Z.div_unique with (b - 1 - c mod b); lia.
Qed.

Definition valid_date (y m d : Z) : Prop := 1 <= m <= 12 /\ 1 <= d <= days_in_month y m.

Lemma leap_next_spec y : leap_next ((y - 1) mod 400) <-> is_leap_year y = true.
Proof.
  unfold leap_next, is_leap_year.
  rewrite orb_true_iff, andb_true_iff, negb_true_iff, !Z.eqb_eq, Z.eqb_neq. dlia.
Qed.

(** The month counted from March, and the year that starts with March. *)
Definition march_month (m : Z) : Z := if m <=? 2 then m + 9 else m - 3.
Definition march_year (y m : Z) : Z := y - (if m <=? 2 then 1 else 0).

Lemma month_length y m d : valid_date y m d ->
  let mp := march_month m in
  0 <= mp <= 11 /\
  (if mp =? 11 then d - 1 <= 28 else month_start mp + (d - 1) < month_start (mp + 1)) /\
  (month_start mp + (d - 1) = 365 -> leap_next (march_year y m mod 400)).
Proof.
  intros [Hm Hd]. cbv zeta. unfold days_in_month, march_month, march_year, month_start in *.
  assert (Hc : m ∈ [1; 2; 3; 4; 5; 6; 7; 8; 9; 10; 11; 12]) by (rewrite !elem_of_cons; lia).
  apply elem_of_cons in Hc as [->|Hc]; [simpl in *; dlia|].
  apply elem_of_cons in Hc as [->|Hc].
  { simpl in *. rewrite leap_next_spec. destruct (is_leap_year y); simpl in *; dlia. }
  repeat (apply elem_of_cons in Hc as [->|Hc]; [simpl in *; dlia|]). by apply elem_of_nil in Hc.
Qed.

Lemma month_length_inv y m d :
  1 <= m <= 12 -> 1 <= d ->
  (if march_month m =? 11 then d - 1 <= 28
   else month_start (march_month m) + (d - 1) < month_start (march_month m + 1)) ->
  (month_start (march_month m) + (d - 1) = 365 -> leap_next (march_year y m mod 400)) ->
  valid_date y m d.
Proof.
  intros Hm Hd Hlen Hleap. split; [done|].
  unfold days_in_month, march_month, march_year, month_start in *.
  assert (Hc : m ∈ [1; 2; 3; 4; 5; 6; 7; 8; 9; 10; 11; 12]) by (rewrite !elem_of_cons; lia).
  apply elem_of_cons in Hc as [->|Hc]; [simpl in *; dlia|].
  apply elem_of_cons in Hc as [->|Hc].
  { simpl in *. rewrite leap_next_spec in Hleap. destruct (is_leap_year y); simpl in *; [dlia|].
    destruct (decide (d = 29)) as [->|]; [by discriminate Hleap|dlia]. }
  repeat (apply elem_of_cons in Hc as [->|Hc]; [simpl in *; dlia|]). by apply elem_of_nil in Hc.
Qed.

Lemma days_from_civil_eq y m d : valid_date y m d ->
  let mp := march_month m in let y' := march_year y m in
  let doy := month_start mp + (d - 1) in
  0 <= doy <= 365 /\
  days_from_civil y m d = y' / 400 * 146097 + (days_before (y' mod 400) + doy) - 719468.
Proof.
  intros Hv. destruct (month_length y m d Hv) as (Hmp & Hlen & _). cbv zeta.
  destruct Hv as [Hm [Hd _]].
  destruct (month_of_start (march_month m) (d - 1)) as [Hdoy _]; [done|lia|done|]. split; [done|].
  unfold days_from_civil. fold (march_year y m). rewrite (floor_div _ 400) by lia.
  assert (Hy : 0 <= march_year y m mod 400 < 400) by dlia.
  replace (march_year y m - march_year y m / 400 * 400) with (march_year y m mod 400) by dlia.
  assert (Hmm : to_unsigned (m + (if 2 <? m then -3 else 9)) = march_month m).
  { unfold march_month. destruct (2 <? m) eqn:E, (m <=? 2) eqn:E'; boolify; try lia;
      rewrite unsigned_id; lia. }
  rewrite Hmm, (unsigned_id (153 * _ + 2)) by lia. fold (month_start (march_month m)).
  rewrite (unsigned_id (march_year y m mod 400)) by lia.
  replace (month_start (march_month m) + d - 1) with (month_start (march_month m) + (d - 1)) by lia.
  rewrite (unsigned_id (month_start _ + _)) by lia.
  fold (days_before (march_year y m mod 400)).
  rewrite unsigned_id; [lia|]. unfold days_before. dlia.
Qed.

Lemma civil_from_days_eq days :
  let D := days + 719468 in let doe := D mod 146097 in
  let yoe := year_of_era doe in let doy := doe - days_before yoe in let mp := month_of doy in
  civil_from_days days =
    (yoe + D / 146097 * 400 + (if mp <? 10 then 0 else 1),
     (if mp <? 10 then mp + 3 else mp - 9), doy - month_start mp + 1).
Proof.
  cbv zeta. unfold civil_from_days. rewrite (floor_div _ 146097) by lia.
  replace (days + 719468 - (days + 719468) / 146097 * 146097) with ((days + 719468) mod 146097) by dlia.
  assert (Hdoe : 0 <= (days + 719468) mod 146097 <= 146096) by dlia.
  set (doe := (days + 719468) mod 146097) in *. clearbody doe.
  rewrite (unsigned_id doe) by lia.
  rewrite (unsigned_id (doe - _ + _ - _)) by dlia. fold (year_of_era doe).
  destruct (year_of_era_inv doe Hdoe) as (Hy & Hdoy & _). set (yoe := year_of_era doe) in *.
  replace (365 * yoe + yoe / 4 - yoe / 100) with (days_before yoe) by (unfold days_before; lia).
  assert (0 <= days_before yoe) by (unfold days_before; dlia).
  rewrite (unsigned_id (days_before yoe)) by lia.
  rewrite (unsigned_id (doe - days_before yoe)) by lia.
  destruct (month_of_inv _ Hdoy) as (Hmp & Hk & _). set (doy := doe - days_before yoe) in *.
  rewrite (unsigned_id (5 * doy + 2)) by lia. fold (month_of doy). set (mp := month_of doy) in *.
  rewrite (unsigned_id (153 * mp + 2)) by lia. fold (month_start mp).
  assert (0 <= month_start mp) by (unfold month_start; dlia).
  rewrite (unsigned_id (doy - month_start mp + 1)) by lia.
  destruct (mp <? 10) eqn:E; boolify; rewrite unsigned_id by lia.
  - destruct (mp + 3 <=? 2) eqn:E'; boolify; [lia|done].
  - destruct (mp + -9 <=? 2) eqn:E'; boolify; [done|lia].
Qed.

Lemma civil_days y m d : valid_date y m d -> civil_from_days (days_from_civil y m d) = (y, m, d).
Proof.
  intros Hv. destruct (days_from_civil_eq y m d Hv) as [Hdoy ->].
  destruct (month_length y m d Hv) as (Hmp & Hlen & Hleap). destruct Hv as [Hm [Hd _]].
  assert (Hy : 0 <= march_year y m mod 400 < 400) by dlia.
  destruct (year_of_era_days _ _ Hy Hdoy Hleap) as [Hdoe Hyoe].
  destruct (month_of_start (march_month m) (d - 1)) as [_ Hmonth]; [done|lia|done|].
  rewrite civil_from_days_eq. cbv zeta.
  set (doe := days_before _ + _) in *. set (y' := march_year y m) in *.
  replace (y' / 400 * 146097 + doe - 719468 + 719468) with (doe + y' / 400 * 146097) by lia.
  rewrite Z.mod_add, Z.div_add, (Z.mod_small doe), (Z.div_small doe) by lia. rewrite Hyoe.
  replace (doe - days_before (y' mod 400)) with (month_start (march_month m) + (d - 1)) by (unfold doe; lia).
  rewrite Hmonth.
  assert (Hyy : y' mod 400 + (0 + y' / 400) * 400 = y') by dlia. rewrite Hyy.
  unfold y', march_year, march_month in *.
  destruct (m <=? 2) eqn:E; boolify; (destruct (_ <? 10) eqn:E'; boolify; [|]); try lia;
    f_equal; [f_equal| |f_equal|]; lia.
Qed.

Lemma days_civil days :
  let '(y, m, d) := civil_from_days days in valid_date y m d /\ days_from_civil y m d = days.
Proof.
  rewrite civil_from_days_eq. cbv zeta.
  assert (Hdoe : 0 <= (days + 719468) mod 146097 <= 146096) by dlia.
  pose proof (Z.div_mod (days + 719468) 146097 ltac:(lia)) as HD.
  set (doe := (days + 719468) mod 146097) in *. set (era := (days + 719468) / 146097) in *.
  clearbody doe era.
  destruct (year_of_era_inv doe Hdoe) as (Hy & Hdoy & Hleap). set (yoe := year_of_era doe) in *.
  destruct (month_of_inv _ Hdoy) as (Hmp & Hk & Hlen). set (doy := doe - days_before yoe) in *.
  set (mp := month_of doy) in *.
  set (m := if mp <? 10 then mp + 3 else mp - 9).
  set (y := yoe + era * 400 + (if mp <? 10 then 0 else 1)).
  assert (Hmm : march_month m = mp).
  { unfold march_month, m. destruct (mp <? 10) eqn:E; boolify;
      (destruct (_ <=? 2) eqn:E'; boolify); lia. }
  assert (Hmy : march_year y m = yoe + era * 400).
  { unfold march_year, y, m. destruct (mp <? 10) eqn:E; boolify;
      (destruct (_ <=? 2) eqn:E'; boolify); lia. }
  assert (Hmod : (yoe + era * 400) mod 400 = yoe) by (rewrite Z.mod_add, Z.mod_small by lia; done).
  assert (Hdiv : (yoe + era * 400) / 400 = era) by (rewrite Z.div_add, Z.div_small by lia; lia).
  assert (Hv : valid_date y m (doy - month_start mp + 1)).
  { apply month_length_inv; rewrite ?Hmm, ?Hmy, ?Hmod; try lia.
    - unfold m. destruct (mp <? 10) eqn:E; boolify; lia.
    - destruct (mp =? 11); lia.
    - intros Hl. apply Hleap. lia. }
  split; [done|]. destruct (days_from_civil_eq _ _ _ Hv) as [_ ->].
  rewrite Hmm, Hmy, Hmod, Hdiv. unfold doy. lia.
Qed.

(** ** Digits *)

Lemma digit_of_char d : 0 <= d <= 9 -> digit_of (digit_char d) = Some d.
Proof.
  intros Hd. unfold digit_of, digit_char. rewrite to_N_byte_of_N, N.mod_small by lia.
  replace (Z.of_N (Z.to_N (d + 48))) with (d + 48) by lia.
  rewrite (proj2 (Z.leb_le 48 _)), (proj2 (Z.leb_le _ 57)) by lia. simpl. f_equal. lia.
Qed.

Lemma digit_of_inv c d : digit_of c = Some d -> 0 <= d <= 9 /\ c = digit_char d.
Proof.
  unfold digit_of, digit_char. case_match eqn:E; [|done]. boolify. intros [= <-]. split; [lia|].
  rewrite <- (byte_of_N_to_N c) at 1. f_equal. lia.
Qed.

Lemma dec_digits_small fuel n : 0 <= n < 10 -> dec_digits (S fuel) n = [digit_char n].
Proof.
  intros Hn. cbn [dec_digits]. rewrite (proj2 (Z.ltb_lt n 10)) by lia.
  by rewrite Z.mod_small by lia.
Qed.

Lemma dec_digits_big fuel n : 10 <= n ->
  dec_digits (S fuel) n = dec_digits fuel (n / 10) ++ [digit_char (n mod 10)].
Proof. intros Hn. cbn [dec_digits]. by rewrite (proj2 (Z.ltb_ge n 10)) by lia. Qed.

Ltac pad_digits :=
  repeat first [rewrite dec_digits_small by dlia | rewrite dec_digits_big by dlia].

Lemma pad2_digits v : 0 <= v < 100 -> pad2 v = [digit_char (v / 10); digit_char (v mod 10)].
Proof.
  intros Hv. unfold pad2, pad. rewrite Z.abs_eq, (proj2 (Z.ltb_ge v 0)) by lia.
  destruct (Z.lt_ge_cases v 10).
  - pad_digits. replace (v / 10) with 0 by dlia. by replace (v mod 10) with v by dlia.
  - by pad_digits.
Qed.

Lemma pad4_digits v : 0 <= v < 10000 ->
  pad4 v = [digit_char (v / 1000); digit_char (v / 100 mod 10); digit_char (v / 10 mod 10);
            digit_char (v mod 10)].
Proof.
  intros Hv. unfold pad4, pad. rewrite Z.abs_eq, (proj2 (Z.ltb_ge v 0)) by lia.
  replace (v / 1000) with (v / 10 / 10 / 10) by dlia. replace (v / 100) with (v / 10 / 10) by dlia.
  destruct (Z.lt_ge_cases v 10); [|destruct (Z.lt_ge_cases v 100); [|destruct (Z.lt_ge_cases v 1000)]];
    pad_digits; cbn [app length zeros replicate take Nat.sub].
  - replace (v / 10) with 0 by dlia. by replace (v mod 10) with v by dlia.
  - replace (v / 10 / 10) with 0 by dlia. by replace (v / 10 mod 10) with (v / 10) by dlia.
  - replace (v / 10 / 10 / 10) with 0 by dlia.
    by replace (v / 10 / 10 mod 10) with (v / 10 / 10) by dlia.
  - by replace (v / 10 / 10 / 10 mod 10) with (v / 10 / 10 / 10) by dlia.
Qed.

Lemma read_digit2 pos (s : bytes) a b :
  take 2 (drop pos s) = [a; b] ->
  read_digits s pos 2 =
    match digit_of a with
    | Some x => match digit_of b with Some y => Some (x * 10 + y) | None => None end
    | None => None
    end.
Proof.
  intros H. unfold read_digits.
  assert (Hl : (pos + 2 <= length s)%nat).
  { apply (f_equal length) in H. rewrite length_take, length_drop in H. change (length [a; b]) with 2%nat in H. lia. }
  rewrite (proj2 (Nat.ltb_ge _ _)) by lia.
  destruct (drop pos s) as [|a' [|b' s']]; try done. injection H as -> ->. simpl.
  by destruct (digit_of a), (digit_of b).
Qed.

Lemma read_pad2 pos (s : bytes) v :
  0 <= v < 100 -> take 2 (drop pos s) = pad2 v -> read_digits s pos 2 = Some v.
Proof.
  intros Hv Hs. rewrite pad2_digits in Hs by done. rewrite (read_digit2 _ _ _ _ Hs).
  rewrite !digit_of_char by dlia. f_equal. dlia.
Qed.

Lemma read_two s pos v : read_digits s pos 2 = Some v -> 0 <= v < 100 /\ take 2 (drop pos s) = pad2 v.
Proof.
  intros Hr. unfold read_digits in Hr. destruct (_ <? _)%nat eqn:E; [done|]. boolify.
  destruct (drop pos s) as [|a [|b s']] eqn:Es; [done|by simpl in Hr; case_match|].
  simpl in Hr. destruct (digit_of a) as [x|] eqn:Ea; [|done].
  destruct (digit_of b) as [y|] eqn:Eb; [|done]. injection Hr as <-.
  apply digit_of_inv in Ea as [Hx ->]. apply digit_of_inv in Eb as [Hy ->].
  split; [lia|]. rewrite pad2_digits by lia. simpl. f_equal; [|f_equal]; f_equal; dlia.
Qed.

Lemma read_pad4 (s : bytes) v : 0 <= v < 10000 -> take 4 s = pad4 v -> read_digits s 0 4 = Some v.
Proof.
  intros Hv Hs. rewrite pad4_digits in Hs by done. unfold read_digits.
  destruct s as [|a [|b [|c [|d s']]]]; try done. injection Hs as -> -> -> ->. simpl.
  rewrite !digit_of_char by dlia. f_equal. dlia.
Qed.

Lemma read_four s v : read_digits s 0 4 = Some v -> 0 <= v < 10000 /\ take 4 s = pad4 v.
Proof.
  intros Hr. unfold read_digits in Hr. destruct (_ <? _)%nat eqn:E; [done|].
  destruct s as [|a [|b [|c [|d s']]]]; try done. simpl in Hr.
  destruct (digit_of a) as [x|] eqn:Ea; [|done]. destruct (digit_of b) as [y|] eqn:Eb; [|done].
  destruct (digit_of c) as [z|] eqn:Ec; [|done]. destruct (digit_of d) as [w|] eqn:Ed; [|done].
  injection Hr as <-.
  apply digit_of_inv in Ea as [Hx ->]. apply digit_of_inv in Eb as [Hy ->].
  apply digit_of_inv in Ec as [Hz ->]. apply digit_of_inv in Ed as [Hw ->].
  split; [lia|]. rewrite pad4_digits by lia. simpl.
  do 3 (f_equal; [f_equal; dlia|]). do 2 f_equal. dlia.
Qed.

Lemma read_separator_iff s pos c : read_separator s pos c = true <-> s !! pos = Some c.
Proof.
  unfold read_separator. destruct (s !! pos) as [x|]; [|done].
  rewrite bool_decide_eq_true. split; congruence.
Qed.

(** The parts of a date text. *)
Lemma date_text (text : bytes) y m d :
  length text = 10%nat -> take 4 text = y -> text !! 4%nat = Some "-"%byte ->
  take 2 (drop 5 text) = m -> text !! 7%nat = Some "-"%byte -> take 2 (drop 8 text) = d ->
  text = y ++ "-"%byte :: m ++ "-"%byte :: d.
Proof.
  intros Hl <- Hs1 <- Hs2 <-.
  do 10 (destruct text as [|? text]; [done|]). destruct text; [|done].
  simpl in Hs1, Hs2. injection Hs1 as ->. by injection Hs2 as ->.
Qed.

Lemma length_pad2 v : 0 <= v < 100 -> length (pad2 v) = 2%nat.
Proof. intros Hv. by rewrite pad2_digits. Qed.
Lemma length_pad4 v : 0 <= v < 10000 -> length (pad4 v) = 4%nat.
Proof. intros Hv. by rewrite pad4_digits. Qed.

Lemma date_year_bound days :
  kDateMinDays <= days <= kDateMaxDays ->
  let '(y, m, d) := civil_from_days days in 0 <= y < 10000 /\ 0 <= m < 100 /\ 0 <= d < 100.
Proof.
  unfold kDateMinDays, kDateMaxDays. intros Hr. pose proof (days_civil days) as Hc.
  destruct (civil_from_days days) as [[y m] d]. destruct Hc as [Hv Heq].
  destruct (days_from_civil_eq _ _ _ Hv) as [Hdoy Heq']. rewrite Heq in Heq'.
  destruct (month_length _ _ _ Hv) as (Hmp & Hlen & _). destruct Hv as [Hm Hd].
  assert (Hdim : days_in_month y m <= 31).
  { unfold days_in_month. assert (Hc : m ∈ [1; 2; 3; 4; 5; 6; 7; 8; 9; 10; 11; 12])
      by (rewrite !elem_of_cons; lia).
    repeat (apply elem_of_cons in Hc as [->|Hc]; [simpl; try destruct (is_leap_year y); simpl; lia|]).
    by apply elem_of_nil in Hc. }
  split; [|lia]. set (doy := month_start _ + _) in *.
  assert (Hy : 0 <= march_year y m <= 9999 /\ (march_year y m = 9999 -> doy <= 305)).
  { unfold days_before in Heq'. clearbody doy. dlia. }
  unfold march_year in Hy. destruct (m <=? 2) eqn:E; [|lia]. boolify.
  assert (y <> 10000); [|lia]. intros ->. destruct Hy as [_ Hy]. specialize (Hy ltac:(lia)).
  unfold doy, march_month, month_start in Hy. rewrite (proj2 (Z.leb_le m 2) E) in Hy. dlia.
Qed.

Lemma parse_date_inv text days :
  parse_date text = Some days ->
  kDateMinDays <= days <= kDateMaxDays /\ text = format_date days.
Proof.
  unfold parse_date. intros Hp.
  destruct (negb (length text =? 10)%nat) eqn:El; [done|]. boolify.
  destruct (read_digits text 0 4) as [y|] eqn:Ey; [|done].
  destruct (negb (read_separator text 4 _)) eqn:E1; [done|]. apply negb_false_iff, read_separator_iff in E1.
  destruct (read_digits text 5 2) as [m|] eqn:Em; [|done].
  destruct (negb (read_separator text 7 _)) eqn:E2; [done|]. apply negb_false_iff, read_separator_iff in E2.
  destruct (read_digits text 8 2) as [d|] eqn:Ed; [|done].
  destruct (_ || _) eqn:Ev; [done|]. boolify.
  destruct (_ || _) eqn:Er in Hp; [done|]. injection Hp as <-. boolify. split; [lia|].
  unfold format_date. rewrite civil_days by (split; lia).
  apply date_text; try done; [apply read_four in Ey|apply read_two in Em|apply read_two in Ed]; tauto.
Qed.

Lemma parse_format_date days :
  kDateMinDays <= days <= kDateMaxDays -> parse_date (format_date days) = Some days.
Proof.
  intros Hr. unfold format_date. pose proof (date_year_bound _ Hr) as Hb.
  pose proof (days_civil days) as Hc. destruct (civil_from_days days) as [[y m] d].
  destruct Hb as (Hy & Hm & Hd). destruct Hc as [[Hm' Hd'] Heq].
  unfold parse_date. rewrite length_app. cbn [length]. rewrite length_app. cbn [length].
  rewrite length_pad4, !length_pad2 by done. simpl negb. cbv iota.
  pose proof (pad4_digits y Hy) as P4. pose proof (pad2_digits m Hm) as P2.
  pose proof (pad2_digits d Hd) as P3.
  rewrite (read_pad4 _ y) by (try done; by rewrite P4).
  replace (read_separator _ 4 _) with true by (symmetry; apply read_separator_iff; by rewrite P4).
  rewrite (read_pad2 5 _ m) by (try done; by rewrite P4, P2).
  replace (read_separator _ 7 _) with true by (symmetry; apply read_separator_iff; by rewrite P4, P2).
  rewrite (read_pad2 8 _ d) by (try done; by rewrite P4, P2, P3). simpl negb. cbv iota.
  rewrite (proj2 (Z.ltb_ge m 1)), (proj2 (Z.ltb_ge 12 m)), (proj2 (Z.ltb_ge d 1)),
    (proj2 (Z.ltb_ge _ d)) by lia. simpl. rewrite Heq.
  by rewrite (proj2 (Z.ltb_ge days _)), (proj2 (Z.ltb_ge _ days)) by lia.
Qed.

(** Date texts and day numbers are in bijection. [parse_date] accepts
    exactly the texts [format_date] produces for the days from 0001-01-01 to
    9999-12-31, and gives back the day: leap years, month lengths and the
    proleptic Gregorian calendar are handled the same way in both directions. *)
Theorem parse_date_spec text days :
  parse_date text = Some days <->
  kDateMinDays <= days <= kDateMaxDays /\ text = format_date days.
Proof. split; [apply parse_date_inv|]. intros [Hr ->]. by apply parse_format_date. Qed.

Lemma format_time_parts t : 0 <= t <= kTimeMaxSeconds ->
  format_time t = pad2 (t / 3600) ++ ":"%byte :: pad2 (t mod 3600 / 60) ++ ":"%byte :: pad2 (t mod 60).
Proof.
  intros Ht. unfold format_time.
  rewrite Z.quot_div_nonneg, (Z.rem_mod_nonneg t 3600), Z.quot_div_nonneg, Z.rem_mod_nonneg by dlia.
  done.
Qed.

Lemma length_format_time t : 0 <= t <= kTimeMaxSeconds -> length (format_time t) = 8%nat.
Proof.
  intros Ht. rewrite format_time_parts by done. unfold kTimeMaxSeconds in Ht.
  rewrite length_app. cbn [length]. rewrite length_app. cbn [length].
  by rewrite !length_pad2 by dlia.
Qed.

Lemma parse_format_time t : 0 <= t <= kTimeMaxSeconds -> parse_time (format_time t) = Some t.
Proof.
  intros Ht. unfold parse_time. rewrite (length_format_time t Ht). simpl negb. cbv iota.
  rewrite format_time_parts by done. unfold kTimeMaxSeconds in Ht.
  assert (Hh : 0 <= t / 3600 < 24) by dlia. assert (Hm : 0 <= t mod 3600 / 60 < 60) by dlia.
  assert (Hs : 0 <= t mod 60 < 60) by dlia.
  pose proof (pad2_digits (t / 3600) ltac:(lia)) as P1.
  pose proof (pad2_digits (t mod 3600 / 60) ltac:(lia)) as P2.
  pose proof (pad2_digits (t mod 60) ltac:(lia)) as P3.
  rewrite (read_pad2 0 _ (t / 3600)) by (try lia; by rewrite P1).
  replace (read_separator _ 2 _) with true by (symmetry; apply read_separator_iff; by rewrite P1).
  rewrite (read_pad2 3 _ (t mod 3600 / 60)) by (try lia; by rewrite P1, P2).
  replace (read_separator _ 5 _) with true by (symmetry; apply read_separator_iff; by rewrite P1, P2).
  rewrite (read_pad2 6 _ (t mod 60)) by (try lia; by rewrite P1, P2, P3).
  change ((8 =? 8)%nat) with true. simpl negb. cbn [andb]. cbv iota beta.
  destruct (_ || (59 <? t mod 60)) eqn:E; [exfalso; rewrite !orb_true_iff, !Z.ltb_lt in E; lia|].
  f_equal. pose proof (Z.div_mod t 3600 ltac:(lia)). pose proof (Z.div_mod (t mod 3600) 60 ltac:(lia)).
  assert (t mod 60 = (t mod 3600) mod 60); [|lia].
  rewrite (Z.div_mod t 3600) at 1 by lia.
  replace (3600 * (t / 3600)) with (60 * (t / 3600) * 60) by lia. rewrite Z.add_comm.
  by rewrite Z.mod_add by lia.
Qed.

Lemma parse_time_range text t : parse_time text = Some t -> 0 <= t <= kTimeMaxSeconds.
Proof.
  unfold parse_time, kTimeMaxSeconds. intros Hp.
  repeat (case_match; try done); injection Hp as <-; simplify_eq; boolify; lia.
Qed.

Lemma format_datetime_parts s :
  format_datetime s = format_date (s / kSecondsPerDay) ++ " "%byte :: format_time (s mod kSecondsPerDay).
Proof.
  unfold format_datetime, kSecondsPerDay.
  destruct (Z.rem s 86400 <? 0) eqn:E; boolify.
  - replace (s / 86400) with (Z.quot s 86400 - 1) by dlia.
    by replace (s mod 86400) with (Z.rem s 86400 + 86400) by dlia.
  - replace (s / 86400) with (Z.quot s 86400) by dlia.
    by replace (s mod 86400) with (Z.rem s 86400) by dlia.
Qed.

Lemma length_format_date d : kDateMinDays <= d <= kDateMaxDays -> length (format_date d) = 10%nat.
Proof.
  intros Hd. pose proof (date_year_bound d Hd) as Hb. unfold format_date.
  destruct (civil_from_days d) as [[y m] dd]. destruct Hb as (Hy & Hm & Hdd).
  rewrite length_app. cbn [length]. rewrite length_app. cbn [length].
  by rewrite length_pad4, !length_pad2 by done.
Qed.

(** DATETIME values survive their text. Every second the type admits, also
    before 1970, is read back from its text; and whatever text [parse_datetime]
    accepts denotes a second the type admits. *)
Theorem datetime_roundtrip s text :
  (can_represent DATETIME s = true -> parse_datetime (format_datetime s) = Some s) /\
  (parse_datetime text = Some s -> can_represent DATETIME s = true).
Proof.
  unfold can_represent. simpl is_integer. simpl is_boolean. cbv iota.
  unfold kDateTimeMinSeconds, kDateTimeMaxSeconds. split; intros H.
  - boolify. rewrite format_datetime_parts.
    assert (Hd : kDateMinDays <= s / kSecondsPerDay <= kDateMaxDays)
      by (unfold kDateMinDays, kDateMaxDays, kSecondsPerDay, kTimeMaxSeconds in *; dlia).
    assert (Ht : 0 <= s mod kSecondsPerDay <= kTimeMaxSeconds)
      by (unfold kSecondsPerDay, kTimeMaxSeconds in *; dlia).
    pose proof (length_format_date _ Hd) as Hl. unfold parse_datetime.
    rewrite length_app. cbn [length]. rewrite Hl, (length_format_time _ Ht).
    rewrite take_app_length', parse_format_date by done.
    rewrite lookup_app_r, Hl by lia. change ((" "%byte :: _) !! (10 - 10)%nat) with (Some " "%byte).
    cbv iota beta. rewrite (bool_decide_eq_true_2 (" "%byte = " "%byte)) by done. cbn [negb andb].
    rewrite (cons_middle " "%byte), app_assoc.
    rewrite drop_app_length' by (rewrite length_app, Hl; done).
    rewrite parse_format_time by done. simpl. f_equal. unfold kSecondsPerDay. dlia.
  - unfold parse_datetime in H. destruct (_ <? 16)%nat; [done|].
    destruct (parse_date _) as [d|] eqn:Ed; [|done]. destruct (text !! _) as [sep|]; [|done].
    destruct (_ && _); [done|]. destruct (parse_time _) as [t|] eqn:Et; [|done]. injection H as <-.
    apply parse_time_range in Et. apply parse_date_inv in Ed as [Hd _].
    unfold kDateMinDays, kDateMaxDays, kSecondsPerDay, kTimeMaxSeconds in *.
    apply andb_true_iff. rewrite !Z.leb_le. lia.
Qed.

Lemma datetime_roundtrip_witness :
  parse_datetime (format_datetime (-62135596800)) = Some (-62135596800).
Proof. apply (datetime_roundtrip _ []). vm_compute. reflexivity. Defined.
