(* ===== verification/KeyCodec.v ===== *)
(** * Keys: [sql_types/key.h]

    The order-preserving encoding of values as byte strings. A key is a family
    tag, a null flag and a payload; the storage layer compares keys as byte
    strings, so the encoding carries the order of the values. *)

From S2P Require Import Prelude Bytes SqlTypes.
Local Open Scope N_scope.

Definition kTagNull : byte := x00.
Definition kTagInt64 : byte := x01.
Definition kTagString : byte := x02.
Definition kTagBool : byte := x03.
Definition kNullFlag : byte := x00.
Definition kValueFlag : byte := x01.

Definition tag_of (t : DataType) : byte :=
  if is_integer t || is_temporal t then kTagInt64
  else if is_string t then kTagString
  else if is_boolean t then kTagBool
  else kTagNull.

(** ** Encoding *)

(** [(uint64_t)v ^ (1 << 63)] and back. *)
Definition int64_to_ordered (v : Z) : N :=
  N.lxor (Z.to_N (v mod 18446744073709551616)) 9223372036854775808.
Definition ordered_to_int64 (u : N) : Z :=
  let w := Z.of_N (N.lxor u 9223372036854775808) in
  if (w <=? int64_max)%Z then w else (w - 18446744073709551616)%Z.

Definition encode_be64 (v : N) : bytes := be_put 8 v.

Fixpoint encode_string_body (s : bytes) : bytes :=
  match s with
  | [] => []
  | c :: s' => if bool_decide (c = x00) then x00 :: xff :: encode_string_body s'
               else c :: encode_string_body s'
  end.
Definition encode_string (s : bytes) : bytes := encode_string_body s ++ [x00].

Definition make_null_key (tag : byte) : bytes := [tag; kNullFlag].

(** The payload follows the tag of the value's own type. *)
Definition encode_value (val : Value) : bytes :=
  match val with
  | VNull => []
  | VBool b => [tag_of (type_of val); kValueFlag; if b then x01 else x00]
  | VInt _ v => tag_of (type_of val) :: kValueFlag :: encode_be64 (int64_to_ordered v)
  | VStr _ s => tag_of (type_of val) :: kValueFlag :: encode_string s
  end.

(** [KeyCodecs::to_key(val)] and [KeyCodecs::to_key(val, column_type)] *)
Definition to_key (val : Value) : bytes :=
  if is_null val then make_null_key kTagNull else encode_value val.
Definition to_column_key (val : Value) (column_type : DataType) : bytes :=
  if is_null val then make_null_key (tag_of column_type) else encode_value val.

(** ** Decoding *)

Fixpoint decode_string (s : bytes) : option bytes :=
  match s with
  | [] => None
  | c :: s' =>
      if negb (bool_decide (c = x00)) then
        match decode_string s' with Some out => Some (c :: out) | None => None end
      else match s' with
           | d :: s'' =>
               if bool_decide (d = xff) then
                 match decode_string s'' with Some out => Some (x00 :: out) | None => None end
               else None
           | [] => Some []
           end
  end.

(** [decode_be64] ors shifted bytes together. *)
Definition decode_be64 (p : bytes) : N := be_or p.

(** The logical type a decoded value takes from the column. *)
Definition int64_type_for (t : DataType) : Int64Type :=
  match t with DATE => I_DATE | TIME => I_TIME | DATETIME => I_DATETIME | _ => I_BIGINT end.
Definition string_type_for (t : DataType) : StringType :=
  match t with CHAR => S_CHAR | TEXT => S_TEXT | _ => S_VARCHAR end.

Definition decode_value (key : bytes) (tag : byte) (t : DataType) : Value :=
  if bool_decide (tag = kTagBool) then
    match key with
    | [_; _; b] => VBool (negb (bool_decide (b = x00)))
    | _ => VNull
    end
  else if bool_decide (tag = kTagInt64) then
    if negb (length key =? 10)%nat then VNull
    else VInt (int64_type_for t) (ordered_to_int64 (decode_be64 (drop 2 key)))
  else if bool_decide (tag = kTagString) then
    match decode_string (drop 2 key) with
    | Some out => VStr (string_type_for t) out
    | None => VNull
    end
  else VNull.

Definition from_key (key : bytes) (t : DataType) : Value :=
  match key with
  | [] => VNull
  | tag :: rest =>
      if bool_decide (tag = kTagNull) then VNull
      else if negb (bool_decide (tag = tag_of t)) then VNull
      else match rest with
           | [] => VNull
           | flag :: _ =>
               if bool_decide (flag = kNullFlag) then VNull
               else if negb (bool_decide (flag = kValueFlag)) then VNull
               else decode_value key tag t
           end
  end.

Definition is_valid_key (key : bytes) (t : DataType) : bool :=
  match key with
  | [] => false
  | tag :: rest =>
      if bool_decide (tag = kTagNull) then (length key =? 2)%nat
      else if negb (bool_decide (tag = tag_of t)) then false
      else match rest with
           | [] => false
           | flag :: payload =>
               if bool_decide (flag = kNullFlag) then (length key =? 2)%nat
               else if negb (bool_decide (flag = kValueFlag)) then false
               else if bool_decide (tag = kTagInt64) then (length key =? 10)%nat
               else if bool_decide (tag = kTagBool) then
                 match payload with [b] => bool_decide (b = x00) || bool_decide (b = x01) | _ => false end
               else if bool_decide (tag = kTagString) then
                 match decode_string payload with Some _ => true | None => false end
               else false
           end
  end.

(** ** Bounds *)

Definition inclusive_upper_bound (k : bytes) : bytes := k ++ [x00].
Definition min_key_for_type (t : DataType) : bytes := make_null_key (tag_of t).
Definition upper_key_for_type (t : DataType) : bytes :=
  if bool_decide (tag_of t = kTagNull) then [xff] else [byte_of_N (Byte.to_N (tag_of t) + 1)].
Definition null_key_for_type (t : DataType) : bytes := min_key_for_type t.
Definition first_value_key (t : DataType) : bytes := [tag_of t; kValueFlag].

Definition compare_keys (a b : bytes) : Z :=
  if bytes_eqb a b then 0%Z else if bytes_ltb a b then (-1)%Z else 1%Z.

Fixpoint strip_ff (r : bytes) : bytes :=
  match r with
  | [] => []
  | c :: r' => if bool_decide (c = xff) then strip_ff r' else r
  end.
Definition successor (k : bytes) : bytes :=
  match strip_ff (reverse k) with
  | [] => []
  | c :: r' => reverse (byte_of_N (Byte.to_N c + 1) :: r')
  end.

#[local] Arguments decode_be64 _ : simpl never.
#[local] Arguments encode_be64 _ : simpl never.
#[local] Arguments int64_to_ordered _ : simpl never.
#[local] Arguments ordered_to_int64 _ : simpl never.

(** ** Integers *)

Lemma lxor_high u : u < 18446744073709551616 ->
  N.lxor u 9223372036854775808 =
  if u <? 9223372036854775808 then u + 9223372036854775808 else u - 9223372036854775808.
Proof.
  intros Hu.
  assert (Hlow : forall w, w < 9223372036854775808 ->
    N.lxor w 9223372036854775808 = w + 9223372036854775808).
  { intros w Hw. symmetry. apply N.add_nocarry_lxor.
    change 9223372036854775808 with (2 ^ 63). apply N.bits_inj. intros i.
    rewrite N.land_spec, N.pow2_bits_eqb, N.bits_0. destruct (N.eqb_spec 63 i) as [<-|]; [|by rewrite andb_false_r].
    rewrite andb_true_r. destruct (N.eq_dec w 0) as [->|Hne]; [done|].
    apply N.bits_above_log2. apply N.log2_lt_pow2; [lia|done]. }
  destruct (u <? 9223372036854775808) eqn:E; boolify; [by apply Hlow|].
  replace u with (u - 9223372036854775808 + 9223372036854775808) at 1 by lia.
  rewrite <- Hlow by lia. by rewrite N.lxor_assoc, N.lxor_nilpotent, N.lxor_0_r.
Qed.

Lemma int64_to_ordered_add v : i64 v -> int64_to_ordered v = Z.to_N (v + 9223372036854775808).
Proof.
  unfold i64, int64_min, int64_max. intros Hv. unfold int64_to_ordered.
  rewrite lxor_high; [|pose proof (Z.mod_pos_bound v 18446744073709551616 ltac:(lia)); lia].
  destruct (Z.lt_ge_cases v 0).
  - replace (v mod 18446744073709551616)%Z with (v + 18446744073709551616)%Z
      by (Z.to_euclidean_division_equations; lia).
    rewrite (proj2 (N.ltb_ge _ _)) by lia. lia.
  - rewrite Z.mod_small by lia. rewrite (proj2 (N.ltb_lt _ _)) by lia. lia.
Qed.

Lemma int64_to_ordered_u64 v : i64 v -> int64_to_ordered v < 2 ^ (8 * N.of_nat 8).
Proof.
  intros Hv. rewrite int64_to_ordered_add by done. unfold i64, int64_min, int64_max in Hv.
  change (2 ^ (8 * N.of_nat 8)) with 18446744073709551616. lia.
Qed.

Lemma ordered_roundtrip v : i64 v -> ordered_to_int64 (int64_to_ordered v) = v.
Proof.
  intros Hv. pose proof (int64_to_ordered_u64 v Hv) as Hu.
  change (2 ^ (8 * N.of_nat 8)) with 18446744073709551616 in Hu. unfold ordered_to_int64.
  rewrite lxor_high by done. rewrite int64_to_ordered_add in * by done.
  unfold i64, int64_min, int64_max in *.
  destruct (_ <? _) eqn:E; boolify; destruct (_ <=? _)%Z eqn:E'; boolify; lia.
Qed.

Lemma ordered_to_int64_inv u : u < 18446744073709551616 ->
  i64 (ordered_to_int64 u) /\ int64_to_ordered (ordered_to_int64 u) = u.
Proof.
  intros Hu. assert (Hi : i64 (ordered_to_int64 u)).
  { unfold ordered_to_int64, i64, int64_min, int64_max. rewrite lxor_high by done.
    destruct (_ <? _) eqn:E; boolify; destruct (_ <=? _)%Z eqn:E'; boolify; lia. }
  split; [done|]. rewrite int64_to_ordered_add by done. clear Hi.
  unfold ordered_to_int64, int64_max. rewrite lxor_high by done.
  destruct (_ <? _) eqn:E; boolify; destruct (_ <=? _)%Z eqn:E'; boolify; lia.
Qed.

Lemma encode_int_order a b : i64 a -> i64 b ->
  bytes_ltb (encode_be64 (int64_to_ordered a)) (encode_be64 (int64_to_ordered b)) = (a <? b)%Z.
Proof.
  intros Ha Hb. unfold encode_be64.
  rewrite bytes_ltb_be_put by (by apply int64_to_ordered_u64).
  rewrite !int64_to_ordered_add by done. unfold i64, int64_min, int64_max in *.
  destruct (_ <? _) eqn:E, (_ <? _)%Z eqn:E'; boolify; try done; lia.
Qed.

(** ** Strings *)

Lemma byte_nonzero c : c <> x00 -> 0 < Byte.to_N c.
Proof. intros Hc. destruct (N.eq_dec (Byte.to_N c) 0) as [E|]; [|lia]. by apply (byte_to_N_inj c x00) in E. Qed.

Lemma encode_string_order a b :
  bytes_ltb (encode_string a) (encode_string b) = bytes_ltb a b.
Proof.
  unfold encode_string. revert b; induction a as [|c a IH]; intros [|d b]; simpl.
  - done.
  - destruct (bool_decide_reflect (d = x00)) as [->|Hd]; simpl; [done|].
    by rewrite (proj2 (N.ltb_lt 0 _) (byte_nonzero d Hd)).
  - destruct (bool_decide_reflect (c = x00)) as [->|Hc]; simpl.
    + by destruct (encode_string_body a).
    + pose proof (byte_nonzero c Hc). rewrite (proj2 (N.ltb_ge _ 0)) by lia.
      by rewrite (proj2 (N.ltb_lt 0 _)).
  - destruct (bool_decide_reflect (c = x00)) as [->|Hc], (bool_decide_reflect (d = x00)) as [->|Hd];
      simpl; rewrite ?IH; try done.
    + pose proof (byte_nonzero d Hd). by rewrite (proj2 (N.ltb_lt 0 _)).
    + pose proof (byte_nonzero c Hc). by rewrite (proj2 (N.ltb_ge _ 0)), (proj2 (N.ltb_lt 0 _)) by lia.
Qed.

Lemma decode_encode_string s : decode_string (encode_string s) = Some s.
Proof.
  unfold encode_string. induction s as [|c s IH]; simpl; [done|].
  destruct (bool_decide_reflect (c = x00)) as [->|Hc]; simpl.
  - by rewrite IH.
  - rewrite (bool_decide_eq_false_2 _ Hc). simpl. by rewrite IH.
Qed.

Lemma decode_string_inv s out : decode_string s = Some out -> s = encode_string out.
Proof.
  assert (Hn : forall n s out, (length s <= n)%nat -> decode_string s = Some out -> s = encode_string out);
    [|by eapply Hn].
  clear s out. induction n as [|n IH]; intros [|c s] out Hl Hd; simpl in *; try done; try lia.
  destruct (bool_decide_reflect (c = x00)) as [->|Hc]; simpl in Hd.
  - destruct s as [|d s]; [by injection Hd as <-|].
    destruct (bool_decide_reflect (d = xff)) as [->|]; [|done].
    destruct (decode_string s) as [o|] eqn:E; [|done]. injection Hd as <-.
    simpl in Hl. rewrite (IH s o) by (lia || done). done.
  - destruct (decode_string s) as [o|] eqn:E; [|done]. injection Hd as <-.
    rewrite (IH s o) by (lia || done). unfold encode_string. simpl. by rewrite bool_decide_eq_false_2.
Qed.

(** ** The order of a column *)

(** A value a column of type [t] may hold: NULL, or one of its encoding family. *)
Definition in_column (t : DataType) (v : Value) : Prop :=
  value_wf v /\ (v = VNull \/ tag_of (type_of v) = tag_of t).

#[export] Instance in_column_dec t v : Decision (in_column t v).
Proof. unfold in_column. apply _. Defined.

(** The order of the values of a column: NULL first, then numbers as numbers,
    texts lexicographically by byte, false before true. *)
Definition value_ltb (a b : Value) : bool :=
  match a, b with
  | VNull, VNull => false
  | VNull, _ => true
  | VInt _ x, VInt _ y => (x <? y)%Z
  | VBool x, VBool y => negb x && y
  | VStr _ x, VStr _ y => bytes_ltb x y
  | _, _ => false
  end.

Definition same_payload (a b : Value) : Prop :=
  match a, b with
  | VNull, VNull => True
  | VInt _ x, VInt _ y => x = y
  | VBool x, VBool y => x = y
  | VStr _ x, VStr _ y => x = y
  | _, _ => False
  end.

Lemma tag_int t : tag_of (of_int64_type t) = kTagInt64.
Proof. by destruct t. Qed.
Lemma tag_str t : tag_of (of_string_type t) = kTagString.
Proof. by destruct t. Qed.

Lemma to_column_key_null t : to_column_key VNull t = [tag_of t; x00].
Proof. done. Qed.
Lemma to_column_key_int u x t :
  to_column_key (VInt u x) t = kTagInt64 :: kValueFlag :: encode_be64 (int64_to_ordered x).
Proof. by destruct u. Qed.
Lemma to_column_key_bool b t : to_column_key (VBool b) t = [kTagBool; kValueFlag; if b then x01 else x00].
Proof. done. Qed.
Lemma to_column_key_str u s t : to_column_key (VStr u s) t = kTagString :: kValueFlag :: encode_string s.
Proof. by destruct u. Qed.

Lemma to_key_non_null v t : v <> VNull -> to_key v = to_column_key v t.
Proof. destruct v as [|u x|b|u s]; try destruct u; done. Qed.

Lemma same_payload_eqb a b :
  value_ltb a b = false -> value_ltb b a = false ->
  tag_of (type_of a) = tag_of (type_of b) -> same_payload a b.
Proof.
  destruct a as [|t x|p|t s], b as [|u y|q|u r]; try destruct t; try destruct u; simpl; try done;
    intros H1 H2 _; boolify; try lia; try (by apply bytes_ltb_antisym); by destruct p, q.
Qed.

Lemma key_order t a b : in_column t a -> in_column t b ->
  bytes_ltb (to_column_key a t) (to_column_key b t) = value_ltb a b.
Proof.
  intros [Wa Ta] [Wb Tb].
  assert (Hnull : forall v, value_wf v -> tag_of (type_of v) = tag_of t -> v <> VNull ->
    bytes_ltb (to_column_key VNull t) (to_column_key v t) = true /\
    bytes_ltb (to_column_key v t) (to_column_key VNull t) = false).
  { intros [|u x|p|u s] Wv Tv Hv; [done|..]; rewrite to_column_key_null, <- Tv; simpl;
      rewrite ?tag_int, ?tag_str, ?to_column_key_int, ?to_column_key_str, ?to_column_key_bool; done. }
  destruct Ta as [->|Ta], Tb as [->|Tb].
  - simpl. by rewrite !N.ltb_irrefl.
  - destruct b as [|u y|q|u r]; try (by destruct (Hnull _ Wb Tb) as [-> _]).
    simpl. by rewrite !N.ltb_irrefl.
  - destruct a as [|u y|q|u r]; try (by destruct (Hnull _ Wa Ta) as [_ ->]).
    simpl. by rewrite !N.ltb_irrefl.
  - assert (Ht : tag_of (type_of a) = tag_of (type_of b)) by congruence.
    destruct a as [|u x|p|u s], b as [|w y|q|w r]; simpl in Ht; rewrite ?tag_int, ?tag_str in Ht;
      try done; rewrite ?to_column_key_int, ?to_column_key_bool, ?to_column_key_str; simpl.
    + by rewrite !N.ltb_irrefl.
    + by apply encode_int_order.
    + by destruct p, q.
    + apply encode_string_order.
Qed.

(** C27: keys carry the order of the values. For any two values a column may
    hold, the byte order of their keys is the order of the values (NULL below
    everything, numbers by value across all widths, texts by byte including
    embedded zero bytes and proper prefixes), and the keys are equal exactly
    when the values are. *)
Theorem key_order_preserving t a b :
  in_column t a -> in_column t b ->
  (bytes_ltb (to_column_key a t) (to_column_key b t) = value_ltb a b) /\
  (to_column_key a t = to_column_key b t <-> same_payload a b).
Proof.
  intros Ha Hb. split; [by apply key_order|]. split.
  - intros He. pose proof (key_order t a b Ha Hb) as H1. pose proof (key_order t b a Hb Ha) as H2.
    rewrite He, bytes_ltb_irrefl in H1. rewrite He, bytes_ltb_irrefl in H2.
    destruct Ha as [_ [->|Ta]], Hb as [_ [->|Tb]].
    + done.
    + by destruct b.
    + by destruct a.
    + apply same_payload_eqb; congruence.
  - intros Hs. destruct a as [|u x|p|u s], b as [|w y|q|w r]; simpl in Hs; try done; subst;
      by rewrite ?to_column_key_int, ?to_column_key_str.
Qed.

Lemma key_order_preserving_witness :
  in_column VARCHAR (VStr S_VARCHAR [x61]) /\
  bytes_ltb (to_column_key (VStr S_VARCHAR [x61]) VARCHAR)
    (to_column_key (VStr S_TEXT [x61; x00]) VARCHAR) = true.
Proof.
  assert (Ha : in_column VARCHAR (VStr S_VARCHAR [x61])) by (split; [exact I|right; reflexivity]).
  split; [exact Ha|].
  rewrite (proj1 (key_order_preserving VARCHAR (VStr S_VARCHAR [x61]) (VStr S_TEXT [x61; x00]) Ha
    ltac:(split; [exact I|right; reflexivity]))). reflexivity.
Defined.

(** ** Round trip *)

(** A stored value as the column reads it back: the payload is the value's, the
    logical type the column's. *)
Definition retype (t : DataType) (v : Value) : Value :=
  match v with
  | VNull => VNull
  | VInt _ x => VInt (int64_type_for t) x
  | VBool b => VBool b
  | VStr _ s => VStr (string_type_for t) s
  end.

Lemma length_encode_be64 v : length (encode_be64 v) = 8%nat.
Proof. apply length_be_put. Qed.

Lemma decode_encode_int x : i64 x ->
  ordered_to_int64 (decode_be64 (encode_be64 (int64_to_ordered x))) = x.
Proof.
  intros Hx. unfold decode_be64, encode_be64.
  rewrite be_or_get, be_get_put by (by apply int64_to_ordered_u64). by apply ordered_roundtrip.
Qed.

Lemma from_to_key t v : in_column t v ->
  from_key (to_column_key v t) t = retype t v.
Proof.
  intros [Wv Tv]. destruct v as [|u x|b|u s].
  - rewrite to_column_key_null. simpl. repeat case_match; done.
  - destruct Tv as [|Tv]; [done|]. simpl in Tv. rewrite tag_int in Tv. rewrite to_column_key_int.
    unfold from_key. rewrite <- Tv. simpl. unfold decode_value. simpl.
    rewrite length_encode_be64. simpl. rewrite drop_0, decode_encode_int by done. done.
  - destruct Tv as [|Tv]; [done|]. simpl in Tv. rewrite to_column_key_bool.
    unfold from_key. rewrite <- Tv. by destruct b.
  - destruct Tv as [|Tv]; [done|]. simpl in Tv. rewrite tag_str in Tv. rewrite to_column_key_str.
    unfold from_key. rewrite <- Tv. simpl. unfold decode_value. simpl.
    by rewrite drop_0, decode_encode_string.
Qed.

Lemma column_key_valid t v : tag_of t <> kTagNull -> in_column t v ->
  is_valid_key (to_column_key v t) t = true.
Proof.
  intros Ht [Wv Tv]. destruct v as [|u x|b|u s].
  - rewrite to_column_key_null. simpl. rewrite bool_decide_eq_false_2 by done.
    by rewrite bool_decide_eq_true_2.
  - destruct Tv as [|Tv]; [done|]. simpl in Tv. rewrite tag_int in Tv. rewrite to_column_key_int.
    unfold is_valid_key. rewrite <- Tv. simpl. by rewrite length_encode_be64.
  - destruct Tv as [|Tv]; [done|]. rewrite to_column_key_bool.
    unfold is_valid_key. rewrite <- Tv. by destruct b.
  - destruct Tv as [|Tv]; [done|]. simpl in Tv. rewrite tag_str in Tv. rewrite to_column_key_str.
    unfold is_valid_key. rewrite <- Tv. simpl. by rewrite decode_encode_string.
Qed.

Lemma encode_decode_int (p : bytes) : length p = 8%nat ->
  i64 (ordered_to_int64 (decode_be64 p)) /\
  encode_be64 (int64_to_ordered (ordered_to_int64 (decode_be64 p))) = p.
Proof.
  intros Hl. unfold decode_be64. rewrite be_or_get. pose proof (be_get_lt p) as Hlt. rewrite Hl in Hlt.
  change (2 ^ (8 * N.of_nat 8)) with 18446744073709551616 in Hlt.
  destruct (ordered_to_int64_inv _ Hlt) as [Hi ->]. split; [done|].
  unfold encode_be64. rewrite <- Hl. apply be_put_get.
Qed.

(** A valid key is the key of the value it decodes to. *)
Lemma valid_key_value t key :
  is_valid_key key t = true -> head key <> Some kTagNull ->
  in_column t (from_key key t) /\ key = to_column_key (from_key key t) t.
Proof.
  intros Hv Hh. destruct key as [|tag rest]; [done|]. simpl in Hv, Hh |- *.
  destruct (bool_decide_reflect (tag = kTagNull)) as [->|Hn]; [done|].
  destruct (bool_decide_reflect (tag = tag_of t)) as [->|]; [|done]. simpl in *.
  destruct rest as [|flag payload]; [done|].
  destruct (bool_decide_reflect (flag = kNullFlag)) as [->|Hf].
  { destruct payload; [|done]. split; [by split; [|left]|done]. }
  destruct (bool_decide_reflect (flag = kValueFlag)) as [->|]; [|done]. simpl in *.
  unfold decode_value.
  assert (Hcases : tag_of t = kTagInt64 \/ tag_of t = kTagString \/ tag_of t = kTagBool)
    by (destruct t; simpl in *; tauto).
  destruct Hcases as [Ht|[Ht|Ht]]; rewrite Ht in *; simpl in *.
  - apply Nat.eqb_eq in Hv as Hl. rewrite Hl, drop_0. simpl.
    destruct (encode_decode_int payload Hl) as [Hi He].
    split; [split; [done|right; rewrite Ht; apply tag_int]|]. by rewrite to_column_key_int, He.
  - rewrite drop_0. destruct (decode_string payload) as [out|] eqn:Ed; [|done].
    split; [split; [done|right; rewrite Ht; apply tag_str]|].
    rewrite to_column_key_str. by rewrite (decode_string_inv _ _ Ed) at 1.
  - destruct payload as [|b [|]]; [done| |done]. split; [split; [done|by right]|].
    rewrite to_column_key_bool. apply orb_true_iff in Hv as [Hb|Hb]; apply bool_decide_eq_true_1 in Hb as ->; done.
Qed.

(** Keys and values are in bijection. What a column stores is read back with
    the same payload; and, for a column of a known type, the typed keys
    [is_valid_key] accepts are exactly the keys of values of the column, so no
    two byte strings stand for one value. *)
Theorem key_roundtrip t v key :
  (in_column t v -> from_key (to_column_key v t) t = retype t v) /\
  (tag_of t <> kTagNull ->
   (is_valid_key key t = true /\ head key <> Some kTagNull <->
    exists w, in_column t w /\ key = to_column_key w t)).
Proof.
  split; [apply from_to_key|]. intros Ht. split.
  - intros [Hv Hh]. exists (from_key key t). by apply valid_key_value.
  - intros (w & Hw & ->). split; [by apply column_key_valid|].
    destruct Hw as [_ Hw]. destruct w as [|u x|b|u s]; rewrite ?to_column_key_int, ?to_column_key_str;
      simpl; first [done|congruence].
Qed.

Lemma key_roundtrip_witness :
  from_key (to_column_key (VInt I_INT (-7)) BIGINT) BIGINT = VInt I_BIGINT (-7).
Proof.
  apply (key_roundtrip BIGINT (VInt I_INT (-7)) []). split; [|right; reflexivity].
  vm_compute. split; discriminate.
Defined.
