(* ===== verification/SqlKeyRange.v ===== *)
(** * Ranges of keys: [sql_types/key_range.h]

    A range has optional bounds that are SQL values (NULL included), each open
    or closed. All decisions are made on encoded keys. The planner builds
    ranges from predicates and combines them; the executor flattens a range to
    a half-open interval of byte strings and scans it. *)

From S2P Require Import Prelude Bytes SqlTypes KeyCodec.

Inductive NullScope := NullINCLUDE | NullEXCLUDE | NullONLY.

#[export] Instance NullScope_eq_dec : EqDecision NullScope.
Proof. solve_decision. Defined.

(** The physical interval [[start, end)]. *)
Record StrKeyRange := mkStrKeyRange { sr_start : bytes; sr_end : bytes }.

Definition sr_is_empty (s : StrKeyRange) : bool := negb (bytes_ltb (sr_start s) (sr_end s)).

Record KeyRange := mkKeyRange {
  type_ : DataType;
  low_ : option Value;
  high_ : option Value;
  low_exclusive_ : bool;
  high_inclusive_ : bool }.

(** ** Factories *)

Definition kr_all (t : DataType) : KeyRange := mkKeyRange t None None false false.
Definition non_null (t : DataType) : KeyRange := mkKeyRange t (Some VNull) None true false.
Definition kr_empty (t : DataType) : KeyRange := mkKeyRange t (Some VNull) (Some VNull) true false.

Definition kr_normalize (r : KeyRange) : KeyRange :=
  match low_ r with
  | Some v => if is_null v && negb (low_exclusive_ r)
              then mkKeyRange (type_ r) None (high_ r) (low_exclusive_ r) (high_inclusive_ r) else r
  | None => r
  end.

Definition null_only (t : DataType) : KeyRange :=
  kr_normalize (mkKeyRange t None (Some VNull) false true).

Definition kr_from (start : Value) : KeyRange :=
  if is_null start then kr_all UNKNOWN_TYPE
  else mkKeyRange (type_of start) (Some start) None false false.
Definition kr_gt (v : Value) : KeyRange :=
  if is_null v then kr_empty UNKNOWN_TYPE
  else let r := kr_from v in mkKeyRange (type_ r) (low_ r) (high_ r) true (high_inclusive_ r).
Definition kr_ge (v : Value) : KeyRange :=
  if is_null v then kr_empty UNKNOWN_TYPE else kr_from v.
Definition kr_lt (v : Value) : KeyRange :=
  if is_null v then kr_empty UNKNOWN_TYPE
  else let r := non_null (type_of v) in mkKeyRange (type_ r) (low_ r) (Some v) (low_exclusive_ r) false.
Definition kr_le (v : Value) : KeyRange :=
  if is_null v then kr_empty UNKNOWN_TYPE
  else let r := non_null (type_of v) in mkKeyRange (type_ r) (low_ r) (Some v) (low_exclusive_ r) true.

Definition kr_range (start finish : Value) : KeyRange :=
  kr_normalize (mkKeyRange (if negb (is_null start) then type_of start else type_of finish)
    (Some start) (Some finish) false false).
Definition kr_to (finish : Value) : KeyRange :=
  if is_null finish then kr_empty UNKNOWN_TYPE
  else mkKeyRange (type_of finish) None (Some finish) false false.
Definition kr_closed (low high : Value) : KeyRange :=
  if is_null low || is_null high then kr_empty UNKNOWN_TYPE
  else mkKeyRange (type_of low) (Some low) (Some high) false true.
Definition kr_point (v : Value) : KeyRange :=
  if is_null v then kr_empty UNKNOWN_TYPE else kr_closed v v.
Definition kr_eq (v : Value) (t : DataType) : KeyRange :=
  if is_null v then null_only t else kr_point v.

(** ** Bounds as keys *)

Definition bound_key (t : DataType) (v : Value) (after : bool) : option bytes :=
  if is_null v then
    let k := null_key_for_type t in Some (if after then inclusive_upper_bound k else k)
  else
    let k := to_key v in
    if bool_decide (k = []) then None else Some (if after then inclusive_upper_bound k else k).

Definition low_key (r : KeyRange) : option bytes :=
  match low_ r with Some v => bound_key (type_ r) v (low_exclusive_ r) | None => None end.
Definition high_key (r : KeyRange) : option bytes :=
  match high_ r with Some v => bound_key (type_ r) v (high_inclusive_ r) | None => None end.

(** ** Queries *)

Definition kr_is_empty (r : KeyRange) : bool :=
  if match high_ r with Some v => is_null v && negb (high_inclusive_ r) | None => false end then true
  else match low_key r, high_key r with
       | Some lk, Some hk => negb (bytes_ltb lk hk)
       | _, _ => false
       end.

Definition kr_is_all (r : KeyRange) : bool :=
  match low_ r, high_ r with None, None => true | _, _ => false end.

Definition is_bounded (r : KeyRange) : bool :=
  match low_key r, high_key r with Some lk, Some hk => bytes_ltb lk hk | _, _ => false end.

Definition null_low_ok (r : KeyRange) : bool :=
  match low_ r with Some v => is_null v && negb (low_exclusive_ r) | None => true end.
Definition null_high_ok (r : KeyRange) : bool :=
  match high_ r with Some v => negb (is_null v) || high_inclusive_ r | None => true end.

Definition null_scope (r : KeyRange) : NullScope :=
  if kr_is_empty r then NullEXCLUDE
  else if negb (null_low_ok r && null_high_ok r) then NullEXCLUDE
  else if match high_ r with Some v => is_null v && high_inclusive_ r | None => false end then NullONLY
  else NullINCLUDE.
Definition includes_null (r : KeyRange) : bool := negb (bool_decide (null_scope r = NullEXCLUDE)).

(** [int64_t] subtraction and addition, reduced to the type's range. *)
Definition wrap64 (z : Z) : Z :=
  let m := (z mod 18446744073709551616)%Z in
  if (m <=? int64_max)%Z then m else (m - 18446744073709551616)%Z.

Definition is_point (r : KeyRange) : bool :=
  if kr_is_empty r then false
  else
    let closed_or_null :=
      if high_inclusive_ r && negb (low_exclusive_ r) &&
         match low_ r, high_ r with Some _, Some _ => true | _, _ => false end
      then match low_ r, high_ r with Some l, Some h => value_eqb l h | _, _ => false end
      else match low_ r, high_ r with
           | None, Some h => is_null h && high_inclusive_ r
           | _, _ => false
           end in
    match low_ r, high_ r with
    | Some (VInt tl x as l), Some (VInt th y as h) =>
        if negb (high_inclusive_ r) && negb (low_exclusive_ r) && is_int l && is_int h
        then (wrap64 (y - x) =? 1)%Z
        else closed_or_null
    | _, _ => closed_or_null
    end.

Definition point_value (r : KeyRange) : Value :=
  if negb (is_point r) then VNull
  else match low_ r, high_ r with
       | Some l, Some h => if low_exclusive_ r then h else l
       | Some l, None => l
       | None, Some h => h
       | None, None => VNull
       end.

Definition kr_size (r : KeyRange) : option Z :=
  match low_ r, high_ r with
  | Some (VInt tl x as l), Some (VInt th y as h) =>
      if negb (is_int l) || negb (is_int h) then None
      else if negb (is_bounded r) then None
      else
        let count := wrap64 (y - x) in
        let count := if high_inclusive_ r then wrap64 (count + 1) else count in
        let count := if low_exclusive_ r then wrap64 (count - 1) else count in
        if (count <=? 0)%Z then None else Some count
  | _, _ => None
  end.

Definition contains (r : KeyRange) (v : Value) : bool :=
  if kr_is_empty r then false
  else if is_null v then null_low_ok r && null_high_ok r
  else
    let k := to_key v in
    if bool_decide (k = []) then false
    else if match low_key r with Some lk => bytes_ltb k lk | None => false end then false
    else if match high_key r with Some hk => negb (bytes_ltb k hk) | None => false end then false
    else true.

Definition overlaps (a b : KeyRange) : bool :=
  if kr_is_empty a || kr_is_empty b then false
  else if match low_key a, high_key b with Some lk, Some ohk => negb (bytes_ltb lk ohk) | _, _ => false end
  then false
  else if match low_key b, high_key a with Some olk, Some hk => negb (bytes_ltb olk hk) | _, _ => false end
  then false
  else true.

Definition is_adjacent (a b : KeyRange) : bool :=
  if kr_is_empty a || kr_is_empty b then false
  else match high_key a, low_key b with Some hk, Some olk => bytes_eqb hk olk | _, _ => false end ||
       match low_key a, high_key b with Some lk, Some ohk => bytes_eqb lk ohk | _, _ => false end.

Definition covers (a b : KeyRange) : bool :=
  if kr_is_empty a then kr_is_empty b
  else if kr_is_empty b then true
  else if match low_key a with
          | Some lk => match low_key b with None => true | Some olk => bytes_ltb olk lk end
          | None => false
          end then false
  else if match high_key a with
          | Some hk => match high_key b with None => true | Some ohk => bytes_ltb hk ohk end
          | None => false
          end then false
  else true.

Definition kr_equals (a b : KeyRange) : bool :=
  if kr_is_empty a && kr_is_empty b then true
  else if kr_is_empty a || kr_is_empty b then false
  else bool_decide (low_key a = low_key b) && bool_decide (high_key a = high_key b).

(** ** Set operations *)

Definition merge_type (a b : DataType) : DataType :=
  if negb (bool_decide (a = UNKNOWN_TYPE)) then a else b.

(** A bound: its value and its flag. *)
Definition low_of (r : KeyRange) : option Value * bool := (low_ r, low_exclusive_ r).
Definition high_of (r : KeyRange) : option Value * bool := (high_ r, high_inclusive_ r).
Definition with_bounds (t : DataType) (l h : option Value * bool) : KeyRange :=
  mkKeyRange t l.1 h.1 l.2 h.2.

Definition intersect (a b : KeyRange) : KeyRange :=
  if kr_is_empty a || kr_is_empty b then kr_empty UNKNOWN_TYPE
  else
    let low := match low_key a, low_key b with
               | None, _ => low_of b
               | Some _, None => low_of a
               | Some lk, Some olk => if bytes_ltb lk olk then low_of b else low_of a
               end in
    let high := match high_key a, high_key b with
                | None, _ => high_of b
                | Some _, None => high_of a
                | Some hk, Some ohk => if bytes_ltb ohk hk then high_of b else high_of a
                end in
    kr_normalize (with_bounds (merge_type (type_ a) (type_ b)) low high).

Definition unite (a b : KeyRange) : list KeyRange :=
  if kr_is_empty a then [b]
  else if kr_is_empty b then [a]
  else if negb (overlaps a b) && negb (is_adjacent a b) then [a; b]
  else
    let low := match low_key a, low_key b with
               | None, _ => low_of a
               | Some _, None => low_of b
               | Some lk, Some olk => if bytes_ltb lk olk then low_of a else low_of b
               end in
    let high := match high_key a, high_key b with
                | None, _ => high_of a
                | Some _, None => high_of b
                | Some hk, Some ohk => if bytes_ltb hk ohk then high_of b else high_of a
                end in
    [kr_normalize (with_bounds (merge_type (type_ a) (type_ b)) low high)].

Definition subtract (a b : KeyRange) : list KeyRange :=
  if kr_is_empty a then [kr_empty UNKNOWN_TYPE]
  else if kr_is_empty b || negb (overlaps a b) then [a]
  else if covers b a then [kr_empty UNKNOWN_TYPE]
  else
    let t := merge_type (type_ a) (type_ b) in
    let left := match low_ b with
                | Some l =>
                    let r := kr_normalize (with_bounds t (low_of a) (Some l, low_exclusive_ b)) in
                    if negb (kr_is_empty r) && negb (kr_is_all r) then [r] else []
                | None => []
                end in
    let right := match high_ b with
                 | Some h =>
                     let r := kr_normalize (with_bounds t (Some h, high_inclusive_ b) (high_of a)) in
                     if negb (kr_is_empty r) && negb (kr_is_all r) then [r] else []
                 | None => []
                 end in
    match left ++ right with [] => [kr_empty UNKNOWN_TYPE] | l => l end.

Definition complement (r : KeyRange) : list KeyRange :=
  if kr_is_empty r then [kr_all (type_ r)]
  else if kr_is_all r then [kr_empty UNKNOWN_TYPE]
  else
    let left := match low_ r with
                | Some l =>
                    let c := kr_normalize (with_bounds (type_ r) (None, false) (Some l, low_exclusive_ r)) in
                    if negb (kr_is_empty c) then [c] else []
                | None => []
                end in
    let right := match high_ r with
                 | Some h =>
                     let c := kr_normalize (with_bounds (type_ r) (Some h, high_inclusive_ r) (None, false)) in
                     if negb (kr_is_empty c) then [c] else []
                 | None => []
                 end in
    left ++ right.

(** ** The physical interval *)

Definition to_str_key_range (fallback : DataType) (r : KeyRange) : StrKeyRange :=
  let t := if bool_decide (type_ r = UNKNOWN_TYPE) then fallback else type_ r in
  if kr_is_empty r then mkStrKeyRange (min_key_for_type t) (min_key_for_type t)
  else
    let start :=
      match low_ r with
      | None => min_key_for_type t
      | Some v =>
          let k := if is_null v then min_key_for_type t else to_key v in
          let k := if bool_decide (k = []) then min_key_for_type t else k in
          if low_exclusive_ r then inclusive_upper_bound k else k
      end in
    let finish :=
      match high_ r with
      | None => upper_key_for_type t
      | Some v =>
          let k := if is_null v then min_key_for_type t else to_key v in
          let k := if bool_decide (k = []) then upper_key_for_type t else k in
          if high_inclusive_ r then inclusive_upper_bound k else k
      end in
    mkStrKeyRange start finish.

(** A stored key is visited by a scan of the interval. *)
Definition in_scan (s : StrKeyRange) (k : bytes) : bool :=
  negb (bytes_ltb k (sr_start s)) && bytes_ltb k (sr_end s).

Example closed_scan :
  to_str_key_range INT (kr_closed (VInt I_INT 1) (VInt I_INT 3)) =
  mkStrKeyRange (to_key (VInt I_INT 1)) (to_key (VInt I_INT 3) ++ [x00]).
Proof. vm_compute. reflexivity. Qed.

(** ** What a range means

    A bound, a value with its flag, cuts the order of the column. *)

Definition above (l : option Value * bool) (v : Value) : bool :=
  match l.1 with
  | None => true
  | Some b => if l.2 then value_ltb b v else negb (value_ltb v b)
  end.
Definition below (h : option Value * bool) (v : Value) : bool :=
  match h.1 with
  | None => true
  | Some b => if h.2 then negb (value_ltb b v) else value_ltb v b
  end.
Definition between (r : KeyRange) (v : Value) : bool := above (low_of r) v && below (high_of r) v.

Definition bound_ok (t : DataType) (b : option Value) : Prop :=
  match b with Some v => in_column t v | None => True end.
Definition null_bound (r : KeyRange) : Prop := low_ r = Some VNull \/ high_ r = Some VNull.

(** A range over a column of type [t]: its bounds are values of the column, and
    its type is the family of the column, which is needed for the key of a NULL
    bound; the empty range has any type. *)
Definition empty_form (r : KeyRange) : Prop := high_ r = Some VNull /\ high_inclusive_ r = false.
Definition range_ok (t : DataType) (r : KeyRange) : Prop :=
  bound_ok t (low_ r) /\ bound_ok t (high_ r) /\
  (type_ r = UNKNOWN_TYPE \/ tag_of (type_ r) = tag_of t) /\
  (null_bound r -> tag_of (type_ r) = tag_of t \/ empty_form r).

#[export] Instance bound_ok_dec t b : Decision (bound_ok t b).
Proof. destruct b; apply _. Defined.
#[export] Instance range_ok_dec t r : Decision (range_ok t r).
Proof. unfold range_ok, null_bound, empty_form. apply _. Defined.

(** Consequences of the order of byte strings, by saturation. *)
Ltac bytes_order :=
  repeat match goal with
  | H : Some _ = Some _ |- _ => injection H as H
  | H : bytes_eqb _ _ = true |- _ => apply bytes_eqb_eq in H
  end; subst;
  repeat match goal with
  | H : bytes_ltb ?a ?a = true |- _ => by rewrite bytes_ltb_irrefl in H
  | H : ?x = true, H' : ?x = false |- _ => congruence
  | H : bytes_ltb ?a ?b = true |- _ =>
      lazymatch goal with _ : bytes_ltb b a = false |- _ => fail | _ => pose proof (bytes_ltb_asym _ _ H) end
  | H : bytes_ltb ?a ?b = true, H' : bytes_ltb ?c ?b = false |- _ =>
      lazymatch goal with _ : bytes_ltb a c = true |- _ => fail
      | _ => pose proof (bytes_ltb_le_trans _ _ _ H H') end
  | H' : bytes_ltb ?b ?a = false, H : bytes_ltb ?b ?c = true |- _ =>
      lazymatch goal with _ : bytes_ltb a c = true |- _ => fail
      | _ => pose proof (bytes_le_ltb_trans _ _ _ H' H) end
  | H' : bytes_ltb ?b ?a = false, H : bytes_ltb ?c ?b = false |- _ =>
      lazymatch goal with _ : bytes_ltb c a = false |- _ => fail
      | _ => pose proof (bytes_le_trans _ _ _ H' H) end
  end.

Section column.
Context (t : DataType) (v : Value).
Hypothesis (Hv : in_column t v).

Let K := to_column_key v t.

Lemma to_key_nonempty x : to_key x <> [].
Proof. by destruct x as [|[]| |[]]. Qed.

(** The key of a bound is the key of its value in the column. *)
Lemma bound_key_column u b (after : bool) :
  (b = VNull -> tag_of u = tag_of t) ->
  bound_key u b after =
  Some (if after then to_column_key b t ++ [x00] else to_column_key b t).
Proof.
  intros Hn. unfold bound_key. destruct b as [|i x|x|i x]; simpl.
  - unfold null_key_for_type, min_key_for_type. rewrite Hn by done. by destruct after.
  - rewrite bool_decide_eq_false_2 by (by destruct i). by destruct after, i.
  - by destruct after.
  - rewrite bool_decide_eq_false_2 by (by destruct i). by destruct after, i.
Qed.

Lemma key_above b (after : bool) : in_column t b ->
  negb (bytes_ltb K (if after then to_column_key b t ++ [x00] else to_column_key b t)) =
  above (Some b, after) v.
Proof.
  intros Hb. unfold K, above. simpl. destruct after.
  - rewrite bytes_ltb_succ, negb_involutive. by apply key_order.
  - by rewrite key_order.
Qed.

Lemma key_below b (after : bool) : in_column t b ->
  bytes_ltb K (if after then to_column_key b t ++ [x00] else to_column_key b t) = below (Some b, after) v.
Proof.
  intros Hb. unfold K, below. simpl. destruct after.
  - rewrite bytes_ltb_succ. by rewrite key_order.
  - by apply key_order.
Qed.

(** A range is typed when the keys of its bounds are in the column. *)
Definition typed (r : KeyRange) : Prop :=
  bound_ok t (low_ r) /\ bound_ok t (high_ r) /\ (null_bound r -> tag_of (type_ r) = tag_of t).

Lemma typed_low r : typed r ->
  above (low_of r) v = match low_key r with Some lk => negb (bytes_ltb K lk) | None => true end.
Proof.
  intros (Hl & _ & Hn). unfold low_key, low_of, null_bound in *.
  destruct (low_ r) as [b|]; [|done]. rewrite bound_key_column by (intros ->; auto).
  symmetry. by apply key_above.
Qed.

Lemma typed_high r : typed r ->
  below (high_of r) v = match high_key r with Some hk => bytes_ltb K hk | None => true end.
Proof.
  intros (_ & Hh & Hn). unfold high_key, high_of, null_bound in *.
  destruct (high_ r) as [b|]; [|done]. rewrite bound_key_column by (intros ->; auto).
  symmetry. by apply key_below.
Qed.

Lemma value_ltb_null x : value_ltb x VNull = false.
Proof. by destruct x. Qed.
Lemma value_null_ltb x : value_ltb VNull x = negb (is_null x).
Proof. by destruct x as [|[]| |[]]. Qed.
Lemma is_null_inv x : is_null x = true -> x = VNull.
Proof. by destruct x as [|[]| |[]]. Qed.

Lemma empty_form_between r : empty_form r -> between r v = false.
Proof.
  intros [E1 E2]. unfold between, below, high_of. rewrite E1, E2. simpl.
  by rewrite value_ltb_null, andb_false_r.
Qed.

Lemma empty_form_empty r : empty_form r -> kr_is_empty r = true.
Proof. intros [E1 E2]. unfold kr_is_empty. by rewrite E1, E2. Qed.

Lemma range_ok_cases r : range_ok t r -> typed r \/ empty_form r.
Proof.
  intros (Hl & Hh & _ & Hn).
  destruct (decide (empty_form r)) as [|Hne]; [by right|left].
  split; [done|split; [done|]]. intros Hb. by destruct (Hn Hb).
Qed.

(** An empty range holds no value of the column. *)
Lemma empty_between r : range_ok t r -> kr_is_empty r = true -> between r v = false.
Proof.
  intros Hr He. destruct (range_ok_cases r Hr) as [Ht|Hf]; [|by apply empty_form_between].
  unfold kr_is_empty in He. destruct (match high_ r with Some _ => _ | None => _ end) eqn:E.
  - destruct (high_ r) as [b|] eqn:Eh; [|done]. boolify. apply is_null_inv in H as ->.
    by apply empty_form_between.
  - unfold between. rewrite typed_low, typed_high by done.
    destruct (low_key r) as [lk|], (high_key r) as [hk|]; try done.
    boolify. destruct (bytes_ltb K lk) eqn:E1, (bytes_ltb K hk) eqn:E2; try done. bytes_order.
Qed.

Lemma nonempty_typed r : range_ok t r -> kr_is_empty r = false -> typed r.
Proof.
  intros Hr He. destruct (range_ok_cases r Hr) as [|Hf]; [done|].
  apply empty_form_empty in Hf. congruence.
Qed.

Lemma above_null l : above l VNull = match l.1 with Some x => is_null x && negb l.2 | None => true end.
Proof.
  destruct l as [[b|] e]; [|done]. unfold above. cbn [fst snd]. rewrite value_ltb_null, value_null_ltb.
  destruct (is_null b), e; done.
Qed.
Lemma below_null h : below h VNull = match h.1 with Some x => negb (is_null x) || h.2 | None => true end.
Proof.
  destruct h as [[b|] e]; [|done]. unfold below. cbn [fst snd]. rewrite value_ltb_null, value_null_ltb.
  destruct (is_null b), e; done.
Qed.

Lemma contains_between r : range_ok t r -> contains r v = between r v.
Proof.
  intros Hr. unfold contains. destruct (kr_is_empty r) eqn:He; [by rewrite empty_between|].
  pose proof (nonempty_typed r Hr He) as Ht. destruct (is_null v) eqn:En.
  - apply is_null_inv in En. unfold between. rewrite En, above_null, below_null. done.
  - rewrite bool_decide_eq_false_2 by apply to_key_nonempty.
    rewrite (to_key_non_null v t) by (by intros ->). fold K.
    unfold between. rewrite typed_low, typed_high by done.
    destruct (low_key r) as [lk|], (high_key r) as [hk|]; simpl;
      try destruct (bytes_ltb K lk); try destruct (bytes_ltb K hk); done.
Qed.

(** ** Set operations *)

Lemma between_normalize r : between (kr_normalize r) v = between r v.
Proof.
  unfold kr_normalize. destruct (low_ r) as [b|] eqn:El; [|done].
  destruct (is_null b && negb (low_exclusive_ r)) eqn:E; [|done]. boolify.
  apply is_null_inv in H as ->. unfold between, above, below, low_of, high_of. simpl.
  by rewrite El, H0, value_ltb_null.
Qed.

Lemma range_ok_normalize r : range_ok t r -> range_ok t (kr_normalize r).
Proof.
  intros Hr. pose proof Hr as (Hl & Hh & Ht & Hn). unfold kr_normalize.
  destruct (low_ r) as [b|] eqn:El; [|done]. destruct (_ && _); [|done].
  split; [done|]. split; [done|]. split; [done|]. intros [|Hb]; [done|].
  apply Hn. by right.
Qed.

Lemma merge_type_ok a b : range_ok t a -> range_ok t b ->
  merge_type (type_ a) (type_ b) = UNKNOWN_TYPE \/
  tag_of (merge_type (type_ a) (type_ b)) = tag_of t.
Proof.
  intros (_ & _ & Ha & _) (_ & _ & Hb & _). unfold merge_type.
  case_bool_decide; simpl; [done|]. by destruct Ha; [|right].
Qed.

Lemma merge_type_null a b : range_ok t a -> range_ok t b -> typed a -> typed b ->
  null_bound a \/ null_bound b -> tag_of (merge_type (type_ a) (type_ b)) = tag_of t.
Proof.
  intros (_ & _ & Ha & _) (_ & _ & Hb & _) (_ & _ & Na) (_ & _ & Nb) Hn. unfold merge_type.
  case_bool_decide as E; simpl.
  - destruct Hb as [Hb|]; [|done]. rewrite Hb. destruct Hn as [Hn|Hn].
    + rewrite <- E. by apply Na.
    + rewrite <- Hb. by apply Nb.
  - by destruct Ha.
Qed.

(** Any bounds of two ranges make a range of the column. *)
Definition bound_of (a b : KeyRange) (x : option Value) : Prop :=
  x = None \/ x = low_ a \/ x = high_ a \/ x = low_ b \/ x = high_ b.

Lemma merge_ok a b l h :
  range_ok t a -> range_ok t b -> kr_is_empty a = false -> kr_is_empty b = false ->
  bound_of a b l.1 -> bound_of a b h.1 ->
  range_ok t (kr_normalize (with_bounds (merge_type (type_ a) (type_ b)) l h)).
Proof.
  intros Ha Hb Ea Eb Hl Hh. apply range_ok_normalize.
  pose proof (nonempty_typed a Ha Ea) as Ta. pose proof (nonempty_typed b Hb Eb) as Tb.
  assert (Hbound : forall x, bound_of a b x -> bound_ok t x).
  { destruct Ta as (? & ? & _), Tb as (? & ? & _). intros x [->|[->|[->|[->| ->]]]]; done. }
  assert (Hnull : forall x, bound_of a b x -> x = Some VNull -> null_bound a \/ null_bound b).
  { intros x Hx ->. unfold null_bound. destruct Hx as [|[|[|[|]]]]; try done; auto. }
  split; [by apply Hbound|]. split; [by apply Hbound|]. split; [by apply merge_type_ok|].
  intros Hn. left. apply merge_type_null; try done. unfold null_bound in Hn. simpl in Hn.
  destruct Hn; [by apply (Hnull l.1)|by apply (Hnull h.1)].
Qed.

Lemma null_in_column : in_column t VNull.
Proof. by split; [|left]. Qed.
Lemma kr_empty_ok : range_ok t (kr_empty UNKNOWN_TYPE).
Proof.
  split; [apply null_in_column|]. split; [apply null_in_column|]. split; [by left|]. by right.
Qed.
Lemma kr_empty_between u : between (kr_empty u) v = false.
Proof. by apply empty_form_between. Qed.

Lemma intersect_ok a b : range_ok t a -> range_ok t b -> range_ok t (intersect a b).
Proof.
  intros Ha Hb. unfold intersect. destruct (kr_is_empty a || kr_is_empty b) eqn:E.
  { apply kr_empty_ok. }
  boolify. apply merge_ok; try done; unfold bound_of, low_of, high_of;
    repeat case_match; simpl; tauto.
Qed.

Lemma unite_ok a b : range_ok t a -> range_ok t b -> Forall (range_ok t) (unite a b).
Proof.
  intros Ha Hb. unfold unite. destruct (kr_is_empty a) eqn:Ea; [by constructor|].
  destruct (kr_is_empty b) eqn:Eb; [by constructor|].
  destruct (negb _ && negb _); [by constructor; [|constructor]|]. constructor; [|constructor].
  apply merge_ok; try done; unfold bound_of, low_of, high_of;
    repeat case_match; simpl; tauto.
Qed.

Lemma between_with_bounds u l h : between (with_bounds u l h) v = above l v && below h v.
Proof. unfold between, low_of, high_of. by destruct l, h. Qed.

Lemma intersect_between a b : range_ok t a -> range_ok t b ->
  between (intersect a b) v = between a v && between b v.
Proof.
  intros Ha Hb. unfold intersect. destruct (kr_is_empty a || kr_is_empty b) eqn:E.
  { rewrite kr_empty_between. apply orb_true_iff in E as [E|E].
    - by rewrite (empty_between a).
    - by rewrite (empty_between b), andb_false_r. }
  boolify. pose proof (nonempty_typed a Ha H) as Ta. pose proof (nonempty_typed b Hb H0) as Tb.
  rewrite between_normalize, between_with_bounds. unfold between.
  assert (forall (p q r s x y : bool), x = p && r -> y = q && s -> x && y = (p && q) && (r && s)) as Hswap
    by (by intros [] [] [] [] [] []).
  apply Hswap.
  - pose proof (typed_low a Ta) as La. pose proof (typed_low b Tb) as Lb.
    destruct (low_key a) as [lk|], (low_key b) as [olk|]; try (by rewrite ?La, ?Lb, ?andb_true_r).
    destruct (bytes_ltb lk olk) eqn:E1; rewrite La, Lb;
      destruct (bytes_ltb K lk) eqn:E2, (bytes_ltb K olk) eqn:E3; try done; bytes_order.
  - pose proof (typed_high a Ta) as La. pose proof (typed_high b Tb) as Lb.
    destruct (high_key a) as [lk|], (high_key b) as [olk|]; try (by rewrite ?La, ?Lb, ?andb_true_r).
    destruct (bytes_ltb olk lk) eqn:E1; rewrite La, Lb;
      destruct (bytes_ltb K lk) eqn:E2, (bytes_ltb K olk) eqn:E3; try done; bytes_order.
Qed.

Definition in_ranges (rs : list KeyRange) : bool := existsb (fun r => between r v) rs.

Lemma overlaps_bounds a b : kr_is_empty a = false -> kr_is_empty b = false -> overlaps a b = true ->
  (forall lk ohk, low_key a = Some lk -> high_key b = Some ohk -> bytes_ltb lk ohk = true) /\
  (forall olk hk, low_key b = Some olk -> high_key a = Some hk -> bytes_ltb olk hk = true).
Proof.
  intros Ea Eb. unfold overlaps. rewrite Ea, Eb. simpl. intros Ho.
  split; intros x y Ex Ey; rewrite Ex, Ey in Ho.
  - by destruct (bytes_ltb x y).
  - destruct (match low_key a with Some _ => _ | None => _ end); [done|]. by destruct (bytes_ltb x y).
Qed.

(** Overlapping and touching ranges leave no gap between them. *)
Definition no_gap (a b : KeyRange) : Prop :=
  (forall lk ohk, low_key a = Some lk -> high_key b = Some ohk -> bytes_ltb ohk lk = false) /\
  (forall olk hk, low_key b = Some olk -> high_key a = Some hk -> bytes_ltb hk olk = false).

Lemma nonempty_bounds a lk hk : kr_is_empty a = false ->
  low_key a = Some lk -> high_key a = Some hk -> bytes_ltb lk hk = true.
Proof.
  unfold kr_is_empty. intros He El Eh. rewrite El, Eh in He.
  destruct (match high_ a with Some _ => _ | None => _ end); [done|]. by boolify.
Qed.

Lemma touching_no_gap a b : kr_is_empty a = false -> kr_is_empty b = false ->
  negb (overlaps a b) && negb (is_adjacent a b) = false -> no_gap a b.
Proof.
  intros Ea Eb H. destruct (overlaps a b) eqn:Eo.
  { destruct (overlaps_bounds a b Ea Eb Eo) as [H1 H2].
    split; intros x y Ex Ey; apply bytes_ltb_asym; eauto. }
  destruct (is_adjacent a b) eqn:Ej; [|done]. clear H. unfold no_gap, is_adjacent in *. rewrite Ea, Eb in Ej.
  pose proof (nonempty_bounds a) as Na. pose proof (nonempty_bounds b) as Nb.
  apply orb_true_iff in Ej as [Ej|Ej].
  - destruct (high_key a) as [hk|] eqn:Eh, (low_key b) as [olk|] eqn:El; try done.
    split; intros x y Ex Ey; [|bytes_order; apply bytes_ltb_irrefl].
    specialize (Na x hk Ea Ex eq_refl). specialize (Nb olk y Eb eq_refl Ey). by bytes_order.
  - destruct (low_key a) as [lk|] eqn:El, (high_key b) as [ohk|] eqn:Eh; try done.
    split; intros x y Ex Ey; [bytes_order; apply bytes_ltb_irrefl|].
    specialize (Na lk y Ea eq_refl Ey). specialize (Nb x ohk Eb Ex eq_refl). by bytes_order.
Qed.

Lemma unite_between a b : range_ok t a -> range_ok t b ->
  in_ranges (unite a b) = between a v || between b v.
Proof.
  intros Ha Hb. unfold unite. destruct (kr_is_empty a) eqn:Ea.
  { simpl. by rewrite (empty_between a), orb_false_r. }
  destruct (kr_is_empty b) eqn:Eb; [simpl; by rewrite (empty_between b)|].
  destruct (negb _ && negb _) eqn:Et; [simpl; by rewrite orb_false_r|].
  destruct (touching_no_gap a b Ea Eb Et) as [G1 G2].
  pose proof (nonempty_typed a Ha Ea) as Ta. pose proof (nonempty_typed b Hb Eb) as Tb.
  unfold in_ranges. simpl. rewrite orb_false_r, between_normalize, between_with_bounds. unfold between.
  pose proof (typed_low a Ta) as La. pose proof (typed_low b Tb) as Lb.
  pose proof (typed_high a Ta) as Ua. pose proof (typed_high b Tb) as Ub.
  destruct (low_key a) as [lk|], (low_key b) as [olk|], (high_key a) as [hk|], (high_key b) as [ohk|];
    try specialize (G1 _ _ eq_refl eq_refl); try specialize (G2 _ _ eq_refl eq_refl);
    repeat case_match; rewrite La, Lb, Ua, Ub; clear La Lb Ua Ub;
    try destruct (bytes_ltb K lk) eqn:?; try destruct (bytes_ltb K olk) eqn:?;
    try destruct (bytes_ltb K hk) eqn:?; try destruct (bytes_ltb K ohk) eqn:?; simpl; try done; bytes_order.
Qed.

(** Just below a lower bound is just what the lower bound excludes. *)
Lemma below_above b e : below (Some b, e) v = negb (above (Some b, e) v).
Proof. unfold below, above. simpl. destruct e; [done|]. by rewrite negb_involutive. Qed.
Lemma above_below b e : above (Some b, e) v = negb (below (Some b, e) v).
Proof. by rewrite below_above, negb_involutive. Qed.

Lemma keep_nonempty r : range_ok t r ->
  in_ranges (if negb (kr_is_empty r) then [r] else []) = between r v.
Proof.
  intros Hr. destruct (kr_is_empty r) eqn:E; simpl; [by rewrite empty_between|by rewrite orb_false_r].
Qed.

Lemma keep_nonempty_not_all r : range_ok t r -> kr_is_all r = false ->
  in_ranges (if negb (kr_is_empty r) && negb (kr_is_all r) then [r] else []) = between r v.
Proof. intros Hr ->. rewrite andb_true_r. by apply keep_nonempty. Qed.

Lemma in_ranges_app l1 l2 : in_ranges (l1 ++ l2) = in_ranges l1 || in_ranges l2.
Proof. apply existsb_app. Qed.

Lemma normalize_high r : high_ (kr_normalize r) = high_ r.
Proof. unfold kr_normalize. by repeat case_match. Qed.

Lemma normalize_low r : low_exclusive_ r = true \/ low_ r <> Some VNull -> low_ (kr_normalize r) = low_ r.
Proof.
  unfold kr_normalize. destruct (low_ r) as [b|] eqn:El; [|done]. intros Hr.
  destruct (is_null b && _) eqn:E; [|done]. boolify. apply is_null_inv in H as ->.
  destruct Hr; congruence.
Qed.

Lemma high_not_null r b : kr_is_empty r = false -> high_ r = Some b ->
  high_inclusive_ r = true \/ Some b <> Some VNull.
Proof.
  intros He Hh. destruct (high_inclusive_ r) eqn:E; [by left|right]. intros [= ->].
  by rewrite (empty_form_empty r) in He.
Qed.

Lemma covers_between a b : range_ok t a -> range_ok t b -> kr_is_empty a = false ->
  covers b a = true -> between a v = true -> between b v = true.
Proof.
  intros Ha Hb Ea Hc. unfold covers in Hc. rewrite Ea in Hc.
  destruct (kr_is_empty b) eqn:Eb; [done|].
  pose proof (nonempty_typed a Ha Ea) as Ta. pose proof (nonempty_typed b Hb Eb) as Tb.
  unfold between. rewrite !typed_low, !typed_high by done.
  destruct (low_key a) as [lk|], (low_key b) as [olk|], (high_key a) as [hk|], (high_key b) as [ohk|];
    repeat case_match; intros; boolify; try done; rewrite ?andb_true_iff, ?negb_true_iff;
    repeat split; try (destruct (bytes_ltb K olk) eqn:?); try (destruct (bytes_ltb K ohk) eqn:?);
    try done; bytes_order.
Qed.

(** The two pieces of a difference stay inside [a] because [b] overlaps it. *)
Lemma overlap_left a b : range_ok t a -> range_ok t b -> kr_is_empty a = false -> kr_is_empty b = false ->
  overlaps a b = true -> above (low_of b) v = false -> below (high_of a) v = true.
Proof.
  intros Ha Hb Ea Eb Ho. destruct (overlaps_bounds a b Ea Eb Ho) as [_ H2].
  rewrite (typed_low b), (typed_high a) by (by apply nonempty_typed).
  destruct (low_key b) as [olk|]; [|done]. destruct (high_key a) as [hk|]; [|done].
  specialize (H2 _ _ eq_refl eq_refl). intros. boolify. destruct (bytes_ltb K hk) eqn:?; [done|]. bytes_order.
Qed.
Lemma overlap_right a b : range_ok t a -> range_ok t b -> kr_is_empty a = false -> kr_is_empty b = false ->
  overlaps a b = true -> below (high_of b) v = false -> above (low_of a) v = true.
Proof.
  intros Ha Hb Ea Eb Ho. destruct (overlaps_bounds a b Ea Eb Ho) as [H1 _].
  rewrite (typed_low a), (typed_high b) by (by apply nonempty_typed).
  destruct (low_key a) as [lk|]; [|done]. destruct (high_key b) as [ohk|]; [|done].
  specialize (H1 _ _ eq_refl eq_refl). intros. destruct (bytes_ltb K lk) eqn:?; [|done]. bytes_order.
Qed.

Lemma disjoint_between a b : range_ok t a -> range_ok t b -> kr_is_empty a = false -> kr_is_empty b = false ->
  overlaps a b = false -> between a v && between b v = false.
Proof.
  intros Ha Hb Ea Eb Ho. unfold between. unfold overlaps in Ho. rewrite Ea, Eb in Ho. simpl in Ho.
  rewrite (typed_low a), (typed_high b), (typed_low b), (typed_high a) by (by apply nonempty_typed).
  destruct (low_key a) as [lk|], (low_key b) as [olk|], (high_key a) as [hk|], (high_key b) as [ohk|];
    repeat case_match; boolify; try done;
    try destruct (bytes_ltb K lk) eqn:?; try destruct (bytes_ltb K olk) eqn:?;
    try destruct (bytes_ltb K hk) eqn:?; try destruct (bytes_ltb K ohk) eqn:?; simpl; try done; bytes_order.
Qed.

Lemma in_ranges_default l :
  in_ranges (match l with [] => [kr_empty UNKNOWN_TYPE] | r :: k => r :: k end) = in_ranges l.
Proof. destruct l; [|done]. simpl. by rewrite kr_empty_between. Qed.

Lemma subtract_between a b : range_ok t a -> range_ok t b ->
  in_ranges (subtract a b) = between a v && negb (between b v).
Proof.
  intros Ha Hb. unfold subtract. destruct (kr_is_empty a) eqn:Ea.
  { simpl. by rewrite kr_empty_between, (empty_between a). }
  destruct (kr_is_empty b) eqn:Eb; [simpl; by rewrite (empty_between b), orb_false_r, andb_true_r|].
  destruct (overlaps a b) eqn:Eo; cbn [negb orb].
  2:{ unfold in_ranges. cbn [existsb]. pose proof (disjoint_between a b Ha Hb Ea Eb Eo). rewrite orb_false_r.
      by destruct (between a v), (between b v). }
  destruct (covers b a) eqn:Ec.
  { pose proof (covers_between a b Ha Hb Ea Ec). simpl. rewrite kr_empty_between.
    destruct (between a v); [|done]. by rewrite H. }
  rewrite in_ranges_default, in_ranges_app.
  assert (forall x y z w, x = above (low_of a) v && negb (above (low_of b) v) ->
    y = negb (below (high_of b) v) && below (high_of a) v -> z = between a v -> w = between b v ->
    x || y = z && negb w) as Hpieces.
  { intros ? ? ? ? -> -> -> ->. unfold between.
    pose proof (overlap_left a b Ha Hb Ea Eb Eo). pose proof (overlap_right a b Ha Hb Ea Eb Eo).
    destruct (above (low_of a) v), (above (low_of b) v), (below (high_of a) v), (below (high_of b) v);
      try done; intuition congruence. }
  apply Hpieces; try done; clear Hpieces.
  - destruct (low_ b) as [l|] eqn:El; [|unfold above at 2, low_of; rewrite El; by rewrite andb_false_r].
    rewrite keep_nonempty_not_all; [|apply merge_ok; try done; unfold bound_of, low_of, high_of; simpl; rewrite ?El; tauto|].
    + rewrite between_normalize, between_with_bounds, below_above. unfold low_of. by rewrite El.
    + unfold kr_is_all. rewrite normalize_high. by case_match.
  - destruct (high_ b) as [h|] eqn:Eh; [|unfold below at 1, high_of; rewrite Eh; done].
    rewrite keep_nonempty_not_all; [|apply merge_ok; try done; unfold bound_of, low_of, high_of; simpl; rewrite ?Eh; tauto|].
    + rewrite between_normalize, between_with_bounds, above_below. unfold high_of. by rewrite Eh.
    + unfold kr_is_all. rewrite normalize_low by (by apply high_not_null). done.
Qed.

Lemma half_ok r l h : range_ok t r -> kr_is_empty r = false ->
  bound_of r r l.1 -> bound_of r r h.1 -> range_ok t (kr_normalize (with_bounds (type_ r) l h)).
Proof.
  intros Hr Er Hl Hh. pose proof (merge_ok r r l h Hr Hr Er Er Hl Hh) as H.
  unfold merge_type in H. by destruct (negb _).
Qed.

Lemma complement_between r : range_ok t r -> in_ranges (complement r) = negb (between r v).
Proof.
  intros Hr. unfold complement. destruct (kr_is_empty r) eqn:Er.
  { simpl. by rewrite (empty_between r). }
  destruct (kr_is_all r) eqn:Ea.
  { unfold kr_is_all in Ea. simpl. rewrite kr_empty_between. unfold between, low_of, high_of.
    by destruct (low_ r), (high_ r). }
  rewrite in_ranges_app. unfold between at 1. rewrite negb_andb. f_equal.
  - destruct (low_ r) as [l|] eqn:El; [|unfold above, low_of; by rewrite El].
    rewrite keep_nonempty by (apply half_ok; try done; unfold bound_of, low_of, high_of; simpl; rewrite ?El; tauto).
    rewrite between_normalize, between_with_bounds, below_above. unfold low_of. by rewrite El.
  - destruct (high_ r) as [h|] eqn:Eh; [|unfold below, high_of; by rewrite Eh].
    rewrite keep_nonempty by (apply half_ok; try done; unfold bound_of, low_of, high_of; simpl; rewrite ?Eh; tauto).
    rewrite between_normalize, between_with_bounds, above_below. unfold high_of. by rewrite Eh, andb_true_r.
Qed.

Lemma keep_ok r (c : bool) : range_ok t r -> Forall (range_ok t) (if c then [r] else []).
Proof. intros Hr. destruct c; [by constructor|constructor]. Qed.

Lemma subtract_ok a b : range_ok t a -> range_ok t b -> Forall (range_ok t) (subtract a b).
Proof.
  intros Ha Hb. unfold subtract. destruct (kr_is_empty a) eqn:Ea; [constructor; [apply kr_empty_ok|done]|].
  destruct (kr_is_empty b) eqn:Eb; [by constructor|].
  destruct (overlaps a b); cbn [orb negb]; [|by constructor].
  destruct (covers b a); [constructor; [apply kr_empty_ok|done]|].
  set (pieces := _ ++ _).
  assert (Forall (range_ok t) pieces) as Hp.
  { apply Forall_app. split.
    - destruct (low_ b) eqn:El; [|constructor]. apply keep_ok.
      apply merge_ok; try done; unfold bound_of, low_of, high_of; simpl; rewrite ?El; tauto.
    - destruct (high_ b) eqn:El; [|constructor]. apply keep_ok.
      apply merge_ok; try done; unfold bound_of, low_of, high_of; simpl; rewrite ?El; tauto. }
  destruct pieces; [constructor; [apply kr_empty_ok|done]|done].
Qed.

Lemma complement_ok r : range_ok t r -> Forall (range_ok t) (complement r).
Proof.
  intros Hr. pose proof Hr as (_ & _ & Ht & _). unfold complement. destruct (kr_is_empty r) eqn:Er.
  { constructor; [|done]. split; [done|]. split; [done|]. split; [done|]. by intros []. }
  destruct (kr_is_all r); [constructor; [apply kr_empty_ok|done]|].
  apply Forall_app. split.
  - destruct (low_ r) eqn:El; [|constructor]. apply keep_ok.
    apply half_ok; try done; unfold bound_of, low_of, high_of; simpl; rewrite ?El; tauto.
  - destruct (high_ r) eqn:El; [|constructor]. apply keep_ok.
    apply half_ok; try done; unfold bound_of, low_of, high_of; simpl; rewrite ?El; tauto.
Qed.

(** ** The physical interval *)

Lemma key_above_min : bytes_ltb K (min_key_for_type t) = false.
Proof.
  change (min_key_for_type t) with (to_column_key VNull t). unfold K.
  rewrite key_order by (try done; apply null_in_column). apply value_ltb_null.
Qed.

Lemma key_head : exists rest, K = tag_of t :: rest.
Proof.
  destruct Hv as [_ [Hn|Ht]]; unfold K; [rewrite Hn; by eexists|].
  destruct v as [|u x|x|u x]; [by exists [x00]|..]; rewrite <- Ht; simpl type_of;
    rewrite ?tag_int, ?tag_str, ?to_column_key_int, ?to_column_key_str; by eexists.
Qed.

Lemma key_below_upper : tag_of t <> kTagNull -> bytes_ltb K (upper_key_for_type t) = true.
Proof.
  intros Ht. destruct key_head as [rest ->]. unfold upper_key_for_type.
  rewrite bool_decide_eq_false_2 by done.
  assert (Hcases : tag_of t = kTagInt64 \/ tag_of t = kTagString \/ tag_of t = kTagBool)
    by (clear -Ht; destruct t; simpl in *; tauto).
  destruct Hcases as [-> |[-> | ->]]; done.
Qed.

Lemma family_keys u : tag_of u = tag_of t ->
  min_key_for_type u = min_key_for_type t /\ upper_key_for_type u = upper_key_for_type t.
Proof. intros E. unfold min_key_for_type, upper_key_for_type. by rewrite E. Qed.

Lemma bound_column u b : tag_of u = tag_of t ->
  (if is_null b then min_key_for_type u else to_key b) = to_column_key b t.
Proof.
  intros E. destruct (is_null b) eqn:En.
  - apply is_null_inv in En as ->. unfold min_key_for_type. by rewrite E.
  - apply to_key_non_null. by intros ->.
Qed.

Lemma column_key_nonempty b : to_column_key b t <> [].
Proof. by destruct b as [|[]| |[]]. Qed.

Lemma scan_between r : tag_of t <> kTagNull -> range_ok t r ->
  in_scan (to_str_key_range t r) K = between r v.
Proof.
  intros Hk Hr. unfold to_str_key_range. set (u := if bool_decide _ then t else type_ r).
  assert (Hu : tag_of u = tag_of t).
  { destruct Hr as (_ & _ & Ht & _). unfold u. case_bool_decide; [done|]. by destruct Ht. }
  destruct (family_keys u Hu) as [-> ->]. destruct (kr_is_empty r) eqn:Er.
  { rewrite empty_between by done. unfold in_scan. simpl. by rewrite andb_negb_l. }
  pose proof (nonempty_typed r Hr Er) as (Hl & Hh & _). unfold in_scan, between, low_of, high_of. simpl. f_equal.
  - destruct (low_ r) as [b|]; [|by rewrite key_above_min].
    rewrite <- (key_above b (low_exclusive_ r)) by done.
    pose proof (bound_column u b Hu) as Hb. rewrite (proj1 (family_keys u Hu)) in Hb. rewrite Hb.
    by rewrite bool_decide_eq_false_2 by apply column_key_nonempty.
  - destruct (high_ r) as [b|]; [|by rewrite key_below_upper].
    rewrite <- (key_below b (high_inclusive_ r)) by done.
    pose proof (bound_column u b Hu) as Hb. rewrite (proj1 (family_keys u Hu)) in Hb. rewrite Hb.
    by rewrite bool_decide_eq_false_2 by apply column_key_nonempty.
Qed.
End column.

(** C26: a scan of a range visits the rows of the range, no more and no fewer.
    For a range over a key column of a known family, a value the column may hold
    is contained in the range exactly when it lies between the bounds in the order
    of the column (NULL lowest, each bound open or closed as its flag says), and
    exactly when its stored key falls in the physical interval the executor scans. *)
Theorem range_scan_exact t r v :
  tag_of t <> kTagNull -> range_ok t r -> in_column t v ->
  contains r v = between r v /\
  in_scan (to_str_key_range t r) (to_column_key v t) = contains r v.
Proof.
  intros Ht Hr Hv. rewrite (contains_between t v Hv r Hr). split; [done|]. by apply scan_between.
Qed.

Lemma range_scan_exact_witness :
  in_scan (to_str_key_range INT (kr_gt (VInt I_INT 4))) (to_column_key (VInt I_INT 5) INT) = true.
Proof.
  destruct (range_scan_exact INT (kr_gt (VInt I_INT 4)) (VInt I_INT 5)) as [H1 H2].
  - discriminate.
  - vm_compute. intuition discriminate.
  - vm_compute. intuition discriminate.
  - rewrite H2, H1. reflexivity.
Defined.

Lemma existsb_contains t v rs : in_column t v -> Forall (range_ok t) rs ->
  existsb (fun r => contains r v) rs = in_ranges v rs.
Proof.
  intros Hv. unfold in_ranges. induction 1 as [|r rs Hr _ IH]; [done|]. simpl.
  by rewrite IH, (contains_between t v Hv).
Qed.

(** The range algebra is set algebra. For ranges over one column and every
    value of the column, intersection is conjunction, union disjunction,
    difference removal and complement negation of membership (in the list of
    ranges the operation returns), and every result is again a range over the
    column. *)
Theorem range_algebra t a b v :
  range_ok t a -> range_ok t b -> in_column t v ->
  contains (intersect a b) v = contains a v && contains b v /\
  existsb (fun r => contains r v) (unite a b) = contains a v || contains b v /\
  existsb (fun r => contains r v) (subtract a b) = contains a v && negb (contains b v) /\
  existsb (fun r => contains r v) (complement a) = negb (contains a v) /\
  Forall (range_ok t) (intersect a b :: unite a b ++ subtract a b ++ complement a).
Proof.
  intros Ha Hb Hv.
  pose proof (intersect_ok t a b Ha Hb) as Hi. pose proof (unite_ok t a b Ha Hb) as Hu.
  pose proof (subtract_ok t a b Ha Hb) as Hs. pose proof (complement_ok t a Ha) as Hc.
  rewrite !(existsb_contains t) by done.
  rewrite (contains_between t v Hv a Ha), (contains_between t v Hv b Hb), (contains_between t v Hv _ Hi).
  split; [by apply (intersect_between t)|]. split; [by apply (unite_between t)|].
  split; [by apply (subtract_between t)|]. split; [by apply (complement_between t)|].
  constructor; [done|]. by rewrite !Forall_app.
Qed.

Lemma range_algebra_witness :
  existsb (fun r => contains r VNull) (subtract (kr_all INT) (kr_gt (VInt I_INT 4))) = true.
Proof.
  destruct (range_algebra INT (kr_all INT) (kr_gt (VInt I_INT 4)) VNull) as (_ & _ & H & _).
  - vm_compute. intuition discriminate.
  - vm_compute. intuition discriminate.
  - vm_compute. intuition discriminate.
  - rewrite H. reflexivity.
Defined.

(** [KeyRange::size] and [is_point] subtract the bounds as [int64_t], which the
    language leaves undefined when they are further apart than the type allows;
    with the usual reduction the size of such a range is lost. *)
Example wide_range_has_no_size :
  let r := kr_closed (VInt I_BIGINT (-1)) (VInt I_BIGINT int64_max) in
  is_bounded r = true /\ kr_size r = None /\ contains r (VInt I_BIGINT 0) = true.
Proof. vm_compute. auto. Qed.
