(* ===== verification/SqlTruth.v ===== *)
(** * Three-valued predicates: [sql_types/sql_truth.h], [sql_types/compare_op.cpp],
    [sql_types/condition_types.h], [sql_types/identifier.h]

    Truth values, the comparison of two values with its promotions, [LIKE], and
    the evaluation of a condition tree on a row. *)

From S2P Require Import Prelude Bytes SqlTypes Temporal KeyCodec SqlKeyRange.
Local Open Scope Z_scope.

(** ** Truth values *)

Inductive Truth := T_FALSE | T_TRUE | T_UNKNOWN.

#[export] Instance Truth_eq_dec : EqDecision Truth.
Proof. solve_decision. Defined.

Definition truth_from_bool (b : bool) : Truth := if b then T_TRUE else T_FALSE.
Definition truth_not (t : Truth) : Truth :=
  match t with T_TRUE => T_FALSE | T_FALSE => T_TRUE | T_UNKNOWN => T_UNKNOWN end.
Definition truth_and (a b : Truth) : Truth :=
  if bool_decide (a = T_FALSE) || bool_decide (b = T_FALSE) then T_FALSE
  else if bool_decide (a = T_UNKNOWN) || bool_decide (b = T_UNKNOWN) then T_UNKNOWN
  else T_TRUE.
Definition truth_or (a b : Truth) : Truth :=
  if bool_decide (a = T_TRUE) || bool_decide (b = T_TRUE) then T_TRUE
  else if bool_decide (a = T_UNKNOWN) || bool_decide (b = T_UNKNOWN) then T_UNKNOWN
  else T_FALSE.
Definition where_keeps (t : Truth) : bool := bool_decide (t = T_TRUE).

Lemma truth_and_assoc a b c : truth_and a (truth_and b c) = truth_and (truth_and a b) c.
Proof. by destruct a, b, c. Qed.
Lemma truth_or_assoc a b c : truth_or a (truth_or b c) = truth_or (truth_or a b) c.
Proof. by destruct a, b, c. Qed.
Lemma truth_and_comm a b : truth_and a b = truth_and b a.
Proof. by destruct a, b. Qed.
Lemma truth_or_comm a b : truth_or a b = truth_or b a.
Proof. by destruct a, b. Qed.
Lemma truth_and_true a : truth_and T_TRUE a = a.
Proof. by destruct a. Qed.
Lemma truth_or_false a : truth_or T_FALSE a = a.
Proof. by destruct a. Qed.
Lemma truth_not_and a b : truth_not (truth_and a b) = truth_or (truth_not a) (truth_not b).
Proof. by destruct a, b. Qed.
Lemma truth_not_or a b : truth_not (truth_or a b) = truth_and (truth_not a) (truth_not b).
Proof. by destruct a, b. Qed.
Lemma truth_not_not a : truth_not (truth_not a) = a.
Proof. by destruct a. Qed.
Lemma keeps_and a b : where_keeps (truth_and a b) = where_keeps a && where_keeps b.
Proof. by destruct a, b. Qed.
Lemma keeps_or a b : where_keeps (truth_or a b) = where_keeps a || where_keeps b.
Proof. by destruct a, b. Qed.

(** ** [LIKE]

    [%] any text, [_] one byte, [\] takes the next byte literally (a final
    backslash stands for itself). The recursion of the code is on the rest of
    the pattern after a run of [%]. *)

Fixpoint skip_percent (p : bytes) : bytes :=
  match p with c :: p' => if bool_decide (c = "%"%byte) then skip_percent p' else p | [] => [] end.

(** The loop [for k = ti; k <= text.size()] over the suffixes of the text. *)
Fixpoint any_suffix (f : bytes -> bool) (text : bytes) : bool :=
  f text || match text with [] => false | _ :: text' => any_suffix f text' end.

Fixpoint like_fuel (fuel : nat) (text pattern : bytes) : bool :=
  match fuel with
  | O => false
  | S fuel' =>
      match pattern with
      | [] => bool_decide (text = [])
      | pc :: p' =>
          let one (c : byte) (rest : bytes) :=
            match text with
            | t :: text' => if bool_decide (t = c) then like_fuel fuel' text' rest else false
            | [] => false
            end in
          match bool_decide (pc = "\"%byte), p' with
          | true, c :: p'' => one c p''
          | _, _ =>
              if bool_decide (pc = "%"%byte) then
                let p0 := skip_percent p' in
                if bool_decide (p0 = []) then true
                else any_suffix (fun text' => like_fuel fuel' text' p0) text
              else if bool_decide (pc = "_"%byte) then
                match text with _ :: text' => like_fuel fuel' text' p' | [] => false end
              else one pc p'
          end
      end
  end.

(** Every step drops a byte of the pattern, so its length is enough fuel. *)
Definition like_match (text pattern : bytes) : bool := like_fuel (S (length pattern)) text pattern.

(** The documented meaning. *)
Inductive likes : bytes -> bytes -> Prop :=
| likes_end : likes [] []
| likes_any s text p : likes text p -> likes (s ++ text) ("%"%byte :: p)
| likes_one c text p : likes text p -> likes (c :: text) ("_"%byte :: p)
| likes_escape c text p : likes text p -> likes (c :: text) ("\"%byte :: c :: p)
| likes_lit c text p : c <> "%"%byte -> c <> "_"%byte -> c <> "\"%byte \/ p = [] ->
    likes text p -> likes (c :: text) (c :: p).

Lemma any_suffix_spec f text :
  any_suffix f text = true <-> exists s rest, text = s ++ rest /\ f rest = true.
Proof.
  induction text as [|c text IH]; simpl.
  - rewrite orb_false_r. split.
    + intros H. by exists [], [].
    + intros (s & rest & E & H). symmetry in E. apply app_nil in E as [-> ->]. done.
  - rewrite orb_true_iff, IH. split.
    + intros [H|(s & rest & -> & H)]; [by exists [], (c :: text)|by exists (c :: s), rest].
    + intros ([|d s] & rest & E & H); simpl in E; [left; by subst|right].
      injection E as <- ->. eauto.
Qed.

Lemma skip_percent_length p : (length (skip_percent p) <= length p)%nat.
Proof. induction p as [|c p IH]; simpl; [done|]. case_bool_decide; simpl; lia. Qed.

Lemma likes_percent s text p : likes text ("%"%byte :: p) -> likes (s ++ text) ("%"%byte :: p).
Proof.
  intros H. inversion H; subst; try done.
  rewrite app_assoc. by constructor.
Qed.

(** A run of [%] is one [%]. *)
Lemma likes_skip_percent text p :
  likes text ("%"%byte :: p) <-> likes text ("%"%byte :: skip_percent p).
Proof.
  revert text; induction p as [|c p IH]; intros text; [done|]. simpl.
  case_bool_decide as E; [|done]. subst. rewrite <- IH. split.
  - intros H. inversion H; subst; try done. by apply likes_percent.
  - intros H. change text with ([] ++ text). by constructor.
Qed.

Lemma likes_percent_end text : likes text ["%"%byte].
Proof. rewrite <- (app_nil_r text). constructor. constructor. Qed.

Lemma like_fuel_spec fuel : forall text p, (length p < fuel)%nat ->
  like_fuel fuel text p = true <-> likes text p.
Proof.
  induction fuel as [|fuel IH]; intros text p Hl; [lia|].
  destruct p as [|pc p']; simpl.
  { rewrite bool_decide_eq_true. split; [intros ->; constructor|by inversion 1]. }
  simpl in Hl. destruct (bool_decide_reflect (pc = "\"%byte)) as [->|Hb].
  - destruct p' as [|c p''].
    + rewrite !bool_decide_eq_false_2 by done. destruct text as [|x text]; [split; [done|inversion 1]|].
      destruct (bool_decide_reflect (x = "\"%byte)) as [->|Hx].
      * rewrite IH by (simpl; lia). split; [intros H; apply likes_lit; auto; done|by inversion 1].
      * split; [done|]. by inversion 1.
    + destruct text as [|x text]; [split; [done|inversion 1]|].
      destruct (bool_decide_reflect (x = c)) as [->|Hx].
      * rewrite IH by (simpl in Hl; lia). split; [by constructor|].
        inversion 1 as [| | | |? ? ? _ _ [Hne|Hne]]; subst; done.
      * split; [done|]. inversion 1 as [| | | |? ? ? _ _ [Hne|Hne]]; subst; done.
  - destruct (bool_decide_reflect (pc = "%"%byte)) as [->|Hp].
    + rewrite likes_skip_percent. pose proof (skip_percent_length p').
      destruct (bool_decide_reflect (skip_percent p' = [])) as [E|E].
      * rewrite E. split; [intros _; apply likes_percent_end|done].
      * rewrite any_suffix_spec. split.
        -- intros (s & rest & -> & Hr). constructor. by apply IH in Hr; [|lia].
        -- inversion 1 as [|s rest ? Hr| | |]; subst; try done. exists s, rest. split; [done|].
           apply IH; [lia|done].
    + destruct (bool_decide_reflect (pc = "_"%byte)) as [->|Hu].
      * destruct text as [|x text]; [split; [done|inversion 1]|]. rewrite IH by lia.
        split; [by constructor|]. by inversion 1.
      * destruct text as [|x text]; [split; [done|inversion 1; subst; done]|].
        destruct (bool_decide_reflect (x = pc)) as [->|Hx].
        -- rewrite IH by lia. split; [intros; apply likes_lit; auto|]. inversion 1; subst; done.
        -- split; [done|]. inversion 1; subst; done.
Qed.

(** [LIKE] terminates and means what its comment says. On every text and
    pattern the matcher answers, and it answers yes exactly for the texts of the
    pattern's language: [%] any text, [_] any one byte, [\c] the byte [c], any
    other byte itself. *)
Theorem like_match_spec text pattern : like_match text pattern = true <-> likes text pattern.
Proof. apply like_fuel_spec. lia. Qed.

Example like_ex :
  like_match (bytes_of_string "50% off") (bytes_of_string "%\% o_%") = true /\
  like_match (bytes_of_string "50 off") (bytes_of_string "%\%%") = false.
Proof. by vm_compute. Qed.

(** ** Comparison of values *)

Definition int64_of (v : Value) : option Z :=
  match v with
  | VBool b => Some (if b then 1 else 0)
  | VInt _ x => if is_int v then Some x else None
  | _ => None
  end.

(** [v.as_int() * kSecondsPerDay], an [int64_t] product. *)
Definition temporal_seconds (v : Value) : option Z :=
  match v with
  | VInt I_DATE x => Some (wrap64 (x * kSecondsPerDay))
  | VInt I_TIME x => Some x
  | VInt I_DATETIME x => Some x
  | _ => None
  end.

Definition parse_temporal (t : DataType) (text : bytes) : option Z :=
  match t with
  | DATE => parse_date text
  | TIME => parse_time text
  | DATETIME => parse_datetime text
  | _ => None
  end.

Definition cmp_int64 (a b : Z) : Z := if a =? b then 0 else if a <? b then -1 else 1.

Definition cmp_bytes (a b : bytes) : Z :=
  if bytes_eqb a b then 0 else if bytes_ltb a b then -1 else 1.

(** A value against the text of the other side, as [cmp(other, parsed)]. *)
Definition order_with_text (other : Value) (text : bytes) : option Z :=
  if is_numeric (type_of other) then
    match parse_int64_strict text, int64_of other with
    | Some parsed, Some x => Some (cmp_int64 x parsed)
    | _, _ => None
    end
  else if is_temporal (type_of other) then
    match parse_temporal (type_of other) text, temporal_seconds other with
    | Some parsed, Some x =>
        let scaled := if bool_decide (type_of other = DATE) then wrap64 (parsed * kSecondsPerDay)
                      else parsed in
        Some (cmp_int64 x scaled)
    | _, _ => None
    end
  else None.

Definition sql_order (a b : Value) : option Z :=
  if is_null a || is_null b then None
  else
    let common := common_type (type_of a) (type_of b) in
    if is_integer common || is_boolean common then
      match int64_of a, int64_of b with Some x, Some y => Some (cmp_int64 x y) | _, _ => None end
    else if is_string common then
      match a, b with VStr _ x, VStr _ y => Some (cmp_bytes x y) | _, _ => None end
    else if is_temporal common then
      match temporal_seconds a, temporal_seconds b with
      | Some x, Some y => Some (cmp_int64 x y)
      | _, _ => None
      end
    else match a, b with
         | VStr _ _, VStr _ _ => None
         | VStr _ text, _ => match order_with_text b text with Some c => Some (- c) | None => None end
         | _, VStr _ text => order_with_text a text
         | _, _ => None
         end.

Inductive CompareOp := EQ | NE | GT | GE | LT | LE | LIKE | NOT_LIKE | IS_NULL | IS_NOT_NULL | OP_UNKNOWN.

#[export] Instance CompareOp_eq_dec : EqDecision CompareOp.
Proof. solve_decision. Defined.

Definition is_null_op (op : CompareOp) : bool := match op with IS_NULL | IS_NOT_NULL => true | _ => false end.
Definition is_indexable (op : CompareOp) : bool :=
  match op with EQ | GT | GE | LT | LE => true | _ => false end.

Definition flip_compare_op (op : CompareOp) : CompareOp :=
  match op with
  | EQ => NE | NE => EQ | GT => LE | GE => LT | LT => GE | LE => GT
  | LIKE => NOT_LIKE | NOT_LIKE => LIKE | IS_NULL => IS_NOT_NULL | IS_NOT_NULL => IS_NULL
  | OP_UNKNOWN => OP_UNKNOWN
  end.

Definition like_truth (positive : bool) (a b : Value) : Truth :=
  match a, b with
  | VStr _ text, VStr _ pattern =>
      let matched := like_match text pattern in
      truth_from_bool (if positive then matched else negb matched)
  | _, _ => T_UNKNOWN
  end.

Definition sql_compare_op (op : CompareOp) (a b : Value) : Truth :=
  match op with
  | IS_NULL => truth_from_bool (is_null a)
  | IS_NOT_NULL => truth_from_bool (negb (is_null a))
  | LIKE => like_truth true a b
  | NOT_LIKE => like_truth false a b
  | _ =>
      match sql_order a b with
      | None => T_UNKNOWN
      | Some order =>
          match op with
          | EQ => truth_from_bool (order =? 0)
          | NE => truth_from_bool (negb (order =? 0))
          | GT => truth_from_bool (0 <? order)
          | GE => truth_from_bool (0 <=? order)
          | LT => truth_from_bool (order <? 0)
          | LE => truth_from_bool (order <=? 0)
          | _ => T_UNKNOWN
          end
      end
  end.

Definition sql_equal_null_safe (a b : Value) : Truth :=
  if is_null a || is_null b then truth_from_bool (is_null a && is_null b)
  else sql_compare_op EQ a b.

#[global] Arguments sql_order : simpl never.
#[global] Arguments sql_compare_op : simpl never.

(** ** [class Identifier]: names compared without case *)

Record Identifier := mkIdentifier { name_ : bytes; normalized_ : bytes; quoted_ : bool }.

(** [std::tolower] of the "C" locale. *)
Definition tolower (c : byte) : byte :=
  let n := Byte.to_N c in
  if (65 <=? n)%N && (n <=? 90)%N then byte_of_N (n + 32) else c.
Definition make_lower (s : bytes) : bytes := map tolower s.

Definition is_quote (c : byte) : bool := bool_decide (c = x22) || bool_decide (c = x27).

Definition identifier (raw : bytes) : Identifier :=
  match raw with
  | q :: (_ :: _) as rest =>
      if is_quote q && bool_decide (last rest = Some q) then
        let inner := take (length rest - 1) rest in
        mkIdentifier inner (make_lower inner) true
      else mkIdentifier raw (make_lower raw) false
  | _ => mkIdentifier raw (make_lower raw) false
  end.

Definition ident_eqb (a b : Identifier) : bool := bytes_eqb (normalized_ a) (normalized_ b).
Definition ident_empty (i : Identifier) : bool := bool_decide (name_ i = []).
Definition display_name (i : Identifier) : bytes :=
  if quoted_ i then x22 :: name_ i ++ [x22] else name_ i.

(** ** Condition trees *)

Inductive Condition :=
| CompareCondition (column : Identifier) (op : CompareOp) (value : Value)
| InCondition (column : Identifier) (is_not_in : bool) (values : list Value)
| AndCondition (left right : Condition)
| OrCondition (left right : Condition)
| NotCondition (child : Condition).

Section evaluate.
Context (lookup : Identifier -> option Value).

Definition in_truth (lhs : Value) (values : list Value) : Truth :=
  fold_left (fun acc candidate => truth_or acc (sql_compare_op EQ lhs candidate)) values T_FALSE.

(** [ConditionEvaluator]: the loops over two children stop at a decisive one. *)
Fixpoint evaluate (cond : Condition) : Truth :=
  match cond with
  | CompareCondition column op value =>
      match lookup column with
      | None => T_UNKNOWN
      | Some lhs => sql_compare_op op lhs value
      end
  | InCondition column is_not_in values =>
      match lookup column with
      | None => T_UNKNOWN
      | Some lhs => let acc := in_truth lhs values in if is_not_in then truth_not acc else acc
      end
  | AndCondition l r =>
      let acc := truth_and T_TRUE (evaluate l) in
      if bool_decide (acc = T_FALSE) then acc else truth_and acc (evaluate r)
  | OrCondition l r =>
      let acc := truth_or T_FALSE (evaluate l) in
      if bool_decide (acc = T_TRUE) then acc else truth_or acc (evaluate r)
  | NotCondition c => truth_not (evaluate c)
  end.

(** Stopping early changes nothing. *)
Lemma evaluate_and l r : evaluate (AndCondition l r) = truth_and (evaluate l) (evaluate r).
Proof. simpl. by destruct (evaluate l), (evaluate r). Qed.
Lemma evaluate_or l r : evaluate (OrCondition l r) = truth_or (evaluate l) (evaluate r).
Proof. simpl. by destruct (evaluate l), (evaluate r). Qed.
End evaluate.

Lemma fold_or_acc lhs values acc :
  fold_left (fun acc candidate => truth_or acc (sql_compare_op EQ lhs candidate)) values acc =
  truth_or acc (in_truth lhs values).
Proof.
  unfold in_truth. revert acc. induction values as [|v values IH]; intros acc; simpl.
  - by destruct acc.
  - rewrite IH, (IH (truth_or T_FALSE _)), truth_or_false. by rewrite truth_or_assoc.
Qed.

Lemma in_truth_cons lhs v values :
  in_truth lhs (v :: values) = truth_or (sql_compare_op EQ lhs v) (in_truth lhs values).
Proof. unfold in_truth at 1. simpl. by rewrite fold_or_acc, truth_or_false. Qed.

Lemma in_truth_app lhs vs ws : in_truth lhs (vs ++ ws) = truth_or (in_truth lhs vs) (in_truth lhs ws).
Proof.
  induction vs as [|v vs IH]; simpl; [by rewrite truth_or_false|].
  by rewrite !in_truth_cons, IH, truth_or_assoc.
Qed.

(** ** Laws of the comparison *)

Lemma cmp_int64_antisym a b : cmp_int64 b a = - cmp_int64 a b.
Proof.
  unfold cmp_int64. rewrite (Z.eqb_sym b a). destruct (a =? b) eqn:E; [done|].
  destruct (a <? b) eqn:E1, (b <? a) eqn:E2; boolify; lia.
Qed.

Lemma cmp_bytes_antisym a b : cmp_bytes b a = - cmp_bytes a b.
Proof.
  unfold cmp_bytes, bytes_eqb. destruct (bool_decide_reflect (a = b)) as [->|Hne].
  - by rewrite bool_decide_eq_true_2.
  - rewrite bool_decide_eq_false_2 by done. destruct (bytes_ltb a b) eqn:E1.
    + by rewrite (bytes_ltb_asym _ _ E1).
    + destruct (bytes_ltb b a) eqn:E2; [done|]. by pose proof (bytes_ltb_antisym _ _ E1 E2).
Qed.

(** The branches of [sql_order] do not depend on the order of its arguments. *)
Lemma common_type_sym a b :
  is_integer (common_type a b) = is_integer (common_type b a) /\
  is_boolean (common_type a b) = is_boolean (common_type b a) /\
  is_string (common_type a b) = is_string (common_type b a) /\
  is_temporal (common_type a b) = is_temporal (common_type b a).
Proof. by destruct a, b. Qed.

#[local] Opaque order_with_text.
Lemma sql_order_antisym a b :
  sql_order b a = match sql_order a b with Some c => Some (- c) | None => None end.
Proof.
  unfold sql_order. rewrite (orb_comm (is_null b)).
  destruct (common_type_sym (type_of b) (type_of a)) as (-> & -> & -> & ->).
  destruct (is_null a || is_null b); [done|].
  destruct (_ || _); [destruct (int64_of a), (int64_of b); simpl; try done; by rewrite cmp_int64_antisym|].
  destruct (is_string _); [destruct a, b; try done; by rewrite cmp_bytes_antisym|].
  destruct (is_temporal _);
    [destruct (temporal_seconds a), (temporal_seconds b); simpl; try done; by rewrite cmp_int64_antisym|].
  destruct a, b; try reflexivity;
    match goal with |- context [order_with_text ?x ?y] => destruct (order_with_text x y) end;
    try reflexivity; by rewrite Z.opp_involutive.
Qed.
#[local] Transparent order_with_text.

Lemma flip_compare_op_not op a b :
  sql_compare_op (flip_compare_op op) a b = truth_not (sql_compare_op op a b).
Proof.
  unfold sql_compare_op. destruct op; simpl; try (destruct (sql_order a b) as [c|]; [|done]; try done);
    try (by destruct (is_null a)).
  all: try (unfold like_truth; destruct a; try done; destruct b; try done; by destruct (like_match _ _)).
  all: unfold truth_from_bool; repeat case_goal; simpl; boolify; try done; lia.
Qed.

(** ** SQL order and key order *)

(** A value of the column's own kind: the constants a key predicate should be
    written with. Temporal values are of the very type of the column, and a date
    is a number of days whose seconds fit [int64_t]. *)
Definition date_fits (v : Value) : Prop :=
  match v with VInt I_DATE x => i64 (x * kSecondsPerDay) | _ => True end.
Definition of_kind (t : DataType) (v : Value) : Prop :=
  in_column t v /\ date_fits v /\
  (v <> VNull -> get_type_family (type_of v) = get_type_family t) /\
  (is_temporal (type_of v) = true -> type_of v = t).

#[export] Instance date_fits_dec v : Decision (date_fits v).
Proof. destruct v as [|[]| |]; simpl; unfold i64; apply _. Defined.
#[export] Instance of_kind_dec t v : Decision (of_kind t v).
Proof. unfold of_kind. apply _. Defined.

Definition value_cmp (a b : Value) : Z := if value_ltb a b then -1 else if value_ltb b a then 1 else 0.

Lemma wrap64_id x : i64 x -> wrap64 x = x.
Proof.
  unfold i64, int64_min, int64_max, wrap64. intros Hx. destruct (Z.lt_ge_cases x 0).
  - replace (x mod 18446744073709551616) with (x + 18446744073709551616)
      by (Z.to_euclidean_division_equations; lia).
    destruct (_ <=? _) eqn:E; boolify; unfold int64_max in *; lia.
  - rewrite Z.mod_small by lia. destruct (_ <=? _) eqn:E; boolify; unfold int64_max in *; lia.
Qed.

Lemma cmp_int64_ltb x y : cmp_int64 x y = if x <? y then -1 else if y <? x then 1 else 0.
Proof. unfold cmp_int64. repeat case_goal; boolify; lia. Qed.

Lemma cmp_int64_scale x y : cmp_int64 (x * kSecondsPerDay) (y * kSecondsPerDay) = cmp_int64 x y.
Proof. unfold cmp_int64, kSecondsPerDay. repeat case_goal; boolify; lia. Qed.

Lemma cmp_bytes_ltb x y : cmp_bytes x y = if bytes_ltb x y then -1 else if bytes_ltb y x then 1 else 0.
Proof.
  unfold cmp_bytes, bytes_eqb. destruct (bool_decide_reflect (x = y)) as [->|Hne].
  - by rewrite bytes_ltb_irrefl.
  - destruct (bytes_ltb x y) eqn:E1; [done|]. destruct (bytes_ltb y x) eqn:E2; [done|].
    by pose proof (bytes_ltb_antisym _ _ E1 E2).
Qed.

(** Inside a column the SQL order is the order of the keys. *)
Lemma sql_order_column t a b : of_kind t a -> of_kind t b -> a <> VNull -> b <> VNull ->
  sql_order a b = Some (value_cmp a b).
Proof.
  intros (_ & Da & Fa & Ka) (_ & Db & Fb & Kb) Na Nb.
  assert (HF : get_type_family (type_of a) = get_type_family (type_of b)).
  { rewrite Fa, Fb; done. }
  destruct a as [|i x|p|i s]; [done|..]; destruct b as [|j y|q|j r]; try done;
    try (destruct i; done); try (destruct j; done); try (destruct i, j; done).
  - destruct (is_temporal (of_int64_type i)) eqn:Ei.
    + assert (i = j) as <-.
      { specialize (Ka Ei). destruct (is_temporal (of_int64_type j)) eqn:Ej.
        - specialize (Kb Ej). destruct i, j; try done; simpl in *; congruence.
        - by destruct i, j. }
      unfold value_cmp. simpl. rewrite <- cmp_int64_ltb.
      destruct i; try done; unfold sql_order; simpl; try done.
      rewrite !wrap64_id by done. by rewrite cmp_int64_scale.
    + unfold value_cmp. simpl. rewrite <- cmp_int64_ltb. by destruct i, j.
  - by destruct p, q.
  - unfold value_cmp. simpl. rewrite <- cmp_bytes_ltb. by destruct i, j.
Qed.

(** The comparison of values is coherent. Swapping the operands negates the
    order; every operator and the one [flip_compare_op] gives for [NOT] are
    complementary in three-valued logic, NULLs and failed conversions included;
    comparing with NULL is UNKNOWN; and between values of one column the order is
    the order of their keys. *)
Theorem sql_comparison_coherent t a b op :
  sql_order b a = match sql_order a b with Some c => Some (- c) | None => None end /\
  sql_compare_op (flip_compare_op op) a b = truth_not (sql_compare_op op a b) /\
  (is_null_op op = false -> sql_compare_op op VNull b = T_UNKNOWN) /\
  (of_kind t a -> of_kind t b -> a <> VNull -> b <> VNull ->
   (sql_order a b = Some (-1) <-> bytes_ltb (to_column_key a t) (to_column_key b t) = true) /\
   (sql_order a b = Some 0 <-> to_column_key a t = to_column_key b t)).
Proof.
  split; [apply sql_order_antisym|]. split; [apply flip_compare_op_not|].
  split; [by destruct op|]. intros Ha Hb Na Nb.
  rewrite (sql_order_column t) by done. destruct Ha as [Ca _], Hb as [Cb _].
  pose proof (key_order t a b Ca Cb) as Kab. pose proof (key_order t b a Cb Ca) as Kba.
  unfold value_cmp. rewrite Kab. destruct (value_ltb a b) eqn:E1.
  - split; [done|]. split; [done|]. intros E. rewrite E, bytes_ltb_irrefl in Kab. done.
  - destruct (value_ltb b a) eqn:E2.
    + split; [done|]. split; [done|]. intros E. rewrite E, bytes_ltb_irrefl in Kba. done.
    + split; [done|]. split; [|done]. intros _. by apply bytes_ltb_antisym.
Qed.

Lemma sql_comparison_coherent_witness :
  sql_order (VInt I_INT 3) (VInt I_BIGINT 8) = Some (-1) <->
  bytes_ltb (to_column_key (VInt I_INT 3) INT) (to_column_key (VInt I_BIGINT 8) INT) = true.
Proof.
  destruct (sql_comparison_coherent INT (VInt I_INT 3) (VInt I_BIGINT 8) EQ) as (_ & _ & _ & H).
  apply H; vm_compute; intuition discriminate.
Defined.
