(* ===== verification/Rewriter.v ===== *)
(** * The condition rewriter: [planner/rewriter.cpp]

    Five passes over a [WHERE] tree. A [ConditionPtr] that may be null is an
    [option Condition]. *)

From S2P Require Import Prelude Bytes SqlTypes Temporal KeyCodec SqlKeyRange SqlTruth.

(** ** The text of a condition ([Value::to_string], [Condition::to_string]) *)

Definition str (s : string) : bytes := bytes_of_string s.

(** [std::to_string] of an [int64_t]: at most nineteen digits. *)
Definition int_to_string (z : Z) : bytes :=
  if (z <? 0)%Z then str "-" ++ dec_digits 20 (- z) else dec_digits 20 z.

Definition value_to_string (v : Value) : bytes :=
  match v with
  | VNull => str "NULL"
  | VStr _ s => s
  | VBool b => str (if b then "true" else "false")
  | VInt I_DATE x => format_date x
  | VInt I_TIME x => format_time x
  | VInt I_DATETIME x => format_datetime x
  | VInt _ x => int_to_string x
  end.

Definition compare_op_to_string (op : CompareOp) : bytes :=
  str match op with
      | EQ => "=" | NE => "!=" | GT => ">" | GE => ">=" | LT => "<" | LE => "<="
      | LIKE => "LIKE" | NOT_LIKE => "NOT LIKE" | IS_NULL => "IS NULL" | IS_NOT_NULL => "IS NOT NULL"
      | OP_UNKNOWN => "UNKNOWN"
      end.

Fixpoint join_values (vs : list Value) : bytes :=
  match vs with
  | [] => []
  | [v] => value_to_string v
  | v :: vs' => value_to_string v ++ str ", " ++ join_values vs'
  end.

Fixpoint to_string (c : Condition) : bytes :=
  match c with
  | CompareCondition column op value =>
      display_name column ++ str " " ++ compare_op_to_string op ++
      (if negb (is_null_op op) then str " " ++ value_to_string value else [])
  | InCondition column is_not_in values =>
      display_name column ++ str (if is_not_in then " NOT IN (" else " IN (") ++
      join_values values ++ str ")"
  | AndCondition l r => str "(" ++ to_string l ++ str " AND " ++ to_string r ++ str ")"
  | OrCondition l r => str "(" ++ to_string l ++ str " OR " ++ to_string r ++ str ")"
  | NotCondition c' => str "NOT (" ++ to_string c' ++ str ")"
  end.

Inductive ConditionType := C_COMPARE | C_IN | C_AND | C_OR | C_NOT.

#[export] Instance ConditionType_eq_dec : EqDecision ConditionType.
Proof. solve_decision. Defined.

Definition ctype (c : Condition) : ConditionType :=
  match c with
  | CompareCondition _ _ _ => C_COMPARE
  | InCondition _ _ _ => C_IN
  | AndCondition _ _ => C_AND
  | OrCondition _ _ => C_OR
  | NotCondition _ => C_NOT
  end.

Definition same_node (a b : Condition) : bool :=
  bool_decide (ctype a = ctype b) && bytes_eqb (to_string a) (to_string b).

(** ** Shared helpers *)

(** The items of a chain of one connective. *)
Fixpoint collect_same_op (type : ConditionType) (node : Condition) : list Condition :=
  if bool_decide (ctype node = type) then
    match node with
    | AndCondition l r => collect_same_op type l ++ collect_same_op type r
    | OrCondition l r => collect_same_op type l ++ collect_same_op type r
    | NotCondition c => collect_same_op type c
    | _ => []
    end
  else [node].

Definition make_conn (type : ConditionType) (l r : Condition) : Condition :=
  if bool_decide (type = C_AND) then AndCondition l r else OrCondition l r.

(** Left-deep, null children skipped. *)
Definition rebuild (type : ConditionType) (children : list (option Condition)) : option Condition :=
  fold_left (fun result child =>
    match child, result with
    | None, _ => result
    | Some c, None => Some c
    | Some c, Some r => Some (make_conn type r c)
    end) children None.

Fixpoint tree_contains (container target : Condition) : bool :=
  same_node container target ||
  match container with
  | AndCondition l r => tree_contains l target || tree_contains r target
  | OrCondition l r => tree_contains l target || tree_contains r target
  | NotCondition c => tree_contains c target
  | _ => false
  end.

(** ** 1. Negations pushed to the leaves *)

Fixpoint pushdown_not_impl (node : Condition) (negated : bool) : Condition :=
  match node with
  | NotCondition c => pushdown_not_impl c (negb negated)
  | AndCondition l r =>
      let l' := pushdown_not_impl l negated in
      let r' := pushdown_not_impl r negated in
      if negated then OrCondition l' r' else AndCondition l' r'
  | OrCondition l r =>
      let l' := pushdown_not_impl l negated in
      let r' := pushdown_not_impl r negated in
      if negated then AndCondition l' r' else OrCondition l' r'
  | CompareCondition column op value =>
      if negb negated then node
      else
        let flipped := flip_compare_op op in
        if bool_decide (flipped = OP_UNKNOWN) then NotCondition node
        else CompareCondition column flipped value
  | InCondition column is_not_in values =>
      if negb negated then node else InCondition column (negb is_not_in) values
  end.

(** ** 2. Chains flattened

    The recursion descends into the items of a chain; the height of the tree
    bounds it. *)

Fixpoint height (c : Condition) : nat :=
  match c with
  | AndCondition l r | OrCondition l r => S (Nat.max (height l) (height r))
  | NotCondition c' => S (height c')
  | _ => 1
  end.

Fixpoint flatten_fuel (fuel : nat) (node : Condition) : option Condition :=
  match fuel with
  | O => None
  | S fuel' =>
      match node with
      | AndCondition _ _ | OrCondition _ _ =>
          rebuild (ctype node) (map (flatten_fuel fuel') (collect_same_op (ctype node) node))
      | NotCondition c => match flatten_fuel fuel' c with Some c' => Some (NotCondition c') | None => None end
      | _ => Some node
      end
  end.
Definition flatten_impl (node : Condition) : option Condition := flatten_fuel (height node) node.

(** ** 3. Lists of constants folded *)

(** [std::find] with [Value::operator==], first occurrences kept. *)
Definition dedup_values (vs : list Value) : list Value :=
  fold_left (fun kept v => if existsb (fun w => value_eqb w v) kept then kept else kept ++ [v]) vs [].

Fixpoint fold_constants_impl (node : Condition) : Condition :=
  match node with
  | AndCondition l r => AndCondition (fold_constants_impl l) (fold_constants_impl r)
  | OrCondition l r => OrCondition (fold_constants_impl l) (fold_constants_impl r)
  | NotCondition c => NotCondition (fold_constants_impl c)
  | InCondition column is_not_in values =>
      match dedup_values values with
      | [v] => if negb (is_null v) then CompareCondition column (if is_not_in then NE else EQ) v
               else InCondition column is_not_in [v]
      | vs => InCondition column is_not_in vs
      end
  | _ => node
  end.

(** ** 4. Duplicates dropped *)

Definition keep_new (kept : list Condition) (c : Condition) : list Condition :=
  if existsb (fun k => same_node k c) kept then kept else kept ++ [c].

Fixpoint deduplicate_fuel (fuel : nat) (node : Condition) : option Condition :=
  match fuel with
  | O => None
  | S fuel' =>
      match node with
      | AndCondition _ _ | OrCondition _ _ =>
          let children := fold_left (fun kept child =>
            match deduplicate_fuel fuel' child with Some c => keep_new kept c | None => kept end)
            (collect_same_op (ctype node) node) [] in
          rebuild (ctype node) (map Some children)
      | NotCondition c =>
          match deduplicate_fuel fuel' c with Some c' => Some (NotCondition c') | None => None end
      | _ => Some node
      end
  end.
Definition deduplicate_impl (node : Condition) : option Condition := deduplicate_fuel (height node) node.

(** ** 5. Absorption, equalities merged into [IN], double negations

    The result of [simplify_impl] is a pointer; [NullDeref] is the dereference
    of a null child. *)

Inductive outcome := OutOfFuel | NullDeref | Ptr (p : option Condition).

Fixpoint sequence_outcomes (os : list outcome) : result outcome (list (option Condition)) :=
  match os with
  | [] => Ok []
  | Ptr p :: os' => let* ps := sequence_outcomes os' in Ok (p :: ps)
  | o :: _ => Err o
  end.

(** [children[i]->is_or()]: every child is dereferenced. *)
Fixpoint deref_all (ps : list (option Condition)) : option (list Condition) :=
  match ps with
  | [] => Some []
  | Some c :: ps' => match deref_all ps' with Some cs => Some (c :: cs) | None => None end
  | None :: _ => None
  end.

(** A child of the [other] connective is absorbed when another child occurs in it. *)
Definition absorbed (other : ConditionType) (children : list Condition) (i : nat) : bool :=
  match children !! i with
  | None => false
  | Some c =>
      bool_decide (ctype c = other) &&
      existsb (fun j => negb (i =? j)%nat &&
                        match children !! j with Some d => tree_contains c d | None => false end)
        (seq 0 (length children))
  end.
Definition absorb (other : ConditionType) (children : list Condition) : list Condition :=
  omap (fun i => if absorbed other children i then None else children !! i) (seq 0 (length children)).

Definition eq_parts (c : Condition) : option (Identifier * Value) :=
  match c with CompareCondition column EQ v => Some (column, v) | _ => None end.

Definition is_consumed (consumed : list nat) (i : nat) : bool := existsb (Nat.eqb i) consumed.

Definition same_column_eq (kept : list Condition) (consumed : list nat) (head : Identifier) (j : nat)
  : option (nat * Value) :=
  if is_consumed consumed j then None
  else match kept !! j with
       | Some c => match eq_parts c with
                   | Some (column, v) => if ident_eqb column head then Some (j, v) else None
                   | None => None
                   end
       | None => None
       end.

(** One turn of the merging loop; the state is the consumed indices and [merged]. *)
Definition merge_step (kept : list Condition) (st : list nat * list Condition) (i : nat)
  : list nat * list Condition :=
  let '(consumed, merged) := st in
  if is_consumed consumed i then st
  else match kept !! i with
       | Some c =>
           match eq_parts c with
           | Some (column, v) =>
               let group := omap (same_column_eq kept consumed column)
                                 (seq (S i) (length kept - S i)) in
               match group with
               | [] => st
               | _ => (consumed ++ i :: map fst group,
                       merged ++ [InCondition column false (v :: map snd group)])
               end
           | None => st
           end
       | None => st
       end.

Definition merge_eq (kept : list Condition) : list Condition :=
  let '(consumed, merged) := fold_left (merge_step kept) (seq 0 (length kept)) ([], []) in
  merged ++ omap (fun i => if is_consumed consumed i then None else kept !! i) (seq 0 (length kept)).

Fixpoint simplify_fuel (fuel : nat) (node : Condition) : outcome :=
  match fuel with
  | O => OutOfFuel
  | S fuel' =>
      let children :=
        match sequence_outcomes (map (simplify_fuel fuel') (collect_same_op (ctype node) node)) with
        | Err o => Err o
        | Ok ps => match deref_all ps with Some cs => Ok cs | None => Err NullDeref end
        end in
      match node with
      | AndCondition _ _ =>
          match children with
          | Err o => o
          | Ok cs => Ptr (rebuild C_AND (map Some (absorb C_OR cs)))
          end
      | OrCondition _ _ =>
          match children with
          | Err o => o
          | Ok cs => Ptr (rebuild C_OR (map Some (merge_eq (absorb C_AND cs))))
          end
      | NotCondition c =>
          match simplify_fuel fuel' c with
          | Ptr None => Ptr None
          | Ptr (Some (NotCondition c')) => Ptr (Some c')
          | Ptr (Some (InCondition column is_not_in values)) =>
              Ptr (Some (InCondition column (negb is_not_in) values))
          | Ptr (Some c') => Ptr (Some (NotCondition c'))
          | o => o
          end
      | _ => Ptr (Some node)
      end
  end.
Definition simplify_impl (node : Condition) : outcome := simplify_fuel (height node) node.

(** The pipeline; [None] for no condition. *)
Definition rewrite_condition_tree (root : option Condition) : outcome :=
  match root with
  | None => Ptr None
  | Some c =>
      match flatten_impl (pushdown_not_impl c false) with
      | None => Ptr None
      | Some c =>
          match deduplicate_impl (fold_constants_impl c) with
          | None => Ptr None
          | Some c => simplify_impl c
          end
      end
  end.

(** ** Examples *)

Definition eq_int (col : string) (n : Z) : Condition :=
  CompareCondition (identifier (str col)) EQ (VInt I_INT n).

Example rewrite_not :
  rewrite_condition_tree (Some (NotCondition (AndCondition (eq_int "a" 1) (NotCondition (eq_int "b" 2))))) =
  Ptr (Some (OrCondition (CompareCondition (identifier (str "a")) NE (VInt I_INT 1)) (eq_int "b" 2))).
Proof. vm_compute. reflexivity. Qed.

Example rewrite_in :
  rewrite_condition_tree (Some (OrCondition (eq_int "a" 1) (OrCondition (eq_int "b" 7) (eq_int "A" 2)))) =
  Ptr (Some (OrCondition (InCondition (identifier (str "a")) false [VInt I_INT 1; VInt I_INT 2]) (eq_int "b" 7))).
Proof. vm_compute. reflexivity. Qed.

(** ** The chains of a connective *)

Definition connective (type : ConditionType) : Prop := type = C_AND \/ type = C_OR.

Definition conn_truth (type : ConditionType) (a b : Truth) : Truth :=
  if bool_decide (type = C_AND) then truth_and a b else truth_or a b.
Definition conn_unit (type : ConditionType) : Truth :=
  if bool_decide (type = C_AND) then T_TRUE else T_FALSE.

Lemma conn_truth_assoc type a b c :
  conn_truth type a (conn_truth type b c) = conn_truth type (conn_truth type a b) c.
Proof. unfold conn_truth. case_bool_decide; [apply truth_and_assoc|apply truth_or_assoc]. Qed.
Lemma conn_truth_unit type a :
  conn_truth type (conn_unit type) a = a /\ conn_truth type a (conn_unit type) = a.
Proof. unfold conn_truth, conn_unit. case_bool_decide; by destruct a. Qed.

Lemma collect_height type node c :
  c ∈ collect_same_op type node -> (height c <= height node)%nat.
Proof.
  induction node as [| |l IHl r IHr|l IHl r IHr|n IH]; simpl; destruct (bool_decide _);
    rewrite ?elem_of_app, ?list_elem_of_singleton, ?elem_of_nil; intros H; subst; simpl; try done.
  - destruct H as [H|H]; [apply IHl in H|apply IHr in H]; lia.
  - destruct H as [H|H]; [apply IHl in H|apply IHr in H]; lia.
  - apply IH in H. lia.
Qed.

Lemma collect_smaller node c : connective (ctype node) ->
  c ∈ collect_same_op (ctype node) node -> (height c < height node)%nat.
Proof.
  intros Ht Hc. destruct node as [| |l r|l r|n]; try (by destruct Ht); simpl in *;
    apply elem_of_app in Hc as [Hc|Hc]; apply collect_height in Hc; lia.
Qed.

Lemma collect_nonempty type node : connective type -> collect_same_op type node <> [].
Proof.
  intros [-> | ->]; induction node; simpl; try done;
    try (intros [H _]%app_nil; done); destruct (bool_decide _); done.
Qed.

Section semantics.
Context (lookup : Identifier -> option Value).
Let ev := evaluate lookup.

Definition chain (type : ConditionType) (cs : list Condition) : Truth :=
  foldr (conn_truth type) (conn_unit type) (map ev cs).

Lemma chain_app type cs ds : chain type (cs ++ ds) = conn_truth type (chain type cs) (chain type ds).
Proof.
  unfold chain. induction cs as [|c cs IH]; simpl.
  - symmetry. apply conn_truth_unit.
  - by rewrite IH, conn_truth_assoc.
Qed.

Lemma chain_cons type c cs : chain type (c :: cs) = conn_truth type (ev c) (chain type cs).
Proof. done. Qed.
Lemma chain_single type c : chain type [c] = ev c.
Proof. apply conn_truth_unit. Qed.

Lemma ev_make_conn type l r : connective type -> ev (make_conn type l r) = conn_truth type (ev l) (ev r).
Proof.
  intros [-> | ->]; unfold make_conn, conn_truth, ev; simpl.
  - apply (evaluate_and lookup l r).
  - apply (evaluate_or lookup l r).
Qed.

Lemma collect_chain type node : connective type -> chain type (collect_same_op type node) = ev node.
Proof.
  intros Ht. induction node as [| |l IHl r IHr|l IHl r IHr|n IH]; simpl;
    case_bool_decide as E; try (by rewrite chain_single); try (by destruct Ht; subst).
  - rewrite chain_app, IHl, IHr. rewrite <- ev_make_conn by done. by subst.
  - rewrite chain_app, IHl, IHr. rewrite <- ev_make_conn by done. by subst.
Qed.

Lemma rebuild_from type cs r : connective type ->
  exists c, fold_left (fun result child =>
    match child, result with
    | None, _ => result
    | Some c, None => Some c
    | Some c, Some r => Some (make_conn type r c)
    end) (map Some cs) (Some r) = Some c /\ ev c = conn_truth type (ev r) (chain type cs).
Proof.
  intros Ht. revert r. induction cs as [|c cs IH]; intros r; simpl.
  - exists r. split; [done|]. symmetry. apply conn_truth_unit.
  - destruct (IH (make_conn type r c)) as (x & -> & Hx). exists x. split; [done|].
    by rewrite Hx, ev_make_conn, chain_cons, conn_truth_assoc.
Qed.

(** Rebuilding a non-empty chain keeps its truth. *)
Lemma rebuild_chain type cs : connective type -> cs <> [] ->
  exists c, rebuild type (map Some cs) = Some c /\ ev c = chain type cs.
Proof.
  intros Ht Hne. destruct cs as [|c cs]; [done|]. unfold rebuild. simpl.
  destruct (rebuild_from type cs c Ht) as (x & -> & Hx). exists x. split; [done|]. by rewrite Hx, chain_cons.
Qed.

(** *** The passes *)

Lemma pushdown_not_ok node negated :
  ev (pushdown_not_impl node negated) = if negated then truth_not (ev node) else ev node.
Proof.
  unfold ev. revert negated.
  induction node as [col op v|col b vs|l IHl r IHr|l IHl r IHr|n IH]; intros negated.
  - cbn [pushdown_not_impl]. destruct negated; cbn [negb]; [|done].
    case_bool_decide; [done|]. simpl. destruct (lookup col); [apply flip_compare_op_not|done].
  - cbn [pushdown_not_impl]. destruct negated; cbn [negb]; [|done]. simpl.
    destruct (lookup col); [|done]. destruct b; simpl; by rewrite ?truth_not_not.
  - cbn [pushdown_not_impl]. destruct negated; rewrite evaluate_and.
    + by rewrite evaluate_or, IHl, IHr, truth_not_and.
    + by rewrite evaluate_and, IHl, IHr.
  - cbn [pushdown_not_impl]. destruct negated; rewrite evaluate_or.
    + by rewrite evaluate_and, IHl, IHr, truth_not_or.
    + by rewrite evaluate_or, IHl, IHr.
  - simpl. rewrite IH. destruct negated; simpl; by rewrite ?truth_not_not.
Qed.

Lemma map_some {A B} (f : A -> option B) (Q : A -> B -> Prop) l :
  (forall x, x ∈ l -> exists y, f x = Some y /\ Q x y) ->
  exists ys, map f l = map Some ys /\ Forall2 Q l ys.
Proof.
  induction l as [|x l IH]; intros H; [by exists []|].
  destruct (H x) as (y & Hy & Hq); [by left|]. destruct IH as (ys & E & F); [intros; apply H; by right|].
  exists (y :: ys). simpl. rewrite Hy, E. auto.
Qed.

Lemma chain_forall2 type cs ds : Forall2 (fun c d => ev d = ev c) cs ds -> chain type ds = chain type cs.
Proof. induction 1 as [|c d cs ds E _ IH]; [done|]. by rewrite !chain_cons, E, IH. Qed.

Lemma flatten_fuel_ok fuel node : (height node <= fuel)%nat ->
  exists c, flatten_fuel fuel node = Some c /\ ev c = ev node.
Proof.
  revert node. induction fuel as [|fuel IH]; intros node Hf; [destruct node; simpl in Hf; lia|].
  assert (connective (ctype node) ->
    exists c, rebuild (ctype node) (map (flatten_fuel fuel) (collect_same_op (ctype node) node)) = Some c /\
              ev c = ev node) as Hconn.
  { intros Ht. destruct (map_some (flatten_fuel fuel) (fun c d => ev d = ev c)
      (collect_same_op (ctype node) node)) as (ds & -> & HF).
    { intros c Hc. apply IH. pose proof (collect_smaller node c Ht Hc). lia. }
    destruct (rebuild_chain (ctype node) ds Ht) as (c & -> & Hc).
    { intros ->. apply Forall2_nil_inv_r in HF. by apply (collect_nonempty (ctype node) node Ht). }
    exists c. split; [done|]. rewrite Hc, (chain_forall2 _ _ _ HF). by apply collect_chain. }
  destruct node as [| |l r|l r|n]; simpl in Hf; try (by eexists).
  - apply Hconn. by left.
  - apply Hconn. by right.
  - destruct (IH n) as (c & E & Hc); [lia|]. simpl. rewrite E. eexists. split; [done|].
    unfold ev in *. simpl. by rewrite Hc.
Qed.

(** Values equal for C++ compare alike in SQL. *)
Lemma value_eqb_order x a b : value_eqb a b = true -> sql_order x a = sql_order x b.
Proof.
  destruct a as [|i y|p|i s], b as [|j z|q|j r]; try done; try (by destruct i); try (by destruct j);
    try (by destruct i, j); unfold value_eqb; simpl.
  - destruct (is_temporal (of_int64_type i) || is_temporal (of_int64_type j)) eqn:Et.
    + intros H. assert (i = j) as <- by (by destruct i, j). assert (y = z) as <-; [|done].
      destruct i; simpl in H; by apply Z.eqb_eq in H.
    + intros H. assert (y = z) as <- by (destruct i, j; simpl in H; try done; by apply Z.eqb_eq in H).
      clear H. unfold sql_order.
      destruct i; try done; destruct j; try done; destruct x as [|[]| |[]]; reflexivity.
  - intros H. by destruct p, q.
  - intros H. assert (s = r) as <- by (destruct i, j; simpl in H; by apply bytes_eqb_eq in H).
    clear H. unfold sql_order. destruct i, j, x as [|[]| |[]]; reflexivity.
Qed.

Lemma truth_or_idem_in lhs kept v :
  existsb (fun w => value_eqb w v) kept = true ->
  truth_or (in_truth lhs kept) (sql_compare_op EQ lhs v) = in_truth lhs kept.
Proof.
  induction kept as [|w kept IH]; simpl; [done|]. rewrite in_truth_cons. intros H.
  apply orb_true_iff in H as [H|H].
  - unfold sql_compare_op. rewrite (value_eqb_order lhs w v H).
    destruct (sql_order lhs v) as [c|]; [destruct (c =? 0)%Z|]; by destruct (in_truth lhs kept).
  - rewrite <- (IH H) at 2. by rewrite truth_or_assoc.
Qed.

Lemma in_truth_single lhs v : in_truth lhs [v] = sql_compare_op EQ lhs v.
Proof. unfold in_truth. simpl. apply truth_or_false. Qed.

Lemma dedup_values_truth lhs vs : in_truth lhs (dedup_values vs) = in_truth lhs vs.
Proof.
  unfold dedup_values.
  assert (forall kept, in_truth lhs (fold_left (fun kept v =>
    if existsb (fun w => value_eqb w v) kept then kept else kept ++ [v]) vs kept) =
    truth_or (in_truth lhs kept) (in_truth lhs vs)) as ->; [|by rewrite truth_or_false].
  induction vs as [|v vs IH]; intros kept; simpl; [by destruct (in_truth lhs kept)|].
  rewrite IH, in_truth_cons. destruct (existsb _ kept) eqn:E.
  - by rewrite truth_or_assoc, truth_or_idem_in.
  - by rewrite in_truth_app, in_truth_single, truth_or_assoc.
Qed.

Lemma fold_constants_ok node : ev (fold_constants_impl node) = ev node.
Proof.
  unfold ev. induction node as [col op v|col b vs|l IHl r IHr|l IHl r IHr|n IH].
  - done.
  - simpl. destruct (lookup col) as [lhs|] eqn:El.
    + pose proof (dedup_values_truth lhs vs) as Hd. rewrite <- Hd.
      destruct (dedup_values vs) as [|v [|w ws]]; try (simpl; by rewrite El).
      destruct (negb (is_null v)); simpl; rewrite El; [|done]. rewrite in_truth_single.
      destruct b; [|done]. apply (flip_compare_op_not EQ).
    + destruct (dedup_values vs) as [|v [|w ws]]; simpl; try (by rewrite El).
      destruct (negb (is_null v)); simpl; by rewrite El.
  - cbn [fold_constants_impl]. by rewrite !evaluate_and, IHl, IHr.
  - cbn [fold_constants_impl]. by rewrite !evaluate_or, IHl, IHr.
  - simpl. by rewrite IH.
Qed.

(** *** Equalities of one column merged into [IN] *)

Lemma chain_or_elem c cs : c ∈ cs -> truth_or (ev c) (chain C_OR cs) = chain C_OR cs.
Proof.
  induction 1 as [c cs|c d cs _ IH]; rewrite chain_cons; unfold conn_truth; simpl.
  - by destruct (ev c), (chain C_OR cs).
  - rewrite truth_or_assoc, (truth_or_comm (ev c)), <- truth_or_assoc. by rewrite IH.
Qed.

Lemma chain_or_sub cs ds : (forall c, c ∈ cs -> c ∈ ds) ->
  truth_or (chain C_OR cs) (chain C_OR ds) = chain C_OR ds.
Proof.
  induction cs as [|c cs IH]; intros H; [apply truth_or_false|].
  rewrite chain_cons. unfold conn_truth. simpl. rewrite <- truth_or_assoc, IH by (intros; apply H; by right).
  apply chain_or_elem, H. by left.
Qed.

(** A disjunction depends on the set of its items only. *)
Lemma chain_or_elems cs ds : (forall c, c ∈ cs <-> c ∈ ds) -> chain C_OR cs = chain C_OR ds.
Proof.
  intros H. rewrite <- (chain_or_sub cs ds) by (intros; by apply H).
  rewrite truth_or_comm. symmetry. apply chain_or_sub. intros. by apply H.
Qed.

Hypothesis lookup_ident : forall a b, ident_eqb a b = true -> lookup a = lookup b.

Definition eq_item (col : Identifier) (c : Condition) (v : Value) : Prop :=
  exists col', eq_parts c = Some (col', v) /\ ident_eqb col' col = true.

Lemma eq_parts_inv c col v : eq_parts c = Some (col, v) -> c = CompareCondition col EQ v.
Proof. destruct c as [? [] ?| | | |]; simpl; congruence. Qed.

Lemma in_chain col cs vs : cs <> [] -> Forall2 (eq_item col) cs vs ->
  ev (InCondition col false vs) = chain C_OR cs.
Proof.
  intros Hne HF. unfold ev. simpl. destruct (lookup col) as [lhs|] eqn:El.
  - clear Hne. induction HF as [|c v cs vs (col' & Hc & Hi) _ IH]; [done|].
    rewrite in_truth_cons, chain_cons, IH. apply eq_parts_inv in Hc as ->. unfold conn_truth. simpl. f_equal.
    unfold ev. simpl. by rewrite (lookup_ident _ _ Hi), El.
  - destruct HF as [|c v cs vs (col' & Hc & Hi) HF]; [done|]. clear Hne. rewrite chain_cons.
    apply eq_parts_inv in Hc as ->. unfold conn_truth, ev. simpl. rewrite (lookup_ident _ _ Hi), El.
    induction HF as [|c w cs vs (col'' & Hc & Hj) _ IH]; [done|].
    rewrite chain_cons. apply eq_parts_inv in Hc as ->. unfold conn_truth, ev. simpl.
    rewrite (lookup_ident _ _ Hj), El. by rewrite truth_or_assoc.
Qed.

Lemma is_consumed_elem consumed i : is_consumed consumed i = true <-> i ∈ consumed.
Proof.
  unfold is_consumed. rewrite existsb_exists. setoid_rewrite <- list_elem_of_In.
  split; [intros (x & Hx & E%Nat.eqb_eq); by subst|]. intros H. exists i. by rewrite Nat.eqb_refl.
Qed.

(** The consumed items are those the emitted [IN] nodes stand for. *)
Definition merge_inv (kept : list Condition) (st : list nat * list Condition) : Prop :=
  exists E, chain C_OR st.2 = chain C_OR E /\ (forall c, c ∈ E -> c ∈ kept) /\
    forall j c, j ∈ st.1 -> kept !! j = Some c -> c ∈ E.

Lemma group_items kept consumed col js :
  exists cs, Forall2 (eq_item col) cs (map snd (omap (same_column_eq kept consumed col) js)) /\
    (forall c, c ∈ cs -> c ∈ kept) /\
    forall j c, j ∈ map fst (omap (same_column_eq kept consumed col) js) -> kept !! j = Some c -> c ∈ cs.
Proof.
  induction js as [|j js (cs & HF & Hin & Hcov)]; simpl.
  { exists []. repeat split; try done; intros; by apply elem_of_nil in H. }
  destruct (same_column_eq kept consumed col j) as [[k v]|] eqn:E; [|by exists cs].
  unfold same_column_eq in E. destruct (is_consumed consumed j); [done|].
  destruct (kept !! j) as [c|] eqn:Ej; [|done].
  destruct (eq_parts c) as [[col' w]|] eqn:Ec; [|done].
  destruct (ident_eqb col' col) eqn:Ei; [|done]. injection E as -> ->.
  exists (c :: cs). simpl. split; [|split].
  - constructor; [|done]. by exists col'.
  - intros d [->|Hd]%elem_of_cons; [by eapply list_elem_of_lookup_2|by apply Hin].
  - intros k' d [->|Hk]%elem_of_cons Hd; [apply elem_of_cons; left; congruence|right; by eapply Hcov].
Qed.

Lemma merge_step_inv kept st i : merge_inv kept st -> merge_inv kept (merge_step kept st i).
Proof.
  destruct st as [consumed merged]. intros (E & HE & Hin & Hcov). simpl in *. unfold merge_step.
  destruct (is_consumed consumed i); [by exists E|].
  destruct (kept !! i) as [c|] eqn:Ei; [|by exists E].
  destruct (eq_parts c) as [[col v]|] eqn:Ec; [|by exists E].
  destruct (group_items kept consumed col (seq (S i) (length kept - S i))) as (cs & HF & Hcs & Hgr).
  destruct (omap _ _) as [|g gs] eqn:Eg; [by exists E|].
  assert (HF' : Forall2 (eq_item col) (c :: cs) (v :: map snd (g :: gs))).
  { constructor; [|done]. exists col. split; [done|]. apply bytes_eqb_refl. }
  exists (E ++ c :: cs). simpl. split; [|split].
  - rewrite !chain_app, chain_single, HE. f_equal. by apply in_chain.
  - intros d [Hd|[->|Hd]%elem_of_cons]%elem_of_app; [by apply Hin|by eapply list_elem_of_lookup_2|by apply Hcs].
  - intros j d Hj Hd. apply elem_of_app. apply elem_of_app in Hj as [Hj|Hj]; [left; by eapply Hcov|right].
    apply elem_of_cons in Hj as [->|Hj]; [apply elem_of_cons; left; congruence|right]. by eapply Hgr.
Qed.

Lemma fold_merge_inv kept ks st : merge_inv kept st -> merge_inv kept (fold_left (merge_step kept) ks st).
Proof. revert st. induction ks as [|i ks IH]; intros st H; simpl; [done|]. by apply IH, merge_step_inv. Qed.

Lemma merge_eq_ok kept : chain C_OR (merge_eq kept) = chain C_OR kept.
Proof.
  unfold merge_eq.
  pose proof (fold_merge_inv kept (seq 0 (length kept)) ([], [])) as Hinv.
  destruct (fold_left _ _ _) as [consumed merged].
  destruct Hinv as (E & HE & Hin & Hcov).
  { exists []. split; [done|]. split; [intros c Hc; by apply elem_of_nil in Hc|].
    intros j c Hj. by apply elem_of_nil in Hj. }
  simpl in *. rewrite chain_app, HE, <- chain_app. apply chain_or_elems. intros c.
  rewrite elem_of_app, list_elem_of_omap. split.
  - intros [Hc|(j & Hj & Ec)]; [by apply Hin|]. destruct (is_consumed consumed j); [done|].
    by eapply list_elem_of_lookup_2.
  - intros Hc. apply list_elem_of_lookup_1 in Hc as [j Hj].
    destruct (is_consumed consumed j) eqn:Ej.
    + left. apply is_consumed_elem in Ej. by eapply Hcov.
    + right. exists j. rewrite Ej. split; [|done]. apply elem_of_seq.
      apply lookup_lt_Some in Hj. lia.
Qed.
End semantics.

(** ** The recursion ends *)

Lemma sequence_outcomes_fuel os : OutOfFuel ∉ os -> sequence_outcomes os <> Err OutOfFuel.
Proof.
  induction os as [|o os IH]; simpl; [done|]. rewrite not_elem_of_cons. intros [Ho Hos].
  specialize (IH Hos). destruct o; try done. by destruct (sequence_outcomes os).
Qed.

Lemma simplify_fuel_enough fuel node : (height node <= fuel)%nat -> simplify_fuel fuel node <> OutOfFuel.
Proof.
  revert node. induction fuel as [|fuel IH]; intros node Hf; [destruct node; simpl in Hf; lia|].
  assert (connective (ctype node) ->
    sequence_outcomes (map (simplify_fuel fuel) (collect_same_op (ctype node) node)) <> Err OutOfFuel) as Hseq.
  { intros Ht. apply sequence_outcomes_fuel. intros Hin. apply list_elem_of_fmap in Hin as (c & Ec & Hc).
    symmetry in Ec. pose proof (collect_smaller node c Ht Hc). by apply (IH c) in Ec; [|lia]. }
  destruct node as [| |l r|l r|n]; cbn [simplify_fuel]; try done.
  - specialize (Hseq (or_introl eq_refl)). destruct (sequence_outcomes _) as [ps|o]; [|congruence].
    by destruct (deref_all ps).
  - specialize (Hseq (or_intror eq_refl)). destruct (sequence_outcomes _) as [ps|o]; [|congruence].
    by destruct (deref_all ps).
  - simpl in Hf. specialize (IH n ltac:(lia)). by destruct (simplify_fuel fuel n) as [| |[[]|]].
Qed.

Lemma keep_new_nonempty kept c : keep_new kept c <> [].
Proof. unfold keep_new. destruct (existsb _ kept) eqn:E; [by destruct kept|]. by destruct kept. Qed.

Lemma rebuild_some type cs : cs <> [] -> exists c, rebuild type (map Some cs) = Some c.
Proof.
  intros Hne. destruct cs as [|c cs]; [done|]. unfold rebuild. simpl. clear Hne. revert c.
  induction cs as [|d cs IH]; intros c; [by exists c|apply IH].
Qed.

Lemma deduplicate_fuel_enough fuel node : (height node <= fuel)%nat ->
  exists c, deduplicate_fuel fuel node = Some c.
Proof.
  revert node. induction fuel as [|fuel IH]; intros node Hf; [destruct node; simpl in Hf; lia|].
  assert (connective (ctype node) -> exists c, rebuild (ctype node) (map Some
    (fold_left (fun kept child =>
            match deduplicate_fuel fuel child with Some c => keep_new kept c | None => kept end)
            (collect_same_op (ctype node) node) [])) = Some c) as Hconn.
  { intros Ht. apply rebuild_some. pose proof (collect_nonempty (ctype node) node Ht) as Hne.
    assert (forall c, c ∈ collect_same_op (ctype node) node -> exists d, deduplicate_fuel fuel c = Some d) as Hall.
    { intros c Hc. apply IH. pose proof (collect_smaller node c Ht Hc). lia. }
    destruct (collect_same_op (ctype node) node) as [|c cs]; [done|]. clear Hne. simpl.
    destruct (Hall c) as [d ->]; [by left|].
    assert (forall kept, kept <> [] -> fold_left (fun kept child =>
      match deduplicate_fuel fuel child with Some c => keep_new kept c | None => kept end) cs kept <> []) as Hf'.
    { clear. induction cs as [|c cs IH]; intros kept Hk; simpl; [done|]. apply IH.
      case_match; [apply keep_new_nonempty|done]. }
    apply Hf', keep_new_nonempty. }
  destruct node as [| |l r|l r|n]; cbn [deduplicate_fuel]; try (by eexists).
  - apply Hconn. by left.
  - apply Hconn. by right.
  - simpl in Hf. destruct (IH n) as [c ->]; [lia|]. by eexists.
Qed.

(** The fuel of the passes is enough: no pass runs out of it, with the height of
    the tree as its depth of recursion, and flattening and removing duplicates
    return a tree. The last pass may still follow a null pointer, see
    [absorption_drops_where]. *)
Lemma rewriter_terminates c :
  is_Some (flatten_impl c) /\ is_Some (deduplicate_impl c) /\ simplify_impl c <> OutOfFuel /\
  rewrite_condition_tree (Some c) <> OutOfFuel.
Proof.
  assert (Hfl : forall c, is_Some (flatten_impl c)).
  { intros d. destruct (flatten_fuel_ok (fun _ => None) (height d) d) as (e & E & _); [lia|]. by exists e. }
  assert (Hdd : forall c, is_Some (deduplicate_impl c)).
  { intros d. destruct (deduplicate_fuel_enough (height d) d) as (e & E); [lia|]. by exists e. }
  assert (Hs : forall c, simplify_impl c <> OutOfFuel) by (intros d; by apply simplify_fuel_enough).
  split; [done|]. split; [done|]. split; [done|]. simpl.
  destruct (Hfl (pushdown_not_impl c false)) as [d ->].
  destruct (Hdd (fold_constants_impl d)) as [e ->]. apply Hs.
Qed.

(** C39: the structural passes keep the truth of a condition on every row. Pushing
    negations to the leaves, flattening chains, folding constant lists, and
    merging the equalities of one column into [IN] return trees that are TRUE,
    FALSE and UNKNOWN exactly where the original is. *)
Theorem rewriter_passes_preserve_truth lookup c cs :
  (forall a b, ident_eqb a b = true -> lookup a = lookup b) ->
  evaluate lookup (pushdown_not_impl c false) = evaluate lookup c /\
  (exists d, flatten_impl c = Some d /\ evaluate lookup d = evaluate lookup c) /\
  evaluate lookup (fold_constants_impl c) = evaluate lookup c /\
  chain lookup C_OR (merge_eq cs) = chain lookup C_OR cs.
Proof.
  intros Hl. split; [apply (pushdown_not_ok lookup c false)|].
  split; [by apply flatten_fuel_ok|]. split; [apply fold_constants_ok|]. by apply merge_eq_ok.
Qed.

Lemma rewriter_passes_preserve_truth_witness :
  let row := fun i => if ident_eqb i (identifier (str "a")) then Some (VInt I_INT 3) else None in
  evaluate row (pushdown_not_impl (NotCondition (eq_int "A" 3)) false) = T_FALSE.
Proof.
  intros row.
  destruct (rewriter_passes_preserve_truth row (NotCondition (eq_int "A" 3)) []) as [H _].
  - intros a b Hab. unfold row, ident_eqb in *. apply bytes_eqb_eq in Hab. rewrite Hab. reflexivity.
  - rewrite H. vm_compute. reflexivity.
Defined.

(** ** Where the last pass changes the rows

    The row of the examples: [a = 1], [b = 2], [c = 3], [d = 4]. *)
Definition example_row (i : Identifier) : option Value :=
  if ident_eqb i (identifier (str "a")) then Some (VInt I_INT 1)
  else if ident_eqb i (identifier (str "b")) then Some (VInt I_INT 2)
  else if ident_eqb i (identifier (str "c")) then Some (VInt I_INT 3)
  else None.

(** Absorption looks too deep. [a = 1 AND ((a = 1 AND c = 9) OR b = 9)] is
    rewritten to [a = 1]: the disjunction is dropped because [a = 1] occurs
    somewhere inside it, although it is not one of its disjuncts, so rows that
    the condition rejects are kept. *)
Theorem absorption_keeps_rejected_rows :
  let cond := AndCondition (eq_int "a" 1)
                 (OrCondition (AndCondition (eq_int "a" 1) (eq_int "c" 9)) (eq_int "b" 9)) in
  rewrite_condition_tree (Some cond) = Ptr (Some (eq_int "a" 1)) /\
  evaluate example_row cond = T_FALSE /\ evaluate example_row (eq_int "a" 1) = T_TRUE.
Proof. vm_compute. auto. Qed.

(** Absorption can drop the whole condition. Two conjuncts that simplify to the
    same disjunction absorb each other; nothing is left and the statement runs
    without a [WHERE]. One level deeper the empty result is dereferenced. *)
Theorem absorption_drops_where :
  let or1 := OrCondition (eq_int "a" 9) (eq_int "b" 9) in
  let or2 := OrCondition or1 (AndCondition (eq_int "a" 9) (eq_int "c" 9)) in
  let cond := AndCondition or1 or2 in
  rewrite_condition_tree (Some cond) = Ptr None /\
  evaluate example_row cond = T_FALSE /\
  rewrite_condition_tree (Some (OrCondition (eq_int "d" 4) cond)) = NullDeref.
Proof. vm_compute. auto. Qed.

(** Duplicates are recognised by their text, and the text of a string constant
    carries no quotes: of [d = TRUE AND d = 'true'] only the first conjunct is
    kept, and a row on which the second is UNKNOWN is returned. *)
Theorem text_conflates_constants :
  let by_bool := CompareCondition (identifier (str "d")) EQ (VBool true) in
  let by_text := CompareCondition (identifier (str "d")) EQ (VStr S_VARCHAR (str "true")) in
  let row := fun i => if ident_eqb i (identifier (str "d")) then Some (VBool true) else None in
  rewrite_condition_tree (Some (AndCondition by_bool by_text)) = Ptr (Some by_bool) /\
  evaluate row (AndCondition by_bool by_text) = T_UNKNOWN /\ evaluate row by_bool = T_TRUE.
Proof. vm_compute. auto. Qed.

(** ** Columns and constants

    The passes make no new leaf: columns and constants of the result are those
    of the argument. *)

Section leaves.
Context (Pc : Identifier -> Prop) (P : Identifier -> Value -> Prop).
Hypothesis (P_ident : forall a b v, ident_eqb a b = true -> P a v -> P b v).

Fixpoint leaves (c : Condition) : Prop :=
  match c with
  | CompareCondition col _ v => Pc col /\ P col v
  | InCondition col _ vs => Pc col /\ Forall (P col) vs
  | AndCondition l r | OrCondition l r => leaves l /\ leaves r
  | NotCondition c' => leaves c'
  end.
Definition leaves_opt (c : option Condition) : Prop := match c with Some d => leaves d | None => True end.

Lemma pushdown_leaves node negated : leaves node -> leaves (pushdown_not_impl node negated).
Proof.
  revert negated. induction node as [col op v|col b vs|l IHl r IHr|l IHl r IHr|n IH]; intros negated H; simpl in *.
  - destruct negated; simpl; [|done]. by destruct (bool_decide _).
  - by destruct negated.
  - destruct H. destruct negated; simpl; auto.
  - destruct H. destruct negated; simpl; auto.
  - auto.
Qed.

Lemma collect_leaves type node : leaves node -> Forall leaves (collect_same_op type node).
Proof.
  induction node as [| |l IHl r IHr|l IHl r IHr|n IH]; simpl; intros H; destruct (bool_decide _);
    try (by constructor); try (destruct H; apply Forall_app; auto); auto.
Qed.

Lemma rebuild_leaves type ps : Forall leaves_opt ps -> leaves_opt (rebuild type ps).
Proof.
  unfold rebuild. intros H.
  assert (forall acc, leaves_opt acc -> leaves_opt (fold_left (fun result child =>
    match child, result with
    | None, _ => result
    | Some c, None => Some c
    | Some c, Some r => Some (make_conn type r c)
    end) ps acc)) as Hf; [|by apply Hf].
  induction H as [|p ps Hp _ IH]; intros acc Ha; simpl; [done|]. apply IH.
  destruct p as [c|], acc as [r|]; try done. simpl in *. unfold make_conn. by destruct (bool_decide _).
Qed.

Lemma map_some_leaves cs : Forall leaves cs -> Forall leaves_opt (map Some cs).
Proof. by induction 1; constructor. Qed.

Lemma flatten_leaves fuel node : leaves node -> leaves_opt (flatten_fuel fuel node).
Proof.
  revert node. induction fuel as [|fuel IH]; intros node H; [done|].
  assert (Hc : Forall leaves_opt (map (flatten_fuel fuel) (collect_same_op (ctype node) node))).
  { pose proof (collect_leaves (ctype node) node H) as Hl. induction Hl; constructor; auto. }
  destruct node; try done; try (by apply rebuild_leaves).
  simpl. specialize (IH node H). destruct (flatten_fuel fuel node); [exact IH|done].
Qed.

Lemma dedup_values_forall (Pv : Value -> Prop) vs : Forall Pv vs -> Forall Pv (dedup_values vs).
Proof.
  unfold dedup_values. intros H.
  assert (forall kept, Forall Pv kept -> Forall Pv (fold_left (fun kept v =>
    if existsb (fun w => value_eqb w v) kept then kept else kept ++ [v]) vs kept)) as Hf; [|by apply Hf].
  induction H as [|v vs Hv _ IH]; intros kept Hk; simpl; [done|]. apply IH.
  destruct (existsb _ kept); [done|]. apply Forall_app. split; [done|by constructor].
Qed.

Lemma fold_constants_leaves node : leaves node -> leaves (fold_constants_impl node).
Proof.
  induction node as [col op v|col b vs|l IHl r IHr|l IHl r IHr|n IH]; intros H; simpl in *;
    try done; try (destruct H; split; auto); auto.
  destruct H as [Hc Hvs]. apply dedup_values_forall in Hvs.
  destruct (dedup_values vs) as [|v [|w ws]]; try done.
  destruct (negb (is_null v)); [|done]. apply Forall_cons in Hvs as [Hv _]. done.
Qed.

Lemma deduplicate_leaves fuel node : leaves node -> leaves_opt (deduplicate_fuel fuel node).
Proof.
  revert node. induction fuel as [|fuel IH]; intros node H; [done|].
  assert (Hc : Forall leaves (fold_left (fun kept child =>
    match deduplicate_fuel fuel child with Some c => keep_new kept c | None => kept end)
    (collect_same_op (ctype node) node) [])).
  { pose proof (collect_leaves (ctype node) node H) as Hl. generalize (Forall_nil_2 leaves).
    generalize (@nil Condition). induction Hl as [|c cs Hc _ IHl]; intros kept Hk; simpl; [done|].
    apply IHl. specialize (IH c Hc). destruct (deduplicate_fuel fuel c) as [d|]; [|done].
    unfold keep_new. destruct (existsb _ kept); [done|]. apply Forall_app. split; [done|by constructor]. }
  destruct node; try done; try (by apply rebuild_leaves, map_some_leaves).
  simpl. specialize (IH node H). destruct (deduplicate_fuel fuel node); [exact IH|done].
Qed.

Lemma omap_index_leaves (f : nat -> bool) cs js : Forall leaves cs ->
  Forall leaves (omap (fun i => if f i then None else cs !! i) js).
Proof.
  intros H. apply Forall_forall. intros c Hc. apply list_elem_of_omap in Hc as (j & _ & E).
  destruct (f j); [done|]. eapply Forall_lookup_1; eauto.
Qed.

Lemma eq_parts_leaves c col v : leaves c -> eq_parts c = Some (col, v) -> Pc col /\ P col v.
Proof. intros H E. apply eq_parts_inv in E as ->. done. Qed.

Lemma merge_eq_leaves kept : Forall leaves kept -> Forall leaves (merge_eq kept).
Proof.
  intros Hk. unfold merge_eq.
  assert (forall js st, Forall leaves st.2 -> Forall leaves (fold_left (merge_step kept) js st).2) as Hm.
  { induction js as [|j js IH]; intros [consumed merged] Hs; simpl; [done|]. apply IH.
    unfold merge_step. destruct (is_consumed consumed j); [done|].
    destruct (kept !! j) as [c|] eqn:Ej; [|done]. destruct (eq_parts c) as [[col v]|] eqn:Ec; [|done].
    assert (leaves c) as Hc by (by apply (Forall_lookup_1 leaves kept j c)).
    destruct (eq_parts_leaves c col v Hc Ec) as [Hcol Hv]. cbn [snd] in Hs.
    set (group := omap _ _). assert (Forall (P col) (map snd group)) as Hg.
    { apply Forall_fmap, Forall_forall. intros [k w] Hin. apply list_elem_of_omap in Hin as (i & _ & E).
      unfold same_column_eq in E. destruct (is_consumed consumed i); [done|].
      destruct (kept !! i) as [d|] eqn:Ei; [|done]. destruct (eq_parts d) as [[col' w']|] eqn:Ed; [|done].
      destruct (ident_eqb col' col) eqn:Ecol; [|done]. injection E as -> ->.
      assert (leaves d) as Hd by (exact (Forall_lookup_1 leaves kept _ d Hk Ei)).
      destruct (eq_parts_leaves d col' w Hd Ed) as [_ Hw]. by apply (P_ident col'). }
    destruct group as [|g gs]; [done|]. simpl. apply Forall_app. split; [done|]. constructor; [|done].
    split; [done|]. by constructor. }
  specialize (Hm (seq 0 (length kept)) ([], []) (Forall_nil_2 _)).
  destruct (fold_left _ _ _) as [consumed merged]. apply Forall_app. split; [done|]. by apply omap_index_leaves.
Qed.

Definition outcome_leaves (o : outcome) : Prop := match o with Ptr p => leaves_opt p | _ => True end.

Lemma sequence_leaves os ps : Forall outcome_leaves os -> sequence_outcomes os = Ok ps -> Forall leaves_opt ps.
Proof.
  intros H. revert ps. induction H as [|o os Ho _ IH]; intros ps E; simpl in E; [by injection E as <-|].
  destruct o as [| |p]; try done. destruct (sequence_outcomes os); [|done]. injection E as <-. constructor; auto.
Qed.

Lemma sequence_error os o : sequence_outcomes os = Err o -> outcome_leaves o.
Proof.
  induction os as [|o' os IH]; simpl; [done|]. destruct o'; try (by intros [= <-]).
  destruct (sequence_outcomes os); [done|]. intros [= <-]. by apply IH.
Qed.

Lemma deref_leaves ps cs : Forall leaves_opt ps -> deref_all ps = Some cs -> Forall leaves cs.
Proof.
  intros H. revert cs. induction H as [|p ps Hp _ IH]; intros cs E; simpl in E; [by injection E as <-|].
  destruct p as [c|]; [|done]. destruct (deref_all ps); [|done]. injection E as <-. constructor; auto.
Qed.

Lemma simplify_leaves fuel node : leaves node -> outcome_leaves (simplify_fuel fuel node).
Proof.
  revert node. induction fuel as [|fuel IH]; intros node H; [done|].
  assert (forall type cs, sequence_outcomes (map (simplify_fuel fuel) (collect_same_op type node)) = Ok cs ->
    Forall leaves_opt cs) as Hseq.
  { intros type cs. apply sequence_leaves. pose proof (collect_leaves type node H) as Hl.
    induction Hl; constructor; auto. }
  destruct node as [| |l r|l r|n]; cbn [simplify_fuel]; try done.
  - destruct (sequence_outcomes _) as [ps|o] eqn:E.
    + destruct (deref_all ps) as [cs|] eqn:Ed; [|done]. simpl. apply rebuild_leaves, map_some_leaves, omap_index_leaves.
      by eapply deref_leaves; [eapply Hseq|].
    + by apply sequence_error in E.
  - destruct (sequence_outcomes _) as [ps|o] eqn:E.
    + destruct (deref_all ps) as [cs|] eqn:Ed; [|done]. simpl.
      apply rebuild_leaves, map_some_leaves, merge_eq_leaves, omap_index_leaves.
      by eapply deref_leaves; [eapply Hseq|].
    + by apply sequence_error in E.
  - specialize (IH n H). by destruct (simplify_fuel fuel n) as [| |[[]|]].
Qed.

Lemma rewrite_leaves root p : leaves_opt root -> rewrite_condition_tree root = Ptr p -> leaves_opt p.
Proof.
  destruct root as [c|]; simpl; intros H E; [|by injection E as <-].
  pose proof (flatten_leaves (height (pushdown_not_impl c false)) _ (pushdown_leaves c false H)) as Hf.
  fold (flatten_impl (pushdown_not_impl c false)) in Hf.
  destruct (flatten_impl _) as [d|]; [|by injection E as <-].
  pose proof (deduplicate_leaves (height (fold_constants_impl d)) _ (fold_constants_leaves d Hf)) as Hd.
  fold (deduplicate_impl (fold_constants_impl d)) in Hd.
  destruct (deduplicate_impl _) as [e|]; [|by injection E as <-].
  pose proof (simplify_leaves (height e) e Hd) as Hs. unfold simplify_impl in E. by rewrite E in Hs.
Qed.
End leaves.
