(* ===== verification/Optimizer.v ===== *)
(** * The optimizer: [planner/optimizer.cpp]

    From a [WHERE] tree to the space to scan, a sorted list of disjoint key
    ranges, and the condition left to filter the rows. *)

From Stdlib Require Import Sorting.Sorted.
From S2P Require Import Prelude Bytes SqlTypes Temporal KeyCodec SqlKeyRange SqlTruth Rewriter.

(** ** Lists of ranges *)

Definition range_less (a b : KeyRange) : bool :=
  match low_key a, low_key b with
  | None, Some _ => true
  | Some _, None => false
  | la, lb =>
      match la, lb with
      | Some x, Some y =>
          if negb (bytes_eqb x y) then bytes_ltb x y
          else match high_key a, high_key b with
               | None, Some _ => false
               | Some _, None => true
               | Some h, Some k => bytes_ltb h k
               | None, None => false
               end
      | _, _ =>
          match high_key a, high_key b with
          | None, Some _ => false
          | Some _, None => true
          | Some h, Some k => bytes_ltb h k
          | None, None => false
          end
      end
  end.

(** [std::sort] with [range_less]. *)
Fixpoint insert_range (r : KeyRange) (rs : list KeyRange) : list KeyRange :=
  match rs with
  | [] => [r]
  | s :: rs' => if range_less r s then r :: rs else s :: insert_range r rs'
  end.
Fixpoint sort_ranges (rs : list KeyRange) : list KeyRange :=
  match rs with [] => [] | r :: rs' => insert_range r (sort_ranges rs') end.

(** The merging loop; the head of [merged] is its last element. *)
Definition merge_last (merged : list KeyRange) (r : KeyRange) : list KeyRange :=
  match merged with
  | [] => [r]
  | last :: rest =>
      if overlaps last r || is_adjacent last r then
        match unite last r with
        | [u] => u :: rest
        | _ => r :: merged
        end
      else r :: merged
  end.

Definition normalize_ranges (ranges : list KeyRange) : list KeyRange :=
  reverse (fold_left merge_last (sort_ranges (List.filter (fun r => negb (kr_is_empty r)) ranges)) []).

Definition intersect_ranges (a b : list KeyRange) : list KeyRange :=
  normalize_ranges
    (flat_map (fun lhs => List.filter (fun i => negb (kr_is_empty i)) (map (intersect lhs) b)) a).

Definition unite_ranges (a b : list KeyRange) : list KeyRange := normalize_ranges (a ++ b).

(** The run of consecutive points after [end]: the last value, what is left, and
    whether the run is longer than its first point. *)
Fixpoint point_run (finish : Z) (last : Value) (moved : bool) (rs : list KeyRange)
  : Value * list KeyRange * bool :=
  match rs with
  | [] => (last, [], moved)
  | r :: rs' =>
      if is_point r then
        match point_value r with
        | VInt t x as next =>
            if negb (is_int next) || (finish =? int64_max)%Z || negb (x =? finish + 1)%Z
            then (last, rs, moved)
            else point_run x next true rs'
        | _ => (last, rs, moved)
        end
      else (last, rs, moved)
  end.

(** [end.as_int()] throws when a point that is not stored as an integer is
    followed by an integer point; [None] is that exception. *)
Definition next_is_int_point (rs : list KeyRange) : bool :=
  match rs with r :: _ => is_point r && is_int (point_value r) | [] => false end.

Fixpoint coalesce_fuel (fuel : nat) (ranges : list KeyRange) : option (list KeyRange) :=
  match fuel with
  | O => None
  | S fuel' =>
      match ranges with
      | [] => Some []
      | r :: rs =>
          let keep := match coalesce_fuel fuel' rs with Some l => Some (r :: l) | None => None end in
          if negb (is_point r) then keep
          else match point_value r with
               | VNull => keep
               | VInt _ x as start =>
                   let '(finish, rest, moved) := point_run x start false rs in
                   match coalesce_fuel fuel' rest with
                   | Some l => Some ((if moved then kr_closed start finish else r) :: l)
                   | None => None
                   end
               | _ => if next_is_int_point rs then None else keep
               end
      end
  end.

Definition coalesce_adjacent_points (ranges : list KeyRange) (pk_type : DataType) : option (list KeyRange) :=
  if negb (is_integer pk_type) && negb (is_temporal pk_type) then Some ranges
  else coalesce_fuel (S (length ranges)) ranges.

Definition is_sparse_point_set (ranges : list KeyRange) : bool :=
  (2 <=? length ranges)%nat && forallb (fun r => is_point r && negb (kr_is_empty r)) ranges.

(** ** Conditions on the primary key *)

Fixpoint range_of_condition (node : Condition) (pk_type : DataType) : option (list KeyRange) :=
  match node with
  | CompareCondition _ op v =>
      match op with
      | IS_NULL => Some [null_only pk_type]
      | IS_NOT_NULL => Some [non_null pk_type]
      | _ =>
          if negb (is_indexable op) then None
          else if is_null v then Some [kr_empty pk_type]
          else match op with
               | EQ => Some [kr_point v]
               | GT => Some [kr_gt v]
               | GE => Some [kr_ge v]
               | LT => Some [kr_lt v]
               | LE => Some [kr_le v]
               | _ => None
               end
      end
  | InCondition _ is_not_in values =>
      if is_not_in then None
      else match map kr_point (List.filter (fun v => negb (is_null v)) values) with
           | [] => Some [kr_empty pk_type]
           | result => Some result
           end
  | AndCondition l r =>
      match range_of_condition l pk_type, range_of_condition r pk_type with
      | Some a, Some b => Some (intersect_ranges a b)
      | _, _ => None
      end
  | OrCondition l r =>
      match range_of_condition l pk_type, range_of_condition r pk_type with
      | Some a, Some b => Some (unite_ranges a b)
      | _, _ => None
      end
  | NotCondition _ => None
  end.

Definition join_and (l r : option Condition) : option Condition :=
  match l, r with
  | None, _ => r
  | _, None => l
  | Some a, Some b => Some (AndCondition a b)
  end.
Definition join_or (l r : option Condition) : option Condition :=
  match l, r with
  | None, _ => r
  | _, None => l
  | Some a, Some b => Some (OrCondition a b)
  end.
Definition rebuild_split (pk remaining : option Condition) : option Condition := join_and pk remaining.

Record SplitConditions := mkSplit { pk_cond : option Condition; remaining : option Condition }.

(** [make_or] of two pointers: both are set in this branch. *)
Definition make_or_ptr (l r : option Condition) : option Condition :=
  match l, r with Some a, Some b => Some (OrCondition a b) | _, _ => None end.

Fixpoint split_primary_key (node : Condition) (pk : Identifier) : SplitConditions :=
  match node with
  | CompareCondition column op _ =>
      if ident_eqb column pk && (is_indexable op || is_null_op op)
      then mkSplit (Some node) None else mkSplit None (Some node)
  | InCondition column is_not_in _ =>
      if ident_eqb column pk && negb is_not_in
      then mkSplit (Some node) None else mkSplit None (Some node)
  | AndCondition l r =>
      let left := split_primary_key l pk in
      let right := split_primary_key r pk in
      mkSplit (join_and (pk_cond left) (pk_cond right)) (join_and (remaining left) (remaining right))
  | OrCondition l r =>
      let left := split_primary_key l pk in
      let right := split_primary_key r pk in
      match remaining left, remaining right with
      | None, None => mkSplit (join_or (pk_cond left) (pk_cond right)) None
      | _, _ => mkSplit None (make_or_ptr (rebuild_split (pk_cond left) (remaining left))
                                          (rebuild_split (pk_cond right) (remaining right)))
      end
  | NotCondition _ => mkSplit None (Some node)
  end.

(** [KeySet::add]: points with equal keys are one point. *)
Definition key_set_add (points : list Value) (v : Value) : list Value :=
  if existsb (fun x => bytes_eqb (to_key x) (to_key v)) points then points else points ++ [v].

Fixpoint collect_exclusions (node : Condition) (pk : Identifier) (out : list Value) : list Value :=
  match node with
  | AndCondition l r => collect_exclusions r pk (collect_exclusions l pk out)
  | CompareCondition column op v =>
      if ident_eqb column pk && bool_decide (op = NE) && negb (is_null v) then key_set_add out v else out
  | InCondition column is_not_in values =>
      if ident_eqb column pk && is_not_in
      then fold_left (fun out v => if negb (is_null v) then key_set_add out v else out) values out
      else out
  | _ => out
  end.

(** ** The plan of a statement *)

(** How a statement fails before a plan exists: a null child dereferenced, a
    value read as the wrong type, or (never, see [rewriter_terminates]) a
    recursion cut short. *)
Inductive PlanFault := NullPointer | WrongType | Cut.

Definition as_ptr (o : outcome) : result PlanFault (option Condition) :=
  match o with Ptr p => Ok p | NullDeref => Err NullPointer | OutOfFuel => Err Cut end.

(** [PrimaryKeyExtractResult] is a [SplitConditions] with the key's column. *)
Definition extract_primary_key_condition (pk : option Identifier) (where_ : option Condition)
  : result PlanFault SplitConditions :=
  let* w := as_ptr (rewrite_condition_tree where_) in
  match pk with
  | None => Ok (mkSplit None w)
  | Some p => match w with Some c => Ok (split_primary_key c p) | None => Ok (mkSplit None None) end
  end.

Definition rewrite_primary_key_condition (s : SplitConditions) : result PlanFault SplitConditions :=
  let* p := as_ptr (rewrite_condition_tree (pk_cond s)) in
  let* r := as_ptr (rewrite_condition_tree (remaining s)) in
  Ok (mkSplit p r).

Record ScanPlan := mkScanPlan {
  plan_ranges : list KeyRange;
  plan_filter : option Condition;
  plan_exclude : list Value;
  is_point_query : bool }.

Definition exclusions (filter : option Condition) (pk : option Identifier) : list Value :=
  match filter, pk with Some c, Some p => collect_exclusions c p [] | _, _ => [] end.

Definition finish_plan (pk : option Identifier) (candidates : list KeyRange) (filter : option Condition)
  : ScanPlan :=
  mkScanPlan candidates filter (exclusions filter pk)
    (match candidates with [r] => is_point r | _ => false end).

Section convert.
(** The decision of the cost model that a full scan is cheaper than the point
    lookups ([stats.rows_known && point_cost > scan_cost]). *)
Context (scan_is_cheaper : nat -> bool).

Definition convert_to_key_range (pk : option Identifier) (pk_type : DataType) (s : SplitConditions)
  : result PlanFault ScanPlan :=
  match pk_cond s with
  | None => Ok (finish_plan pk [kr_all pk_type] (remaining s))
  | Some c =>
      match range_of_condition c pk_type with
      | Some converted =>
          match coalesce_adjacent_points (normalize_ranges converted) pk_type with
          | None => Err WrongType
          | Some candidates =>
              if scan_is_cheaper (length candidates) && negb (bool_decide (length candidates = 0%nat)) &&
                 is_sparse_point_set candidates
              then
                let* filter := as_ptr (rewrite_condition_tree (rebuild_split (Some c) (remaining s))) in
                Ok (mkScanPlan [kr_all pk_type] filter (exclusions filter pk) false)
              else
                let candidates := if bool_decide (length candidates = 0%nat)
                                  then [kr_empty pk_type] else candidates in
                Ok (finish_plan pk candidates (remaining s))
          end
      | None =>
          let* filter := as_ptr (rewrite_condition_tree (rebuild_split (Some c) (remaining s))) in
          Ok (finish_plan pk [kr_all pk_type] filter)
      end
  end.

(** [optimize_select], [optimize_update], [optimize_delete] *)
Definition optimize_scan (pk : option Identifier) (pk_type : DataType) (where_ : option Condition)
  : result PlanFault ScanPlan :=
  let* extracted := extract_primary_key_condition pk where_ in
  let* rewritten := rewrite_primary_key_condition extracted in
  convert_to_key_range pk pk_type rewritten.
End convert.

(** [id] the integer key of the examples. *)
Definition ID : Identifier := identifier (str "id").
Definition cmp_id (op : CompareOp) (n : Z) : Condition := CompareCondition ID op (VInt I_INT n).

Example plan_in :
  optimize_scan (fun _ => false) (Some ID) INT
    (Some (AndCondition (eq_int "a" 1) (InCondition ID false [VInt I_INT 7; VInt I_INT 2; VInt I_INT 3]))) =
  Ok (mkScanPlan [kr_closed (VInt I_INT 2) (VInt I_INT 3); kr_point (VInt I_INT 7)] (Some (eq_int "a" 1)) [] false).
Proof. vm_compute. reflexivity. Qed.

Example plan_contradiction :
  optimize_scan (fun _ => false) (Some ID) INT (Some (AndCondition (cmp_id GT 5) (cmp_id LT 3))) =
  Ok (mkScanPlan [kr_empty INT] None [] false).
Proof. vm_compute. reflexivity. Qed.

(** ** What the candidate ranges hold *)

Lemma in_ranges_perm v rs ss : rs ≡ₚ ss -> in_ranges v rs = in_ranges v ss.
Proof.
  unfold in_ranges. induction 1 as [|r rs ss _ IH|r s rs|rs ss us _ IH1 _ IH2]; simpl; try congruence.
  by destruct (between r v), (between s v).
Qed.

Lemma insert_range_perm r rs : insert_range r rs ≡ₚ r :: rs.
Proof.
  induction rs as [|s rs IH]; simpl; [done|]. destruct (range_less r s); [done|].
  rewrite IH. constructor.
Qed.
Lemma sort_ranges_perm rs : sort_ranges rs ≡ₚ rs.
Proof. induction rs as [|r rs IH]; simpl; [done|]. by rewrite insert_range_perm, IH. Qed.

Section exact.
Context (t : DataType) (v : Value).
Hypothesis (Hv : in_column t v).

Let inr := in_ranges v.

Lemma filter_nonempty_ok rs : Forall (range_ok t) rs ->
  Forall (range_ok t) (List.filter (fun r => negb (kr_is_empty r)) rs) /\
  inr (List.filter (fun r => negb (kr_is_empty r)) rs) = inr rs.
Proof.
  induction 1 as [|r rs Hr _ [IHf IHi]]; [done|]. simpl. destruct (kr_is_empty r) eqn:E; simpl.
  - split; [done|]. rewrite IHi. unfold inr, in_ranges. simpl. by rewrite (empty_between t v Hv r Hr E).
  - split; [by constructor|]. unfold inr, in_ranges in *. simpl. by rewrite IHi.
Qed.

Lemma merge_last_ok merged r : Forall (range_ok t) merged -> range_ok t r ->
  Forall (range_ok t) (merge_last merged r) /\ inr (merge_last merged r) = inr merged || between r v.
Proof.
  intros Hm Hr. assert (Hdef : Forall (range_ok t) (r :: merged) /\
    inr (r :: merged) = inr merged || between r v).
  { split; [by constructor|]. unfold inr, in_ranges. simpl. by rewrite orb_comm. }
  destruct merged as [|last rest]; [done|]. simpl.
  destruct (overlaps last r || is_adjacent last r); [|done].
  apply Forall_cons in Hm as [Hl Hm]. pose proof (unite_ok t last r Hl Hr) as Hu.
  pose proof (unite_between t v Hv last r Hl Hr) as Hi.
  destruct (unite last r) as [|u [|]]; try done.
  apply Forall_cons in Hu as [Hu _]. split; [by constructor|].
  unfold inr, in_ranges in *. simpl in *. rewrite orb_false_r in Hi. rewrite Hi.
  by destruct (between last v), (between r v), (existsb _ rest).
Qed.

Lemma fold_merge_ok rs merged : Forall (range_ok t) merged -> Forall (range_ok t) rs ->
  Forall (range_ok t) (fold_left merge_last rs merged) /\
  inr (fold_left merge_last rs merged) = inr merged || inr rs.
Proof.
  intros Hm Hrs. revert merged Hm. induction Hrs as [|r rs Hr _ IH]; intros merged Hm; simpl.
  - split; [done|]. by rewrite orb_false_r.
  - destruct (merge_last_ok merged r Hm Hr) as [Hm' Hi]. destruct (IH _ Hm') as [IHf IHi].
    split; [done|]. rewrite IHi, Hi. unfold inr at 4, in_ranges. simpl. by rewrite orb_assoc.
Qed.

Lemma normalize_ranges_ok rs : Forall (range_ok t) rs ->
  Forall (range_ok t) (normalize_ranges rs) /\ inr (normalize_ranges rs) = inr rs.
Proof.
  intros Hrs. destruct (filter_nonempty_ok rs Hrs) as [Hf Hi]. unfold normalize_ranges.
  set (kept := List.filter _ rs) in *.
  assert (Hs : Forall (range_ok t) (sort_ranges kept)) by (by rewrite sort_ranges_perm).
  destruct (fold_merge_ok (sort_ranges kept) [] (Forall_nil_2 _) Hs) as [Hm Hmi]. split.
  - by rewrite reverse_Permutation.
  - unfold inr in *. rewrite (in_ranges_perm v _ _ (reverse_Permutation _)), Hmi. simpl.
    by rewrite (in_ranges_perm v _ _ (sort_ranges_perm kept)).
Qed.

Lemma intersect_with_ok r rs : range_ok t r -> Forall (range_ok t) rs ->
  Forall (range_ok t) (map (intersect r) rs) /\ inr (map (intersect r) rs) = between r v && inr rs.
Proof.
  intros Hr. induction 1 as [|s rs Hs _ [IHf IHi]]; simpl; [split; [done|]; by rewrite andb_false_r|].
  split; [constructor; [by apply intersect_ok|done]|].
  unfold inr, in_ranges in *. simpl. rewrite IHi, (intersect_between t v Hv r s Hr Hs).
  by rewrite andb_orb_distrib_r.
Qed.

Lemma intersect_ranges_ok a b : Forall (range_ok t) a -> Forall (range_ok t) b ->
  Forall (range_ok t) (intersect_ranges a b) /\ inr (intersect_ranges a b) = inr a && inr b.
Proof.
  intros Ha Hb. unfold intersect_ranges. set (pairs := flat_map _ a).
  assert (Forall (range_ok t) pairs /\ inr pairs = inr a && inr b) as [Hp Hpi].
  { unfold pairs. clear pairs. induction Ha as [|r a Hr _ [IHf IHi]]; simpl; [done|].
    destruct (intersect_with_ok r b Hr Hb) as [Hm Hmi]. destruct (filter_nonempty_ok _ Hm) as [Hf Hfi].
    split; [apply Forall_app; split; [apply Hf|done]|]. unfold inr in *. rewrite in_ranges_app.
    rewrite IHi, Hfi, Hmi. unfold in_ranges at 3. simpl. by rewrite andb_orb_distrib_l. }
  destruct (normalize_ranges_ok pairs Hp) as [Hn Hni]. split; [done|]. by rewrite Hni.
Qed.

Lemma unite_ranges_ok a b : Forall (range_ok t) a -> Forall (range_ok t) b ->
  Forall (range_ok t) (unite_ranges a b) /\ inr (unite_ranges a b) = inr a || inr b.
Proof.
  intros Ha Hb. destruct (normalize_ranges_ok (a ++ b)) as [Hn Hni]; [by apply Forall_app|].
  split; [done|]. unfold unite_ranges. rewrite Hni. apply in_ranges_app.
Qed.
End exact.

(** ** Ranges of a condition on the key *)

Section condition.
Context (t : DataType) (v : Value) (lookup : Identifier -> option Value) (pk : Identifier).
Hypothesis (Hv : of_kind t v).
Hypothesis (Hpk : forall col, ident_eqb col pk = true -> lookup col = Some v).

Let ev := evaluate lookup.
Let inr := in_ranges v.

(** A leaf on the key, with a constant of its kind. *)
Definition key_leaves : Condition -> Prop := leaves (fun col => ident_eqb col pk = true) (fun _ => of_kind t).

Lemma value_ltb_asym a b : in_column t a -> in_column t b -> value_ltb a b = true -> value_ltb b a = false.
Proof.
  intros Ha Hb H. rewrite <- (key_order t) in * by done. by apply bytes_ltb_asym.
Qed.

Lemma of_kind_column x : of_kind t x -> in_column t x.
Proof. by intros []. Qed.

(** A comparison with a constant keeps the values its range holds. *)
Lemma compare_keeps op c : of_kind t c -> c <> VNull -> is_indexable op = true ->
  where_keeps (sql_compare_op op v c) =
  negb (is_null v) &&
  match op with
  | EQ => negb (value_ltb v c) && negb (value_ltb c v)
  | GT => value_ltb c v
  | GE => negb (value_ltb v c)
  | LT => value_ltb v c
  | LE => negb (value_ltb c v)
  | _ => false
  end.
Proof.
  intros Hc Hn Hop. destruct (is_null v) eqn:En.
  { apply is_null_inv in En. rewrite En. by destruct op. }
  assert (v <> VNull) as Hvn by (by intros ->).
  unfold sql_compare_op. rewrite (sql_order_column t v c Hv Hc Hvn Hn). unfold value_cmp.
  pose proof (value_ltb_asym v c (of_kind_column _ Hv) (of_kind_column _ Hc)) as Has.
  destruct op; try done; destruct (value_ltb v c), (value_ltb c v); try done; by specialize (Has eq_refl).
Qed.

Lemma kind_range_ok l h le hi (ty : DataType) : tag_of ty = tag_of t ->
  bound_ok t l -> bound_ok t h -> range_ok t (mkKeyRange ty l h le hi).
Proof. intros Ht Hl Hh. split; [done|]. split; [done|]. split; [by right|]. by left. Qed.

Lemma kind_tag c : of_kind t c -> c <> VNull -> tag_of (type_of c) = tag_of t.
Proof. by intros [[_ [|]] _] ?. Qed.

Lemma not_null_false c : c <> VNull -> is_null c = false.
Proof. by destruct c as [|[]| |[]]. Qed.

Lemma null_bound_ok : bound_ok t (Some VNull).
Proof. apply null_in_column. Qed.

(** The range of one comparison. *)
Lemma comparison_range op c rs : of_kind t c -> is_indexable op = true ->
  range_of_condition (CompareCondition pk op c) t = Some rs ->
  Forall (range_ok t) rs /\ inr rs = where_keeps (sql_compare_op op v c).
Proof.
  intros Hc Hop Hr. cbn [range_of_condition] in Hr. rewrite Hop in Hr. cbn [negb] in Hr.
  destruct (is_null c) eqn:En.
  - apply is_null_inv in En as ->.
    assert (rs = [kr_empty t]) as -> by (destruct op; simpl in *; congruence).
    split; [constructor; [|done]; apply kind_range_ok; try done; apply null_bound_ok|].
    unfold inr, in_ranges. simpl. rewrite (kr_empty_between v). unfold sql_compare_op, sql_order.
    rewrite orb_true_r. by destruct op.
  - assert (c <> VNull) as Hn by (by intros ->). rewrite compare_keeps by done.
    pose proof (kind_tag c Hc Hn) as Ht. destruct Hc as [Hcol _].
    destruct op; try done; injection Hr as <-; unfold inr, in_ranges; simpl;
      unfold kr_point, kr_closed, kr_gt, kr_ge, kr_lt, kr_le, kr_from; rewrite ?En; simpl; rewrite orb_false_r;
      (split; [constructor; [|done]; apply kind_range_ok; try done; apply null_bound_ok|]);
      unfold between, above, below, low_of, high_of; cbn [fst snd low_ high_ low_exclusive_ high_inclusive_];
      rewrite ?value_null_ltb; try (by rewrite andb_true_r);
      destruct (is_null v) eqn:Ev; try (by rewrite ?andb_true_r);
      apply is_null_inv in Ev; rewrite Ev; rewrite ?value_ltb_null, ?value_null_ltb, ?En; done.
Qed.

Lemma in_ranges_cons r rs : in_ranges v (r :: rs) = between r v || in_ranges v rs.
Proof. done. Qed.

Lemma in_points values : Forall (of_kind t) values ->
  let points := map kr_point (List.filter (fun c => negb (is_null c)) values) in
  Forall (range_ok t) points /\ inr points = where_keeps (in_truth v values).
Proof.
  induction 1 as [|c values Hc _ [IHf IHi]]; [done|]. simpl. rewrite in_truth_cons, keeps_or.
  destruct (is_null c) eqn:En; simpl.
  - apply is_null_inv in En as ->. split; [done|]. rewrite IHi. unfold sql_compare_op, sql_order.
    by rewrite orb_true_r.
  - destruct (comparison_range EQ c [kr_point c] Hc eq_refl) as [Hf Hi].
    { cbn [range_of_condition is_indexable negb]. by rewrite En. }
    apply Forall_cons in Hf as [Hf _]. split; [by constructor|]. rewrite <- Hi, <- IHi.
    unfold inr. rewrite !in_ranges_cons. simpl. by rewrite orb_false_r.
Qed.

(** The candidate ranges of a condition on the key hold exactly the keys on
    which the condition is TRUE. *)
Lemma range_of_condition_exact c rs : key_leaves c -> range_of_condition c t = Some rs ->
  Forall (range_ok t) rs /\ inr rs = where_keeps (ev c).
Proof.
  assert (Hcol : in_column t v) by (by apply of_kind_column).
  revert rs. induction c as [col op c|col b vs|l IHl r IHr|l IHl r IHr|n IH]; intros rs Hk Hr.
  - destruct Hk as [Hpc Hc]. unfold ev. simpl. rewrite (Hpk col Hpc).
    destruct (is_indexable op) eqn:Ei; [by apply comparison_range|].
    destruct op; try done; injection Hr as <-.
    + change (null_only t) with (mkKeyRange t None (Some VNull) false true). split; [constructor; [|done]; apply kind_range_ok; try done; apply null_bound_ok|].
      unfold inr, in_ranges. cbn [existsb]. rewrite orb_false_r.
      unfold non_null, between, above, below, low_of, high_of.
      cbn [fst snd low_ high_ low_exclusive_ high_inclusive_]. rewrite value_null_ltb.
      unfold sql_compare_op. by destruct (is_null v).
    + split; [constructor; [|done]; apply kind_range_ok; try done; apply null_bound_ok|].
      unfold inr, in_ranges. cbn [existsb]. rewrite orb_false_r.
      unfold non_null, between, above, below, low_of, high_of.
      cbn [fst snd low_ high_ low_exclusive_ high_inclusive_]. rewrite value_null_ltb.
      unfold sql_compare_op. by destruct (is_null v).
  - destruct Hk as [Hpc Hvs]. unfold ev. simpl. rewrite (Hpk col Hpc). simpl in Hr.
    destruct b; [done|]. destruct (in_points vs Hvs) as [Hf Hi].
    destruct (map kr_point _) as [|p ps] eqn:E; injection Hr as <-; [|done].
    split; [constructor; [|done]; apply kind_range_ok; try done; apply null_bound_ok|].
    unfold inr, in_ranges in *. simpl in *. rewrite <- Hi. by rewrite kr_empty_between.
  - destruct Hk as [Hl Hrr]. simpl in Hr. destruct (range_of_condition l t) as [a|]; [|done].
    destruct (range_of_condition r t) as [b|]; [|done]. injection Hr as <-.
    destruct (IHl a Hl eq_refl) as [Ha Hai], (IHr b Hrr eq_refl) as [Hb Hbi].
    unfold ev. rewrite evaluate_and, keeps_and. fold ev. rewrite <- Hai, <- Hbi. by apply intersect_ranges_ok.
  - destruct Hk as [Hl Hrr]. simpl in Hr. destruct (range_of_condition l t) as [a|]; [|done].
    destruct (range_of_condition r t) as [b|]; [|done]. injection Hr as <-.
    destruct (IHl a Hl eq_refl) as [Ha Hai], (IHr b Hrr eq_refl) as [Hb Hbi].
    unfold ev. rewrite evaluate_or, keeps_or. fold ev. rewrite <- Hai, <- Hbi. by apply unite_ranges_ok.
  - done.
Qed.
End condition.

(** ** Consecutive points *)

Section points.
Context (t : DataType) (v : Value).
Hypothesis (Hv : in_column t v).
Hypothesis (Ht : tag_of t = kTagInt64).

Local Open Scope Z_scope.

(** The values of a column of this family are NULL or numbers. *)
Lemma int_column x : in_column t x -> x = VNull \/ exists u z, x = VInt u z /\ i64 z.
Proof.
  intros [Hw [->|E]]; [by left|]. destruct x as [|u z|b|u s]; [by left|right; eauto|..].
  - rewrite Ht in E. done.
  - rewrite Ht in E. simpl in E. by rewrite tag_str in E.
Qed.

Definition is_num (x : Z) : bool := match v with VInt _ z => z =? x | _ => false end.
Definition num_between (a b : Z) : bool := match v with VInt _ z => (a <=? z) && (z <=? b) | _ => false end.

Lemma wrap64_one d : 0 < d < 18446744073709551616 -> (wrap64 d =? 1) = (d =? 1).
Proof.
  intros Hd. unfold wrap64. rewrite Z.mod_small by lia. unfold int64_max.
  destruct (_ <=? _) eqn:E; boolify; [done|]. destruct (d =? 1) eqn:E1; boolify; [lia|].
  apply Z.eqb_neq. lia.
Qed.

Lemma closed_between u1 x u2 y ty : between (mkKeyRange ty (Some (VInt u1 x)) (Some (VInt u2 y)) false true) v
  = num_between x y.
Proof.
  unfold between, above, below, low_of, high_of, num_between. cbn [fst snd low_ high_ low_exclusive_ high_inclusive_].
  destruct (int_column v Hv) as [->|(u & z & -> & _)]; [done|]. simpl.
  by rewrite !Z.leb_antisym.
Qed.


Lemma point_cases r : is_point r = true ->
  (exists l h, low_ r = Some l /\ high_ r = Some h /\ low_exclusive_ r = false /\
     high_inclusive_ r = true /\ value_eqb l h = true /\ point_value r = l) \/
  (exists u x w y, low_ r = Some (VInt u x) /\ high_ r = Some (VInt w y) /\ low_exclusive_ r = false /\
     high_inclusive_ r = false /\ wrap64 (y - x) = 1 /\ point_value r = VInt u x) \/
  point_value r = VNull.
Proof.
  intros Hp. unfold point_value. rewrite Hp. cbn [negb]. unfold is_point in Hp.
  destruct (kr_is_empty r); [done|]. destruct r as [ty lo hi le hin].
  cbn [low_ high_ low_exclusive_ high_inclusive_] in *.
  destruct lo as [l|], hi as [h|].
  - destruct le, hin; cbn [negb andb] in Hp; try (by destruct l, h).
    + left. exists l, h. by destruct l, h.
    + destruct l as [|u x|b|u s], h as [|w y|c|w z]; try done. right; left.
      destruct (is_int (VInt u x) && is_int (VInt w y)); [|done].
      exists u, x, w, y. by rewrite Z.eqb_eq in Hp.
  - by destruct l, le, hin.
  - right; right. rewrite andb_false_r in Hp. apply andb_prop in Hp as [Hn _]. by apply is_null_inv in Hn.
  - by rewrite andb_false_r in Hp.
Qed.

(** A point with a number holds that number. *)
Lemma point_between r u x : range_ok t r -> is_point r = true -> point_value r = VInt u x ->
  between r v = is_num x /\ in_column t (VInt u x).
Proof.
  intros Hr Hp Hpv. pose proof Hr as (Hl & Hh & _ & _).
  destruct (point_cases r Hp) as [(l & h & El & Eh & Ee & Ei & Heq & Epv)|[(w & y & w' & z & El & Eh & Ee & Ei & Hw & Epv)|Epv]];
    rewrite Hpv in Epv; [subst l|injection Epv as <- <-|done]; rewrite El in Hl; rewrite Eh in Hh;
    (split; [|done]); simpl in Hl, Hh.
  - destruct (int_column h Hh) as [->|(w & y & -> & _)]; [by destruct u|].
    destruct r. simpl in *. subst. rewrite closed_between. unfold num_between, is_num.
    assert (y = x) as -> by (destruct u, w; unfold value_eqb in Heq; simpl in Heq; try done; by apply Z.eqb_eq in Heq).
    destruct v as [|? k|?|?]; try done. destruct (k =? x) eqn:E; boolify; [subst; by rewrite Z.leb_refl|].
    destruct (x <=? k) eqn:E1, (k <=? x) eqn:E2; boolify; try done. lia.
  - assert (z = x + 1) as ->.
    { assert (kr_is_empty r = false) as Hne by (unfold is_point in Hp; by destruct (kr_is_empty r)).
      destruct (nonempty_typed t r Hr Hne) as (_ & _ & Hnb).
      assert (bytes_ltb (to_column_key (VInt u x) t) (to_column_key (VInt w' z) t) = true) as Hlt.
      { apply (nonempty_bounds r); [done|..]; unfold low_key, high_key; rewrite ?El, ?Eh, ?Ee, ?Ei;
          by rewrite (bound_key_column t). }
      rewrite key_order in Hlt by done. simpl in Hlt. apply Z.ltb_lt in Hlt.
      destruct Hl as [Hlx _], Hh as [Hhz _]. simpl in Hlx, Hhz. unfold i64, int64_min, int64_max in *.
      apply Z.eqb_eq in Hw. rewrite wrap64_one in Hw by lia. apply Z.eqb_eq in Hw. lia. }
    unfold between, above, below, low_of, high_of, is_num. rewrite El, Eh, Ee, Ei. cbn [fst snd].
    destruct (int_column v Hv) as [->|(k & m & -> & _)]; [done|]. simpl.
    destruct (m <? x) eqn:E1, (m <? x + 1) eqn:E2, (m =? x) eqn:E3; boolify; try done; lia.
Qed.

Lemma num_between_extend a b x : a <= b -> x = b + 1 -> num_between a x = num_between a b || is_num x.
Proof.
  intros Hab ->. unfold num_between, is_num. destruct v as [|? z|?|?]; try done.
  destruct (a <=? z) eqn:E1, (z <=? b + 1) eqn:E2, (z <=? b) eqn:E3, (z =? b + 1) eqn:E4; boolify; try done; lia.
Qed.

Lemma point_run_ok rs : Forall (range_ok t) rs -> forall start finish u moved,
  start <= finish -> in_column t (VInt u finish) ->
  let '(last, rest, moved') := point_run finish (VInt u finish) moved rs in
  exists w y, last = VInt w y /\ in_column t last /\ Forall (range_ok t) rest /\
    (length rest <= length rs)%nat /\ (moved' = false -> rest = rs /\ moved = false) /\
    num_between start y || in_ranges v rest = num_between start finish || in_ranges v rs.
Proof.
  induction 1 as [|r rs Hr Hrs IH]; intros start finish u moved Hle Hc; [simpl; by exists u, finish|].
  assert (Hstop : exists w y, VInt u finish = VInt w y /\ in_column t (VInt u finish) /\ Forall (range_ok t) (r :: rs) /\
    (length (r :: rs) <= length (r :: rs))%nat /\ (moved = false -> r :: rs = r :: rs /\ moved = false) /\
    num_between start y || in_ranges v (r :: rs) = num_between start finish || in_ranges v (r :: rs)).
  { exists u, finish. repeat split; try done; apply Hc || by constructor. }
  cbn [point_run]. destruct (is_point r) eqn:Hp; [|done].
  destruct (point_value r) as [|w x|b|w s] eqn:Epv; try done.
  destruct (negb (is_int (VInt w x)) || (finish =? int64_max) || negb (x =? finish + 1)) eqn:E; [done|].
  boolify. subst x. destruct (point_between r w (finish + 1) Hr Hp Epv) as [Hb Hcx].
  specialize (IH start (finish + 1) w true ltac:(lia) Hcx).
  destruct (point_run (finish + 1) (VInt w (finish + 1)) true rs) as [[last rest] moved'].
  destruct IH as (w' & y & -> & Hcl & Hfr & Hlen & Hmv & Hin). exists w', y.
  split; [done|]. split; [done|]. split; [done|]. split; [simpl; lia|]. split; [intros Hm; by destruct (Hmv Hm)|].
  rewrite Hin. rewrite (num_between_extend start finish (finish + 1)) by done.
  rewrite in_ranges_cons, Hb. by rewrite orb_assoc.
Qed.

Lemma coalesce_fuel_ok fuel rs : (length rs < fuel)%nat -> Forall (range_ok t) rs ->
  exists cs, coalesce_fuel fuel rs = Some cs /\ Forall (range_ok t) cs /\ in_ranges v cs = in_ranges v rs.
Proof.
  revert rs. induction fuel as [|fuel IH]; intros rs Hf Hrs; [lia|].
  destruct Hrs as [|r rs Hr Hrs]; [by exists []|]. simpl in Hf. cbn [coalesce_fuel].
  destruct (IH rs ltac:(lia) Hrs) as (cs & Ecs & Hcs & Hin).
  assert (Hkeep : exists ds, match coalesce_fuel fuel rs with Some l => Some (r :: l) | None => None end = Some ds /\
    Forall (range_ok t) ds /\ in_ranges v ds = in_ranges v (r :: rs)).
  { exists (r :: cs). rewrite Ecs. split; [done|]. split; [by constructor|]. by rewrite !in_ranges_cons, Hin. }
  destruct (is_point r) eqn:Hp; cbn [negb]; [|done].
  assert (Hcol : in_column t (point_value r)).
  { destruct Hr as (Hl & Hh & _ & _).
    destruct (point_cases r Hp) as [(l & h & El & _ & _ & _ & _ & ->)|[(u & x & w & y & El & _ & _ & _ & _ & ->)| ->]];
      [by rewrite El in Hl|by rewrite El in Hl|apply null_in_column]. }
  destruct (int_column _ Hcol) as [Epv|(u & x & Epv & Hx)]; rewrite Epv in *; [done|].
  destruct (point_between r u x Hr Hp Epv) as [Hb _].
  pose proof (point_run_ok rs Hrs x x u false ltac:(lia) Hcol) as Hrun.
  destruct (point_run x (VInt u x) false rs) as [[last rest] moved].
  destruct Hrun as (w & y & -> & Hcl & Hfr & Hlen & Hmv & Hin').
  destruct (IH rest ltac:(lia) Hfr) as (ds & -> & Hds & Hind). eexists. split; [done|].
  assert (num_between x x = is_num x) as Hxx.
  { unfold num_between, is_num. destruct v as [|? z|?|?]; try done.
    destruct (x <=? z) eqn:E1, (z <=? x) eqn:E2, (z =? x) eqn:E3; boolify; try done; lia. }
  destruct moved.
  - split.
    + constructor; [|done]. unfold kr_closed.
      assert (tag_of (of_int64_type u) = tag_of t) by (destruct Hcol as [_ [|E]]; [done|exact E]).
      destruct u, w; by apply kind_range_ok.
    + rewrite !in_ranges_cons, Hind, Hb, <- Hxx, <- Hin'. f_equal. rewrite <- (closed_between u x w y (of_int64_type u)).
      by destruct u, w.
  - destruct (Hmv eq_refl) as [-> _]. split; [by constructor|]. by rewrite !in_ranges_cons, Hind.
Qed.
End points.

Lemma coalesce_ok t v rs : in_column t v -> Forall (range_ok t) rs ->
  exists cs, coalesce_adjacent_points rs t = Some cs /\ Forall (range_ok t) cs /\
             in_ranges v cs = in_ranges v rs.
Proof.
  intros Hv Hrs. unfold coalesce_adjacent_points.
  destruct (negb (is_integer t) && negb (is_temporal t)) eqn:E; [by exists rs|].
  apply coalesce_fuel_ok; try done; [|lia]. unfold tag_of. by destruct (is_integer t), (is_temporal t).
Qed.

(** ** The plan keeps the rows of the condition *)

Definition keeps_opt (lookup : Identifier -> option Value) (c : option Condition) : bool :=
  match c with Some d => where_keeps (evaluate lookup d) | None => true end.

Section split.
Context (lookup : Identifier -> option Value) (pk : Identifier).
Let keeps := keeps_opt lookup.

Lemma keeps_join_and l r : keeps (join_and l r) = keeps l && keeps r.
Proof.
  unfold keeps. destruct l as [a|], r as [b|]; simpl; rewrite ?andb_true_r; try done.
  pose proof (evaluate_and lookup a b) as E. simpl in E. by rewrite E, keeps_and.
Qed.

Lemma keeps_make_or a b : keeps (Some (OrCondition a b)) = keeps (Some a) || keeps (Some b).
Proof.
  unfold keeps. pose proof (evaluate_or lookup a b) as E. simpl in *. by rewrite E, keeps_or.
Qed.

Lemma keeps_or_ptr x y : x <> None -> y <> None -> keeps (make_or_ptr x y) = keeps x || keeps y.
Proof. destruct x, y; try done. intros _ _. apply keeps_make_or. Qed.

Lemma split_some c : pk_cond (split_primary_key c pk) <> None \/ remaining (split_primary_key c pk) <> None.
Proof.
  induction c as [col op v|col b vs|l IHl r IHr|l IHl r IHr|n IH]; simpl.
  - destruct (_ && _); simpl; [by left|by right].
  - destruct (_ && _); simpl; [by left|by right].
  - destruct (pk_cond (split_primary_key l pk)), (pk_cond (split_primary_key r pk));
      simpl; try (by left). destruct IHl as [|IHl]; [done|]. right.
    destruct (remaining (split_primary_key l pk)), (remaining (split_primary_key r pk)); done.
  - destruct (split_primary_key l pk) as [[pl|] [rl|]], (split_primary_key r pk) as [[pr|] [rr|]];
      simpl in *; try tauto; try (by left); try (by right).
  - by right.
Qed.

(** Splitting a condition loses no row and adds none. *)
Lemma split_keeps c :
  keeps (pk_cond (split_primary_key c pk)) && keeps (remaining (split_primary_key c pk)) = keeps (Some c).
Proof.
  induction c as [col op v|col b vs|l IHl r IHr|l IHl r IHr|n IH]; cbn [split_primary_key].
  - destruct (ident_eqb col pk && _); cbn [pk_cond remaining]; unfold keeps; simpl; by rewrite ?andb_true_r.
  - destruct (ident_eqb col pk && _); cbn [pk_cond remaining]; unfold keeps; simpl; by rewrite ?andb_true_r.
  - cbn [pk_cond remaining]. rewrite !keeps_join_and. change (Some (AndCondition l r)) with (join_and (Some l) (Some r)).
    rewrite keeps_join_and, <- IHl, <- IHr.
    repeat match goal with |- context [keeps ?x] => destruct (keeps x) end; done.
  - rewrite keeps_make_or, <- IHl, <- IHr. pose proof (split_some l) as Hl. pose proof (split_some r) as Hr.
    destruct (split_primary_key l pk) as [pl rl], (split_primary_key r pk) as [pr rr].
    cbn [pk_cond remaining] in *.
    assert (keeps (make_or_ptr (rebuild_split pl rl) (rebuild_split pr rr)) =
            (keeps pl && keeps rl) || (keeps pr && keeps rr)) as Hor.
    { rewrite <- !keeps_join_and. apply keeps_or_ptr.
      - destruct pl, rl; try done; tauto.
      - destruct pr, rr; try done; tauto. }
    destruct rl as [rl|], rr as [rr|]; cbn [pk_cond remaining]; try (by rewrite <- Hor).
    rewrite <- Hor. destruct pl, pr; try tauto. unfold keeps. simpl. by rewrite andb_true_r.
  - simpl. done.
Qed.
End split.

Section plan.
Context (scan_is_cheaper : nat -> bool).
Context (pk : Identifier) (t : DataType) (lookup : Identifier -> option Value) (v : Value).

(** A row of the table: its key column holds [v]. *)
Hypothesis (Hv : of_kind t v).
Hypothesis (Hpk : forall col, ident_eqb col pk = true -> lookup col = Some v).

Let keeps := keeps_opt lookup.

(** Constants compared with the key are of the key's kind. *)
Definition key_const (col : Identifier) (c : Value) : Prop := ident_eqb col pk = true -> of_kind t c.
Definition well_typed : Condition -> Prop := leaves (fun _ => True) key_const.
Definition well_typed_opt : option Condition -> Prop := leaves_opt (fun _ => True) key_const.
Definition key_leaves_opt : option Condition -> Prop :=
  leaves_opt (fun col => ident_eqb col pk = true) (fun _ => of_kind t).

Lemma key_const_ident a b c : ident_eqb a b = true -> key_const a c -> key_const b c.
Proof.
  unfold key_const, ident_eqb. intros E%bytes_eqb_eq H Hb. apply H. by rewrite E.
Qed.

(** On this row the rewriter keeps what the tree keeps. *)
Definition faithful (c : option Condition) : Prop :=
  forall p, rewrite_condition_tree c = Ptr p -> keeps p = keeps c.

(** The trees the optimizer hands to the rewriter. *)
Definition rewrite_calls (where_ : option Condition) : list (option Condition) :=
  where_ :: match extract_primary_key_condition (Some pk) where_ with
            | Ok s => pk_cond s :: remaining s ::
                match rewrite_primary_key_condition s with
                | Ok s' => [rebuild_split (pk_cond s') (remaining s')]
                | Err _ => []
                end
            | Err _ => []
            end.

Lemma as_ptr_inv o p : as_ptr o = Ok p -> o = Ptr p.
Proof. destruct o; simpl; congruence. Qed.

Lemma split_leaves c : well_typed c ->
  key_leaves_opt (pk_cond (split_primary_key c pk)) /\ well_typed_opt (remaining (split_primary_key c pk)).
Proof.
  induction c as [col op x|col b vs|l IHl r IHr|l IHl r IHr|n IH]; intros H; cbn [split_primary_key].
  - destruct (ident_eqb col pk) eqn:E; simpl; [|done]. destruct (_ || _); simpl; [|done].
    destruct H as [_ H]. split; [split; [done|by apply H]|done].
  - destruct (ident_eqb col pk) eqn:E; simpl; [|done]. destruct b; simpl; [done|].
    destruct H as [_ H]. split; [|done]. split; [done|]. eapply Forall_impl; [exact H|]. intros x Hx. by apply Hx.
  - destruct H as [Hl Hr]. destruct (IHl Hl) as [Pl Rl], (IHr Hr) as [Pr Rr]. cbn [pk_cond remaining].
    destruct (split_primary_key l pk) as [[?|] [?|]], (split_primary_key r pk) as [[?|] [?|]]; simpl in *; auto.
  - destruct H as [Hl Hr]. destruct (IHl Hl) as [Pl Rl], (IHr Hr) as [Pr Rr].
    assert (forall x, leaves (fun col => ident_eqb col pk = true) (fun _ => of_kind t) x -> well_typed x) as Hw.
    { clear. intros x. induction x as [| | | |]; simpl; try tauto.
      - intros [_ H]. by split; [|intros _].
      - intros [_ H]. split; [done|]. eapply Forall_impl; [exact H|]. by intros y Hy _. }
    destruct (split_primary_key l pk) as [[?|] [?|]], (split_primary_key r pk) as [[?|] [?|]]; simpl in *;
      repeat split; auto; try (by apply Hw).
  - simpl. by split.
Qed.

Lemma keeps_plan candidates : Forall (range_ok t) candidates ->
  existsb (fun r => contains r v) candidates = in_ranges v candidates.
Proof. apply existsb_contains. by apply of_kind_column. Qed.

Lemma all_ok ty : (ty = UNKNOWN_TYPE \/ tag_of ty = tag_of t) -> range_ok t (kr_all ty).
Proof. intros H. split; [done|]. split; [done|]. split; [done|]. by intros []. Qed.

Lemma convert_keeps s plan :
  key_leaves_opt (pk_cond s) -> faithful (rebuild_split (pk_cond s) (remaining s)) ->
  convert_to_key_range scan_is_cheaper (Some pk) t s = Ok plan ->
  existsb (fun r => contains r v) (plan_ranges plan) && keeps (plan_filter plan) =
  keeps (pk_cond s) && keeps (remaining s).
Proof.
  intros Hk Hf Hc. unfold convert_to_key_range in Hc. destruct s as [[c|] rem]; cbn [pk_cond remaining] in *.
  2:{ injection Hc as <-. simpl plan_ranges. rewrite keeps_plan by (constructor; [by apply all_ok; right|done]). done. }
  assert (Hcol : in_column t v) by (by apply of_kind_column).
  assert (Hback : forall filter, rewrite_condition_tree (rebuild_split (Some c) rem) = Ptr filter ->
    existsb (fun r => contains r v) [kr_all t] && keeps filter = keeps (Some c) && keeps rem).
  { intros filter E. rewrite (Hf filter E). unfold rebuild_split, keeps. rewrite keeps_join_and.
    rewrite keeps_plan by (constructor; [by apply all_ok; right|done]). done. }
  destruct (range_of_condition c t) as [rs|] eqn:Er.
  - destruct (range_of_condition_exact t v lookup pk Hv Hpk c rs Hk Er) as [Hrs Hin].
    destruct (normalize_ranges_ok t v Hcol rs Hrs) as [Hn Hnin].
    destruct (coalesce_ok t v (normalize_ranges rs) Hcol Hn) as (cs & Ecs & Hcs & Hcin). rewrite Ecs in Hc.
    destruct (_ && is_sparse_point_set cs).
    + unfold result_bind in Hc. destruct (as_ptr _) as [filter|] eqn:E; [|done]. injection Hc as <-.
      apply as_ptr_inv in E. by apply Hback.
    + injection Hc as <-. cbn [plan_ranges plan_filter finish_plan].
      assert (in_ranges v (if bool_decide (length cs = 0%nat) then [kr_empty t] else cs) = keeps (Some c)) as Hi.
      { change (keeps (Some c)) with (where_keeps (evaluate lookup c)).
        rewrite <- (eq_trans Hcin (eq_trans Hnin Hin)). case_bool_decide as E; [|done].
        destruct cs; [|done]. unfold in_ranges. simpl. by rewrite kr_empty_between. }
      rewrite keeps_plan, Hi; [done|]. case_bool_decide; [|done]. constructor; [|done].
      apply kind_range_ok; try done; apply null_bound_ok.
  - unfold result_bind in Hc. destruct (as_ptr _) as [filter|] eqn:E; [|done]. injection Hc as <-.
    apply as_ptr_inv in E. by apply Hback.
Qed.

Lemma optimize_keeps where_ plan :
  well_typed_opt where_ -> Forall faithful (rewrite_calls where_) ->
  optimize_scan scan_is_cheaper (Some pk) t where_ = Ok plan ->
  existsb (fun r => contains r v) (plan_ranges plan) && keeps (plan_filter plan) = keeps where_.
Proof.
  intros Hw Hf Ho. unfold optimize_scan, result_bind in Ho. unfold rewrite_calls in Hf.
  apply Forall_cons in Hf as [Hf0 Hf].
  destruct (extract_primary_key_condition (Some pk) where_) as [s|] eqn:Ex; [|done].
  apply Forall_cons in Hf as [Hfp Hf]. apply Forall_cons in Hf as [Hfr Hf].
  destruct (rewrite_primary_key_condition s) as [s'|] eqn:Es; [|done].
  apply Forall_cons in Hf as [Hfm _].
  assert (key_leaves_opt (pk_cond s) /\ keeps (pk_cond s) && keeps (remaining s) = keeps where_) as [Hk Hks].
  { unfold extract_primary_key_condition, result_bind in Ex.
    destruct (as_ptr _) as [w|] eqn:Ew; [|done]. apply as_ptr_inv in Ew.
    pose proof (rewrite_leaves _ _ key_const_ident where_ w Hw Ew) as Hwl. rewrite <- (Hf0 w Ew).
    destruct w as [c|]; injection Ex as <-; [|done].
    split; [by apply split_leaves|]. by apply split_keeps. }
  unfold rewrite_primary_key_condition, result_bind in Es.
  destruct (as_ptr (rewrite_condition_tree (pk_cond s))) as [p|] eqn:Ep; [|done].
  destruct (as_ptr (rewrite_condition_tree (remaining s))) as [r|] eqn:Er; [|done].
  injection Es as <-. apply as_ptr_inv in Ep, Er. cbn [pk_cond remaining] in *.
  rewrite <- Hks, <- (Hfp p Ep), <- (Hfr r Er). apply (convert_keeps (mkSplit p r)); try done.
  refine (rewrite_leaves _ _ _ (pk_cond s) p Hk Ep). done.
Qed.
End plan.

(** ** The ranges are sorted and disjoint *)

Section order.
Context (t : DataType).

Definition canonical (r : KeyRange) : Prop := low_ r = Some VNull -> low_exclusive_ r = true.
Definition usable (r : KeyRange) : Prop := range_ok t r /\ canonical r /\ kr_is_empty r = false.

(** [a] ends strictly before [b] begins. *)
Definition separated (a b : KeyRange) : Prop :=
  exists hk lk, high_key a = Some hk /\ low_key b = Some lk /\ bytes_ltb hk lk = true.

Definition low_le (a b : KeyRange) : Prop :=
  match low_key a, low_key b with
  | None, _ => True
  | Some _, None => False
  | Some x, Some y => bytes_ltb y x = false
  end.

Lemma low_le_trans a b c : low_le a b -> low_le b c -> low_le a c.
Proof.
  unfold low_le. destruct (low_key a), (low_key b), (low_key c); try done.
  intros H1 H2. by eapply bytes_le_trans.
Qed.

Lemma range_less_low a b : if range_less a b then low_le a b else low_le b a.
Proof.
  unfold range_less, low_le. destruct (low_key a) as [x|], (low_key b) as [y|]; try done.
  - destruct (bytes_eqb x y) eqn:E; simpl.
    + apply bytes_eqb_eq in E as ->. destruct (match high_key a with Some _ => _ | None => _ end); apply bytes_ltb_irrefl.
    + destruct (bytes_ltb x y) eqn:E1; [by apply bytes_ltb_asym|done].
  - by destruct (match high_key a with Some _ => _ | None => _ end).
Qed.

Lemma insert_range_sorted r rs : StronglySorted low_le rs -> StronglySorted low_le (insert_range r rs).
Proof.
  induction 1 as [|s rs Hs IH Hall]; simpl; [repeat constructor|].
  pose proof (range_less_low r s) as Hrs. destruct (range_less r s).
  - constructor; [by constructor|]. constructor; [done|].
    eapply Forall_impl; [exact Hall|]. intros x Hx. by eapply low_le_trans.
  - constructor; [done|]. rewrite insert_range_perm. by constructor.
Qed.

Lemma sort_ranges_sorted rs : StronglySorted low_le (sort_ranges rs).
Proof. induction rs as [|r rs IH]; simpl; [constructor|by apply insert_range_sorted]. Qed.

(** The keys of a typed range are determined by its bounds. *)
Lemma typed_low_key r : typed t r -> low_key r =
  match low_ r with
  | Some b => Some (if low_exclusive_ r then to_column_key b t ++ [x00] else to_column_key b t)
  | None => None
  end.
Proof.
  intros (_ & _ & Hn). unfold low_key. destruct (low_ r) as [b|] eqn:E; [|done].
  apply bound_key_column. intros ->. apply Hn. by left.
Qed.
Lemma typed_high_key r : typed t r -> high_key r =
  match high_ r with
  | Some b => Some (if high_inclusive_ r then to_column_key b t ++ [x00] else to_column_key b t)
  | None => None
  end.
Proof.
  intros (_ & _ & Hn). unfold high_key. destruct (high_ r) as [b|] eqn:E; [|done].
  apply bound_key_column. intros ->. apply Hn. by right.
Qed.

Lemma canonical_normalize r : canonical r -> kr_normalize r = r.
Proof.
  unfold canonical, kr_normalize. intros H. destruct (low_ r) as [b|] eqn:E; [|done].
  destruct (is_null b && negb (low_exclusive_ r)) eqn:En; [|done]. boolify.
  apply is_null_inv in H0 as ->. specialize (H eq_refl). congruence.
Qed.

(** Uniting a range with a later one that touches it extends its end. *)
Lemma unite_extends a b : usable a -> usable b -> low_le a b -> overlaps a b || is_adjacent a b = true ->
  exists u, unite a b = [u] /\ usable u /\ low_key u = low_key a.
Proof.
  intros (Ha & Ca & Ea) (Hb & Cb & Eb) Hle Ht. unfold unite. rewrite Ea, Eb.
  replace (negb (overlaps a b) && negb (is_adjacent a b)) with false
    by (by destruct (overlaps a b), (is_adjacent a b)).
  set (low := match low_key a with None => _ | Some _ => _ end).
  set (high := match high_key a with None => _ | Some _ => _ end).
  assert (Hlow : low = low_of a \/ (low = low_of b /\ low_key a = low_key b)).
  { unfold low, low_le in *. destruct (low_key a) as [x|], (low_key b) as [y|]; try done; try (by left).
    destruct (bytes_ltb x y) eqn:E; [by left|right]. split; [done|]. f_equal. by apply bytes_ltb_antisym. }
  assert (Hhigh : high = high_of a \/ high = high_of b) by (unfold high; repeat case_match; auto).
  set (w := with_bounds (merge_type (type_ a) (type_ b)) low high).
  assert (Cw : canonical w).
  { unfold canonical, w. simpl. destruct Hlow as [->|[-> _]]; [exact Ca|exact Cb]. }
  assert (Hok : range_ok t (kr_normalize w)).
  { apply merge_ok; try done; unfold bound_of, low_of, high_of.
    - destruct Hlow as [->|[-> _]]; simpl; tauto.
    - destruct Hhigh as [-> | ->]; simpl; tauto. }
  exists (kr_normalize w). split; [done|]. rewrite canonical_normalize in * by done.
  pose proof (nonempty_typed t a Ha Ea) as Ta. pose proof (nonempty_typed t b Hb Eb) as Tb.
  assert (Tw : typed t w).
  { destruct (range_ok_cases t w Hok) as [|[E1 E2]]; [done|]. exfalso. unfold w in E1, E2. simpl in E1, E2.
    destruct Hhigh as [Eh|Eh]; rewrite Eh in E1, E2; [rewrite (empty_form_empty a) in Ea|rewrite (empty_form_empty b) in Eb];
      done. }
  assert (Hlk : low_key w = low_key a).
  { rewrite typed_low_key by done. unfold w. simpl.
    destruct Hlow as [->|[-> ->]]; simpl; by rewrite typed_low_key. }
  assert (Hhk : high_key w = if bool_decide (high = high_of a) then high_key a else high_key b).
  { rewrite typed_high_key by done. unfold w. simpl. case_bool_decide as E.
    - rewrite E. simpl. by rewrite typed_high_key.
    - destruct Hhigh as [->|Eh]; [done|]. rewrite Eh. simpl. by rewrite (typed_high_key b). }
  split; [|done]. split; [done|]. split; [done|].
  unfold kr_is_empty. rewrite Hlk, Hhk. clear Hlk Hhk.
  replace (match high_ w with Some v => is_null v && negb (high_inclusive_ w) | None => false end) with false.
  2:{ unfold w. simpl. unfold kr_is_empty in Ea, Eb.
      destruct Hhigh as [-> | ->]; simpl; [destruct (high_ a)|destruct (high_ b)]; try done;
        destruct (_ && _); done. }
  pose proof (nonempty_bounds a) as Na.
  unfold high. destruct (low_key a) as [x|] eqn:Ela; [|by repeat case_match].
  destruct (high_key a) as [h|] eqn:Eha.
  - specialize (Na x h Ea eq_refl eq_refl). destruct (high_key b) as [k|]; [|case_bool_decide; [by rewrite Na|done]].
    destruct (bytes_ltb h k) eqn:E; case_bool_decide as Ed; try done; try (by rewrite Na).
    rewrite (bytes_ltb_trans x h k) by done. done.
  - case_bool_decide; done.
Qed.

(** A later range that does not touch begins strictly after. *)
Lemma not_touching_separated a b : usable a -> usable b -> low_le a b ->
  overlaps a b || is_adjacent a b = false -> separated a b.
Proof.
  intros (_ & _ & Ea) (_ & _ & Eb) Hle Ht. apply orb_false_iff in Ht as [Ho Hj].
  pose proof (nonempty_bounds a) as Na. pose proof (nonempty_bounds b) as Nb.
  unfold overlaps, is_adjacent, low_le, separated in *. rewrite Ea, Eb in *. cbn [orb] in *.
  destruct (low_key a) as [x|], (low_key b) as [y|], (high_key a) as [h|], (high_key b) as [k|]; try done;
    try (specialize (Na _ _ eq_refl eq_refl eq_refl)); try (specialize (Nb _ _ eq_refl eq_refl eq_refl)).
  all: repeat (destruct (bytes_ltb _ _) eqn:? in Ho; cbn [negb] in Ho; try done); try (by bytes_order).
  all: exists h, y; split; [done|]; split; [done|].
  all: destruct (bytes_ltb_trichotomy h y) as [|[->|]]; [done|by rewrite bytes_eqb_refl in Hj|congruence].
Qed.

(** The loop's list, last element first: each element ends before the next. *)
Fixpoint descending (merged : list KeyRange) : Prop :=
  match merged with
  | a :: ((b :: _) as rest) => separated b a /\ descending rest
  | _ => True
  end.

Lemma separated_low a b c : low_key b = low_key c -> separated a b -> separated a c.
Proof. intros E (hk & lk & Hh & Hl & Hlt). exists hk, lk. by rewrite <- E. Qed.

Lemma merge_last_inv merged r :
  Forall usable merged -> descending merged -> usable r ->
  match merged with last :: _ => low_le last r | [] => True end ->
  Forall usable (merge_last merged r) /\ descending (merge_last merged r) /\
  exists last rest, merge_last merged r = last :: rest /\ low_le last r.
Proof.
  intros Hu Hd Hr Hle. assert (low_le r r) as Hrr.
  { unfold low_le. destruct (low_key r); [apply bytes_ltb_irrefl|done]. }
  destruct merged as [|last rest]; simpl.
  { split; [by constructor|]. split; [done|]. by exists r, []. }
  apply Forall_cons in Hu as [Hl Hu]. destruct (overlaps last r || is_adjacent last r) eqn:Et.
  - destruct (unite_extends last r Hl Hr Hle Et) as (u & -> & Huu & Elow).
    split; [by constructor|]. split.
    + destruct rest as [|b rest]; [done|]. destruct Hd as [Hs Hd]. split; [|done].
      by eapply separated_low.
    + exists u, rest. split; [done|]. unfold low_le in *. by rewrite Elow.
  - split; [constructor; [done|by constructor]|]. split.
    + split; [by apply not_touching_separated|done].
    + by exists r, (last :: rest).
Qed.

Lemma fold_merge_usable rs merged :
  StronglySorted low_le rs -> Forall usable rs -> Forall usable merged -> descending merged ->
  match merged with last :: _ => Forall (low_le last) rs | [] => True end ->
  Forall usable (fold_left merge_last rs merged) /\ descending (fold_left merge_last rs merged).
Proof.
  intros Hs Hr. revert merged. induction Hs as [|r rs Hs IH Hall]; intros merged Hu Hd Hle; simpl; [done|].
  apply Forall_cons in Hr as [Hr Hrs].
  destruct (merge_last_inv merged r Hu Hd Hr) as (Hu' & Hd' & last & rest & E & Hl).
  { destruct merged; [done|]. by apply Forall_cons in Hle as [? _]. }
  apply IH; try done. rewrite E. eapply Forall_impl; [exact Hall|]. intros x Hx. by eapply low_le_trans.
Qed.

Lemma descending_lookup merged i a b : descending merged ->
  merged !! i = Some a -> merged !! S i = Some b -> separated b a.
Proof.
  revert merged. induction i as [|i IH]; intros [|x [|y rest]] Hd Ha Hb; try done; simpl in *.
  - destruct Hd. by simplify_eq.
  - destruct Hd. by eapply (IH (y :: rest)).
Qed.

Lemma normalize_ranges_usable rs : Forall (range_ok t) rs -> Forall canonical rs ->
  Forall usable (normalize_ranges rs) /\
  forall i a b, normalize_ranges rs !! i = Some a -> normalize_ranges rs !! S i = Some b -> separated a b.
Proof.
  intros Hok Hcan. unfold normalize_ranges. set (kept := List.filter _ rs).
  assert (Hk : Forall usable kept).
  { apply Forall_forall. intros r Hin. apply list_elem_of_In, List.filter_In in Hin as [Hin He].
    apply list_elem_of_In in Hin. rewrite Forall_forall in Hok, Hcan. apply negb_true_iff in He.
    by split; [apply Hok|split; [apply Hcan|]]. }
  destruct (fold_merge_usable (sort_ranges kept) []) as [Hu Hd]; try done;
    [apply sort_ranges_sorted|by rewrite sort_ranges_perm|].
  set (merged := fold_left _ _ _) in *. split; [by rewrite reverse_Permutation|].
  intros i a b Ha Hb. pose proof (lookup_lt_Some _ _ _ Hb) as Hlt. rewrite length_reverse in Hlt.
  rewrite reverse_lookup in Ha, Hb by lia.
  apply (descending_lookup merged (length merged - S (S i))); try done.
  by replace (S (length merged - S (S i))) with (length merged - S i)%nat by lia.
Qed.
End order.

(** *** Merging points keeps the order *)

Section coalesce_order.
Context (t : DataType).
Hypothesis (Ht : tag_of t = kTagInt64).

Fixpoint ascending (rs : list KeyRange) : Prop :=
  match rs with
  | a :: ((b :: _) as rest) => separated a b /\ ascending rest
  | _ => True
  end.

Lemma ascending_lookup rs :
  (forall i a b, rs !! i = Some a -> rs !! S i = Some b -> separated a b) <-> ascending rs.
Proof.
  induction rs as [|a [|b rest] IH]; simpl.
  - split; [done|]. by intros _ [].
  - split; [done|]. by intros _ [].
  - rewrite <- IH. split.
    + intros H. split; [by apply (H 0%nat)|]. intros i x y Hx Hy. by apply (H (S i)).
    + intros [Hs Hr] [|i] x y Hx Hy; simpl in *; [by simplify_eq|by apply (Hr i)].
Qed.

(** The keys of a point with a number. *)
Lemma point_keys p u x : usable t p -> is_point p = true -> point_value p = VInt u x ->
  low_key p = Some (to_column_key (VInt u x) t) /\
  exists hk, high_key p = Some hk /\ bytes_ltb hk (to_column_key (VInt u x) t ++ [x00]) = false.
Proof.
  intros (Hp & _ & He) Hpt Hpv. pose proof (nonempty_typed t p Hp He) as Ty. pose proof Hp as (Hl & Hh & _ & _).
  destruct (point_cases p Hpt) as [(l & h & El & Eh & Ee & Ei & Heq & Epv)|[(w & y & w' & z & El & Eh & Ee & Ei & Hw & Epv)|Epv]];
    rewrite Hpv in Epv; [subst l|injection Epv as <- <-|done]; rewrite El in Hl; rewrite Eh in Hh;
    rewrite (typed_low_key t), (typed_high_key t), El, Eh, Ee, Ei by done; (split; [done|]); eexists; (split; [done|]).
  - destruct (int_column t Ht h Hh) as [->|(w & y & -> & _)]; [by destruct u|].
    assert (y = x) as -> by (destruct u, w; unfold value_eqb in Heq; simpl in Heq; try done; by apply Z.eqb_eq in Heq).
    rewrite !to_column_key_int. apply bytes_ltb_irrefl.
  - rewrite bytes_ltb_succ. apply negb_false_iff, (nonempty_bounds p); [done|..].
    + rewrite (typed_low_key t) by done. by rewrite El, Ee.
    + rewrite (typed_high_key t) by done. by rewrite Eh, Ei.
Qed.

Lemma point_run_last rs p u finish moved : Forall (usable t) (p :: rs) -> ascending (p :: rs) ->
  is_point p = true -> point_value p = VInt u finish ->
  let '(last, rest, _) := point_run finish (VInt u finish) moved rs in
  exists q, usable t q /\ is_point q = true /\ point_value q = last /\ ascending (q :: rest) /\
    Forall (usable t) rest /\ (length rest <= length rs)%nat /\ exists w y, last = VInt w y.
Proof.
  revert p u finish moved. induction rs as [|r rs IH]; intros p u finish moved Hu Ha Hp Hpv.
  { simpl. exists p. apply Forall_cons in Hu as [Hu _]. repeat (split; [done|]). eauto. }
  apply Forall_cons in Hu as [Hup Hu].
  assert (Hstop : exists q, usable t q /\ is_point q = true /\ point_value q = VInt u finish /\
    ascending (q :: r :: rs) /\ Forall (usable t) (r :: rs) /\ (length (r :: rs) <= length (r :: rs))%nat /\
    exists w y, VInt u finish = VInt w y).
  { exists p. repeat (split; [done|]). eauto. }
  cbn [point_run]. destruct (is_point r) eqn:Hpr; [|done].
  destruct (point_value r) as [|w x|b|w s] eqn:Epv; try done.
  destruct (_ || _); [done|]. destruct Ha as [_ Ha].
  specialize (IH r w x true Hu Ha Hpr Epv). destruct (point_run x (VInt w x) true rs) as [[last rest] m].
  destruct IH as (q & ? & ? & ? & ? & ? & Hlen & ?). exists q. repeat (split; [done|]).
  split; [simpl; lia|done].
Qed.

(** A closed range from a point to a later one ends where the later one does. *)
Lemma closed_keys u x w y ty : tag_of ty = tag_of t -> in_column t (VInt u x) -> in_column t (VInt w y) ->
  low_key (mkKeyRange ty (Some (VInt u x)) (Some (VInt w y)) false true) = Some (to_column_key (VInt u x) t) /\
  high_key (mkKeyRange ty (Some (VInt u x)) (Some (VInt w y)) false true) = Some (to_column_key (VInt w y) t ++ [x00]).
Proof. intros Hty Hx Hy. unfold low_key, high_key. simpl. by rewrite !(bound_key_column t). Qed.

Definition head_low (rs : list KeyRange) : option (option bytes) :=
  match rs with r :: _ => Some (low_key r) | [] => None end.

Lemma ascending_cons r rs cs : ascending (r :: rs) -> head_low cs = head_low rs -> ascending cs -> ascending (r :: cs).
Proof.
  destruct rs as [|s rs], cs as [|c cs]; try done. simpl. intros [Hs _] [= E] Hc. split; [|done].
  by eapply separated_low.
Qed.

Lemma coalesce_fuel_ascending fuel rs cs : (length rs < fuel)%nat ->
  Forall (usable t) rs -> ascending rs -> coalesce_fuel fuel rs = Some cs ->
  ascending cs /\ head_low cs = head_low rs.
Proof.
  revert rs cs. induction fuel as [|fuel IH]; intros rs cs Hf Hu Ha Hc; [lia|].
  destruct rs as [|r rs]; [by injection Hc as <-|]. cbn [coalesce_fuel] in Hc. simpl in Hf.
  assert (ascending rs) as Hars by (destruct rs; [done|apply Ha]).
  pose proof Hu as Hu'. apply Forall_cons in Hu' as [Hur Hurs].
  assert (Hkeep : match coalesce_fuel fuel rs with Some l => Some (r :: l) | None => None end = Some cs ->
    ascending cs /\ head_low cs = head_low (r :: rs)).
  { destruct (coalesce_fuel fuel rs) as [l|] eqn:El; [|done]. intros [= <-].
    destruct (IH rs l ltac:(lia) Hurs Hars El) as [Hal Hh]. split; [by eapply ascending_cons|done]. }
  destruct (is_point r) eqn:Hp; cbn [negb] in Hc; [|by apply Hkeep].
  destruct (point_value r) as [|u x|b|u s] eqn:Epv; try (by apply Hkeep);
    try (destruct (next_is_int_point rs); [done|by apply Hkeep]).
  pose proof (point_run_last rs r u x false Hu Ha Hp Epv) as Hrun.
  destruct (point_run x (VInt u x) false rs) as [[last rest] moved] eqn:Erun.
  destruct Hrun as (q & Huq & Hq & Hqv & Haq & Hurest & Hlen & w & y & ->).
  destruct (coalesce_fuel fuel rest) as [l|] eqn:El; [|done]. injection Hc as <-.
  assert (ascending rest) as Harest by (destruct rest; [done|apply Haq]).
  destruct (IH rest l ltac:(lia) Hurest Harest El) as [Hal Hh].
  destruct (point_keys r u x Hur Hp Epv) as [Hlow _].
  destruct (point_keys q w y Huq Hq Hqv) as [_ (hk & Hhk & Hle)].
  destruct moved.
  - assert (Hcx : in_column t (VInt u x)).
    { destruct Hur as (Hr & _ & _). by apply (point_between t VNull (null_in_column t) Ht r u x). }
    assert (Hcy : in_column t (VInt w y)).
    { destruct Huq as (Hr & _ & _). by apply (point_between t VNull (null_in_column t) Ht q w y). }
    assert (tag_of (of_int64_type u) = tag_of t) as Htag by (destruct Hcx as [_ [|E]]; [done|exact E]).
    destruct (closed_keys u x w y (of_int64_type u) Htag Hcx Hcy) as [Kl Kh].
    assert (kr_closed (VInt u x) (VInt w y) = mkKeyRange (of_int64_type u) (Some (VInt u x)) (Some (VInt w y)) false true)
      as -> by (by destruct u, w).
    split; [|simpl; by rewrite Kl, Hlow].
    apply (ascending_cons _ rest); [|done|done]. destruct rest as [|b rest]; [done|].
    destruct Haq as [(h' & lk & Eh' & Elk & Hlt) Haq]. split; [|done].
    exists (to_column_key (VInt w y) t ++ [x00]), lk. split; [done|]. split; [done|].
    rewrite Hhk in Eh'. injection Eh' as <-. by eapply bytes_le_ltb_trans.
  - assert (rest = rs) as ->.
    { pose proof (point_run_ok t VNull (null_in_column t) Ht rs) as Hrun2.
      specialize (Hrun2 ltac:(eapply Forall_impl; [exact Hurs|]; by intros ? [? _]) x x u false ltac:(lia)).
      rewrite Erun in Hrun2. destruct Hrun2 as (? & ? & _ & _ & _ & _ & Hm & _); [|by apply Hm].
      destruct Hur as (Hr & _ & _). by apply (point_between t VNull (null_in_column t) Ht r u x). }
    split; [|done]. by eapply ascending_cons.
Qed.
End coalesce_order.

Lemma normalize_canonical r : canonical (kr_normalize r).
Proof.
  unfold canonical, kr_normalize. destruct (low_ r) as [b|] eqn:E; [|rewrite E; done].
  destruct (is_null b && negb (low_exclusive_ r)) eqn:En; simpl; [done|]. rewrite E. intros [= ->].
  by destruct (low_exclusive_ r).
Qed.

Lemma intersect_canonical a b : canonical (intersect a b).
Proof. unfold intersect. destruct (_ || _); [done|apply normalize_canonical]. Qed.

Lemma point_canonical c : canonical (kr_point c).
Proof.
  unfold kr_point, kr_closed, canonical. destruct (is_null c) eqn:E; [done|]. simpl.
  by intros [= ->].
Qed.

Lemma normalize_all_canonical t rs : Forall (range_ok t) rs -> Forall canonical rs ->
  Forall canonical (normalize_ranges rs).
Proof.
  intros Hok Hcan. destruct (normalize_ranges_usable t rs Hok Hcan) as [Hu _].
  eapply Forall_impl; [exact Hu|]. by intros ? (_ & ? & _).
Qed.

Lemma range_of_condition_canonical t pk c rs : key_leaves t pk c -> range_of_condition c t = Some rs ->
  Forall (range_ok t) rs /\ Forall canonical rs.
Proof.
  intros Hk Hr. assert (Hnull : of_kind t VNull) by (split; [apply null_in_column|done]).
  assert (Hok : forall c rs, key_leaves t pk c -> range_of_condition c t = Some rs -> Forall (range_ok t) rs).
  { intros d ds Hd Hds.
    by apply (range_of_condition_exact t VNull (fun _ => Some VNull) pk Hnull (fun _ _ => eq_refl) d ds). }
  split; [by eapply Hok|]. revert rs Hr.
  induction c as [col op c|col b vs|l IHl r IHr|l IHl r IHr|n IH]; intros rs Hr; cbn [range_of_condition] in Hr.
  - destruct op; simpl in Hr; try (destruct (is_null c) eqn:E); try done; injection Hr as <-; constructor; try done.
    + apply point_canonical.
    + unfold kr_gt, canonical. rewrite E. done.
    + unfold kr_ge, kr_from, canonical. rewrite E. simpl. by intros [= ->].
    + unfold kr_lt, canonical. by rewrite E.
    + unfold kr_le, canonical. by rewrite E.
  - destruct b; [done|]. destruct (map kr_point _) as [|p ps] eqn:E; injection Hr as <-; [by constructor|].
    rewrite <- E. apply Forall_fmap, Forall_forall. intros x _. apply point_canonical.
  - destruct Hk as [Hl Hrr]. destruct (range_of_condition l t) as [a|] eqn:Ea; [|done].
    destruct (range_of_condition r t) as [b|] eqn:Eb; [|done]. injection Hr as <-.
    apply (normalize_all_canonical t).
    + apply Forall_forall. intros x Hx. apply list_elem_of_In, in_flat_map in Hx as (y & Hy & Hx).
      apply List.filter_In in Hx as [Hx _]. apply in_map_iff in Hx as (z & <- & Hz).
      pose proof (Hok l a Hl Ea) as Hoa. pose proof (Hok r b Hrr Eb) as Hob. rewrite Forall_forall in Hoa, Hob.
      apply intersect_ok; [apply Hoa|apply Hob]; by apply list_elem_of_In.
    + apply Forall_forall. intros x Hx. apply list_elem_of_In, in_flat_map in Hx as (y & Hy & Hx).
      apply List.filter_In in Hx as [Hx _]. apply in_map_iff in Hx as (z & <- & Hz). apply intersect_canonical.
  - destruct Hk as [Hl Hrr]. destruct (range_of_condition l t) as [a|] eqn:Ea; [|done].
    destruct (range_of_condition r t) as [b|] eqn:Eb; [|done]. injection Hr as <-.
    apply (normalize_all_canonical t); apply Forall_app; eauto.
  - done.
Qed.

Lemma convert_ascending scan_is_cheaper pk t s plan :
  key_leaves_opt pk t (pk_cond s) -> convert_to_key_range scan_is_cheaper (Some pk) t s = Ok plan ->
  ascending (plan_ranges plan).
Proof.
  intros Hk Hc. unfold convert_to_key_range in Hc. destruct s as [[c|] rem]; cbn [pk_cond remaining] in *;
    [|by injection Hc as <-].
  destruct (range_of_condition c t) as [rs|] eqn:Er.
  - destruct (range_of_condition_canonical t pk c rs Hk Er) as [Hok Hcan].
    destruct (normalize_ranges_usable t rs Hok Hcan) as [Hu Hs].
    destruct (coalesce_adjacent_points _ t) as [cs|] eqn:Ecs; [|done].
    assert (ascending cs) as Ha.
    { unfold coalesce_adjacent_points in Ecs. apply ascending_lookup in Hs.
      destruct (negb (is_integer t) && negb (is_temporal t)) eqn:Et; [by injection Ecs as <-|].
      apply (coalesce_fuel_ascending t) in Ecs as [Ha _]; try done; [|lia].
      unfold tag_of. by destruct (is_integer t), (is_temporal t). }
    destruct (_ && is_sparse_point_set cs).
    + unfold result_bind in Hc. destruct (as_ptr _); [|done]. by injection Hc as <-.
    + injection Hc as <-. simpl. by case_bool_decide.
  - unfold result_bind in Hc. destruct (as_ptr _); [|done]. by injection Hc as <-.
Qed.

(** *** Excluded points *)

Lemma key_set_add_elem points x y : y ∈ key_set_add points x -> y ∈ points \/ y = x.
Proof.
  unfold key_set_add. destruct (existsb _ points); [by left|]. rewrite elem_of_app, list_elem_of_singleton. done.
Qed.

Section exclusions.
Context (pk : Identifier) (t : DataType) (lookup : Identifier -> option Value) (v : Value).
Hypothesis (Hv : of_kind t v).
Hypothesis (Hpk : forall col, ident_eqb col pk = true -> lookup col = Some v).

(** A value with the key of the row's. *)
Lemma same_key_equal x : of_kind t x -> x <> VNull -> to_key x = to_key v -> sql_compare_op EQ v x = T_TRUE.
Proof.
  intros Hx Hn E. assert (v <> VNull) as Hvn.
  { intros ->. destruct x as [|[]| |[]]; done. }
  unfold sql_compare_op. rewrite (sql_order_column t v x Hv Hx Hvn Hn). unfold value_cmp.
  rewrite !(to_key_non_null _ t) in E by done.
  rewrite <- !(key_order t) by (by apply of_kind_column). by rewrite E, bytes_ltb_irrefl.
Qed.

Lemma in_truth_elem x values : x ∈ values -> sql_compare_op EQ v x = T_TRUE -> in_truth v values = T_TRUE.
Proof.
  induction 1 as [x values|x y values _ IH]; intros E; rewrite in_truth_cons.
  - by rewrite E.
  - rewrite IH by done. by destruct (sql_compare_op EQ v y).
Qed.

(** The keys a scan may skip are keys of rows the filter rejects. *)
Lemma exclusions_rejected c out x : well_typed pk t c -> x ∈ collect_exclusions c pk out ->
  x ∈ out \/ (to_key x = to_key v -> where_keeps (evaluate lookup c) = false).
Proof.
  revert out. induction c as [col op c|col b vs|l IHl r IHr|l IHl r IHr|n IH]; intros out Hw Hx;
    cbn [collect_exclusions] in Hx; try (by left).
  - destruct (ident_eqb col pk && bool_decide (op = NE) && negb (is_null c)) eqn:E; [|by left].
    boolify. apply key_set_add_elem in Hx as [Hx| ->]; [by left|right]. intros Ek.
    apply bool_decide_eq_true_1 in H1 as ->. simpl. rewrite (Hpk col) by done.
    rewrite (flip_compare_op_not EQ v c : sql_compare_op NE v c = _).
    rewrite same_key_equal; [done|by apply Hw|by intros ->|done].
  - destruct (ident_eqb col pk && b) eqn:E; [|by left]. boolify. subst b.
    assert (x ∈ out \/ (x ∈ vs /\ is_null x = false)) as [|[Hxv Hxn]]; [|by left|right].
    { clear Hw. revert out Hx. induction vs as [|w vs IH]; intros out Hx; simpl in Hx; [by left|].
      apply IH in Hx as [Hx|[Hx Hn]]; [|right; split; [by right|done]].
      destruct (is_null w) eqn:En; simpl in Hx; [by left|].
      apply key_set_add_elem in Hx as [Hx| ->]; [by left|right]. split; [by left|done]. }
    intros Ek. simpl. rewrite (Hpk col) by done.
    destruct Hw as [_ Hvs]. rewrite Forall_forall in Hvs.
    rewrite (in_truth_elem x); [done|done|]. apply same_key_equal; [by apply Hvs|by intros ->|done].
  - destruct Hw as [Hl Hr]. pose proof (evaluate_and lookup l r) as Ea. simpl in Ea |- *. rewrite Ea, keeps_and.
    destruct (IHr _ Hr Hx) as [Hx'|Hx']; [|right; intros Ek; by rewrite Hx', andb_false_r].
    destruct (IHl _ Hl Hx') as [|Hx'']; [by left|right; intros Ek; by rewrite Hx''].
Qed.
End exclusions.

Lemma plan_exclude_spec scan_is_cheaper pk t s plan :
  convert_to_key_range scan_is_cheaper (Some pk) t s = Ok plan ->
  plan_exclude plan = exclusions (plan_filter plan) (Some pk).
Proof.
  intros Hc. unfold convert_to_key_range, result_bind in Hc. destruct (pk_cond s) as [c|]; [|by injection Hc as <-].
  destruct (range_of_condition c t).
  - destruct (coalesce_adjacent_points _ t); [|done]. destruct (_ && _ && _).
    + destruct (as_ptr _); [|done]. by injection Hc as <-.
    + by injection Hc as <-.
  - destruct (as_ptr _); [|done]. by injection Hc as <-.
Qed.

Lemma key_leaves_well_typed pk t c : key_leaves_opt pk t c -> well_typed_opt pk t c.
Proof.
  destruct c as [c|]; [|done]. simpl. induction c; simpl; try tauto.
  - intros [_ H]. by split; [|intros _].
  - intros [_ H]. split; [done|]. eapply Forall_impl; [exact H|]. by intros y Hy _.
Qed.

Lemma plan_filter_typed scan_is_cheaper pk t s plan :
  key_leaves_opt pk t (pk_cond s) -> well_typed_opt pk t (remaining s) ->
  convert_to_key_range scan_is_cheaper (Some pk) t s = Ok plan -> well_typed_opt pk t (plan_filter plan).
Proof.
  intros Hk Hr Hc. apply key_leaves_well_typed in Hk.
  assert (forall c filter, pk_cond s = Some c ->
    rewrite_condition_tree (rebuild_split (Some c) (remaining s)) = Ptr filter -> well_typed_opt pk t filter) as Hback.
  { intros c filter Ec E. eapply (rewrite_leaves _ _ (key_const_ident pk t)); [|exact E].
    rewrite Ec in Hk. destruct (remaining s); simpl in *; [by split|done]. }
  unfold convert_to_key_range, result_bind in Hc. destruct (pk_cond s) as [c|]; [|by injection Hc as <-].
  destruct (range_of_condition c t).
  - destruct (coalesce_adjacent_points _ t); [|done]. destruct (_ && _ && _).
    + destruct (as_ptr _) as [filter|] eqn:E; [|done]. injection Hc as <-. apply as_ptr_inv in E. by apply (Hback c).
    + by injection Hc as <-.
  - destruct (as_ptr _) as [filter|] eqn:E; [|done]. injection Hc as <-. apply as_ptr_inv in E. by apply (Hback c).
Qed.

Lemma optimize_split scan_is_cheaper pk t where_ plan : well_typed_opt pk t where_ ->
  optimize_scan scan_is_cheaper (Some pk) t where_ = Ok plan ->
  exists s, key_leaves_opt pk t (pk_cond s) /\ well_typed_opt pk t (remaining s) /\
    convert_to_key_range scan_is_cheaper (Some pk) t s = Ok plan.
Proof.
  intros Hw Ho.
  unfold optimize_scan, extract_primary_key_condition, rewrite_primary_key_condition, result_bind in Ho.
  destruct (as_ptr (rewrite_condition_tree where_)) as [w|] eqn:Ew; [|done]. apply as_ptr_inv in Ew.
  pose proof (rewrite_leaves _ _ (key_const_ident pk t) where_ w Hw Ew) as Hwl.
  set (s := match w with Some c => split_primary_key c pk | None => mkSplit None None end).
  assert (key_leaves_opt pk t (pk_cond s) /\ well_typed_opt pk t (remaining s)) as [Hk Hr]
    by (destruct w; [by apply split_leaves|done]).
  assert (match w with Some c => Ok (split_primary_key c pk) | None => Ok (mkSplit None None) end =
          @Ok PlanFault _ s) as Es by (by destruct w).
  rewrite Es in Ho. destruct (as_ptr (rewrite_condition_tree (pk_cond s))) as [p|] eqn:Ep; [|done].
  destruct (as_ptr (rewrite_condition_tree (remaining s))) as [r|] eqn:Er; [|done].
  apply as_ptr_inv in Ep, Er. exists (mkSplit p r). split; [|split]; [..|done].
  - refine (rewrite_leaves _ _ _ (pk_cond s) p Hk Ep). done.
  - exact (rewrite_leaves _ _ (key_const_ident pk t) (remaining s) r Hr Er).
Qed.

(** C5: the plan returns the rows of the condition. Take a row whose key column
    holds [v], and a condition whose constants on the key are of the key's kind,
    and suppose the rewriter keeps the truth, on this row, of the trees it is
    handed. Whatever the cost model prefers, the row is visited by the ranges of
    the plan and passes its filter exactly when the original condition is TRUE on
    it; and the keys the scan may skip belong to rows the filter rejects. *)
Theorem plan_exact scan_is_cheaper pk t lookup v where_ plan :
  of_kind t v -> (forall col, ident_eqb col pk = true -> lookup col = Some v) ->
  well_typed_opt pk t where_ -> Forall (faithful lookup) (rewrite_calls pk where_) ->
  optimize_scan scan_is_cheaper (Some pk) t where_ = Ok plan ->
  existsb (fun r => contains r v) (plan_ranges plan) && keeps_opt lookup (plan_filter plan) =
    keeps_opt lookup where_ /\
  forall x, x ∈ plan_exclude plan -> to_key x = to_key v -> keeps_opt lookup (plan_filter plan) = false.
Proof.
  intros Hv Hpk Hw Hf Ho. split; [by eapply optimize_keeps|]. intros x Hx Ek.
  destruct (optimize_split _ _ _ _ _ Hw Ho) as (s & Hk & Hr & Hc).
  rewrite (plan_exclude_spec _ _ _ _ _ Hc) in Hx. pose proof (plan_filter_typed _ _ _ _ _ Hk Hr Hc) as Hwf.
  destruct (plan_filter plan) as [c|]; [|by apply elem_of_nil in Hx].
  destruct (exclusions_rejected pk t lookup v Hv Hpk c [] x Hwf Hx) as [Hn|Hn]; [by apply elem_of_nil in Hn|].
  by apply Hn.
Qed.

Definition row_with_id (n : Z) (i : Identifier) : option Value :=
  if ident_eqb i ID then Some (VInt I_INT n)
  else if ident_eqb i (identifier (str "a")) then Some (VInt I_INT 1) else None.

Lemma plan_exact_witness :
  exists plan, optimize_scan (fun _ => false) (Some ID) INT
    (Some (AndCondition (cmp_id GT 3) (eq_int "a" 1))) = Ok plan /\
  existsb (fun r => contains r (VInt I_INT 7)) (plan_ranges plan) &&
    keeps_opt (row_with_id 7) (plan_filter plan) = true.
Proof.
  eexists. split; [vm_compute; reflexivity|].
  edestruct (plan_exact (fun _ => false) ID INT (row_with_id 7) (VInt I_INT 7)
    (Some (AndCondition (cmp_id GT 3) (eq_int "a" 1)))) as [H _].
  - vm_compute. intuition discriminate.
  - intros col Hc. unfold row_with_id. rewrite Hc. reflexivity.
  - vm_compute. intuition discriminate.
  - repeat constructor; intros p Hp; vm_compute in Hp; injection Hp as <-; vm_compute; reflexivity.
  - vm_compute. reflexivity.
  - rewrite H. vm_compute. reflexivity.
Defined.

(** Constants of another type lose rows. The range of a comparison is built
    from the constant's own encoding, and the predicate leaves the filter, but
    SQL compares across types: [id = '5'] is TRUE on the row with [id = 5], and
    the plan scans the string ['5'] only. *)
Theorem mistyped_constant_loses_row :
  let cond := CompareCondition ID EQ (VStr S_VARCHAR (str "5")) in
  exists plan, optimize_scan (fun _ => false) (Some ID) INT (Some cond) = Ok plan /\
  evaluate (row_with_id 5) cond = T_TRUE /\
  existsb (fun r => contains r (VInt I_INT 5)) (plan_ranges plan) = false.
Proof. eexists. split; [vm_compute; reflexivity|]. vm_compute. auto. Qed.

(** A scan visits the key space in order and once. For a statement whose
    constants on the key are of the key's kind, each range of the plan ends
    strictly before the next begins, so the ranges are sorted and disjoint. *)
Theorem plan_ranges_sorted scan_is_cheaper pk t where_ plan :
  well_typed_opt pk t where_ -> optimize_scan scan_is_cheaper (Some pk) t where_ = Ok plan ->
  forall i a b, plan_ranges plan !! i = Some a -> plan_ranges plan !! S i = Some b ->
  exists hk lk, high_key a = Some hk /\ low_key b = Some lk /\ bytes_ltb hk lk = true.
Proof.
  intros Hw Ho. apply (proj2 (ascending_lookup (plan_ranges plan))).
  destruct (optimize_split _ _ _ _ _ Hw Ho) as (s & Hk & _ & Hc). by eapply convert_ascending.
Qed.

Lemma plan_ranges_sorted_witness :
  exists plan, optimize_scan (fun _ => false) (Some ID) INT (Some (OrCondition (cmp_id LT 2) (cmp_id GT 5))) = Ok plan /\
  exists a b, plan_ranges plan = [a; b] /\
  exists hk lk, high_key a = Some hk /\ low_key b = Some lk /\ bytes_ltb hk lk = true.
Proof.
  eexists. split; [vm_compute; reflexivity|]. eexists. eexists. split; [reflexivity|].
  eapply (plan_ranges_sorted (fun _ => false) ID INT (Some (OrCondition (cmp_id LT 2) (cmp_id GT 5)))) with (i := 0%nat).
  - vm_compute. intuition discriminate.
  - vm_compute. reflexivity.
  - reflexivity.
  - reflexivity.
Defined.
