(* ===== verification/Schema.v ===== *)
(** * Table schemas: [sql_types/schema.h], [sql_types/schema.cpp]

    Column definitions, the chained construction API with its recorded first
    error, validation of schemas, values and rows, and the binary format of a
    schema. *)

From S2P Require Import Prelude Bytes SqlTypes KeyCodec SqlTruth.
Local Open Scope Z_scope.

(** ** Columns *)

(** [c_type_accepts_length], [c_type_max_length] and [c_type_length_valid] of
    [common/c_types.h], on the image of [to_c]. *)
Definition c_type_accepts_length (t : DataType) : bool :=
  match t with CHAR | VARCHAR => true | _ => false end.
Definition c_type_max_length (t : DataType) : N :=
  match t with CHAR => kMaxCharLength | VARCHAR => kMaxVarcharLength | _ => 0%N end.
Definition c_type_length_valid (t : DataType) (len : N) : bool :=
  if (len =? 0)%N then false else c_type_accepts_length t && (len <=? c_type_max_length t)%N.

Definition valid_declared_length (t : DataType) (declared_length : N) : bool :=
  if (declared_length =? 0)%N then true else c_type_length_valid t declared_length.

Record ColumnDef := mkColumnDef {
  col_name : Identifier; col_type : DataType; col_length : N;
  col_nullable : bool; col_primary_key : bool }.

Definition column_eqb (a b : ColumnDef) : bool :=
  ident_eqb (col_name a) (col_name b) && bool_decide (col_type a = col_type b) &&
  (col_length a =? col_length b)%N && Bool.eqb (col_nullable a) (col_nullable b) &&
  Bool.eqb (col_primary_key a) (col_primary_key b).

Inductive SchemaError :=
| SE_OK | SE_DUPLICATE_PRIMARY_KEY | SE_NO_PRIMARY_KEY | SE_DUPLICATE_COLUMN_NAME
| SE_INVALID_ROW | SE_INVALID_FORMAT | SE_VALUE_OUT_OF_RANGE | SE_INVALID_COLUMN_DEF
| SE_COLUMN_NOT_FOUND | SE_COLUMN_ATTR_NULL_MISMATCH | SE_COLUMN_SIZE_MISMATCH
| SE_COLUMN_TYPE_MISMATCH.

#[export] Instance SchemaError_eq_dec : EqDecision SchemaError.
Proof. solve_decision. Defined.

(** ** [class TableSchema] *)

(** [primary_key_index_] is an [int], -1 when there is no primary key. *)
Record TableSchema := mkTableSchema {
  schema_name : Identifier; columns_ : list ColumnDef;
  primary_key_index_ : Z; error_ : SchemaError }.

Definition empty_identifier : Identifier := mkIdentifier [] [] false.
Definition table_schema (name : Identifier) : TableSchema := mkTableSchema name [] (-1) SE_OK.
Definition set_name (name : Identifier) (s : TableSchema) : TableSchema :=
  mkTableSchema name (columns_ s) (primary_key_index_ s) (error_ s).
Definition clear_error (s : TableSchema) : TableSchema :=
  mkTableSchema (schema_name s) (columns_ s) (primary_key_index_ s) SE_OK.
Definition has_error (s : TableSchema) : bool := negb (bool_decide (error_ s = SE_OK)).

(** Only the first error is recorded. *)
Definition set_error (err : SchemaError) (s : TableSchema) : TableSchema :=
  if bool_decide (error_ s = SE_OK)
  then mkTableSchema (schema_name s) (columns_ s) (primary_key_index_ s) err else s.

Definition has_primary_key (s : TableSchema) : bool :=
  (0 <=? primary_key_index_ s) && (primary_key_index_ s <? Z.of_nat (length (columns_ s))).

Definition check_duplicate_primary_key (col : ColumnDef) (s : TableSchema) : SchemaError :=
  if col_primary_key col && has_primary_key s then SE_DUPLICATE_PRIMARY_KEY else SE_OK.

(** The argument is a [std::string]: the name without its quotes. *)
Definition check_duplicate_column_name (name : bytes) (s : TableSchema) : SchemaError :=
  if existsb (fun existing => bytes_eqb (normalized_ (col_name existing)) (make_lower name)) (columns_ s)
  then SE_DUPLICATE_COLUMN_NAME else SE_OK.

(** [columns_.push_back(col)] and the index of a new primary key. *)
Definition push_column (col : ColumnDef) (s : TableSchema) : TableSchema :=
  mkTableSchema (schema_name s) (columns_ s ++ [col])
    (if col_primary_key col then Z.of_nat (length (columns_ s ++ [col])) - 1
     else primary_key_index_ s) (error_ s).

Definition add_column (col : ColumnDef) (s : TableSchema) : TableSchema :=
  if has_error s then s
  else if negb (valid_declared_length (col_type col) (col_length col)) then
    set_error SE_INVALID_COLUMN_DEF s
  else match check_duplicate_primary_key col s with
       | SE_OK =>
           match check_duplicate_column_name (name_ (col_name col)) s with
           | SE_OK => push_column col s
           | err => set_error err s
           end
       | err => set_error err s
       end.

Definition primary_key (name : Identifier) (t : DataType) (s : TableSchema) : TableSchema :=
  if has_error s then s
  else if has_primary_key s then set_error SE_DUPLICATE_PRIMARY_KEY s
  else push_column (mkColumnDef name t 0 false true) s.

Definition not_null (name : Identifier) (t : DataType) (s : TableSchema) : TableSchema :=
  add_column (mkColumnDef name t 0 false false) s.
Definition nullable (name : Identifier) (t : DataType) (s : TableSchema) : TableSchema :=
  add_column (mkColumnDef name t 0 true false) s.

(** ** Queries *)

Fixpoint index_from (i : Z) (name : Identifier) (cols : list ColumnDef) : Z :=
  match cols with
  | [] => -1
  | c :: rest => if ident_eqb (col_name c) name then i else index_from (i + 1) name rest
  end.
Definition column_index (name : Identifier) (s : TableSchema) : Z := index_from 0 name (columns_ s).

Definition column (name : Identifier) (s : TableSchema) : option ColumnDef :=
  let idx := column_index name s in
  if 0 <=? idx then columns_ s !! Z.to_nat idx else None.

(** [column_at] throws [std::out_of_range] outside the vector. *)
Definition column_at (idx : Z) (s : TableSchema) : option ColumnDef :=
  if (idx <? 0) || (Z.of_nat (length (columns_ s)) <=? idx) then None
  else columns_ s !! Z.to_nat idx.

Definition column_type (name : Identifier) (s : TableSchema) : DataType :=
  match column name s with Some c => col_type c | None => UNKNOWN_TYPE end.

Definition primary_key_column (s : TableSchema) : option ColumnDef :=
  if has_primary_key s then column_at (primary_key_index_ s) s else None.

Definition primary_key_name (s : TableSchema) : Identifier :=
  if has_primary_key s then
    match columns_ s !! Z.to_nat (primary_key_index_ s) with
    | Some c => col_name c | None => empty_identifier end
  else empty_identifier.

Fixpoint columns_eqb (xs ys : list ColumnDef) : bool :=
  match xs, ys with
  | [], [] => true
  | x :: xs, y :: ys => column_eqb x y && columns_eqb xs ys
  | _, _ => false
  end.

Definition schema_eqb (a b : TableSchema) : bool :=
  ident_eqb (schema_name a) (schema_name b) && columns_eqb (columns_ a) (columns_ b) &&
  (primary_key_index_ a =? primary_key_index_ b).

(** ** Validation *)

(** The nested loops of [validate]: some name occurs again further on. *)
Fixpoint has_duplicate_name (cols : list ColumnDef) : bool :=
  match cols with
  | [] => false
  | c :: rest => existsb (fun d => ident_eqb (col_name c) (col_name d)) rest || has_duplicate_name rest
  end.

Definition primary_keys (cols : list ColumnDef) : list Identifier :=
  map col_name (List.filter col_primary_key cols).

Definition validate (s : TableSchema) : SchemaError :=
  if has_error s then error_ s
  else if negb (has_primary_key s) then SE_NO_PRIMARY_KEY
  else if match columns_ s !! Z.to_nat (primary_key_index_ s) with
          | Some c => col_nullable c | None => false end then SE_INVALID_ROW
  else if has_duplicate_name (columns_ s) then SE_DUPLICATE_COLUMN_NAME
  else if (1 <? length (primary_keys (columns_ s)))%nat then SE_DUPLICATE_PRIMARY_KEY
  else SE_OK.

(** The integer a value of an integer, temporal or boolean type stands for. *)
Definition raw_int (v : Value) : option Z :=
  match v with VInt _ x => Some x | VBool b => Some (if b then 1 else 0) | _ => None end.

Definition validate_value (col : ColumnDef) (value : Value) : SchemaError :=
  if is_null value then
    if col_nullable col then SE_OK else SE_COLUMN_ATTR_NULL_MISMATCH
  else if negb (is_same_family (col_type col) (type_of value)) then SE_COLUMN_TYPE_MISMATCH
  else if is_temporal (col_type col) && is_temporal (type_of value) &&
          negb (bool_decide (col_type col = type_of value)) then SE_COLUMN_TYPE_MISMATCH
  else if match raw_int value with
          | Some raw => negb (can_represent (col_type col) raw) | None => false end
       then SE_VALUE_OUT_OF_RANGE
  else if match value with
          | VStr _ s => negb (can_represent_length (col_type col) (col_length col) (N.of_nat (length s)))
          | _ => false end
       then SE_VALUE_OUT_OF_RANGE
  else SE_OK.

Definition validate_named_value (name : Identifier) (value : Value) (s : TableSchema) : SchemaError :=
  match column name s with
  | None => SE_COLUMN_NOT_FOUND
  | Some col => validate_value col value
  end.

Abbreviation Row := (list Value).

(** The loop of [validate_row]; both lists have the length the caller checked. *)
Fixpoint validate_values (cols : list ColumnDef) (row : Row) : SchemaError :=
  match cols, row with
  | c :: cols', v :: row' =>
      match validate_value c v with SE_OK => validate_values cols' row' | err => err end
  | _, _ => SE_OK
  end.

Definition validate_row (s : TableSchema) (row : Row) : SchemaError :=
  if negb (length row =? length (columns_ s))%nat then SE_COLUMN_SIZE_MISMATCH
  else validate_values (columns_ s) row.

(** ** The stored format *)

Definition kSchemaFormatVersion : N := 2.

(** [static_cast<uint8_t>(DataType)] and back. *)
Definition type_code (t : DataType) : N :=
  match t with
  | TINYINT => 0 | SMALLINT => 1 | INT => 2 | BIGINT => 3 | CHAR => 4 | VARCHAR => 5 | TEXT => 6
  | BOOLEAN => 7 | DATE => 8 | TIME => 9 | DATETIME => 10 | NULL_TYPE => 11 | UNKNOWN_TYPE => 12
  end.
Definition all_types : list DataType :=
  [TINYINT; SMALLINT; INT; BIGINT; CHAR; VARCHAR; TEXT; BOOLEAN; DATE; TIME; DATETIME;
   NULL_TYPE; UNKNOWN_TYPE].
Definition type_of_code (n : N) : option DataType := all_types !! N.to_nat n.

Definition column_flags (c : ColumnDef) : N :=
  N.lor (if col_nullable c then 1 else 0) (if col_primary_key c then 2 else 0).

Definition put_column (w : bytes) (c : ColumnDef) : bytes :=
  let w := put_str w (name_ (col_name c)) in
  let w := put_u8 w (type_code (col_type c)) in
  let w := put_u32 w (col_length c) in
  put_u8 w (column_flags c).

Definition schema_serialize (s : TableSchema) : bytes :=
  let w := put_u8 [] kSchemaFormatVersion in
  let w := put_str w (name_ (schema_name s)) in
  let w := put_u32 w (if 0 <=? primary_key_index_ s
                      then ((Z.to_N (primary_key_index_ s) + 1) mod two32)%N else 0%N) in
  let w := put_u32 w (N.of_nat (length (columns_ s)) mod two32)%N in
  fold_left put_column (columns_ s) w.

(** One column of [deserialize]. *)
Definition get_column (r : ByteReader) : result SchemaError (ByteReader * ColumnDef) :=
  let '(r, name) := get_str r in
  let '(r, ty) := get_u8 r in
  let '(r, len) := get_u32 r in
  let '(r, flags) := get_u8 r in
  if negb (ok_ r) then Err SE_INVALID_FORMAT
  else match type_of_code ty with
       | None => Err SE_INVALID_FORMAT
       | Some t =>
           if negb (valid_declared_length t len) then Err SE_INVALID_FORMAT
           else Ok (r, mkColumnDef (identifier name) t len
                        (negb (N.land flags 1 =? 0)%N) (negb (N.land flags 2 =? 0)%N))
       end.

Fixpoint get_columns (n : nat) (r : ByteReader) (s : TableSchema)
    : result SchemaError (ByteReader * TableSchema) :=
  match n with
  | O => Ok (r, s)
  | S m => let* (r, col) := get_column r in get_columns m r (push_column col s)
  end.

Definition schema_deserialize (data : bytes) : result SchemaError TableSchema :=
  let '(r, version) := get_u8 (byte_reader data) in
  if negb (ok_ r) || negb (version =? kSchemaFormatVersion)%N then Err SE_INVALID_FORMAT
  else
    let '(r, name) := get_str r in
    let '(r, pk_slot) := get_u32 r in
    let '(r, column_count) := get_u32 r in
    if negb (ok_ r) || (65535 <? column_count)%N then Err SE_INVALID_FORMAT
    else
      let* (r, s) := get_columns (N.to_nat column_count) r (table_schema (identifier name)) in
      if negb (ok_ r) || negb (br_eof r) then Err SE_INVALID_FORMAT
      else if (0 <? pk_slot)%N && (pk_slot <=? column_count)%N
           then Ok (mkTableSchema (schema_name s) (columns_ s) (Z.of_N pk_slot - 1) (error_ s))
           else Ok s.

(** ** The construction API keeps schemas well formed *)

(** The index designates the one primary-key column, or is -1 when there is
    none. *)
Definition pk_indexed (cols : list ColumnDef) (idx : Z) : Prop :=
  -1 <= idx < Z.of_nat (length cols) /\
  forall i c, cols !! i = Some c -> (col_primary_key c = true <-> idx = Z.of_nat i).

(** The calls of the chained API. *)
Inductive builder_call :=
| AddColumn (col : ColumnDef)
| PrimaryKey (name : Identifier) (t : DataType)
| NotNull (name : Identifier) (t : DataType)
| Nullable (name : Identifier) (t : DataType)
| SetName (name : Identifier)
| ClearError.

Definition build_step (s : TableSchema) (c : builder_call) : TableSchema :=
  match c with
  | AddColumn col => add_column col s
  | PrimaryKey n t => primary_key n t s
  | NotNull n t => not_null n t s
  | Nullable n t => nullable n t s
  | SetName n => set_name n s
  | ClearError => clear_error s
  end.

Definition build_schema (name : Identifier) (calls : list builder_call) : TableSchema :=
  fold_left build_step calls (table_schema name).

Definition lengths_valid (s : TableSchema) : Prop :=
  Forall (fun c => valid_declared_length (col_type c) (col_length c) = true) (columns_ s).

Record schema_wf (s : TableSchema) : Prop := {
  wf_index : pk_indexed (columns_ s) (primary_key_index_ s);
  wf_lengths : lengths_valid s }.

Lemma pk_indexed_push cols idx c :
  pk_indexed cols idx -> (col_primary_key c = true -> idx = -1) ->
  pk_indexed (cols ++ [c]) (if col_primary_key c then Z.of_nat (length (cols ++ [c])) - 1 else idx).
Proof.
  intros [Hr Hi] Hc. rewrite length_app. cbn [length]. split; [rewrite length_app; simpl; destruct (col_primary_key c); lia|].
  intros i d Hd. apply lookup_app_Some in Hd as [Hd|[Hle Hd]].
  - pose proof (lookup_lt_Some _ _ _ Hd). specialize (Hi i d Hd).
    destruct (col_primary_key c); [|done]. rewrite Hi. rewrite (Hc eq_refl) in *. lia.
  - apply list_lookup_singleton_Some in Hd as [Hd <-]. destruct (col_primary_key c); split; intros; (done || lia).
Qed.

Lemma has_primary_key_index s : pk_indexed (columns_ s) (primary_key_index_ s) ->
  has_primary_key s = false -> primary_key_index_ s = -1.
Proof. intros [Hr _] H. unfold has_primary_key in H. apply andb_false_iff in H as [H|H]; boolify; lia. Qed.

Lemma wf_push c s : schema_wf s -> (col_primary_key c = true -> has_primary_key s = false) ->
  valid_declared_length (col_type c) (col_length c) = true -> schema_wf (push_column c s).
Proof.
  intros [Hi Hl] Hc Hv. split; simpl.
  - apply pk_indexed_push; [done|]. intros H. by apply has_primary_key_index, Hc.
  - apply Forall_app. by repeat constructor.
Qed.

Lemma wf_set_error e s : schema_wf s -> schema_wf (set_error e s).
Proof. intros [Hi Hl]. unfold set_error. by case_bool_decide. Qed.

Lemma wf_add_column c s : schema_wf s -> schema_wf (add_column c s).
Proof.
  intros Hs. unfold add_column. destruct (has_error s); [done|].
  destruct (valid_declared_length _ _) eqn:Ev; simpl; [|by apply wf_set_error].
  unfold check_duplicate_primary_key. destruct (col_primary_key c && has_primary_key s) eqn:Ep;
    [by apply wf_set_error|].
  destruct (check_duplicate_column_name _ s); try by apply wf_set_error.
  apply wf_push; [done| |done]. intros Hc. by rewrite Hc in Ep.
Qed.

Lemma wf_build_step c s : schema_wf s -> schema_wf (build_step s c).
Proof.
  intros Hs. destruct c; simpl; try by apply wf_add_column.
  - unfold primary_key. destruct (has_error s); [done|].
    destruct (has_primary_key s) eqn:Ep; [by apply wf_set_error|]. by apply wf_push.
  - by destruct Hs.
  - by destruct Hs.
Qed.

Lemma wf_empty name : schema_wf (table_schema name).
Proof. split; simpl; [split; [simpl; lia|done]|constructor]. Qed.

Lemma wf_build name calls : schema_wf (build_schema name calls).
Proof.
  unfold build_schema. generalize (wf_empty name). generalize (table_schema name).
  induction calls as [|c calls IH]; intros s Hs; simpl; [done|]. by apply IH, wf_build_step.
Qed.

(** Pairwise different names, compared without case. *)
Definition names_distinct (cols : list ColumnDef) : Prop :=
  NoDup (map (fun c => normalized_ (col_name c)) cols).

Lemma ident_eqb_eq a b : ident_eqb a b = true <-> normalized_ a = normalized_ b.
Proof. unfold ident_eqb. apply bytes_eqb_eq. Qed.

Lemma has_duplicate_name_spec cols : has_duplicate_name cols = false <-> names_distinct cols.
Proof.
  unfold names_distinct. induction cols as [|c cols IH]; simpl; [by split; [constructor|]|].
  rewrite orb_false_iff, IH, NoDup_cons. apply and_iff_compat_r.
  rewrite <- not_true_iff_false, existsb_exists. apply not_iff_compat. split.
  - intros (d & Hd & He). apply ident_eqb_eq in He. rewrite He. apply list_elem_of_fmap.
    exists d. split; [done|]. by apply list_elem_of_In.
  - intros (d & He & Hd)%list_elem_of_fmap. exists d. split; [by apply list_elem_of_In|].
    by apply ident_eqb_eq.
Qed.

(** With a correct index there is at most one primary-key column. *)
Lemma pk_indexed_unique cols idx : pk_indexed cols idx -> (length (primary_keys cols) <= 1)%nat.
Proof.
  intros [_ Hi]. unfold primary_keys. rewrite length_map.
  assert (Hgen : forall n, (forall i c, cols !! i = Some c -> (col_primary_key c = true <-> idx = Z.of_nat (n + i))) ->
    (length (List.filter col_primary_key cols) <= 1)%nat /\
    (idx < Z.of_nat n -> List.filter col_primary_key cols = [])); [|by apply (Hgen 0%nat)].
  clear Hi. induction cols as [|c cols IH]; intros n Hi; simpl; [by split; [lia|]|].
  destruct (IH (S n)) as [Hle Hnil].
  { intros i d Hd. rewrite (Hi (S i) d Hd). lia. }
  pose proof (Hi 0%nat c eq_refl) as Hc. destruct (col_primary_key c) eqn:E; simpl.
  - rewrite Hnil by (destruct Hc as [Hc _]; specialize (Hc eq_refl); lia). simpl. split; [lia|].
    destruct Hc as [Hc _]. specialize (Hc eq_refl). lia.
  - split; [done|]. intros. apply Hnil. lia.
Qed.

(** C31: the chained construction API only builds well-formed schemas: whatever
    the calls (errors included), the recorded index designates the one column
    marked as primary key or there is none, and every declared length is legal;
    and [validate] accepts such a schema exactly when no error was recorded, it
    has a primary key that is not nullable, and no two names are equal up to case. *)
Theorem schema_builder_wf name calls :
  let s := build_schema name calls in
  schema_wf s /\
  (validate s = SE_OK <->
   error_ s = SE_OK /\
   (exists c, columns_ s !! Z.to_nat (primary_key_index_ s) = Some c /\
      col_primary_key c = true /\ col_nullable c = false) /\
   names_distinct (columns_ s)).
Proof.
  intros s. pose proof (wf_build name calls) as Hwf. fold s in Hwf. split; [done|].
  destruct Hwf as [Hi _]. clearbody s. unfold validate, has_error. rewrite <- has_duplicate_name_spec.
  destruct (bool_decide_reflect (error_ s = SE_OK)) as [He|He]; simpl; [|by split; [|intros []]].
  destruct (has_primary_key s) eqn:Ep; simpl.
  - unfold has_primary_key in Ep. boolify.
    destruct (lookup_lt_is_Some_2 (columns_ s) (Z.to_nat (primary_key_index_ s))) as [c Hc]; [lia|].
    rewrite Hc. pose proof (proj2 (proj2 Hi _ _ Hc) ltac:(lia)) as Hpk.
    pose proof (pk_indexed_unique _ _ Hi) as Hu.
    destruct (1 <? length _)%nat eqn:El; boolify; [lia|].
    destruct (col_nullable c) eqn:En.
    { split; [done|]. intros (_ & (c' & Hc' & _ & Hn) & _). congruence. }
    destruct (has_duplicate_name _); split; try done; [by intros (_ & _ & ?)|eauto 6].
  - split; [done|]. intros (_ & (c & Hc & Hpk & _) & _).
    pose proof (proj1 (proj2 Hi _ _ Hc) Hpk) as Hx. pose proof (lookup_lt_Some _ _ _ Hc).
    unfold has_primary_key in Ep. apply andb_false_iff in Ep as [Ep|Ep]; boolify; lia.
Qed.

(** ** Round trip of the stored format *)

(** A name as it is read back: [deserialize] builds an [Identifier] from the
    stored characters, which looks for quotes again. *)
Definition reload_name (i : Identifier) : Identifier := identifier (name_ i).
Definition reload_column (c : ColumnDef) : ColumnDef :=
  mkColumnDef (reload_name (col_name c)) (col_type c) (col_length c) (col_nullable c) (col_primary_key c).
Definition reload (s : TableSchema) : TableSchema :=
  mkTableSchema (reload_name (schema_name s)) (map reload_column (columns_ s)) (primary_key_index_ s) SE_OK.

Lemma type_code_inv t : type_of_code (type_code t) = Some t /\ (type_code t < 256)%N.
Proof. by destruct t. Qed.

Lemma column_flags_inv c :
  (column_flags c < 256)%N /\ negb (N.land (column_flags c) 1 =? 0)%N = col_nullable c /\
  negb (N.land (column_flags c) 2 =? 0)%N = col_primary_key c.
Proof. unfold column_flags. by destruct (col_nullable c), (col_primary_key c). Qed.

Lemma declared_length_u32 t n : valid_declared_length t n = true -> u32 n.
Proof.
  unfold valid_declared_length, c_type_length_valid, c_type_max_length, u32, two32.
  destruct (n =? 0)%N eqn:E; boolify; [lia|]. intros H. boolify.
  destruct t; unfold kMaxCharLength, kMaxVarcharLength in *; lia.
Qed.

Lemma put_column_app buf c : put_column buf c = buf ++ put_column [] c.
Proof.
  unfold put_column, put_u8, put_u32. rewrite (put_str_app buf). by rewrite !app_assoc.
Qed.

Definition name_fits (i : Identifier) : Prop := u32 (N.of_nat (length (name_ i))).

Lemma get_column_put c rest : name_fits (col_name c) ->
  valid_declared_length (col_type c) (col_length c) = true ->
  get_column (mkByteReader (put_column [] c ++ rest) true) = Ok (mkByteReader rest true, reload_column c).
Proof.
  intros Hn Hv. unfold get_column, put_column. destruct (type_code_inv (col_type c)) as [Ht Htl].
  destruct (column_flags_inv c) as (Hf & Hnul & Hpk).
  rewrite (put_u8_app (put_u32 _ _)), (put_u32_app (put_u8 _ _)), (put_u8_app (put_str _ _)).
  rewrite <- !app_assoc, get_str_put by done. rewrite get_u8_put by done.
  rewrite get_u32_put by (by eapply declared_length_u32). rewrite get_u8_put by done.
  cbn [ok_ negb]. by rewrite Ht, Hv, Hnul, Hpk.
Qed.

Lemma get_columns_put cols rest s :
  Forall (fun c => name_fits (col_name c) /\ valid_declared_length (col_type c) (col_length c) = true) cols ->
  get_columns (length cols) (mkByteReader (concat (map (put_column []) cols) ++ rest) true) s =
  Ok (mkByteReader rest true, fold_left (fun s c => push_column c s) (map reload_column cols) s).
Proof.
  revert s. induction cols as [|c cols IH]; intros s Hc; [done|].
  inversion Hc as [|? ? [Hn Hv] Hc']; subst. cbn [map concat length get_columns].
  rewrite <- app_assoc, get_column_put by done. simpl. by apply IH.
Qed.

Lemma pk_indexed_det cols i j : pk_indexed cols i -> pk_indexed cols j -> i = j.
Proof.
  assert (Hle : forall i j, pk_indexed cols i -> pk_indexed cols j -> i <> -1 -> i = j).
  { clear. intros i j [Hr Hi] [_ Hj] Hne.
    destruct (lookup_lt_is_Some_2 cols (Z.to_nat i)) as [c Hc]; [lia|].
    pose proof (proj2 (Hi _ _ Hc) ltac:(lia)) as Hp. pose proof (proj1 (Hj _ _ Hc) Hp). lia. }
  intros Hi Hj. destruct (decide (i = -1)) as [->|]; [|by apply Hle].
  destruct (decide (j = -1)) as [->|]; [done|]. symmetry. by apply Hle.
Qed.

(** A prefix of well-indexed columns followed by a primary key has none. *)
Lemma pk_indexed_split cols c rest idx i :
  pk_indexed (cols ++ c :: rest) idx -> pk_indexed cols i -> col_primary_key c = true -> i = -1.
Proof.
  intros [_ Hi] [Hr' Hi'] Hck. pose proof (proj1 (Hi _ _ (list_lookup_middle cols rest c _ eq_refl)) Hck) as Hx.
  destruct (decide (i = -1)) as [|Hne]; [done|].
  destruct (lookup_lt_is_Some_2 cols (Z.to_nat i)) as [d Hd]; [lia|].
  pose proof (proj2 (Hi' _ _ Hd) ltac:(lia)) as Hpk. pose proof (lookup_lt_Some _ _ _ Hd).
  pose proof (proj1 (Hi _ _ (lookup_app_l_Some _ (c :: rest) _ _ Hd)) Hpk). lia.
Qed.

Lemma fold_push cols s idx :
  pk_indexed (columns_ s ++ cols) idx -> pk_indexed (columns_ s) (primary_key_index_ s) ->
  fold_left (fun s c => push_column c s) cols s =
  mkTableSchema (schema_name s) (columns_ s ++ cols) idx (error_ s).
Proof.
  revert s. induction cols as [|c cols IH]; intros s Hidx Hs; simpl.
  { rewrite app_nil_r in *. rewrite (pk_indexed_det _ _ _ Hidx Hs). by destruct s. }
  rewrite IH; simpl; rewrite <- ?app_assoc; [done|done|].
  apply pk_indexed_push; [done|]. intros Hck. by eapply pk_indexed_split.
Qed.

Lemma pk_indexed_reload cols idx : pk_indexed cols idx -> pk_indexed (map reload_column cols) idx.
Proof.
  intros [Hr Hi]. split; [by rewrite length_map|]. intros i c Hc.
  apply list_lookup_fmap_Some in Hc as (d & -> & Hd). by rewrite <- (Hi i d Hd).
Qed.

Lemma reload_roundtrip s : schema_wf s -> name_fits (schema_name s) ->
  Forall (fun c => name_fits (col_name c)) (columns_ s) -> (N.of_nat (length (columns_ s)) <= 65535)%N ->
  schema_deserialize (schema_serialize s) = Ok (reload s).
Proof.
  intros [Hi Hl] Hn Hc Hlen. unfold schema_deserialize, schema_serialize, byte_reader.
  rewrite (fold_put_app put_column) by apply put_column_app.
  rewrite (put_u32_app (put_u32 _ _)), (put_u32_app (put_str _ _)), (put_str_app (put_u8 _ _)).
  rewrite <- !app_assoc, get_u8_put by done. cbn [ok_ negb orb]. rewrite N.eqb_refl. cbn [negb].
  rewrite get_str_put by done. destruct Hi as [Hr Hi].
  assert (Hcols : u32 (N.of_nat (length (columns_ s)))) by (unfold u32, two32; lia).
  rewrite get_u32_put by (unfold u32; case_match; [by apply N.mod_lt|done]).
  rewrite (N.mod_small (N.of_nat _)) by done. rewrite get_u32_put by done. cbn [ok_ negb orb].
  destruct (65535 <? _)%N eqn:E; boolify; [lia|]. rewrite Nat2N.id, <- (app_nil_r (concat _)).
  rewrite get_columns_put by (apply Forall_and; split; done).
  rewrite (fold_push _ _ (primary_key_index_ s));
    [|by apply (pk_indexed_reload (columns_ s))|by apply wf_empty].
  cbn [result_bind ok_ negb orb br_eof br_remaining unread length]. simpl.
  destruct (0 <=? primary_key_index_ s) eqn:Eg; boolify; [|done].
  rewrite N.mod_small by (unfold two32; lia).
  destruct (N.ltb_spec 0 (Z.to_N (primary_key_index_ s) + 1)); [|lia].
  destruct (N.leb_spec (Z.to_N (primary_key_index_ s) + 1) (N.of_nat (length (columns_ s)))); [|lia].
  simpl. unfold reload. do 2 f_equal. lia.
Qed.

(** A name that survives being stored: its stored characters are not themselves
    a quoted string. *)
Definition stable_name (i : Identifier) : Prop :=
  name_fits i /\ normalized_ i = make_lower (name_ i) /\ quoted_ (reload_name i) = false.

Lemma identifier_unquoted raw : quoted_ (identifier raw) = false ->
  identifier raw = mkIdentifier raw (make_lower raw) false.
Proof.
  unfold identifier. destruct raw as [|q [|c rest]]; [done|done|]. by case_match.
Qed.

Lemma stable_name_eqb i : stable_name i -> ident_eqb i (reload_name i) = true.
Proof.
  intros (_ & Hn & Hq). apply ident_eqb_eq. unfold reload_name in *.
  by rewrite (identifier_unquoted _ Hq).
Qed.

Lemma column_eqb_reload c : stable_name (col_name c) -> column_eqb c (reload_column c) = true.
Proof.
  intros Hc. unfold column_eqb. simpl.
  by rewrite stable_name_eqb, bool_decide_eq_true_2, N.eqb_refl, !eqb_reflx.
Qed.

Lemma schema_eqb_reload s : stable_name (schema_name s) ->
  Forall (fun c => stable_name (col_name c)) (columns_ s) -> schema_eqb s (reload s) = true.
Proof.
  intros Hn Hc. unfold schema_eqb. simpl. rewrite stable_name_eqb, Z.eqb_refl by done.
  rewrite andb_true_r. simpl. induction Hc as [|c cols Hc _ IH]; simpl; [done|].
  by rewrite column_eqb_reload.
Qed.

(** A schema survives storage. For every schema the construction API builds
    with at most 65535 columns and names that are not themselves quoted strings,
    [deserialize] of [serialize] succeeds and gives a schema equal to it under
    [operator==] (same name, same columns in the same order, same primary key),
    with no error recorded. *)
Theorem schema_roundtrip name calls :
  let s := build_schema name calls in
  stable_name (schema_name s) -> Forall (fun c => stable_name (col_name c)) (columns_ s) ->
  (N.of_nat (length (columns_ s)) <= 65535)%N ->
  exists s', schema_deserialize (schema_serialize s) = Ok s' /\ schema_eqb s s' = true /\ error_ s' = SE_OK.
Proof.
  intros s Hn Hc Hlen. exists (reload s). split_and!; [|by apply schema_eqb_reload|done].
  apply reload_roundtrip; [apply wf_build|apply Hn| |done].
  eapply Forall_impl; [exact Hc|]. by intros c [].
Qed.

Definition demo_calls : list builder_call :=
  [PrimaryKey (identifier (bytes_of_string "id")) INT;
   AddColumn (mkColumnDef (identifier (bytes_of_string "Name")) VARCHAR 8 true false);
   NotNull (identifier (bytes_of_string "born")) DATE].
Definition demo_schema : TableSchema := build_schema (identifier (bytes_of_string "users")) demo_calls.

Lemma schema_roundtrip_witness :
  exists s', schema_deserialize (schema_serialize demo_schema) = Ok s' /\
    schema_eqb demo_schema s' = true /\ error_ s' = SE_OK.
Proof.
  apply (schema_roundtrip (identifier (bytes_of_string "users")) demo_calls).
  - vm_compute. split_and!; reflexivity.
  - repeat constructor; vm_compute; reflexivity.
  - vm_compute. discriminate.
Defined.

(** A column whose name is a quoted string inside the quotes (double quotes around ['a']) changes
    its name when the schema is stored and read back: [deserialize] strips the
    inner quotes. *)
Example quoted_name_not_stable :
  let inner := bytes_of_string "'a'" in
  let s := build_schema (identifier (bytes_of_string "t"))
    [PrimaryKey (identifier ([x22] ++ inner ++ [x22])) INT] in
  map (fun c => name_ (col_name c)) (columns_ s) = [inner] /\
  match schema_deserialize (schema_serialize s) with
  | Ok s' => map (fun c => name_ (col_name c)) (columns_ s') = [bytes_of_string "a"] /\ schema_eqb s s' = false
  | Err _ => False
  end.
Proof. vm_compute. by split. Qed.
