(* ===== verification/RowCodec.v ===== *)
(** * Rows: [sql_types/row.h], [sql_types/row.cpp]

    The stored format of a row (a length-prefixed frame of key-encoded fields)
    and the row builder. A row is the list of its values. *)

From S2P Require Import Prelude Bytes SqlTypes KeyCodec SqlTruth Schema.
Local Open Scope Z_scope.

(** ** The stored format *)

Definition kRowFormatVersion : N := 1.

Definition row_header (row : Row) : bytes :=
  put_u32 (put_u8 [] kRowFormatVersion) (N.of_nat (length row) mod two32).

(** [Row::serialize()]: NULL gets the untyped NULL key. *)
Definition row_serialize_untyped (row : Row) : bytes :=
  fold_left (fun w v => put_str w (to_key v)) row (row_header row).

(** The loop of [Row::serialize(schema)]; values past the schema's columns are
    encoded with their own type. *)
Fixpoint put_fields (w : bytes) (cols : list ColumnDef) (row : Row) : bytes :=
  match row with
  | [] => w
  | v :: row' =>
      let column_type := match cols with c :: _ => col_type c | [] => type_of v end in
      put_fields (put_str w (to_column_key v column_type)) (tail cols) row'
  end.
Definition row_serialize (s : TableSchema) (row : Row) : bytes :=
  put_fields (row_header row) (columns_ s) row.

(** The loop of [Row::deserialize]: one field per column. *)
Fixpoint get_fields (cols : list ColumnDef) (r : ByteReader) : result SchemaError (ByteReader * Row) :=
  match cols with
  | [] => Ok (r, [])
  | col :: rest =>
      let '(r, field) := get_str r in
      if negb (ok_ r) then Err SE_INVALID_FORMAT
      else if negb (is_valid_key field (col_type col)) then Err SE_INVALID_FORMAT
      else
        let value := from_key field (col_type col) in
        match validate_value col value with
        | SE_OK => let* (r, row) := get_fields rest r in Ok (r, value :: row)
        | err => Err err
        end
  end.

Definition row_deserialize (data : bytes) (s : TableSchema) : result SchemaError Row :=
  let '(r, version) := get_u8 (byte_reader data) in
  if negb (ok_ r) || negb (version =? kRowFormatVersion)%N then Err SE_INVALID_FORMAT
  else
    let '(r, field_count) := get_u32 r in
    if negb (ok_ r) || negb (field_count =? N.of_nat (length (columns_ s)))%N
    then Err SE_COLUMN_SIZE_MISMATCH
    else
      let* (r, row) := get_fields (columns_ s) r in
      if negb (br_eof r) then Err SE_INVALID_FORMAT else Ok row.

(** ** [class RowBuilder]

    [values_] is an unordered map from identifiers to values: an association
    list in which [set] replaces. *)

Definition RowBuilder := list (Identifier * Value).

Fixpoint builder_find (column : Identifier) (b : RowBuilder) : option Value :=
  match b with
  | [] => None
  | (c, v) :: rest => if ident_eqb c column then Some v else builder_find column rest
  end.
Fixpoint builder_set (column : Identifier) (value : Value) (b : RowBuilder) : RowBuilder :=
  match b with
  | [] => [(column, value)]
  | (c, v) :: rest => if ident_eqb c column then (c, value) :: rest
                      else (c, v) :: builder_set column value rest
  end.
Definition builder_get (column : Identifier) (b : RowBuilder) : Value :=
  match builder_find column b with Some v => v | None => VNull end.
Definition builder_has (column : Identifier) (b : RowBuilder) : bool :=
  match builder_find column b with Some _ => true | None => false end.

(** The columns of [build] in schema order: a missing column is NULL, unless it
    is NOT NULL. *)
Fixpoint collect_values (b : RowBuilder) (cols : list ColumnDef) : result SchemaError Row :=
  match cols with
  | [] => Ok []
  | col :: rest =>
      match builder_find (col_name col) b with
      | Some v => let* row := collect_values b rest in Ok (v :: row)
      | None => if negb (col_nullable col) then Err SE_INVALID_ROW
                else let* row := collect_values b rest in Ok (VNull :: row)
      end
  end.

Definition build (s : TableSchema) (b : RowBuilder) : result SchemaError Row :=
  if existsb (fun p => match column p.1 s with None => true | Some _ => false end) b
  then Err SE_COLUMN_NOT_FOUND
  else let* row := collect_values b (columns_ s) in
       match validate_row s row with SE_OK => Ok row | err => Err err end.

Fixpoint build_ordered (s : TableSchema) (order : list Identifier) (b : RowBuilder)
    : result SchemaError Row :=
  match order with
  | [] => Ok []
  | col_name :: rest =>
      match column col_name s with
      | None => Err SE_COLUMN_NOT_FOUND
      | Some col =>
          match builder_find col_name b with
          | Some v => match validate_value col v with
                      | SE_OK => let* row := build_ordered s rest b in Ok (v :: row)
                      | err => Err err
                      end
          | None => if negb (col_nullable col) then Err SE_INVALID_ROW
                    else let* row := build_ordered s rest b in Ok (VNull :: row)
          end
      end
  end.

(** ** What a validated value is *)

Lemma validate_value_in_column col v :
  value_wf v -> validate_value col v = SE_OK -> in_column (col_type col) v.
Proof.
  intros Hw. unfold validate_value, in_column. destruct (is_null v) eqn:En.
  { destruct v as [|[]| |[]]; try done. intros _. split; [done|by left]. }
  destruct (is_same_family (col_type col) (type_of v)) eqn:Ef; simpl; [|done]. intros _.
  split; [done|right]. unfold is_same_family in Ef.
  destruct (col_type col), v as [|[]| |[]]; done.
Qed.

Lemma retype_validate col v :
  validate_value col v = SE_OK -> validate_value col (retype (col_type col) v) = SE_OK.
Proof.
  unfold validate_value. destruct v as [|t x|b|t s]; simpl; [done| |done|].
  - destruct col as [n ty len nul pk]. simpl. destruct ty, t; done.
  - destruct col as [n ty len nul pk]. simpl. destruct ty, t; done.
Qed.

Lemma retype_wf t v : value_wf v -> value_wf (retype t v).
Proof. by destruct v. Qed.

Lemma retype_idem t v : retype t (retype t v) = retype t v.
Proof. by destruct v. Qed.

Lemma validate_key_valid col v : value_wf v -> validate_value col v = SE_OK ->
  is_valid_key (to_column_key v (col_type col)) (col_type col) = true.
Proof.
  intros Hw Hv. pose proof (validate_value_in_column _ _ Hw Hv) as Hc.
  destruct (decide (tag_of (col_type col) = kTagNull)) as [Ht|Ht]; [|by apply column_key_valid].
  assert (v = VNull) as ->; [|by rewrite to_column_key_null, Ht].
  destruct Hc as [_ [->|Hc]]; [done|]. rewrite Ht in Hc. destruct v as [|[]| |[]]; done.
Qed.

Lemma length_encode_string_body s : (length (encode_string_body s) <= 2 * length s)%nat.
Proof. induction s as [|c s IH]; simpl; [lia|]. case_bool_decide; simpl; lia. Qed.

(** A field is short enough for its 32-bit length. *)
Lemma field_fits col v : validate_value col v = SE_OK ->
  valid_declared_length (col_type col) (col_length col) = true ->
  u32 (N.of_nat (length (to_column_key v (col_type col)))).
Proof.
  intros Hv Hl. destruct v as [|t x|b|t s].
  - rewrite to_column_key_null. done.
  - rewrite to_column_key_int. cbn [length]. rewrite length_encode_be64. done.
  - rewrite to_column_key_bool. by destruct b.
  - rewrite to_column_key_str. cbn [length]. unfold encode_string. rewrite length_app. simpl.
    pose proof (length_encode_string_body s).
    assert (N.of_nat (length s) <= 65535)%N; [|unfold u32, two32; lia].
    unfold validate_value in Hv. destruct (is_null (VStr t s)) eqn:En; [by destruct t|].
    destruct (is_same_family _ _); [|done]. simpl in Hv.
    destruct (is_temporal (col_type col) && is_temporal (of_string_type t) && _); [done|].
    destruct (can_represent_length _ _ _) eqn:Ec; [|done].
    unfold can_represent_length, string_capacity in Ec. apply N.leb_le in Ec.
    unfold valid_declared_length, c_type_length_valid, c_type_max_length in Hl.
    unfold kMaxCharLength, kMaxVarcharLength, kMaxTextLength in *.
    destruct (col_type col); try lia; destruct (col_length col =? 0)%N; boolify; lia.
Qed.

(** ** Round trip *)

Definition retype_row (cols : list ColumnDef) (row : Row) : Row :=
  zip_with (fun c v => retype (col_type c) v) cols row.

Lemma put_fields_app w cols row : put_fields w cols row = w ++ put_fields [] cols row.
Proof.
  revert w cols. induction row as [|v row IH]; intros w cols; simpl; [by rewrite app_nil_r|].
  rewrite IH, (IH (put_str [] _)), (put_str_app w). by rewrite app_assoc.
Qed.

Lemma get_fields_put cols row rest :
  length row = length cols -> validate_values cols row = SE_OK -> Forall value_wf row ->
  Forall (fun c => valid_declared_length (col_type c) (col_length c) = true) cols ->
  get_fields cols (mkByteReader (put_fields [] cols row ++ rest) true) =
  Ok (mkByteReader rest true, retype_row cols row).
Proof.
  revert row. induction cols as [|c cols IH]; intros [|v row] Hlen Hv Hw Hl; try done.
  simpl in Hv. destruct (validate_value c v) eqn:Ev; try done.
  inversion Hw as [|? ? Hwv Hw']; subst. inversion Hl as [|? ? Hlc Hl']; subst.
  cbn [put_fields get_fields tail]. rewrite put_fields_app, <- app_assoc.
  rewrite get_str_put by (by eapply field_fits). cbn [ok_ negb].
  rewrite validate_key_valid by done. cbn [negb].
  rewrite from_to_key by (by apply validate_value_in_column).
  rewrite retype_validate by done. rewrite IH by (done || by injection Hlen). done.
Qed.

Lemma row_roundtrip_retype s row :
  lengths_valid s -> (N.of_nat (length (columns_ s)) < two32)%N ->
  Forall value_wf row -> validate_row s row = SE_OK ->
  row_deserialize (row_serialize s row) s = Ok (retype_row (columns_ s) row).
Proof.
  intros Hl Hc Hw Hv. unfold validate_row in Hv.
  destruct (length row =? length (columns_ s))%nat eqn:El; [|done]. boolify. simpl in Hv.
  unfold row_deserialize, row_serialize, row_header, byte_reader.
  rewrite put_fields_app, put_u32_app, <- !app_assoc, get_u8_put by done.
  cbn [ok_ negb orb]. rewrite N.eqb_refl. cbn [negb].
  rewrite El, N.mod_small by done. rewrite get_u32_put by done. cbn [ok_ negb orb].
  rewrite N.eqb_refl. cbn [negb]. rewrite <- (app_nil_r (put_fields _ _ _)).
  by rewrite get_fields_put.
Qed.

(** What is read back was checked again. *)
Lemma get_fields_valid cols r r' row :
  get_fields cols r = Ok (r', row) -> length row = length cols /\ validate_values cols row = SE_OK.
Proof.
  revert r r' row. induction cols as [|c cols IH]; intros r r' row; simpl; [by intros [= _ <-]|].
  destruct (get_str r) as [r1 field]. destruct (ok_ r1); [|done].
  destruct (is_valid_key field (col_type c)); [|done]. simpl.
  destruct (validate_value c _) eqn:Ev; try done.
  destruct (get_fields cols r1) as [[r2 row2]|] eqn:E; [|done]. intros [= _ <-].
  destruct (IH _ _ _ E) as [Hl Hv]. simpl. rewrite Ev, Hl. done.
Qed.

Lemma row_deserialize_valid data s row :
  row_deserialize data s = Ok row -> validate_row s row = SE_OK.
Proof.
  unfold row_deserialize. destruct (get_u8 _) as [r v]. case_match; [done|].
  destruct (get_u32 r) as [r1 n]. case_match; [done|].
  destruct (get_fields (columns_ s) r1) as [[r2 row2]|] eqn:E; [|done]. simpl.
  case_match; [done|]. intros [= <-]. destruct (get_fields_valid _ _ _ _ E) as [Hl Hv].
  unfold validate_row. by rewrite Hl, Nat.eqb_refl.
Qed.

(** C32: rows survive storage and storage never yields a bad row. A row that
    passes [validate_row] is read back from its stored form field by field with
    the same payloads (typed by the columns), whatever bytes its texts contain;
    and whatever the stored bytes are, what [deserialize] accepts passes
    [validate_row] again: the right number of columns, NULL only where allowed,
    types of the column's family, numbers and lengths in range. *)
Theorem row_roundtrip s row data row' :
  lengths_valid s -> (N.of_nat (length (columns_ s)) < two32)%N ->
  (Forall value_wf row -> validate_row s row = SE_OK ->
   row_deserialize (row_serialize s row) s = Ok (retype_row (columns_ s) row)) /\
  (row_deserialize data s = Ok row' -> validate_row s row' = SE_OK).
Proof. intros Hl Hc. split; [by apply row_roundtrip_retype|apply row_deserialize_valid]. Qed.

Definition demo_row : Row := [VInt I_TINYINT (-7); VStr S_TEXT [x00; "|"%byte; xff]; VInt I_DATE 19000].

Lemma row_roundtrip_witness :
  row_deserialize (row_serialize demo_schema demo_row) demo_schema =
  Ok [VInt I_BIGINT (-7); VStr S_VARCHAR [x00; "|"%byte; xff]; VInt I_DATE 19000].
Proof.
  apply (proj1 (row_roundtrip demo_schema demo_row [] [] (wf_lengths _ (wf_build _ _)) eq_refl)).
  - apply (bool_decide_eq_true_1 _). vm_compute. reflexivity.
  - vm_compute. reflexivity.
Defined.

(** ** The builder *)

Lemma collect_values_spec b cols row : collect_values b cols = Ok row ->
  row = map (fun c => builder_get (col_name c) b) cols.
Proof.
  revert row. induction cols as [|c cols IH]; intros row; simpl; [by intros [= <-]|].
  unfold builder_get at 1. destruct (builder_find (col_name c) b) as [v|].
  - destruct (collect_values b cols) as [r|]; [|done]. intros [= <-]. by rewrite <- (IH r).
  - destruct (col_nullable c); [|done]. simpl.
    destruct (collect_values b cols) as [r|]; [|done]. intros [= <-]. by rewrite <- (IH r).
Qed.

Lemma collect_values_ok b cols :
  Forall (fun c => builder_has (col_name c) b = true \/ col_nullable c = true) cols ->
  collect_values b cols = Ok (map (fun c => builder_get (col_name c) b) cols).
Proof.
  induction 1 as [|c cols Hc _ IH]; simpl; [done|]. rewrite IH. simpl.
  unfold builder_has, builder_get in *. destruct (builder_find (col_name c) b); [done|].
  destruct Hc as [|Hc]; [done|]. by rewrite Hc.
Qed.

Lemma builder_find_set c d v b :
  builder_find d (builder_set c v b) = if ident_eqb c d then Some v else builder_find d b.
Proof.
  induction b as [|[e w] b IH]; simpl; [done|].
  destruct (ident_eqb e c) eqn:Eec; simpl.
  - apply ident_eqb_eq in Eec. unfold ident_eqb. rewrite Eec. by destruct (bytes_eqb _ _).
  - rewrite IH. destruct (ident_eqb e d) eqn:Eed; [|done].
    apply ident_eqb_eq in Eed. unfold ident_eqb in *. rewrite Eed in Eec.
    destruct (bytes_eqb (normalized_ c) (normalized_ d)) eqn:E; [|done].
    apply bytes_eqb_eq in E. rewrite E, bytes_eqb_refl in Eec. done.
Qed.

Lemma index_from_col i name cols :
  (0 <= i)%Z -> (0 <=? index_from i name cols) = existsb (fun c => ident_eqb (col_name c) name) cols.
Proof.
  revert i. induction cols as [|c cols IH]; intros i Hi; simpl; [done|].
  destruct (ident_eqb (col_name c) name); simpl; [by apply Z.leb_le|]. apply IH. lia.
Qed.

Lemma index_from_bound i name cols :
  (0 <= i)%Z -> index_from i name cols = -1 \/
  (i <= index_from i name cols < i + Z.of_nat (length cols))%Z.
Proof.
  revert i. induction cols as [|c cols IH]; intros i Hi; simpl; [by left|].
  destruct (ident_eqb (col_name c) name); [right; lia|]. destruct (IH (i + 1)%Z); [lia| |]; [by left|right; lia].
Qed.

Lemma column_found name s :
  column name s <> None <-> existsb (fun c => ident_eqb (col_name c) name) (columns_ s) = true.
Proof.
  unfold column, column_index. rewrite <- (index_from_col 0) by lia.
  destruct (index_from_bound 0 name (columns_ s)) as [->|Hb]; [lia|done|].
  destruct (Z.leb_spec 0 (index_from 0 name (columns_ s))); [|lia].
  split; [done|]. intros _. apply not_eq_None_Some, lookup_lt_is_Some. lia.
Qed.

(** [RowBuilder::build] yields exactly the row described, or an error. It
    succeeds just when every name set is a column of the schema, every NOT NULL
    column was set, and the row passes [validate_row]; the row then holds, for
    each column in schema order, the value last set under that name (names
    compared without case) and NULL for the columns not set. *)
Theorem row_builder_exact s b row :
  build s b = Ok row <->
  Forall (fun p => column p.1 s <> None) b /\
  Forall (fun c => builder_has (col_name c) b = true \/ col_nullable c = true) (columns_ s) /\
  row = map (fun c => builder_get (col_name c) b) (columns_ s) /\ validate_row s row = SE_OK.
Proof.
  unfold build.
  destruct (existsb _ b) eqn:Ex.
  { split; [done|]. intros (Hb & _). apply existsb_exists in Ex as (p & Hp & Hc).
    rewrite Forall_forall in Hb. specialize (Hb p ltac:(by apply list_elem_of_In)). by destruct (column p.1 s). }
  assert (Hb : Forall (fun p => column p.1 s <> None) b).
  { apply Forall_forall. intros p Hp Hc. apply not_true_iff_false in Ex. apply Ex, existsb_exists.
    exists p. split; [by apply list_elem_of_In|]. by rewrite Hc. }
  split.
  - destruct (collect_values b (columns_ s)) as [r|] eqn:Ec; [|done]. simpl. intros Hr.
    assert (r = row /\ validate_row s row = SE_OK) as [-> Hv]
      by (destruct (validate_row s r) eqn:?; by simplify_eq).
    pose proof (collect_values_spec _ _ _ Ec). split_and!; try done.
    clear -Ec. revert row Ec. induction (columns_ s) as [|c cols IH]; intros row; simpl; [by constructor|].
    unfold builder_has. destruct (builder_find (col_name c) b) eqn:Ef.
    + destruct (collect_values b cols); [|done]. intros _. constructor; [left; by rewrite Ef|by eapply IH].
    + destruct (col_nullable c) eqn:En; [|done]. simpl. destruct (collect_values b cols); [|done].
      intros _. constructor; [by right|by eapply IH].
  - intros (_ & Hn & -> & Hv). rewrite collect_values_ok by done. simpl. by rewrite Hv.
Qed.
