(* ===== verification/KeyPrefix.v ===== *)
(** * The layout of stored keys: [relation/key_prefix.h]

    Names are length-prefixed ([5:users]), so that every key family is
    self-delimiting; the rows of a table are the keys that start with its data
    prefix, in the order of the encoded primary key. *)

From S2P Require Import Prelude Bytes SqlTypes Temporal KeyCodec SqlTruth Rewriter.
Local Open Scope Z_scope.

(** ** Names *)

(** [std::to_string(name.size()) + ":" + name] *)
Definition encode_component (name : bytes) : bytes :=
  int_to_string (Z.of_nat (length name)) ++ ":"%byte :: name.
Definition encode_identifier (name : Identifier) : bytes := encode_component (normalized_ name).

(** The exclusive upper bound of a prefix; the loop over trailing 0xFF bytes is
    the one of [KeyCodecs::successor]. *)
Definition prefix_end (prefix : bytes) : bytes :=
  match strip_ff (reverse prefix) with
  | [] => []
  | b :: r => reverse (byte_of_N (Byte.to_N b + 1) :: r)
  end.

(** ** System keys *)

Definition key_databases : bytes := str "@system/databases".
Definition db_tables (db : Identifier) : bytes := str "@system/tables/" ++ encode_identifier db.
Definition db_schema_prefix (db : Identifier) : bytes :=
  str "@system/schema/" ++ encode_identifier db ++ str "/".
Definition db_schema (db table : Identifier) : bytes :=
  str "@system/schema/" ++ encode_identifier db ++ str "/" ++ encode_identifier table.
Definition db_stats (db : Identifier) : bytes := str "@system/dbstats/" ++ encode_identifier db.
Definition table_stats_key (db table : Identifier) : bytes :=
  str "@system/tablestats/" ++ encode_identifier db ++ str "/" ++ encode_identifier table.
Definition table_stats_prefix (db : Identifier) : bytes :=
  str "@system/tablestats/" ++ encode_identifier db ++ str "/".

(** ** Data keys *)

Definition data_prefix (db table : Identifier) : bytes :=
  str "@data/" ++ encode_identifier db ++ str "/" ++ encode_identifier table ++ str "/".
Definition db_data_prefix (db : Identifier) : bytes := str "@data/" ++ encode_identifier db ++ str "/".
Definition data_key (db table : Identifier) (primary_key : Value) (pk_type : DataType) : bytes :=
  data_prefix db table ++ to_column_key primary_key pk_type.

Definition is_system_key (key : bytes) : bool :=
  (8 <=? length key)%nat && bytes_eqb (take 8 key) (str "@system/").
Definition is_data_key (key : bytes) : bool :=
  (6 <=? length key)%nat && bytes_eqb (take 6 key) (str "@data/").

(** ** Self-delimiting names *)

Lemma take_digits_app fuel n acc s : 0 <= n < 10 ^ Z.of_nat fuel ->
  take_digits acc (dec_digits fuel n ++ s) =
  take_digits (acc * 10 ^ Z.of_nat (length (dec_digits fuel n)) + n) s.
Proof.
  revert n acc s. induction fuel as [|fuel IH]; intros n acc s Hn.
  { simpl in *. f_equal. lia. }
  assert (Hp : 10 ^ Z.of_nat (S fuel) = 10 * 10 ^ Z.of_nat fuel)
    by (rewrite Nat2Z.inj_succ, Z.pow_succ_r; lia).
  cbn [dec_digits]. destruct (Z.ltb_spec n 10) as [Hlt|Hge].
  - simpl. rewrite digit_of_char by (rewrite Z.mod_small; lia). rewrite Z.mod_small by lia.
    f_equal. 
  - rewrite <- app_assoc, IH.
    + simpl. rewrite digit_of_char by (pose proof (Z.mod_pos_bound n 10); lia).
      rewrite length_app, Nat2Z.inj_add. simpl. rewrite Z.pow_add_r by lia.
      f_equal. pose proof (Z.div_mod n 10). lia.
    + split; [apply Z.div_pos; lia|]. apply Z.div_lt_upper_bound; lia.
Qed.

Lemma take_digits_colon n s : take_digits n (":"%byte :: s) = (n, ":"%byte :: s).
Proof. done. Qed.

Definition size_fits (name : bytes) : Prop := (N.of_nat (length name) < two64)%N.

Lemma component_inj a b x y : size_fits a -> size_fits b ->
  encode_component a ++ x = encode_component b ++ y -> a = b /\ x = y.
Proof.
  unfold size_fits, two64, encode_component, int_to_string. intros Ha Hb.
  rewrite !(proj2 (Z.ltb_ge _ 0)) by lia. rewrite <- !app_assoc.
  intros H. apply (f_equal (take_digits 0)) in H. rewrite !take_digits_app in H by lia.
  rewrite !Z.mul_0_l, !Z.add_0_l in H. rewrite <- !app_comm_cons, !take_digits_colon in H.
  injection H as Hl H. apply app_inj_1 in H; [done|lia].
Qed.

Lemma identifier_inj a b x y : size_fits (normalized_ a) -> size_fits (normalized_ b) ->
  encode_identifier a ++ x = encode_identifier b ++ y -> normalized_ a = normalized_ b /\ x = y.
Proof. apply component_inj. Qed.

(** ** The upper bound of a prefix *)

Lemma strip_ff_snoc l c : strip_ff (l ++ [c]) =
  match strip_ff l with [] => strip_ff [c] | l' => l' ++ [c] end.
Proof. induction l as [|d l IH]; simpl; [done|]. by case_bool_decide. Qed.

Lemma prefix_end_cons c p : prefix_end (c :: p) =
  match prefix_end p with
  | [] => if bool_decide (c = xff) then [] else [byte_of_N (Byte.to_N c + 1)]
  | e => c :: e
  end.
Proof.
  unfold prefix_end. rewrite reverse_cons, strip_ff_snoc.
  destruct (strip_ff (reverse p)) as [|b r]; simpl; [by case_bool_decide|].
  rewrite !reverse_cons, reverse_app. simpl. by destruct (reverse r).
Qed.

Lemma prefix_end_nil p k : prefix_end p = [] -> bytes_ltb k p = false -> p `prefix_of` k.
Proof.
  revert k. induction p as [|c p IH]; intros k Hp Hk; [by apply prefix_nil|].
  rewrite prefix_end_cons in Hp. destruct (prefix_end p); [|done]. case_bool_decide; [|done]. subst.
  destruct k as [|d k]; [done|]. simpl in Hk. pose proof (byte_to_N_lt d).
  repeat case_match; boolify; try done; [lia|].
  assert (d = xff) as -> by (apply byte_to_N_inj; simpl; lia).
  apply prefix_cons, IH; done.
Qed.

Lemma succ_byte c : c <> xff -> Byte.to_N (byte_of_N (Byte.to_N c + 1)) = (Byte.to_N c + 1)%N.
Proof.
  intros Hc. rewrite to_N_byte_of_N. pose proof (byte_to_N_lt c). apply N.mod_small.
  assert (Byte.to_N c <> 255)%N; [|lia]. contradict Hc. by apply byte_to_N_inj.
Qed.

(** The interval [[p, prefix_end p)] holds exactly the keys that start with [p]. *)
Lemma prefix_interval p k : prefix_end p <> [] ->
  (p `prefix_of` k <-> bytes_ltb k p = false /\ bytes_ltb k (prefix_end p) = true).
Proof.
  revert k. induction p as [|c p IH]; intros k Hne; [done|].
  rewrite prefix_end_cons in *. destruct k as [|d k].
  { split; [by intros [z Hz]|by intros []]. }
  transitivity (d = c /\ p `prefix_of` k).
  { split; [intros H; split; [symmetry; by eapply prefix_cons_inv_1|by eapply prefix_cons_inv_2]|].
    intros [-> H]. by apply prefix_cons. }
  destruct (decide (d = c)) as [->|Hdc].
  - destruct (prefix_end p) as [|e0 e] eqn:Ep.
    + case_bool_decide as Hc; [done|]. simpl. rewrite N.ltb_irrefl, (succ_byte c) by done.
      destruct (N.ltb_spec (Byte.to_N c) (Byte.to_N c + 1)); [|lia].
      split; [|intros [H1 _]; split; [done|]; by apply prefix_end_nil].
      intros [_ [z ->]]. split; [|done].
      rewrite <- (app_nil_r p) at 2. by rewrite bytes_ltb_app_common, bytes_ltb_nil_r.
    + cbn [bytes_ltb]. rewrite N.ltb_irrefl. rewrite (IH k ltac:(done)). tauto.
  - split; [tauto|]. intros [H1 H2]. exfalso. apply Hdc.
    assert (Byte.to_N d <> Byte.to_N c) as Hn by (intros H; by apply Hdc, byte_to_N_inj).
    destruct (prefix_end p) as [|e0 e].
    + case_bool_decide as Hc; [done|]. simpl in H1, H2. rewrite (succ_byte c) in H2 by done.
      repeat case_match; boolify; try done; try lia. by rewrite bytes_ltb_nil_r in H2.
    + simpl in H1, H2. repeat case_match; boolify; try done; lia.
Qed.

(** A prefix that ends in a slash has an upper bound. *)
Lemma slash_prefix_end p : prefix_end (p ++ str "/") <> [].
Proof.
  unfold prefix_end. rewrite reverse_app. simpl. intros H. apply (f_equal length) in H. by rewrite length_reverse in H.
Qed.
Lemma data_prefix_end db table : prefix_end (data_prefix db table) <> [].
Proof. unfold data_prefix. rewrite !app_assoc. apply slash_prefix_end. Qed.
Lemma db_schema_prefix_end db : prefix_end (db_schema_prefix db) <> [].
Proof. unfold db_schema_prefix. rewrite app_assoc. apply slash_prefix_end. Qed.
Lemma db_data_prefix_end db : prefix_end (db_data_prefix db) <> [].
Proof. unfold db_data_prefix. rewrite app_assoc. apply slash_prefix_end. Qed.
Lemma table_stats_prefix_end db : prefix_end (table_stats_prefix db) <> [].
Proof. unfold table_stats_prefix. rewrite app_assoc. apply slash_prefix_end. Qed.

(** ** Tables do not share keys *)

Definition same_name (a b : Identifier) : Prop := normalized_ a = normalized_ b.
Definition name_ok (i : Identifier) : Prop := size_fits (normalized_ i).

Lemma prefix_of_app_common (p a b : bytes) : (p ++ a) `prefix_of` (p ++ b) <-> a `prefix_of` b.
Proof. split; [apply prefix_app_inv|apply prefix_app]. Qed.

Lemma data_prefix_inj db1 t1 db2 t2 x y :
  name_ok db1 -> name_ok db2 -> name_ok t1 -> name_ok t2 ->
  data_prefix db1 t1 ++ x = data_prefix db2 t2 ++ y ->
  same_name db1 db2 /\ same_name t1 t2 /\ x = y.
Proof.
  intros Hd1 Hd2 Ht1 Ht2. unfold data_prefix. rewrite <- !app_assoc. intros H.
  apply app_inv_head in H. apply identifier_inj in H as [Hd H]; [|done|done].
  apply app_inv_head in H. apply identifier_inj in H as [Ht H]; [|done|done].
  apply app_inv_head in H. done.
Qed.

(** Tables do not interfere. The physical interval [data_prefix ..
    prefix_end) that a scan, a truncation or a drop of a table covers contains
    exactly the keys that start with the table's prefix; it contains the data
    key of a row of a table exactly when database and table have (up to case)
    the same names, however the names are chosen; the keys of two rows are equal
    only when they belong to one table and carry the same primary-key encoding;
    and no data key is a system key. *)
Theorem tables_disjoint db1 t1 db2 t2 v1 v2 ty1 ty2 k :
  name_ok db1 -> name_ok db2 -> name_ok t1 -> name_ok t2 ->
  let p := data_prefix db1 t1 in
  let row1 := data_key db1 t1 v1 ty1 in
  let row2 := data_key db2 t2 v2 ty2 in
  (p `prefix_of` k <-> bytes_ltb k p = false /\ bytes_ltb k (prefix_end p) = true) /\
  (p `prefix_of` row2 <-> same_name db1 db2 /\ same_name t1 t2) /\
  (row1 = row2 -> same_name db1 db2 /\ same_name t1 t2 /\ to_column_key v1 ty1 = to_column_key v2 ty2) /\
  is_system_key row1 = false.
Proof.
  intros Hd1 Hd2 Ht1 Ht2 p row1 row2. split_and!.
  - apply prefix_interval, data_prefix_end.
  - split.
    + intros [z Hz]. unfold row2, data_key, p in Hz.
      apply data_prefix_inj in Hz as (? & ? & _); done.
    + intros [Hd Ht]. exists (to_column_key v2 ty2). unfold row2, data_key, p, data_prefix.
      unfold encode_identifier. by rewrite Hd, Ht.
  - by apply data_prefix_inj.
  - unfold is_system_key, row1, data_key, data_prefix. rewrite andb_false_iff. right.
    rewrite <- !app_assoc. unfold bytes_eqb. apply bool_decide_eq_false_2. intros H.
    apply (f_equal (fun l => take 2 l)) in H. rewrite take_take in H. discriminate.
Qed.

Lemma tables_disjoint_witness :
  let i s := identifier (bytes_of_string s) in
  ~ data_prefix (i "a") (i "b") `prefix_of` data_key (i "a/1:b") (i "c") (VInt I_INT 1) INT.
Proof.
  intros i H.
  destruct (tables_disjoint (i "a") (i "b") (i "a/1:b") (i "c") VNull (VInt I_INT 1) INT INT [])
    as (_ & Hp & _); [vm_compute; reflexivity..|].
  apply Hp in H as [H _]. vm_compute in H. discriminate.
Defined.
