(* ===== verification/KvApi.v ===== *)
(** * What the relation layer uses of a storage engine

    The part of the [KVEngine] and [Iterator] interfaces of
    [storage/kv_engine/kv_engine.h] that tables and the catalog call, as
    classes of operations, and what they rely on, as a class of laws: a
    connection stands for an ordered map ([kv_view]) that its reads report and
    its writes update, or leave alone when they fail. A connection of the
    in-memory engine satisfies the laws, inside and outside a transaction. *)

From S2P Require Import Prelude Bytes OMap KvTypes TxBuffer MockStore MergingIterator MockEngine Transactions.

Class ScanIterator (I : Type) := {
  si_valid : I -> bool;
  si_value : I -> ByteValue;
  si_status : I -> Status;
  si_next : I -> I;
  si_seek_to_first : I -> I }.

Class KVEngine (E I : Type) := {
  kv_is_open : E -> bool;
  kv_last_error : E -> Status;
  kv_get : Key -> E -> result Status ByteValue;
  kv_exists : Key -> E -> bool;
  kv_put : Key -> ByteValue -> E -> E * Status;
  kv_remove : Key -> E -> E * Status;
  kv_write_batch : WriteBatch -> E -> E * Status;
  kv_new_iterator : KvTypes.KeyRange -> E -> option I }.

(** A status that ends a scan normally, and one that reports a deletion done. *)
Definition benign (st : Status) : bool := bool_decide (st = StOK) || bool_decide (st = StNotFound).

Definition range_batch (b e : Key) : WriteBatch := batch_remove_range b e empty_batch.

Definition rows_in (r : KvTypes.KeyRange) (m : omap ByteValue) : omap ByteValue :=
  scan_order (direction r) (filter (fun p => range_contains r p.1 = true) m).

(** [kv_ready]: the connection is open and the last thing it read is current;
    [kv_scannable]: iterators over the range agree with the reads; [kv_shows it
    rows]: the iterator is on the first of [rows], with the rest to come. *)
Class KVEngineLaws (E I : Type) `{!ScanIterator I, !KVEngine E I} := {
  kv_ready : E -> Prop;
  kv_view : E -> omap ByteValue;
  kv_scannable : E -> KvTypes.KeyRange -> Prop;
  kv_shows : I -> list (Key * ByteValue) -> Prop;
  kv_ready_open : forall e, kv_ready e -> kv_is_open e = true;
  kv_view_sorted : forall e, kv_ready e -> sorted (kv_view e);
  kv_get_view : forall k e, kv_ready e -> kv_get k e = result_of (mfind k (kv_view e));
  kv_exists_view : forall k e, kv_ready e ->
    kv_exists k e = match mfind k (kv_view e) with Some _ => true | None => false end;
  kv_put_view : forall k v e e' st, kv_ready e -> kv_put k v e = (e', st) ->
    kv_ready e' /\ kv_view e' = if bool_decide (st = StOK) then minsert k v (kv_view e) else kv_view e;
  kv_remove_view : forall k e e' st, kv_ready e -> kv_remove k e = (e', st) ->
    kv_ready e' /\ kv_view e' = if benign st then merase k (kv_view e) else kv_view e;
  kv_range_view : forall b f e e' st, kv_ready e -> bytes_ltb b f = true ->
    kv_write_batch (range_batch b f) e = (e', st) ->
    kv_ready e' /\ kv_view e' = if bool_decide (st = StOK) then erase_range b f (kv_view e) else kv_view e;
  kv_put_scannable : forall k v e e' st r, kv_ready e -> kv_put k v e = (e', st) -> kv_scannable e r -> kv_scannable e' r;
  kv_iterator_view : forall r e, kv_ready e -> kv_scannable e r ->
    exists it, kv_new_iterator r e = Some it /\ kv_shows it (rows_in r (kv_view e));
  kv_shows_end : forall it, kv_shows it [] -> si_valid it = false /\ benign (si_status it) = true;
  kv_shows_row : forall it k v rows, kv_shows it ((k, v) :: rows) ->
    si_valid it = true /\ si_value it = v /\ kv_shows (si_next it) rows }.

(** ** Connections of the in-memory engine *)

(** A connection as its caller sees it: its identity, the store it is connected
    to and its own state. *)
Record Conn := mkConn { c_self : nat; c_store : MockStore; c_eng : MockEngine }.

Definition conn_lift (c : Conn) (r : MockStore * MockEngine * Status) : Conn * Status :=
  let '(s, e, st) := r in (mkConn (c_self c) s e, st).

#[export] Instance EngineIterator_scan : ScanIterator EngineIterator := {|
  si_valid it := match it with Plain i => mi_valid i | Merged m => mg_valid m end;
  si_value it := match it with Plain i => mi_value i | Merged m => mg_value m end;
  si_status it := match it with Plain i => mi_status i | Merged m => mg_status m end;
  si_next it := match it with Plain i => Plain (mi_next i) | Merged m => Merged (mg_next m) end;
  si_seek_to_first it :=
    match it with Plain i => Plain (mi_seek_to_first i) | Merged m => Merged (mg_seek_to_first m) end |}.

(** The base class's [last_error] answers OK. *)
#[export] Instance Conn_engine : KVEngine Conn EngineIterator := {|
  kv_is_open c := is_open_ (c_store c);
  kv_last_error c := StOK;
  kv_get k c := eng_get k (c_store c) (c_eng c);
  kv_exists k c := eng_exists k (c_store c) (c_eng c);
  kv_put k v c := conn_lift c (eng_put (c_self c) k v (c_store c) (c_eng c));
  kv_remove k c := conn_lift c (eng_remove (c_self c) k (c_store c) (c_eng c));
  kv_write_batch b c := conn_lift c (eng_write_batch (c_self c) b (c_store c) (c_eng c));
  kv_new_iterator r c := eng_new_iterator r (c_store c) (c_eng c) |}.

(** What the connection reads. *)
Definition conn_view (c : Conn) : omap ByteValue :=
  match tx_ (c_eng c) with
  | None => base_data (c_store c) (c_eng c)
  | Some t => fold_left apply_op (log_ t) (base_data (c_store c) (c_eng c))
  end.

(** The connection reads the current data of the store: nobody committed since
    its snapshot, or it holds the write slot. *)
Record conn_ready (c : Conn) : Prop := {
  cr_open : is_open_ (c_store c) = true;
  cr_sorted : sorted (data_ (c_store c));
  cr_base : base_data (c_store c) (c_eng c) = data_ (c_store c);
  cr_tx : forall t, tx_ (c_eng c) = Some t -> tx_inv t /\ log_valid t;
  cr_idle : tx_ (c_eng c) = None -> snapshot_ (c_eng c) = None }.

Definition conn_scannable (c : Conn) (r : KvTypes.KeyRange) : Prop :=
  forall t, tx_ (c_eng c) = Some t -> ranges_expanded t (base_data (c_store c) (c_eng c)) r.

Definition conn_shows (it : EngineIterator) (rows : list (Key * ByteValue)) : Prop :=
  match it with
  | Plain i => mi_wf i /\ mi_rest i = rows
  | Merged m => mg_shows m rows /\ benign (mi_status (mg_db m)) = true
  end.

Lemma conn_view_sorted c : conn_ready c -> sorted (conn_view c).
Proof.
  intros [Ho Hs Hb Ht _]. unfold conn_view. rewrite Hb. destruct (tx_ (c_eng c)) as [t|]; [|done].
  destruct (Ht t eq_refl) as [_ Hl]. by destruct (find_apply_ops (log_ t) (data_ (c_store c)) [] Hs Hl).
Qed.

Lemma conn_view_lookup c k t : conn_ready c -> tx_ (c_eng c) = Some t ->
  mfind k (conn_view c) = tx_view t (base_data (c_store c) (c_eng c)) k.
Proof.
  intros [Ho Hs Hb Ht _] Et. unfold conn_view, tx_view. rewrite Et, Hb. destruct (Ht t Et) as [Hi Hl].
  destruct (find_apply_ops (log_ t) (data_ (c_store c)) k Hs Hl) as [_ ->].
  by rewrite (inv_lookup _ Hi).
Qed.

(** ** Writes *)

(** A buffered write appends one operation to the log. *)
Lemma buffered_view c w t o s' e' st :
  conn_ready c -> tx_ (c_eng c) = Some t -> log_ (w t) = log_ t ++ [o] -> tx_inv (w t) ->
  op_invalid o = false ->
  buffered (c_self c) w t (c_store c) (c_eng c) = (s', e', st) ->
  conn_ready (mkConn (c_self c) s' e') /\
  conn_view (mkConn (c_self c) s' e') =
    if bool_decide (st = StOK) then apply_op (conn_view c) o else conn_view c.
Proof.
  intros Hr Et Hlog Hinv Ho Hb.
  assert (Hlv : log_valid (w t)).
  { destruct (cr_tx _ Hr t Et) as [_ Hl]. unfold log_valid in *. rewrite Hlog, existsb_app, Hl. simpl.
    by rewrite Ho. }
  assert (Hgen : forall s1 e1, data_ s1 = data_ (c_store c) -> is_open_ s1 = true ->
    base_data s1 e1 = data_ s1 ->
    let c' := mkConn (c_self c) s1 (mkMockEngine (Some (w t)) (snapshot_ e1) (write_slot_ e1)) in
    conn_ready c' /\ conn_view c' = apply_op (conn_view c) o).
  { intros s1 e1 Hd1 Ho1 Hb1. unfold base_data in Hb1. split.
    - split; simpl; [done|by rewrite Hd1; apply Hr|done| |done]. by intros ? [= <-].
    - unfold conn_view. rewrite Et. simpl. rewrite Hlog, fold_left_app. simpl. unfold base_data at 1. simpl.
      by rewrite Hb1, Hd1, (cr_base _ Hr). }
  unfold buffered, ensure_write_slot in Hb. destruct (write_slot_ (c_eng c)) eqn:Ew.
  { injection Hb as <- <- <-. apply Hgen; [done|apply Hr|apply Hr]. }
  unfold eng_acquire_write_slot in Hb. rewrite Ew, (cr_open _ Hr) in Hb. simpl in Hb.
  destruct (acquire_cases (c_self c) (c_store c) (cr_open _ Hr)) as [[Ha _]|[Ha _]]; rewrite Ha in Hb.
  - injection Hb as <- <- <-.
    apply (Hgen (set_owner (Some (c_self c)) (c_store c)) (mkMockEngine (tx_ (c_eng c)) None true));
      [done|apply Hr|done].
  - injection Hb as <- <- <-. simpl. by destruct c.
Qed.

(** A write outside a transaction. *)
Lemma autocommit_view c op s' e' st :
  conn_ready c -> tx_ (c_eng c) = None ->
  (forall s s1 st1, op s = (s1, st1) -> is_open_ s = true -> sorted (data_ s) ->
     is_open_ s1 = true /\ sorted (data_ s1)) ->
  autocommit (c_self c) op (c_store c) (c_eng c) = (s', e', st) ->
  conn_ready (mkConn (c_self c) s' e') /\
  (conn_view (mkConn (c_self c) s' e') = conn_view c /\ st = StBusy \/
   exists s1, op (set_owner (Some (c_self c)) (c_store c)) = (s1, st) /\
     conn_view (mkConn (c_self c) s' e') = data_ s1).
Proof.
  intros Hr Et Hop Ha. pose proof (cr_idle _ Hr Et) as Hsn. unfold autocommit in Ha.
  destruct (acquire_cases (c_self c) (c_store c) (cr_open _ Hr)) as [[Hc _]|[Hc _]]; rewrite Hc in Ha.
  - destruct (op _) as [s1 st1] eqn:Eo. injection Ha as <- <- <-.
    destruct (Hop _ _ _ Eo (cr_open _ Hr) (cr_sorted _ Hr)) as [Ho1 Hs1].
    destruct (release_data (c_self c) s1) as (Hd & Hop1 & _).
    assert (Hb : base_data (store_release_write_slot (c_self c) s1).1 (c_eng c) = data_ s1)
      by (unfold base_data; by rewrite Hsn, Hd).
    split; [|right; exists s1; split; [done|unfold conn_view; simpl; by rewrite Et]].
    split; simpl; [by rewrite Hop1|by rewrite Hd|by rewrite Hb, Hd| |done]. intros t Ht. by rewrite Et in Ht.
  - injection Ha as <- <- <-. destruct c. by split; [|left].
Qed.

Lemma merase_absent {V} k (m : omap V) : sorted m -> mfind k m = None -> merase k m = m.
Proof.
  intros Hs Hk. apply omap_ext; [by apply msorted_erase|done|]. intros k'.
  destruct (decide (k' = k)) as [->|]; [by rewrite mfind_erase_eq|by apply mfind_erase_ne].
Qed.

Lemma conn_put_view k v c c' st : conn_ready c ->
  conn_lift c (eng_put (c_self c) k v (c_store c) (c_eng c)) = (c', st) ->
  conn_ready c' /\ conn_view c' = if bool_decide (st = StOK) then minsert k v (conn_view c) else conn_view c.
Proof.
  intros Hr. unfold conn_lift, eng_put. rewrite (cr_open _ Hr). simpl.
  destruct (tx_ (c_eng c)) as [t|] eqn:Et.
  - destruct (buffered _ _ _ _ _) as [[s' e'] st'] eqn:Eb. intros [= <- <-].
    by apply (buffered_view c (tx_put k v) t (mkOp kPut (mkKVPair k (Some v)) []));
      [| | |apply tx_inv_put, (cr_tx _ Hr)| |].
  - destruct (autocommit _ _ _ _) as [[s' e'] st'] eqn:Ea. intros [= <- <-].
    destruct (autocommit_view c (store_put k v) s' e' st' Hr Et) as [Hr' Hv]; [|done|].
    { intros s s1 st1 Hp Ho Hs. unfold store_put in Hp. rewrite Ho in Hp. injection Hp as <- <-. simpl.
      split; [done|by apply msorted_insert]. }
    split; [done|]. destruct Hv as [[-> ->]|(s1 & Hp & ->)]; [done|].
    unfold store_put in Hp. simpl in Hp. rewrite (cr_open _ Hr) in Hp. injection Hp as <- <-. simpl.
    unfold conn_view. by rewrite Et, (cr_base _ Hr).
Qed.

(** What a put does to the data below the transaction. *)
Lemma conn_put_base k v c c' st : conn_ready c ->
  conn_lift c (eng_put (c_self c) k v (c_store c) (c_eng c)) = (c', st) ->
  let base c := base_data (c_store c) (c_eng c) in base c' = base c \/ base c' = minsert k v (base c).
Proof.
  intros Hr Hp base. pose proof (conn_put_view k v c c' st Hr Hp) as [_ Hv]. revert Hp.
  unfold conn_lift, eng_put. rewrite (cr_open _ Hr). cbn [negb]. destruct (tx_ (c_eng c)) as [t|] eqn:Et.
  - intros Hp. left. unfold buffered, ensure_write_slot in Hp. destruct (write_slot_ (c_eng c)) eqn:Ew.
    { by injection Hp as <- <-. }
    unfold eng_acquire_write_slot in Hp. rewrite Ew, (cr_open _ Hr) in Hp. cbn in Hp. unfold base. rewrite (cr_base _ Hr).
    destruct (acquire_cases (c_self c) (c_store c) (cr_open _ Hr)) as [[Ha _]|[Ha _]]; rewrite Ha in Hp; injection Hp as <- <-;
      [done|apply Hr].
  - intros Hp. assert (Htx : tx_ (c_eng c') = None).
    { unfold autocommit in Hp. destruct (store_acquire_write_slot _ _) as [s1 []]; [destruct (store_put _ _ _)|..]; by injection Hp as <- <-. }
    unfold conn_view in Hv. rewrite Et, Htx in Hv. destruct (bool_decide _); [by right|by left].
Qed.

(** A key written by the transaction is answered by its overlay. *)
Lemma conn_put_scannable k v c c' st r : conn_ready c ->
  conn_lift c (eng_put (c_self c) k v (c_store c) (c_eng c)) = (c', st) -> conn_scannable c r -> conn_scannable c' r.
Proof.
  intros Hr. unfold conn_lift, eng_put, conn_scannable. rewrite (cr_open _ Hr). cbn [negb].
  destruct (tx_ (c_eng c)) as [t|] eqn:Et.
  2:{ unfold autocommit. destruct (store_acquire_write_slot _ _) as [s1 []]; [destruct (store_put _ _ _)|..];
      intros [= <- <-] _ t'; cbn; by rewrite Et. }
  intros Hp Hsc. specialize (Hsc t eq_refl). pose proof (inv_sorted _ (proj1 (cr_tx _ Hr t Et))) as Hst. unfold buffered, ensure_write_slot in Hp.
  assert (Hgen : forall s1 e1, base_data s1 e1 = base_data (c_store c) (c_eng c) -> forall t',
    Some (tx_put k v t) = Some t' -> ranges_expanded t' (base_data s1 e1) r).
  { intros s1 e1 -> t' [= <-] k' v' Hin Hk Hv. unfold tx_put in Hv. cbn [view_] in Hv.
    destruct (decide (k' = k)) as [->|Hne]; [by rewrite mfind_insert_eq in Hv|].
    rewrite mfind_insert_ne in Hv by done. pose proof (Hsc k' v' Hin Hk Hv) as Hl. unfold tx_lookup, tx_put in *.
    cbn [view_ range_deletes_]. by rewrite mfind_insert_ne. }
  destruct (write_slot_ (c_eng c)) eqn:Ew.
  { injection Hp as <- <-. by apply (Hgen (c_store c) (mkMockEngine (Some (tx_put k v t)) (snapshot_ (c_eng c)) true)). }
  unfold eng_acquire_write_slot in Hp. rewrite Ew, (cr_open _ Hr) in Hp. cbn in Hp.
  destruct (acquire_cases (c_self c) (c_store c) (cr_open _ Hr)) as [[Ha _]|[Ha _]]; rewrite Ha in Hp; injection Hp as <- <-; cbn.
  - apply (Hgen (set_owner (Some (c_self c)) (c_store c)) (mkMockEngine (Some (tx_put k v t)) None true)). by rewrite (cr_base _ Hr).
  - intros t' Ht'. rewrite Et in Ht'. by injection Ht' as <-.
Qed.

Lemma conn_remove_view k c c' st : conn_ready c ->
  conn_lift c (eng_remove (c_self c) k (c_store c) (c_eng c)) = (c', st) ->
  conn_ready c' /\ conn_view c' = if benign st then merase k (conn_view c) else conn_view c.
Proof.
  intros Hr. unfold conn_lift, eng_remove. rewrite (cr_open _ Hr). simpl.
  destruct (tx_ (c_eng c)) as [t|] eqn:Et.
  - destruct (buffered _ _ _ _ _) as [[s' e'] st'] eqn:Eb. intros [= <- <-].
    destruct (buffered_view c (tx_remove k) t (mkOp kRemove (mkKVPair k None) []) s' e' st')
      as [Hr' Hv]; [done|done|done|by apply tx_inv_remove, (cr_tx _ Hr)|done|done|].
    split; [done|]. rewrite Hv. unfold benign.
    assert (st' <> StNotFound) as Hn.
    { unfold buffered, ensure_write_slot, eng_acquire_write_slot in Eb. intros ->.
      destruct (write_slot_ (c_eng c)); [done|]. rewrite (cr_open _ Hr) in Eb. simpl in Eb.
      destruct (acquire_cases (c_self c) (c_store c) (cr_open _ Hr)) as [[Ha _]|[Ha _]];
        rewrite Ha in Eb; done. }
    rewrite (bool_decide_eq_false_2 _ Hn), orb_false_r. done.
  - destruct (autocommit _ _ _ _) as [[s' e'] st'] eqn:Ea. intros [= <- <-].
    destruct (autocommit_view c (store_remove k) s' e' st' Hr Et) as [Hr' Hv]; [|done|].
    { intros s s1 st1 Hp Ho Hs. unfold store_remove in Hp. rewrite Ho in Hp. simpl in Hp.
      destruct (mfind k (data_ s)); injection Hp as <- <-; [|done]. split; [done|by apply msorted_erase]. }
    split; [done|]. destruct Hv as [[-> ->]|(s1 & Hp & ->)]; [done|].
    unfold store_remove in Hp. simpl in Hp. rewrite (cr_open _ Hr) in Hp. simpl in Hp.
    unfold conn_view. rewrite Et, (cr_base _ Hr).
    destruct (mfind k (data_ (c_store c))) eqn:Ef; injection Hp as <- <-; [done|].
    simpl. rewrite merase_absent; [done|apply Hr|done].
Qed.

Lemma conn_range_view b f c c' st : conn_ready c -> bytes_ltb b f = true ->
  conn_lift c (eng_write_batch (c_self c) (range_batch b f) (c_store c) (c_eng c)) = (c', st) ->
  conn_ready c' /\
  conn_view c' = if bool_decide (st = StOK) then erase_range b f (conn_view c) else conn_view c.
Proof.
  intros Hr Hbf. assert (Hv : op_invalid (mkOp kRemoveRange (mkKVPair b None) f) = false).
  { unfold op_invalid, bytes_leb. simpl. by rewrite Hbf. }
  unfold conn_lift, eng_write_batch. rewrite (cr_open _ Hr). simpl.
  destruct (tx_ (c_eng c)) as [t|] eqn:Et.
  - destruct (buffered _ _ _ _ _) as [[s' e'] st'] eqn:Eb. intros [= <- <-].
    by apply (buffered_view c (fun t => fold_left tx_batch_op (ops (range_batch b f)) t) t
      (mkOp kRemoveRange (mkKVPair b None) f)); [| | |apply tx_inv_remove_range, (cr_tx _ Hr)| |].
  - destruct (autocommit _ _ _ _) as [[s' e'] st'] eqn:Ea. intros [= <- <-].
    destruct (autocommit_view c (store_write_batch (range_batch b f)) s' e' st' Hr Et) as [Hr' Hw]; [|done|].
    { intros s s1 st1 Hp Ho Hs. unfold store_write_batch, apply_batch_locked in Hp. rewrite Ho in Hp. simpl in Hp.
      destruct (fail_writes_ s); [by injection Hp as <- <-|]. rewrite Hv in Hp. simpl in Hp.
      injection Hp as <- <-. split; [done|]. by apply (sorted_apply_op _ _ Hs Hv). }
    split; [done|]. destruct Hw as [[-> ->]|(s1 & Hp & ->)]; [done|].
    unfold store_write_batch, apply_batch_locked in Hp. simpl in Hp. rewrite (cr_open _ Hr) in Hp. simpl in Hp.
    unfold conn_view. rewrite Et, (cr_base _ Hr).
    destruct (fail_writes_ (c_store c)); [by injection Hp as <- <-|]. rewrite Hv in Hp. simpl in Hp.
    injection Hp as <- <-. done.
Qed.

(** ** Reads and scans *)

Lemma conn_get_view k c : conn_ready c -> eng_get k (c_store c) (c_eng c) = result_of (mfind k (conn_view c)).
Proof.
  intros Hr. destruct (tx_ (c_eng c)) as [t|] eqn:Et.
  - rewrite (eng_get_tx k _ _ t) by (done || apply Hr). by rewrite (conn_view_lookup c k t).
  - rewrite eng_get_no_tx by (done || apply Hr). unfold conn_view. by rewrite Et.
Qed.

Lemma conn_exists_view k c : conn_ready c ->
  eng_exists k (c_store c) (c_eng c) = match mfind k (conn_view c) with Some _ => true | None => false end.
Proof.
  intros Hr. unfold eng_exists, store_exists. rewrite (cr_open _ Hr). simpl.
  destruct (tx_ (c_eng c)) as [t|] eqn:Et.
  - rewrite (conn_view_lookup c k t) by done. unfold tx_view, base_data.
    destruct (tx_lookup k t); simpl; try done. by destruct (snapshot_ (c_eng c)), (mfind k _).
  - unfold conn_view, base_data. rewrite Et. by destruct (snapshot_ (c_eng c)), (mfind k _).
Qed.

(** The database side of a merging iterator only moves forward. *)
Lemma settle_db (P : MockIterator -> Prop) fuel (m : MergingIterator MockIterator) :
  (forall i, P i -> P (mi_next i)) -> P (mg_db m) -> P (mg_db (settle_fuel fuel m)).
Proof.
  intros HP. revert m. induction fuel as [|fuel IH]; intros m Hm; [done|]. cbn [settle_fuel].
  repeat case_match; try done; apply IH; simpl; try done. by apply HP.
Qed.

Lemma mi_status_benign i : benign (mi_status i) = true -> benign (mi_status (mi_next i)) = true.
Proof. intros Hi. unfold mi_next. case_match; [done|]. simpl. by repeat case_match. Qed.

Lemma mi_wf_benign i : mi_wf i -> benign (mi_status i) = true.
Proof. intros (_ & _ & ->). by case_match. Qed.

Lemma conn_iterator_view r c : conn_ready c -> conn_scannable c r ->
  exists it, eng_new_iterator r (c_store c) (c_eng c) = Some it /\ conn_shows it (rows_in r (conn_view c)).
Proof.
  intros Hr Hsc. pose proof (cr_base _ Hr) as Hb. unfold rows_in.
  assert (Hs : sorted (base_data (c_store c) (c_eng c))) by (rewrite Hb; apply Hr).
  set (i := mock_iterator (materialize (base_data (c_store c) (c_eng c)) r) r).
  assert (Hi : mi_wf i) by (by apply mock_iterator_wf).
  unfold eng_new_iterator. rewrite (cr_open _ Hr). simpl.
  assert ((match snapshot_ (c_eng c) with
           | Some d => Some (mock_iterator (materialize d r) r)
           | None => store_new_iterator r (c_store c) end) = Some i) as ->.
  { unfold store_new_iterator, i, base_data. rewrite (cr_open _ Hr). simpl. by destruct (snapshot_ (c_eng c)). }
  unfold conn_view. destruct (tx_ (c_eng c)) as [t|] eqn:Et.
  - destruct (cr_tx _ Hr t Et) as [Hinv Hlv]. eexists. split; [done|]. simpl. split.
    + destruct (mg_inv_initial _ t r Hs Hinv) as [Hm Hpend].
      rewrite <- (merge_is_commit _ t r) by (done || by apply Hsc). rewrite <- Hpend. by apply settle_shows.
    + apply (settle_db (fun i => benign (mi_status i) = true)); [apply mi_status_benign|].
      by apply mi_wf_benign.
  - eexists. split; [done|]. simpl. split; [done|]. by apply mock_iterator_rest.
Qed.

Lemma conn_shows_row it k v rows : conn_shows it ((k, v) :: rows) ->
  si_valid it = true /\ si_value it = v /\ conn_shows (si_next it) rows.
Proof.
  destruct it as [i|m]; simpl.
  - intros [Hw Hr]. destruct (mi_current i k v rows Hw Hr) as (_ & Hval & Hn).
    rewrite mi_valid_rest, Hr by done. split_and!; [done|done| |done].
    unfold mi_next. case_match; [done|]. by apply mi_wf_goto.
  - intros [Hs Hb]. pose proof (mg_next_shows _ _ _ _ Hs) as Hn. destruct Hs as (Hv & _ & Hval & _).
    unfold mg_value. rewrite Hv. split_and!; [done|done|done|].
    unfold mg_next. rewrite Hv. simpl. apply (settle_db (fun i => benign (mi_status i) = true));
      [apply mi_status_benign|]. simpl. case_match; [by apply mi_status_benign|done].
Qed.

Lemma conn_shows_end it : conn_shows it [] -> si_valid it = false /\ benign (si_status it) = true.
Proof.
  destruct it as [i|m]; simpl; [|by intros []]. intros [Hw Hr].
  rewrite mi_valid_rest, Hr by done. split; [done|by apply mi_wf_benign].
Qed.

#[export] Instance Conn_laws : KVEngineLaws Conn EngineIterator.
Proof.
  refine {| kv_ready := conn_ready; kv_view := conn_view; kv_scannable := conn_scannable;
            kv_shows := conn_shows |}.
  - intros c Hc. apply Hc.
  - apply conn_view_sorted.
  - apply conn_get_view.
  - apply conn_exists_view.
  - intros k v c c' st. apply conn_put_view.
  - intros k c c' st. apply conn_remove_view.
  - intros b f c c' st. apply conn_range_view.
  - intros k v c c' st r. apply conn_put_scannable.
  - apply conn_iterator_view.
  - apply conn_shows_end.
  - apply conn_shows_row.
Defined.
