(* ===== verification/Table.v ===== *)
(** * Tables: [relation/table.cpp], [relation/cursor.cpp], [relation/relation_defs.h]

    A table is a view of the key space of one storage connection: where its rows
    are and how they are encoded. Every operation takes the connection. The
    texts of error messages are not modelled, only their codes. *)

From S2P Require Import Prelude Bytes OMap KvTypes Transactions KvApi SqlTypes KeyCodec SqlTruth SqlKeyRange Schema RowCodec KeyPrefix.
Local Open Scope Z_scope.

Inductive RelErrorCode :=
| RE_OK | RE_NOT_OPEN | RE_TABLE_NOT_FOUND | RE_NOT_FOUND | RE_SCHEMA_ERROR | RE_PRIMARY_KEY_NULL
| RE_PRIMARY_KEY_MISMATCH | RE_DUPLICATE_PRIMARY_KEY | RE_COLUMN_NOT_FOUND | RE_KV_ERROR
| RE_NOT_SUPPORTED.

#[export] Instance RelErrorCode_eq_dec : EqDecision RelErrorCode.
Proof. solve_decision. Defined.

Inductive CursorErrorCode :=
| CE_OK | CE_END | CE_NOT_FOUND | CE_SCHEMA_ERROR | CE_CONSTRAINT_VIOLATION
| CE_INVALID_ARGUMENT | CE_IO_ERROR | CE_INTERNAL.

#[export] Instance CursorErrorCode_eq_dec : EqDecision CursorErrorCode.
Proof. solve_decision. Defined.

Definition ce_is_error (c : CursorErrorCode) : bool :=
  negb (bool_decide (c = CE_OK)) && negb (bool_decide (c = CE_END)).

Definition to_cursor_error (e : RelErrorCode) : CursorErrorCode :=
  match e with
  | RE_NOT_FOUND => CE_NOT_FOUND
  | RE_SCHEMA_ERROR => CE_SCHEMA_ERROR
  | RE_DUPLICATE_PRIMARY_KEY => CE_CONSTRAINT_VIOLATION
  | RE_NOT_OPEN | RE_KV_ERROR => CE_IO_ERROR
  | RE_COLUMN_NOT_FOUND | RE_PRIMARY_KEY_NULL | RE_PRIMARY_KEY_MISMATCH | RE_TABLE_NOT_FOUND =>
      CE_INVALID_ARGUMENT
  | _ => CE_INTERNAL
  end.

(** ** [class Table] *)

Record Table := mkTable {
  db_name_ : Identifier; schema_ : TableSchema; key_prefix_ : bytes; primary_key_type_ : DataType }.

Definition table_pk_column (s : TableSchema) : option ColumnDef :=
  if has_primary_key s then primary_key_column s else None.

Definition make_table (db : Identifier) (schema : TableSchema) : Table :=
  mkTable db schema (data_prefix db (schema_name schema))
    (match table_pk_column schema with Some c => col_type c | None => UNKNOWN_TYPE end).

Definition encode_key (t : Table) (primary_key : Value) : bytes :=
  data_key (db_name_ t) (schema_name (schema_ t)) primary_key (primary_key_type_ t).
Definition encode_row (t : Table) (row : Row) : bytes := row_serialize (schema_ t) row.
Definition decode_row (t : Table) (data : bytes) : result RelErrorCode Row :=
  match row_deserialize data (schema_ t) with Ok row => Ok row | Err _ => Err RE_SCHEMA_ERROR end.

(** The primary key of a row: NULL when the row is too short. *)
Definition primary_key_of (t : Table) (row : Row) : Value :=
  let index := primary_key_index_ (schema_ t) in
  if (index <? 0) || (Z.of_nat (length row) <=? index) then VNull
  else default VNull (row !! Z.to_nat index).

Definition physical_start (t : Table) (range : KeyRange) : bytes :=
  key_prefix_ t ++ sr_start (to_str_key_range (primary_key_type_ t) range).
Definition physical_end (t : Table) (range : KeyRange) : bytes :=
  key_prefix_ t ++ sr_end (to_str_key_range (primary_key_type_ t) range).

(** The assignments of a partial update, applied to the row read. *)
Fixpoint assign (s : TableSchema) (assignments : list (Identifier * Value)) (row : Row)
    : result RelErrorCode Row :=
  match assignments with
  | [] => Ok row
  | (col, value) :: rest =>
      let index := column_index col s in
      if index <? 0 then Err RE_COLUMN_NOT_FOUND
      else assign s rest (<[Z.to_nat index := value]> row)
  end.

(** ** [class TableCursor] *)

Record TableCursor (I : Type) := mkTableCursor {
  tc_table : option Table; tc_range : KeyRange; tc_it : option I; open_status_ : Status;
  closed_ : bool; tc_error : CursorErrorCode }.
Arguments mkTableCursor {I}.
Arguments tc_table {I}.
Arguments tc_range {I}.
Arguments tc_it {I}.
Arguments open_status_ {I}.
Arguments closed_ {I}.
Arguments tc_error {I}.

Section Operations.
Context {E I : Type} `{!ScanIterator I, !KVEngine E I}.

Definition find (t : Table) (primary_key : Value) (e : E) : result RelErrorCode Row :=
  if is_null primary_key then Err RE_PRIMARY_KEY_NULL
  else match kv_get (encode_key t primary_key) e with
       | Err StNotFound => Err RE_NOT_FOUND
       | Err _ => Err RE_KV_ERROR
       | Ok data => decode_row t data
       end.

Definition insert (t : Table) (row : Row) (e : E) : E * result RelErrorCode unit :=
  match validate_row (schema_ t) row with
  | SE_OK =>
      let pk := primary_key_of t row in
      if is_null pk then (e, Err RE_PRIMARY_KEY_NULL)
      else
        let key := encode_key t pk in
        if kv_exists key e then (e, Err RE_DUPLICATE_PRIMARY_KEY)
        else match kv_put key (encode_row t row) e with
             | (e', StOK) => (e', Ok tt)
             | (e', _) => (e', Err RE_KV_ERROR)
             end
  | _ => (e, Err RE_SCHEMA_ERROR)
  end.

Definition update_row (t : Table) (primary_key : Value) (row : Row) (e : E)
    : E * result RelErrorCode unit :=
  if is_null primary_key then (e, Err RE_PRIMARY_KEY_NULL)
  else match validate_row (schema_ t) row with
       | SE_OK =>
           if negb (value_eqb (primary_key_of t row) primary_key) then (e, Err RE_PRIMARY_KEY_MISMATCH)
           else match kv_put (encode_key t primary_key) (encode_row t row) e with
                | (e', StOK) => (e', Ok tt)
                | (e', _) => (e', Err RE_KV_ERROR)
                end
       | _ => (e, Err RE_SCHEMA_ERROR)
       end.

Definition update_columns (t : Table) (primary_key : Value) (assignments : list (Identifier * Value))
    (e : E) : E * result RelErrorCode unit :=
  match find t primary_key e with
  | Err c => (e, Err c)
  | Ok current =>
      match assign (schema_ t) assignments current with
      | Err c => (e, Err c)
      | Ok updated => update_row t primary_key updated e
      end
  end.

Definition remove (t : Table) (primary_key : Value) (e : E) : E * result RelErrorCode unit :=
  if is_null primary_key then (e, Err RE_PRIMARY_KEY_NULL)
  else let '(e', st) := kv_remove (encode_key t primary_key) e in
       (e', if benign st then Ok tt else Err RE_KV_ERROR).

Definition truncate (t : Table) (e : E) : E * result RelErrorCode unit :=
  match kv_write_batch (range_batch (key_prefix_ t) (prefix_end (key_prefix_ t))) e with
  | (e', StOK) => (e', Ok tt)
  | (e', _) => (e', Err RE_KV_ERROR)
  end.

Definition physical_range (t : Table) (range : KeyRange) (ascending : bool) : KvTypes.KeyRange :=
  KvTypes.mkKeyRange (Some (physical_start t range)) (Some (physical_end t range)) 0
    (if ascending then kForward else kReverse).

Definition scan (t : Table) (range : KeyRange) (ascending : bool) (e : E) : TableCursor I :=
  let it := kv_new_iterator (physical_range t range ascending) e in
  mkTableCursor (Some t) range it
    (match it with None => kv_last_error e | Some _ => StOK end) false CE_OK.

Definition scan_all (t : Table) (ascending : bool) (e : E) : TableCursor I :=
  scan t (kr_all (primary_key_type_ t)) ascending e.

(** [error_] of a cursor set and returned. *)
Definition cursor_fail (c : CursorErrorCode) (cur : TableCursor I) : TableCursor I * result CursorErrorCode Row :=
  (mkTableCursor (tc_table cur) (tc_range cur) (tc_it cur) (open_status_ cur) (closed_ cur) c, Err c).

Definition cursor_next (cur : TableCursor I) : TableCursor I * result CursorErrorCode Row :=
  if ce_is_error (tc_error cur) then (cur, Err (tc_error cur))
  else if closed_ cur then cursor_fail CE_END cur
  else match tc_table cur with
       | None => cursor_fail CE_END cur
       | Some t =>
           match tc_it cur with
           | None => cursor_fail CE_IO_ERROR cur
           | Some it =>
               if negb (si_valid it) then
                 if benign (si_status it) then cursor_fail CE_END cur else cursor_fail CE_IO_ERROR cur
               else
                 let decoded := decode_row t (si_value it) in
                 let cur' := mkTableCursor (tc_table cur) (tc_range cur) (Some (si_next it))
                               (open_status_ cur) (closed_ cur) (tc_error cur) in
                 match decoded with
                 | Err c => cursor_fail (to_cursor_error c) cur'
                 | Ok row => (cur', Ok row)
                 end
           end
       end.

Definition cursor_close (cur : TableCursor I) : TableCursor I :=
  mkTableCursor (tc_table cur) (tc_range cur) None (open_status_ cur) true
    (if ce_is_error (tc_error cur) then tc_error cur else CE_END).

Definition cursor_reset (cur : TableCursor I) : TableCursor I :=
  mkTableCursor (tc_table cur) (tc_range cur) (si_seek_to_first <$> tc_it cur) (open_status_ cur)
    false CE_OK.

(** The loop of [row_count] over a cursor; the fuel bounds the rows. *)
Fixpoint count_rows (fuel : nat) (cur : TableCursor I) (count : N) : option (result RelErrorCode N) :=
  match fuel with
  | O => None
  | S f =>
      match cursor_next cur with
      | (cur', Ok _) => count_rows f cur' (count + 1)%N
      | (_, Err CE_END) => Some (Ok count)
      | (_, Err CE_SCHEMA_ERROR) => Some (Err RE_SCHEMA_ERROR)
      | (_, Err _) => Some (Err RE_KV_ERROR)
      end
  end.
Definition row_count (fuel : nat) (t : Table) (e : E) : option (result RelErrorCode N) :=
  count_rows fuel (scan_all t true e) 0.

(** Reading a cursor to the end: the rows, and the code it ended with. *)
Fixpoint drain (fuel : nat) (cur : TableCursor I) : list Row * CursorErrorCode :=
  match fuel with
  | O => ([], CE_OK)
  | S f =>
      match cursor_next cur with
      | (cur', Ok row) => let '(rows, c) := drain f cur' in (row :: rows, c)
      | (_, Err c) => ([], c)
      end
  end.
End Operations.
