(* ===== verification/TableSpec.v ===== *)
(** * Tables refine maps from primary keys to rows

    The abstract specification of a table, the invariant of its stored rows,
    and the theorems that the operations of [relation/table.cpp] implement the
    specification over any storage engine that satisfies the laws of [KvApi]. *)

From S2P Require Import Prelude Bytes OMap KvTypes Transactions KvApi SqlTypes KeyCodec SqlTruth SqlKeyRange Schema RowCodec KeyPrefix Table.
Local Open Scope Z_scope.

(** ** Keys of primary-key values *)

#[export] Instance same_payload_dec a b : Decision (same_payload a b).
Proof. destruct a, b; simpl; apply _. Defined.

Lemma retype_key ty v : to_column_key (retype ty v) ty = to_column_key v ty.
Proof. destruct v as [|t x|b|t s]; simpl; [done| |done|]; by rewrite ?to_column_key_int, ?to_column_key_str. Qed.

Lemma same_payload_key ty a b : same_payload a b -> to_column_key a ty = to_column_key b ty.
Proof.
  destruct a as [|t x|p|t s], b as [|u y|q|u r]; simpl; try done; intros ->;
    by rewrite ?to_column_key_int, ?to_column_key_str.
Qed.

Lemma key_tag ty v : is_null v = false -> head (to_column_key v ty) = Some (tag_of (type_of v)).
Proof. intros Hv. unfold to_column_key. rewrite Hv. by destruct v. Qed.

Lemma key_same_payload ty a b : value_wf a -> value_wf b -> is_null a = false -> is_null b = false ->
  to_column_key a ty = to_column_key b ty -> same_payload a b.
Proof.
  intros Wa Wb Na Nb H.
  assert (Ht : tag_of (type_of b) = tag_of (type_of a)).
  { apply (f_equal head) in H. rewrite !key_tag in H by done. congruence. }
  assert (Hk : to_column_key a (type_of a) = to_column_key b (type_of a)).
  { unfold to_column_key in *. by rewrite Na, Nb in *. }
  apply (f_equal (fun k => from_key k (type_of a))) in Hk.
  rewrite !from_to_key in Hk; [|by split; [|right]..].
  destruct a, b; simpl in Hk; try done; by simplify_eq.
Qed.

Lemma same_payload_refl a : same_payload a a.
Proof. by destruct a. Qed.
Lemma same_payload_sym a b : same_payload a b -> same_payload b a.
Proof. by destruct a, b; simpl. Qed.
Lemma retype_payload ty v : same_payload v (retype ty v).
Proof. by destruct v. Qed.

Lemma is_null_retype ty v : is_null (retype ty v) = is_null v.
Proof. destruct v as [|u x|b|u s]; [done| |done|]; by destruct ty, u. Qed.
Lemma is_null_payload a b : same_payload a b -> is_null a = is_null b.
Proof. destruct a as [|u x|p|u s], b as [|w y|q|w r]; try done; by destruct u, w. Qed.

(** [operator==] on two values of any type implies equal payloads. *)
Lemma value_eqb_payload a b : value_eqb a b = true -> same_payload a b.
Proof.
  unfold value_eqb.
  destruct a as [|t x|p|t s], b as [|u y|q|u r]; try destruct t; try destruct u; simpl; try done;
    intros H; first [by apply Z.eqb_eq in H | by apply eqb_prop in H | by apply bytes_eqb_eq in H].
Qed.

(** ** The abstract table *)

(** Primary keys are compared by payload. *)
Definition amap := Value -> option Row.
Definition amap_empty : amap := fun _ => None.
Definition amap_set (pk : Value) (row : Row) (m : amap) : amap :=
  fun k => if decide (same_payload k pk) then Some row else m k.
Definition amap_delete (pk : Value) (m : amap) : amap :=
  fun k => if decide (same_payload k pk) then None else m k.

Inductive TableOp :=
| OpFind (pk : Value)
| OpInsert (row : Row)
| OpUpdateRow (pk : Value) (row : Row)
| OpUpdateColumns (pk : Value) (assignments : list (Identifier * Value))
| OpRemove (pk : Value)
| OpTruncate.

(** Values passed to the operations hold 64-bit integers. *)
Definition op_values_wf (op : TableOp) : Prop :=
  match op with
  | OpFind pk | OpRemove pk => value_wf pk
  | OpInsert row => Forall value_wf row
  | OpUpdateRow pk row => value_wf pk /\ Forall value_wf row
  | OpUpdateColumns pk l => value_wf pk /\ Forall (fun p => value_wf p.2) l
  | OpTruncate => True
  end.

Definition table_result := result RelErrorCode (option Row).
Definition done_ok (r : result RelErrorCode unit) : table_result :=
  match r with Ok _ => Ok None | Err c => Err c end.

Section Spec.
Context (t : Table).

(** A row as the table stores it. *)
Definition stored (row : Row) : Row := retype_row (columns_ (schema_ t)) row.

(** The outcome of a write of a checked row: done, or refused by the storage. *)
Inductive spec_write (m m' : amap) : table_result -> amap -> Prop :=
| SpecDone : spec_write m m' (Ok None) m'
| SpecRefused : spec_write m m' (Err RE_KV_ERROR) m.

Inductive spec_update (pk : Value) (row : Row) (m : amap) : table_result -> amap -> Prop :=
| SpecUpdateSchema : validate_row (schema_ t) row <> SE_OK ->
    spec_update pk row m (Err RE_SCHEMA_ERROR) m
| SpecUpdateMismatch : validate_row (schema_ t) row = SE_OK -> value_eqb (primary_key_of t row) pk = false ->
    spec_update pk row m (Err RE_PRIMARY_KEY_MISMATCH) m
| SpecUpdate r m' : validate_row (schema_ t) row = SE_OK -> value_eqb (primary_key_of t row) pk = true ->
    spec_write m (amap_set pk (stored row) m) r m' -> spec_update pk row m r m'.

(** What each operation does to the map, and what it answers. *)
Inductive spec_step : TableOp -> amap -> table_result -> amap -> Prop :=
| SpecFindNull pk m : is_null pk = true -> spec_step (OpFind pk) m (Err RE_PRIMARY_KEY_NULL) m
| SpecFindHit pk m row : is_null pk = false -> m pk = Some row ->
    spec_step (OpFind pk) m (Ok (Some row)) m
| SpecFindMiss pk m : is_null pk = false -> m pk = None -> spec_step (OpFind pk) m (Err RE_NOT_FOUND) m
| SpecInsertSchema row m : validate_row (schema_ t) row <> SE_OK ->
    spec_step (OpInsert row) m (Err RE_SCHEMA_ERROR) m
| SpecInsertNull row m : validate_row (schema_ t) row = SE_OK -> is_null (primary_key_of t row) = true ->
    spec_step (OpInsert row) m (Err RE_PRIMARY_KEY_NULL) m
| SpecInsertDuplicate row m old : validate_row (schema_ t) row = SE_OK ->
    is_null (primary_key_of t row) = false -> m (primary_key_of t row) = Some old ->
    spec_step (OpInsert row) m (Err RE_DUPLICATE_PRIMARY_KEY) m
| SpecInsert row m r m' : validate_row (schema_ t) row = SE_OK ->
    is_null (primary_key_of t row) = false -> m (primary_key_of t row) = None ->
    spec_write m (amap_set (primary_key_of t row) (stored row) m) r m' ->
    spec_step (OpInsert row) m r m'
| SpecUpdateRowNull pk row m : is_null pk = true ->
    spec_step (OpUpdateRow pk row) m (Err RE_PRIMARY_KEY_NULL) m
| SpecUpdateRow pk row m r m' : is_null pk = false -> spec_update pk row m r m' ->
    spec_step (OpUpdateRow pk row) m r m'
| SpecColumnsNull pk l m : is_null pk = true ->
    spec_step (OpUpdateColumns pk l) m (Err RE_PRIMARY_KEY_NULL) m
| SpecColumnsMiss pk l m : is_null pk = false -> m pk = None ->
    spec_step (OpUpdateColumns pk l) m (Err RE_NOT_FOUND) m
| SpecColumnsUnknown pk l m row c : is_null pk = false -> m pk = Some row ->
    assign (schema_ t) l row = Err c -> spec_step (OpUpdateColumns pk l) m (Err c) m
| SpecColumns pk l m row row' r m' : is_null pk = false -> m pk = Some row ->
    assign (schema_ t) l row = Ok row' -> spec_update pk row' m r m' ->
    spec_step (OpUpdateColumns pk l) m r m'
| SpecRemoveNull pk m : is_null pk = true -> spec_step (OpRemove pk) m (Err RE_PRIMARY_KEY_NULL) m
| SpecRemove pk m r m' : is_null pk = false -> spec_write m (amap_delete pk m) r m' ->
    spec_step (OpRemove pk) m r m'
| SpecTruncate m r m' : spec_write m amap_empty r m' -> spec_step OpTruncate m r m'.
End Spec.

(** ** The invariant of the stored rows *)

Record table_ok (t : Table) : Prop := {
  to_made : t = make_table (db_name_ t) (schema_ t);
  to_lengths : lengths_valid (schema_ t);
  to_columns : (N.of_nat (length (columns_ (schema_ t))) < two32)%N;
  to_db : name_ok (db_name_ t);
  to_name : name_ok (schema_name (schema_ t)) }.

(** A row that belongs in the table. *)
Record row_ok (t : Table) (row : Row) : Prop := {
  ro_valid : validate_row (schema_ t) row = SE_OK;
  ro_wf : Forall value_wf row;
  ro_pk : is_null (primary_key_of t row) = false }.

(** Under the table's prefix there are only rows, each at the key of its
    primary key. *)
Definition table_inv (t : Table) (m : omap ByteValue) : Prop :=
  forall k v, mfind k m = Some v -> key_prefix_ t `prefix_of` k ->
  exists row, row_ok t row /\ k = encode_key t (primary_key_of t row) /\ v = encode_row t row.

(** The rows a connection holds, as a map. *)
Definition abs (t : Table) (m : omap ByteValue) : amap := fun pk =>
  match mfind (encode_key t pk) m with
  | None => None
  | Some data => match row_deserialize data (schema_ t) with Ok row => Some row | Err _ => None end
  end.

Definition agree (a b : amap) : Prop := forall pk, value_wf pk -> is_null pk = false -> a pk = b pk.

#[export] Instance agree_equivalence : Equivalence agree.
Proof.
  split; unfold agree.
  - done.
  - intros a b H pk W N. symmetry. by apply H.
  - intros a b c H1 H2 pk W N. by rewrite H1, H2.
Qed.
#[export] Instance amap_set_proper pk row : Proper (agree ==> agree) (amap_set pk row).
Proof. intros a b H k W N. unfold amap_set. case_decide; [done|by apply H]. Qed.
#[export] Instance amap_delete_proper pk : Proper (agree ==> agree) (amap_delete pk).
Proof. intros a b H k W N. unfold amap_delete. case_decide; [done|by apply H]. Qed.

Section table.
Context (t : Table) (Ht : table_ok t).

Lemma key_prefix_eq : key_prefix_ t = data_prefix (db_name_ t) (schema_name (schema_ t)).
Proof. by rewrite (to_made _ Ht). Qed.

Lemma encode_key_prefix pk : encode_key t pk = key_prefix_ t ++ to_column_key pk (primary_key_type_ t).
Proof. by rewrite key_prefix_eq. Qed.

Lemma encode_key_under pk : key_prefix_ t `prefix_of` encode_key t pk.
Proof. rewrite encode_key_prefix. by eexists. Qed.

Lemma encode_key_inj a b : value_wf a -> value_wf b -> is_null a = false -> is_null b = false ->
  encode_key t a = encode_key t b <-> same_payload a b.
Proof.
  intros. rewrite !encode_key_prefix. split; intros Hab.
  - apply app_inv_head in Hab. by apply key_same_payload in Hab.
  - by rewrite (same_payload_key (primary_key_type_ t) a b).
Qed.

Lemma stored_read row : row_ok t row -> row_deserialize (encode_row t row) (schema_ t) = Ok (stored t row).
Proof. intros [Hv Hw _]. apply row_roundtrip_retype; [apply Ht|apply Ht|done|done]. Qed.

Lemma pk_wf row : Forall value_wf row -> value_wf (primary_key_of t row).
Proof.
  intros Hw. unfold primary_key_of. case_match; [done|].
  destruct (row !! _) as [v|] eqn:E; [|done]. simpl. by eapply Forall_lookup_1 in Hw.
Qed.

(** The primary key of a row read back. *)
Lemma stored_pk row : validate_row (schema_ t) row = SE_OK ->
  primary_key_of t (stored t row) = retype (primary_key_type_ t) (primary_key_of t row).
Proof.
  intros Hv. unfold validate_row in Hv. destruct (length row =? _)%nat eqn:El; [|done]. boolify.
  unfold primary_key_of, stored, retype_row. rewrite length_zip_with_l_eq by (by rewrite El).
  rewrite El. destruct (_ || _) eqn:Eb; [done|]. boolify.
  set (i := Z.to_nat (primary_key_index_ (schema_ t))) in *.
  destruct (lookup_lt_is_Some_2 row i) as [v Hrow]; [lia|].
  destruct (lookup_lt_is_Some_2 (columns_ (schema_ t)) i) as [c Hc]; [lia|].
  rewrite lookup_zip_with, Hc, Hrow. simpl. f_equal. rewrite (to_made _ Ht). simpl.
  unfold table_pk_column, primary_key_column, column_at. unfold has_primary_key.
  rewrite (proj2 (Z.leb_le _ _)), (proj2 (Z.ltb_lt _ _)) by lia. simpl.
  rewrite (proj2 (Z.ltb_ge _ _)), (proj2 (Z.leb_gt _ _)) by lia. simpl. fold i. by rewrite Hc.
Qed.

Lemma stored_ok row : row_ok t row -> row_ok t (stored t row).
Proof.
  intros Hr. pose proof (stored_pk row (ro_valid _ _ Hr)) as Hpk. split.
  - eapply row_deserialize_valid. by apply stored_read.
  - destruct Hr as [_ Hw _]. unfold stored, retype_row. apply Forall_lookup_2. intros i v Hv.
    apply lookup_zip_with_Some in Hv as (c & w & -> & _ & Hi). apply retype_wf. by eapply Forall_lookup_1 in Hw.
  - rewrite Hpk, is_null_retype. apply Hr.
Qed.

(** What [table_inv] gives at a key. *)
Lemma abs_hit m pk data : table_inv t m -> mfind (encode_key t pk) m = Some data ->
  exists row, row_ok t row /\ encode_key t pk = encode_key t (primary_key_of t row) /\
    row_deserialize data (schema_ t) = Ok (stored t row) /\ abs t m pk = Some (stored t row).
Proof.
  intros Hi Hf. destruct (Hi _ _ Hf (encode_key_under pk)) as (row & Hr & Hk & ->).
  exists row. pose proof (stored_read _ Hr) as Hd. split_and!; try done. unfold abs. by rewrite Hf, Hd.
Qed.

Lemma inv_put m row : sorted m -> table_inv t m -> row_ok t row ->
  table_inv t (minsert (encode_key t (primary_key_of t row)) (encode_row t row) m).
Proof.
  intros Hs Hi Hr k v. destruct (decide (k = encode_key t (primary_key_of t row))) as [->|Hne].
  - rewrite mfind_insert_eq. intros [= <-] _. by exists row.
  - rewrite mfind_insert_ne by done. apply Hi.
Qed.

Lemma abs_put m row pk : sorted m -> row_ok t row -> value_wf pk -> same_payload (primary_key_of t row) pk ->
  agree (abs t (minsert (encode_key t (primary_key_of t row)) (encode_row t row) m))
        (amap_set pk (stored t row) (abs t m)).
Proof.
  intros Hs Hr Wp Hsp k Wk Nk. unfold abs at 1, amap_set.
  pose proof (pk_wf _ (ro_wf _ _ Hr)) as Wr. pose proof (ro_pk _ _ Hr) as Nr.
  assert (Np : is_null pk = false) by (by rewrite <- (is_null_payload _ _ Hsp)).
  case_decide as Hd.
  - rewrite (proj2 (encode_key_inj k (primary_key_of t row) Wk Wr Nk Nr)).
    + rewrite mfind_insert_eq. by rewrite stored_read.
    + apply (key_same_payload (primary_key_type_ t)); try done.
      rewrite (same_payload_key _ _ _ Hd). symmetry. by apply same_payload_key.
  - rewrite mfind_insert_ne; [done|done|]. intros Hk. apply Hd.
    apply (key_same_payload (primary_key_type_ t)); try done.
    rewrite !encode_key_prefix in Hk. apply app_inv_head in Hk. rewrite Hk. by apply same_payload_key.
Qed.

Lemma inv_erase m k : sorted m -> table_inv t m -> table_inv t (merase k m).
Proof.
  intros Hs Hi k' v. destruct (decide (k' = k)) as [->|]; [by rewrite mfind_erase_eq|].
  rewrite mfind_erase_ne by done. apply Hi.
Qed.

Lemma abs_erase m pk : sorted m -> value_wf pk -> is_null pk = false ->
  agree (abs t (merase (encode_key t pk) m)) (amap_delete pk (abs t m)).
Proof.
  intros Hs Wp Np k Wk Nk. unfold abs at 1, amap_delete. case_decide as Hd.
  - by rewrite (proj2 (encode_key_inj k pk Wk Wp Nk Np)), mfind_erase_eq.
  - rewrite mfind_erase_ne; [done|done|]. intros Hk. apply Hd. by apply encode_key_inj.
Qed.

(** The interval [truncate] deletes. *)
Lemma prefix_nonempty_interval : bytes_ltb (key_prefix_ t) (prefix_end (key_prefix_ t)) = true.
Proof.
  rewrite key_prefix_eq. by apply (prefix_interval _ (data_prefix _ _) (data_prefix_end _ _)).
Qed.

Lemma in_table_range k : in_range (key_prefix_ t) (prefix_end (key_prefix_ t)) k = true <->
  key_prefix_ t `prefix_of` k.
Proof.
  rewrite key_prefix_eq, prefix_interval by apply data_prefix_end. unfold in_range.
  by rewrite andb_true_iff, negb_true_iff.
Qed.

Lemma find_truncated (m : omap ByteValue) k : sorted m ->
  (key_prefix_ t `prefix_of` k -> mfind k (erase_range (key_prefix_ t) (prefix_end (key_prefix_ t)) m) = None) /\
  (~ key_prefix_ t `prefix_of` k ->
   mfind k (erase_range (key_prefix_ t) (prefix_end (key_prefix_ t)) m) = mfind k m).
Proof.
  intros Hs. pose proof prefix_nonempty_interval as Hlt. apply bytes_ltb_asym in Hlt.
  rewrite find_erase_range by done. rewrite <- in_table_range.
  by destruct (in_range _ _ k).
Qed.
End table.

(** ** Refinement *)

Section Refine.
Context {E I : Type} `{KVEngineLaws E I}.
Context (t : Table) (Ht : table_ok t).

Definition table_run (op : TableOp) (e : E) : E * table_result :=
  match op with
  | OpFind pk => (e, match find t pk e with Ok row => Ok (Some row) | Err c => Err c end)
  | OpInsert row => let '(e', r) := insert t row e in (e', done_ok r)
  | OpUpdateRow pk row => let '(e', r) := update_row t pk row e in (e', done_ok r)
  | OpUpdateColumns pk l => let '(e', r) := update_columns t pk l e in (e', done_ok r)
  | OpRemove pk => let '(e', r) := remove t pk e in (e', done_ok r)
  | OpTruncate => let '(e', r) := truncate t e in (e', done_ok r)
  end.

(** The connection implements the map [a]. *)
Record table_rel (e : E) (a : amap) : Prop := {
  tr_ready : kv_ready e;
  tr_inv : table_inv t (kv_view e);
  tr_agree : agree a (abs t (kv_view e)) }.

(** Keys outside the table are untouched. *)
Definition frame (e e' : E) : Prop :=
  forall k, ~ key_prefix_ t `prefix_of` k -> mfind k (kv_view e') = mfind k (kv_view e).

Lemma find_spec pk e a : table_rel e a -> value_wf pk ->
  find t pk e = if is_null pk then Err RE_PRIMARY_KEY_NULL
                else match a pk with Some row => Ok row | None => Err RE_NOT_FOUND end.
Proof.
  intros [Hr Hi Ha] Wp. unfold find. destruct (is_null pk) eqn:En; [done|].
  rewrite kv_get_view, (Ha pk Wp En) by done. unfold abs.
  destruct (mfind (encode_key t pk) (kv_view e)) as [data|] eqn:Ef; simpl; [|done].
  destruct (abs_hit t Ht _ _ _ Hi Ef) as (row & _ & _ & Hd & _). unfold decode_row. by rewrite Hd.
Qed.

(** Writing a checked row under a key equal to its own. *)
Lemma put_step pk row e a e' st : table_rel e a -> row_ok t row -> value_wf pk ->
  same_payload (primary_key_of t row) pk ->
  kv_put (encode_key t pk) (encode_row t row) e = (e', st) ->
  frame e e' /\ table_rel e' (if bool_decide (st = StOK) then amap_set pk (stored t row) a else a).
Proof.
  intros [Hr Hi Ha] Hrow Wp Hsp Hput. pose proof (kv_view_sorted e Hr) as Hs.
  assert (encode_key t pk = encode_key t (primary_key_of t row)) as Hk.
  { symmetry. apply encode_key_inj; try done; [by apply pk_wf, Hrow|apply Hrow|].
    by rewrite <- (is_null_payload _ _ Hsp); apply Hrow. }
  rewrite Hk in Hput. destruct (kv_put_view _ _ _ _ _ Hr Hput) as [Hr' Hv].
  case_bool_decide as Hst.
  - split.
    + intros k Hkp. rewrite Hv. apply mfind_insert_ne; [done|]. intros ->. apply Hkp. by apply encode_key_under.
    + split; [done|rewrite Hv; by apply inv_put|]. rewrite Hv, abs_put by done. by rewrite Ha.
  - split; [intros k _; by rewrite Hv|]. split; [done|by rewrite Hv|by rewrite Hv].
Qed.

Lemma update_row_step pk row e a e' r : table_rel e a -> value_wf pk -> Forall value_wf row ->
  is_null pk = false -> update_row t pk row e = (e', r) ->
  exists a', spec_update t pk row a (done_ok r) a' /\ table_rel e' a' /\ frame e e'.
Proof.
  intros Hrel Wp Wr Np. unfold update_row. rewrite Np.
  destruct (decide (validate_row (schema_ t) row = SE_OK)) as [Hv|Hv].
  2:{ intros Hu. exists a. assert ((e', r) = (e, Err RE_SCHEMA_ERROR)) as [= -> ->]
        by (rewrite <- Hu; by destruct (validate_row (schema_ t) row)).
      split_and!; [by constructor|done|by intros k]. }
  rewrite Hv. destruct (value_eqb (primary_key_of t row) pk) eqn:Eq; simpl.
  2:{ intros [= <- <-]. exists a. split_and!; [by constructor|done|by intros k]. }
  apply value_eqb_payload in Eq as Hsp.
  assert (Hrow : row_ok t row) by (split; [done|done|by rewrite (is_null_payload _ _ Hsp)]).
  destruct (kv_put _ _ e) as [e1 st] eqn:Ep.
  destruct (put_step _ _ _ _ _ _ Hrel Hrow Wp Hsp Ep) as [Hf Hrel'].
  intros Hu. assert (e' = e1 /\ r = if bool_decide (st = StOK) then Ok tt else Err RE_KV_ERROR) as [-> ->]
    by (destruct st; by simplify_eq).
  exists (if bool_decide (st = StOK) then amap_set pk (stored t row) a else a). split_and!; [|done|done].
  eapply SpecUpdate; [done|done|]. case_bool_decide; constructor.
Qed.

Lemma insert_step row e a e' r : table_rel e a -> Forall value_wf row -> insert t row e = (e', r) ->
  exists a', spec_step t (OpInsert row) a (done_ok r) a' /\ table_rel e' a' /\ frame e e'.
Proof.
  intros Hrel Wr. unfold insert.
  destruct (decide (validate_row (schema_ t) row = SE_OK)) as [Hv|Hv].
  2:{ intros Hu. exists a. assert ((e', r) = (e, Err RE_SCHEMA_ERROR)) as [= -> ->]
        by (rewrite <- Hu; by destruct (validate_row (schema_ t) row)).
      split_and!; [by constructor|done|by intros k]. }
  rewrite Hv. destruct (is_null (primary_key_of t row)) eqn:En.
  { intros [= <- <-]. exists a. split_and!; [by constructor|done|by intros k]. }
  pose proof (pk_wf t row Wr) as Wp.
  pose proof (tr_agree _ _ Hrel _ Wp En) as Hab. unfold abs in Hab.
  rewrite kv_exists_view by apply Hrel.
  destruct (mfind (encode_key t (primary_key_of t row)) (kv_view e)) as [data|] eqn:Ef.
  { destruct (abs_hit t Ht _ _ _ (tr_inv _ _ Hrel) Ef) as (old & _ & _ & Hd & _). rewrite Hd in Hab.
    intros [= <- <-]. exists a. split_and!; [by eapply SpecInsertDuplicate|done|by intros k]. }
  destruct (kv_put _ _ e) as [e1 st] eqn:Ep.
  destruct (put_step _ _ _ _ _ _ Hrel ltac:(by split) Wp (same_payload_refl _) Ep) as [Hf Hrel'].
  intros Hu. assert (e' = e1 /\ r = if bool_decide (st = StOK) then Ok tt else Err RE_KV_ERROR) as [-> ->]
    by (destruct st; by simplify_eq).
  exists (if bool_decide (st = StOK) then amap_set (primary_key_of t row) (stored t row) a else a).
  split_and!; [|done|done]. eapply SpecInsert; [done|done|done|]. case_bool_decide; constructor.
Qed.

Lemma assign_wf s l row row' : Forall value_wf row -> Forall (fun p => value_wf p.2) l ->
  assign s l row = Ok row' -> Forall value_wf row'.
Proof.
  intros Hw Hl. revert row Hw. induction Hl as [|[c v] l Hv _ IH]; intros row Hw; simpl; [by intros [= <-]|].
  case_match; [done|]. apply IH. by apply Forall_insert.
Qed.

Lemma columns_step pk l e a e' r : table_rel e a -> value_wf pk -> Forall (fun p => value_wf p.2) l ->
  update_columns t pk l e = (e', r) ->
  exists a', spec_step t (OpUpdateColumns pk l) a (done_ok r) a' /\ table_rel e' a' /\ frame e e'.
Proof.
  intros Hrel Wp Wl. unfold update_columns. rewrite (find_spec _ _ _ Hrel Wp).
  destruct (is_null pk) eqn:En.
  { intros [= <- <-]. exists a. split_and!; [by constructor|done|by intros k]. }
  destruct (a pk) as [row|] eqn:Ea.
  2:{ intros [= <- <-]. exists a. split_and!; [by constructor|done|by intros k]. }
  destruct (assign (schema_ t) l row) as [row'|c] eqn:Es.
  2:{ intros [= <- <-]. exists a. split_and!; [by eapply SpecColumnsUnknown|done|by intros k]. }
  intros Hu. assert (Wr : Forall value_wf row').
  { eapply assign_wf; [|done|done]. pose proof (tr_agree _ _ Hrel _ Wp En) as Hab. rewrite Ea in Hab.
    unfold abs in Hab. destruct (mfind _ _) as [data|] eqn:Ef; [|done].
    destruct (abs_hit t Ht _ _ _ (tr_inv _ _ Hrel) Ef) as (old & Ho & _ & Hd & _). rewrite Hd in Hab.
    injection Hab as ->. by apply stored_ok. }
  destruct (update_row_step _ _ _ _ _ _ Hrel Wp Wr En Hu) as (a' & Hs & Hrel' & Hf).
  exists a'. split_and!; [by eapply SpecColumns|done|done].
Qed.

Lemma remove_step pk e a e' r : table_rel e a -> value_wf pk -> remove t pk e = (e', r) ->
  exists a', spec_step t (OpRemove pk) a (done_ok r) a' /\ table_rel e' a' /\ frame e e'.
Proof.
  intros Hrel Wp. unfold remove. destruct (is_null pk) eqn:En.
  { intros [= <- <-]. exists a. split_and!; [by constructor|done|by intros k]. }
  destruct (kv_remove _ e) as [e1 st] eqn:Er. intros [= <- <-].
  pose proof (kv_view_sorted e (tr_ready _ _ Hrel)) as Hs.
  destruct (kv_remove_view _ _ _ _ (tr_ready _ _ Hrel) Er) as [Hr' Hv].
  exists (if benign st then amap_delete pk a else a).
  split_and!; [by eapply SpecRemove; [|destruct (benign st); constructor]| |].
  - split; [done| |]; rewrite Hv; destruct (benign st); try apply Hrel; [by apply inv_erase, Hrel|].
    rewrite abs_erase by done. by rewrite (tr_agree _ _ Hrel).
  - intros k Hk. rewrite Hv. destruct (benign st); [|done]. apply mfind_erase_ne; [done|]. intros ->.
    apply Hk. by apply encode_key_under.
Qed.

Lemma truncate_step e a e' r : table_rel e a -> truncate t e = (e', r) ->
  exists a', spec_step t OpTruncate a (done_ok r) a' /\ table_rel e' a' /\ frame e e'.
Proof.
  intros Hrel. unfold truncate. destruct (kv_write_batch _ e) as [e1 st] eqn:Eb.
  pose proof (kv_view_sorted e (tr_ready _ _ Hrel)) as Hs.
  destruct (kv_range_view _ _ _ _ _ (tr_ready _ _ Hrel) (prefix_nonempty_interval t Ht) Eb) as [Hr' Hv].
  intros Hu. assert (e' = e1 /\ r = if bool_decide (st = StOK) then Ok tt else Err RE_KV_ERROR) as [-> ->]
    by (destruct st; by simplify_eq).
  exists (if bool_decide (st = StOK) then amap_empty else a).
  split_and!; [apply SpecTruncate; case_bool_decide; constructor| |].
  - split; [done| |]; rewrite Hv; case_bool_decide; try apply Hrel.
    + intros k v Hk Hp. by rewrite (proj1 (find_truncated t Ht _ k Hs) Hp) in Hk.
    + intros pk _ _. unfold amap_empty, abs.
      by rewrite (proj1 (find_truncated t Ht _ _ Hs) (encode_key_under t Ht pk)).
  - intros k Hk. rewrite Hv. case_bool_decide; [|done]. by apply find_truncated.
Qed.

(** C7: a table is a map from primary keys to rows. Over any storage engine
    that keeps its contract, each operation of a table (point lookup, insert,
    whole-row and partial update, delete, truncate) answers what the abstract
    map answers and leaves a store that implements the map's next state: an
    insert never overwrites, an update never moves a row, a refused or failed
    operation changes nothing; and no operation touches a key outside the
    table. *)
Theorem table_refines_map op e a e' r :
  table_rel e a -> op_values_wf op -> table_run op e = (e', r) ->
  exists a', spec_step t op a r a' /\ table_rel e' a' /\ frame e e'.
Proof.
  intros Hrel Hw. destruct op as [pk|row|pk row|pk l|pk|]; simpl in *.
  - intros [= <- <-]. exists a. split_and!; [|done|by intros k]. rewrite (find_spec _ _ _ Hrel Hw).
    destruct (is_null pk) eqn:En; [by constructor|]. destruct (a pk) eqn:Ea; by constructor.
  - destruct (insert t row e) as [e1 r1] eqn:E0. intros [= <- <-]. by eapply insert_step.
  - destruct (update_row t pk row e) as [e1 r1] eqn:E0. intros [= <- <-]. destruct Hw as [Wp Wr].
    destruct (is_null pk) eqn:En.
    + unfold update_row in E0. rewrite En in E0. injection E0 as <- <-.
      exists a. split_and!; [by constructor|done|by intros k].
    + destruct (update_row_step _ _ _ _ _ _ Hrel Wp Wr En E0) as (a' & Hs & Hr & Hf).
      exists a'. split_and!; [by constructor|done|done].
  - destruct (update_columns t pk l e) as [e1 r1] eqn:E0. intros [= <- <-]. destruct Hw. by eapply columns_step.
  - destruct (remove t pk e) as [e1 r1] eqn:E0. intros [= <- <-]. by eapply remove_step.
  - destruct (truncate t e) as [e1 r1] eqn:E0. intros [= <- <-]. by eapply truncate_step.
Qed.
End Refine.

(** ** A table of the in-memory engine *)

Definition demo_table : Table := make_table (identifier (bytes_of_string "db")) demo_schema.
Definition demo_conn : Conn :=
  mkConn 1 (MockStore.mkMockStore [] false true MockStore.default_options None) MockEngine.new_engine.

Lemma demo_table_ok : table_ok demo_table.
Proof. split; [done|apply wf_lengths, wf_build|done|done|done]. Qed.

Lemma demo_conn_rel : table_rel demo_table demo_conn amap_empty.
Proof. split; [by split; try constructor|by intros k v|by intros pk]. Qed.

Lemma table_refines_map_witness :
  let '(c, r) := table_run demo_table (OpInsert demo_row) demo_conn in
  r = Ok None /\
  exists a', spec_step demo_table (OpInsert demo_row) amap_empty r a' /\ table_rel demo_table c a' /\
    frame demo_table demo_conn c.
Proof.
  destruct (table_run demo_table (OpInsert demo_row) demo_conn) as [c r] eqn:Er.
  split; [apply (f_equal snd) in Er; vm_compute in Er; by rewrite <- Er|].
  apply (table_refines_map demo_table demo_table_ok (OpInsert demo_row) demo_conn amap_empty c r);
    [apply demo_conn_rel| |exact Er].
  simpl. apply (bool_decide_eq_true_1 _). vm_compute. reflexivity.
Defined.
