(* ===== verification/TableScan.v ===== *)
(** * Scans of a table return the rows of the range, in key order

    [Table::scan], [TableCursor::next] and [Table::row_count] over any storage
    engine that satisfies the laws of [KvApi]. *)

From S2P Require Import Prelude Bytes OMap KvTypes Transactions KvApi SqlTypes KeyCodec SqlTruth SqlKeyRange Schema RowCodec KeyPrefix Table TableSpec.
Local Open Scope Z_scope.

(** ** The rows of a table *)

Definition decode_rows (t : Table) (l : list (Key * ByteValue)) : list Row :=
  flat_map (fun p => match row_deserialize p.2 (schema_ t) with Ok row => [row] | Err _ => [] end) l.

Definition table_entries (t : Table) (m : omap ByteValue) : omap ByteValue :=
  filter (fun p => key_prefix_ t `prefix_of` p.1) m.

Definition table_rows (t : Table) (m : omap ByteValue) : list Row := decode_rows t (table_entries t m).

(** A key between two keys with a prefix has the prefix. *)
Lemma between_prefix (p a b k : bytes) :
  bytes_ltb k (p ++ a) = false -> bytes_ltb k (p ++ b) = true -> p `prefix_of` k.
Proof.
  revert k. induction p as [|c p IH]; intros k Ha Hb; [by apply prefix_nil|].
  destruct k as [|d k]; [done|]. simpl in Ha, Hb.
  destruct (Byte.to_N d <? Byte.to_N c)%N eqn:E1; [done|].
  destruct (Byte.to_N c <? Byte.to_N d)%N eqn:E2; [done|]. boolify.
  assert (d = c) as -> by (apply byte_to_N_inj; lia). apply prefix_cons. by apply IH.
Qed.

Lemma validate_values_lookup cols row i c v :
  validate_values cols row = SE_OK -> cols !! i = Some c -> row !! i = Some v -> validate_value c v = SE_OK.
Proof.
  revert cols row. induction i as [|i IH]; intros [|c0 cols] [|v0 row] Hv Hc Hr; try done; simpl in *.
  - simplify_eq. by destruct (validate_value c v).
  - destruct (validate_value c0 v0); try done. by eapply IH.
Qed.

Section table.
Context (t : Table) (Ht : table_ok t).

Lemma row_pk_column row : row_ok t row -> in_column (primary_key_type_ t) (primary_key_of t row).
Proof.
  intros [Hv Hw Hn]. unfold validate_row in Hv. destruct (length row =? _)%nat eqn:El; [|done]. boolify.
  rewrite (to_made _ Ht). simpl. unfold primary_key_of in *. destruct (_ || _) eqn:Eb; [done|]. boolify. simpl in Hv.
  destruct (lookup_lt_is_Some_2 row (Z.to_nat (primary_key_index_ (schema_ t)))) as [v Hrow]; [lia|].
  destruct (lookup_lt_is_Some_2 (columns_ (schema_ t)) (Z.to_nat (primary_key_index_ (schema_ t)))) as [c Hc]; [lia|].
  unfold table_pk_column, primary_key_column, column_at, has_primary_key.
  rewrite (proj2 (Z.leb_le _ _)), (proj2 (Z.ltb_lt _ _)) by lia. simpl.
  rewrite (proj2 (Z.ltb_ge _ _)), (proj2 (Z.leb_gt _ _)) by lia. simpl. rewrite Hrow, Hc. simpl.
  apply validate_value_in_column; [by eapply Forall_lookup_1|]. by eapply validate_values_lookup.
Qed.

(** What is read of an entry of the table. *)
Lemma entry_row m k v : sorted m -> table_inv t m -> (k, v) ∈ table_entries t m ->
  exists row, row_ok t row /\ row_deserialize v (schema_ t) = Ok row /\ k = encode_key t (primary_key_of t row).
Proof.
  intros Hs Hi [Hp Hin]%list_elem_of_filter. apply find_elem in Hin; [|done].
  destruct (Hi _ _ Hin Hp) as (row & Hr & -> & ->). exists (stored t row).
  split_and!; [by apply stored_ok|by apply stored_read|].
  rewrite stored_pk by (done || apply Hr). rewrite !encode_key_prefix by done. by rewrite retype_key.
Qed.

Lemma range_entry range asc row :
  tag_of (primary_key_type_ t) <> kTagNull -> range_ok (primary_key_type_ t) range -> row_ok t row ->
  range_contains (physical_range t range asc) (encode_key t (primary_key_of t row)) =
  contains range (primary_key_of t row).
Proof.
  intros Htag Hok Hr. pose proof (row_pk_column row Hr) as Hc.
  rewrite (contains_between _ _ Hc range Hok), <- (scan_between _ _ Hc range Htag Hok).
  unfold range_contains, physical_range, physical_start, physical_end, in_scan, bytes_leb.
  cbn [KvTypes.start KvTypes.end_]. rewrite encode_key_prefix, !bytes_ltb_app_common by done.
  by destruct (bytes_ltb _ (sr_start _)), (bytes_ltb _ (sr_end _)).
Qed.

(** The entries a physical scan visits. *)
Lemma scan_entries range asc m :
  sorted m -> table_inv t m ->
  filter (fun p => range_contains (physical_range t range asc) p.1 = true) m =
  filter (fun p => range_contains (physical_range t range asc) p.1 = true) (table_entries t m).
Proof.
  intros Hs Hi. unfold table_entries. rewrite list_filter_filter. apply filter_ext_in.
  intros [k v] _. simpl. split; [|by intros []]. intros Hc. split; [done|].
  unfold range_contains, physical_range, physical_start, physical_end, bytes_leb in Hc. simpl in Hc.
  destruct (bytes_ltb k (_ ++ sr_start _)) eqn:E1; [done|].
  destruct (bytes_ltb k (_ ++ sr_end _)) eqn:E2; [|done]. by eapply between_prefix.
Qed.

Lemma decode_rows_app l1 l2 : decode_rows t (l1 ++ l2) = decode_rows t l1 ++ decode_rows t l2.
Proof. unfold decode_rows. by rewrite flat_map_app. Qed.

(** Entries that all decode. *)
Definition all_decode (l : list (Key * ByteValue)) : Prop :=
  forall p, p ∈ l -> exists row, row_ok t row /\ row_deserialize p.2 (schema_ t) = Ok row /\
    p.1 = encode_key t (primary_key_of t row).

Lemma decode_rows_cons p l row : row_deserialize p.2 (schema_ t) = Ok row ->
  decode_rows t (p :: l) = row :: decode_rows t l.
Proof. intros Hp. unfold decode_rows. simpl. by rewrite Hp. Qed.

Lemma decode_rows_length l : all_decode l -> length (decode_rows t l) = length l.
Proof.
  induction l as [|p l IH]; intros Hl; [done|]. destruct (Hl p ltac:(left)) as (row & _ & Hd & _).
  rewrite (decode_rows_cons p l row) by done. simpl. rewrite IH; [done|]. intros q Hq. apply Hl. by right.
Qed.

Lemma decode_rows_reverse l : all_decode l -> decode_rows t (reverse l) = reverse (decode_rows t l).
Proof.
  induction l as [|p l IH]; intros Hl; [done|]. destruct (Hl p ltac:(left)) as (row & _ & Hd & _).
  rewrite (decode_rows_cons p l row), !reverse_cons, decode_rows_app by done.
  rewrite IH by (intros q Hq; apply Hl; by right). f_equal. by rewrite (decode_rows_cons p [] row).
Qed.

Lemma decode_rows_filter range asc l :
  tag_of (primary_key_type_ t) <> kTagNull -> range_ok (primary_key_type_ t) range -> all_decode l ->
  decode_rows t (filter (fun p => range_contains (physical_range t range asc) p.1 = true) l) =
  filter (fun row => contains range (primary_key_of t row) = true) (decode_rows t l).
Proof.
  intros Htag Hok. induction l as [|p l IH]; intros Hl; [done|].
  destruct (Hl p ltac:(left)) as (row & Hr & Hd & Hk).
  rewrite (decode_rows_cons p l row), !filter_cons by done.
  rewrite Hk, range_entry by done. specialize (IH ltac:(intros q Hq; apply Hl; by right)).
  case_decide; [|done]. by rewrite (decode_rows_cons p _ row), IH.
Qed.

Lemma entries_decode m : sorted m -> table_inv t m -> all_decode (table_entries t m).
Proof. intros Hs Hi [k v] Hp. by apply entry_row with m. Qed.

Lemma decode_rows_sorted l : sorted l -> all_decode l ->
  StronglySorted (fun a b => value_ltb (primary_key_of t a) (primary_key_of t b) = true) (decode_rows t l).
Proof.
  induction 1 as [|p l Hs IH Hf]; intros Hl; [constructor|].
  destruct (Hl p ltac:(left)) as (row & Hr & Hd & Hk).
  assert (Hl' : all_decode l) by (intros q Hq; apply Hl; by right).
  rewrite (decode_rows_cons p l row) by done. constructor; [by apply IH|].
  apply Forall_forall. intros row' Hin. unfold decode_rows in Hin.
  apply list_elem_of_In, in_flat_map in Hin as (q & Hq & Hin). apply list_elem_of_In in Hq.
  destruct (Hl' q Hq) as (row2 & Hr2 & Hd2 & Hk2). rewrite Hd2 in Hin.
  destruct Hin as [<-|[]]. eapply Forall_forall in Hf; [|done]. unfold key_before, bytes_lt in Hf.
  rewrite Hk, Hk2, !encode_key_prefix, bytes_ltb_app_common in Hf by done.
  rewrite <- (key_order (primary_key_type_ t)); [done|by apply row_pk_column..].
Qed.

Lemma decode_rows_elem m row : sorted m -> table_inv t m ->
  row ∈ table_rows t m <->
  row_ok t row /\ abs t m (primary_key_of t row) = Some row.
Proof.
  intros Hs Hi. unfold table_rows, decode_rows. rewrite list_elem_of_In, in_flat_map. split.
  - intros ([k v] & Hp & Hin). apply list_elem_of_In in Hp.
    destruct (entry_row m k v Hs Hi Hp) as (row' & Hr & Hd & Hk). simpl in Hin. rewrite Hd in Hin.
    destruct Hin as [<-|[]]. split; [done|]. apply list_elem_of_filter in Hp as [_ Hp].
    apply find_elem in Hp; [|done]. unfold abs. by rewrite <- Hk, Hp, Hd.
  - intros [Hr Ha]. unfold abs in Ha. destruct (mfind _ m) as [v|] eqn:Ef; [|done].
    destruct (row_deserialize v (schema_ t)) as [row'|] eqn:Ed; [|done]. injection Ha as ->.
    exists (encode_key t (primary_key_of t row), v). split; [|simpl; rewrite Ed; by left].
    apply list_elem_of_In, list_elem_of_filter. split; [by apply encode_key_under|by apply find_elem].
Qed.
End table.

(** ** Cursors *)

(** Rows in the direction of the scan. *)
Definition in_direction (ascending : bool) (rows : list Row) : list Row :=
  if ascending then rows else reverse rows.

Section Scan.
Context {E I : Type} `{KVEngineLaws E I}.
Context (t : Table) (Ht : table_ok t).

Definition live (it : I) (range : KeyRange) : TableCursor I :=
  mkTableCursor (Some t) range (Some it) StOK false CE_OK.

Lemma next_row it range k v rows row :
  kv_shows it ((k, v) :: rows) -> row_deserialize v (schema_ t) = Ok row ->
  cursor_next (live it range) = (live (si_next it) range, Ok row).
Proof.
  intros Hs Hd. destruct (kv_shows_row _ _ _ _ Hs) as (Hv & Hval & _).
  unfold cursor_next, live, decode_row. simpl. by rewrite Hv, Hval, Hd.
Qed.

Lemma next_end it range : kv_shows it [] -> (cursor_next (live it range)).2 = Err CE_END.
Proof.
  intros Hs. destruct (kv_shows_end _ Hs) as [Hv Hb]. unfold cursor_next, live. simpl. by rewrite Hv, Hb.
Qed.

Lemma drain_rows fuel it range rows :
  kv_shows it rows -> all_decode t rows -> (length rows < fuel)%nat ->
  drain fuel (live it range) = (decode_rows t rows, CE_END).
Proof.
  revert fuel it. induction rows as [|[k v] rows IH]; intros fuel it Hs Hd Hf;
    (destruct fuel as [|fuel]; [lia|]); cbn [drain].
  - pose proof (next_end it range Hs) as Hn. destruct (cursor_next _) as [c r]. simpl in Hn. by rewrite Hn.
  - destruct (Hd (k, v) ltac:(left)) as (row & _ & Hrow & _). rewrite (next_row it range k v rows row) by done.
    destruct (kv_shows_row _ _ _ _ Hs) as (_ & _ & Hs').
    rewrite (IH fuel (si_next it)); [by rewrite (decode_rows_cons t (k, v) rows row)|done| |simpl in Hf; lia].
    intros q Hq. apply Hd. by right.
Qed.

Lemma count_rows_spec fuel it range rows n :
  kv_shows it rows -> all_decode t rows -> (length rows < fuel)%nat ->
  count_rows fuel (live it range) n = Some (Ok (n + N.of_nat (length rows))%N).
Proof.
  revert fuel it n. induction rows as [|[k v] rows IH]; intros fuel it n Hs Hd Hf;
    (destruct fuel as [|fuel]; [lia|]); cbn [count_rows].
  - pose proof (next_end it range Hs) as Hn. destruct (cursor_next _) as [c r]. simpl in Hn. rewrite Hn.
    simpl. by rewrite N.add_0_r.
  - destruct (Hd (k, v) ltac:(left)) as (row & _ & Hrow & _). rewrite (next_row it range k v rows row) by done.
    destruct (kv_shows_row _ _ _ _ Hs) as (_ & _ & Hs').
    rewrite (IH fuel (si_next it)); [|done| |simpl in Hf; lia].
    + simpl. do 2 f_equal. lia.
    + intros q Hq. apply Hd. by right.
Qed.

(** The cursor a scan opens. *)
Lemma scan_opens range asc e : kv_ready e -> table_inv t (kv_view e) ->
  kv_scannable e (physical_range t range asc) ->
  exists it, scan t range asc e = live it range /\
    kv_shows it (rows_in (physical_range t range asc) (kv_view e)).
Proof.
  intros Hr Hi Hsc. destruct (kv_iterator_view _ _ Hr Hsc) as (it & Hit & Hs).
  exists it. split; [|done]. unfold scan, live. by rewrite Hit.
Qed.

Lemma rows_in_decode range asc m : sorted m -> table_inv t m ->
  tag_of (primary_key_type_ t) <> kTagNull -> range_ok (primary_key_type_ t) range ->
  all_decode t (rows_in (physical_range t range asc) m) /\
  decode_rows t (rows_in (physical_range t range asc) m) =
  in_direction asc (filter (fun row => contains range (primary_key_of t row) = true) (table_rows t m)).
Proof.
  intros Hs Hi Htag Hok. unfold rows_in. rewrite (scan_entries t range asc m) by done.
  set (l := filter _ (table_entries t m)).
  assert (Hl : all_decode t l).
  { intros p [_ Hp]%list_elem_of_filter. by apply (entries_decode t Ht m). }
  unfold table_rows. rewrite <- (decode_rows_filter t Ht range asc) by (done || by apply entries_decode).
  fold l. unfold physical_range, in_direction. destruct asc; simpl; [done|].
  split; [|by apply decode_rows_reverse]. intros p Hp. apply Hl. by apply elem_of_reverse.
Qed.

Lemma kr_all_ok ty : range_ok ty (kr_all ty).
Proof. unfold range_ok, kr_all. simpl. split_and!; [done|done|by right|by intros [|]]. Qed.

Lemma scan_all_rows m : sorted m -> table_inv t m ->
  filter (fun row => contains (kr_all (primary_key_type_ t)) (primary_key_of t row) = true) (table_rows t m) =
  table_rows t m.
Proof.
  intros Hs Hi. rewrite (filter_ext_in _ (fun _ => True)); [by induction (table_rows t m); rewrite ?filter_cons; simpl; f_equal|].
  intros row Hrow. split; [done|]. intros _. apply (decode_rows_elem t Ht m row Hs Hi) in Hrow as [Hr _].
  by rewrite (contains_between _ _ (row_pk_column t Ht row Hr) _ (kr_all_ok _)).
Qed.

(** C24: a table scan returns the rows of the range, in primary-key order. Over
    any storage engine that keeps its contract and answers iterators over the
    range faithfully ([kv_scannable], which fails for a range with a range delete
    pending in the transaction, and for some reverse scans of the disk engine),
    reading the cursor of [scan] to the end yields, in the direction asked for, exactly the rows whose primary
    key the range contains, and then reports the end of the stream; the rows of
    the table are strictly ordered by primary key, they are exactly the rows a
    point lookup finds, and [row_count] counts them if the engine scans the whole table faithfully. *)
Theorem table_scan_exact range asc e fuel :
  kv_ready e -> table_inv t (kv_view e) ->
  tag_of (primary_key_type_ t) <> kTagNull -> range_ok (primary_key_type_ t) range ->
  kv_scannable e (physical_range t range asc) ->
  let rows := table_rows t (kv_view e) in
  (length rows < fuel)%nat ->
  drain fuel (scan t range asc e) =
    (in_direction asc (filter (fun row => contains range (primary_key_of t row) = true) rows), CE_END) /\
  StronglySorted (fun a b => value_ltb (primary_key_of t a) (primary_key_of t b) = true) rows /\
  (forall row, row ∈ rows <-> row_ok t row /\ abs t (kv_view e) (primary_key_of t row) = Some row) /\
  (kv_scannable e (physical_range t (kr_all (primary_key_type_ t)) true) ->
   row_count fuel t e = Some (Ok (N.of_nat (length rows)))).
Proof.
  intros Hr Hi Htag Hok Hsc rows Hf. pose proof (kv_view_sorted e Hr) as Hs.
  destruct (scan_opens range asc e Hr Hi Hsc) as (it & -> & Hsh).
  destruct (rows_in_decode range asc (kv_view e) Hs Hi Htag Hok) as [Hd He]. split_and!.
  - rewrite (drain_rows fuel it range _ Hsh Hd); [by rewrite He|].
    rewrite <- (decode_rows_length t _ Hd), He. unfold in_direction.
    assert (length (filter (fun row => contains range (primary_key_of t row) = true) rows) <= length rows)%nat
      by apply length_filter. destruct asc; rewrite ?length_reverse; unfold rows in *; lia.
  - apply (decode_rows_sorted t Ht); [|by apply (entries_decode t Ht)].
    apply (sorted_filter (fun p => bool_decide (key_prefix_ t `prefix_of` p.1))) in Hs.
    erewrite filter_ext_in in Hs; [exact Hs|]. intros p _. by rewrite bool_decide_eq_true.
  - intros row. by apply decode_rows_elem.
  - intros Hall. destruct (scan_opens _ true e Hr Hi Hall) as (it2 & Hsc2 & Hsh2).
    pose proof (kr_all_ok (primary_key_type_ t)) as Hok2.
    destruct (rows_in_decode _ true (kv_view e) Hs Hi Htag Hok2) as [Hd2 He2].
    assert (Hn : length (rows_in (physical_range t (kr_all (primary_key_type_ t)) true) (kv_view e)) = length rows).
    { rewrite <- (decode_rows_length t _ Hd2), He2. simpl. unfold rows. by rewrite scan_all_rows. }
    unfold row_count, scan_all. rewrite Hsc2, (count_rows_spec fuel it2 _ _ _ Hsh2 Hd2), Hn; [done|lia].
Qed.
End Scan.

Definition demo_stored : Conn := (table_run demo_table (OpInsert demo_row) demo_conn).1.

Lemma demo_stored_rel : exists a, table_rel demo_table demo_stored a.
Proof.
  destruct (insert demo_table demo_row demo_conn) as [c r] eqn:E.
  destruct (insert_step demo_table demo_table_ok demo_row demo_conn amap_empty c r) as (a & _ & Hr & _);
    [apply demo_conn_rel|by apply (bool_decide_eq_true_1 _); vm_compute|done|].
  exists a. unfold demo_stored, table_run. by rewrite E.
Qed.

Lemma table_scan_exact_witness :
  drain 5 (scan demo_table (kr_lt (VInt I_INT 0)) false demo_stored) =
  ([[VInt I_BIGINT (-7); VStr S_VARCHAR [x00; "|"%byte; xff]; VInt I_DATE 19000]], CE_END).
Proof.
  destruct demo_stored_rel as [a Hrel].
  destruct (table_scan_exact demo_table demo_table_ok (kr_lt (VInt I_INT 0)) false demo_stored 5) as [Hd _].
  - apply Hrel.
  - apply Hrel.
  - discriminate.
  - vm_compute. intuition discriminate.
  - intros tx Htx. discriminate Htx.
  - vm_compute. lia.
  - rewrite Hd. vm_compute. reflexivity.
Defined.
