(* ===== verification/Catalog.v ===== *)
(** * The catalog: [relation/kv_catalog.h], [relation/kv_catalog.cpp]

    Databases, tables and their schemas as metadata in the key-value store. The
    state of a catalog is its connection, the status of its last metadata read
    and the database selected by USE; the clock is an argument of the operations
    that read it. *)

From S2P Require Import Prelude Bytes OMap KvTypes Transactions KvApi SqlTypes Temporal KeyCodec SqlTruth SqlKeyRange Rewriter Schema RowCodec KeyPrefix Table TableSpec.
Local Open Scope Z_scope.

(** ** Name lists and statistics records *)

Definition kNameListVersion : byte := x01.

(** Little-endian integers: the byte loops of [append_u32_le], [put_u64],
    [read_u32_le] and [get_u64]. *)
Definition le_put (n : nat) (v : N) : bytes := reverse (be_put n v).
Definition le_get (l : bytes) : N := be_or (reverse l).

Definition append_u32_le (out : bytes) (value : N) : bytes := out ++ le_put 4 value.

(** [read_u32_le] at the unread part of the data. *)
Definition read_u32_le (data : bytes) : option (N * bytes) :=
  if (length data <? 4)%nat then None else Some (le_get (take 4 data), drop 4 data).

Definition serialize_names (names : list Identifier) : bytes :=
  fold_left (fun out name => append_u32_le out (N.of_nat (length (name_ name)) mod two32) ++ name_ name)
    names [kNameListVersion].

(** The loop of [parse_names]; every turn consumes at least four bytes. *)
Fixpoint parse_names_loop (fuel : nat) (data : bytes) : list Identifier :=
  match fuel with
  | O => []
  | S f =>
      match data with
      | [] => []
      | _ => match read_u32_le data with
             | None => []
             | Some (len, rest) =>
                 if (N.of_nat (length rest) <? len)%N then []
                 else identifier (take (N.to_nat len) rest) :: parse_names_loop f (drop (N.to_nat len) rest)
             end
      end
  end.
Definition parse_names (data : bytes) : list Identifier :=
  match data with
  | [] => []
  | v :: rest => if negb (bool_decide (v = kNameListVersion)) then [] else parse_names_loop (length rest) rest
  end.

Definition kStatsVersion : byte := x02.

(** [static_cast<uint64_t>] and back. *)
Definition to_u64 (v : Z) : N := Z.to_N (v mod 18446744073709551616).
Definition of_u64 (u : N) : Z := wrap64 (Z.of_N u).

Definition encode_stats (created_at last_write_at row_count : Z) : bytes :=
  kStatsVersion :: le_put 8 (to_u64 created_at) ++ le_put 8 (to_u64 last_write_at) ++ le_put 8 (to_u64 row_count).

Definition get_u64 (data : bytes) (pos : nat) : Z := of_u64 (le_get (take 8 (drop pos data))).

Definition decode_stats (data : bytes) : option (Z * Z * Z) :=
  match data with
  | [] => None
  | version :: _ =>
      if bool_decide (version = x01) && (length data =? 17)%nat then
        Some (get_u64 data 1, get_u64 data 9, -1)
      else if bool_decide (version = x02) && (length data =? 25)%nat then
        Some (get_u64 data 1, get_u64 data 9, get_u64 data 17)
      else None
  end.

Record DatabaseStats := mkDatabaseStats { db_created_at : Z }.
Record TableStats := mkTableStats { ts_created_at : Z; ts_last_write_at : Z; ts_row_count : Z }.
Definition default_table_stats : TableStats := mkTableStats 0 0 (-1).

(** ** [class KVCatalog] *)

Definition has_name (name : Identifier) (names : list Identifier) : bool :=
  existsb (fun n => ident_eqb n name) names.

(** [erase(find(...))]: the first occurrence. *)
Fixpoint erase_name (name : Identifier) (names : list Identifier) : list Identifier :=
  match names with
  | [] => []
  | n :: rest => if ident_eqb n name then rest else n :: erase_name name rest
  end.

Section Operations.
Context {E I : Type} `{!ScanIterator I, !KVEngine E I}.

Record KVCatalog := mkCatalog {
  cat_engine : E; last_read_status_ : Status; current_db_ : Identifier }.

Definition with_engine (e : E) (c : KVCatalog) : KVCatalog :=
  mkCatalog e (last_read_status_ c) (current_db_ c).
Definition with_status (st : Status) (c : KVCatalog) : KVCatalog :=
  mkCatalog (cat_engine c) st (current_db_ c).
Definition with_db (db : Identifier) (c : KVCatalog) : KVCatalog :=
  mkCatalog (cat_engine c) (last_read_status_ c) db.

Definition cat_is_open (c : KVCatalog) : bool := kv_is_open (cat_engine c).

(** A missing key reads as the empty text with status OK, a failed read as the
    empty text with its status. *)
Definition read_meta (key : bytes) (c : KVCatalog) : KVCatalog * bytes :=
  if negb (cat_is_open c) then (c, [])
  else match kv_get key (cat_engine c) with
       | Ok v => (with_status StOK c, v)
       | Err StNotFound => (with_status StOK c, [])
       | Err st => (with_status st c, [])
       end.

Definition write_meta (key value : bytes) (c : KVCatalog) : KVCatalog * bool :=
  if negb (cat_is_open c) then (c, false)
  else let '(e, st) := kv_put key value (cat_engine c) in (with_engine e c, bool_decide (st = StOK)).

(** [engine_->remove(key)] with the status ignored. *)
Definition drop_meta (key : bytes) (c : KVCatalog) : KVCatalog :=
  with_engine (kv_remove key (cat_engine c)).1 c.

Definition remove_prefix (prefix : bytes) (c : KVCatalog) : KVCatalog * bool :=
  if negb (cat_is_open c) || bool_decide (prefix = []) then (c, false)
  else let '(e, st) := kv_write_batch (range_batch prefix (prefix_end prefix)) (cat_engine c) in
       (with_engine e c, bool_decide (st = StOK)).

Definition list_databases (c : KVCatalog) : KVCatalog * list Identifier :=
  let '(c, data) := read_meta key_databases c in (c, parse_names data).
Definition list_tables (db : Identifier) (c : KVCatalog) : KVCatalog * list Identifier :=
  let '(c, data) := read_meta (db_tables db) c in (c, parse_names data).
Definition write_table_list (db : Identifier) (tables : list Identifier) (c : KVCatalog) : KVCatalog * bool :=
  write_meta (db_tables db) (serialize_names tables) c.

Definition database_exists (db : Identifier) (c : KVCatalog) : KVCatalog * bool :=
  let '(c, dbs) := list_databases c in (c, has_name db dbs).
Definition table_exists (db table : Identifier) (c : KVCatalog) : KVCatalog * bool :=
  let '(c, tables) := list_tables db c in (c, has_name table tables).

Definition use_database (db : Identifier) (c : KVCatalog) : KVCatalog * bool :=
  let '(c, found) := database_exists db c in
  if negb found then (c, false) else (with_db db c, true).

Definition get_table_schema (db table : Identifier) (c : KVCatalog) : KVCatalog * option TableSchema :=
  let '(c, data) := read_meta (db_schema db table) c in
  if bool_decide (data = []) then (c, None)
  else match schema_deserialize data with Ok s => (c, Some s) | Err _ => (c, None) end.

Definition open_table (db table : Identifier) (c : KVCatalog) : KVCatalog * result RelErrorCode Table :=
  if negb (cat_is_open c) then (c, Err RE_NOT_OPEN)
  else
    let '(c, schema) := get_table_schema db table c in
    match schema with
    | None => (c, Err (if bool_decide (last_read_status_ c = StOK) then RE_TABLE_NOT_FOUND else RE_KV_ERROR))
    | Some s => (c, Ok (make_table db s))
    end.

Definition open_current_table (table : Identifier) (c : KVCatalog) : KVCatalog * result RelErrorCode Table :=
  if ident_empty (current_db_ c) then (c, Err RE_NOT_OPEN) else open_table (current_db_ c) table c.

Definition primary_key_exists (db table : Identifier) (primary_key : Value) (c : KVCatalog)
    : KVCatalog * option bool :=
  if negb (cat_is_open c) || ident_empty db || ident_empty table || is_null primary_key then (c, None)
  else
    let '(c, opened) := open_table db table c in
    match opened with
    | Err _ => (c, None)
    | Ok t => match find t primary_key (cat_engine c) with
              | Ok _ => (c, Some true)
              | Err RE_NOT_FOUND => (c, Some false)
              | Err _ => (c, None)
              end
    end.

Definition create_database (now : Z) (db : Identifier) (c : KVCatalog) : KVCatalog * bool :=
  if negb (cat_is_open c) || ident_empty db then (c, false)
  else
    let '(c, found) := database_exists db c in
    if found then (c, false)
    else
      let '(c, dbs) := list_databases c in
      let '(c, ok) := write_meta key_databases (serialize_names (dbs ++ [db])) c in
      if negb ok then (c, false)
      else
        let '(c, ok) := write_table_list db [] c in
        if negb ok then ((write_meta key_databases (serialize_names dbs) c).1, false)
        else ((write_meta (db_stats db) (encode_stats now 0 (-1)) c).1, true).

Definition drop_database (db : Identifier) (c : KVCatalog) : KVCatalog * bool :=
  if negb (cat_is_open c) then (c, false)
  else
    let '(c, found) := database_exists db c in
    if negb found then (c, false)
    else
      let '(c, ok) := remove_prefix (db_schema_prefix db) c in
      if negb ok then (c, false)
      else
        let '(c, ok) := remove_prefix (db_data_prefix db) c in
        if negb ok then (c, false)
        else
          let '(c, ok) := remove_prefix (table_stats_prefix db) c in
          if negb ok then (c, false)
          else
            let c := drop_meta (db_tables db) (drop_meta (db_stats db) c) in
            let '(c, dbs) := list_databases c in
            let '(c, ok) := write_meta key_databases (serialize_names (erase_name db dbs)) c in
            if negb ok then (c, false)
            else (if ident_eqb (current_db_ c) db then with_db empty_identifier c else c, true).

Definition create_table (now : Z) (db : Identifier) (schema : TableSchema) (c : KVCatalog)
    : KVCatalog * bool :=
  if negb (cat_is_open c) then (c, false)
  else
    let '(c, found) := database_exists db c in
    if negb found || bool_decide (columns_ schema = []) then (c, false)
    else
      let '(c, exists_) := table_exists db (schema_name schema) c in
      if exists_ then (c, false)
      else if negb (bool_decide (validate schema = SE_OK)) then (c, false)
      else
        let '(c, ok) := write_meta (db_schema db (schema_name schema)) (schema_serialize schema) c in
        if negb ok then (c, false)
        else
          let c := (write_meta (table_stats_key db (schema_name schema)) (encode_stats now 0 0) c).1 in
          let '(c, tables) := list_tables db c in
          let '(c, ok) := write_table_list db (tables ++ [schema_name schema]) c in
          if negb ok then (drop_meta (db_schema db (schema_name schema)) c, false) else (c, true).

Definition drop_table (db table : Identifier) (c : KVCatalog) : KVCatalog * bool :=
  if negb (cat_is_open c) then (c, false)
  else
    let '(c, found) := database_exists db c in
    if negb found then (c, false)
    else
      let '(c, found) := table_exists db table c in
      if negb found then (c, false)
      else
        let '(c, ok) := remove_prefix (data_prefix db table) c in
        if negb ok then (c, false)
        else
          let c := drop_meta (table_stats_key db table) (drop_meta (db_schema db table) c) in
          let '(c, tables) := list_tables db c in
          write_table_list db (erase_name table tables) c.

Definition database_stats (db : Identifier) (c : KVCatalog) : KVCatalog * result RelErrorCode DatabaseStats :=
  let '(c, found) := database_exists db c in
  if negb found then (c, Err RE_NOT_FOUND)
  else
    let '(c, data) := read_meta (db_stats db) c in
    (c, Ok (mkDatabaseStats (match decode_stats data with Some (created, _, _) => created | None => 0 end))).

Definition table_stats (db table : Identifier) (c : KVCatalog) : KVCatalog * result RelErrorCode TableStats :=
  let '(c, found) := table_exists db table c in
  if negb found then (c, Err RE_TABLE_NOT_FOUND)
  else
    let '(c, data) := read_meta (table_stats_key db table) c in
    (c, Ok (match decode_stats data with
            | Some (created, last_write, rows) => mkTableStats created last_write rows
            | None => default_table_stats end)).

Definition touch_table (now : Z) (db table : Identifier) (row_delta : Z) (c : KVCatalog) : KVCatalog * bool :=
  let '(c, found) := table_exists db table c in
  if negb found then (c, false)
  else
    let '(c, stats) := table_stats db table c in
    let created := match stats with Ok s => ts_created_at s | Err _ => 0 end in
    let rows := match stats with Ok s => ts_row_count s | Err _ => -1 end in
    let rows := if 0 <=? rows then Z.max 0 (wrap64 (rows + row_delta)) else rows in
    write_meta (table_stats_key db table) (encode_stats created now rows) c.
End Operations.
Arguments KVCatalog E : clear implicits.
