(* ===== verification/CatalogSpec.v ===== *)
(** * What the catalog promises

    Round trips of the metadata records, and the effect of the data definition
    operations of [relation/kv_catalog.cpp] on the store, over any storage engine
    that satisfies the laws of [KvApi]. *)

From S2P Require Import Prelude Bytes OMap KvTypes Transactions KvApi SqlTypes Temporal KeyCodec SqlTruth SqlKeyRange Rewriter Schema RowCodec KeyPrefix Table TableSpec Catalog.
Local Open Scope Z_scope.

(** ** Round trips *)

Lemma length_le_put n v : length (le_put n v) = n.
Proof. unfold le_put. by rewrite length_reverse, length_be_put. Qed.

Lemma le_get_put n v : (v < 2 ^ (8 * N.of_nat n))%N -> le_get (le_put n v) = v.
Proof. intros Hv. unfold le_get, le_put. by rewrite reverse_involutive, be_or_get, be_get_put. Qed.

Lemma read_u32_le_put v rest : u32 v -> read_u32_le (le_put 4 v ++ rest) = Some (v, rest).
Proof.
  intros Hv. unfold read_u32_le. rewrite length_app, length_le_put. simpl.
  rewrite take_app_length', drop_app_length' by (by rewrite length_le_put). by rewrite le_get_put.
Qed.

Definition name_frame (name : Identifier) : bytes :=
  le_put 4 (N.of_nat (length (name_ name)) mod two32) ++ name_ name.

Lemma serialize_names_eq names :
  serialize_names names = kNameListVersion :: concat (map name_frame names).
Proof.
  unfold serialize_names. change (kNameListVersion :: concat (map name_frame names))
    with ([kNameListVersion] ++ concat (map name_frame names)).
  generalize [kNameListVersion]. induction names as [|n names IH]; intros out; simpl; [by rewrite app_nil_r|].
  rewrite IH. unfold append_u32_le, name_frame. by rewrite <- !app_assoc.
Qed.

Lemma parse_names_step fuel data len rest :
  read_u32_le data = Some (len, rest) -> (len <= N.of_nat (length rest))%N ->
  parse_names_loop (S fuel) data =
  identifier (take (N.to_nat len) rest) :: parse_names_loop fuel (drop (N.to_nat len) rest).
Proof.
  intros Hr Hl. cbn [parse_names_loop]. rewrite Hr. destruct data; [done|].
  by rewrite (proj2 (N.ltb_ge _ _)).
Qed.

Lemma parse_names_frames names fuel :
  Forall name_fits names -> (length names <= fuel)%nat ->
  parse_names_loop fuel (concat (map name_frame names)) = map reload_name names.
Proof.
  intros Hn. revert fuel. induction Hn as [|n names Hf _ IH]; intros fuel Hl; simpl in *; [by destruct fuel|].
  destruct fuel as [|fuel]; [lia|]. unfold name_fits in Hf. unfold name_frame at 1.
  rewrite N.mod_small by done. rewrite <- app_assoc.
  rewrite (parse_names_step _ _ (N.of_nat (length (name_ n))) (name_ n ++ concat (map name_frame names)));
    [|by rewrite read_u32_le_put|rewrite length_app; lia].
  rewrite Nat2N.id, take_app_exact, drop_app_exact. by rewrite IH by lia.
Qed.

Lemma names_roundtrip names : Forall name_fits names ->
  parse_names (serialize_names names) = map reload_name names.
Proof.
  intros Hn. rewrite serialize_names_eq. simpl. apply parse_names_frames; [done|].
  clear Hn. induction names as [|n names IH]; simpl; [lia|].
  rewrite length_app. unfold name_frame at 1. rewrite length_app, length_le_put. lia.
Qed.

Lemma of_to_u64 v : i64 v -> of_u64 (to_u64 v) = v.
Proof.
  unfold i64, of_u64, to_u64, wrap64, int64_min, int64_max. intros Hv.
  pose proof (Z.mod_pos_bound v 18446744073709551616 ltac:(lia)).
  rewrite Z2N.id by lia. rewrite Z.mod_mod by lia.
  destruct (Z.le_gt_cases 0 v).
  - rewrite Z.mod_small by lia. rewrite (proj2 (Z.leb_le _ _)); lia.
  - rewrite <- (Z_mod_plus_full v 1), Z.mod_small by lia. rewrite (proj2 (Z.leb_gt _ _)); lia.
Qed.

Lemma get_u64_at pre v rest pos : i64 v -> length pre = pos -> get_u64 (pre ++ le_put 8 (to_u64 v) ++ rest) pos = v.
Proof.
  intros Hv <-. unfold get_u64. rewrite drop_app_exact.
  rewrite take_app_length' by (by rewrite length_le_put). rewrite le_get_put, of_to_u64; [done|done|].
  unfold to_u64. pose proof (Z.mod_pos_bound v 18446744073709551616 ltac:(lia)).
  change (2 ^ (8 * N.of_nat 8))%N with 18446744073709551616%N. lia.
Qed.

Lemma stats_roundtrip a b c : i64 a -> i64 b -> i64 c -> decode_stats (encode_stats a b c) = Some (a, b, c).
Proof.
  intros Ha Hb Hc. unfold decode_stats. unfold encode_stats at 1.
  assert (length (encode_stats a b c) = 25%nat) as ->.
  { unfold encode_stats. simpl. by rewrite !length_app, !length_le_put. }
  simpl. unfold encode_stats. f_equal. f_equal; [f_equal|].
  - exact (get_u64_at [kStatsVersion] a _ 1 Ha eq_refl).
  - rewrite app_comm_cons. apply (get_u64_at (kStatsVersion :: le_put 8 (to_u64 a))); [done|].
    simpl. by rewrite length_le_put.
  - rewrite <- (app_nil_r (le_put 8 (to_u64 c))), app_comm_cons, app_assoc.
    apply (get_u64_at ((kStatsVersion :: le_put 8 (to_u64 a)) ++ le_put 8 (to_u64 b))); [done|].
    simpl. by rewrite length_app, !length_le_put.
Qed.

(** ** Metadata reads and writes *)

(** Keys of different families differ in their first [n] bytes. *)
Ltac differ_within n :=
  let H := fresh in intros H; apply (f_equal (take n)) in H; discriminate H.

Section Effects.
Context {E I : Type} `{KVEngineLaws E I}.
Implicit Types (c : KVCatalog E) (db table : Identifier).

Definition cat_ready c : Prop := kv_ready (cat_engine c).
Definition meta c : omap ByteValue := kv_view (cat_engine c).
Definition meta_at (k : bytes) c : bytes := default [] (mfind k (meta c)).

(** The names a store lists. *)
Definition databases_of c : list Identifier := parse_names (meta_at key_databases c).
Definition tables_of db c : list Identifier := parse_names (meta_at (db_tables db) c).

Lemma cat_ready_open c : cat_ready c -> cat_is_open c = true.
Proof. apply kv_ready_open. Qed.
Lemma meta_sorted c : cat_ready c -> sorted (meta c).
Proof. apply kv_view_sorted. Qed.
Hint Resolve meta_sorted : core.

Lemma read_meta_ready k c : cat_ready c -> read_meta k c = (with_status StOK c, meta_at k c).
Proof.
  intros Hc. unfold read_meta, meta_at, meta. rewrite cat_ready_open, kv_get_view by done. simpl.
  by destruct (mfind k (kv_view (cat_engine c))).
Qed.

Lemma database_exists_ready db c : cat_ready c ->
  database_exists db c = (with_status StOK c, has_name db (databases_of c)).
Proof. intros Hc. unfold database_exists, list_databases. by rewrite read_meta_ready. Qed.

Lemma list_databases_ready c : cat_ready c -> list_databases c = (with_status StOK c, databases_of c).
Proof. intros Hc. unfold list_databases. by rewrite read_meta_ready. Qed.

Lemma list_tables_ready db c : cat_ready c -> list_tables db c = (with_status StOK c, tables_of db c).
Proof. intros Hc. unfold list_tables. by rewrite read_meta_ready. Qed.

Lemma table_exists_ready db table c : cat_ready c ->
  table_exists db table c = (with_status StOK c, has_name table (tables_of db c)).
Proof. intros Hc. unfold table_exists. by rewrite list_tables_ready. Qed.

Lemma write_meta_ready k v c c' ok : cat_ready c -> write_meta k v c = (c', ok) ->
  cat_ready c' /\ current_db_ c' = current_db_ c /\ meta c' = if ok then minsert k v (meta c) else meta c.
Proof.
  intros Hc. unfold write_meta. rewrite cat_ready_open by done. simpl.
  destruct (kv_put k v (cat_engine c)) as [e st] eqn:Ep. intros [= <- <-].
  destruct (kv_put_view _ _ _ _ _ Hc Ep) as [Hr Hv]. split_and!; [done|done|].
  unfold meta. simpl. rewrite Hv. by case_bool_decide.
Qed.

Lemma drop_meta_ready k c : cat_ready c ->
  cat_ready (drop_meta k c) /\ current_db_ (drop_meta k c) = current_db_ c /\
  (meta (drop_meta k c) = merase k (meta c) \/ meta (drop_meta k c) = meta c).
Proof.
  intros Hc. unfold drop_meta, cat_ready, meta. simpl. destruct (kv_remove k (cat_engine c)) as [e st] eqn:Er.
  destruct (kv_remove_view _ _ _ _ Hc Er) as [Hr Hv]. simpl. split_and!; [done|done|].
  rewrite Hv. destruct (benign st); auto.
Qed.

Lemma remove_prefix_ready p c c' ok : cat_ready c -> prefix_end p <> [] -> remove_prefix p c = (c', ok) ->
  cat_ready c' /\ current_db_ c' = current_db_ c /\
  forall k, mfind k (meta c') = if ok && bool_decide (p `prefix_of` k) then None else mfind k (meta c).
Proof.
  intros Hc Hp. unfold remove_prefix. rewrite cat_ready_open by done. simpl.
  destruct (bool_decide_reflect (p = [])) as [->|Hne]; [done|].
  assert (Hlt : bytes_ltb p (prefix_end p) = true) by (by apply (prefix_interval p p Hp)).
  destruct (kv_write_batch _ (cat_engine c)) as [e st] eqn:Eb. intros [= <- <-].
  destruct (kv_range_view _ _ _ _ _ Hc Hlt Eb) as [Hr Hv]. split_and!; [done|done|]. intros k.
  unfold meta. simpl. rewrite Hv. case_bool_decide as Hst; simpl; [|done].
  rewrite find_erase_range by (by apply kv_view_sorted || by apply bytes_ltb_asym).
  pose proof (prefix_interval p k Hp) as Hi. unfold in_range.
  case_bool_decide as Hpk.
  - destruct (proj1 Hi Hpk) as [-> ->]. done.
  - destruct (bytes_ltb k p) eqn:E1; [done|]. destruct (bytes_ltb k (prefix_end p)) eqn:E2; [|done].
    exfalso. by apply Hpk, Hi.
Qed.

Lemma with_status_ready st c : cat_ready (with_status st c) <-> cat_ready c.
Proof. done. Qed.

(** Keys other than [k] survive dropping [k]. *)
Lemma drop_meta_other k k' c : cat_ready c -> k' <> k -> mfind k' (meta (drop_meta k c)) = mfind k' (meta c).
Proof.
  intros Hc Hne. destruct (drop_meta_ready k c Hc) as (_ & _ & [->| ->]); [|done].
  apply mfind_erase_ne; auto.
Qed.

Lemma write_meta_other k k' v c c' ok : cat_ready c -> write_meta k v c = (c', ok) -> k' <> k ->
  mfind k' (meta c') = mfind k' (meta c).
Proof.
  intros Hc Hw Hne. destruct (write_meta_ready _ _ _ _ _ Hc Hw) as (_ & _ & ->).
  destruct ok; [apply mfind_insert_ne; auto|done].
Qed.

Lemma write_meta_self k v c c' : cat_ready c -> write_meta k v c = (c', true) -> mfind k (meta c') = Some v.
Proof.
  intros Hc Hw. destruct (write_meta_ready _ _ _ _ _ Hc Hw) as (_ & _ & ->). apply mfind_insert_eq.
Qed.

(** ** CREATE TABLE *)

Definition table_meta_keys db table : list bytes :=
  [db_schema db table; table_stats_key db table; db_tables db].

Lemma create_table_effect now db s c c' : cat_ready c -> create_table now db s c = (c', true) ->
  cat_ready c' /\ current_db_ c' = current_db_ c /\
  has_name db (databases_of c) = true /\ has_name (schema_name s) (tables_of db c) = false /\
  validate s = SE_OK /\
  mfind (db_schema db (schema_name s)) (meta c') = Some (schema_serialize s) /\
  mfind (db_tables db) (meta c') = Some (serialize_names (tables_of db c ++ [schema_name s])) /\
  forall k, k ∉ table_meta_keys db (schema_name s) -> mfind k (meta c') = mfind k (meta c).
Proof.
  intros Hc. unfold create_table. rewrite cat_ready_open by done. simpl.
  rewrite database_exists_ready by done. destruct (has_name db (databases_of c)) eqn:Ed; simpl; [|done].
  case_bool_decide; [done|]. rewrite table_exists_ready by done.
  change (tables_of db (with_status StOK c)) with (tables_of db c).
  destruct (has_name (schema_name s) (tables_of db c)) eqn:Et; [done|].
  case_bool_decide as Hval; [|done]. simpl.
  set (c0 := with_status StOK (with_status StOK c)). assert (Hc0 : cat_ready c0) by done.
  destruct (write_meta (db_schema db (schema_name s)) (schema_serialize s) c0) as [c1 ok1] eqn:E1.
  destruct ok1; simpl; [|done]. destruct (write_meta_ready _ _ _ _ _ Hc0 E1) as (Hc1 & Hd1 & Hm1).
  destruct (write_meta (table_stats_key db (schema_name s)) (encode_stats now 0 0) c1) as [c2 ok2] eqn:E2. simpl.
  destruct (write_meta_ready _ _ _ _ _ Hc1 E2) as (Hc2 & Hd2 & Hm2). rewrite list_tables_ready by done.
  destruct (write_table_list db (tables_of db c2 ++ [schema_name s]) (with_status StOK c2)) as [c3 ok3] eqn:E3.
  destruct ok3; simpl; [|done]. intros [= <-]. unfold write_table_list in E3.
  destruct (write_meta_ready _ _ _ _ _ (Hc2 : cat_ready (with_status StOK c2)) E3) as (Hc3 & Hd3 & Hm3).
  assert (Hts : tables_of db c2 = tables_of db c).
  { unfold tables_of, meta_at. erewrite (write_meta_other _ _ _ _ _ _ Hc1 E2) by differ_within 15%nat.
    by erewrite (write_meta_other _ _ _ _ _ _ Hc0 E1) by differ_within 9%nat. }
  split_and!; try done; [by rewrite Hd3; simpl; rewrite Hd2, Hd1| | |].
  - erewrite (write_meta_other _ _ _ (with_status StOK c2) _ _ Hc2 E3) by differ_within 9%nat.
    change (meta (with_status StOK c2)) with (meta c2).
    erewrite (write_meta_other _ _ _ _ _ _ Hc1 E2) by differ_within 9%nat. by apply (write_meta_self _ _ _ _ Hc0 E1).
  - rewrite <- Hts. by apply (write_meta_self _ _ (with_status StOK c2) _ Hc2 E3).
  - intros k Hk. unfold table_meta_keys in Hk. rewrite !not_elem_of_cons in Hk. destruct Hk as (Hk1 & Hk2 & Hk3 & _).
    rewrite (write_meta_other _ _ _ (with_status StOK c2) _ _ Hc2 E3 Hk3).
    change (meta (with_status StOK c2)) with (meta c2).
    by rewrite (write_meta_other _ _ _ _ _ _ Hc1 E2 Hk2), (write_meta_other _ _ _ _ _ _ Hc0 E1 Hk1).
Qed.

Lemma open_table_ready db table c : cat_ready c ->
  (open_table db table c).2 =
  match meta_at (db_schema db table) c with
  | [] => Err RE_TABLE_NOT_FOUND
  | data => match schema_deserialize data with
            | Ok s => Ok (make_table db s) | Err _ => Err RE_TABLE_NOT_FOUND end
  end.
Proof.
  intros Hc. unfold open_table, get_table_schema. rewrite cat_ready_open, read_meta_ready by done. simpl.
  destruct (meta_at (db_schema db table) c) as [|b l]; simpl; [done|]. by destruct (schema_deserialize (b :: l)).
Qed.

Lemma db_schema_inj db1 t1 db2 t2 : name_ok db1 -> name_ok db2 -> name_ok t1 -> name_ok t2 ->
  db_schema db1 t1 = db_schema db2 t2 -> same_name db1 db2 /\ same_name t1 t2.
Proof.
  intros Hd1 Hd2 Ht1 Ht2 Heq. unfold db_schema in Heq. apply app_inv_head in Heq.
  apply identifier_inj in Heq as [Hd Heq]; [|done|done]. apply app_inv_head in Heq. split; [done|].
  rewrite <- (app_nil_r (encode_identifier t1)), <- (app_nil_r (encode_identifier t2)) in Heq.
  by apply identifier_inj in Heq as [? _].
Qed.

Lemma table_stats_key_inj db1 t1 db2 t2 : name_ok db1 -> name_ok db2 -> name_ok t1 -> name_ok t2 ->
  table_stats_key db1 t1 = table_stats_key db2 t2 -> same_name db1 db2 /\ same_name t1 t2.
Proof.
  intros Hd1 Hd2 Ht1 Ht2 Heq. apply db_schema_inj; try done. unfold table_stats_key in Heq. apply app_inv_head in Heq.
  unfold db_schema. by rewrite Heq.
Qed.

Lemma db_tables_inj db1 db2 : name_ok db1 -> name_ok db2 -> db_tables db1 = db_tables db2 -> same_name db1 db2.
Proof.
  intros Hd1 Hd2 Heq. unfold db_tables in Heq. apply app_inv_head in Heq.
  rewrite <- (app_nil_r (encode_identifier db1)), <- (app_nil_r (encode_identifier db2)) in Heq.
  by apply identifier_inj in Heq as [? _].
Qed.

Lemma table_stats_ready db table c : cat_ready c ->
  (table_stats db table c).2 =
  if has_name table (tables_of db c)
  then Ok (match decode_stats (meta_at (table_stats_key db table) c) with
           | Some (created, last_write, rows) => mkTableStats created last_write rows
           | None => default_table_stats end)
  else Err RE_TABLE_NOT_FOUND.
Proof.
  intros Hc. unfold table_stats. rewrite table_exists_ready by done. destruct (has_name table _); [|done]. cbn [negb].
  by rewrite read_meta_ready.
Qed.

Lemma database_stats_ready db c : cat_ready c ->
  (database_stats db c).2 =
  if has_name db (databases_of c)
  then Ok (mkDatabaseStats (match decode_stats (meta_at (db_stats db) c) with Some (created, _, _) => created | None => 0 end))
  else Err RE_NOT_FOUND.
Proof.
  intros Hc. unfold database_stats. rewrite database_exists_ready by done. destruct (has_name db _); [|done]. cbn [negb].
  by rewrite read_meta_ready.
Qed.

(** Rows are not metadata. *)
Lemma data_key_not_meta db table d k : data_prefix db table `prefix_of` k -> k ∉ table_meta_keys d table.
Proof.
  intros [z ->]. unfold table_meta_keys, data_prefix. rewrite !not_elem_of_cons, <- !app_assoc.
  split_and!; [differ_within 2%nat..|apply not_elem_of_nil].
Qed.

Lemma rows_kept (t : Table) (m m' : omap ByteValue) pk : table_ok t ->
  (forall k, key_prefix_ t `prefix_of` k -> mfind k m' = mfind k m) -> abs t m' pk = abs t m pk.
Proof. intros Ht Hk. unfold abs. by rewrite Hk by (by apply encode_key_under). Qed.

Lemma has_name_snoc name names : ident_eqb (reload_name name) name = true ->
  has_name name (map reload_name (names ++ [name])) = true.
Proof.
  intros He. unfold has_name. rewrite map_app, existsb_app. simpl. by rewrite He, orb_true_r.
Qed.

Lemma has_name_reload name names : Forall stable_name names ->
  has_name name (map reload_name names) = has_name name names.
Proof.
  intros Hs. induction Hs as [|n names Hn _ IH]; simpl; [done|]. rewrite IH. f_equal.
  apply stable_name_eqb, ident_eqb_eq in Hn. unfold ident_eqb. by rewrite Hn.
Qed.

Lemma stored_open db name s c : cat_ready c -> mfind (db_schema db name) (meta c) = Some (schema_serialize s) ->
  schema_deserialize (schema_serialize s) = Ok (reload s) ->
  (open_table db name c).2 = Ok (make_table db (reload s)).
Proof.
  intros Hc Hf Hd. rewrite open_table_ready by done. unfold meta_at. rewrite Hf. simpl.
  destruct (schema_serialize s) eqn:Es; [done|]. by rewrite Hd.
Qed.

(** C28: CREATE TABLE makes exactly one table. Let the table be described by a
    well-formed schema of at most 65535 columns whose names, and the names of the
    tables of the database, survive storage (shorter than 4 GiB, read back as
    equal). When [create_table] succeeds on an engine that keeps its contract, the
    table opens with a schema equal to the one given; the list of the tables of
    its database is the old one with the table added behind, and it exists there
    beside every table that did; the lists of the other databases, the list of
    databases, their statistics and the current database are as before; every
    other table of every database opens exactly as before with the statistics it
    had; and no row of any table changes. *)
Theorem create_table_opens now db s c c' :
  cat_ready c -> create_table now db s c = (c', true) ->
  schema_wf s -> (N.of_nat (length (columns_ s)) <= 65535)%N ->
  stable_name (schema_name s) -> Forall (fun col => stable_name (col_name col)) (columns_ s) ->
  Forall stable_name (tables_of db c) -> name_ok db -> name_ok (schema_name s) ->
  (open_table db (schema_name s) c').2 = Ok (make_table db (reload s)) /\ schema_eqb s (reload s) = true /\
  (list_tables db c').2 = map reload_name ((list_tables db c).2 ++ [schema_name s]) /\
  (forall t2, (table_exists db t2 c').2 = (table_exists db t2 c).2 || ident_eqb (schema_name s) t2) /\
  (forall db2, name_ok db2 -> ~ same_name db db2 -> (list_tables db2 c').2 = (list_tables db2 c).2) /\
  (list_databases c').2 = (list_databases c).2 /\ current_db_ c' = current_db_ c /\
  (forall db2, (database_stats db2 c').2 = (database_stats db2 c).2) /\
  (forall db2 t2, name_ok db2 -> name_ok t2 -> ~ (same_name db db2 /\ same_name (schema_name s) t2) ->
   (open_table db2 t2 c').2 = (open_table db2 t2 c).2 /\ (table_stats db2 t2 c').2 = (table_stats db2 t2 c).2) /\
  (forall t pk, table_ok t -> abs t (meta c') pk = abs t (meta c) pk).
Proof.
  intros Hc Hcreate Hwf Hlen Hn Hcols Hfit Hdb Htb.
  destruct (create_table_effect _ _ _ _ _ Hc Hcreate) as (Hc' & Hcur & _ & _ & _ & Hs & Ht & Hframe).
  assert (Hmeta : forall k, k <> db_schema db (schema_name s) -> k <> table_stats_key db (schema_name s) -> k <> db_tables db ->
    meta_at k c' = meta_at k c).
  { intros k H1 H2 H3. unfold meta_at. rewrite Hframe; [done|]. unfold table_meta_keys. rewrite !not_elem_of_cons.
    split_and!; [done..|apply not_elem_of_nil]. }
  assert (Hlist : tables_of db c' = map reload_name (tables_of db c ++ [schema_name s])).
  { unfold tables_of at 1, meta_at. rewrite Ht. simpl. apply names_roundtrip, Forall_app.
    split; [eapply Forall_impl; [exact Hfit|]; by intros n []|constructor; [apply Hn|done]]. }
  assert (Hhere : forall t2, has_name t2 (tables_of db c') = has_name t2 (tables_of db c) || ident_eqb (schema_name s) t2).
  { intros t2. rewrite Hlist, has_name_reload by (apply Forall_app; split; [done|by constructor]).
    unfold has_name. rewrite existsb_app. cbn. by rewrite orb_false_r. }
  assert (Hother : forall db2, name_ok db2 -> ~ same_name db db2 -> tables_of db2 c' = tables_of db2 c).
  { intros db2 Hd2 Hne. unfold tables_of. rewrite Hmeta; [done|differ_within 9%nat|differ_within 15%nat|].
    intros Heq. apply Hne. by apply db_tables_inj in Heq. }
  assert (Hdbs : databases_of c' = databases_of c).
  { unfold databases_of. rewrite Hmeta; [done|differ_within 15%nat..]. }
  split_and!.
  - apply stored_open; [done|done|]. apply reload_roundtrip; [done|apply Hn| |done].
    eapply Forall_impl; [exact Hcols|]. by intros col [].
  - by apply schema_eqb_reload.
  - by rewrite !list_tables_ready by done.
  - intros t2. rewrite !table_exists_ready by done. apply Hhere.
  - intros db2 Hd2 Hne. rewrite !list_tables_ready by done. by apply Hother.
  - by rewrite !list_databases_ready by done.
  - done.
  - intros db2. rewrite !database_stats_ready, Hdbs by done. rewrite Hmeta; [done|differ_within 9%nat..].
  - intros db2 t2 Hd2 Ht2 Hne. split.
    + rewrite !open_table_ready by done. rewrite Hmeta; [done| |differ_within 9%nat..].
      intros Heq. apply Hne. by apply db_schema_inj in Heq as [? ?].
    + rewrite !table_stats_ready by done. rewrite (Hmeta (table_stats_key db2 t2)); [|differ_within 9%nat| |differ_within 15%nat].
      2:{ intros Heq. apply Hne. by apply table_stats_key_inj in Heq as [? ?]. }
      destruct (decide (normalized_ db = normalized_ db2)) as [Hsame|Hdiff]; [|by rewrite Hother].
      assert (Ht2' : forall c, tables_of db2 c = tables_of db c).
      { intros c0. unfold tables_of, db_tables, encode_identifier. by rewrite Hsame. }
      rewrite !Ht2', Hhere. destruct (ident_eqb (schema_name s) t2) eqn:Eid; [|by rewrite orb_false_r].
      apply ident_eqb_eq in Eid. by destruct Hne.
  - intros t pk Htok. apply rows_kept; [done|]. intros k Hk. apply Hframe. rewrite key_prefix_eq in Hk by done.
    destruct Hk as [z ->]. unfold table_meta_keys, data_prefix. rewrite !not_elem_of_cons, <- !app_assoc.
    split_and!; [differ_within 2%nat..|apply not_elem_of_nil].
Qed.

(** ** DROP TABLE *)

Lemma drop_table_effect db table c c' : cat_ready c -> drop_table db table c = (c', true) ->
  cat_ready c' /\ current_db_ c' = current_db_ c /\
  has_name table (tables_of db c) = true /\
  mfind (db_tables db) (meta c') = Some (serialize_names (erase_name table (tables_of db c))) /\
  (forall k, data_prefix db table `prefix_of` k -> mfind k (meta c') = None) /\
  (forall k, k ∉ table_meta_keys db table -> ~ data_prefix db table `prefix_of` k ->
   mfind k (meta c') = mfind k (meta c)).
Proof.
  intros Hc. unfold drop_table. rewrite cat_ready_open by done. simpl.
  rewrite database_exists_ready by done. destruct (has_name db (databases_of c)); simpl; [|done].
  rewrite table_exists_ready by done. change (tables_of db (with_status StOK c)) with (tables_of db c).
  destruct (has_name table (tables_of db c)) eqn:Et; simpl; [|done].
  set (c0 := with_status StOK (with_status StOK c)). assert (Hc0 : cat_ready c0) by done.
  destruct (remove_prefix (data_prefix db table) c0) as [c1 ok1] eqn:E1. destruct ok1; simpl; [|done].
  destruct (remove_prefix_ready _ _ _ _ Hc0 (data_prefix_end _ _) E1) as (Hc1 & Hd1 & Hm1).
  set (c2 := drop_meta (db_schema db table) c1).
  destruct (drop_meta_ready (db_schema db table) c1 Hc1) as (Hc2 & Hd2 & Hm2). fold c2 in Hc2, Hd2, Hm2.
  set (c3 := drop_meta (table_stats_key db table) c2).
  destruct (drop_meta_ready (table_stats_key db table) c2 Hc2) as (Hc3 & Hd3 & Hm3). fold c3 in Hc3, Hd3, Hm3.
  rewrite list_tables_ready by done. intros E4. unfold write_table_list in E4.
  destruct (write_meta_ready _ _ (with_status StOK c3) _ _ Hc3 E4) as (Hc4 & Hd4 & _).
  assert (Hother : forall k, k ∉ table_meta_keys db table ->
    mfind k (meta c') = if bool_decide (data_prefix db table `prefix_of` k) then None else mfind k (meta c)).
  { intros k Hk. unfold table_meta_keys in Hk. rewrite !not_elem_of_cons in Hk. destruct Hk as (Hk1 & Hk2 & Hk3 & _).
    rewrite (write_meta_other _ _ _ (with_status StOK c3) _ _ Hc3 E4 Hk3).
    change (meta (with_status StOK c3)) with (meta c3). unfold c3, c2.
    rewrite !drop_meta_other by done. by rewrite Hm1. }
  assert (Hts : tables_of db c3 = tables_of db c).
  { unfold tables_of, meta_at, c3, c2. rewrite !drop_meta_other; [|done|differ_within 9%nat|done|differ_within 15%nat].
    rewrite Hm1, bool_decide_eq_false_2; [done|]. intros [z Hz]. unfold db_tables, data_prefix in Hz.
    rewrite <- !app_assoc in Hz. revert Hz. differ_within 2%nat. }
  split_and!; try done; [exact (eq_trans Hd4 (eq_trans Hd3 (eq_trans Hd2 Hd1)))| | |].
  - rewrite <- Hts. by apply (write_meta_self _ _ (with_status StOK c3) _ Hc3 E4).
  - intros k Hk. rewrite Hother by (by eapply data_key_not_meta). by rewrite bool_decide_eq_true_2.
  - intros k Hk Hp. rewrite Hother by done. by rewrite bool_decide_eq_false_2.
Qed.

Lemma erase_name_gone name names : NoDup (map normalized_ names) ->
  has_name name (erase_name name names) = false.
Proof.
  induction names as [|n names IH]; simpl; [done|]. rewrite NoDup_cons. intros [Hn Hnd].
  destruct (ident_eqb n name) eqn:En; [|simpl; rewrite En; by apply IH].
  apply ident_eqb_eq in En. apply not_true_iff_false. intros Hh. apply Hn.
  unfold has_name in Hh. apply existsb_exists in Hh as (x & Hx & He). apply ident_eqb_eq in He.
  apply list_elem_of_fmap. exists x. split; [congruence|by apply list_elem_of_In].
Qed.

Lemma erase_name_incl (P : Identifier -> Prop) name names : Forall P names -> Forall P (erase_name name names).
Proof. induction 1 as [|n names Hn Hns IH]; simpl; [constructor|]. case_match; [done|by constructor]. Qed.

(** DROP TABLE removes exactly one table. When [drop_table] succeeds, the
    table is no longer listed, not one of its rows is left, the other tables of
    the database stay listed, and every row of every other table is as before. *)
Theorem drop_table_exact db table c c' :
  cat_ready c -> drop_table db table c = (c', true) ->
  Forall stable_name (tables_of db c) -> NoDup (map normalized_ (tables_of db c)) ->
  name_ok db -> name_ok table ->
  (table_exists db table c').2 = false /\
  (forall other, ~ same_name other table ->
   (table_exists db other c').2 = (table_exists db other c).2) /\
  (forall t pk, table_ok t -> same_name (db_name_ t) db -> same_name (schema_name (schema_ t)) table ->
   abs t (meta c') pk = None) /\
  (forall t pk, table_ok t -> ~ (same_name (db_name_ t) db /\ same_name (schema_name (schema_ t)) table) ->
   abs t (meta c') pk = abs t (meta c) pk).
Proof.
  intros Hc Hdrop Hst Hnd Hdb Htb.
  destruct (drop_table_effect _ _ _ _ Hc Hdrop) as (Hc' & _ & _ & Hl & Hgone & Hkeep).
  assert (Hlist : forall x, (table_exists db x c').2 = has_name x (erase_name table (tables_of db c))).
  { intros x. rewrite table_exists_ready by done. simpl. unfold tables_of at 1, meta_at. rewrite Hl. simpl.
    rewrite names_roundtrip, has_name_reload; [done| |]; apply erase_name_incl; [done|].
    eapply Forall_impl; [exact Hst|]. by intros n []. }
  split_and!.
  - rewrite Hlist. by apply erase_name_gone.
  - intros other Hne. rewrite Hlist, table_exists_ready by done. simpl.
    clear -Hne. induction (tables_of db c) as [|n names IH]; simpl; [done|].
    destruct (ident_eqb n table) eqn:En; simpl; [|by rewrite IH].
    destruct (ident_eqb n other) eqn:Eo; [|done]. apply ident_eqb_eq in En, Eo.
    exfalso. apply Hne. unfold same_name. congruence.
  - intros t pk Ht Hd Hn. unfold abs. rewrite Hgone; [done|]. rewrite encode_key_prefix, key_prefix_eq by done.
    exists (to_column_key pk (primary_key_type_ t)). unfold data_prefix, encode_identifier. by rewrite Hd, Hn.
  - intros t pk Ht Hne. apply rows_kept; [done|]. intros k Hk. rewrite key_prefix_eq in Hk by done.
    apply Hkeep.
    + destruct Hk as [z ->]. unfold table_meta_keys, data_prefix. rewrite !not_elem_of_cons, <- !app_assoc.
      split_and!; [differ_within 2%nat..|apply not_elem_of_nil].
    + intros [z2 Hz2]. destruct Hk as [z1 ->]. apply data_prefix_inj in Hz2 as (? & ? & _);
        [by apply Hne|apply Ht|done|apply Ht|done].
Qed.
End Effects.

(** A failed read of the list of databases is taken for an empty list. When the
    read fails with anything but NotFound (a timeout, no leader) and the write
    then succeeds, [create_database] replaces the list of all databases by the
    new one alone. *)
Theorem create_database_forgets {E I} `{!ScanIterator I, !KVEngine E I} now db (c c' : KVCatalog E) st :
  kv_get key_databases (cat_engine c) = Err st -> st <> StNotFound ->
  create_database now db c = (c', true) ->
  exists e1, kv_put key_databases (serialize_names [db]) (cat_engine c) = (e1, StOK).
Proof.
  intros Hget Hst. unfold create_database, database_exists, list_databases, read_meta.
  destruct (cat_is_open c) eqn:Ho; simpl; [|done]. destruct (ident_empty db); [done|]. simpl. rewrite Hget.
  assert (Hm : match st with StNotFound => (with_status StOK c, []) | _ => (with_status st c, [] : bytes) end =
    (with_status st c, [])) by (by destruct st). rewrite Hm. simpl.
  unfold cat_is_open in Ho |- *. simpl. rewrite Ho. simpl. rewrite Hget.
  assert (Hm2 : match st with StNotFound => (with_status StOK (with_status st c), [])
                | _ => (with_status st (with_status st c), [] : bytes) end =
    (with_status st (with_status st c), [])) by (by destruct st). rewrite Hm2. simpl.
  unfold write_meta, cat_is_open. simpl. rewrite Ho. simpl.
  destruct (kv_put key_databases (serialize_names [db]) (cat_engine c)) as [e1 st1].
  case_bool_decide; [|done]. subst. by exists e1.
Qed.

(** ** A catalog of the in-memory engine *)

Definition demo_db : Identifier := identifier (bytes_of_string "Db").
Definition demo_catalog : KVCatalog Conn :=
  (create_database 5 demo_db (mkCatalog demo_conn StOK empty_identifier)).1.

Lemma idle_conn_ready (c : Conn) : MockStore.is_open_ (c_store c) = true -> sorted (MockStore.data_ (c_store c)) ->
  c_eng c = MockEngine.new_engine -> conn_ready c.
Proof. destruct c as [self s eng]. simpl. intros Ho Hs ->. by split. Qed.

Lemma demo_catalog_ready : cat_ready demo_catalog.
Proof.
  apply idle_conn_ready; [vm_compute; reflexivity| |vm_compute; reflexivity].
  apply sorted_by_compute. vm_compute. reflexivity.
Qed.

Lemma create_table_opens_witness :
  let c := (create_table 6 demo_db demo_schema demo_catalog).1 in
  (open_table demo_db (schema_name demo_schema) c).2 = Ok (make_table demo_db (reload demo_schema)).
Proof.
  intros c. apply (create_table_opens 6 demo_db demo_schema demo_catalog c).
  - apply demo_catalog_ready.
  - vm_compute. reflexivity.
  - apply wf_build.
  - vm_compute. discriminate.
  - vm_compute. split_and!; reflexivity.
  - repeat constructor; vm_compute; reflexivity.
  - replace (tables_of demo_db demo_catalog) with (@nil Identifier); [constructor|vm_compute; reflexivity].
  - vm_compute. reflexivity.
  - vm_compute. reflexivity.
Defined.

Definition demo_catalog2 : KVCatalog Conn := (create_table 6 demo_db demo_schema demo_catalog).1.

Lemma demo_tables : tables_of demo_db demo_catalog2 = [identifier (bytes_of_string "users")].
Proof. vm_compute. reflexivity. Qed.

Lemma drop_table_exact_witness :
  (table_exists demo_db (schema_name demo_schema)
     (drop_table demo_db (schema_name demo_schema) demo_catalog2).1).2 = false.
Proof.
  apply (drop_table_exact demo_db (schema_name demo_schema) demo_catalog2).
  - apply idle_conn_ready; [vm_compute; reflexivity| |vm_compute; reflexivity].
    apply sorted_by_compute. vm_compute. reflexivity.
  - vm_compute. reflexivity.
  - rewrite demo_tables. constructor; [vm_compute; split_and!; reflexivity|constructor].
  - rewrite demo_tables. apply NoDup_singleton.
  - vm_compute. reflexivity.
  - vm_compute. reflexivity.
Defined.
