(* ===== verification/Planner.v ===== *)
(** * Plan trees: [sql_types/query.h], [sql_types/query_clause.h], [planner/plan.h],
    [planner/optimizer.cpp] (the entry), [planner/planner.cpp]

    The statements, the plan nodes, the entry of the optimizer and the planner. The estimated costs a
    planner attaches to its nodes are floating-point numbers that only EXPLAIN
    prints; they are not modelled, and neither are the texts of nodes. *)

From S2P Require Import Prelude Bytes SqlTypes KeyCodec SqlTruth SqlKeyRange Rewriter Schema Optimizer.
Local Open Scope Z_scope.

(** ** Statements *)

Inductive OrderDirection := ASC | DESC.
#[export] Instance OrderDirection_eq_dec : EqDecision OrderDirection.
Proof. solve_decision. Defined.

Record OrderByItem := mkOrderBy { ob_column : Identifier; ob_direction : OrderDirection }.

(** Row counts are [size_t]. *)
Record LimitClause := mkLimit { row_count_ : option N; offset_ : option N }.
Definition has_limit (l : LimitClause) : bool := match row_count_ l with Some _ => true | None => false end.
Definition has_offset (l : LimitClause) : bool := match offset_ l with Some _ => true | None => false end.
Definition limit_value (l : LimitClause) : N := default 0%N (row_count_ l).
Definition offset_value (l : LimitClause) : N := default 0%N (offset_ l).

Record ColumnRef := mkColumnRef { cr_column : Identifier; cr_table : Identifier; cr_alias : option Identifier }.

(** [column == "*"] compares with the lower-cased text. *)
Definition is_wildcard (c : ColumnRef) : bool :=
  ident_empty (cr_column c) || bytes_eqb (normalized_ (cr_column c)) (str "*").
Definition ref_display_name (c : ColumnRef) : bytes :=
  match cr_alias c with Some a => display_name a | None => display_name (cr_column c) end.

Record SelectQuery := mkSelect {
  sel_table : Identifier; sel_columns : list ColumnRef; sel_where : option Condition;
  sel_order_by : list OrderByItem; sel_limit : LimitClause }.
Definition select_all (q : SelectQuery) : bool :=
  match sel_columns q with [] => true | c :: _ => is_wildcard c end.

Record InsertQuery := mkInsert {
  ins_table : Identifier; ins_columns : list Identifier; ins_values : list (list Value) }.
Record UpdateQuery := mkUpdate {
  upd_table : Identifier; upd_assignments : list (Identifier * Value); upd_where : option Condition }.
Record DeleteQuery := mkDelete { del_table : Identifier; del_where : option Condition }.

Inductive TransactionKind := TX_BEGIN | TX_COMMIT | TX_ROLLBACK.

Inductive Query :=
| QSelect (q : SelectQuery) | QInsert (q : InsertQuery) | QUpdate (q : UpdateQuery) | QDelete (q : DeleteQuery)
| QCreateTable (database table : Identifier) (columns : list ColumnDef)
| QDropTable (database table : Identifier)
| QCreateDatabase (database : Identifier) | QDropDatabase (database : Identifier)
| QUseDatabase (database : Identifier) | QTransaction (kind : TransactionKind).

Definition query_where (q : Query) : option Condition :=
  match q with
  | QSelect s => sel_where s | QUpdate u => upd_where u | QDelete d => del_where d | _ => None
  end.

(** ** The optimized statement and the plan tree *)

Record OptimizedQuery := mkOptimized {
  oq_query : Query; oq_db : Identifier; oq_table : Identifier; oq_primary_key : Identifier;
  oq_primary_key_type : DataType; oq_ranges : list KeyRange; oq_exclude_keys : list Value;
  oq_remaining_filter : option Condition }.

Record TableRef := mkTableRef {
  tr_db : Identifier; tr_table : Identifier; tr_primary_key : Identifier; tr_primary_key_type : DataType }.

(** A write or DDL node keeps the database and the table of its optimized statement. *)
Inductive PlanNode :=
| FullScan (target : TableRef) (ascending : bool)
| IndexScanPlan (target : TableRef) (range : KeyRange) (ascending : bool)
| RangeUnionPlan (target : TableRef) (ranges : list KeyRange) (ascending : bool) (exclude_keys : list Value)
| FilterPlan (child : PlanNode) (condition : option Condition)
| SortPlan (child : PlanNode) (order_by : list OrderByItem) (is_top_n : bool) (top_n : N)
| LimitPlan (child : PlanNode) (limit : LimitClause)
| ProjectPlan (child : PlanNode) (columns : list ColumnRef)
| UpdatePlan (at_ : Identifier * Identifier) (query : UpdateQuery) (child : PlanNode)
| DeletePlan (at_ : Identifier * Identifier) (query : DeleteQuery) (child : PlanNode)
| InsertPlan (at_ : Identifier * Identifier) (query : InsertQuery)
| DdlPlan (at_ : Identifier * Identifier) (query : Query).

Inductive Ordering := ORD_NONE | PK_ASC | PK_DESC.

Fixpoint output_order (p : PlanNode) : Ordering :=
  match p with
  | FullScan _ a | IndexScanPlan _ _ a | RangeUnionPlan _ _ a _ => if a then PK_ASC else PK_DESC
  | FilterPlan c _ | LimitPlan c _ | ProjectPlan c _ => output_order c
  | _ => ORD_NONE
  end.

Inductive PlanErrorCode :=
| PE_OK | PE_UNSUPPORTED_QUERY | PE_INVALID_CONDITION
| PE_CATALOG_NOT_OPEN | PE_TABLE_NOT_FOUND | PE_COLUMN_NOT_FOUND | PE_NO_PRIMARY_KEY | PE_EMPTY_TABLE_NAME
| PE_UNSUPPORTED_PLAN.

(** ** The optimizer's entry *)

(** What the optimizer and the validator ask of the interface [Catalog]
    ([sql_types/catalog.h]). *)
Class CatalogView (C : Type) := {
  cv_is_open : C -> bool;
  cv_current_database : C -> Identifier;
  cv_database_exists : C -> Identifier -> bool;
  cv_table_exists : C -> Identifier -> Identifier -> bool;
  cv_table_schema : C -> Identifier -> Identifier -> option TableSchema;
  cv_primary_key_exists : C -> Identifier -> Identifier -> Value -> option bool }.

Definition target_table (q : Query) : option Identifier :=
  match q with
  | QSelect s => Some (sel_table s) | QInsert i => Some (ins_table i)
  | QUpdate u => Some (upd_table u) | QDelete d => Some (del_table d)
  | QCreateTable _ t _ => Some t | QDropTable _ t => Some t
  | _ => None
  end.

(** An error code, or a fault of the rewriter (see [Optimizer]). *)
Definition OptimizeError : Type := PlanErrorCode + PlanFault.

Section optimize.
Context {C : Type} `{!CatalogView C} (scan_is_cheaper : nat -> bool) (catalog : C).

Definition resolve_target (q : Query) : result PlanErrorCode (Identifier * Identifier) :=
  if negb (cv_is_open catalog) then Err PE_CATALOG_NOT_OPEN
  else match target_table q with
       | None => Err PE_UNSUPPORTED_QUERY
       | Some table =>
           let db := cv_current_database catalog in
           if ident_empty db then Err PE_CATALOG_NOT_OPEN
           else if ident_empty table then Err PE_EMPTY_TABLE_NAME
           else Ok (db, table)
       end.

(** The target and its schema. *)
Definition resolve_schema (q : Query) : result PlanErrorCode (Identifier * Identifier * TableSchema) :=
  match resolve_target q with
  | Err c => Err c
  | Ok (db, table) =>
      match cv_table_schema catalog db table with
      | Some s => Ok (db, table, s)
      | None => Err PE_TABLE_NOT_FOUND
      end
  end.

(** The primary key as the optimizer sees it: a name, if the schema has one,
    and its type. *)
Definition schema_pk (s : TableSchema) : option Identifier :=
  if has_primary_key s then Some (primary_key_name s) else None.
Definition schema_pk_type (s : TableSchema) : DataType :=
  if has_primary_key s then match primary_key_column s with Some c => col_type c | None => UNKNOWN_TYPE end
  else UNKNOWN_TYPE.

Definition optimize_scan_query (q : Query) : result OptimizeError OptimizedQuery :=
  match resolve_schema q with
  | Err c => Err (inl c)
  | Ok (db, table, s) =>
      match optimize_scan scan_is_cheaper (schema_pk s) (schema_pk_type s) (query_where q) with
      | Err f => Err (inr f)
      | Ok p => Ok (mkOptimized q db table (default empty_identifier (schema_pk s)) (schema_pk_type s)
                      (plan_ranges p) (plan_exclude p) (plan_filter p))
      end
  end.

Definition optimize_insert (q : Query) : result OptimizeError OptimizedQuery :=
  match resolve_schema q with
  | Err c => Err (inl c)
  | Ok (db, table, s) =>
      Ok (mkOptimized q db table (default empty_identifier (schema_pk s)) (schema_pk_type s)
            [kr_all (schema_pk_type s)] [] None)
  end.

Definition ddl_database (q : Query) : Identifier :=
  match q with
  | QCreateDatabase d | QDropDatabase d | QUseDatabase d => d
  | _ => cv_current_database catalog
  end.

Definition optimize (q : Query) : result OptimizeError OptimizedQuery :=
  match q with
  | QSelect _ | QUpdate _ | QDelete _ => optimize_scan_query q
  | QInsert _ => optimize_insert q
  | QTransaction _ => Err (inl PE_UNSUPPORTED_QUERY)
  | _ => Ok (mkOptimized q (ddl_database q) (default empty_identifier (target_table q)) empty_identifier UNKNOWN_TYPE
               [kr_all UNKNOWN_TYPE] [] None)
  end.
End optimize.

(** ** The planner *)

Definition size_max : N := 18446744073709551615.

(** OFFSET + LIMIT, saturating. *)
Definition top_n_count (limit : LimitClause) : N :=
  if negb (has_limit limit) then 0%N
  else
    let want := limit_value limit in
    let skip := if has_offset limit then offset_value limit else 0%N in
    if (size_max - want <? skip)%N then size_max else (want + skip)%N.

Definition make_table_ref (q : OptimizedQuery) : TableRef :=
  mkTableRef (oq_db q) (oq_table q) (oq_primary_key q) (oq_primary_key_type q).

(** The scan chain; the ranges, the exclusions and the filter move out of the
    statement into the nodes. *)
Definition build_scan_chain (q : OptimizedQuery) (ascending : bool) : PlanNode :=
  let target := make_table_ref q in
  let ranges := match oq_ranges q with [] => [kr_empty (tr_primary_key_type target)] | rs => rs end in
  let exclude_keys := oq_exclude_keys q in
  let has_exclusions := negb (bool_decide (exclude_keys = [])) in
  let node :=
    match ranges with
    | [r] =>
        if negb has_exclusions && kr_is_all r then FullScan target ascending
        else if negb has_exclusions then IndexScanPlan target r ascending
        else RangeUnionPlan target ranges ascending exclude_keys
    | _ => RangeUnionPlan target ranges ascending exclude_keys
    end in
  match oq_remaining_filter q with
  | Some c => FilterPlan node (Some c)
  | None => node
  end.

Record ScanOrder := mkScanOrder { so_ascending : bool; satisfied_by_scan : bool }.

Definition order_by_scan (s : SelectQuery) (q : OptimizedQuery) : ScanOrder :=
  match sel_order_by s with
  | [] => mkScanOrder true false
  | item :: _ =>
      if ident_empty (oq_primary_key q) then mkScanOrder true false
      else if negb (ident_eqb (ob_column item) (oq_primary_key q)) then mkScanOrder true false
      else mkScanOrder (bool_decide (ob_direction item = ASC)) true
  end.

Definition plan_select (q : OptimizedQuery) : result PlanErrorCode PlanNode :=
  match oq_query q with
  | QSelect s =>
      let order := order_by_scan s q in
      let node := build_scan_chain q (so_ascending order) in
      let node :=
        if negb (bool_decide (length (sel_order_by s) = 0%nat)) && negb (satisfied_by_scan order) then
          let top_n := has_limit (sel_limit s) in
          SortPlan node (sel_order_by s) top_n (if top_n then top_n_count (sel_limit s) else 0%N)
        else node in
      let node := if has_limit (sel_limit s) || has_offset (sel_limit s)
                  then LimitPlan node (sel_limit s) else node in
      Ok (if negb (select_all s) then ProjectPlan node (sel_columns s) else node)
  | _ => Err PE_UNSUPPORTED_PLAN
  end.

Definition oq_at (q : OptimizedQuery) : Identifier * Identifier := (oq_db q, oq_table q).

Definition plan_update (q : OptimizedQuery) : result PlanErrorCode PlanNode :=
  match oq_query q with
  | QUpdate u => Ok (UpdatePlan (oq_at q) u (build_scan_chain q true))
  | _ => Err PE_UNSUPPORTED_PLAN
  end.

Definition plan_delete (q : OptimizedQuery) : result PlanErrorCode PlanNode :=
  match oq_query q with
  | QDelete d => Ok (DeletePlan (oq_at q) d (build_scan_chain q true))
  | _ => Err PE_UNSUPPORTED_PLAN
  end.

Definition plan (q : OptimizedQuery) : result PlanErrorCode PlanNode :=
  match oq_query q with
  | QSelect _ => plan_select q
  | QUpdate _ => plan_update q
  | QDelete _ => plan_delete q
  | QInsert i => Ok (InsertPlan (oq_at q) i)
  | QTransaction _ => Err PE_UNSUPPORTED_PLAN
  | ddl => Ok (DdlPlan (oq_at q) ddl)
  end.
