(* ===== verification/Executor.v ===== *)
(** * The executor: [executor/executor.h], [executor/executor.cpp]

    Volcano operators. The C++ interface [Executor] is a class of operations;
    each operator is a state type with an instance, an operator with a child is
    parametric in the child's type. [open] takes the storage connection and may
    change it (the write operators do their work there); [next] only reads it.

    Loops over a child's rows take a fuel that bounds their turns; a loop that
    runs out of it answers the code [CE_OK], which no operator reports. The
    execution statistics of EXPLAIN ANALYZE, the plan pointer of an operator and
    the texts of errors are not modelled. *)

From S2P Require Import Prelude Bytes OMap KvTypes KvApi SqlTypes KeyCodec SqlTruth SqlKeyRange Rewriter Schema RowCodec KeyPrefix Table Optimizer Planner.
Local Open Scope Z_scope.

Inductive ExecErrorCode :=
| EX_OK | EX_NOT_OPEN | EX_ALREADY_OPEN | EX_INVALID_ARGUMENT | EX_TABLE_NOT_FOUND | EX_COLUMN_NOT_FOUND
| EX_UNSUPPORTED_PLAN | EX_UNSUPPORTED_STMT | EX_SCHEMA_ERROR | EX_CONSTRAINT_VIOLATION
| EX_MEMORY_LIMIT | EX_IO_ERROR | EX_INTERNAL.

#[export] Instance ExecErrorCode_eq_dec : EqDecision ExecErrorCode.
Proof. solve_decision. Defined.

Definition to_exec_error (c : CursorErrorCode) : ExecErrorCode :=
  match c with
  | CE_IO_ERROR => EX_IO_ERROR
  | CE_SCHEMA_ERROR => EX_SCHEMA_ERROR
  | CE_NOT_FOUND => EX_TABLE_NOT_FOUND
  | CE_CONSTRAINT_VIOLATION => EX_CONSTRAINT_VIOLATION
  | CE_INVALID_ARGUMENT => EX_INVALID_ARGUMENT
  | _ => EX_INTERNAL
  end.

(** ** Comparing rows *)

Definition compare_for_sort (a b : Value) : Z :=
  if is_null a || is_null b then
    if is_null a && is_null b then 0 else if is_null a then -1 else 1
  else match sql_order a b with
       | Some order => order
       | None => if bytes_eqb (to_key a) (to_key b) then 0
                 else if bytes_ltb (to_key a) (to_key b) then -1 else 1
       end.

Record SortKey := mkSortKey { sk_index : Z; sk_ascending : bool }.

(** The constructor of [RowComparator]: the keys of ORDER BY, then the primary
    key; [None] when a column is unknown. *)
Fixpoint order_keys (s : TableSchema) (order_by : list OrderByItem) : option (list SortKey) :=
  match order_by with
  | [] => Some []
  | item :: rest =>
      let index := column_index (ob_column item) s in
      if index <? 0 then None
      else match order_keys s rest with
           | Some keys => Some (mkSortKey index (bool_decide (ob_direction item = ASC)) :: keys)
           | None => None
           end
  end.

Definition row_comparator (s : TableSchema) (order_by : list OrderByItem) : option (list SortKey) :=
  match order_keys s order_by with
  | None => None
  | Some keys =>
      let pk := primary_key_index_ s in
      if (0 <=? pk) && match last keys with None => true | Some k => negb (sk_index k =? pk) end
      then Some (keys ++ [mkSortKey pk true]) else Some keys
  end.

Fixpoint row_less (keys : list SortKey) (a b : Row) : bool :=
  match keys with
  | [] => false
  | k :: rest =>
      match a !! Z.to_nat (sk_index k), b !! Z.to_nat (sk_index k) with
      | Some x, Some y =>
          let cmp := compare_for_sort x y in
          if cmp =? 0 then row_less rest a b
          else if sk_ascending k then cmp <? 0 else 0 <? cmp
      | _, _ => row_less rest a b
      end
  end.

(** [std::sort] with a comparator: any rearrangement it may produce is sorted;
    insertion sort stands for it. *)
Section sort.
Context (less : Row -> Row -> bool).

Fixpoint sort_insert (r : Row) (l : list Row) : list Row :=
  match l with
  | [] => [r]
  | x :: l' => if less r x then r :: l else x :: sort_insert r l'
  end.
Definition sort_rows (l : list Row) : list Row := fold_left (fun acc r => sort_insert r acc) l [].

(** A max-heap under [less] kept as a vector in descending order, one of the
    arrangements the heap algorithms allow: [heap_push] is [push_back] with
    [push_heap], [heap_replace] is [pop_heap], the assignment to [back()] and
    [push_heap]. *)
Fixpoint heap_push (r : Row) (heap : list Row) : list Row :=
  match heap with
  | [] => [r]
  | x :: heap' => if less x r then r :: heap else x :: heap_push r heap'
  end.
Definition heap_replace (r : Row) (heap : list Row) : list Row := heap_push r (tail heap).
End sort.

(** ** [KeySet::contains]: sort by key, then binary search *)

Fixpoint insert_by_key (v : Value) (l : list Value) : list Value :=
  match l with
  | [] => [v]
  | x :: l' => if bytes_ltb (to_key v) (to_key x) then v :: l else x :: insert_by_key v l'
  end.
Definition ensure_sorted (points : list Value) : list Value :=
  fold_left (fun acc v => insert_by_key v acc) points [].

(** [std::binary_search]: the first element that is not less than [v]. *)
Fixpoint binary_search (v : Value) (l : list Value) : bool :=
  match l with
  | [] => false
  | x :: l' => if bytes_ltb (to_key x) (to_key v) then binary_search v l'
               else negb (bytes_ltb (to_key v) (to_key x))
  end.
Definition key_set_contains (points : list Value) (v : Value) : bool :=
  match points with [] => false | _ => binary_search v (ensure_sorted points) end.

(** ** The operator interface *)

Class Executor (E X : Type) := {
  x_open : nat -> E -> X -> E * X * ExecErrorCode;
  x_next : nat -> E -> X -> X * result CursorErrorCode Row;
  x_close : X -> X;
  x_error : X -> CursorErrorCode;
  x_produces_rows : X -> bool;
  x_is_write : X -> bool;
  x_affected_rows : X -> N }.

Definition end_if_no_error (c : CursorErrorCode) : CursorErrorCode := if ce_is_error c then c else CE_END.

Section Operators.
Context {E I : Type} `{!ScanIterator I, !KVEngine E I}.

(** ** [class ScanExecutor] *)

Record ScanExecutor := mkScan {
  sx_table : Table; sx_ranges : list KeyRange; sx_exclude_keys : list Value; sx_ascending : bool;
  sx_opened : bool; sx_done : bool; sx_error : CursorErrorCode; sx_range_index : nat;
  sx_range_cursor : option (TableCursor I);
  sx_point_lookup : bool; sx_point_key : Value; sx_point_row : option Row }.

Definition scan_executor (p : PlanNode) (t : Table) : option ScanExecutor :=
  let make ranges exclude asc :=
    Some (mkScan t ranges exclude asc false false CE_OK 0 None false VNull None) in
  match p with
  | FullScan target asc => make [kr_all (tr_primary_key_type target)] [] asc
  | IndexScanPlan _ range asc => make [range] [] asc
  | RangeUnionPlan _ ranges asc exclude => make ranges exclude asc
  | _ => None
  end.

Definition is_excluded (s : ScanExecutor) (primary_key : Value) : bool :=
  negb (bool_decide (length (sx_exclude_keys s) = 0%nat)) && key_set_contains (sx_exclude_keys s) primary_key.

Definition with_cursor (index : nat) (c : option (TableCursor I)) (s : ScanExecutor) : ScanExecutor :=
  mkScan (sx_table s) (sx_ranges s) (sx_exclude_keys s) (sx_ascending s) (sx_opened s) (sx_done s)
    (sx_error s) index c (sx_point_lookup s) (sx_point_key s) (sx_point_row s).
Definition sx_fail (c : CursorErrorCode) (s : ScanExecutor) : ScanExecutor :=
  mkScan (sx_table s) (sx_ranges s) (sx_exclude_keys s) (sx_ascending s) (sx_opened s) (sx_done s)
    c (sx_range_index s) (sx_range_cursor s) (sx_point_lookup s) (sx_point_key s) (sx_point_row s).
Definition with_point (lookup : bool) (key : Value) (row : option Row) (done : bool) (s : ScanExecutor) : ScanExecutor :=
  mkScan (sx_table s) (sx_ranges s) (sx_exclude_keys s) (sx_ascending s) (sx_opened s) done
    (sx_error s) (sx_range_index s) (sx_range_cursor s) lookup key row.

(** The loop of [open_range] from range [index] on; [rest] ranges are left. *)
Fixpoint open_range (rest : nat) (index : nat) (e : E) (s : ScanExecutor) : ScanExecutor * bool :=
  match rest with
  | O => (with_cursor (length (sx_ranges s)) None s, false)
  | S n =>
      let slot := if sx_ascending s then index else (length (sx_ranges s) - 1 - index)%nat in
      match sx_ranges s !! slot with
      | Some r => if kr_is_empty r then open_range n (S index) e s
                  else (with_cursor index (Some (scan (sx_table s) r (sx_ascending s) e)) s, true)
      | None => (with_cursor (length (sx_ranges s)) None s, false)
      end
  end.
Definition sx_open_range (index : nat) (e : E) (s : ScanExecutor) : ScanExecutor * bool :=
  open_range (length (sx_ranges s) - index) index e s.

Definition sx_open (fuel : nat) (e : E) (s : ScanExecutor) : E * ScanExecutor * ExecErrorCode :=
  if sx_opened s then (e, s, EX_ALREADY_OPEN)
  else
    let s := mkScan (sx_table s) (sx_ranges s) (sx_exclude_keys s) (sx_ascending s) true false CE_OK 0
               None false (sx_point_key s) None in
    let point :=
      match sx_ranges s with
      | [r] => if is_point r then
                 let key := point_value r in
                 if negb (is_null key) && negb (is_excluded s key) then Some key else None
               else None
      | _ => None
      end in
    match point with
    | Some key =>
        match find (sx_table s) key e with
        | Ok row => (e, with_point true key (Some row) false s, EX_OK)
        | Err RE_NOT_FOUND => (e, with_point true key None true s, EX_OK)
        | Err c => (e, sx_fail (to_cursor_error c) (with_point true key None false s),
                    to_exec_error (to_cursor_error c))
        end
    | None =>
        let '(s, found) := sx_open_range 0 e s in
        (e, if found then s else with_point (sx_point_lookup s) (sx_point_key s) (sx_point_row s) true s, EX_OK)
    end.

Fixpoint sx_next_loop (fuel : nat) (e : E) (s : ScanExecutor) : ScanExecutor * result CursorErrorCode Row :=
  match fuel with
  | O => (s, Err CE_OK)
  | S f =>
      match sx_range_cursor s with
      | None => (sx_fail CE_END s, Err CE_END)
      | Some cur =>
          let '(cur, r) := cursor_next cur in
          let s := with_cursor (sx_range_index s) (Some cur) s in
          match r with
          | Ok row => if is_excluded s (primary_key_of (sx_table s) row) then sx_next_loop f e s else (s, Ok row)
          | Err CE_END =>
              let '(s, found) := sx_open_range (S (sx_range_index s)) e s in
              if found then sx_next_loop f e s else (sx_fail CE_END s, Err CE_END)
          | Err c => (sx_fail c s, Err c)
          end
      end
  end.

Definition sx_next (fuel : nat) (e : E) (s : ScanExecutor) : ScanExecutor * result CursorErrorCode Row :=
  if ce_is_error (sx_error s) then (s, Err (sx_error s))
  else if sx_done s then (sx_fail CE_END s, Err CE_END)
  else if sx_point_lookup s then
    match sx_point_row s with
    | Some row => (with_point true (sx_point_key s) None (sx_done s) s, Ok row)
    | None => (sx_fail CE_END s, Err CE_END)
    end
  else sx_next_loop fuel e s.

Definition sx_close (s : ScanExecutor) : ScanExecutor :=
  mkScan (sx_table s) (sx_ranges s) (sx_exclude_keys s) (sx_ascending s) (sx_opened s) true
    (end_if_no_error (sx_error s)) (sx_range_index s) None (sx_point_lookup s) (sx_point_key s) None.

#[export] Instance Scan_executor : Executor E ScanExecutor := {|
  x_open := sx_open; x_next := sx_next; x_close := sx_close; x_error := sx_error;
  x_produces_rows _ := true; x_is_write _ := false; x_affected_rows _ := 0%N |}.

(** ** Operators over a child *)

Context {X : Type} `{!Executor E X}.

(** *** [class FilterExecutor] *)

Record FilterExecutor := mkFilter { fx_condition : option Condition; fx_table : Table; fx_child : X }.

(** The lookup of a column of the row: unknown columns have no value. *)
Definition row_lookup (s : TableSchema) (row : Row) (column : Identifier) : option Value :=
  let index := column_index column s in
  if (index <? 0) || (Z.of_nat (length row) <=? index) then None else row !! Z.to_nat index.

Definition filter_keeps (t : Table) (condition : option Condition) (row : Row) : bool :=
  match condition with
  | None => true
  | Some c => where_keeps (evaluate (row_lookup (schema_ t) row) c)
  end.

Definition with_fx_child (c : X) (f : FilterExecutor) : FilterExecutor := mkFilter (fx_condition f) (fx_table f) c.

Definition fx_open (fuel : nat) (e : E) (f : FilterExecutor) : E * FilterExecutor * ExecErrorCode :=
  let '(e, c, st) := x_open fuel e (fx_child f) in (e, with_fx_child c f, st).

Fixpoint fx_next_loop (turns fuel : nat) (e : E) (f : FilterExecutor) : FilterExecutor * result CursorErrorCode Row :=
  match turns with
  | O => (f, Err CE_OK)
  | S n =>
      let '(c, r) := x_next fuel e (fx_child f) in
      let f := with_fx_child c f in
      match r with
      | Err code => (f, Err code)
      | Ok row => if filter_keeps (fx_table f) (fx_condition f) row then (f, Ok row)
                  else fx_next_loop n fuel e f
      end
  end.

#[export] Instance Filter_executor : Executor E FilterExecutor := {|
  x_open := fx_open; x_next fuel e f := fx_next_loop fuel fuel e f;
  x_close f := with_fx_child (x_close (fx_child f)) f; x_error f := x_error (fx_child f);
  x_produces_rows _ := true; x_is_write _ := false; x_affected_rows _ := 0%N |}.

(** *** [class SortExecutor] *)

Record SortExecutor := mkSort {
  so_table : Table; so_row_limit : N; so_order_by : list OrderByItem; so_is_top_n : bool; so_top_n : N;
  so_opened : bool; so_done : bool; so_cursor : nat; so_error : CursorErrorCode; so_rows : list Row;
  so_child : X }.

Definition default_row_limit : N := 1000000.
Definition sort_executor (t : Table) (order_by : list OrderByItem) (is_top_n : bool) (top_n : N) (child : X)
    : SortExecutor :=
  mkSort t default_row_limit order_by is_top_n top_n false false 0 CE_OK [] child.

Definition sort_state (rows : list Row) (err : CursorErrorCode) (child : X) (s : SortExecutor) : SortExecutor :=
  mkSort (so_table s) (so_row_limit s) (so_order_by s) (so_is_top_n s) (so_top_n s) true false 0 err rows child.

(** One row into the buffer: collected, or offered to the heap. [None] is the
    memory limit. *)
Definition keep_row (less : Row -> Row -> bool) (s : SortExecutor) (rows : list Row) (row : Row) : option (list Row) :=
  if negb (so_is_top_n s) then
    if (so_row_limit s <=? N.of_nat (length rows))%N then None else Some (rows ++ [row])
  else if (so_top_n s =? 0)%N then Some rows
  else if (N.of_nat (length rows) <? so_top_n s)%N then Some (heap_push less row rows)
  else match rows with
       | [] => Some rows
       | front :: _ => Some (if less row front then heap_replace less row rows else rows)
       end.

Fixpoint sort_collect (turns fuel : nat) (e : E) (less : Row -> Row -> bool) (s : SortExecutor)
    (rows : list Row) (child : X) : SortExecutor * ExecErrorCode :=
  match turns with
  | O => (sort_state rows CE_OK child s, EX_INTERNAL)
  | S n =>
      let '(child, r) := x_next fuel e child in
      match r with
      | Err CE_END => (sort_state (sort_rows less rows) CE_OK child s, EX_OK)
      | Err c => (sort_state rows c child s, to_exec_error c)
      | Ok row =>
          match keep_row less s rows row with
          | None => (sort_state rows CE_INTERNAL child s, EX_MEMORY_LIMIT)
          | Some rows => sort_collect n fuel e less s rows child
          end
      end
  end.

Definition so_open (fuel : nat) (e : E) (s : SortExecutor) : E * SortExecutor * ExecErrorCode :=
  if so_opened s then (e, s, EX_ALREADY_OPEN)
  else
    let '(e, child, st) := x_open fuel e (so_child s) in
    let s := sort_state [] CE_OK child s in
    if negb (bool_decide (st = EX_OK)) then (e, s, st)
    else match row_comparator (schema_ (so_table s)) (so_order_by s) with
         | None => (e, s, EX_COLUMN_NOT_FOUND)
         | Some keys => let '(s, st) := sort_collect fuel fuel e (row_less keys) s [] child in (e, s, st)
         end.

Definition so_next (e : E) (s : SortExecutor) : SortExecutor * result CursorErrorCode Row :=
  let set done cursor err :=
    mkSort (so_table s) (so_row_limit s) (so_order_by s) (so_is_top_n s) (so_top_n s) (so_opened s)
      done cursor err (so_rows s) (so_child s) in
  if ce_is_error (so_error s) then (s, Err (so_error s))
  else if so_done s then (set true (so_cursor s) CE_END, Err CE_END)
  else match so_rows s !! so_cursor s with
       | None => (set true (so_cursor s) CE_END, Err CE_END)
       | Some row => (set false (S (so_cursor s)) (so_error s), Ok row)
       end.

Definition so_close (s : SortExecutor) : SortExecutor :=
  mkSort (so_table s) (so_row_limit s) (so_order_by s) (so_is_top_n s) (so_top_n s) (so_opened s)
    true (so_cursor s) (end_if_no_error (so_error s)) [] (x_close (so_child s)).

#[export] Instance Sort_executor : Executor E SortExecutor := {|
  x_open := so_open; x_next _ e s := so_next e s; x_close := so_close; x_error := so_error;
  x_produces_rows _ := true; x_is_write _ := false; x_affected_rows _ := 0%N |}.

(** *** [class LimitExecutor] *)

Record LimitExecutor := mkLimitX {
  lx_limit : LimitClause; lx_skipped : N; lx_produced : N; lx_done : bool; lx_child : X }.
Definition limit_executor (l : LimitClause) (child : X) : LimitExecutor := mkLimitX l 0 0 false child.

Definition lx_open (fuel : nat) (e : E) (l : LimitExecutor) : E * LimitExecutor * ExecErrorCode :=
  let '(e, c, st) := x_open fuel e (lx_child l) in (e, mkLimitX (lx_limit l) 0 0 false c, st).

(** The loop that skips [offset] rows. *)
Fixpoint lx_skip (turns fuel : nat) (e : E) (l : LimitExecutor) : LimitExecutor * option CursorErrorCode :=
  let offset := if has_offset (lx_limit l) then offset_value (lx_limit l) else 0%N in
  if negb (lx_skipped l <? offset)%N then (l, None)
  else match turns with
       | O => (l, Some CE_OK)
       | S n =>
           let '(c, r) := x_next fuel e (lx_child l) in
           match r with
           | Err code => (mkLimitX (lx_limit l) (lx_skipped l) (lx_produced l) true c, Some code)
           | Ok _ => lx_skip n fuel e (mkLimitX (lx_limit l) (lx_skipped l + 1) (lx_produced l) (lx_done l) c)
           end
       end.

Definition lx_next (fuel : nat) (e : E) (l : LimitExecutor) : LimitExecutor * result CursorErrorCode Row :=
  if lx_done l then (l, Err CE_END)
  else
    let want := if has_limit (lx_limit l) then limit_value (lx_limit l) else size_max in
    let '(l, stopped) := lx_skip fuel fuel e l in
    match stopped with
    | Some code => (l, Err code)
    | None =>
        if (want <=? lx_produced l)%N then
          (mkLimitX (lx_limit l) (lx_skipped l) (lx_produced l) true (lx_child l), Err CE_END)
        else
          let '(c, r) := x_next fuel e (lx_child l) in
          match r with
          | Err code => (mkLimitX (lx_limit l) (lx_skipped l) (lx_produced l) true c, Err code)
          | Ok row => (mkLimitX (lx_limit l) (lx_skipped l) (lx_produced l + 1) (lx_done l) c, Ok row)
          end
    end.

#[export] Instance Limit_executor : Executor E LimitExecutor := {|
  x_open := lx_open; x_next := lx_next;
  x_close l := mkLimitX (lx_limit l) (lx_skipped l) (lx_produced l) true (x_close (lx_child l));
  x_error l := x_error (lx_child l);
  x_produces_rows _ := true; x_is_write _ := false; x_affected_rows _ := 0%N |}.

(** *** [class ProjectExecutor] *)

Record ProjectExecutor := mkProject {
  px_table : Table; px_columns : list ColumnRef; px_indexes : list Z; px_child : X }.

Definition refs_wildcard (columns : list ColumnRef) : bool :=
  match columns with [] => true | [c] => is_wildcard c | _ => false end.

Fixpoint column_indexes (s : TableSchema) (columns : list ColumnRef) : option (list Z) :=
  match columns with
  | [] => Some []
  | c :: rest =>
      let index := column_index (cr_column c) s in
      if index <? 0 then None
      else match column_indexes s rest with Some l => Some (index :: l) | None => None end
  end.

Definition px_open (fuel : nat) (e : E) (p : ProjectExecutor) : E * ProjectExecutor * ExecErrorCode :=
  match (if refs_wildcard (px_columns p) then Some [] else column_indexes (schema_ (px_table p)) (px_columns p)) with
  | None => (e, p, EX_COLUMN_NOT_FOUND)
  | Some indexes =>
      let '(e, c, st) := x_open fuel e (px_child p) in
      (e, mkProject (px_table p) (px_columns p) indexes c, st)
  end.

Definition project_row (indexes : list Z) (row : Row) : Row :=
  match indexes with
  | [] => row
  | _ => flat_map (fun i => if (0 <=? i) && (i <? Z.of_nat (length row))
                            then match row !! Z.to_nat i with Some v => [v] | None => [] end else []) indexes
  end.

Definition px_next (fuel : nat) (e : E) (p : ProjectExecutor) : ProjectExecutor * result CursorErrorCode Row :=
  let '(c, r) := x_next fuel e (px_child p) in
  let p := mkProject (px_table p) (px_columns p) (px_indexes p) c in
  match r with Err code => (p, Err code) | Ok row => (p, Ok (project_row (px_indexes p) row)) end.

#[export] Instance Project_executor : Executor E ProjectExecutor := {|
  x_open := px_open; x_next := px_next;
  x_close p := mkProject (px_table p) (px_columns p) (px_indexes p) (x_close (px_child p));
  x_error p := x_error (px_child p);
  x_produces_rows _ := true; x_is_write _ := false; x_affected_rows _ := 0%N |}.
End Operators.
