(* ===== verification/Execute.v ===== *)
(** * Running a plan: the write operators, the factory and the result cursor of
    [executor/executor.h], [executor/executor.cpp]

    A write operator does its work in [open]. The factory builds the operator
    tree of a plan; the C++ pointer to the interface [Executor] is a state packed
    with its operations ([AnyExecutor]).

    While an UPDATE runs, the iterator below it reads the live buffer of the
    transaction. The rows it rewrites keep their primary key and lie behind the
    iterator, which has already moved to the next key, so that the iterator reads
    what it would read of the buffer at the time it was opened: this is what the
    model's iterators hold. *)

From S2P Require Import Prelude Bytes OMap KvTypes KvApi SqlTypes KeyCodec SqlTruth SqlKeyRange Rewriter Schema RowCodec KeyPrefix Table Optimizer Planner Executor.
Local Open Scope Z_scope.

Section Writers.
Context {E I : Type} `{!ScanIterator I, !KVEngine E I}.

(** What the write operators share: [opened_], [affected_rows_], [error_]. *)
Record WriteState := mkWrite { wr_opened : bool; wr_affected : N; wr_error : CursorErrorCode }.
Definition write_fresh : WriteState := mkWrite false 0 CE_OK.
Definition write_fail (c : CursorErrorCode) (w : WriteState) : WriteState := mkWrite (wr_opened w) (wr_affected w) c.
Definition write_count (w : WriteState) : WriteState := mkWrite (wr_opened w) (wr_affected w + 1) (wr_error w).

(** [end_row()] and the end of [close_impl()]. *)
Definition end_row (w : WriteState) : WriteState * result CursorErrorCode Row :=
  if ce_is_error (wr_error w) then (w, Err (wr_error w)) else (write_fail CE_END w, Err CE_END).
Definition write_close (w : WriteState) : WriteState := write_fail (end_if_no_error (wr_error w)) w.

(** ** [class InsertExecutor] *)

Record InsertExecutor := mkInsertX {
  ix_table : Table; ix_columns : list Identifier; ix_values : list (list Value); ix_state : WriteState }.
Definition insert_executor (q : InsertQuery) (t : Table) : InsertExecutor :=
  mkInsertX t (ins_columns q) (ins_values q) write_fresh.

(** The named columns written into the row one by one. *)
Fixpoint fill_columns (s : TableSchema) (columns : list Identifier) (values : list Value) (row : Row)
    : result CursorErrorCode Row :=
  match columns, values with
  | c :: columns, v :: values =>
      let index := column_index c s in
      if index <? 0 then Err CE_INVALID_ARGUMENT
      else fill_columns s columns values (<[Z.to_nat index := v]> row)
  | _, _ => Ok row
  end.

Definition insert_row_of (s : TableSchema) (columns : list Identifier) (values : list Value)
    : result CursorErrorCode Row :=
  let row := replicate (length (columns_ s)) VNull in
  match columns with
  | [] => if bool_decide (length values = length (columns_ s)) then Ok values else Err CE_INVALID_ARGUMENT
  | _ => if bool_decide (length values = length columns) then fill_columns s columns values row
         else Err CE_INVALID_ARGUMENT
  end.

Definition build_row (x : InsertExecutor) (row_index : nat) : result CursorErrorCode Row :=
  match ix_values x !! row_index with
  | None => Err CE_INVALID_ARGUMENT
  | Some values => insert_row_of (schema_ (ix_table x)) (ix_columns x) values
  end.

Definition with_ix (w : WriteState) (x : InsertExecutor) : InsertExecutor :=
  mkInsertX (ix_table x) (ix_columns x) (ix_values x) w.

Definition ix_fail (c : CursorErrorCode) (e : E) (x : InsertExecutor) : E * InsertExecutor * ExecErrorCode :=
  (e, with_ix (write_fail c (ix_state x)) x, to_exec_error c).

(** The loop over [values_] from row [i] on; [rest] rows are left. *)
Fixpoint ix_loop (rest i : nat) (e : E) (x : InsertExecutor) : E * InsertExecutor * ExecErrorCode :=
  match rest with
  | O => (e, x, EX_OK)
  | S n =>
      match build_row x i with
      | Err c => ix_fail c e x
      | Ok row =>
          match insert (ix_table x) row e with
          | (e, Err c) => ix_fail (to_cursor_error c) e x
          | (e, Ok _) => ix_loop n (S i) e (with_ix (write_count (ix_state x)) x)
          end
      end
  end.

Definition ix_open (fuel : nat) (e : E) (x : InsertExecutor) : E * InsertExecutor * ExecErrorCode :=
  if wr_opened (ix_state x) then (e, x, EX_ALREADY_OPEN)
  else ix_loop (length (ix_values x)) 0 e (with_ix (mkWrite true 0 CE_OK) x).

#[export] Instance Insert_executor : Executor E InsertExecutor := {|
  x_open := ix_open;
  x_next _ _ x := let '(w, r) := end_row (ix_state x) in (with_ix w x, r);
  x_close x := with_ix (write_close (ix_state x)) x; x_error x := wr_error (ix_state x);
  x_produces_rows _ := false; x_is_write _ := true; x_affected_rows x := wr_affected (ix_state x) |}.

Context {X : Type} `{!Executor E X}.

(** ** [class UpdateExecutor] *)

Record UpdateExecutor := mkUpdateX {
  ux_table : Table; ux_assignments : list (Identifier * Value); ux_state : WriteState; ux_child : X }.
Definition update_executor (q : UpdateQuery) (child : X) (t : Table) : UpdateExecutor :=
  mkUpdateX t (upd_assignments q) write_fresh child.

Definition with_ux (w : WriteState) (c : X) (x : UpdateExecutor) : UpdateExecutor :=
  mkUpdateX (ux_table x) (ux_assignments x) w c.
Definition ux_fail (c : CursorErrorCode) (e : E) (x : UpdateExecutor) : E * UpdateExecutor * ExecErrorCode :=
  (e, with_ux (write_fail c (ux_state x)) (ux_child x) x, to_exec_error c).

(** The SET list applied to one row: an unknown column is an invalid argument. *)
Definition set_columns (x : UpdateExecutor) (row : Row) : result CursorErrorCode Row :=
  match assign (schema_ (ux_table x)) (ux_assignments x) row with
  | Ok updated => Ok updated
  | Err _ => Err CE_INVALID_ARGUMENT
  end.

Fixpoint ux_loop (turns fuel : nat) (e : E) (x : UpdateExecutor) : E * UpdateExecutor * ExecErrorCode :=
  match turns with
  | O => (e, x, EX_INTERNAL)
  | S n =>
      let '(c, r) := x_next fuel e (ux_child x) in
      let x := with_ux (ux_state x) c x in
      match r with
      | Err CE_END => (e, x, EX_OK)
      | Err code => ux_fail code e x
      | Ok row =>
          let primary_key := primary_key_of (ux_table x) row in
          if is_null primary_key then ux_fail CE_INVALID_ARGUMENT e x
          else match set_columns x row with
               | Err code => ux_fail code e x
               | Ok updated =>
                   match update_row (ux_table x) primary_key updated e with
                   | (e, Err code) => ux_fail (to_cursor_error code) e x
                   | (e, Ok _) => ux_loop n fuel e (with_ux (write_count (ux_state x)) (ux_child x) x)
                   end
               end
      end
  end.

Definition ux_open (fuel : nat) (e : E) (x : UpdateExecutor) : E * UpdateExecutor * ExecErrorCode :=
  if wr_opened (ux_state x) then (e, x, EX_ALREADY_OPEN)
  else
    let '(e, c, st) := x_open fuel e (ux_child x) in
    let x := with_ux (mkWrite true 0 CE_OK) c x in
    if negb (bool_decide (st = EX_OK)) then (e, x, st) else ux_loop fuel fuel e x.

#[export] Instance Update_executor : Executor E UpdateExecutor := {|
  x_open := ux_open;
  x_next _ _ x := let '(w, r) := end_row (ux_state x) in (with_ux w (ux_child x) x, r);
  x_close x := with_ux (write_close (ux_state x)) (x_close (ux_child x)) x; x_error x := wr_error (ux_state x);
  x_produces_rows _ := false; x_is_write _ := true; x_affected_rows x := wr_affected (ux_state x) |}.

(** ** [class DeleteExecutor] *)

Record DeleteExecutor := mkDeleteX { dx_table : Table; dx_state : WriteState; dx_child : X }.
Definition delete_executor (child : X) (t : Table) : DeleteExecutor := mkDeleteX t write_fresh child.

Definition with_dx (w : WriteState) (c : X) (x : DeleteExecutor) : DeleteExecutor := mkDeleteX (dx_table x) w c.
Definition dx_fail (c : CursorErrorCode) (e : E) (x : DeleteExecutor) : E * DeleteExecutor * ExecErrorCode :=
  (e, with_dx (write_fail c (dx_state x)) (dx_child x) x, to_exec_error c).

(** The first loop: the keys of the rows to delete. *)
Fixpoint dx_collect (turns fuel : nat) (e : E) (t : Table) (doomed : list Value) (c : X)
    : X * result CursorErrorCode (list Value) :=
  match turns with
  | O => (c, Err CE_OK)
  | S n =>
      let '(c, r) := x_next fuel e c in
      match r with
      | Err CE_END => (c, Ok doomed)
      | Err code => (c, Err code)
      | Ok row =>
          let primary_key := primary_key_of t row in
          if is_null primary_key then (c, Err CE_INVALID_ARGUMENT)
          else dx_collect n fuel e t (doomed ++ [primary_key]) c
      end
  end.

(** The second loop removes them. *)
Fixpoint dx_remove (doomed : list Value) (e : E) (x : DeleteExecutor) : E * DeleteExecutor * ExecErrorCode :=
  match doomed with
  | [] => (e, x, EX_OK)
  | primary_key :: rest =>
      match remove (dx_table x) primary_key e with
      | (e, Err code) => dx_fail (to_cursor_error code) e x
      | (e, Ok _) => dx_remove rest e (with_dx (write_count (dx_state x)) (dx_child x) x)
      end
  end.

Definition dx_open (fuel : nat) (e : E) (x : DeleteExecutor) : E * DeleteExecutor * ExecErrorCode :=
  if wr_opened (dx_state x) then (e, x, EX_ALREADY_OPEN)
  else
    let '(e, c, st) := x_open fuel e (dx_child x) in
    let x := with_dx (mkWrite true 0 CE_OK) c x in
    if negb (bool_decide (st = EX_OK)) then (e, x, st)
    else
      let '(c, keys) := dx_collect fuel fuel e (dx_table x) [] c in
      let x := with_dx (dx_state x) c x in
      match keys with
      | Err code => dx_fail code e x
      | Ok doomed => dx_remove doomed e x
      end.

#[export] Instance Delete_executor : Executor E DeleteExecutor := {|
  x_open := dx_open;
  x_next _ _ x := let '(w, r) := end_row (dx_state x) in (with_dx w (dx_child x) x, r);
  x_close x := with_dx (write_close (dx_state x)) (x_close (dx_child x)) x; x_error x := wr_error (dx_state x);
  x_produces_rows _ := false; x_is_write _ := true; x_affected_rows x := wr_affected (dx_state x) |}.
End Writers.

(** ** Operators without a table *)

Section Plain.
Context {E : Type}.

Record EmptyExecutor := mkEmpty { ee_error : CursorErrorCode }.
#[export] Instance Empty_executor : Executor E EmptyExecutor := {|
  x_open _ e x := (e, x, EX_OK); x_next _ _ _ := (mkEmpty CE_END, Err CE_END);
  x_close x := mkEmpty (end_if_no_error (ee_error x)); x_error := ee_error;
  x_produces_rows _ := false; x_is_write _ := false; x_affected_rows _ := 0%N |}.

Record MaterializedExecutor := mkMaterialized {
  me_rows : list Row; me_cursor : nat; me_opened : bool; me_error : CursorErrorCode }.

Definition me_open (e : E) (x : MaterializedExecutor) : E * MaterializedExecutor * ExecErrorCode :=
  if me_opened x then (e, x, EX_ALREADY_OPEN)
  else (e, mkMaterialized (me_rows x) (me_cursor x) true (me_error x), EX_OK).

Definition me_next (x : MaterializedExecutor) : MaterializedExecutor * result CursorErrorCode Row :=
  let fail c := (mkMaterialized (me_rows x) (me_cursor x) (me_opened x) c, Err c) in
  if ce_is_error (me_error x) then (x, Err (me_error x))
  else if negb (me_opened x) then fail CE_INVALID_ARGUMENT
  else match me_rows x !! me_cursor x with
       | None => fail CE_END
       | Some row => (mkMaterialized (me_rows x) (S (me_cursor x)) (me_opened x) (me_error x), Ok row)
       end.

#[export] Instance Materialized_executor : Executor E MaterializedExecutor := {|
  x_open _ := me_open; x_next _ _ := me_next;
  x_close x := mkMaterialized (me_rows x) (me_cursor x) (me_opened x) (end_if_no_error (me_error x));
  x_error := me_error; x_produces_rows _ := true; x_is_write _ := false; x_affected_rows _ := 0%N |}.
End Plain.

(** ** [ExecutorFactory] *)

(** A [unique_ptr<Executor>]. *)
Record AnyExecutor (E : Type) := Pack { any_type : Type; any_ops : Executor E any_type; any_state : any_type }.
Arguments Pack {E} any_type {any_ops} any_state.
Arguments any_type {E}.
Arguments any_ops {E}.
Arguments any_state {E}.

#[export] Instance Any_executor {E} : Executor E (AnyExecutor E) := {|
  x_open fuel e x := let '(e, s, st) := @x_open _ _ (any_ops x) fuel e (any_state x) in
                     (e, Pack (any_type x) (any_ops := any_ops x) s, st);
  x_next fuel e x := let '(s, r) := @x_next _ _ (any_ops x) fuel e (any_state x) in
                     (Pack (any_type x) (any_ops := any_ops x) s, r);
  x_close x := Pack (any_type x) (any_ops := any_ops x) (@x_close _ _ (any_ops x) (any_state x));
  x_error x := @x_error _ _ (any_ops x) (any_state x);
  x_produces_rows x := @x_produces_rows _ _ (any_ops x) (any_state x);
  x_is_write x := @x_is_write _ _ (any_ops x) (any_state x);
  x_affected_rows x := @x_affected_rows _ _ (any_ops x) (any_state x) |}.

Section Running.
Context {E I : Type} `{!ScanIterator I, !KVEngine E I}.

Definition scan_target (p : PlanNode) : option TableRef :=
  match p with
  | FullScan t _ | IndexScanPlan t _ _ | RangeUnionPlan t _ _ _ => Some t
  | _ => None
  end.

Definition create_scan (p : PlanNode) (t : Table) : result ExecErrorCode (AnyExecutor E) :=
  match scan_target p with
  | Some target =>
      if negb (ident_eqb (tr_table target) (schema_name (schema_ t))) then Err EX_INVALID_ARGUMENT
      else match scan_executor p t with
           | Some s => Ok (Pack ScanExecutor s)
           | None => Err EX_INVALID_ARGUMENT
           end
  | None => Err EX_INVALID_ARGUMENT
  end.

Definition with_child (r : result ExecErrorCode (AnyExecutor E))
    (f : forall X, Executor E X -> X -> AnyExecutor E) : result ExecErrorCode (AnyExecutor E) :=
  match r with
  | Err c => Err c
  | Ok child => Ok (f (any_type child) (any_ops child) (any_state child))
  end.

Fixpoint create (p : PlanNode) (t : Table) : result ExecErrorCode (AnyExecutor E) :=
  match p with
  | FullScan _ _ | IndexScanPlan _ _ _ | RangeUnionPlan _ _ _ _ => create_scan p t
  | FilterPlan child condition =>
      with_child (create child t) (fun X _ c => Pack (FilterExecutor (X:=X)) (mkFilter condition t c))
  | SortPlan child order_by is_top_n top_n =>
      with_child (create child t) (fun X _ c => Pack (SortExecutor (X:=X)) (sort_executor t order_by is_top_n top_n c))
  | LimitPlan child limit =>
      with_child (create child t) (fun X _ c => Pack (LimitExecutor (X:=X)) (limit_executor limit c))
  | ProjectPlan child columns =>
      with_child (create child t) (fun X _ c => Pack (ProjectExecutor (X:=X)) (mkProject t columns [] c))
  | UpdatePlan _ q child =>
      with_child (create child t) (fun X _ c => Pack (UpdateExecutor (X:=X)) (update_executor q c t))
  | DeletePlan _ _ child =>
      with_child (create child t) (fun X _ c => Pack (DeleteExecutor (X:=X)) (delete_executor c t))
  | InsertPlan _ q => Ok (Pack InsertExecutor (insert_executor q t))
  | DdlPlan _ _ => Err EX_UNSUPPORTED_STMT
  end.

(** [PlanNode::child()]. *)
Definition plan_child (p : PlanNode) : option PlanNode :=
  match p with
  | FilterPlan c _ | SortPlan c _ _ _ | LimitPlan c _ | ProjectPlan c _ | UpdatePlan _ _ c | DeletePlan _ _ c => Some c
  | _ => None
  end.

(** The names of the result columns: those of the topmost projection, else all
    columns of the table. *)
Fixpoint result_columns (p : PlanNode) (t : Table) : list bytes :=
  let all := map (fun c => name_ (col_name c)) (columns_ (schema_ t)) in
  match p with
  | ProjectPlan _ columns => if refs_wildcard columns then all else map ref_display_name columns
  | FilterPlan c _ | SortPlan c _ _ _ | LimitPlan c _ | UpdatePlan _ _ c | DeletePlan _ _ c => result_columns c t
  | _ => all
  end.

(** ** [class ResultCursor] *)

Record ResultCursor := mkResultCursor {
  rc_root : AnyExecutor E; rc_columns : list bytes; rc_opened : bool; rc_closed : bool; rc_error : CursorErrorCode }.
Definition result_cursor (root : AnyExecutor E) (columns : list bytes) : ResultCursor :=
  mkResultCursor root columns false false CE_OK.
Definition rc_with_error (err : CursorErrorCode) (rc : ResultCursor) : ResultCursor :=
  mkResultCursor (rc_root rc) (rc_columns rc) (rc_opened rc) (rc_closed rc) err.

Definition open_now (fuel : nat) (e : E) (rc : ResultCursor) : E * ResultCursor * ExecErrorCode :=
  if rc_closed rc then (e, rc_with_error CE_END rc, EX_NOT_OPEN)
  else if rc_opened rc then (e, rc, EX_OK)
  else
    let '(e, root, st) := x_open fuel e (rc_root rc) in
    (e, mkResultCursor root (rc_columns rc) true (rc_closed rc)
          (if bool_decide (st = EX_OK) then rc_error rc
           else if ce_is_error (x_error root) then x_error root else CE_INTERNAL), st).

Definition rc_next (fuel : nat) (e : E) (rc : ResultCursor) : E * ResultCursor * result CursorErrorCode Row :=
  if ce_is_error (rc_error rc) then (e, rc, Err (rc_error rc))
  else if rc_closed rc then (e, rc_with_error CE_END rc, Err CE_END)
  else
    let '(e, rc, st) := if rc_opened rc then (e, rc, EX_OK) else open_now fuel e rc in
    if negb (bool_decide (st = EX_OK)) then (e, rc, Err (rc_error rc))
    else
      let '(root, r) := x_next fuel e (rc_root rc) in
      (e, mkResultCursor root (rc_columns rc) (rc_opened rc) (rc_closed rc)
            (match r with Err c => c | Ok _ => rc_error rc end), r).

Definition rc_close (rc : ResultCursor) : ResultCursor :=
  if rc_closed rc then rc
  else mkResultCursor (x_close (rc_root rc)) (rc_columns rc) (rc_opened rc) true (end_if_no_error (rc_error rc)).

Definition rc_affected_rows (rc : ResultCursor) : N := x_affected_rows (rc_root rc).

(** [execute]: writes run here, reads at the first [next]. *)
Definition execute (fuel : nat) (p : PlanNode) (t : Table) (e : E) : E * result ExecErrorCode ResultCursor :=
  match create p t with
  | Err c => (e, Err c)
  | Ok root =>
      let rc := result_cursor root (if x_produces_rows root then result_columns p t else []) in
      if x_produces_rows root then (e, Ok rc)
      else let '(e, rc, st) := open_now fuel e rc in
           (e, if bool_decide (st = EX_OK) then Ok rc else Err st)
  end.

Definition empty_result : ResultCursor := result_cursor (Pack EmptyExecutor (mkEmpty CE_OK)) [].
Definition text_result (column : bytes) (lines : list bytes) : ResultCursor :=
  result_cursor (Pack MaterializedExecutor (mkMaterialized (map (fun l => [VStr S_VARCHAR l]) lines) 0 false CE_OK)) [column].

(** A client reading a result to its end. *)
Fixpoint fetch_all (turns fuel : nat) (e : E) (rc : ResultCursor) : list Row * CursorErrorCode :=
  match turns with
  | O => ([], CE_OK)
  | S n =>
      let '(e, rc, r) := rc_next fuel e rc in
      match r with
      | Ok row => let '(rows, c) := fetch_all n fuel e rc in (row :: rows, c)
      | Err c => ([], c)
      end
  end.
End Running.
