(* ===== verification/ExecutorSpec.v ===== *)
(** * What the row operators compute

    [runs fuel e x rows]: opening the operator [x] succeeds without touching the
    storage, and repeated [next] yields exactly [rows] and then reports the end
    of the stream. Every operator turns the rows of its child into the rows of
    the relational operation it stands for, whatever the child is. *)

From stdpp Require Import sorting.
From S2P Require Import Prelude Bytes OMap KvTypes KvApi SqlTypes KeyCodec SqlTruth SqlKeyRange Rewriter Schema RowCodec KeyPrefix Table Optimizer Planner Executor Execute.

(** ** Streams of rows *)

Section Streams.
Context {E X : Type} `{!Executor E X}.

Inductive yields (fuel : nat) (e : E) : X -> list Row -> Prop :=
| yields_end x x' : x_next fuel e x = (x', Err CE_END) -> yields fuel e x []
| yields_row x x' row rows : x_next fuel e x = (x', Ok row) -> yields fuel e x' rows ->
    yields fuel e x (row :: rows).

Definition runs (fuel : nat) (e : E) (x : X) (rows : list Row) : Prop :=
  exists x', x_open fuel e x = (e, x', EX_OK) /\ yields fuel e x' rows.

Lemma yields_nil_inv fuel e x : yields fuel e x [] -> exists x', x_next fuel e x = (x', Err CE_END).
Proof. intros H. inversion H; subst. by eexists. Qed.

Lemma yields_cons_inv fuel e x row rows : yields fuel e x (row :: rows) ->
  exists x', x_next fuel e x = (x', Ok row) /\ yields fuel e x' rows.
Proof. intros H. inversion H; subst. by eexists. Qed.

(** A stream determines its rows. *)
Lemma yields_det fuel e x rows rows' : yields fuel e x rows -> yields fuel e x rows' -> rows = rows'.
Proof.
  intros H. revert rows'. induction H as [x x' Hn|x x' row rows Hn _ IH]; intros rows' H';
    inversion H' as [? ? Hn' Eq|? ? ? ? Hn' Hy' Eq]; subst; rewrite Hn in Hn'; simplify_eq; [done|].
  f_equal. by apply IH.
Qed.
End Streams.

(** Unpack the next step of a stream hypothesis. *)
Ltac stream H :=
  first [ let x := fresh "x" in let E := fresh "En" in destruct (yields_nil_inv _ _ _ H) as (x & E)
        | let x := fresh "x" in let E := fresh "En" in let H' := fresh "Hy" in
          destruct (yields_cons_inv _ _ _ _ _ H) as (x & E & H') ].

(** ** The relational operations *)

Definition limit_rows (l : LimitClause) (rows : list Row) : list Row :=
  let rest := drop (N.to_nat (offset_value l)) rows in
  match row_count_ l with Some n => take (N.to_nat n) rest | None => rest end.

Section Operators.
Context {E X : Type} `{!Executor E X}.
Context (fuel : nat) (e : E).

(** *** Filter *)

Lemma filter_yields (t : Table) c x rows :
  yields fuel e x rows -> (length rows < fuel)%nat ->
  yields fuel e (mkFilter c t x) (filter (fun row => filter_keeps t c row = true) rows).
Proof.
  (* after [n] rejected rows the loop has [n] turns less *)
  enough (forall turns x, yields fuel e x rows -> (length rows < turns)%nat -> (length rows < fuel)%nat ->
    match filter (fun row => filter_keeps t c row = true) rows with
    | [] => exists x', fx_next_loop turns fuel e (mkFilter c t x) = (mkFilter c t x', Err CE_END)
    | row :: kept => exists x', fx_next_loop turns fuel e (mkFilter c t x) = (mkFilter c t x', Ok row) /\
        yields fuel e (mkFilter c t x') kept
    end) as Hloop.
  { intros Hy Hf. specialize (Hloop fuel x Hy Hf Hf). destruct (filter _ rows) as [|row kept].
    - destruct Hloop as (x' & Hn). by eapply yields_end.
    - destruct Hloop as (x' & Hn & Hy'). by eapply yields_row. }
  induction rows as [|row rows IH]; intros turns x0 Hy Ht Hf; (destruct turns as [|turns]; [simpl in *; lia|]);
    stream Hy; cbn [fx_next_loop fx_child]; rewrite En; cbn [fx_table fx_condition with_fx_child].
  - by eexists.
  - simpl in Ht, Hf. rewrite filter_cons. unfold with_fx_child. cbn [fx_table fx_condition].
    destruct (filter_keeps t c row) eqn:Ek; simpl.
    + exists x1. split; [done|]. specialize (IH fuel x1 Hy0 ltac:(lia) ltac:(lia)).
      destruct (filter _ rows) as [|row' kept].
      * destruct IH as (x' & Hn). by eapply yields_end.
      * destruct IH as (x' & Hn & Hy'). by eapply yields_row.
    + apply IH; [done|lia|lia].
Qed.

Lemma filter_runs (t : Table) c x rows : runs fuel e x rows -> (length rows < fuel)%nat ->
  runs fuel e (mkFilter c t x) (filter (fun row => filter_keeps t c row = true) rows).
Proof.
  intros (x' & Ho & Hy) Hf. exists (mkFilter c t x'). split; [|by apply filter_yields].
  simpl. unfold fx_open. simpl. by rewrite Ho.
Qed.

(** *** Project *)

Lemma project_yields t columns indexes x rows : yields fuel e x rows ->
  yields fuel e (mkProject t columns indexes x) (map (project_row indexes) rows).
Proof.
  induction 1 as [x x' Hn|x x' row rows Hn _ IH]; simpl.
  - apply (yields_end _ _ _ (mkProject t columns indexes x')). simpl. unfold px_next. simpl. by rewrite Hn.
  - eapply yields_row; [|exact IH]. simpl. unfold px_next. simpl. by rewrite Hn.
Qed.

Lemma project_runs t columns indexes x rows :
  (if refs_wildcard columns then Some [] else column_indexes (schema_ t) columns) = Some indexes ->
  runs fuel e x rows -> runs fuel e (mkProject t columns [] x) (map (project_row indexes) rows).
Proof.
  intros Hi (x' & Ho & Hy). exists (mkProject t columns indexes x'). split; [|by apply project_yields].
  simpl. unfold px_open. simpl. by rewrite Hi, Ho.
Qed.

(** *** Limit *)

Definition wanted (l : LimitClause) : N := if has_limit l then limit_value l else size_max.

Lemma skip_rows l n rows : forall turns skipped x,
  (skipped + N.of_nat n = offset_value l)%N -> yields fuel e x rows -> (length rows < turns)%nat ->
  if decide (n <= length rows)%nat
  then exists x', lx_skip turns fuel e (mkLimitX l skipped 0 false x) = (mkLimitX l (offset_value l) 0 false x', None) /\
         yields fuel e x' (drop n rows)
  else exists x' k, lx_skip turns fuel e (mkLimitX l skipped 0 false x) = (mkLimitX l k 0 true x', Some CE_END).
Proof.
  assert (Hoff : (if has_offset l then offset_value l else 0%N) = offset_value l)
    by (unfold has_offset, offset_value; by destruct (offset_ l)).
  revert rows. induction n as [|n IH]; intros rows turns skipped x0 Hs Hy Ht.
  { rewrite decide_True by lia. exists x0. split; [|done].
    destruct turns; simpl; rewrite Hoff, (proj2 (N.ltb_ge _ _)) by lia; simpl;
      by replace skipped with (offset_value l) by lia. }
  destruct turns as [|turns]; [lia|].
  assert (Hlt : (skipped <? offset_value l)%N = true) by (apply N.ltb_lt; lia).
  destruct rows as [|row rows]; stream Hy; cbn [lx_skip lx_limit lx_skipped lx_produced lx_done lx_child];
    rewrite Hoff, Hlt; cbn [negb]; rewrite En.
  - rewrite decide_False by (simpl; lia). by exists x, skipped.
  - specialize (IH rows turns (skipped + 1)%N x ltac:(lia) Hy0 ltac:(simpl in Ht; lia)).
    simpl length. destruct (decide (n <= length rows)%nat).
    + by rewrite decide_True by lia.
    + by rewrite decide_False by lia.
Qed.

(** After the offset, rows pass until the limit. *)
Lemma limit_yields_rest l rows : forall x produced,
  yields fuel e x rows -> (produced <= wanted l)%N ->
  yields fuel e (mkLimitX l (offset_value l) produced false x) (take (N.to_nat (wanted l - produced)) rows).
Proof.
  assert (Hoff : (if has_offset l then offset_value l else 0%N) = offset_value l)
    by (unfold has_offset, offset_value; by destruct (offset_ l)).
  assert (Hskip : forall x p, lx_skip fuel fuel e (mkLimitX l (offset_value l) p false x) =
    (mkLimitX l (offset_value l) p false x, None)).
  { intros x p. destruct fuel; simpl; by rewrite Hoff, N.ltb_irrefl. }
  assert (Hdone : forall x p, (wanted l <= p)%N -> yields fuel e (mkLimitX l (offset_value l) p false x) []).
  { intros x p Hp. eapply yields_end. simpl. unfold lx_next. simpl. fold (wanted l). rewrite Hskip. simpl.
    by rewrite (proj2 (N.leb_le _ _)). }
  induction rows as [|row rows IH]; intros x0 p Hy Hp.
  - rewrite take_nil. destruct (decide (wanted l <= p)%N); [by apply Hdone|]. stream Hy.
    eapply yields_end. simpl. unfold lx_next. simpl. fold (wanted l). rewrite Hskip. simpl.
    by rewrite (proj2 (N.leb_gt _ _)), En by lia.
  - destruct (decide (wanted l <= p)%N).
    { replace (wanted l - p)%N with 0%N by lia. by apply Hdone. }
    stream Hy. replace (N.to_nat (wanted l - p)) with (S (N.to_nat (wanted l - (p + 1)))) by lia. simpl.
    eapply yields_row; [|apply IH; [exact Hy0|lia]]. simpl. unfold lx_next. simpl. fold (wanted l). rewrite Hskip. simpl.
    by rewrite (proj2 (N.leb_gt _ _)), En by lia.
Qed.

Lemma limit_rows_wanted l rows : (N.of_nat (length rows) <= size_max)%N ->
  limit_rows l rows = take (N.to_nat (wanted l)) (drop (N.to_nat (offset_value l)) rows).
Proof.
  intros Hl. unfold limit_rows, wanted, has_limit, limit_value. destruct (row_count_ l); [done|].
  rewrite take_ge; [done|]. rewrite length_drop. lia.
Qed.

Lemma limit_runs l x rows : runs fuel e x rows -> (length rows < fuel)%nat ->
  (N.of_nat (length rows) <= size_max)%N -> runs fuel e (limit_executor l x) (limit_rows l rows).
Proof.
  intros (x' & Ho & Hy) Hf Hl. exists (mkLimitX l 0 0 false x'). split.
  { simpl. unfold lx_open. simpl. by rewrite Ho. }
  rewrite limit_rows_wanted by done.
  pose proof (skip_rows l (N.to_nat (offset_value l)) rows fuel 0 x' ltac:(lia) Hy Hf) as Hs.
  case_decide as Hd.
  - destruct Hs as (x1 & Hs & Hy1). pose proof (limit_yields_rest l _ x1 0 Hy1 ltac:(lia)) as Hr.
    rewrite N.sub_0_r in Hr.
    (* the first [next] skips, then behaves like a limit past its offset *)
    assert (Hsame : x_next fuel e (mkLimitX l 0 0 false x') = x_next fuel e (mkLimitX l (offset_value l) 0 false x1)).
    { simpl. unfold lx_next. simpl. rewrite Hs. replace (lx_skip fuel fuel e (mkLimitX l (offset_value l) 0 false x1))
        with (mkLimitX l (offset_value l) 0 false x1, @None CursorErrorCode); [done|].
      unfold has_offset, offset_value. destruct fuel; simpl; unfold has_offset, offset_value; destruct (offset_ l);
        simpl; by rewrite ?N.ltb_irrefl. }
    inversion Hr as [? ? Hn Eq|? ? ? ? Hn Hy' Eq]; subst; rewrite <- Hsame in Hn.
    + by eapply yields_end.
    + by eapply yields_row.
  - destruct Hs as (x1 & k & Hs). rewrite drop_ge by lia. rewrite take_nil. eapply yields_end.
    simpl. unfold lx_next. simpl. by rewrite Hs.
Qed.
End Operators.

(** *** Sort *)

(** A comparator that orders the rows of interest totally. *)
Section Sorting.
Context (less : Row -> Row -> bool) (P : Row -> Prop).
Hypothesis (Hirr : forall a, P a -> less a a = false).
Hypothesis (Htrans : forall a b c, P a -> P b -> P c -> less a b = true -> less b c = true -> less a c = true).
Hypothesis (Htot : forall a b, P a -> P b -> less a b = false -> less b a = false -> a = b).
Abbreviation lt := (fun a b => less a b = true).

Lemma less_asym a b : P a -> P b -> less a b = true -> less b a = false.
Proof.
  intros Ha Hb Hab. destruct (less b a) eqn:Hba; [|done].
  by rewrite <- (Hirr a Ha), (Htrans a b a).
Qed.

Lemma sort_insert_perm r l : sort_insert less r l ≡ₚ r :: l.
Proof.
  induction l as [|x l IH]; simpl; [done|]. destruct (less r x); [done|]. rewrite IH. apply perm_swap.
Qed.

Lemma sort_rows_app l r : sort_rows less (l ++ [r]) = sort_insert less r (sort_rows less l).
Proof. unfold sort_rows. by rewrite fold_left_app. Qed.

Lemma sort_rows_perm l : sort_rows less l ≡ₚ l.
Proof.
  induction l as [|r l IH] using rev_ind; [done|]. rewrite sort_rows_app, sort_insert_perm, IH.
  by rewrite (Permutation_app_comm l [r]).
Qed.

Lemma sort_insert_sorted r l : P r -> Forall P l -> r ∉ l -> StronglySorted lt l ->
  StronglySorted lt (sort_insert less r l).
Proof.
  intros Hr. induction l as [|x l IH]; intros HP Hn Hs; simpl; [repeat constructor|].
  apply Forall_cons in HP as [Hx HP]. apply not_elem_of_cons in Hn as [Hne Hn].
  inversion_clear Hs as [|? ? Hs' Hf]. destruct (less r x) eqn:E.
  - constructor; [by constructor|]. constructor; [done|].
    apply Forall_forall. intros y Hy. eapply Forall_forall in Hf; [|done].
    apply (Htrans r x y); try done. by eapply Forall_forall in HP.
  - constructor; [by apply IH|]. apply Forall_forall. intros y Hy. rewrite sort_insert_perm in Hy.
    apply elem_of_cons in Hy as [->|Hy]; [|by eapply Forall_forall in Hf].
    destruct (less x r) eqn:E2; [done|]. by destruct Hne; apply Htot.
Qed.

Lemma sort_rows_sorted l : Forall P l -> NoDup l -> StronglySorted lt (sort_rows less l).
Proof.
  induction l as [|r l IH] using rev_ind; intros HP Hn; [constructor|]. rewrite sort_rows_app.
  apply Forall_app in HP as [HP Hr]. apply Forall_cons in Hr as [Hr _]. apply NoDup_app in Hn as (Hn & Hd & _).
  apply sort_insert_sorted; [done|by rewrite sort_rows_perm| |by apply IH].
  rewrite sort_rows_perm. intros Hin. apply (Hd r Hin). by left.
Qed.

(** There is one sorted arrangement. *)
Lemma sorted_unique l l' : Forall P l -> l ≡ₚ l' -> StronglySorted lt l -> StronglySorted lt l' -> l = l'.
Proof.
  revert l'. induction l as [|a l IH]; intros l' HP Hp Hs Hs'; [by apply Permutation_nil in Hp as ->|].
  destruct l' as [|b l']; [by apply Permutation_sym, Permutation_nil in Hp|].
  inversion_clear Hs as [|? ? Hsl Hf]. inversion_clear Hs' as [|? ? Hsl' Hf'].
  assert (HP' : Forall P (b :: l')) by (by rewrite <- Hp).
  assert (a = b) as ->.
  { assert (Hb : b ∈ a :: l) by (rewrite Hp; left). assert (Ha : a ∈ b :: l') by (rewrite <- Hp; left).
    apply elem_of_cons in Hb as [->|Hb]; [done|]. apply elem_of_cons in Ha as [->|Ha]; [done|].
    eapply Forall_forall in Hf; [|exact Hb]. eapply Forall_forall in Hf'; [|exact Ha].
    apply Forall_cons in HP as [Pa _], HP' as [Pb _]. pose proof (less_asym a b Pa Pb Hf). congruence. }
  f_equal. apply IH; [by apply Forall_cons in HP as []|by apply Permutation_cons_inv in Hp|done|done].
Qed.

Lemma sort_rows_id l : Forall P l -> NoDup l -> StronglySorted lt l -> sort_rows less l = l.
Proof.
  intros HP Hn Hs. apply sorted_unique; [by rewrite sort_rows_perm|apply sort_rows_perm|by apply sort_rows_sorted|done].
Qed.

(** The heap of TopN holds the first rows seen so far, the last of them on top. *)

Lemma sort_insert_app_le r l1 l2 : Forall (fun x => less r x = false) l1 ->
  sort_insert less r (l1 ++ l2) = l1 ++ sort_insert less r l2.
Proof. induction 1 as [|x l1 Hx _ IH]; simpl; [done|]. by rewrite Hx, IH. Qed.

Lemma sort_insert_app_lt r l1 x l2 : less r x = true ->
  sort_insert less r (l1 ++ x :: l2) = sort_insert less r l1 ++ x :: l2.
Proof. intros Hx. induction l1 as [|y l1 IH]; simpl; [by rewrite Hx|]. destruct (less r y); [done|]. by rewrite IH. Qed.

Lemma heap_push_insert r l : P r -> Forall P l -> r ∉ l -> StronglySorted lt l ->
  heap_push less r (reverse l) = reverse (sort_insert less r l).
Proof.
  intros Hr. induction l as [|x l IH] using rev_ind; intros HP Hn Hs; [done|].
  apply Forall_app in HP as [HP Hx]. apply Forall_cons in Hx as [Hx _].
  apply not_elem_of_app in Hn as [Hn Hne]. apply not_elem_of_cons in Hne as [Hne _].
  apply StronglySorted_app in Hs as (Hall & Hs & _).
  rewrite reverse_app. simpl. destruct (less x r) eqn:E.
  - rewrite sort_insert_app_le.
    + simpl. rewrite (less_asym x r) by done. by rewrite !reverse_app.
    + apply Forall_forall. intros y Hy. assert (Py : P y) by (by eapply Forall_forall in HP).
      apply less_asym; try done. apply (Htrans y x r); try done. apply Hall; [done|by left].
  - assert (Hrx : less r x = true) by (destruct (less r x) eqn:E2; [done|]; by destruct Hne; apply Htot).
    rewrite sort_insert_app_lt by done. rewrite reverse_app. simpl. by rewrite IH.
Qed.

Lemma take_insert n r l : P r -> Forall P l -> StronglySorted lt l -> (n < length l)%nat ->
  match l !! n with
  | Some x => take (S n) (sort_insert less r l) =
              if less r x then sort_insert less r (take n l) else take (S n) l
  | None => True
  end.
Proof.
  intros Hr HP Hs Hn. destruct (l !! n) as [x|] eqn:Ex; [|done].
  pose proof (take_drop_middle l n x Ex) as Hl. rewrite <- Hl in HP, Hs.
  apply Forall_app in HP as [HP1 HP2]. apply Forall_cons in HP2 as [Px HP2].
  apply StronglySorted_app in Hs as (Hall & Hs1 & _).
  assert (Hlen : length (take n l) = n) by (rewrite length_take; lia).
  destruct (less r x) eqn:E; rewrite <- Hl at 1.
  - assert (Hlen' : length (sort_insert less r (take n l)) = S n) by (rewrite sort_insert_perm; cbn [length]; lia).
    rewrite sort_insert_app_lt by done. by rewrite take_app_length'.
  - rewrite cons_middle, app_assoc, sort_insert_app_le.
    + rewrite take_app_le by (rewrite length_app; simpl; lia).
      rewrite (take_S_r l n x Ex). apply take_ge. rewrite length_app. simpl. lia.
    + apply Forall_app. split; [|by constructor]. apply Forall_forall. intros y Hy.
      assert (Py : P y) by (by eapply Forall_forall in HP1).
      destruct (less r y) eqn:Ey; [|done]. rewrite <- E, (Htrans r y x); try done. apply Hall; [done|by left].
Qed.
End Sorting.

Section SortRuns.
Context {E X : Type} `{!Executor E X}.
Context (fuel : nat) (e : E).
Context (less : Row -> Row -> bool) (P : Row -> Prop).
Hypothesis (Hirr : forall a, P a -> less a a = false).
Hypothesis (Htrans : forall a b c, P a -> P b -> P c -> less a b = true -> less b c = true -> less a c = true).
Hypothesis (Htot : forall a b, P a -> P b -> less a b = false -> less b a = false -> a = b).

Definition top_count (s : SortExecutor (X:=X)) : nat := N.to_nat (so_top_n s).

(** What the buffer holds after the rows [seen]. *)
Definition held (s : SortExecutor (X:=X)) (seen : list Row) : list Row :=
  if so_is_top_n s then reverse (take (top_count s) (sort_rows less seen)) else seen.

Definition sort_result (s : SortExecutor (X:=X)) (rows : list Row) : list Row :=
  if so_is_top_n s then take (top_count s) (sort_rows less rows) else sort_rows less rows.

Lemma keep_row_held s seen row : Forall P (seen ++ [row]) -> NoDup (seen ++ [row]) ->
  (so_is_top_n s = false -> (N.of_nat (length seen) < so_row_limit s)%N) ->
  keep_row less s (held s seen) row = Some (held s (seen ++ [row])).
Proof.
  intros HP Hn Hl. unfold keep_row, held. destruct (so_is_top_n s); simpl.
  2:{ by rewrite (proj2 (N.leb_gt _ _)) by (by apply Hl). }
  assert (Ho : Forall P (sort_rows less seen) /\ row ∉ sort_rows less seen /\ P row /\
    StronglySorted (fun a b => less a b = true) (sort_rows less seen)).
  { apply Forall_app in HP as [HP Hr]. apply Forall_cons in Hr as [Hr _]. apply NoDup_app in Hn as (Hn & Hd & _).
    split_and!; [by rewrite sort_rows_perm| |done|by apply (sort_rows_sorted less P)].
    rewrite sort_rows_perm. intros Hin. apply (Hd row Hin). by left. }
  destruct Ho as (HPl & Hnl & Hr & Hs). rewrite sort_rows_app. set (l := sort_rows less seen) in *.
  destruct (so_top_n s =? 0)%N eqn:E0.
  { apply N.eqb_eq in E0. unfold top_count. rewrite E0. done. }
  apply N.eqb_neq in E0. rewrite length_reverse, length_take. unfold top_count.
  assert (Hsub : forall n, Forall P (take n l) /\ row ∉ take n l /\ StronglySorted (fun a b => less a b = true) (take n l)).
  { intros n. rewrite <- (take_drop n l) in HPl, Hnl, Hs. apply Forall_app in HPl as [? _].
    apply not_elem_of_app in Hnl as [? _]. by apply StronglySorted_app in Hs as (_ & ? & _). }
  destruct (_ <? _)%N eqn:El; boolify.
  - rewrite !take_ge by (rewrite ?sort_insert_perm; cbn [length]; lia). f_equal.
    by apply (heap_push_insert less P).
  - destruct (N.to_nat (so_top_n s)) as [|n] eqn:En; [lia|].
    pose proof (take_insert less P Htrans n row l Hr HPl Hs ltac:(lia)) as Ht.
    destruct (l !! n) as [x|] eqn:Ex; [|apply lookup_ge_None in Ex; lia].
    rewrite (take_S_r l n x Ex), reverse_app in *. simpl. rewrite Ht.
    destruct (less row x); [|by rewrite reverse_app]. unfold heap_replace. simpl. f_equal.
    destruct (Hsub n) as (? & ? & ?). by apply (heap_push_insert less P).
Qed.

Lemma sort_held s seen : Forall P seen -> NoDup seen -> sort_rows less (held s seen) = sort_result s seen.
Proof.
  intros HP Hn. unfold held, sort_result. destruct (so_is_top_n s); [|done].
  pose proof (sort_rows_sorted less P Htrans Htot seen HP Hn) as Hs.
  assert (Hp : NoDup (sort_rows less seen)) by (by rewrite sort_rows_perm).
  assert (HPs : Forall P (sort_rows less seen)) by (by rewrite sort_rows_perm).
  rewrite <- (take_drop (top_count s) (sort_rows less seen)) in Hs, Hp, HPs.
  apply StronglySorted_app in Hs as (_ & Hs & _). apply NoDup_app in Hp as (Hp & _).
  apply Forall_app in HPs as [HPs _].
  apply (sorted_unique less P Hirr Htrans); [by rewrite sort_rows_perm, reverse_Permutation| | |done].
  - by rewrite sort_rows_perm, reverse_Permutation.
  - apply (sort_rows_sorted less P); try done; by rewrite reverse_Permutation.
Qed.

Lemma collect_rows s rows : forall turns seen x,
  yields fuel e x rows -> (length rows < turns)%nat -> Forall P (seen ++ rows) -> NoDup (seen ++ rows) ->
  (so_is_top_n s = false -> (N.of_nat (length (seen ++ rows)) <= so_row_limit s)%N) ->
  exists x', sort_collect turns fuel e less s (held s seen) x =
    (sort_state (sort_result s (seen ++ rows)) CE_OK x' s, EX_OK).
Proof.
  induction rows as [|row rows IH]; intros turns seen x0 Hy Ht HP Hn Hl;
    (destruct turns as [|turns]; [lia|]); stream Hy; cbn [sort_collect]; rewrite En.
  - rewrite app_nil_r in *. exists x. by rewrite sort_held.
  - rewrite cons_middle, app_assoc in *. rewrite keep_row_held.
    + apply (IH turns (seen ++ [row]) x); try done. simpl in Ht. lia.
    + by apply Forall_app in HP as [HP _].
    + by apply NoDup_app in Hn as [Hn _].
    + intros Ht'. specialize (Hl Ht'). rewrite !length_app in Hl. simpl in Hl. lia.
Qed.

Lemma sorted_stream s rows : forall k, so_rows s = rows -> so_cursor s = k -> so_done s = false -> so_error s = CE_OK ->
  yields fuel e s (drop k rows).
Proof.
  intros k Hr Hk Hd He. remember (length rows - k)%nat as n eqn:Hn. revert s k Hr Hk Hd He Hn.
  induction n as [|n IH]; intros s k Hr Hk Hd He Hn.
  - rewrite drop_ge by lia. eapply yields_end. simpl. unfold so_next. rewrite He, Hd, Hr, Hk. simpl.
    by rewrite lookup_ge_None_2 by lia.
  - destruct (lookup_lt_is_Some_2 rows k ltac:(lia)) as [row Hrow].
    rewrite (drop_S _ _ _ Hrow). eapply yields_row.
    + simpl. unfold so_next. rewrite He, Hd, Hr, Hk. simpl. by rewrite Hrow.
    + apply (IH _ (S k)); try done; simpl; try done. lia.
Qed.

Lemma sort_runs s keys rows : so_opened s = false ->
  row_comparator (schema_ (so_table s)) (so_order_by s) = Some keys -> less = row_less keys ->
  runs fuel e (so_child s) rows -> (length rows < fuel)%nat -> Forall P rows -> NoDup rows ->
  (so_is_top_n s = false -> (N.of_nat (length rows) <= so_row_limit s)%N) ->
  runs fuel e s (sort_result s rows).
Proof.
  intros Ho Hk Hless (x & Hx & Hy) Hf HP Hn Hl.
  assert (Hc : held s [] = []) by (unfold held; destruct (so_is_top_n s); [change (sort_rows less []) with (@nil Row); by rewrite take_nil|done]).
  destruct (collect_rows s rows fuel [] x Hy Hf HP Hn Hl) as (x' & Hcol). rewrite Hc in Hcol.
  eexists. split.
  - simpl. unfold so_open. rewrite Ho, Hx. simpl. rewrite Hk, <- Hless.
    assert (Hsame : forall turns acc c, sort_collect turns fuel e less (sort_state [] CE_OK x s) acc c =
                    sort_collect turns fuel e less s acc c).
    { induction turns as [|turns IHt]; intros acc c; simpl; [done|]. destruct (x_next fuel e c) as [c' [row|[]]]; try done.
      unfold keep_row. simpl. destruct (so_is_top_n s); simpl; [|by destruct (_ <=? _)%N].
      destruct (_ =? _)%N; [done|]. destruct (_ <? _)%N; [done|]. destruct acc; [done|]. by destruct (less _ _). }
    by rewrite Hsame, Hcol.
  - apply (sorted_stream _ _ 0); done.
Qed.
End SortRuns.
