(* ===== verification/RowOrder.v ===== *)
(** * The row comparator is a total order on the rows of a table

    [RowComparator] of [executor/executor.cpp] compares column by column and
    breaks ties with the primary key. On rows that belong to a table every
    column comparison is the order of the column's key encoding, so that the
    comparator is a strict total order on rows with different primary keys. *)

From S2P Require Import Prelude Bytes OMap KvTypes KvApi SqlTypes KeyCodec SqlTruth SqlKeyRange Rewriter Schema RowCodec KeyPrefix Table TableSpec TableScan Optimizer Planner Executor.
Local Open Scope Z_scope.

(** ** Values of a validated column *)

(** A value a column accepts is of the column's kind: in particular the range
    check bounds dates, so that their seconds fit [int64_t]. *)
Lemma validate_of_kind col v : value_wf v -> validate_value col v = SE_OK -> of_kind (col_type col) v.
Proof.
  intros Hw Hv. split; [by apply validate_value_in_column|].
  unfold validate_value in Hv. destruct (is_null v) eqn:En.
  { assert (v = VNull) as -> by (destruct v as [|[]| |[]]; done). done. }
  destruct (is_same_family _ _) eqn:Ef; [|done]. simpl in Hv.
  destruct (is_temporal (col_type col) && is_temporal (type_of v) && _) eqn:Et; [done|].
  split; [|by destruct (col_type col), v as [|[]| |[]]].
  destruct v as [|u x| |]; try done. destruct u; try done. simpl in Hv, Et, Ef |- *.
  destruct (col_type col); try done. destruct (can_represent DATE x) eqn:Ec; [|done].
  unfold can_represent in Ec. simpl in Ec. boolify. unfold i64, int64_min, int64_max, kSecondsPerDay.
  unfold kDateMinDays, kDateMaxDays in *. lia.
Qed.

Lemma compare_for_sort_cmp t a b : of_kind t a -> of_kind t b -> compare_for_sort a b = value_cmp a b.
Proof.
  intros Ha Hb. unfold compare_for_sort, value_cmp.
  destruct (is_null a) eqn:Ea.
  { apply is_null_inv in Ea as ->. destruct (is_null b) eqn:Eb; [apply is_null_inv in Eb as ->; done|].
    by destruct b as [|[]| |[]]. }
  destruct (is_null b) eqn:Eb.
  { apply is_null_inv in Eb as ->. by destruct a as [|[]| |[]]. }
  simpl. by rewrite (sql_order_column t) by (done || by intros ->).
Qed.

(** The encoded keys decide the comparison. *)
Lemma compare_for_sort_key t a b : of_kind t a -> of_kind t b ->
  compare_for_sort a b = (let ka := to_column_key a t in let kb := to_column_key b t in
                          if bytes_ltb ka kb then -1 else if bytes_ltb kb ka then 1 else 0).
Proof.
  intros Ha Hb. rewrite (compare_for_sort_cmp t) by done. unfold value_cmp. simpl.
  by rewrite !key_order by (by apply of_kind_column).
Qed.

Section order.
Context (t : Table) (Ht : table_ok t).

(** ** A column of a row *)

Lemma row_length row : row_ok t row -> length row = length (columns_ (schema_ t)).
Proof. intros [Hv _ _]. unfold validate_row in Hv. destruct (length row =? _)%nat eqn:El; [|done]. by boolify. Qed.

Lemma row_value row i c : row_ok t row -> columns_ (schema_ t) !! i = Some c ->
  exists v, row !! i = Some v /\ of_kind (col_type c) v.
Proof.
  intros Hr Hc. pose proof (row_length row Hr) as Hl. destruct Hr as [Hv Hw _].
  destruct (lookup_lt_is_Some_2 row i) as [v Hrow]; [apply lookup_lt_Some in Hc; lia|].
  exists v. split; [done|]. unfold validate_row in Hv. rewrite Hl, Nat.eqb_refl in Hv. simpl in Hv.
  apply validate_of_kind; [by eapply Forall_lookup_1|]. by eapply validate_values_lookup.
Qed.

Definition column_key (row : Row) (i : nat) : bytes :=
  match row !! i, columns_ (schema_ t) !! i with
  | Some v, Some c => to_column_key v (col_type c)
  | _, _ => []
  end.

Definition keys_ok (keys : list SortKey) : Prop :=
  Forall (fun k => 0 <= sk_index k < Z.of_nat (length (columns_ (schema_ t)))) keys.

Lemma row_less_cons k keys a b : keys_ok (k :: keys) -> row_ok t a -> row_ok t b ->
  row_less (k :: keys) a b =
  let ka := column_key a (Z.to_nat (sk_index k)) in
  let kb := column_key b (Z.to_nat (sk_index k)) in
  if bytes_eqb ka kb then row_less keys a b
  else if sk_ascending k then bytes_ltb ka kb else bytes_ltb kb ka.
Proof.
  intros [Hk _]%Forall_cons Ha Hb. cbn [row_less]. unfold column_key.
  destruct (lookup_lt_is_Some_2 (columns_ (schema_ t)) (Z.to_nat (sk_index k)) ltac:(lia)) as [c Hc].
  destruct (row_value a _ c Ha Hc) as (x & Hx & Kx). destruct (row_value b _ c Hb Hc) as (y & Hy & Ky).
  rewrite Hx, Hy, Hc, (compare_for_sort_key (col_type c)) by done. cbv zeta.
  set (ka := to_column_key x _). set (kb := to_column_key y _).
  destruct (bytes_ltb_trichotomy ka kb) as [H|[H|H]].
  - rewrite H. unfold bytes_eqb. rewrite bool_decide_false by (by apply bytes_ltb_neq). simpl.
    rewrite (bytes_ltb_asym ka kb H). by destruct (sk_ascending k).
  - rewrite H, bytes_ltb_irrefl, bytes_eqb_refl. done.
  - rewrite H, (bytes_ltb_asym kb ka H). unfold bytes_eqb.
    rewrite bool_decide_false by (intros E; by apply (bytes_ltb_neq kb ka)). simpl. by destruct (sk_ascending k).
Qed.

Lemma row_less_irrefl keys a : keys_ok keys -> row_ok t a -> row_less keys a a = false.
Proof.
  intros Hk Ha. induction keys as [|k keys IH]; [done|]. rewrite row_less_cons by done. simpl.
  rewrite bytes_eqb_refl. apply IH. by apply Forall_cons in Hk as [_ Hk].
Qed.

Lemma row_less_trans keys a b c : keys_ok keys -> row_ok t a -> row_ok t b -> row_ok t c ->
  row_less keys a b = true -> row_less keys b c = true -> row_less keys a c = true.
Proof.
  intros Hk Ha Hb Hc. induction keys as [|k keys IH]; [done|]. rewrite !row_less_cons by done. simpl.
  apply Forall_cons in Hk as [_ Hk]. specialize (IH Hk).
  generalize (column_key a (Z.to_nat (sk_index k))), (column_key b (Z.to_nat (sk_index k))),
    (column_key c (Z.to_nat (sk_index k))). intros ka kb kc. unfold bytes_eqb.
  destruct (decide (ka = kb)) as [->|Nab].
  { rewrite bool_decide_true by done. destruct (decide (kb = kc)) as [->|]; [|by rewrite bool_decide_false].
    by rewrite bool_decide_true. }
  rewrite (bool_decide_false (ka = kb)) by done. destruct (decide (kb = kc)) as [->|Nbc].
  { by rewrite bool_decide_true, bool_decide_false. }
  rewrite (bool_decide_false (kb = kc)) by done. destruct (sk_ascending k); intros H1 H2.
  - pose proof (bytes_ltb_trans _ _ _ H1 H2) as H3. by rewrite bool_decide_false by (by apply bytes_ltb_neq).
  - pose proof (bytes_ltb_trans _ _ _ H2 H1) as H3.
    by rewrite bool_decide_false by (intros ->; by rewrite bytes_ltb_irrefl in H3).
Qed.

(** Rows neither of which comes first agree on every key. *)
Lemma row_less_tie keys a b : keys_ok keys -> row_ok t a -> row_ok t b ->
  row_less keys a b = false -> row_less keys b a = false ->
  forall k, k ∈ keys -> column_key a (Z.to_nat (sk_index k)) = column_key b (Z.to_nat (sk_index k)).
Proof.
  intros Hk Ha Hb. induction keys as [|k keys IH]; [by intros _ _ k ?%elem_of_nil|].
  rewrite !row_less_cons by done. simpl. apply Forall_cons in Hk as [_ Hk]. specialize (IH Hk).
  set (ka := column_key a _) in *. set (kb := column_key b _) in *. unfold bytes_eqb.
  repeat case_bool_decide; try congruence.
  - intros H1 H2 k' [->|Hk']%elem_of_cons; [done|by apply IH].
  - destruct (sk_ascending k); intros H1 H2; [by destruct H; apply bytes_ltb_antisym|].
    by destruct H; apply bytes_ltb_antisym.
Qed.

(** ** The keys of the comparator *)

Lemma column_index_bound name : 0 <= column_index name (schema_ t) ->
  column_index name (schema_ t) < Z.of_nat (length (columns_ (schema_ t))).
Proof.
  unfold column_index. intros H. destruct (index_from_bound 0 name (columns_ (schema_ t)) ltac:(lia)); lia.
Qed.

Lemma order_keys_ok order_by keys : order_keys (schema_ t) order_by = Some keys -> keys_ok keys.
Proof.
  revert keys. induction order_by as [|item rest IH]; intros keys Hk; simpl in Hk; [injection Hk as <-; constructor|].
  destruct (_ <? 0) eqn:Ei; [done|]. boolify. destruct (order_keys _ rest) as [ks|]; [|done]. injection Hk as <-.
  constructor; [simpl|by apply IH]. split; [done|by apply column_index_bound].
Qed.

Lemma pk_index_bound row : row_ok t row ->
  0 <= primary_key_index_ (schema_ t) < Z.of_nat (length (columns_ (schema_ t))).
Proof.
  intros Hr. pose proof (row_length row Hr). destruct Hr as [_ _ Hn]. unfold primary_key_of in Hn.
  destruct (_ || _) eqn:Eb; [done|]. boolify. lia.
Qed.

Lemma comparator_ok order_by keys row : row_comparator (schema_ t) order_by = Some keys -> row_ok t row ->
  keys_ok keys /\ exists k, k ∈ keys /\ sk_index k = primary_key_index_ (schema_ t).
Proof.
  intros Hc Hr. unfold row_comparator in Hc. destruct (order_keys _ order_by) as [ks|] eqn:Ek; [|done].
  apply order_keys_ok in Ek. pose proof (pk_index_bound row Hr) as Hb.
  rewrite (proj2 (Z.leb_le _ _)) in Hc by lia. simpl in Hc.
  assert (Happ : keys_ok (ks ++ [mkSortKey (primary_key_index_ (schema_ t)) true])).
  { apply Forall_app. split; [done|]. constructor; [done|constructor]. }
  destruct (last ks) as [k|] eqn:El.
  - destruct (sk_index k =? _) eqn:E; simpl in Hc; injection Hc as <-; boolify.
    + split; [done|]. exists k. split; [|done]. apply last_Some in El as [l' ->]. apply elem_of_app. right. by left.
    + split; [done|]. eexists. split; [apply elem_of_app; right; by left|done].
  - injection Hc as <-. split; [done|]. eexists. split; [apply elem_of_app; right; by left|done].
Qed.

(** The key of the primary column is the key of the row. *)
Lemma pk_column_key row : row_ok t row ->
  encode_key t (primary_key_of t row) = key_prefix_ t ++ column_key row (Z.to_nat (primary_key_index_ (schema_ t))).
Proof.
  intros Hr. rewrite encode_key_prefix by done. f_equal. unfold column_key.
  pose proof (pk_index_bound row Hr) as Hb. pose proof (row_length row Hr) as Hl.
  destruct (lookup_lt_is_Some_2 (columns_ (schema_ t)) (Z.to_nat (primary_key_index_ (schema_ t))) ltac:(lia)) as [c Hc].
  destruct (row_value row _ c Hr Hc) as (x & Hx & _). rewrite Hx, Hc.
  rewrite (to_made _ Ht). simpl. unfold primary_key_of. simpl.
  rewrite (proj2 (Z.ltb_ge _ _)), (proj2 (Z.leb_gt _ _)) by lia. simpl. rewrite Hx. simpl. f_equal.
  unfold table_pk_column, primary_key_column, column_at, has_primary_key.
  rewrite (proj2 (Z.leb_le _ _)), (proj2 (Z.ltb_lt _ _)) by lia. simpl.
  rewrite (proj2 (Z.ltb_ge _ _)), (proj2 (Z.leb_gt _ _)) by lia. simpl. by rewrite Hc.
Qed.

(** Rows of the same table with the same key are the same row. *)
Lemma same_key_same_row m a b : sorted m -> table_inv t m -> a ∈ table_rows t m -> b ∈ table_rows t m ->
  encode_key t (primary_key_of t a) = encode_key t (primary_key_of t b) -> a = b.
Proof.
  intros Hs Hi Ha Hb E. apply decode_rows_elem in Ha as [_ Ha], Hb as [_ Hb]; try done.
  unfold abs in Ha, Hb. rewrite E in Ha. congruence.
Qed.

Lemma row_less_total m order_by keys a b : sorted m -> table_inv t m ->
  row_comparator (schema_ t) order_by = Some keys -> a ∈ table_rows t m -> b ∈ table_rows t m ->
  row_less keys a b = false -> row_less keys b a = false -> a = b.
Proof.
  intros Hs Hi Hc Ha Hb Hab Hba. apply (same_key_same_row m); try done.
  apply decode_rows_elem in Ha as [Ra _], Hb as [Rb _]; try done.
  destruct (comparator_ok order_by keys a Hc Ra) as (Hk & k & Hin & Hpk).
  rewrite !pk_column_key by done. f_equal. rewrite <- Hpk. by apply (row_less_tie keys).
Qed.
End order.
