(* ===== verification/PlanRanges.v ===== *)
(** * The ranges of a plan, as the executor uses them

    Facts about the ranges and the excluded keys of a plan
    ([planner/optimizer.cpp]) that the scan operator relies on: a point range
    holds exactly the rows with its key, the ranges of a plan are well formed and
    non-empty (or there is a single one), and membership in a [KeySet] is
    membership of the encoded key. *)

From stdpp Require Import sorting.
From S2P Require Import Prelude Bytes OMap KvTypes KvApi SqlTypes KeyCodec SqlTruth SqlKeyRange Rewriter Schema RowCodec KeyPrefix Table TableSpec Optimizer Planner Executor.
Local Open Scope Z_scope.

(** ** Points *)

Lemma keys_between ty l v : in_column ty l -> in_column ty v ->
  negb (value_ltb v l) && negb (value_ltb l v) = bytes_eqb (to_column_key v ty) (to_column_key l ty).
Proof.
  intros Hl Hv. rewrite <- !(key_order ty) by done. unfold bytes_eqb.
  case_bool_decide as E; [by rewrite E, bytes_ltb_irrefl|].
  destruct (bytes_ltb_trichotomy (to_column_key v ty) (to_column_key l ty)) as [H|[H|H]]; [by rewrite H|done|].
  rewrite H. by rewrite andb_false_r.
Qed.

Lemma point_between_key ty r v : range_ok ty r -> is_point r = true -> is_null (point_value r) = false ->
  in_column ty v ->
  in_column ty (point_value r) /\
  between r v = bytes_eqb (to_column_key v ty) (to_column_key (point_value r) ty).
Proof.
  intros Hr Hp Hn Hv. pose proof Hr as (Hl & Hh & _ & _).
  destruct (point_cases r Hp) as [(l & h & El & Eh & Ee & Ei & Heq & Epv)|[(w & y & w' & z & El & Eh & Ee & Ei & Hw & Epv)|Epv]].
  - rewrite El in Hl. rewrite Eh in Hh. simpl in Hl, Hh. rewrite Epv. split; [done|].
    unfold between, above, below, low_of, high_of. rewrite El, Eh, Ee, Ei. cbn [fst snd].
    rewrite <- (key_order ty h v), <- (same_payload_key ty l h), key_order by (done || by apply value_eqb_payload).
    by apply keys_between.
  - rewrite El in Hl. simpl in Hl.
    assert (Htag : tag_of ty = kTagInt64) by (destruct Hl as [_ [|E]]; [done|]; rewrite <- E; by destruct w).
    destruct (point_between ty v Hv Htag r w y Hr Hp Epv) as [-> Hc]. rewrite Epv. split; [done|].
    rewrite <- keys_between by done. unfold is_num.
    destruct (int_column ty Htag v Hv) as [->|(u & k & -> & _)]; [done|]. simpl.
    destruct (k =? y) eqn:E1, (k <? y) eqn:E2, (y <? k) eqn:E3; boolify; try done; lia.
  - by rewrite Epv in Hn.
Qed.

(** ** The ranges of a plan are well formed *)

Lemma point_run_le rs : forall finish u moved,
  let '(last, _, _) := point_run finish (VInt u finish) moved rs in
  exists w y, last = VInt w y /\ finish <= y.
Proof.
  induction rs as [|r rs IH]; intros finish u moved; [by exists u, finish|].
  cbn [point_run]. destruct (is_point r); [|by exists u, finish].
  destruct (point_value r) as [|w x|b|w s]; try (by exists u, finish).
  destruct (_ || _) eqn:E; [by exists u, finish|]. boolify.
  specialize (IH x w true). destruct (point_run x (VInt w x) true rs) as [[last rest] m].
  destruct IH as (w' & y & -> & Hy). exists w', y. split; [done|]. lia.
Qed.

Lemma coalesce_nonempty t fuel rs cs : tag_of t = kTagInt64 -> (length rs < fuel)%nat ->
  Forall (range_ok t) rs -> Forall (fun r => kr_is_empty r = false) rs -> coalesce_fuel fuel rs = Some cs ->
  Forall (fun r => kr_is_empty r = false) cs.
Proof.
  intros Ht. revert rs cs. induction fuel as [|fuel IH]; intros rs cs Hf Hok Hne Hc; [lia|].
  destruct rs as [|r rs]; [by injection Hc as <-|]. cbn [coalesce_fuel] in Hc. simpl in Hf.
  apply Forall_cons in Hok as [Hr Hok], Hne as [Hn Hne].
  assert (Hkeep : match coalesce_fuel fuel rs with Some l => Some (r :: l) | None => None end = Some cs ->
    Forall (fun r => kr_is_empty r = false) cs).
  { destruct (coalesce_fuel fuel rs) as [l|] eqn:El; [|done]. intros [= <-]. constructor; [done|].
    by apply (IH rs l); [lia|..]. }
  destruct (is_point r) eqn:Hp; cbn [negb] in Hc; [|by apply Hkeep].
  destruct (point_value r) as [|u x|b|u s] eqn:Epv; try (by apply Hkeep);
    try (destruct (next_is_int_point rs); [done|by apply Hkeep]).
  pose proof (point_run_le rs x u false) as Hle.
  pose proof (point_between t VNull (null_in_column t) Ht r u x Hr Hp Epv) as [_ Hcx].
  pose proof (point_run_ok t VNull (null_in_column t) Ht rs Hok x x u false ltac:(lia) Hcx) as Hrun.
  assert (Hrest : forall finish v moved, suffix (point_run finish v moved rs).1.2 rs).
  { clear. induction rs as [|r rs IH]; intros finish v moved; simpl; [done|].
    destruct (is_point r); [|done]. destruct (point_value r); try done. destruct (_ || _); [done|].
    by apply suffix_cons_r. }
  specialize (Hrest x (VInt u x) false).
  destruct (point_run x (VInt u x) false rs) as [[last rest] moved].
  destruct Hle as (w & y & -> & Hle). destruct Hrun as (w' & y' & [= <- <-] & Hcy & Hokr & Hlen & _).
  simpl in Hrest. destruct Hrest as [pre Hpre].
  destruct (coalesce_fuel fuel rest) as [l|] eqn:El; [|done]. injection Hc as <-.
  assert (Forall (fun r => kr_is_empty r = false) l) as Hl.
  { apply (IH rest l); [lia|done| |done]. rewrite Hpre in Hne. by apply Forall_app in Hne as []. }
  destruct moved; [|by constructor]. constructor; [|done].
  assert (tag_of (of_int64_type u) = tag_of t) as Htag by (destruct Hcx as [_ [|E]]; [done|exact E]).
  destruct (closed_keys t u x w y (of_int64_type u) Htag Hcx Hcy) as [Kl Kh].
  assert (kr_closed (VInt u x) (VInt w y) = mkKeyRange (of_int64_type u) (Some (VInt u x)) (Some (VInt w y)) false true)
    as -> by (by destruct u, w).
  unfold kr_is_empty. rewrite Kl, Kh. cbn [high_ high_inclusive_ negb]. rewrite andb_false_r.
  rewrite bytes_ltb_succ, key_order by done. simpl. by rewrite (proj2 (Z.ltb_ge _ _)) by lia.
Qed.

Lemma kr_all_range_ok t : range_ok t (kr_all t).
Proof. split; [done|]. split; [done|]. split; [by right|]. by intros []. Qed.

(** Every plan's ranges are ranges over the key column; with more than one, none
    is empty. *)
Lemma convert_ranges_ok scan_is_cheaper pk t s plan :
  key_leaves_opt pk t (pk_cond s) -> convert_to_key_range scan_is_cheaper (Some pk) t s = Ok plan ->
  Forall (range_ok t) (plan_ranges plan) /\
  ((length (plan_ranges plan) <= 1)%nat \/ Forall (fun r => kr_is_empty r = false) (plan_ranges plan)).
Proof.
  intros Hk Hc. unfold convert_to_key_range in Hc. destruct s as [[c|] rem]; cbn [pk_cond remaining] in *.
  2:{ injection Hc as <-. simpl. split; [by constructor; [apply kr_all_range_ok|]|by left]. }
  destruct (range_of_condition c t) as [rs|] eqn:Er.
  2:{ unfold result_bind in Hc. destruct (as_ptr _); [|done]. injection Hc as <-. simpl.
      split; [by constructor; [apply kr_all_range_ok|]|by left]. }
  destruct (range_of_condition_canonical t pk c rs Hk Er) as [Hok Hcan].
  destruct (normalize_ranges_usable t rs Hok Hcan) as [Hu _].
  destruct (coalesce_adjacent_points _ t) as [cs|] eqn:Ecs; [|done].
  assert (Hn : Forall (range_ok t) (normalize_ranges rs)) by (eapply Forall_impl; [exact Hu|]; by intros ? [? _]).
  assert (Hne : Forall (fun r => kr_is_empty r = false) (normalize_ranges rs))
    by (eapply Forall_impl; [exact Hu|]; by intros ? (_ & _ & ?)).
  destruct (coalesce_ok t VNull (normalize_ranges rs) (null_in_column t) Hn) as (cs' & Ecs' & Hcs & _).
  rewrite Ecs in Ecs'. injection Ecs' as <-.
  assert (Hnc : Forall (fun r => kr_is_empty r = false) cs).
  { unfold coalesce_adjacent_points in Ecs.
    destruct (negb (is_integer t) && negb (is_temporal t)) eqn:Et; [by injection Ecs as <-|].
    apply (coalesce_nonempty t) in Ecs; try done; [|lia]. unfold tag_of. by destruct (is_integer t), (is_temporal t). }
  destruct (_ && is_sparse_point_set cs).
  - unfold result_bind in Hc. destruct (as_ptr _); [|done]. injection Hc as <-. simpl.
    split; [by constructor; [apply kr_all_range_ok|]|by left].
  - injection Hc as <-. simpl. case_bool_decide; [|by split; [|right]]. split; [|by left].
    constructor; [|done]. apply kind_range_ok; try done; apply null_bound_ok.
Qed.

(** ** Key sets *)

Definition key_le (a b : Value) : Prop := bytes_ltb (to_key b) (to_key a) = false.

Lemma insert_by_key_perm v l : insert_by_key v l ≡ₚ v :: l.
Proof. induction l as [|x l IH]; simpl; [done|]. destruct (bytes_ltb _ _); [done|]. rewrite IH. apply perm_swap. Qed.

Lemma insert_by_key_sorted v l : StronglySorted key_le l -> StronglySorted key_le (insert_by_key v l).
Proof.
  unfold key_le. induction 1 as [|x l Hs IH Hf]; simpl; [repeat constructor|].
  destruct (bytes_ltb (to_key v) (to_key x)) eqn:E.
  - constructor; [by constructor|]. constructor; [by apply bytes_ltb_asym|].
    eapply Forall_impl; [exact Hf|]. intros y Hy. simpl in Hy.
    destruct (bytes_ltb (to_key y) (to_key v)) eqn:E2; [|done]. by rewrite (bytes_ltb_trans _ _ _ E2 E) in Hy.
  - constructor; [done|]. apply Forall_forall. intros y Hy. rewrite insert_by_key_perm in Hy.
    apply elem_of_cons in Hy as [->|Hy]; [done|]. by eapply Forall_forall in Hf.
Qed.

Lemma ensure_sorted_app l v : ensure_sorted (l ++ [v]) = insert_by_key v (ensure_sorted l).
Proof. unfold ensure_sorted. by rewrite fold_left_app. Qed.

Lemma ensure_sorted_spec l : StronglySorted key_le (ensure_sorted l) /\ ensure_sorted l ≡ₚ l.
Proof.
  induction l as [|v l [IH1 IH2]] using rev_ind; [split; [constructor|done]|]. rewrite ensure_sorted_app.
  split; [by apply insert_by_key_sorted|]. rewrite insert_by_key_perm, IH2. by rewrite (Permutation_app_comm l [v]).
Qed.

Lemma binary_search_spec v l : StronglySorted key_le l ->
  binary_search v l = true <-> exists x, x ∈ l /\ to_key x = to_key v.
Proof.
  unfold key_le. induction 1 as [|x l Hs IH Hf]; simpl; [split; [done|by intros (x & ?%elem_of_nil & _)]|].
  destruct (bytes_ltb (to_key x) (to_key v)) eqn:E.
  - rewrite IH. split; [intros (y & ? & ?); exists y; split; [by right|done]|].
    intros (y & [->|Hy]%elem_of_cons & Ek); [|by exists y]. rewrite Ek, bytes_ltb_irrefl in E. done.
  - rewrite negb_true_iff. split.
    + intros E2. exists x. split; [by left|]. by apply bytes_ltb_antisym.
    + intros (y & [->|Hy]%elem_of_cons & Ek); [by rewrite Ek, bytes_ltb_irrefl|].
      rewrite <- Ek. by eapply Forall_forall in Hf.
Qed.

Lemma key_set_contains_spec points v :
  key_set_contains points v = true <-> exists x, x ∈ points /\ to_key x = to_key v.
Proof.
  destruct (ensure_sorted_spec points) as [Hs Hp].
  destruct points as [|p points]; [split; [done|by intros (x & ?%elem_of_nil & _)]|].
  unfold key_set_contains. rewrite binary_search_spec by done. by setoid_rewrite Hp.
Qed.
