(* ===== verification/KeySet.v ===== *)
(** * Sets of points: [sql_types/key_set.h]

    A vector of values that is sorted when it is first asked, with a flag that
    says whether it is; const member functions sort too, so every function
    returns the set it leaves. Points are compared by their keys. The algorithms
    of the standard library are the loops it prescribes. [as_int] of a point is
    taken after the check that all points are integers. *)

From S2P Require Import Prelude Bytes SqlTypes KeyCodec SqlKeyRange Optimizer Executor PlanRanges.
From stdpp Require Import sorting.
From stdpp Require Import gmap.

Record KeySet := mkKeySet { ks_points : list Value; ks_sorted : bool }.

Definition key_less (a b : Value) : bool := bytes_ltb (to_key a) (to_key b).
Definition key_equal (a b : Value) : bool := bytes_eqb (to_key a) (to_key b).

Definition ks_empty : KeySet := mkKeySet [] false.
Definition ks_of (points : list Value) : KeySet := mkKeySet points false.

(** ** Changing the set *)

Definition ks_add (v : Value) (s : KeySet) : KeySet :=
  if existsb (fun x => key_equal x v) (ks_points s) then s else mkKeySet (ks_points s ++ [v]) false.
Definition ks_add_all (vals : list Value) (s : KeySet) : KeySet := fold_left (fun s v => ks_add v s) vals s.

(** [std::find_if] and [erase]: the flag stays. *)
Fixpoint erase_key (v : Value) (l : list Value) : option (list Value) :=
  match l with
  | [] => None
  | x :: l' => if key_equal x v then Some l' else cons x <$> erase_key v l'
  end.
Definition ks_remove (v : Value) (s : KeySet) : KeySet * bool :=
  match erase_key v (ks_points s) with
  | Some points => (mkKeySet points (ks_sorted s), true)
  | None => (s, false)
  end.

Definition ks_clear (s : KeySet) : KeySet := mkKeySet [] true.
Definition ks_sort (s : KeySet) : KeySet := mkKeySet (ensure_sorted (ks_points s)) true.

(** [std::unique] with [erase]: the first of each run of equal keys. *)
Fixpoint unique_from (x : Value) (l : list Value) : list Value :=
  match l with
  | [] => [x]
  | y :: l' => if key_equal x y then unique_from x l' else x :: unique_from y l'
  end.
Definition unique_keys (l : list Value) : list Value := match l with [] => [] | x :: l' => unique_from x l' end.
Definition ks_normalize (s : KeySet) : KeySet := mkKeySet (unique_keys (ks_points (ks_sort s))) true.

Definition ks_ensure_sorted (s : KeySet) : KeySet :=
  if negb (ks_sorted s) && (1 <? length (ks_points s))%nat then ks_sort s else s.

(** ** Set operations *)

(** The loop of [std::set_union] and its relatives: which of the points found on
    the left only, on both sides and on the right only are copied. *)
Fixpoint set_merge (left both right : bool) (a : list Value) : list Value -> list Value :=
  fix inner (b : list Value) : list Value :=
    match a, b with
    | [], _ => if right then b else []
    | _, [] => if left then a else []
    | x :: a', y :: b' =>
        if key_less x y then (if left then [x] else []) ++ set_merge left both right a' b
        else if key_less y x then (if right then [y] else []) ++ inner b'
        else (if both then [x] else []) ++ set_merge left both right a' b'
    end.
Definition set_union := set_merge true true true.
Definition set_intersection := set_merge false true false.
Definition set_difference := set_merge true false false.
Definition set_symmetric_difference := set_merge true false true.

(** Both operands are sorted on the way. *)
Definition with_sorted {A} (f : list Value -> list Value -> A) (a b : KeySet) : KeySet * KeySet * A :=
  let a := ks_ensure_sorted a in
  let b := ks_ensure_sorted b in
  (a, b, f (ks_points a) (ks_points b)).
Definition sorted_result (r : KeySet * KeySet * list Value) : KeySet * KeySet * KeySet :=
  (r.1, mkKeySet r.2 true).

Definition ks_unite (a b : KeySet) : KeySet * KeySet * KeySet := sorted_result (with_sorted set_union a b).
Definition ks_intersect (a b : KeySet) : KeySet * KeySet * KeySet := sorted_result (with_sorted set_intersection a b).
Definition ks_subtract (a b : KeySet) : KeySet * KeySet * KeySet := sorted_result (with_sorted set_difference a b).
Definition ks_symmetric_difference (a b : KeySet) : KeySet * KeySet * KeySet :=
  sorted_result (with_sorted set_symmetric_difference a b).

(** ** Queries *)

Definition ks_contains (v : Value) (s : KeySet) : KeySet * bool :=
  match ks_points s with
  | [] => (s, false)
  | _ => let s := ks_ensure_sorted s in (s, binary_search v (ks_points s))
  end.

(** [std::includes]. *)
Fixpoint includes (a b : list Value) : bool :=
  match b with
  | [] => true
  | y :: b' =>
      match a with
      | [] => false
      | x :: a' => if key_less y x then false else if key_less x y then includes a' b else includes a' b'
      end
  end.
Definition ks_contains_all (a b : KeySet) : KeySet * KeySet * bool :=
  match ks_points b with [] => (a, b, true) | _ => with_sorted includes a b end.
Definition ks_contains_any (a b : KeySet) : KeySet * KeySet * bool :=
  match ks_points a, ks_points b with
  | [], _ | _, [] => (a, b, false)
  | _, _ => with_sorted (fun x y => negb (bool_decide (set_intersection x y = []))) a b
  end.
Fixpoint equal_keys (a b : list Value) : bool :=
  match a, b with
  | x :: a', y :: b' => key_equal x y && equal_keys a' b'
  | _, _ => true
  end.
Definition ks_equals (a b : KeySet) : KeySet * KeySet * bool :=
  if negb (length (ks_points a) =? length (ks_points b))%nat then (a, b, false) else with_sorted equal_keys a b.

(** [min] and [max] throw on the empty set. *)
Definition ks_min (s : KeySet) : option (KeySet * Value) :=
  match ks_points s with
  | [] => None
  | _ => let s := ks_ensure_sorted s in pair s <$> head (ks_points s)
  end.
Definition ks_max (s : KeySet) : option (KeySet * Value) :=
  match ks_points s with
  | [] => None
  | _ => let s := ks_ensure_sorted s in pair s <$> last (ks_points s)
  end.
Definition ks_all_int (s : KeySet) : KeySet * bool :=
  let s := ks_ensure_sorted s in (s, forallb is_int (ks_points s)).

(** ** Ranges *)

Definition as_int (v : Value) : Z := match v with VInt _ x => x | _ => 0 end.

Fixpoint consecutive (current : Value) (rest : list Value) : bool :=
  match rest with
  | [] => true
  | p :: rest' => (wrap64 (as_int p - as_int current) =? 1)%Z && consecutive p rest'
  end.
Definition ks_to_range (s : KeySet) : KeySet * option KeyRange :=
  match ks_points s with
  | [] => (s, Some (kr_empty UNKNOWN_TYPE))
  | _ =>
      let '(s, ints) := ks_all_int s in
      (s, if negb ints then None
          else match ks_points s with
               | [] => None
               | p :: rest => if consecutive p rest then Some (kr_closed p (default p (last rest))) else None
               end)
  end.

Fixpoint ranges_from (start current : Value) (rest : list Value) : list KeyRange :=
  match rest with
  | [] => [kr_closed start current]
  | p :: rest' =>
      if negb (wrap64 (as_int p - as_int current) =? 1)%Z then kr_closed start current :: ranges_from p p rest'
      else ranges_from start p rest'
  end.
Definition ks_to_ranges (s : KeySet) : KeySet * list KeyRange :=
  match ks_points s with
  | [] => (s, [])
  | _ =>
      let '(s, ints) := ks_all_int s in
      (s, if negb ints then [] else match ks_points s with [] => [] | p :: rest => ranges_from p p rest end)
  end.

(** [KeyRange::intersects_set] and [filter_set]. *)
Definition intersects_set (r : KeyRange) (s : KeySet) : KeySet * bool :=
  let s := ks_ensure_sorted s in (s, existsb (contains r) (ks_points s)).
Definition filter_set (r : KeyRange) (s : KeySet) : KeySet * KeySet :=
  let s := ks_ensure_sorted s in (s, ks_add_all (List.filter (contains r) (ks_points s)) ks_empty).

Definition ks_is_intersect (r : KeyRange) (s : KeySet) : KeySet * bool :=
  match ks_points s with
  | [] => (s, false)
  | _ => if kr_is_empty r then (s, false) else intersects_set r (ks_ensure_sorted s)
  end.
Definition ks_filter (r : KeyRange) (s : KeySet) : KeySet * KeySet :=
  match ks_points s with
  | [] => (s, ks_empty)
  | _ => if kr_is_empty r then (s, ks_empty) else filter_set r (ks_ensure_sorted s)
  end.

(** ** Keys of a list of points *)

Definition mem (k : bytes) (l : list Value) : bool := existsb (fun x => bytes_eqb (to_key x) k) l.
Definition strict (l : list Value) : Prop := StronglySorted (fun a b => key_less a b = true) l.

Lemma mem_elem k l : mem k l = true <-> k ∈ map to_key l.
Proof.
  unfold mem. rewrite existsb_exists, list_elem_of_In, in_map_iff. setoid_rewrite bytes_eqb_eq. naive_solver.
Qed.

Lemma mem_cons k x l : mem k (x :: l) = bytes_eqb (to_key x) k || mem k l.
Proof. done. Qed.

Lemma mem_app k a b : mem k (a ++ b) = mem k a || mem k b.
Proof. apply existsb_app. Qed.

Lemma mem_perm k a b : a ≡ₚ b -> mem k a = mem k b.
Proof. intros H. apply eq_true_iff_eq. rewrite !mem_elem. by rewrite H. Qed.

Lemma strict_cons x l : strict (x :: l) <-> strict l /\ Forall (fun y => key_less x y = true) l.
Proof. split; [by inversion 1|]. intros [? ?]. by constructor. Qed.

(** A key below every key of a list is not among them. *)
Lemma mem_below x l : Forall (fun y => key_less x y = true) l -> mem (to_key x) l = false.
Proof.
  induction 1 as [|y l Hy _ IH]; [done|]. rewrite mem_cons, IH, orb_false_r. unfold key_less in Hy.
  destruct (bytes_eqb _ _) eqn:E; [|done]. apply bytes_eqb_eq in E. by rewrite E, bytes_ltb_irrefl in Hy.
Qed.

Lemma below_trans x y l : key_less x y = true -> Forall (fun z => key_less y z = true) l ->
  Forall (fun z => key_less x z = true) l.
Proof. intros Hx Hl. eapply Forall_impl; [exact Hl|]. intros z. by apply bytes_ltb_trans. Qed.

Lemma strict_nodup l : strict l -> NoDup (map to_key l).
Proof.
  induction 1 as [|x l _ IH Hx]; cbn; constructor; [|done]. intros Hin%mem_elem. by rewrite mem_below in Hin.
Qed.

Lemma strict_le l : strict l -> StronglySorted key_le l.
Proof.
  induction 1 as [|x l _ IH Hx]; constructor; [done|]. eapply Forall_impl; [exact Hx|]. intros y Hy.
  unfold key_le. by apply bytes_ltb_asym.
Qed.

Lemma sorted_strict l : NoDup (map to_key l) -> StronglySorted key_le l -> strict l.
Proof.
  intros Hn Hs. induction Hs as [|x l _ IH Hx]; [constructor|]. cbn in Hn. apply NoDup_cons in Hn as [Hni Hn].
  apply strict_cons. split; [by apply IH|]. apply Forall_forall. intros y Hy. unfold key_less.
  destruct (bytes_ltb (to_key x) (to_key y)) eqn:E; [done|]. destruct Hni. eapply Forall_forall in Hx; [|done].
  rewrite (bytes_ltb_antisym _ _ E Hx). by apply list_elem_of_fmap_2.
Qed.

(** ** The merge loops *)

Lemma set_merge_nil l bo r a : set_merge l bo r a [] = if match a with [] => r | _ => l end then a else [].
Proof. destruct a; cbn; [by destruct r|done]. Qed.

Lemma set_merge_cons l bo r x a y b :
  set_merge l bo r (x :: a) (y :: b) =
    if key_less x y then (if l then [x] else []) ++ set_merge l bo r a (y :: b)
    else if key_less y x then (if r then [y] else []) ++ set_merge l bo r (x :: a) b
    else (if bo then [x] else []) ++ set_merge l bo r a b.
Proof. done. Qed.

Lemma set_merge_mem l bo r a b k : strict a -> strict b ->
  mem k (set_merge l bo r a b) = if mem k a then (if mem k b then bo else l) else mem k b && r.
Proof.
  revert b. induction a as [|x a IHa]; intros b Ha Hb.
  { destruct b; destruct r; cbn; by rewrite ?andb_true_r, ?andb_false_r. }
  induction b as [|y b IHb].
  { rewrite set_merge_nil. destruct l; cbn; [by destruct (_ || _)|by destruct (_ || _)]. }
  pose proof Ha as [Ha' Hxa]%strict_cons. pose proof Hb as [Hb' Hyb]%strict_cons. rewrite set_merge_cons.
  destruct (key_less x y) eqn:Exy; [|destruct (key_less y x) eqn:Eyx].
  - rewrite mem_app, IHa by done. rewrite (mem_cons k x a).
    destruct (bytes_eqb (to_key x) k) eqn:Ek; [|by destruct l; cbn; rewrite ?Ek].
    apply bytes_eqb_eq in Ek as <-. rewrite (mem_below x a Hxa), (mem_below x (y :: b)).
    + by destruct l; cbn; rewrite ?bytes_eqb_refl.
    + constructor; [done|]. by eapply below_trans.
  - rewrite mem_app, IHb by done.
    rewrite (mem_cons k y b).
    destruct (bytes_eqb (to_key y) k) eqn:Ek; [|by destruct r; cbn; rewrite ?Ek].
    apply bytes_eqb_eq in Ek as <-. rewrite (mem_below y b Hyb), (mem_below y (x :: a)).
    + by destruct r; cbn; rewrite ?bytes_eqb_refl.
    + constructor; [done|]. by eapply below_trans.
  - assert (Hxy : to_key x = to_key y) by by apply bytes_ltb_antisym. rewrite mem_app, IHa by done.
    rewrite (mem_cons k x a).
    rewrite (mem_cons k y b). rewrite <- Hxy.
    destruct (bytes_eqb (to_key x) k) eqn:Ek; [|by destruct bo; cbn; rewrite ?Ek].
    apply bytes_eqb_eq in Ek as <-. rewrite (mem_below x a Hxa). rewrite Hxy, (mem_below y b Hyb).
    by destruct bo; cbn; rewrite ?Hxy, ?bytes_eqb_refl.
Qed.

Lemma set_merge_forall (P : Value -> Prop) l bo r a b : Forall P a -> Forall P b -> Forall P (set_merge l bo r a b).
Proof.
  assert (Hif : forall (c : bool) x t, P x -> Forall P t -> Forall P ((if c then [x] else []) ++ t))
    by (intros [] x t; [by constructor|done]).
  intros Ha. revert b. induction Ha as [|x a Hx Ha IHa]; intros b Hb; [destruct b, r; cbn; done || constructor|].
  induction Hb as [|y b Hy Hb IHb]; [rewrite set_merge_nil; by destruct l; constructor|]. rewrite set_merge_cons.
  destruct (key_less x y); [|destruct (key_less y x)]; apply Hif; auto.
Qed.

Lemma set_merge_strict l bo r a b : strict a -> strict b -> strict (set_merge l bo r a b).
Proof.
  assert (Hif : forall (c : bool) x t, Forall (fun y => key_less x y = true) t -> strict t -> strict ((if c then [x] else []) ++ t))
    by (intros [] x t Hx Ht; [by apply strict_cons|done]).
  revert b. induction a as [|x a IHa]; intros b Ha Hb; [destruct b, r; cbn; done || constructor|].
  induction b as [|y b IHb]; [rewrite set_merge_nil; by destruct l; [|constructor]|]. rewrite set_merge_cons.
  pose proof Ha as [Ha' Hxa]%strict_cons. pose proof Hb as [Hb' Hyb]%strict_cons.
  destruct (key_less x y) eqn:Exy; [|destruct (key_less y x) eqn:Eyx]; apply Hif; auto; apply set_merge_forall; try done.
  - constructor; [done|]. by eapply below_trans.
  - constructor; [done|]. by eapply below_trans.
  - assert (Hxy : to_key x = to_key y) by by apply bytes_ltb_antisym. unfold key_less in *. by rewrite Hxy.
Qed.

Lemma includes_mem a b : strict a -> strict b ->
  includes a b = true <-> forall k, mem k b = true -> mem k a = true.
Proof.
  revert b. induction a as [|x a IH]; intros [|y b] Ha Hb; try done.
  - split; [done|]. intros H. specialize (H (to_key y)). rewrite mem_cons, bytes_eqb_refl in H. by specialize (H eq_refl).
  - pose proof Ha as [Ha' Hxa]%strict_cons. pose proof Hb as [Hb' Hyb]%strict_cons. cbn [includes].
    destruct (key_less y x) eqn:Eyx; [|destruct (key_less x y) eqn:Exy].
    + split; [done|]. intros H. specialize (H (to_key y)). rewrite (mem_cons _ y), bytes_eqb_refl in H.
      rewrite (mem_below y (x :: a)) in H by (constructor; [done|by eapply below_trans]). by specialize (H eq_refl).
    + rewrite IH by done. apply forall_proper. intros k. rewrite (mem_cons _ x). destruct (bytes_eqb (to_key x) k) eqn:Ek; [|done].
      apply bytes_eqb_eq in Ek as <-. rewrite (mem_below x (y :: b)) by (constructor; [done|by eapply below_trans]). done.
    + assert (Hxy : to_key x = to_key y) by by apply bytes_ltb_antisym. rewrite IH by done. apply forall_proper. intros k.
      rewrite !mem_cons, Hxy. destruct (bytes_eqb (to_key y) k) eqn:Ek; [|done]. apply bytes_eqb_eq in Ek as <-.
      rewrite (mem_below y b Hyb). split; [done|]. by intros _ H.
Qed.

Lemma equal_keys_eq a b : length a = length b -> equal_keys a b = true <-> map to_key a = map to_key b.
Proof.
  revert b. induction a as [|x a IH]; intros [|y b] Hl; try done. cbn in *. injection Hl as Hl.
  rewrite andb_true_iff, IH by done. unfold key_equal. rewrite bytes_eqb_eq. split; [by intros [-> ->]|by intros [= -> ->]].
Qed.

(** Sorted lists with the same keys are the same up to keys. *)
Lemma strict_unique a b : strict a -> strict b -> (forall k, mem k a = mem k b) -> map to_key a = map to_key b.
Proof.
  revert b. induction a as [|x a IH]; intros [|y b] Ha Hb H; [done|..].
  - specialize (H (to_key y)). by rewrite mem_cons, bytes_eqb_refl in H.
  - specialize (H (to_key x)). by rewrite mem_cons, bytes_eqb_refl in H.
  - pose proof Ha as [Ha' Hxa]%strict_cons. pose proof Hb as [Hb' Hyb]%strict_cons.
    assert (Hxy : to_key x = to_key y).
    { apply bytes_ltb_antisym.
      - destruct (bytes_ltb (to_key x) (to_key y)) eqn:E; [|done]. specialize (H (to_key x)).
        rewrite mem_cons, bytes_eqb_refl, (mem_below x (y :: b)) in H; [done|]. constructor; [done|]. by eapply below_trans.
      - destruct (bytes_ltb (to_key y) (to_key x)) eqn:E; [|done]. specialize (H (to_key y)).
        rewrite (mem_cons _ y), bytes_eqb_refl, (mem_below y (x :: a)) in H; [done|]. constructor; [done|]. by eapply below_trans. }
    cbn. rewrite Hxy. f_equal. apply IH; try done. intros k. specialize (H k). rewrite !mem_cons, Hxy in H.
    destruct (bytes_eqb (to_key y) k) eqn:Ek; [|done]. apply bytes_eqb_eq in Ek as <-.
    rewrite (mem_below y b Hyb). rewrite <- Hxy. by apply mem_below.
Qed.

(** ** The set a [KeySet] stands for *)

#[export] Instance byte_countable : Countable byte := inj_countable' Byte.to_N byte_of_N byte_of_N_to_N.

Definition ks_abs (s : KeySet) : gset bytes := list_to_set (map to_key (ks_points s)).

(** One point per key, and the flag does not lie. *)
Record ks_inv (s : KeySet) : Prop := {
  ki_nodup : NoDup (map to_key (ks_points s));
  ki_sorted : ks_sorted s = true -> StronglySorted key_le (ks_points s) }.

(** A set that was only looked at. *)
Definition same_set (s s' : KeySet) : Prop := ks_inv s' /\ ks_abs s' = ks_abs s.

Lemma abs_elem k s : k ∈ ks_abs s <-> mem k (ks_points s) = true.
Proof. unfold ks_abs. by rewrite elem_of_list_to_set, mem_elem. Qed.

Lemma abs_mem s k : bool_decide (k ∈ ks_abs s) = mem k (ks_points s).
Proof. apply eq_true_iff_eq. by rewrite bool_decide_eq_true, abs_elem. Qed.

Lemma abs_eq a b : (forall k, mem k (ks_points a) = mem k (ks_points b)) -> ks_abs a = ks_abs b.
Proof. intros H. apply set_eq. intros k. by rewrite !abs_elem, H. Qed.

Lemma strict_inv l : strict l -> ks_inv (mkKeySet l true).
Proof. intros H. split; [by apply strict_nodup|]. intros _. by apply strict_le. Qed.

Lemma ensure_ok s : ks_inv s -> strict (ks_points (ks_ensure_sorted s)) /\ same_set s (ks_ensure_sorted s).
Proof.
  intros [Hn Hs]. unfold ks_ensure_sorted. destruct (ks_sorted s) eqn:E; cbn [negb andb].
  { split; [by apply sorted_strict; auto|]. split; [by split; [|intros _; auto]|done]. }
  destruct (_ <? _)%nat eqn:El; boolify.
  - destruct (ensure_sorted_spec (ks_points s)) as [Hle Hp].
    assert (Hst : strict (ensure_sorted (ks_points s))) by (apply sorted_strict; [by rewrite Hp|done]).
    split; [done|]. split; [by apply strict_inv|]. apply abs_eq. intros k. by apply mem_perm.
  - split; [|by split; [split; [|rewrite E]|]].
    destruct (ks_points s) as [|x [|y l]]; cbn in El; [constructor|repeat constructor|lia].
Qed.

Lemma with_sorted_ok {A} (f : list Value -> list Value -> A) a b : ks_inv a -> ks_inv b ->
  exists a' b', with_sorted f a b = (a', b', f (ks_points a') (ks_points b')) /\ same_set a a' /\ same_set b b' /\
    strict (ks_points a') /\ strict (ks_points b').
Proof.
  intros [Ha Hsa]%ensure_ok [Hb Hsb]%ensure_ok. by exists (ks_ensure_sorted a), (ks_ensure_sorted b).
Qed.

Lemma same_mem s s' k : same_set s s' -> mem k (ks_points s') = bool_decide (k ∈ ks_abs s).
Proof. intros [_ <-]. by rewrite abs_mem. Qed.

(** An operation on two sets computes [f], and leaves the operands. *)
Definition computes (op : KeySet -> KeySet -> KeySet * KeySet * KeySet) (f : gset bytes -> gset bytes -> gset bytes)
    (a b : KeySet) : Prop :=
  let '(a', b', r) := op a b in same_set a a' /\ same_set b b' /\ ks_inv r /\ ks_abs r = f (ks_abs a) (ks_abs b).
Definition decides (op : KeySet -> KeySet -> KeySet * KeySet * bool) (P : gset bytes -> gset bytes -> Prop)
    (a b : KeySet) : Prop :=
  let '(a', b', answer) := op a b in same_set a a' /\ same_set b b' /\ (answer = true <-> P (ks_abs a) (ks_abs b)).

Lemma merge_computes l bo r f a b :
  (forall A B k, k ∈ f A B <-> if bool_decide (k ∈ A) then (if bool_decide (k ∈ B) then bo else l) = true
                               else bool_decide (k ∈ B) && r = true) ->
  ks_inv a -> ks_inv b -> computes (fun a b => sorted_result (with_sorted (set_merge l bo r) a b)) f a b.
Proof.
  intros Hf Ha Hb. unfold computes.
  destruct (with_sorted_ok (set_merge l bo r) a b Ha Hb) as (a' & b' & -> & Hsa & Hsb & Hta & Htb).
  cbn [sorted_result fst snd].
  split_and!; [done|done|by apply strict_inv, set_merge_strict|]. apply set_eq. intros k.
  rewrite abs_elem. cbn [ks_points]. rewrite (set_merge_mem _ _ _ _ _ _ Hta Htb), Hf.
  rewrite (same_mem a a' k Hsa), (same_mem b b' k Hsb). by destruct (bool_decide (k ∈ ks_abs a)).
Qed.

Lemma includes_decides a b : ks_inv a -> ks_inv b -> decides ks_contains_all (fun A B => B ⊆ A) a b.
Proof.
  intros Ha Hb. unfold decides, ks_contains_all. destruct (ks_points b) as [|y l] eqn:Eb.
  { split; [done|]. split; [done|]. split; [|done]. intros _ k Hk. apply abs_elem in Hk. by rewrite Eb in Hk. }
  destruct (with_sorted_ok includes a b Ha Hb) as (a' & b' & -> & Hsa & Hsb & Hta & Htb). split; [done|]. split; [done|].
  rewrite (includes_mem _ _ Hta Htb). apply forall_proper. intros k.
  rewrite (same_mem a a' k Hsa), (same_mem b b' k Hsb). by rewrite !bool_decide_eq_true.
Qed.

Lemma equals_decides a b : ks_inv a -> ks_inv b -> decides ks_equals eq a b.
Proof.
  intros Ha Hb. unfold decides, ks_equals.
  assert (Hlen : forall s s' : KeySet, same_set s s' -> ks_inv s -> length (ks_points s) = size (ks_abs s')).
  { intros s s' [_ ->] [Hn _]. unfold ks_abs. rewrite size_list_to_set by done. by rewrite length_map. }
  pose proof (Hlen a a (conj Ha eq_refl) Ha) as Hla. pose proof (Hlen b b (conj Hb eq_refl) Hb) as Hlb.
  destruct (length (ks_points a) =? length (ks_points b))%nat eqn:El; cbn [negb]; boolify.
  2:{ split; [done|]. split; [done|]. split; [done|]. intros E. rewrite E in Hla. lia. }
  destruct (with_sorted_ok equal_keys a b Ha Hb) as (a' & b' & -> & Hsa & Hsb & Hta & Htb). split; [done|]. split; [done|].
  rewrite equal_keys_eq.
  2:{ rewrite (Hlen a' a' (conj (proj1 Hsa) eq_refl) (proj1 Hsa)), (Hlen b' b' (conj (proj1 Hsb) eq_refl) (proj1 Hsb)).
      destruct Hsa as [_ ->], Hsb as [_ ->]. lia. }
  split.
  - intros E. destruct Hsa as [_ <-], Hsb as [_ <-]. unfold ks_abs. by rewrite E.
  - intros E. apply strict_unique; try done. intros k. by rewrite (same_mem a a' k Hsa), (same_mem b b' k Hsb), E.
Qed.

Lemma add_ok v s : ks_inv s -> ks_inv (ks_add v s) /\ ks_abs (ks_add v s) = {[to_key v]} ∪ ks_abs s.
Proof.
  intros Hs. unfold ks_add. change (existsb _ (ks_points s)) with (mem (to_key v) (ks_points s)).
  destruct (mem (to_key v) (ks_points s)) eqn:E.
  - split; [done|]. apply abs_elem in E. set_solver.
  - split.
    + split; [|done]. cbn. rewrite map_app. apply NoDup_app. split; [apply Hs|]. split; [|apply NoDup_singleton].
      intros k Hk ->%list_elem_of_singleton. apply mem_elem in Hk. congruence.
    + unfold ks_abs. cbn. rewrite map_app, list_to_set_app_L. cbn. set_solver.
Qed.

Lemma add_all_ok vals s : ks_inv s ->
  ks_inv (ks_add_all vals s) /\ ks_abs (ks_add_all vals s) = list_to_set (map to_key vals) ∪ ks_abs s.
Proof.
  revert s. induction vals as [|v vals IH]; intros s Hs; cbn; [by rewrite union_empty_l_L|].
  destruct (add_ok v s Hs) as [Hi Ha]. destruct (IH _ Hi) as [Hi' Ha']. split; [done|].
  change (fold_left _ vals _) with (ks_add_all vals (ks_add v s)). rewrite Ha', Ha. set_solver.
Qed.

Lemma erase_key_spec v l :
  match erase_key v l with
  | Some l' => exists l1 x l2, l = l1 ++ x :: l2 /\ l' = l1 ++ l2 /\ to_key x = to_key v
  | None => mem (to_key v) l = false
  end.
Proof.
  induction l as [|x l IH]; [done|]. cbn [erase_key]. rewrite mem_cons. unfold key_equal.
  destruct (bytes_eqb (to_key x) (to_key v)) eqn:E; [apply bytes_eqb_eq in E; by exists [], x, l|].
  destruct (erase_key v l) as [l'|]; [|done]. destruct IH as (l1 & y & l2 & -> & -> & Hy). by exists (x :: l1), y, l2.
Qed.

Lemma remove_ok v s : ks_inv s ->
  let '(s', found) := ks_remove v s in
  ks_inv s' /\ ks_abs s' = ks_abs s ∖ {[to_key v]} /\ found = bool_decide (to_key v ∈ ks_abs s).
Proof.
  intros [Hn Hs]. unfold ks_remove. pose proof (erase_key_spec v (ks_points s)) as Hsp. rewrite abs_mem.
  destruct (erase_key v (ks_points s)) as [l'|].
  - destruct Hsp as (l1 & x & l2 & El & -> & Hx). split_and!.
    + split; cbn [ks_points ks_sorted].
      * rewrite El, map_app in Hn. rewrite map_app. apply NoDup_app in Hn as (H1 & H2 & [_ H3]%NoDup_cons).
        apply NoDup_app. split_and!; [done| |done]. intros k Hk Hk'. apply (H2 k Hk). by right.
      * intros E. specialize (Hs E). rewrite El in Hs. clear -Hs. induction l1 as [|y l1 IH]; inversion Hs; subst; [done|].
        constructor; [by apply IH|]. by rewrite Forall_app, Forall_cons in * |- *; naive_solver.
    + unfold ks_abs. cbn [ks_points]. rewrite El in Hn |- *. rewrite map_app in *. cbn [map] in *. rewrite !list_to_set_app_L.
      cbn. rewrite Hx in *. apply NoDup_app in Hn as (_ & H2 & [H3 _]%NoDup_cons).
      assert (to_key v ∉ map to_key l1) by (intros Hk; apply (H2 _ Hk); by left). set_solver.
    + rewrite El, mem_app, mem_cons, Hx, bytes_eqb_refl. by rewrite orb_true_r.
  - rewrite Hsp. split_and!; [done| |done]. rewrite difference_disjoint_L; [done|].
    intros k Hk ->%elem_of_singleton. apply abs_elem in Hk. congruence.
Qed.

Lemma contains_ok v s : ks_inv s ->
  let '(s', found) := ks_contains v s in same_set s s' /\ found = bool_decide (to_key v ∈ ks_abs s).
Proof.
  intros Hs. unfold ks_contains. destruct (ensure_ok s Hs) as [Hst Hsame].
  assert (Hb : binary_search v (ks_points (ks_ensure_sorted s)) = bool_decide (to_key v ∈ ks_abs s)).
  { rewrite <- (same_mem _ _ _ Hsame). apply eq_true_iff_eq. rewrite (binary_search_spec _ _ (strict_le _ Hst)).
    unfold mem. rewrite existsb_exists. setoid_rewrite bytes_eqb_eq. by setoid_rewrite list_elem_of_In. }
  destruct (ks_points s) as [|x l] eqn:E; [|by rewrite Hb]. split; [done|]. rewrite abs_mem. by rewrite E.
Qed.

Lemma contains_any_decides a b : ks_inv a -> ks_inv b -> decides ks_contains_any (fun A B => A ∩ B <> ∅) a b.
Proof.
  intros Ha Hb. unfold decides, ks_contains_any.
  assert (Hnil : forall s, ks_points s = [] -> ks_abs s = ∅) by (intros s E; unfold ks_abs; by rewrite E).
  destruct (ks_points a) as [|x la] eqn:Ea; [|destruct (ks_points b) as [|y lb] eqn:Eb].
  - split; [done|]. split; [done|]. split; [done|]. rewrite (Hnil a Ea). set_solver.
  - split; [done|]. split; [done|]. split; [done|]. rewrite (Hnil b Eb). set_solver.
  - destruct (with_sorted_ok (fun x y => negb (bool_decide (set_intersection x y = []))) a b Ha Hb)
      as (a' & b' & -> & Hsa & Hsb & Hta & Htb). split; [done|]. split; [done|].
    rewrite negb_true_iff, bool_decide_eq_false. apply not_iff_compat.
    assert (Hm : forall k, mem k (set_intersection (ks_points a') (ks_points b')) = bool_decide (k ∈ ks_abs a ∩ ks_abs b)).
    { intros k. unfold set_intersection. rewrite (set_merge_mem _ _ _ _ _ _ Hta Htb).
      rewrite (same_mem a a' k Hsa), (same_mem b b' k Hsb), andb_false_r. by repeat case_bool_decide; set_solver. }
    split.
    + intros E. apply set_eq. intros k. specialize (Hm k). rewrite E in Hm. symmetry in Hm. apply bool_decide_eq_false in Hm. set_solver.
    + intros E. destruct (set_intersection _ _) as [|x' l] eqn:El; [done|]. specialize (Hm (to_key x')).
      rewrite mem_cons, bytes_eqb_refl, E in Hm. done.
Qed.

(** Whatever points a set is made of, [normalize] gives one point per key. *)
Lemma unique_from_ok x l : StronglySorted key_le (x :: l) ->
  strict (unique_from x l) /\ (forall k, mem k (unique_from x l) = mem k (x :: l)) /\
  Forall (fun y => key_le x y) (unique_from x l).
Proof.
  revert x. induction l as [|y l IH]; intros x Hs; cbn [unique_from].
  { split; [repeat constructor|]. split; [done|]. repeat constructor. apply bytes_ltb_irrefl. }
  apply StronglySorted_inv in Hs as [Hs Hx]. apply Forall_cons in Hx as [Hxy Hx]. unfold key_equal.
  destruct (bytes_eqb (to_key x) (to_key y)) eqn:E.
  - apply bytes_eqb_eq in E. destruct (IH x) as (H1 & H2 & H3); [apply StronglySorted_inv in Hs as [Hs _]; by constructor|].
    split; [done|]. split; [|done]. intros k. rewrite H2, !mem_cons, E. by destruct (bytes_eqb _ _).
  - destruct (IH y Hs) as (H1 & H2 & H3). unfold key_le in Hxy.
    assert (Hlt : bytes_ltb (to_key x) (to_key y) = true).
    { destruct (bytes_ltb (to_key x) (to_key y)) eqn:El; [done|]. rewrite (bytes_ltb_antisym _ _ El Hxy) in E.
      by rewrite bytes_eqb_refl in E. }
    assert (Hf : Forall (fun z => key_less x z = true) (unique_from y l)).
    { eapply Forall_impl; [exact H3|]. intros z Hz. unfold key_le, key_less in *.
      by eapply bytes_ltb_le_trans. }
    split; [by apply strict_cons|]. split; [intros k; by rewrite mem_cons, H2, !mem_cons|].
    constructor; [apply bytes_ltb_irrefl|]. eapply Forall_impl; [exact Hf|]. intros z. by apply bytes_ltb_asym.
Qed.

Lemma normalize_ok s : ks_inv (ks_normalize s) /\ ks_abs (ks_normalize s) = ks_abs s.
Proof.
  unfold ks_normalize, ks_sort. cbn [ks_points]. destruct (ensure_sorted_spec (ks_points s)) as [Hs Hp].
  destruct (ensure_sorted (ks_points s)) as [|x l]; cbn [unique_keys].
  - split; [by split; [apply NoDup_nil_2|constructor]|]. apply abs_eq. intros k. by apply mem_perm.
  - destruct (unique_from_ok x l Hs) as (H1 & H2 & _). split; [by apply strict_inv|]. apply abs_eq. intros k.
    cbn [ks_points]. rewrite H2. by apply mem_perm.
Qed.

(** A [KeySet] is a set of keys. On sets with one point per key and a flag
    that is true only of sorted points, adding and removing a point, union,
    intersection, difference and symmetric difference, membership, inclusion,
    overlap and equality are those of the sets of keys, whatever was sorted
    before; every operation keeps that invariant and leaves its operands the sets
    they were; and [normalize] establishes it for any points. *)
Theorem key_set_refines a b v :
  ks_inv a -> ks_inv b ->
  (ks_inv (ks_add v a) /\ ks_abs (ks_add v a) = {[to_key v]} ∪ ks_abs a) /\
  (let '(a', found) := ks_remove v a in
   ks_inv a' /\ ks_abs a' = ks_abs a ∖ {[to_key v]} /\ found = bool_decide (to_key v ∈ ks_abs a)) /\
  computes ks_unite union a b /\ computes ks_intersect intersection a b /\ computes ks_subtract difference a b /\
  computes ks_symmetric_difference (fun A B => (A ∖ B) ∪ (B ∖ A)) a b /\
  (let '(a', found) := ks_contains v a in same_set a a' /\ found = bool_decide (to_key v ∈ ks_abs a)) /\
  decides ks_contains_all (fun A B => B ⊆ A) a b /\ decides ks_contains_any (fun A B => A ∩ B <> ∅) a b /\
  decides ks_equals eq a b /\
  forall points, ks_inv (ks_normalize (ks_of points)) /\ ks_abs (ks_normalize (ks_of points)) = ks_abs (ks_of points).
Proof.
  intros Ha Hb. split; [by apply add_ok|]. split; [by apply remove_ok|].
  do 4 (split; [apply merge_computes; [intros A B k; repeat case_bool_decide; set_solver|done|done]|]).
  split; [by apply contains_ok|]. split; [by apply includes_decides|]. split; [by apply contains_any_decides|].
  split; [by apply equals_decides|]. intros points. apply normalize_ok.
Qed.

Lemma key_set_refines_witness :
  let one := VInt I_INT 1 in let two := VInt I_INT 2 in
  let a := ks_add one (ks_add two ks_empty) in
  let b := ks_add two ks_empty in
  (ks_contains one (ks_subtract a b).2).2 = true /\ (ks_contains two (ks_subtract a b).2).2 = false /\
  computes ks_subtract difference a b.
Proof.
  intros one two a b. split; [vm_compute; reflexivity|]. split; [vm_compute; reflexivity|].
  apply (key_set_refines a b one).
  - apply add_ok, add_ok. split; [apply NoDup_nil_2|constructor].
  - apply add_ok. split; [apply NoDup_nil_2|constructor].
Defined.

(** The constructors take the points as they are: with a point given twice,
    difference no longer removes it. *)
Example duplicates_survive_difference :
  let one := VInt I_INT 1 in
  let r := (ks_subtract (ks_of [one; one]) (ks_of [one])).2 in
  (ks_contains one r).2 = true.
Proof. vm_compute. reflexivity. Qed.

(** ** Points as ranges *)

Definition int_point (p : Value) : Prop := is_int p = true /\ value_wf p.

Lemma int_point_inv p : int_point p -> exists u x, p = VInt u x /\ i64 x /\ as_int p = x /\ in_column BIGINT p.
Proof.
  intros [Hi Hw]. destruct p as [|u x|b|u s]; [done| |done|by destruct u]. exists u, x. split_and!; try done.
  split; [done|right; by destruct u].
Qed.

Lemma int_point_range p : int_point p -> i64 (as_int p).
Proof. intros (u & x & -> & Hx & <- & _)%int_point_inv. done. Qed.

Lemma int_key_less p q : int_point p -> int_point q -> key_less p q = (as_int p <? as_int q)%Z.
Proof.
  intros (u & x & -> & Hx & <- & Hp)%int_point_inv (w & y & -> & Hy & <- & Hq)%int_point_inv. unfold key_less.
  rewrite !(to_key_non_null _ BIGINT) by done. by rewrite (key_order BIGINT).
Qed.

Lemma int_key_equal p q : int_point p -> int_point q -> bytes_eqb (to_key p) (to_key q) = (as_int p =? as_int q)%Z.
Proof.
  intros Hp Hq. pose proof (int_key_less p q Hp Hq) as H1. pose proof (int_key_less q p Hq Hp) as H2. unfold key_less in *.
  apply eq_true_iff_eq. rewrite bytes_eqb_eq, Z.eqb_eq. split; intros E.
  - rewrite E, bytes_ltb_irrefl in H1, H2. boolify. lia.
  - apply bytes_ltb_antisym; [rewrite H1|rewrite H2]; apply Z.ltb_ge; lia.
Qed.

Lemma mem_ints v l : int_point v -> Forall int_point l -> mem (to_key v) l = existsb (fun p => as_int p =? as_int v)%Z l.
Proof.
  intros Hv. induction 1 as [|p l Hp _ IH]; [done|]. rewrite mem_cons, IH. cbn [existsb]. by rewrite int_key_equal.
Qed.

Lemma closed_contains p q v : int_point p -> int_point q -> int_point v ->
  contains (kr_closed p q) v = (as_int p <=? as_int v)%Z && (as_int v <=? as_int q)%Z.
Proof.
  intros (u & x & -> & Hx & <- & Hp)%int_point_inv (w & y & -> & Hy & <- & Hq)%int_point_inv
    (z & n & -> & Hn & <- & Hv)%int_point_inv.
  rewrite (contains_between BIGINT).
  - unfold SqlKeyRange.between, above, below, kr_closed, low_of, high_of. assert (Hnn : forall u x, is_null (VInt u x) = false) by by intros [].
    rewrite !Hnn. cbn. by rewrite !Z.leb_antisym.
  - done.
  - unfold kr_closed. assert (Hnn : forall u x, is_null (VInt u x) = false) by by intros []. rewrite !Hnn.
    split; [done|]. split; [done|]. split; [right; by destruct Hp as [_ [|]]|]. by intros [|].
Qed.

Lemma ranges_from_contains start current rest v :
  Forall int_point (start :: current :: rest) -> int_point v -> strict (current :: rest) ->
  (as_int start <= as_int current)%Z ->
  existsb (fun r => contains r v) (ranges_from start current rest) =
    (as_int start <=? as_int v)%Z && (as_int v <=? as_int current)%Z || existsb (fun p => as_int p =? as_int v)%Z rest.
Proof.
  revert start current. induction rest as [|p rest IH]; intros start current Hi Hv Hs Hle.
  all: apply Forall_cons in Hi as [H1 Hi]; apply Forall_cons in Hi as [H2 Hi]; cbn [ranges_from existsb].
  { by rewrite closed_contains. }
  apply strict_cons in Hs as [Hs Hc]. apply Forall_cons in Hc as [Hcp _]. pose proof Hi as [Hp Hr]%Forall_cons.
  rewrite int_key_less in Hcp by done. boolify.
  assert (Hd : (0 < as_int p - as_int current < 18446744073709551616)%Z).
  { pose proof (int_point_range p Hp) as Hx. pose proof (int_point_range current H2) as Hy.
    unfold i64, int64_min, int64_max in Hx, Hy. lia. }
  rewrite wrap64_one by done. destruct (_ =? 1)%Z eqn:E1; cbn [negb]; boolify.
  - rewrite IH by (first [done|lia|by constructor; [|constructor]]). apply eq_true_iff_eq. clear -E1 Hle.
    rewrite !orb_true_iff, !andb_true_iff, !Z.leb_le, Z.eqb_eq. intuition lia.
  - cbn [existsb]. rewrite closed_contains by done. rewrite IH by (first [done|lia|by constructor; [|constructor]]).
    f_equal. rewrite orb_comm, (orb_comm (_ =? _)%Z). f_equal. apply eq_true_iff_eq. rewrite andb_true_iff, !Z.leb_le, Z.eqb_eq. lia.
Qed.

Lemma consecutive_one start current rest : consecutive current rest = true ->
  ranges_from start current rest = [kr_closed start (default current (last rest))].
Proof.
  revert current. induction rest as [|p rest IH]; intros current; [done|]. cbn [consecutive ranges_from].
  intros [E Hc]%andb_prop. rewrite E. cbn [negb]. rewrite IH by done. rewrite last_cons. by destruct (last rest).
Qed.

Lemma ranges_from_length start current rest : (1 <= length (ranges_from start current rest))%nat.
Proof. revert start current. induction rest as [|p rest IH]; intros; cbn; [lia|]. destruct (negb _); [cbn; lia|apply IH]. Qed.

Lemma not_consecutive start current rest : consecutive current rest = false ->
  (2 <= length (ranges_from start current rest))%nat.
Proof.
  revert start current. induction rest as [|p rest IH]; intros start current; [done|]. cbn [consecutive ranges_from].
  destruct (_ =? 1)%Z; cbn [negb andb]; [apply IH|]. intros _. cbn. pose proof (ranges_from_length p p rest). lia.
Qed.

(** Points and ranges agree. The ranges a set of integers is split into
    contain exactly its points, up to the ends of the 64-bit numbers, and one
    range is offered precisely when the splitting yields one. *)
Theorem to_ranges_exact s v :
  ks_inv s -> Forall int_point (ks_points s) -> int_point v ->
  existsb (fun r => contains r v) (ks_to_ranges s).2 = bool_decide (to_key v ∈ ks_abs s) /\
  (forall r, ks_points s <> [] -> (ks_to_range s).2 = Some r <-> (ks_to_ranges s).2 = [r]).
Proof.
  intros Hs Hi Hv. unfold ks_to_ranges, ks_to_range, ks_all_int. destruct (ensure_ok s Hs) as [Hst Hsame].
  rewrite <- (same_mem _ _ _ Hsame). cbn [fst snd].
  destruct (ks_points s) as [|p0 l0] eqn:E0.
  { unfold ks_ensure_sorted. rewrite E0, andb_false_r, E0. done. }
  assert (Hints : Forall int_point (ks_points (ks_ensure_sorted s))).
  { unfold ks_ensure_sorted. destruct (_ && _); [|by rewrite E0]. unfold ks_sort. cbn [ks_points].
    destruct (ensure_sorted_spec (ks_points s)) as [_ Hp]. by rewrite Hp, E0. }
  assert (Hall : forallb is_int (ks_points (ks_ensure_sorted s)) = true).
  { apply forallb_forall. intros x Hx. apply list_elem_of_In in Hx. by eapply Forall_forall in Hints as [? _]. }
  rewrite Hall. cbn [negb fst snd]. destruct (ks_points (ks_ensure_sorted s)) as [|p rest] eqn:E.
  { destruct Hsame as [_ Hab]. apply (f_equal (fun A => bool_decide (to_key p0 ∈ A))) in Hab.
    rewrite !abs_mem, E, E0, mem_cons, bytes_eqb_refl in Hab. done. }
  split.
  - rewrite (mem_ints v (p :: rest)) by done. pose proof Hints as [Hp _]%Forall_cons.
    rewrite ranges_from_contains by (first [done|by constructor|lia]). cbn [existsb]. f_equal.
    apply eq_true_iff_eq. rewrite andb_true_iff, !Z.leb_le, Z.eqb_eq. lia.
  - intros r _. destruct (consecutive p rest) eqn:Ec.
    + rewrite (consecutive_one p p rest Ec). naive_solver.
    + pose proof (not_consecutive p p rest Ec) as Hl. split; [done|]. intros Hr. rewrite Hr in Hl. cbn in Hl. lia.
Qed.

Lemma to_ranges_exact_witness :
  let s := ks_add_all (map (VInt I_INT) [7; 2; 1; 3]%Z) ks_empty in
  (ks_to_ranges s).2 = [kr_closed (VInt I_INT 1) (VInt I_INT 3); kr_closed (VInt I_INT 7) (VInt I_INT 7)] /\
  existsb (fun r => contains r (VInt I_INT 2)) (ks_to_ranges s).2 = bool_decide (to_key (VInt I_INT 2) ∈ ks_abs s).
Proof.
  intros s. split; [vm_compute; reflexivity|]. apply (to_ranges_exact s (VInt I_INT 2)).
  - apply add_all_ok. split; [apply NoDup_nil_2|constructor].
  - repeat (constructor; [split; [reflexivity|vm_compute; intuition discriminate]|]). constructor.
  - split; [reflexivity|]. vm_compute. intuition discriminate.
Defined.
