(* ===== verification/ScanSpec.v ===== *)
(** * The scan operator returns the rows of its ranges

    [ScanExecutor] of [executor/executor.cpp], over any storage engine that
    satisfies the laws of [KvApi]: the rows of the ranges in the direction of the
    scan, range after range, without the excluded keys; the point lookup of a
    single point range returns what the range scan would. *)

From stdpp Require Import sorting.
From S2P Require Import Prelude Bytes OMap KvTypes Transactions KvApi SqlTypes KeyCodec SqlTruth SqlKeyRange Rewriter Schema RowCodec KeyPrefix Table TableSpec TableScan Optimizer Planner Executor Execute ExecutorSpec RowOrder PlanRanges.
Local Open Scope Z_scope.

(** ** Ranges one after the other are the union of the ranges *)

Lemma filter_empty (A : Type) (p : A -> bool) (l : list A) : (forall a, a ∈ l -> p a = false) ->
  filter (fun a => p a = true) l = [].
Proof.
  induction l as [|a l IH]; intros H; [done|]. rewrite filter_cons, (H a) by left. simpl.
  apply IH. intros b Hb. apply H. by right.
Qed.

Lemma filter_union (A : Type) (R : relation A) (p q : A -> bool) (l : list A) :
  StronglySorted R l -> (forall a b, a ∈ l -> b ∈ l -> R a b -> q a = true -> p b = false) ->
  (forall a, a ∈ l -> q a = true -> p a = false) ->
  filter (fun a => p a || q a = true) l = filter (fun a => p a = true) l ++ filter (fun a => q a = true) l.
Proof.
  induction 1 as [|a l Hs IH Hf]; intros Hord Hdis; [done|]. rewrite !filter_cons.
  rewrite IH; [|by intros x y Hx Hy; apply Hord; right|by intros x Hx; apply Hdis; right].
  pose proof (Hdis a ltac:(left)) as Hpa. destruct (q a) eqn:Eq.
  - rewrite Hpa by done. simpl. rewrite (filter_empty _ p l); [done|]. intros b Hb.
    apply (Hord a b); [by left|by right| |done]. by eapply Forall_forall in Hf.
  - rewrite orb_false_r. by destruct (p a).
Qed.

Section ranges.
Context (t : Table) (Ht : table_ok t) (m : omap ByteValue) (Hs : sorted m) (Hi : table_inv t m).
Abbreviation ty := (primary_key_type_ t).
Abbreviation rows := (table_rows t m).

Definition in_range (r : KeyRange) (row : Row) : bool := contains r (primary_key_of t row).
Definition range_rows (r : KeyRange) : list Row := filter (fun row => in_range r row = true) rows.

Lemma rows_sorted : StronglySorted (fun a b => value_ltb (primary_key_of t a) (primary_key_of t b) = true) rows.
Proof.
  apply (decode_rows_sorted t Ht); [|by apply (entries_decode t Ht)].
  pose proof (sorted_filter (fun p => bool_decide (key_prefix_ t `prefix_of` p.1)) m Hs) as Hf.
  erewrite filter_ext_in in Hf; [exact Hf|]. intros p _. by rewrite bool_decide_eq_true.
Qed.

Lemma rows_nodup : NoDup rows.
Proof.
  pose proof rows_sorted as H. induction H as [|a l Hl IH Hf]; [constructor|]. constructor; [|done].
  intros Hin. eapply Forall_forall in Hf; [|exact Hin]. simpl in Hf.
  assert (value_ltb (primary_key_of t a) (primary_key_of t a) = false) as E; [|by rewrite E in Hf].
  destruct (primary_key_of t a) as [|? x|[]|? s]; simpl; try done; [by apply Z.ltb_irrefl|apply bytes_ltb_irrefl].
Qed.

Lemma rows_ok row : row ∈ rows -> row_ok t row.
Proof. intros H. by apply (decode_rows_elem t Ht m row Hs Hi) in H as []. Qed.

Lemma row_column row : row ∈ rows -> in_column ty (primary_key_of t row).
Proof. intros H. apply (row_pk_column t Ht). by apply rows_ok. Qed.

Lemma in_range_between r row : row ∈ rows -> range_ok ty r -> in_range r row = between r (primary_key_of t row).
Proof. intros Hr Hok. apply (contains_between ty); [by apply row_column|done]. Qed.

(** Membership by the keys of the bounds. *)
Lemma in_range_keys r row : row_ok t row -> range_ok ty r -> in_range r row = true ->
  (forall lk, low_key r = Some lk -> bytes_ltb (to_column_key (primary_key_of t row) ty) lk = false) /\
  (forall hk, high_key r = Some hk -> bytes_ltb (to_column_key (primary_key_of t row) ty) hk = true).
Proof.
  intros Hr Hok Hc. pose proof (row_pk_column t Ht row Hr) as Hcol. unfold in_range in Hc.
  rewrite (contains_between ty) in Hc by done.
  assert (Hne : kr_is_empty r = false).
  { destruct (kr_is_empty r) eqn:E; [|done]. by rewrite (empty_between ty (primary_key_of t row) Hcol r) in Hc. }
  pose proof (nonempty_typed ty r Hok Hne) as Hty. unfold between in Hc. apply andb_prop in Hc as [Ha Hb].
  rewrite (typed_low ty _ Hcol r Hty) in Ha. rewrite (typed_high ty _ Hcol r Hty) in Hb.
  split; intros k Hk; rewrite Hk in *; [by apply negb_true_iff in Ha|done].
Qed.

Lemma separated_trans a b c : kr_is_empty b = false -> separated a b -> separated b c -> separated a c.
Proof.
  intros Hb (h1 & l1 & Eh1 & El1 & H1) (h2 & l2 & Eh2 & El2 & H2). exists h1, l2. split_and!; [done|done|].
  pose proof (nonempty_bounds b l1 h2 Hb El1 Eh2) as Hmid.
  eapply bytes_ltb_trans; [exact H1|]. by eapply bytes_ltb_trans.
Qed.

Lemma ascending_head a rs : Forall (fun r => kr_is_empty r = false) rs -> ascending (a :: rs) ->
  Forall (separated a) rs.
Proof.
  revert a. induction rs as [|b rs IH]; intros a Hne Ha; [constructor|]. apply Forall_cons in Hne as [Hb Hne].
  destruct Ha as [Hab Hasc]. constructor; [done|]. eapply Forall_impl; [by apply (IH b)|].
  intros c Hbc. by eapply separated_trans.
Qed.

Lemma separated_rows a b x y : range_ok ty a -> range_ok ty b -> separated a b -> row_ok t x -> row_ok t y ->
  in_range b x = true -> in_range a y = true -> value_ltb (primary_key_of t y) (primary_key_of t x) = true.
Proof.
  intros Ha Hb (hk & lk & Eh & El & Hlt) Hx Hy Hbx Hay.
  destruct (in_range_keys a y Hy Ha Hay) as [_ Hh]. destruct (in_range_keys b x Hx Hb Hbx) as [Hl _].
  rewrite <- (key_order ty) by (by apply row_pk_column).
  eapply bytes_ltb_le_trans; [|by apply Hl]. eapply bytes_ltb_trans; [by apply Hh|done].
Qed.

Lemma pk_asym x y : x ∈ rows -> y ∈ rows -> value_ltb (primary_key_of t x) (primary_key_of t y) = true ->
  value_ltb (primary_key_of t y) (primary_key_of t x) = false.
Proof. intros Hx Hy. rewrite <- !(key_order ty) by (by apply row_column). apply bytes_ltb_asym. Qed.

Lemma ranges_union rs : Forall (range_ok ty) rs ->
  ((length rs <= 1)%nat \/ Forall (fun r => kr_is_empty r = false) rs) -> ascending rs ->
  flat_map range_rows rs = filter (fun row => existsb (fun r => in_range r row) rs = true) rows.
Proof.
  intros Hok Hne Ha. induction rs as [|r rs IH].
  { symmetry. by apply filter_empty. }
  destruct rs as [|r' rs'].
  { simpl. rewrite app_nil_r. unfold range_rows. apply filter_ext_in. intros row _. by rewrite orb_false_r. }
  destruct Hne as [Hne|Hne]; [simpl in Hne; lia|]. set (rs := r' :: rs') in *.
  apply Forall_cons in Hok as [Hr Hok], Hne as [Hn Hne].
  pose proof (ascending_head r rs Hne Ha) as Hsep. cbn [flat_map existsb].
  rewrite IH; [|done|by right|apply Ha]. unfold range_rows. symmetry.
  assert (Hex : forall x y, x ∈ rows -> y ∈ rows -> existsb (fun r => in_range r x) rs = true -> in_range r y = true ->
    value_ltb (primary_key_of t y) (primary_key_of t x) = true).
  { intros x y Hx Hy Hex Hy'. apply existsb_exists in Hex as (b & Hb & Hbx). apply list_elem_of_In in Hb.
    eapply (separated_rows r b x y); try done; solve [by eapply Forall_forall|by apply rows_ok]. }
  apply (filter_union _ _ _ _ _ rows_sorted).
  - intros a b Hina Hinb Hab Hqa. destruct (in_range r b) eqn:E; [|done].
    pose proof (Hex a b Hina Hinb Hqa E). by rewrite (pk_asym a b) in *.
  - intros a Hina Hqa. destruct (in_range r a) eqn:E; [|done].
    pose proof (Hex a a Hina Hina Hqa E) as Hlt. by rewrite (pk_asym a a) in Hlt.
Qed.
End ranges.

Lemma in_direction_elem asc (l : list Row) row : row ∈ in_direction asc l <-> row ∈ l.
Proof. destruct asc; [done|]. apply elem_of_reverse. Qed.

(** ** The loop over the ranges *)

Section Scan.
Context {E I : Type} `{KVEngineLaws E I}.
Context (t : Table) (Ht : table_ok t) (e : E) (He : kv_ready e) (Hi : table_inv t (kv_view e)).
Context (Htag : tag_of (primary_key_type_ t) <> kTagNull).
Context (ranges : list KeyRange) (exclude : list Value) (asc : bool) (key : Value).
Context (Hok : Forall (range_ok (primary_key_type_ t)) ranges).
Context (Hsc : Forall (fun r => kv_scannable e (physical_range t r asc)) ranges).
Abbreviation view := (kv_view e).

(** The ranges in the order the scan visits them, and the rows of one. *)
Definition visit : list KeyRange := if asc then ranges else reverse ranges.
Definition visited_rows (r : KeyRange) : list Row := in_direction asc (range_rows t view r).
Definition wanted_row (row : Row) : bool := negb (key_set_contains exclude (primary_key_of t row)).

(** An opened scan at range [index]. *)
Definition scanning (index : nat) (cur : option (TableCursor I)) : ScanExecutor :=
  mkScan t ranges exclude asc true false CE_OK index cur false key None.

Lemma visit_length : length visit = length ranges.
Proof. unfold visit. by destruct asc; rewrite ?length_reverse. Qed.

Lemma visit_ok r : r ∈ visit ->
  range_ok (primary_key_type_ t) r /\ kv_scannable e (physical_range t r asc).
Proof.
  intros Hr. assert (Hin : r ∈ ranges) by (unfold visit in Hr; destruct asc; [done|by apply elem_of_reverse]).
  split; [by eapply Forall_forall in Hok|by eapply Forall_forall in Hsc].
Qed.

Lemma visit_lookup index : (index < length ranges)%nat ->
  ranges !! (if asc then index else length ranges - 1 - index)%nat = visit !! index.
Proof.
  intros Hl. unfold visit. destruct asc; [done|]. rewrite reverse_lookup by done. f_equal. lia.
Qed.

Lemma empty_range_rows r : kr_is_empty r = true -> visited_rows r = [].
Proof.
  intros Hr. unfold visited_rows, range_rows. rewrite (filter_empty _ (in_range t r)); [by destruct asc|].
  intros row _. unfold in_range, contains. by rewrite Hr.
Qed.

(** A cursor the scan has opened: what it still shows. *)
Definition shows (c : TableCursor I) (rows : list Row) : Prop :=
  exists it range ents, c = live t it range /\ kv_shows it ents /\ all_decode t ents /\ rows = decode_rows t ents.

(** Another engine with the same rows in the ranges from [index] on. *)
Record stable (index : nat) (e' : E) : Prop := {
  st_ready : kv_ready e';
  st_inv : table_inv t (kv_view e');
  st_scannable : forall r, r ∈ drop index visit -> kv_scannable e' (physical_range t r asc);
  st_rows : forall r, r ∈ drop index visit -> range_rows t (kv_view e') r = range_rows t view r }.

Lemma stable_refl index : stable index e.
Proof.
  split; try done. intros r Hr. apply visit_ok. apply list_elem_of_lookup in Hr as [i Hi0]. rewrite lookup_drop in Hi0.
  by apply list_elem_of_lookup_2 in Hi0.
Qed.

Lemma stable_later index index' e' : (index <= index')%nat -> stable index e' -> stable index' e'.
Proof.
  intros Hle [H1 H2 H3 H4].
  assert (Hsub : forall r, r ∈ drop index' visit -> r ∈ drop index visit).
  { intros r (i & Hl)%list_elem_of_lookup. rewrite lookup_drop in Hl. apply list_elem_of_lookup. exists (index' - index + i)%nat.
    rewrite lookup_drop. by replace (index + (index' - index + i))%nat with (index' + i)%nat by lia. }
  split; auto.
Qed.

Lemma scan_shows e' index i r : stable index e' -> (index <= i)%nat -> visit !! i = Some r ->
  shows (scan t r asc e') (visited_rows r).
Proof.
  intros [He' Hi' Hsc' Hrows'] Hle Hl.
  assert (Hin : r ∈ drop index visit).
  { apply list_elem_of_lookup. exists (i - index)%nat. rewrite lookup_drop. by replace (index + (i - index))%nat with i by lia. }
  destruct (visit_ok r) as [Hrok _]; [by eapply list_elem_of_lookup_2|].
  destruct (scan_opens t r asc e' He' Hi' (Hsc' r Hin)) as (it & -> & Hsh).
  destruct (rows_in_decode t Ht r asc (kv_view e') (kv_view_sorted e' He') Hi' Htag Hrok) as [Hd Hrows].
  exists it, r, (rows_in (physical_range t r asc) (kv_view e')). split_and!; try done.
  unfold visited_rows. rewrite <- (Hrows' r Hin). symmetry. exact Hrows.
Qed.

Lemma shows_nil c : shows c [] -> exists c', cursor_next c = (c', Err CE_END).
Proof.
  intros (it & range & ents & -> & Hs & Hd & Hr).
  assert (ents = []) as ->.
  { apply length_zero_iff_nil. by rewrite <- (decode_rows_length t ents Hd), <- Hr. }
  pose proof (next_end t it range Hs) as Hn. destruct (cursor_next _) as [c' r]. simpl in Hn. subst. by eexists.
Qed.

Lemma shows_cons c row rows : shows c (row :: rows) -> exists c', cursor_next c = (c', Ok row) /\ shows c' rows.
Proof.
  intros (it & range & ents & -> & Hs & Hd & Hr). destruct ents as [|[k v] ents]; [done|].
  destruct (Hd (k, v) ltac:(left)) as (row' & _ & Hrow & _).
  rewrite (decode_rows_cons t (k, v) ents row') in Hr by done. injection Hr as -> ->.
  rewrite (next_row t it range k v ents row' Hs Hrow). eexists. split; [done|].
  destruct (kv_shows_row _ _ _ _ Hs) as (_ & _ & Hs'). exists (si_next it), range, ents.
  split_and!; try done. intros q Hq. apply Hd. by right.
Qed.

(** Opening the next non-empty range from [index] on. *)
Lemma open_range_spec e' n index i0 c0 : stable index e' -> (length ranges - index = n)%nat ->
  (open_range n index e' (scanning i0 c0) = (scanning (length ranges) None, false) /\
   flat_map visited_rows (drop index visit) = []) \/
  (exists i c r, open_range n index e' (scanning i0 c0) = (scanning i (Some c), true) /\
     (index <= i < length ranges)%nat /\ visit !! i = Some r /\ shows c (visited_rows r) /\
     flat_map visited_rows (drop index visit) = visited_rows r ++ flat_map visited_rows (drop (S i) visit)).
Proof.
  revert index. induction n as [|n IH]; intros index Hst Hn.
  { left. split; [done|]. by rewrite drop_ge by (rewrite visit_length; lia). }
  cbn [open_range sx_ascending sx_ranges scanning]. rewrite visit_lookup by lia.
  destruct (lookup_lt_is_Some_2 visit index) as [r Hr]; [rewrite visit_length; lia|].
  rewrite Hr, (drop_S _ _ _ Hr). cbn [flat_map]. destruct (kr_is_empty r) eqn:Ee.
  - rewrite (empty_range_rows r Ee). pose proof (stable_later index (S index) e' ltac:(lia) Hst) as Hst'.
    destruct (IH (S index) Hst' ltac:(lia)) as [[Ho Hf]|(i & c & r' & Ho & Hle & Hv & Hs & Hf)].
    + by left.
    + right. exists i, c, r'. split_and!; try done; lia.
  - right. exists index, (scan t r asc e'), r. split_and!; try done; [lia|]. by apply (scan_shows e' index index).
Qed.

Lemma excluded_spec index c row : is_excluded (scanning index c) (primary_key_of t row) = negb (wanted_row row).
Proof. unfold is_excluded, wanted_row. simpl. rewrite negb_involutive. by destruct exclude. Qed.

Lemma next_loop_step e' f index c :
  sx_next_loop (S f) e' (scanning index (Some c)) =
  let '(c', r) := cursor_next c in
  match r with
  | Ok row => if is_excluded (scanning index (Some c')) (primary_key_of t row)
              then sx_next_loop f e' (scanning index (Some c')) else (scanning index (Some c'), Ok row)
  | Err CE_END =>
      let '(s, found) := open_range (length ranges - S index) (S index) e' (scanning index (Some c')) in
      if found then sx_next_loop f e' s else (sx_fail CE_END s, Err CE_END)
  | Err code => (sx_fail code (scanning index (Some c')), Err code)
  end.
Proof. reflexivity. Qed.

(** Rows of the range at [index]. *)
Definition at_range (index : nat) (l : list Row) : Prop :=
  exists r, visit !! index = Some r /\ forall row, row ∈ l -> row ∈ range_rows t view r.

Lemma at_range_visited i r : visit !! i = Some r -> at_range i (visited_rows r).
Proof.
  intros Hv. exists r. split; [done|]. intros row. unfold visited_rows. by rewrite in_direction_elem.
Qed.

(** One [next] of a scan with the rows [rest] before it. *)
Lemma next_loop_spec e' turns : forall index c here rest,
  stable (S index) e' -> shows c here -> at_range index here -> rest = here ++ flat_map visited_rows (drop (S index) visit) ->
  (length rest + (length ranges - index) < turns)%nat ->
  match filter (fun row => wanted_row row = true) rest with
  | [] => exists s, sx_next_loop turns e' (scanning index (Some c)) = (s, Err CE_END)
  | row :: kept => exists index' c' here',
      sx_next_loop turns e' (scanning index (Some c)) = (scanning index' (Some c'), Ok row) /\
      shows c' here' /\ at_range index' (row :: here') /\ (index <= index')%nat /\
      let rest' := here' ++ flat_map visited_rows (drop (S index') visit) in
      (length rest' < length rest)%nat /\ filter (fun row => wanted_row row = true) rest' = kept
  end.
Proof.
  induction turns as [|turns IH]; intros index c here rest Hst Hs Hat Hrest Hm; [lia|].
  rewrite next_loop_step. destruct here as [|row here].
  - destruct (shows_nil c Hs) as (c' & ->).
    destruct (open_range_spec e' _ (S index) index (Some c') Hst eq_refl) as [[Ho Hf]|(i & c2 & r & Ho & Hle & Hv & Hs2 & Hf)];
      rewrite Ho.
    + rewrite Hrest, Hf. by eexists.
    + pose proof (stable_later (S index) (S i) e' ltac:(lia) Hst) as Hst'.
      specialize (IH i c2 (visited_rows r) rest Hst' Hs2 (at_range_visited i r Hv)). simpl in Hrest. rewrite Hf in Hrest.
      specialize (IH Hrest ltac:(lia)). destruct (filter _ rest) as [|row kept]; [done|].
      destruct IH as (i' & c3 & h' & ? & ? & ? & ? & ?). exists i', c3, h'. split_and!; try done. lia.
  - destruct (shows_cons c row here Hs) as (c' & -> & Hs'). rewrite excluded_spec. rewrite Hrest. cbn [app]. rewrite filter_cons.
    destruct (wanted_row row) eqn:Ew; simpl.
    + exists index, c', here. split_and!; try done. simpl. lia.
    + rewrite Hrest in Hm. simpl in Hm.
      assert (Hat' : at_range index here) by (destruct Hat as (r & Hv & Hin); exists r; split; [done|]; intros y Hy; apply Hin; by right).
      specialize (IH index c' here _ Hst Hs' Hat' eq_refl ltac:(lia)).
      destruct (filter _ (here ++ _)) as [|row' kept]; [done|].
      destruct IH as (i' & c2 & h' & ? & ? & ? & ? & ? & ?). exists i', c2, h'. split_and!; try done. simpl. lia.
Qed.

Lemma scanning_yields fuel kept : forall index c here,
  let rest := here ++ flat_map visited_rows (drop (S index) visit) in
  shows c here -> at_range index here -> (length rest + (length ranges - index) < fuel)%nat ->
  filter (fun row => wanted_row row = true) rest = kept ->
  yields fuel e (scanning index (Some c)) kept.
Proof.
  induction kept as [|row kept IH]; intros index c here rest Hs Hat Hf Hk;
    pose proof (next_loop_spec e fuel index c here rest (stable_refl _) Hs Hat eq_refl Hf) as Hn; rewrite Hk in Hn.
  - destruct Hn as (s & Hn). by eapply yields_end.
  - destruct Hn as (i' & c' & h' & Hn & Hs' & (r & Hv & Hin) & Hle & Hlen & Hk').
    eapply yields_row; [exact Hn|]. apply (IH i' c' h'); try done; [|lia].
    exists r. split; [done|]. intros y Hy. apply Hin. by right.
Qed.

(** The rows the scan returns, without the point shortcut. *)
Definition scan_result : list Row := filter (fun row => wanted_row row = true) (flat_map visited_rows visit).

Lemma range_scan_yields fuel : (length (flat_map visited_rows visit) + length ranges < fuel)%nat ->
  yields fuel e (let '(s, found) := sx_open_range 0 e (scanning 0 None) in
                 if found then s else with_point (sx_point_lookup s) (sx_point_key s) (sx_point_row s) true s) scan_result.
Proof.
  intros Hf.
  change (sx_open_range 0 e (scanning 0 None)) with (open_range (length ranges - 0) 0 e (scanning 0 None)).
  destruct (open_range_spec e _ 0 0 None (stable_refl 0) eq_refl) as [[Ho Hfl]|(i & c & r & Ho & Hle & Hv & Hs & Hfl)];
    rewrite Ho; rewrite drop_0 in Hfl.
  - unfold scan_result. rewrite Hfl. by eapply yields_end.
  - apply (scanning_yields fuel scan_result i c (visited_rows r)); [done|by apply at_range_visited| |]; rewrite <- Hfl; [lia|done].
Qed.

(** *** The point lookup *)

Lemma filter_single (l : list Row) (p : Row -> bool) a : NoDup l -> a ∈ l -> p a = true ->
  (forall b, b ∈ l -> p b = true -> b = a) -> filter (fun x => p x = true) l = [a].
Proof.
  intros Hn. induction Hn as [|x l Hx Hn IH]; [by intros ?%elem_of_nil|]. intros Ha Hpa Hu.
  rewrite filter_cons. apply elem_of_cons in Ha as [<-|Ha].
  - rewrite Hpa. simpl. rewrite (filter_empty _ p l); [done|]. intros b Hb. destruct (p b) eqn:Ep; [|done].
    rewrite (Hu b) in Hb; [done|by right|done].
  - destruct (p x) eqn:Ep; simpl.
    + rewrite (Hu x) in Hx by (done || by left). done.
    + apply IH; [done|done|]. intros b Hb. apply Hu. by right.
Qed.

Lemma point_rows r : range_ok (primary_key_type_ t) r -> is_point r = true -> is_null (point_value r) = false ->
  match find t (point_value r) e with
  | Ok row => range_rows t view r = [row] /\ to_key (primary_key_of t row) = to_key (point_value r)
  | Err RE_NOT_FOUND => range_rows t view r = []
  | Err _ => False
  end.
Proof.
  intros Hr Hp Hn. pose proof (kv_view_sorted e He) as Hs.
  assert (Hin : forall row, row ∈ table_rows t view -> in_range t r row =
    bytes_eqb (to_column_key (primary_key_of t row) (primary_key_type_ t))
              (to_column_key (point_value r) (primary_key_type_ t))).
  { intros row Hrow. rewrite (in_range_between t Ht view) by done.
    by apply point_between_key; [..|by apply (row_column t Ht view)]. }
  unfold find. rewrite Hn, kv_get_view by done. unfold result_of.
  destruct (mfind (encode_key t (point_value r)) view) as [data|] eqn:Ef.
  - destruct (abs_hit t Ht view (point_value r) data Hi Ef) as (row & Hrow & Ek & Hd & Ha).
    unfold decode_row. rewrite Hd.
    assert (Es : encode_key t (primary_key_of t (stored t row)) = encode_key t (point_value r)).
    { rewrite Ek, stored_pk by (done || apply Hrow). rewrite !encode_key_prefix by done. by rewrite retype_key. }
    assert (Hel : stored t row ∈ table_rows t view).
    { apply (decode_rows_elem t Ht view); try done. split; [by apply stored_ok|]. unfold abs in *. by rewrite Es. }
    assert (Kc : to_column_key (primary_key_of t (stored t row)) (primary_key_type_ t) =
                 to_column_key (point_value r) (primary_key_type_ t)).
    { rewrite !encode_key_prefix in Es by done. by apply app_inv_head in Es. }
    split.
    + apply filter_single; [by apply (rows_nodup t Ht)|done|by rewrite Hin, Kc, bytes_eqb_refl|].
      intros b Hb Hc. rewrite Hin in Hc by done. apply bytes_eqb_eq in Hc.
      apply (same_key_same_row t Ht view); try done. rewrite !encode_key_prefix by done. by rewrite Hc, Kc.
    + rewrite !(to_key_non_null _ (primary_key_type_ t)); [done| |].
      * intros E0. by rewrite E0 in Hn.
      * intros E0. pose proof (stored_ok t Ht row Hrow) as [_ _ Hnn]. by rewrite E0 in Hnn.
  - unfold range_rows. apply filter_empty. intros row Hrow. rewrite Hin by done.
    destruct (bytes_eqb _ _) eqn:E2; [|done]. apply bytes_eqb_eq in E2. exfalso.
    apply (decode_rows_elem t Ht view row Hs Hi) in Hrow as [_ Ha]. unfold abs in Ha.
    rewrite !encode_key_prefix, E2 in * by done. by rewrite Ef in Ha.
Qed.

End Scan.

(** ** The operator *)

Section Runs.
Context {E I : Type} `{KVEngineLaws E I}.
Context (t : Table) (Ht : table_ok t) (e : E) (He : kv_ready e) (Hi : table_inv t (kv_view e)).
Context (Htag : tag_of (primary_key_type_ t) <> kTagNull).

Definition fresh_scan (ranges : list KeyRange) (exclude : list Value) (asc : bool) : ScanExecutor (I:=I) :=
  mkScan t ranges exclude asc false false CE_OK 0 None false VNull None.

(** The scan as it stands after opening its first range. *)
Definition opened_scan (ranges : list KeyRange) (exclude : list Value) (asc : bool) : ScanExecutor (I:=I) :=
  scanning t ranges exclude asc VNull 0 None.
Definition range_start (ranges : list KeyRange) (exclude : list Value) (asc : bool) : ScanExecutor (I:=I) :=
  let '(s, found) := sx_open_range 0 e (opened_scan ranges exclude asc) in
  if found then s else with_point (sx_point_lookup s) (sx_point_key s) (sx_point_row s) true s.

(** A point that is looked up instead of scanned gives the row the scan would. *)
Lemma point_result r exclude asc :
  range_ok (primary_key_type_ t) r -> is_point r = true -> is_null (point_value r) = false ->
  is_excluded (opened_scan [r] exclude asc) (point_value r) = false ->
  match find t (point_value r) e with
  | Ok row => scan_result t e [r] exclude asc = [row]
  | Err RE_NOT_FOUND => scan_result t e [r] exclude asc = []
  | Err _ => False
  end.
Proof.
  intros Hr Hp Hn Hx. pose proof (point_rows t Ht e He Hi r Hr Hp Hn) as Hpt.
  assert (Hres : scan_result t e [r] exclude asc =
    filter (fun row => wanted_row t exclude row = true) (in_direction asc (range_rows t (kv_view e) r))).
  { unfold scan_result, visit. destruct asc; simpl; by rewrite app_nil_r. }
  destruct (find t (point_value r) e) as [row|c].
  - destruct Hpt as [Hrows Hk]. rewrite Hres, Hrows.
    replace (in_direction asc [row]) with [row] by (by destruct asc). rewrite filter_cons.
    assert (wanted_row t exclude row = true) as ->; [|done].
    unfold wanted_row. apply negb_true_iff. unfold is_excluded in Hx.
    change (sx_exclude_keys (opened_scan [r] exclude asc)) with exclude in Hx.
    destruct (key_set_contains exclude (primary_key_of t row)) eqn:Ec; [|done].
    apply key_set_contains_spec in Ec as (x & Hx1 & Hx2).
    assert (key_set_contains exclude (point_value r) = true) as Ek.
    { apply key_set_contains_spec. exists x. by rewrite Hx2, Hk. }
    rewrite Ek, andb_true_r in Hx. destruct exclude; [by apply elem_of_nil in Hx1|done].
  - destruct c; try done. rewrite Hres, Hpt. by destruct asc.
Qed.

Lemma scan_open_cases ranges exclude asc fuel : Forall (range_ok (primary_key_type_ t)) ranges ->
  exists s', x_open fuel e (fresh_scan ranges exclude asc) = (e, s', EX_OK) /\
    (s' = range_start ranges exclude asc \/
     (exists key row, s' = with_point true key (Some row) false (opened_scan ranges exclude asc) /\
        scan_result t e ranges exclude asc = [row]) \/
     (exists key, s' = with_point true key None true (opened_scan ranges exclude asc) /\
        scan_result t e ranges exclude asc = [])).
Proof.
  intros Hok. set (s0 := opened_scan ranges exclude asc).
  assert (Hscan : (let '(s, found) := sx_open_range 0 e s0 in
      (e, if found then s else with_point (sx_point_lookup s) (sx_point_key s) (sx_point_row s) true s, EX_OK)) =
      (e, range_start ranges exclude asc, EX_OK)).
  { unfold range_start. fold s0. by destruct (sx_open_range 0 e s0) as [s []]. }
  assert (Hopen : x_open fuel e (fresh_scan ranges exclude asc) =
    match match ranges with
          | [r] => if is_point r
                   then if negb (is_null (point_value r)) && negb (is_excluded s0 (point_value r))
                        then Some (point_value r) else None
                   else None
          | _ => None
          end with
    | Some key =>
        match find t key e with
        | Ok row => (e, with_point true key (Some row) false s0, EX_OK)
        | Err RE_NOT_FOUND => (e, with_point true key None true s0, EX_OK)
        | Err c => (e, sx_fail (to_cursor_error c) (with_point true key None false s0),
                    to_exec_error (to_cursor_error c))
        end
    | None => (e, range_start ranges exclude asc, EX_OK)
    end).
  { rewrite <- Hscan. reflexivity. }
  rewrite Hopen. clear Hopen.
  destruct ranges as [|r [|r2 rest]]; try (eexists; split; [done|by left]).
  destruct (is_point r) eqn:Hp; [|eexists; split; [done|by left]].
  destruct (negb (is_null (point_value r)) && _) eqn:Eg; [|eexists; split; [done|by left]].
  apply andb_prop in Eg as [Hn Hx]. apply negb_true_iff in Hn, Hx. apply Forall_cons in Hok as [Hr _].
  pose proof (point_result r exclude asc Hr Hp Hn Hx) as Hpt.
  destruct (find t (point_value r) e) as [row|c]; [|destruct c; try done]; eexists; (split; [done|]); right; eauto.
Qed.

Lemma scan_runs ranges exclude asc fuel :
  Forall (range_ok (primary_key_type_ t)) ranges ->
  Forall (fun r => kv_scannable e (physical_range t r asc)) ranges ->
  (length (flat_map (visited_rows t e asc) (visit ranges asc)) + length ranges < fuel)%nat ->
  runs fuel e (fresh_scan ranges exclude asc) (scan_result t e ranges exclude asc).
Proof.
  intros Hok Hsc Hf. destruct (scan_open_cases ranges exclude asc fuel Hok) as (s' & Ho & Hcase). exists s'. split; [done|].
  destruct Hcase as [-> |[(k & row & -> & ->)|(k & -> & ->)]].
  - by apply range_scan_yields.
  - eapply yields_row; [done|]. by eapply yields_end.
  - by eapply yields_end.
Qed.
End Runs.
