(* ===== verification/SelectSpec.v ===== *)
(** * A SELECT returns the rows SQL asks for

    Optimizer, planner and executor together, over any storage engine that
    satisfies the laws of [KvApi]: the rows of the table that the WHERE condition
    keeps, in the order of ORDER BY, cut by OFFSET and LIMIT and projected. *)

From stdpp Require Import sorting.
From S2P Require Import Prelude Bytes OMap KvTypes Transactions KvApi SqlTypes KeyCodec SqlTruth SqlKeyRange Rewriter Schema RowCodec KeyPrefix Table TableSpec TableScan Catalog CatalogSpec Optimizer Planner Executor Execute ExecutorSpec RowOrder PlanRanges ScanSpec.
Local Open Scope Z_scope.

(** ** The meaning of a SELECT *)

Definition where_rows (t : Table) (c : option Condition) (rows : list Row) : list Row :=
  filter (fun row => keeps_opt (row_lookup (schema_ t) row) c = true) rows.

(** Without ORDER BY the rows keep the order of the primary key. *)
Definition order_rows (keys : list SortKey) (order_by : list OrderByItem) (rows : list Row) : list Row :=
  match order_by with [] => rows | _ => sort_rows (row_less keys) rows end.

Definition select_rows (t : Table) (s : SelectQuery) (keys : list SortKey) (indexes : list Z) (rows : list Row)
    : list Row :=
  map (project_row indexes) (limit_rows (sel_limit s) (order_rows keys (sel_order_by s) (where_rows t (sel_where s) rows))).

(** The columns of the select list: none for [*]. *)
Definition select_indexes (s : TableSchema) (q : SelectQuery) : option (list Z) :=
  if select_all q then Some [] else column_indexes s (sel_columns q).

(** ** TopN under a limit *)

Lemma limit_top_n l rows : has_limit l = true -> (N.of_nat (length rows) <= size_max)%N ->
  limit_rows l (take (N.to_nat (top_n_count l)) rows) = limit_rows l rows.
Proof.
  intros Hl Hlen. unfold limit_rows, top_n_count, has_limit, limit_value, offset_value, has_offset in *.
  destruct (row_count_ l) as [n|]; [|done]. simpl.
  set (skip := match offset_ l with Some _ => default 0%N (offset_ l) | None => 0%N end).
  assert (Hs : (if match offset_ l with Some _ => true | None => false end then default 0%N (offset_ l) else 0%N) =
               default 0%N (offset_ l)) by (by destruct (offset_ l)).
  rewrite Hs. destruct (size_max - n <? _)%N eqn:E.
  - by rewrite (take_ge rows) by lia.
  - rewrite N2Nat.inj_add, Nat.add_comm, <- take_drop_commute, take_take. f_equal. lia.
Qed.

Lemma StronglySorted_impl_in (A : Type) (R S : relation A) (l : list A) : StronglySorted R l ->
  (forall a b, a ∈ l -> b ∈ l -> R a b -> S a b) -> StronglySorted S l.
Proof.
  induction 1 as [|a l Hs IH Hf]; intros Hi; [constructor|]. constructor.
  - apply IH. intros x y Hx Hy. apply Hi; by right.
  - apply Forall_forall. intros b Hb. apply Hi; [by left|by right|]. by eapply Forall_forall in Hf.
Qed.

Lemma limit_rows_length l rows : (length (limit_rows l rows) <= length rows)%nat.
Proof. unfold limit_rows. destruct (row_count_ l); rewrite ?length_take, ?length_drop; lia. Qed.

Section select.
Context {E I : Type} `{KVEngineLaws E I}.
Context (t : Table) (Ht : table_ok t) (e : E) (He : kv_ready e) (Hi : table_inv t (kv_view e)).
Abbreviation ty := (primary_key_type_ t).
Abbreviation rows := (table_rows t (kv_view e)).
Context (Htag : tag_of ty <> kTagNull).

(** A scan may be opened on any range. *)
Context (Hscan : forall r asc, kv_scannable e (physical_range t r asc)).

(** ** The scan chain *)

Lemma in_direction_perm asc (l : list Row) : in_direction asc l ≡ₚ l.
Proof. destruct asc; [done|]. apply reverse_Permutation. Qed.

Lemma filter_direction (p : Row -> bool) asc l :
  filter (fun x => p x = true) (in_direction asc l) = in_direction asc (filter (fun x => p x = true) l).
Proof. destruct asc; [done|]. simpl. by rewrite filter_reverse. Qed.

Lemma visited_direction asc rs :
  flat_map (visited_rows t e asc) (visit rs asc) = in_direction asc (flat_map (range_rows t (kv_view e)) rs).
Proof.
  unfold visited_rows, visit. destruct asc; [done|]. simpl.
  induction rs as [|r rs IH]; [done|]. rewrite reverse_cons, flat_map_app, IH. simpl.
  by rewrite reverse_app, app_nil_r.
Qed.

(** The ranges a scan chain is built with. *)
Definition chain_ranges (q : OptimizedQuery) : list KeyRange :=
  match oq_ranges q with [] => [kr_empty (oq_primary_key_type q)] | rs => rs end.

(** What the theorems need of an optimized statement. *)
Record optimized_ok (q : OptimizedQuery) (w : option Condition) : Prop := {
  oo_table : ident_eqb (oq_table q) (schema_name (schema_ t)) = true;
  oo_type : oq_primary_key_type q = ty;
  oo_ranges : Forall (range_ok ty) (oq_ranges q);
  oo_some : oq_ranges q <> [];
  oo_nonempty : (length (oq_ranges q) <= 1)%nat \/ Forall (fun r => kr_is_empty r = false) (oq_ranges q);
  oo_ascending : ascending (oq_ranges q);
  oo_exact : forall row, row ∈ rows ->
    existsb (fun r => in_range t r row) (oq_ranges q) && keeps_opt (row_lookup (schema_ t) row) (oq_remaining_filter q) =
    keeps_opt (row_lookup (schema_ t) row) w;
  oo_exclude : forall row, row ∈ rows -> key_set_contains (oq_exclude_keys q) (primary_key_of t row) = true ->
    keeps_opt (row_lookup (schema_ t) row) (oq_remaining_filter q) = false }.

Definition any_runs (fuel : nat) (r : result ExecErrorCode (AnyExecutor E)) (out : list Row) : Prop :=
  exists x, r = Ok x /\ runs fuel e x out /\ x_produces_rows x = true.

Lemma pack_runs fuel X (ops : Executor E X) (x : X) out : runs fuel e x out ->
  runs fuel e (Pack X x) out.
Proof.
  intros (x' & Ho & Hy). exists (Pack X x'). split; [simpl; by rewrite Ho|].
  clear Ho. induction Hy as [x1 x2 Hn|x1 x2 row l Hn _ IH].
  - apply (yields_end _ _ _ (Pack X x2)). simpl. by rewrite Hn.
  - apply (yields_row _ _ _ (Pack X x2)); [|done]. simpl. by rewrite Hn.
Qed.

Lemma unpack_runs fuel (x : AnyExecutor E) out : runs fuel e x out ->
  @runs _ _ (any_ops x) fuel e (any_state x) out.
Proof.
  destruct x as [X ops x]. intros (x' & Ho & Hy). simpl in Ho |- *.
  destruct (x_open fuel e x) as [[e1 s1] st] eqn:E1. injection Ho as -> <- ->. exists s1. split; [done|].
  clear E1. remember (Pack X s1) as any eqn:Eany. revert s1 Eany.
  induction Hy as [x1 x2 Hn|x1 x2 row l Hn _ IH]; intros s1 ->; simpl in Hn;
    destruct (x_next fuel e s1) as [s2 r] eqn:E2; injection Hn as <- ->.
  - by eapply yields_end.
  - eapply yields_row; [exact E2|by apply IH].
Qed.

Lemma scan_result_rows rs exclude asc : Forall (range_ok ty) rs ->
  ((length rs <= 1)%nat \/ Forall (fun r => kr_is_empty r = false) rs) -> ascending rs ->
  scan_result t e rs exclude asc = in_direction asc (filter (fun row => wanted_row t exclude row = true)
    (filter (fun row => existsb (fun r => in_range t r row) rs = true) rows)).
Proof.
  intros Hok Hne Ha. unfold scan_result. rewrite visited_direction, filter_direction. f_equal.
  by rewrite (ranges_union t Ht (kv_view e) (kv_view_sorted e He) Hi rs Hok Hne Ha).
Qed.

Lemma visited_bound rs asc : Forall (range_ok ty) rs ->
  ((length rs <= 1)%nat \/ Forall (fun r => kr_is_empty r = false) rs) -> ascending rs ->
  (length (flat_map (visited_rows t e asc) (visit rs asc)) <= length rows)%nat.
Proof.
  intros Hok Hne Ha. rewrite visited_direction, in_direction_perm.
  rewrite (ranges_union t Ht (kv_view e) (kv_view_sorted e He) Hi rs Hok Hne Ha). apply length_filter.
Qed.

(** What is shown of a chain: [R x out] says what operator [x] does, and holds of
    the scans and, with [x], of the filters over [x]. *)
Section chain.
Context (R : AnyExecutor E -> list Row -> Prop) (asc : bool) (width : nat).
Context (Rscan : forall rs exclude, Forall (range_ok ty) rs ->
  ((length rs <= 1)%nat \/ Forall (fun r => kr_is_empty r = false) rs) -> ascending rs -> (length rs <= width)%nat ->
  R (Pack (ScanExecutor (I:=I)) (fresh_scan t rs exclude asc)) (scan_result t e rs exclude asc)).
Context (Rfilter : forall X (ops : Executor E X) (x : X) c out, R (Pack X x) out -> (length out <= length rows)%nat ->
  R (Pack (FilterExecutor (X:=X)) (mkFilter c t x)) (filter (fun row => filter_keeps t c row = true) out)).

Definition chain_of (r : result ExecErrorCode (AnyExecutor E)) (out : list Row) : Prop :=
  exists x, r = Ok x /\ R x out /\ x_produces_rows x = true.

(** A scan node over the ranges of the statement, or over the whole key space
    when its only range is the whole key space. *)
Lemma scan_node_chain q w : optimized_ok q w -> (length (oq_ranges q) <= width)%nat ->
  chain_of (create (build_scan_chain (mkOptimized (oq_query q) (oq_db q) (oq_table q) (oq_primary_key q)
      (oq_primary_key_type q) (oq_ranges q) (oq_exclude_keys q) None) asc) t)
    (in_direction asc (filter (fun row => wanted_row t (oq_exclude_keys q) row = true)
      (filter (fun row => existsb (fun r => in_range t r row) (oq_ranges q) = true) rows))).
Proof.
  intros [Htab Hty Hok Hsome Hne Hasc _ _] Hf.
  assert (Hgo : forall p rs exclude, create p t = create_scan p t ->
    scan_target p = Some (make_table_ref q) ->
    scan_executor p t = Some (fresh_scan (I:=I) t rs exclude asc) ->
    Forall (range_ok ty) rs -> ((length rs <= 1)%nat \/ Forall (fun r => kr_is_empty r = false) rs) ->
    ascending rs -> (length rs <= length (oq_ranges q))%nat ->
    chain_of (create p t) (in_direction asc (filter (fun row => wanted_row t exclude row = true)
      (filter (fun row => existsb (fun r => in_range t r row) rs = true) rows)))).
  { intros p rs exclude Hc Hst Hse Hrok Hrne Hrasc Hrl. rewrite Hc. unfold create_scan. rewrite Hst. simpl.
    rewrite Htab, Hse. simpl. eexists. split; [done|]. split; [|done].
    rewrite <- scan_result_rows by done. apply Rscan; try done. lia. }
  unfold build_scan_chain. cbn [oq_ranges oq_exclude_keys oq_remaining_filter].
  destruct (oq_ranges q) as [|r [|r2 rs]] eqn:Er; [done| |].
  - destruct (bool_decide (oq_exclude_keys q = [])) eqn:Ex; cbn [negb andb].
    + apply bool_decide_eq_true_1 in Ex. rewrite Ex. destruct (kr_is_all r) eqn:Ea; [|by apply Hgo].
      rewrite (filter_ext_in (fun row => existsb (fun r => in_range t r row) [r] = true)
        (fun row => existsb (fun r => in_range t r row) [kr_all ty] = true)).
      * apply Hgo; try done; [|by constructor; [apply kr_all_range_ok|]|by left].
        simpl. unfold fresh_scan. by rewrite Hty.
      * intros row Hrow. apply Forall_cons in Hok as [Hr _]. simpl.
        rewrite !(in_range_between t Ht (kv_view e) (kv_view_sorted e He) Hi) by (done || apply kr_all_range_ok).
        unfold between, low_of, high_of, kr_is_all in *. destruct (low_ r), (high_ r); try done.
    + by apply Hgo.
  - by apply Hgo.
Qed.

Lemma chain_selects q w : optimized_ok q w -> (length (oq_ranges q) <= width)%nat ->
  chain_of (create (build_scan_chain q asc) t) (in_direction asc (where_rows t w rows)).
Proof.
  intros Hq Hf. destruct (scan_node_chain q w Hq Hf) as (x & Hx & Hr & Hp).
  destruct Hq as [_ _ _ _ _ _ Hex Hexc]. unfold build_scan_chain in *. cbn [oq_remaining_filter] in Hx.
  set (out := filter _ (filter _ rows)) in Hr.
  assert (Hw : filter (fun row => keeps_opt (row_lookup (schema_ t) row) (oq_remaining_filter q) = true) out =
               where_rows t w rows).
  { unfold out, where_rows. rewrite !list_filter_filter. apply filter_ext_in. intros row Hrow. rewrite <- (Hex row Hrow).
    unfold wanted_row. destruct (keeps_opt _ _) eqn:Ek; rewrite ?andb_false_r, ?andb_true_r; [|by split; [intros [[? _] _]|]].
    split; [by intros [_ ?]|]. intros Hin. split; [|done]. split; [done|]. apply negb_true_iff.
    destruct (key_set_contains _ _) eqn:Ec; [|done]. by rewrite (Hexc row Hrow Ec) in Ek. }
  destruct (oq_remaining_filter q) as [c|].
  - cbn [create]. unfold make_table_ref in *. cbn [oq_db oq_table oq_primary_key oq_primary_key_type oq_ranges oq_exclude_keys] in Hx.
    rewrite Hx. destruct x as [X ops x]. eexists. split; [done|]. split; [|done]. rewrite <- Hw, <- filter_direction.
    apply Rfilter; [done|]. rewrite in_direction_perm. unfold out. etrans; apply length_filter.
  - exists x. split; [done|]. split; [|done]. rewrite <- Hw.
    replace (filter _ out) with out; [done|]. symmetry. clear. induction out as [|row out IH]; [done|].
    rewrite filter_cons, decide_True by done. by f_equal.
Qed.
End chain.

Lemma chain_runs fuel q w asc : optimized_ok q w -> (length rows + length (oq_ranges q) < fuel)%nat ->
  any_runs fuel (create (build_scan_chain q asc) t) (in_direction asc (where_rows t w rows)).
Proof.
  intros Hq Hf. apply (chain_selects (fun x out => runs fuel e x out) asc (length (oq_ranges q))); try done.
  - intros rs exclude Hok Hne Ha Hl. apply pack_runs, scan_runs; try done; [by apply Forall_forall|].
    pose proof (visited_bound rs asc Hok Hne Ha). lia.
  - intros X ops x c out Hr%unpack_runs Hl. apply pack_runs, filter_runs; [done|lia].
Qed.

(** ** Order *)

Lemma index_from_ident a b cols : ident_eqb a b = true -> forall i, index_from i a cols = index_from i b cols.
Proof.
  intros Hab. apply bytes_eqb_eq in Hab. induction cols as [|c cols IH]; intros i; simpl; [done|].
  unfold ident_eqb. rewrite Hab. destruct (bytes_eqb _ _); [done|apply IH].
Qed.

Lemma sorted_reverse (R : relation Row) l : StronglySorted R l -> StronglySorted (fun a b => R b a) (reverse l).
Proof.
  induction 1 as [|a l Hs IH Hf]; [constructor|]. rewrite reverse_cons. apply StronglySorted_app_2; [|done|by repeat constructor].
  intros x y Hx Hy. rewrite elem_of_reverse in Hx. apply elem_of_cons in Hy as [->|Hy]; [|by apply elem_of_nil in Hy].
  rewrite Forall_forall in Hf. by apply Hf.
Qed.

Lemma where_sub w row : row ∈ where_rows t w rows -> row ∈ rows.
Proof. by intros [_ ?]%list_elem_of_filter. Qed.

Lemma where_nodup w : NoDup (where_rows t w rows).
Proof. apply NoDup_filter. by apply (rows_nodup t Ht (kv_view e) (kv_view_sorted e He)). Qed.

Lemma sorted_sub (R : relation Row) (p : Row -> bool) l : StronglySorted R l ->
  StronglySorted R (filter (fun x => p x = true) l).
Proof.
  induction 1 as [|a l Hs IH Hf]; [constructor|]. rewrite filter_cons. case_decide; [|done].
  constructor; [done|]. apply Forall_forall. intros b [_ Hb]%list_elem_of_filter. by eapply Forall_forall in Hf.
Qed.

Section comparator.
Context (order_by : list OrderByItem) (keys : list SortKey).
Context (Hkeys : row_comparator (schema_ t) order_by = Some keys).
Abbreviation P := (fun row => row ∈ rows).

Lemma compared a : a ∈ rows -> row_ok t a /\ keys_ok t keys.
Proof.
  intros Ha. assert (Hr : row_ok t a) by (by apply (rows_ok t Ht (kv_view e) (kv_view_sorted e He) Hi)).
  split; [done|]. by apply (comparator_ok t order_by keys a Hkeys).
Qed.

Lemma less_irrefl a : P a -> row_less keys a a = false.
Proof. intros Ha. destruct (compared a Ha). by apply (row_less_irrefl t). Qed.
Lemma less_trans a b c : P a -> P b -> P c ->
  row_less keys a b = true -> row_less keys b c = true -> row_less keys a c = true.
Proof.
  intros Ha Hb Hc. destruct (compared a Ha), (compared b Hb), (compared c Hc). by apply (row_less_trans t).
Qed.
Lemma less_total a b : P a -> P b -> row_less keys a b = false -> row_less keys b a = false -> a = b.
Proof. intros Ha Hb. by apply (row_less_total t Ht (kv_view e) order_by keys a b (kv_view_sorted e He) Hi). Qed.

(** A scan in the direction of a leading primary key is sorted. *)
Lemma scan_sorted item rest w : order_by = item :: rest ->
  column_index (ob_column item) (schema_ t) = primary_key_index_ (schema_ t) ->
  in_direction (bool_decide (ob_direction item = ASC)) (where_rows t w rows) =
  sort_rows (row_less keys) (where_rows t w rows).
Proof.
  intros Hob Hpk. set (asc := bool_decide _).
  assert (Hsub : Forall P (where_rows t w rows)) by (apply Forall_forall; apply where_sub).
  symmetry. apply (sorted_unique (row_less keys) P less_irrefl less_trans).
  - by rewrite sort_rows_perm.
  - by rewrite sort_rows_perm, in_direction_perm.
  - apply (sort_rows_sorted _ P less_trans less_total); [done|apply where_nodup].
  - assert (Hk : exists k ks, keys = k :: ks /\ sk_index k = primary_key_index_ (schema_ t) /\ sk_ascending k = asc).
    { pose proof Hkeys as Hk. rewrite Hob in Hk. unfold row_comparator in Hk. simpl in Hk. rewrite Hpk in Hk.
      destruct (_ <? 0) eqn:E0; [done|]. destruct (order_keys _ rest) as [ks|]; [|done].
      destruct (_ && _) in Hk; injection Hk as <-; eexists _, _; (split; [done|]); done. }
    destruct Hk as (k & ks & Ek & Hki & Hka).
    pose proof (sorted_sub _ (fun row => keeps_opt (row_lookup (schema_ t) row) w) _
      (rows_sorted t Ht (kv_view e) (kv_view_sorted e He) Hi)) as Hs. fold (where_rows t w rows) in Hs.
    assert (Hlt : forall a b, P a -> P b -> value_ltb (primary_key_of t a) (primary_key_of t b) = true ->
      (if asc then row_less keys a b else row_less keys b a) = true).
    { intros a b Ha Hb Hv. destruct (compared a Ha) as [Ra Hko], (compared b Hb) as [Rb _]. rewrite Ek in Hko |- *.
      rewrite <- (key_order ty) in Hv by (by apply (row_column t Ht (kv_view e) (kv_view_sorted e He) Hi)).
      pose proof (pk_column_key t Ht a Ra) as Ka. pose proof (pk_column_key t Ht b Rb) as Kb.
      rewrite encode_key_prefix in Ka, Kb by done. apply app_inv_head in Ka, Kb. rewrite Ka, Kb, <- Hki in Hv.
      rewrite !(row_less_cons t) by done. rewrite Hka. cbv zeta. unfold bytes_eqb.
      pose proof (bytes_ltb_neq _ _ Hv) as Hne.
      rewrite !bool_decide_false by (done || by intros Hx; apply Hne). by destruct asc. }
    clear Hki Hka. destruct asc; simpl.
    + eapply StronglySorted_impl_in; [exact Hs|]. intros a b Ha Hb. apply Hlt; by apply (where_sub w).
    + apply sorted_reverse. eapply StronglySorted_impl_in; [exact Hs|]. intros a b Ha Hb. apply Hlt; by apply (where_sub w).
Qed.
End comparator.

(** ** The optimized statement *)

(** The primary key is found by its name: no other column has it. *)
Definition pk_resolves (s : TableSchema) : Prop :=
  has_primary_key s = true /\ column_index (primary_key_name s) s = primary_key_index_ s.

Lemma pk_type_schema : schema_pk_type (schema_ t) = ty.
Proof.
  rewrite (to_made _ Ht). simpl. unfold schema_pk_type, table_pk_column.
  by destruct (has_primary_key (schema_ t)).
Qed.

Lemma row_pk_lookup row : pk_resolves (schema_ t) -> row ∈ rows ->
  of_kind ty (primary_key_of t row) /\
  forall col, ident_eqb col (primary_key_name (schema_ t)) = true ->
    row_lookup (schema_ t) row col = Some (primary_key_of t row).
Proof.
  intros [Hhas Hres] Hrow. assert (Hr : row_ok t row) by (by apply (rows_ok t Ht (kv_view e) (kv_view_sorted e He) Hi)).
  pose proof (pk_index_bound t row Hr) as Hb. pose proof (row_length t row Hr) as Hl.
  destruct (lookup_lt_is_Some_2 (columns_ (schema_ t)) (Z.to_nat (primary_key_index_ (schema_ t))) ltac:(lia)) as [c Hc].
  destruct (row_value t row _ c Hr Hc) as (v & Hv & Hk).
  assert (Hpv : primary_key_of t row = v).
  { unfold primary_key_of. rewrite (proj2 (Z.ltb_ge _ _)), (proj2 (Z.leb_gt _ _)) by lia. simpl. by rewrite Hv. }
  rewrite Hpv. split.
  - replace ty with (col_type c); [done|]. rewrite <- pk_type_schema. unfold schema_pk_type, primary_key_column, column_at.
    rewrite Hhas. rewrite (proj2 (Z.ltb_ge _ _)), (proj2 (Z.leb_gt _ _)) by lia. simpl. by rewrite Hc.
  - intros col Hcol. unfold row_lookup.
    assert (column_index col (schema_ t) = primary_key_index_ (schema_ t)) as ->.
    { rewrite <- Hres. by apply index_from_ident. }
    by rewrite (proj2 (Z.ltb_ge _ _)), (proj2 (Z.leb_gt _ _)) by lia.
Qed.

(** The rewriter keeps the truth, on every row of the table, of the trees it is
    handed. *)
Definition rewrites_faithfully (w : option Condition) : Prop :=
  forall row, row ∈ rows ->
  Forall (faithful (row_lookup (schema_ t) row)) (rewrite_calls (primary_key_name (schema_ t)) w).

Lemma optimize_ok {C} `{!CatalogView C} scan_is_cheaper (catalog : C) query table q :
  cv_table_schema catalog (cv_current_database catalog) table = Some (schema_ t) ->
  target_table query = Some table -> ident_eqb table (schema_name (schema_ t)) = true ->
  pk_resolves (schema_ t) ->
  well_typed_opt (primary_key_name (schema_ t)) ty (query_where query) -> rewrites_faithfully (query_where query) ->
  optimize_scan_query scan_is_cheaper catalog query = Ok q ->
  oq_query q = query /\ oq_primary_key q = primary_key_name (schema_ t) /\ optimized_ok q (query_where query).
Proof.
  intros Hsch Htgt Htab Hpk Hw Hf Hq. unfold optimize_scan_query, resolve_schema, resolve_target in Hq.
  destruct (cv_is_open catalog); [|done]. simpl in Hq. rewrite Htgt in Hq.
  destruct (ident_empty (cv_current_database catalog)); [done|]. destruct (ident_empty table); [done|].
  rewrite Hsch in Hq. pose proof Hpk as [Hhas _]. unfold schema_pk in Hq. rewrite Hhas, pk_type_schema in Hq.
  destruct (optimize_scan _ _ _ _) as [plan|] eqn:Ho; [|done]. injection Hq as <-. simpl.
  split; [done|]. split; [done|].
  destruct (optimize_split _ _ _ _ _ Hw Ho) as (sp & Hk & Hr & Hc).
  destruct (convert_ranges_ok _ _ _ _ _ Hk Hc) as [Hok Hne].
  split; simpl; try done.
  - intros E0. unfold convert_to_key_range, result_bind in Hc. rewrite <- (app_nil_r (plan_ranges plan)) in E0.
    destruct (pk_cond sp); [|by injection Hc as <-].
    destruct (range_of_condition _ _); [destruct (coalesce_adjacent_points _ _) as [cs|]; [|done]; destruct (_ && _ && _)|];
      try (destruct (as_ptr _); [|done]); injection Hc as <-; simpl in E0; try done.
    rewrite app_nil_r in E0. case_bool_decide as El; [done|]. by subst cs.
  - by eapply convert_ascending.
  - intros row Hrow. destruct (row_pk_lookup row Hpk Hrow) as [Hkind Hlook].
    apply (optimize_keeps scan_is_cheaper _ _ _ _ Hkind Hlook); try done. by apply Hf.
  - intros row Hrow Hx. destruct (row_pk_lookup row Hpk Hrow) as [Hkind Hlook].
    apply key_set_contains_spec in Hx as (x & Hin & Ek).
    rewrite (plan_exclude_spec _ _ _ _ _ Hc) in Hin. pose proof (plan_filter_typed _ _ _ _ _ Hk Hr Hc) as Hwf.
    destruct (plan_filter plan) as [c|]; [|by apply elem_of_nil in Hin].
    destruct (exclusions_rejected _ _ _ _ Hkind Hlook c [] x Hwf Hin) as [Hn|Hn]; [by apply elem_of_nil in Hn|].
    by apply Hn.
Qed.

(** ** The operator tree of a SELECT *)

Lemma with_child_runs fuel r out f out' : any_runs fuel r out ->
  (forall X (ops : Executor E X) (x : X), runs fuel e x out ->
     runs fuel e (f X ops x) out' /\ x_produces_rows (f X ops x) = true) ->
  any_runs fuel (with_child r f) out'.
Proof.
  intros (x & -> & Hr & _) Hf. simpl. eexists. split; [done|]. apply Hf. by apply unpack_runs.
Qed.

Lemma where_length w : (length (where_rows t w rows) <= length rows)%nat.
Proof. apply length_filter. Qed.

(** A sort node over rows the condition keeps; TopN keeps as many as the limit
    needs. *)
Lemma sort_node_runs fuel node w order_by keys l :
  row_comparator (schema_ t) order_by = Some keys ->
  any_runs fuel (create node t) (where_rows t w rows) -> (length rows < fuel)%nat ->
  (has_limit l = false -> (N.of_nat (length rows) <= default_row_limit)%N) ->
  any_runs fuel (create (SortPlan node order_by (has_limit l) (if has_limit l then top_n_count l else 0%N)) t)
    (let sorted_rows := sort_rows (row_less keys) (where_rows t w rows) in
     if has_limit l then take (N.to_nat (top_n_count l)) sorted_rows else sorted_rows).
Proof.
  intros Hkeys Hnode Hf Hlim. cbn [create]. eapply with_child_runs; [exact Hnode|]. intros X ops x Hx.
  split; [|done]. apply pack_runs. pose proof (where_length w) as Hl.
  set (so := sort_executor t order_by (has_limit l) (if has_limit l then top_n_count l else 0%N) x).
  assert (Hr : runs fuel e so (sort_result (row_less keys) so (where_rows t w rows))).
  { apply (sort_runs fuel e (row_less keys) (fun row => row ∈ rows) (less_irrefl _ _ Hkeys) (less_trans _ _ Hkeys)
      (less_total _ _ Hkeys) so keys); try done.
    - lia.
    - apply Forall_forall. apply where_sub.
    - apply where_nodup.
    - simpl. intros Hn. specialize (Hlim Hn). lia. }
  unfold sort_result, top_count in Hr. simpl in Hr. by destruct (has_limit l).
Qed.

(** Scan chain and sort, if there is one: a prefix of the ordered rows that is
    long enough for the limit. *)
Lemma ordered_runs fuel q s keys :
  oq_query q = QSelect s -> oq_primary_key q = primary_key_name (schema_ t) -> pk_resolves (schema_ t) ->
  optimized_ok q (sel_where s) -> row_comparator (schema_ t) (sel_order_by s) = Some keys ->
  (length rows + length (oq_ranges q) < fuel)%nat ->
  (has_limit (sel_limit s) = false -> (N.of_nat (length rows) <= default_row_limit)%N) ->
  let order := order_by_scan s q in
  let node := build_scan_chain q (so_ascending order) in
  let ordered := order_rows keys (sel_order_by s) (where_rows t (sel_where s) rows) in
  exists out, any_runs fuel (create (if negb (bool_decide (length (sel_order_by s) = 0%nat)) && negb (satisfied_by_scan order)
      then SortPlan node (sel_order_by s) (has_limit (sel_limit s))
             (if has_limit (sel_limit s) then top_n_count (sel_limit s) else 0%N)
      else node) t) out /\
    (out = ordered \/ has_limit (sel_limit s) = true /\ out = take (N.to_nat (top_n_count (sel_limit s))) ordered).
Proof.
  intros Hqs Hpkn Hpk Hq Hkeys Hf Hlim.
  pose proof (fun asc => chain_runs fuel q (sel_where s) asc Hq Hf) as Hchain.
  unfold order_by_scan. destruct (sel_order_by s) as [|item rest] eqn:Eob.
  { simpl. eexists. split; [apply (Hchain true)|by left]. }
  cbv zeta. cbn [length]. rewrite bool_decide_false by done. cbn [negb andb].
  pose proof (sort_node_runs fuel _ (sel_where s) (item :: rest) keys (sel_limit s) Hkeys (Hchain true) ltac:(lia) Hlim) as Hsort.
  assert (Hs : exists out, any_runs fuel (create (SortPlan (build_scan_chain q true) (item :: rest) (has_limit (sel_limit s))
      (if has_limit (sel_limit s) then top_n_count (sel_limit s) else 0%N)) t) out /\
    (out = order_rows keys (item :: rest) (where_rows t (sel_where s) rows) \/
     has_limit (sel_limit s) = true /\ out = take (N.to_nat (top_n_count (sel_limit s)))
       (order_rows keys (item :: rest) (where_rows t (sel_where s) rows)))).
  { eexists. split; [exact Hsort|]. cbv zeta. destruct (has_limit (sel_limit s)); [by right|by left]. }
  destruct (ident_empty (oq_primary_key q)); [exact Hs|].
  destruct (ident_eqb (ob_column item) (oq_primary_key q)) eqn:Eid; cbn [negb satisfied_by_scan so_ascending]; [|exact Hs].
  eexists. split; [apply Hchain|]. left. unfold order_rows. apply (scan_sorted _ _ Hkeys item rest); [done|].
  destruct Hpk as [_ <-]. rewrite Hpkn in Eid. by apply index_from_ident.
Qed.

Lemma order_rows_perm keys order_by l : order_rows keys order_by l ≡ₚ l.
Proof. unfold order_rows. destruct order_by; [done|]. apply sort_rows_perm. Qed.

Lemma select_runs fuel q s keys indexes p :
  oq_query q = QSelect s -> oq_primary_key q = primary_key_name (schema_ t) -> pk_resolves (schema_ t) ->
  optimized_ok q (sel_where s) -> row_comparator (schema_ t) (sel_order_by s) = Some keys ->
  select_indexes (schema_ t) s = Some indexes ->
  (length rows + length (oq_ranges q) < fuel)%nat -> (N.of_nat (length rows) <= size_max)%N ->
  (has_limit (sel_limit s) = false -> (N.of_nat (length rows) <= default_row_limit)%N) ->
  plan q = Ok p -> any_runs fuel (create p t) (select_rows t s keys indexes rows).
Proof.
  intros Hqs Hpkn Hpk Hq Hkeys Hix Hf Hsz Hlim Hp.
  destruct (ordered_runs fuel q s keys Hqs Hpkn Hpk Hq Hkeys Hf Hlim) as (out & Hout & Hcase).
  unfold plan in Hp. rewrite Hqs in Hp. unfold plan_select in Hp. rewrite Hqs in Hp. cbv zeta in Hp.
  set (node := if _ && _ then _ else _) in Hout, Hp.
  set (ordered := order_rows keys (sel_order_by s) (where_rows t (sel_where s) rows)) in *.
  assert (Hlen : (length ordered <= length rows)%nat).
  { unfold ordered. rewrite order_rows_perm. apply where_length. }
  assert (Hol : (length out <= length ordered)%nat).
  { destruct Hcase as [->|[_ ->]]; [done|]. rewrite length_take. lia. }
  set (limited := if has_limit (sel_limit s) || has_offset (sel_limit s) then LimitPlan node (sel_limit s) else node) in Hp.
  assert (Hl : any_runs fuel (create limited t) (limit_rows (sel_limit s) ordered)).
  { unfold limited. destruct (_ || _) eqn:Eo.
    - cbn [create]. eapply with_child_runs; [exact Hout|]. intros X ops x Hx. split; [|done]. apply pack_runs.
      replace (limit_rows (sel_limit s) ordered) with (limit_rows (sel_limit s) out).
      + apply limit_runs; [done|lia|lia].
      + destruct Hcase as [->|[Hh ->]]; [done|]. apply limit_top_n; [done|lia].
    - apply orb_false_iff in Eo as [E1 E2]. destruct Hcase as [->|[Hh _]]; [|congruence].
      unfold limit_rows, offset_value. unfold has_limit in E1. unfold has_offset in E2.
      destruct (row_count_ (sel_limit s)); [done|]. destruct (offset_ (sel_limit s)); [done|].
      simpl. by rewrite drop_0. }
  unfold select_indexes in Hix. unfold select_rows. fold ordered.
  destruct (select_all s) eqn:Ea; simpl in Hp; injection Hp as <-.
  - injection Hix as <-. by rewrite (map_id (limit_rows (sel_limit s) ordered) : map (project_row []) _ = _).
  - cbn [create]. eapply with_child_runs; [exact Hl|]. intros X ops x Hx. split; [|done]. apply pack_runs.
    apply project_runs; [|done]. unfold select_all in Ea. destruct (sel_columns s) as [|c [|c' rest]]; [done| |done].
    simpl. by rewrite Ea.
Qed.

(** ** The result cursor *)

Lemma fetch_yields turns fuel root columns out : yields fuel e root out -> (length out < turns)%nat ->
  fetch_all turns fuel e (mkResultCursor root columns true false CE_OK) = (out, CE_END).
Proof.
  intros Hy. revert turns. induction Hy as [x x' Hn|x x' row out Hn _ IH]; intros turns Hl;
    (destruct turns as [|turns]; [simpl in Hl; lia|]); cbn [fetch_all]; unfold rc_next;
    cbn [rc_error rc_closed rc_opened ce_is_error rc_root]; rewrite bool_decide_true by done; cbn [negb]; rewrite Hn.
  - done.
  - cbn [rc_columns rc_opened rc_closed rc_error]. change (ce_is_error CE_OK) with false. cbv beta iota. rewrite IH; [done|]. simpl in Hl. lia.
Qed.

Lemma execute_fetch fuel turns p out : any_runs fuel (create p t) out -> (length out < turns)%nat ->
  exists rc, execute fuel p t e = (e, Ok rc) /\ rc_columns rc = result_columns p t /\
    fetch_all turns fuel e rc = (out, CE_END).
Proof.
  intros (x & Hc & (x' & Ho & Hy) & Hp) Hl. unfold execute. rewrite Hc, Hp. eexists. split; [done|]. split; [done|].
  pose proof (fetch_yields turns fuel x' (result_columns p t) out Hy Hl) as Hfetch.
  destruct turns as [|turns]; [lia|]. cbn [fetch_all] in *. unfold rc_next in *.
  cbn [rc_error rc_closed rc_opened ce_is_error rc_root result_cursor] in *. unfold open_now.
  cbn [rc_closed rc_opened rc_root rc_columns rc_error result_cursor]. rewrite Ho. exact Hfetch.
Qed.
End select.

(** C3: a SELECT returns the rows SQL asks for. Let the catalog know the table,
    whose primary key is found by its name, let the constants compared with the
    primary key be of its kind (see [mistyped_constant_loses_row]), let the rewriter
    keep the truth of the WHERE on the rows of the table (absorption can lose it:
    [absorption_drops_where], [absorption_keeps_rejected_rows]), let the engine
    answer scans of the table faithfully ([kv_scannable]), and let the columns of
    ORDER BY and of the select list exist. Then
    whatever access path the optimizer chooses, running its plan leaves the
    storage untouched, and reading the result to the end yields the rows of the
    table on which the WHERE condition is TRUE, sorted by ORDER BY with the
    primary key as tie-breaker (by the primary key without ORDER BY), cut to
    OFFSET and LIMIT and projected to the select list, and then the end of the
    stream. A sort without LIMIT must fit the sort buffer. *)
Theorem select_exact {E I} `{KVEngineLaws E I} {C} `{!CatalogView C}
    t e scan_is_cheaper (catalog : C) s q p keys indexes fuel turns :
  table_ok t -> kv_ready e -> table_inv t (kv_view e) -> tag_of (primary_key_type_ t) <> kTagNull ->
  (forall r asc, kv_scannable e (physical_range t r asc)) ->
  cv_table_schema catalog (cv_current_database catalog) (sel_table s) = Some (schema_ t) ->
  ident_eqb (sel_table s) (schema_name (schema_ t)) = true -> pk_resolves (schema_ t) ->
  well_typed_opt (primary_key_name (schema_ t)) (primary_key_type_ t) (sel_where s) ->
  rewrites_faithfully t e (sel_where s) ->
  row_comparator (schema_ t) (sel_order_by s) = Some keys -> select_indexes (schema_ t) s = Some indexes ->
  optimize scan_is_cheaper catalog (QSelect s) = Ok q -> plan q = Ok p ->
  let rows := table_rows t (kv_view e) in
  (length rows + length (oq_ranges q) < fuel)%nat -> (length rows < turns)%nat ->
  (N.of_nat (length rows) <= size_max)%N ->
  (has_limit (sel_limit s) = false -> (N.of_nat (length rows) <= default_row_limit)%N) ->
  exists rc, execute fuel p t e = (e, Ok rc) /\ rc_columns rc = result_columns p t /\
    fetch_all turns fuel e rc = (select_rows t s keys indexes rows, CE_END) /\
    (let ordered := order_rows keys (sel_order_by s) (where_rows t (sel_where s) rows) in
     ordered ≡ₚ where_rows t (sel_where s) rows /\
     (sel_order_by s <> [] -> StronglySorted (fun a b => row_less keys a b = true) ordered)).
Proof.
  intros Ht He Hi Htag Hscan Hsch Htab Hpk Hw Hf Hkeys Hix Hopt Hplan rows Hfuel Hturns Hsz Hlim.
  destruct (optimize_ok t Ht e He Hi scan_is_cheaper catalog (QSelect s) (sel_table s) q Hsch eq_refl Htab Hpk Hw Hf Hopt)
    as (Hqs & Hpkn & Hq).
  pose proof (select_runs t Ht e He Hi Htag Hscan fuel q s keys indexes p Hqs Hpkn Hpk Hq Hkeys Hix Hfuel Hsz Hlim Hplan) as Hr.
  destruct (execute_fetch t e fuel turns p _ Hr) as (rc & Hx & Hc & Hfetch).
  { unfold select_rows. rewrite length_map. eapply Nat.le_lt_trans; [|exact Hturns].
    transitivity (length (order_rows keys (sel_order_by s) (where_rows t (sel_where s) rows))).
    - apply limit_rows_length.
    - rewrite order_rows_perm. apply where_length. }
  exists rc. split; [done|]. split; [done|]. split; [done|]. split; [apply order_rows_perm|].
  intros Hob. unfold order_rows. destruct (sel_order_by s) as [|item rest] eqn:Eob; [done|].
  apply (sort_rows_sorted _ (fun row => row ∈ rows)); [by apply (less_trans t Ht e He Hi _ _ Hkeys)
    |by apply (less_total t Ht e He Hi _ _ Hkeys)|apply Forall_forall; apply where_sub|by apply where_nodup].
Qed.

(** ** An example on the in-memory engine *)

(** The catalog over a storage engine as the optimizer sees it. *)
#[export] Instance KVCatalog_view {E I} `{!ScanIterator I, !KVEngine E I} : CatalogView (KVCatalog E) := {|
  cv_is_open := cat_is_open; cv_current_database := current_db_;
  cv_database_exists c db := (database_exists db c).2;
  cv_table_exists c db table := (table_exists db table c).2;
  cv_table_schema c db table := (get_table_schema db table c).2;
  cv_primary_key_exists c db table pk := (primary_key_exists db table pk c).2 |}.

Definition user (id : Z) (name : string) : Row :=
  [VInt I_INT id; VStr S_VARCHAR (bytes_of_string name); VInt I_DATE 19000].
Definition demo_users : Conn :=
  fold_left (fun c row => (insert demo_table row c).1) [user 3 "c"; user 1 "b"; user 2 "a"] demo_conn.

Lemma demo_users_rel : exists a, table_rel demo_table demo_users a.
Proof.
  assert (Hstep : forall c row, (exists a, table_rel demo_table c a) -> Forall value_wf row ->
    exists a, table_rel demo_table (insert demo_table row c).1 a).
  { intros c row [a Ha] Hw. destruct (insert demo_table row c) as [c' r] eqn:Ei.
    destruct (insert_step demo_table demo_table_ok row c a c' r Ha Hw Ei) as (a' & _ & Ha' & _). by exists a'. }
  unfold demo_users. cbn [fold_left].
  do 3 (apply Hstep; [|by apply (bool_decide_eq_true_1 _); vm_compute]). exists amap_empty. apply demo_conn_rel.
Qed.

Lemma idle_scannable (c : Conn) r : MockEngine.tx_ (c_eng c) = None -> kv_scannable c r.
Proof. intros Hn tx Htx. by rewrite Hn in Htx. Qed.

Definition demo_select : SelectQuery :=
  mkSelect (schema_name demo_schema) [mkColumnRef (identifier (bytes_of_string "name")) empty_identifier None]
    (Some (CompareCondition (identifier (bytes_of_string "ID")) GT (VInt I_INT 1)))
    [mkOrderBy (identifier (bytes_of_string "NAME")) DESC] (mkLimit (Some 1%N) None).

Lemma select_exact_witness :
  exists q p rc, optimize (fun _ => false) (with_db demo_db demo_catalog2) (QSelect demo_select) = Ok q /\
    plan q = Ok p /\ execute 10 p demo_table demo_users = (demo_users, Ok rc) /\
    fetch_all 5 10 demo_users rc = ([[VStr S_VARCHAR (bytes_of_string "c")]], CE_END).
Proof.
  destruct demo_users_rel as [a Hrel].
  eexists _, _.
  edestruct (select_exact demo_table demo_users (fun _ => false) (with_db demo_db demo_catalog2) demo_select)
    with (fuel := 10%nat) (turns := 5%nat) as (rc & Hx & _ & Hf & _).
  - apply demo_table_ok.
  - apply Hrel.
  - apply Hrel.
  - vm_compute. discriminate.
  - intros r asc. apply idle_scannable. vm_compute. reflexivity.
  - vm_compute. reflexivity.
  - vm_compute. reflexivity.
  - vm_compute. split; reflexivity.
  - vm_compute. intuition discriminate.
  - intros row Hrow. repeat constructor; intros w Hw; vm_compute in Hw; injection Hw as <-; reflexivity.
  - vm_compute. reflexivity.
  - vm_compute. reflexivity.
  - vm_compute. reflexivity.
  - vm_compute. reflexivity.
  - vm_compute. lia.
  - vm_compute. lia.
  - vm_compute. discriminate.
  - vm_compute. discriminate.
  - exists rc. split; [vm_compute; reflexivity|]. split; [vm_compute; reflexivity|]. split; [exact Hx|].
    rewrite Hf. vm_compute. reflexivity.
Defined.
