(* ===== verification/DmlSpec.v ===== *)
(** * DELETE and INSERT do what SQL asks for

    The write operators of [executor/executor.cpp], over any storage engine that
    satisfies the laws of [KvApi]. A DELETE removes exactly the rows its WHERE
    condition keeps; an INSERT inserts its rows one by one and stops at the first
    that is refused. *)

From stdpp Require Import sorting.
From S2P Require Import Prelude Bytes OMap KvTypes Transactions KvApi SqlTypes KeyCodec SqlTruth SqlKeyRange Rewriter Schema RowCodec KeyPrefix Table TableSpec TableScan Catalog CatalogSpec Optimizer Planner Executor Execute ExecutorSpec RowOrder PlanRanges ScanSpec SelectSpec.
Local Open Scope Z_scope.

Section dml.
Context {E I : Type} `{KVEngineLaws E I}.
Context (t : Table) (Ht : table_ok t).

Lemma frame_refl e : frame t e e.
Proof. by intros k Hk. Qed.
Lemma frame_trans e1 e2 e3 : frame t e1 e2 -> frame t e2 e3 -> frame t e1 e3.
Proof. intros H1 H2 k Hk. by rewrite H2, H1. Qed.

(** ** The rows of the table as a list *)

Definition pk_less (a b : Row) : bool := value_ltb (primary_key_of t a) (primary_key_of t b).

Lemma pk_less_irrefl a : row_ok t a -> pk_less a a = false.
Proof.
  intros Ha. unfold pk_less. rewrite <- (key_order (primary_key_type_ t)) by (by apply row_pk_column).
  apply bytes_ltb_irrefl.
Qed.
Lemma pk_less_trans a b c : row_ok t a -> row_ok t b -> row_ok t c ->
  pk_less a b = true -> pk_less b c = true -> pk_less a c = true.
Proof.
  intros Ha Hb Hc. unfold pk_less. rewrite <- !(key_order (primary_key_type_ t)) by (by apply row_pk_column).
  apply bytes_ltb_trans.
Qed.

(** A table is determined by its rows. *)
Lemma table_rows_eq m l : sorted m -> table_inv t m ->
  StronglySorted (fun a b => pk_less a b = true) l -> (forall row, row ∈ table_rows t m <-> row ∈ l) ->
  table_rows t m = l.
Proof.
  intros Hs Hi Hl Hel.
  assert (Hok : Forall (row_ok t) (table_rows t m)) by (apply Forall_forall; by apply (rows_ok t Ht m Hs Hi)).
  apply (sorted_unique pk_less (row_ok t) pk_less_irrefl pk_less_trans); [done| |by apply (rows_sorted t Ht m Hs Hi)|done].
  apply NoDup_Permutation; [by apply (rows_nodup t Ht m Hs Hi)| |done].
  assert (Hok' : Forall (row_ok t) l).
  { apply Forall_forall. intros row Hr. apply Hel in Hr. by apply (rows_ok t Ht m Hs Hi). }
  clear Hel Hok. induction Hl as [|a l Hl IH Hf]; [constructor|]. apply Forall_cons in Hok' as [Ha Hok'].
  constructor; [|by apply IH]. intros Hin. eapply Forall_forall in Hf; [|exact Hin]. simpl in Hf.
  by rewrite pk_less_irrefl in Hf.
Qed.

(** ** DELETE *)

(** One row removed. *)
Lemma remove_row e a row e' r : table_rel t e a -> row ∈ table_rows t (kv_view e) ->
  remove t (primary_key_of t row) e = (e', r) ->
  frame t e e' /\ (exists a', table_rel t e' a') /\
  (r = Ok tt /\ table_rows t (kv_view e') = filter (fun x => x <> row) (table_rows t (kv_view e)) \/
   r = Err RE_KV_ERROR /\ kv_view e' = kv_view e).
Proof.
  intros Hrel Hrow Hrm. pose proof Hrel as [He Hi _]. pose proof (kv_view_sorted e He) as Hs.
  pose proof (rows_ok t Ht _ Hs Hi row Hrow) as Hok.
  assert (Hwf : value_wf (primary_key_of t row)) by (apply pk_wf; apply Hok).
  destruct (remove_step t Ht _ _ _ _ _ Hrel Hwf Hrm) as (a' & _ & Hrel' & Hfr).
  split; [done|]. split; [by exists a'|]. unfold remove in Hrm. rewrite (ro_pk _ _ Hok) in Hrm.
  destruct (kv_remove _ e) as [e1 st] eqn:Ek. injection Hrm as -> <-.
  destruct (kv_remove_view _ _ _ _ He Ek) as [He' Hv]. destruct (benign st); [left|by right]. split; [done|].
  pose proof Hrel' as [_ Hi' _]. pose proof (kv_view_sorted e' He') as Hs'.
  apply table_rows_eq; try done.
  { pose proof (sorted_sub _ (fun x => bool_decide (x <> row)) _ (rows_sorted t Ht _ Hs Hi)) as Hsub.
    erewrite filter_ext_in in Hsub; [exact Hsub|]. intros x _. by rewrite bool_decide_eq_true. }
  intros x. rewrite list_elem_of_filter, !(decode_rows_elem t Ht) by done. rewrite Hv.
  split.
  - intros [Hx Ha]. rewrite (abs_erase t Ht (kv_view e) (primary_key_of t row) Hs Hwf (ro_pk _ _ Hok) (primary_key_of t x)
      (pk_wf t x (ro_wf _ _ Hx)) (ro_pk _ _ Hx)) in Ha. unfold amap_delete in Ha.
    case_decide as Hp; [done|]. split; [|done]. intros ->. apply Hp. apply same_payload_refl.
  - intros (Hne & Hx & Ha). split; [done|].
    rewrite (abs_erase t Ht (kv_view e) (primary_key_of t row) Hs Hwf (ro_pk _ _ Hok) (primary_key_of t x)
      (pk_wf t x (ro_wf _ _ Hx)) (ro_pk _ _ Hx)). unfold amap_delete. case_decide as Hp; [|done].
    destruct Hne. apply (same_key_same_row t Ht (kv_view e)); try done.
    + by apply (decode_rows_elem t Ht).
    + apply (encode_key_inj t); try done; [apply pk_wf; apply Hx|by apply (ro_pk _ _ Hx)|by apply (ro_pk _ _ Hok)].
Qed.

(** What is left of [l] without the rows [gone]. *)
Definition without (gone l : list Row) : list Row := filter (fun x => x ∉ gone) l.

Lemma without_nil l : without [] l = l.
Proof.
  unfold without. induction l as [|x l IH]; [done|]. rewrite filter_cons, decide_True by apply not_elem_of_nil. by f_equal.
Qed.

Lemma without_cons row gone l : without gone (filter (fun x => x <> row) l) = without (row :: gone) l.
Proof.
  unfold without. rewrite list_filter_filter. apply filter_ext_in. intros x _. rewrite not_elem_of_cons. tauto.
Qed.

Section loops.
Context {X : Type} `{!Executor E X}.

Lemma remove_rows doomed : forall e a (x : DeleteExecutor (X:=X)) e' x' st,
  dx_table x = t -> table_rel t e a -> NoDup doomed -> (forall row, row ∈ doomed -> row ∈ table_rows t (kv_view e)) ->
  dx_remove (map (primary_key_of t) doomed) e x = (e', x', st) ->
  frame t e e' /\ (exists a', table_rel t e' a') /\
  (st = EX_OK /\ table_rows t (kv_view e') = without doomed (table_rows t (kv_view e)) /\
     wr_affected (dx_state x') = (wr_affected (dx_state x) + N.of_nat (length doomed))%N \/
   st = EX_IO_ERROR /\ exists gone left_, doomed = gone ++ left_ /\ left_ <> [] /\
     table_rows t (kv_view e') = without gone (table_rows t (kv_view e))).
Proof.
  induction doomed as [|row doomed IH]; intros e a x e' x' st Hx Hrel Hn Hin Hd.
  { injection Hd as <- <- <-. split; [apply frame_refl|]. split; [by exists a|]. left.
    rewrite without_nil. split_and!; [done|done|simpl; lia]. }
  cbn [map dx_remove] in Hd. rewrite Hx in Hd.
  destruct (remove t (primary_key_of t row) e) as [e1 r] eqn:Er.
  destruct (remove_row e a row e1 r Hrel (Hin row ltac:(left)) Er) as (Hfr & (a1 & Hrel1) & [[-> Hrows]|[-> Hv]]).
  - apply NoDup_cons in Hn as [Hnot Hn].
    eapply (IH e1 a1) in Hd as (Hfr' & Hrel' & Hcase); [|done|done|done|].
    2:{ intros y Hy. rewrite Hrows. apply list_elem_of_filter. split; [by intros ->|]. apply Hin. by right. }
    split; [by eapply frame_trans|]. split; [done|]. rewrite Hrows in Hcase.
    destruct Hcase as [(-> & Hr & Ha)|(-> & gone & lf & -> & Hl & Hr)].
    + left. split_and!; [done|by rewrite Hr, without_cons|]. simpl in Ha |- *. lia.
    + right. split; [done|]. exists (row :: gone), lf. split_and!; [done|done|by rewrite Hr, without_cons].
  - injection Hd as <- <- <-. split; [done|]. split; [by exists a1|]. right. split; [done|].
    exists [], (row :: doomed). split_and!; [done|done|]. by rewrite Hv, without_nil.
Qed.

Lemma collect_keys fuel e rows : forall turns x acc, yields fuel e x rows -> (length rows < turns)%nat ->
  Forall (row_ok t) rows ->
  exists x', dx_collect turns fuel e t acc x = (x', Ok (acc ++ map (primary_key_of t) rows)).
Proof.
  induction rows as [|row rows IH]; intros turns x0 acc Hy Hl Hok; (destruct turns as [|turns]; [lia|]);
    stream Hy; cbn [dx_collect]; rewrite En.
  - exists x. by rewrite app_nil_r.
  - apply Forall_cons in Hok as [Hr Hok]. rewrite (ro_pk _ _ Hr).
    destruct (IH turns x (acc ++ [primary_key_of t row]) Hy0 ltac:(simpl in Hl; lia) Hok) as (x' & Hc).
    exists x'. rewrite Hc. simpl. by rewrite <- app_assoc.
Qed.
End loops.
End dml.

(** C16: a DELETE removes the rows its condition keeps, and nothing else. Let the
    catalog know the table, whose primary key is found by its name, let the
    constants compared with the primary key be of its kind, let the rewriter keep
    the truth of the WHERE (absorption can lose it: [absorption_drops_where]),
    and let the engine answer scans of the table faithfully ([kv_scannable]).
    Then a DELETE that succeeds leaves exactly the rows of the table on which the WHERE
    condition is not TRUE and reports how many it removed; it fails only when the
    storage refuses a removal, and has then removed the first rows in key order.
    In both cases keys outside the table are untouched and the table stays well
    formed. *)
Theorem delete_exact {E I} `{KVEngineLaws E I} {C} `{!CatalogView C}
    t e a scan_is_cheaper (catalog : C) d q p fuel e' r :
  table_ok t -> table_rel t e a -> tag_of (primary_key_type_ t) <> kTagNull ->
  (forall r asc, kv_scannable e (physical_range t r asc)) ->
  cv_table_schema catalog (cv_current_database catalog) (del_table d) = Some (schema_ t) ->
  ident_eqb (del_table d) (schema_name (schema_ t)) = true -> pk_resolves (schema_ t) ->
  well_typed_opt (primary_key_name (schema_ t)) (primary_key_type_ t) (del_where d) ->
  rewrites_faithfully t e (del_where d) ->
  optimize scan_is_cheaper catalog (QDelete d) = Ok q -> plan q = Ok p ->
  let rows := table_rows t (kv_view e) in
  let doomed := where_rows t (del_where d) rows in
  (length rows + length (oq_ranges q) < fuel)%nat ->
  execute fuel p t e = (e', r) ->
  frame t e e' /\ (exists a', table_rel t e' a') /\
  match r with
  | Ok rc => table_rows t (kv_view e') = without doomed rows /\ rc_affected_rows rc = N.of_nat (length doomed)
  | Err c => c = EX_IO_ERROR /\ exists gone left_, doomed = gone ++ left_ /\ left_ <> [] /\
      table_rows t (kv_view e') = without gone rows
  end.
Proof.
  intros Ht Hrel Htag Hscan Hsch Htab Hpk Hw Hf Hopt Hplan rows doomed Hfuel Hx. pose proof Hrel as [He Hi _].
  destruct (optimize_ok t Ht e He Hi scan_is_cheaper catalog (QDelete d) (del_table d) q Hsch eq_refl Htab Hpk Hw Hf Hopt)
    as (Hqs & _ & Hq).
  destruct (chain_runs t Ht e He Hi Htag Hscan fuel q (del_where d) true Hq Hfuel) as (child & Hc & Hr & _).
  unfold plan in Hplan. rewrite Hqs in Hplan. unfold plan_delete in Hplan. rewrite Hqs in Hplan. injection Hplan as <-.
  unfold execute in Hx. cbn [create] in Hx. rewrite Hc in Hx. destruct child as [X ops child].
  apply unpack_runs in Hr. simpl in Hr, Hx. destruct Hr as (x1 & Ho & Hy).
  assert (Hsub : forall row, row ∈ doomed -> row ∈ rows) by apply where_sub.
  destruct (collect_keys t fuel e doomed fuel x1 [] Hy) as (x2 & Hcol).
  { pose proof (where_length t e (del_where d)). unfold doomed, rows in *. lia. }
  { apply Forall_forall. intros row Hrow. apply (rows_ok t Ht _ (kv_view_sorted e He) Hi). by apply Hsub. }
  unfold open_now in Hx. simpl in Hx. unfold dx_open in Hx. simpl in Hx. rewrite Ho in Hx. simpl in Hx.
  rewrite Hcol in Hx.
  destruct (dx_remove _ e _) as [[e1 x3] st] eqn:Ed.
  eapply (remove_rows t Ht doomed) in Ed as (Hfr & Hrel' & Hcase); [|done|exact Hrel|by apply (where_nodup t Ht)|exact Hsub].
  destruct Hcase as [(-> & Hrows & Haff)|(-> & Hrest)]; injection Hx as <- <-; (split; [done|]); (split; [done|]).
  - split; [done|]. exact Haff.
  - by split.
Qed.

(** ** INSERT *)

(** The rows of VALUES inserted into the map one after the other: the number
    inserted, and the error that stopped the statement. *)
Inductive insert_run (t : Table) (columns : list Identifier) : list (list Value) -> amap -> N -> ExecErrorCode -> amap -> Prop :=
| insert_run_done a : insert_run t columns [] a 0 EX_OK a
| insert_run_shape vals rest a c : insert_row_of (schema_ t) columns vals = Err c ->
    insert_run t columns (vals :: rest) a 0 (to_exec_error c) a
| insert_run_refused vals rest row a c a1 : insert_row_of (schema_ t) columns vals = Ok row ->
    spec_step t (OpInsert row) a (Err c) a1 ->
    insert_run t columns (vals :: rest) a 0 (to_exec_error (to_cursor_error c)) a1
| insert_run_next vals rest row a a1 n st a' : insert_row_of (schema_ t) columns vals = Ok row ->
    spec_step t (OpInsert row) a (Ok None) a1 -> insert_run t columns rest a1 n st a' ->
    insert_run t columns (vals :: rest) a (n + 1) st a'.

Section insert.
Context {E I : Type} `{KVEngineLaws E I}.
Context (t : Table) (Ht : table_ok t).

Lemma fill_wf s columns : forall values row row', Forall value_wf values -> Forall value_wf row ->
  fill_columns s columns values row = Ok row' -> Forall value_wf row'.
Proof.
  induction columns as [|c columns IH]; intros [|v values] row row' Hv Hr Hf; simpl in Hf; simplify_eq; try done.
  destruct (_ <? 0); [done|]. apply Forall_cons in Hv as [Hv Hvs]. apply (IH _ _ _ Hvs) in Hf; [done|].
  by apply Forall_insert.
Qed.

Lemma insert_row_wf s columns values row : Forall value_wf values ->
  insert_row_of s columns values = Ok row -> Forall value_wf row.
Proof.
  intros Hv Hr. unfold insert_row_of in Hr. destruct columns as [|c columns]; [by case_bool_decide; simplify_eq|].
  case_bool_decide; [|done]. eapply fill_wf; [exact Hv| |exact Hr]. apply Forall_replicate. done.
Qed.

Lemma insert_loop values columns : forall pre e a w e' x' st,
  let x := mkInsertX t columns (pre ++ values) w in
  table_rel t e a -> Forall (Forall value_wf) values ->
  ix_loop (length values) (length pre) e x = (e', x', st) ->
  exists n a', insert_run t columns values a n st a' /\ table_rel t e' a' /\ frame t e e' /\
    wr_affected (ix_state x') = (wr_affected w + n)%N.
Proof.
  induction values as [|vals values IH]; intros pre e a w e' x' st x Hrel Hwf Hl; cbn [length ix_loop] in Hl.
  { injection Hl as <- <- <-. exists 0%N, a. split_and!; [constructor|done|apply frame_refl|simpl; lia]. }
  apply Forall_cons in Hwf as [Hv Hwf].
  assert (Hb : build_row x (length pre) = insert_row_of (schema_ t) columns vals).
  { unfold build_row, x. simpl. by rewrite list_lookup_middle. }
  rewrite Hb in Hl. destruct (insert_row_of (schema_ t) columns vals) as [row|c] eqn:Er.
  2:{ injection Hl as <- <- <-. exists 0%N, a. split_and!; [by constructor|done|apply frame_refl|simpl; lia]. }
  change (ix_table x) with t in Hl. destruct (insert t row e) as [e1 r] eqn:Ei.
  destruct (insert_step t Ht row e a e1 r Hrel (insert_row_wf _ _ _ _ Hv Er) Ei) as (a1 & Hs & Hrel1 & Hfr).
  destruct r as [[]|c].
  - destruct (IH (pre ++ [vals]) e1 a1 (write_count w) e' x' st Hrel1 Hwf) as (n & a' & Hrun & Hrel' & Hfr' & Haff).
    { rewrite <- app_assoc, length_app. simpl. rewrite Nat.add_1_r. exact Hl. }
    exists (n + 1)%N, a'. split_and!; [by eapply insert_run_next|done|by eapply frame_trans|]. simpl in Haff. lia.
  - injection Hl as <- <- <-. exists 0%N, a1. split_and!; [by eapply insert_run_refused|done|done|simpl; lia].
Qed.

Lemma insert_run_all columns values a n a' : insert_run t columns values a n EX_OK a' -> n = N.of_nat (length values).
Proof.
  intros Hr. remember EX_OK as st eqn:Est. induction Hr as [|vals rest a c Hs|vals rest row a c a1 Hs Hst|vals rest row a a1 n st a' Hs Hst Hr IH];
    simpl; [done| | |rewrite IH by done; lia].
  - by destruct c.
  - by destruct c.
Qed.
End insert.

Lemma insert_executes {E I} `{KVEngineLaws E I} t e a at_ q fuel e' r :
  table_ok t -> table_rel t e a -> Forall (Forall value_wf) (ins_values q) ->
  execute fuel (InsertPlan at_ q) t e = (e', r) ->
  exists n st a', insert_run t (ins_columns q) (ins_values q) a n st a' /\ table_rel t e' a' /\ frame t e e' /\
  match r with
  | Ok rc => st = EX_OK /\ n = N.of_nat (length (ins_values q)) /\ rc_affected_rows rc = n
  | Err c => st = c /\ c <> EX_OK
  end.
Proof.
  intros Ht Hrel Hwf Hx. unfold execute in Hx. simpl in Hx. unfold open_now in Hx. simpl in Hx.
  unfold ix_open in Hx. simpl in Hx. unfold with_ix in Hx. simpl in Hx.
  destruct (ix_loop _ 0 e _) as [[e1 x1] st] eqn:El.
  destruct (insert_loop t Ht (ins_values q) (ins_columns q) [] e a _ e1 x1 st Hrel Hwf El) as (n & a' & Hrun & Hrel' & Hfr & Haff).
  exists n, st, a'. case_bool_decide as Est; injection Hx as <- <-; (split; [done|]); (split; [done|]); (split; [done|]); [|done].
  subst st. split; [done|]. split; [by eapply insert_run_all|]. exact Haff.
Qed.

(** C18: INSERT refines map insertion. An INSERT adds its rows to the table in
    order, each checked against the schema, its primary key required and new, and
    stops at the first it refuses with the code of that error; the rows before it
    stay (the session rolls them back). When it succeeds every row is in, and the
    number of affected rows is the number of rows of VALUES. Keys outside the
    table are untouched and the table stays well formed. *)
Theorem insert_refines {E I} `{KVEngineLaws E I} t e a at_ q fuel e' r :
  table_ok t -> table_rel t e a -> Forall (Forall value_wf) (ins_values q) ->
  execute fuel (InsertPlan at_ q) t e = (e', r) ->
  exists n st a', insert_run t (ins_columns q) (ins_values q) a n st a' /\ table_rel t e' a' /\ frame t e e' /\
  match r with
  | Ok rc => st = EX_OK /\ n = N.of_nat (length (ins_values q)) /\ rc_affected_rows rc = n
  | Err c => st = c /\ c <> EX_OK
  end.
Proof. apply insert_executes. Qed.

(** ** Examples on the in-memory engine *)

Definition demo_delete : DeleteQuery :=
  mkDelete (schema_name demo_schema)
    (Some (CompareCondition (identifier (bytes_of_string "id")) LE (VInt I_INT 2))).

Definition ran_ok {A B} (r : A * result ExecErrorCode B) : bool :=
  match r with (_, Ok _) => true | _ => false end.

Definition optimized_or_empty (q : Query) : OptimizedQuery :=
  match optimize (fun _ => false) (with_db demo_db demo_catalog2) q with
  | Ok o => o
  | Err _ => mkOptimized q empty_identifier empty_identifier empty_identifier UNKNOWN_TYPE [] [] None
  end.
Definition plan_or_ddl (q : OptimizedQuery) : PlanNode := match plan q with Ok p => p | Err _ => DdlPlan (oq_at q) (oq_query q) end.
Definition demo_delete_optimized : OptimizedQuery := optimized_or_empty (QDelete demo_delete).
Definition demo_delete_plan : PlanNode := plan_or_ddl demo_delete_optimized.

Lemma delete_exact_witness :
  exists e' rc, execute 10 demo_delete_plan demo_table demo_users = (e', Ok rc) /\
    table_rows demo_table (kv_view e') =
      [[VInt I_BIGINT 3; VStr S_VARCHAR (bytes_of_string "c"); VInt I_DATE 19000]] /\
    rc_affected_rows rc = 2%N.
Proof.
  destruct demo_users_rel as [a Hrel].
  assert (Hrun : ran_ok (execute 10 demo_delete_plan demo_table demo_users) = true) by (vm_compute; reflexivity).
  destruct (execute 10 demo_delete_plan demo_table demo_users) as [e' r] eqn:Ex.
  destruct r as [rc|]; [|discriminate Hrun].
  destruct (delete_exact demo_table demo_users a (fun _ => false) (with_db demo_db demo_catalog2) demo_delete
    demo_delete_optimized demo_delete_plan 10 e' (Ok rc)) as (_ & _ & Hrows & Haff); [..|exact Ex|].
  - apply demo_table_ok.
  - exact Hrel.
  - vm_compute. discriminate.
  - intros r asc. apply idle_scannable. vm_compute. reflexivity.
  - vm_compute. reflexivity.
  - vm_compute. reflexivity.
  - vm_compute. split; reflexivity.
  - clear. vm_compute. intuition discriminate.
  - intros row Hrow. repeat constructor; intros w Hw; vm_compute in Hw; injection Hw as <-; reflexivity.
  - vm_compute. reflexivity.
  - vm_compute. reflexivity.
  - vm_compute. lia.
  - exists e', rc. split; [reflexivity|].
    split; [rewrite Hrows; vm_compute; reflexivity|]. rewrite Haff. vm_compute. reflexivity.
Defined.

Definition demo_insert : InsertQuery :=
  mkInsert (schema_name demo_schema) [identifier (bytes_of_string "born"); identifier (bytes_of_string "id")]
    [[VInt I_DATE 1; VInt I_INT 9]; [VInt I_DATE 2; VInt I_INT 3]].

Definition demo_at : Identifier * Identifier := (demo_db, schema_name demo_schema).

Lemma insert_refines_witness :
  exists e' n a a', execute 1 (InsertPlan demo_at demo_insert) demo_table demo_users = (e', Err EX_CONSTRAINT_VIOLATION) /\
    table_rel demo_table e' a' /\
    insert_run demo_table (ins_columns demo_insert) (ins_values demo_insert) a n EX_CONSTRAINT_VIOLATION a'.
Proof.
  destruct demo_users_rel as [a Hrel].
  destruct (execute 1 (InsertPlan demo_at demo_insert) demo_table demo_users) as [e' r] eqn:Ex.
  assert (Hcode : match (execute 1 (InsertPlan demo_at demo_insert) demo_table demo_users).2 with
                  | Ok _ => EX_OK | Err c => c end = EX_CONSTRAINT_VIOLATION) by (vm_compute; reflexivity).
  rewrite Ex in Hcode. destruct r as [rc|c]; [discriminate Hcode|]. simpl in Hcode. subst c.
  destruct (insert_refines demo_table demo_users a demo_at demo_insert 1 e' (Err EX_CONSTRAINT_VIOLATION))
    as (n & st & a' & Hrun & Hrel' & _ & Hst & _); [apply demo_table_ok|exact Hrel| |exact Ex|].
  - apply (bool_decide_eq_true_1 _). vm_compute. reflexivity.
  - exists e', n, a, a'. split; [reflexivity|]. split; [exact Hrel'|]. rewrite <- Hst. exact Hrun.
Defined.
