(* ===== verification/LiveScan.v ===== *)
(** * A scan that is read while the table is written

    [UpdateExecutor] writes each row back before it asks its child for the next.
    The child then runs on an engine that has changed since it was opened, but
    only at keys it has already passed: [live last e'] says that [e'] still holds
    the rows after [last] as they were. Scans and filters return the same rows on
    such engines as on the one they were opened on. An iterator that is open keeps
    the rows it was opened on: the sources hand out snapshots of the store, and
    [SharedBuffer] shows that the transaction buffer, which is read through a
    pointer, may be written behind the iterator. *)

From stdpp Require Import sorting.
From S2P Require Import Prelude Bytes OMap KvTypes KvApi SqlTypes KeyCodec SqlTruth SqlKeyRange Schema RowCodec Table TableSpec TableScan Optimizer Planner Executor Execute ExecutorSpec RowOrder PlanRanges ScanSpec SelectSpec.
Local Open Scope Z_scope.

Lemma value_ltb_trans a b c : value_ltb a b = true -> value_ltb b c = true -> value_ltb a c = true.
Proof.
  destruct a as [|? x|x|? x], b as [|? y|y|? y], c as [|? z|z|? z]; simpl; try done; rewrite ?Z.ltb_lt; try lia;
    [by destruct x, y, z|apply bytes_ltb_trans].
Qed.

(** Filtering by what implies a first filter. *)
Lemma filter_within {A} (P Q : A -> bool) (l : list A) : (forall x, x ∈ l -> P x = true -> Q x = true) ->
  filter (fun x => P x = true) (filter (fun x => Q x = true) l) = filter (fun x => P x = true) l.
Proof.
  intros H. rewrite list_filter_filter. apply filter_ext_in. intros x Hx. split; [by intros [? ?]|]. intros HP. auto.
Qed.

Section live.
Context {E I : Type} `{KVEngineLaws E I}.
Context (t : Table) (Ht : table_ok t) (e : E) (He : kv_ready e) (Hi : table_inv t (kv_view e)).
Abbreviation ty := (primary_key_type_ t).
Abbreviation rows := (table_rows t (kv_view e)).
Context (Htag : tag_of ty <> kTagNull).
Context (Hscan : forall r asc, kv_scannable e (physical_range t r asc)).

Definition after (last : option Row) (row : Row) : bool :=
  match last with None => true | Some l => value_ltb (primary_key_of t l) (primary_key_of t row) end.

Record live (last : option Row) (e' : E) : Prop := {
  lv_ready : kv_ready e';
  lv_inv : table_inv t (kv_view e');
  lv_scannable : forall r asc, kv_scannable e' (physical_range t r asc);
  lv_rows : filter (fun row => after last row = true) (table_rows t (kv_view e')) =
            filter (fun row => after last row = true) rows }.

Lemma live_start : live None e.
Proof. by split. Qed.

Lemma live_later last row e' : live last e' -> after last row = true -> live (Some row) e'.
Proof.
  intros [H1 H2 H3 H4] Hrow. split; try done.
  assert (Hsub : forall l : list Row, filter (fun r => after (Some row) r = true) (filter (fun r => after last r = true) l) =
    filter (fun r => after (Some row) r = true) l).
  { intros l. apply filter_within. intros x _ Hx. destruct last as [r0|]; [|done]. by eapply value_ltb_trans. }
  by rewrite <- (Hsub (table_rows t (kv_view e'))), H4, Hsub.
Qed.

(** ** Streams on a changing engine *)

Section streams.
Context {X : Type} `{!Executor E X}.

Fixpoint yields_live (fuel : nat) (last : option Row) (x : X) (out : list Row) : Prop :=
  forall e', live last e' ->
  match out with
  | [] => exists x', x_next fuel e' x = (x', Err CE_END)
  | row :: rest => exists x', x_next fuel e' x = (x', Ok row) /\ yields_live fuel (Some row) x' rest
  end.

Definition runs_live (fuel : nat) (x : X) (out : list Row) : Prop :=
  exists x', x_open fuel e x = (e, x', EX_OK) /\ yields_live fuel None x' out.
End streams.

Fixpoint increasing (last : option Row) (out : list Row) : Prop :=
  match out with [] => True | row :: rest => after last row = true /\ increasing (Some row) rest end.

Lemma sorted_increasing l : StronglySorted (fun a b => value_ltb (primary_key_of t a) (primary_key_of t b) = true) l ->
  forall last, Forall (fun row => after last row = true) l -> increasing last l.
Proof.
  induction 1 as [|row l _ IH Hf]; intros last Hl; [done|]. apply Forall_cons in Hl as [Hr _]. split; [done|]. by apply IH.
Qed.

Lemma increasing_filter (P : Row -> bool) l last last' : increasing last l ->
  (forall row, after last row = true -> after last' row = true) -> increasing last' (filter (fun row => P row = true) l).
Proof.
  revert last last'. induction l as [|row l IH]; intros last last' Hl Hle; [done|]. destruct Hl as [Hr Hl].
  rewrite filter_cons. destruct (P row); simpl.
  - split; [by apply Hle|]. by apply (IH (Some row)).
  - apply (IH (Some row)); [done|]. intros y Hy. apply Hle. destruct last as [r0|]; [|done]. by eapply value_ltb_trans.
Qed.

Lemma pack_live fuel X (ops : Executor E X) (x : X) out : runs_live fuel x out -> runs_live fuel (Pack X x) out.
Proof.
  intros (x' & Ho & Hy). exists (Pack X x'). split; [simpl; by rewrite Ho|]. clear Ho. revert x' Hy. generalize (@None Row).
  induction out as [|row out IH]; intros last x' Hy e' Hl; specialize (Hy e' Hl).
  - destruct Hy as (x1 & Hn). exists (Pack X x1). simpl. by rewrite Hn.
  - destruct Hy as (x1 & Hn & Hy). exists (Pack X x1). split; [simpl; by rewrite Hn|by apply IH].
Qed.

Lemma unpack_live fuel X (ops : Executor E X) (x : X) out : runs_live fuel (Pack X x) out -> runs_live fuel x out.
Proof.
  intros (x' & Ho & Hy). simpl in Ho. destruct (x_open fuel e x) as [[e1 s1] st] eqn:E1. injection Ho as -> <- ->.
  exists s1. split; [done|]. clear E1. revert s1 Hy. generalize (@None Row).
  induction out as [|row out IH]; intros last s1 Hy e' Hl; specialize (Hy e' Hl); simpl in Hy;
    destruct (x_next fuel e' s1) as [s2 r].
  - destruct Hy as (x1 & [= _ ->]). by eexists.
  - destruct Hy as (x1 & [= <- ->] & Hy). exists s2. split; [done|by apply IH].
Qed.

(** *** Filter *)

Lemma filter_yields_live {X} `{!Executor E X} fuel c out : (length out < fuel)%nat -> forall last (x : X),
  increasing last out -> yields_live fuel last x out ->
  yields_live fuel last (mkFilter c t x) (filter (fun row => filter_keeps t c row = true) out).
Proof.
  intros Hfuel.
  enough (Hloop : forall n out, length out = n -> (n < fuel)%nat -> forall turns last x e', (n < turns)%nat ->
    increasing last out -> yields_live fuel last x out -> live last e' ->
    match filter (fun row => filter_keeps t c row = true) out with
    | [] => exists x', fx_next_loop turns fuel e' (mkFilter c t x) = (mkFilter c t x', Err CE_END)
    | row :: kept => exists x', fx_next_loop turns fuel e' (mkFilter c t x) = (mkFilter c t x', Ok row) /\
        yields_live fuel (Some row) (mkFilter c t x') kept
    end).
  { intros last x Hinc Hy. pose proof (fun e' Hl => Hloop _ out eq_refl Hfuel fuel last x e' Hfuel Hinc Hy Hl) as Hn.
    clear -Hn. destruct (filter _ out) as [|row kept]; intros e' Hl; destruct (Hn e' Hl) as (x' & Hx); eauto. }
  clear out Hfuel. induction n as [|n IH]; intros out Hout Hf turns last x e' Ht' Hinc Hy Hl;
    (destruct turns as [|turns]; [lia|]); destruct out as [|row out]; try done; cbn [fx_next_loop fx_child].
  - destruct (Hy e' Hl) as (x1 & ->). cbn. by eexists.
  - injection Hout as Hout. destruct Hinc as [Hrow Hinc]. destruct (Hy e' Hl) as (x1 & -> & Hy1).
    rewrite filter_cons. unfold with_fx_child. cbn [fx_table fx_condition].
    pose proof (live_later last row e' Hl Hrow) as Hl1. destruct (filter_keeps t c row) eqn:Ek; simpl.
    + exists x1. split; [done|].
      pose proof (fun e2 Hl2 => IH out Hout ltac:(lia) fuel (Some row) x1 e2 ltac:(lia) Hinc Hy1 Hl2) as Hn.
      clear -Hn. destruct (filter _ out) as [|row' kept]; intros e2 Hl2; destruct (Hn e2 Hl2) as (x' & Hx); eauto.
    + by apply (IH out Hout ltac:(lia) turns (Some row) x1 e' ltac:(lia)).
Qed.

Lemma filter_runs_live {X} `{!Executor E X} fuel c (x : X) out : runs_live fuel x out -> increasing None out ->
  (length out < fuel)%nat -> runs_live fuel (mkFilter c t x) (filter (fun row => filter_keeps t c row = true) out).
Proof.
  intros (x' & Ho & Hy) Hinc Hf. exists (mkFilter c t x'). split; [simpl; unfold fx_open; simpl; by rewrite Ho|].
  by apply filter_yields_live.
Qed.

(** *** Scan *)

Lemma all_scannable rs : Forall (fun r => kv_scannable e (physical_range t r true)) rs.
Proof. by apply Forall_forall. Qed.

Section scan.
Context (ranges : list KeyRange) (exclude : list Value) (key : Value).
Context (Hok : Forall (range_ok ty) ranges) (Hasc : ascending ranges).
Context (Hne : (length ranges <= 1)%nat \/ Forall (fun r => kr_is_empty r = false) ranges).
Abbreviation visit := (visit ranges true).

(** The ranges still to be opened lie after [last]. *)
Definition beyond (last : option Row) (index : nat) : Prop :=
  forall r row, r ∈ drop (S index) visit -> row_ok t row -> in_range t r row = true -> after last row = true.

Lemma ranges_separated i j a b : (i < j)%nat -> visit !! i = Some a -> visit !! j = Some b -> separated a b.
Proof.
  change visit with ranges. clear Hok. revert i j Hasc Hne. induction ranges as [|r rs IH]; intros i j Ha Hn Hij Hi0 Hj0; [done|].
  destruct Hn as [Hn|Hn]; [destruct rs; [|simpl in Hn; lia]; destruct j; [lia|done]|].
  apply Forall_cons in Hn as [_ Hn].
  destruct j as [|j]; [lia|]. simpl in Hj0. destruct i as [|i].
  - injection Hi0 as ->. pose proof (ascending_head a rs Hn Ha) as Hs. eapply Forall_forall in Hs; [done|].
    by eapply list_elem_of_lookup_2.
  - simpl in Hi0. apply (IH i j); try done; [by destruct rs; [done|apply Ha]|by right|lia].
Qed.

Lemma beyond_row index row l : at_range t e ranges true index (row :: l) -> beyond (Some row) index.
Proof.
  intros (a & Ha & Hin) b y Hb Hy Hyb. apply list_elem_of_lookup in Hb as (k & Hk). rewrite lookup_drop in Hk.
  assert (Hrow : row ∈ range_rows t (kv_view e) a) by (apply Hin; by left).
  apply list_elem_of_filter in Hrow as [Hra Hrow].
  assert (Hr : row_ok t row) by by apply (rows_ok t Ht (kv_view e) (kv_view_sorted e He) Hi).
  simpl. apply (separated_rows t Ht a b y row); try done.
  - eapply Forall_lookup_1; [exact Hok|exact Ha].
  - eapply Forall_lookup_1; [exact Hok|exact Hk].
  - eapply ranges_separated; [|exact Ha|exact Hk]. lia.
Qed.

Lemma live_stable last index e' : live last e' -> beyond last index -> stable t e ranges true (S index) e'.
Proof.
  intros [H1 H2 H3 H4] Hb. split; try done. intros r Hr. unfold range_rows.
  assert (Hsub : forall e0, kv_ready e0 -> table_inv t (kv_view e0) ->
    filter (fun row => in_range t r row = true) (filter (fun row => after last row = true) (table_rows t (kv_view e0))) =
    filter (fun row => in_range t r row = true) (table_rows t (kv_view e0))).
  { intros e0 Hr0 Hi0. apply filter_within. intros row Hrow. apply (Hb r row Hr).
    by apply (rows_ok t Ht (kv_view e0) (kv_view_sorted e0 Hr0) Hi0). }
  by rewrite <- (Hsub e' H1 H2), H4, Hsub.
Qed.

Abbreviation visited := (visited_rows t e true).

Lemma scanning_live fuel kept : forall index c here last,
  let rest := here ++ flat_map visited (drop (S index) visit) in
  shows t c here -> at_range t e ranges true index here -> beyond last index ->
  (length rest + (length ranges - index) < fuel)%nat ->
  filter (fun row => wanted_row t exclude row = true) rest = kept ->
  yields_live fuel last (scanning t ranges exclude true key index (Some c)) kept.
Proof.
  induction kept as [|row kept IH]; intros index c here last rest Hs Hat Hb Hf Hk e' Hl;
    pose proof (next_loop_spec t Ht e Htag ranges exclude true key Hok (all_scannable ranges) e' fuel index c here rest
      (live_stable last index e' Hl Hb) Hs Hat eq_refl Hf) as Hn; rewrite Hk in Hn.
  - destruct Hn as (s & Hn). by exists s.
  - destruct Hn as (i' & c' & h' & Hn & Hs' & Hat' & Hle & Hlen & Hk'). eexists. split; [exact Hn|].
    apply (IH i' c' h'); try done; [|by eapply beyond_row|lia].
    destruct Hat' as (r & Hv & Hin). exists r. split; [done|]. intros y Hy. apply Hin. by right.
Qed.
End scan.

Lemma scan_runs_live ranges exclude fuel :
  Forall (range_ok ty) ranges -> ascending ranges ->
  (length ranges <= 1)%nat \/ Forall (fun r => kr_is_empty r = false) ranges ->
  (length (flat_map (visited_rows t e true) (visit ranges true)) + length ranges < fuel)%nat ->
  runs_live fuel (fresh_scan (I:=I) t ranges exclude true) (scan_result t e ranges exclude true).
Proof.
  intros Hok Hasc Hne Hf. destruct (scan_open_cases t Ht e He Hi ranges exclude true fuel Hok) as (s' & Ho & Hcase).
  exists s'. split; [done|]. destruct Hcase as [-> |[(k & row & -> & ->)|(k & -> & ->)]].
  - unfold range_start, opened_scan.
    change (sx_open_range 0 e ?s) with (open_range (length ranges - 0) 0 e s).
    destruct (open_range_spec t Ht e Htag ranges exclude true VNull Hok
      (all_scannable ranges) e (length ranges - 0) 0 0 None) as [[-> Hfl]|(i & c & r & -> & Hle & Hv & Hs & Hfl)];
      [apply stable_refl; try done; apply all_scannable|done|..]; rewrite drop_0 in Hfl.
    + unfold scan_result. rewrite Hfl. intros e' _. by eexists.
    + apply (scanning_live ranges exclude VNull Hok Hasc Hne fuel _ i c (visited_rows t e true r)); [done|by apply at_range_visited|done| |];
        rewrite <- Hfl; [lia|done].
  - intros e' Hl. eexists. split; [done|]. intros e2 _. by eexists.
  - intros e' _. by eexists.
Qed.

(** *** The chain under an UPDATE *)

Lemma chain_live fuel q w : optimized_ok t e q w -> (length rows + length (oq_ranges q) < fuel)%nat ->
  exists X (ops : Executor E X) (x : X), create (build_scan_chain q true) t = Ok (Pack X x) /\
    runs_live fuel x (where_rows t w rows) /\ increasing None (where_rows t w rows).
Proof.
  intros Hq Hf.
  destruct (chain_selects t Ht e He Hi (fun x out => runs_live fuel x out /\ increasing None out) true (length (oq_ranges q)))
    with (q := q) (w := w) as ([X ops x] & Hx & [Hr Hinc] & _); try done.
  - intros rs exclude Hok Hne Ha Hl. split.
    + apply pack_live, scan_runs_live; try done. pose proof (visited_bound t Ht e He Hi rs true Hok Hne Ha). lia.
    + rewrite (scan_result_rows t Ht e He Hi rs exclude true Hok Hne Ha). simpl.
      eapply (increasing_filter _ _ None None); [|done]. eapply (increasing_filter _ _ None None); [|done].
      apply sorted_increasing; [by apply (rows_sorted t Ht _ (kv_view_sorted e He) Hi)|by apply Forall_true].
  - intros X ops x c out [Hr%unpack_live Hinc] Hl. split; [apply pack_live, filter_runs_live; try done; lia|].
    by eapply (increasing_filter _ _ None None).
  - exists X, ops, x. split; [done|]. split; [by apply unpack_live|done].
Qed.
End live.
