(* ===== verification/UpdateSpec.v ===== *)
(** * UPDATE does what SQL asks for

    [UpdateExecutor] of [executor/executor.cpp] over any storage engine that
    satisfies the laws of [KvApi]: the rows the WHERE condition keeps are replaced
    one after the other, in the order of their keys, while they are scanned. *)

From stdpp Require Import sorting.
From S2P Require Import Prelude Bytes OMap KvTypes Transactions KvApi SqlTypes KeyCodec SqlTruth SqlKeyRange Rewriter Schema RowCodec KeyPrefix Table TableSpec TableScan Catalog CatalogSpec Optimizer Planner Executor Execute ExecutorSpec RowOrder PlanRanges ScanSpec SelectSpec DmlSpec LiveScan.
Local Open Scope Z_scope.

Lemma value_ltb_payload a a' b b' : same_payload a a' -> same_payload b b' -> value_ltb a b = value_ltb a' b'.
Proof. destruct a, a'; simpl; try done; intros Ha; destruct b, b'; simpl; try done; intros Hb; by subst. Qed.

Lemma same_payload_trans a b c : same_payload a b -> same_payload b c -> same_payload a c.
Proof. destruct a, b; simpl; try done; intros Ha; destruct c; simpl; try done; intros Hb; by subst. Qed.

(** ** What SET makes of a row *)

(** The checks of one row: columns of the table, a valid row, the same key. *)
Definition new_row_check (t : Table) (row row' : Row) : result ExecErrorCode Row :=
  if bool_decide (validate_row (schema_ t) row' = SE_OK) then
    if value_eqb (primary_key_of t row') (primary_key_of t row) then Ok (stored t row') else Err EX_INVALID_ARGUMENT
  else Err EX_SCHEMA_ERROR.
Definition set_row (t : Table) (assignments : list (Identifier * Value)) (row : Row) : result ExecErrorCode Row :=
  match assign (schema_ t) assignments row with
  | Ok row' => new_row_check t row row'
  | Err _ => Err EX_INVALID_ARGUMENT
  end.

(** The rows of the table with those of [chosen] replaced. *)
Definition set_or_keep (t : Table) (assignments : list (Identifier * Value)) (row : Row) : Row :=
  match set_row t assignments row with Ok row' => row' | Err _ => row end.
Definition replace_rows (t : Table) (assignments : list (Identifier * Value)) (chosen rows : list Row) : list Row :=
  map (fun row => if decide (row ∈ chosen) then set_or_keep t assignments row else row) rows.

Section update.
Context {E I : Type} `{KVEngineLaws E I}.
Context (t : Table) (Ht : table_ok t).

Definition swap (row row' x : Row) : Row := if decide (x = row) then row' else x.

(** Replacing a row by one with the same key keeps the order. *)
Lemma swap_sorted row row' l : same_payload (primary_key_of t row') (primary_key_of t row) ->
  StronglySorted (fun a b => pk_less t a b = true) l ->
  StronglySorted (fun a b => pk_less t a b = true) (map (swap row row') l).
Proof.
  intros Hp. assert (Hpk : forall x, same_payload (primary_key_of t (swap row row' x)) (primary_key_of t x)).
  { intros x. unfold swap. case_decide as Hx; [by subst|apply same_payload_refl]. }
  induction 1 as [|x l _ IH Hf]; [constructor|]. cbn [map]. constructor; [done|]. apply Forall_map.
  eapply Forall_impl; [exact Hf|]. intros y Hy. unfold pk_less in *. by rewrite (value_ltb_payload _ _ _ _ (Hpk x) (Hpk y)).
Qed.

Lemma checked_payload row row' new : row_ok t row -> Forall value_wf row' -> new_row_check t row row' = Ok new ->
  row_ok t row' /\ new = stored t row' /\ row_ok t new /\ same_payload (primary_key_of t new) (primary_key_of t row).
Proof.
  intros Hr Hw. unfold new_row_check. case_bool_decide as Hv; [|done]. destruct (value_eqb _ _) eqn:Eq; [|done].
  intros [= <-]. apply value_eqb_payload in Eq.
  assert (Hrow : row_ok t row') by (split; [done|done|rewrite (is_null_payload _ _ Eq); apply Hr]).
  split; [done|]. split; [done|]. split; [by apply stored_ok|]. rewrite stored_pk by done.
  eapply same_payload_trans; [apply same_payload_sym, retype_payload|done].
Qed.

(** A row under the key of another, in the list of rows. *)
Lemma put_rows e a row new e1 : table_rel t e a -> row ∈ table_rows t (kv_view e) -> row_ok t new ->
  same_payload (primary_key_of t new) (primary_key_of t row) -> table_rel t e1 (amap_set (primary_key_of t row) new a) ->
  table_rows t (kv_view e1) = map (swap row new) (table_rows t (kv_view e)).
Proof.
  intros Hrel Hin Hnew Hp Hrel1. pose proof Hrel as [He Hi Ha]. pose proof (kv_view_sorted e He) as Hs.
  pose proof (rows_ok t Ht _ Hs Hi row Hin) as Hrow. pose proof Hrel1 as [He1 Hi1 Ha1].
  pose proof (kv_view_sorted e1 He1) as Hs1.
  assert (Habs : forall x, row_ok t x -> abs t (kv_view e1) (primary_key_of t x) =
    if decide (same_payload (primary_key_of t x) (primary_key_of t row)) then Some new
    else abs t (kv_view e) (primary_key_of t x)).
  { intros x Hx. pose proof (pk_wf t x (ro_wf _ _ Hx)) as Wx. rewrite <- (Ha1 _ Wx (ro_pk _ _ Hx)). unfold amap_set.
    case_decide; [done|]. apply (Ha _ Wx (ro_pk _ _ Hx)). }
  apply (table_rows_eq t Ht); [done|done|by apply swap_sorted, (rows_sorted t Ht _ Hs Hi)|].
  intros x. rewrite (decode_rows_elem t Ht _ x Hs1 Hi1). rewrite list_elem_of_In, in_map_iff. setoid_rewrite <- list_elem_of_In.
  split.
  - intros [Hx Hax]. rewrite (Habs x Hx) in Hax. case_decide as Hd.
    + injection Hax as <-. exists row. split; [|done]. unfold swap. by rewrite decide_True.
    + exists x. split; [|by apply (decode_rows_elem t Ht _ x Hs Hi)]. unfold swap. rewrite decide_False; [done|].
      intros ->. apply Hd, same_payload_refl.
  - intros (y & <- & Hy). unfold swap. case_decide as Hyr.
    + split; [done|]. rewrite (Habs _ Hnew). by rewrite decide_True.
    + pose proof Hy as [Hyok Hya]%(decode_rows_elem t Ht _ y Hs Hi). split; [done|]. rewrite (Habs y Hyok).
      rewrite decide_False; [done|]. intros Hsame. apply Hyr. apply (same_key_same_row t Ht (kv_view e)); try done.
      apply (encode_key_inj t); try done; [apply pk_wf, Hyok|apply pk_wf, Hrow|apply Hyok|apply Hrow].
Qed.

(** One row written back: done, refused by a check, or refused by the storage. *)
Lemma update_one e a row row' e' r : table_rel t e a -> row ∈ table_rows t (kv_view e) -> Forall value_wf row' ->
  update_row t (primary_key_of t row) row' e = (e', r) ->
  frame t e e' /\ (exists a', table_rel t e' a') /\ (forall rng, kv_scannable e rng -> kv_scannable e' rng) /\
  match r with
  | Ok _ => exists new, new_row_check t row row' = Ok new /\
      table_rows t (kv_view e') = map (swap row new) (table_rows t (kv_view e))
  | Err c => kv_view e' = kv_view e /\
      (new_row_check t row row' = Err (to_exec_error (to_cursor_error c)) \/
       c = RE_KV_ERROR /\ exists new, new_row_check t row row' = Ok new)
  end.
Proof.
  intros Hrel Hin Hw. pose proof Hrel as [He Hi _]. pose proof (kv_view_sorted e He) as Hs.
  pose proof (rows_ok t Ht _ Hs Hi row Hin) as Hrow. unfold update_row, new_row_check. rewrite (ro_pk _ _ Hrow).
  destruct (decide (validate_row (schema_ t) row' = SE_OK)) as [Hv|Hv].
  2:{ rewrite bool_decide_eq_false_2 by done. intros Hu.
      assert ((e', r) = (e, Err RE_SCHEMA_ERROR)) as [= -> ->] by (rewrite <- Hu; by destruct (validate_row (schema_ t) row')).
      split; [apply frame_refl|]. split; [by exists a|]. split; [done|]. by split; [|left]. }
  rewrite Hv, bool_decide_eq_true_2 by done.
  destruct (value_eqb (primary_key_of t row') (primary_key_of t row)) eqn:Eq; cbn [negb].
  2:{ intros [= <- <-]. split; [apply frame_refl|]. split; [by exists a|]. split; [done|]. by split; [|left]. }
  assert (Hc : new_row_check t row row' = Ok (stored t row')).
  { unfold new_row_check. by rewrite bool_decide_eq_true_2, Eq. }
  destruct (checked_payload row row' _ Hrow Hw Hc) as (Hrow' & _ & Hnew & Hp). apply value_eqb_payload in Eq.
  destruct (kv_put _ _ e) as [e1 st] eqn:Ep. pose proof (pk_wf t row (ro_wf _ _ Hrow)) as Wp.
  destruct (put_step t Ht _ _ _ _ _ _ Hrel Hrow' Wp Eq Ep) as [Hf Hrel1]. intros Hu.
  assert (e' = e1 /\ r = if bool_decide (st = StOK) then Ok tt else Err RE_KV_ERROR) as [-> ->] by (destruct st; by simplify_eq).
  split; [done|]. split; [by eexists|]. split; [intros rng; by apply (kv_put_scannable _ _ _ _ _ _ He Ep)|].
  case_bool_decide as Hst.
  - exists (stored t row'). split; [done|]. by eapply put_rows.
  - split; [|right; eauto]. destruct (kv_put_view _ _ _ _ _ He Ep) as [_ Hv1]. by rewrite bool_decide_eq_false_2 in Hv1.
Qed.

(** ** The loop *)

Section loop.
Context (e : E) (He : kv_ready e) (Hi : table_inv t (kv_view e)).
Context (assignments : list (Identifier * Value)) (Hasg : Forall (fun p => value_wf p.2) assignments).
Abbreviation after := (after t).
Abbreviation live := (live t e).
Abbreviation replaced := (replace_rows t assignments).

Lemma increasing_after l : forall last, increasing t last l -> Forall (fun row => after last row = true) l.
Proof.
  induction l as [|row l IH]; intros last Hl; [done|]. destruct Hl as [Hr Hl]. constructor; [done|].
  eapply Forall_impl; [by apply IH|]. intros y Hy. destruct last as [r0|]; [|done]. by eapply value_ltb_trans.
Qed.

Lemma value_ltb_irrefl v : value_ltb v v = false.
Proof. destruct v as [|? x|[]|? x]; simpl; try done; [apply Z.ltb_irrefl|apply bytes_ltb_irrefl]. Qed.

(** The row written back lies behind the scan. *)
Lemma written_passed row new : same_payload (primary_key_of t new) (primary_key_of t row) -> after (Some row) new = false.
Proof. intros Hp. simpl. rewrite (value_ltb_payload _ _ _ _ (same_payload_refl _) Hp). apply value_ltb_irrefl. Qed.

Lemma filter_swap row new l : same_payload (primary_key_of t new) (primary_key_of t row) ->
  filter (fun x => after (Some row) x = true) (map (swap row new) l) = filter (fun x => after (Some row) x = true) l.
Proof.
  intros Hp. induction l as [|x l IH]; [done|]. cbn [map]. rewrite !filter_cons, IH.
  assert (swap row new x = if decide (x = row) then new else x) as -> by done.
  destruct (decide (x = row)) as [->|Hx]; [|done].
  rewrite (written_passed row new Hp), (written_passed row row (same_payload_refl _)). done.
Qed.

Lemma live_written last row new e1 e2 a2 : live last e1 -> after last row = true -> table_rel t e2 a2 ->
  (forall rng, kv_scannable e1 rng -> kv_scannable e2 rng) ->
  same_payload (primary_key_of t new) (primary_key_of t row) ->
  table_rows t (kv_view e2) = map (swap row new) (table_rows t (kv_view e1)) -> live (Some row) e2.
Proof.
  intros Hl Hrow [He2 Hi2 _] Hsc Hp Hrows. apply (live_later t e last row e1 Hl) in Hrow as [_ _ H3 H4].
  split; [done|done|auto|]. by rewrite Hrows, filter_swap.
Qed.

Lemma replace_nil l : replaced [] l = l.
Proof.
  unfold replace_rows. rewrite <- (map_id l) at 2. apply map_ext. intros x. by rewrite decide_False by apply not_elem_of_nil.
Qed.

Lemma replace_cons row new rest l : set_row t assignments row = Ok new ->
  same_payload (primary_key_of t new) (primary_key_of t row) -> increasing t (Some row) rest ->
  replaced rest (map (swap row new) l) = replaced (row :: rest) l.
Proof.
  intros Hset Hp Hinc. unfold replace_rows. rewrite map_map. apply map_ext. intros x. unfold swap.
  destruct (decide (x = row)) as [->|Hne].
  - rewrite (decide_True _ _ (list_elem_of_here row rest)). unfold set_or_keep. rewrite Hset, decide_False; [done|].
    intros Hin. eapply Forall_forall in Hin; [|by apply increasing_after in Hinc]. simpl in Hin.
    by rewrite (value_ltb_payload _ _ _ _ (same_payload_refl _) Hp), value_ltb_irrefl in Hin.
  - destruct (decide (x ∈ rest)) as [Hx|Hx].
    + by rewrite decide_True by by right.
    + rewrite decide_False; [done|]. by intros [?|?]%elem_of_cons.
Qed.

(** What the rows of the loop come to: all written back, or those before the
    first that is refused. *)
Definition updated (todo l l' : list Row) (st : ExecErrorCode) : Prop :=
  st = EX_OK /\ Forall (fun row => exists new, set_row t assignments row = Ok new) todo /\ l' = replaced todo l \/
  exists done_ row rest, todo = done_ ++ row :: rest /\ l' = replaced done_ l /\
    (set_row t assignments row = Err st \/ st = EX_IO_ERROR /\ exists new, set_row t assignments row = Ok new).

Lemma updated_cons row new todo l l' st : set_row t assignments row = Ok new ->
  same_payload (primary_key_of t new) (primary_key_of t row) -> increasing t (Some row) todo ->
  updated todo (map (swap row new) l) l' st -> updated (row :: todo) l l' st.
Proof.
  intros Hset Hp Hinc [(-> & Hall & ->)|(done_ & r & rest & -> & -> & Hr)].
  - left. split; [done|]. split; [constructor; eauto|]. by apply replace_cons.
  - right. exists (row :: done_), r, rest. split; [done|]. split; [|done]. apply replace_cons; try done.
    clear -Hinc. revert Hinc. generalize (Some row). induction done_ as [|y done_ IH]; [done|].
    intros last [Hy Hl]. split; [done|]. by apply IH.
Qed.

Section child.
Context {X : Type} `{!Executor E X}.

Lemma update_rows fuel todo : forall turns ek a last (x : UpdateExecutor (X:=X)) e' x' st,
  ux_table x = t -> ux_assignments x = assignments -> table_rel t ek a -> live last ek ->
  yields_live t e fuel last (ux_child x) todo -> increasing t last todo ->
  (forall row, row ∈ todo -> row ∈ table_rows t (kv_view e)) -> (length todo < turns)%nat ->
  ux_loop turns fuel ek x = (e', x', st) ->
  frame t ek e' /\ (exists a', table_rel t e' a') /\
  updated todo (table_rows t (kv_view ek)) (table_rows t (kv_view e')) st /\
  (st = EX_OK -> wr_affected (ux_state x') = (wr_affected (ux_state x) + N.of_nat (length todo))%N).
Proof.
  induction todo as [|row todo IH]; intros turns ek a last x e' x' st Hxt Hxa Hrel Hl Hy Hinc Hin Hturns Hloop;
    (destruct turns as [|turns]; [simpl in Hturns; lia|]); cbn [ux_loop] in Hloop.
  { destruct (Hy ek Hl) as (c & Hn). rewrite Hn in Hloop. injection Hloop as <- <- <-.
    split; [apply frame_refl|]. split; [by exists a|]. split; [|simpl; lia]. left. by rewrite replace_nil. }
  destruct (Hy ek Hl) as (c & Hn & Hy1). rewrite Hn in Hloop. unfold with_ux, set_columns in Hloop. simpl in Hloop.
  rewrite Hxt, Hxa in Hloop. destruct Hinc as [Hrow Hinc].
  assert (Hrk : row ∈ table_rows t (kv_view ek)).
  { assert (Hr0 : row ∈ filter (fun r => after last r = true) (table_rows t (kv_view ek))).
    { rewrite (lv_rows _ _ _ _ Hl). apply list_elem_of_filter. split; [done|]. apply Hin. by left. }
    by apply list_elem_of_filter in Hr0 as [_ ?]. }
  pose proof Hrel as [Hek Hik _]. pose proof (rows_ok t Ht _ (kv_view_sorted ek Hek) Hik row Hrk) as Hok.
  rewrite (ro_pk _ _ Hok) in Hloop.
  assert (Hset : set_row t assignments row = match assign (schema_ t) assignments row with
    | Ok row' => new_row_check t row row' | Err _ => Err EX_INVALID_ARGUMENT end) by done.
  destruct (assign (schema_ t) assignments row) as [row'|c0] eqn:Ea.
  2:{ injection Hloop as <- <- <-. split; [apply frame_refl|]. split; [by exists a|]. split; [|done].
      right. exists [], row, todo. rewrite replace_nil. by split_and!; [| |left]. }
  destruct (update_row t (primary_key_of t row) row' ek) as [e1 r] eqn:Eu.
  pose proof (assign_wf _ _ _ _ (ro_wf _ _ Hok) Hasg Ea) as Hw'.
  destruct (update_one ek a row row' e1 r Hrel Hrk Hw' Eu) as (Hfr & (a1 & Hrel1) & Hsc & Hr).
  destruct r as [?|code].
  - destruct Hr as (new & Hnew & Hrows). destruct (checked_payload row row' new Hok Hw' Hnew) as (_ & _ & _ & Hp).
    pose proof (live_written last row new ek e1 a1 Hl Hrow Hrel1 Hsc Hp Hrows) as Hl1.
    rewrite Hnew in Hset.
    eapply (IH turns e1 a1 (Some row)) in Hloop as (Hfr2 & Hrel2 & Hup & Haff); try done;
      [|intros; apply Hin; by right|simpl in Hturns; lia].
    split; [by eapply frame_trans|]. split; [done|]. rewrite Hrows in Hup.
    split; [by apply (updated_cons row new)|]. intros Hst. specialize (Haff Hst). simpl in Haff |- *. lia.
  - destruct Hr as [Hv Hr]. injection Hloop as <- <- <-. split; [done|]. split; [by exists a1|]. rewrite Hv. split.
    + right. exists [], row, todo. rewrite replace_nil. split_and!; [done|done|].
      rewrite Hset. destruct Hr as [Hr|[-> Hr]]; [by left|by right].
    + intros Hst. exfalso. destruct code; done.
Qed.
End child.
End loop.
End update.

(** C17: UPDATE changes the rows its condition keeps and no other. Let the
    catalog know the table, whose primary key is found by its name, let the
    constants compared with the primary key be of its kind, let the rewriter keep
    the truth of the WHERE (absorption can lose it: [absorption_drops_where]),
    and let the engine satisfy the storage laws and answer scans of the table
    faithfully ([kv_scannable]). Then a run of the optimized plan of an UPDATE
    replaces every row the WHERE condition keeps by the row with the SET columns
    assigned, leaves the other rows as they are and the keys outside the table
    untouched, and reports how many rows it changed; each row is decided by the
    table as it was before the statement, although rows are written while the
    scan is still running. It stops at the first row it cannot write, the rows
    before that one (in the order of the keys) replaced: an unknown column or a
    changed primary key is an invalid argument, an invalid row a schema error,
    and a row that passes the checks can only fail with an I/O error. *)
Theorem update_exact {E I C} `{KVEngineLaws E I} `{!CatalogView C}
    t e a scan_is_cheaper (catalog : C) u q p fuel e' r :
  table_ok t -> table_rel t e a -> tag_of (primary_key_type_ t) <> kTagNull ->
  (forall r asc, kv_scannable e (physical_range t r asc)) ->
  Forall (fun p => value_wf p.2) (upd_assignments u) ->
  cv_table_schema catalog (cv_current_database catalog) (upd_table u) = Some (schema_ t) ->
  ident_eqb (upd_table u) (schema_name (schema_ t)) = true -> pk_resolves (schema_ t) ->
  well_typed_opt (primary_key_name (schema_ t)) (primary_key_type_ t) (upd_where u) ->
  rewrites_faithfully t e (upd_where u) ->
  optimize scan_is_cheaper catalog (QUpdate u) = Ok q -> plan q = Ok p ->
  let rows := table_rows t (kv_view e) in
  let chosen := where_rows t (upd_where u) rows in
  let set_ := set_row t (upd_assignments u) in
  (length rows + length (oq_ranges q) < fuel)%nat ->
  execute fuel p t e = (e', r) ->
  frame t e e' /\ (exists a', table_rel t e' a') /\
  match r with
  | Ok rc => Forall (fun row => exists new, set_ row = Ok new) chosen /\
      table_rows t (kv_view e') = replace_rows t (upd_assignments u) chosen rows /\
      rc_affected_rows rc = N.of_nat (length chosen)
  | Err c => exists done_ row rest, chosen = done_ ++ row :: rest /\
      table_rows t (kv_view e') = replace_rows t (upd_assignments u) done_ rows /\
      (set_ row = Err c \/ c = EX_IO_ERROR /\ exists new, set_ row = Ok new)
  end.
Proof.
  intros Ht Hrel Htag Hscan Hasg Hsch Htab Hpk Hw Hf Hopt Hplan rows chosen set_ Hfuel Hx. pose proof Hrel as [He Hi _].
  destruct (optimize_ok t Ht e He Hi scan_is_cheaper catalog (QUpdate u) (upd_table u) q Hsch eq_refl Htab Hpk Hw Hf Hopt)
    as (Hqs & _ & Hq).
  destruct (chain_live t Ht e He Hi Htag Hscan fuel q (upd_where u) Hq Hfuel) as (X & ops & child & Hc & (x1 & Ho & Hy) & Hinc).
  unfold plan in Hplan. rewrite Hqs in Hplan. unfold plan_update in Hplan. rewrite Hqs in Hplan. injection Hplan as <-.
  unfold execute in Hx. cbn [create] in Hx. rewrite Hc in Hx. simpl in Hx.
  unfold open_now in Hx. simpl in Hx. unfold ux_open in Hx. simpl in Hx. rewrite Ho in Hx. simpl in Hx.
  destruct (ux_loop fuel fuel e _) as [[e1 x2] st] eqn:El.
  eapply (update_rows t Ht e (upd_assignments u) Hasg fuel chosen) in El as (Hfr & Hrel' & Hup & Haff);
    [|done|done|exact Hrel|by apply live_start|exact Hy|exact Hinc|apply where_sub|].
  2:{ pose proof (where_length t e (upd_where u)). unfold chosen, rows in *. lia. }
  case_bool_decide as Est; injection Hx as <- <-; (split; [done|]); (split; [done|]).
  - destruct Hup as [(_ & Hall & Hrows)|(d & row & rest & _ & _ & [Hr|[-> _]])]; [|subst st; exfalso|done].
    + split; [done|]. split; [done|]. exact (Haff Est).
    + revert Hr. unfold set_row, new_row_check. repeat case_match; congruence.
  - destruct Hup as [(-> & _)|Hup]; [done|exact Hup].
Qed.

(** ** Example on the in-memory engine *)

Definition demo_update : UpdateQuery :=
  mkUpdate (schema_name demo_schema) [(identifier (bytes_of_string "born"), VInt I_DATE 7)]
    (Some (CompareCondition (identifier (bytes_of_string "id")) LE (VInt I_INT 2))).
Definition demo_update_optimized : OptimizedQuery := optimized_or_empty (QUpdate demo_update).
Definition demo_update_plan : PlanNode := plan_or_ddl demo_update_optimized.

Lemma update_exact_witness :
  exists e' rc, execute 10 demo_update_plan demo_table demo_users = (e', Ok rc) /\
    table_rows demo_table (kv_view e') =
      [[VInt I_BIGINT 1; VStr S_VARCHAR (bytes_of_string "b"); VInt I_DATE 7];
       [VInt I_BIGINT 2; VStr S_VARCHAR (bytes_of_string "a"); VInt I_DATE 7];
       [VInt I_BIGINT 3; VStr S_VARCHAR (bytes_of_string "c"); VInt I_DATE 19000]] /\
    rc_affected_rows rc = 2%N.
Proof.
  destruct demo_users_rel as [a Hrel].
  assert (Hrun : ran_ok (execute 10 demo_update_plan demo_table demo_users) = true) by (vm_compute; reflexivity).
  destruct (execute 10 demo_update_plan demo_table demo_users) as [e' r] eqn:Ex.
  destruct r as [rc|]; [|discriminate Hrun].
  destruct (update_exact demo_table demo_users a (fun _ => false) (with_db demo_db demo_catalog2) demo_update
    demo_update_optimized demo_update_plan 10 e' (Ok rc)) as (_ & _ & _ & Hrows & Haff); [..|exact Ex|].
  - apply demo_table_ok.
  - exact Hrel.
  - vm_compute. discriminate.
  - intros r asc. apply idle_scannable. vm_compute. reflexivity.
  - repeat constructor; vm_compute; intuition discriminate.
  - vm_compute. reflexivity.
  - vm_compute. reflexivity.
  - vm_compute. split; reflexivity.
  - clear. vm_compute. intuition discriminate.
  - intros row Hrow. repeat constructor; intros w Hw; vm_compute in Hw; injection Hw as <-; reflexivity.
  - vm_compute. reflexivity.
  - vm_compute. reflexivity.
  - vm_compute. lia.
  - exists e', rc. split; [reflexivity|].
    split; [rewrite Hrows; vm_compute; reflexivity|]. rewrite Haff. vm_compute. reflexivity.
Defined.
