(* ===== verification/StmtBuilder.v ===== *)
(** * Syntax trees and the statement builder: [parser/ast.h], [common/c_types.h],
    [statement/stmt_builder.cpp], [statement/stmt_defs.h]

    The tree a parser hands over and its translation into a statement. A pointer
    that may be null is an [option]; positions in the SQL text and the texts of
    error messages are not modelled. Two branches of the source leave the model:
    a null pointer read for its position, and a connective with a null operand,
    which the condition trees of [SqlTruth] do not have; both are [BuildFault]s. *)

From S2P Require Import Prelude Bytes SqlTypes SqlTruth Rewriter Schema Planner.
Local Open Scope Z_scope.
Local Set Warnings "-register-all".

(** ** [common/c_types.h] *)

Inductive COpType :=
| COP_EQ | COP_NE | COP_GT | COP_GE | COP_LT | COP_LE | COP_AND | COP_OR | COP_NOT | COP_IN | COP_NOT_IN
| COP_ASC | COP_DESC | COP_IS_NULL | COP_IS_NOT_NULL | COP_LIKE | COP_UNKNOWN | COP_NOT_LIKE.

Inductive CDataType :=
| DT_INT | DT_BIGINT | DT_VARCHAR | DT_TEXT | DT_BOOLEAN | DT_NULL | DT_UNKNOWN
| DT_TINYINT | DT_SMALLINT | DT_DATE | DT_TIME | DT_DATETIME | DT_CHAR.

(** The bridges [to_c]/[from_c] of [compare_op.h] and [field_type.h]. *)
Definition op_to_c (op : CompareOp) : COpType :=
  match op with
  | EQ => COP_EQ | NE => COP_NE | GT => COP_GT | GE => COP_GE | LT => COP_LT | LE => COP_LE
  | LIKE => COP_LIKE | NOT_LIKE => COP_NOT_LIKE | IS_NULL => COP_IS_NULL | IS_NOT_NULL => COP_IS_NOT_NULL
  | OP_UNKNOWN => COP_UNKNOWN
  end.
Definition op_from_c (op : COpType) : CompareOp :=
  match op with
  | COP_EQ => EQ | COP_NE => NE | COP_GT => GT | COP_GE => GE | COP_LT => LT | COP_LE => LE
  | COP_LIKE => LIKE | COP_NOT_LIKE => NOT_LIKE | COP_IS_NULL => IS_NULL | COP_IS_NOT_NULL => IS_NOT_NULL
  | _ => OP_UNKNOWN
  end.
Definition type_to_c (t : DataType) : CDataType :=
  match t with
  | TINYINT => DT_TINYINT | SMALLINT => DT_SMALLINT | INT => DT_INT | BIGINT => DT_BIGINT
  | CHAR => DT_CHAR | VARCHAR => DT_VARCHAR | TEXT => DT_TEXT | BOOLEAN => DT_BOOLEAN
  | DATE => DT_DATE | TIME => DT_TIME | DATETIME => DT_DATETIME | NULL_TYPE => DT_NULL
  | UNKNOWN_TYPE => DT_UNKNOWN
  end.
Definition type_from_c (t : CDataType) : DataType :=
  match t with
  | DT_TINYINT => TINYINT | DT_SMALLINT => SMALLINT | DT_INT => INT | DT_BIGINT => BIGINT
  | DT_CHAR => CHAR | DT_VARCHAR => VARCHAR | DT_TEXT => TEXT | DT_BOOLEAN => BOOLEAN
  | DT_DATE => DATE | DT_TIME => TIME | DT_DATETIME => DATETIME | DT_NULL => NULL_TYPE
  | DT_UNKNOWN => UNKNOWN_TYPE
  end.

(** ** [parser/ast.h] *)

Inductive LiteralKind := LITERAL_NULL | LITERAL_TRUE | LITERAL_FALSE.
Inductive AstTransactionKind := TXN_BEGIN | TXN_COMMIT | TXN_ROLLBACK.

(** A node with its payload; [Node::next] is the order of [NODE_LIST]'s items. *)
Inductive ASTNode :=
| NODE_NUMBER (value : Z)
| NODE_STRING (value : option bytes)
| NODE_IDENT (name : option bytes)
| NODE_LITERAL (kind : LiteralKind)
| NODE_USE (db_name : option bytes)
| NODE_SELECT (table : option bytes) (columns condition order_by limit : option ASTNode)
| NODE_INSERT (table : option bytes) (columns values : option ASTNode)
| NODE_UPDATE (table : option bytes) (assignments condition : option ASTNode)
| NODE_DELETE (table : option bytes) (condition : option ASTNode)
| NODE_COMPARE (column : option bytes) (op : COpType) (right : option ASTNode)
| NODE_BINARY_OP (left : option ASTNode) (op : COpType) (right : option ASTNode)
| NODE_ASSIGNMENT (column : option bytes) (value : option ASTNode)
| NODE_LIST (items : list ASTNode)
| NODE_NOT (child : option ASTNode)
| NODE_IN (column : option bytes) (values : option ASTNode) (excluded : bool)
| NODE_NOT_IN (column : option bytes) (values : option ASTNode) (excluded : bool)
| NODE_ORDER (column : option bytes) (direction : COpType)
| NODE_LIMIT (limit offset : Z) (has_limit has_offset : bool)
| NODE_CREATE_DATABASE (db_name : option bytes)
| NODE_DROP_DATABASE (db_name : option bytes)
| NODE_CREATE_TABLE (table_name : option bytes) (columns : option ASTNode)
| NODE_DROP_TABLE (table_name : option bytes)
| NODE_COLUMN_DEF (name : option bytes) (data_type : CDataType) (length : N) (is_primary_key nullable : bool)
| NODE_TRANSACTION (kind : AstTransactionKind)
| NODE_EXPLAIN (analyze : bool) (statement : option ASTNode).

(** ** [statement/stmt_defs.h] *)

Inductive StmtErrorCode :=
| ST_OK
| ST_UNKNOWN_STMT_TYPE | ST_VALIDATOR_NOT_INIT | ST_DATABASE_NOT_FOUND | ST_DATABASE_ALREADY_EXISTS
| ST_TABLE_NOT_FOUND | ST_TABLE_ALREADY_EXISTS | ST_COLUMN_NOT_FOUND | ST_COLUMN_COUNT_MISMATCH
| ST_COLUMN_TYPE_MISMATCH | ST_VALUE_OUT_OF_RANGE | ST_COLUMN_ATTR_NULL_MISMATCH | ST_DUPLICATE_COLUMN
| ST_DUPLICATE_PRIMARY_KEY | ST_NO_PRIMARY_KEY | ST_INVALID_SCHEMA | ST_EMPTY_STATEMENT
| ST_AST_IS_NULL | ST_UNKNOWN_AST_Type | ST_INVALID_AST_NODE | ST_UNSUPPORTED_AST_NODE.
#[export] Instance StmtErrorCode_eq_dec : EqDecision StmtErrorCode.
Proof. solve_decision. Defined.

Inductive BuildFault := NullPointerRead | NullOperand.
Definition BuildError : Type := StmtErrorCode + BuildFault.

(** ** [class StatementBuilder] *)

Definition as_list (ast : option ASTNode) : option (list ASTNode) :=
  match ast with Some (NODE_LIST items) => Some items | _ => None end.

(** [x != nullptr ? x : ""] as an identifier. *)
Definition name_or_empty (name : option bytes) : Identifier := identifier (default [] name).

Definition build_value (ast : option ASTNode) : result BuildError Value :=
  match ast with
  | None => Err (inr NullPointerRead)
  | Some (NODE_NUMBER v) => Ok (VInt I_BIGINT v)
  | Some (NODE_STRING v) => Ok (VStr S_VARCHAR (default [] v))
  | Some (NODE_LITERAL LITERAL_NULL) => Ok VNull
  | Some (NODE_LITERAL LITERAL_TRUE) => Ok (VBool true)
  | Some (NODE_LITERAL LITERAL_FALSE) => Ok (VBool false)
  | Some _ => Err (inl ST_UNSUPPORTED_AST_NODE)
  end.

(** The loops over a list node that append one translated item per turn. *)
Fixpoint build_items {A} (f : ASTNode -> result BuildError A) (items : list ASTNode) : result BuildError (list A) :=
  match items with
  | [] => Ok []
  | i :: rest => let* a := f i in let* l := build_items f rest in Ok (a :: l)
  end.

Definition build_value_list (ast : option ASTNode) : result BuildError (list Value) :=
  match as_list ast with
  | None => Err (match ast with None => inr NullPointerRead | Some _ => inl ST_INVALID_AST_NODE end)
  | Some items => build_items (fun i => build_value (Some i)) items
  end.

(** A list that may be missing. *)
Definition build_opt_list {A} (f : ASTNode -> result BuildError A) (ast : option ASTNode) : result BuildError (list A) :=
  match ast with
  | None => Ok []
  | Some _ => match as_list ast with
              | None => Err (inl ST_INVALID_AST_NODE)
              | Some items => build_items f items
              end
  end.

Definition build_column_list : option ASTNode -> result BuildError (list Identifier) :=
  build_opt_list (fun i => match i with NODE_IDENT n => Ok (name_or_empty n) | _ => Err (inl ST_INVALID_AST_NODE) end).

Definition build_select_columns : option ASTNode -> result BuildError (list ColumnRef) :=
  build_opt_list (fun i =>
    match i with
    | NODE_IDENT n => Ok (mkColumnRef (name_or_empty n) empty_identifier None)
    | _ => Err (inl ST_INVALID_AST_NODE)
    end).

Definition build_order_by : option ASTNode -> result BuildError (list OrderByItem) :=
  build_opt_list (fun i =>
    match i with
    | NODE_ORDER c d => Ok (mkOrderBy (name_or_empty c) (match d with COP_DESC => DESC | _ => ASC end))
    | _ => Err (inl ST_INVALID_AST_NODE)
    end).

(** [static_cast<size_t>] of an [int]. *)
Definition size_of_int (v : Z) : N := Z.to_N (v mod 18446744073709551616).

Definition build_limit (ast : option ASTNode) : result BuildError LimitClause :=
  match ast with
  | None => Ok (mkLimit None None)
  | Some (NODE_LIMIT limit offset has_l has_o) =>
      Ok (mkLimit (if has_l then Some (size_of_int limit) else None)
                  (if has_o then Some (size_of_int offset) else None))
  | Some _ => Err (inl ST_INVALID_AST_NODE)
  end.

(** An operand of a connective. *)
Definition operand (r : result BuildError (option Condition)) : result BuildError Condition :=
  let* c := r in match c with Some c => Ok c | None => Err (inr NullOperand) end.

Fixpoint build_condition_node (ast : ASTNode) : result BuildError (option Condition) :=
  let build_condition child := match child with None => Ok None | Some n => build_condition_node n end in
  match ast with
  | NODE_COMPARE column cop rhs =>
      let op := op_from_c cop in
      if bool_decide (op = OP_UNKNOWN) then Err (inl ST_INVALID_AST_NODE)
      else match rhs with
           | Some _ => let* v := build_value rhs in Ok (Some (CompareCondition (name_or_empty column) op v))
           | None => if is_null_op op then Ok (Some (CompareCondition (name_or_empty column) op VNull))
                     else Err (inl ST_INVALID_AST_NODE)
           end
  | NODE_IN column values excluded =>
      let* vs := build_value_list values in Ok (Some (InCondition (name_or_empty column) excluded vs))
  | NODE_NOT_IN column values _ =>
      let* vs := build_value_list values in Ok (Some (InCondition (name_or_empty column) true vs))
  | NODE_BINARY_OP lhs op rhs =>
      let* l := build_condition lhs in
      let* r := build_condition rhs in
      match op with
      | COP_AND => let* l := operand (Ok l) in let* r := operand (Ok r) in Ok (Some (AndCondition l r))
      | COP_OR => let* l := operand (Ok l) in let* r := operand (Ok r) in Ok (Some (OrCondition l r))
      | _ => Err (inl ST_INVALID_AST_NODE)
      end
  | NODE_NOT child => let* c := operand (build_condition child) in Ok (Some (NotCondition c))
  | _ => Err (inl ST_INVALID_AST_NODE)
  end.
Definition build_condition (ast : option ASTNode) : result BuildError (option Condition) :=
  match ast with None => Ok None | Some n => build_condition_node n end.

Definition build_column_def (item : ASTNode) : result BuildError ColumnDef :=
  match item with
  | NODE_COLUMN_DEF name data_type length is_primary_key nullable =>
      Ok (mkColumnDef (name_or_empty name) (type_from_c data_type) length (nullable && negb is_primary_key) is_primary_key)
  | _ => Err (inl ST_INVALID_AST_NODE)
  end.
Definition build_column_defs (ast : option ASTNode) : result BuildError (list ColumnDef) :=
  match as_list ast with
  | None => Err (match ast with None => inr NullPointerRead | Some _ => inl ST_INVALID_AST_NODE end)
  | Some items => build_items build_column_def items
  end.

(** A name the statement cannot do without. *)
Definition required (name : option bytes) : result BuildError Identifier :=
  match name with None => Err (inl ST_EMPTY_STATEMENT) | Some n => Ok (identifier n) end.

Definition build_stmt_select (table : option bytes) (columns condition order_by limit : option ASTNode)
    : result BuildError Query :=
  let* t := required table in
  let* cols := build_select_columns columns in
  let* w := build_condition condition in
  let* order := build_order_by order_by in
  let* l := build_limit limit in
  Ok (QSelect (mkSelect t cols w order l)).

(** A list of rows, or, in the flat form, one row. *)
Definition build_stmt_insert (table : option bytes) (columns values : option ASTNode) : result BuildError Query :=
  let* t := required table in
  let* cols := build_column_list columns in
  match as_list values with
  | None | Some [] => Err (inl ST_INVALID_AST_NODE)
  | Some (NODE_LIST row :: rest) =>
      let* rows := build_items (fun r => build_value_list (Some r)) (NODE_LIST row :: rest) in
      Ok (QInsert (mkInsert t cols rows))
  | Some _ => let* row := build_value_list values in Ok (QInsert (mkInsert t cols [row]))
  end.

Definition build_assignment (item : ASTNode) : result BuildError (Identifier * Value) :=
  match item with
  | NODE_ASSIGNMENT column value => let* v := build_value value in Ok (name_or_empty column, v)
  | _ => Err (inl ST_INVALID_AST_NODE)
  end.

Definition build_stmt_update (table : option bytes) (assignments condition : option ASTNode) : result BuildError Query :=
  let* t := required table in
  match as_list assignments with
  | None | Some [] => Err (inl ST_EMPTY_STATEMENT)
  | Some items =>
      let* sets := build_items build_assignment items in
      let* w := build_condition condition in
      Ok (QUpdate (mkUpdate t sets w))
  end.

Definition build_stmt_delete (table : option bytes) (condition : option ASTNode) : result BuildError Query :=
  let* t := required table in
  let* w := build_condition condition in
  Ok (QDelete (mkDelete t w)).

Definition build_stmt_create_table (table_name : option bytes) (columns : option ASTNode) : result BuildError Query :=
  let* t := required table_name in
  let* cols := build_column_defs columns in
  Ok (QCreateTable empty_identifier t cols).

Definition build_stmt_transaction (kind : AstTransactionKind) : result BuildError Query :=
  Ok (QTransaction match kind with TXN_BEGIN => TX_BEGIN | TXN_COMMIT => TX_COMMIT | TXN_ROLLBACK => TX_ROLLBACK end).

Definition build (ast : option ASTNode) : result BuildError Query :=
  match ast with
  | None => Err (inl ST_AST_IS_NULL)
  | Some (NODE_USE db) => let* d := required db in Ok (QUseDatabase d)
  | Some (NODE_SELECT t cols w o l) => build_stmt_select t cols w o l
  | Some (NODE_INSERT t cols vs) => build_stmt_insert t cols vs
  | Some (NODE_UPDATE t sets w) => build_stmt_update t sets w
  | Some (NODE_DELETE t w) => build_stmt_delete t w
  | Some (NODE_CREATE_DATABASE db) => let* d := required db in Ok (QCreateDatabase d)
  | Some (NODE_DROP_DATABASE db) => let* d := required db in Ok (QDropDatabase d)
  | Some (NODE_CREATE_TABLE t cols) => build_stmt_create_table t cols
  | Some (NODE_DROP_TABLE t) => let* t := required t in Ok (QDropTable empty_identifier t)
  | Some (NODE_TRANSACTION kind) => build_stmt_transaction kind
  | Some (NODE_EXPLAIN _ _) => Err (inl ST_UNSUPPORTED_AST_NODE)
  | Some _ => Err (inl ST_UNKNOWN_AST_Type)
  end.

(** ** The grammar: [parser/sql.y]

    A statement as the grammar derives it, a constructor per production and the
    values of its tokens as arguments (the text of a name or a type, the value of
    a number, the unescaped text of a string), and the tree its semantic actions
    build. [None] is [YYERROR]. *)

(** A list of the grammar has one item at least. *)
Definition listed (A : Type) : Type := A * list A.
Definition items_of {A} (l : listed A) : list A := l.1 :: l.2.

Inductive SqlValue := SvNumber (n : Z) | SvMinus (n : Z) | SvString (s : bytes) | SvNull | SvTrue | SvFalse.
Inductive SqlCompare := ScEq | ScNe | ScGt | ScGe | ScLt | ScLe.
Inductive SqlCondition :=
| ScCompare (column : bytes) (op : SqlCompare) (v : SqlValue)
| ScIn (column : bytes) (vs : listed SqlValue)
| ScNotIn (column : bytes) (vs : listed SqlValue)
| ScLike (column s : bytes)
| ScNotLike (column s : bytes)
| ScIsNull (column : bytes)
| ScIsNotNull (column : bytes)
| ScParen (c : SqlCondition)
| ScNot (c : SqlCondition)
| ScAnd (l r : SqlCondition)
| ScOr (l r : SqlCondition).
Inductive SqlDirection := SdDefault | SdAsc | SdDesc.
Inductive SqlLimit := SlNone | SlLimit (n : Z) | SlLimitOffset (n offset : Z) | SlOffsetLimit (offset n : Z).
Inductive SqlNullable := SnDefault | SnNotNull | SnNull.
Record SqlColumn := mkSqlColumn {
  sc_name : bytes; sc_type : bytes; sc_length : option Z; sc_primary_key : bool; sc_nullable : SqlNullable }.
Inductive SqlTransaction :=
| StBegin | StBeginWork | StBeginTransaction | StStartTransaction | StCommit | StCommitWork | StEnd | StEndWork
| StRollback | StRollbackWork | StAbort | StAbortWork.
Inductive SqlSelectList := SelStar | SelColumns (columns : listed bytes).
Inductive SqlStatement :=
| SqlUse (db : bytes)
| SqlCreateDatabase (db : bytes)
| SqlDropDatabase (db : bytes)
| SqlCreateTable (table : bytes) (columns : listed SqlColumn)
| SqlDropTable (table : bytes)
| SqlSelect (columns : SqlSelectList) (table : bytes) (where_ : option SqlCondition)
    (order_by : option (listed (bytes * SqlDirection))) (limit : SqlLimit)
| SqlInsert (table : bytes) (columns : option (listed bytes)) (rows : listed (listed SqlValue))
| SqlUpdate (table : bytes) (assignments : listed (bytes * SqlValue)) (where_ : option SqlCondition)
| SqlDelete (table : bytes) (where_ : option SqlCondition)
| SqlTransact (t : SqlTransaction).

(** *** The names of types *)

Definition c_type_aliases : list (bytes * CDataType) := [
  (str "tinyint", DT_TINYINT); (str "int8", DT_TINYINT); (str "smallint", DT_SMALLINT); (str "int16", DT_SMALLINT);
  (str "int", DT_INT); (str "integer", DT_INT); (str "int32", DT_INT); (str "bigint", DT_BIGINT); (str "int64", DT_BIGINT);
  (str "char", DT_CHAR); (str "character", DT_CHAR); (str "varchar", DT_VARCHAR); (str "varying", DT_VARCHAR);
  (str "text", DT_TEXT); (str "boolean", DT_BOOLEAN); (str "bool", DT_BOOLEAN); (str "date", DT_DATE); (str "time", DT_TIME);
  (str "datetime", DT_DATETIME); (str "timestamp", DT_DATETIME); (str "null", DT_NULL)].
Definition c_type_streq_ci (a b : bytes) : bool := bytes_eqb (make_lower a) (make_lower b).
Definition c_type_lookup (name : bytes) : CDataType :=
  match List.find (fun alias => c_type_streq_ci name alias.1) c_type_aliases with
  | Some alias => alias.2
  | None => DT_UNKNOWN
  end.

(** *** The semantic actions *)

Definition tree_of_value (v : SqlValue) : ASTNode :=
  match v with
  | SvNumber n => NODE_NUMBER n
  | SvMinus n => NODE_NUMBER (- n)
  | SvString s => NODE_STRING (Some s)
  | SvNull => NODE_LITERAL LITERAL_NULL
  | SvTrue => NODE_LITERAL LITERAL_TRUE
  | SvFalse => NODE_LITERAL LITERAL_FALSE
  end.
Definition tree_of_values (vs : listed SqlValue) : ASTNode := NODE_LIST (map tree_of_value (items_of vs)).

Definition compare_op (op : SqlCompare) : COpType :=
  match op with
  | ScEq => COP_EQ | ScNe => COP_NE | ScGt => COP_GT | ScGe => COP_GE | ScLt => COP_LT | ScLe => COP_LE
  end.

Fixpoint tree_of_condition (c : SqlCondition) : ASTNode :=
  match c with
  | ScCompare column op v => NODE_COMPARE (Some column) (compare_op op) (Some (tree_of_value v))
  | ScIn column vs => NODE_IN (Some column) (Some (tree_of_values vs)) false
  | ScNotIn column vs => NODE_NOT (Some (NODE_IN (Some column) (Some (tree_of_values vs)) false))
  | ScLike column s => NODE_COMPARE (Some column) COP_LIKE (Some (NODE_STRING (Some s)))
  | ScNotLike column s => NODE_NOT (Some (NODE_COMPARE (Some column) COP_LIKE (Some (NODE_STRING (Some s)))))
  | ScIsNull column => NODE_COMPARE (Some column) COP_IS_NULL None
  | ScIsNotNull column => NODE_COMPARE (Some column) COP_IS_NOT_NULL None
  | ScParen c => tree_of_condition c
  | ScNot c => NODE_NOT (Some (tree_of_condition c))
  | ScAnd l r => NODE_BINARY_OP (Some (tree_of_condition l)) COP_AND (Some (tree_of_condition r))
  | ScOr l r => NODE_BINARY_OP (Some (tree_of_condition l)) COP_OR (Some (tree_of_condition r))
  end.

Definition tree_of_order (o : bytes * SqlDirection) : ASTNode :=
  NODE_ORDER (Some o.1) (match o.2 with SdDesc => COP_DESC | _ => COP_ASC end).
Definition tree_of_orders (l : listed (bytes * SqlDirection)) : ASTNode := NODE_LIST (map tree_of_order (items_of l)).

Definition sql_limit_to_int (value : Z) : option Z :=
  if (value <? 0) || (2147483647 <? value) then None else Some value.
Definition tree_of_limit (l : SqlLimit) : option (option ASTNode) :=
  match l with
  | SlNone => Some None
  | SlLimit n => n ← sql_limit_to_int n; Some (Some (NODE_LIMIT n 0 true false))
  | SlLimitOffset n offset | SlOffsetLimit offset n =>
      n ← sql_limit_to_int n; offset ← sql_limit_to_int offset; Some (Some (NODE_LIMIT n offset true true))
  end.

(** [data_type]: the type and its declared length, 0 if there is none. *)
Definition tree_of_type (name : bytes) (declared : option Z) : option (CDataType * N) :=
  match c_type_lookup name with
  | DT_UNKNOWN => None
  | type =>
      match declared with
      | None => Some (type, 0%N)
      | Some n =>
          if (n <=? 0) || (Z.of_N (c_type_max_length (type_from_c type)) <? n) || negb (c_type_accepts_length (type_from_c type))
          then None else Some (type, Z.to_N n)
      end
  end.
Definition opt_nullable (n : SqlNullable) : bool := match n with SnDefault => true | SnNotNull => false | SnNull => true end.
Definition tree_of_column (c : SqlColumn) : option ASTNode :=
  spec ← tree_of_type (sc_type c) (sc_length c);
  Some (NODE_COLUMN_DEF (Some (sc_name c)) spec.1 spec.2 (sc_primary_key c) (opt_nullable (sc_nullable c))).

Definition tree_of_transaction (t : SqlTransaction) : AstTransactionKind :=
  match t with
  | StBegin | StBeginWork | StBeginTransaction | StStartTransaction => TXN_BEGIN
  | StCommit | StCommitWork | StEnd | StEndWork => TXN_COMMIT
  | StRollback | StRollbackWork | StAbort | StAbortWork => TXN_ROLLBACK
  end.

Definition tree_of_names (names : listed bytes) : ASTNode := NODE_LIST (map (fun n => NODE_IDENT (Some n)) (items_of names)).

Definition tree_of_statement (s : SqlStatement) : option ASTNode :=
  match s with
  | SqlUse db => Some (NODE_USE (Some db))
  | SqlCreateDatabase db => Some (NODE_CREATE_DATABASE (Some db))
  | SqlDropDatabase db => Some (NODE_DROP_DATABASE (Some db))
  | SqlCreateTable t columns =>
      defs ← mapM tree_of_column (items_of columns); Some (NODE_CREATE_TABLE (Some t) (Some (NODE_LIST defs)))
  | SqlDropTable t => Some (NODE_DROP_TABLE (Some t))
  | SqlSelect columns t w order limit =>
      limit ← tree_of_limit limit;
      let columns := match columns with SelStar => NODE_LIST [NODE_IDENT (Some (str "*"))] | SelColumns cs => tree_of_names cs end in
      Some (NODE_SELECT (Some t) (Some columns) (tree_of_condition <$> w)
              (tree_of_orders <$> order) limit)
  | SqlInsert t columns rows =>
      Some (NODE_INSERT (Some t) (tree_of_names <$> columns) (Some (NODE_LIST (map tree_of_values (items_of rows)))))
  | SqlUpdate t assignments w =>
      Some (NODE_UPDATE (Some t)
              (Some (NODE_LIST (map (fun a => NODE_ASSIGNMENT (Some a.1) (Some (tree_of_value a.2))) (items_of assignments))))
              (tree_of_condition <$> w))
  | SqlDelete t w => Some (NODE_DELETE (Some t) (tree_of_condition <$> w))
  | SqlTransact t => Some (NODE_TRANSACTION (tree_of_transaction t))
  end.

(** ** What a statement says *)

(** Without a mark a number is a BIGINT and a text a VARCHAR. *)
Definition value_of (v : SqlValue) : Value :=
  match v with
  | SvNumber n => VInt I_BIGINT n | SvMinus n => VInt I_BIGINT (- n) | SvString s => VStr S_VARCHAR s
  | SvNull => VNull | SvTrue => VBool true | SvFalse => VBool false
  end.

(** [NOT IN] and [NOT LIKE] deny [IN] and [LIKE]; parentheses only group. *)
Fixpoint condition_of (c : SqlCondition) : Condition :=
  match c with
  | ScCompare column op v =>
      CompareCondition (identifier column)
        (match op with ScEq => EQ | ScNe => NE | ScGt => GT | ScGe => GE | ScLt => LT | ScLe => LE end) (value_of v)
  | ScIn column vs => InCondition (identifier column) false (map value_of (items_of vs))
  | ScNotIn column vs => NotCondition (InCondition (identifier column) false (map value_of (items_of vs)))
  | ScLike column s => CompareCondition (identifier column) LIKE (VStr S_VARCHAR s)
  | ScNotLike column s => NotCondition (CompareCondition (identifier column) LIKE (VStr S_VARCHAR s))
  | ScIsNull column => CompareCondition (identifier column) IS_NULL VNull
  | ScIsNotNull column => CompareCondition (identifier column) IS_NOT_NULL VNull
  | ScParen c => condition_of c
  | ScNot c => NotCondition (condition_of c)
  | ScAnd l r => AndCondition (condition_of l) (condition_of r)
  | ScOr l r => OrCondition (condition_of l) (condition_of r)
  end.

Definition limit_of (l : SqlLimit) : LimitClause :=
  match l with
  | SlNone => mkLimit None None
  | SlLimit n => mkLimit (Some (Z.to_N n)) None
  | SlLimitOffset n offset | SlOffsetLimit offset n => mkLimit (Some (Z.to_N n)) (Some (Z.to_N offset))
  end.

(** A column may be NULL unless it says NOT NULL or is the primary key. *)
Definition column_of (c : SqlColumn) : ColumnDef :=
  mkColumnDef (identifier (sc_name c)) (type_from_c (c_type_lookup (sc_type c)))
    (match sc_length c with Some n => Z.to_N n | None => 0%N end)
    (match sc_primary_key c, sc_nullable c with true, _ => false | false, SnNotNull => false | false, _ => true end)
    (sc_primary_key c).

Definition order_of (o : bytes * SqlDirection) : OrderByItem :=
  mkOrderBy (identifier o.1) (match o.2 with SdDesc => DESC | _ => ASC end).
Definition column_ref (name : bytes) : ColumnRef := mkColumnRef (identifier name) empty_identifier None.
Definition query_of (s : SqlStatement) : Query :=
  match s with
  | SqlUse db => QUseDatabase (identifier db)
  | SqlCreateDatabase db => QCreateDatabase (identifier db)
  | SqlDropDatabase db => QDropDatabase (identifier db)
  | SqlCreateTable t columns => QCreateTable empty_identifier (identifier t) (map column_of (items_of columns))
  | SqlDropTable t => QDropTable empty_identifier (identifier t)
  | SqlSelect columns t w order limit =>
      QSelect (mkSelect (identifier t)
        (match columns with SelStar => [column_ref (str "*")] | SelColumns cs => map column_ref (items_of cs) end)
        (condition_of <$> w)
        (match order with Some l => map order_of (items_of l) | None => [] end) (limit_of limit))
  | SqlInsert t columns rows =>
      QInsert (mkInsert (identifier t) (match columns with Some cs => map identifier (items_of cs) | None => [] end)
        (map (fun row => map value_of (items_of row)) (items_of rows)))
  | SqlUpdate t assignments w =>
      QUpdate (mkUpdate (identifier t) (map (fun a => (identifier a.1, value_of a.2)) (items_of assignments)) (condition_of <$> w))
  | SqlDelete t w => QDelete (mkDelete (identifier t) (condition_of <$> w))
  | SqlTransact t =>
      QTransaction match t with
        | StBegin | StBeginWork | StBeginTransaction | StStartTransaction => TX_BEGIN
        | StCommit | StCommitWork | StEnd | StEndWork => TX_COMMIT
        | StRollback | StRollbackWork | StAbort | StAbortWork => TX_ROLLBACK
        end
  end.

(** ** The builder reads what the grammar writes *)

Lemma build_items_map {A B} (f : ASTNode -> result BuildError B) (g : A -> ASTNode) (h : A -> B) l :
  (forall a, f (g a) = Ok (h a)) -> build_items f (map g l) = Ok (map h l).
Proof. intros Hf. induction l as [|a l IH]; [done|]. cbn. by rewrite Hf, IH. Qed.

Lemma build_tree_value v : build_value (Some (tree_of_value v)) = Ok (value_of v).
Proof. by destruct v. Qed.
Lemma build_tree_values vs : build_value_list (Some (tree_of_values vs)) = Ok (map value_of (items_of vs)).
Proof. apply build_items_map. apply build_tree_value. Qed.

Lemma build_tree_condition c : build_condition_node (tree_of_condition c) = Ok (Some (condition_of c)).
Proof.
  induction c as [col op v|col vs|col vs|col s|col s|col|col|c IH|c IH|l IHl r IHr|l IHl r IHr];
    cbn [tree_of_condition condition_of build_condition_node]; try done.
  - rewrite build_tree_value. by destruct op.
  - by rewrite build_tree_values.
  - by rewrite build_tree_values.
  - by rewrite IH.
  - by rewrite IHl, IHr.
  - by rewrite IHl, IHr.
Qed.
Lemma build_tree_where w : build_condition (tree_of_condition <$> w) = Ok (condition_of <$> w).
Proof. destruct w; [apply build_tree_condition|done]. Qed.

Lemma limit_to_int_id n m : sql_limit_to_int n = Some m -> m = n /\ size_of_int n = Z.to_N n.
Proof.
  unfold sql_limit_to_int. case_match eqn:E; [done|]. apply orb_false_iff in E as [E1%Z.ltb_ge E2%Z.ltb_ge].
  intros [= <-]. split; [done|]. unfold size_of_int. by rewrite Z.mod_small by lia.
Qed.
Lemma build_tree_limit l t : tree_of_limit l = Some t -> build_limit t = Ok (limit_of l).
Proof.
  destruct l as [|n|n m|m n]; cbn; [by intros [= <-]|..]; destruct (sql_limit_to_int n) as [n'|] eqn:En; cbn; try done.
  all: try (destruct (sql_limit_to_int m) as [m'|] eqn:Em; cbn; [apply limit_to_int_id in Em as [-> Em]|done]).
  all: apply limit_to_int_id in En as [-> En]; intros [= <-]; cbn; by rewrite ?En, ?Em.
Qed.

Lemma tree_of_type_spec name declared spec : tree_of_type name declared = Some spec ->
  spec = (c_type_lookup name, match declared with Some n => Z.to_N n | None => 0%N end).
Proof. unfold tree_of_type. destruct (c_type_lookup name), declared; try done; try case_match; try done; by intros [= <-]. Qed.
Lemma build_tree_column c t : tree_of_column c = Some t -> build_column_def t = Ok (column_of c).
Proof.
  unfold tree_of_column. destruct (tree_of_type _ _) as [spec|] eqn:Es; cbn; [|done]. apply tree_of_type_spec in Es as ->.
  intros [= <-]. cbn. unfold column_of. by destruct (sc_primary_key c), (sc_nullable c).
Qed.
Lemma build_tree_columns cs ts : mapM tree_of_column cs = Some ts -> build_items build_column_def ts = Ok (map column_of cs).
Proof.
  intros Hm. apply mapM_Some in Hm. induction Hm as [|c t cs ts Hc _ IH]; [done|]. cbn. by rewrite (build_tree_column _ _ Hc), IH.
Qed.

(** C21: the builder makes of every statement what the statement says. For every
    statement the grammar derives and accepts (the tree its semantic actions
    build, from types and lengths that exist and row counts that fit an [int]),
    the translation of the tree succeeds and gives the statement's meaning:
    names, values with their sign, the shape of the condition, NOT IN and NOT
    LIKE as denials, the order and its direction, LIMIT 0 and both ways to write
    an offset, all rows of an INSERT, and columns that may be NULL unless they
    are declared otherwise or are the primary key. *)
Theorem build_reads_grammar s ast : tree_of_statement s = Some ast -> build (Some ast) = Ok (query_of s).
Proof.
  destruct s as [db|db|db|t cs|t|cs t w o l|t cs rows|t sets w|t w|k]; cbn [tree_of_statement query_of].
  1-3,5: by intros [= <-].
  - destruct (mapM tree_of_column (items_of cs)) as [defs|] eqn:Em; cbn [mbind option_bind]; [|done]. intros [= <-]. cbn.
    unfold build_stmt_create_table, build_column_defs. cbn. by rewrite (build_tree_columns _ _ Em).
  - destruct (tree_of_limit l) as [l'|] eqn:El; cbn [mbind option_bind]; [|done]. intros [= <-]. apply build_tree_limit in El.
    cbn [build]. unfold build_stmt_select. cbn [required result_bind].
    assert (Hcs : build_select_columns (Some match cs with SelStar => NODE_LIST [NODE_IDENT (Some (str "*"))] | SelColumns cs => tree_of_names cs end) =
      Ok match cs with SelStar => [column_ref (str "*")] | SelColumns cs => map column_ref (items_of cs) end)
      by (destruct cs; [done|by apply build_items_map]).
    assert (Ho : build_order_by (tree_of_orders <$> o) = Ok match o with Some l => map order_of (items_of l) | None => [] end).
    { destruct o as [items|]; [|done]. apply build_items_map. by intros [n []]. }
    rewrite Hcs. cbn [result_bind]. rewrite build_tree_where. cbn [result_bind]. rewrite Ho. cbn [result_bind]. by rewrite El.
  - intros [= <-]. cbn [build]. unfold build_stmt_insert. cbn [required result_bind].
    assert (Hcs : build_column_list (tree_of_names <$> cs) = Ok match cs with Some cs => map identifier (items_of cs) | None => [] end)
      by (destruct cs as [names|]; [by apply build_items_map|done]).
    rewrite Hcs. cbn [result_bind]. pose proof (build_items_map (fun r => build_value_list (Some r)) tree_of_values
      (fun row => map value_of (items_of row)) (items_of rows) build_tree_values) as Hrows.
    destruct rows as [row rows]. unfold items_of in *. cbn [map as_list fst snd] in Hrows |- *.
    change (tree_of_values row) with (NODE_LIST (map tree_of_value (row.1 :: row.2))) in *. cbv beta iota. by rewrite Hrows.
  - intros [= <-]. cbn [build]. unfold build_stmt_update. cbn [required result_bind as_list items_of map].
    pose proof (build_items_map build_assignment (fun a => NODE_ASSIGNMENT (Some a.1) (Some (tree_of_value a.2)))
      (fun a => (identifier a.1, value_of a.2)) (items_of sets)) as Hsets.
    cbn [items_of map] in Hsets. rewrite Hsets by (intros a; cbn [build_assignment]; by rewrite build_tree_value). cbn [result_bind].
    by rewrite build_tree_where.
  - intros [= <-]. cbn [build]. unfold build_stmt_delete. cbn [required result_bind]. by rewrite build_tree_where.
  - intros [= <-]. by destruct k.
Qed.

Lemma build_reads_grammar_witness :
  let create := SqlCreateTable (str "Users") (mkSqlColumn (str "id") (str "INT") None true SnDefault,
    [mkSqlColumn (str "name") (str "varchar") (Some 20) false SnDefault]) in
  let select := SqlSelect (SelColumns (str "id", [])) (str "Users")
    (Some (ScAnd (ScCompare (str "id") ScGe (SvMinus 7)) (ScNotIn (str "name") (SvString (str "bob"), [SvNull]))))
    (Some ((str "id", SdDesc), [])) (SlOffsetLimit 3 0) in
  (exists ast, tree_of_statement create = Some ast /\ build (Some ast) =
     Ok (QCreateTable empty_identifier (identifier (str "Users"))
           [mkColumnDef (identifier (str "id")) INT 0 false true; mkColumnDef (identifier (str "name")) VARCHAR 20 true false])) /\
  (exists ast, tree_of_statement select = Some ast /\ build (Some ast) = Ok (query_of select)).
Proof.
  cbv zeta. split; (eexists; split; [vm_compute; reflexivity|]).
  - refine (eq_trans (build_reads_grammar (SqlCreateTable (str "Users") (mkSqlColumn (str "id") (str "INT") None true SnDefault,
      [mkSqlColumn (str "name") (str "varchar") (Some 20) false SnDefault])) _ _) _); vm_compute; reflexivity.
  - apply build_reads_grammar. vm_compute. reflexivity.
Defined.
