(* ===== verification/StmtValidator.v ===== *)
(** * The statement validator: [statement/stmt_validator.h], [statement/stmt_validator.cpp]

    The semantic checks a statement passes before it is planned, against the
    catalog interface [CatalogView]. Positions and message texts are not
    modelled: an error is its code. *)

From S2P Require Import Prelude Bytes SqlTypes KeyCodec SqlTruth Rewriter Schema Planner StmtBuilder.
Local Open Scope Z_scope.

Definition map_schema_error (err : SchemaError) : StmtErrorCode :=
  match err with
  | SE_OK => ST_OK
  | SE_DUPLICATE_PRIMARY_KEY => ST_DUPLICATE_PRIMARY_KEY
  | SE_NO_PRIMARY_KEY => ST_NO_PRIMARY_KEY
  | SE_DUPLICATE_COLUMN_NAME => ST_DUPLICATE_COLUMN
  | SE_COLUMN_NOT_FOUND => ST_COLUMN_NOT_FOUND
  | SE_COLUMN_SIZE_MISMATCH => ST_COLUMN_COUNT_MISMATCH
  | SE_COLUMN_TYPE_MISMATCH => ST_COLUMN_TYPE_MISMATCH
  | SE_COLUMN_ATTR_NULL_MISMATCH => ST_COLUMN_ATTR_NULL_MISMATCH
  | SE_VALUE_OUT_OF_RANGE => ST_VALUE_OUT_OF_RANGE
  | _ => ST_INVALID_SCHEMA
  end.

(** [ColumnCollector] walking the tree in pre-order. *)
Fixpoint condition_columns (c : Condition) : list Identifier :=
  match c with
  | CompareCondition col _ _ | InCondition col _ _ => [col]
  | AndCondition l r | OrCondition l r => condition_columns l ++ condition_columns r
  | NotCondition c => condition_columns c
  end.
Definition collect_condition_columns (c : option Condition) : list Identifier :=
  match c with Some c => condition_columns c | None => [] end.

(** The checks of a loop, up to the first that fails. *)
Fixpoint check_all {A} (f : A -> result StmtErrorCode unit) (l : list A) : result StmtErrorCode unit :=
  match l with
  | [] => Ok tt
  | a :: rest => let* _ := f a in check_all f rest
  end.

Definition require_column (schema : TableSchema) (col : Identifier) : result StmtErrorCode unit :=
  match column col schema with None => Err ST_COLUMN_NOT_FOUND | Some _ => Ok tt end.

Definition check_condition_columns (cond : option Condition) (schema : TableSchema) : result StmtErrorCode unit :=
  check_all (require_column schema) (collect_condition_columns cond).

Definition check_value (col : ColumnDef) (value : Value) : result StmtErrorCode unit :=
  match validate_value col value with SE_OK => Ok tt | err => Err (map_schema_error err) end.

(** The columns a VALUES row fills, as their positions in the schema: the source
    holds pointers into the schema's vector and compares them. *)
Fixpoint named_targets (schema : TableSchema) (names : list Identifier) : result StmtErrorCode (list nat) :=
  match names with
  | [] => Ok []
  | name :: rest =>
      let index := column_index name schema in
      if index <? 0 then Err ST_COLUMN_NOT_FOUND
      else let* targets := named_targets schema rest in Ok (Z.to_nat index :: targets)
  end.
Definition target_columns (schema : TableSchema) (columns : list Identifier) : result StmtErrorCode (list nat) :=
  match columns with
  | [] => Ok (seq 0 (length (columns_ schema)))
  | _ => named_targets schema columns
  end.

(** The values of a row against the columns they fill. *)
Fixpoint check_row_values (schema : TableSchema) (targets : list nat) (row : list Value) : result StmtErrorCode unit :=
  match targets, row with
  | i :: targets, v :: row =>
      match columns_ schema !! i with
      | None => Ok tt
      | Some col => let* _ := check_value col v in check_row_values schema targets row
      end
  | _, _ => Ok tt
  end.

Definition check_missing (schema : TableSchema) (targets : list nat) : result StmtErrorCode unit :=
  check_all (fun p : nat * ColumnDef =>
    if negb (bool_decide (p.1 ∈ targets)) && negb (col_nullable p.2) then Err ST_COLUMN_ATTR_NULL_MISMATCH else Ok tt)
    (imap pair (columns_ schema)).

Definition check_insert_row (schema : TableSchema) (targets : list nat) (row : list Value) : result StmtErrorCode unit :=
  if negb (length row =? length targets)%nat then Err ST_COLUMN_COUNT_MISMATCH
  else let* _ := check_row_values schema targets row in check_missing schema targets.

(** The first position of the primary key among the targets. *)
Fixpoint position (i : nat) (l : list nat) : option nat :=
  match l with
  | [] => None
  | x :: rest => if (x =? i)%nat then Some 0%nat else option_map S (position i rest)
  end.

Section validator.
Context {C : Type} `{!CatalogView C} (catalog : C).

Definition resolve_database (explicit_db : Identifier) : Identifier :=
  if negb (ident_empty explicit_db) then explicit_db else cv_current_database catalog.

Definition require_database (db : Identifier) : result StmtErrorCode unit :=
  if ident_empty db then Err ST_DATABASE_NOT_FOUND
  else if negb (cv_database_exists catalog db) then Err ST_DATABASE_NOT_FOUND
  else Ok tt.

Definition load_table (db table : Identifier) : result StmtErrorCode TableSchema :=
  if ident_empty table then Err ST_TABLE_NOT_FOUND
  else
    let* _ := require_database db in
    match cv_table_schema catalog db table with
    | None => Err ST_TABLE_NOT_FOUND
    | Some s => Ok s
    end.

Definition validate_create_database (db : Identifier) : result StmtErrorCode unit :=
  if cv_database_exists catalog db then Err ST_DATABASE_ALREADY_EXISTS else Ok tt.

Definition validate_drop_database (db : Identifier) : result StmtErrorCode unit := require_database db.

Definition schema_of_columns (table : Identifier) (columns : list ColumnDef) : TableSchema :=
  fold_left (fun s c => add_column c s) columns (table_schema table).

Definition validate_create_table (database table : Identifier) (columns : list ColumnDef) : result StmtErrorCode unit :=
  let db := resolve_database database in
  let* _ := require_database db in
  if cv_table_exists catalog db table then Err ST_TABLE_ALREADY_EXISTS
  else match validate (schema_of_columns table columns) with
       | SE_OK => Ok tt
       | err => Err (map_schema_error err)
       end.

Definition validate_drop_table (database table : Identifier) : result StmtErrorCode unit :=
  let* _ := load_table (resolve_database database) table in Ok tt.

Definition validate_select (q : SelectQuery) : result StmtErrorCode unit :=
  let* schema := load_table (cv_current_database catalog) (sel_table q) in
  let* _ := if negb (select_all q)
            then check_all (fun ref => if is_wildcard ref then Ok tt else require_column schema (cr_column ref)) (sel_columns q)
            else Ok tt in
  let* _ := check_condition_columns (sel_where q) schema in
  check_all (fun item => require_column schema (ob_column item)) (sel_order_by q).

(** The rows of VALUES, with the keys seen so far. *)
Fixpoint check_keys (table : Identifier) (pk_type : DataType) (value_index : nat) (seen : list bytes)
    (rows : list (list Value)) : result StmtErrorCode unit :=
  match rows with
  | [] => Ok tt
  | row :: rest =>
      match row !! value_index with
      | None => Ok tt
      | Some pk =>
          if is_null pk then check_keys table pk_type value_index seen rest
          else
            let key := to_column_key pk pk_type in
            if bool_decide (key ∈ seen) then Err ST_DUPLICATE_PRIMARY_KEY
            else if bool_decide (cv_primary_key_exists catalog (cv_current_database catalog) table pk = Some true)
                 then Err ST_DUPLICATE_PRIMARY_KEY
            else check_keys table pk_type value_index (key :: seen) rest
      end
  end.

Definition check_primary_key_conflicts (schema : TableSchema) (q : InsertQuery) (targets : list nat)
    : result StmtErrorCode unit :=
  if negb (has_primary_key schema) then Ok tt
  else match primary_key_column schema with
       | None => Ok tt
       | Some pk_column =>
           match position (Z.to_nat (primary_key_index_ schema)) targets with
           | None => Ok tt
           | Some value_index => check_keys (ins_table q) (col_type pk_column) value_index [] (ins_values q)
           end
       end.

Definition validate_insert (q : InsertQuery) : result StmtErrorCode unit :=
  let* schema := load_table (cv_current_database catalog) (ins_table q) in
  match ins_values q with
  | [] => Err ST_COLUMN_COUNT_MISMATCH
  | _ =>
      let* targets := target_columns schema (ins_columns q) in
      let* _ := check_all (check_insert_row schema targets) (ins_values q) in
      check_primary_key_conflicts schema q targets
  end.

Definition check_assignment (schema : TableSchema) (a : Identifier * Value) : result StmtErrorCode unit :=
  match column a.1 schema with
  | None => Err ST_COLUMN_NOT_FOUND
  | Some col =>
      let* _ := check_value col a.2 in
      if col_primary_key col then Err ST_INVALID_SCHEMA else Ok tt
  end.

Definition validate_update (q : UpdateQuery) : result StmtErrorCode unit :=
  let* schema := load_table (cv_current_database catalog) (upd_table q) in
  match upd_assignments q with
  | [] => Err ST_EMPTY_STATEMENT
  | _ =>
      let* _ := check_all (check_assignment schema) (upd_assignments q) in
      check_condition_columns (upd_where q) schema
  end.

Definition validate_delete (q : DeleteQuery) : result StmtErrorCode unit :=
  let* schema := load_table (cv_current_database catalog) (del_table q) in
  check_condition_columns (del_where q) schema.

Definition validate_use (db : Identifier) : result StmtErrorCode unit :=
  if negb (cv_database_exists catalog db) then Err ST_DATABASE_NOT_FOUND else Ok tt.

(** [validate], [validate_ddl], [validate_dml] and [validate_ctrl]; the types of
    statement they refuse are not constructors of [Query]. *)
Definition validate_statement (stmt : Query) : result StmtErrorCode unit :=
  if negb (cv_is_open catalog) then Err ST_VALIDATOR_NOT_INIT
  else match stmt with
       | QTransaction _ => Ok tt
       | QCreateDatabase db => validate_create_database db
       | QDropDatabase db => validate_drop_database db
       | QCreateTable db t cols => validate_create_table db t cols
       | QDropTable db t => validate_drop_table db t
       | QSelect q => validate_select q
       | QInsert q => validate_insert q
       | QUpdate q => validate_update q
       | QDelete q => validate_delete q
       | QUseDatabase db => validate_use db
       end.
End validator.
