(* ===== verification/ValidatorSpec.v ===== *)
(** * What a validated statement is spared

    The validator runs before the planner and the executor. The theorems here
    say what its acceptance is worth: an accepted INSERT can only fail in the
    storage engine, and an accepted SELECT names columns the executor finds. *)

From S2P Require Import Prelude Bytes OMap KvTypes Transactions KvApi SqlTypes KeyCodec SqlTruth Rewriter Schema KeyPrefix Table TableSpec Catalog CatalogSpec Planner Executor Execute SelectSpec DmlSpec StmtBuilder StmtValidator.
Local Open Scope Z_scope.

(** ** Loops of checks *)

Lemma check_all_ok {A} (f : A -> result StmtErrorCode unit) l : check_all f l = Ok tt <-> Forall (fun a => f a = Ok tt) l.
Proof.
  induction l as [|a l IH]; [done|]. cbn. rewrite Forall_cons, <- IH. destruct (f a) as [[]|]; naive_solver.
Qed.

Lemma check_value_ok col v : check_value col v = Ok tt <-> validate_value col v = SE_OK.
Proof. unfold check_value. by destruct (validate_value col v). Qed.

(** ** Columns by name *)

Lemma index_from_range name cols : forall i, index_from i name cols = -1 \/
  i <= index_from i name cols < i + Z.of_nat (length cols).
Proof.
  induction cols as [|c cols IH]; intros i; cbn [index_from length]; [by left|].
  destruct (ident_eqb (col_name c) name); [right; lia|]. destruct (IH (i + 1)) as [->|]; [by left|right; lia].
Qed.
Lemma column_index_range name s : column_index name s = -1 \/
  0 <= column_index name s < Z.of_nat (length (columns_ s)).
Proof. apply (index_from_range name (columns_ s) 0). Qed.

Lemma index_from_same cols n m : forall i, 0 <= i -> index_from i n cols = index_from i m cols ->
  0 <= index_from i n cols -> normalized_ n = normalized_ m.
Proof.
  induction cols as [|c cols IH]; intros i Hi; cbn [index_from]; [lia|].
  destruct (ident_eqb (col_name c) n) eqn:En, (ident_eqb (col_name c) m) eqn:Em.
  - intros _ _. apply bytes_eqb_eq in En, Em. congruence.
  - destruct (index_from_range m cols (i + 1)); lia.
  - destruct (index_from_range n cols (i + 1)); lia.
  - apply IH. lia.
Qed.

Lemma require_column_ok s col : require_column s col = Ok tt <-> 0 <= column_index col s.
Proof.
  unfold require_column, column. destruct (column_index_range col s) as [Hr|[Hl Hr]].
  - rewrite Hr. simpl. split; [done|lia].
  - rewrite (proj2 (Z.leb_le _ _) Hl). destruct (lookup_lt_is_Some_2 (columns_ s) (Z.to_nat (column_index col s))) as [c ->]; [lia|].
    done.
Qed.

Lemma named_targets_spec s names ts : named_targets s names = Ok ts ->
  Forall2 (fun n i => column_index n s = Z.of_nat i /\ (i < length (columns_ s))%nat) names ts.
Proof.
  revert ts. induction names as [|n names IH]; intros ts; cbn [named_targets]; [by intros [= <-]|].
  destruct (_ <? 0) eqn:El; [done|]. boolify. destruct (named_targets s names) as [l|] eqn:En; [|done].
  intros [= <-]. constructor; [|by apply IH]. destruct (column_index_range n s); split; lia.
Qed.

Lemma named_targets_nodup s names ts : named_targets s names = Ok ts -> NoDup (map normalized_ names) -> NoDup ts.
Proof.
  intros Ht%named_targets_spec Hn. induction Ht as [|n i names ts [Hi Hb] Hrest IH]; [constructor|].
  apply NoDup_cons in Hn as [Hnot Hn]. constructor; [|by apply IH]. intros Hin. apply Hnot.
  apply list_elem_of_lookup_1 in Hin as [k Hk]. destruct (Forall2_lookup_r _ _ _ _ _ Hrest Hk) as (m & Hm & Hj & _).
  apply list_elem_of_fmap. exists m. split; [|by eapply list_elem_of_lookup_2].
  apply (index_from_same (columns_ s) n m 0); [lia| |]; unfold column_index in *; lia.
Qed.

(** ** Rows filled by position *)

Fixpoint fill_at (targets : list nat) (values row : list Value) : list Value :=
  match targets, values with
  | i :: targets, v :: values => fill_at targets values (<[i := v]> row)
  | _, _ => row
  end.

Lemma fill_columns_at s names ts : named_targets s names = Ok ts ->
  forall values row, fill_columns s names values row = Ok (fill_at ts values row).
Proof.
  revert ts. induction names as [|n names IH]; intros ts; cbn [named_targets]; [by intros [= <-] [] |].
  destruct (_ <? 0) eqn:El; [done|]. destruct (named_targets s names) as [l|] eqn:En; [|done].
  intros [= <-] [|v values] row; [done|]. cbn [fill_columns fill_at]. rewrite El. by apply IH.
Qed.

Lemma fill_at_length ts : forall values row, length (fill_at ts values row) = length row.
Proof. induction ts as [|i ts IH]; intros [|v values] row; [done..|]. cbn. by rewrite IH, length_insert. Qed.

Lemma position_none i ts : position i ts = None <-> i ∉ ts.
Proof.
  induction ts as [|x ts IH]; cbn; [set_solver|]. destruct (Nat.eqb_spec x i) as [->|Hx]; [set_solver|].
  destruct (position i ts); cbn; [|set_solver]. split; [done|]. intros Hn. exfalso. set_solver.
Qed.
Lemma position_some i ts j : position i ts = Some j -> ts !! j = Some i.
Proof.
  revert j. induction ts as [|x ts IH]; intros j; cbn; [done|]. destruct (Nat.eqb_spec x i) as [->|Hx]; [by intros [= <-]|].
  destruct (position i ts) as [k|]; [|done]. intros [= <-]. cbn. by apply IH.
Qed.
Lemma position_seq i n k : (i < n)%nat -> position (k + i) (seq k n) = Some i.
Proof.
  revert i k. induction n as [|n IH]; intros i k Hi; [lia|]. cbn. destruct i as [|i].
  - by rewrite Nat.add_0_r, Nat.eqb_refl.
  - rewrite (proj2 (Nat.eqb_neq _ _)) by lia. replace (k + S i)%nat with (S k + i)%nat by lia. by rewrite IH by lia.
Qed.

(** Each filled position holds its value, the others what was there before. *)
Lemma fill_at_lookup ts : forall values row i, NoDup ts -> length values = length ts ->
  Forall (fun j => (j < length row)%nat) ts ->
  fill_at ts values row !! i = match position i ts with Some j => values !! j | None => row !! i end.
Proof.
  induction ts as [|x ts IH]; intros [|v values] row i Hn Hl Hb; cbn in Hl; try done. cbn [fill_at position].
  apply NoDup_cons in Hn as [Hx Hn]. apply Forall_cons in Hb as [Hxb Hb].
  rewrite IH; [|done|lia|by rewrite length_insert].
  destruct (Nat.eqb_spec x i) as [->|Hne].
  - rewrite (proj2 (position_none i ts) Hx). by apply list_lookup_insert_eq.
  - destruct (position i ts); cbn; [done|]. by apply list_lookup_insert_ne.
Qed.

(** The positions an INSERT fills: distinct, and inside the schema. *)
Lemma targets_ok s names ts : target_columns s names = Ok ts -> NoDup (map normalized_ names) ->
  NoDup ts /\ Forall (fun j => (j < length (columns_ s))%nat) ts.
Proof.
  unfold target_columns. intros Ht Hn. destruct names as [|n names].
  - injection Ht as <-. split; [apply NoDup_seq|]. apply Forall_forall. intros j Hj%elem_of_seq. lia.
  - split; [by eapply named_targets_nodup|]. apply named_targets_spec in Ht. apply Forall_forall. intros j Hj.
    apply list_elem_of_lookup_1 in Hj as [k Hk]. by destruct (Forall2_lookup_r _ _ _ _ _ Ht Hk) as (m & _ & _ & Hb).
Qed.

Definition filled (s : TableSchema) (ts : list nat) (values : list Value) : Row :=
  fill_at ts values (replicate (length (columns_ s)) VNull).

Lemma filled_lookup s ts values i : NoDup ts -> Forall (fun j => (j < length (columns_ s))%nat) ts ->
  length values = length ts -> (i < length (columns_ s))%nat ->
  filled s ts values !! i = match position i ts with Some j => values !! j | None => Some VNull end.
Proof.
  intros Hn Hb Hl Hi. unfold filled. rewrite fill_at_lookup by (done || by rewrite length_replicate).
  destruct (position i ts); [done|]. by apply lookup_replicate_2.
Qed.
Lemma filled_length s ts values : length (filled s ts values) = length (columns_ s).
Proof. unfold filled. by rewrite fill_at_length, length_replicate. Qed.

Lemma insert_row_filled s names ts values : target_columns s names = Ok ts -> length values = length ts ->
  insert_row_of s names values = Ok (filled s ts values).
Proof.
  intros Ht Hl. unfold insert_row_of. destruct names as [|n names].
  - pose proof (targets_ok s [] ts Ht NoDup_nil_2) as [Hn Hb]. injection Ht as <-. rewrite length_seq in Hl.
    rewrite bool_decide_eq_true_2 by done. f_equal. apply list_eq. intros i.
    destruct (decide (i < length (columns_ s))%nat) as [Hi|Hi].
    + rewrite filled_lookup; [|done|done|by rewrite length_seq|done]. by rewrite (position_seq i _ 0 Hi : position i (seq 0 _) = _).
    + rewrite !lookup_ge_None_2; [done|rewrite filled_length; lia|lia].
  - cbn [target_columns] in Ht. pose proof (Forall2_length _ _ _ (named_targets_spec _ _ _ Ht)) as Hlen.
    rewrite bool_decide_eq_true_2 by congruence. by apply fill_columns_at.
Qed.

(** ** An accepted row of VALUES *)

Lemma validate_values_pointwise cols : forall row, length row = length cols ->
  (forall i c v, cols !! i = Some c -> row !! i = Some v -> validate_value c v = SE_OK) ->
  validate_values cols row = SE_OK.
Proof.
  induction cols as [|c cols IH]; intros [|v row] Hl Hv; [done..|]. cbn [validate_values].
  rewrite (Hv 0%nat c v eq_refl eq_refl). apply IH; [by injection Hl|]. intros i. apply (Hv (S i)).
Qed.

Lemma check_row_values_ok s : forall ts values, check_row_values s ts values = Ok tt ->
  Forall (fun j => (j < length (columns_ s))%nat) ts ->
  forall j i c v, ts !! j = Some i -> columns_ s !! i = Some c -> values !! j = Some v -> validate_value c v = SE_OK.
Proof.
  induction ts as [|x ts IH]; intros [|w values] Hc Hb j i c v Hj Hi Hv; try done.
  apply Forall_cons in Hb as [Hx Hb]. cbn [check_row_values] in Hc.
  destruct (lookup_lt_is_Some_2 _ _ Hx) as [cx Hcx]. rewrite Hcx in Hc.
  destruct (check_value cx w) as [[]|] eqn:Ew; [|done]. apply check_value_ok in Ew.
  destruct j as [|j]; cbn in Hj, Hv; [simplify_eq; congruence|by eapply IH].
Qed.

Lemma check_missing_ok s ts : check_missing s ts = Ok tt ->
  forall i c, columns_ s !! i = Some c -> i ∉ ts -> col_nullable c = true.
Proof.
  unfold check_missing. rewrite check_all_ok. intros Hall i c Hi Hn.
  assert (Hin : imap pair (columns_ s) !! i = Some (i, c)) by (rewrite list_lookup_imap, Hi; done).
  apply (Forall_lookup_1 _ _ _ _ Hall) in Hin. cbn in Hin. rewrite bool_decide_eq_false_2 in Hin by done.
  by destruct (col_nullable c).
Qed.

Lemma accepted_row s ts values : NoDup ts -> Forall (fun j => (j < length (columns_ s))%nat) ts ->
  check_insert_row s ts values = Ok tt ->
  length values = length ts /\ validate_row s (filled s ts values) = SE_OK.
Proof.
  intros Hn Hb Hc. unfold check_insert_row in Hc.
  destruct (negb (length values =? length ts)%nat) eqn:El; [done|]. boolify.
  destruct (check_row_values s ts values) as [[]|] eqn:Er; [|done]. cbn in Hc. split; [done|].
  unfold validate_row. rewrite filled_length, Nat.eqb_refl. cbn. apply validate_values_pointwise; [apply filled_length|].
  intros i c v Hi Hv. rewrite filled_lookup in Hv by (done || by eapply lookup_lt_Some).
  destruct (position i ts) as [j|] eqn:Ep.
  - eapply check_row_values_ok; [exact Er|done|by apply position_some in Ep|done|done].
  - apply position_none in Ep. injection Hv as <-. unfold validate_value. cbn.
    by rewrite (check_missing_ok _ _ Hc i c Hi Ep).
Qed.

(** ** An accepted INSERT *)

Lemma valid_schema_pk s : Schema.validate s = SE_OK ->
  exists c, has_primary_key s = true /\ primary_key_column s = Some c /\ col_nullable c = false /\
    columns_ s !! Z.to_nat (primary_key_index_ s) = Some c /\ 0 <= primary_key_index_ s.
Proof.
  unfold Schema.validate. destruct (has_error s) eqn:He.
  { unfold has_error in He. intros Hs. by rewrite Hs in He. }
  destruct (has_primary_key s) eqn:Hp; [|done]. cbn. unfold primary_key_column, column_at. rewrite Hp.
  unfold has_primary_key in Hp. boolify.
  destruct (lookup_lt_is_Some_2 (columns_ s) (Z.to_nat (primary_key_index_ s))) as [c Hc]; [lia|]. rewrite Hc.
  destruct (col_nullable c) eqn:En; [done|]. intros _. exists c.
  rewrite (proj2 (Z.ltb_ge _ _)), (proj2 (Z.leb_gt _ _)) by lia. by split_and!.
Qed.

Section insert.
Context {E I : Type} `{KVEngineLaws E I}.
Context (c : KVCatalog E) (s : TableSchema) (q : InsertQuery).
Context (Hs : (get_table_schema (current_db_ c) (ins_table q) c).2 = Some s).
Let t := make_table (current_db_ c) s.
Context (Ht : table_ok t) (Hvalid : Schema.validate s = SE_OK).
Context (a0 : amap) (Hrel : table_rel t (cat_engine c) a0).
Context (Hopen : cat_is_open c = true) (Hdb : ident_empty (current_db_ c) = false)
        (Htb : ident_empty (ins_table q) = false).

Lemma get_schema_engine db table (k : KVCatalog E) : cat_engine (get_table_schema db table k).1 = cat_engine k.
Proof. unfold get_table_schema, read_meta. by repeat (case_match; simplify_eq; cbn). Qed.

Lemma probe_free pk : value_wf pk -> is_null pk = false ->
  cv_primary_key_exists c (current_db_ c) (ins_table q) pk <> Some true -> a0 pk = None.
Proof.
  intros Wp Np Hx. cbn in Hx. unfold primary_key_exists in Hx. rewrite Hopen, Hdb, Htb, Np in Hx. cbn in Hx.
  unfold open_table in Hx. rewrite Hopen in Hx. cbn in Hx. pose proof (get_schema_engine (current_db_ c) (ins_table q) c) as He.
  destruct (get_table_schema _ _ c) as [c' o]. cbn in Hs, He. rewrite Hs in Hx. cbn in Hx.
  change (make_table (current_db_ c) s) with t in Hx.
  rewrite He, (find_spec t Ht pk _ a0 Hrel Wp), Np in Hx. by destruct (a0 pk).
Qed.

Context (ts : list nat) (Hn : NoDup ts) (Hb : Forall (fun j => (j < length (columns_ s))%nat) ts).
Context (pkc : ColumnDef) (j : nat) (Hpkc : primary_key_column s = Some pkc).
Context (Hj : position (Z.to_nat (primary_key_index_ s)) ts = Some j).

Lemma filled_pk (values : list Value) v : length values = length ts -> values !! j = Some v ->
  primary_key_of t (filled s ts values) = v.
Proof.
  intros Hl Hv. destruct (valid_schema_pk s Hvalid) as (c' & Hp & _ & _ & Hc & H0).
  apply lookup_lt_Some in Hc. unfold primary_key_of, t. cbn. rewrite filled_length.
  rewrite (proj2 (Z.ltb_ge _ _)), (proj2 (Z.leb_gt _ _)) by lia. cbn.
  rewrite filled_lookup by done. by rewrite Hj, Hv.
Qed.

Lemma target_value (values : list Value) : length values = length ts -> exists v, values !! j = Some v.
Proof. intros Hl. apply lookup_lt_is_Some_2. rewrite Hl. by eapply lookup_lt_Some, position_some. Qed.

(** The rows still to come are new: what was inserted so far is among [seen]. *)
Lemma accepted_rows_insert rows : forall seen a n st a',
  Forall (fun vals => check_insert_row s ts vals = Ok tt) rows -> Forall (Forall value_wf) rows ->
  check_keys c (ins_table q) (col_type pkc) j seen rows = Ok tt ->
  (forall k, value_wf k -> is_null k = false -> a k <> None ->
     a0 k <> None \/ to_column_key k (col_type pkc) ∈ seen) ->
  target_columns s (ins_columns q) = Ok ts ->
  insert_run t (ins_columns q) rows a n st a' -> st = EX_OK \/ st = EX_IO_ERROR.
Proof.
  induction rows as [|vals rows IH]; intros seen a n st a' Hc Hw Hk Hinv Hts Hrun.
  { inversion Hrun; subst. by left. }
  apply Forall_cons in Hc as [Hc Hcs]. apply Forall_cons in Hw as [Hw Hws].
  destruct (accepted_row s ts vals Hn Hb Hc) as [Hl Hv].
  assert (Hrow : insert_row_of (schema_ t) (ins_columns q) vals = Ok (filled s ts vals))
    by (by apply insert_row_filled).
  assert (Hv' : validate_row (schema_ t) (filled s ts vals) = SE_OK) by exact Hv.
  destruct (target_value vals Hl) as [v Hvj]. pose proof (filled_pk vals v Hl Hvj) as Hpk.
  assert (Wv : value_wf v) by (by eapply Forall_lookup_1 in Hw).
  assert (Nv : is_null v = false).
  { destruct (valid_schema_pk s Hvalid) as (c' & _ & _ & Hnn & Hcc & _).
    unfold check_insert_row in Hc. destruct (negb _); [done|].
    destruct (check_row_values s ts vals) as [[]|] eqn:Er; [|done].
    pose proof (check_row_values_ok s ts vals Er Hb j _ _ _ (position_some _ _ _ Hj) Hcc Hvj) as Hok.
    unfold validate_value in Hok. destruct (is_null v); [by rewrite Hnn in Hok|done]. }
  cbn [check_keys] in Hk. rewrite Hvj, Nv in Hk. case_bool_decide as Hseen; [done|]. case_bool_decide as Hex; [done|].
  assert (Hfree : a v = None).
  { destruct (a v) eqn:Ea; [|done]. exfalso. destruct (Hinv v Wv Nv) as [H1|H1]; [by rewrite Ea| |done].
    apply H1. by apply probe_free. }
  inversion Hrun as [|vals' rest b code Herr|vals' rest row b code a1 Hro Hst|vals' rest row b a1 m st' b' Hro Hst Hrest];
    subst; [congruence| |]; rewrite Hrow in Hro; injection Hro as <-.
  - right. inversion Hst; subst; try congruence.
    match goal with Hsw : spec_write _ _ _ _ |- _ => by inversion Hsw; subst end.
  - eapply (IH (to_column_key _ (col_type pkc) :: seen)); [done|done|exact Hk| |done|exact Hrest].
    intros k Wk Nk Hak. inversion Hst; subst.
    match goal with Hsw : spec_write _ _ _ _ |- _ => inversion Hsw; subst end.
    unfold amap_set in Hak. case_decide as Hsame.
    + right. rewrite (same_payload_key _ _ _ Hsame). set_solver.
    + destruct (Hinv k Wk Nk Hak); [by left|right; set_solver].
Qed.
End insert.

(** A loaded table. *)
Lemma load_table_ok {C} `{!CatalogView C} (catalog : C) db table s :
  load_table catalog db table = Ok s <->
  ident_empty table = false /\ ident_empty db = false /\ cv_database_exists catalog db = true /\
  cv_table_schema catalog db table = Some s.
Proof.
  unfold load_table, require_database.
  destruct (ident_empty table), (ident_empty db), (cv_database_exists catalog db), (cv_table_schema catalog db table);
    cbn; naive_solver.
Qed.

(** C19: an INSERT the validator accepts is executed in full, or stopped by the
    storage engine: no accepted row is refused for its shape, its types, a NULL
    or a duplicate primary key, whether the duplicate is in the table or in the
    statement itself. The column list names no column twice: the validator does
    not check that, and [insert_accepts_repeated_column] shows what it lets
    through. *)
Theorem validated_insert_succeeds {E I} `{KVEngineLaws E I} (c : KVCatalog E) s a at_ q fuel e' r :
  let t := make_table (current_db_ c) s in
  (get_table_schema (current_db_ c) (ins_table q) c).2 = Some s ->
  table_ok t -> Schema.validate s = SE_OK -> table_rel t (cat_engine c) a ->
  Forall (Forall value_wf) (ins_values q) -> NoDup (map normalized_ (ins_columns q)) ->
  validate_statement c (QInsert q) = Ok tt ->
  execute fuel (InsertPlan at_ q) t (cat_engine c) = (e', r) ->
  exists n st a', insert_run t (ins_columns q) (ins_values q) a n st a' /\ table_rel t e' a' /\
  match r with
  | Ok rc => st = EX_OK /\ rc_affected_rows rc = N.of_nat (length (ins_values q))
  | Err code => st = EX_IO_ERROR /\ code = EX_IO_ERROR
  end.
Proof.
  intros t Hs Ht Hvalid Hrel Hw Hcols Hok Hx.
  destruct (insert_executes t (cat_engine c) a at_ q fuel e' r Ht Hrel Hw Hx) as (n & st & a' & Hrun & Hrel' & _ & Hr).
  exists n, st, a'. split; [done|]. split; [done|].
  unfold validate_statement, validate_insert in Hok. change (cv_is_open c) with (cat_is_open c) in Hok.
  destruct (cat_is_open c) eqn:Eo; [|done]. cbn [negb] in Hok.
  destruct (load_table c _ (ins_table q)) as [s'|] eqn:El; [|done]. cbn [result_bind] in Hok.
  apply load_table_ok in El as (Etb & Edb & _ & Es). change (cv_table_schema c) with (fun db tb => (get_table_schema db tb c).2) in Es.
  cbn in Es, Edb. rewrite Hs in Es. injection Es as <-.
  destruct (ins_values q) as [|row rows] eqn:Ev; [done|].
  assert (Hne : ins_values q <> []) by (by rewrite Ev). rewrite <- Ev in *. clear Ev row rows.
  destruct (target_columns s (ins_columns q)) as [ts|] eqn:Ets; [|done]. cbn [result_bind] in Hok.
  destruct (check_all _ (ins_values q)) as [[]|] eqn:Ec; [|done]. cbn [result_bind] in Hok. apply check_all_ok in Ec.
  destruct (targets_ok s _ ts Ets Hcols) as [Hn Hb].
  destruct (valid_schema_pk s Hvalid) as (pkc & Hp & Hpkc & Hnn & Hlk & _).
  unfold check_primary_key_conflicts in Hok. rewrite Hp, Hpkc in Hok. cbn [negb] in Hok.
  assert (Hst : st = EX_OK \/ st = EX_IO_ERROR).
  { destruct (position _ ts) as [j|] eqn:Ej.
    - eapply (accepted_rows_insert c s q Hs Ht Hvalid a Hrel Eo Edb Etb ts Hn Hb pkc j Hpkc Ej (ins_values q) [] a);
        [done|done|done|by left|done|exact Hrun].
    - apply position_none in Ej. exfalso. destruct (ins_values q) as [|row rows]; [done|].
      apply Forall_cons in Ec as [Hrow _]. unfold check_insert_row in Hrow. destruct (negb _); [done|].
      destruct (check_row_values _ _ _) as [[]|]; [|done]. by rewrite (check_missing_ok _ _ Hrow _ _ Hlk Ej) in Hnn. }
  destruct r as [rc|code]; [naive_solver|]. destruct Hr as [-> Hcode]. by destruct Hst.
Qed.

(** A table without a key under its prefix is the empty map. *)
Lemma fresh_table_rel {E I} `{KVEngineLaws E I} t (e : E) : table_ok t -> kv_ready e ->
  forallb (fun p => negb (bool_decide (key_prefix_ t `prefix_of` p.1))) (kv_view e) = true ->
  table_rel t e amap_empty.
Proof.
  intros Ht He Hf.
  assert (Hnone : forall k v, mfind k (kv_view e) = Some v -> ~ key_prefix_ t `prefix_of` k).
  { intros k v Hk Hp. apply find_elem in Hk; [|by apply kv_view_sorted]. rewrite forallb_forall in Hf.
    specialize (Hf (k, v) (proj1 (list_elem_of_In _ _) Hk)). cbn in Hf. by rewrite bool_decide_eq_true_2 in Hf. }
  split; [done| |].
  - intros k v Hk Hp. by destruct (Hnone k v Hk).
  - intros pk _ _. unfold amap_empty, abs. destruct (mfind _ _) eqn:Ef; [|done].
    destruct (Hnone _ _ Ef). by apply encode_key_under.
Qed.

Definition demo_catalog3 : KVCatalog Conn := with_db demo_db demo_catalog2.
Definition demo_opened : Table := make_table demo_db (reload demo_schema).

Lemma demo_opened_ok : table_ok demo_opened.
Proof. split; try (vm_compute; reflexivity). repeat constructor; vm_compute; reflexivity. Qed.

Lemma validated_insert_succeeds_witness :
  exists e' rc, execute 1 (InsertPlan demo_at demo_insert) demo_opened (cat_engine demo_catalog3) = (e', Ok rc) /\
    rc_affected_rows rc = 2%N.
Proof.
  destruct (execute 1 (InsertPlan demo_at demo_insert) demo_opened (cat_engine demo_catalog3)) as [e' r] eqn:Ex.
  assert (Hrun : ran_ok (execute 1 (InsertPlan demo_at demo_insert) demo_opened (cat_engine demo_catalog3)) = true)
    by (vm_compute; reflexivity).
  rewrite Ex in Hrun. destruct r as [rc|]; [|discriminate Hrun].
  destruct (validated_insert_succeeds demo_catalog3 (reload demo_schema) amap_empty demo_at demo_insert 1 e' (Ok rc))
    as (n & st & a' & _ & _ & _ & Haff).
  - vm_compute. reflexivity.
  - apply demo_opened_ok.
  - vm_compute. reflexivity.
  - apply fresh_table_rel; [apply demo_opened_ok| |vm_compute; reflexivity].
    apply idle_conn_ready; [vm_compute; reflexivity| |vm_compute; reflexivity].
    apply sorted_by_compute. vm_compute. reflexivity.
  - apply (bool_decide_eq_true_1 _). vm_compute. reflexivity.
  - apply (bool_decide_eq_true_1 _). vm_compute. reflexivity.
  - vm_compute. reflexivity.
  - exact Ex.
  - exists e', rc. split; [reflexivity|]. exact Haff.
Defined.

(** ** An accepted SELECT *)

(** An accepted SELECT refers to columns of its table only: the executor
    resolves its select list and its ORDER BY keys, and every column of its WHERE
    condition has a position in the schema. *)
Theorem validated_select_resolves {C} `{!CatalogView C} (catalog : C) q :
  (select_all q = true \/ Forall (fun r => is_wildcard r = false) (sel_columns q)) ->
  validate_statement catalog (QSelect q) = Ok tt ->
  exists s keys indexes,
    cv_table_schema catalog (cv_current_database catalog) (sel_table q) = Some s /\
    row_comparator s (sel_order_by q) = Some keys /\ select_indexes s q = Some indexes /\
    Forall (fun col => 0 <= column_index col s) (collect_condition_columns (sel_where q)).
Proof.
  intros Hwild Hok. unfold validate_statement, validate_select in Hok.
  destruct (cv_is_open catalog); [|done]. cbn [negb] in Hok.
  destruct (load_table _ _ _) as [s|] eqn:El; [|done]. cbn [result_bind] in Hok. apply load_table_ok in El as (_ & _ & _ & Hs).
  destruct (if negb (select_all q) then _ else _) as [[]|] eqn:Ec; [|done]. cbn [result_bind] in Hok.
  destruct (check_condition_columns _ s) as [[]|] eqn:Ew; [|done]. cbn [result_bind] in Hok.
  apply check_all_ok in Hok, Ew.
  assert (Ho : exists keys, order_keys s (sel_order_by q) = Some keys).
  { induction (sel_order_by q) as [|o l IH]; [by eexists|]. apply Forall_cons in Hok as [Ho Hok].
    apply require_column_ok in Ho. cbn. rewrite (proj2 (Z.ltb_ge _ _)) by lia. destruct (IH Hok) as [keys ->]. by eexists. }
  assert (Hi : exists indexes, select_indexes s q = Some indexes).
  { unfold select_indexes. destruct (select_all q) eqn:Ea; [by eexists|]. destruct Hwild as [|Hwild]; [done|].
    cbn in Ec. apply check_all_ok in Ec. clear Ea. induction (sel_columns q) as [|r l IH]; [by eexists|].
    apply Forall_cons in Ec as [Hr Ec]. apply Forall_cons in Hwild as [Hw Hwild]. rewrite Hw in Hr.
    apply require_column_ok in Hr. cbn. rewrite (proj2 (Z.ltb_ge _ _)) by lia. destruct (IH Hwild Ec) as [ix ->]. by eexists. }
  destruct Ho as [keys Ho], Hi as [ix Hi]. exists s, (default [] (row_comparator s (sel_order_by q))), ix.
  split; [done|]. split; [unfold row_comparator; rewrite Ho; by destruct (_ && _)|]. split; [done|].
  eapply Forall_impl; [exact Ew|]. intros col. apply require_column_ok.
Qed.

Lemma validated_select_resolves_witness :
  exists s keys indexes,
    cv_table_schema demo_catalog3 (cv_current_database demo_catalog3) (sel_table demo_select) = Some s /\
    row_comparator s (sel_order_by demo_select) = Some keys /\ select_indexes s demo_select = Some indexes /\
    Forall (fun col => 0 <= column_index col s) (collect_condition_columns (sel_where demo_select)).
Proof.
  apply (validated_select_resolves demo_catalog3 demo_select).
  - right. repeat constructor.
  - vm_compute. reflexivity.
Defined.

(** ** A column named twice *)

(** A column list that names a column twice is accepted: the value kept is
    the one written last, while the duplicate-key check looks at the first. *)
Theorem insert_accepts_repeated_column :
  let id := identifier (str "id") in
  let row := [VInt I_DATE 1; VInt I_BIGINT 1; VInt I_BIGINT 7] in
  let q := mkInsert (schema_name demo_schema) [identifier (str "born"); id; id] [row] in
  validate_statement demo_catalog3 (QInsert q) = Ok tt /\
  insert_row_of (schema_ demo_opened) (ins_columns q) row = Ok [VInt I_BIGINT 7; VNull; VInt I_DATE 1].
Proof. split; vm_compute; reflexivity. Qed.
