(* ===== verification/TxApi.v ===== *)
(** * What a session uses of a storage connection's transactions

    The transactional part of [KVEngine] ([storage/kv_engine/kv_engine.h]) as a
    class of operations and a class of laws over [KvApi]: writes inside a
    transaction leave the committed data alone, a rollback forgets them, a commit
    publishes them or reports a failure. Connections of the in-memory engine
    satisfy the laws. *)

From S2P Require Import Prelude Bytes OMap KvTypes TxBuffer MockStore MergingIterator MockEngine Transactions KvApi.

Class KVTransactions (E : Type) := {
  kv_in_transaction : E -> bool;
  kv_begin_transaction : E -> E * Status;
  kv_commit_transaction : E -> E * Status;
  kv_rollback_transaction : E -> E * Status;
  kv_acquire_write_slot : N -> E -> E * Status;
  kv_release_write_slot : E -> E;
  kv_group_for_key : Key -> E -> N;
  kv_set_loose_cross_group_reads : bool -> E -> E }.

(** One write of the relation layer. *)
Inductive kv_step {E I} `{!KVEngine E I} : relation E :=
| step_put k v e e' st : kv_put k v e = (e', st) -> kv_step e e'
| step_remove k e e' st : kv_remove k e = (e', st) -> kv_step e e'
| step_range b f e e' st : bytes_ltb b f = true -> kv_write_batch (range_batch b f) e = (e', st) -> kv_step e e'.
Abbreviation kv_steps := (rtc kv_step).

(** [kv_durable]: the committed data of the store. *)
Class KVTransactionLaws (E I : Type) `{KVEngineLaws E I, !KVTransactions E} := {
  kv_durable : E -> omap ByteValue;
  kv_idle_view : forall e, kv_ready e -> kv_in_transaction e = false -> kv_view e = kv_durable e;
  kv_step_in_tx : forall e e', kv_ready e -> kv_in_transaction e = true -> kv_step e e' ->
    kv_in_transaction e' = true /\ kv_durable e' = kv_durable e;
  kv_begin_law : forall e e' st, kv_ready e -> kv_in_transaction e = false ->
    kv_begin_transaction e = (e', st) ->
    kv_ready e' /\ kv_durable e' = kv_durable e /\ kv_view e' = kv_view e /\
    kv_in_transaction e' = bool_decide (st = StOK);
  kv_commit_law : forall e e' st, kv_ready e -> kv_in_transaction e = true ->
    kv_commit_transaction e = (e', st) ->
    kv_ready e' /\ kv_view e' = kv_view e /\ kv_in_transaction e' = negb (bool_decide (st = StOK)) /\
    kv_durable e' = if bool_decide (st = StOK) then kv_view e else kv_durable e;
  kv_rollback_law : forall e e' st, kv_ready e -> kv_in_transaction e = true ->
    kv_rollback_transaction e = (e', st) ->
    st = StOK /\ kv_ready e' /\ kv_in_transaction e' = false /\ kv_durable e' = kv_durable e;
  kv_acquire_law : forall g e e' st, kv_ready e -> kv_acquire_write_slot g e = (e', st) ->
    kv_ready e' /\ kv_durable e' = kv_durable e /\ kv_view e' = kv_view e /\
    kv_in_transaction e' = kv_in_transaction e;
  kv_release_law : forall e, kv_ready e -> kv_in_transaction e = false ->
    kv_ready (kv_release_write_slot e) /\ kv_durable (kv_release_write_slot e) = kv_durable e /\
    kv_in_transaction (kv_release_write_slot e) = false }.

Section steps.
Context {E I : Type} `{KVTransactionLaws E I}.

Lemma kv_step_ready e e' : kv_ready e -> kv_step e e' -> kv_ready e'.
Proof.
  intros He Hs. destruct Hs as [k v e e' st Hp|k e e' st Hp|b f e e' st Hbf Hp].
  - by destruct (kv_put_view k v e e' st He Hp).
  - by destruct (kv_remove_view k e e' st He Hp).
  - by destruct (kv_range_view b f e e' st He Hbf Hp).
Qed.

Lemma kv_steps_ready e e' : kv_ready e -> kv_steps e e' -> kv_ready e'.
Proof. intros He Hs. induction Hs as [|e e1 e' Hs _ IH]; [done|]. apply IH. by eapply kv_step_ready. Qed.

(** The writes of a transaction stay in it. *)
Lemma kv_steps_in_tx e e' : kv_ready e -> kv_in_transaction e = true -> kv_steps e e' ->
  kv_ready e' /\ kv_in_transaction e' = true /\ kv_durable e' = kv_durable e.
Proof.
  intros He Ht Hs. induction Hs as [|e e1 e' Hs _ IH]; [done|].
  destruct (kv_step_in_tx e e1 He Ht Hs) as [Ht1 Hd1].
  destruct (IH (kv_step_ready e e1 He Hs) Ht1) as (? & ? & Hd). split_and!; congruence.
Qed.
End steps.

(** ** Connections of the in-memory engine *)

Definition conn_in_transaction (c : Conn) : bool := match tx_ (c_eng c) with Some _ => true | None => false end.

#[export] Instance Conn_transactions : KVTransactions Conn := {|
  kv_in_transaction := conn_in_transaction;
  kv_begin_transaction c := let '(e, st) := begin_transaction (c_store c) (c_eng c) in (mkConn (c_self c) (c_store c) e, st);
  kv_commit_transaction c := conn_lift c (commit_transaction (c_self c) (c_store c) (c_eng c));
  kv_rollback_transaction c := conn_lift c (rollback_transaction (c_self c) (c_store c) (c_eng c));
  kv_acquire_write_slot _ c := conn_lift c (eng_acquire_write_slot (c_self c) (c_store c) (c_eng c));
  kv_release_write_slot c := let '(s, e) := eng_release_write_slot (c_self c) (c_store c) (c_eng c) in mkConn (c_self c) s e;
  kv_group_for_key _ _ := 0%N;
  kv_set_loose_cross_group_reads _ c := c |}.

Definition conn_durable (c : Conn) : omap ByteValue := data_ (c_store c).

Lemma acquire_data self s s' st : store_acquire_write_slot self s = (s', st) -> data_ s' = data_ s /\ is_open_ s' = is_open_ s.
Proof. unfold store_acquire_write_slot. intros Ha. repeat case_match; by simplify_eq. Qed.

Lemma ensure_slot_conn self s e s' e' st : ensure_write_slot self s e = (s', e', st) ->
  data_ s' = data_ s /\ is_open_ s' = is_open_ s /\ tx_ e' = tx_ e.
Proof.
  unfold ensure_write_slot, eng_acquire_write_slot. destruct (write_slot_ e); [by intros [= <- <- <-]|].
  destruct (negb (is_open_ s)); [by intros [= <- <- <-]|].
  destruct (store_acquire_write_slot self s) as [s1 st1] eqn:Ea. apply acquire_data in Ea as [Hd Ho].
  destruct st1; intros [= <- <- <-]; done.
Qed.

Lemma buffered_durable (c : Conn) w t s' e' st : tx_ (c_eng c) = Some t ->
  buffered (c_self c) w t (c_store c) (c_eng c) = (s', e', st) ->
  data_ s' = data_ (c_store c) /\ is_Some (tx_ e').
Proof.
  intros Et. unfold buffered. destruct (ensure_write_slot _ _ _) as [[s1 e1] st1] eqn:Ee.
  apply ensure_slot_conn in Ee as (Hd & _ & Ht). destruct st1; intros [= <- <- <-]; cbn; try (split; [done|by eexists]);
    (split; [done|by rewrite Ht, Et]).
Qed.

Lemma conn_step_in_tx (c c' : Conn) : conn_ready c -> conn_in_transaction c = true -> kv_step c c' ->
  conn_in_transaction c' = true /\ conn_durable c' = conn_durable c.
Proof.
  intros Hr Ht Hs. unfold conn_in_transaction in *. destruct (tx_ (c_eng c)) as [t|] eqn:Et; [|done].
  assert (Hout : forall w s e st, buffered (c_self c) w t (c_store c) (c_eng c) = (s, e, st) ->
    match tx_ e with Some _ => true | None => false end = true /\ data_ s = data_ (c_store c)).
  { intros w s e st Hb. destruct (buffered_durable c w t s e st Et Hb) as [Hd [t' ->]]. done. }
  destruct Hs as [k v e e' st Hp|k e e' st Hp|b f e e' st Hbf Hp]; cbn in Hp; unfold eng_put, eng_remove, eng_write_batch in Hp;
    rewrite (cr_open _ Hr), Et in Hp; cbn in Hp; unfold conn_lift in Hp;
    destruct (buffered _ _ _ _ _) as [[s1 e1] st1] eqn:Eb; injection Hp as <- _; by eapply Hout.
Qed.

#[local] Arguments end_transaction : simpl never.

Lemma conn_begin_law (c c' : Conn) st : conn_ready c -> conn_in_transaction c = false ->
  kv_begin_transaction c = (c', st) ->
  conn_ready c' /\ conn_durable c' = conn_durable c /\ conn_view c' = conn_view c /\
  conn_in_transaction c' = bool_decide (st = StOK).
Proof.
  intros Hr Ht. unfold conn_in_transaction in Ht. destruct (tx_ (c_eng c)) eqn:Et; [done|]. cbn.
  unfold begin_transaction. rewrite (cr_open _ Hr), Et. cbn. intros [= <- <-].
  split; [|split; [done|]; split; [unfold conn_view; cbn; rewrite Et, (cr_base _ Hr)|]; done].
  split; cbn; [apply Hr|apply Hr|done| |done]. intros t [= <-]. split; [apply tx_inv_empty|done].
Qed.

Lemma end_transaction_ready (c : Conn) s : is_open_ s = true -> sorted (data_ s) ->
  let '(s', e') := end_transaction (c_self c) s (c_eng c) in
  conn_ready (mkConn (c_self c) s' e') /\ data_ s' = data_ s /\ tx_ e' = None /\
  conn_view (mkConn (c_self c) s' e') = data_ s.
Proof.
  intros Ho Hs. destruct (end_transaction (c_self c) s (c_eng c)) as [s' e'] eqn:Ee.
  pose proof (end_transaction_data (c_self c) s (c_eng c)) as Hd. rewrite Ee in Hd. cbn in Hd. destruct Hd as [Hd Hop].
  unfold end_transaction in Ee. injection Ee as _ <-.
  split; [split; cbn; [congruence|by rewrite Hd|done|done|done]|]. by unfold conn_view.
Qed.

Lemma conn_commit_law (c c' : Conn) st : conn_ready c -> conn_in_transaction c = true ->
  kv_commit_transaction c = (c', st) ->
  conn_ready c' /\ conn_view c' = conn_view c /\ conn_in_transaction c' = negb (bool_decide (st = StOK)) /\
  conn_durable c' = if bool_decide (st = StOK) then conn_view c else conn_durable c.
Proof.
  intros Hr Hi. unfold conn_in_transaction in Hi. destruct (tx_ (c_eng c)) as [t|] eqn:Et; [|done].
  destruct (cr_tx _ Hr t Et) as [Hinv Hlv]. cbn. unfold conn_lift, commit_transaction. rewrite (cr_open _ Hr), Et. cbn.
  assert (Hkeep : forall s st1, s = c_store c -> st1 <> StOK -> (c', st) = (mkConn (c_self c) s (c_eng c), st1) ->
    conn_ready c' /\ conn_view c' = conn_view c /\ conn_in_transaction c' = negb (bool_decide (st = StOK)) /\
    conn_durable c' = if bool_decide (st = StOK) then conn_view c else conn_durable c).
  { intros s st1 -> Hne [= -> ->]. rewrite bool_decide_eq_false_2 by done. unfold conn_in_transaction. cbn. rewrite Et.
    by destruct c. }
  destruct (tx_exceeds t); [intros Heq; by apply (Hkeep (c_store c) StInvalidArgument)|].
  destruct (store_write_batch _ (c_store c)) as [s1 st1] eqn:Ew.
  destruct (commit_store_data t _ _ _ Hinv Ew) as [(-> & Ho & _ & _ & ->)|[Hne ->]].
  - assert (Hview : fold_left apply_op (log_ t) (data_ (c_store c)) = conn_view c).
    { unfold conn_view. by rewrite Et, (cr_base _ Hr). }
    rewrite Hview. pose proof (end_transaction_ready c (set_data (conn_view c) (c_store c)) Ho (conn_view_sorted c Hr)) as He.
    destruct (end_transaction _ _ _) as [s' e']. destruct He as (Hr' & Hd & Ht' & Hv). intros [= <- <-].
    unfold conn_in_transaction, conn_durable. cbn. by rewrite Ht', Hd.
  - intros Heq. apply (Hkeep (c_store c) st1); [done|done|]. rewrite <- Heq. by destruct st1.
Qed.

Lemma conn_rollback_law (c c' : Conn) st : conn_ready c -> conn_in_transaction c = true ->
  kv_rollback_transaction c = (c', st) ->
  st = StOK /\ conn_ready c' /\ conn_in_transaction c' = false /\ conn_durable c' = conn_durable c.
Proof.
  intros Hr Hi. unfold conn_in_transaction in Hi. destruct (tx_ (c_eng c)) as [t|] eqn:Et; [|done].
  cbn. unfold conn_lift, rollback_transaction. rewrite (cr_open _ Hr), Et. cbn.
  pose proof (end_transaction_ready c (c_store c) (cr_open _ Hr) (cr_sorted _ Hr)) as He.
  destruct (end_transaction _ _ _) as [s' e']. destruct He as (Hr' & Hd & Ht' & _). intros [= <- <-].
  unfold conn_in_transaction, conn_durable. cbn. by rewrite Ht', Hd.
Qed.

Lemma conn_acquire_law g (c c' : Conn) st : conn_ready c -> kv_acquire_write_slot g c = (c', st) ->
  conn_ready c' /\ conn_durable c' = conn_durable c /\ conn_view c' = conn_view c /\
  conn_in_transaction c' = conn_in_transaction c.
Proof.
  intros Hr. cbn. unfold conn_lift, eng_acquire_write_slot. rewrite (cr_open _ Hr). cbn.
  destruct (write_slot_ (c_eng c)); [intros [= <- <-]; by destruct c|].
  destruct (acquire_cases (c_self c) (c_store c) (cr_open _ Hr)) as [[Ha _]|[Ha _]]; rewrite Ha; intros [= <- <-].
  - assert (Hv : conn_view (mkConn (c_self c) (set_owner (Some (c_self c)) (c_store c))
        (mkMockEngine (tx_ (c_eng c)) None true)) = conn_view c).
    { unfold conn_view. cbn. rewrite (cr_base _ Hr). unfold base_data. cbn. done. }
    split; [|by rewrite Hv]. split; cbn; [apply Hr|apply Hr|done|apply (cr_tx _ Hr)|done].
  - by destruct c.
Qed.

Lemma conn_release_law (c : Conn) : conn_ready c -> conn_in_transaction c = false ->
  conn_ready (kv_release_write_slot c) /\ conn_durable (kv_release_write_slot c) = conn_durable c /\
  conn_in_transaction (kv_release_write_slot c) = false.
Proof.
  intros Hr Ht. cbn. unfold eng_release_write_slot. destruct (negb (write_slot_ (c_eng c))); [by destruct c|].
  destruct (release_data (c_self c) (c_store c)) as (Hd & Ho & _). unfold conn_durable. cbn. rewrite Hd.
  split; [|by split]. pose proof (cr_base _ Hr) as Hb. unfold base_data in Hb.
  split; cbn; [by rewrite Ho; apply Hr|by rewrite Hd; apply Hr|unfold base_data; cbn; by rewrite Hd|apply Hr|apply Hr].
Qed.

#[export] Instance Conn_transaction_laws : KVTransactionLaws Conn EngineIterator.
Proof.
  refine {| kv_durable := conn_durable |}.
  - intros c Hr Ht. cbn in *. unfold conn_view, conn_in_transaction in *. destruct (tx_ (c_eng c)); [done|]. apply Hr.
  - apply conn_step_in_tx.
  - intros c c' st. apply conn_begin_law.
  - intros c c' st. apply conn_commit_law.
  - intros c c' st. apply conn_rollback_law.
  - intros g c c' st. apply conn_acquire_law.
  - intros c. apply conn_release_law.
Defined.
