(* ===== verification/Session.v ===== *)
(** * Sessions: [session/session.h], [session/session.cpp]

    One connection: a statement is parsed, built, validated, planned and run,
    with an implicit transaction around each write statement and the explicit
    transactions of BEGIN, COMMIT and ROLLBACK. The engine pointer and the engine
    inside the catalog are one object, never null; an error is its code (message
    texts and positions are not modelled).

    Parameters: the generated parser, the optimizer's cost comparison (floating
    point; it is given the number of rows of the table when the statistics have
    it) and the texts EXPLAIN prints. *)

From S2P Require Import Prelude Bytes OMap KvTypes KvApi TxApi SqlTypes KeyCodec SqlTruth SqlKeyRange Rewriter Schema RowCodec KeyPrefix Table Catalog Optimizer Planner Executor Execute SelectSpec StmtBuilder StmtValidator.
Local Open Scope Z_scope.

Inductive SessionErrorCode :=
| SN_OK | SN_EMPTY_SQL | SN_PARSE_ERROR | SN_BUILD_ERROR | SN_VALIDATE_ERROR | SN_REWRITE_ERROR | SN_OPTIMIZE_ERROR
| SN_PLAN_ERROR | SN_EXECUTE_ERROR | SN_CONSTRAINT_VIOLATION | SN_NOT_SUPPORTED | SN_TRANSACTION_ERROR | SN_NOT_LEADER.
#[export] Instance SessionErrorCode_eq_dec : EqDecision SessionErrorCode.
Proof. solve_decision. Defined.

(** An error value, or a null pointer followed in the builder or the rewriter. *)
Inductive SessionError := Failed (code : SessionErrorCode) | Crashed.

(** ** Helpers *)

(** [std::isspace] of the "C" locale. *)
Definition isspace (c : byte) : bool :=
  let n := Byte.to_N c in (n =? 32)%N || ((9 <=? n)%N && (n <=? 13)%N).

(** The loop that drops trailing blanks, on the reversed text. *)
Fixpoint drop_spaces (s : bytes) : bytes :=
  match s with c :: rest => if isspace c then drop_spaces rest else s | [] => [] end.

Definition normalize_sql (sql : bytes) : bytes :=
  let trimmed := reverse (drop_spaces (reverse sql)) in
  match last trimmed with
  | Some c => if negb (bool_decide (c = x3b)) then trimmed ++ [x3b] else trimmed
  | None => trimmed
  end.

Definition is_empty_statement (statement : bytes) : bool :=
  bool_decide (statement = []) || bool_decide (statement = [x3b]).

Definition from_stmt_error (code : SessionErrorCode) (error : StmtErrorCode) : SessionErrorCode :=
  if bool_decide (error = ST_DUPLICATE_PRIMARY_KEY) then SN_CONSTRAINT_VIOLATION else code.
Definition from_exec_error (error : ExecErrorCode) : SessionErrorCode :=
  match error with EX_CONSTRAINT_VIOLATION => SN_CONSTRAINT_VIOLATION | _ => SN_EXECUTE_ERROR end.
Definition from_cursor_error (error : CursorErrorCode) : SessionErrorCode :=
  match error with CE_CONSTRAINT_VIOLATION => SN_CONSTRAINT_VIOLATION | _ => SN_EXECUTE_ERROR end.

(** Lines separated by newlines; a last empty line is not one. *)
Fixpoint split_lines_from (current text : bytes) : list bytes :=
  match text with
  | [] => match current with [] => [] | _ => [current] end
  | c :: rest => if bool_decide (c = x0a) then current :: split_lines_from [] rest
                 else split_lines_from (current ++ [c]) rest
  end.
Definition split_lines (text : bytes) : list bytes := split_lines_from [] text.

(** The database or table of a node: of its statement, or of its scan. *)
Definition node_target (p : PlanNode) : Identifier * Identifier :=
  match p with
  | UpdatePlan at_ _ _ | DeletePlan at_ _ _ | InsertPlan at_ _ | DdlPlan at_ _ => at_
  | FullScan t _ | IndexScanPlan t _ _ | RangeUnionPlan t _ _ _ => (tr_db t, tr_table t)
  | _ => (empty_identifier, empty_identifier)
  end.

(** The first non-empty one from the root down; [plan_db] and [plan_table]. *)
Fixpoint plan_name (f : Identifier * Identifier -> Identifier) (p : PlanNode) : Identifier :=
  if negb (ident_empty (f (node_target p))) then f (node_target p)
  else match p with
       | FilterPlan c _ | SortPlan c _ _ _ | LimitPlan c _ | ProjectPlan c _ | UpdatePlan _ _ c | DeletePlan _ _ c =>
           plan_name f c
       | _ => empty_identifier
       end.
Definition plan_db : PlanNode -> Identifier := plan_name fst.
Definition plan_table : PlanNode -> Identifier := plan_name snd.

Definition is_select (q : Query) : bool := match q with QSelect _ => true | _ => false end.
Definition is_ddl (q : Query) : bool :=
  match q with QCreateTable _ _ _ | QDropTable _ _ | QCreateDatabase _ | QDropDatabase _ => true | _ => false end.
Definition is_dml (q : Query) : bool :=
  match q with QSelect _ | QInsert _ | QUpdate _ | QDelete _ => true | _ => false end.
Definition is_ctrl (q : Query) : bool := match q with QUseDatabase _ => true | _ => false end.

(** [QueryRewriter::rewrite]. *)
Definition rewrite_query (q : Query) : result PlanFault Query :=
  match q with
  | QSelect s => let* w := as_ptr (rewrite_condition_tree (sel_where s)) in
      Ok (QSelect (mkSelect (sel_table s) (sel_columns s) w (sel_order_by s) (sel_limit s)))
  | QUpdate u => let* w := as_ptr (rewrite_condition_tree (upd_where u)) in
      Ok (QUpdate (mkUpdate (upd_table u) (upd_assignments u) w))
  | QDelete d => let* w := as_ptr (rewrite_condition_tree (del_where d)) in Ok (QDelete (mkDelete (del_table d) w))
  | _ => Ok q
  end.

(** ** [ParsedStatement] *)

Record ParsedStatement := mkParsed {
  ps_ast : option ASTNode; ps_explain : bool; ps_analyze : bool; ps_read_only : bool; ps_sql : bytes }.

Section Sessions.
Context {E I : Type} `{!ScanIterator I, !KVEngine E I, !KVTransactions E}.
Context (parser : bytes -> option ASTNode) (scan_is_cheaper : option Z -> nat -> bool).
Context (plan_tree_to_string : PlanNode -> bytes) (explain_text : PlanNode -> list Row -> bytes).

Definition parse (statement : bytes) : result SessionError ParsedStatement :=
  let normalized := normalize_sql statement in
  if is_empty_statement normalized then Err (Failed SN_EMPTY_SQL)
  else match parser normalized with
       | None => Err (Failed SN_PARSE_ERROR)
       | Some (NODE_EXPLAIN analyze stmt) =>
           match stmt with
           | None => Err (Failed SN_BUILD_ERROR)
           | Some root =>
               Ok (mkParsed (Some (NODE_EXPLAIN analyze stmt)) true analyze
                     (match root with NODE_SELECT _ _ _ _ _ => true | _ => false end) normalized)
           end
       | Some root =>
           Ok (mkParsed (Some root) false false (match root with NODE_SELECT _ _ _ _ _ => true | _ => false end) normalized)
       end.

(** The statement below an EXPLAIN prefix. *)
Definition statement_root (ast : option ASTNode) : option ASTNode :=
  match ast with Some (NODE_EXPLAIN _ stmt) => stmt | _ => ast end.

(** ** [class Session] *)

Record Session := mkSession {
  catalog_ : KVCatalog E; cross_group_read_loose_ : bool; in_transaction_ : bool; tx_failed_ : bool }.

Definition engine_of (s : Session) : E := cat_engine (catalog_ s).
Definition set_catalog (c : KVCatalog E) (s : Session) : Session :=
  mkSession c (cross_group_read_loose_ s) (in_transaction_ s) (tx_failed_ s).
Definition set_engine (e : E) (s : Session) : Session := set_catalog (with_engine e (catalog_ s)) s.
Definition set_tx (in_tx failed : bool) (s : Session) : Session :=
  mkSession (catalog_ s) (cross_group_read_loose_ s) in_tx failed.

Definition new_session (engine : E) : Session :=
  mkSession (mkCatalog engine StOK empty_identifier) false false false.

Definition set_loose_cross_group_reads (loose : bool) (s : Session) : Session :=
  mkSession (with_engine (kv_set_loose_cross_group_reads loose (engine_of s)) (catalog_ s)) loose
    (in_transaction_ s) (tx_failed_ s).

Definition Answer : Type := result SessionError (ResultCursor (E:=E)).

Definition parse_error_to_session_error (parse_error : SessionError) (s : Session) : SessionError :=
  if tx_failed_ s then Failed SN_TRANSACTION_ERROR else parse_error.

Record Prepared := mkPrepared { pr_query : Query; pr_explain : bool; pr_analyze : bool }.

Definition prepare (parsed : ParsedStatement) (s : Session) : result SessionError Prepared :=
  match statement_root (ps_ast parsed) with
  | None => Err (Failed SN_BUILD_ERROR)
  | Some root =>
      match build (Some root) with
      | Err (inr _) => Err Crashed
      | Err (inl error) => Err (Failed (from_stmt_error SN_BUILD_ERROR error))
      | Ok query =>
          match validate_statement (catalog_ s) query with
          | Err error => Err (Failed (from_stmt_error SN_VALIDATE_ERROR error))
          | Ok _ => Ok (mkPrepared query (ps_explain parsed) (ps_analyze parsed))
          end
      end
  end.

(** [stats_provider]: the row count the optimizer may use. *)
Definition known_rows (q : Query) (s : Session) : option Z :=
  match resolve_target (catalog_ s) q with
  | Err _ => None
  | Ok (db, table) =>
      match (table_stats db table (catalog_ s)).2 with
      | Ok stats => if 0 <=? ts_row_count stats then Some (ts_row_count stats) else None
      | Err _ => None
      end
  end.

Definition build_plan (query : Query) (s : Session) : result SessionError PlanNode :=
  match rewrite_query query with
  | Err _ => Err Crashed
  | Ok rewritten =>
      match optimize (scan_is_cheaper (known_rows rewritten s)) (catalog_ s) rewritten with
      | Err (inr _) => Err Crashed
      | Err (inl _) => Err (Failed SN_OPTIMIZE_ERROR)
      | Ok optimized =>
          match plan optimized with
          | Err _ => Err (Failed SN_PLAN_ERROR)
          | Ok planned => Ok planned
          end
      end
  end.

(** *** Transaction control *)

Definition begin_transaction (s : Session) : Session * Answer :=
  if in_transaction_ s then (s, Err (Failed SN_TRANSACTION_ERROR))
  else
    let '(e, status) := kv_begin_transaction (engine_of s) in
    let s := set_engine e s in
    if negb (bool_decide (status = StOK)) then (s, Err (Failed SN_TRANSACTION_ERROR))
    else (set_tx true false s, Ok empty_result).

Definition commit_transaction (s : Session) : Session * Answer :=
  if negb (in_transaction_ s) then (s, Err (Failed SN_TRANSACTION_ERROR))
  else if tx_failed_ s then
    let '(e, _) := kv_rollback_transaction (engine_of s) in
    (set_tx false false (set_engine e s), Err (Failed SN_TRANSACTION_ERROR))
  else
    let '(e, status) := kv_commit_transaction (engine_of s) in
    let s := set_engine e s in
    if negb (bool_decide (status = StOK)) then (s, Err (Failed SN_TRANSACTION_ERROR))
    else (set_tx false (tx_failed_ s) s, Ok empty_result).

Definition rollback_transaction (s : Session) : Session * Answer :=
  if negb (in_transaction_ s) then (s, Err (Failed SN_TRANSACTION_ERROR))
  else
    let '(e, status) := kv_rollback_transaction (engine_of s) in
    let s := set_tx false false (set_engine e s) in
    if negb (bool_decide (status = StOK)) then (s, Err (Failed SN_TRANSACTION_ERROR))
    else (s, Ok empty_result).

(** *** [class AutoCommit]

    The guard around a write statement: [guard_open] is its constructor,
    [guard_close] its destructor, the boolean its [active_]. *)

Definition guard_open (on : bool) (e : E) : E * bool :=
  if on && negb (kv_in_transaction e) then
    let '(e, status) := kv_begin_transaction e in (e, bool_decide (status = StOK))
  else (e, false).
Definition guard_commit (active : bool) (e : E) : E * bool * Status :=
  if negb active then (e, active, StOK)
  else let '(e, status) := kv_commit_transaction e in (e, negb (bool_decide (status = StOK)), status).
Definition guard_close (active : bool) (e : E) : E := if active then (kv_rollback_transaction e).1 else e.

(** *** DDL and USE *)

(** The schema of CREATE TABLE ([schema_from_query]) is [schema_of_columns]. *)
Definition execute_catalog_statement (now : Z) (query : Query) (c : KVCatalog E) : KVCatalog E * Answer :=
  let done r := let '(c, ok) := r in (c, if ok : bool then Ok empty_result else Err (Failed SN_EXECUTE_ERROR)) in
  let target database := if ident_empty database then current_db_ c else database in
  match query with
  | QUseDatabase db => done (use_database db c)
  | QCreateDatabase db => done (create_database now db c)
  | QDropDatabase db => done (drop_database db c)
  | QCreateTable db table columns => done (create_table now (target db) (schema_of_columns table columns) c)
  | QDropTable db table => done (drop_table (target db) table c)
  | _ => (c, Err (Failed SN_EXECUTE_ERROR))
  end.

(** *** Routing *)

Definition routing_key (parsed : ParsedStatement) (s : Session) : option Key :=
  let of_table table :=
    match table with
    | None | Some [] => None
    | Some name => Some (data_prefix (current_db_ (catalog_ s)) (identifier name))
    end in
  match statement_root (ps_ast parsed) with
  | Some (NODE_SELECT t _ _ _ _) => of_table t
  | Some (NODE_INSERT t _ _) => of_table t
  | Some (NODE_UPDATE t _ _) => of_table t
  | Some (NODE_DELETE t _) => of_table t
  | Some (NODE_CREATE_TABLE _ _) | Some (NODE_DROP_TABLE _) | Some (NODE_CREATE_DATABASE _)
  | Some (NODE_DROP_DATABASE _) | Some (NODE_USE _) => Some key_databases
  | _ => None
  end.

(** *** Running a statement *)

(** How the body of [execute_parsed] leaves: through [finish], or by a bare
    [return]. *)
Inductive BodyExit := Finish (r : Answer) | Return (error : SessionError).

Definition row_delta (q : Query) (affected : Z) : Z :=
  match q with QInsert _ => affected | QDelete _ => - affected | _ => 0 end.

Definition run_dml (fuel : nat) (now : Z) (query : Query) (planned : PlanNode) (c : KVCatalog E) : KVCatalog E * Answer :=
  let '(c, table) := open_table (plan_db planned) (plan_table planned) c in
  match table with
  | Err _ => (c, Err (Failed SN_EXECUTE_ERROR))
  | Ok t =>
      let '(e, cursor) := Execute.execute fuel planned t (cat_engine c) in
      let c := with_engine e c in
      match cursor with
      | Err error => (c, Err (Failed (from_exec_error error)))
      | Ok rc =>
          if negb (x_produces_rows (rc_root rc)) && ce_is_error (rc_error rc)
          then (c, Err (Failed (from_cursor_error (rc_error rc))))
          else if x_is_write (rc_root rc) && (0 <? rc_affected_rows rc)%N then
            let delta := row_delta query (wrap64 (Z.of_N (rc_affected_rows rc))) in
            ((touch_table now (plan_db planned) (plan_table planned) delta c).1, Ok rc)
          else (c, Ok rc)
      end
  end.

Definition run_body (fuel : nat) (now : Z) (query : Query) (s : Session) : Session * BodyExit :=
  if is_ddl query || is_ctrl query then
    let '(c, r) := execute_catalog_statement now query (catalog_ s) in (set_catalog c s, Finish r)
  else if negb (is_dml query) then (s, Return (Failed SN_NOT_SUPPORTED))
  else match build_plan query s with
       | Err error => (s, Return error)
       | Ok planned => let '(c, r) := run_dml fuel now query planned (catalog_ s) in (set_catalog c s, Finish r)
       end.

(** The lambda [finish]. *)
Definition finish (active : bool) (r : Answer) (s : Session) : Session * bool * Answer :=
  match r with
  | Err error => (if in_transaction_ s then set_tx (in_transaction_ s) true s else s, active, Err error)
  | Ok cursor =>
      let '(e, active, committed) := guard_commit active (engine_of s) in
      let s := set_engine e s in
      if negb (bool_decide (committed = StOK)) then (s, active, Err (Failed SN_EXECUTE_ERROR))
      else (s, active, Ok cursor)
  end.

(** From the write slot on: the slot, the guard, the body, the guard's end. *)
Definition run_statement (fuel : nat) (now : Z) (parsed : ParsedStatement) (query : Query) (s : Session)
    : Session * Answer :=
  let own_transaction := negb (in_transaction_ s) in
  let is_write_stmt := negb (is_select query) in
  let group := match routing_key parsed s with Some k => kv_group_for_key k (engine_of s) | None => 0%N end in
  let '(e, slot) := if is_write_stmt then kv_acquire_write_slot group (engine_of s) else (engine_of s, StOK) in
  let s := set_engine e s in
  if negb (bool_decide (slot = StOK)) then (s, Err (Failed SN_TRANSACTION_ERROR))
  else
    let '(e, active) := guard_open (own_transaction && is_write_stmt) (engine_of s) in
    let s := set_engine e s in
    if own_transaction && is_write_stmt && negb active then
      (set_engine (kv_release_write_slot (engine_of s)) s, Err (Failed SN_EXECUTE_ERROR))
    else
      let '(s, exit) := run_body fuel now query s in
      let '(s, active, r) := match exit with Finish r => finish active r s | Return error => (s, active, Err error) end in
      (set_engine (guard_close active (engine_of s)) s, r).

(** *** EXPLAIN *)

(** The run of EXPLAIN ANALYZE. *)
Definition explain_analyze (fuel : nat) (planned : PlanNode) (s : Session) : Session * Answer :=
  let '(c, table) := open_table (plan_db planned) (plan_table planned) (catalog_ s) in
  let s := set_catalog c s in
  match table with
  | Err _ => (s, Err (Failed SN_EXECUTE_ERROR))
  | Ok t =>
      let '(e, cursor) := Execute.execute fuel planned t (engine_of s) in
      let s := set_engine e s in
      match cursor with
      | Err error => (s, Err (Failed (from_exec_error error)))
      | Ok rc =>
          let '(rows, code) := fetch_all fuel fuel (engine_of s) rc in
          if ce_is_error code then (s, Err (Failed (from_cursor_error code)))
          else
            let n := length rows in
            let tail := str "(" ++ int_to_string (Z.of_nat n) ++ str " row" ++
                        (if (n =? 1)%nat then [] else str "s") ++ str " in result)" in
            (s, Ok (text_result (str "QUERY PLAN") (split_lines (explain_text planned rows) ++ [tail])))
      end
  end.

Definition execute_explain (fuel : nat) (query : Query) (analyze : bool) (s : Session) : Session * Answer :=
  match query with
  | QTransaction _ => (s, Err (Failed SN_NOT_SUPPORTED))
  | _ =>
  if is_ddl query || is_ctrl query || negb (is_dml query) then (s, Err (Failed SN_NOT_SUPPORTED))
  else match build_plan query s with
       | Err error => (s, Err error)
       | Ok planned =>
           if negb analyze then (s, Ok (text_result (str "QUERY PLAN") (split_lines (plan_tree_to_string planned))))
           else if negb (is_select query) then (s, Err (Failed SN_NOT_SUPPORTED))
           else explain_analyze fuel planned s
       end
  end.

(** *** [execute_parsed] and [execute] *)

(** A null pointer read by [prepare], on a tree the grammar cannot make, is not
    told apart from its other failures where a transaction has been aborted. *)
Definition execute_parsed (fuel : nat) (now : Z) (parsed : ParsedStatement) (s : Session) : Session * Answer :=
  if is_empty_statement (ps_sql parsed) then (s, Err (Failed SN_EMPTY_SQL))
  else if negb (cat_is_open (catalog_ s)) then (s, Err (Failed SN_EXECUTE_ERROR))
  else
    let prepared := prepare parsed s in
    match prepared with
    | Ok (mkPrepared (QTransaction TX_BEGIN) false _) => begin_transaction s
    | Ok (mkPrepared (QTransaction TX_COMMIT) false _) => commit_transaction s
    | Ok (mkPrepared (QTransaction TX_ROLLBACK) false _) => rollback_transaction s
    | _ =>
        if tx_failed_ s then (s, Err (Failed SN_TRANSACTION_ERROR))
        else match prepared with
             | Err error => (s, Err error)
             | Ok p =>
                 if pr_explain p then execute_explain fuel (pr_query p) (pr_analyze p) s
                 else run_statement fuel now parsed (pr_query p) s
             end
    end.

Definition execute (fuel : nat) (now : Z) (sql : bytes) (s : Session) : Session * Answer :=
  let statement := normalize_sql sql in
  if is_empty_statement statement then (s, Err (Failed SN_EMPTY_SQL))
  else if negb (cat_is_open (catalog_ s)) then (s, Err (Failed SN_EXECUTE_ERROR))
  else match parse statement with
       | Err error => (s, Err (parse_error_to_session_error error s))
       | Ok parsed => execute_parsed fuel now parsed s
       end.

(** *** Metadata queries *)

Record DatabaseInfo := mkDatabaseInfo {
  di_name : Identifier; di_created_at : Z; di_table_count : nat; di_is_current : bool }.
Record TableInfo := mkTableInfo {
  ti_name : Identifier; ti_column_count : nat; ti_primary_key : Identifier; ti_created_at : Z; ti_last_write_at : Z;
  ti_row_count : N }.

Definition databases (s : Session) : list DatabaseInfo :=
  let c := catalog_ s in
  if negb (cat_is_open c) then []
  else map (fun db =>
         mkDatabaseInfo db (match (database_stats db c).2 with Ok st => db_created_at st | Err _ => 0 end)
           (length (list_tables db c).2)
           (negb (ident_empty (current_db_ c)) && ident_eqb db (current_db_ c)))
       (list_databases c).2.

Definition table_info (fuel : nat) (target table : Identifier) (c : KVCatalog E) : TableInfo :=
  let schema := (get_table_schema target table c).2 in
  let stats := (table_stats target table c).2 in
  mkTableInfo table
    (match schema with Some s => length (columns_ s) | None => 0%nat end)
    (match schema with Some s => if has_primary_key s then primary_key_name s else empty_identifier | None => empty_identifier end)
    (match stats with Ok st => ts_created_at st | Err _ => 0 end)
    (match stats with Ok st => ts_last_write_at st | Err _ => 0 end)
    (match (open_table target table c).2 with
     | Ok t => match row_count fuel t (cat_engine c) with Some (Ok n) => n | _ => 0%N end
     | Err _ => 0%N end).

Definition tables (fuel : nat) (db : Identifier) (s : Session) : list TableInfo :=
  let c := catalog_ s in
  if negb (cat_is_open c) then []
  else
    let target := if ident_empty db then current_db_ c else db in
    if ident_empty target || negb (database_exists target c).2 then []
    else map (fun table => table_info fuel target table c) (list_tables target c).2.

Definition table_schema (table db : Identifier) (s : Session) : option TableSchema :=
  let c := catalog_ s in
  if negb (cat_is_open c) || ident_empty table then None
  else
    let target := if ident_empty db then current_db_ c else db in
    if ident_empty target then None else (get_table_schema target table c).2.
End Sessions.
Arguments Session E : clear implicits.
