(* ===== verification/SessionSteps.v ===== *)
(** * How a statement moves the engine

    Every operation of the catalog and every operator of a plan changes the
    storage engine only through its write operations ([TxApi.kv_step]). Whatever
    those writes preserve, a whole statement preserves. *)

From S2P Require Import Prelude Bytes OMap KvTypes KvApi TxApi SqlTypes KeyCodec SqlTruth SqlKeyRange Rewriter Schema RowCodec KeyPrefix Table Catalog CatalogSpec Optimizer Planner Executor Execute StmtBuilder StmtValidator Session.
Local Open Scope Z_scope.

Section Steps.
Context {E I : Type} `{!ScanIterator I, !KVEngine E I}.

(** ** The catalog *)

Definition cat_moves (c c' : KVCatalog E) : Prop := kv_steps (cat_engine c) (cat_engine c').

#[local] Instance cat_moves_preorder : PreOrder cat_moves.
Proof. split; [intros c; apply rtc_refl|intros a b c; unfold cat_moves; intros; by etrans]. Qed.

Lemma read_meta_moves key (c : KVCatalog E) : cat_moves c (read_meta key c).1.
Proof. unfold read_meta. repeat case_match; apply rtc_refl. Qed.
Lemma write_meta_moves key value (c : KVCatalog E) : cat_moves c (write_meta key value c).1.
Proof.
  unfold write_meta. case_match; [apply rtc_refl|]. destruct (kv_put _ _ _) as [e st] eqn:Ep.
  by eapply rtc_once, step_put.
Qed.
Lemma drop_meta_moves key (c : KVCatalog E) : cat_moves c (drop_meta key c).
Proof.
  unfold drop_meta, cat_moves. cbn. destruct (kv_remove _ _) as [e st] eqn:Ep. by eapply rtc_once, step_remove.
Qed.
Lemma remove_prefix_moves prefix (c : KVCatalog E) : prefix_end prefix <> [] -> cat_moves c (remove_prefix prefix c).1.
Proof.
  intros Hp. unfold remove_prefix. case_match; [apply rtc_refl|]. destruct (kv_write_batch _ _) as [e st] eqn:Ep.
  eapply rtc_once, step_range; [|exact Ep]. by apply (prefix_interval prefix prefix Hp).
Qed.
Lemma list_databases_moves (c : KVCatalog E) : cat_moves c (list_databases c).1.
Proof. unfold list_databases. pose proof (read_meta_moves key_databases c) as Hm. by destruct (read_meta _ _). Qed.
Lemma list_tables_moves db (c : KVCatalog E) : cat_moves c (list_tables db c).1.
Proof. unfold list_tables. pose proof (read_meta_moves (db_tables db) c) as Hm. by destruct (read_meta _ _). Qed.
Lemma database_exists_moves db (c : KVCatalog E) : cat_moves c (database_exists db c).1.
Proof. unfold database_exists. pose proof (list_databases_moves c) as Hm. by destruct (list_databases _). Qed.
Lemma table_exists_moves db table (c : KVCatalog E) : cat_moves c (table_exists db table c).1.
Proof. unfold table_exists. pose proof (list_tables_moves db c) as Hm. by destruct (list_tables _ _). Qed.
Lemma write_table_list_moves db names (c : KVCatalog E) : cat_moves c (write_table_list db names c).1.
Proof. apply write_meta_moves. Qed.
Lemma with_db_moves db (c : KVCatalog E) : cat_moves c (with_db db c).
Proof. apply rtc_refl. Qed.
Lemma table_stats_moves db table (c : KVCatalog E) : cat_moves c (table_stats db table c).1.
Proof.
  unfold table_stats. pose proof (table_exists_moves db table c) as Hm. destruct (table_exists _ _ _) as [c1 b]. cbn in Hm.
  case_match; [done|]. pose proof (read_meta_moves (table_stats_key db table) c1) as Hr. destruct (read_meta _ _) as [c2 d].
  cbn in *. by etrans.
Qed.
Lemma get_table_schema_moves db table (c : KVCatalog E) : cat_moves c (get_table_schema db table c).1.
Proof.
  unfold get_table_schema. pose proof (read_meta_moves (db_schema db table) c) as Hm. destruct (read_meta _ _) as [c1 d].
  repeat case_match; done.
Qed.
Lemma open_table_moves db table (c : KVCatalog E) : cat_moves c (open_table db table c).1.
Proof.
  unfold open_table. case_match; [apply rtc_refl|]. pose proof (get_table_schema_moves db table c) as Hm.
  destruct (get_table_schema _ _ _) as [c1 [s|]]; done.
Qed.

(** The next call of an operation on a catalog, with its effect since [c0]. *)
Ltac cat_after c0 r lem :=
  let H := fresh "Hm" in
  assert (H : cat_moves c0 r.1) by (etrans; [|apply lem]; assumption);
  destruct r as [? ?]; cbn [fst snd] in H.
Ltac cat_next c0 :=
  match goal with
  | |- context [write_meta ?k ?v ?c] => cat_after c0 (write_meta k v c) write_meta_moves
  | |- context [write_table_list ?d ?l ?c] => cat_after c0 (write_table_list d l c) write_table_list_moves
  | |- context [database_exists ?d ?c] => cat_after c0 (database_exists d c) database_exists_moves
  | |- context [table_exists ?d ?t ?c] => cat_after c0 (table_exists d t c) table_exists_moves
  | |- context [table_stats ?d ?t ?c] => cat_after c0 (table_stats d t c) table_stats_moves
  | |- context [drop_meta ?k ?c] =>
      let H := fresh "Hm" in
      assert (H : cat_moves c0 (drop_meta k c)) by (etrans; [|apply drop_meta_moves]; assumption);
      revert H; generalize (drop_meta k c); intros ? H
  | |- context [remove_prefix ?p ?c] =>
      cat_after c0 (remove_prefix p c) (remove_prefix_moves p c ltac:(auto using data_prefix_end, db_schema_prefix_end, db_data_prefix_end, table_stats_prefix_end))
  | |- context [list_databases ?c] => cat_after c0 (list_databases c) list_databases_moves
  | |- context [list_tables ?d ?c] => cat_after c0 (list_tables d c) list_tables_moves
  end.
Ltac cat_walk c :=
  assert (cat_moves c c) by reflexivity;
  repeat first [ progress cbn [fst snd] | assumption | cat_next c | case_match ].

Lemma use_database_moves db (c : KVCatalog E) : cat_moves c (use_database db c).1.
Proof. unfold use_database. cat_walk c. Qed.
Lemma create_database_moves now db (c : KVCatalog E) : cat_moves c (create_database now db c).1.
Proof. unfold create_database. cat_walk c. Qed.
Lemma drop_database_moves db (c : KVCatalog E) : cat_moves c (drop_database db c).1.
Proof. unfold drop_database. cat_walk c. Qed.
Lemma create_table_moves now db s (c : KVCatalog E) : cat_moves c (create_table now db s c).1.
Proof. unfold create_table. cat_walk c. Qed.
Lemma drop_table_moves db table (c : KVCatalog E) : cat_moves c (drop_table db table c).1.
Proof. unfold drop_table. cat_walk c. Qed.
Lemma touch_table_moves now db table d (c : KVCatalog E) : cat_moves c (touch_table now db table d c).1.
Proof. unfold touch_table. cat_walk c. Qed.

(** ** Tables and operators *)

Lemma insert_moves t row (e : E) : kv_steps e (insert t row e).1.
Proof.
  unfold insert. case_match; try apply rtc_refl. case_match; [apply rtc_refl|]. case_match; [apply rtc_refl|].
  destruct (kv_put _ _ e) as [e' st] eqn:Ep. assert (kv_steps e e') by (by eapply rtc_once, step_put).
  by destruct st.
Qed.
Lemma update_row_moves t pk row (e : E) : kv_steps e (update_row t pk row e).1.
Proof.
  unfold update_row. case_match; [apply rtc_refl|]. case_match; try apply rtc_refl. case_match; [apply rtc_refl|].
  destruct (kv_put _ _ e) as [e' st] eqn:Ep. assert (kv_steps e e') by (by eapply rtc_once, step_put).
  by destruct st.
Qed.
Lemma remove_moves t pk (e : E) : kv_steps e (remove t pk e).1.
Proof.
  unfold remove. case_match; [apply rtc_refl|]. destruct (kv_remove _ e) as [e' st] eqn:Ep. by eapply rtc_once, step_remove.
Qed.

(** Opening an operator: the only call that may write. *)
Definition opens {X} `{!Executor E X} (x : X) : Prop :=
  forall fuel e e' x' st, x_open fuel e x = (e', x', st) -> kv_steps e e'.

Lemma insert_opens x : opens (X:=InsertExecutor) x.
Proof.
  intros fuel e e' x' st. cbn. unfold ix_open. case_match; [intros [= <- <- <-]; apply rtc_refl|].
  generalize (with_ix (mkWrite true 0 CE_OK) x). generalize 0%nat. generalize (length (ix_values x)). clear.
  intros n. revert e e' x' st. induction n as [|n IH]; intros e e' x' st i x; cbn [ix_loop]; [intros [= <- <- <-]; apply rtc_refl|].
  destruct (build_row x i) as [row|code]; [|intros [= <- <- <-]; apply rtc_refl].
  pose proof (insert_moves (ix_table x) row e) as Hm.
  destruct (insert _ _ e) as [e1 [[]|code]]; cbn in Hm; [|intros [= <- <- <-]; done]. intros Hl. etrans; [done|by eapply IH].
Qed.

Section child.
Context {X : Type} `{!Executor E X} (c : X) (Hc : opens c).

Lemma update_opens q t : opens (update_executor q c t).
Proof.
  intros fuel e e' x' st. cbn. unfold ux_open. cbn. destruct (x_open fuel e c) as [[e1 c1] st1] eqn:Eo.
  apply Hc in Eo. destruct (negb _); [by intros [= <- <- <-]|]. intros Hl. etrans; [exact Eo|]. clear Eo. revert Hl.
  generalize (with_ux (mkWrite true 0 CE_OK) c1 (update_executor q c t)). generalize fuel at 1. intros turns.
  revert e1 e' x' st. induction turns as [|n IH]; intros e1 e' x' st x; cbn [ux_loop]; [intros [= <- <- <-]; apply rtc_refl|].
  destruct (x_next fuel e1 (ux_child x)) as [c2 r]. destruct r as [row|code]; [|by destruct code; intros [= <- <- <-]].
  destruct (is_null _); [by intros [= <- <- <-]|]. destruct (set_columns _ row) as [updated|code]; [|by intros [= <- <- <-]].
  match goal with |- context [update_row ?t ?k ?r e1] => pose proof (update_row_moves t k r e1) as Hm;
    destruct (update_row t k r e1) as [e2 [[]|code]] end; cbn in Hm; [|intros [= <- <- <-]; done].
  intros Hl. etrans; [done|by eapply IH].
Qed.

Lemma delete_opens t : opens (delete_executor c t).
Proof.
  intros fuel e e' x' st. cbn. unfold dx_open. cbn. destruct (x_open fuel e c) as [[e1 c1] st1] eqn:Eo.
  apply Hc in Eo. destruct (negb _); [by intros [= <- <- <-]|]. destruct (dx_collect _ _ _ _ _ _) as [c2 keys].
  destruct keys as [doomed|code]; [|by intros [= <- <- <-]]. intros Hl. etrans; [exact Eo|]. clear Eo. revert Hl.
  match goal with |- dx_remove _ _ ?x = _ -> _ => generalize x end. revert e1 e' x' st.
  induction doomed as [|pk rest IH]; intros e1 e' x' st x; cbn [dx_remove]; [intros [= <- <- <-]; apply rtc_refl|].
  pose proof (remove_moves (dx_table x) pk e1) as Hm.
  destruct (remove _ pk e1) as [e2 [[]|code]]; cbn in Hm; [|intros [= <- <- <-]; done].
  intros Hl. etrans; [done|by eapply IH].
Qed.

Lemma filter_opens w t : opens (mkFilter w t c).
Proof.
  intros fuel e e' x' st. cbn. unfold fx_open. cbn. destruct (x_open fuel e c) as [[e1 c1] st1] eqn:Eo. apply Hc in Eo.
  by intros [= <- <- <-].
Qed.
Lemma limit_opens l : opens (limit_executor l c).
Proof.
  intros fuel e e' x' st. cbn. unfold lx_open. cbn. destruct (x_open fuel e c) as [[e1 c1] st1] eqn:Eo. apply Hc in Eo.
  by intros [= <- <- <-].
Qed.
Lemma project_opens t cols ix : opens (mkProject t cols ix c).
Proof.
  intros fuel e e' x' st. cbn. unfold px_open. cbn. case_match; [|intros [= <- <- <-]; apply rtc_refl].
  destruct (x_open fuel e c) as [[e1 c1] st1] eqn:Eo. apply Hc in Eo. by intros [= <- <- <-].
Qed.
Lemma sort_opens t o b n : opens (sort_executor t o b n c).
Proof.
  intros fuel e e' x' st. cbn. unfold so_open. cbn. destruct (x_open fuel e c) as [[e1 c1] st1] eqn:Eo. apply Hc in Eo.
  repeat (case_match; simplify_eq); try by intros [= <- <- <-].
Qed.
End child.

Lemma select_scan_opens x : opens (X:=ScanExecutor) x.
Proof.
  intros fuel e e' x' st. cbn. unfold sx_open.
  repeat (case_match; simplify_eq); intros Ho; simplify_eq; apply rtc_refl.
Qed.

Definition any_opens (x : AnyExecutor E) : Prop := opens x.

Lemma pack_opens X (H : Executor E X) (x : X) : opens x -> any_opens (Pack X x).
Proof.
  intros Hx fuel e e' x' st. cbn. destruct (x_open fuel e x) as [[e1 x1] st1] eqn:Eo. apply Hx in Eo. by intros [= <- <- <-].
Qed.
Lemma unpack_opens (x : AnyExecutor E) : any_opens x -> @opens _ (any_ops x) (any_state x).
Proof.
  intros Hx fuel e e' x' st Ho. eapply (Hx fuel e e' _ st). cbn. by rewrite Ho.
Qed.

Lemma create_opens p t x : create p t = Ok x -> any_opens x.
Proof.
  revert x. induction p as [tr a|tr r a|tr rs a ks|c IH w|c IH o b n|c IH l|c IH cols|at_ q c IH|at_ q c IH|at_ q|at_ q];
    intros x; cbn [create].
  1-3: unfold create_scan; cbn; case_match; [done|]; intros [= <-]; apply pack_opens, select_scan_opens.
  1-6: unfold with_child; destruct (create c t) as [child|] eqn:Ec; [|done]; intros [= <-];
    pose proof (unpack_opens child (IH child eq_refl)) as Hc.
  - by apply pack_opens, (filter_opens (any_state child)).
  - by apply pack_opens, (sort_opens (any_state child)).
  - by apply pack_opens, (limit_opens (any_state child)).
  - by apply pack_opens, (project_opens (any_state child)).
  - by apply pack_opens, (update_opens (any_state child)).
  - by apply pack_opens, (delete_opens (any_state child)).
  - intros [= <-]. apply pack_opens, insert_opens.
  - done.
Qed.

Lemma execute_moves fuel p t (e : E) : kv_steps e (Execute.execute fuel p t e).1.
Proof.
  unfold Execute.execute. destruct (create p t) as [root|] eqn:Ec; [|apply rtc_refl]. apply create_opens in Ec.
  destruct (x_produces_rows root); [apply rtc_refl|]. unfold open_now. cbn [rc_closed rc_opened result_cursor rc_root].
  destruct (x_open fuel e root) as [[e1 x1] st1] eqn:Eo. by apply Ec in Eo.
Qed.
(** A plan that produces rows is not run yet. *)
Lemma execute_lazy fuel p t (e : E) root : create p t = Ok root -> x_produces_rows root = true ->
  (Execute.execute fuel p t e).1 = e.
Proof. intros Hc Hr. unfold Execute.execute. by rewrite Hc, Hr. Qed.

(** ** Statements *)

Lemma run_dml_moves fuel now q p (c : KVCatalog E) : cat_moves c (run_dml fuel now q p c).1.
Proof.
  unfold run_dml. pose proof (open_table_moves (plan_db p) (plan_table p) c) as Ho.
  destruct (open_table _ _ c) as [c1 [t|code]]; cbn in Ho; [|done].
  pose proof (execute_moves fuel p t (cat_engine c1)) as Hx. destruct (Execute.execute _ _ _ _) as [e r]. cbn in Hx.
  assert (Hm : cat_moves c (with_engine e c1)) by (etrans; [exact Ho|exact Hx]).
  destruct r as [rc|]; [|done]. case_match; [done|]. case_match; [|done]. cbn [fst]. etrans; [exact Hm|apply touch_table_moves].
Qed.

Lemma execute_catalog_moves now q (c : KVCatalog E) : cat_moves c (execute_catalog_statement now q c).1.
Proof.
  destruct q; cbn [execute_catalog_statement]; try apply rtc_refl.
  - match goal with |- context [create_table ?n ?d ?s c] => pose proof (create_table_moves n d s c) as Hm;
      by destruct (create_table n d s c) end.
  - match goal with |- context [drop_table ?d ?t c] => pose proof (drop_table_moves d t c) as Hm;
      by destruct (drop_table d t c) end.
  - pose proof (create_database_moves now database c) as Hm. by destruct (create_database _ _ c).
  - pose proof (drop_database_moves database c) as Hm. by destruct (drop_database _ c).
  - pose proof (use_database_moves database c) as Hm. by destruct (use_database _ c).
Qed.

Lemma run_body_moves scan_is_cheaper fuel now q (s : Session E) :
  kv_steps (engine_of s) (engine_of (run_body scan_is_cheaper fuel now q s).1) /\
  in_transaction_ (run_body scan_is_cheaper fuel now q s).1 = in_transaction_ s /\
  tx_failed_ (run_body scan_is_cheaper fuel now q s).1 = tx_failed_ s.
Proof.
  unfold run_body. case_match.
  { pose proof (execute_catalog_moves now q (catalog_ s)) as Hm. by destruct (execute_catalog_statement _ _ _). }
  case_match; [by split; [apply rtc_refl|]|]. destruct (build_plan _ q s) as [p|]; [|by split; [apply rtc_refl|]].
  pose proof (run_dml_moves fuel now q p (catalog_ s)) as Hm. by destruct (run_dml _ _ _ _ _).
Qed.
End Steps.
