(* ===== verification/SessionSpec.v ===== *)
(** * Sessions implement transactions

    The abstract machine of a connection: idle over the committed data, or inside
    a transaction with its own view and, after an error, aborted. Every statement
    a session executes is a step of this machine, over any storage engine that
    satisfies the laws of [KvApi] and [TxApi]. *)

From S2P Require Import Prelude Bytes OMap KvTypes KvApi TxApi SqlTypes KeyCodec SqlTruth SqlKeyRange Rewriter Schema RowCodec KeyPrefix Table TableSpec Catalog CatalogSpec Optimizer Planner Executor Execute SelectSpec DmlSpec StmtBuilder StmtValidator Session SessionSteps.
Local Open Scope Z_scope.

(** ** The abstract machine *)

Inductive TxState :=
| Idle (durable : omap ByteValue)
| InTx (durable view : omap ByteValue) (aborted : bool).

Inductive StmtKind := KBegin | KCommit | KRollback | KRead | KWrite.

(** One statement, and whether it succeeded. *)
Inductive tx_step : TxState -> StmtKind -> bool -> TxState -> Prop :=
| tx_idle_error d k : tx_step (Idle d) k false (Idle d)
| tx_idle_begin d : tx_step (Idle d) KBegin true (InTx d d false)
| tx_idle_read d : tx_step (Idle d) KRead true (Idle d)
| tx_idle_write d d' : tx_step (Idle d) KWrite true (Idle d')
| tx_begin_again d v f : tx_step (InTx d v f) KBegin false (InTx d v f)
| tx_commit d v : tx_step (InTx d v false) KCommit true (Idle v)
| tx_commit_refused d v : tx_step (InTx d v false) KCommit false (InTx d v false)
| tx_commit_aborted d v : tx_step (InTx d v true) KCommit false (Idle d)
| tx_rollback d v f : tx_step (InTx d v f) KRollback true (Idle d)
| tx_read d v : tx_step (InTx d v false) KRead true (InTx d v false)
| tx_write d v v' : tx_step (InTx d v false) KWrite true (InTx d v' false)
| tx_error d v k : k = KRead \/ k = KWrite -> tx_step (InTx d v false) k false (InTx d v false)
| tx_abort d v v' k : k = KRead \/ k = KWrite -> tx_step (InTx d v false) k false (InTx d v' true)
| tx_aborted d v k : k = KRead \/ k = KWrite -> tx_step (InTx d v true) k false (InTx d v true).

Lemma kind_of_query (b : bool) : (if b then KRead else KWrite) = KRead \/ (if b then KRead else KWrite) = KWrite.
Proof. destruct b; auto. Qed.

(** ** The text of a statement *)

Lemma normalize_shape sql : normalize_sql sql = [] \/ exists l, normalize_sql sql = l ++ [x3b].
Proof.
  unfold normalize_sql. destruct (last _) as [c|] eqn:El; [right|left; by apply last_None].
  case_bool_decide as Ec; cbn [negb]; [|by eexists]. subst c. apply last_Some in El as [l ->]. by exists l.
Qed.
(** Normalising twice is normalising once: [execute] and the parser behind it see
    one text. *)
Lemma normalize_idempotent sql : normalize_sql (normalize_sql sql) = normalize_sql sql.
Proof.
  destruct (normalize_shape sql) as [-> |[l ->]]; [done|]. unfold normalize_sql.
  assert (drop_spaces (reverse (l ++ [x3b])) = reverse (l ++ [x3b])) as -> by (by rewrite reverse_app).
  by rewrite reverse_involutive, last_snoc, bool_decide_eq_true_2.
Qed.
Lemma parse_sql parser sql parsed : parse parser sql = Ok parsed -> ps_sql parsed = normalize_sql sql.
Proof.
  unfold parse. repeat (case_match; try done); by intros [= <-].
Qed.

(** ** Reads do not write *)

Fixpoint rows_plan (p : PlanNode) : bool :=
  match p with
  | FullScan _ _ | IndexScanPlan _ _ _ | RangeUnionPlan _ _ _ _ => true
  | FilterPlan c _ | SortPlan c _ _ _ | LimitPlan c _ | ProjectPlan c _ => rows_plan c
  | _ => false
  end.

Lemma chain_rows q asc : rows_plan (build_scan_chain q asc) = true.
Proof. unfold build_scan_chain. by repeat case_match. Qed.

Lemma plan_select_rows q p s : oq_query q = QSelect s -> plan q = Ok p -> rows_plan p = true.
Proof.
  intros Hq. unfold plan, plan_select. rewrite Hq. intros [= <-]. repeat case_match; cbn; apply chain_rows.
Qed.

Section refinement.
Context {E I : Type} `{KVTransactionLaws E I}.
Context (parser : bytes -> option ASTNode) (scan_is_cheaper : option Z -> nat -> bool).
Context (plan_text : PlanNode -> bytes) (explain_text : PlanNode -> list Row -> bytes).

Lemma create_rows p t (x : AnyExecutor E) : rows_plan p = true -> create p t = Ok x ->
  x_produces_rows x = true /\ x_is_write x = false.
Proof.
  destruct p; try done; intros _; cbn [create]; unfold create_scan, with_child; cbn;
    repeat (case_match; simplify_eq); intros; by simplify_eq.
Qed.

Lemma get_schema_engine_eq db table (c : KVCatalog E) : cat_engine (get_table_schema db table c).1 = cat_engine c.
Proof. unfold get_table_schema, read_meta. by repeat (case_match; simplify_eq; cbn). Qed.
Lemma open_table_engine db table (c : KVCatalog E) : cat_engine (open_table db table c).1 = cat_engine c.
Proof.
  unfold open_table. case_match; [done|]. pose proof (get_schema_engine_eq db table c) as Hs.
  by destruct (get_table_schema _ _ _) as [c1 [s|]].
Qed.

Lemma build_plan_select q s p : build_plan scan_is_cheaper (QSelect q) s = Ok p -> rows_plan p = true.
Proof.
  unfold build_plan. cbn [rewrite_query]. destruct (as_ptr _) as [w|]; [|done]. cbn [result_bind].
  set (q' := mkSelect _ _ w _ _). cbn [optimize]. unfold optimize_scan_query. destruct (resolve_schema _ _) as [[[db tb] sch]|]; [|done].
  destruct (optimize_scan _ _ _ _) as [sp|]; [|done]. destruct (plan _) as [p'|] eqn:Ep; [|done]. intros [= <-].
  by eapply (plan_select_rows _ _ q'); [|exact Ep].
Qed.

(** A SELECT is planned and opened, not run. *)
Lemma run_body_select fuel now q (s : Session E) :
  engine_of (run_body scan_is_cheaper fuel now (QSelect q) s).1 = engine_of s.
Proof.
  unfold run_body. cbn [is_ddl is_ctrl is_dml orb negb]. destruct (build_plan _ _ s) as [p|] eqn:Ep; [|done].
  apply build_plan_select in Ep. unfold run_dml.
  pose proof (open_table_engine (plan_db p) (plan_table p) (catalog_ s)) as Ho.
  destruct (open_table _ _ (catalog_ s)) as [c1 [t|code]]; cbn in Ho; [|done].
  unfold Execute.execute. destruct (create p t) as [x|] eqn:Ec; [|done].
  destruct (create_rows p t x Ep Ec) as [Hr Hw]. rewrite Hr. cbn [rc_root result_cursor rc_error]. rewrite Hr, Hw. done.
Qed.

Lemma explain_analyze_engine fuel p (s : Session E) : rows_plan p = true ->
  let s' := (explain_analyze explain_text fuel p s).1 in
  engine_of s' = engine_of s /\ in_transaction_ s' = in_transaction_ s /\ tx_failed_ s' = tx_failed_ s.
Proof.
  intros Hp. unfold explain_analyze. pose proof (open_table_engine (plan_db p) (plan_table p) (catalog_ s)) as Ho.
  destruct (open_table _ _ (catalog_ s)) as [c1 [t|code]]; cbn in Ho |- *; [|done].
  unfold Execute.execute. destruct (create p t) as [x|] eqn:Ec; [|done].
  destruct (create_rows p t x Hp Ec) as [Hr Hw]. rewrite Hr. destruct (fetch_all _ _ _ _) as [rows code].
  by destruct (ce_is_error code).
Qed.
Lemma explain_engine fuel q analyze (s : Session E) :
  let s' := (execute_explain scan_is_cheaper plan_text explain_text fuel q analyze s).1 in
  engine_of s' = engine_of s /\ in_transaction_ s' = in_transaction_ s /\ tx_failed_ s' = tx_failed_ s.
Proof.
  unfold execute_explain. destruct q; try done; cbn [is_ddl is_ctrl is_dml orb negb];
    destruct (build_plan _ _ s) as [p|] eqn:Ep; try done; destruct analyze; try done.
  apply explain_analyze_engine. by eapply build_plan_select.
Qed.

(** ** The invariant and the abstraction *)

Record session_inv (s : Session E) : Prop := {
  si_ready : kv_ready (engine_of s);
  si_sync : in_transaction_ s = kv_in_transaction (engine_of s);
  si_failed : tx_failed_ s = true -> in_transaction_ s = true }.

Definition session_state (s : Session E) : TxState :=
  let e := engine_of s in
  if in_transaction_ s then InTx (kv_durable e) (kv_view e) (tx_failed_ s) else Idle (kv_durable e).

Definition stmt_kind (prepared : result SessionError Prepared) : StmtKind :=
  match prepared with
  | Ok (mkPrepared (QTransaction TX_BEGIN) false _) => KBegin
  | Ok (mkPrepared (QTransaction TX_COMMIT) false _) => KCommit
  | Ok (mkPrepared (QTransaction TX_ROLLBACK) false _) => KRollback
  | Ok (mkPrepared q false _) => if is_select q then KRead else KWrite
  | _ => KRead
  end.

(** What is to be shown of a statement. *)
Definition steps_to (s : Session E) (k : StmtKind) (out : Session E * Answer (E:=E)) : Prop :=
  session_inv out.1 /\ tx_step (session_state s) k (is_ok out.2) (session_state out.1).

(** An idle session holds no failed transaction. *)
Lemma idle_not_failed s : session_inv s -> in_transaction_ s = false -> tx_failed_ s = false.
Proof. intros Hs Hi. destruct (tx_failed_ s) eqn:Ef; [|done]. by rewrite (si_failed _ Hs Ef) in Hi. Qed.

Lemma begin_steps s : session_inv s -> steps_to s KBegin (Session.begin_transaction s).
Proof.
  intros Hs. unfold Session.begin_transaction, steps_to, session_state. destruct (in_transaction_ s) eqn:Ei.
  { cbn. rewrite Ei. split; [done|constructor]. }
  destruct (kv_begin_transaction (engine_of s)) as [e st] eqn:Eb.
  destruct (kv_begin_law _ _ _ (si_ready _ Hs) ltac:(by rewrite <- (si_sync _ Hs)) Eb) as (Hr & Hd & Hv & Ht).
  pose proof (kv_idle_view _ (si_ready _ Hs) ltac:(by rewrite <- (si_sync _ Hs))) as Hidle.
  case_bool_decide as Est; cbn.
  - split; [by split|]. unfold engine_of in *. cbn. rewrite Hd, Hv, Hidle. constructor.
  - unfold engine_of in *. cbn. rewrite Ei, Hd. split; [|constructor].
    split; cbn; [done|by rewrite Ei, Ht|]. apply Hs.
Qed.

Lemma commit_steps s : session_inv s -> steps_to s KCommit (Session.commit_transaction s).
Proof.
  intros Hs. unfold Session.commit_transaction, steps_to, session_state. destruct (in_transaction_ s) eqn:Ei; cbn [negb].
  2:{ cbn. rewrite Ei. split; [done|constructor]. }
  pose proof (si_sync _ Hs) as Hsync. rewrite Ei in Hsync. symmetry in Hsync.
  destruct (tx_failed_ s) eqn:Ef.
  - destruct (kv_rollback_transaction (engine_of s)) as [e st] eqn:Eb.
    destruct (kv_rollback_law _ _ _ (si_ready _ Hs) Hsync Eb) as (_ & Hr & Ht & Hd).
    unfold engine_of in *. cbn. rewrite Hd. split; [by split|constructor].
  - destruct (kv_commit_transaction (engine_of s)) as [e st] eqn:Eb.
    destruct (kv_commit_law _ _ _ (si_ready _ Hs) Hsync Eb) as (Hr & Hv & Ht & Hd).
    unfold engine_of in *. case_bool_decide as Est; cbn.
    + rewrite Hd. split; [|constructor]. split; cbn; [done|done|congruence].
    + rewrite Ei, Ef, Hd, Hv. split; [|constructor]. split; cbn; [done|by rewrite Ei, Ht|congruence].
Qed.

Lemma rollback_steps s : session_inv s -> steps_to s KRollback (Session.rollback_transaction s).
Proof.
  intros Hs. unfold Session.rollback_transaction, steps_to, session_state. destruct (in_transaction_ s) eqn:Ei; cbn [negb].
  2:{ cbn. rewrite Ei. split; [done|constructor]. }
  pose proof (si_sync _ Hs) as Hsync. rewrite Ei in Hsync. symmetry in Hsync.
  destruct (kv_rollback_transaction (engine_of s)) as [e st] eqn:Eb.
  destruct (kv_rollback_law _ _ _ (si_ready _ Hs) Hsync Eb) as (-> & Hr & Ht & Hd).
  rewrite bool_decide_eq_true_2 by done. unfold engine_of in *. cbn. rewrite Hd. split; [by split|constructor].
Qed.

(** ** A statement in its own transaction *)

(** The guard's end: whatever the transaction still holds is forgotten. *)
Lemma guard_rolls_back (s : Session E) : kv_ready (engine_of s) -> kv_in_transaction (engine_of s) = true ->
  in_transaction_ s = false -> tx_failed_ s = false ->
  let s' := set_engine (guard_close true (engine_of s)) s in
  session_inv s' /\ session_state s' = Idle (kv_durable (engine_of s)).
Proof.
  intros Hr Ht Hi Hf. unfold guard_close. destruct (kv_rollback_transaction (engine_of s)) as [e st] eqn:Eb.
  destruct (kv_rollback_law _ _ _ Hr Ht Eb) as (_ & Hr' & Ht' & Hd). unfold session_state, engine_of in *. cbn. rewrite Hi, Hd.
  split; [|done]. split; cbn; [done|by rewrite Hi, Ht'|congruence].
Qed.

Lemma write_idle_steps fuel now parsed q s : session_inv s -> in_transaction_ s = false -> is_select q = false ->
  steps_to s KWrite (run_statement scan_is_cheaper fuel now parsed q s).
Proof.
  intros Hs Hi Hq. pose proof (idle_not_failed s Hs Hi) as Hf. pose proof (si_sync _ Hs) as Hsync. rewrite Hi in Hsync. symmetry in Hsync.
  unfold steps_to. replace (session_state s) with (Idle (kv_durable (engine_of s))) by (unfold session_state; by rewrite Hi).
  unfold run_statement. rewrite Hi, Hq. cbn [negb andb].
  destruct (kv_acquire_write_slot _ (engine_of s)) as [e1 slot] eqn:Ea.
  destruct (kv_acquire_law _ _ _ _ (si_ready _ Hs) Ea) as (Hr1 & Hd1 & _ & Ht1). rewrite Hsync in Ht1. rewrite <- Hd1.
  assert (Hback : forall e, kv_ready e -> kv_in_transaction e = false ->
    session_inv (set_engine e s) /\ session_state (set_engine e s) = Idle (kv_durable e)).
  { intros e Hr Ht. unfold session_state. cbn. rewrite Hi. split; [|done]. split; cbn; [done|by rewrite Hi, <- Ht|congruence]. }
  case_bool_decide; cbn [negb]; [|destruct (Hback e1 Hr1 Ht1) as [Hinv Hst]; cbn [fst snd]; rewrite Hst; by split; [|constructor]].
  unfold guard_open. change (engine_of (set_engine e1 s)) with e1. rewrite Ht1. cbn [negb andb].
  destruct (kv_begin_transaction e1) as [e2 st2] eqn:Eb.
  destruct (kv_begin_law _ _ _ Hr1 Ht1 Eb) as (Hr2 & Hd2 & _ & Ht2).
  case_bool_decide as Est; cbn [negb].
  2:{ destruct (kv_release_law e2 Hr2 Ht2) as (Hr3 & Hd3 & Ht3). rewrite <- Hd2, <- Hd3.
      destruct (Hback _ Hr3 Ht3) as [Hinv Hst]. cbn. split; [exact Hinv|]. unfold session_state in Hst |- *. cbn in *.
      rewrite Hst. constructor. }
  set (s2 := set_engine e2 (set_engine e1 s)).
  destruct (run_body_moves scan_is_cheaper fuel now q s2) as (Hm & Hi3 & Hf3).
  destruct (run_body scan_is_cheaper fuel now q s2) as [s3 exit]. cbn [fst] in *.
  destruct (kv_steps_in_tx e2 (engine_of s3) Hr2 Ht2 Hm) as (Hr3 & Ht3 & Hd3). rewrite <- Hd2, <- Hd3.
  assert (Hi3' : in_transaction_ s3 = false) by (by rewrite Hi3). assert (Hf3' : tx_failed_ s3 = false) by (by rewrite Hf3).
  assert (Hroll := guard_rolls_back s3 Hr3 Ht3 Hi3' Hf3'). cbn in Hroll. clear Hi3 Hf3.
  destruct exit as [[rc|err]|err]; cbn [finish]; rewrite ?Hi3'.
  - unfold guard_commit. cbn [negb]. destruct (kv_commit_transaction (engine_of s3)) as [e4 st4] eqn:Ec.
    destruct (kv_commit_law _ _ _ Hr3 Ht3 Ec) as (Hr4 & Hv4 & Ht4 & Hd4).
    case_bool_decide as Est4; cbn [negb fst snd is_ok guard_close].
    + unfold session_state. cbn. rewrite Hi3'. split; [|constructor].
      split; cbn; [done|by rewrite Hi3', Ht4|congruence].
    + cbn in Ht4. destruct (guard_rolls_back (set_engine e4 s3) Hr4 Ht4 Hi3' Hf3')
        as [Hinv Hst]. split; [exact Hinv|]. refine (eq_ind_r (fun x => tx_step (Idle _) KWrite false x) _ Hst).
      change (engine_of (set_engine e4 s3)) with e4. rewrite Hd4. constructor.
  - destruct Hroll as [Hinv Hst]. split; [exact Hinv|].
    refine (eq_ind_r (fun x => tx_step (Idle _) KWrite false x) _ Hst). constructor.
  - destruct Hroll as [Hinv Hst]. split; [exact Hinv|].
    refine (eq_ind_r (fun x => tx_step (Idle _) KWrite false x) _ Hst). constructor.
Qed.

(** ** A statement without a transaction of its own *)

Lemma run_body_return fuel now q s s' err : run_body scan_is_cheaper fuel now q s = (s', Return err) -> s' = s.
Proof.
  unfold run_body. case_match; [by destruct (execute_catalog_statement _ _ _)|]. case_match; [by intros [= <- <-]|].
  destruct (build_plan _ q s); [by destruct (run_dml _ _ _ _ _)|by intros [= <- <-]].
Qed.

(** The end of a body whose guard is off: the answer stands, and an error aborts
    the open transaction. *)
Lemma unguarded_end (s : Session E) exit :
  let '(s', active, r) := match exit with Finish r => finish false r s | Return error => (s, false, Err error) end in
  active = false /\ engine_of s' = engine_of s /\ in_transaction_ s' = in_transaction_ s /\
  match exit with
  | Finish (Ok _) => is_ok r = true /\ tx_failed_ s' = tx_failed_ s
  | Finish (Err _) => is_ok r = false /\ tx_failed_ s' = in_transaction_ s || tx_failed_ s
  | Return _ => is_ok r = false /\ tx_failed_ s' = tx_failed_ s
  end.
Proof. destruct exit as [[rc|err]|err]; cbn; try done. by destruct (in_transaction_ s) eqn:Ei; cbn; rewrite ?Ei. Qed.

Lemma unguarded_steps fuel now parsed q s : session_inv s -> tx_failed_ s = false ->
  in_transaction_ s = true \/ is_select q = true ->
  steps_to s (if is_select q then KRead else KWrite) (run_statement scan_is_cheaper fuel now parsed q s).
Proof.
  intros Hs Hf Hown. pose proof (si_sync _ Hs) as Hsync. unfold steps_to, run_statement.
  assert (negb (in_transaction_ s) && negb (is_select q) = false) as -> by (destruct Hown as [-> | ->]; [done|apply andb_false_r]).
  cbn [andb guard_open].
  match goal with |- context [let '(e, slot) := ?a in _] => destruct a as [e1 slot] eqn:Ea end.
  assert (kv_ready e1 /\ kv_durable e1 = kv_durable (engine_of s) /\ kv_view e1 = kv_view (engine_of s) /\
    kv_in_transaction e1 = in_transaction_ s /\ (is_select q = true -> e1 = engine_of s /\ slot = StOK)) as (Hr1 & Hd1 & Hv1 & Ht1 & Hsel).
  { destruct (is_select q); cbn [negb] in Ea.
    - injection Ea as <- <-. split_and!; try done. apply Hs.
    - destruct (kv_acquire_law _ _ _ _ (si_ready _ Hs) Ea) as (? & ? & ? & Ht). split_and!; try done. by rewrite Ht, Hsync. }
  set (s1 := set_engine e1 s).
  assert (Hinv1 : session_inv s1) by (split; cbn; [done|by rewrite Ht1|by rewrite Hf]).
  assert (Hst1 : session_state s1 = session_state s).
  { unfold session_state, s1. cbn. unfold engine_of in *. cbn. by rewrite Hd1, Hv1. }
  rewrite <- Hst1. case_bool_decide; cbn [negb].
  2:{ cbn [fst snd is_ok]. split; [done|]. unfold session_state. cbn. rewrite Hf.
      destruct (in_transaction_ s); [|constructor]. apply tx_error, kind_of_query. }
  change (set_engine (engine_of s1) s1) with s1.
  destruct (run_body_moves scan_is_cheaper fuel now q s1) as (Hm & Hi2 & Hf2).
  assert (Hq2 : is_select q = true -> engine_of (run_body scan_is_cheaper fuel now q s1).1 = engine_of s1).
  { intros Hq. destruct q; try done. apply run_body_select. }
  pose proof (run_body_return fuel now q s1) as Hret.
  destruct (run_body scan_is_cheaper fuel now q s1) as [s2 exit]. cbn [fst] in *.
  pose proof (unguarded_end s2 exit) as Hend.
  destruct (match exit with Finish r => _ | Return error => _ end) as [[s3 active] r]. destruct Hend as (-> & He3 & Hi3 & Hend).
  cbn [guard_close fst snd]. unfold session_state at 2. cbn. unfold engine_of in He3 |- *. cbn. rewrite He3, Hi3, Hi2.
  fold (engine_of s2). change (in_transaction_ s1) with (in_transaction_ s) in *. change (tx_failed_ s1) with (tx_failed_ s) in Hf2.
  rewrite Hf in Hf2. rewrite Hi2, Hf2 in Hend.
  assert (Hr2 : kv_ready (engine_of s2) /\ kv_durable (engine_of s2) = kv_durable e1 /\
    kv_in_transaction (engine_of s2) = in_transaction_ s /\ (is_select q = true -> kv_view (engine_of s2) = kv_view e1)).
  { destruct (is_select q) eqn:Eq.
    - rewrite Hq2 by done. change (engine_of s1) with e1. done.
    - destruct Hown as [Hi|]; [|done]. rewrite Hi in *.
      destruct (kv_steps_in_tx e1 (engine_of s2) Hr1 Ht1 Hm) as (? & ? & ?). done. }
  destruct Hr2 as (Hr2 & Hd2 & Ht2 & Hv2).
  assert (Hv2' : forall err, exit = Return err -> kv_view (engine_of s2) = kv_view e1).
  { intros err ->. by rewrite (Hret s2 err eq_refl). }
  split.
  - split; cbn; unfold engine_of; cbn; rewrite ?He3, ?Hi3, ?Hi2; fold (engine_of s2); [done|by rewrite Ht2|].
    intros Hf3. destruct exit as [[rc|err]|err]; destruct Hend as [_ Hend]; rewrite Hend in Hf3; [done| |done].
    by rewrite orb_false_r in Hf3.
  - unfold session_state. change (in_transaction_ s1) with (in_transaction_ s). change (tx_failed_ s1) with (tx_failed_ s). rewrite Hf, Hd2.
    change (engine_of s1) with e1.
    destruct exit as [[rc|err]|err]; destruct Hend as [Hok Hend]; rewrite Hok, Hend; destruct (in_transaction_ s) eqn:Ei;
      try constructor.
    + destruct (is_select q); [rewrite Hv2 by done|]; constructor.
    + destruct Hown as [|Hq]; [done|]. rewrite Hq. constructor.
    + apply kind_of_query.
    + rewrite (Hv2' err) by done. apply tx_error, kind_of_query.
Qed.

(** ** Every statement *)

Lemma execute_parsed_steps fuel now parsed s : session_inv s ->
  steps_to s (if is_empty_statement (ps_sql parsed) then KRead else stmt_kind (prepare parsed s))
    (execute_parsed scan_is_cheaper plan_text explain_text fuel now parsed s).
Proof.
  intros Hs.
  assert (Hrefuse : forall k err, k = KRead \/ k = KWrite -> steps_to s k (s, Err err)).
  { intros k err Hk. split; [done|]. unfold session_state. cbn. destruct (in_transaction_ s); [|constructor].
    destruct (tx_failed_ s); [by apply tx_aborted|by apply tx_error]. }
  unfold execute_parsed. destruct (is_empty_statement _); [apply Hrefuse; by left|].
  assert (cat_is_open (catalog_ s) = true) as -> by (apply kv_ready_open, Hs). cbn [negb].
  assert (Hsame : forall s' (r : Answer (E:=E)), engine_of s' = engine_of s -> in_transaction_ s' = in_transaction_ s ->
    tx_failed_ s' = tx_failed_ s -> tx_failed_ s = false -> steps_to s KRead (s', r)).
  { intros s' r He Hi Hf Hf0. split; cbn; [split; rewrite ?He, ?Hi, ?Hf; apply Hs|].
    unfold session_state. rewrite He, Hi, Hf, Hf0. destruct (in_transaction_ s), r; try constructor. by left. }
  destruct (prepare parsed s) as [[q ex an]|err]; cbn [stmt_kind].
  2:{ destruct (tx_failed_ s); apply Hrefuse; by left. }
  destruct ex.
  { assert (steps_to s KRead (if tx_failed_ s then (s, Err (Failed SN_TRANSACTION_ERROR))
      else execute_explain scan_is_cheaper plan_text explain_text fuel q an s)) as Hx.
    { destruct (tx_failed_ s) eqn:Ef; [apply Hrefuse; by left|].
      pose proof (explain_engine fuel q an s) as Hexp. destruct (execute_explain _ _ _ _ _ _ s) as [s' r]. cbn in Hexp.
      destruct Hexp as (He & Hi & Hf). apply Hsame; congruence. }
    destruct q; try exact Hx. destruct kind; exact Hx. }
  destruct q as [q|q|q|q|db t cols|db t|db|db|db|[]]; cbn [pr_explain pr_query];
    try (by apply begin_steps); try (by apply commit_steps); try (by apply rollback_steps);
    cbn [is_select]; destruct (tx_failed_ s) eqn:Ef; try (apply Hrefuse; by auto);
    destruct (in_transaction_ s) eqn:Ei;
    match goal with |- steps_to s _ (run_statement _ _ _ _ ?q s) =>
      first [ by apply (unguarded_steps fuel now parsed q s Hs Ef); auto | by apply write_idle_steps ] end.
Qed.

(** The kind of a statement given as text. *)
Definition text_kind (sql : bytes) (s : Session E) : StmtKind :=
  match parse parser (normalize_sql sql) with
  | Ok parsed => if is_empty_statement (ps_sql parsed) then KRead else stmt_kind (prepare parsed s)
  | Err _ => KRead
  end.

Let execute_text := Session.execute parser scan_is_cheaper plan_text explain_text.

Lemma execute_steps fuel now sql s : session_inv s -> steps_to s (text_kind sql s) (execute_text fuel now sql s).
Proof.
  intros Hs. unfold execute_text, Session.execute.
  assert (Hrefuse : forall err, steps_to s KRead (s, Err err)).
  { intros err. split; [done|]. unfold session_state. cbn. destruct (in_transaction_ s); [|constructor].
    destruct (tx_failed_ s); [apply tx_aborted|apply tx_error]; by left. }
  assert (cat_is_open (catalog_ s) = true) as -> by (apply kv_ready_open, Hs). cbn [negb]. unfold text_kind.
  destruct (is_empty_statement (normalize_sql sql)) eqn:Ee.
  { assert (parse parser (normalize_sql sql) = Err (Failed SN_EMPTY_SQL)) as ->; [|apply Hrefuse].
    unfold is_empty_statement in Ee. apply orb_true_iff in Ee as [Ee%bool_decide_eq_true|Ee%bool_decide_eq_true]; by rewrite Ee. }
  destruct (parse parser (normalize_sql sql)) as [parsed|err]; [by apply execute_parsed_steps|apply Hrefuse].
Qed.





(** Statements executed one after the other while the session stays in its
    transaction, none of them a COMMIT that succeeds. *)
Inductive uncommitted_run : Session E -> Session E -> Prop :=
| run_done s : uncommitted_run s s
| run_next fuel now sql s s1 r s' : in_transaction_ s = true -> execute_text fuel now sql s = (s1, r) ->
    (text_kind sql s = KCommit -> is_ok r = false) -> uncommitted_run s1 s' -> uncommitted_run s s'.

Lemma uncommitted_durable s s' : session_inv s -> uncommitted_run s s' ->
  session_inv s' /\ kv_durable (engine_of s') = kv_durable (engine_of s).
Proof.
  intros Hs Hr. induction Hr as [|fuel now sql s s1 r s' Hi Hx Hc _ IH]; [done|].
  destruct (execute_steps fuel now sql s Hs) as [Hs1 Hst]. rewrite Hx in Hs1, Hst. cbn [fst snd] in *.
  destruct (IH Hs1) as [Hs' Hd]. split; [done|]. rewrite Hd. unfold session_state in Hst. rewrite Hi in Hst.
  destruct (in_transaction_ s1); inversion Hst; subst; try done. match goal with Hk : KCommit = _ |- _ => by specialize (Hc (eq_sym Hk)); congruence end.
Qed.
End refinement.

(** ** What a session promises *)


(** A transaction that is not committed leaves no trace: any number of
    statements executed inside it, successful or not, ended by ROLLBACK, by a
    COMMIT of an aborted transaction or not at all, leave the committed data as
    they found it. *)
Theorem uncommitted_leaves_no_trace {E I} `{KVTransactionLaws E I} parser scan_is_cheaper plan_text explain_text
    (s s' : Session E) :
  session_inv s -> uncommitted_run parser scan_is_cheaper plan_text explain_text s s' ->
  kv_durable (engine_of s') = kv_durable (engine_of s).
Proof. intros Hs Hr. by destruct (uncommitted_durable _ _ _ _ s s' Hs Hr). Qed.

(** C20: an aborted transaction accepts nothing but its end: every statement that
    is not BEGIN, COMMIT or ROLLBACK, a syntax error included, is answered with a
    transaction error and changes nothing at all. *)
Theorem aborted_session_refuses {E I} `{KVTransactionLaws E I} parser scan_is_cheaper plan_text explain_text
    fuel now sql (s : Session E) :
  session_inv s -> tx_failed_ s = true -> is_empty_statement (normalize_sql sql) = false ->
  text_kind parser sql s = KRead \/ text_kind parser sql s = KWrite ->
  Session.execute parser scan_is_cheaper plan_text explain_text fuel now sql s = (s, Err (Failed SN_TRANSACTION_ERROR)).
Proof.
  intros Hs Hf He Hk. unfold Session.execute. rewrite He.
  assert (cat_is_open (catalog_ s) = true) as Ho by (apply kv_ready_open, Hs). rewrite Ho. cbn [negb].
  unfold text_kind in Hk. destruct (parse parser (normalize_sql sql)) as [parsed|err] eqn:Ep.
  2:{ unfold parse_error_to_session_error. by rewrite Hf. }
  apply parse_sql in Ep. rewrite normalize_idempotent in Ep. rewrite Ep, He in Hk.
  unfold execute_parsed. rewrite Ep, He, Ho, Hf. cbn [negb].
  destruct (prepare parsed s) as [[q [] an]|]; [by destruct q as [| | | | | | | | |[]]| |done].
  destruct q as [| | | | | | | | |[]]; try done; cbn in Hk; by destruct Hk.
Qed.

(** An error found before a statement runs does not abort the transaction. *)
Lemma early_error_keeps_transaction {E I} `{KVTransactionLaws E I} scan_is_cheaper plan_text explain_text
    fuel now parsed (s : Session E) err :
  session_inv s -> tx_failed_ s = false -> is_empty_statement (ps_sql parsed) = false ->
  prepare parsed s = Err err ->
  execute_parsed scan_is_cheaper plan_text explain_text fuel now parsed s = (s, Err err).
Proof.
  intros Hs Hf He Hp. unfold execute_parsed. rewrite He, Hp, Hf.
  by assert (cat_is_open (catalog_ s) = true) as -> by (apply kv_ready_open, Hs).
Qed.

(** ** A session on the in-memory engine *)

Definition demo_t : Identifier := identifier (str "t").
Definition demo_insert (id : Z) : SqlStatement :=
  SqlInsert (str "t") None ((SvNumber id, [SvString (str "x")]), []).
Definition demo_statements : list (string * SqlStatement) := [
  ("create database d;", SqlCreateDatabase (str "d"));
  ("use d;", SqlUse (str "d"));
  ("create table t (id int primary key, name text);",
     SqlCreateTable (str "t") (mkSqlColumn (str "id") (str "int") None true SnDefault,
                               [mkSqlColumn (str "name") (str "text") None false SnDefault]));
  ("begin;", SqlTransact StBegin); ("commit;", SqlTransact StCommit); ("rollback;", SqlTransact StRollback);
  ("insert 1;", demo_insert 1); ("insert 2;", demo_insert 2);
  ("drop table t;", SqlDropTable (str "t"))]%string.
Definition demo_parser (text : bytes) : option ASTNode :=
  p ← List.find (fun p => bytes_eqb (str p.1) text) demo_statements; tree_of_statement p.2.

Definition demo_execute (sql : string) (s : Session Conn) : Session Conn * Answer (E:=Conn) :=
  Session.execute demo_parser (fun _ _ => false) (fun _ => []) (fun _ _ => []) 10 7 (str sql) s.
Definition demo_session : Session Conn :=
  fold_left (fun s sql => (demo_execute sql s).1)
    ["create database d"; "use d"; "create table t (id int primary key, name text)"]%string (new_session demo_conn).

Lemma demo_inv sql s : session_inv s -> session_inv (demo_execute sql s).1.
Proof. intros Hs. apply (execute_steps demo_parser (fun _ _ => false) (fun _ => []) (fun _ _ => []) 10 7 (str sql) s Hs). Qed.
Lemma demo_session_inv : session_inv demo_session.
Proof. unfold demo_session. cbn [fold_left]. do 3 apply demo_inv. split; [apply demo_conn_rel|done|done]. Qed.

(** After BEGIN, and after one INSERT. *)
Definition demo_begun : Session Conn := (demo_execute "begin" demo_session).1.
Definition demo_wrote : Session Conn := (demo_execute "insert 1" demo_begun).1.


Lemma uncommitted_leaves_no_trace_witness :
  kv_durable (engine_of (demo_execute "rollback" demo_wrote).1) = kv_durable (engine_of demo_begun) /\
  in_transaction_ (demo_execute "rollback" demo_wrote).1 = false.
Proof.
  split; [|vm_compute; reflexivity].
  apply (uncommitted_leaves_no_trace demo_parser (fun _ _ => false) (fun _ => []) (fun _ _ => [])).
  - apply demo_inv, demo_session_inv.
  - eapply (run_next _ _ _ _ 10 7 (str "insert 1") demo_begun demo_wrote (demo_execute "insert 1" demo_begun).2);
      [vm_compute; reflexivity|apply surjective_pairing|intros Hk; vm_compute in Hk; discriminate|].
    eapply (run_next _ _ _ _ 10 7 (str "rollback") demo_wrote (demo_execute "rollback" demo_wrote).1 (demo_execute "rollback" demo_wrote).2);
      [vm_compute; reflexivity|apply surjective_pairing|intros Hk; vm_compute in Hk; discriminate|constructor].
Defined.

Lemma aborted_session_refuses_witness :
  let s := set_tx true true demo_begun in
  demo_execute "insert 2" s = (s, Err (Failed SN_TRANSACTION_ERROR)) /\
  demo_execute "selct" s = (s, Err (Failed SN_TRANSACTION_ERROR)).
Proof.
  intros s.
  assert (Hinv : session_inv s).
  { assert (H : session_inv demo_begun) by (apply demo_inv, demo_session_inv). destruct H as [Hr Hsync _].
    split; [exact Hr| |reflexivity]. change (kv_in_transaction (engine_of demo_begun) = true).
    rewrite <- Hsync. vm_compute. reflexivity. }
  split; (apply aborted_session_refuses;
    [exact Hinv|reflexivity|vm_compute; reflexivity|first [left; vm_compute; reflexivity|right; vm_compute; reflexivity]]).
Defined.
