(* ===== verification/Protocol.v ===== *)
(** * The client/server protocol: [common/proto/protocol.{h,cpp}]

    Frames (a type byte, a little-endian length, a payload) and the payload of
    each message. Encoders are functions to bytes; decoders read from the front
    of the unread bytes ([in] from [pos] on) and answer nothing where the source
    returns [false]. Sizes are truncated to the width they are written with, as
    the casts of the source do. *)

From S2P Require Import Prelude Bytes Wire SqlTypes Schema.
Local Open Scope N_scope.

(** ** Little-endian integers and their readers *)

(** [put_u16], [put_u32], [put_u64]: the low byte first. *)
Fixpoint le_put (n : nat) (v : N) : bytes :=
  match n with
  | O => []
  | S m => byte_of_N (N.land v 255) :: le_put m (N.shiftr v 8)
  end.

(** [value |= byte << (8 * i)]. *)
Fixpoint le_get (l : bytes) : N :=
  match l with
  | [] => 0
  | b :: l' => N.lor (N.shiftl (le_get l') 8) (Byte.to_N b)
  end.

Definition size_of {A} (l : list A) : N := N.of_nat (length l).

Definition put_bytes (b : bytes) : bytes := le_put 4 (size_of b) ++ b.

(** A decoder: the value read and the bytes left, or [false]. *)
Definition preader (A : Type) : Type := bytes -> option (A * bytes).

#[export] Instance preader_ret : MRet preader := fun A a l => Some (a, l).
#[export] Instance preader_bind : MBind preader := fun A B k m l =>
  match m l with Some (a, l') => k a l' | None => None end.

Definition get_le (n : nat) : preader N := fun l =>
  if (length l <? n)%nat then None else Some (le_get (take n l), drop n l).
Definition get_raw (n : N) : preader bytes := fun l =>
  if size_of l <? n then None else Some (take (N.to_nat n) l, drop (N.to_nat n) l).
Definition get_bytes : preader bytes := length ← get_le 4; get_raw length.
Definition get_byte : preader N := get_le 1.

Fixpoint get_times {A} (n : nat) (r : preader A) : preader (list A) :=
  match n with
  | O => mret []
  | S n' => a ← r; l ← get_times n' r; mret (a :: l)
  end.

(** ** Frames *)

Inductive FrameType :=
| kHello | kQuery | kColumns | kRow | kOk | kError | kPing | kBye | kMeta | kMetaReply | kClientOptions.

#[export] Instance FrameType_eq_dec : EqDecision FrameType.
Proof. solve_decision. Defined.

Definition frame_code (t : FrameType) : N :=
  match t with
  | kHello => 1 | kQuery => 2 | kColumns => 3 | kRow => 4 | kOk => 5 | kError => 6
  | kPing => 7 | kBye => 8 | kMeta => 9 | kMetaReply => 10 | kClientOptions => 11
  end.

(** [static_cast<FrameType>], after the range check of [try_decode_frame]. *)
Definition frame_of_code (c : N) : option FrameType :=
  if c =? 1 then Some kHello else if c =? 2 then Some kQuery else if c =? 3 then Some kColumns
  else if c =? 4 then Some kRow else if c =? 5 then Some kOk else if c =? 6 then Some kError
  else if c =? 7 then Some kPing else if c =? 8 then Some kBye else if c =? 9 then Some kMeta
  else if c =? 10 then Some kMetaReply else if c =? 11 then Some kClientOptions else None.

Definition kProtocolVersion : N := 1.
Definition kCapabilityLeaderHint : N := N.shiftl 1 0.
Definition kCapabilityCrossGroupReadLoose : N := N.shiftl 1 1.
Definition kMaxFrameSize : N := 16 * 1024 * 1024.

Definition encode_frame (type : FrameType) (payload : bytes) : bytes :=
  byte_of_N (frame_code type) :: le_put 4 (size_of payload) ++ payload.

Record DecodedFrame := mkDecodedFrame { frame_type : FrameType; frame_payload : bytes }.

(** [try_decode_frame]: a frame and the bytes it took, nothing yet, or a
    protocol error. *)
Inductive FrameResult :=
| FrameReady (frame : DecodedFrame) (consumed : nat)
| FrameIncomplete
| FrameTooLarge (length : N)
| FrameUnknown (type : N).

Definition try_decode_frame (buffer : bytes) : FrameResult :=
  match buffer with
  | type :: rest =>
      if (length buffer <? 5)%nat then FrameIncomplete
      else
        let length_ := le_get (take 4 rest) in
        if kMaxFrameSize <? length_ then FrameTooLarge length_
        else if size_of buffer <? 5 + length_ then FrameIncomplete
        else match frame_of_code (Byte.to_N type) with
             | None => FrameUnknown (Byte.to_N type)
             | Some t => FrameReady (mkDecodedFrame t (take (N.to_nat length_) (drop 5 buffer)))
                           (5 + N.to_nat length_)
             end
  | [] => FrameIncomplete
  end.

(** ** Messages *)

Record ProtocolValue := mkProtocolValue { is_null_ : bool; text_ : bytes }.
Record LeaderHint := mkLeaderHint { lh_node_id : N; lh_endpoint : bytes }.
Record ErrorFrame := mkErrorFrame {
  ef_code : N; ef_message : bytes; ef_sql : bytes; ef_begin_line : N; ef_begin_column : N;
  ef_end_line : N; ef_end_column : N; leader_hint : option LeaderHint }.

Definition flag_byte (b : bool) : bytes := [byte_of_N (if b then 1 else 0)].
(** [payload[pos] != 0]. *)
Definition get_flag : preader bool := b ← get_byte; mret (negb (b =? 0)).

Definition encode_hello (server_version capabilities : N) : bytes :=
  encode_frame kHello (le_put 2 kProtocolVersion ++ le_put 2 server_version ++ le_put 4 capabilities).

Definition put_option_entry (o : bytes * bytes) : bytes :=
  le_put 2 (size_of o.1) ++ o.1 ++ le_put 2 (size_of o.2) ++ o.2.
Definition encode_client_options (capabilities : N) (options : list (bytes * bytes)) : bytes :=
  encode_frame kClientOptions
    (le_put 4 capabilities ++ le_put 2 (size_of options) ++ concat (map put_option_entry options)).

Definition encode_columns (columns : list bytes) : bytes :=
  encode_frame kColumns (le_put 2 (size_of columns) ++ concat (map put_bytes columns)).

Definition put_value (v : ProtocolValue) : bytes := flag_byte (is_null_ v) ++ put_bytes (text_ v).
Definition encode_row (values : list ProtocolValue) : bytes :=
  encode_frame kRow (le_put 2 (size_of values) ++ concat (map put_value values)).

Definition ok_flags (in_transaction is_write : bool) : N :=
  N.lor (if in_transaction then 1 else 0) (if is_write then 2 else 0).
Definition encode_ok (affected_rows : N) (in_transaction is_write : bool) (current_database : bytes)
    : bytes :=
  encode_frame kOk (le_put 8 affected_rows ++ [byte_of_N (ok_flags in_transaction is_write)] ++
                    put_bytes current_database).

Definition put_hint (h : option LeaderHint) : bytes :=
  match h with
  | None => []
  | Some h => [byte_of_N 1] ++ le_put 8 (lh_node_id h) ++ put_bytes (lh_endpoint h)
  end.
Definition encode_error (e : ErrorFrame) : bytes :=
  encode_frame kError
    ([byte_of_N (ef_code e)] ++ put_bytes (ef_message e) ++ put_bytes (ef_sql e) ++
     le_put 4 (ef_begin_line e) ++ le_put 4 (ef_begin_column e) ++ le_put 4 (ef_end_line e) ++
     le_put 4 (ef_end_column e) ++ put_hint (leader_hint e)).

Definition encode_query (sql : bytes) : bytes := encode_frame kQuery sql.
Definition encode_simple (type : FrameType) : bytes := encode_frame type [].

Definition decode_query (payload : bytes) : option bytes := Some payload.

(** A decoder that does not look at what is left after its last field. *)
Definition run {A} (r : preader A) (payload : bytes) : option A := fst <$> r payload.

Definition decode_hello : bytes -> option (N * N * N) :=
  run (v ← get_le 2; s ← get_le 2; c ← get_le 4; mret (v, s, c)).

Definition get_option_entry : preader (bytes * bytes) :=
  key_len ← get_le 2; key ← get_raw key_len;
  value_len ← get_le 2; value ← get_raw value_len; mret (key, value).
(** The only decoder that refuses trailing bytes. *)
Definition decode_client_options (payload : bytes) : option (N * list (bytes * bytes)) :=
  match (c ← get_le 4; n ← get_le 2; l ← get_times (N.to_nat n) get_option_entry; mret (c, l)) payload with
  | Some (r, []) => Some r
  | _ => None
  end.

Definition decode_columns : bytes -> option (list bytes) :=
  run (n ← get_le 2; get_times (N.to_nat n) get_bytes).

Definition get_value : preader ProtocolValue :=
  null ← get_flag; text ← get_bytes; mret (mkProtocolValue null text).
Definition decode_row : bytes -> option (list ProtocolValue) :=
  run (n ← get_le 2; get_times (N.to_nat n) get_value).

(** The affected rows, the flag byte and the database. *)
Definition decode_ok : bytes -> option (N * N * bytes) :=
  run (n ← get_le 8; flags ← get_byte; db ← get_bytes; mret (n, flags, db)).

Definition get_leader_hint : preader (option LeaderHint) := fun l =>
  match l with
  | [] => Some (None, [])
  | _ => (has_hint ← get_byte;
          if has_hint =? 0 then mret None
          else node ← get_le 8; endpoint ← get_bytes; mret (Some (mkLeaderHint node endpoint))) l
  end.
Definition decode_error : bytes -> option ErrorFrame :=
  run (code ← get_byte; message ← get_bytes; sql ← get_bytes;
       bl ← get_le 4; bc ← get_le 4; el ← get_le 4; ec ← get_le 4; hint ← get_leader_hint;
       mret (mkErrorFrame code message sql bl bc el ec hint)).

(** ** Metadata *)

Inductive MetaKind := kDatabases | kTables | kSchema.
Definition meta_code (k : MetaKind) : N := match k with kDatabases => 1 | kTables => 2 | kSchema => 3 end.

(** The times are [int64_t], written as the [uint64_t] of the same bits. *)
Record MetaDatabase := mkMetaDatabase {
  md_name : bytes; md_created_at : Z; md_table_count : N; md_is_current : bool }.
Record MetaTable := mkMetaTable {
  mt_name : bytes; mt_column_count : N; mt_primary_key : bytes; mt_created_at : Z;
  mt_last_write_at : Z; mt_row_count : N }.

Definition to_uint64 (z : Z) : N := Z.to_N (z mod Z.of_N two64)%Z.
Definition to_int64 (n : N) : Z := if n <? 9223372036854775808 then Z.of_N n else (Z.of_N n - Z.of_N two64)%Z.

Definition encode_meta (kind : MetaKind) (arg1 arg2 : bytes) : bytes :=
  encode_frame kMeta ([byte_of_N (meta_code kind)] ++ put_bytes arg1 ++ put_bytes arg2).
Definition decode_meta : bytes -> option (N * bytes * bytes) :=
  run (kind ← get_byte; arg1 ← get_bytes; arg2 ← get_bytes; mret (kind, arg1, arg2)).

Definition encode_meta_reply (payload : bytes) : bytes := encode_frame kMetaReply payload.
Definition decode_meta_reply (payload : bytes) : option bytes := Some payload.

Definition put_database (d : MetaDatabase) : bytes :=
  put_bytes (md_name d) ++ le_put 8 (to_uint64 (md_created_at d)) ++ le_put 4 (md_table_count d) ++
  flag_byte (md_is_current d).
Definition encode_meta_databases (l : list MetaDatabase) : bytes :=
  le_put 2 (size_of l) ++ concat (map put_database l).
Definition get_database : preader MetaDatabase :=
  name ← get_bytes; created ← get_le 8; count ← get_le 4; current ← get_flag;
  mret (mkMetaDatabase name (to_int64 created) count current).
Definition decode_meta_databases : bytes -> option (list MetaDatabase) :=
  run (n ← get_le 2; get_times (N.to_nat n) get_database).

Definition put_table (t : MetaTable) : bytes :=
  put_bytes (mt_name t) ++ le_put 4 (mt_column_count t) ++ put_bytes (mt_primary_key t) ++
  le_put 8 (to_uint64 (mt_created_at t)) ++ le_put 8 (to_uint64 (mt_last_write_at t)) ++
  le_put 8 (mt_row_count t).
Definition encode_meta_tables (l : list MetaTable) : bytes :=
  le_put 2 (size_of l) ++ concat (map put_table l).
Definition get_table : preader MetaTable :=
  name ← get_bytes; columns ← get_le 4; pk ← get_bytes; created ← get_le 8; last ← get_le 8;
  rows ← get_le 8;
  mret (mkMetaTable name columns pk (to_int64 created) (to_int64 last) rows).
Definition decode_meta_tables : bytes -> option (list MetaTable) :=
  run (n ← get_le 2; get_times (N.to_nat n) get_table).

Definition encode_meta_schema (schema : TableSchema) : bytes := schema_serialize schema.
Definition decode_meta_schema (payload : bytes) : option TableSchema :=
  match schema_deserialize payload with Ok s => Some s | Err _ => None end.

(** ** Reading back what was written *)

Lemma le_put_length n v : length (le_put n v) = n.
Proof. revert v. induction n as [|n IH]; intros v; simpl; [done|]. by rewrite IH. Qed.

Lemma le_roundtrip n v : v < 2 ^ (8 * N.of_nat n) -> le_get (le_put n v) = v.
Proof.
  revert v. induction n as [|n IH]; intros v Hv; [simpl in Hv |- *; lia|]. cbn [le_put le_get].
  replace (8 * N.of_nat (S n)) with (8 + 8 * N.of_nat n) in Hv by lia. rewrite N.pow_add_r in Hv.
  change (2 ^ 8) with 256 in Hv. rewrite N.shiftr_div_pow2, IH by (apply N.Div0.div_lt_upper_bound; done).
  rewrite lor_shiftl_add by apply byte_to_N_lt. rewrite to_N_byte_of_N, land_255, N.Div0.mod_mod.
  change (2 ^ 8) with 256. pose proof (N.div_mod v 256). lia.
Qed.

Lemma le_put_get l : le_put (length l) (le_get l) = l.
Proof.
  induction l as [|b l IH]; [done|]. cbn [length le_put le_get]. pose proof (byte_to_N_lt b) as Hb.
  rewrite lor_shiftl_add by done. rewrite N.shiftr_div_pow2, land_255. change (2 ^ 8) with 256. f_equal.
  - apply byte_to_N_inj. rewrite to_N_byte_of_N, N.Div0.mod_mod, N.add_comm, N.Div0.mod_add, N.mod_small; done.
  - rewrite N.div_add_l, (N.div_small _ _ Hb), N.add_0_r by done. apply IH.
Qed.

Lemma le_get_lt l : le_get l < 2 ^ (8 * size_of l).
Proof.
  unfold size_of. induction l as [|b l IH]; [simpl; lia|]. cbn [le_get length]. pose proof (byte_to_N_lt b).
  rewrite lor_shiftl_add by done. replace (8 * N.of_nat (S (length l))) with (8 + 8 * N.of_nat (length l)) by lia.
  rewrite N.pow_add_r. change (2 ^ 8) with 256. lia.
Qed.

(** Values that fit the width they are written with. *)
Abbreviation u8 n := (n < 256) (only parsing).
Abbreviation u16 n := (n < 65536) (only parsing).
Definition short (s : bytes) : Prop := u32 (size_of s).

Lemma preader_bind_some {A B} (m : preader A) (k : A -> preader B) l a l1 :
  m l = Some (a, l1) -> (m ≫= k) l = k a l1.
Proof. intros H. unfold mbind, preader_bind. by rewrite H. Qed.

Lemma get_le_put n v rest : v < 2 ^ (8 * N.of_nat n) -> get_le n (le_put n v ++ rest) = Some (v, rest).
Proof.
  intros Hv. unfold get_le. rewrite length_app, le_put_length.
  destruct (_ <? n)%nat eqn:E; boolify; [lia|].
  rewrite <- (le_put_length n v) at 1 3. by rewrite take_app_length, drop_app_length, le_roundtrip.
Qed.

Lemma get_le1_put v rest : u8 v -> get_le 1 ([byte_of_N v] ++ rest) = Some (v, rest).
Proof.
  intros Hv. unfold get_le. cbn. change (N.lor 0 ?x) with x.
  by rewrite to_N_byte_of_N, N.mod_small.
Qed.
Lemma get_le2_put v rest : u16 v -> get_le 2 (le_put 2 v ++ rest) = Some (v, rest).
Proof. intros Hv. by apply get_le_put. Qed.
Lemma get_le4_put v rest : u32 v -> get_le 4 (le_put 4 v ++ rest) = Some (v, rest).
Proof. intros Hv. by apply get_le_put. Qed.
Lemma get_le8_put v rest : u64 v -> get_le 8 (le_put 8 v ++ rest) = Some (v, rest).
Proof. intros Hv. by apply get_le_put. Qed.

Lemma get_raw_app s rest : get_raw (size_of s) (s ++ rest) = Some (s, rest).
Proof.
  unfold get_raw, size_of. rewrite length_app. destruct (_ <? _) eqn:E; boolify; [lia|].
  by rewrite Nat2N.id, take_app_length, drop_app_length.
Qed.

Lemma get_bytes_put s rest : short s -> get_bytes (put_bytes s ++ rest) = Some (s, rest).
Proof.
  intros Hs. unfold get_bytes, put_bytes. rewrite <- app_assoc.
  erewrite preader_bind_some by by apply get_le4_put. apply get_raw_app.
Qed.

Lemma get_flag_put b rest : get_flag (flag_byte b ++ rest) = Some (b, rest).
Proof. by destruct b. Qed.

Lemma get_times_put {A} (r : preader A) (enc : A -> bytes) (l : list A) rest :
  (forall a rest, a ∈ l -> r (enc a ++ rest) = Some (a, rest)) ->
  get_times (length l) r (concat (map enc l) ++ rest) = Some (l, rest).
Proof.
  revert rest; induction l as [|a l IH]; intros rest Hr; simpl; [done|].
  rewrite <- app_assoc. erewrite preader_bind_some by (apply Hr; left).
  erewrite preader_bind_some; [done|]. apply IH. intros a' rest' Hin. apply Hr. by right.
Qed.

(** A list: its length in 16 bits, then its elements. *)
Lemma get_list_put {A} (r : preader A) (enc : A -> bytes) (l : list A) :
  u16 (size_of l) -> (forall a rest, a ∈ l -> r (enc a ++ rest) = Some (a, rest)) ->
  run (n ← get_le 2; get_times (N.to_nat n) r) (le_put 2 (size_of l) ++ concat (map enc l)) = Some l.
Proof.
  intros Hl Hr. unfold run. erewrite preader_bind_some by by apply get_le2_put.
  unfold size_of at 1. rewrite Nat2N.id. rewrite <- (app_nil_r (concat _)).
  by rewrite (get_times_put r enc l []) by done.
Qed.

#[global] Opaque le_put put_bytes get_le get_raw get_bytes get_flag.

Ltac proto_step :=
  lazymatch goal with
  | |- context [(_ ≫= _) ((_ ++ _) ++ _)] => rewrite <- app_assoc
  | _ => erewrite preader_bind_some by (first
      [ apply get_le8_put; solve [auto]
      | apply get_le4_put; solve [auto]
      | apply get_le2_put; solve [auto]
      | apply get_le1_put; solve [auto | lia]
      | apply get_bytes_put; solve [auto]
      | apply get_flag_put
      | apply get_raw_app ])
  end.

(** ** The payloads *)

Definition hello_wf (server_version capabilities : N) : Prop := u16 server_version /\ u32 capabilities.
Definition option_wf (o : bytes * bytes) : Prop := u16 (size_of o.1) /\ u16 (size_of o.2).
Definition value_wf (v : ProtocolValue) : Prop := short (text_ v).
Definition hint_wf (h : option LeaderHint) : Prop :=
  match h with None => True | Some h => u64 (lh_node_id h) /\ short (lh_endpoint h) end.
Definition error_wf (e : ErrorFrame) : Prop :=
  u8 (ef_code e) /\ short (ef_message e) /\ short (ef_sql e) /\ u32 (ef_begin_line e) /\
  u32 (ef_begin_column e) /\ u32 (ef_end_line e) /\ u32 (ef_end_column e) /\ hint_wf (leader_hint e).
Definition int64 (z : Z) : Prop := (-9223372036854775808 <= z < 9223372036854775808)%Z.
Definition database_wf (d : MetaDatabase) : Prop :=
  short (md_name d) /\ int64 (md_created_at d) /\ u32 (md_table_count d).
Definition table_wf (t : MetaTable) : Prop :=
  short (mt_name t) /\ u32 (mt_column_count t) /\ short (mt_primary_key t) /\ int64 (mt_created_at t) /\
  int64 (mt_last_write_at t) /\ u64 (mt_row_count t).

Lemma to_uint64_u64 z : u64 (to_uint64 z).
Proof.
  unfold u64, to_uint64, two64. pose proof (Z.mod_pos_bound z 18446744073709551616 eq_refl).
  change (Z.of_N 18446744073709551616) with 18446744073709551616%Z. lia.
Qed.
Lemma to_int64_uint64 z : int64 z -> to_int64 (to_uint64 z) = z.
Proof.
  intros Hz. unfold int64, to_int64, to_uint64, two64 in *.
  destruct (decide (0 <= z)%Z).
  - rewrite Z.mod_small by lia. destruct (_ <? _) eqn:E; boolify; lia.
  - rewrite <- (Z.mod_add z 1) by done. rewrite Z.mod_small by lia. destruct (_ <? _) eqn:E; boolify; lia.
Qed.

#[export] Hint Resolve to_uint64_u64 : core.
#[global] Arguments to_uint64 : simpl never.
#[global] Arguments to_int64 : simpl never.

Lemma get_value_put v rest : value_wf v -> get_value (put_value v ++ rest) = Some (v, rest).
Proof. intros Hv. unfold get_value, put_value, value_wf in *. destruct v. repeat proto_step. done. Qed.

Lemma get_option_put o rest : option_wf o -> get_option_entry (put_option_entry o ++ rest) = Some (o, rest).
Proof.
  intros [Hk Hv]. unfold get_option_entry, put_option_entry. destruct o as [k v]. repeat proto_step. done.
Qed.

Lemma get_database_put d rest : database_wf d -> get_database (put_database d ++ rest) = Some (d, rest).
Proof.
  intros (Hn & Hc & Ht). unfold get_database, put_database. destruct d. simpl in *. repeat proto_step.
  unfold mret, preader_ret. by rewrite to_int64_uint64.
Qed.

Lemma get_table_put t rest : table_wf t -> get_table (put_table t ++ rest) = Some (t, rest).
Proof.
  intros (Hn & Hcc & Hp & Hc & Hl & Hr). unfold get_table, put_table. destruct t. simpl in *.
  repeat proto_step. unfold mret, preader_ret. by rewrite !to_int64_uint64.
Qed.

Lemma get_hint_put h : hint_wf h -> get_leader_hint (put_hint h) = Some (h, []).
Proof.
  destruct h as [[node ep]|]; [|done]. intros [Hn He]. unfold get_leader_hint, put_hint. simpl in *.
  change (byte_of_N 1 :: le_put 8 node ++ put_bytes ep) with ([byte_of_N 1] ++ le_put 8 node ++ put_bytes ep).
  rewrite <- (app_nil_r (put_bytes ep)). unfold get_byte. proto_step. simpl. by repeat proto_step.
Qed.

(** ** Frames on a stream *)

Lemma frame_code_byte t : frame_of_code (Byte.to_N (byte_of_N (frame_code t))) = Some t.
Proof. by destruct t. Qed.

Lemma frame_of_code_inv c t : frame_of_code c = Some t -> c = frame_code t.
Proof. unfold frame_of_code. intros H. repeat case_match; boolify; by simplify_eq. Qed.

Definition payload_ok (p : bytes) : Prop := size_of p <= kMaxFrameSize.

Lemma frame_length t p : length (encode_frame t p) = (5 + length p)%nat.
Proof. unfold encode_frame. simpl. by rewrite length_app, le_put_length. Qed.

Lemma payload_u32 p : payload_ok p -> u32 (size_of p).
Proof. unfold payload_ok, kMaxFrameSize, u32, two32. lia. Qed.

Lemma try_decode_encoded t p rest : payload_ok p ->
  try_decode_frame (encode_frame t p ++ rest) = FrameReady (mkDecodedFrame t p) (5 + length p).
Proof.
  intros Hp. pose proof (payload_u32 p Hp) as Hu. unfold try_decode_frame, encode_frame.
  cbn [app]. cbn [length]. rewrite <- app_assoc, !length_app, le_put_length.
  destruct (_ <? 5)%nat eqn:E; boolify; [lia|clear E].
  rewrite (take_app_le _ _ 4) by (by rewrite le_put_length).
  rewrite take_ge by (by rewrite le_put_length). rewrite le_roundtrip by done.
  destruct (kMaxFrameSize <? _) eqn:E; boolify; [unfold payload_ok in Hp; lia|clear E].
  destruct (_ <? 5 + _) eqn:E; boolify; [|clear E].
  { unfold size_of in E. cbn [length] in E. rewrite !length_app, le_put_length in E. lia. }
  rewrite frame_code_byte. unfold size_of. rewrite !Nat2N.id. do 2 f_equal.
  cbn [drop]. rewrite (drop_app_ge _ _ 4) by (by rewrite le_put_length). rewrite le_put_length. cbn.
  by rewrite drop_0, take_app_length.
Qed.

Lemma try_decode_ready buffer f n : try_decode_frame buffer = FrameReady f n ->
  payload_ok (frame_payload f) /\ n = (5 + length (frame_payload f))%nat /\
  buffer = encode_frame (frame_type f) (frame_payload f) ++ drop n buffer.
Proof.
  unfold try_decode_frame. destruct buffer as [|ty rest]; [done|].
  destruct (_ <? 5)%nat eqn:E1; [done|]. destruct (kMaxFrameSize <? _) eqn:E2; [done|].
  destruct (_ <? 5 + _) eqn:E3; [done|]. destruct (frame_of_code _) as [t|] eqn:E4; [|done].
  intros [= <- <-]. boolify. apply frame_of_code_inv in E4. cbn [frame_payload frame_type drop length] in *.
  unfold payload_ok, size_of in *. cbn [length] in *.
  set (len := le_get (take 4 rest)) in *.
  assert (Hlen : length (take (N.to_nat len) (drop 4 rest)) = N.to_nat len).
  { rewrite length_take, length_drop. lia. }
  rewrite Hlen, N2Nat.id. split_and!; [done|done|]. unfold encode_frame, size_of. rewrite Hlen, N2Nat.id.
  assert (H4 : length (take 4 rest) = 4%nat) by (rewrite length_take; lia).
  cbn [app drop Nat.add]. f_equal.
  - by rewrite <- E4, byte_of_N_to_N.
  - unfold len at 1. rewrite <- H4 at 1. rewrite le_put_get. rewrite <- app_assoc.
    rewrite <- (take_drop 4 rest) at 1. f_equal. rewrite <- (take_drop (N.to_nat len) (drop 4 rest)) at 1.
    f_equal. rewrite drop_drop. f_equal.
Qed.

Lemma try_decode_prefix t p a b : payload_ok p -> encode_frame t p = a ++ b -> b <> [] ->
  try_decode_frame a = FrameIncomplete.
Proof.
  intros Hp Heq Hb. pose proof (payload_u32 p Hp) as Hu.
  assert (Hlen : (length a < 5 + length p)%nat).
  { apply (f_equal length) in Heq. rewrite frame_length, length_app in Heq. destruct b; [done|]. simpl in Heq. lia. }
  unfold try_decode_frame. destruct a as [|ty a]; [done|].
  destruct (_ <? 5)%nat eqn:E1; [done|]. boolify.
  assert (Ht : take 4 a = le_put 4 (size_of p)).
  { unfold encode_frame in Heq. cbn [app] in Heq. injection Heq as _ Heq.
    apply (f_equal (take 4)) in Heq. rewrite (take_app_le a) in Heq by (cbn [length] in E1; lia).
    rewrite <- Heq, (take_app_le _ _ 4) by (by rewrite le_put_length).
    by rewrite take_ge by (by rewrite le_put_length). }
  rewrite Ht, le_roundtrip by done.
  destruct (kMaxFrameSize <? _) eqn:E; boolify; [unfold payload_ok in Hp; lia|clear E].
  destruct (_ <? 5 + _) eqn:E; boolify; [done|]. unfold size_of in E. lia.
Qed.

(** C33: frames are exact. A buffer yields a frame precisely when it begins with
    the encoding of a frame of at most 16 MiB, and then that frame with the
    bytes it takes; a proper prefix of such an encoding yields nothing yet and
    is never an error, so reading in chunks of any size loses nothing; and a
    longer payload is encoded into a frame the other side refuses. *)
Theorem frames_exact buffer t p n :
  (try_decode_frame buffer = FrameReady (mkDecodedFrame t p) n <->
   payload_ok p /\ n = (5 + length p)%nat /\ exists rest, buffer = encode_frame t p ++ rest) /\
  (payload_ok p -> forall a b, encode_frame t p = a ++ b -> b <> [] -> try_decode_frame a = FrameIncomplete) /\
  (kMaxFrameSize < size_of p -> u32 (size_of p) ->
   forall rest, try_decode_frame (encode_frame t p ++ rest) = FrameTooLarge (size_of p)).
Proof.
  split; [split|split].
  - intros H. apply try_decode_ready in H as (Hp & Hn & Hb). eauto.
  - intros (Hp & -> & rest & ->). by apply try_decode_encoded.
  - intros Hp a b. by apply try_decode_prefix.
  - intros Hbig Hu rest. unfold try_decode_frame, encode_frame. cbn [app length].
    rewrite <- app_assoc, !length_app, le_put_length. destruct (_ <? 5)%nat eqn:E; boolify; [lia|clear E].
    rewrite (take_app_le _ _ 4) by (by rewrite le_put_length).
    rewrite take_ge by (by rewrite le_put_length). rewrite le_roundtrip by done.
    by destruct (kMaxFrameSize <? _) eqn:E; boolify; [|lia].
Qed.

Lemma frames_exact_witness :
  try_decode_frame (encode_frame kQuery [x41; x42] ++ [x07]) = FrameReady (mkDecodedFrame kQuery [x41; x42]) 7.
Proof.
  apply (frames_exact (encode_frame kQuery [x41; x42] ++ [x07]) kQuery [x41; x42] 7). split; [done|]. split; [done|].
  by exists [x07].
Defined.
