(* ===== verification/LevelDb.v ===== *)
(** * The LevelDB library as the storage code uses it

    LevelDB is a third-party library: its operations are the class [LevelDB]
    (a database handle, a snapshot, an iterator), and what the callers rely on,
    from its documentation, is the class [LevelDBLaws]: a handle stands for an
    ordered map, a write batch is applied as a whole or not at all, a snapshot
    and an iterator show the map of the moment they were made. A loop over an
    iterator takes its turns from [ldb_turns], a number larger than the rows of
    any map the handle shows, so it never runs out of them. [ldb_fine] says
    that reads meet no corruption or I/O error; writes may fail at any time.
    [MemDb] is a map in memory that satisfies the laws. *)

From S2P Require Import Prelude Bytes OMap KvTypes MergingIterator.

(** [leveldb::Status]: [ok()], [IsNotFound()], or another error with its text. *)
Inductive LStatus := LOk | LNotFound | LOther (text : string).

Definition l_ok (st : LStatus) : bool := match st with LOk => true | _ => false end.

(** The records of a [leveldb::WriteBatch]. *)
Inductive LOp := LPut (key : Key) (value : ByteValue) | LDelete (key : Key).

Class LevelDB (D P C : Type) := {
  ldb_get : option P -> Key -> D -> result LStatus ByteValue;
  ldb_put : bool -> Key -> ByteValue -> D -> D * LStatus;
  ldb_delete : bool -> Key -> D -> D * LStatus;
  ldb_write : bool -> list LOp -> D -> D * LStatus;
  ldb_get_snapshot : D -> D * option P;
  ldb_release_snapshot : P -> D -> D;
  ldb_new_iterator : option P -> D -> C;
  lc_seek : Key -> C -> C;
  lc_seek_to_first : C -> C;
  lc_seek_to_last : C -> C;
  lc_next : C -> C;
  lc_prev : C -> C;
  lc_valid : C -> bool;
  lc_key : C -> Key;
  lc_value : C -> ByteValue;
  lc_status : C -> LStatus;
  ldb_turns : D -> nat }.

Definition apply_lop (m : omap ByteValue) (o : LOp) : omap ByteValue :=
  match o with LPut k v => minsert k v m | LDelete k => merase k m end.
Definition apply_lops (l : list LOp) (m : omap ByteValue) : omap ByteValue := fold_left apply_lop l m.

(** A write: all of it with status OK, nothing otherwise. *)
Definition ldb_wrote {D} (fine : D -> Prop) (rows : D -> omap ByteValue)
    (l : list LOp) (d d' : D) (st : LStatus) : Prop :=
  fine d' /\ rows d' = if l_ok st then apply_lops l (rows d) else rows d.

(** An iterator is a position in an ordered map; the position after the last
    row is the one that is not valid. *)
Class LevelDBLaws (D P C : Type) `{LevelDB D P C} := {
  ldb_fine : D -> Prop;
  ldb_rows : D -> omap ByteValue;
  ldb_pinned : P -> omap ByteValue;
  lc_fine : C -> Prop;
  lc_rows : C -> omap ByteValue;
  lc_at : C -> nat;
  ldb_sorted : forall d, ldb_fine d -> sorted (ldb_rows d);
  ldb_turns_law : forall d, ldb_fine d -> length (ldb_rows d) < ldb_turns d;
  ldb_get_law : forall o k d, ldb_fine d ->
    ldb_get o k d = match mfind k (match o with Some s => ldb_pinned s | None => ldb_rows d end) with
                    | Some v => Ok v | None => Err LNotFound end;
  ldb_put_law : forall sync k v d d' st, ldb_fine d -> ldb_put sync k v d = (d', st) ->
    ldb_wrote ldb_fine ldb_rows [LPut k v] d d' st;
  ldb_delete_law : forall sync k d d' st, ldb_fine d -> ldb_delete sync k d = (d', st) ->
    ldb_wrote ldb_fine ldb_rows [LDelete k] d d' st /\ st <> LNotFound;
  ldb_write_law : forall sync l d d' st, ldb_fine d -> ldb_write sync l d = (d', st) ->
    ldb_wrote ldb_fine ldb_rows l d d' st;
  ldb_snapshot_law : forall d, ldb_fine d -> exists d' s, ldb_get_snapshot d = (d', Some s) /\
    ldb_fine d' /\ ldb_rows d' = ldb_rows d /\ ldb_pinned s = ldb_rows d;
  ldb_release_law : forall s d, ldb_fine d ->
    ldb_fine (ldb_release_snapshot s d) /\ ldb_rows (ldb_release_snapshot s d) = ldb_rows d;
  ldb_iterator_law : forall o d, ldb_fine d -> lc_fine (ldb_new_iterator o d) /\
    lc_rows (ldb_new_iterator o d) = match o with Some s => ldb_pinned s | None => ldb_rows d end;
  lc_valid_law : forall c, lc_fine c -> lc_valid c = (lc_at c <? length (lc_rows c));
  lc_current_law : forall c k v, lc_fine c -> lc_rows c !! lc_at c = Some (k, v) ->
    lc_key c = k /\ lc_value c = v;
  lc_status_law : forall c, lc_fine c -> lc_status c = LOk;
  lc_seek_law : forall k c, lc_fine c -> lc_fine (lc_seek k c) /\
    lc_rows (lc_seek k c) = lc_rows c /\ lc_at (lc_seek k c) = lower_bound k (lc_rows c);
  lc_first_law : forall c, lc_fine c -> lc_fine (lc_seek_to_first c) /\
    lc_rows (lc_seek_to_first c) = lc_rows c /\ lc_at (lc_seek_to_first c) = 0;
  lc_last_law : forall c, lc_fine c -> lc_fine (lc_seek_to_last c) /\
    lc_rows (lc_seek_to_last c) = lc_rows c /\ lc_at (lc_seek_to_last c) = length (lc_rows c) - 1;
  lc_next_law : forall c, lc_fine c -> lc_valid c = true -> lc_fine (lc_next c) /\
    lc_rows (lc_next c) = lc_rows c /\ lc_at (lc_next c) = S (lc_at c);
  lc_prev_law : forall c, lc_fine c -> lc_valid c = true -> lc_fine (lc_prev c) /\
    lc_rows (lc_prev c) = lc_rows c /\
    lc_at (lc_prev c) = if lc_at c =? 0 then length (lc_rows c) else lc_at c - 1 }.

Lemma sorted_lops l m : sorted m -> sorted (apply_lops l m).
Proof.
  revert m. induction l as [|o l IH]; intros m Hm; [done|]. apply IH.
  destruct o; [by apply msorted_insert|by apply msorted_erase].
Qed.

Lemma apply_lops_app l1 l2 m : apply_lops (l1 ++ l2) m = apply_lops l2 (apply_lops l1 m).
Proof. apply fold_left_app. Qed.

(** The loop [for (; it->Valid() && P(it->key()); it->Next())]: the rows it
    visits. *)
Fixpoint lc_while {D P C} `{LevelDB D P C} (turns : nat) (test : Key -> bool) (c : C) : list (Key * ByteValue) :=
  match turns with
  | O => []
  | S n => if lc_valid c && test (lc_key c) then (lc_key c, lc_value c) :: lc_while n test (lc_next c) else []
  end.

(** The iterator where that loop stops. *)
Fixpoint lc_end {D P C} `{LevelDB D P C} (turns : nat) (test : Key -> bool) (c : C) : C :=
  match turns with
  | O => c
  | S n => if lc_valid c && test (lc_key c) then lc_end n test (lc_next c) else c
  end.

Lemma lc_end_fine {D P C} `{LevelDBLaws D P C} turns test c : lc_fine c -> lc_fine (lc_end turns test c).
Proof.
  revert c. induction turns as [|n IH]; intros c Hc; [done|]. cbn [lc_end].
  destruct (lc_valid c) eqn:Hv; cbn [andb]; [|done]. destruct (test (lc_key c)); [|done]. apply IH. by apply lc_next_law.
Qed.

Fixpoint take_while (test : Key -> bool) (m : omap ByteValue) : omap ByteValue :=
  match m with
  | [] => []
  | (k, v) :: m' => if test k then (k, v) :: take_while test m' else []
  end.

Lemma lc_while_rows {D P C} `{LevelDBLaws D P C} turns test c : lc_fine c ->
  length (lc_rows c) < turns + lc_at c ->
  lc_while turns test c = take_while test (drop (lc_at c) (lc_rows c)).
Proof.
  revert c. induction turns as [|n IH]; intros c Hc Hlen; [by rewrite drop_ge by lia|]. cbn [lc_while].
  rewrite lc_valid_law by done. destruct (lc_rows c !! lc_at c) as [[k v]|] eqn:E.
  - pose proof (lookup_lt_Some _ _ _ E) as Hlt. destruct (lc_current_law c k v Hc E) as [-> ->].
    rewrite (proj2 (Nat.ltb_lt _ _) Hlt), (drop_S _ _ _ E). cbn [andb take_while].
    destruct (test k); [|done]. f_equal.
    assert (Hv : lc_valid c = true) by (rewrite lc_valid_law by done; by apply Nat.ltb_lt).
    destruct (lc_next_law c Hc Hv) as (Hf & Hr & Ha). rewrite IH by (rewrite ?Hr, ?Ha; (done || lia)).
    by rewrite Hr, Ha.
  - apply lookup_ge_None in E. rewrite (proj2 (Nat.ltb_ge _ _) E), drop_ge by done. done.
Qed.

Lemma take_while_filter test (m : omap ByteValue) : sorted m ->
  (forall a b, a ∈ m.*1 -> b ∈ m.*1 -> bytes_lt a b -> test b = true -> test a = true) ->
  take_while test m = filter (fun p => test p.1 = true) m.
Proof.
  intros Hs. induction m as [|[k v] m IH]; intros Hd; [done|]. cbn [take_while]. rewrite filter_cons. cbn [fst].
  destruct (test k) eqn:E.
  - rewrite decide_True by done. f_equal. apply IH; [by eapply sorted_tail|]. intros a b Ha Hb. apply Hd; by right.
  - rewrite decide_False by done. symmetry. apply (filter_none test). pose proof (sorted_head _ _ Hs) as Hh.
    rewrite Forall_forall in Hh |- *. intros p Hp. specialize (Hh p Hp). unfold key_before in Hh. cbn in Hh.
    destruct (test p.1) eqn:Ep; [|done]. rewrite (Hd k p.1) in E; [done|left| |done|done].
    right. apply list_elem_of_fmap. by exists p.
Qed.

(** A list of deletions. *)
Lemma find_deletes keys m k : sorted m ->
  mfind k (apply_lops (map LDelete keys) m) = if bool_decide (k ∈ keys) then None else mfind k m.
Proof.
  intros Hm. induction keys as [|k0 keys IH] using rev_ind; [done|].
  rewrite map_app, apply_lops_app. cbn [apply_lops map fold_left apply_lop].
  assert (Hs := sorted_lops (map LDelete keys) m Hm).
  destruct (decide (k = k0)) as [->|Hne].
  - rewrite mfind_erase_eq by done. rewrite bool_decide_eq_true_2; [done|]. apply elem_of_app. right. left.
  - rewrite mfind_erase_ne, IH by done. rewrite (bool_decide_ext (k ∈ keys ++ [k0]) (k ∈ keys)) by set_solver. done.
Qed.

(** ** A database in memory *)

(** The rows and a switch that makes writes fail. *)
Record MemDb := mkMemDb { mem_rows : omap ByteValue; mem_broken : bool }.
Record MemCursor := mkMemCursor { mc_rows : omap ByteValue; mc_at : nat }.

Definition mem_write (l : list LOp) (d : MemDb) : MemDb * LStatus :=
  if mem_broken d then (d, LOther "IO error") else (mkMemDb (apply_lops l (mem_rows d)) false, LOk).

#[export] Instance Mem_LevelDB : LevelDB MemDb (omap ByteValue) MemCursor := {|
  ldb_get o k d := match mfind k (default (mem_rows d) o) with Some v => Ok v | None => Err LNotFound end;
  ldb_put _ k v := mem_write [LPut k v];
  ldb_delete _ k := mem_write [LDelete k];
  ldb_write _ := mem_write;
  ldb_get_snapshot d := (d, Some (mem_rows d));
  ldb_release_snapshot _ d := d;
  ldb_new_iterator o d := mkMemCursor (default (mem_rows d) o) 0;
  lc_seek k c := mkMemCursor (mc_rows c) (lower_bound k (mc_rows c));
  lc_seek_to_first c := mkMemCursor (mc_rows c) 0;
  lc_seek_to_last c := mkMemCursor (mc_rows c) (length (mc_rows c) - 1);
  lc_next c := mkMemCursor (mc_rows c) (S (mc_at c));
  lc_prev c := mkMemCursor (mc_rows c) (if mc_at c =? 0 then length (mc_rows c) else mc_at c - 1);
  lc_valid c := mc_at c <? length (mc_rows c);
  lc_key c := default [] (fst <$> mc_rows c !! mc_at c);
  lc_value c := default [] (snd <$> mc_rows c !! mc_at c);
  lc_status _ := LOk;
  ldb_turns d := S (length (mem_rows d)) |}.

Lemma mem_write_law l d d' st : sorted (mem_rows d) -> mem_write l d = (d', st) ->
  ldb_wrote (fun d => sorted (mem_rows d)) mem_rows l d d' st /\ st <> LNotFound.
Proof.
  intros Hd. unfold mem_write, ldb_wrote. destruct (mem_broken d); intros [= <- <-]; [done|].
  split; [split; [by apply sorted_lops|done]|done].
Qed.

#[export] Instance Mem_LevelDBLaws : LevelDBLaws MemDb (omap ByteValue) MemCursor.
Proof.
  refine {| ldb_fine d := sorted (mem_rows d); ldb_rows := mem_rows; ldb_pinned s := s;
            lc_fine _ := True; lc_rows := mc_rows; lc_at := mc_at |}; try done.
  - intros d _. cbn. lia.
  - intros sync k v d d' st Hd Hw. by eapply mem_write_law.
  - intros sync k d d' st Hd Hw. by eapply mem_write_law.
  - intros sync l d d' st Hd Hw. by eapply mem_write_law.
  - intros d Hd. by exists d, (mem_rows d).
  - intros c k v _ Hc. cbn. by rewrite Hc.
Defined.
