(* ===== verification/LevelEngine.v ===== *)
(** * The disk engine: [storage/leveldb_engine/leveldb_engine.{h,cpp}]

    [LevelDBIterator], [LevelDBStore] and [LevelDBEngine], over the LevelDB
    library of [LevelDb]. The pointer [it_] of an iterator is never null: the
    library does not return one. The mutex of the store serialises its
    operations; each is a function of the store's state. Where the code calls
    [DB::Open], its answer is an argument. *)

From S2P Require Import Prelude Bytes OMap KvTypes TxBuffer MockStore MergingIterator MockEngine LevelDb.

Section Engine.
Context {D P C : Type} `{!LevelDB D P C}.

(** ** [class LevelDBIterator] *)

Record LevelDBIterator := mkLevelIterator { lvi_it : C; lvi_range : KeyRange; lvi_status : Status }.

Definition lvi_in_range (r : KeyRange) (c : C) : bool :=
  if negb (lc_valid c) then false
  else
    let key := lc_key c in
    if match start r with Some s => bytes_ltb key s | None => false end then false
    else if match end_ r with Some e => bytes_leb e key | None => false end then false
    else true.

(** [update_status]. *)
Definition lvi_update_status (r : KeyRange) (c : C) : Status :=
  if negb (lc_valid c) then if l_ok (lc_status c) then StNotFound else StIOError
  else if lvi_in_range r c then StOK else StNotFound.

Definition lvi_moved (c : C) (it : LevelDBIterator) : LevelDBIterator :=
  mkLevelIterator c (lvi_range it) (lvi_update_status (lvi_range it) c).

(** The last row before [e]. *)
Definition lc_seek_before (e : Key) (c : C) : C :=
  let c := lc_seek e c in
  if lc_valid c && bytes_leb e (lc_key c) then lc_prev c else c.

Definition lvi_seek_to_first (it : LevelDBIterator) : LevelDBIterator :=
  let c := lvi_it it in
  match direction (lvi_range it) with
  | kForward =>
      match start (lvi_range it) with
      | Some s => lvi_moved (lc_seek s c) it
      | None => lvi_moved (lc_seek_to_first c) it
      end
  | kReverse =>
      match end_ (lvi_range it) with
      | Some e => lvi_moved (lc_seek_before e c) it
      | None => lvi_moved (lc_seek_to_last c) it
      end
  end.

Definition lvi_seek (key : Key) (it : LevelDBIterator) : LevelDBIterator :=
  let c := lvi_it it in
  match direction (lvi_range it) with
  | kForward =>
      let target := match start (lvi_range it) with
                    | Some s => if bytes_ltb key s then s else key
                    | None => key
                    end in
      lvi_moved (lc_seek target c) it
  | kReverse =>
      if match end_ (lvi_range it) with Some e => bytes_leb e key | None => false end
      then lvi_seek_to_first it
      else
        let c := lc_seek key c in
        lvi_moved
          (if lc_valid c then if bytes_ltb key (lc_key c) then lc_prev c else c
           else lc_seek_to_last c) it
  end.

Definition lvi_seek_to_last (it : LevelDBIterator) : LevelDBIterator :=
  let c := lvi_it it in
  match direction (lvi_range it) with
  | kForward =>
      match end_ (lvi_range it) with
      | Some e => lvi_moved (lc_seek_before e c) it
      | None => lvi_moved (lc_seek_to_last c) it
      end
  | kReverse =>
      match start (lvi_range it) with
      | Some s =>
          let c := lc_seek s c in
          lvi_moved (if lc_valid c && bytes_ltb s (lc_key c) then lc_prev c else c) it
      | None => lvi_moved (lc_seek_to_last c) it
      end
  end.

Definition lvi_valid (it : LevelDBIterator) : bool :=
  if bool_decide (lvi_status it <> StOK) then false
  else if negb (lc_valid (lvi_it it)) then false
  else lvi_in_range (lvi_range it) (lvi_it it).

Definition lvi_next (it : LevelDBIterator) : LevelDBIterator :=
  if negb (lvi_valid it) then it
  else lvi_moved (match direction (lvi_range it) with
                  | kForward => lc_next (lvi_it it) | kReverse => lc_prev (lvi_it it) end) it.

Definition lvi_prev (it : LevelDBIterator) : LevelDBIterator :=
  if negb (lvi_valid it) then it
  else lvi_moved (match direction (lvi_range it) with
                  | kForward => lc_prev (lvi_it it) | kReverse => lc_next (lvi_it it) end) it.

Definition lvi_key (it : LevelDBIterator) : Key := if lvi_valid it then lc_key (lvi_it it) else [].
Definition lvi_value (it : LevelDBIterator) : ByteValue := if lvi_valid it then lc_value (lvi_it it) else [].

(** The constructor positions the iterator on the first row. *)
Definition level_iterator (c : C) (r : KeyRange) : LevelDBIterator :=
  lvi_seek_to_first (mkLevelIterator c r StOK).

#[export] Instance LevelIterator_ops : Iterator LevelDBIterator := {|
  it_seek := lvi_seek; it_seek_to_first := lvi_seek_to_first; it_seek_to_last := lvi_seek_to_last;
  it_next := lvi_next; it_prev := lvi_prev; it_valid := lvi_valid; it_key := lvi_key;
  it_value := lvi_value; it_status := lvi_status |}.

(** ** [class LevelDBStore] *)

(** [active_iterators_] holds the addresses of the live iterators. *)
Record LevelDBStore := mkLevelStore {
  db_ : option D; lvs_options : DatabaseOptions; lvs_is_open : bool; lvs_owner : option nat;
  snapshot_count_ : N; active_iterators_ : gset N }.

Definition new_level_store : LevelDBStore := mkLevelStore None default_options false None 0 ∅.

Definition with_db (d : D) (s : LevelDBStore) : LevelDBStore :=
  mkLevelStore (Some d) (lvs_options s) (lvs_is_open s) (lvs_owner s) (snapshot_count_ s) (active_iterators_ s).
Definition with_owner (o : option nat) (s : LevelDBStore) : LevelDBStore :=
  mkLevelStore (db_ s) (lvs_options s) (lvs_is_open s) o (snapshot_count_ s) (active_iterators_ s).

Definition lvs_open (opts : DatabaseOptions) (opened : result LStatus D) (s : LevelDBStore) : LevelDBStore * Status :=
  if lvs_is_open s then (s, StAlreadyExists)
  else
    let s := mkLevelStore (db_ s) opts (lvs_is_open s) (lvs_owner s) (snapshot_count_ s) (active_iterators_ s) in
    match opened with
    | Err _ => (s, StIOError)
    | Ok d => (mkLevelStore (Some d) opts true (lvs_owner s) (snapshot_count_ s) (active_iterators_ s), StOK)
    end.

Definition lvs_close (s : LevelDBStore) : LevelDBStore * Status :=
  if negb (lvs_is_open s) then (s, StNotFound)
  else if bool_decide (active_iterators_ s <> ∅) then (s, StBusy)
  else if (0 <? snapshot_count_ s)%N then (s, StBusy)
  else (mkLevelStore None (lvs_options s) false None (snapshot_count_ s) (active_iterators_ s), StOK).

Definition lvs_get (key : Key) (snapshot : option P) (s : LevelDBStore) : result Status ByteValue :=
  if negb (lvs_is_open s) then Err StInternalError
  else match db_ s with
       | None => Err StInternalError
       | Some d => match ldb_get snapshot key d with
                   | Ok v => Ok v
                   | Err LNotFound => Err StNotFound
                   | Err _ => Err StIOError
                   end
       end.

Definition lvs_put (key : Key) (value : ByteValue) (s : LevelDBStore) : LevelDBStore * Status :=
  if negb (lvs_is_open s) then (s, StInternalError)
  else match db_ s with
       | None => (s, StInternalError)
       | Some d => let '(d, st) := ldb_put false key value d in
                   (with_db d s, if l_ok st then StOK else StIOError)
       end.

(** A [Get] first, so that deleting an absent key is reported. *)
Definition lvs_remove (key : Key) (s : LevelDBStore) : LevelDBStore * Status :=
  if negb (lvs_is_open s) then (s, StInternalError)
  else match db_ s with
       | None => (s, StInternalError)
       | Some d =>
           match ldb_get None key d with
           | Err LNotFound => (s, StNotFound)
           | Err _ => (s, StIOError)
           | Ok _ =>
               let '(d, st) := ldb_delete false key d in
               (with_db d s, match st with LOk => StOK | LNotFound => StNotFound | LOther _ => StIOError end)
           end
       end.

Definition lvs_exists (key : Key) (snapshot : option P) (s : LevelDBStore) : bool :=
  if negb (lvs_is_open s) then false
  else match db_ s with
       | None => false
       | Some d => match ldb_get snapshot key d with Ok _ => true | Err _ => false end
       end.

Fixpoint lvs_get_batch_loop (snapshot : option P) (d : D) (keys : list Key) (policy : MissingKeyPolicy)
    : result Status (list (option ByteValue)) :=
  match keys with
  | [] => Ok []
  | key :: rest =>
      match ldb_get snapshot key d with
      | Err LNotFound =>
          match policy with
          | kReturnError => Err StNotFound
          | kReturnEmpty => let* vs := lvs_get_batch_loop snapshot d rest policy in Ok (None :: vs)
          end
      | Err _ => Err StIOError
      | Ok v => let* vs := lvs_get_batch_loop snapshot d rest policy in Ok (Some v :: vs)
      end
  end.

Definition lvs_get_batch (keys : list Key) (policy : MissingKeyPolicy) (snapshot : option P) (s : LevelDBStore)
    : result Status (list (option ByteValue)) :=
  if negb (lvs_is_open s) then Err StInternalError
  else match db_ s with
       | None => Err StInternalError
       | Some d => lvs_get_batch_loop snapshot d keys policy
       end.

(** One operation of a batch as records of a LevelDB batch. A range is expanded
    into the keys the database holds, whatever the batch itself has put before. *)
Definition expand_op (d : D) (o : Op) : list LOp :=
  match op_type o with
  | kPut => [LPut (pkey (op_data o)) (default [] (pvalue (op_data o)))]
  | kRemoveRange =>
      map (fun p => LDelete p.1)
        (lc_while (ldb_turns d) (fun k => bytes_ltb k (range_end o)) (lc_seek (pkey (op_data o)) (ldb_new_iterator None d)))
  | kRemove => [LDelete (pkey (op_data o))]
  end.

Definition lvs_apply_batch_locked (batch : WriteBatch) (s : LevelDBStore) : LevelDBStore * Status :=
  match db_ s with
  | None => (s, StInternalError)
  | Some d =>
      if existsb op_invalid (ops batch) then (s, StInvalidArgument)
      else let '(d', st) := ldb_write (batch_sync batch) (concat (map (expand_op d) (ops batch))) d in
           (with_db d' s, if l_ok st then StOK else StIOError)
  end.

Definition lvs_write_batch (batch : WriteBatch) (s : LevelDBStore) : LevelDBStore * Status :=
  if negb (lvs_is_open s) then (s, StInternalError)
  else match ops batch with
       | [] => (s, StOK)
       | _ => match db_ s with None => (s, StInternalError) | Some _ => lvs_apply_batch_locked batch s end
       end.

(** [addr] is the address of the new iterator. *)
Definition lvs_new_iterator (addr : N) (r : KeyRange) (snapshot : option P) (s : LevelDBStore)
    : LevelDBStore * option LevelDBIterator :=
  if negb (lvs_is_open s) then (s, None)
  else match db_ s with
       | None => (s, None)
       | Some d =>
           (mkLevelStore (db_ s) (lvs_options s) (lvs_is_open s) (lvs_owner s) (snapshot_count_ s)
              ({[addr]} ∪ active_iterators_ s),
            Some (level_iterator (ldb_new_iterator snapshot d) r))
       end.

(** The destructor of an iterator. *)
Definition unregister_iterator (addr : N) (s : LevelDBStore) : LevelDBStore :=
  mkLevelStore (db_ s) (lvs_options s) (lvs_is_open s) (lvs_owner s) (snapshot_count_ s) (active_iterators_ s ∖ {[addr]}).
Definition has_active_iterators (s : LevelDBStore) : bool := bool_decide (active_iterators_ s <> ∅).

Definition acquire_snapshot (s : LevelDBStore) : LevelDBStore * option P :=
  if negb (lvs_is_open s) then (s, None)
  else match db_ s with
       | None => (s, None)
       | Some d => let '(d, snapshot) := ldb_get_snapshot d in
                   (mkLevelStore (Some d) (lvs_options s) (lvs_is_open s) (lvs_owner s)
                      (match snapshot with Some _ => snapshot_count_ s + 1 | None => snapshot_count_ s end)%N
                      (active_iterators_ s), snapshot)
       end.

Definition release_snapshot (snapshot : P) (s : LevelDBStore) : LevelDBStore :=
  mkLevelStore (ldb_release_snapshot snapshot <$> db_ s) (lvs_options s) (lvs_is_open s) (lvs_owner s)
    (if (0 <? snapshot_count_ s)%N then snapshot_count_ s - 1 else snapshot_count_ s)%N (active_iterators_ s).

Definition lvs_acquire_write_slot (owner : nat) (s : LevelDBStore) : LevelDBStore * Status :=
  if negb (lvs_is_open s) then (s, StInternalError)
  else match lvs_owner s with
       | Some o => if bool_decide (o <> owner) then (s, StBusy) else (with_owner (Some owner) s, StOK)
       | None => (with_owner (Some owner) s, StOK)
       end.

Definition lvs_release_write_slot (owner : nat) (s : LevelDBStore) : LevelDBStore * Status :=
  if bool_decide (lvs_owner s <> Some owner) then (s, StNotFound) else (with_owner None s, StOK).

Definition lvs_write_slot_held (s : LevelDBStore) : bool := match lvs_owner s with Some _ => true | None => false end.

(** ** [class LevelDBEngine] *)

Record LevelDBEngine := mkLevelEngine { lve_tx : option TxBuffer; lve_snapshot : option P; lve_slot : bool }.

Definition new_level_engine : LevelDBEngine := mkLevelEngine None None false.

Definition lve_get (key : Key) (s : LevelDBStore) (e : LevelDBEngine) : result Status ByteValue :=
  if negb (lvs_is_open s) then Err StInternalError
  else match lve_tx e with
       | Some t =>
           match tx_lookup key t with
           | OvTombstone => Err StNotFound
           | OvValue v => Ok v
           | OvNone => lvs_get key (lve_snapshot e) s
           end
       | None => lvs_get key (lve_snapshot e) s
       end.

Definition lve_exists (key : Key) (s : LevelDBStore) (e : LevelDBEngine) : bool :=
  if negb (lvs_is_open s) then false
  else match lve_tx e with
       | Some t => if covered (tx_lookup key t) then has_value (tx_lookup key t)
                   else lvs_exists key (lve_snapshot e) s
       | None => lvs_exists key (lve_snapshot e) s
       end.

(** With the slot the snapshot is given up: nobody else can commit. *)
Definition lve_acquire_write_slot (self : nat) (s : LevelDBStore) (e : LevelDBEngine)
    : LevelDBStore * LevelDBEngine * Status :=
  if lve_slot e then (s, e, StOK)
  else if negb (lvs_is_open s) then (s, e, StInternalError)
  else match lvs_acquire_write_slot self s with
       | (s', StOK) =>
           (match lve_snapshot e with Some p => release_snapshot p s' | None => s' end,
            mkLevelEngine (lve_tx e) None true, StOK)
       | (s', st) => (s', e, st)
       end.

Definition lve_ensure_write_slot (self : nat) (s : LevelDBStore) (e : LevelDBEngine)
    : LevelDBStore * LevelDBEngine * Status :=
  if lve_slot e then (s, e, StOK) else lve_acquire_write_slot self s e.

Definition lve_release_write_slot (self : nat) (s : LevelDBStore) (e : LevelDBEngine)
    : LevelDBStore * LevelDBEngine :=
  if negb (lve_slot e) then (s, e)
  else ((lvs_release_write_slot self s).1, mkLevelEngine (lve_tx e) (lve_snapshot e) false).

(** A write outside a transaction: the slot is held for this one operation. *)
Definition lve_autocommit (self : nat) (op : LevelDBStore -> LevelDBStore * Status)
    (s : LevelDBStore) (e : LevelDBEngine) : LevelDBStore * LevelDBEngine * Status :=
  match lvs_acquire_write_slot self s with
  | (s', StOK) => let '(s'', st) := op s' in ((lvs_release_write_slot self s'').1, e, st)
  | (s', st) => (s', e, st)
  end.

(** A write inside a transaction: into the buffer, once the slot is held. *)
Definition lve_buffered (self : nat) (w : TxBuffer -> TxBuffer) (t : TxBuffer)
    (s : LevelDBStore) (e : LevelDBEngine) : LevelDBStore * LevelDBEngine * Status :=
  match lve_ensure_write_slot self s e with
  | (s', e', StOK) => (s', mkLevelEngine (Some (w t)) (lve_snapshot e') (lve_slot e'), StOK)
  | r => r
  end.

Definition lve_put (self : nat) (key : Key) (value : ByteValue) (s : LevelDBStore) (e : LevelDBEngine)
    : LevelDBStore * LevelDBEngine * Status :=
  if negb (lvs_is_open s) then (s, e, StInternalError)
  else match lve_tx e with
       | Some t => lve_buffered self (tx_put key value) t s e
       | None => lve_autocommit self (lvs_put key value) s e
       end.

Definition lve_remove (self : nat) (key : Key) (s : LevelDBStore) (e : LevelDBEngine)
    : LevelDBStore * LevelDBEngine * Status :=
  if negb (lvs_is_open s) then (s, e, StInternalError)
  else match lve_tx e with
       | Some t => lve_buffered self (tx_remove key) t s e
       | None => lve_autocommit self (lvs_remove key) s e
       end.

Fixpoint lve_get_batch_loop (keys : list Key) (policy : MissingKeyPolicy)
    (s : LevelDBStore) (e : LevelDBEngine) : result Status (list (option ByteValue)) :=
  match keys with
  | [] => Ok []
  | key :: rest =>
      match lve_get key s e with
      | Ok v => let* vs := lve_get_batch_loop rest policy s e in Ok (Some v :: vs)
      | Err StNotFound =>
          match policy with
          | kReturnError => Err StNotFound
          | kReturnEmpty => let* vs := lve_get_batch_loop rest policy s e in Ok (None :: vs)
          end
      | Err st => Err st
      end
  end.

Definition lve_get_batch (keys : list Key) (policy : MissingKeyPolicy) (s : LevelDBStore) (e : LevelDBEngine)
    : result Status (list (option ByteValue)) :=
  if negb (lvs_is_open s) then Err StInternalError
  else match lve_tx e with
       | None => lvs_get_batch keys policy (lve_snapshot e) s
       | Some _ => lve_get_batch_loop keys policy s e
       end.

Definition lve_write_batch (self : nat) (batch : WriteBatch) (s : LevelDBStore) (e : LevelDBEngine)
    : LevelDBStore * LevelDBEngine * Status :=
  if negb (lvs_is_open s) then (s, e, StInternalError)
  else match ops batch with
       | [] => (s, e, StOK)
       | _ => match lve_tx e with
              | None => lve_autocommit self (lvs_write_batch batch) s e
              | Some t => lve_buffered self (fun t => fold_left tx_batch_op (ops batch) t) t s e
              end
       end.

Inductive LevelEngineIterator :=
| LPlain (it : LevelDBIterator)
| LMerged (it : MergingIterator LevelDBIterator).

Definition lve_new_iterator (addr : N) (r : KeyRange) (s : LevelDBStore) (e : LevelDBEngine)
    : LevelDBStore * option LevelEngineIterator :=
  if negb (lvs_is_open s) then (s, None)
  else match lvs_new_iterator addr r (lve_snapshot e) s with
       | (s, None) => (s, None)
       | (s, Some inner) =>
           (s, Some (match lve_tx e with
                     | None => LPlain inner
                     | Some t => LMerged (merging_iterator inner (Some t) r)
                     end))
       end.

Definition lve_begin_transaction (s : LevelDBStore) (e : LevelDBEngine) : LevelDBStore * LevelDBEngine * Status :=
  if negb (lvs_is_open s) then (s, e, StInternalError)
  else match lve_tx e with
       | Some _ => (s, e, StBusy)
       | None =>
           match acquire_snapshot s with
           | (s, None) => (s, mkLevelEngine (lve_tx e) None (lve_slot e), StInternalError)
           | (s, Some p) => (s, mkLevelEngine (Some empty_tx) (Some p) (lve_slot e), StOK)
           end
       end.

(** The buffer, the snapshot and the slot are given up. *)
Definition lve_end_transaction (self : nat) (s : LevelDBStore) (e : LevelDBEngine) : LevelDBStore * LevelDBEngine :=
  let s := match lve_snapshot e with Some p => release_snapshot p s | None => s end in
  (if lve_slot e then (lvs_release_write_slot self s).1 else s, mkLevelEngine None None false).

Definition lve_commit_transaction (self : nat) (s : LevelDBStore) (e : LevelDBEngine)
    : LevelDBStore * LevelDBEngine * Status :=
  if negb (lvs_is_open s) then (s, e, StInternalError)
  else match lve_tx e with
       | None => (s, e, StNotFound)
       | Some t =>
           if tx_exceeds t then (s, e, StInvalidArgument)
           else match lvs_write_batch (set_sync true (to_batch t)) s with
                | (s', StOK) => (lve_end_transaction self s' e, StOK)
                | (s', st) => (s', e, st)
                end
       end.

Definition lve_rollback_transaction (self : nat) (s : LevelDBStore) (e : LevelDBEngine)
    : LevelDBStore * LevelDBEngine * Status :=
  if negb (lvs_is_open s) then (s, e, StInternalError)
  else match lve_tx e with
       | None => (s, e, StNotFound)
       | Some _ => (lve_end_transaction self s e, StOK)
       end.

(** The destructor: an uncommitted transaction is dropped, the slot returned. *)
Definition lve_destroy (self : nat) (s : LevelDBStore) (e : LevelDBEngine) : LevelDBStore :=
  let s := match lve_snapshot e with Some p => release_snapshot p s | None => s end in
  if lve_slot e then (lvs_release_write_slot self s).1 else s.
End Engine.
Arguments LevelDBStore D : clear implicits.
Arguments LevelDBEngine P : clear implicits.
Arguments LevelDBIterator C : clear implicits.
Arguments LevelEngineIterator C : clear implicits.
