(* ===== verification/LevelIter.v ===== *)
(** * Iterators of the disk engine satisfy the iterator laws

    A [LevelDBIterator] stands for the rows of its range in scan order, like the
    other iterators of [KvTypes]. A reverse iterator with an upper bound does so
    only when the database has a key at or above the bound ([lvi_bounded]): with
    none, [seek_to_first] finds nothing and leaves the iterator invalid. *)

From S2P Require Import Prelude Bytes OMap KvTypes TxBuffer MockStore MergingIterator MockEngine Transactions LevelDb LevelEngine.

Abbreviation in_rows r := (filter (fun p : Key * ByteValue => range_contains r p.1 = true)).

(** ** Rows from a position on *)

(** The rows an iterator still shows: none once it has left its range. *)
Definition settled (r : KeyRange) (l : omap ByteValue) : omap ByteValue :=
  match l with
  | (k, _) :: _ => if range_contains r k then in_rows r l else []
  | [] => []
  end.

(** The key is not before the range in scan order. *)
Definition ahead (r : KeyRange) (k : Key) : bool :=
  match direction r with
  | kForward => negb match start r with Some s => bytes_ltb k s | None => false end
  | kReverse => negb match end_ r with Some e => bytes_leb e k | None => false end
  end.

Lemma settled_filter r l : scan_sorted (direction r) l ->
  match l with p :: _ => ahead r p.1 = true | [] => True end -> settled r l = in_rows r l.
Proof.
  intros Hs Ha. destruct l as [|[k v] l]; [done|]. cbn [settled]. destruct (range_contains r k) eqn:E; [done|].
  symmetry. apply (filter_none (range_contains r)). constructor; [done|].
  inversion Hs as [|? ? _ Hl]; subst. eapply Forall_impl; [exact Hl|]. intros q Hq. cbn in Ha, Hq, E.
  unfold ahead, range_contains, bytes_leb in *. destruct (direction r); cbn in Hq.
  - destruct (match start r with Some s => bytes_ltb k s | None => false end); [done|].
    destruct (match start r with Some s => bytes_ltb q.1 s | None => false end); [done|].
    destruct (end_ r) as [e|]; [|done]. destruct (bytes_ltb k e) eqn:Ek; [done|].
    destruct (bytes_ltb q.1 e) eqn:Eq; [|done]. by rewrite (bytes_ltb_trans _ _ _ Hq Eq) in Ek.
  - destruct (match end_ r with Some e => negb (bytes_ltb k e) | None => false end) eqn:Ee; [done|].
    destruct (start r) as [s|]; [|done]. destruct (bytes_ltb k s) eqn:Ek; [|done].
    by rewrite (bytes_ltb_trans _ _ _ Hq Ek).
Qed.

(** The rows from position [i] on in the direction of a scan. *)
Definition rows_at (d : ScanDirection) (rows : omap ByteValue) (i : nat) : omap ByteValue :=
  match d with
  | kForward => drop i rows
  | kReverse => if i <? length rows then reverse (take (S i) rows) else []
  end.

Lemma rows_at_sorted d rows i : sorted rows -> scan_sorted d (rows_at d rows i).
Proof.
  intros Hs. assert (Hsub : forall n, sorted (take n rows) /\ sorted (drop n rows)).
  { intros n. rewrite <- (take_drop n rows) in Hs. by apply sorted_app in Hs as (? & ? & _). }
  unfold rows_at. destruct d.
  - apply (scan_sorted_order kForward). apply Hsub.
  - destruct (i <? length rows); [|constructor]. apply (scan_sorted_order kReverse). apply Hsub.
Qed.

Lemma rows_at_head d rows i : match rows_at d rows i with p :: _ => rows !! i = Some p | [] => rows !! i = None end.
Proof.
  unfold rows_at. destruct d.
  - destruct (rows !! i) as [p|] eqn:E; [by rewrite (drop_S _ _ _ E)|]. apply lookup_ge_None in E. by rewrite drop_ge.
  - destruct (i <? length rows) eqn:E; boolify; [|by apply lookup_ge_None].
    destruct (lookup_lt_is_Some_2 _ _ E) as [p Hp]. by rewrite (take_S_r _ _ _ Hp), reverse_app.
Qed.

Lemma upper_bound_lower (k : Key) (rows : omap ByteValue) : sorted rows ->
  upper_bound k rows = match rows !! lower_bound k rows with
                       | Some (k', _) => if bytes_ltb k k' then lower_bound k rows else S (lower_bound k rows)
                       | None => lower_bound k rows end.
Proof.
  intros Hs. induction rows as [|[k' v'] rows IH]; [done|]. cbn [upper_bound lower_bound].
  pose proof (sorted_tail _ _ Hs) as Ht. destruct (bytes_ltb k' k) eqn:E.
  - rewrite (bytes_ltb_asym _ _ E), IH by done. change (((k', v') :: rows) !! S (lower_bound k rows)) with (rows !! lower_bound k rows).
    destruct (rows !! lower_bound k rows) as [[k2 v2]|]; [|done]. by destruct (bytes_ltb k k2).
  - cbn. destruct (bytes_ltb k k') eqn:F; [done|].
    f_equal. pose proof (bytes_ltb_antisym _ _ E F) as ->. destruct rows as [|[k2 v2] rows]; [done|]. cbn.
    pose proof (sorted_head _ _ Hs) as Hh. inversion Hh as [|? ? H1 _]; subst. unfold key_before, bytes_lt in H1.
    cbn in H1. by rewrite H1.
Qed.

(** The rows of the range that are at or after a bound of the scan. *)
Lemma in_rows_from r (rows : omap ByteValue) (test : Key -> bool) :
  (forall p, p ∈ rows -> range_contains r p.1 = true -> test p.1 = true) ->
  in_rows r (filter (fun p => test p.1 = true) rows) = in_rows r rows.
Proof.
  intros Ht. rewrite list_filter_filter. apply filter_ext_in. intros p Hp.
  specialize (Ht p Hp). destruct (range_contains r p.1), (test p.1); cbn; naive_solver.
Qed.

(** ** [LevelDBIterator] *)

Section Iter.
Context {D P C : Type} `{LevelDBLaws D P C}.
Implicit Types (it : LevelDBIterator C) (c : C).

Definition lvi_rows it : omap ByteValue := lc_rows (lvi_it it).
Definition lvi_all it : omap ByteValue := scan_order (direction (lvi_range it)) (in_rows (lvi_range it) (lvi_rows it)).
Definition lvi_rest it : omap ByteValue :=
  settled (lvi_range it) (rows_at (direction (lvi_range it)) (lvi_rows it) (lc_at (lvi_it it))).

(** A reverse iterator finds its first row by stepping back from a row at or
    above its upper bound. *)
Definition lvi_bounded (r : KeyRange) (rows : omap ByteValue) : Prop :=
  match direction r, end_ r with
  | kReverse, Some e => lower_bound e rows < length rows
  | _, _ => True
  end.

Definition lvi_wf it : Prop :=
  lc_fine (lvi_it it) /\ sorted (lvi_rows it) /\ lvi_bounded (lvi_range it) (lvi_rows it) /\
  lvi_status it = lvi_update_status (lvi_range it) (lvi_it it).

Lemma lvi_in_range_at r c : lc_fine c ->
  lvi_in_range r c = match lc_rows c !! lc_at c with Some (k, _) => range_contains r k | None => false end.
Proof.
  intros Hc. unfold lvi_in_range, range_contains. rewrite lc_valid_law by done.
  destruct (lc_rows c !! lc_at c) as [[k v]|] eqn:E.
  - rewrite (proj2 (Nat.ltb_lt _ _) (lookup_lt_Some _ _ _ E)). by destruct (lc_current_law c k v Hc E) as [-> _].
  - apply lookup_ge_None in E. by rewrite (proj2 (Nat.ltb_ge _ _) E).
Qed.

Lemma lvi_valid_at it : lvi_wf it -> lvi_valid it = lvi_in_range (lvi_range it) (lvi_it it).
Proof.
  intros (Hc & _ & _ & Hst). unfold lvi_valid. rewrite Hst. unfold lvi_update_status.
  destruct (lc_valid (lvi_it it)) eqn:Ev; cbn.
  - by destruct (lvi_in_range (lvi_range it) (lvi_it it)).
  - unfold lvi_in_range. rewrite Ev. cbn. by case_bool_decide.
Qed.

Lemma lvi_valid_rest it : lvi_wf it -> lvi_valid it = bool_decide (lvi_rest it <> []).
Proof.
  intros Hwf. rewrite lvi_valid_at, lvi_in_range_at by (done || apply Hwf). unfold lvi_rest, lvi_rows.
  pose proof (rows_at_head (direction (lvi_range it)) (lc_rows (lvi_it it)) (lc_at (lvi_it it))) as Hh.
  destruct (rows_at _ _ _) as [|[k v] l]; rewrite Hh; [done|]. cbn [settled].
  destruct (range_contains _ k) eqn:E; [|done]. symmetry. apply bool_decide_eq_true. rewrite filter_cons. cbn.
  by rewrite E.
Qed.

(** Moving the library's iterator keeps the invariant. *)
Lemma lvi_moved_wf c it : lvi_wf it -> lc_fine c -> lc_rows c = lvi_rows it ->
  lvi_wf (lvi_moved c it) /\ lvi_all (lvi_moved c it) = lvi_all it.
Proof.
  intros (_ & Hs & Hb & _) Hc Hr. unfold lvi_wf, lvi_all, lvi_rows, lvi_moved in *. cbn. rewrite Hr. done.
Qed.

Lemma lvi_moved_rest c it : lvi_wf it -> lc_rows c = lvi_rows it ->
  lvi_rest (lvi_moved c it) = settled (lvi_range it) (rows_at (direction (lvi_range it)) (lvi_rows it) (lc_at c)).
Proof. intros _ Hr. unfold lvi_rest, lvi_rows. cbn. by rewrite Hr. Qed.

Lemma lvi_step it : lvi_wf it -> lvi_valid it = true ->
  let c := match direction (lvi_range it) with kForward => lc_next (lvi_it it) | kReverse => lc_prev (lvi_it it) end in
  lc_fine c /\ lc_rows c = lvi_rows it /\
  rows_at (direction (lvi_range it)) (lvi_rows it) (lc_at c) =
    tail (rows_at (direction (lvi_range it)) (lvi_rows it) (lc_at (lvi_it it))).
Proof.
  intros Hwf Hv. pose proof Hwf as (Hc & _).
  assert (Hlt : lc_at (lvi_it it) < length (lvi_rows it)).
  { rewrite lvi_valid_at, lvi_in_range_at in Hv by done. unfold lvi_rows.
    destruct (lc_rows (lvi_it it) !! lc_at (lvi_it it)) eqn:E; [|done]. by eapply lookup_lt_Some. }
  assert (Hcv : lc_valid (lvi_it it) = true) by (rewrite lc_valid_law by done; by apply Nat.ltb_lt).
  destruct (direction (lvi_range it)); cbn [rows_at].
  - destruct (lc_next_law _ Hc Hcv) as (Hf & Hr & ->). split_and!; [done|done|].
    destruct (lookup_lt_is_Some_2 _ _ Hlt) as [p Hp]. by rewrite (drop_S _ _ _ Hp).
  - destruct (lc_prev_law _ Hc Hcv) as (Hf & Hr & ->). split_and!; [done|done|]. fold (lvi_rows it).
    rewrite (proj2 (Nat.ltb_lt _ _) Hlt). destruct (lookup_lt_is_Some_2 _ _ Hlt) as [p Hp].
    rewrite (take_S_r _ _ _ Hp), reverse_app. cbn [tail reverse rev_append app].
    destruct (lc_at (lvi_it it)) as [|n]; cbn [Nat.eqb]; [by rewrite Nat.ltb_irrefl|].
    rewrite Nat.sub_succ, Nat.sub_0_r, (proj2 (Nat.ltb_lt n _)) by lia. done.
Qed.

Lemma lvi_current it k v r : lvi_wf it -> lvi_rest it = (k, v) :: r ->
  lvi_key it = k /\ lvi_value it = v /\ lvi_rest (lvi_next it) = r.
Proof.
  intros Hwf Hr. assert (Hv : lvi_valid it = true) by (by rewrite lvi_valid_rest, Hr).
  destruct (lvi_step it Hwf Hv) as (Hf & Hrows & Hat). unfold lvi_key, lvi_value, lvi_next. rewrite Hv. cbn [negb].
  pose proof Hwf as (Hc & Hs & _). rewrite lvi_moved_rest, Hat by done. unfold lvi_rest in Hr.
  pose proof (rows_at_head (direction (lvi_range it)) (lvi_rows it) (lc_at (lvi_it it))) as Hh.
  pose proof (rows_at_sorted (direction (lvi_range it)) (lvi_rows it) (lc_at (lvi_it it)) Hs) as Hsort.
  destruct (rows_at _ _ (lc_at (lvi_it it))) as [|[k0 v0] l]; [done|]. cbn [settled tail] in *.
  destruct (range_contains (lvi_range it) k0) eqn:E; [|done]. rewrite filter_cons in Hr. cbn in Hr. rewrite E in Hr.
  cbn in Hr. injection Hr as <- <- Hl. destruct (lc_current_law _ _ _ Hc Hh) as [-> ->]. split_and!; [done|done|].
  subst r. destruct l as [|[k1 v1] l]; [done|]. cbn [settled].
  destruct (range_contains (lvi_range it) k1) eqn:E1; [done|]. symmetry.
  by apply (scan_leaves_range _ _ (k0, v0) ((k1, v1) :: l) Hsort).
Qed.

(** ** Positioning *)

(** Stepping back from position [n]. *)
Lemma rows_before rows n : n <= length rows ->
  rows_at kReverse rows (if n =? 0 then length rows else n - 1) = reverse (take n rows).
Proof.
  intros Hn. unfold rows_at. destruct n as [|n]; cbn [Nat.eqb]; [by rewrite Nat.ltb_irrefl|].
  rewrite Nat.sub_succ, Nat.sub_0_r, (proj2 (Nat.ltb_lt n _)) by lia. done.
Qed.

Lemma rows_from_last rows : rows_at kReverse rows (length rows - 1) = reverse rows.
Proof.
  destruct rows as [|p rows]; [done|]. unfold rows_at. cbn [length]. rewrite Nat.sub_succ, Nat.sub_0_r.
  rewrite (proj2 (Nat.ltb_lt _ _)) by lia. by rewrite take_ge by (cbn; lia).
Qed.

Lemma lc_seek_before_at e c : lc_fine c -> lower_bound e (lc_rows c) < length (lc_rows c) -> sorted (lc_rows c) ->
  lc_fine (lc_seek_before e c) /\ lc_rows (lc_seek_before e c) = lc_rows c /\
  rows_at kReverse (lc_rows c) (lc_at (lc_seek_before e c)) = reverse (take (lower_bound e (lc_rows c)) (lc_rows c)).
Proof.
  intros Hc Hlt Hs. unfold lc_seek_before. destruct (lc_seek_law e c Hc) as (Hf & Hr & Ha).
  assert (Hv : lc_valid (lc_seek e c) = true) by (rewrite lc_valid_law, Ha, Hr by done; by apply Nat.ltb_lt).
  assert (Hk : bytes_leb e (lc_key (lc_seek e c)) = true).
  { destruct (lookup_lt_is_Some_2 _ _ Hlt) as [[k v] Hp].
    destruct (lc_current_law (lc_seek e c) k v Hf) as [-> _]; [by rewrite Hr, Ha|].
    unfold bytes_leb. apply negb_true_iff. pose proof (drop_lower_bound e _ Hs) as Hd. rewrite (drop_S _ _ _ Hp) in Hd.
    assert (Hin : (k, v) ∈ filter (fun p : Key * ByteValue => negb (bytes_ltb p.1 e) = true) (lc_rows c))
      by (rewrite <- Hd; left). apply list_elem_of_filter in Hin as [Hin _]. by apply negb_true_iff in Hin. }
  rewrite Hv, Hk. cbn [andb]. destruct (lc_prev_law _ Hf Hv) as (Hf' & Hr' & ->). rewrite Hr', Hr, Ha.
  split_and!; [done|done|]. apply rows_before. lia.
Qed.

(** Rows collected backwards below the upper bound of the range. *)
Lemma settled_reverse r rows n : direction r = kReverse -> sorted rows ->
  (forall p, p ∈ take n rows -> ahead r p.1 = true) ->
  settled r (reverse (take n rows)) = reverse (in_rows r (take n rows)).
Proof.
  intros Hd Hs Ha. rewrite settled_filter.
  - by rewrite filter_reverse.
  - rewrite Hd. apply (scan_sorted_order kReverse). rewrite <- (take_drop n rows) in Hs. by apply sorted_app in Hs as [? _].
  - destruct (reverse (take n rows)) as [|p l] eqn:E; [done|]. apply Ha, elem_of_reverse. rewrite E. left.
Qed.

Lemma ahead_contains r k : range_contains r k = true -> ahead r k = true.
Proof.
  unfold range_contains, ahead. destruct (match start r with Some s => bytes_ltb k s | None => false end); [done|].
  destruct (match end_ r with Some e => bytes_leb e k | None => false end); [done|]. by destruct (direction r).
Qed.

Lemma lvi_forward_rest t it : lvi_wf it -> direction (lvi_range it) = kForward ->
  (forall k, bytes_ltb k t = false -> ahead (lvi_range it) k = true) ->
  settled (lvi_range it) (rows_at kForward (lvi_rows it) (lower_bound t (lvi_rows it))) =
  in_rows (lvi_range it) (filter (fun p => negb (bytes_ltb p.1 t) = true) (lvi_rows it)).
Proof.
  intros (Hc & Hs & _) Hd Ha. cbn [rows_at]. rewrite drop_lower_bound by done. apply settled_filter.
  - rewrite Hd. apply (scan_sorted_order kForward), sorted_filter. done.
  - destruct (filter _ _) as [|p l] eqn:E; [done|]. apply Ha.
    assert (Hp : p ∈ filter (fun p : Key * ByteValue => negb (bytes_ltb p.1 t) = true) (lvi_rows it)) by (rewrite E; left).
    apply list_elem_of_filter in Hp as [Hp _]. by apply negb_true_iff in Hp.
Qed.

Lemma lvi_first_rest it : lvi_wf it ->
  lvi_rest (lvi_seek_to_first it) = lvi_all it /\ lvi_wf (lvi_seek_to_first it) /\
  lvi_all (lvi_seek_to_first it) = lvi_all it /\
  direction (lvi_range (lvi_seek_to_first it)) = direction (lvi_range it).
Proof.
  intros Hwf. pose proof Hwf as (Hc & Hs & Hb & _). unfold lvi_seek_to_first, lvi_all at 1.
  assert (Hgo : forall c, lc_fine c -> lc_rows c = lvi_rows it ->
    settled (lvi_range it) (rows_at (direction (lvi_range it)) (lvi_rows it) (lc_at c)) = lvi_all it ->
    lvi_rest (lvi_moved c it) = lvi_all it /\ lvi_wf (lvi_moved c it) /\ lvi_all (lvi_moved c it) = lvi_all it /\
    direction (lvi_range (lvi_moved c it)) = direction (lvi_range it)).
  { intros c Hf Hr Hset. destruct (lvi_moved_wf c it Hwf Hf Hr) as [Hw Ha]. by rewrite lvi_moved_rest. }
  fold (lvi_all it). unfold lvi_bounded in Hb.
  destruct (direction (lvi_range it)) eqn:Hd.
  - destruct (start (lvi_range it)) as [s|] eqn:Es.
    + destruct (lc_seek_law s _ Hc) as (Hf & Hr & Ha). apply Hgo; [done|done|]. rewrite Ha. fold (lvi_rows it).
      rewrite lvi_forward_rest by (done || intros k Hk; unfold ahead; by rewrite Hd, Es, Hk).
      unfold lvi_all. rewrite Hd. cbn. apply (in_rows_from _ _ (fun k => negb (bytes_ltb k s))). intros p _ Hp%ahead_contains.
      unfold ahead in Hp. by rewrite Hd, Es in Hp.
    + destruct (lc_first_law _ Hc) as (Hf & Hr & Ha). apply Hgo; [done|done|]. rewrite Ha. cbn [rows_at]. rewrite drop_0.
      unfold lvi_all. rewrite Hd. apply settled_filter; [by rewrite Hd; apply (scan_sorted_order kForward)|].
      destruct (lvi_rows it); [done|]. unfold ahead. by rewrite Hd, Es.
  - destruct (end_ (lvi_range it)) as [e|] eqn:Ee.
    + destruct (lc_seek_before_at e _ Hc Hb Hs) as (Hf & Hr & Ha). apply Hgo; [done|done|]. fold (lvi_rows it) in Ha |- *.
      rewrite Ha, settled_reverse.
      * unfold lvi_all. rewrite Hd. cbn. f_equal. rewrite take_lower_bound by done. apply (in_rows_from _ _ (fun k => bytes_ltb k e)).
        intros p _ Hp%ahead_contains. unfold ahead, bytes_leb in Hp. rewrite Hd, Ee, negb_involutive in Hp. done.
      * done.
      * done.
      * intros p Hp. rewrite take_lower_bound in Hp by done. apply list_elem_of_filter in Hp as [Hp _].
        unfold ahead, bytes_leb. by rewrite Hd, Ee, negb_involutive.
    + destruct (lc_last_law _ Hc) as (Hf & Hr & Ha). apply Hgo; [done|done|]. rewrite Ha. fold (lvi_rows it).
      rewrite rows_from_last. unfold lvi_all. rewrite Hd. cbn. rewrite <- (take_ge (lvi_rows it) (length (lvi_rows it))) at 1 by lia.
      rewrite settled_reverse; [by rewrite take_ge|done|done|]. intros p _. unfold ahead. by rewrite Hd, Ee.
Qed.

(** A backward seek stops on the last row at or before the key. *)
Lemma lc_seek_back_at k c : lc_fine c -> sorted (lc_rows c) ->
  let c1 := lc_seek k c in
  let c' := if lc_valid c1 then if bytes_ltb k (lc_key c1) then lc_prev c1 else c1 else lc_seek_to_last c1 in
  lc_fine c' /\ lc_rows c' = lc_rows c /\
  rows_at kReverse (lc_rows c) (lc_at c') = reverse (take (upper_bound k (lc_rows c)) (lc_rows c)).
Proof.
  intros Hc Hs c1. cbv zeta. destruct (lc_seek_law k c Hc) as (Hf & Hr & Ha). fold c1 in Hf, Hr, Ha.
  pose proof (upper_bound_lower k (lc_rows c) Hs) as Hub. rewrite lc_valid_law by done. rewrite Hr, Ha.
  destruct (lc_rows c !! lower_bound k (lc_rows c)) as [[k' v']|] eqn:E.
  - pose proof (lookup_lt_Some _ _ _ E) as Hlt. rewrite (proj2 (Nat.ltb_lt _ _) Hlt).
    destruct (lc_current_law c1 k' v' Hf) as [-> _]; [by rewrite Hr, Ha|].
    assert (Hv : lc_valid c1 = true) by (rewrite lc_valid_law, Hr, Ha by done; by apply Nat.ltb_lt).
    destruct (bytes_ltb k k'); rewrite Hub.
    + destruct (lc_prev_law _ Hf Hv) as (Hf' & Hr' & ->). rewrite Hr', Hr, Ha. split_and!; [done|done|]. apply rows_before. lia.
    + split_and!; [done|done|]. rewrite Ha. cbn [rows_at]. by rewrite (proj2 (Nat.ltb_lt _ _) Hlt).
  - apply lookup_ge_None in E. rewrite (proj2 (Nat.ltb_ge _ _) E), Hub, take_ge by done.
    destruct (lc_last_law _ Hf) as (Hf' & Hr' & ->). rewrite Hr', Hr. split_and!; [done|done|]. apply rows_from_last.
Qed.

Lemma seek_back_rows r k rows : direction r = kReverse -> sorted rows ->
  match end_ r with Some e => bytes_leb e k | None => false end = false ->
  settled r (reverse (take (upper_bound k rows) rows)) =
  filter (fun p => negb (before_in_scan kReverse p.1 k) = true) (scan_order kReverse (in_rows r rows)).
Proof.
  intros Hd Hs He. rewrite settled_reverse; [|done|done|].
  - cbn. rewrite filter_reverse. f_equal. rewrite take_upper_bound by done. rewrite !list_filter_filter.
    apply list_filter_iff. naive_solver.
  - intros p Hp. rewrite take_upper_bound in Hp by done. apply list_elem_of_filter in Hp as [Hp%negb_true_iff _].
    unfold ahead, bytes_leb in *. rewrite Hd. destruct (end_ r) as [e|]; [|done].
    apply negb_false_iff in He. rewrite (bytes_le_ltb_trans _ _ _ Hp He). done.
Qed.

Lemma lvi_seek_rest k it : lvi_wf it ->
  lvi_rest (lvi_seek k it) = filter (fun p => negb (before_in_scan (direction (lvi_range it)) p.1 k) = true) (lvi_all it) /\
  lvi_wf (lvi_seek k it) /\ lvi_all (lvi_seek k it) = lvi_all it /\
  direction (lvi_range (lvi_seek k it)) = direction (lvi_range it).
Proof.
  intros Hwf. pose proof Hwf as (Hc & Hs & Hb & _). unfold lvi_seek.
  destruct (direction (lvi_range it)) eqn:Hd.
  - set (t := match start (lvi_range it) with Some s => if bytes_ltb k s then s else k | None => k end).
    destruct (lc_seek_law t _ Hc) as (Hf & Hr & Ha). destruct (lvi_moved_wf _ it Hwf Hf Hr) as [Hw Hall].
    split_and!; [|done|done|done]. rewrite lvi_moved_rest, Hd, Ha by done. fold (lvi_rows it).
    assert (Ht : forall k', bytes_ltb k' t = false -> bytes_ltb k' k = false /\ ahead (lvi_range it) k' = true).
    { intros k' Hk'. unfold ahead. rewrite Hd. unfold t in Hk'. destruct (start (lvi_range it)) as [s|]; [|done].
      destruct (bytes_ltb k s) eqn:E; rewrite ?Hk'.
      - split; [|done]. apply bytes_ltb_asym. by eapply bytes_ltb_le_trans.
      - split; [done|]. by rewrite (bytes_le_trans s k k' E Hk'). }
    rewrite lvi_forward_rest by (done || apply Ht). unfold lvi_all. rewrite Hd. cbn [scan_order before_in_scan].
    rewrite !list_filter_filter. apply list_filter_iff. intros p.
    assert (Hin : range_contains (lvi_range it) p.1 = true -> bytes_ltb p.1 k = false -> bytes_ltb p.1 t = false).
    { intros Hp%ahead_contains Hk. unfold ahead in Hp. rewrite Hd in Hp. unfold t.
      destruct (start (lvi_range it)) as [s|]; [|done]. by apply negb_true_iff in Hp; destruct (bytes_ltb k s). }
    rewrite !negb_true_iff. split; intros [H1 H2]; split; auto. by apply Ht.
  - destruct (match end_ (lvi_range it) with Some e => bytes_leb e k | None => false end) eqn:He.
    + destruct (lvi_first_rest it Hwf) as (-> & Hw & Hall & Hdir). split_and!; [|done|done|by rewrite Hdir].
      symmetry. unfold lvi_all. rewrite Hd. cbn [scan_order before_in_scan]. rewrite filter_reverse, list_filter_filter. f_equal.
      apply list_filter_iff. intros p. split; [naive_solver|]. intros Hp. split; [|done].
      apply ahead_contains in Hp. unfold ahead, bytes_leb in *. rewrite Hd in Hp.
      destruct (end_ (lvi_range it)) as [e|]; [|done]. rewrite negb_involutive in Hp. apply negb_true_iff in He. apply negb_true_iff.
      apply bytes_ltb_asym. by eapply bytes_ltb_le_trans.
    + pose proof (lc_seek_back_at k _ Hc Hs) as Hback. cbv zeta in Hback. destruct Hback as (Hf & Hr & Ha).
      destruct (lvi_moved_wf _ it Hwf Hf Hr) as [Hw Hall]. split_and!; [|done|done|done].
      rewrite lvi_moved_rest, Hd by done. fold (lvi_rows it) in Ha. rewrite Ha.
      unfold lvi_all. rewrite Hd. by apply seek_back_rows.
Qed.

Lemma lvi_next_all it : lvi_wf it ->
  lvi_wf (lvi_next it) /\ lvi_all (lvi_next it) = lvi_all it /\
  direction (lvi_range (lvi_next it)) = direction (lvi_range it).
Proof.
  intros Hwf. unfold lvi_next. destruct (lvi_valid it) eqn:Hv; [|done]. cbn [negb].
  destruct (lvi_step it Hwf Hv) as (Hf & Hr & _). by destruct (lvi_moved_wf _ it Hwf Hf Hr).
Qed.

#[export, refine] Instance LevelIterator_laws : IteratorLaws (LevelDBIterator C) := {|
  it_wf := lvi_wf; it_all := lvi_all; it_rest := lvi_rest; it_dir := fun it => direction (lvi_range it) |}.
Proof.
  - apply lvi_valid_rest.
  - apply lvi_current.
  - apply lvi_next_all.
  - apply lvi_first_rest.
  - apply lvi_seek_rest.
Defined.

(** A new iterator. *)
Lemma level_iterator_all c r : lc_fine c -> sorted (lc_rows c) -> lvi_bounded r (lc_rows c) ->
  lvi_wf (level_iterator c r) /\ lvi_rest (level_iterator c r) = scan_order (direction r) (in_rows r (lc_rows c)).
Proof.
  intros Hc Hs Hb. unfold level_iterator. set (it0 := mkLevelIterator c r (lvi_update_status r c)).
  assert (Heq : lvi_seek_to_first (mkLevelIterator c r StOK) = lvi_seek_to_first it0) by done. rewrite Heq.
  assert (Hwf : lvi_wf it0) by done.
  destruct (lvi_first_rest it0 Hwf) as (-> & Hw & _). done.
Qed.
End Iter.
