(* ===== verification/LevelSpec.v ===== *)
(** * The disk engine behaves as the in-memory engine

    [level_mock] reads a LevelDB store and connection as a store and connection
    of the in-memory engine: the rows of the database, the rows a snapshot pins,
    the owner of the write slot. Every operation of the disk engine is the
    operation of the in-memory engine on that reading, or an I/O error that
    changes nothing; so a connection of the disk engine satisfies the storage
    contract [KVEngineLaws]. Two conditions show where the engines differ: a
    batch must not delete a range after putting a new key into it
    ([expandable]), and a reverse scan needs a key at or above its upper bound
    ([lvi_bounded]). *)

From S2P Require Import Prelude Bytes OMap KvTypes TxBuffer MockStore MergingIterator MockEngine Transactions KvApi LevelDb LevelEngine LevelIter.

(** ** Batches *)

(** No operation deletes a range that covers a key the operations before it
    left with a value and the database does not hold. *)
Definition expandable (log : list Op) (d : omap ByteValue) : Prop :=
  forall pre o post k, log = pre ++ o :: post -> op_type o = kRemoveRange ->
  in_range (pkey (op_data o)) (range_end o) k = true -> has_value (log_effect pre k) = true ->
  is_Some (mfind k d).


Lemma expandable_single o d : expandable [o] d.
Proof.
  intros pre o' post k Heq _ _ Hv. destruct pre as [|x pre]; [done|]. by destruct pre.
Qed.

Lemma expandable_prefix log o d : expandable (log ++ [o]) d -> expandable log d.
Proof. intros He pre o' post k -> Ho Hk Hv. apply (He pre o' (post ++ [o]) k); [|done..]. by rewrite <- app_assoc. Qed.

Section Batches.
Context {D P C : Type} `{LevelDBLaws D P C}.

Lemma expand_range_keys d b e : ldb_fine d ->
  map (fun p => LDelete p.1)
    (lc_while (ldb_turns d) (fun k => bytes_ltb k e) (lc_seek b (ldb_new_iterator None d))) =
  map LDelete (filter (fun p => bytes_ltb p.1 e = true) (filter (fun p => negb (bytes_ltb p.1 b) = true) (ldb_rows d))).*1.
Proof.
  intros Hd. pose proof (ldb_sorted d Hd) as Hs. destruct (ldb_iterator_law None d Hd) as [Hc Hr].
  destruct (lc_seek_law b _ Hc) as (Hf & Hr' & Ha). rewrite Hr in Hr', Ha.
  rewrite lc_while_rows, Ha, Hr' by (rewrite ?Hr', ?Ha; try done; pose proof (ldb_turns_law d Hd); lia).
  rewrite drop_lower_bound, take_while_filter by (try apply sorted_filter; done || intros x y _ _ Hxy; apply bytes_ltb_trans, Hxy).
  by rewrite map_map.
Qed.

(** The records of an expanded batch, one operation after the other. *)
Lemma find_expanded log d k : ldb_fine d -> existsb op_invalid log = false -> expandable log (ldb_rows d) ->
  mfind k (apply_lops (concat (map (expand_op d) log)) (ldb_rows d)) =
    match log_effect log k with OvNone => mfind k (ldb_rows d) | OvValue v => Some v | OvTombstone => None end.
Proof.
  intros Hd. pose proof (ldb_sorted d Hd) as Hs. induction log as [|o log IH] using rev_ind; intros Hv He; [done|].
  rewrite existsb_app in Hv. apply orb_false_elim in Hv as [Hv Ho]. cbn in Ho. rewrite orb_false_r in Ho.
  specialize (IH Hv (expandable_prefix _ _ _ He)). rewrite map_app, concat_app, apply_lops_app, log_effect_snoc.
  cbn [map concat]. rewrite app_nil_r. set (m := apply_lops _ (ldb_rows d)) in *.
  assert (Hm : sorted m) by (by apply sorted_lops). unfold op_effect, expand_op. destruct (op_type o) eqn:Et.
  - cbn. case_bool_decide as Ek; [subst k; by rewrite mfind_insert_eq|]. by rewrite mfind_insert_ne.
  - cbn. case_bool_decide as Ek; [subst k; by rewrite mfind_erase_eq|]. by rewrite mfind_erase_ne.
  - rewrite expand_range_keys, find_deletes by done. destruct (in_range _ _ k) eqn:Er.
    + cbn. case_bool_decide as Ein; [done|]. rewrite IH. destruct (log_effect log k) as [|v|] eqn:El; [|exfalso|done].
      * destruct (mfind k (ldb_rows d)) as [v|] eqn:Ef; [|done]. exfalso. apply Ein. apply find_elem in Ef; [|done].
        unfold in_range in Er. apply andb_true_iff in Er as [E1 E2].
        apply list_elem_of_fmap. exists (k, v). split; [done|]. by rewrite !list_elem_of_filter.
      * destruct (He log o [] k eq_refl Et Er) as [v' Hv']; [by rewrite El|]. apply Ein. apply find_elem in Hv'; [|done].
        unfold in_range in Er. apply andb_true_iff in Er as [E1 E2].
        apply list_elem_of_fmap. exists (k, v'). split; [done|]. by rewrite !list_elem_of_filter.
    + cbn. rewrite bool_decide_eq_false_2; [done|]. intros (p & -> & Hp)%list_elem_of_fmap.
      rewrite !list_elem_of_filter in Hp. destruct Hp as (E1 & E2 & _). unfold in_range, bytes_leb in Er. by rewrite E1, E2 in Er.
Qed.

Lemma expanded_batch log d : ldb_fine d -> existsb op_invalid log = false -> expandable log (ldb_rows d) ->
  apply_lops (concat (map (expand_op d) log)) (ldb_rows d) = fold_left apply_op log (ldb_rows d).
Proof.
  intros Hd Hv He. pose proof (ldb_sorted d Hd) as Hs.
  apply omap_ext; [by apply sorted_lops|by apply (find_apply_ops log _ [] Hs Hv)|].
  intros k. rewrite find_expanded by done. symmetry. by apply find_apply_ops.
Qed.
End Batches.

(** ** The reading of a store and a connection *)

Section Simulation.
Context {D P C : Type} `{LevelDBLaws D P C}.
Implicit Types (s : LevelDBStore D) (e : LevelDBEngine P).

Definition mock_store s : MockStore :=
  mkMockStore (match db_ s with Some d => ldb_rows d | None => [] end) false (lvs_is_open s) (lvs_options s) (lvs_owner s).
Definition mock_engine e : MockEngine := mkMockEngine (lve_tx e) (ldb_pinned <$> lve_snapshot e) (lve_slot e).

(** The store is open on a database whose reads succeed. *)
Definition level_ok s : Prop := lvs_is_open s = true /\ exists d, db_ s = Some d /\ ldb_fine d.

(** An operation on the store does what [op] does in memory, or fails. *)
Definition simulates (s s' : LevelDBStore D) (st : Status) (op : MockStore -> MockStore * Status) : Prop :=
  level_ok s' /\ (op (mock_store s) = (mock_store s', st) \/ st = StIOError /\ mock_store s' = mock_store s).

Lemma level_ok_sorted s : level_ok s -> sorted (data_ (mock_store s)).
Proof. intros (_ & d & Hd & Hf). unfold mock_store. rewrite Hd. by apply ldb_sorted. Qed.

Lemma mock_with_db s d d' : db_ s = Some d -> ldb_rows d' = ldb_rows d -> mock_store (with_db d' s) = mock_store s.
Proof. intros Hd Hr. unfold mock_store. rewrite Hd. cbn. by rewrite Hr. Qed.

Lemma lvs_put_simulates k v s s' st : level_ok s -> lvs_put k v s = (s', st) -> simulates s s' st (store_put k v).
Proof.
  intros (Ho & d & Hd & Hf). unfold lvs_put. rewrite Ho, Hd. cbn.
  destruct (ldb_put false k v d) as [d' lst] eqn:Ep. intros [= <- <-].
  destruct (ldb_put_law _ _ _ _ _ _ Hf Ep) as [Hf' Hr]. split; [by split; [|exists d']|].
  destruct (l_ok lst); [left|right; split; [done|by apply mock_with_db with d]].
  unfold store_put, mock_store. cbn. by rewrite Ho, Hd, Hr.
Qed.

Lemma lvs_remove_simulates k s s' st : level_ok s -> lvs_remove k s = (s', st) -> simulates s s' st (store_remove k).
Proof.
  intros (Ho & d & Hd & Hf). unfold lvs_remove. rewrite Ho, Hd. cbn. rewrite ldb_get_law by done.
  assert (Hself : level_ok s) by (by split; [|exists d]).
  destruct (mfind k (ldb_rows d)) as [v|] eqn:Ek.
  - destruct (ldb_delete false k d) as [d' lst] eqn:Ep. intros [= <- <-].
    destruct (ldb_delete_law _ _ _ _ _ Hf Ep) as [[Hf' Hr] Hnf]. split; [by split; [|exists d']|].
    destruct lst as [| |text]; [left|done|right; split; [done|by apply mock_with_db with d]].
    unfold store_remove, mock_store. cbn. by rewrite Ho, Hd, Ek, Hr.
  - intros [= <- <-]. split; [done|]. left. unfold store_remove, mock_store. cbn. by rewrite Ho, Hd, Ek.
Qed.

Lemma lvs_batch_simulates b s s' st : level_ok s -> expandable (ops b) (data_ (mock_store s)) ->
  lvs_write_batch b s = (s', st) -> simulates s s' st (store_write_batch b).
Proof.
  intros (Ho & d & Hd & Hf) He. assert (Hself : level_ok s) by (by split; [|exists d]).
  assert (Hm : mock_store s = mkMockStore (ldb_rows d) false true (lvs_options s) (lvs_owner s)).
  { unfold mock_store. by rewrite Hd, Ho. }
  rewrite Hm in He. cbn in He. unfold simulates. rewrite Hm.
  assert (Hgoal : forall b, existsb op_invalid (ops b) = false -> expandable (ops b) (ldb_rows d) ->
    (let '(d', lst) := ldb_write (batch_sync b) (concat (map (expand_op d) (ops b))) d in
     (with_db d' s, if l_ok lst then StOK else StIOError)) = (s', st) ->
    level_ok s' /\ (apply_batch_locked b (mkMockStore (ldb_rows d) false true (lvs_options s) (lvs_owner s)) = (mock_store s', st) \/
      st = StIOError /\ mock_store s' = mkMockStore (ldb_rows d) false true (lvs_options s) (lvs_owner s))).
  { clear b He. intros b Ev He. destruct (ldb_write _ _ d) as [d' lst] eqn:Ew. intros [= <- <-].
    destruct (ldb_write_law _ _ _ _ _ Hf Ew) as [Hf' Hr]. split; [by split; [|exists d']|].
    unfold apply_batch_locked. cbn. rewrite Ev. unfold mock_store. cbn. rewrite Ho, Hr.
    destruct (l_ok lst); [left|by right]. by rewrite expanded_batch. }
  unfold lvs_write_batch, lvs_apply_batch_locked, store_write_batch. rewrite Ho, Hd. cbn [negb is_open_].
  destruct (ops b) as [|o l] eqn:Eb.
  - intros [= <- <-]. split; [done|]. left. unfold apply_batch_locked. rewrite Eb. cbn. by rewrite Hm.
  - rewrite <- Eb in *. destruct (existsb op_invalid (ops b)) eqn:Ev; [|by apply Hgoal].
    intros [= <- <-]. split; [done|]. left. unfold apply_batch_locked. cbn. by rewrite Ev, Hm.
Qed.

(** The slot and the snapshots. *)
Lemma lvs_acquire_mock self s s' st : lvs_acquire_write_slot self s = (s', st) ->
  store_acquire_write_slot self (mock_store s) = (mock_store s', st) /\ db_ s' = db_ s /\ lvs_is_open s' = lvs_is_open s.
Proof.
  unfold lvs_acquire_write_slot, store_acquire_write_slot. cbn [is_open_ write_owner_ mock_store].
  destruct (lvs_is_open s) eqn:Eo; cbn [negb]; [|by intros [= <- <-]].
  destruct (lvs_owner s) as [o|]; [case_bool_decide|]; intros [= <- <-]; cbn; split_and!; try done; by rewrite Eo.
Qed.

Lemma lvs_release_mock self s :
  (store_release_write_slot self (mock_store s)).1 = mock_store (lvs_release_write_slot self s).1 /\
  db_ (lvs_release_write_slot self s).1 = db_ s /\ lvs_is_open (lvs_release_write_slot self s).1 = lvs_is_open s.
Proof.
  unfold lvs_release_write_slot, store_release_write_slot. cbn [write_owner_ mock_store]. by case_bool_decide.
Qed.

Lemma release_snapshot_ok p s : level_ok s ->
  level_ok (release_snapshot p s) /\ mock_store (release_snapshot p s) = mock_store s.
Proof.
  intros (Ho & d & Hd & Hf). destruct (ldb_release_law p d Hf) as [Hf' Hr]. unfold level_ok, mock_store, release_snapshot. cbn.
  rewrite Hd. cbn. split; [split; [done|by eexists]|]. by rewrite Hr.
Qed.

Lemma level_ok_same s s' : level_ok s -> db_ s' = db_ s -> lvs_is_open s' = lvs_is_open s -> level_ok s'.
Proof. intros [Ho Hd] E1 E2. split; [by rewrite E2|by rewrite E1]. Qed.

(** ** Connections *)

Lemma lve_acquire_mock self s e s' e' st : level_ok s -> lve_acquire_write_slot self s e = (s', e', st) ->
  level_ok s' /\ eng_acquire_write_slot self (mock_store s) (mock_engine e) = (mock_store s', mock_engine e', st).
Proof.
  intros Hok. unfold lve_acquire_write_slot, eng_acquire_write_slot. cbn [write_slot_ mock_engine is_open_ mock_store].
  destruct (lve_slot e) eqn:Es; [intros [= <- <- <-]; split; [done|]; unfold mock_engine; by rewrite Es|].
  rewrite (proj1 Hok). cbn [negb]. destruct (lvs_acquire_write_slot self s) as [s1 st1] eqn:Ea.
  destruct (lvs_acquire_mock _ _ _ _ Ea) as (Hm & Hdb & Hop). fold (mock_store s). rewrite Hm.
  pose proof (level_ok_same _ _ Hok Hdb Hop) as Hok1.
  destruct st1; intros [= <- <- <-]; try (split; [done|]; cbn; unfold mock_engine; by rewrite ?Es).
  destruct (lve_snapshot e) as [p|]; [|by split]. by destruct (release_snapshot_ok p s1 Hok1) as [? ->].
Qed.

Lemma lve_ensure_mock self s e s' e' st : level_ok s -> lve_ensure_write_slot self s e = (s', e', st) ->
  level_ok s' /\ ensure_write_slot self (mock_store s) (mock_engine e) = (mock_store s', mock_engine e', st).
Proof.
  intros Hok. unfold lve_ensure_write_slot, ensure_write_slot. cbn [write_slot_ mock_engine].
  destruct (lve_slot e) eqn:Es; [intros [= <- <- <-]; split; [done|]; unfold mock_engine; by rewrite Es|].
  intros Ha. by destruct (lve_acquire_mock _ _ _ _ _ _ Hok Ha) as [? ->].
Qed.

Lemma lve_buffered_mock self w t s e s' e' st : level_ok s -> lve_buffered self w t s e = (s', e', st) ->
  level_ok s' /\ buffered self w t (mock_store s) (mock_engine e) = (mock_store s', mock_engine e', st).
Proof.
  intros Hok. unfold lve_buffered, buffered. destruct (lve_ensure_write_slot self s e) as [[s1 e1] st1] eqn:Ee.
  destruct (lve_ensure_mock _ _ _ _ _ _ Hok Ee) as [Hok1 ->]. destruct st1; by intros [= <- <- <-].
Qed.

(** What a failed write outside a transaction leaves: the data and the
    connection as they were. *)
Definition step_simulates (s s' : LevelDBStore D) (e e' : LevelDBEngine P) (st : Status)
    (r : MockStore * MockEngine * Status) : Prop :=
  level_ok s' /\
  (r = (mock_store s', mock_engine e', st) \/
   st = StIOError /\ e' = e /\ data_ (mock_store s') = data_ (mock_store s)).

Lemma lve_autocommit_simulates self lop op s e s' e' st : level_ok s ->
  (forall s1 s2 st2, level_ok s1 -> data_ (mock_store s1) = data_ (mock_store s) -> lop s1 = (s2, st2) -> simulates s1 s2 st2 op) ->
  lve_autocommit self lop s e = (s', e', st) ->
  step_simulates s s' e e' st (autocommit self op (mock_store s) (mock_engine e)).
Proof.
  intros Hok Hop. unfold lve_autocommit, autocommit. destruct (lvs_acquire_write_slot self s) as [s1 st1] eqn:Ea.
  destruct (lvs_acquire_mock _ _ _ _ Ea) as (Hm & Hdb & Hopen). rewrite Hm.
  pose proof (level_ok_same _ _ Hok Hdb Hopen) as Hok1.
  assert (Hd1 : data_ (mock_store s1) = data_ (mock_store s)) by (unfold mock_store; cbn; by rewrite Hdb).
  destruct st1; try (intros [= <- <- <-]; split; [done|by left]).
  destruct (lop s1) as [s2 st2] eqn:El. intros [= <- <- <-].
  destruct (Hop _ _ _ Hok1 Hd1 El) as [Hok2 Hcase]. destruct (lvs_release_mock self s2) as (Hr & Hdb2 & Hopen2).
  split; [by eapply level_ok_same|]. destruct Hcase as [Hop2|[-> Hsame]].
  - left. rewrite Hop2. by rewrite Hr.
  - right. split_and!; [done|done|]. rewrite <- Hd1, <- Hsame. unfold mock_store at 1. cbn. rewrite Hdb2. done.
Qed.

(** One command of a connection. *)
Definition level_step (self : nat) (c : cmd) (s : LevelDBStore D) (e : LevelDBEngine P)
    : LevelDBStore D * LevelDBEngine P * Status :=
  match c with
  | CPut k v => lve_put self k v s e
  | CRemove k => lve_remove self k s e
  | CBatch b => lve_write_batch self b s e
  | CBegin => lve_begin_transaction s e
  | CCommit => lve_commit_transaction self s e
  | CRollback => lve_rollback_transaction self s e
  | CAcquire => lve_acquire_write_slot self s e
  | CRelease => (lve_release_write_slot self s e, StOK)
  end.

(** What the command writes to the database can be expanded; an empty batch
    inside a transaction is the one case where the engines differ otherwise
    (only the in-memory engine takes the write slot for it). *)
Definition step_expandable (c : cmd) (s : LevelDBStore D) (e : LevelDBEngine P) : Prop :=
  match c, lve_tx e with
  | CBatch b, None => expandable (ops b) (data_ (mock_store s))
  | CBatch b, Some _ => ops b <> []
  | CCommit, Some t => tx_inv t /\ expandable (log_ t) (data_ (mock_store s))
  | _, _ => True
  end.

Lemma lve_begin_mock s e s' e' st : level_ok s -> lve_begin_transaction s e = (s', e', st) ->
  level_ok s' /\ mock_store s' = mock_store s /\
  begin_transaction (mock_store s) (mock_engine e) = (mock_engine e', st).
Proof.
  intros Hok. unfold lve_begin_transaction, begin_transaction. cbn [is_open_ mock_store tx_ mock_engine].
  pose proof Hok as (Ho & d & Hd & Hf). rewrite Ho. cbn [negb].
  destruct (lve_tx e) as [t|] eqn:Et; [intros [= <- <- <-]; split_and!; [done|done|]; unfold mock_engine; by rewrite Et|].
  unfold acquire_snapshot. rewrite Ho, Hd. cbn [negb].
  destruct (ldb_snapshot_law d Hf) as (d' & p & -> & Hf' & Hr & Hp). intros [= <- <- <-].
  unfold level_ok, mock_store, mock_engine, data_snapshot. cbn. rewrite Hr, Hp, Hd. 
  split; [split; [done|by exists d']|split; [by rewrite Ho|done]].
Qed.

Lemma lve_end_mock self s e : level_ok s ->
  level_ok (lve_end_transaction self s e).1 /\
  end_transaction self (mock_store s) (mock_engine e) =
    (mock_store (lve_end_transaction self s e).1, mock_engine (lve_end_transaction self s e).2).
Proof.
  intros Hok. unfold lve_end_transaction, end_transaction. cbn [write_slot_ mock_engine fst snd].
  set (s1 := match lve_snapshot e with Some p => release_snapshot p s | None => s end).
  assert (Hs1 : level_ok s1 /\ mock_store s1 = mock_store s).
  { unfold s1. destruct (lve_snapshot e); [by apply release_snapshot_ok|done]. }
  destruct Hs1 as [Hok1 <-]. destruct (lve_slot e); [|done].
  destruct (lvs_release_mock self s1) as (-> & Hdb & Hop). split; [by eapply level_ok_same|done].
Qed.

Lemma lve_commit_simulates self s e s' e' st : level_ok s -> step_expandable CCommit s e ->
  lve_commit_transaction self s e = (s', e', st) ->
  step_simulates s s' e e' st (commit_transaction self (mock_store s) (mock_engine e)).
Proof.
  intros Hok He. unfold lve_commit_transaction, commit_transaction. cbn [is_open_ mock_store tx_ mock_engine].
  rewrite (proj1 Hok). cbn [negb]. cbn in He. destruct (lve_tx e) as [t|] eqn:Et.
  2:{ intros [= <- <- <-]. split; [done|left]. unfold mock_engine. by rewrite Et. }
  assert (Hme : mkMockEngine (Some t) (ldb_pinned <$> lve_snapshot e) (lve_slot e) = mock_engine e).
  { unfold mock_engine. by rewrite Et. }
  destruct (tx_exceeds t); [intros [= <- <- <-]; split; [done|left]; by rewrite ?Hme|].
  destruct He as [Hinv He]. destruct (lvs_write_batch _ s) as [s1 st1] eqn:Ew.
  apply lvs_batch_simulates in Ew as [Hok1 Hcase]; [|done|cbn; by rewrite to_batch_log].
  fold (mock_store s). destruct Hcase as [->|[-> Hsame]].
  - destruct st1; try (intros [= <- <- <-]; split; [done|left]; by rewrite ?Hme).
    destruct (lve_end_mock self s1 e Hok1) as [Hok2 Hend].
    destruct (lve_end_transaction self s1 e) as [s2 e2]. intros [= <- <- <-]. cbn in Hok2, Hend. split; [done|left]. by rewrite ?Hme, Hend.
  - intros [= <- <- <-]. split; [done|]. right. split_and!; [done|done|]. by rewrite Hsame.
Qed.

Lemma level_step_simulates self c s e s' e' st : level_ok s -> step_expandable c s e ->
  level_step self c s e = (s', e', st) ->
  step_simulates s s' e e' st (conn_step self c (mock_store s) (mock_engine e)).
Proof.
  intros Hok He. pose proof (proj1 Hok) as Ho.
  destruct c as [k v|k|b| | | | |]; cbn [level_step conn_step].
  - unfold lve_put, eng_put. cbn [is_open_ mock_store tx_ mock_engine]. rewrite Ho. cbn [negb].
    fold (mock_store s). fold (mock_engine e). destruct (lve_tx e) as [t|] eqn:Et; intros Hs.
    + destruct (lve_buffered_mock _ _ _ _ _ _ _ _ Hok Hs) as [? Hb]. split; [done|left]. by rewrite <- Hb.
    + eapply lve_autocommit_simulates; [done| |done]. intros s1 s2 st2 Hok1 _. by apply lvs_put_simulates.
  - unfold lve_remove, eng_remove. cbn [is_open_ mock_store tx_ mock_engine]. rewrite Ho. cbn [negb].
    fold (mock_store s). fold (mock_engine e). destruct (lve_tx e) as [t|] eqn:Et; intros Hs.
    + destruct (lve_buffered_mock _ _ _ _ _ _ _ _ Hok Hs) as [? Hb]. split; [done|left]. by rewrite <- Hb.
    + eapply lve_autocommit_simulates; [done| |done]. intros s1 s2 st2 Hok1 _. by apply lvs_remove_simulates.
  - unfold lve_write_batch, eng_write_batch. cbn [is_open_ mock_store tx_ mock_engine]. rewrite Ho. cbn [negb].
    fold (mock_store s). fold (mock_engine e). cbn in He. destruct (lve_tx e) as [t|] eqn:Et.
    + destruct (ops b) as [|o l] eqn:Eb; [done|]. intros Hs.
      destruct (lve_buffered_mock _ _ _ _ _ _ _ _ Hok Hs) as [? Hb]. split; [done|left]. by rewrite <- Hb.
    + destruct (ops b) as [|o l] eqn:Eb; [intros [= <- <- <-]; split; [done|by left]|]. intros Hs.
      eapply lve_autocommit_simulates; [done| |done]. intros s1 s2 st2 Hok1 Hd1.
      apply lvs_batch_simulates; [done|]. by rewrite Hd1, Eb.
  - intros Hb. destruct (lve_begin_mock _ _ _ _ _ Hok Hb) as (Hok' & Hm & ->). split; [done|left]. by rewrite Hm.
  - by apply lve_commit_simulates.
  - unfold lve_rollback_transaction, rollback_transaction. cbn [is_open_ mock_store tx_ mock_engine]. rewrite Ho. cbn [negb].
    fold (mock_store s). destruct (lve_tx e) as [t|] eqn:Et.
    + destruct (lve_end_mock self s e Hok) as [Hok2 Hend]. destruct (lve_end_transaction self s e) as [s2 e2].
      intros [= <- <- <-]. cbn in Hok2, Hend. split; [done|left]. by rewrite <- Hend.
    + intros [= <- <- <-]. split; [done|left]. unfold mock_engine. by rewrite Et.
  - intros Ha. destruct (lve_acquire_mock _ _ _ _ _ _ Hok Ha) as [? ->]. split; [done|by left].
  - unfold lve_release_write_slot, eng_release_write_slot. cbn [write_slot_ mock_engine].
    destruct (lve_slot e) eqn:Es; cbn [negb]; intros [= <- <- <-].
    + destruct (lvs_release_mock self s) as (-> & Hdb & Hop). split; [by eapply level_ok_same|by left].
    + split; [done|left]. unfold mock_engine. by rewrite Es.
Qed.

(** *** Reads *)

Definition level_base (s : LevelDBStore D) (e : LevelDBEngine P) : omap ByteValue := base_data (mock_store s) (mock_engine e).

Lemma ldb_get_base k s e d : db_ s = Some d -> ldb_fine d ->
  ldb_get (lve_snapshot e) k d = match mfind k (level_base s e) with Some v => Ok v | None => Err LNotFound end.
Proof.
  intros Hd Hf. rewrite ldb_get_law by done. unfold level_base, base_data, mock_engine, mock_store. cbn. rewrite Hd.
  by destruct (lve_snapshot e).
Qed.

Lemma lvs_get_base k s e : level_ok s -> lvs_get k (lve_snapshot e) s = result_of (mfind k (level_base s e)).
Proof.
  intros (Ho & d & Hd & Hf). unfold lvs_get. rewrite Ho, Hd. cbn. rewrite (ldb_get_base k s e d) by done.
  by destruct (mfind k _).
Qed.

Lemma lve_get_mock k s e : level_ok s -> lve_get k s e = eng_get k (mock_store s) (mock_engine e).
Proof.
  intros Hok. unfold lve_get, eng_get. cbn [is_open_ mock_store tx_ mock_engine snapshot_]. fold (mock_store s).
  rewrite (proj1 Hok). cbn [negb]. rewrite lvs_get_base by done.
  assert (Hfall : result_of (mfind k (level_base s e)) =
    match ldb_pinned <$> lve_snapshot e with
    | Some d => match mfind k d with None => Err StNotFound | Some v => Ok v end
    | None => store_get k (mock_store s) end).
  { unfold level_base, base_data, store_get, mock_engine. cbn. rewrite (proj1 Hok).
    destruct (lve_snapshot e); cbn; by destruct (mfind k _). }
  rewrite Hfall. by destruct (lve_tx e).
Qed.

Lemma lve_exists_mock k s e : level_ok s -> lve_exists k s e = eng_exists k (mock_store s) (mock_engine e).
Proof.
  intros Hok. pose proof Hok as (Ho & d & Hd & Hf). unfold lve_exists, eng_exists.
  cbn [is_open_ mock_store tx_ mock_engine snapshot_]. fold (mock_store s). rewrite Ho. cbn [negb].
  assert (Hfall : lvs_exists k (lve_snapshot e) s =
    match ldb_pinned <$> lve_snapshot e with
    | Some d => match mfind k d with None => false | Some _ => true end
    | None => store_exists k (mock_store s) end).
  { unfold lvs_exists, store_exists. rewrite Ho, Hd. cbn [negb is_open_ mock_store]. rewrite Ho. cbn [negb].
    rewrite ldb_get_law by done. unfold mock_store. cbn. rewrite Hd.
    destruct (lve_snapshot e); cbn; by destruct (mfind k _). }
  rewrite Hfall. by destruct (lve_tx e).
Qed.
End Simulation.

(** ** The storage contract *)

Record LevelConn (D P : Type) := mkLevelConn { lk_self : nat; lk_store : LevelDBStore D; lk_eng : LevelDBEngine P }.
Arguments mkLevelConn {D P}.
Arguments lk_self {D P}.
Arguments lk_store {D P}.
Arguments lk_eng {D P}.

(** The database side of a merging iterator only moves forward. *)
Lemma settle_forward {I} `{Iterator I} (Q : I -> Prop) fuel (m : MergingIterator I) :
  (forall i, Q i -> Q (it_next i)) -> Q (mg_db m) -> Q (mg_db (settle_fuel fuel m)).
Proof.
  intros HQ. revert m. induction fuel as [|fuel IH]; intros m Hm; [done|]. cbn [settle_fuel].
  repeat case_match; try done; apply IH; simpl; try done. by apply HQ.
Qed.

Section Contract.
Context {D P C : Type} `{LevelDBLaws D P C}.
Implicit Types (c : LevelConn D P).

Definition level_mock c : Conn := mkConn (lk_self c) (mock_store (lk_store c)) (mock_engine (lk_eng c)).

Definition level_lift c (r : LevelDBStore D * LevelDBEngine P * Status) : LevelConn D P * Status :=
  let '(s, e, st) := r in (mkLevelConn (lk_self c) s e, st).

#[export] Instance LevelIterator_scan : ScanIterator (LevelEngineIterator C) := {|
  si_valid it := match it with LPlain i => lvi_valid i | LMerged m => mg_valid m end;
  si_value it := match it with LPlain i => lvi_value i | LMerged m => mg_value m end;
  si_status it := match it with LPlain i => lvi_status i | LMerged m => mg_status m end;
  si_next it := match it with LPlain i => LPlain (lvi_next i) | LMerged m => LMerged (mg_next m) end;
  si_seek_to_first it :=
    match it with LPlain i => LPlain (lvi_seek_to_first i) | LMerged m => LMerged (mg_seek_to_first m) end |}.

(** Iterators are registered with the store while they live, which only
    [close] looks at; the interface does not show the registration. *)
#[export] Instance Level_engine : KVEngine (LevelConn D P) (LevelEngineIterator C) := {|
  kv_is_open c := lvs_is_open (lk_store c);
  kv_last_error c := StOK;
  kv_get k c := lve_get k (lk_store c) (lk_eng c);
  kv_exists k c := lve_exists k (lk_store c) (lk_eng c);
  kv_put k v c := level_lift c (lve_put (lk_self c) k v (lk_store c) (lk_eng c));
  kv_remove k c := level_lift c (lve_remove (lk_self c) k (lk_store c) (lk_eng c));
  kv_write_batch b c := level_lift c (lve_write_batch (lk_self c) b (lk_store c) (lk_eng c));
  kv_new_iterator r c := (lve_new_iterator 0 r (lk_store c) (lk_eng c)).2 |}.

Definition level_ready c : Prop := level_ok (lk_store c) /\ conn_ready (level_mock c).
Definition level_view c : omap ByteValue := conn_view (level_mock c).
Definition level_scannable c (r : KvTypes.KeyRange) : Prop :=
  conn_scannable (level_mock c) r /\ lvi_bounded r (level_base (lk_store c) (lk_eng c)).

Definition level_shows (it : LevelEngineIterator C) (rows : list (Key * ByteValue)) : Prop :=
  match it with
  | LPlain i => lvi_wf i /\ lvi_rest i = rows
  | LMerged m => mg_shows m rows /\ lvi_wf (mg_db m)
  end.

(** Readiness and the view depend on the data and the connection only. *)
Lemma conn_ready_same self s1 s2 e : data_ s1 = data_ s2 -> is_open_ s1 = is_open_ s2 ->
  conn_ready (mkConn self s1 e) ->
  conn_ready (mkConn self s2 e) /\ conn_view (mkConn self s2 e) = conn_view (mkConn self s1 e).
Proof.
  intros Hd Ho [H1 H2 H3 H4 H5]. unfold conn_view, base_data in *. cbn in *. rewrite Hd in *. split; [|done].
  split; cbn; [congruence|done| |done|done]. done.
Qed.

(** A write is the write of the in-memory engine on the reading, or fails. *)
Lemma level_write_case (cm : cmd) c c' st :
  level_ready c -> step_expandable cm (lk_store c) (lk_eng c) ->
  level_lift c (level_step (lk_self c) cm (lk_store c) (lk_eng c)) = (c', st) ->
  level_ok (lk_store c') /\
  (conn_lift (level_mock c) (conn_step (lk_self c) cm (mock_store (lk_store c)) (mock_engine (lk_eng c))) = (level_mock c', st) \/
   (st = StIOError /\ lk_self c' = lk_self c /\ lk_eng c' = lk_eng c /\
    data_ (mock_store (lk_store c')) = data_ (mock_store (lk_store c)))).
Proof.
  intros [Hok Hr] He. destruct (level_step _ _ _ _) as [[s' e'] st'] eqn:Es. cbn. intros [= <- <-].
  destruct (level_step_simulates _ _ _ _ _ _ _ Hok He Es) as [Hok' [->|(-> & -> & Hd)]]; (split; [done|]); [by left|by right].
Qed.

(** A write is the write of the in-memory engine on the reading, or fails. *)
Lemma level_write_view (cm : cmd) c c' st :
  level_ready c -> step_expandable cm (lk_store c) (lk_eng c) ->
  level_lift c (level_step (lk_self c) cm (lk_store c) (lk_eng c)) = (c', st) ->
  (exists m', conn_lift (level_mock c) (conn_step (lk_self c) cm (mock_store (lk_store c)) (mock_engine (lk_eng c))) = (m', st) /\
     m' = level_mock c' /\ level_ok (lk_store c')) \/
  (st = StIOError /\ level_ready c' /\ level_view c' = level_view c).
Proof.
  intros Hrc He Hs. destruct (level_write_case cm c c' st Hrc He Hs) as [Hok' [Hm|(-> & Hself & Heng & Hd)]]; [left; by eexists|].
  destruct Hrc as [Hok Hr]. right. split; [done|]. unfold level_ready, level_view, level_mock in *. rewrite Hself, Heng.
  destruct (conn_ready_same (lk_self c) (mock_store (lk_store c)) (mock_store (lk_store c')) (mock_engine (lk_eng c)) (eq_sym Hd)
    ltac:(cbn; by rewrite (proj1 Hok), (proj1 Hok')) Hr) as [? ->]. done.
Qed.

Lemma level_put_view k v c c' st : level_ready c ->
  level_lift c (lve_put (lk_self c) k v (lk_store c) (lk_eng c)) = (c', st) ->
  level_ready c' /\ level_view c' = if bool_decide (st = StOK) then minsert k v (level_view c) else level_view c.
Proof.
  intros Hr Hp. destruct (level_write_view (CPut k v) c c' st Hr I Hp) as [(m' & Hm & -> & Hok)|(-> & Hr' & Hv)].
  - destruct (conn_put_view k v (level_mock c) (level_mock c') st (proj2 Hr) Hm). done.
  - done.
Qed.

Lemma lower_bound_insert e k v (m : omap ByteValue) :
  (lower_bound e m < length m)%nat -> (lower_bound e (minsert k v m) < length (minsert k v m))%nat.
Proof.
  induction m as [|[k' v'] m IH]; cbn [lower_bound minsert length]; [lia|]. intros Hl.
  destruct (bytes_ltb k k') eqn:E1; [|destruct (bytes_ltb k' k) eqn:E2]; cbn [lower_bound length]; destruct (bytes_ltb k' e) eqn:E3;
    try lia; try (specialize (IH ltac:(lia)); lia); by destruct (bytes_ltb k e); lia.
Qed.

Lemma level_put_scannable k v c c' st r : level_ready c ->
  level_lift c (lve_put (lk_self c) k v (lk_store c) (lk_eng c)) = (c', st) -> level_scannable c r -> level_scannable c' r.
Proof.
  intros Hr Hp [Hsc Hb].
  assert (Hbound : level_base (lk_store c') (lk_eng c') = level_base (lk_store c) (lk_eng c) \/
      level_base (lk_store c') (lk_eng c') = minsert k v (level_base (lk_store c) (lk_eng c)) ->
    lvi_bounded r (level_base (lk_store c') (lk_eng c'))).
  { intros [-> | ->]; [done|]. unfold lvi_bounded in *. destruct (direction r), (end_ r); try done.
    by apply lower_bound_insert. }
  destruct (level_write_case (CPut k v) c c' st Hr I Hp) as [_ [Hm|(_ & _ & He & Hd)]].
  - split; [exact (conn_put_scannable k v (level_mock c) (level_mock c') st r (proj2 Hr) Hm Hsc)|].
    apply Hbound. exact (conn_put_base k v (level_mock c) (level_mock c') st (proj2 Hr) Hm).
  - assert (Hbase : level_base (lk_store c') (lk_eng c') = level_base (lk_store c) (lk_eng c)).
    { unfold level_base, base_data. by rewrite He, Hd. }
    split; [|apply Hbound; by left]. intros t Ht. cbn in Ht. rewrite He in Ht.
    change (base_data _ _) with (level_base (lk_store c') (lk_eng c')). rewrite Hbase. by apply (Hsc t).
Qed.

Lemma level_remove_view k c c' st : level_ready c ->
  level_lift c (lve_remove (lk_self c) k (lk_store c) (lk_eng c)) = (c', st) ->
  level_ready c' /\ level_view c' = if benign st then merase k (level_view c) else level_view c.
Proof.
  intros Hr Hp. destruct (level_write_view (CRemove k) c c' st Hr I Hp) as [(m' & Hm & -> & Hok)|(-> & Hr' & Hv)].
  - destruct (conn_remove_view k (level_mock c) (level_mock c') st (proj2 Hr) Hm). done.
  - done.
Qed.

Lemma level_range_view b f c c' st : level_ready c -> bytes_ltb b f = true ->
  level_lift c (lve_write_batch (lk_self c) (range_batch b f) (lk_store c) (lk_eng c)) = (c', st) ->
  level_ready c' /\
  level_view c' = if bool_decide (st = StOK) then erase_range b f (level_view c) else level_view c.
Proof.
  intros Hr Hbf Hp.
  assert (He : step_expandable (CBatch (range_batch b f)) (lk_store c) (lk_eng c)).
  { cbn. destruct (lve_tx _); [done|]. apply expandable_single. }
  destruct (level_write_view (CBatch (range_batch b f)) c c' st Hr He Hp) as [(m' & Hm & -> & Hok)|(-> & Hr' & Hv)].
  - destruct (conn_range_view b f (level_mock c) (level_mock c') st (proj2 Hr) Hbf Hm). done.
  - done.
Qed.

Lemma lvi_wf_benign (i : LevelDBIterator C) : lvi_wf i -> benign (lvi_status i) = true.
Proof.
  intros (Hc & _ & _ & ->). unfold lvi_update_status. rewrite lc_status_law by done. cbn. by repeat case_match.
Qed.

Lemma level_iterator_view r c : level_ready c -> level_scannable c r ->
  exists it, (lve_new_iterator 0 r (lk_store c) (lk_eng c)).2 = Some it /\ level_shows it (rows_in r (level_view c)).
Proof.
  intros [Hok Hr] [Hsc Hb]. pose proof Hok as (Ho & d & Hd & Hf). pose proof (cr_base _ Hr) as Hbase.
  assert (Hbd : base_data (mock_store (lk_store c)) (mock_engine (lk_eng c)) =
    match lve_snapshot (lk_eng c) with Some p => ldb_pinned p | None => ldb_rows d end).
  { unfold base_data, mock_store, mock_engine. cbn. rewrite Hd. by destruct (lve_snapshot (lk_eng c)). }
  destruct (ldb_iterator_law (lve_snapshot (lk_eng c)) d Hf) as [Hc Hrows]. rewrite <- Hbd in Hrows.
  assert (Hs : sorted (lc_rows (ldb_new_iterator (lve_snapshot (lk_eng c)) d))).
  { rewrite Hrows. cbn in Hbase. rewrite Hbase. apply Hr. }
  destruct (level_iterator_all (ldb_new_iterator (lve_snapshot (lk_eng c)) d) r Hc Hs) as [Hwf Hrest]; [by rewrite Hrows|].
  unfold lve_new_iterator, lvs_new_iterator. rewrite Ho, Hd. cbn [negb snd]. unfold level_view, conn_view. cbn [tx_ level_mock c_eng mock_engine c_store].
  rewrite Hrows in Hrest. eexists. split; [reflexivity|]. unfold rows_in.
  destruct (lve_tx (lk_eng c)) as [t|] eqn:Et; cbn [level_shows]; [|by rewrite Hrest].
  assert (Htx : tx_ (c_eng (level_mock c)) = Some t) by done.
  destruct (cr_tx _ Hr t Htx) as [Hinv Hlv]. fold (mock_engine (lk_eng c)).
  rewrite <- (merge_is_commit _ t r) by (done || (rewrite ?Hrows in Hs; done) || by apply (Hsc t Htx)).
  split.
  - pose proof (merging_shows (level_iterator (ldb_new_iterator (lve_snapshot (lk_eng c)) d) r) t r Hwf Hinv) as Hsh.
    change (it_rest (level_iterator (ldb_new_iterator (lve_snapshot (lk_eng c)) d) r)) with
      (lvi_rest (level_iterator (ldb_new_iterator (lve_snapshot (lk_eng c)) d) r)) in Hsh. by rewrite Hrest in Hsh.
  - apply (settle_forward lvi_wf); [|done]. intros i Hi. apply (lvi_next_all i Hi).
Qed.

Lemma level_shows_end it : level_shows it [] -> si_valid it = false /\ benign (si_status it) = true.
Proof.
  destruct it as [i|m]; cbn.
  - intros [Hw Hr]. rewrite lvi_valid_rest, Hr by done. split; [done|by apply lvi_wf_benign].
  - intros [Hs Hw]. split; [done|by apply lvi_wf_benign].
Qed.

Lemma level_shows_row it k v rows : level_shows it ((k, v) :: rows) ->
  si_valid it = true /\ si_value it = v /\ level_shows (si_next it) rows.
Proof.
  destruct it as [i|m]; cbn.
  - intros [Hw Hr]. destruct (lvi_current i k v rows Hw Hr) as (_ & Hval & Hn).
    rewrite lvi_valid_rest, Hr by done. split_and!; [done|done|apply (lvi_next_all i Hw)|done].
  - intros [Hs Hw]. pose proof (mg_next_shows _ _ _ _ Hs) as Hn. destruct Hs as (Hv & _ & Hval & _).
    unfold mg_value. rewrite Hv. split_and!; [done|done|done|].
    unfold mg_next. rewrite Hv. cbn [negb]. apply (settle_forward lvi_wf); [intros i Hi; apply (lvi_next_all i Hi)|].
    cbn. destruct (from_db_ m); [apply (lvi_next_all _ Hw)|done].
Qed.

#[export] Instance Level_laws : KVEngineLaws (LevelConn D P) (LevelEngineIterator C).
Proof.
  refine {| kv_ready := level_ready; kv_view := level_view; kv_scannable := level_scannable; kv_shows := level_shows |}.
  - intros c [Hok _]. apply Hok.
  - intros c [_ Hr]. by apply conn_view_sorted.
  - intros k c [Hok Hr]. cbn. rewrite lve_get_mock by done. by apply (conn_get_view k (level_mock c)).
  - intros k c [Hok Hr]. cbn. rewrite lve_exists_mock by done. by apply (conn_exists_view k (level_mock c)).
  - intros k v c c' st. apply level_put_view.
  - intros k c c' st. apply level_remove_view.
  - intros b f c c' st. apply level_range_view.
  - intros k v c c' st r. apply level_put_scannable.
  - apply level_iterator_view.
  - apply level_shows_end.
  - apply level_shows_row.
Defined.
End Contract.




(** A disk store with the rows of [demo_store], and a transaction on it. *)
Definition level_demo_db : MemDb := mkMemDb (data_ demo_store) false.
Definition level_demo_store : LevelDBStore MemDb := mkLevelStore (Some level_demo_db) default_options true (Some 7) 0 ∅.


(** Where the engines differ: a transaction that puts a row and then deletes the
    range around it reads the row as deleted, but its commit leaves the row in
    the database; in memory it is gone. *)
Definition revive_tx : TxBuffer := tx_run [TxPut k3 [x03]; TxRemoveRange k2 (k3 ++ [x00])].

Theorem level_commit_revives_row :
  let e := mkLevelEngine (Some revive_tx) None true in
  lve_get k3 level_demo_store e = Err StNotFound /\
  (let r := lve_commit_transaction 7 level_demo_store e in
   r.2 = StOK /\ lve_get k3 r.1.1 r.1.2 = Ok [x03]) /\
  (let r := commit_transaction 7 (mock_store level_demo_store) (mock_engine e) in
   r.2 = StOK /\ eng_get k3 r.1.1 r.1.2 = Err StNotFound).
Proof. by vm_compute. Qed.

(** A reverse scan whose upper bound is above every key of the database finds
    nothing on disk; in memory it finds the rows. *)
Theorem level_reverse_scan_misses :
  let r := mkKeyRange (Some k1) (Some k3) 0 kReverse in
  collect_fuel 10 (level_iterator (ldb_new_iterator None level_demo_db) r) = [] /\
  collect_fuel 10 (mock_iterator (materialize (mem_rows level_demo_db) r) r) = [(k2, [x02]); (k1, [x01])].
Proof. by vm_compute. Qed.

(** [seek_to_last] of a reverse iterator leaves the range instead of stopping on
    its smallest key. *)
Theorem level_seek_to_last_leaves :
  let r := mkKeyRange (Some (bytes_of_string "k0")) None 0 kReverse in
  lvi_valid (lvi_seek_to_last (level_iterator (ldb_new_iterator None level_demo_db) r)) = false /\
  mi_key (mi_seek_to_last (mock_iterator (materialize (mem_rows level_demo_db) r) r)) = k1.
Proof. by vm_compute. Qed.
