(* ===== verification/LevelLogStore.v ===== *)
(** * The durable log on disk: [raft/leveldb_log_store.{h,cpp}] and
    [raft/leveldb_request_result_store.{h,cpp}]

    A [LevelDBLogStore] keeps the hard state, the snapshot boundary and the
    entries under keys of one LevelDB database, and caches the last index and
    the boundary. It refines the abstract log of [LogStore], and what it wrote
    can be opened again after a crash. Where the code calls [DB::Open], its
    answer is an argument. Indexes and terms are 64-bit. *)

From S2P Require Import Prelude Bytes OMap KvTypes MergingIterator Wire RaftTypes ProposalPayload KvStateMachine LogStore LevelDb.
Local Open Scope N_scope.

(** ** Keys and values *)

Definition kHardStateKey : Key := bytes_of_string "hard_state".
Definition kLogPrefix : Key := bytes_of_string "log/".
Definition kSnapshotMetaKey : Key := bytes_of_string "snapshot_meta".

Definition internal (m : string) : Error := mkError EcInternalError m.

(** [decode_u64]: the value and the offset after it. *)
Definition decode_u64 (value : bytes) (offset : nat) : result Error (N * nat) :=
  if (length value <? offset + 8)%nat then Err (internal "truncated uint64 value")
  else Ok (be_get (take 8 (drop offset value)), (offset + 8)%nat).

Definition log_key (index : N) : Key := kLogPrefix ++ be_put 8 index.

Definition is_log_key (key : Key) : bool :=
  (length key =? 12)%nat && bytes_eqb (take 4 key) kLogPrefix.

Definition decode_log_index (key : Key) : result Error N :=
  if negb (is_log_key key) then Err (internal "unexpected raft log key")
  else let* (index, _) := decode_u64 key 4 in Ok index.

Definition leveldb_error (st : LStatus) : Error :=
  mkError EcIOError (match st with LOk => "OK" | LNotFound => "NotFound" | LOther text => text end).

Definition put_hard_state (h : HardState) : bytes :=
  be_put 8 (hs_term h) ++ (match hs_voted_for h with Some v => [x01] ++ be_put 8 v | None => [x00] end).

Definition put_snapshot_meta (m : SnapshotMetadata) : bytes :=
  be_put 8 (last_included_index m) ++ be_put 8 (last_included_term m).

(** [index + 1] in 64 bits. *)
Definition next_index (index : N) : N := (index + 1) mod two64.

Definition has_snapshot (m : SnapshotMetadata) : bool := negb (last_included_index m =? kInvalidIndex).

Section LogStore.
Context {D P C : Type} `{!LevelDB D P C}.

Record LevelDBLogStore := mkLevelLog { ll_db : option D; ll_last_index : N; ll_snapshot_meta : SnapshotMetadata }.

Definition new_level_log : LevelDBLogStore := mkLevelLog None kInvalidIndex no_snapshot.

Definition not_open : Error := internal "raft log store is not open".

(** The snapshot metadata, read first. *)
Definition read_snapshot_meta (d : D) : result Error (option SnapshotMetadata) :=
  match ldb_get None kSnapshotMetaKey d with
  | Err LNotFound => Ok None
  | Err st => Err (leveldb_error st)
  | Ok value =>
      if negb (length value =? 16)%nat then Err (internal "invalid raft snapshot metadata size")
      else match decode_u64 value 0, decode_u64 value 8 with
           | Ok (included, _), Ok (included_term, _) =>
               if (included =? kInvalidIndex) || (included_term =? 0)
               then Err (internal "invalid raft snapshot metadata values")
               else Ok (Some (mkSnapshotMetadata included included_term))
           | _, _ => Err (internal "invalid raft snapshot metadata")
           end
  end.

(** The loop over the entries: the last index found and the stale keys below
    [expected_start] to delete. *)
Fixpoint open_scan (expected_start expected last_found : N) (rows : list (Key * ByteValue))
    : result Error (N * list LOp) :=
  match rows with
  | [] => Ok (last_found, [])
  | (key, value) :: rest =>
      let* index := decode_log_index key in
      if index <? expected_start then
        let* (last, batch) := open_scan expected_start expected last_found rest in Ok (last, LDelete key :: batch)
      else if negb (index =? expected) then Err (internal "raft log store has a gap or a non-contiguous prefix")
      else if (length value <? 8)%nat then Err (internal "truncated raft log entry")
      else open_scan expected_start (next_index expected) index rest
  end.

Definition ll_open (opened : result LStatus D) (s : LevelDBLogStore) : LevelDBLogStore * result Error unit :=
  match ll_db s with
  | Some _ => (s, Err (log_error "raft log store is already open"))
  | None =>
      match opened with
      | Err st => (s, Err (leveldb_error st))
      | Ok d =>
          let s := mkLevelLog (Some d) (ll_last_index s) (ll_snapshot_meta s) in
          match read_snapshot_meta d with
          | Err e => (s, Err e)
          | Ok meta =>
              let meta := default (ll_snapshot_meta s) meta in
              let s := mkLevelLog (Some d) (ll_last_index s) meta in
              let expected_start := if has_snapshot meta then next_index (last_included_index meta) else 1 in
              let it := lc_seek (log_key 1) (ldb_new_iterator None d) in
              match open_scan expected_start expected_start kInvalidIndex (lc_while (ldb_turns d) is_log_key it) with
              | Err e => (s, Err e)
              | Ok (last_found, recovery_batch) =>
                  let st := lc_status (lc_end (ldb_turns d) is_log_key it) in
                  if negb (l_ok st) then (s, Err (leveldb_error st))
                  else
                    let last := N.max last_found (last_included_index meta) in
                    match recovery_batch with
                    | [] => (mkLevelLog (Some d) last meta, Ok ())
                    | _ => let '(d, st) := ldb_write true recovery_batch d in
                           if l_ok st then (mkLevelLog (Some d) last meta, Ok ())
                           else (mkLevelLog (Some d) (ll_last_index s) meta, Err (leveldb_error st))
                    end
              end
          end
      end
  end.

(** [close] forgets the database and the last index, not the boundary. *)
Definition ll_close (s : LevelDBLogStore) : LevelDBLogStore :=
  match ll_db s with None => s | Some _ => mkLevelLog None kInvalidIndex (ll_snapshot_meta s) end.

Definition ll_append (entry : LogEntry) (s : LevelDBLogStore) : LevelDBLogStore * result Error unit :=
  match ll_db s with
  | None => (s, Err not_open)
  | Some d =>
      if (e_index entry =? kInvalidIndex) || (e_term entry =? 0) then (s, Err (log_error "invalid log entry"))
      else if negb (e_index entry =? next_index (ll_last_index s))
      then (s, Err (log_error "append must extend the log by exactly one entry"))
      else let '(d, st) := ldb_put true (log_key (e_index entry)) (be_put 8 (e_term entry) ++ e_data entry) d in
           if l_ok st then (mkLevelLog (Some d) (e_index entry) (ll_snapshot_meta s), Ok ())
           else (mkLevelLog (Some d) (ll_last_index s) (ll_snapshot_meta s), Err (leveldb_error st))
  end.

Definition ll_at (index : N) (s : LevelDBLogStore) : result Error LogEntry :=
  match ll_db s with
  | None => Err not_open
  | Some d =>
      if (index =? kInvalidIndex) || (ll_last_index s <? index) then Err (log_error "log index out of range")
      else if index <? last_included_index (ll_snapshot_meta s)
      then Err (log_error "log index is inside the compacted snapshot prefix")
      else if index =? last_included_index (ll_snapshot_meta s)
      then Ok (mkLogEntry index (last_included_term (ll_snapshot_meta s)) [])
      else match ldb_get None (log_key index) d with
           | Err LNotFound => Err (internal "cached raft log index is missing")
           | Err st => Err (leveldb_error st)
           | Ok value =>
               if (length value <? 8)%nat then Err (internal "truncated raft log entry")
               else let* (term, offset) := decode_u64 value 0 in
                    if term =? 0 then Err (internal "raft log entry has zero term")
                    else Ok (mkLogEntry index term (drop offset value))
           end
  end.

Definition ll_truncate_suffix (from : N) (s : LevelDBLogStore) : LevelDBLogStore * result Error unit :=
  match ll_db s with
  | None => (s, Err not_open)
  | Some d =>
      if (from =? kInvalidIndex) || (from <=? last_included_index (ll_snapshot_meta s)) ||
         (next_index (ll_last_index s) <? from)
      then (s, Err (log_error "truncate suffix out of range"))
      else
        let it := lc_seek (log_key from) (ldb_new_iterator None d) in
        let st := lc_status (lc_end (ldb_turns d) is_log_key it) in
        if negb (l_ok st) then (s, Err (leveldb_error st))
        else let '(d, st) := ldb_write true (map (fun p => LDelete p.1) (lc_while (ldb_turns d) is_log_key it)) d in
             if l_ok st then (mkLevelLog (Some d) (from - 1) (ll_snapshot_meta s), Ok ())
             else (mkLevelLog (Some d) (ll_last_index s) (ll_snapshot_meta s), Err (leveldb_error st))
  end.

Definition ll_save_hard_state (h : HardState) (s : LevelDBLogStore) : LevelDBLogStore * result Error unit :=
  match ll_db s with
  | None => (s, Err not_open)
  | Some d => let '(d, st) := ldb_put true kHardStateKey (put_hard_state h) d in
              (mkLevelLog (Some d) (ll_last_index s) (ll_snapshot_meta s),
               if l_ok st then Ok () else Err (leveldb_error st))
  end.

(** The size must be that of a hard state with a vote, 17 bytes. *)
Definition decode_hard_state (value : bytes) : result Error HardState :=
  if negb (length value =? 17)%nat then Err (internal "invalid raft hard state size")
  else let* (term, offset) := decode_u64 value 0 in
       let has_vote := negb (bool_decide (nth offset value x00 = x00)) in
       if has_vote then let* (voted_for, _) := decode_u64 value (S offset) in Ok (mkHardState term (Some voted_for))
       else Ok (mkHardState term None).
Definition ll_load_hard_state (s : LevelDBLogStore) : result Error HardState :=
  match ll_db s with
  | None => Err not_open
  | Some d =>
      match ldb_get None kHardStateKey d with
      | Err LNotFound => Ok (mkHardState 0 None)
      | Err st => Err (leveldb_error st)
      | Ok value => decode_hard_state value
      end
  end.

Definition ll_get_last_index (s : LevelDBLogStore) : result Error N :=
  match ll_db s with None => Err not_open | Some _ => Ok (ll_last_index s) end.
Definition ll_snapshot_metadata (s : LevelDBLogStore) : result Error SnapshotMetadata :=
  match ll_db s with None => Err not_open | Some _ => Ok (ll_snapshot_meta s) end.

(** The loop deletes the keys up to the boundary and breaks above it. *)
Definition upto_boundary (boundary : N) (key : Key) : bool :=
  is_log_key key && match decode_log_index key with Ok index => index <=? boundary | Err _ => false end.

Definition ll_install_snapshot (m : SnapshotMetadata) (s : LevelDBLogStore) : LevelDBLogStore * result Error unit :=
  match ll_db s with
  | None => (s, Err not_open)
  | Some d =>
      if (last_included_index m =? kInvalidIndex) || (last_included_term m =? 0)
      then (s, Err (log_error "invalid snapshot metadata"))
      else
        let it := lc_seek (log_key 1) (ldb_new_iterator None d) in
        let st := lc_status (lc_end (ldb_turns d) (upto_boundary (last_included_index m)) it) in
        if negb (l_ok st) then (s, Err (leveldb_error st))
        else
          let '(d, st) := ldb_write true
            (map (fun p => LDelete p.1) (lc_while (ldb_turns d) (upto_boundary (last_included_index m)) it) ++
             [LPut kSnapshotMetaKey (put_snapshot_meta m)]) d in
          if l_ok st
          then (mkLevelLog (Some d)
                  (if ll_last_index s <? last_included_index m then last_included_index m else ll_last_index s) m, Ok ())
          else (mkLevelLog (Some d) (ll_last_index s) (ll_snapshot_meta s), Err (leveldb_error st))
  end.

(** ** [class LevelDBRequestResultStore] *)

Definition kClientPrefix : Key := bytes_of_string "client/".
Definition client_key (client_id : N) : Key := kClientPrefix ++ be_put 8 client_id.
Definition results_not_open : Error := internal "request result store is not open".
Definition truncated_record : Error := internal "truncated request result record".

Definition lr_open (opened : result LStatus D) (db : option D) : option D * result Error unit :=
  match db with
  | Some _ => (db, Err (log_error "request result store is already open"))
  | None => match opened with Err st => (db, Err (leveldb_error st)) | Ok d => (Some d, Ok ()) end
  end.

Definition lr_find (client_id request_id : N) (db : option D) : result Error (option bytes) :=
  match db with
  | None => Err results_not_open
  | Some d =>
      match ldb_get None (client_key client_id) d with
      | Err LNotFound => Ok None
      | Err st => Err (leveldb_error st)
      | Ok value =>
          if (length value <? 8)%nat then Err truncated_record
          else
            let saved := be_get (take 8 value) in
            if saved =? request_id then Ok (Some (drop 8 value))
            else if request_id <? saved then Err stale_request
            else Ok None
      end
  end.

Definition lr_save (client_id request_id : N) (res : bytes) (db : option D) : option D * result Error unit :=
  match db with
  | None => (db, Err results_not_open)
  | Some d => let '(d, st) := ldb_put true (client_key client_id) (be_put 8 request_id ++ res) d in
              (Some d, if l_ok st then Ok () else Err (leveldb_error st))
  end.
End LogStore.
Arguments LevelDBLogStore D : clear implicits.
