(* ===== verification/LevelLogSpec.v ===== *)
(** * The log on disk refines the abstract log and survives a restart

    [disk_wf] is the invariant of the database of a [LevelDBLogStore]: nothing
    but the hard state, the boundary and log keys, entries for every index above
    the boundary up to the last one. Every operation keeps it and has the effect
    of the abstract log ([LogStore.updates]); opening a database that satisfies
    it, with or without entries a crash left below the boundary, gives the log
    back. *)

From S2P Require Import Prelude Bytes OMap KvTypes MergingIterator Wire RaftTypes ProposalPayload KvStateMachine LogStore LevelDb LevelLogStore.
Local Open Scope N_scope.

(** ** Log keys *)

Lemma log_key_index i : decode_log_index (log_key i) = Ok (i mod two64).
Proof.
  unfold decode_log_index. assert (Hk : is_log_key (log_key i) = true).
  { unfold is_log_key, log_key. rewrite length_app, length_be_put. cbn [Nat.eqb length kLogPrefix bytes_of_string].
    rewrite (take_app_le kLogPrefix) by done. by rewrite take_ge by done. }
  rewrite Hk. cbn [negb]. unfold decode_u64, log_key. rewrite length_app, length_be_put.
  change (length kLogPrefix) with 4%nat. cbn [Nat.add Nat.ltb Nat.leb]. change 4%nat with (length kLogPrefix).
  rewrite drop_app_length, take_ge by (by rewrite length_be_put). cbn. f_equal.
  change two64 with (2 ^ (8 * N.of_nat 8)). rewrite (be_put_mod 8), be_get_put; [done|]. apply N.mod_lt. done.
Qed.

Lemma log_key_is i : is_log_key (log_key i) = true.
Proof.
  pose proof (log_key_index i) as Hd. unfold decode_log_index in Hd. by destruct (is_log_key (log_key i)).
Qed.

Lemma log_key_inv k : is_log_key k = true -> exists i, u64 i /\ k = log_key i.
Proof.
  unfold is_log_key. intros [Hl%Nat.eqb_eq Ht%bytes_eqb_eq]%andb_true_iff. exists (be_get (drop 4 k)).
  assert (Hd : length (drop 4 k) = 8%nat) by (rewrite length_drop; lia). split.
  - pose proof (be_get_lt (drop 4 k)) as Hlt. rewrite Hd in Hlt. done.
  - unfold log_key. rewrite <- Hd, be_put_get, <- Ht. by rewrite take_drop.
Qed.

Lemma log_key_ltb i j : u64 i -> u64 j -> bytes_ltb (log_key i) (log_key j) = (i <? j).
Proof. intros Hi Hj. unfold log_key. rewrite bytes_ltb_app_common. by apply bytes_ltb_be_put. Qed.

Lemma log_key_inj i j : u64 i -> u64 j -> log_key i = log_key j -> i = j.
Proof.
  intros Hi Hj Heq. pose proof (log_key_index i) as H1. rewrite Heq, log_key_index in H1.
  injection H1 as H1. by rewrite !N.mod_small in H1.
Qed.

(** The other keys lie around the log keys. *)
Lemma hard_key_before i : bytes_ltb kHardStateKey (log_key i) = true.
Proof. reflexivity. Qed.
Lemma meta_key_after i : bytes_ltb (log_key i) kSnapshotMetaKey = true.
Proof. reflexivity. Qed.

Lemma hard_not_log i : kHardStateKey <> log_key i.
Proof. discriminate. Qed.
Lemma meta_not_log i : kSnapshotMetaKey <> log_key i.
Proof. discriminate. Qed.

#[global] Opaque log_key kHardStateKey kSnapshotMetaKey.

Definition log_store_key (k : Key) : Prop := k = kHardStateKey \/ k = kSnapshotMetaKey \/ is_log_key k = true.

(** ** The invariant and the view *)

Record disk_wf (rows : omap ByteValue) (snap : SnapshotMetadata) (last : N) : Prop := {
  dw_keys : forall k v, mfind k rows = Some v -> log_store_key k;
  dw_last : u64 last;
  dw_snap : last_included_index snap <= last;
  dw_snap_term : u64 (last_included_term snap);
  dw_snap_values : if has_snapshot snap then last_included_term snap <> 0 else snap = no_snapshot;
  dw_meta : mfind kSnapshotMetaKey rows = if has_snapshot snap then Some (put_snapshot_meta snap) else None;
  dw_some : forall i, last_included_index snap < i <= last -> is_Some (mfind (log_key i) rows);
  dw_none : forall i, u64 i -> last < i -> mfind (log_key i) rows = None;
  dw_entry : forall i v, u64 i -> mfind (log_key i) rows = Some v ->
    (8 <= length v)%nat /\ be_get (take 8 v) <> 0 }.

(** No entries at or below the boundary. *)
Definition compacted (rows : omap ByteValue) (snap : SnapshotMetadata) : Prop :=
  forall i, u64 i -> i <= last_included_index snap -> mfind (log_key i) rows = None.

Definition entry_at (rows : omap ByteValue) (i : N) : option LogEntry :=
  (fun v => mkLogEntry i (be_get (take 8 v)) (drop 8 v)) <$> mfind (log_key i) rows.

(** The hard state of a database as [load_hard_state] reads its record. *)
Definition stored_hard (rows : omap ByteValue) : result Error HardState :=
  match mfind kHardStateKey rows with
  | None => Ok (mkHardState 0 None)
  | Some v => decode_hard_state v
  end.
(** The same for the view, where a record that cannot be read counts as none. *)
Definition hard_state_of (rows : omap ByteValue) : HardState :=
  match stored_hard rows with Ok h => h | Err _ => mkHardState 0 None end.

Definition disk_view (rows : omap ByteValue) (snap : SnapshotMetadata) (last : N) : log_view :=
  mkLogView (hard_state_of rows) snap last
    (fun i => if (last_included_index snap <? i) && (i <=? last) then entry_at rows i else None).

Lemma disk_view_wf rows snap last : disk_wf rows snap last -> view_wf (disk_view rows snap last).
Proof.
  intros Hw. split; cbn; [apply Hw| |].
  - intros i. destruct (_ <? i) eqn:E1, (i <=? last) eqn:E2; cbn; boolify; try (split; [by intros [? ?]|lia]).
    split; [lia|]. intros Hi. unfold entry_at. apply fmap_is_Some. by apply (dw_some _ _ _ Hw).
  - intros i e. destruct (_ && _); [|done]. unfold entry_at. destruct (mfind _ rows); [|done]. by intros [= <-].
Qed.

(** A change of other keys does not show. *)
Lemma disk_view_ext rows rows' snap last :
  (forall i, u64 i -> mfind (log_key i) rows' = mfind (log_key i) rows) ->
  mfind kHardStateKey rows' = mfind kHardStateKey rows -> u64 last ->
  view_eq (disk_view rows' snap last) (disk_view rows snap last).
Proof.
  intros Hl Hh Hu. split; cbn; [|done|done|].
  - unfold hard_state_of, stored_hard. by rewrite Hh.
  - intros i. destruct (_ && _) eqn:E; [|done]. boolify. unfold entry_at. rewrite Hl; [done|]. unfold u64 in *. lia.
Qed.

(** ** Loops over the keys *)

Section Walk.
Context {D P C : Type} `{LevelDBLaws D P C}.

(** Rows in the order the loops visit them. *)
Lemma walk_rows d snap last test from : ldb_fine d -> disk_wf (ldb_rows d) snap last ->
  (forall k, test k = true -> is_log_key k = true) ->
  (forall i j, u64 i -> u64 j -> i < j -> test (log_key j) = true -> test (log_key i) = true) ->
  lc_while (ldb_turns d) test (lc_seek (log_key from) (ldb_new_iterator None d)) =
  filter (fun p => test p.1 = true) (filter (fun p => negb (bytes_ltb p.1 (log_key from)) = true) (ldb_rows d)).
Proof.
  intros Hd Hw Hlog Hdown. pose proof (ldb_sorted d Hd) as Hs. destruct (ldb_iterator_law None d Hd) as [Hc Hr].
  destruct (lc_seek_law (log_key from) _ Hc) as (Hf & Hr' & Ha). rewrite Hr in Hr', Ha.
  rewrite lc_while_rows, Ha, Hr' by (rewrite ?Hr', ?Ha; try done; pose proof (ldb_turns_law d Hd); lia).
  rewrite drop_lower_bound by done. apply take_while_filter; [by apply (sorted_filter (fun p => negb (bytes_ltb p.1 _)))|].
  intros a b Ha' Hb' Hab Htb. apply list_elem_of_fmap in Ha' as ([a' v] & -> & Ha'). cbn [fst] in *.
  rewrite list_elem_of_filter in Ha'. destruct Ha' as [Hge Hin]. cbn [fst] in Hge. apply negb_true_iff in Hge.
  destruct (log_key_inv b (Hlog b Htb)) as (j & Hj & ->).
  apply find_elem in Hin; [|done]. destruct (dw_keys _ _ _ Hw _ _ Hin) as [->|[->|Hk]].
  - by rewrite hard_key_before in Hge.
  - unfold bytes_lt in Hab. by rewrite (bytes_ltb_asym _ _ (meta_key_after j)) in Hab.
  - destruct (log_key_inv a' Hk) as (i & Hi & ->). apply (Hdown i j); [done|done| |done].
    unfold bytes_lt in Hab. rewrite log_key_ltb in Hab by done. by apply N.ltb_lt.
Qed.

Lemma walk_deletes d snap last test from k : ldb_fine d -> disk_wf (ldb_rows d) snap last ->
  (forall k, test k = true -> is_log_key k = true) ->
  (forall i j, u64 i -> u64 j -> i < j -> test (log_key j) = true -> test (log_key i) = true) ->
  mfind k (apply_lops (map (fun p => LDelete p.1)
    (lc_while (ldb_turns d) test (lc_seek (log_key from) (ldb_new_iterator None d)))) (ldb_rows d)) =
  if test k && bytes_leb (log_key from) k then None else mfind k (ldb_rows d).
Proof.
  intros Hd Hw Hlog Hdown. pose proof (ldb_sorted d Hd) as Hs. rewrite (walk_rows d snap last) by done.
  rewrite <- (map_map fst LDelete), find_deletes by done.
  destruct (test k && bytes_leb (log_key from) k) eqn:E.
  - case_bool_decide as Hin; [done|]. destruct (mfind k (ldb_rows d)) as [v|] eqn:Ef; [|done]. exfalso. apply Hin.
    apply find_elem in Ef; [|done]. apply andb_true_iff in E as [E1 E2].
    apply list_elem_of_fmap. exists (k, v). split; [done|]. by rewrite !list_elem_of_filter.
  - rewrite bool_decide_eq_false_2; [done|]. intros (p & -> & Hp)%list_elem_of_fmap.
    rewrite !list_elem_of_filter in Hp. destruct Hp as (E1 & E2 & _). unfold bytes_leb in E. by rewrite E1, E2 in E.
Qed.
End Walk.

(** ** The operations *)

Section Refine.
Context {D P C : Type} `{LevelDBLaws D P C}.
Implicit Types (s : LevelDBLogStore D).

Definition ll_rows s : omap ByteValue := match ll_db s with Some d => ldb_rows d | None => [] end.
Definition ll_view s : log_view := disk_view (ll_rows s) (ll_snapshot_meta s) (ll_last_index s).
Definition ll_wf s : Prop :=
  (exists d, ll_db s = Some d /\ ldb_fine d) /\
  disk_wf (ll_rows s) (ll_snapshot_meta s) (ll_last_index s) /\ compacted (ll_rows s) (ll_snapshot_meta s).

Lemma ll_fine s : ll_wf s -> exists d, ll_db s = Some d /\ ldb_fine d /\ ll_rows s = ldb_rows d.
Proof. intros [(d & Hd & Hf) _]. exists d. unfold ll_rows. by rewrite Hd. Qed.

(** A failed write of the library leaves the store as it was. *)
Lemma ll_failed s d' (e : Error) pre f : ll_wf s -> ldb_fine d' -> ldb_rows d' = ll_rows s ->
  updates ll_view ll_wf pre f s (mkLevelLog (Some d') (ll_last_index s) (ll_snapshot_meta s)) (Err e).
Proof.
  intros (_ & Hw & Hc) Hf Hr. unfold updates, ll_wf, ll_view, ll_rows at 1 2 3. cbn. rewrite Hr.
  split; [|done]. split; [by exists d'|done].
Qed.

Lemma ll_rejected s (e : Error) pre f : ll_wf s -> updates ll_view ll_wf pre f s s (Err e).
Proof. by intros Hw. Qed.

(** A put of one key that keeps the invariant. *)
Lemma find_put k v k' (m : omap ByteValue) : sorted m ->
  mfind k' (apply_lops [LPut k v] m) = if bool_decide (k' = k) then Some v else mfind k' m.
Proof.
  intros Hm. cbn. case_bool_decide as E; [subst; by apply mfind_insert_eq|by apply mfind_insert_ne].
Qed.

Lemma put_term_entry i t data : u64 t ->
  (8 <= length (be_put 8 t ++ data))%nat /\ be_get (take 8 (be_put 8 t ++ data)) = t /\ drop 8 (be_put 8 t ++ data) = data /\
  mkLogEntry i (be_get (take 8 (be_put 8 t ++ data))) (drop 8 (be_put 8 t ++ data)) = mkLogEntry i t data.
Proof.
  intros Ht. assert (H8 : length (be_put 8 t) = 8%nat) by apply length_be_put.
  rewrite length_app, H8. rewrite (take_app_le (be_put 8 t)), take_ge by lia. rewrite be_get_put by done.
  rewrite (drop_app_le (be_put 8 t)), drop_ge by lia. split_and!; try done. lia.
Qed.

Lemma ll_append_refines e s s' r : ll_wf s -> u64 (e_term e) -> ll_append e s = (s', r) ->
  updates ll_view ll_wf (e_index e = lv_last (ll_view s) + 1 /\ e_term e <> 0) (view_append e) s s' r.
Proof.
  intros Hwf Ht. destruct (ll_fine s Hwf) as (d & Hd & Hf & Hrows). pose proof Hwf as (_ & Hw & Hc).
  unfold ll_append. rewrite Hd. destruct (_ || _) eqn:E1; [intros [= <- <-]; by apply ll_rejected|].
  destruct (negb _) eqn:E2; [intros [= <- <-]; by apply ll_rejected|]. boolify. unfold kInvalidIndex, next_index in *.
  pose proof (dw_last _ _ _ Hw) as Hlast. unfold u64 in Hlast.
  assert (Hi : e_index e = ll_last_index s + 1 /\ u64 (e_index e)).
  { destruct (decide (ll_last_index s + 1 = two64)) as [Heq|Hne].
    - rewrite Heq in E2. rewrite N.Div0.mod_same in E2. lia.
    - rewrite N.mod_small in E2 by (unfold u64 in *; lia). unfold u64. lia. }
  destruct Hi as [Hi Hu]. destruct (ldb_put true _ _ d) as [d' st] eqn:Ep.
  destruct (ldb_put_law _ _ _ _ _ _ Hf Ep) as [Hf' Hr']. destruct (l_ok st); intros [= <- <-].
  2:{ apply ll_failed; [done|done|congruence]. }
  pose proof (ldb_sorted d Hf) as Hs. rewrite <- Hrows in *.
  assert (Hfind : forall k, mfind k (ldb_rows d') = if bool_decide (k = log_key (e_index e))
    then Some (be_put 8 (e_term e) ++ e_data e) else mfind k (ll_rows s)) by (intros k; rewrite Hr'; by apply find_put).
  assert (Hlog : forall i, u64 i -> mfind (log_key i) (ldb_rows d') =
    if i =? e_index e then Some (be_put 8 (e_term e) ++ e_data e) else mfind (log_key i) (ll_rows s)).
  { intros i Hui. rewrite Hfind. destruct (i =? e_index e) eqn:E; boolify; [by subst; rewrite bool_decide_eq_true_2|].
    rewrite bool_decide_eq_false_2; [done|]. intros Heq. by apply E, log_key_inj. }
  destruct (put_term_entry (e_index e) (e_term e) (e_data e) Ht) as (Hl8 & Hg8 & _ & Hent).
  split; [done|]. split.
  - split; [by exists d'|]. unfold ll_rows. cbn. split; [split; cbn|].
    + intros k v. rewrite Hfind. case_bool_decide as E; [intros _; subst; right; right; apply log_key_is|apply Hw].
    + done.
    + pose proof (dw_snap _ _ _ Hw). lia.
    + apply Hw.
    + apply Hw.
    + rewrite Hfind, bool_decide_eq_false_2 by apply meta_not_log. apply Hw.
    + intros i Hlt. assert (u64 i) by (unfold u64 in *; lia). rewrite Hlog by done. destruct (i =? _) eqn:E; boolify; [by eexists|].
      apply (dw_some _ _ _ Hw). lia.
    + intros i Hui Hlt. rewrite Hlog by done. destruct (i =? _) eqn:E; boolify; [lia|]. apply (dw_none _ _ _ Hw); [done|lia].
    + intros i v Hui. rewrite Hlog by done. destruct (i =? _); [intros [= <-]; by rewrite Hg8|by apply (dw_entry _ _ _ Hw)].
    + intros i Hui Hle. rewrite Hlog by done. pose proof (dw_snap _ _ _ Hw). destruct (i =? _) eqn:E; boolify; [lia|]. by apply Hc.
  - split; cbn; [|done|done|].
    + unfold hard_state_of, stored_hard, ll_rows at 1. cbn. rewrite Hfind, bool_decide_eq_false_2 by apply hard_not_log. done.
    + intros i. unfold entry_at, ll_rows at 1. cbn. pose proof (dw_snap _ _ _ Hw).
      destruct (_ <? i) eqn:E3; cbn [andb].
      2:{ destruct (i =? e_index e) eqn:E4; boolify; [lia|done]. }
      destruct (i <=? e_index e) eqn:E4; boolify.
      * assert (Hui : u64 i) by (unfold u64 in *; lia). rewrite Hlog by done. destruct (i =? e_index e) eqn:E5; boolify.
        -- subst i. cbn. rewrite Hent. by destruct e.
        -- destruct (i <=? ll_last_index s) eqn:E6; boolify; [done|lia].
      * destruct (i =? e_index e) eqn:E5; boolify; [lia|]. destruct (i <=? ll_last_index s) eqn:E6; boolify; [lia|done].
Qed.

(** A status of the iterator after a loop is OK. *)
Lemma walk_status d test from : ldb_fine d ->
  lc_status (lc_end (ldb_turns d) test (lc_seek (log_key from) (ldb_new_iterator None d))) = LOk.
Proof.
  intros Hd. destruct (ldb_iterator_law None d Hd) as [Hc _]. apply lc_status_law, lc_end_fine. by apply lc_seek_law.
Qed.

Lemma ll_truncate_refines from s s' r : ll_wf s -> u64 from -> ll_truncate_suffix from s = (s', r) ->
  updates ll_view ll_wf (last_included_index (lv_snap (ll_view s)) < from <= lv_last (ll_view s) + 1)
    (view_truncate from) s s' r.
Proof.
  intros Hwf Hfrom. destruct (ll_fine s Hwf) as (d & Hd & Hf & Hrows). pose proof Hwf as (_ & Hw & Hc).
  unfold ll_truncate_suffix. rewrite Hd. destruct (_ || _) eqn:E1; [intros [= <- <-]; by apply ll_rejected|].
  rewrite walk_status by done. cbn [negb l_ok]. boolify. unfold kInvalidIndex, next_index in *.
  destruct (ldb_write true _ d) as [d' st] eqn:Ep. destruct (ldb_write_law _ _ _ _ _ Hf Ep) as [Hf' Hr'].
  destruct (l_ok st); intros [= <- <-]; [|apply ll_failed; [done|done|congruence]].
  rewrite Hrows in Hw, Hc. pose proof (dw_last _ _ _ Hw) as Hlast.
  assert (Hle : from <= ll_last_index s + 1).
  { destruct (decide (ll_last_index s + 1 = two64)) as [Heq|Hne]; [unfold u64 in *; lia|].
    rewrite N.mod_small in * by (unfold u64 in *; lia). lia. }
  assert (Hfind : forall k, mfind k (ldb_rows d') = if is_log_key k && bytes_leb (log_key from) k then None else mfind k (ldb_rows d)).
  { intros k. rewrite Hr'. apply (walk_deletes d _ _ is_log_key from k Hf Hw); [done|]. intros i j _ _ _ _. apply log_key_is. }
  assert (Hlog : forall i, u64 i -> mfind (log_key i) (ldb_rows d') = if from <=? i then None else mfind (log_key i) (ldb_rows d)).
  { intros i Hi. rewrite Hfind, log_key_is. unfold bytes_leb. rewrite log_key_ltb, <- N.leb_antisym by done. done. }
  assert (Hother : forall k, is_log_key k = false -> mfind k (ldb_rows d') = mfind k (ldb_rows d)).
  { intros k Hk. by rewrite Hfind, Hk. }
  split; [cbn; lia|]. split.
  - split; [by exists d'|]. unfold ll_rows. cbn. split; [split; cbn|].
    + intros k v. rewrite Hfind. destruct (_ && _); [done|]. apply Hw.
    + unfold u64 in *. lia.
    + lia.
    + apply Hw.
    + apply Hw.
    + rewrite Hother by done. apply Hw.
    + intros i Hi. rewrite Hlog by (unfold u64 in *; lia). destruct (from <=? i) eqn:E; boolify; [lia|].
      apply (dw_some _ _ _ Hw). lia.
    + intros i Hui Hi. rewrite Hlog by done. destruct (from <=? i) eqn:E; boolify; [done|lia].
    + intros i v Hui. rewrite Hlog by done. destruct (from <=? i); [done|]. by apply (dw_entry _ _ _ Hw).
    + intros i Hui Hi. rewrite Hlog by done. destruct (from <=? i); [done|]. by apply Hc.
  - split; cbn; [|done|done|].
    + unfold hard_state_of, stored_hard, ll_rows. cbn. by rewrite Hd, Hother.
    + intros i. unfold entry_at, ll_rows. cbn. rewrite Hd.
      destruct (_ <? i) eqn:E3; cbn [andb]; [|by destruct (from <=? i)].
      destruct (from <=? i) eqn:E4, (i <=? from - 1) eqn:E5, (i <=? ll_last_index s) eqn:E6; boolify; try lia; try done.
      rewrite Hlog by (unfold u64 in *; lia). by destruct (from <=? i) eqn:E7; boolify; [lia|].
Qed.

Definition hard_state_u64 (h : HardState) : Prop :=
  u64 (hs_term h) /\ match hs_voted_for h with Some v => u64 v | None => True end.

(** What is read of a saved hard state: it, if it has a vote, and else nothing. *)
Definition readable (h : HardState) : result Error HardState :=
  match hs_voted_for h with Some _ => Ok h | None => Err (internal "invalid raft hard state size") end.

Lemma hard_state_decode h : hard_state_u64 h -> decode_hard_state (put_hard_state h) = readable h.
Proof.
  intros [Ht Hv]. destruct h as [t [v|]]; cbn in Ht, Hv; unfold decode_hard_state, put_hard_state, readable; cbn [hs_term hs_voted_for].
  2:{ by rewrite length_app, length_be_put. }
  assert (H8 : length (be_put 8 t) = 8%nat) by apply length_be_put.
  rewrite !length_app, !length_be_put. cbn [Nat.add length Nat.eqb negb]. unfold decode_u64.
  rewrite !length_app, !length_be_put. cbn -[be_put take drop nth app]. rewrite drop_0.
  rewrite (take_app_le (be_put 8 t)), (take_ge (be_put 8 t)), be_get_put by (done || lia).
  rewrite app_nth2, H8 by lia. cbn [Nat.sub nth app]. rewrite bool_decide_eq_false_2 by done. cbn [negb].
  rewrite (drop_app_ge (be_put 8 t)), H8 by lia. cbn [Nat.sub drop].
  rewrite drop_0, take_ge, be_get_put by (rewrite ?length_be_put; done). done.
Qed.

(** Loading reads the record of the database and nothing else. *)
Lemma ll_load_stored s d : ll_db s = Some d -> ldb_fine d -> ll_load_hard_state s = stored_hard (ldb_rows d).
Proof.
  intros Hd Hf. unfold ll_load_hard_state, stored_hard. rewrite Hd, ldb_get_law by done. by destruct (mfind _ (ldb_rows d)).
Qed.
Lemma ll_load_kept s s' : ll_wf s -> ll_wf s' -> mfind kHardStateKey (ll_rows s') = mfind kHardStateKey (ll_rows s) ->
  ll_load_hard_state s' = ll_load_hard_state s.
Proof.
  intros Hw Hw' Hk. destruct (ll_fine s Hw) as (d & Hd & Hf & Hr). destruct (ll_fine s' Hw') as (d' & Hd' & Hf' & Hr').
  rewrite (ll_load_stored s d), (ll_load_stored s' d') by done. unfold stored_hard. by rewrite <- Hr, <- Hr', Hk.
Qed.

Lemma ll_save_refines h s s' r : ll_wf s -> hard_state_u64 h -> ll_save_hard_state h s = (s', r) ->
  updates ll_view ll_wf True (view_hard (match readable h with Ok h => h | Err _ => mkHardState 0 None end)) s s' r /\
  ll_load_hard_state s' = match r with Ok _ => readable h | Err _ => ll_load_hard_state s end.
Proof.
  intros Hwf Hh. destruct (ll_fine s Hwf) as (d & Hd & Hf & Hrows). pose proof Hwf as (_ & Hw & Hc).
  unfold ll_save_hard_state. rewrite Hd. destruct (ldb_put true _ _ d) as [d' st] eqn:Ep.
  destruct (ldb_put_law _ _ _ _ _ _ Hf Ep) as [Hf' Hr']. destruct (l_ok st); intros [= <- <-].
  2:{ assert (Hu : forall pre f, updates ll_view ll_wf pre f s
        (mkLevelLog (Some d') (ll_last_index s) (ll_snapshot_meta s)) (Err (leveldb_error st))) by (intros; apply ll_failed; [done|done|congruence]).
      split; [apply Hu|]. apply ll_load_kept; [done|apply (Hu True id)|]. unfold ll_rows. cbn. by rewrite Hd, Hr'. }
  pose proof (ldb_sorted d Hf) as Hs.
  assert (Hfind : forall k, mfind k (ldb_rows d') = if bool_decide (k = kHardStateKey) then Some (put_hard_state h) else mfind k (ldb_rows d))
    by (intros k; rewrite Hr'; by apply find_put).
  assert (Hlog : forall i, mfind (log_key i) (ldb_rows d') = mfind (log_key i) (ldb_rows d)).
  { intros i. rewrite Hfind, bool_decide_eq_false_2; [done|]. intros Heq. by apply (hard_not_log i). }
  assert (Hst : stored_hard (ldb_rows d') = readable h)
    by (unfold stored_hard; rewrite Hfind, bool_decide_eq_true_2 by done; by apply hard_state_decode).
  rewrite Hrows in Hw, Hc. split; [|by rewrite (ll_load_stored _ d')]. split; [done|]. split.
  - split; [by exists d'|]. unfold ll_rows. cbn. split; [split; cbn|].
    + intros k v. rewrite Hfind. case_bool_decide; [intros _; by left|apply Hw].
    + apply Hw.
    + apply Hw.
    + apply Hw.
    + apply Hw.
    + rewrite Hfind, bool_decide_eq_false_2 by done. apply Hw.
    + intros i. rewrite Hlog. apply Hw.
    + intros i. rewrite Hlog. apply Hw.
    + intros i v. rewrite Hlog. apply Hw.
    + intros i. rewrite Hlog. apply Hc.
  - split; cbn; [|done|done|].
    + unfold hard_state_of, ll_rows. cbn. by rewrite Hst.
    + intros i. unfold entry_at, ll_rows. cbn. by rewrite Hlog, Hd.
Qed.

Lemma upto_log_key b i : u64 i -> upto_boundary b (log_key i) = (i <=? b).
Proof. intros Hi. unfold upto_boundary. by rewrite log_key_is, log_key_index, N.mod_small. Qed.

(** The rows after an installation. *)
Lemma install_rows d snap last m d' : ldb_fine d -> disk_wf (ldb_rows d) snap last -> compacted (ldb_rows d) snap ->
  ldb_rows d' = apply_lops (map (fun p => LDelete p.1)
    (lc_while (ldb_turns d) (upto_boundary (last_included_index m)) (lc_seek (log_key 1) (ldb_new_iterator None d))) ++
    [LPut kSnapshotMetaKey (put_snapshot_meta m)]) (ldb_rows d) ->
  mfind kSnapshotMetaKey (ldb_rows d') = Some (put_snapshot_meta m) /\
  mfind kHardStateKey (ldb_rows d') = mfind kHardStateKey (ldb_rows d) /\
  (forall i, u64 i -> mfind (log_key i) (ldb_rows d') =
     if i <=? last_included_index m then None else mfind (log_key i) (ldb_rows d)) /\
  (forall k v, mfind k (ldb_rows d') = Some v -> log_store_key k).
Proof.
  intros Hf Hw Hc Hr'. pose proof (ldb_sorted d Hf) as Hs.
  assert (Hfind : forall k, mfind k (ldb_rows d') = if bool_decide (k = kSnapshotMetaKey) then Some (put_snapshot_meta m)
    else if upto_boundary (last_included_index m) k && bytes_leb (log_key 1) k then None else mfind k (ldb_rows d)).
  { intros k. rewrite Hr', apply_lops_app, find_put by (by apply sorted_lops). case_bool_decide; [done|].
    apply (walk_deletes d _ _ _ 1 k Hf Hw).
    - intros k' Hk'. by apply andb_true_iff in Hk' as [? _].
    - intros i j Hi Hj Hlt. rewrite !upto_log_key by done. intros Hb. boolify. apply N.leb_le. lia. }
  split_and!.
  - by rewrite Hfind, bool_decide_eq_true_2.
  - by rewrite Hfind, bool_decide_eq_false_2.
  - intros i Hi. rewrite Hfind, bool_decide_eq_false_2, upto_log_key by (done || intros Heq; by apply (meta_not_log i)).
    unfold bytes_leb. rewrite log_key_ltb, <- N.leb_antisym by done.
    destruct (i <=? _) eqn:E1, (1 <=? i) eqn:E2; boolify; try done. apply Hc; [done|lia].
  - intros k v. rewrite Hfind. case_bool_decide; [intros _; right; by left|]. case_match; [done|]. apply Hw.
Qed.

Definition meta_u64 (m : SnapshotMetadata) : Prop := u64 (last_included_index m) /\ u64 (last_included_term m).

Lemma ll_install_refines m s s' r : ll_wf s -> meta_u64 m ->
  last_included_index (lv_snap (ll_view s)) <= last_included_index m -> ll_install_snapshot m s = (s', r) ->
  updates ll_view ll_wf (last_included_index m <> 0 /\ last_included_term m <> 0) (view_install m) s s' r.
Proof.
  intros Hwf [Hmi Hmt] Hle. cbn in Hle. destruct (ll_fine s Hwf) as (d & Hd & Hf & Hrows). pose proof Hwf as (_ & Hw & Hc).
  unfold ll_install_snapshot. rewrite Hd. destruct (_ || _) eqn:E1; [intros [= <- <-]; by apply ll_rejected|].
  rewrite walk_status by done. cbn [negb l_ok]. boolify. unfold kInvalidIndex in *.
  destruct (ldb_write true _ d) as [d' st] eqn:Ep. destruct (ldb_write_law _ _ _ _ _ Hf Ep) as [Hf' Hr'].
  destruct (l_ok st); intros [= <- <-]; [|apply ll_failed; [done|done|congruence]].
  rewrite Hrows in Hw, Hc. destruct (install_rows d _ _ m d' Hf Hw Hc Hr') as (Hmeta & Hhard & Hlog & Hkeys).
  pose proof (dw_last _ _ _ Hw) as Hlast. assert (Hhas : has_snapshot m = true).
  { unfold has_snapshot, kInvalidIndex. apply negb_true_iff. by apply N.eqb_neq. }
  set (last := if ll_last_index s <? last_included_index m then last_included_index m else ll_last_index s).
  assert (Hlastm : last = N.max (ll_last_index s) (last_included_index m)) by (unfold last; case_match; boolify; lia).
  split; [done|]. split.
  - split; [by exists d'|]. unfold ll_rows. cbn. fold last. split; [split; cbn|].
    + done.
    + unfold u64 in *. lia.
    + lia.
    + done.
    + by rewrite Hhas.
    + by rewrite Hhas.
    + intros i Hi. rewrite Hlog by (unfold u64 in *; lia). destruct (i <=? _) eqn:E; boolify; [lia|].
      apply (dw_some _ _ _ Hw). lia.
    + intros i Hui Hi. rewrite Hlog by done. destruct (i <=? _); [done|]. apply (dw_none _ _ _ Hw); [done|lia].
    + intros i v Hui. rewrite Hlog by done. destruct (i <=? _); [done|]. by apply (dw_entry _ _ _ Hw).
    + intros i Hui Hi. rewrite Hlog by done. by destruct (i <=? _) eqn:E; boolify; [|lia].
  - split; cbn; [|done|done|].
    + unfold hard_state_of, stored_hard, ll_rows. cbn. by rewrite Hd, Hhard.
    + intros i. unfold entry_at, ll_rows. cbn. rewrite Hd. fold last.
      destruct (i <=? last_included_index m) eqn:E3; boolify.
      { by destruct (_ <? i) eqn:E4; boolify; [lia|]. }
      rewrite (proj2 (N.ltb_lt _ i)), (proj2 (N.ltb_lt _ i)) by lia. cbn [andb].
      destruct (i <=? last) eqn:E4, (i <=? ll_last_index s) eqn:E5; boolify; try lia; try done.
      rewrite Hlog by (unfold u64 in *; lia). by destruct (i <=? _) eqn:E6; boolify; [lia|].
Qed.

(** ** Reads *)

Lemma ll_at_refines i s : ll_wf s ->
  ll_at i s =
    if (i =? 0) || (lv_last (ll_view s) <? i) then Err (log_error "log index out of range")
    else if i <? last_included_index (lv_snap (ll_view s))
    then Err (log_error "log index is inside the compacted snapshot prefix")
    else if i =? last_included_index (lv_snap (ll_view s))
    then Ok (mkLogEntry i (last_included_term (lv_snap (ll_view s))) [])
    else match lv_entry (ll_view s) i with Some e => Ok e | None => Err not_open end.
Proof.
  intros Hwf. destruct (ll_fine s Hwf) as (d & Hd & Hf & Hrows). pose proof Hwf as (_ & Hw & _).
  unfold ll_at. rewrite Hd. cbn [lv_last ll_view disk_view lv_snap lv_entry]. unfold kInvalidIndex.
  destruct (_ || _) eqn:E1; [done|]. destruct (i <? _) eqn:E2; [done|]. destruct (i =? last_included_index _) eqn:E3; [done|].
  boolify. rewrite (proj2 (N.ltb_lt _ i)), (proj2 (N.leb_le i _)) by lia. cbn [andb].
  destruct (dw_some _ _ _ Hw i ltac:(lia)) as [v Hv].
  assert (Hu : u64 i) by (pose proof (dw_last _ _ _ Hw); unfold u64 in *; lia).
  destruct (dw_entry _ _ _ Hw i v Hu Hv) as [Hl Ht]. unfold entry_at. rewrite Hv. cbn [fmap option_fmap option_map].
  rewrite ldb_get_law by done. rewrite <- Hrows, Hv. unfold decode_u64. cbn [Nat.add]. rewrite !(proj2 (Nat.ltb_ge (length v) 8)) by lia.
  cbn. rewrite drop_0. by destruct (be_get (take 8 v) =? 0) eqn:E4; boolify.
Qed.

(** ** What the other operations leave of the hard state *)

Lemma hard_not_log_key : is_log_key kHardStateKey = false.
Proof. by vm_compute. Qed.

Lemma ll_append_hard e s s' r : ll_wf s -> u64 (e_term e) -> ll_append e s = (s', r) ->
  ll_load_hard_state s' = ll_load_hard_state s.
Proof.
  intros Hwf Ht Ha. pose proof (updates_wf _ _ _ _ _ _ _ (ll_append_refines e s s' r Hwf Ht Ha)) as Hwf'.
  apply ll_load_kept; [done|done|]. revert Ha. destruct (ll_fine s Hwf) as (d & Hd & Hf & Hrows). unfold ll_append. rewrite Hd.
  destruct (_ || _); [by intros [= <- _]|]. destruct (negb _); [by intros [= <- _]|].
  destruct (ldb_put true _ _ d) as [d' st] eqn:Ep. destruct (ldb_put_law _ _ _ _ _ _ Hf Ep) as [_ Hr'].
  rewrite Hrows. destruct (l_ok st); intros [= <- _]; unfold ll_rows; cbn; rewrite Hr'; [|done].
  rewrite find_put by (by apply ldb_sorted). by rewrite bool_decide_eq_false_2 by apply hard_not_log.
Qed.

Lemma ll_truncate_hard from s s' r : ll_wf s -> u64 from -> ll_truncate_suffix from s = (s', r) ->
  ll_load_hard_state s' = ll_load_hard_state s.
Proof.
  intros Hwf Hu Ha. pose proof (updates_wf _ _ _ _ _ _ _ (ll_truncate_refines from s s' r Hwf Hu Ha)) as Hwf'.
  apply ll_load_kept; [done|done|]. revert Ha. destruct (ll_fine s Hwf) as (d & Hd & Hf & Hrows). pose proof Hwf as (_ & Hw & _).
  unfold ll_truncate_suffix. rewrite Hd. destruct (_ || _); [by intros [= <- _]|]. rewrite walk_status by done. cbn [negb l_ok].
  destruct (ldb_write true _ d) as [d' st] eqn:Ep. destruct (ldb_write_law _ _ _ _ _ Hf Ep) as [_ Hr'].
  rewrite Hrows in Hw |- *. destruct (l_ok st); intros [= <- _]; unfold ll_rows; cbn; [|by rewrite Hr'].
  rewrite Hr', (walk_deletes d _ _ is_log_key from kHardStateKey Hf Hw); [by rewrite hard_not_log_key|done|].
  intros i j _ _ _ _. apply log_key_is.
Qed.

Lemma ll_install_hard m s s' r : ll_wf s -> meta_u64 m ->
  last_included_index (lv_snap (ll_view s)) <= last_included_index m -> ll_install_snapshot m s = (s', r) ->
  ll_load_hard_state s' = ll_load_hard_state s.
Proof.
  intros Hwf Hm Hle Ha. pose proof (updates_wf _ _ _ _ _ _ _ (ll_install_refines m s s' r Hwf Hm Hle Ha)) as Hwf'.
  apply ll_load_kept; [done|done|]. revert Ha. destruct (ll_fine s Hwf) as (d & Hd & Hf & Hrows). pose proof Hwf as (_ & Hw & Hc).
  unfold ll_install_snapshot. rewrite Hd. destruct (_ || _); [by intros [= <- _]|]. rewrite walk_status by done. cbn [negb l_ok].
  destruct (ldb_write true _ d) as [d' st] eqn:Ep. destruct (ldb_write_law _ _ _ _ _ Hf Ep) as [_ Hr'].
  rewrite Hrows in Hw, Hc |- *. destruct (l_ok st); intros [= <- _]; unfold ll_rows; cbn; [|by rewrite Hr'].
  by destruct (install_rows d _ _ m d' Hf Hw Hc Hr') as (_ & -> & _).
Qed.

(** ** Opening *)

(** Entries below the first one expected are dropped. *)
Lemma open_scan_stale start expected found pre l :
  Forall (fun p => exists i, u64 i /\ i < start /\ p.1 = log_key i) pre ->
  open_scan start expected found (pre ++ l) =
  (let* (last, batch) := open_scan start expected found l in Ok (last, map (fun p => LDelete p.1) pre ++ batch)).
Proof.
  induction 1 as [|[k v] pre (i & Hi & Hlt & Hk) _ IH]; cbn [app open_scan map].
  { by destruct (open_scan start expected found l) as [[]|]. }
  cbn [fst] in *. subst k. rewrite log_key_index, N.mod_small by done. cbn.
  rewrite (proj2 (N.ltb_lt _ _) Hlt), IH. by destruct (open_scan start expected found l) as [[]|].
Qed.

(** A run of consecutive entries is accepted. *)
Lemma open_scan_run start expected found last (l : omap ByteValue) : sorted l -> start <= expected ->
  expected <= last + 1 -> last + 1 < two64 ->
  (forall p, p ∈ l -> exists i, expected <= i <= last /\ p.1 = log_key i /\ (8 <= length p.2)%nat) ->
  (forall i, expected <= i <= last -> exists v, (log_key i, v) ∈ l) ->
  open_scan start expected found l = Ok (if expected =? last + 1 then found else last, []).
Proof.
  intros Hs. revert expected found. induction l as [|[k v] l IH]; intros expected found Hst Hle Hmax Hkeys Hall.
  { cbn. destruct (expected =? last + 1) eqn:E; boolify; [done|]. destruct (Hall expected) as [v Hv]; [lia|].
    by apply elem_of_nil in Hv. }
  destruct (Hkeys (k, v)) as (i & Hi & Hk & Hl); [left|]. cbn [fst snd] in *. subst k.
  assert (Hui : u64 i) by (unfold u64; lia). assert (Hue : u64 expected) by (unfold u64; lia).
  assert (Hie : i = expected).
  { destruct (Hall expected) as [w Hw]; [lia|]. apply elem_of_cons in Hw as [Heq|Hw].
    - apply (f_equal fst) in Heq. symmetry. by apply log_key_inj.
    - pose proof (sorted_head _ _ Hs) as Hh. rewrite Forall_forall in Hh. specialize (Hh _ Hw).
      unfold key_before, bytes_lt in Hh. cbn in Hh. rewrite log_key_ltb in Hh by done. boolify. lia. }
  subst i. cbn [open_scan]. rewrite log_key_index, N.mod_small by done. cbn [result_bind].
  rewrite (proj2 (N.ltb_ge expected start)), N.eqb_refl by lia. cbn [negb].
  rewrite (proj2 (Nat.ltb_ge (length v) 8)) by done. unfold next_index. rewrite N.mod_small by lia.
  rewrite IH; [|by eapply sorted_tail|lia|lia|done| |].
  - destruct (expected + 1 =? last + 1) eqn:E1, (expected =? last + 1) eqn:E2; boolify; try lia; do 2 f_equal; lia.
  - intros p Hp. destruct (Hkeys p) as (j & Hj & Hk & Hl'); [by right|]. exists j. split; [|done].
    pose proof (sorted_head _ _ Hs) as Hh. rewrite Forall_forall in Hh. specialize (Hh _ Hp).
    unfold key_before, bytes_lt in Hh. rewrite Hk in Hh. cbn in Hh. rewrite log_key_ltb in Hh by (unfold u64; lia || done).
    boolify. lia.
  - intros j Hj. destruct (Hall j) as [w Hw]; [lia|]. apply elem_of_cons in Hw as [Heq|Hw]; [|by exists w].
    apply (f_equal fst) in Heq. apply log_key_inj in Heq; [lia|unfold u64; lia|done].
Qed.

Lemma read_meta d snap last : ldb_fine d -> disk_wf (ldb_rows d) snap last ->
  read_snapshot_meta d = Ok (if has_snapshot snap then Some snap else None).
Proof.
  intros Hf Hw. unfold read_snapshot_meta. rewrite ldb_get_law, (dw_meta _ _ _ Hw) by done.
  pose proof (dw_snap_values _ _ _ Hw) as Hval. destruct (has_snapshot snap) eqn:Eh; [|done].
  assert (Hui : u64 (last_included_index snap)).
  { pose proof (dw_snap _ _ _ Hw). pose proof (dw_last _ _ _ Hw). unfold u64 in *. lia. }
  unfold put_snapshot_meta, decode_u64. rewrite length_app, !length_be_put. cbn.
  assert (H8 : length (be_put 8 (last_included_index snap)) = 8%nat) by apply length_be_put.
  rewrite drop_0, (take_app_le (be_put 8 (last_included_index snap))), take_ge, be_get_put by (done || lia).
  rewrite (drop_app_ge (be_put 8 (last_included_index snap))), H8 by lia. cbn [Nat.sub].
  rewrite drop_0, (take_ge (be_put 8 _)) by (by rewrite length_be_put).
  pose proof (dw_snap_term _ _ _ Hw) as Hut. rewrite (be_get_put 8 _ Hut).
  unfold has_snapshot in Eh. apply negb_true_iff in Eh. rewrite Eh. cbn.
  destruct (last_included_term snap =? 0) eqn:E; boolify; [done|]. by destruct snap.
Qed.

Lemma rows_split k (m : omap ByteValue) : sorted m ->
  m = filter (fun p => bytes_ltb p.1 k = true) m ++ filter (fun p => negb (bytes_ltb p.1 k) = true) m.
Proof. intros Hm. rewrite <- take_lower_bound, <- drop_lower_bound by done. by rewrite take_drop. Qed.

(** The keys an interrupted compaction left. *)
Definition stale_rows (rows : omap ByteValue) (snap : SnapshotMetadata) : omap ByteValue :=
  filter (fun p => bytes_ltb p.1 (log_key (last_included_index snap + 1)) = true)
    (filter (fun p => is_log_key p.1 = true) (filter (fun p => negb (bytes_ltb p.1 (log_key 1)) = true) rows)).

Lemma elem_stale rows snap k v : sorted rows -> (k, v) ∈ stale_rows rows snap <->
  mfind k rows = Some v /\ is_log_key k = true /\ bytes_ltb k (log_key 1) = false /\
  bytes_ltb k (log_key (last_included_index snap + 1)) = true.
Proof.
  intros Hs. unfold stale_rows. rewrite !list_elem_of_filter, (find_elem k v rows Hs), negb_true_iff. cbn. tauto.
Qed.

Lemma open_scan_disk d snap last : ldb_fine d -> disk_wf (ldb_rows d) snap last -> last + 1 < two64 ->
  open_scan (last_included_index snap + 1) (last_included_index snap + 1) 0
    (lc_while (ldb_turns d) is_log_key (lc_seek (log_key 1) (ldb_new_iterator None d))) =
  Ok (if last_included_index snap =? last then 0 else last, map (fun p => LDelete p.1) (stale_rows (ldb_rows d) snap)).
Proof.
  intros Hf Hw Hmax. pose proof (ldb_sorted d Hf) as Hs. pose proof (dw_snap _ _ _ Hw) as Hsn.
  rewrite (walk_rows d snap last) by (done || intros; apply log_key_is).
  set (m := filter (fun p => is_log_key p.1 = true) _).
  assert (Hm : sorted m) by (apply (sorted_filter (fun p => is_log_key p.1)), (sorted_filter (fun p => negb (bytes_ltb p.1 _))), Hs).
  set (start := last_included_index snap + 1). rewrite (rows_split (log_key start) m Hm).
  rewrite open_scan_stale.
  - rewrite (open_scan_run _ _ _ last); [|apply (sorted_filter (fun p => negb (bytes_ltb p.1 _))), Hm|lia|unfold start; lia|done| |].
    + cbn [result_bind]. rewrite app_nil_r. destruct (start =? last + 1) eqn:E1, (last_included_index snap =? last) eqn:E2; unfold start in *; boolify; done || lia.
    + intros [k v] Hp. unfold m in Hp. rewrite !list_elem_of_filter in Hp. destruct Hp as (Hge & Hk & Hge1 & Hin). cbn in *.
      apply find_elem in Hin; [|done]. destruct (log_key_inv k Hk) as (i & Hi & ->).
      apply negb_true_iff in Hge. rewrite log_key_ltb in Hge by (unfold start, u64 in *; (done || lia)). boolify.
      exists i. split_and!; [lia| |done|by destruct (dw_entry _ _ _ Hw i v Hi Hin)].
      destruct (N.le_gt_cases i last); [done|]. by rewrite (dw_none _ _ _ Hw) in Hin.
    + intros i Hi. destruct (dw_some _ _ _ Hw i) as [v Hv]; [unfold start in *; lia|]. exists v. unfold m.
      assert (Hu : u64 i) by (unfold u64 in *; lia). apply find_elem in Hv; [|done].
      rewrite !list_elem_of_filter, !negb_true_iff. cbn. rewrite !log_key_ltb by (unfold start, u64 in *; lia || done).
      rewrite log_key_is. split_and!; [apply N.ltb_ge|done|apply N.ltb_ge|done]; unfold start in *; lia.
  - apply Forall_forall. intros [k v] Hp. unfold m in Hp. rewrite !list_elem_of_filter in Hp. destruct Hp as (Hlt & Hk & _). cbn in *.
    destruct (log_key_inv k Hk) as (i & Hi & ->). exists i. rewrite log_key_ltb in Hlt by (unfold start, u64 in *; lia || done).
    boolify. done.
Qed.

(** Deleting the stale keys compacts the log and shows nowhere else. *)
Lemma stale_deleted rows snap last : sorted rows -> disk_wf rows snap last -> last + 1 < two64 ->
  mfind (log_key 0) rows = None ->
  let rows' := apply_lops (map (fun p => LDelete p.1) (stale_rows rows snap)) rows in
  disk_wf rows' snap last /\ compacted rows' snap /\ view_eq (disk_view rows' snap last) (disk_view rows snap last) /\
  stored_hard rows' = stored_hard rows.
Proof.
  intros Hs Hw Hmax Hz rows'. pose proof (dw_snap _ _ _ Hw) as Hsn.
  assert (Hother : forall k, is_log_key k = false -> mfind k rows' = mfind k rows).
  { intros k Hk. unfold rows'. rewrite <- (map_map fst LDelete), find_deletes by done.
    rewrite bool_decide_eq_false_2; [done|]. intros ([k' v] & -> & Hp)%list_elem_of_fmap.
    apply elem_stale in Hp; [|done]. destruct Hp as (_ & Hl & _). cbn in Hk. by rewrite Hk in Hl. }
  assert (Hlog : forall i, u64 i -> mfind (log_key i) rows' = if i <=? last_included_index snap then None else mfind (log_key i) rows).
  { intros i Hi. unfold rows'. rewrite <- (map_map fst LDelete), find_deletes by done.
    assert (Hiff : forall v, (log_key i, v) ∈ stale_rows rows snap <->
      mfind (log_key i) rows = Some v /\ 1 <= i /\ i <= last_included_index snap).
    { intros v. rewrite elem_stale by done. rewrite log_key_is, !log_key_ltb by (unfold u64 in *; lia || done).
      rewrite N.ltb_lt, N.ltb_ge. split; [intros (? & _ & ? & ?)|intros (? & ? & ?)]; split_and!; (done || lia). }
    case_bool_decide as Hin.
    - apply list_elem_of_fmap in Hin as ([k v] & Hk & Hp). cbn in Hk. subst k. apply Hiff in Hp as (_ & _ & Hle).
      by rewrite (proj2 (N.leb_le _ _) Hle).
    - destruct (i <=? last_included_index snap) eqn:E; boolify; [|done].
      destruct (decide (i = 0)) as [->|]; [done|]. destruct (mfind (log_key i) rows) as [v|] eqn:Ef; [|done].
      exfalso. apply Hin, list_elem_of_fmap. exists (log_key i, v). split; [done|]. apply Hiff. split_and!; [done|lia|done]. }
  split_and!.
  - split; [|apply Hw|apply Hw|apply Hw|apply Hw| | | |].
    + intros k v. unfold rows'. rewrite <- (map_map fst LDelete), find_deletes by done. case_bool_decide; [done|]. apply Hw.
    + rewrite Hother by done. apply Hw.
    + intros i Hi. rewrite Hlog by (unfold u64; lia). destruct (i <=? _) eqn:E; boolify; [lia|]. by apply Hw.
    + intros i Hu Hi. rewrite Hlog by done. destruct (i <=? _); [done|]. by apply Hw.
    + intros i v Hu. rewrite Hlog by done. destruct (i <=? _); [done|]. by apply Hw.
  - intros i Hu Hi. rewrite Hlog by done. by rewrite (proj2 (N.leb_le _ _) Hi).
  - split; cbn; [|done|done|].
    + unfold hard_state_of, stored_hard. by rewrite Hother.
    + intros i. unfold entry_at. destruct (_ <? i) eqn:E1, (i <=? last) eqn:E2; cbn [andb]; try done. boolify.
      rewrite Hlog by (unfold u64; lia). by destruct (i <=? _) eqn:E; boolify; [lia|].
  - unfold stored_hard. by rewrite Hother.
Qed.

Lemma ll_open_disk d snap last s' r : ldb_fine d -> disk_wf (ldb_rows d) snap last -> last + 1 < two64 ->
  mfind (log_key 0) (ldb_rows d) = None -> ll_open (Ok d) new_level_log = (s', r) ->
  match r with
  | Ok _ => ll_wf s' /\ view_eq (ll_view s') (disk_view (ldb_rows d) snap last) /\
      forall s, ll_db s = Some d -> ll_load_hard_state s' = ll_load_hard_state s
  | Err e => stale_rows (ldb_rows d) snap <> [] /\ exists st, l_ok st = false /\ e = leveldb_error st
  end.
Proof.
  intros Hf Hw Hmax Hz. unfold ll_open. cbn [new_level_log ll_db ll_last_index ll_snapshot_meta].
  rewrite (read_meta d snap last) by done. pose proof (dw_snap _ _ _ Hw) as Hsn.
  assert (Hdef : default no_snapshot (if has_snapshot snap then Some snap else None) = snap).
  { pose proof (dw_snap_values _ _ _ Hw). by destruct (has_snapshot snap). }
  rewrite Hdef.
  assert (Hst : (if has_snapshot snap then next_index (last_included_index snap) else 1) = last_included_index snap + 1).
  { pose proof (dw_snap_values _ _ _ Hw) as Hv. destruct (has_snapshot snap); [unfold next_index; by rewrite N.mod_small by lia|].
    by rewrite Hv. }
  rewrite Hst. unfold kInvalidIndex. rewrite (open_scan_disk d snap last) by done. rewrite walk_status by done. cbn [negb l_ok].
  assert (Hlast : N.max (if last_included_index snap =? last then 0 else last) (last_included_index snap) = last).
  { destruct (last_included_index snap =? last) eqn:E; boolify; lia. }
  rewrite Hlast. destruct (stale_deleted _ _ _ (ldb_sorted d Hf) Hw Hmax Hz) as (Hw' & Hc' & Hv' & Hh').
  destruct (stale_rows (ldb_rows d) snap) as [|p l] eqn:Estale.
  - intros [= <- <-]. split_and!; [|done|intros s Hd; by rewrite !(ll_load_stored _ d)].
    unfold ll_wf, ll_rows. cbn. split_and!; [by exists d|done|done].
  - cbn [map]. destruct (ldb_write true _ d) as [d' st] eqn:Ew. destruct (ldb_write_law _ _ _ _ _ Hf Ew) as [Hf' Hr'].
    destruct (l_ok st) eqn:El; intros [= <- <-]; [|split; [done|by exists st]].
    cbn [map] in Hw', Hc', Hv', Hh'. split_and!.
    + unfold ll_wf, ll_rows. cbn. rewrite Hr'. split_and!; [by exists d'|done|done].
    + unfold ll_view, ll_rows. cbn. by rewrite Hr'.
    + intros s Hd. rewrite (ll_load_stored s d), (ll_load_stored _ d') by done. by rewrite Hr'.
Qed.
End Refine.

(** C22: the log on disk is a log. On a well-formed store over a database that
    keeps the documented laws, each operation with 64-bit arguments (and, for the
    snapshot boundary, one that does not lie below the present one) succeeds with
    exactly the effect of the abstract log (appending one entry, cutting a
    suffix, moving the boundary up) or fails and leaves the log as it was, the
    store stays well formed, and [load_hard_state] answers as before. A hard state
    with a vote that was saved is what [load_hard_state] then returns; one
    without a vote is written in a form [load_hard_state] refuses. [at], the last
    index and the boundary are read as the log has them. *)
Theorem level_log_refines {D P C} `{LevelDBLaws D P C} (s s' : LevelDBLogStore D) r e from h m i :
  ll_wf s ->
  (u64 (e_term e) -> ll_append e s = (s', r) ->
   updates ll_view ll_wf (e_index e = lv_last (ll_view s) + 1 /\ e_term e <> 0) (view_append e) s s' r /\
   ll_load_hard_state s' = ll_load_hard_state s) /\
  (u64 from -> ll_truncate_suffix from s = (s', r) ->
   updates ll_view ll_wf (last_included_index (lv_snap (ll_view s)) < from <= lv_last (ll_view s) + 1)
     (view_truncate from) s s' r /\
   ll_load_hard_state s' = ll_load_hard_state s) /\
  (hard_state_u64 h -> ll_save_hard_state h s = (s', r) ->
   ll_wf s' /\ lv_snap (ll_view s') = lv_snap (ll_view s) /\ lv_last (ll_view s') = lv_last (ll_view s) /\
   (forall j, lv_entry (ll_view s') j = lv_entry (ll_view s) j) /\
   ll_load_hard_state s' =
     match r with
     | Ok _ => match hs_voted_for h with Some _ => Ok h | None => Err (internal "invalid raft hard state size") end
     | Err _ => ll_load_hard_state s
     end) /\
  (meta_u64 m -> last_included_index (lv_snap (ll_view s)) <= last_included_index m ->
   ll_install_snapshot m s = (s', r) ->
   updates ll_view ll_wf (last_included_index m <> 0 /\ last_included_term m <> 0) (view_install m) s s' r /\
   ll_load_hard_state s' = ll_load_hard_state s) /\
  (forall found, ll_at i s = Ok found <->
     last_included_index (lv_snap (ll_view s)) <= i <= lv_last (ll_view s) /\ i <> 0 /\
     (if i =? last_included_index (lv_snap (ll_view s))
      then found = mkLogEntry i (last_included_term (lv_snap (ll_view s))) []
      else lv_entry (ll_view s) i = Some found)) /\
  ll_get_last_index s = Ok (lv_last (ll_view s)) /\ ll_snapshot_metadata s = Ok (lv_snap (ll_view s)).
Proof.
  intros Hwf. destruct (ll_fine s Hwf) as (d & Hd & _). unfold ll_get_last_index, ll_snapshot_metadata. rewrite Hd.
  split_and!; try done; intros.
  - split; [by apply ll_append_refines|by eapply ll_append_hard].
  - split; [by apply ll_truncate_refines|by eapply ll_truncate_hard].
  - edestruct ll_save_refines as [Hu Hl]; [done..|]. destruct r; cbn in Hu; [destruct Hu as (_ & Hw & Hv)|destruct Hu as (Hw & Hv)];
      (split_and!; [done|apply Hv|apply Hv|apply Hv|exact Hl]).
  - split; [by apply ll_install_refines|by eapply ll_install_hard].
  - rewrite ll_at_refines by done. cbn [ll_view disk_view lv_snap lv_last lv_entry].
    destruct (i =? 0) eqn:E0; cbn [orb]; [boolify; naive_solver lia|].
    destruct (ll_last_index s <? i) eqn:E1; [boolify; naive_solver lia|].
    destruct (i <? _) eqn:E2; [boolify; naive_solver lia|]. boolify.
    destruct (i =? last_included_index (ll_snapshot_meta s)) eqn:E3; boolify.
    + split; [intros [= <-]|intros (_ & _ & ->)]; [split_and!; (done || lia)|done].
    + destruct (_ && _) eqn:E4; [|split; [done|naive_solver]].
      destruct (entry_at (ll_rows s) i) as [x|]; [|split; [done|naive_solver]].
      split; [intros [= <-]; split_and!; (done || lia)|intros (_ & _ & [= ->]); done].
Qed.

(** An empty log, and the log after three appends. *)
Definition empty_log : LevelDBLogStore MemDb := mkLevelLog (Some (mkMemDb [] false)) 0 no_snapshot.
Definition demo_log : LevelDBLogStore MemDb :=
  (ll_append (mkLogEntry 3 2 [x0c]) (ll_append (mkLogEntry 2 1 []) (ll_append (mkLogEntry 1 1 [x0a; x0b]) empty_log).1).1).1.

Lemma empty_log_wf : ll_wf empty_log.
Proof.
  split; [eexists; split; [reflexivity|apply sorted_nil]|]. split; [|done]. split; try done. intros i Hi. cbn in Hi. lia.
Qed.

Lemma append_wf (e : LogEntry) (s : LevelDBLogStore MemDb) : u64 (e_term e) -> ll_wf s -> ll_wf (ll_append e s).1.
Proof.
  intros He Hs. destruct (ll_append e s) as [s' r] eqn:Ea. pose proof (ll_append_refines e s s' r Hs He Ea) as Hu.
  by eapply updates_wf.
Qed.

Lemma demo_log_wf : ll_wf demo_log.
Proof. unfold demo_log. repeat (apply append_wf; [reflexivity|]). apply empty_log_wf. Qed.

Lemma level_log_refines_witness :
  let r := ll_truncate_suffix 3 demo_log in
  r.2 = Ok () /\ lv_last (ll_view r.1) = 2 /\ lv_entry (ll_view r.1) 1 = Some (mkLogEntry 1 1 [x0a; x0b]).
Proof.
  cbv zeta. split; [vm_compute; reflexivity|].
  destruct (level_log_refines demo_log (ll_truncate_suffix 3 demo_log).1 (Ok ()) (mkLogEntry 1 1 []) 3
    (mkHardState 0 None) no_snapshot 0 demo_log_wf) as (_ & Ht & _).
  destruct (Ht eq_refl) as ((_ & _ & Hv) & _); [vm_compute; reflexivity|].
  rewrite (ve_last _ _ Hv), (ve_entry _ _ Hv). split; vm_compute; reflexivity.
Defined.

(** C23: the log survives a restart. Opening the database of a well-formed log
    (without an entry 0, its last index below the largest 64-bit number) after a
    crash, even one in the middle of a compaction that left entries below the
    snapshot boundary, gives back the same entries, boundary and last index and
    a well-formed store whose [load_hard_state] answers as it did on the database
    before (with the hard state saved, or, for one without a vote, with the same
    refusal); it can fail only because the leftovers exist and deleting them is
    refused by the database. *)
Theorem level_log_recovers {D P C} `{LevelDBLaws D P C} d snap last (s' : LevelDBLogStore D) r :
  ldb_fine d -> disk_wf (ldb_rows d) snap last -> last + 1 < two64 ->
  mfind (log_key 0) (ldb_rows d) = None -> ll_open (Ok d) new_level_log = (s', r) ->
  match r with
  | Ok _ => ll_wf s' /\ view_eq (ll_view s') (disk_view (ldb_rows d) snap last) /\
      forall s, ll_db s = Some d -> ll_load_hard_state s' = ll_load_hard_state s
  | Err e => stale_rows (ldb_rows d) snap <> [] /\ exists st, l_ok st = false /\ e = leveldb_error st
  end.
Proof. apply ll_open_disk. Qed.

Lemma level_log_recovers_witness :
  let d := default (mkMemDb [] false) (ll_db demo_log) in
  let r := ll_open (Ok d) new_level_log in
  r.2 = Ok () /\ lv_last (ll_view r.1) = 3 /\ lv_entry (ll_view r.1) 3 = Some (mkLogEntry 3 2 [x0c]).
Proof.
  cbv zeta. split; [vm_compute; reflexivity|]. destruct demo_log_wf as ((d & Hd & Hf) & Hw & Hc).
  assert (Hrows : ll_rows demo_log = ldb_rows d) by (unfold ll_rows; by rewrite Hd).
  rewrite Hrows in Hw, Hc. pose proof (level_log_recovers d (ll_snapshot_meta demo_log) (ll_last_index demo_log)
    (ll_open (Ok d) new_level_log).1 (Ok ()) Hf Hw) as Hr.
  destruct Hr as (_ & Hv & _); [vm_compute; reflexivity|apply Hc; [reflexivity|apply N.le_0_l]| |].
  - assert (Hok : (ll_open (Ok (default (mkMemDb [] false) (ll_db demo_log))) new_level_log).2 = Ok ()) by (vm_compute; reflexivity).
    rewrite Hd in Hok. cbn [default] in Hok. rewrite (surjective_pairing (ll_open (Ok d) new_level_log)) at 1. f_equal. exact Hok.
  - rewrite Hd. cbn [default id]. rewrite (ve_last _ _ Hv), (ve_entry _ _ Hv), <- Hrows. split; vm_compute; reflexivity.
Defined.

(** A hard state saved without a vote cannot be loaded: [save_hard_state] writes
    9 bytes for it, [load_hard_state] insists on 17. *)
Theorem voteless_hard_state_unreadable {D P C} `{LevelDBLaws D P C} (s s' : LevelDBLogStore D) term :
  ll_wf s -> u64 term -> ll_save_hard_state (mkHardState term None) s = (s', Ok ()) ->
  ll_load_hard_state s' = Err (internal "invalid raft hard state size").
Proof. intros Hwf Ht Hs. by destruct (ll_save_refines _ _ _ _ Hwf (conj Ht Logic.I : hard_state_u64 (mkHardState term None)) Hs) as [_ ->]. Qed.

(** ** The table of request results on disk *)

Section Results.
Context {D P C : Type} `{LevelDBLaws D P C}.

(** Every record under a client key has its request id. *)
Definition results_wf (d : D) : Prop :=
  ldb_fine d /\ forall c v, u64 c -> mfind (client_key c) (ldb_rows d) = Some v -> (8 <= length v)%nat.

Definition lr_latest (d : D) (c : N) : option (N * bytes) :=
  (fun v => (be_get (take 8 v), drop 8 v)) <$> mfind (client_key c) (ldb_rows d).

Lemma client_key_inj a b : u64 a -> u64 b -> client_key a = client_key b -> a = b.
Proof.
  intros Ha Hb Heq. unfold client_key in Heq. apply app_inv_head in Heq.
  rewrite <- (be_get_put 8 a Ha), <- (be_get_put 8 b Hb). by f_equal.
Qed.

(** [find] and [save] are those of the in-memory table. *)
Lemma lr_find_latest d c q : results_wf d -> u64 c -> lr_find c q (Some d) = find_latest (lr_latest d c) q.
Proof.
  intros [Hf Hv] Hc. unfold lr_find, lr_latest. rewrite ldb_get_law by done.
  destruct (mfind (client_key c) (ldb_rows d)) as [v|] eqn:E; [|done]. cbn [fmap option_fmap option_map find_latest].
  by rewrite (proj2 (Nat.ltb_ge (length v) 8) (Hv c v Hc E)).
Qed.

Lemma lr_save_latest d c q res db' : results_wf d -> u64 c -> u64 q -> lr_save c q res (Some d) = (db', Ok ()) ->
  exists d', db' = Some d' /\ results_wf d' /\
  forall c', u64 c' -> lr_latest d' c' = if c' =? c then Some (q, res) else lr_latest d c'.
Proof.
  intros [Hf Hv] Hc Hq. unfold lr_save. destruct (ldb_put true _ _ d) as [d' st] eqn:Ep.
  destruct (ldb_put_law _ _ _ _ _ _ Hf Ep) as [Hf' Hr']. destruct (l_ok st); [|done]. intros [= <-]. exists d'.
  pose proof (ldb_sorted d Hf) as Hs. destruct (put_term_entry 0 q res Hq) as (Hl & Hg & Hdr & _).
  assert (Hfind : forall c', u64 c' -> mfind (client_key c') (ldb_rows d') =
    if c' =? c then Some (be_put 8 q ++ res) else mfind (client_key c') (ldb_rows d)).
  { intros c' Hc'. rewrite Hr', find_put by done. destruct (c' =? c) eqn:E; boolify; [subst; by rewrite bool_decide_eq_true_2|].
    rewrite bool_decide_eq_false_2; [done|]. intros Heq. by apply E, client_key_inj. }
  split; [done|]. split; [split; [done|]|].
  - intros c' v Hc'. rewrite Hfind by done. destruct (c' =? c); [by intros [= <-]|by apply Hv].
  - intros c' Hc'. unfold lr_latest. rewrite Hfind by done. destruct (c' =? c); [cbn; by rewrite Hg, Hdr|done].
Qed.
End Results.
