(* ===== verification/RaftKv.v ===== *)
(** * The replicated store under SQL: [raft/raft_kv_store.{h,cpp}],
      [raft/raft_executor.h]

    [RaftKVStore] routes keys to raft groups and keeps one write slot per
    group; [RaftKVEngine] is a connection: its writes are buffered and proposed
    to the owning group as one batch, its reads are served by the local replica
    after a read barrier. The local engine and the raft executors are
    interfaces of the code and classes here ([LocalKv], [RaftExecutors]); both
    act on the world [W], which holds the local engine of the connection, the
    applied data and the raft groups. A call of the code that may throw, or
    that would read an empty optional, answers [None]. *)

From stdpp Require Import gmap.
From S2P Require Import Prelude Bytes OMap KvTypes TxBuffer MockStore MergingIterator MockEngine Wire RaftTypes ProposalPayload GroupRouter.
Local Open Scope N_scope.

(** The local [kv::KVStore] and its [kv::KVEngine] as the adapter uses them;
    [lk_connect] gives the connection its local engine. *)
Class LocalKv (W J : Type) := {
  lk_is_open : W -> bool;
  lk_open : DatabaseOptions -> W -> W * Status;
  lk_close : W -> W * Status;
  lk_connect : W -> option W;
  lk_in_transaction : W -> bool;
  lk_has_snapshot : W -> bool;
  lk_begin : W -> W * Status;
  lk_rollback : W -> W * Status;
  lk_new_iterator : KeyRange -> W -> W * option J }.

(** [class RaftExecutor], the one of a group given by its id: [propose] and the
    wait for the proposal within its budget, [read_barrier] and its wait. *)
Class RaftExecutors (W T R : Type) := {
  ex_propose : N -> bytes -> W -> W * result Error T;
  ex_proposal_wait : N -> T -> W -> W * result Error unit;
  ex_read_barrier : N -> W -> W * result Error R;
  ex_read_wait : N -> R -> W -> W * result Error unit;
  ex_node_id : N -> W -> N;
  ex_leader_hint : N -> W -> option N }.

Definition error_to_status (e : Error) : Status :=
  match code e with
  | EcNotLeader => StNotLeader
  | EcBusy => StBusy
  | EcInvalidArgument => StInvalidArgument
  | EcTimeout => StTimeout
  | EcIOError => StIOError
  | EcInternalError => StInternalError
  end.

(** ** [class RaftKVStore] *)

Record WriteSlot := mkWriteSlot { held : bool; slot_owner : option nat }.

(** [executors_] is the set of the groups that have an executor. *)
Record RaftKVStore := mkRaftStore {
  executors_ : gset N; router_ : GroupRouter; client_endpoints_ : gmap N bytes;
  write_slots_ : gmap N WriteSlot }.

Definition with_slots (slots : gmap N WriteSlot) (s : RaftKVStore) : RaftKVStore :=
  mkRaftStore (executors_ s) (router_ s) (client_endpoints_ s) slots.

Definition free_slot : WriteSlot := mkWriteSlot false None.

Definition rks_write_slot_held (s : RaftKVStore) : bool :=
  existsb (fun p => held p.2) (map_to_list (write_slots_ s)).

(** [write_slots_[group]] makes a free slot when there is none. *)
Definition rks_acquire_write_slot (group : N) (owner : nat) (s : RaftKVStore) : RaftKVStore * bool :=
  if held (default free_slot (write_slots_ s !! group)) then (s, false)
  else (with_slots (<[group := mkWriteSlot true (Some owner)]> (write_slots_ s)) s, true).

Definition rks_release_write_slot (group : N) (owner : nat) (s : RaftKVStore) : RaftKVStore :=
  match write_slots_ s !! group with
  | Some slot => if bool_decide (slot_owner slot <> Some owner) then s
                 else with_slots (<[group := free_slot]> (write_slots_ s)) s
  | None => s
  end.

(** The raw write path of the store is closed: writes go through connections. *)
Definition rks_write_batch (b : WriteBatch) (s : RaftKVStore) : Status := StNotSupported.

Record KvLeaderHint := mkKvLeaderHint { hint_node : N; hint_endpoint : bytes }.

(** ** [class RaftKVEngine] *)

Record RaftKVEngine := mkRaftEngine {
  self_ : nat; last_error_ : Status; client_id_ : N; next_request_id_ : N; rtx_ : option TxBuffer;
  rslot_ : bool; write_group_ : option N; bound_group_ : option N; crossed_groups_ : bool; wrote_ : bool;
  loose_ : bool; proven_ : gset N; cross_from_ : option N; cross_to_ : option N }.

(** The constructor: [self] is the address of the connection. *)
Definition new_raft_engine (self : nat) (client_id : N) : RaftKVEngine :=
  mkRaftEngine self StOK client_id 1 None false None None false false false ∅ None None.

Definition with_last_error (st : Status) (e : RaftKVEngine) : RaftKVEngine :=
  mkRaftEngine (self_ e) st (client_id_ e) (next_request_id_ e) (rtx_ e) (rslot_ e) (write_group_ e)
    (bound_group_ e) (crossed_groups_ e) (wrote_ e) (loose_ e) (proven_ e) (cross_from_ e) (cross_to_ e).
Definition with_rtx (t : option TxBuffer) (e : RaftKVEngine) : RaftKVEngine :=
  mkRaftEngine (self_ e) (last_error_ e) (client_id_ e) (next_request_id_ e) t (rslot_ e) (write_group_ e)
    (bound_group_ e) (crossed_groups_ e) (wrote_ e) (loose_ e) (proven_ e) (cross_from_ e) (cross_to_ e).
Definition with_rslot (flag : bool) (group : option N) (e : RaftKVEngine) : RaftKVEngine :=
  mkRaftEngine (self_ e) (last_error_ e) (client_id_ e) (next_request_id_ e) (rtx_ e) flag group
    (bound_group_ e) (crossed_groups_ e) (wrote_ e) (loose_ e) (proven_ e) (cross_from_ e) (cross_to_ e).
Definition with_bound (bound : option N) (crossed wrote : bool) (e : RaftKVEngine) : RaftKVEngine :=
  mkRaftEngine (self_ e) (last_error_ e) (client_id_ e) (next_request_id_ e) (rtx_ e) (rslot_ e) (write_group_ e)
    bound crossed wrote (loose_ e) (proven_ e) (cross_from_ e) (cross_to_ e).
Definition with_loose (loose : bool) (e : RaftKVEngine) : RaftKVEngine :=
  mkRaftEngine (self_ e) (last_error_ e) (client_id_ e) (next_request_id_ e) (rtx_ e) (rslot_ e) (write_group_ e)
    (bound_group_ e) (crossed_groups_ e) (wrote_ e) loose (proven_ e) (cross_from_ e) (cross_to_ e).
Definition with_proven (proven : gset N) (e : RaftKVEngine) : RaftKVEngine :=
  mkRaftEngine (self_ e) (last_error_ e) (client_id_ e) (next_request_id_ e) (rtx_ e) (rslot_ e) (write_group_ e)
    (bound_group_ e) (crossed_groups_ e) (wrote_ e) (loose_ e) proven (cross_from_ e) (cross_to_ e).
Definition with_cross (from to : N) (e : RaftKVEngine) : RaftKVEngine :=
  mkRaftEngine (self_ e) (last_error_ e) (client_id_ e) (next_request_id_ e) (rtx_ e) (rslot_ e) (write_group_ e)
    (bound_group_ e) (crossed_groups_ e) (wrote_ e) (loose_ e) (proven_ e) (Some from) (Some to).
(** [next_request_id_++] *)
Definition with_next_request (e : RaftKVEngine) : RaftKVEngine :=
  mkRaftEngine (self_ e) (last_error_ e) (client_id_ e) ((next_request_id_ e + 1) mod two64) (rtx_ e) (rslot_ e)
    (write_group_ e) (bound_group_ e) (crossed_groups_ e) (wrote_ e) (loose_ e) (proven_ e) (cross_from_ e) (cross_to_ e).

Definition in_tx (e : RaftKVEngine) : bool := match rtx_ e with Some _ => true | None => false end.

Definition last_cross_group_info (e : RaftKVEngine) : option (N * N) :=
  match cross_from_ e, cross_to_ e with Some from, Some to => Some (from, to) | _, _ => None end.

(** A batch of operations as writes of the transaction buffer, and the groups of
    the keys that are not metadata, ascending without duplicates ([std::set]). *)
Fixpoint set_insert (g : N) (l : list N) : list N :=
  match l with
  | [] => [g]
  | x :: rest => if g <? x then g :: l else if x <? g then x :: set_insert g rest else l
  end.
Definition groups_of (rt : GroupRouter) (keys : list Key) : list N :=
  fold_left (fun l key => if is_system_key key then l else set_insert (group_for key rt) l) keys [].

(** What a batch of operations is routed to: a group, a mismatch of two groups,
    or a range that spans groups. *)
Inductive Routed := RoutedTo (group : N) | Mismatch (from to : N) | SpansGroups | NothingToRoute.

Fixpoint route_ops (rt : GroupRouter) (group : option N) (l : list Op) : Routed :=
  match l with
  | [] => match group with Some g => RoutedTo g | None => NothingToRoute end
  | o :: rest =>
      match op_group o rt with
      | None => SpansGroups
      | Some g =>
          match group with
          | None => route_ops rt (Some g) rest
          | Some g' => if g' =? g then route_ops rt group rest else Mismatch g' g
          end
      end
  end.

Section Engine.
Context {W J T R : Type} `{!Iterator J, !LocalKv W J, !RaftExecutors W T R}.

(** A connection with the store it shares and the world. *)
Record RaftConn := mkRaftConn { rk_world : W; rk_store : RaftKVStore; rk_eng : RaftKVEngine }.

Definition rks_open (opts : DatabaseOptions) (w : W) : W * Status :=
  if lk_is_open w then (w, StOK) else lk_open opts w.
Definition rks_close (w : W) : W * Status := lk_close w.

(** [connect]; [self] and [client_id] are the new connection's address and id. *)
Definition rks_connect (self : nat) (client_id : N) (s : RaftKVStore) (w : W) : option RaftConn :=
  if negb (lk_is_open w) then None
  else match lk_connect w with
       | None => None
       | Some w => Some (mkRaftConn w s (new_raft_engine self client_id))
       end.

(** Methods: the state afterwards and an answer, [None] for an exception. *)
Definition RM (A : Type) : Type := RaftConn -> RaftConn * option A.

#[global] Instance RM_ret : MRet RM := fun A a c => (c, Some a).
#[global] Instance RM_bind : MBind RM := fun A B f m c =>
  match m c with (c', Some a) => f a c' | (c', None) => (c', None) end.

Definition throws {A} : RM A := fun c => (c, None).
Definition asks {A} (f : RaftConn -> A) : RM A := fun c => (c, Some (f c)).
Definition upd_eng (f : RaftKVEngine -> RaftKVEngine) : RM unit :=
  fun c => (mkRaftConn (rk_world c) (rk_store c) (f (rk_eng c)), Some ()).
Definition upd_store (f : RaftKVStore -> RaftKVStore) : RM unit :=
  fun c => (mkRaftConn (rk_world c) (f (rk_store c)) (rk_eng c), Some ()).
Definition on_world {A} (f : W -> W * A) : RM A :=
  fun c => let '(w, a) := f (rk_world c) in (mkRaftConn w (rk_store c) (rk_eng c), Some a).

(** [return last_error_ = st]. *)
Definition report (st : Status) : RM Status := upd_eng (with_last_error st);; mret st.

(** [if (status = m; status != OK) return status; k] *)
Definition and_then {A} (m : RM Status) (leave : Status -> A) (k : RM A) : RM A :=
  st ← m; if bool_decide (st = StOK) then k else mret (leave st).

(** [executor_for] throws when the group has no executor. *)
Definition executor_for (group : N) : RM unit := fun c =>
  if bool_decide (group ∈ executors_ (rk_store c)) then (c, Some ()) else (c, None).

Definition has_fixed_snapshot (c : RaftConn) : bool := in_tx (rk_eng c) && lk_has_snapshot (rk_world c).

Definition ensure_readable (group : N) : RM Status :=
  proven ← asks (fun c => has_fixed_snapshot c && bool_decide (group ∈ proven_ (rk_eng c)));
  if proven : bool then report StOK
  else
    executor_for group;;
    read_index ← on_world (ex_read_barrier group);
    match read_index with
    | Err e => report (error_to_status e)
    | Ok ri =>
        ready ← on_world (ex_read_wait group ri);
        match ready with
        | Err e => report (error_to_status e)
        | Ok _ =>
            fixed ← asks has_fixed_snapshot;
            (if fixed : bool then upd_eng (fun e => with_proven ({[group]} ∪ proven_ e) e) else mret ());;
            report StOK
        end
    end.

Definition check_group (group : N) (is_write : bool) : RM Status :=
  e ← asks rk_eng;
  match bound_group_ e with
  | None => upd_eng (with_bound (Some group) (crossed_groups_ e) (wrote_ e));; mret StOK
  | Some bound =>
      if negb (bound =? group) then
        upd_eng (with_cross bound group);;
        if is_write then report StCrossGroupTransaction
        else if wrote_ e then report StCrossGroupTransaction
        else
          upd_eng (with_bound (Some bound) true (wrote_ e));;
          if negb (loose_ e) then report StCrossGroupTransaction else mret StOK
      else if crossed_groups_ e && is_write then report StCrossGroupTransaction
      else mret StOK
  end.

(** Data keys of a transaction take part in the binding, metadata does not. *)
Definition check_read (key : Key) (group : N) : RM Status :=
  bind ← asks (fun c => in_tx (rk_eng c) && negb (is_system_key key));
  if bind : bool then check_group group false else mret StOK.

(** ** Iterators and single reads *)

Inductive RaftIterator := RPlain (it : J) | RMerged (it : MergingIterator J).

Definition ri_valid (it : RaftIterator) : bool := match it with RPlain i => it_valid i | RMerged m => mg_valid m end.
Definition ri_key (it : RaftIterator) : Key := match it with RPlain i => it_key i | RMerged m => mg_key m end.
Definition ri_value (it : RaftIterator) : ByteValue := match it with RPlain i => it_value i | RMerged m => mg_value m end.
Definition ri_next (it : RaftIterator) : RaftIterator :=
  match it with RPlain i => RPlain (it_next i) | RMerged m => RMerged (mg_next m) end.
Definition ri_seek (key : Key) (it : RaftIterator) : RaftIterator :=
  match it with RPlain i => RPlain (it_seek key i) | RMerged m => RMerged (mg_seek key m) end.

Definition make_iterator (r : KeyRange) : RM (option RaftIterator) :=
  inner ← on_world (lk_new_iterator r);
  tx ← asks (fun c => rtx_ (rk_eng c));
  mret (match inner, tx with
        | None, _ => None
        | Some it, None => Some (RPlain it)
        | Some it, Some t => Some (RMerged (merging_iterator it (Some t) r))
        end).

Definition range_from (key : Key) : KeyRange := mkKeyRange (Some key) None 0 kForward.

Definition read_key (key : Key) : RM (result Status ByteValue) :=
  tx ← asks (fun c => rtx_ (rk_eng c));
  match (match tx with Some t => tx_lookup key t | None => OvNone end) with
  | OvTombstone => mret (Err StNotFound)
  | OvValue v => mret (Ok v)
  | OvNone =>
      it ← make_iterator (range_from key);
      match it with
      | None => st ← report StInternalError; mret (Err st)
      | Some it => if negb (ri_valid it) || negb (bytes_eqb (ri_key it) key) then mret (Err StNotFound)
                   else mret (Ok (ri_value it))
      end
  end.

Definition route (key : Key) : RM N := asks (fun c => group_for key (router_ (rk_store c))).

Definition rke_get (key : Key) : RM (result Status ByteValue) :=
  group ← route key;
  and_then (check_read key group) Err (and_then (ensure_readable group) Err (read_key key)).

Definition rke_exists (key : Key) : RM bool :=
  group ← route key;
  and_then (check_read key group) (fun _ => false)
    (and_then (ensure_readable group) (fun _ => false)
       (r ← read_key key; mret (match r with Ok _ => true | Err _ => false end))).

(** ** [get_batch] *)

Fixpoint touch_groups (groups : list N) : RM Status :=
  match groups with
  | [] => mret StOK
  | group :: rest =>
      tx ← asks (fun c => in_tx (rk_eng c));
      and_then (if tx : bool then check_group group false else mret StOK) id
        (and_then (ensure_readable group) id (touch_groups rest))
  end.

(** Phase 1: what the transaction answers itself; [None] is a miss. *)
Fixpoint overlay_answers (tx : option TxBuffer) (policy : MissingKeyPolicy) (keys : list Key)
    : option (list (option (option ByteValue))) :=
  match keys with
  | [] => Some []
  | key :: rest =>
      match (match tx with Some t => tx_lookup key t | None => OvNone end), policy with
      | OvTombstone, kReturnError => None
      | OvTombstone, kReturnEmpty => cons (Some None) <$> overlay_answers tx policy rest
      | OvValue v, _ => cons (Some (Some v)) <$> overlay_answers tx policy rest
      | OvNone, _ => cons None <$> overlay_answers tx policy rest
      end
  end.

(** Phase 2: one iterator, a seek for every miss. *)
Fixpoint fill_misses (policy : MissingKeyPolicy) (it : RaftIterator) (keys : list Key)
    (answers : list (option (option ByteValue))) : option (list (option ByteValue)) :=
  match keys, answers with
  | key :: keys, Some v :: answers => cons v <$> fill_misses policy it keys answers
  | key :: keys, None :: answers =>
      let it := ri_seek key it in
      if ri_valid it && bytes_eqb (ri_key it) key
      then cons (Some (ri_value it)) <$> fill_misses policy it keys answers
      else match policy with
           | kReturnError => None
           | kReturnEmpty => cons None <$> fill_misses policy it keys answers
           end
  | _, _ => Some []
  end.

Definition all_answered (answers : list (option (option ByteValue))) : bool :=
  forallb (fun a => match a with Some _ => true | None => false end) answers.

Definition rke_get_batch (keys : list Key) (policy : MissingKeyPolicy)
    : RM (result Status (list (option ByteValue))) :=
  groups ← asks (fun c => groups_of (router_ (rk_store c)) keys);
  e ← asks rk_eng;
  match groups, in_tx e with
  | first :: second :: _, false =>
      upd_eng (with_cross first second);; st ← report StCrossGroupTransaction; mret (Err st)
  | _, _ =>
      and_then (touch_groups groups) Err
        (tx ← asks (fun c => rtx_ (rk_eng c));
         match overlay_answers tx policy keys with
         | None => st ← report StNotFound; mret (Err st)
         | Some answers =>
             if all_answered answers then report StOK;; mret (Ok (map (default None) answers))
             else
               it ← make_iterator range_all;
               match it with
               | None => st ← report StInternalError; mret (Err st)
               | Some it =>
                   match fill_misses policy it keys answers with
                   | None => st ← report StNotFound; mret (Err st)
                   | Some values => report StOK;; mret (Ok values)
                   end
               end
         end)
  end.

(** ** The write slot *)

Definition release_local_snapshot : RM unit :=
  tx ← asks (fun c => lk_in_transaction (rk_world c));
  if tx : bool then on_world lk_rollback;; mret () else mret ().

Definition rke_release_write_slot : RM unit :=
  e ← asks rk_eng;
  if negb (rslot_ e) then mret ()
  else match write_group_ e with
       | None => throws
       | Some group => upd_store (rks_release_write_slot group (self_ e));; upd_eng (with_rslot false None)
       end.

(** The slot of the group in the store, and the fields that remember it. *)
Definition take_slot (group : N) : RM bool :=
  e ← asks rk_eng;
  s ← asks rk_store;
  let '(s, taken) := rks_acquire_write_slot group (self_ e) s in
  upd_store (fun _ => s);;
  (if taken : bool then upd_eng (with_rslot true (Some group)) else mret ());;
  mret taken.

Definition acquire_write_slot_for (group : N) : RM Status :=
  e ← asks rk_eng;
  if rslot_ e then mret StOK
  else
    taken ← take_slot group;
    if negb taken then report StBusy
    else
      snapshot ← asks (fun c => lk_has_snapshot (rk_world c));
      (if snapshot : bool then release_local_snapshot else mret ());;
      mret StOK.

Definition rke_acquire_write_slot (group : option N) : RM Status :=
  match group with
  | Some group => acquire_write_slot_for group
  | None =>
      e ← asks rk_eng;
      if rslot_ e then mret StOK else acquire_write_slot_for (default 0 (bound_group_ e))
  end.

(** ** Proposals and writes *)

Definition propose_batch (group : N) (batch : WriteBatch) : RM Status :=
  e ← asks rk_eng;
  if rslot_ e && match write_group_ e with Some g => negb (g =? group) | None => false end
  then report StCrossGroupTransaction
  else
    taken ← (if negb (rslot_ e) then take_slot group else mret true);
    if negb taken then report StBusy
    else
      fixed ← asks has_fixed_snapshot;
      (if fixed : bool then release_local_snapshot else mret ());;
      let payload := mkProposalPayload (client_id_ e) (next_request_id_ e) batch in
      upd_eng with_next_request;;
      executor_for group;;
      let leave st := (if in_tx e then mret () else rke_release_write_slot);; report st in
      proposal ← on_world (ex_propose group (encode_proposal_payload payload));
      match proposal with
      | Err error => leave (error_to_status error)
      | Ok ticket =>
          committed ← on_world (ex_proposal_wait group ticket);
          match committed with
          | Err error => leave (error_to_status error)
          | Ok _ => leave StOK
          end
      end.

Definition rke_write_batch (batch : WriteBatch) : RM Status :=
  opened ← asks (fun c => lk_is_open (rk_world c));
  if negb opened then mret StInternalError
  else
    routed ← asks (fun c => route_ops (router_ (rk_store c)) None (ops batch));
    match routed with
    | NothingToRoute => mret StOK
    | SpansGroups => report StCrossGroupTransaction
    | Mismatch from to => upd_eng (with_cross from to);; report StCrossGroupTransaction
    | RoutedTo group =>
        tx ← asks (fun c => rtx_ (rk_eng c));
        match tx with
        | None => propose_batch group batch
        | Some t =>
            and_then (check_group group true) id
              (and_then (acquire_write_slot_for group) id
                 (upd_eng (with_rtx (Some (fold_left tx_batch_op (ops batch) t)));;
                  upd_eng (fun e => with_bound (bound_group_ e) (crossed_groups_ e) true e);;
                  mret StOK))
        end
    end.

Definition rke_put (key : Key) (value : ByteValue) : RM Status := rke_write_batch (batch_put key value empty_batch).
Definition rke_remove (key : Key) : RM Status := rke_write_batch (batch_remove key empty_batch).

Definition rke_new_iterator (r : KeyRange) : RM (option RaftIterator) :=
  opened ← asks (fun c => lk_is_open (rk_world c));
  if negb opened then report StInternalError;; mret None
  else
    let first := default [] (start r) in
    group ← asks (fun c => range_group first (end_ r) (router_ (rk_store c)));
    match group with
    | None => report StCrossGroupTransaction;; mret None
    | Some group =>
        checked ← check_read first group;
        if negb (bool_decide (checked = StOK)) then report checked;; mret None
        else
          readable ← ensure_readable group;
          if negb (bool_decide (readable = StOK)) then report readable;; mret None
          else
            it ← make_iterator r;
            match it with None => report StInternalError;; mret None | Some it => mret (Some it) end
    end.

(** ** Transactions *)

Definition single_group (s : RaftKVStore) : bool := bool_decide (size (executors_ s) = 1%nat).

Definition rke_begin_transaction : RM Status :=
  opened ← asks (fun c => lk_is_open (rk_world c));
  if negb opened then mret StInternalError
  else
    e ← asks rk_eng;
    if in_tx e then mret StBusy
    else
      single ← asks (fun c => single_group (rk_store c));
      and_then (if single : bool then ensure_readable 0 else mret StOK) id
        (and_then (on_world lk_begin) id
           (upd_eng (with_rtx (Some empty_tx));;
            upd_eng (with_bound None false false);;
            upd_eng (with_proven (if single : bool then {[0]} else ∅));;
            mret StOK)).

Definition end_with_slot : RM Status :=
  e ← asks rk_eng;
  (if rslot_ e then rke_release_write_slot else mret ());; mret StOK.

Definition rke_commit_transaction : RM Status :=
  opened ← asks (fun c => lk_is_open (rk_world c));
  if negb opened then mret StInternalError
  else
    e ← asks rk_eng;
    match rtx_ e with
    | None => mret StNotFound
    | Some t =>
        if tx_exceeds t then mret StInvalidArgument
        else if bool_decide (log_ t = []) then
          upd_eng (with_rtx None);; release_local_snapshot;; end_with_slot
        else
          match write_group_ e with
          | None => report StInternalError
          | Some group =>
              and_then (propose_batch group (set_sync true (to_batch t))) id
                (upd_eng (with_rtx None);;
                 snapshot ← asks (fun c => lk_has_snapshot (rk_world c));
                 (if snapshot : bool then release_local_snapshot else mret ());;
                 end_with_slot)
          end
    end.

Definition rke_rollback_transaction : RM Status :=
  e ← asks rk_eng;
  match rtx_ e with
  | None => mret StNotFound
  | Some _ => upd_eng (with_rtx None);; release_local_snapshot;; end_with_slot
  end.

(** The destructor. *)
Definition rke_destroy : RM unit :=
  upd_eng (with_rtx None);;
  e ← asks rk_eng;
  if negb (rslot_ e) then mret ()
  else match write_group_ e with
       | None => throws
       | Some group => upd_store (rks_release_write_slot group (self_ e))
       end.

(** ** Redirection *)

Definition leader_hint_for_group (group : N) : RM (option KvLeaderHint) :=
  executor_for group;;
  c ← asks id;
  let w := rk_world c in
  mret (match ex_leader_hint group w with
        | None => None
        | Some leader =>
            if leader =? ex_node_id group w then None
            else Some (mkKvLeaderHint leader (default [] (client_endpoints_ (rk_store c) !! leader)))
        end).
End Engine.
Arguments RaftConn W : clear implicits.
Arguments RM W A : clear implicits.
Arguments RaftIterator J : clear implicits.
