(* ===== verification/RaftKvSpec.v ===== *)
(** * One group per transaction

    Over any local engine and any executors, with other connections and the
    groups acting between its calls, a connection proposes to a raft group only
    batches that touch no key of another group, numbers its proposals, and
    holds the write slot of the group it writes to. The connection's calls to
    [propose] are recorded by a wrapper around the executors. *)

From stdpp Require Import gmap.
From S2P Require Import Prelude Bytes OMap KvTypes TxBuffer MockStore MergingIterator MockEngine Transactions Wire RaftTypes ProposalPayload KvStateMachine GroupRouter RaftKv.
Local Open Scope N_scope.

(** ** Running methods *)

Section Wp.
Context {W : Type}.

(** The method answers, and the answer and the state after it satisfy [Q]. *)
Definition wp {A} (m : RM W A) (Q : A -> RaftConn W -> Prop) (c : RaftConn W) : Prop :=
  match m c with (c', Some a) => Q a c' | (_, None) => False end.

Lemma wp_bind {A B} (m : RM W A) (f : A -> RM W B) Q c :
  wp m (fun a => wp (f a) Q) c -> wp (m ≫= f) Q c.
Proof. unfold wp, mbind, RM_bind. by destruct (m c) as [c' [a|]]. Qed.

Lemma wp_mono {A} (m : RM W A) (Q Q' : A -> RaftConn W -> Prop) c :
  wp m Q c -> (forall a c', Q a c' -> Q' a c') -> wp m Q' c.
Proof. unfold wp. destruct (m c) as [c' [a|]]; naive_solver. Qed.

Lemma wp_and_then {A} (m : RM W Status) (leave : Status -> A) k Q c :
  wp m (fun st c' => if bool_decide (st = StOK) then wp k Q c' else Q (leave st) c') c ->
  wp (and_then m leave k) Q c.
Proof.
  intros H. apply wp_bind. eapply wp_mono; [exact H|]. intros st c'.
  by repeat case_bool_decide.
Qed.

Lemma wp_run {A} (m : RM W A) Q c c' r : wp m Q c -> m c = (c', r) -> exists a, r = Some a /\ Q a c'.
Proof. unfold wp. intros H E. rewrite E in H. destruct r as [a|]; [by exists a|done]. Qed.
End Wp.

(** ** Recording the proposals *)

Section Recorded.
Context {W J T R : Type} `{!LocalKv W J, !RaftExecutors W T R}.

Definition with_log {A} (log : list (N * bytes)) (r : W * A) : (W * list (N * bytes)) * A := ((r.1, log), r.2).

#[global] Instance Recorded_local : LocalKv (W * list (N * bytes)) J := {|
  lk_is_open w := lk_is_open w.1;
  lk_open opts w := with_log w.2 (lk_open opts w.1);
  lk_close w := with_log w.2 (lk_close w.1);
  lk_connect w := (fun w' => (w', w.2)) <$> lk_connect w.1;
  lk_in_transaction w := lk_in_transaction w.1;
  lk_has_snapshot w := lk_has_snapshot w.1;
  lk_begin w := with_log w.2 (lk_begin w.1);
  lk_rollback w := with_log w.2 (lk_rollback w.1);
  lk_new_iterator r w := with_log w.2 (lk_new_iterator r w.1) |}.

#[global] Instance Recorded_executors : RaftExecutors (W * list (N * bytes)) T R := {|
  ex_propose g data w := with_log (w.2 ++ [(g, data)]) (ex_propose g data w.1);
  ex_proposal_wait g t w := with_log w.2 (ex_proposal_wait g t w.1);
  ex_read_barrier g w := with_log w.2 (ex_read_barrier g w.1);
  ex_read_wait g r w := with_log w.2 (ex_read_wait g r w.1);
  ex_node_id g w := ex_node_id g w.1;
  ex_leader_hint g w := ex_leader_hint g w.1 |}.
End Recorded.

Section OneGroup.
Context {W J T R : Type} `{!Iterator J, !LocalKv W J, !RaftExecutors W T R}.
Abbreviation Conn := (RaftConn (W * list (N * bytes))).

(** Every group the router can answer has an executor. *)
Definition covered_groups (s : RaftKVStore) : Prop := forall key, group_for key (router_ s) ∈ executors_ s.

(** What reads leave alone. *)
Record quiet (c c' : Conn) : Prop := {
  qt_store : rk_store c' = rk_store c;
  qt_log : (rk_world c').2 = (rk_world c).2;
  qt_self : self_ (rk_eng c') = self_ (rk_eng c);
  qt_client : client_id_ (rk_eng c') = client_id_ (rk_eng c);
  qt_request : next_request_id_ (rk_eng c') = next_request_id_ (rk_eng c);
  qt_tx : rtx_ (rk_eng c') = rtx_ (rk_eng c);
  qt_slot : rslot_ (rk_eng c') = rslot_ (rk_eng c);
  qt_group : write_group_ (rk_eng c') = write_group_ (rk_eng c);
  qt_bound : forall b, bound_group_ (rk_eng c) = Some b -> bound_group_ (rk_eng c') = Some b }.

#[local] Instance quiet_preorder : PreOrder quiet.
Proof. split; [by split|]. intros a b d [] []. split; try congruence. eauto. Qed.

(** The slot of a transaction is that of the group the transaction is bound to,
    and outside a transaction none is held. *)
Definition slot_bound (c : Conn) : Prop :=
  rslot_ (rk_eng c) = true -> in_tx (rk_eng c) = true /\
  exists g, write_group_ (rk_eng c) = Some g /\ bound_group_ (rk_eng c) = Some g.

Lemma quiet_bound c c' : quiet c c' -> slot_bound c -> slot_bound c'.
Proof.
  intros Hq Hb Hs. rewrite (qt_slot _ _ Hq) in Hs. destruct (Hb Hs) as (Ht & g & Hg & Hbd). unfold in_tx.
  rewrite (qt_tx _ _ Hq), (qt_group _ _ Hq). split; [done|]. exists g. split; [done|by apply (qt_bound _ _ Hq)].
Qed.
Lemma free_bound c : rslot_ (rk_eng c) = false -> slot_bound c.
Proof. intros Hs Hs'. congruence. Qed.

(** [m] answers and is quiet, on connections whose store satisfies [P]. *)
Definition calm {A} (P : RaftKVStore -> Prop) (m : RM (W * list (N * bytes)) A) : Prop :=
  forall c, P (rk_store c) -> wp m (fun _ c' => quiet c c') c.

Lemma calm_bind {A B} P (m : RM _ A) (f : A -> RM _ B) : calm P m -> (forall a, calm P (f a)) -> calm P (m ≫= f).
Proof.
  intros Hm Hf c Hc. apply wp_bind. eapply wp_mono; [by apply Hm|]. intros a c' Hq. cbn beta.
  eapply wp_mono; [apply Hf; by rewrite (qt_store _ _ Hq)|]. intros b c'' Hq'. by transitivity c'.
Qed.
Lemma calm_ret {A} P (a : A) : calm P (mret a).
Proof. intros c _. unfold wp. cbn. reflexivity. Qed.
Lemma calm_asks {A} P (f : Conn -> A) : calm P (asks f).
Proof. intros c _. unfold wp. cbn. reflexivity. Qed.
Lemma calm_and_then {A} P m (leave : Status -> A) k : calm P m -> calm P k -> calm P (and_then m leave k).
Proof. intros Hm Hk. apply calm_bind; [done|]. intros st. case_bool_decide; [done|apply calm_ret]. Qed.
Lemma calm_report P st : calm P (report st).
Proof. intros c _. unfold wp. cbn. by split. Qed.
Lemma calm_world {A} P (f : W * list (N * bytes) -> (W * list (N * bytes)) * A) :
  (forall w, (f w).1.2 = w.2) -> calm P (on_world f).
Proof.
  intros Hf c _. unfold wp, on_world. specialize (Hf (rk_world c)). destruct (f (rk_world c)) as [w a].
  by split.
Qed.
Lemma calm_executor P g : (forall s, P s -> g ∈ executors_ s) -> calm P (executor_for g).
Proof.
  intros Hg c Hc. unfold wp, executor_for. rewrite bool_decide_eq_true_2 by by apply Hg. reflexivity.
Qed.
Lemma calm_proven P f : calm P (upd_eng (fun e => with_proven (f e) e)).
Proof. intros c _. unfold wp. cbn. by split. Qed.
Lemma calm_cross P from to : calm P (upd_eng (with_cross from to)).
Proof. intros c _. unfold wp. cbn. by split. Qed.
Create HintDb calm discriminated.
Hint Resolve calm_ret calm_asks calm_report calm_proven calm_cross : calm.

Ltac calm_step :=
  match goal with
  | |- calm _ (mbind _ _) => apply calm_bind; [|intros ?]
  | |- calm _ (and_then _ _ _) => apply calm_and_then
  | |- calm _ (on_world _) => apply calm_world; intros ?; reflexivity
  | |- calm _ (match ?x with _ => _ end) => destruct x
  | |- calm _ _ => solve [auto with calm]
  end.
Ltac calm_tac := repeat calm_step.

Lemma calm_ensure_readable P g : (forall s, P s -> g ∈ executors_ s) -> calm P (ensure_readable g).
Proof. intros Hg. unfold ensure_readable. pose proof (calm_executor P g Hg). calm_tac. Qed.
Lemma calm_check_group P g w : calm P (check_group g w).
Proof.
  intros c _. unfold wp, check_group, report, mbind, RM_bind, mret, RM_ret, asks, upd_eng.
  destruct (bound_group_ (rk_eng c)) as [b|] eqn:Eb; repeat (case_match; cbn in * ); simplify_eq; split; cbn; try done; by rewrite ?Eb.
Qed.
(** A write that passes is of the group the transaction is bound to, from now on if it was free. *)
Lemma wp_check_write g c : wp (check_group g true) (fun st c' => quiet c c' /\ (st = StOK ->
  (bound_group_ (rk_eng c) = None \/ bound_group_ (rk_eng c) = Some g) /\ bound_group_ (rk_eng c') = Some g)) c.
Proof.
  pose proof (calm_check_group (fun _ => True) g true c Logic.I) as Hq. revert Hq.
  unfold wp, check_group, report, mbind, RM_bind, mret, RM_ret, asks, upd_eng.
  destruct (bound_group_ (rk_eng c)) as [b|] eqn:Eb; cbn; [|intros Hq; split; [done|by auto]].
  destruct (b =? g) eqn:E; cbn; [|intros Hq; split; [done|done]]. boolify. subst b.
  destruct (crossed_groups_ (rk_eng c)); cbn; intros Hq; (split; [done|]); [done|]. intros _. split; [by right|done].
Qed.
Lemma calm_check_read P k g : calm P (check_read k g).
Proof. unfold check_read. pose proof (calm_check_group P g false). calm_tac. Qed.
Lemma calm_make_iterator P r : calm P (make_iterator r).
Proof. unfold make_iterator. calm_tac. Qed.
Hint Resolve calm_ensure_readable calm_check_group calm_check_read calm_make_iterator : calm.
Lemma calm_read_key P k : calm P (read_key k).
Proof. unfold read_key. calm_tac. Qed.
Hint Resolve calm_read_key : calm.
Lemma calm_snapshot P : calm P release_local_snapshot.
Proof. unfold release_local_snapshot. calm_tac. Qed.
Hint Resolve calm_snapshot : calm.

(** ** The invariant *)

(** The [i]-th proposal of a connection: numbered, and within its group. *)
Definition proposal_ok (rt : GroupRouter) (client : N) (i : nat) (g : N) (data : bytes) : Prop :=
  exists batch, data = encode_proposal_payload (mkProposalPayload client ((1 + N.of_nat i) mod two64) batch) /\
    ops batch <> [] /\ Forall (fun o => op_group o rt = Some g) (ops batch).

Record raft_inv (c : Conn) : Prop := {
  rv_flag : rslot_ (rk_eng c) = match write_group_ (rk_eng c) with Some _ => true | None => false end;
  rv_owner : forall g, write_group_ (rk_eng c) = Some g ->
    write_slots_ (rk_store c) !! g = Some (mkWriteSlot true (Some (self_ (rk_eng c))));
  rv_buffer : forall t, rtx_ (rk_eng c) = Some t -> tx_inv t;
  rv_tx : forall t o, rtx_ (rk_eng c) = Some t -> o ∈ log_ t ->
    exists g, write_group_ (rk_eng c) = Some g /\ op_group o (router_ (rk_store c)) = Some g;
  rv_next : next_request_id_ (rk_eng c) = (1 + N.of_nat (length (rk_world c).2)) mod two64;
  rv_log : forall i g data, (rk_world c).2 !! i = Some (g, data) ->
    proposal_ok (router_ (rk_store c)) (client_id_ (rk_eng c)) i g data }.

(** What a connection never changes: the routing, its identity, and the slots
    of others. *)
Record frame (c c' : Conn) : Prop := {
  fr_executors : executors_ (rk_store c') = executors_ (rk_store c);
  fr_router : router_ (rk_store c') = router_ (rk_store c);
  fr_self : self_ (rk_eng c') = self_ (rk_eng c);
  fr_client : client_id_ (rk_eng c') = client_id_ (rk_eng c);
  fr_slots : forall g o, o <> self_ (rk_eng c) -> write_slots_ (rk_store c) !! g = Some (mkWriteSlot true (Some o)) ->
    write_slots_ (rk_store c') !! g = Some (mkWriteSlot true (Some o)) }.

#[local] Instance frame_preorder : PreOrder frame.
Proof.
  split; [by split|]. intros a b d [He Hr Hs Hc Ho] [He' Hr' Hs' Hc' Ho']. split; [congruence..|].
  intros g o Hn Hg. apply Ho'; [congruence|by apply Ho].
Qed.

Lemma quiet_frame c c' : quiet c c' -> frame c c'.
Proof. intros Hq. split; rewrite ?(qt_store _ _ Hq); try done; apply Hq. Qed.

Lemma quiet_inv c c' : quiet c c' -> raft_inv c -> raft_inv c'.
Proof.
  intros [] []. split; rewrite ?qt_store0, ?qt_log0, ?qt_self0, ?qt_client0, ?qt_request0, ?qt_tx0, ?qt_slot0, ?qt_group0;
    done.
Qed.

(** The invariant holds afterwards, and the frame was kept. *)
Definition kept (c c' : Conn) : Prop := raft_inv c' /\ frame c c'.

Lemma kept_trans a b c : kept a b -> kept b c -> kept a c.
Proof. intros [_ Hab] [Hc Hbc]. split; [done|by transitivity b]. Qed.
Lemma quiet_kept c c' : raft_inv c -> quiet c c' -> kept c c'.
Proof. intros Hi Hq. split; [by eapply quiet_inv|by apply quiet_frame]. Qed.

(** As [kept], and a slot bound to the transaction stays so. *)
Definition keeps (c c' : Conn) : Prop := kept c c' /\ (slot_bound c -> slot_bound c').

Lemma keeps_trans a b c : keeps a b -> keeps b c -> keeps a c.
Proof. intros [Hab Hs] [Hbc Hs']. split; [by eapply kept_trans|auto]. Qed.
Lemma quiet_keeps c c' : raft_inv c -> quiet c c' -> keeps c c'.
Proof. intros Hi Hq. split; [by apply quiet_kept|by apply quiet_bound]. Qed.
Lemma calm_keeps {A} P (m : RM _ A) c : calm P m -> P (rk_store c) -> raft_inv c -> wp m (fun _ c' => keeps c c') c.
Proof. intros Hm Hp Hi. eapply wp_mono; [by apply Hm|]. intros a c' Hq. by apply quiet_keeps. Qed.
Lemma free_keeps c c' : kept c c' -> rslot_ (rk_eng c') = false -> keeps c c'.
Proof. intros Hk Hs. split; [done|intros _; by apply free_bound]. Qed.

(** ** The write slot *)

(** No write is buffered. *)
Definition nothing_buffered (c : Conn) : Prop := forall t, rtx_ (rk_eng c) = Some t -> log_ t = [].

Lemma free_nothing_buffered c : raft_inv c -> write_group_ (rk_eng c) = None -> nothing_buffered c.
Proof.
  intros Hi Hg t Ht. destruct (log_ t) as [|o l] eqn:El; [done|].
  destruct (rv_tx _ Hi t o Ht) as (g & Hw & _); [rewrite El; set_solver|congruence].
Qed.

Lemma wp_release c : raft_inv c -> nothing_buffered c ->
  wp rke_release_write_slot (fun _ c' => kept c c' /\ rtx_ (rk_eng c') = rtx_ (rk_eng c) /\ rslot_ (rk_eng c') = false) c.
Proof.
  intros Hi Hn. pose proof (rv_flag _ Hi) as Hf. unfold wp, rke_release_write_slot, mbind, RM_bind, asks. cbn.
  destruct (write_group_ (rk_eng c)) as [g|] eqn:Eg; rewrite Hf; cbn; [|split_and!; [by split|done|done]].
  pose proof (rv_owner _ Hi g Eg) as Ho. unfold rks_release_write_slot. rewrite Ho. cbn.
  rewrite bool_decide_eq_false_2 by naive_solver. cbn. split; [|done]. split; split; cbn; try done; try apply Hi.
  - intros t o Ht Hl. by rewrite (Hn t Ht) in Hl; apply not_elem_of_nil in Hl.
  - intros g' o Hne Hg'. destruct (decide (g' = g)) as [->|]; [congruence|]. by rewrite lookup_insert_ne.
Qed.

Lemma wp_take_slot g c : raft_inv c -> rslot_ (rk_eng c) = false ->
  wp (take_slot g) (fun taken c' => kept c c' /\ rtx_ (rk_eng c') = rtx_ (rk_eng c) /\
    write_group_ (rk_eng c') = (if taken then Some g else None) /\
    next_request_id_ (rk_eng c') = next_request_id_ (rk_eng c) /\ rk_world c' = rk_world c /\
    rslot_ (rk_eng c') = taken /\ bound_group_ (rk_eng c') = bound_group_ (rk_eng c)) c.
Proof.
  intros Hi Hs. assert (Hg : write_group_ (rk_eng c) = None).
  { pose proof (rv_flag _ Hi) as Hf. rewrite Hs in Hf. by case_match. }
  pose proof (free_nothing_buffered c Hi Hg) as Hn.
  unfold wp, take_slot, mbind, RM_bind, asks, rks_acquire_write_slot. cbn.
  destruct (held _) eqn:Eh; cbn; split_and!; try done; (split; [split; cbn; try done; try apply Hi|split; cbn; try done]).
  - intros g' [= <-]. by rewrite lookup_insert_eq.
  - intros t o Ht Hl. by rewrite (Hn t Ht) in Hl; apply not_elem_of_nil in Hl.
  - intros g' o Hne Hg'. destruct (decide (g' = g)) as [->|]; [by rewrite Hg' in Eh|]. by rewrite lookup_insert_ne.
Qed.

Lemma wp_asks {A B} (f : Conn -> A) (k : A -> RM _ B) Q c : wp (k (f c)) Q c -> wp (asks f ≫= k) Q c.
Proof. done. Qed.

(** [m] is quiet on [c], from [c0] whose invariant is kept. *)
Lemma wp_calm {A B} P (m : RM _ A) (k : A -> RM _ B) Q c :
  calm P m -> P (rk_store c) -> raft_inv c -> (forall a c', quiet c c' -> kept c c' -> wp (k a) Q c') ->
  wp (m ≫= k) Q c.
Proof.
  intros Hm Hp Hi Hk. apply wp_bind. eapply wp_mono; [by apply Hm|]. intros a c' Hq. apply Hk; [done|].
  by apply quiet_kept.
Qed.

Definition anyway : RaftKVStore -> Prop := fun _ => True.

Lemma wp_acquire g c : raft_inv c ->
  wp (acquire_write_slot_for g) (fun st c' => kept c c' /\ rtx_ (rk_eng c') = rtx_ (rk_eng c) /\
    (st = StOK -> write_group_ (rk_eng c') = if rslot_ (rk_eng c) then write_group_ (rk_eng c) else Some g) /\
    (st <> StOK -> rslot_ (rk_eng c') = false) /\
    forall b, bound_group_ (rk_eng c) = Some b -> bound_group_ (rk_eng c') = Some b) c.
Proof.
  intros Hi. unfold acquire_write_slot_for. apply wp_asks. destruct (rslot_ (rk_eng c)) eqn:Es.
  { unfold wp. cbn. split_and!; [by apply quiet_kept|done|done|done|done]. }
  apply wp_bind. eapply wp_mono; [by apply wp_take_slot|]. intros taken c1 (Hk & Ht & Hg & _ & _ & Hs1 & Hb1). cbn beta.
  destruct taken; cbn [negb].
  - apply wp_asks. apply (wp_calm anyway); [|done|apply Hk|].
    { destruct (lk_has_snapshot _); auto with calm. }
    intros _ c2 Hq Hk2. unfold wp. cbn. split_and!.
    + by eapply kept_trans.
    + by rewrite (qt_tx _ _ Hq).
    + intros _. by rewrite (qt_group _ _ Hq).
    + done.
    + intros b Hb. apply (qt_bound _ _ Hq). congruence.
  - unfold wp. cbn. split_and!; [|done|done|done|intros b Hb; cbn; by rewrite Hb1]. eapply kept_trans; [exact Hk|].
    apply quiet_kept; [apply Hk|by split].
Qed.

(** ** Proposals *)

Lemma log_snoc_ok rt client (log : list (N * bytes)) batch g :
  (forall i g data, log !! i = Some (g, data) -> proposal_ok rt client i g data) ->
  ops batch <> [] -> Forall (fun o => op_group o rt = Some g) (ops batch) ->
  forall i g' data, (log ++ [(g, encode_proposal_payload
    (mkProposalPayload client ((1 + N.of_nat (length log)) mod two64) batch))]) !! i = Some (g', data) ->
  proposal_ok rt client i g' data.
Proof.
  intros Hl Hb Hf i g' data Hi. apply lookup_app_Some in Hi as [Hi|[Hle Hi]]; [by apply Hl|].
  destruct (i - length log)%nat eqn:E; [|done]. injection Hi as <- <-.
  assert (i = length log) as -> by lia. by exists batch.
Qed.

(** The answer of a proposal: outside a transaction the slot is returned. *)
Lemma wp_leave c0 c (tx : bool) st : kept c0 c -> (tx = false -> nothing_buffered c) ->
  wp ((if tx then mret () else rke_release_write_slot);; report st)
    (fun st' c' => st' = st /\ kept c0 c' /\ rtx_ (rk_eng c') = rtx_ (rk_eng c) /\
       ((if tx then slot_bound c else True) -> slot_bound c')) c.
Proof.
  intros Hk Hn. apply wp_bind. destruct tx.
  - unfold wp. cbn. split_and!; [done| |done|done]. eapply kept_trans; [exact Hk|].
    apply quiet_kept; [apply Hk|by split].
  - eapply wp_mono; [apply wp_release; [apply Hk|by apply Hn]|]. intros [] c1 (Hk1 & Ht1 & Hs1).
    unfold wp. cbn. split_and!; [done| |done|intros _; by apply free_bound]. eapply kept_trans; [exact Hk|]. eapply kept_trans; [exact Hk1|].
    apply quiet_kept; [apply Hk1|by split].
Qed.

Lemma in_tx_false c : in_tx (rk_eng c) = false -> nothing_buffered c.
Proof. unfold in_tx, nothing_buffered. by destruct (rtx_ (rk_eng c)). Qed.

(** Once the slot of [g] is held: number, encode, send, wait. *)
Lemma wp_send g batch c0 c :
  kept c0 c -> g ∈ executors_ (rk_store c) -> write_group_ (rk_eng c) = Some g ->
  ops batch <> [] -> Forall (fun o => op_group o (router_ (rk_store c)) = Some g) (ops batch) ->
  forall e, client_id_ e = client_id_ (rk_eng c) -> next_request_id_ e = next_request_id_ (rk_eng c) ->
    in_tx e = in_tx (rk_eng c) ->
  wp (upd_eng with_next_request;;
      executor_for g;;
      let leave st := (if in_tx e then mret () else rke_release_write_slot);; report st in
      proposal ← on_world (ex_propose g (encode_proposal_payload
        (mkProposalPayload (client_id_ e) (next_request_id_ e) batch)));
      match proposal with
      | Err error => leave (error_to_status error)
      | Ok ticket =>
          committed ← on_world (ex_proposal_wait g ticket);
          match committed with
          | Err error => leave (error_to_status error)
          | Ok _ => leave StOK
          end
      end) (fun st c' => kept c0 c' /\ rtx_ (rk_eng c') = rtx_ (rk_eng c) /\
              ((if in_tx e then slot_bound c else True) -> slot_bound c')) c.
Proof.
  intros Hk Hg Hw Hb Hf e Hc Hr Ht. rewrite Hc, Hr.
  remember (encode_proposal_payload _) as data eqn:Ed. apply wp_bind. unfold wp at 1. cbn. apply wp_bind.
  unfold wp at 1, executor_for. cbn. rewrite bool_decide_eq_true_2 by done. cbv zeta.
  apply wp_bind. unfold wp at 1, on_world. cbn.
  destruct (ex_propose g _ (rk_world c).1) as [w1 r] eqn:Ep. cbn.
  set (c1 := mkRaftConn _ _ _).
  assert (Hk1 : kept c0 c1).
  { destruct Hk as [Hi Hfr]. split; [|destruct Hfr; by split]. rewrite (rv_next _ Hi) in Ed. subst data.
    split; cbn; try apply Hi.
    - rewrite length_app. cbn. rewrite (rv_next _ Hi). rewrite N.Div0.add_mod_idemp_l. f_equal. lia.
    - by apply log_snoc_ok; [apply Hi| |]. }
  assert (Hn1 : forall c2, quiet c1 c2 -> in_tx e = false -> nothing_buffered c2).
  { intros c2 Hq He. apply in_tx_false. unfold in_tx at 1. rewrite (qt_tx _ _ Hq).
    change (in_tx (rk_eng c) = false). congruence. }
  assert (Hb1 : slot_bound c -> slot_bound c1) by done.
  destruct r as [ticket|error].
  - apply wp_bind. unfold wp at 1, on_world. cbn.
    destruct (ex_proposal_wait g ticket w1) as [w2 r2] eqn:Ew. cbn. set (c2 := mkRaftConn _ _ _).
    assert (Hq : quiet c1 c2) by by split.
    assert (kept c0 c2) by (eapply kept_trans; [exact Hk1|by apply quiet_kept; [apply Hk1|]]).
    assert (Hb2 : slot_bound c -> slot_bound c2) by (intros Hsb; by apply (quiet_bound _ _ Hq), Hb1).
    destruct r2; (eapply wp_mono; [by apply (wp_leave c0); [|apply Hn1]|]); intros st' c3 (_ & Hk3 & Ht3 & Hb3);
      (split_and!; [done|done|]); intros Hsb; apply Hb3; destruct (in_tx e); auto.
  - eapply wp_mono; [apply (wp_leave c0); [done|by apply Hn1]|]. intros st' c3 (_ & Hk3 & Ht3 & Hb3).
    split_and!; [done|done|]. intros Hsb. apply Hb3. destruct (in_tx e); auto.
Qed.

(** In a transaction the slot of the group is already held. *)
Lemma wp_propose g batch c :
  raft_inv c -> g ∈ executors_ (rk_store c) ->
  ops batch <> [] -> Forall (fun o => op_group o (router_ (rk_store c)) = Some g) (ops batch) ->
  (nothing_buffered c \/ write_group_ (rk_eng c) = Some g) ->
  wp (propose_batch g batch) (fun st c' => kept c c' /\ rtx_ (rk_eng c') = rtx_ (rk_eng c) /\
    (slot_bound c -> (in_tx (rk_eng c) = true -> rslot_ (rk_eng c) = true) -> slot_bound c')) c.
Proof.
  intros Hi Hg Hb Hf Hn. unfold propose_batch. apply wp_asks.
  pose proof (rv_flag _ Hi) as Hs. destruct (rslot_ (rk_eng c)) eqn:Es; cbn [andb negb].
  - destruct (write_group_ (rk_eng c)) as [g'|] eqn:Eg; [|done]. destruct (g' =? g) eqn:E; boolify.
    + subst g'. cbn [negb]. apply wp_bind. unfold wp at 1. cbn. apply wp_asks.
      apply (wp_calm anyway); [|done|done|].
      { destruct (has_fixed_snapshot c); auto with calm. }
      intros _ c1 Hq Hk. eapply wp_mono.
      * apply (wp_send g batch c c1); rewrite ?(qt_store _ _ Hq); try done.
        -- by rewrite (qt_group _ _ Hq).
        -- by rewrite (qt_client _ _ Hq).
        -- by rewrite (qt_request _ _ Hq).
        -- unfold in_tx. by rewrite (qt_tx _ _ Hq).
      * intros st c2 (Hk2 & Ht & Hb2). split_and!; [done|by rewrite Ht, (qt_tx _ _ Hq)|].
        intros Hsb _. apply Hb2. case_match; [by apply (quiet_bound _ _ Hq)|done].
    + unfold wp. cbn. split_and!; [|done|done]. apply quiet_kept; [done|by split].
  - apply wp_bind. eapply wp_mono; [by apply wp_take_slot|]. intros taken c1 (Hk & Ht & Hg1 & Hr & Hw & Hs1 & _). cbn beta.
    destruct taken; cbn [negb].
    + apply wp_asks. apply (wp_calm anyway); [|done|apply Hk|].
      { destruct (has_fixed_snapshot c1); auto with calm. }
      intros _ c2 Hq Hk2. destruct Hk as [Hi1 Hfr]. eapply wp_mono.
      * apply (wp_send g batch c c2); rewrite ?(qt_store _ _ Hq), ?(fr_executors _ _ Hfr), ?(fr_router _ _ Hfr); try done.
        -- by eapply kept_trans; [split|].
        -- by rewrite (qt_group _ _ Hq).
        -- by rewrite (qt_client _ _ Hq), (fr_client _ _ Hfr).
        -- by rewrite (qt_request _ _ Hq).
        -- unfold in_tx. by rewrite (qt_tx _ _ Hq), Ht.
      * intros st c3 (Hk3 & Ht3 & Hb3). split_and!; [done|by rewrite Ht3, (qt_tx _ _ Hq)|].
        intros _ Htx. apply Hb3. destruct (in_tx (rk_eng c)); [|done]. by specialize (Htx eq_refl).
    + unfold wp. cbn. split_and!; [|done|intros _ _; by apply free_bound]. eapply kept_trans; [exact Hk|].
      apply quiet_kept; [apply Hk|by split].
Qed.

Lemma route_ops_to rt group l g : route_ops rt group l = RoutedTo g ->
  match group with Some g' => g' = g | None => l <> [] end /\ Forall (fun o => op_group o rt = Some g) l.
Proof.
  revert group. induction l as [|o l IH]; intros group; cbn.
  { destruct group; intros [= ->]. by split. }
  destruct (op_group o rt) as [g1|] eqn:Eo; [|done]. destruct group as [g'|].
  - destruct (g' =? g1) eqn:E; [|done]. boolify. subst. intros Hl. destruct (IH _ Hl) as [-> Hf]. split; [done|by constructor].
  - intros Hl. destruct (IH _ Hl) as [-> Hf]. split; [done|by constructor].
Qed.

Lemma op_group_covered s o g : covered_groups s -> op_group o (router_ s) = Some g -> g ∈ executors_ s.
Proof.
  intros Hc. unfold op_group. destruct (op_type o); [by intros [= <-]..|]. unfold range_group.
  repeat case_match; intros [= <-]; apply Hc.
Qed.

(** Buffering keeps the group of every operation. *)
Lemma log_batch_op rt g t o : op_group o rt = Some g -> (forall x, x ∈ log_ t -> op_group x rt = Some g) ->
  forall x, x ∈ log_ (tx_batch_op t o) -> op_group x rt = Some g.
Proof.
  intros Ho Ht x. unfold tx_batch_op, op_group in *. destruct o as [[] [k v] e]; cbn in *.
  - destruct v; [|apply Ht]. cbn. rewrite elem_of_app, list_elem_of_singleton. intros [?| ->]; [by apply Ht|done].
  - cbn. rewrite elem_of_app, list_elem_of_singleton. intros [?| ->]; [by apply Ht|done].
  - unfold tx_remove_range. cbn. rewrite elem_of_app, list_elem_of_singleton. intros [?| ->]; [by apply Ht|done].
Qed.

Lemma log_batch_ops rt g l t : Forall (fun o => op_group o rt = Some g) l ->
  (forall x, x ∈ log_ t -> op_group x rt = Some g) ->
  forall x, x ∈ log_ (fold_left tx_batch_op l t) -> op_group x rt = Some g.
Proof.
  intros Hl. revert t. induction Hl as [|o l Ho Hl IH]; intros t Ht; cbn; [done|].
  apply IH. by apply log_batch_op.
Qed.

(** A write of a transaction that holds a slot, and that the engine does not
    refuse because the transaction is bound to another group, goes to the group
    of the slot. *)
Definition slot_fits (batch : WriteBatch) (c : Conn) : Prop :=
  in_tx (rk_eng c) = true -> rslot_ (rk_eng c) = true -> forall g,
  route_ops (router_ (rk_store c)) None (ops batch) = RoutedTo g ->
  bound_group_ (rk_eng c) = None \/ bound_group_ (rk_eng c) = Some g -> write_group_ (rk_eng c) = Some g.

Lemma bound_fits batch c : slot_bound c -> slot_fits batch c.
Proof. intros Hb _ Hs g _ Hg. destruct (Hb Hs) as (_ & g' & -> & Hb'). by destruct Hg; congruence. Qed.

Lemma wp_write_batch batch c : raft_inv c -> covered_groups (rk_store c) -> slot_fits batch c ->
  wp (rke_write_batch batch) (fun _ c' => keeps c c') c.
Proof.
  intros Hi Hc Hfit.
  assert (Hcalm : forall m : RM _ Status, calm anyway m -> wp m (fun _ c' => keeps c c') c).
  { intros m Hm. by apply (calm_keeps anyway). }
  unfold rke_write_batch. apply wp_asks. destruct (lk_is_open _); cbn [negb]; [|apply Hcalm, calm_ret].
  apply wp_asks. destruct (route_ops _ _ _) as [g|from to| |] eqn:Er.
  2: { apply Hcalm. apply calm_bind; auto with calm. }
  2,3: by apply Hcalm; auto with calm.
  destruct (route_ops_to _ _ _ _ Er) as [Hne Hf]. apply wp_asks. destruct (rtx_ (rk_eng c)) as [t|] eqn:Et.
  2: { eapply wp_mono; [apply wp_propose; try done|].
       - destruct (ops batch) as [|o l]; [done|]. inversion Hf; subst. by eapply op_group_covered.
       - left. intros t. by rewrite Et.
       - intros st c' (Hk & _ & Hb). split; [done|]. intros Hb0. apply Hb; [done|]. unfold in_tx. by rewrite Et. }
  apply wp_and_then. eapply wp_mono; [apply wp_check_write|]. intros st c1 [Hq Hch]. cbn beta.
  pose proof (quiet_kept _ _ Hi Hq) as Hk1. case_bool_decide as Hst; [|split; [done|by apply quiet_bound]].
  destruct (Hch Hst) as [Hcan Hbd]. specialize (Hfit ltac:(unfold in_tx; by rewrite Et)).
  apply wp_and_then. eapply wp_mono; [apply wp_acquire, Hk1|]. intros st' c2 (Hk2 & Ht2 & Hg2 & Hs2 & Hb2). cbn beta.
  assert (Hk : kept c c2) by by eapply kept_trans. case_bool_decide as Hst'; [|split; [done|intros _; by apply free_bound, Hs2]].
  assert (Hw : write_group_ (rk_eng c2) = Some g).
  { rewrite Hg2 by done. rewrite (qt_slot _ _ Hq), (qt_group _ _ Hq). destruct (rslot_ (rk_eng c)) eqn:Es; [|done].
    by apply Hfit. }
  unfold wp. cbn. split.
  2:{ intros _ _. split; [done|]. exists g. split; [done|by apply Hb2]. }
  eapply kept_trans; [exact Hk|]. destruct Hk as [Hi2 Hfr]. split; [|by split].
  split; cbn; try apply Hi2; [intros t' [= <-]; by apply tx_inv_batch, (rv_buffer _ Hi)|].
  intros t' o [= <-] Ho. exists g. split; [done|].
  eapply log_batch_ops; [|..|exact Ho]; rewrite (fr_router _ _ Hfr); [done|]. intros x Hx.
  destruct (rv_tx _ Hi t x Et Hx) as (g' & Hg' & Hx'). rewrite Hx'. f_equal.
  assert (rslot_ (rk_eng c) = true) by (by rewrite (rv_flag _ Hi), Hg').
  enough (write_group_ (rk_eng c) = Some g) by congruence. by apply Hfit.
Qed.

(** ** Transactions *)

(** The end of a transaction: the buffer is dropped, then the snapshot and the slot. *)
Lemma drop_tx_kept c : raft_inv c -> kept c (mkRaftConn (rk_world c) (rk_store c) (with_rtx None (rk_eng c))).
Proof. intros Hi. split; [|by split]. split; cbn; try done; apply Hi. Qed.

Lemma wp_end_with_slot c : raft_inv c -> nothing_buffered c ->
  wp end_with_slot (fun _ c' => kept c c' /\ rslot_ (rk_eng c') = false) c.
Proof.
  intros Hi Hn. unfold end_with_slot. apply wp_asks. apply wp_bind. destruct (rslot_ (rk_eng c)) eqn:Es.
  - eapply wp_mono; [by apply wp_release|]. intros [] c1 (Hk & _ & Hs). unfold wp. cbn. done.
  - unfold wp. cbn. split; [by apply quiet_kept|done].
Qed.

Lemma wp_end_tx (m : RM _ unit) c : calm anyway m -> raft_inv c ->
  wp (upd_eng (with_rtx None);; m;; end_with_slot) (fun _ c' => keeps c c') c.
Proof.
  intros Hm Hi. apply wp_bind. unfold wp at 1. cbn. pose proof (drop_tx_kept c Hi) as Hk.
  apply (wp_calm anyway); [done|done|apply Hk|]. intros _ c1 Hq Hk1. eapply wp_mono.
  - apply wp_end_with_slot; [apply Hk1|]. intros t. rewrite (qt_tx _ _ Hq). done.
  - intros a c2 [Hk2 Hs]. apply free_keeps; [|done]. eapply kept_trans; [exact Hk|]. by eapply kept_trans.
Qed.

Lemma wp_rollback c : raft_inv c -> wp rke_rollback_transaction (fun _ c' => keeps c c') c.
Proof.
  intros Hi. unfold rke_rollback_transaction. apply wp_asks. destruct (rtx_ (rk_eng c)).
  - apply wp_end_tx; [auto with calm|done].
  - by apply (calm_keeps anyway); [apply calm_ret|..].
Qed.

Lemma wp_commit c : raft_inv c -> covered_groups (rk_store c) ->
  wp rke_commit_transaction (fun _ c' => keeps c c') c.
Proof.
  intros Hi Hc. unfold rke_commit_transaction. apply wp_asks.
  destruct (lk_is_open _); cbn [negb]; [|by apply (calm_keeps anyway); [apply calm_ret|..]].
  apply wp_asks. destruct (rtx_ (rk_eng c)) as [t|] eqn:Et; [|by apply (calm_keeps anyway); [apply calm_ret|..]].
  destruct (tx_exceeds t); [by apply (calm_keeps anyway); [apply calm_ret|..]|].
  case_bool_decide as Hl; [apply wp_end_tx; [auto with calm|done]|].
  destruct (write_group_ (rk_eng c)) as [g|] eqn:Eg; [|by apply (calm_keeps anyway); [apply calm_report|..]].
  assert (Hops : ops (set_sync true (to_batch t)) = log_ t) by (cbn; apply to_batch_log, (rv_buffer _ Hi t Et)).
  assert (Hf : Forall (fun o => op_group o (router_ (rk_store c)) = Some g) (log_ t)).
  { apply Forall_forall. intros o Ho. destruct (rv_tx _ Hi t o Et Ho) as (g' & Hg' & Ho'). congruence. }
  apply wp_and_then. eapply wp_mono.
  - apply (wp_propose g); rewrite ?Hops; try done; [|by right].
    destruct (log_ t) as [|o l]; [done|]. inversion Hf; subst. by eapply op_group_covered.
  - intros st c1 (Hk & _ & Hb). cbn beta. case_bool_decide.
    2:{ split; [done|]. intros Hs. apply Hb; [done|]. intros _. by rewrite (rv_flag _ Hi), Eg. }
    apply wp_bind. unfold wp at 1. cbn. apply wp_asks.
    pose proof (drop_tx_kept c1 (proj1 Hk)) as Hk1. apply (wp_calm anyway); [|done|apply Hk1|].
    { destruct (lk_has_snapshot _); auto with calm. }
    intros _ c2 Hq Hk2. eapply wp_mono.
    + apply wp_end_with_slot; [apply Hk2|]. intros t'. rewrite (qt_tx _ _ Hq). done.
    + intros a c3 [Hk3 Hs]. apply free_keeps; [|done]. eapply kept_trans; [exact Hk|]. eapply kept_trans; [exact Hk1|]. by eapply kept_trans.
Qed.

Lemma covered_zero s : covered_groups s -> 0 ∈ executors_ s.
Proof. intros Hc. apply (Hc kSystemPrefix). Qed.

Lemma wp_begin c : raft_inv c -> covered_groups (rk_store c) -> wp rke_begin_transaction (fun _ c' => keeps c c') c.
Proof.
  intros Hi Hc. unfold rke_begin_transaction. apply wp_asks.
  destruct (lk_is_open _); cbn [negb]; [|by apply (calm_keeps anyway); [apply calm_ret|..]].
  apply wp_asks. destruct (in_tx (rk_eng c)) eqn:Et; [by apply (calm_keeps anyway); [apply calm_ret|..]|].
  apply wp_asks. apply wp_and_then. eapply wp_mono.
  { assert (calm covered_groups (if single_group (rk_store c) then ensure_readable 0 else mret StOK)) as Hcalm.
    { destruct (single_group (rk_store c)); [|auto with calm]. apply calm_ensure_readable. apply covered_zero. }
    by apply Hcalm. }
  intros st c1 Hq. cbn beta. pose proof (quiet_keeps _ _ Hi Hq) as [Hk1 Hb1]. case_bool_decide; [|done].
  apply wp_and_then. eapply wp_mono; [apply (calm_world anyway); [by intros w|done]|].
  intros st' c2 Hq2. cbn beta. assert (Hk2 : kept c c2) by by eapply kept_trans; [|apply quiet_kept; [apply Hk1|]].
  assert (Hb2 : slot_bound c -> slot_bound c2) by (intros Hb; by apply (quiet_bound _ _ Hq2), Hb1).
  case_bool_decide; [|done]. unfold wp. cbn. split.
  2:{ intros Hb. apply free_bound. cbn. rewrite (qt_slot _ _ Hq2), (qt_slot _ _ Hq).
      destruct (rslot_ (rk_eng c)) eqn:Es; [|done]. destruct (Hb Es) as [Hin _]. congruence. }
  eapply kept_trans; [exact Hk2|]. destruct Hk2 as [Hi2 _].
  split; [|by split]. split; cbn; try apply Hi2.
  - intros t [= <-]. apply tx_inv_empty.
  - intros t o [= <-] Ho. by apply not_elem_of_nil in Ho.
Qed.

(** ** Reads *)

Lemma calm_touch groups : calm (fun s => Forall (.∈ executors_ s) groups) (touch_groups groups).
Proof.
  induction groups as [|g gs IH]; cbn; [auto with calm|]. apply calm_bind; [auto with calm|]. intros tx.
  apply calm_and_then; [destruct tx; auto with calm|]. apply calm_and_then.
  - apply calm_ensure_readable. intros s Hs. by inversion Hs.
  - intros c Hc. apply IH. by inversion Hc.
Qed.

Lemma groups_covered s keys : covered_groups s -> Forall (.∈ executors_ s) (groups_of (router_ s) keys).
Proof.
  intros Hc. unfold groups_of. assert (Hins : forall g l, g ∈ executors_ s ->
    Forall (.∈ executors_ s) l -> Forall (.∈ executors_ s) (set_insert g l)).
  { intros g l Hg Hl. induction Hl as [|x l Hx Hl IH]; cbn; [by constructor|]. repeat case_match; by repeat constructor. }
  generalize (Forall_nil_2 (.∈ executors_ s)). generalize (@nil N).
  induction keys as [|k keys IH]; intros l Hl; cbn; [done|]. apply IH. case_match; [done|]. by apply Hins.
Qed.

Lemma wp_get k c : raft_inv c -> covered_groups (rk_store c) -> wp (rke_get k) (fun _ c' => keeps c c') c.
Proof.
  intros Hi Hc. unfold rke_get, route. apply wp_asks.
  eapply (calm_keeps (fun s => group_for k (router_ (rk_store c)) ∈ executors_ s)); [|apply Hc|done].
  apply calm_and_then; [auto with calm|]. apply calm_and_then; auto with calm.
Qed.

Lemma wp_exists k c : raft_inv c -> covered_groups (rk_store c) -> wp (rke_exists k) (fun _ c' => keeps c c') c.
Proof.
  intros Hi Hc. unfold rke_exists, route. apply wp_asks.
  eapply (calm_keeps (fun s => group_for k (router_ (rk_store c)) ∈ executors_ s)); [|apply Hc|done].
  apply calm_and_then; [auto with calm|]. apply calm_and_then; [auto with calm|].
  apply calm_bind; auto with calm.
Qed.

Lemma wp_get_batch keys p c : raft_inv c -> covered_groups (rk_store c) ->
  wp (rke_get_batch keys p) (fun _ c' => keeps c c') c.
Proof.
  intros Hi Hc. unfold rke_get_batch. apply wp_asks. apply wp_asks.
  pose proof (groups_covered _ keys Hc) as Hg. revert Hg. generalize (groups_of (router_ (rk_store c)) keys). intros gs Hg.
  pose proof (calm_touch gs) as Ht. eapply (calm_keeps (fun s => Forall (.∈ executors_ s) gs)); [|done|done].
  assert (forall a b, calm (fun s => Forall (.∈ executors_ s) gs)
    (upd_eng (with_cross a b);; st ← report StCrossGroupTransaction; @mret _ RM_ret (result Status (list (option ByteValue))) (Err st))).
  { intros a b. calm_tac. }
  match goal with |- calm _ (match gs with [] => ?m | _ => _ end) => assert (calm (fun s => Forall (.∈ executors_ s) gs) m) end.
  { calm_tac. }
  destruct gs as [|a [|b gs]]; try done. by destruct (in_tx (rk_eng c)).
Qed.

Lemma wp_new_iterator r c : raft_inv c -> covered_groups (rk_store c) ->
  wp (rke_new_iterator r) (fun _ c' => keeps c c') c.
Proof.
  intros Hi Hc. unfold rke_new_iterator. apply wp_asks.
  destruct (lk_is_open _); cbn [negb]; [|by apply (calm_keeps anyway); [calm_tac|..]].
  apply wp_asks. destruct (range_group _ _ _) as [g|] eqn:Eg; [|by apply (calm_keeps anyway); [calm_tac|..]].
  apply (calm_keeps (fun s => g ∈ executors_ s)); [|..|done].
  - assert (calm (fun s => g ∈ executors_ s) (ensure_readable g)) by auto with calm. calm_tac.
  - revert Eg. unfold range_group. repeat case_match; intros [= <-]; apply Hc.
Qed.

(** ** Runs *)

Inductive raft_command :=
| RGet (k : Key) | RExists (k : Key) | RGetBatch (keys : list Key) (p : MissingKeyPolicy) | RIterate (r : KeyRange)
| RPut (k : Key) (v : ByteValue) | RRemove (k : Key) | RWrite (b : WriteBatch)
| RBegin | RCommit | RRollback | RAcquire (g : option N) | RRelease | RLoose (b : bool).

Definition raft_step (cm : raft_command) : RM (W * list (N * bytes)) unit :=
  match cm with
  | RGet k => rke_get k;; mret ()
  | RExists k => rke_exists k;; mret ()
  | RGetBatch keys p => rke_get_batch keys p;; mret ()
  | RIterate r => rke_new_iterator r;; mret ()
  | RPut k v => rke_put k v;; mret ()
  | RRemove k => rke_remove k;; mret ()
  | RWrite b => rke_write_batch b;; mret ()
  | RBegin => rke_begin_transaction;; mret ()
  | RCommit => rke_commit_transaction;; mret ()
  | RRollback => rke_rollback_transaction;; mret ()
  | RAcquire g => rke_acquire_write_slot g;; mret ()
  | RRelease => rke_release_write_slot
  | RLoose b => upd_eng (with_loose b)
  end.

(** The calls that take or give back a slot in their own right. All others use
    the slot only inside themselves. *)
Definition slot_call (cm : raft_command) : bool :=
  match cm with RAcquire _ | RRelease => true | _ => false end.

(** What callers that use the slot calls keep to: a transaction that holds a
    slot does not write to another group, and the slot is not given back before
    its writes are. *)
Definition disciplined (cm : raft_command) (c : Conn) : Prop :=
  match cm with
  | RPut k v => slot_fits (batch_put k v empty_batch) c
  | RRemove k => slot_fits (batch_remove k empty_batch) c
  | RWrite b => slot_fits b c
  | RRelease => nothing_buffered c
  | _ => True
  end.

Lemma wp_discard {A} (m : RM _ A) c : wp m (fun _ c' => keeps c c') c -> wp (m;; mret ()) (fun _ c' => keeps c c') c.
Proof. intros H. apply wp_bind. eapply wp_mono; [exact H|]. intros a c' Hk. unfold wp. by cbn. Qed.

Lemma raft_step_kept cm c : raft_inv c -> covered_groups (rk_store c) -> disciplined cm c ->
  wp (raft_step cm) (fun _ c' => kept c c' /\ (slot_call cm = false -> slot_bound c -> slot_bound c')) c.
Proof.
  intros Hi Hc Hd.
  assert (Hk : slot_call cm = false -> wp (raft_step cm) (fun _ c' => keeps c c') c).
  { destruct cm; try done; intros _; cbn in *; try apply wp_discard.
    - by apply wp_get.
    - by apply wp_exists.
    - by apply wp_get_batch.
    - by apply wp_new_iterator.
    - by apply wp_write_batch.
    - by apply wp_write_batch.
    - by apply wp_write_batch.
    - by apply wp_begin.
    - by apply wp_commit.
    - by apply wp_rollback.
    - unfold wp. cbn. apply quiet_keeps; [done|by split]. }
  destruct (slot_call cm) eqn:Ecm; [clear Hk|eapply wp_mono; [by apply Hk|]; intros a c' []; by split].
  enough (wp (raft_step cm) (fun _ c' => kept c c') c) as Hw by (eapply wp_mono; [exact Hw|by split]).
  destruct cm; try done; cbn in *.
  - assert (forall g', wp (acquire_write_slot_for g';; mret ()) (fun _ c' => kept c c') c) as Ha.
    { intros g'. apply wp_bind. eapply wp_mono; [by apply wp_acquire|]. intros st c' (? & _). unfold wp. by cbn. }
    destruct g as [g|]; [apply Ha|]. unfold rke_acquire_write_slot, wp, asks, mbind, RM_bind. cbn.
    destruct (rslot_ (rk_eng c)); [by apply quiet_kept|apply Ha].
  - eapply wp_mono; [by apply wp_release|]. by intros a c' [? _].
Qed.

(** Between two calls the groups and the other connections act: the world
    changes, and the slots this connection does not hold. *)
Record others (c c' : Conn) : Prop := {
  ot_eng : rk_eng c' = rk_eng c;
  ot_log : (rk_world c').2 = (rk_world c).2;
  ot_executors : executors_ (rk_store c') = executors_ (rk_store c);
  ot_router : router_ (rk_store c') = router_ (rk_store c);
  ot_slots : forall g, write_slots_ (rk_store c) !! g = Some (mkWriteSlot true (Some (self_ (rk_eng c)))) ->
    write_slots_ (rk_store c') !! g = Some (mkWriteSlot true (Some (self_ (rk_eng c)))) }.

Inductive raft_run (c0 : Conn) : Conn -> Prop :=
| run_start : raft_run c0 c0
| run_others c c' : raft_run c0 c -> others c c' -> raft_run c0 c'
| run_step c c' cm r : raft_run c0 c -> disciplined cm c -> raft_step cm c = (c', r) -> raft_run c0 c'.

(** A connection whose callers leave the slot to the engine: any other calls at all. *)
Inductive plain_run (c0 : Conn) : Conn -> Prop :=
| plain_start : plain_run c0 c0
| plain_others c c' : plain_run c0 c -> others c c' -> plain_run c0 c'
| plain_step c c' cm r : plain_run c0 c -> slot_call cm = false -> raft_step cm c = (c', r) -> plain_run c0 c'.

Lemma bound_disciplined cm c : slot_call cm = false -> slot_bound c -> disciplined cm c.
Proof. intros Hs Hb. destruct cm; try done; by apply bound_fits. Qed.

Lemma others_bound c c' : others c c' -> slot_bound c -> slot_bound c'.
Proof. intros Ho. unfold slot_bound. by rewrite (ot_eng _ _ Ho). Qed.

Lemma others_inv c c' : others c c' -> raft_inv c -> raft_inv c'.
Proof. intros [He Hl Hx Hr Hs] []. split; rewrite ?He, ?Hl, ?Hr; try done. intros g Hg. by apply Hs, rv_owner0. Qed.

Lemma fresh_inv w s self client : raft_inv (mkRaftConn (w, []) s (new_raft_engine self client)).
Proof. by split. Qed.

Lemma raft_run_inv w s self client c : covered_groups s ->
  raft_run (mkRaftConn (w, []) s (new_raft_engine self client)) c ->
  raft_inv c /\ covered_groups (rk_store c) /\ router_ (rk_store c) = router_ s /\
  client_id_ (rk_eng c) = client /\ self_ (rk_eng c) = self.
Proof.
  intros Hc Hr. induction Hr as [|c c' _ (Hi & Hcv & Hrt & Hcl & Hs) Ho|c c' cm r _ (Hi & Hcv & Hrt & Hcl & Hs) Hd Hst].
  - split_and!; [apply fresh_inv|done..].
  - split_and!; [by eapply others_inv|..]; rewrite ?(ot_eng _ _ Ho), ?(ot_router _ _ Ho); try done.
    intros k. rewrite (ot_router _ _ Ho), (ot_executors _ _ Ho). apply Hcv.
  - destruct (wp_run _ _ _ _ _ (raft_step_kept cm c Hi Hcv Hd) Hst) as (_ & _ & (Hi' & Hf) & _).
    split_and!; [done| |by rewrite (fr_router _ _ Hf)|by rewrite (fr_client _ _ Hf)|by rewrite (fr_self _ _ Hf)].
    intros k. rewrite (fr_router _ _ Hf), (fr_executors _ _ Hf). apply Hcv.
Qed.

(** Such a connection keeps to the discipline without knowing it. *)
Lemma plain_run_disciplined w s self client c : covered_groups s ->
  plain_run (mkRaftConn (w, []) s (new_raft_engine self client)) c ->
  raft_run (mkRaftConn (w, []) s (new_raft_engine self client)) c /\ slot_bound c.
Proof.
  intros Hc Hr. induction Hr as [|c c' _ [Hr Hb] Ho|c c' cm r _ [Hr Hb] Hs Hst].
  - split; [constructor|by apply free_bound].
  - split; [by eapply run_others|by eapply others_bound].
  - pose proof (bound_disciplined cm c Hs Hb) as Hd. split; [by eapply run_step|].
    destruct (raft_run_inv w s self client c Hc Hr) as (Hi & Hcv & _).
    destruct (wp_run _ _ _ _ _ (raft_step_kept cm c Hi Hcv Hd) Hst) as (_ & _ & _ & Hb'). by apply Hb'.
Qed.
End OneGroup.

(** C10: a transaction stays in one group. Two kinds of runs of a connection on a
    validated routing table are meant, with any actions of the groups and of
    other connections between its calls. A plain run makes any calls except the
    two that take and give back a slot explicitly, in any order, to any keys;
    nothing else is asked of it. A disciplined run may also make those two, if a
    transaction that holds a slot does not write to another group (a write the
    engine refuses apart) and the slot is not given back under buffered writes. In both, what
    the connection proposes to a group is a batch that touches no key of another
    group, numbered 1, 2, 3, ... under its client id; the writes it has buffered
    are all of the group whose slot it holds; and the next call of the run
    answers, throws nothing and keeps the slots of others. Without the discipline
    the slot calls break this: [early_slot_misroutes]. *)
Theorem raft_transaction_in_group {W J T R} `{!Iterator J, !LocalKv W J, !RaftExecutors W T R}
    (w : W) s self client (c : RaftConn (W * list (N * bytes))) :
  let c0 := mkRaftConn (w, []) s (new_raft_engine self client) in
  validate (router_ s) = None -> covered_groups s -> plain_run c0 c \/ raft_run c0 c ->
  (forall i g data, (rk_world c).2 !! i = Some (g, data) -> exists batch,
     data = encode_proposal_payload (mkProposalPayload client ((1 + N.of_nat i) mod two64) batch) /\
     forall o k, o ∈ ops batch -> op_effect o k <> OvNone -> group_for k (router_ s) = g) /\
  (forall t o k, rtx_ (rk_eng c) = Some t -> o ∈ log_ t -> op_effect o k <> OvNone ->
     write_group_ (rk_eng c) = Some (group_for k (router_ s)) /\
     write_slots_ (rk_store c) !! group_for k (router_ s) = Some (mkWriteSlot true (Some self))) /\
  (forall cm, (plain_run c0 c /\ slot_call cm = false) \/ disciplined cm c ->
     exists c', raft_step cm c = (c', Some ()) /\ frame c c').
Proof.
  intros c0 Hv%validate_ok Hc Hr.
  assert (Hrun : raft_run c0 c) by (destruct Hr as [Hr|Hr]; [by apply plain_run_disciplined|done]).
  destruct (raft_run_inv w s self client c Hc Hrun) as (Hi & Hcv & Hrt & Hcl & Hs).
  split_and!.
  - intros i g data Hd. destruct (rv_log _ Hi i g data Hd) as (batch & -> & _ & Hf). rewrite Hcl. exists batch.
    split; [done|]. intros o k Ho. rewrite Forall_forall in Hf. rewrite <- Hrt in *. by apply op_group_owner, Hf.
  - intros t o k Ht Ho Hk. destruct (rv_tx _ Hi t o Ht Ho) as (g & Hg & Hog). rewrite Hrt in Hog.
    rewrite (op_group_owner _ _ _ _ Hv Hog Hk), Hg, <- Hs. split; [done|by apply (rv_owner _ Hi)].
  - intros cm Hcm. assert (Hd : disciplined cm c).
    { destruct Hcm as [[Hp Hsc]|]; [|done]. by apply bound_disciplined, (plain_run_disciplined w s self client). }
    destruct (raft_step cm c) as [c' r] eqn:E.
    destruct (wp_run _ _ _ _ _ (raft_step_kept cm c Hi Hcv Hd) E) as ([] & -> & (_ & Hf) & _). by exists c'.
Qed.

(** ** A replica in memory

    The local store is the in-memory one; a proposal is committed and applied
    by the state machine at once, unless the node has lost its leadership. *)
Record Replica := mkReplica {
  rp_sm : KVStateMachine MockStore MemoryRequestResultStore; rp_snapshot : option (omap ByteValue); rp_leader : bool }.

Definition rp_rows (w : Replica) : omap ByteValue := data_ (local_ (rp_sm w)).
Definition rp_base (w : Replica) : omap ByteValue := default (rp_rows w) (rp_snapshot w).

#[export] Instance Replica_local : LocalKv Replica MockIterator := {|
  lk_is_open w := is_open_ (local_ (rp_sm w));
  lk_open opts w := let '(s, st) := store_open opts (local_ (rp_sm w)) in
    (mkReplica (mkStateMachine s (request_results_ (rp_sm w))) (rp_snapshot w) (rp_leader w), st);
  lk_close w := let '(s, st) := store_close (local_ (rp_sm w)) in
    (mkReplica (mkStateMachine s (request_results_ (rp_sm w))) (rp_snapshot w) (rp_leader w), st);
  lk_connect w := Some w;
  lk_in_transaction w := match rp_snapshot w with Some _ => true | None => false end;
  lk_has_snapshot w := match rp_snapshot w with Some _ => true | None => false end;
  lk_begin w := (mkReplica (rp_sm w) (Some (rp_rows w)) (rp_leader w), StOK);
  lk_rollback w := (mkReplica (rp_sm w) None (rp_leader w), StOK);
  lk_new_iterator r w := (w, Some (mock_iterator (materialize (rp_base w) r) r)) |}.

Definition lost_leader : Error := mkError EcNotLeader "not the leader".

#[export] Instance Replica_executors : RaftExecutors Replica (result Error bytes) unit := {|
  ex_propose g data w :=
    if negb (rp_leader w) then (w, Err lost_leader)
    else let '(sm, r) := apply (mkLogEntry 1 1 data) (rp_sm w) in (mkReplica sm (rp_snapshot w) (rp_leader w), Ok r);
  ex_proposal_wait g r w := (w, match r with Ok _ => Ok () | Err e => Err e end);
  ex_read_barrier g w := (w, if rp_leader w then Ok () else Err lost_leader);
  ex_read_wait g r w := (w, Ok ());
  ex_node_id g w := 1;
  ex_leader_hint g w := if rp_leader w then Some 1 else Some 2 |}.

Definition demo_replica : Replica := mkReplica (mkStateMachine demo_store ∅) None true.

(** Two data groups and the metadata group. *)
Definition demo_raft_store : RaftKVStore := mkRaftStore {[0; 1; 2]} shard_router ∅ ∅.
Definition demo_connection : RaftConn (Replica * list (N * bytes)) :=
  mkRaftConn (demo_replica, []) demo_raft_store (new_raft_engine 7 42).

Fixpoint run_steps (cms : list raft_command) (c : RaftConn (Replica * list (N * bytes))) : RaftConn (Replica * list (N * bytes)) :=
  match cms with [] => c | cm :: rest => run_steps rest (raft_step cm c).1 end.


Lemma demo_covered : covered_groups demo_raft_store.
Proof. intros key. unfold group_for, demo_raft_store, shard_router. cbn. repeat case_match; set_solver. Qed.

(** Both keys are of group 2; the write between them, to group 1, is refused. *)
Definition demo_commands : list raft_command :=
  [RBegin; RPut (str "data/b") [x01]; RPut (str "data/p") [x02]; RRemove (str "data/c"); RCommit].

Lemma run_commands (c0 c : RaftConn (Replica * list (N * bytes))) cms :
  plain_run c0 c -> forallb (fun cm => negb (slot_call cm)) cms = true -> plain_run c0 (run_steps cms c).
Proof.
  revert c. induction cms as [|cm cms IH]; intros c Hr Hs; cbn in *; [done|]. boolify. apply IH; [|done].
  destruct (raft_step cm c) as [c' r] eqn:E. by eapply plain_step, E; [|destruct (slot_call cm)].
Qed.

Lemma demo_run : plain_run demo_connection (run_steps demo_commands demo_connection).
Proof. apply run_commands; [constructor|reflexivity]. Qed.

Lemma raft_transaction_in_group_witness :
  let c := run_steps demo_commands demo_connection in
  map fst (rk_world c).2 = [2] /\ mfind (str "data/b") (rp_rows (rk_world c).1) = Some [x01] /\
  forall i g data, (rk_world c).2 !! i = Some (g, data) -> exists batch,
    data = encode_proposal_payload (mkProposalPayload 42 ((1 + N.of_nat i) mod two64) batch) /\
    forall o k, o ∈ ops batch -> op_effect o k <> OvNone -> group_for k shard_router = g.
Proof.
  cbv zeta. split; [vm_compute; reflexivity|]. split; [vm_compute; reflexivity|].
  apply (raft_transaction_in_group demo_replica demo_raft_store 7 42 _ ltac:(vm_compute; reflexivity) demo_covered (or_introl demo_run)).
Defined.

(** A slot taken for one group is used for the writes of another: a statement
    that takes the slot of group 1 and touches no row, then a write to group 2
    in the same transaction. The batch goes to group 1. *)
Theorem early_slot_misroutes :
  let c := run_steps [RBegin; RAcquire (Some 1); RPut (str "data/b") [x01]; RCommit] demo_connection in
  group_for (str "data/b") shard_router = 2 /\ rtx_ (rk_eng c) = None /\
  (rk_world c).2 = [(1, encode_proposal_payload (mkProposalPayload 42 1 (batch_put (str "data/b") [x01] empty_batch)))].
Proof. vm_compute. done. Qed.

(** A commit that is tried again is a new request: the state machine cannot
    recognise it as the one before. *)
Theorem commit_retry_is_new_request :
  let lost := mkRaftConn (mkReplica (rp_sm demo_replica) None false, []) demo_raft_store (new_raft_engine 7 42) in
  let c := run_steps [RBegin; RPut (str "data/b") [x01]; RCommit; RCommit] lost in
  (rk_world c).2 = [(2, encode_proposal_payload (mkProposalPayload 42 1 (batch_put (str "data/b") [x01] empty_batch)));
                    (2, encode_proposal_payload (mkProposalPayload 42 2 (batch_put (str "data/b") [x01] empty_batch)))].
Proof. vm_compute. done. Qed.
