(* ===== verification/RaftKvData.v ===== *)
(** * What a replicated transaction reads and writes

    The class [ReplicaLaws] says what the adapter relies on: local iterators
    show the rows the local engine reads, and a proposal that completes has been
    applied by the state machine of [KvStateMachine] to the local replica, with
    no other entry of the group around it while the writer holds the group's
    slot. Under these laws a read inside a transaction answers from the buffer
    over the replica, and a commit leaves in the replica what the transaction
    read. The in-memory replica satisfies the laws. *)

From stdpp Require Import gmap.
From S2P Require Import Prelude Bytes OMap KvTypes TxBuffer MockStore MergingIterator MockEngine Transactions Wire RaftTypes ProposalPayload KvStateMachine GroupRouter RaftKv RaftKvSpec.
Local Open Scope N_scope.

(** ** The row an iterator from a key is on *)






(** ** The laws *)

Section Laws.
Context {S I Res : Type} `{KvStoreLaws S I, RequestResultLaws Res}.

(** Between two moments nothing of the group and of the client has changed. *)
Definition untouched (owner : Key -> N) (g client : N) (a b : KVStateMachine S Res) : Prop :=
  (forall k, owner k = g -> mfind k (kv_rows (local_ b)) = mfind k (kv_rows (local_ a))) /\
  rr_latest (request_results_ b) client = rr_latest (request_results_ a) client.


Class ReplicaLaws (W J T R : Type) `{IteratorLaws J, !LocalKv W J, !RaftExecutors W T R} := {
  rw_sm : W -> KVStateMachine S Res;
  rw_base : W -> omap ByteValue;
  rw_fine : W -> Prop;
  rw_owner : Key -> N;
  rw_ready : forall w, rw_fine w -> kv_ready (local_ (rw_sm w)) /\ sorted (rw_base w);
  rw_live : forall w, rw_fine w -> lk_has_snapshot w = false -> rw_base w = kv_rows (local_ (rw_sm w));
  rw_rollback : forall w w' st, rw_fine w -> lk_rollback w = (w', st) -> rw_fine w' /\ rw_sm w' = rw_sm w;
  rw_iterator : forall r w w' o, rw_fine w -> lk_new_iterator r w = (w', o) ->
    rw_sm w' = rw_sm w /\ rw_base w' = rw_base w /\ rw_fine w' /\
    exists it, o = Some it /\ it_wf it /\
      it_rest it = scan_order (direction r) (filter (fun p => range_contains r p.1 = true) (rw_base w));
  rw_commit : forall g p w w1 t w2, rw_fine w -> payload_wf p ->
    ex_propose g (encode_proposal_payload p) w = (w1, Ok t) -> ex_proposal_wait g t w1 = (w2, Ok ()) ->
    rw_fine w2 /\
    exists sm sm' index term res, kv_ready (local_ sm) /\
      untouched rw_owner g (client_id p) (rw_sm w) sm /\
      apply (mkLogEntry index term (encode_proposal_payload p)) sm = (sm', Ok res) /\
      untouched rw_owner g (client_id p) sm' (rw_sm w2) }.


Section Commit.
Context {W J T R : Type} `{ReplicaLaws W J T R}.









End Commit.
End Laws.


(** ** The replica in memory satisfies the laws *)

#[export, program] Instance Replica_laws :
    ReplicaLaws (S:=MockStore) (Res:=MemoryRequestResultStore) Replica MockIterator (result Error bytes) unit := {|
  rw_sm := rp_sm; rw_base := rp_base; rw_owner k := group_for k shard_router;
  rw_fine w := kv_ready (local_ (rp_sm w)) /\ sorted (rp_base w) |}.
Next Obligation. done. Qed.
Next Obligation. intros w _. cbn. unfold rp_base, rp_rows. by destruct (rp_snapshot w). Qed.
Next Obligation.
  intros w w' st [Hr _] [= <- <-]. split; [|done]. split; [done|]. apply Hr.
Qed.
Next Obligation.
  intros r w w' o [Hr Hs] [= <- <-]. split_and!; [done..|]. eexists. split; [done|].
  split; [by apply mock_iterator_wf|by apply mock_iterator_rest].
Qed.
Next Obligation.
  intros g p w w1 t w2 [Hr Hs] Hp. cbn [ex_propose ex_proposal_wait Replica_executors].
  destruct (rp_leader w); cbn [negb]; [|done].
  destruct (apply (mkLogEntry 1 1 (encode_proposal_payload p)) (rp_sm w)) as [sm r] eqn:Ea. intros [= <- <-] Hw.
  destruct r as [res|e]; injection Hw as <-; [|done].
  assert (Hr' : kv_ready (local_ sm)) by by destruct (apply_rows _ _ _ _ Hr Ea) as [->|(? & _ & _ & ? & _)].
  split.
  - split; [done|]. unfold rp_base, rp_rows in *. cbn. destruct (rp_snapshot w); [done|]. apply Hr'.
  - exists (rp_sm w), sm, 1, 1, res. by split_and!.
Qed.



