(* ===== verification/Remote.v ===== *)
(** * Server and client: [server/server.cpp], [client/connection.{h,cpp}]

    The handling of a client's frames by the server, the connection inside the
    process ([LocalConnection]) and the connection over the protocol
    ([RemoteConnection]). Bytes reach the client in chunks, each what one read
    returned. Whether the queues of the service threads take a statement, the
    leader a store names for a key and the texts of errors are parameters;
    sockets, timers and metrics are left out. [turns] bounds the rows a cursor is
    asked for. An answer of [None] means that a null pointer was followed or that
    the turns ran out. *)

From S2P Require Import Prelude Bytes OMap KvTypes KvApi TxApi SqlTypes SqlTruth Rewriter Schema RowCodec Table Catalog Planner Executor Execute StmtBuilder Session Protocol.
Local Open Scope N_scope.

Definition session_code (c : SessionErrorCode) : N :=
  match c with
  | SN_OK => 0 | SN_EMPTY_SQL => 1 | SN_PARSE_ERROR => 2 | SN_BUILD_ERROR => 3 | SN_VALIDATE_ERROR => 4
  | SN_REWRITE_ERROR => 5 | SN_OPTIMIZE_ERROR => 6 | SN_PLAN_ERROR => 7 | SN_EXECUTE_ERROR => 8
  | SN_CONSTRAINT_VIOLATION => 9 | SN_NOT_SUPPORTED => 10 | SN_TRANSACTION_ERROR => 11 | SN_NOT_LEADER => 12
  end.
Definition cursor_code (c : CursorErrorCode) : N :=
  match c with
  | CE_OK => 0 | CE_END => 1 | CE_NOT_FOUND => 2 | CE_SCHEMA_ERROR => 3 | CE_CONSTRAINT_VIOLATION => 4
  | CE_INVALID_ARGUMENT => 5 | CE_IO_ERROR => 6 | CE_INTERNAL => 7
  end.

(** What a [SessionError] carries besides its code. *)
Record ErrorText := mkErrorText {
  et_message : bytes; et_sql : bytes; et_begin_line : N; et_begin_column : N; et_end_line : N; et_end_column : N }.
Definition no_text : ErrorText := mkErrorText [] [] 0 0 0 0.

Definition to_error_frame (code : SessionErrorCode) (t : ErrorText) (hint : option LeaderHint) : ErrorFrame :=
  mkErrorFrame (session_code code) (et_message t) (et_sql t) (et_begin_line t) (et_begin_column t)
    (et_end_line t) (et_end_column t) hint.
Definition message_frame (message : bytes) : ErrorFrame := mkErrorFrame 0 message [] 0 0 0 0 None.

(** ** [struct Outcome] *)

Record Cell := mkCell { cell_null : bool; cell_text : bytes }.
Record Outcome := mkOutcome {
  o_ok : bool; o_has_rows : bool; o_is_write : bool; o_columns : list bytes; o_rows : list (list Cell);
  o_affected : N; o_in_tx : bool; o_code : N; o_text : ErrorText; o_redirect_node : N; o_redirect_endpoint : bytes }.

Definition new_outcome : Outcome := mkOutcome false false false [] [] 0 false 0 no_text 0 [].

Definition cell_of (v : Value) : Cell :=
  if is_null v then mkCell true [] else mkCell false (value_to_string v).
(** A cell per column: a column the row does not have is an empty text. *)
Definition local_cells (width : nat) (row : Row) : list Cell :=
  map (fun i => match row !! i with Some v => cell_of v | None => mkCell false [] end) (seq 0 width).

Definition value_of (v : Value) : ProtocolValue :=
  mkProtocolValue (is_null v) (if is_null v then [] else value_to_string v).
Definition cell_of_value (v : ProtocolValue) : Cell := mkCell (is_null_ v) (text_ v).

Section Remote.
Context {E I : Type} `{!ScanIterator I, !KVEngine E I, !KVTransactions E}.
Context (parser : bytes -> option ASTNode) (scan_is_cheaper : option Z -> nat -> bool).
Context (plan_tree_to_string : PlanNode -> bytes) (explain_text : PlanNode -> list Row -> bytes).
Context (describe : Session E -> bytes -> SessionErrorCode -> ErrorText) (cursor_text : CursorErrorCode -> bytes).
Context (leader_hint_for : Key -> E -> option LeaderHint).
Abbreviation Cursor := (ResultCursor (E:=E)).
Abbreviation execute := (Session.execute parser scan_is_cheaper plan_tree_to_string explain_text).
Abbreviation execute_parsed := (Session.execute_parsed scan_is_cheaper plan_tree_to_string explain_text).

(** ** [class LocalConnection] *)

(** The rows until the end of the stream or an error. *)
Fixpoint local_rows (turns fuel width : nat) (e : E) (rc : Cursor) : E * option (list (list Cell) * CursorErrorCode) :=
  match turns with
  | O => (e, None)
  | S n =>
      match rc_next fuel e rc with
      | (e, rc, Ok row) =>
          match local_rows n fuel width e rc with
          | (e, Some (rows, code)) => (e, Some (local_cells width row :: rows, code))
          | (e, None) => (e, None)
          end
      | (e, _, Err code) => (e, Some ([], if ce_is_error code then code else CE_OK))
      end
  end.

Definition local_cursor (turns fuel : nat) (s : Session E) (rc : Cursor) : Session E * option Outcome :=
  let has_rows := x_produces_rows (rc_root rc) in
  let is_write := x_is_write (rc_root rc) in
  let failed columns rows code :=
    mkOutcome false has_rows is_write columns rows 0 (in_transaction_ s) (cursor_code code)
      (mkErrorText (cursor_text code) [] 0 0 0 0) 0 [] in
  if negb has_rows then
    (s, Some (if ce_is_error (rc_error rc) then failed [] [] (rc_error rc)
              else mkOutcome true has_rows is_write [] [] (rc_affected_rows rc) (in_transaction_ s) 0 no_text 0 []))
  else
    match local_rows turns fuel (length (rc_columns rc)) (engine_of s) rc with
    | (e, None) => (set_engine e s, None)
    | (e, Some (rows, code)) =>
        (set_engine e s,
         Some (if ce_is_error code then failed (rc_columns rc) rows code
               else mkOutcome true has_rows is_write (rc_columns rc) rows 0 (in_transaction_ s) 0 no_text 0 []))
    end.

Definition local_execute (turns fuel : nat) (now : Z) (sql : bytes) (s : Session E) : Session E * option Outcome :=
  match execute fuel now sql s with
  | (s', Err Crashed) => (s', None)
  | (s', Err (Failed code)) =>
      (s', Some (mkOutcome false false false [] [] 0 (in_transaction_ s') (session_code code) (describe s sql code) 0 []))
  | (s', Ok rc) => local_cursor turns fuel s' rc
  end.

(** ** The server *)

Record ServerConfig := mkServerConfig { max_result_rows : N }.

(** [execute_on_this_node]: the answer, and the hint for the error frame. *)
Definition execute_on_this_node (fuel : nat) (now : Z) (parsed : ParsedStatement) (s : Session E)
    : Session E * option LeaderHint * Answer :=
  let hint_of s := match routing_key parsed s with Some k => leader_hint_for k (engine_of s) | None => None end in
  match hint_of s with
  | Some hint => (s, Some hint, Err (Failed SN_NOT_LEADER))
  | None =>
      match execute_parsed fuel now parsed s with
      | (s', Err (Failed SN_NOT_LEADER)) => (s', hint_of s', Err (Failed SN_NOT_LEADER))
      | (s', r) => (s', None, r)
      end
  end.

(** The rows of a result: sent, cut short at [max] rows, or an error. *)
Inductive Sent := SentRows (out : bytes) (rows : N) | SentTooMany | SentError (code : CursorErrorCode).

Fixpoint send_rows (turns fuel : nat) (max count : N) (e : E) (rc : Cursor) (out : bytes) : E * Cursor * option Sent :=
  match turns with
  | O => (e, rc, None)
  | S n =>
      match rc_next fuel e rc with
      | (e, rc, Err code) => (e, rc, Some (if ce_is_error code then SentError code else SentRows out count))
      | (e, rc, Ok row) =>
          if max <? count + 1 then (e, rc, Some SentTooMany)
          else send_rows n fuel max (count + 1) e rc (out ++ Protocol.encode_row (map value_of row))
      end
  end.

Definition too_many_text (max : N) : bytes :=
  str "result set too large (max_result_rows=" ++ int_to_string (Z.of_N max) ++ str ")".

Definition current_database (s : Session E) : bytes := name_ (current_db_ (catalog_ s)).

Definition reply_cursor (config : ServerConfig) (turns fuel : nat) (s : Session E) (rc : Cursor) : Session E * option bytes :=
  if x_produces_rows (rc_root rc) then
    match send_rows turns fuel (max_result_rows config) 0 (engine_of s) rc (encode_columns (rc_columns rc)) with
    | (e, _, None) => (set_engine e s, None)
    | (e, rc, Some sent) =>
        (set_engine e s,
         Some match sent with
              | SentTooMany => encode_error (message_frame (too_many_text (max_result_rows config)))
              | SentError code => encode_error (message_frame (cursor_text code))
              | SentRows out rows =>
                  if ce_is_error (rc_error rc) then out
                  else out ++ encode_ok rows (in_transaction_ s) false (current_database s)
              end)
    end
  else (s, Some (if ce_is_error (rc_error rc) then encode_error (message_frame (cursor_text (rc_error rc)))
                 else encode_ok (rc_affected_rows rc) (in_transaction_ s) (x_is_write (rc_root rc)) (current_database s))).

(** Whether the parse queue and the queue of the execution take the statement. *)
Record Queues := mkQueues { parse_accepts : bool; execute_accepts : bool }.

Definition busy_text (in_tx read_only : bool) : bytes :=
  if in_tx || negb read_only then str "server busy: write queue is full" else str "server busy: read queue is full".

Definition serve_query (config : ServerConfig) (queues : Queues) (turns fuel : nat) (now : Z) (sql : bytes) (s : Session E)
    : Session E * option bytes :=
  if negb (parse_accepts queues) then (s, Some (encode_error (message_frame (str "server busy: parse queue is full"))))
  else
    match parse parser sql with
    | Err error =>
        (s, match parse_error_to_session_error error s with
            | Crashed => None
            | Failed code => Some (encode_error (to_error_frame code (describe s sql code) None))
            end)
    | Ok parsed =>
        if negb (execute_accepts queues) then
          (s, Some (encode_error (message_frame (busy_text (in_transaction_ s) (ps_read_only parsed)))))
        else
          match execute_on_this_node fuel now parsed s with
          | (s', _, Err Crashed) => (s', None)
          | (s', hint, Err (Failed code)) => (s', Some (encode_error (to_error_frame code (describe s sql code) hint)))
          | (s', _, Ok rc) => reply_cursor config turns fuel s' rc
          end
    end.

(** *** Metadata *)

Definition meta_database (i : DatabaseInfo) : MetaDatabase :=
  mkMetaDatabase (name_ (di_name i)) (di_created_at i) (N.of_nat (di_table_count i) mod two32) (di_is_current i).
Definition meta_table (i : TableInfo) : MetaTable :=
  mkMetaTable (name_ (ti_name i)) (N.of_nat (ti_column_count i) mod two32) (name_ (ti_primary_key i))
    (ti_created_at i) (ti_last_write_at i) (ti_row_count i mod two64).

(** The status of the catalog after the schema was looked up. *)
Definition schema_status (table db : Identifier) (s : Session E) : Status :=
  let c := catalog_ s in
  if negb (cat_is_open c) || ident_empty table then last_read_status_ c
  else
    let target := if ident_empty db then current_db_ c else db in
    if ident_empty target then last_read_status_ c else last_read_status_ (get_table_schema target table c).1.

Definition serve_meta (fuel : nat) (payload : bytes) (s : Session E) : option bytes :=
  match decode_meta payload with
  | None => None
  | Some (kind, arg1, arg2) =>
      match kind with
      | 1 => Some (encode_meta_reply (encode_meta_databases (map meta_database (databases s))))
      | 2 => Some (encode_meta_reply (encode_meta_tables (map meta_table (tables fuel (identifier arg1) s))))
      | 3 =>
          Some (match Session.table_schema (identifier arg2) (identifier arg1) s with
                | Some schema => encode_meta_reply (encode_meta_schema schema)
                | None =>
                    let st := schema_status (identifier arg2) (identifier arg1) s in
                    encode_error (message_frame
                      (if bool_decide (st <> StOK) then str "schema read failed: " ++ bytes_of_string (status_to_string st)
                       else str "table not found: " ++ arg2))
                end)
      | _ => None
      end
  end.

(** *** One frame of the client: what is written back, and whether the connection goes on. *)
Definition serve_frame (config : ServerConfig) (queues : Queues) (turns fuel : nat) (now : Z) (frame : DecodedFrame)
    (s : Session E) : Session E * option (bytes * bool) :=
  match frame_type frame with
  | kBye => (s, Some ([], false))
  | kPing => (s, Some (encode_simple kPing, true))
  | kClientOptions =>
      match decode_client_options (frame_payload frame) with
      | None => (s, Some ([], false))
      | Some (capabilities, _) =>
          (Session.set_loose_cross_group_reads (negb (N.land capabilities kCapabilityCrossGroupReadLoose =? 0)) s,
           Some ([], true))
      end
  | kMeta => (s, Some (match serve_meta fuel (frame_payload frame) s with Some out => (out, true) | None => ([], false) end))
  | kQuery =>
      match decode_query (frame_payload frame) with
      | None => (s, Some ([], false))
      | Some sql => let '(s, out) := serve_query config queues turns fuel now sql s in
                    (s, (fun out => (out, true)) <$> out)
      end
  | _ => (s, Some (encode_error (message_frame (str "unexpected frame from client")), true))
  end.

Definition kServerVersion : N := 1.

(** The start of a connection: the session, and HELLO. *)
Definition serve_hello : bytes := encode_hello kServerVersion (N.lor kCapabilityLeaderHint kCapabilityCrossGroupReadLoose).
Definition open_connection (fuel : nat) (now : Z) (default_database : bytes) (engine : E) : Session E :=
  let s := new_session engine in
  match default_database with [] => s | _ => (execute fuel now (str "USE " ++ default_database) s).1 end.

(** The idle timeout: the transaction is rolled back, the client is told. *)
Definition serve_idle_timeout (fuel : nat) (now : Z) (s : Session E) : Session E * bytes :=
  if in_transaction_ s then
    ((execute fuel now (str "ROLLBACK") s).1,
     encode_error (message_frame (str "connection terminated: idle in transaction for too long (transaction rolled back)")))
  else (s, encode_error (message_frame (str "connection terminated: idle for too long"))).

(** The frames that are complete in the buffer; a frame is at least five bytes,
    so the length of the buffer bounds their number. *)
Fixpoint serve_buffer (n : nat) (config : ServerConfig) (queues : Queues) (turns fuel : nat) (now : Z)
    (buffer : bytes) (s : Session E) : Session E * option (bytes * bytes * bool) :=
  match n with
  | O => (s, Some (buffer, [], true))
  | S n =>
      match try_decode_frame buffer with
      | FrameReady frame consumed =>
          match serve_frame config queues turns fuel now frame s with
          | (s, None) => (s, None)
          | (s, Some (out, false)) => (s, Some (drop consumed buffer, out, false))
          | (s, Some (out, true)) =>
              match serve_buffer n config queues turns fuel now (drop consumed buffer) s with
              | (s, Some (rest, more, alive)) => (s, Some (rest, out ++ more, alive))
              | (s, None) => (s, None)
              end
          end
      | FrameIncomplete => (s, Some (buffer, [], true))
      | _ => (s, Some (buffer, [], false))
      end
  end.
End Remote.

(** ** [class RemoteConnection] *)

Record RemoteConnection := mkRemote {
  in_ : bytes; remote_db_ : bytes; remote_tx_ : bool; protocol_version_ : N; server_version_ : N; capabilities_ : N }.
Definition new_remote : RemoteConnection := mkRemote [] [] false 0 0 0.

Definition with_in (buffer : bytes) (c : RemoteConnection) : RemoteConnection :=
  mkRemote buffer (remote_db_ c) (remote_tx_ c) (protocol_version_ c) (server_version_ c) (capabilities_ c).

(** [next_frame] over the chunks still to be read: a read that returns nothing
    is the end of the connection. *)
Fixpoint next_frame (chunks : list bytes) (c : RemoteConnection) : RemoteConnection * list bytes * option DecodedFrame :=
  match try_decode_frame (in_ c) with
  | FrameReady frame consumed => (with_in (drop consumed (in_ c)) c, chunks, Some frame)
  | FrameIncomplete =>
      match chunks with
      | [] => (c, [], None)
      | [] :: rest => (c, rest, None)
      | chunk :: rest => next_frame rest (with_in (in_ c ++ chunk) c)
      end
  | _ => (c, chunks, None)
  end.

Definition connection_lost (o : Outcome) : Outcome :=
  mkOutcome false (o_has_rows o) (o_is_write o) (o_columns o) (o_rows o) (o_affected o) (o_in_tx o) 255
    (mkErrorText (str "connection to server lost") (et_sql (o_text o)) (et_begin_line (o_text o)) (et_begin_column (o_text o))
       (et_end_line (o_text o)) (et_end_column (o_text o))) (o_redirect_node o) (o_redirect_endpoint o).

(** One frame of the answer: the outcome so far, or the end. *)
Definition reply_frame (frame : DecodedFrame) (o : Outcome) (c : RemoteConnection) : RemoteConnection * Outcome * bool :=
  match frame_type frame with
  | kColumns =>
      match decode_columns (frame_payload frame) with
      | None => (c, connection_lost o, true)
      | Some columns => (c, mkOutcome (o_ok o) (o_has_rows o) (o_is_write o) columns (o_rows o) (o_affected o)
                              (o_in_tx o) (o_code o) (o_text o) (o_redirect_node o) (o_redirect_endpoint o), false)
      end
  | kRow =>
      match Protocol.decode_row (frame_payload frame) with
      | None => (c, connection_lost o, true)
      | Some row => (c, mkOutcome (o_ok o) (o_has_rows o) (o_is_write o) (o_columns o) (o_rows o ++ [map cell_of_value row])
                          (o_affected o) (o_in_tx o) (o_code o) (o_text o) (o_redirect_node o) (o_redirect_endpoint o), false)
      end
  | kOk =>
      match decode_ok (frame_payload frame) with
      | None => (c, connection_lost o, true)
      | Some (affected, flags, db) =>
          let in_tx := negb (N.land flags 1 =? 0) in
          (mkRemote (in_ c) db in_tx (protocol_version_ c) (server_version_ c) (capabilities_ c),
           mkOutcome true (negb (bool_decide (o_columns o = []))) (negb (N.land flags 2 =? 0)) (o_columns o) (o_rows o)
             affected in_tx (o_code o) (o_text o) (o_redirect_node o) (o_redirect_endpoint o), true)
      end
  | kError =>
      match decode_error (frame_payload frame) with
      | None => (c, connection_lost o, true)
      | Some f =>
          let '(node, endpoint) :=
            match leader_hint f with
            | Some h => if negb (N.land (capabilities_ c) kCapabilityLeaderHint =? 0) then (lh_node_id h, lh_endpoint h)
                        else (o_redirect_node o, o_redirect_endpoint o)
            | None => (o_redirect_node o, o_redirect_endpoint o)
            end in
          (c, mkOutcome false (o_has_rows o) (o_is_write o) (o_columns o) (o_rows o) (o_affected o) (remote_tx_ c)
                (ef_code f) (mkErrorText (ef_message f) (ef_sql f) (ef_begin_line f) (ef_begin_column f) (ef_end_line f)
                               (ef_end_column f)) node endpoint, true)
      end
  | _ => (c, connection_lost o, true)
  end.

(** The loop of [execute]; a frame is at least five bytes. *)
Fixpoint read_reply (n : nat) (chunks : list bytes) (o : Outcome) (c : RemoteConnection)
    : RemoteConnection * list bytes * Outcome :=
  match n with
  | O => (c, chunks, connection_lost o)
  | S n =>
      match next_frame chunks c with
      | (c, chunks, None) => (c, chunks, connection_lost o)
      | (c, chunks, Some frame) =>
          match reply_frame frame o c with
          | (c, o, true) => (c, chunks, o)
          | (c, o, false) => read_reply n chunks o c
          end
      end
  end.

(** [execute]: the bytes sent, then the answer read from the chunks. *)
Definition remote_execute (sql : bytes) (chunks : list bytes) (c : RemoteConnection)
    : bytes * (RemoteConnection * list bytes * Outcome) :=
  (encode_query sql, read_reply (S (length (in_ c ++ concat chunks))) chunks new_outcome c).

Definition handshake (chunks : list bytes) (c : RemoteConnection) : RemoteConnection * list bytes * bool :=
  match next_frame chunks c with
  | (c, chunks, Some frame) =>
      match frame_type frame, decode_hello (frame_payload frame) with
      | kHello, Some (proto, server, capabilities) =>
          (mkRemote (in_ c) (remote_db_ c) (remote_tx_ c) proto server capabilities, chunks, proto =? kProtocolVersion)
      | _, _ => (c, chunks, false)
      end
  | (c, chunks, None) => (c, chunks, false)
  end.

(** [send_client_options_if_requested]: what is sent. *)
Definition client_options (loose : bool) (c : RemoteConnection) : option bytes :=
  if negb loose || (N.land (capabilities_ c) kCapabilityCrossGroupReadLoose =? 0) then None
  else Some (encode_client_options kCapabilityCrossGroupReadLoose []).

Definition meta_request (kind : MetaKind) (arg1 arg2 : bytes) (chunks : list bytes) (c : RemoteConnection)
    : bytes * (RemoteConnection * list bytes * option bytes) :=
  (encode_meta kind arg1 arg2,
   match next_frame chunks c with
   | (c, chunks, Some frame) =>
       (c, chunks, match frame_type frame with kMetaReply => decode_meta_reply (frame_payload frame) | _ => None end)
   | (c, chunks, None) => (c, chunks, None)
   end).

(** *** [redirect] *)

Definition is_digit (b : byte) : bool := (48 <=? Byte.to_N b) && (Byte.to_N b <=? 57).
(** [std::from_chars] to an [uint32_t], which has to take the whole text: the
    digits so far, and an overflow is an error. *)
Fixpoint from_chars_u32 (text : bytes) (value : N) : option N :=
  match text with
  | [] => Some value
  | b :: rest =>
      if is_digit b then
        let value := value * 10 + (Byte.to_N b - 48) in
        if two32 <=? value then None else from_chars_u32 rest value
      else None
  end.

(** The text before and after the last colon. *)
Fixpoint split_last_colon (text : bytes) : option (bytes * bytes) :=
  match text with
  | [] => None
  | b :: rest =>
      match split_last_colon rest with
      | Some (host, port) => Some (b :: host, port)
      | None => if bool_decide (b = x3a) then Some ([], rest) else None
      end
  end.

Definition parse_endpoint (endpoint : bytes) : option (bytes * bytes * N) :=
  match split_last_colon endpoint with
  | Some (host, port) =>
      match host, port with
      | [], _ | _, [] => None
      | _, _ =>
          match from_chars_u32 port 0 with
          | Some n => if (n =? 0) || (65535 <? n) then None else Some (host, port, n)
          | None => None
          end
      end
  | None => None
  end.

(** [dial] gives what the new socket will deliver. On success the connection
    reads from there; otherwise it stays as it is. *)
Definition redirect (dial : bytes -> bytes -> option (list bytes)) (endpoint : bytes) (c : RemoteConnection)
    : option (RemoteConnection * list bytes) :=
  match parse_endpoint endpoint with
  | None => None
  | Some (host, port, _) =>
      match dial host port with
      | None => None
      | Some chunks =>
          match handshake chunks new_remote with
          | (_, _, false) => None
          | (replacement, chunks, true) =>
              let used := match remote_db_ c with
                          | [] => Some (replacement, chunks)
                          | db => match (remote_execute (str "USE " ++ db) chunks replacement).2 with
                                  | (replacement, chunks, o) => if o_ok o then Some (replacement, chunks) else None
                                  end
                          end in
              match used with
              | None => None
              | Some (replacement, chunks) =>
                  Some (mkRemote [] (remote_db_ c) false (protocol_version_ replacement) (server_version_ replacement)
                          (capabilities_ c), chunks)
              end
          end
      end
  end.
