(* ===== verification/RemoteSpec.v ===== *)
(** * A statement over the wire

    What the client of a server is told of a statement is what a connection in
    the process would have been told, up to what the protocol does not carry. *)

From S2P Require Import Prelude Bytes OMap KvTypes KvApi TxApi SqlTypes SqlTruth Rewriter Schema RowCodec Table Catalog Planner Executor Execute StmtBuilder Session SessionSpec Protocol Remote.
Local Open Scope N_scope.

(** ** Frames from chunks *)

Definition frame_bytes (f : DecodedFrame) : bytes := encode_frame (frame_type f) (frame_payload f).
Definition frame_ok (f : DecodedFrame) : Prop := payload_ok (frame_payload f).
Definition full (chunks : list bytes) : Prop := Forall (fun chunk => chunk <> []) chunks.

Lemma with_in_same c : with_in (in_ c) c = c.
Proof. by destruct c. Qed.

(** However the bytes are cut, the next frame is read and the rest is left. *)
Lemma next_frame_reads f rest chunks c :
  frame_ok f -> full chunks -> in_ c ++ concat chunks = frame_bytes f ++ rest ->
  exists buffer chunks', next_frame chunks c = (with_in buffer c, chunks', Some f) /\
    buffer ++ concat chunks' = rest /\ full chunks'.
Proof.
  intros Hf Hc. revert c. induction Hc as [|chunk chunks Hne Hc IH]; intros c Heq.
  - cbn [concat] in Heq. rewrite app_nil_r in Heq. cbn [next_frame]. rewrite Heq. unfold frame_bytes.
    rewrite try_decode_encoded by done. destruct f as [t p]. cbn [frame_type frame_payload].
    eexists _, []. split; [done|]. cbn [concat]. rewrite app_nil_r. split; [|constructor].
    by rewrite drop_app_length' by by rewrite frame_length.
  - destruct (decide (length (frame_bytes f) <= length (in_ c))%nat) as [Hle|Hlt].
    + assert (Hin : exists more, in_ c = frame_bytes f ++ more /\ rest = more ++ concat (chunk :: chunks)).
      { exists (drop (length (frame_bytes f)) (in_ c)).
        apply (f_equal (fun l => (take (length (frame_bytes f)) l, drop (length (frame_bytes f)) l))) in Heq.
        rewrite take_app_le, drop_app_le, take_app_length, drop_app_length in Heq by done. injection Heq as Ht Hd.
        split; [|done]. rewrite <- Ht at 1. by rewrite take_drop. }
      destruct Hin as (more & Hin & ->). cbn [next_frame]. rewrite Hin. unfold frame_bytes.
      rewrite try_decode_encoded by done. destruct f as [t p]. cbn [frame_type frame_payload].
      eexists _, _. split; [done|]. split; [|by constructor].
      by rewrite drop_app_length' by by rewrite frame_length.
    + assert (Hin : exists more, frame_bytes f = in_ c ++ more /\ more <> []).
      { exists (drop (length (in_ c)) (frame_bytes f)).
        apply (f_equal (take (length (in_ c)))) in Heq. rewrite take_app_length, take_app_le in Heq by lia.
        split; [rewrite Heq at 1; by rewrite take_drop|]. intros Hd. apply (f_equal length) in Hd.
        rewrite length_drop in Hd. change (length (@nil byte)) with 0%nat in Hd. lia. }
      destruct Hin as (more & Hin & Hm). cbn [next_frame]. rewrite (try_decode_prefix _ _ _ _ Hf Hin Hm).
      destruct chunk as [|b chunk]; [done|].
      apply (IH (with_in (in_ c ++ b :: chunk) c)). cbn [in_ with_in]. by rewrite <- app_assoc.
Qed.

(** ** The loop over the frames of an answer *)

Fixpoint replies (frames : list DecodedFrame) (o : Outcome) (c : RemoteConnection) : option (RemoteConnection * Outcome) :=
  match frames with
  | [] => None
  | f :: rest =>
      match reply_frame f o c with
      | (c, o, true) => match rest with [] => Some (c, o) | _ => None end
      | (c, o, false) => replies rest o c
      end
  end.

(** A frame of an answer does not look at the bytes after it. *)
Lemma reply_frame_in f o c buffer :
  reply_frame f o (with_in buffer c) =
    (with_in buffer (reply_frame f o c).1.1, (reply_frame f o c).1.2, (reply_frame f o c).2).
Proof.
  unfold reply_frame. destruct (frame_type f); try done.
  - by destruct (decode_columns _).
  - by destruct (Protocol.decode_row _).
  - by destruct (decode_ok _) as [[[affected flags] db]|].
  - destruct (decode_error _) as [e|]; [|done]. destruct (leader_hint e); [|done]. cbn. by destruct (negb _).
Qed.

Lemma reply_frame_keeps f o c : in_ (reply_frame f o c).1.1 = in_ c.
Proof. unfold reply_frame. by destruct (frame_type f); repeat case_match. Qed.

Lemma replies_keeps frames o c c' o' : replies frames o c = Some (c', o') -> in_ c' = in_ c.
Proof.
  revert o c. induction frames as [|f frames IH]; intros o c; cbn [replies]; [done|].
  pose proof (reply_frame_keeps f o c) as Hk. destruct (reply_frame f o c) as [[c1 o1] []]; cbn in Hk.
  - destruct frames; [|done]. by intros [= <- <-].
  - intros H. by rewrite (IH _ _ H).
Qed.

Lemma read_reply_frames frames n chunks o c c' o' :
  Forall frame_ok frames -> full chunks -> in_ c ++ concat chunks = concat (map frame_bytes frames) ->
  (length frames <= n)%nat -> replies frames o (with_in [] c) = Some (c', o') ->
  read_reply n chunks o c = (c', [], o').
Proof.
  intros Hf. revert n chunks o c. induction Hf as [|f frames Hok Hf IH]; intros n chunks o c Hc Heq Hn Hr; [done|].
  destruct n as [|n]; cbn [length] in Hn; [lia|]. cbn [map concat] in Heq. cbn [read_reply].
  destruct (next_frame_reads f _ chunks c Hok Hc Heq) as (buffer & chunks' & -> & Hrest & Hc'). cbn [replies] in Hr.
  rewrite reply_frame_in in Hr |- *. destruct (reply_frame f o c) as [[c1 o1] []]; cbn [fst snd] in Hr |- *.
  - destruct frames; [|done]. injection Hr as <- <-. cbn in Hrest.
    apply app_nil in Hrest as [-> Hch]. destruct chunks' as [|ch chs]; [done|]. inversion Hc'; subst. cbn in Hch.
    by apply app_nil in Hch as [-> _].
  - apply IH; [done|done|lia|]. done.
Qed.

Lemma length_concat_frames frames : (length frames <= length (concat (map frame_bytes frames)))%nat.
Proof.
  induction frames as [|f frames IH]; [done|]. cbn [map concat length]. unfold frame_bytes at 1.
  rewrite length_app, frame_length. lia.
Qed.

(** ** The frames of an outcome *)

(** What the protocol carries of an outcome: the frames the server answers with. *)
Definition wire_value (cell : Cell) : ProtocolValue := mkProtocolValue (cell_null cell) (cell_text cell).
Definition columns_frame (columns : list bytes) : DecodedFrame :=
  mkDecodedFrame kColumns (le_put 2 (size_of columns) ++ concat (map put_bytes columns)).
Definition row_frame (cells : list Cell) : DecodedFrame :=
  mkDecodedFrame kRow (le_put 2 (size_of (map wire_value cells)) ++ concat (map put_value (map wire_value cells))).
Definition ok_frame (affected : N) (in_tx is_write : bool) (db : bytes) : DecodedFrame :=
  mkDecodedFrame kOk (le_put 8 affected ++ [byte_of_N (ok_flags in_tx is_write)] ++ put_bytes db).
Definition error_frame (code : N) (t : ErrorText) : DecodedFrame :=
  mkDecodedFrame kError
    ([byte_of_N code] ++ put_bytes (et_message t) ++ put_bytes (et_sql t) ++ le_put 4 (et_begin_line t) ++
     le_put 4 (et_begin_column t) ++ le_put 4 (et_end_line t) ++ le_put 4 (et_end_column t) ++ []).

(** The code of an error: an error of the cursor has none. *)
Definition wire_code (from_cursor : bool) (o : Outcome) : N := if from_cursor then 0 else o_code o.

Definition answer_frames (from_cursor : bool) (db : bytes) (o : Outcome) : list DecodedFrame :=
  if negb (o_ok o) then [error_frame (wire_code from_cursor o) (o_text o)]
  else if o_has_rows o then
    columns_frame (o_columns o) :: map row_frame (o_rows o) ++ [ok_frame (size_of (o_rows o)) (o_in_tx o) false db]
  else [ok_frame (o_affected o) (o_in_tx o) (o_is_write o) db].

(** What the client then holds; [tx] is the flag it kept from the last success. *)
Definition over_wire (tx from_cursor : bool) (o : Outcome) : Outcome :=
  if negb (o_ok o) then mkOutcome false false false [] [] 0 tx (wire_code from_cursor o) (o_text o) 0 []
  else if o_has_rows o then
    mkOutcome true true false (o_columns o) (o_rows o) (size_of (o_rows o)) (o_in_tx o) 0 no_text 0 []
  else mkOutcome true false (o_is_write o) [] [] (o_affected o) (o_in_tx o) 0 no_text 0 [].

(** The numbers that must fit their fields, and the frames the limit. *)
Definition text_fits (t : ErrorText) : Prop :=
  u32 (et_begin_line t) /\ u32 (et_begin_column t) /\ u32 (et_end_line t) /\ u32 (et_end_column t).
Record fits (from_cursor : bool) (db : bytes) (o : Outcome) : Prop := {
  fits_frames : Forall frame_ok (answer_frames from_cursor db o);
  fits_width : size_of (o_columns o) < 65536;
  fits_count : u64 (size_of (o_rows o));
  fits_affected : u64 (o_affected o);
  fits_text : text_fits (o_text o) }.

Lemma payload_rest (a b : bytes) : payload_ok (a ++ b) -> payload_ok b.
Proof.
  unfold payload_ok, size_of. rewrite length_app. lia.
Qed.

Lemma short_put s : payload_ok (put_bytes s) -> short s.
Proof.
  with_strategy transparent [put_bytes] unfold put_bytes. intros H%payload_rest. by apply payload_u32.
Qed.

Lemma payload_piece (a b c : bytes) : payload_ok (a ++ b ++ c) -> payload_ok b.
Proof. unfold payload_ok, size_of. rewrite !length_app. lia. Qed.

Lemma payload_concat {A} (enc : A -> bytes) l a : a ∈ l -> payload_ok (concat (map enc l)) -> payload_ok (enc a).
Proof.
  intros Hin. apply list_elem_of_split in Hin as (l1 & l2 & ->).
  rewrite map_app, concat_app. cbn [map concat]. apply payload_piece.
Qed.

Lemma columns_read columns : frame_ok (columns_frame columns) -> size_of columns < 65536 ->
  decode_columns (frame_payload (columns_frame columns)) = Some columns.
Proof.
  intros Hf Hn. unfold frame_ok in Hf. cbn in Hf. apply payload_rest in Hf.
  apply (get_list_put get_bytes put_bytes); [done|]. intros a rest Hin.
  apply get_bytes_put, short_put, (payload_concat _ _ _ Hin Hf).
Qed.

Lemma row_read cells : frame_ok (row_frame cells) -> size_of cells < 65536 ->
  Protocol.decode_row (frame_payload (row_frame cells)) = Some (map wire_value cells).
Proof.
  intros Hf Hn. unfold frame_ok in Hf. cbn [row_frame frame_payload] in Hf |- *. apply payload_rest in Hf.
  apply (get_list_put get_value put_value); [unfold size_of in *; by rewrite length_map|]. intros v rest Hin.
  apply get_value_put. pose proof (payload_concat _ _ _ Hin Hf) as Hv. apply payload_rest in Hv.
  by apply short_put.
Qed.

Lemma ok_read affected in_tx is_write db :
  frame_ok (ok_frame affected in_tx is_write db) -> u64 affected ->
  decode_ok (frame_payload (ok_frame affected in_tx is_write db)) = Some (affected, ok_flags in_tx is_write, db).
Proof.
  intros Hf Hn. unfold frame_ok in Hf. cbn [ok_frame frame_payload] in Hf |- *. apply payload_rest in Hf.
  apply payload_rest in Hf. apply short_put in Hf.
  assert (ok_flags in_tx is_write < 256) by by destruct in_tx, is_write.
  unfold decode_ok, run, get_byte. rewrite <- (app_nil_r (put_bytes db)). repeat proto_step. done.
Qed.

Lemma error_read code t :
  frame_ok (error_frame code t) -> code < 256 -> text_fits t ->
  decode_error (frame_payload (error_frame code t)) =
    Some (mkErrorFrame code (et_message t) (et_sql t) (et_begin_line t) (et_begin_column t) (et_end_line t)
            (et_end_column t) None).
Proof.
  intros Hf Hc (H1 & H2 & H3 & H4). unfold frame_ok in Hf. cbn [error_frame frame_payload] in Hf |- *.
  assert (short (et_message t)) by (apply short_put; by apply payload_piece in Hf).
  assert (short (et_sql t)) by (apply short_put; rewrite app_assoc in Hf; by apply payload_piece in Hf).
  unfold decode_error, run, get_byte. repeat proto_step. erewrite preader_bind_some by done. done.
Qed.

(** ** The client reads the outcome *)

Definition after_ok (db : bytes) (in_tx : bool) (c : RemoteConnection) : RemoteConnection :=
  mkRemote (in_ c) db in_tx (protocol_version_ c) (server_version_ c) (capabilities_ c).
Definition after_answer (db : bytes) (o : Outcome) (c : RemoteConnection) : RemoteConnection :=
  if o_ok o then after_ok db (o_in_tx o) c else c.

Lemma flags_read in_tx is_write :
  negb (N.land (ok_flags in_tx is_write) 1 =? 0) = in_tx /\ negb (N.land (ok_flags in_tx is_write) 2 =? 0) = is_write.
Proof. by destruct in_tx, is_write. Qed.

Lemma cells_back cells : map cell_of_value (map wire_value cells) = cells.
Proof. rewrite map_map. rewrite <- (map_id cells) at 2. apply map_ext. by intros []. Qed.

(** An outcome on its way: columns and rows read so far. *)
Definition reading (columns : list bytes) (rows : list (list Cell)) : Outcome :=
  mkOutcome false false false columns rows 0 false 0 no_text 0 [].

Lemma replies_rows rows columns done rest c :
  Forall (fun cells => frame_ok (row_frame cells) /\ size_of cells < 65536) rows ->
  replies (map row_frame rows ++ rest) (reading columns done) c = replies rest (reading columns (done ++ rows)) c.
Proof.
  intros Hr. revert done. induction Hr as [|cells rows [Hf Hn] Hr IH]; intros done; [by rewrite app_nil_r|].
  cbn [map app replies]. unfold reply_frame. change (frame_type (row_frame cells)) with kRow. rewrite (row_read cells Hf Hn). cbn -[replies reading].
  change (mkOutcome _ _ _ _ ?l _ _ _ _ _ _) with (reading columns l). by rewrite cells_back, IH, <- app_assoc.
Qed.

Lemma replies_ok columns rows affected in_tx is_write db c :
  frame_ok (ok_frame affected in_tx is_write db) -> u64 affected ->
  replies [ok_frame affected in_tx is_write db] (reading columns rows) c =
    Some (after_ok db in_tx c, mkOutcome true (negb (bool_decide (columns = []))) is_write columns rows affected in_tx 0 no_text 0 []).
Proof.
  intros Hf Hn. cbn [replies]. unfold reply_frame. change (frame_type (ok_frame _ _ _ _)) with kOk.
  rewrite (ok_read _ _ _ _ Hf Hn).
  destruct (flags_read in_tx is_write) as [-> ->]. done.
Qed.

Lemma replies_answer from_cursor db o c :
  fits from_cursor db o -> Forall (fun cells => length cells = length (o_columns o)) (o_rows o) ->
  o_code o < 256 -> (o_has_rows o = true -> o_columns o <> []) ->
  replies (answer_frames from_cursor db o) new_outcome c =
    Some (after_answer db o c, over_wire (remote_tx_ c) from_cursor o).
Proof.
  intros [Hf Hw Hcount Haff Ht] Hrows Hcode Hcols. unfold answer_frames, over_wire, after_answer in *.
  change new_outcome with (reading [] []). destruct (o_ok o); cbn [negb] in *; [destruct (o_has_rows o)|].
  - apply Forall_cons in Hf as [Hc Hf]. apply Forall_app in Hf as [Hr Hok]. apply Forall_cons in Hok as [Hok _].
    cbn [replies]. unfold reply_frame at 1. change (frame_type (columns_frame _)) with kColumns. rewrite (columns_read _ Hc Hw).
    cbn -[replies reading]. change (replies ?fs (mkOutcome _ _ _ ?cs _ _ _ _ _ _ _) c) with (replies fs (reading cs []) c). rewrite replies_rows.
    + rewrite replies_ok by done. cbn [app]. specialize (Hcols eq_refl). by destruct (o_columns o).
    + apply Forall_and. split; [exact (proj1 (Forall_fmap row_frame frame_ok (o_rows o)) Hr)|]. eapply Forall_impl; [exact Hrows|]. cbn beta. unfold size_of in *.
      by intros cells ->.
  - apply Forall_cons in Hf as [Hok _]. by rewrite replies_ok.
  - apply Forall_cons in Hf as [He _]. assert (wire_code from_cursor o < 256) by by destruct from_cursor.
    cbn [replies]. unfold reply_frame. change (frame_type (error_frame _ _)) with kError.
    rewrite (error_read _ _ He) by done. cbn. by destruct (o_text o).
Qed.

(** ** The server sends the outcome *)

Section Serving.
Context {E I : Type} `{!ScanIterator I, !KVEngine E I, !KVTransactions E}.
Implicit Types (s : Session E) (rc : ResultCursor (E:=E)).

Lemma rc_next_error fuel e rc e' rc' code : rc_next fuel e rc = (e', rc', Err code) -> rc_error rc' = code.
Proof.
  unfold rc_next. destruct (ce_is_error _); [by intros [= <- <- <-]|]. destruct (rc_closed rc); [by intros [= <- <- <-]|].
  destruct (if rc_opened rc then _ else _) as [[e1 rc1] st]. destruct (negb _); [by intros [= <- <- <-]|].
  destruct (x_next fuel e1 (rc_root rc1)) as [root [row|c]]; by intros [= <- <- <-].
Qed.

Lemma local_cells_full (row : Row) : local_cells (length row) row = map cell_of row.
Proof.
  unfold local_cells. induction row as [|v row IH]; [done|]. cbn [length seq map]. f_equal.
  by rewrite <- seq_shift, map_map.
Qed.

Lemma wire_value_of v : wire_value (cell_of v) = value_of v.
Proof. unfold cell_of, value_of. by destruct (is_null v). Qed.

Lemma encode_row_frame (row : Row) : Protocol.encode_row (map value_of row) = frame_bytes (row_frame (map cell_of row)).
Proof.
  unfold row_frame, frame_bytes. cbn [frame_type frame_payload]. rewrite map_map.
  by rewrite (map_ext _ _ wire_value_of).
Qed.

Definition rows_wide turns fuel e rc : Prop :=
  Forall (fun row : Row => length row = length (rc_columns rc)) (fetch_all turns fuel e rc).1.

Lemma rc_next_columns fuel e rc e' rc' r : rc_next fuel e rc = (e', rc', r) -> rc_columns rc' = rc_columns rc.
Proof.
  unfold rc_next, open_now. intros H. repeat case_match; by simplify_eq/=.
Qed.

Lemma local_rows_width turns fuel width e rc e' rows code :
  local_rows turns fuel width e rc = (e', Some (rows, code)) -> Forall (fun cells => length cells = width) rows.
Proof.
  revert e rc rows. induction turns as [|n IH]; intros e rc rows; cbn [local_rows]; [done|].
  destruct (rc_next fuel e rc) as [[e1 rc1] [row|c]]; [|intros [= <- <- <-]; constructor].
  destruct (local_rows n fuel width e1 rc1) as [e2 [[rows1 code1]|]] eqn:El; [|done]. intros [= <- <- <-].
  constructor; [|by eapply IH]. unfold local_cells. by rewrite length_map, length_seq.
Qed.

(** The same rows and the same end as inside the process, while they are allowed. *)
Lemma send_rows_local turns fuel max count e rc out e' rows code :
  local_rows turns fuel (length (rc_columns rc)) e rc = (e', Some (rows, code)) -> rows_wide turns fuel e rc ->
  count + size_of rows <= max ->
  exists rc', send_rows turns fuel max count e rc out =
    (e', rc', Some (if ce_is_error code then SentError code
                    else SentRows (out ++ concat (map frame_bytes (map row_frame rows))) (count + size_of rows))) /\
    (ce_is_error code = false -> ce_is_error (rc_error rc') = false).
Proof.
  unfold rows_wide. revert e rc count out rows. induction turns as [|n IH]; intros e rc count out rows; [done|].
  cbn [local_rows send_rows fetch_all]. destruct (rc_next fuel e rc) as [[e1 rc1] [row|c]] eqn:En.
  - pose proof (rc_next_columns _ _ _ _ _ _ En) as Hcols. rewrite <- Hcols.
    destruct (local_rows n fuel _ e1 rc1) as [e2 [[rows1 code1]|]] eqn:El; [|done]. intros [= <- <- <-].
    destruct (fetch_all n fuel e1 rc1) as [l c] eqn:Ef. intros [Hw Hl]%Forall_cons Hmax.
    unfold size_of in *. cbn [length] in Hmax. destruct (_ <? _) eqn:Et; boolify; [lia|].
    destruct (IH e1 rc1 (count + 1) (out ++ Protocol.encode_row (map value_of row)) rows1 El) as (rc' & -> & Herr);
      [by rewrite Ef|lia|].
    exists rc'. split; [|done]. do 3 f_equal. destruct (ce_is_error code1); [done|]. f_equal; [|cbn [length]; lia].
    rewrite <- Hw, local_cells_full, encode_row_frame. cbn [map concat]. by rewrite <- app_assoc.
  - intros [= <- <- <-] _ _. exists rc1. apply rc_next_error in En as <-. unfold size_of. cbn.
    rewrite app_nil_r, N.add_0_r. by destruct (ce_is_error (rc_error rc1)) eqn:Ec; rewrite ?Ec.
Qed.

Lemma answer_bytes from_cursor db o :
  concat (map frame_bytes (answer_frames from_cursor db o)) =
    if negb (o_ok o) then
      encode_error (mkErrorFrame (wire_code from_cursor o) (et_message (o_text o)) (et_sql (o_text o))
        (et_begin_line (o_text o)) (et_begin_column (o_text o)) (et_end_line (o_text o)) (et_end_column (o_text o)) None)
    else if o_has_rows o then
      (encode_columns (o_columns o) ++ concat (map frame_bytes (map row_frame (o_rows o)))) ++
      encode_ok (size_of (o_rows o)) (o_in_tx o) false db
    else encode_ok (o_affected o) (o_in_tx o) (o_is_write o) db.
Proof.
  unfold answer_frames. destruct (negb _); [by cbn; rewrite app_nil_r|]. destruct (o_has_rows o).
  - cbn [map concat]. rewrite map_app, concat_app. cbn [map concat]. by rewrite app_nil_r, <- app_assoc.
  - by cbn; rewrite app_nil_r.
Qed.

Lemma reply_cursor_local cursor_text config turns fuel s rc s' o :
  local_cursor cursor_text turns fuel s rc = (s', Some o) -> rows_wide turns fuel (engine_of s) rc ->
  size_of (o_rows o) <= max_result_rows config ->
  reply_cursor cursor_text config turns fuel s rc =
    (s', Some (concat (map frame_bytes (answer_frames true (current_database s') o)))).
Proof.
  intros Hl Hw Hmax. rewrite answer_bytes. unfold local_cursor, reply_cursor in *. revert Hl.
  destruct (x_produces_rows (rc_root rc)); cbn [negb]; [|by destruct (ce_is_error _); intros [= <- <-]].
  destruct (local_rows turns fuel _ _ rc) as [e [[rows code]|]] eqn:El; [|done]. intros [= <- <-].
  assert (Hm : 0 + size_of rows <= max_result_rows config) by by destruct (ce_is_error code).
  destruct (send_rows_local turns fuel _ 0 _ rc (encode_columns (rc_columns rc)) e rows code El Hw Hm) as (rc' & -> & Herr).
  destruct (ce_is_error code); [done|]. by rewrite (Herr eq_refl).
Qed.

Lemma local_cursor_outcome cursor_text turns fuel s rc s' o :
  local_cursor cursor_text turns fuel s rc = (s', Some o) ->
  Forall (fun cells => length cells = length (o_columns o)) (o_rows o) /\ o_code o < 256 /\
  (o_has_rows o = true -> x_produces_rows (rc_root rc) = true /\ o_columns o = rc_columns rc) /\ (o_ok o = true -> o_in_tx o = in_transaction_ s').
Proof.
  unfold local_cursor. intros H.
  assert (Hcode : forall code, cursor_code code < 256) by by intros [].
  destruct (x_produces_rows (rc_root rc)) eqn:Ep; cbn [negb] in H.
  - destruct (local_rows turns fuel _ _ rc) as [e [[rows code]|]] eqn:El; [|done]. injection H as <- <-.
    apply local_rows_width in El. destruct (ce_is_error code); split_and!; done || apply Hcode.
  - destruct (ce_is_error _); injection H as <- <-; split_and!; done || constructor || apply Hcode.
Qed.
End Serving.

Section Matching.
Context {E I : Type} `{!ScanIterator I, !KVEngine E I, !KVTransactions E}.
Context (parser : bytes -> option ASTNode) (scan_is_cheaper : option Z -> nat -> bool).
Context (plan_text : PlanNode -> bytes) (explain_text : PlanNode -> list Row -> bytes).
Context (describe : Session E -> bytes -> SessionErrorCode -> ErrorText) (cursor_text : CursorErrorCode -> bytes).
Context (leader_hint_for : Key -> E -> option LeaderHint).
Abbreviation run_sql := (Session.execute parser scan_is_cheaper plan_text explain_text).

(** Parsing apart from executing makes no difference to a statement that is
    not empty on a store that is open. *)
Lemma execute_split fuel now sql (s : Session E) :
  cat_is_open (catalog_ s) = true -> is_empty_statement (normalize_sql sql) = false ->
  run_sql fuel now sql s =
    match parse parser sql with
    | Err error => (s, Err (parse_error_to_session_error error s))
    | Ok parsed => execute_parsed scan_is_cheaper plan_text explain_text fuel now parsed s
    end.
Proof.
  intros Ho He. unfold Session.execute. rewrite He, Ho. cbn [negb]. unfold parse. by rewrite normalize_idempotent.
Qed.

(** On a node that leads every group, the store adds nothing. *)
Lemma on_this_node fuel now parsed (s : Session E) : (forall k e, leader_hint_for k e = None) ->
  execute_on_this_node scan_is_cheaper plan_text explain_text leader_hint_for fuel now parsed s =
    (let '(s', r) := execute_parsed scan_is_cheaper plan_text explain_text fuel now parsed s in (s', None, r)).
Proof.
  intros Hh. unfold execute_on_this_node.
  assert (Hn : forall s, match routing_key parsed s with Some k => leader_hint_for k (engine_of s) | None => None end = None)
    by (intros s0; by destruct (routing_key parsed s0)).
  rewrite Hn. destruct (execute_parsed _ _ _ _ _ _ _) as [s' [rc|[code|]]]; [done| |done]. destruct code; try done. by rewrite Hn.
Qed.

(** What is asked of a statement's answer: the cursor's rows have its columns. *)
Definition answer_wide (turns fuel : nat) (s : Session E) (r : Answer (E:=E)) : Prop :=
  match r with
  | Ok rc => rows_wide turns fuel (engine_of s) rc /\ (x_produces_rows (rc_root rc) = true -> rc_columns rc <> [])
  | Err _ => True
  end.
Definition from_cursor (r : Answer (E:=E)) : bool := match r with Ok _ => true | Err _ => false end.

Lemma local_outcome turns fuel now sql (s s1 s' : Session E) r o :
  run_sql fuel now sql s = (s1, r) -> answer_wide turns fuel s1 r ->
  local_execute parser scan_is_cheaper plan_text explain_text describe cursor_text turns fuel now sql s = (s', Some o) ->
  Forall (fun cells => length cells = length (o_columns o)) (o_rows o) /\ o_code o < 256 /\
  (o_has_rows o = true -> o_columns o <> []) /\ (o_ok o = true -> o_in_tx o = in_transaction_ s').
Proof.
  intros Hx Hw. unfold local_execute. rewrite Hx. destruct r as [rc|[code|]]; [|intros [= <- <-]|done].
  - intros H. destruct (local_cursor_outcome _ _ _ _ _ _ _ H) as (Hrows & Hcode & Hc & Htx). split_and!; try done.
    intros Hr. destruct (Hc Hr) as [Hp ->]. by apply Hw.
  - split_and!; try done. by destruct code.
Qed.

Lemma serve_query_local config turns fuel now sql (s s1 s' : Session E) r o :
  cat_is_open (catalog_ s) = true -> is_empty_statement (normalize_sql sql) = false ->
  (forall k e, leader_hint_for k e = None) -> run_sql fuel now sql s = (s1, r) -> answer_wide turns fuel s1 r ->
  local_execute parser scan_is_cheaper plan_text explain_text describe cursor_text turns fuel now sql s = (s', Some o) ->
  size_of (o_rows o) <= max_result_rows config ->
  serve_query parser scan_is_cheaper plan_text explain_text describe cursor_text leader_hint_for config
    (mkQueues true true) turns fuel now sql s =
    (s', Some (concat (map frame_bytes (answer_frames (from_cursor r) (current_database s') o)))).
Proof.
  intros Ho He Hh Hx Hw Hl Hmax. unfold local_execute in Hl. rewrite Hx in Hl. rewrite (execute_split _ _ _ _ Ho He) in Hx.
  unfold serve_query. cbn [parse_accepts execute_accepts negb]. destruct (parse parser sql) as [parsed|error].
  - rewrite (on_this_node _ _ _ _ Hh), Hx. destruct r as [rc|[code|]]; [|injection Hl as <- <-|done].
    + by apply reply_cursor_local; [|apply Hw|].
    + by rewrite answer_bytes.
  - injection Hx as <- <-. destruct (parse_error_to_session_error error s) as [code|]; [|done].
    injection Hl as <- <-. by rewrite answer_bytes.
Qed.
End Matching.

(** C11: a statement sent over the wire has the outcome it has inside the process.
    For a statement that is not empty, on an open store whose node leads, with
    room in the queues, at most [max_result_rows] rows and frames within the
    limit, the server changes the session as a local connection would, and its
    answer, cut into chunks in any way, is read by the client as the local
    outcome up to what the protocol does not carry ([over_wire]); nothing is left
    in the client's buffer, and after a success its transaction flag and its
    database are those of the session. *)
Theorem remote_matches_local {E I} `{!ScanIterator I, !KVEngine E I, !KVTransactions E} parser scan_is_cheaper plan_text
    explain_text describe cursor_text leader_hint_for config turns fuel now sql (s s1 s' : Session E) r o c :
  cat_is_open (catalog_ s) = true -> is_empty_statement (normalize_sql sql) = false ->
  (forall k e, leader_hint_for k e = None) ->
  Session.execute parser scan_is_cheaper plan_text explain_text fuel now sql s = (s1, r) -> answer_wide turns fuel s1 r ->
  local_execute parser scan_is_cheaper plan_text explain_text describe cursor_text turns fuel now sql s = (s', Some o) ->
  size_of (o_rows o) <= max_result_rows config -> fits (from_cursor r) (current_database s') o -> in_ c = [] ->
  exists reply,
    serve_query parser scan_is_cheaper plan_text explain_text describe cursor_text leader_hint_for config
      (mkQueues true true) turns fuel now sql s = (s', Some reply) /\
    forall chunks, full chunks -> concat chunks = reply ->
      exists c', remote_execute sql chunks c = (encode_query sql, (c', [], over_wire (remote_tx_ c) (from_cursor r) o)) /\
        in_ c' = [] /\
        (o_ok o = true -> remote_tx_ c' = in_transaction_ s' /\ remote_db_ c' = current_database s').
Proof.
  intros Ho He Hh Hx Hw Hl Hmax Hfits Hin. eexists. split; [by eapply serve_query_local|]. intros chunks Hc Heq.
  destruct (local_outcome _ _ _ _ _ _ _ _ _ _ _ _ _ _ _ Hx Hw Hl) as (Hrows & Hcode & Hcols & Htx).
  exists (after_answer (current_database s') o c). split; [|split].
  - unfold remote_execute. f_equal. eapply read_reply_frames; [apply Hfits|done|by rewrite Hin|..].
    + rewrite Hin, Heq. cbn [app]. rewrite length_concat_frames. lia.
    + rewrite <- Hin, with_in_same. by apply replies_answer.
  - unfold after_answer. by destruct (o_ok o).
  - intros Hok. unfold after_answer. rewrite Hok. cbn. by rewrite (Htx Hok).
Qed.

(** ** A row over the wire *)

Definition wire_parser (text : bytes) : option ASTNode :=
  if bytes_eqb text (str "select * from t;")
  then tree_of_statement (SqlSelect SelStar (str "t") None None SlNone) else demo_parser text.
Definition wire_session : Session Conn := (demo_execute "commit" demo_wrote).1.
Definition wire_local : Session Conn * option Outcome :=
  local_execute wire_parser (fun _ _ => false) (fun _ => []) (fun _ _ => []) (fun _ _ _ => no_text) (fun _ => []) 3 10 7
    (str "select * from t") wire_session.
Definition wire_outcome : Outcome := default new_outcome wire_local.2.
Definition wire_answer : Session Conn * Answer (E:=Conn) :=
  Session.execute wire_parser (fun _ _ => false) (fun _ => []) (fun _ _ => []) 10 7 (str "select * from t") wire_session.

Lemma wire_local_some : wire_local = (wire_local.1, Some wire_outcome).
Proof.
  unfold wire_outcome. destruct wire_local as [s' [o|]] eqn:E; [done|].
  assert (H : is_Some wire_local.2) by (vm_compute; by eexists). rewrite E in H. by destruct H.
Qed.

Lemma frames_fit (frames : list DecodedFrame) :
  forallb (fun f => N.leb (size_of (frame_payload f)) kMaxFrameSize) frames = true -> Forall frame_ok frames.
Proof.
  intros H. apply List.Forall_forall. intros f Hin. apply N.leb_le. by apply (proj1 (forallb_forall _ _) H).
Qed.

Lemma full_bytes (l : bytes) : full (map (fun b => [b]) l) /\ concat (map (fun b => [b]) l) = l.
Proof. split; [by apply Forall_map, Forall_true|]. induction l as [|b l IH]; [done|]. cbn. by rewrite IH. Qed.

(** The answer to a SELECT, read a byte at a time. *)
Lemma remote_matches_local_witness :
  exists reply c',
    serve_query wire_parser (fun _ _ => false) (fun _ => []) (fun _ _ => []) (fun _ _ _ => no_text) (fun _ => [])
      (fun _ _ => None) (mkServerConfig 100) (mkQueues true true) 3 10 7 (str "select * from t") wire_session =
      (wire_local.1, Some reply) /\
    remote_execute (str "select * from t") (map (fun b => [b]) reply) new_remote =
      (encode_query (str "select * from t"), (c', [], over_wire false true wire_outcome)) /\
    o_rows wire_outcome = [[mkCell false (str "1"); mkCell false (str "x")]] /\ remote_db_ c' = str "d".
Proof.
  destruct (remote_matches_local wire_parser (fun _ _ => false) (fun _ => []) (fun _ _ => []) (fun _ _ _ => no_text)
    (fun _ => []) (fun _ _ => None) (mkServerConfig 100) 3 10 7 (str "select * from t") wire_session wire_answer.1
    wire_local.1 wire_answer.2 wire_outcome new_remote) as (reply & Hserve & Hread).
  - vm_compute. reflexivity.
  - vm_compute. reflexivity.
  - reflexivity.
  - apply surjective_pairing.
  - vm_compute. split; [repeat constructor|discriminate].
  - exact wire_local_some.
  - vm_compute. discriminate.
  - split; [apply frames_fit; vm_compute; reflexivity|vm_compute; reflexivity..|].
    unfold text_fits. vm_compute. repeat split.
  - reflexivity.
  - destruct (full_bytes reply) as [Hfull Hconcat].
    destruct (Hread _ Hfull Hconcat) as (c' & Hx & _ & Hok).
    exists reply, c'. split; [exact Hserve|].
    assert (Hf : from_cursor wire_answer.2 = true) by (vm_compute; reflexivity). rewrite Hf in Hx.
    split; [exact Hx|]. split; [vm_compute; reflexivity|].
    destruct Hok as [_ Hdb]; [vm_compute; reflexivity|]. rewrite Hdb. vm_compute. reflexivity.
Defined.

(** ** The capabilities of the node it was sent to are forgotten *)

(** A client that follows a hint keeps the capabilities of the node it left: a
    hint of a node that announces them is then ignored. *)
Example redirect_keeps_capabilities :
  exists c chunks,
    redirect (fun _ _ => Some [serve_hello]) (str "h:7") new_remote = Some (c, chunks) /\ capabilities_ c = 0 /\
    protocol_version_ c = kProtocolVersion.
Proof. eexists _, _. split; [vm_compute; reflexivity|]. split; reflexivity. Qed.
