(* ===== verification/Peers.v ===== *)
(** * The list of peers: [raft/peers.cpp]

    [parse_peer_list] reads the static members of a group from the configuration,
    [format_peer_list] writes them. What is parsed satisfies the rules of
    [raft/peers.h], and every list that does is read back from its text. *)

From S2P Require Import Prelude Bytes SqlTypes Temporal Rewriter GroupRouter Remote.
Local Open Scope N_scope.

(** [struct PeerConfig] *)
Record PeerConfig := mkPeer { pc_node_id : N; pc_host : bytes; pc_port : N }.

#[export] Instance PeerConfig_eq_dec : EqDecision PeerConfig.
Proof. solve_decision. Defined.

(** [std::to_string] of an unsigned number. *)
Definition unsigned_to_string (n : N) : bytes := int_to_string (Z.of_N n).

(** [std::from_chars] to an unsigned type whose values are below [limit], which
    has to take the whole text. *)
Fixpoint from_chars_unsigned (limit : N) (text : bytes) (value : N) : option N :=
  match text with
  | [] => Some value
  | b :: rest =>
      if is_digit b then
        let value := value * 10 + (Byte.to_N b - 48) in
        if limit <=? value then None else from_chars_unsigned limit rest value
      else None
  end.

Definition parse_unsigned (limit : N) (text : bytes) : option N :=
  match text with [] => None | _ => from_chars_unsigned limit text 0 end.

Definition at_sign : byte := x40.
Definition colon : byte := x3a.

Definition peer_error (entry : bytes) (what : string) : bytes :=
  str "raft.peers: entry '" ++ entry ++ str what.
Definition shape_error (entry : bytes) : bytes := peer_error entry "' must look like <node_id>@<host>:<port>".

(** One entry: its node id, host and port. *)
Definition parse_peer (entry : bytes) : result bytes PeerConfig :=
  match split_at at_sign entry with
  | None => Err (shape_error entry)
  | Some (id_text, after_at) =>
      match split_last_colon entry with
      | None => Err (shape_error entry)
      | Some (before_colon, port_text) =>
          if (length before_colon <? length id_text)%nat then Err (shape_error entry)
          else
            match parse_unsigned two64 id_text with
            | None | Some 0 => Err (peer_error entry "' has an invalid node id (must be a positive integer)")
            | Some id =>
                let host := take (length before_colon - length id_text - 1) after_at in
                if bool_decide (host = []) then Err (peer_error entry "' has an empty host")
                else
                  match parse_unsigned two32 port_text with
                  | None => Err (peer_error entry "' has an invalid port (must be in [1, 65535])")
                  | Some port =>
                      if (port =? 0) || (65535 <? port)
                      then Err (peer_error entry "' has an invalid port (must be in [1, 65535])")
                      else Ok (mkPeer id host port)
                  end
            end
      end
  end.

Definition endpoint (p : PeerConfig) : bytes := pc_host p ++ [colon] ++ unsigned_to_string (pc_port p).

(** The two sets and [peers.push_back]. *)
Definition add_peer (p : PeerConfig) (peers : list PeerConfig) : result bytes (list PeerConfig) :=
  if existsb (fun q => pc_node_id q =? pc_node_id p) peers
  then Err (str "raft.peers: duplicate node id " ++ unsigned_to_string (pc_node_id p))
  else if existsb (fun q => bytes_eqb (endpoint q) (endpoint p)) peers
  then Err (str "raft.peers: duplicate endpoint " ++ endpoint p)
  else Ok (peers ++ [p]).

(** One turn per comma; each takes at least the comma off the text, so its length
    is enough fuel. *)
Fixpoint peer_loop (fuel : nat) (text : bytes) (peers : list PeerConfig) : result bytes (list PeerConfig) :=
  match fuel with
  | O => Ok peers
  | S n =>
      let '(raw, rest) := match split_at comma text with
                          | Some (before, after) => (before, Some after)
                          | None => (text, None)
                          end in
      match trim raw with
      | [] => match rest with None => Ok peers | Some _ => Err (str "raft.peers: empty entry") end
      | entry =>
          let* p := parse_peer entry in
          let* peers := add_peer p peers in
          match rest with None => Ok peers | Some after => peer_loop n after peers end
      end
  end.

Definition parse_peer_list (text : bytes) : result bytes (list PeerConfig) :=
  let* peers := peer_loop (S (length text)) text [] in
  match peers with [] => Err (str "raft.peers: must not be empty") | _ => Ok peers end.

Definition format_peer (p : PeerConfig) : bytes :=
  unsigned_to_string (pc_node_id p) ++ [at_sign] ++ endpoint p.

Definition format_peer_list (peers : list PeerConfig) : bytes :=
  fold_left (fun res p => (if bool_decide (res = []) then res else res ++ [comma]) ++ format_peer p) peers [].

Example peers_example :
  parse_peer_list (str " 1@127.0.0.1:5434, 2@h:x:5435,") =
    Ok [mkPeer 1 (str "127.0.0.1") 5434; mkPeer 2 (str "h:x") 5435].
Proof. vm_compute. reflexivity. Qed.

(** ** Numbers *)

Lemma digit_value d : (0 <= d <= 9)%Z -> is_digit (digit_char d) = true /\ Byte.to_N (digit_char d) - 48 = Z.to_N d.
Proof.
  intros Hd. unfold is_digit, digit_char. rewrite to_N_byte_of_N, N.mod_small by lia.
  rewrite (proj2 (N.leb_le _ _)), (proj2 (N.leb_le _ _)) by lia. split; [done|lia].
Qed.

Lemma dec_digits_read limit fuel : forall n acc s, (0 <= n < 10 ^ Z.of_nat fuel)%Z ->
  let v := acc * 10 ^ N.of_nat (length (dec_digits fuel n)) + Z.to_N n in
  v < limit -> from_chars_unsigned limit (dec_digits fuel n ++ s) acc = from_chars_unsigned limit s v.
Proof.
  induction fuel as [|fuel IH]; intros n acc s Hn v Hv; unfold v in *; clear v.
  { simpl in *. f_equal. lia. }
  assert (Hp : (10 ^ Z.of_nat (S fuel) = 10 * 10 ^ Z.of_nat fuel)%Z) by (rewrite Nat2Z.inj_succ, Z.pow_succ_r; lia).
  cbn [dec_digits] in *. destruct (Z.ltb_spec n 10) as [Hlt|Hge]; cbn [app] in *.
  - destruct (digit_value (n mod 10)) as [H1 H2]; [rewrite Z.mod_small; lia|]. cbn [from_chars_unsigned length] in *.
    rewrite H1, H2. rewrite Z.mod_small by lia. change (10 ^ N.of_nat 1) with 10 in *.
    by rewrite (proj2 (N.leb_gt _ _) Hv).
  - rewrite length_app, Nat2N.inj_add, N.pow_add_r in *. cbn [length] in *. change (10 ^ N.of_nat 1) with 10 in *.
    pose proof (Z.mod_pos_bound n 10 ltac:(lia)) as Hm. pose proof (Z.div_mod n 10 ltac:(lia)) as Hdm.
    assert (Hq : (0 <= n / 10 < 10 ^ Z.of_nat fuel)%Z) by (split; [apply Z.div_pos; lia|apply Z.div_lt_upper_bound; lia]).
    assert (Hto : Z.to_N n = 10 * Z.to_N (n / 10) + Z.to_N (n mod 10)) by (rewrite Hdm at 1; lia).
    rewrite <- app_assoc, IH by (try exact Hq; lia). cbn [app from_chars_unsigned].
    destruct (digit_value (n mod 10)) as [H1 H2]; [lia|]. rewrite H1, H2. cbv zeta.
    replace ((acc * 10 ^ N.of_nat (length (dec_digits fuel (n / 10))) + Z.to_N (n / 10)) * 10 + Z.to_N (n mod 10))
      with (acc * (10 ^ N.of_nat (length (dec_digits fuel (n / 10))) * 10) + Z.to_N n) by lia.
    by rewrite (proj2 (N.leb_gt _ _) Hv).
Qed.

Lemma dec_digits_shape fuel n : (0 <= n)%Z -> (0 < fuel)%nat ->
  dec_digits fuel n <> [] /\ Forall (fun b => is_digit b = true) (dec_digits fuel n).
Proof.
  revert n. induction fuel as [|fuel IH]; intros n Hn Hf; [lia|]. cbn [dec_digits].
  split; [by intros [_ ?]%app_eq_nil|]. apply Forall_app. split.
  - destruct (Z.ltb_spec n 10); [constructor|]. destruct fuel as [|fuel]; [constructor|].
    apply IH; [apply Z.div_pos; lia|lia].
  - constructor; [|constructor]. apply digit_value. pose proof (Z.mod_pos_bound n 10). lia.
Qed.

Lemma unsigned_shape n : unsigned_to_string n <> [] /\ Forall (fun b => is_digit b = true) (unsigned_to_string n).
Proof.
  unfold unsigned_to_string, int_to_string. rewrite (proj2 (Z.ltb_ge _ _)) by lia. apply dec_digits_shape; lia.
Qed.

Lemma unsigned_read limit n : n < limit -> limit <= two64 -> parse_unsigned limit (unsigned_to_string n) = Some n.
Proof.
  intros Hn Hl. destruct (unsigned_shape n) as [Hne _]. unfold parse_unsigned. unfold two64 in Hl.
  destruct (unsigned_to_string n) as [|b t] eqn:E; [done|]. rewrite <- E. clear Hne E.
  unfold unsigned_to_string, int_to_string. rewrite (proj2 (Z.ltb_ge _ _)) by lia.
  rewrite <- (app_nil_r (dec_digits 20 (Z.of_N n))), dec_digits_read; simpl; [f_equal; lia| |lia].
  split; [lia|]. change (10 ^ Z.of_nat 20)%Z with 100000000000000000000%Z. lia.
Qed.

(** ** Splitting *)

Lemma split_at_app c l r : c ∉ l -> split_at c (l ++ c :: r) = Some (l, r).
Proof.
  induction l as [|b l IH]; intros Hn; simpl; [by rewrite bool_decide_eq_true_2|].
  apply not_elem_of_cons in Hn as [Hb Hn]. by rewrite bool_decide_eq_false_2, (IH Hn) by congruence.
Qed.

Lemma split_at_none c l : c ∉ l -> split_at c l = None.
Proof.
  induction l as [|b l IH]; intros Hn; simpl; [done|]. apply not_elem_of_cons in Hn as [Hb Hn].
  by rewrite bool_decide_eq_false_2, (IH Hn) by congruence.
Qed.

Lemma split_at_inv c l : match split_at c l with
  | Some (b, a) => l = b ++ c :: a /\ c ∉ b | None => c ∉ l end.
Proof.
  induction l as [|x l IH]; simpl; [apply not_elem_of_nil|]. case_bool_decide as Hx.
  - subst. split; [done|apply not_elem_of_nil].
  - destruct (split_at c l) as [[b a]|]; [|by apply not_elem_of_cons].
    destruct IH as [-> Hn]. split; [done|]. by apply not_elem_of_cons.
Qed.

Lemma split_last_colon_none l : colon ∉ l -> split_last_colon l = None.
Proof.
  induction l as [|b l IH]; intros Hn; simpl; [done|]. apply not_elem_of_cons in Hn as [Hb Hn].
  by rewrite (IH Hn), bool_decide_eq_false_2 by (unfold colon in Hb; congruence).
Qed.

Lemma split_last_colon_app l r : colon ∉ r -> split_last_colon (l ++ colon :: r) = Some (l, r).
Proof.
  intros Hn. induction l as [|b l IH]; simpl; [by rewrite (split_last_colon_none _ Hn)|].
  by rewrite IH.
Qed.

Lemma split_last_colon_inv l b a : split_last_colon l = Some (b, a) -> l = b ++ colon :: a /\ colon ∉ a.
Proof.
  revert b. induction l as [|x l IH]; intros b; simpl; [done|].
  destruct (split_last_colon l) as [[h p]|] eqn:E.
  - intros [= <- <-]. destruct (IH h eq_refl) as [-> Hn]. done.
  - case_bool_decide as Hx; [|done]. intros [= <- <-]. subst x. split; [done|].
    intros (l1 & l2 & ->)%list_elem_of_split. clear -E. induction l1 as [|y l1 IH]; simpl in E.
    + destruct (split_last_colon l2) as [[? ?]|]; done.
    + destruct (split_last_colon (l1 ++ colon :: l2)) as [[? ?]|]; [done|]. by apply IH.
Qed.

Lemma digit_neq b c : is_digit b = true -> is_digit c = false -> b <> c.
Proof. congruence. Qed.

Lemma digits_avoid l c : Forall (fun b => is_digit b = true) l -> is_digit c = false -> c ∉ l.
Proof. intros Hl Hc Hin. eapply Forall_forall in Hl; [|exact Hin]. simpl in Hl. congruence. Qed.

Lemma digit_not_blank b : is_digit b = true -> is_blank b = false.
Proof. by destruct b. Qed.

Lemma drop_blank_id b l : is_blank b = false -> drop_blank (b :: l) = b :: l.
Proof. intros Hb. simpl. by rewrite Hb. Qed.

Lemma trim_solid b l c : is_blank b = false -> is_blank c = false -> trim (b :: l ++ [c]) = b :: l ++ [c].
Proof.
  intros Hb Hc. unfold trim. rewrite drop_blank_id by done.
  change (b :: l ++ [c]) with ((b :: l) ++ [c]). rewrite reverse_snoc, drop_blank_id by done.
  by rewrite reverse_cons, reverse_involutive.
Qed.

Lemma drop_blank_sub l x : x ∈ drop_blank l -> x ∈ l.
Proof. induction l as [|b l IH]; simpl; [done|]. destruct (is_blank b); [|done]. right. by apply IH. Qed.

Lemma trim_sub l x : x ∈ trim l -> x ∈ l.
Proof.
  unfold trim. rewrite elem_of_reverse. intros Hx%drop_blank_sub. rewrite elem_of_reverse in Hx. by apply drop_blank_sub.
Qed.

(** ** The rules of [peers.h] *)

Record peer_ok (p : PeerConfig) : Prop := {
  po_id : 1 <= pc_node_id p < two64;
  po_host : pc_host p <> [] /\ comma ∉ pc_host p;
  po_port : 1 <= pc_port p <= 65535 }.

Record peers_ok (l : list PeerConfig) : Prop := {
  pl_some : l <> [];
  pl_each : Forall peer_ok l;
  pl_ids : NoDup (map pc_node_id l);
  pl_endpoints : NoDup (map endpoint l) }.

Lemma from_chars_below limit text : forall v n, v < limit -> from_chars_unsigned limit text v = Some n -> n < limit.
Proof.
  induction text as [|b text IH]; intros v n Hv; simpl; [by intros [= <-]|].
  destruct (is_digit b); [|done]. destruct (_ <=? _) eqn:E; [done|]. boolify. by apply IH.
Qed.

Lemma parse_peer_ok entry p : comma ∉ entry -> parse_peer entry = Ok p -> peer_ok p.
Proof.
  intros Hc. unfold parse_peer. pose proof (split_at_inv at_sign entry) as Hs.
  destruct (split_at at_sign entry) as [[idt aft]|]; [|done]. destruct Hs as [Hs _].
  destruct (split_last_colon entry) as [[bef pt]|]; [|done]. destruct (_ <? _)%nat; [done|].
  destruct (parse_unsigned two64 idt) as [[|id]|] eqn:Ei; [done| |done]. case_bool_decide as Hh; [done|].
  destruct (parse_unsigned two32 pt) as [port|]; [|done]. destruct (_ || _) eqn:Ep; [done|]. apply orb_false_iff in Ep as [Ep1 Ep2].
  boolify. intros [= <-]. split; simpl; [|split; [done|]|lia].
  - unfold parse_unsigned in Ei. destruct idt as [|b idt]; [done|]. apply from_chars_below in Ei; [lia|done].
  - intros Hin. apply Hc. rewrite Hs. apply elem_of_app. right. right. rewrite <- (take_drop (length bef - length idt - 1) aft). apply elem_of_app. by left.
Qed.

Lemma parse_format_peer p : peer_ok p -> parse_peer (format_peer p) = Ok p.
Proof.
  intros [Hi [Hh _] Hp]. unfold parse_peer, format_peer, endpoint.
  destruct (unsigned_shape (pc_node_id p)) as [_ Hid]. destruct (unsigned_shape (pc_port p)) as [_ Hpt].
  set (ids := unsigned_to_string (pc_node_id p)) in *. set (pts := unsigned_to_string (pc_port p)) in *.
  cbn [app]. rewrite split_at_app by by eapply digits_avoid.
  replace (ids ++ at_sign :: pc_host p ++ colon :: pts) with ((ids ++ at_sign :: pc_host p) ++ colon :: pts)
    by by rewrite <- app_assoc.
  rewrite split_last_colon_app by by eapply digits_avoid. rewrite length_app. cbn [length].
  rewrite (proj2 (Nat.ltb_ge _ _)) by lia. unfold ids at 1. rewrite unsigned_read by (unfold two64 in *; lia).
  destruct (pc_node_id p) as [|id] eqn:Eid; [lia|].
  replace (_ + S (length (pc_host p)) - _ - 1)%nat with (length (pc_host p)) by lia.
  rewrite take_app_length, bool_decide_eq_false_2 by done.
  unfold pts. rewrite unsigned_read by (unfold two32, two64; lia).
  rewrite (proj2 (N.eqb_neq _ _)), (proj2 (N.ltb_ge _ _)) by lia. cbn [orb]. destruct p; simpl in *. by subst.
Qed.

Lemma format_solid p : trim (format_peer p) = format_peer p.
Proof.
  destruct (unsigned_shape (pc_node_id p)) as [Hi Hid]. destruct (unsigned_shape (pc_port p)) as [Hp Hpt].
  unfold format_peer, endpoint. destruct (unsigned_to_string (pc_node_id p)) as [|b ids]; [done|].
  destruct (unsigned_to_string (pc_port p)) as [|c pts _] using rev_ind; [done|].
  apply Forall_cons in Hid as [Hb _]. apply Forall_app in Hpt as [_ Hc]. apply Forall_cons in Hc as [Hc _].
  replace ((b :: ids) ++ [at_sign] ++ pc_host p ++ [colon] ++ pts ++ [c])
    with (b :: (ids ++ [at_sign] ++ pc_host p ++ [colon] ++ pts) ++ [c]) by (simpl; by rewrite <- !app_assoc; simpl; rewrite <- !app_assoc).
  apply trim_solid; by apply digit_not_blank.
Qed.

Lemma format_no_comma p : peer_ok p -> comma ∉ format_peer p.
Proof.
  intros [_ [_ Hh] _]. destruct (unsigned_shape (pc_node_id p)) as [_ Hid]. destruct (unsigned_shape (pc_port p)) as [_ Hpt].
  unfold format_peer, endpoint. rewrite !elem_of_app, !list_elem_of_singleton.
  intros [H1|[H1|[H1|[H1|H1]]]]; [by eapply digits_avoid in H1|done|done|done|by eapply digits_avoid in H1].
Qed.

(** ** The list *)

Lemma add_peer_cases p l l' : add_peer p l = Ok l' ->
  l' = l ++ [p] /\ pc_node_id p ∉ map pc_node_id l /\ endpoint p ∉ map endpoint l.
Proof.
  unfold add_peer. destruct (existsb _ l) eqn:E1; [done|]. destruct (existsb _ l) eqn:E2 in |- *; [done|]. intros [= <-].
  split; [done|]. split; rewrite list_elem_of_In, in_map_iff.
  - intros (q & Hq & Hin). apply not_true_iff_false in E1. apply E1. apply existsb_exists. exists q. by rewrite Hq, N.eqb_refl.
  - intros (q & Hq & Hin). apply not_true_iff_false in E2. apply E2. apply existsb_exists. exists q. rewrite Hq. by rewrite bytes_eqb_refl.
Qed.

Lemma add_peer_new p l : pc_node_id p ∉ map pc_node_id l -> endpoint p ∉ map endpoint l -> add_peer p l = Ok (l ++ [p]).
Proof.
  intros Hi He. unfold add_peer. rewrite list_elem_of_In, in_map_iff in Hi. rewrite list_elem_of_In, in_map_iff in He.
  destruct (existsb _ l) eqn:E1; [|destruct (existsb _ l) eqn:E2 in |- *; [|done]]; exfalso.
  - apply existsb_exists in E1 as (q & Hq & E). boolify. apply Hi. by exists q.
  - apply existsb_exists in E2 as (q & Hq & E). apply bytes_eqb_eq in E. apply He. by exists q.
Qed.

(** What the loop has collected so far. *)
Record collected (l : list PeerConfig) : Prop := {
  cl_each : Forall peer_ok l; cl_ids : NoDup (map pc_node_id l); cl_endpoints : NoDup (map endpoint l) }.

Lemma collected_snoc p l : collected l -> peer_ok p -> pc_node_id p ∉ map pc_node_id l -> endpoint p ∉ map endpoint l ->
  collected (l ++ [p]).
Proof.
  intros [C1 C2 C3] Hp Hi He. split.
  - apply Forall_app. split; [done|]. by constructor.
  - rewrite map_app. apply NoDup_app. split_and!; [done| |repeat constructor; apply not_elem_of_nil].
    by intros x Hx ->%list_elem_of_singleton.
  - rewrite map_app. apply NoDup_app. split_and!; [done| |repeat constructor; apply not_elem_of_nil].
    by intros x Hx ->%list_elem_of_singleton.
Qed.

Lemma peer_loop_collects fuel : forall text l l', collected l -> peer_loop fuel text l = Ok l' -> collected l'.
Proof.
  induction fuel as [|fuel IH]; intros text l l' Hl; cbn [peer_loop]; [by intros [= <-]|].
  pose proof (split_at_inv comma text) as Hs.
  assert (Hone : forall raw rest, comma ∉ raw ->
    match trim raw with
    | [] => match rest with None => Ok l | Some _ => Err (str "raft.peers: empty entry") end
    | entry => let* p := parse_peer entry in let* peers := add_peer p l in
        match rest with None => Ok peers | Some after => peer_loop fuel after peers end
    end = Ok l' -> collected l').
  { intros raw rest Hraw. destruct (trim raw) as [|b entry] eqn:Et; [destruct rest; [done|by intros [= <-]]|].
    destruct (parse_peer (b :: entry)) as [p|] eqn:Ep; [|done]. cbn.
    apply parse_peer_ok in Ep; [|rewrite <- Et; intros Hx%trim_sub; done].
    destruct (add_peer p l) as [l1|] eqn:Ea; [|done]. apply add_peer_cases in Ea as (-> & Hi & He).
    pose proof (collected_snoc p l Hl Ep Hi He) as Hc. destruct rest as [after|]; [|by intros [= <-]]. by apply IH. }
  destruct (split_at comma text) as [[b a]|]; [destruct Hs as [_ Hs]; by apply (Hone b (Some a))|by apply (Hone text None)].
Qed.

Lemma format_list_cons p l : format_peer_list (p :: l) = format_peer p ++ concat (map (fun q => comma :: format_peer q) l).
Proof.
  unfold format_peer_list. cbn [fold_left]. rewrite bool_decide_eq_true_2 by done. cbn [app].
  assert (Hne : format_peer p <> []) by (unfold format_peer; destruct (unsigned_to_string (pc_node_id p)); done).
  revert Hne. generalize (format_peer p) as acc. induction l as [|q l IH]; intros acc Hne; simpl; [by rewrite app_nil_r|].
  rewrite bool_decide_eq_false_2, IH by (try done; by destruct acc). by rewrite <- !app_assoc.
Qed.

Lemma peer_loop_format l : forall p seen fuel, Forall peer_ok (p :: l) ->
  NoDup (map pc_node_id (seen ++ p :: l)) -> NoDup (map endpoint (seen ++ p :: l)) -> (length l < fuel)%nat ->
  peer_loop fuel (format_peer p ++ concat (map (fun q => comma :: format_peer q) l)) seen = Ok (seen ++ p :: l).
Proof.
  induction l as [|q l IH]; intros p seen fuel Hok Hi He Hf; (destruct fuel as [|fuel]; [simpl in Hf; lia|]);
    cbn [peer_loop map concat]; pose proof (Forall_inv Hok) as Hp; pose proof (format_no_comma p Hp) as Hc.
  all: assert (Hadd : add_peer p seen = Ok (seen ++ [p])) by
    (apply add_peer_new; [rewrite map_app in Hi; apply NoDup_app in Hi as (_ & Hd & _)|rewrite map_app in He; apply NoDup_app in He as (_ & Hd & _)];
     intros Hin; apply (Hd _ Hin); left).
  all: assert (Hne : format_peer p <> []) by (unfold format_peer; by destruct (unsigned_to_string (pc_node_id p))).
  all: pose proof (parse_format_peer p Hp) as Hpf.
  - rewrite app_nil_r, (split_at_none _ _ Hc). cbv iota. rewrite format_solid.
    destruct (format_peer p); [done|]. rewrite Hpf. cbn. by rewrite Hadd.
  - cbn [app]. rewrite (split_at_app _ _ _ Hc). cbv iota. rewrite format_solid.
    destruct (format_peer p); [done|]. rewrite Hpf. cbn [result_bind]. rewrite Hadd. cbn [result_bind].
    rewrite (IH q (seen ++ [p]) fuel); rewrite <- ?app_assoc; try done; [by apply Forall_cons in Hok as [_ ?]|simpl in Hf; lia].
Qed.

(** The peer list round trips. A text that is accepted gives at least one
    peer, every one with a positive node id, a host and a port between 1 and
    65535, no id and no endpoint twice; and every such list is read back from the
    text [format_peer_list] writes, hosts with colons and [@] included. *)
Theorem peer_list_roundtrip : (forall text l, parse_peer_list text = Ok l -> peers_ok l) /\
  (forall l, peers_ok l -> parse_peer_list (format_peer_list l) = Ok l).
Proof.
  split.
  - intros text l. unfold parse_peer_list. destruct (peer_loop _ text []) as [l0|] eqn:E; [|done].
    apply peer_loop_collects in E as [C1 C2 C3]; [|repeat constructor]. cbn. destruct l0 as [|p l0]; [done|].
    intros [= <-]. by split.
  - intros l [H1 H2 H3 H4]. destruct l as [|p l]; [done|]. unfold parse_peer_list. rewrite format_list_cons.
    rewrite (peer_loop_format l p []); try done. rewrite length_app.
    assert (Hlen : (length l <= length (concat (map (fun q => comma :: format_peer q) l)))%nat); [|lia].
    clear. induction l as [|q l IH]; simpl; [lia|]. rewrite length_app. lia.
Qed.
