(* ===== verification/Config.v ===== *)
(** * Server configuration: [server/config.cpp]

    An [.ini] text is parsed into sections of typed values, laid over built-in
    defaults, checked, and read through one method per field. The defaults serve
    as the schema: which keys a known section has, and their types. Comment lines
    of the built-in text are left out. *)

From S2P Require Import Prelude Bytes OMap SqlTypes Temporal KeyCodec SqlKeyRange SqlTruth Rewriter GroupRouter Session Remote Peers.
Local Open Scope Z_scope.

(** [Config::Section] and [Config::Table] *)
Abbreviation Section_ := (omap Value).
Abbreviation ConfigTable := (omap Section_).

Definition trim_spaces (text : bytes) : bytes := reverse (drop_spaces (reverse (drop_spaces text))).
Definition lower (text : bytes) : bytes := map tolower text.

Definition fail (line : nat) (what : string) : bytes :=
  str "line " ++ int_to_string (Z.of_nat line) ++ str ": " ++ str what.

(** Keywords are booleans, whole integers of 64 bits are integers, the rest is text. *)
Definition sniff (value : bytes) : Value :=
  let v := lower value in
  if bytes_eqb v (str "true") || bytes_eqb v (str "yes") || bytes_eqb v (str "on") then VBool true
  else if bytes_eqb v (str "false") || bytes_eqb v (str "no") || bytes_eqb v (str "off") then VBool false
  else match from_chars value with
       | Some (parsed, []) => VInt I_BIGINT parsed
       | _ => VStr S_VARCHAR value
       end.

Definition config_is_bool (v : Value) : bool := bool_decide (type_of v = BOOLEAN).
Definition config_is_string (v : Value) : bool := is_string (type_of v).

Definition type_name (v : Value) : bytes :=
  if config_is_bool v then str "bool" else if is_int v then str "int"
  else if config_is_string v then str "string" else str "other".

Definition type_error (dotted : bytes) (v : Value) (expected : bytes) : bytes :=
  str "config key '" ++ dotted ++ str "': expected " ++ expected ++ str ", got " ++ type_name v.

Definition dot : byte := x2e.
Definition split_key (dotted : bytes) : bytes * bytes :=
  match split_at dot dotted with Some (section, key) => (section, key) | None => ([], dotted) end.

(** [table[section][key] = value] *)
Definition table_set (section key : bytes) (value : Value) (t : ConfigTable) : ConfigTable :=
  minsert section (minsert key value (default [] (mfind section t))) t.

Definition equals_sign : byte := x3d.

(** One line of the text; [section] is the current section. *)
Definition parse_line (line_no : nat) (line : bytes) (state : bytes * ConfigTable) : result bytes (bytes * ConfigTable) :=
  let '(section, table) := state in
  let raw := trim_spaces line in
  match raw with
  | [] => Ok state
  | first :: _ =>
      if bool_decide (first = x23) || bool_decide (first = x3b) then Ok state
      else if bool_decide (first = x5b) then
        if negb (bool_decide (last raw = Some x5d)) then Err (fail line_no "section header missing ']'")
        else Ok (lower (trim_spaces (take (length raw - 2) (drop 1 raw))), table)
      else
        match split_at equals_sign raw with
        | None => Err (fail line_no "expected 'key = value'")
        | Some (before, after) =>
            let key := lower (trim_spaces before) in
            if bool_decide (key = []) then Err (fail line_no "empty key")
            else Ok (section, table_set section key (sniff (trim_spaces after)) table)
        end
  end.

Fixpoint parse_ini_lines (line_no : nat) (lines : list bytes) (state : bytes * ConfigTable) : result bytes (bytes * ConfigTable) :=
  match lines with
  | [] => Ok state
  | line :: rest => let* state := parse_line (S line_no) line state in parse_ini_lines (S line_no) rest state
  end.

Definition parse_ini (text : bytes) : result bytes ConfigTable :=
  let* state := parse_ini_lines 0 (split_lines text) ([], []) in Ok state.2.

Definition kDefaultsIni : bytes := str "
[server]
listen = 127.0.0.1:5433
max_connections = 256
idle_timeout_ms = 300000
idle_in_transaction_timeout_ms = 30000
log_level = info
log_file =

[storage]
engine = leveldb
path = ./sql_db
create_if_missing = true

[execution]
read_threads = 1
read_queue_max = 1024
write_queue_max = 1024
max_result_rows = 1000000
statement_timeout_ms = 0

[session]
default_database =

[raft]
enabled = false
node_id = 1
listen = 127.0.0.1:5434
peers =
sql_endpoints =
shards =
election_timeout_ms = 1000
heartbeat_ms = 100
log_path =
snapshot_entries = 0
proposal_timeout_ms = 0
read_timeout_ms = 0
".

(** Parsing the built-in text cannot fail ([defaults_parse]). *)
Definition defaults_table : ConfigTable := match parse_ini kDefaultsIni with Ok t => t | Err _ => [] end.

(** ** [class Config] *)

Record Config := mkConfig { table_ : ConfigTable }.
Definition new_config : Config := mkConfig defaults_table.

Definition config_find (dotted : bytes) (c : Config) : option Value :=
  let '(section, key) := split_key dotted in
  match mfind section (table_ c) with Some s => mfind key s | None => None end.

(** An exception, or an error that is returned. *)
Inductive stop := Throws (what : bytes) | Returns (what : bytes).

Definition get_string (dotted fallback : bytes) (c : Config) : result stop bytes :=
  match config_find dotted c with
  | None => Ok fallback
  | Some (VStr _ s) => Ok s
  | Some v => Err (Throws (type_error dotted v (str "string")))
  end.

Definition get_int (dotted : bytes) (fallback : Z) (c : Config) : result stop Z :=
  match config_find dotted c with
  | None => Ok fallback
  | Some v => match v with
              | VInt t x => if is_int v then Ok x else Err (Throws (type_error dotted v (str "int")))
              | _ => Err (Throws (type_error dotted v (str "int")))
              end
  end.

Definition get_bool (dotted : bytes) (fallback : bool) (c : Config) : result stop bool :=
  match config_find dotted c with
  | None => Ok fallback
  | Some (VBool b) => Ok b
  | Some v => Err (Throws (type_error dotted v (str "bool")))
  end.

Definition config_contains (dotted : bytes) (c : Config) : bool :=
  match config_find dotted c with Some _ => true | None => false end.

Definition config_set (dotted : bytes) (v : Value) (c : Config) : Config :=
  let '(section, key) := split_key dotted in mkConfig (table_set section key v (table_ c)).

Definition merge_section (section : bytes) (entries : Section_) (t : ConfigTable) : ConfigTable :=
  fold_left (fun t '(key, value) => table_set section key value t) entries t.
Definition merge (overlay : ConfigTable) (c : Config) : Config :=
  mkConfig (fold_left (fun t '(section, entries) => merge_section section entries t) overlay (table_ c)).

Example defaults_parse : exists t, parse_ini kDefaultsIni = Ok t /\ length t = 5%nat.
Proof. eexists. split; vm_compute; reflexivity. Qed.

(** ** [Config::validate] *)

(** Keys and types of a known section against the schema. *)
Fixpoint check_entries (section : bytes) (schema : Section_) (entries : Section_) : result stop unit :=
  match entries with
  | [] => Ok tt
  | (key, value) :: rest =>
      match mfind key schema with
      | None => Err (Returns (str "unknown key: " ++ section ++ [dot] ++ key))
      | Some d =>
          if negb (bool_decide (type_of value = type_of d))
          then Err (Returns (type_error (section ++ [dot] ++ key) value (type_name d)))
          else check_entries section schema rest
      end
  end.
Fixpoint check_sections (t : ConfigTable) : result stop unit :=
  match t with
  | [] => Ok tt
  | (section, entries) :: rest =>
      let* _ := match mfind section defaults_table with
                | None => Ok tt
                | Some schema => check_entries section schema entries
                end in
      check_sections rest
  end.

Record IntRule := mkIntRule { ir_key : bytes; ir_min : Z; ir_max : Z }.
Definition kIntRules : list IntRule :=
  [mkIntRule (str "server.max_connections") 1 int64_max;
   mkIntRule (str "server.idle_timeout_ms") 0 int64_max;
   mkIntRule (str "server.idle_in_transaction_timeout_ms") 0 int64_max;
   mkIntRule (str "execution.read_threads") 1 64;
   mkIntRule (str "execution.read_queue_max") 1 int64_max;
   mkIntRule (str "execution.write_queue_max") 1 int64_max;
   mkIntRule (str "execution.max_result_rows") 1 int64_max;
   mkIntRule (str "execution.statement_timeout_ms") 0 int64_max;
   mkIntRule (str "raft.node_id") 1 int64_max;
   mkIntRule (str "raft.election_timeout_ms") 1 int64_max;
   mkIntRule (str "raft.heartbeat_ms") 1 int64_max;
   mkIntRule (str "raft.snapshot_entries") 0 int64_max;
   mkIntRule (str "raft.proposal_timeout_ms") 0 int64_max;
   mkIntRule (str "raft.read_timeout_ms") 0 int64_max].

Definition key_error (key : bytes) (what : bytes) : bytes := str "config key '" ++ key ++ str "': " ++ what.

Fixpoint check_rules (rules : list IntRule) (c : Config) : result stop unit :=
  match rules with
  | [] => Ok tt
  | r :: rest =>
      let* v := get_int (ir_key r) 0 c in
      if (v <? ir_min r) || (ir_max r <? v) then
        Err (Returns (key_error (ir_key r)
          (if ir_max r =? int64_max then str "must be >= " ++ int_to_string (ir_min r)
           else str "must be in [" ++ int_to_string (ir_min r) ++ str ", " ++ int_to_string (ir_max r) ++ str "]")))
      else check_rules rest c
  end.

Definition join_names (allowed : list bytes) : bytes :=
  fold_left (fun joined one => joined ++ (if bool_decide (joined = []) then one else str "|" ++ one)) allowed [].

Definition check_enum (dotted : bytes) (allowed : list bytes) (c : Config) : result stop unit :=
  let* v := get_string dotted [] c in
  if existsb (bytes_eqb v) allowed then Ok tt
  else Err (Returns (key_error dotted (str "must be " ++ join_names allowed))).

(** [host:port], both not empty; the colon is the last one. *)
Definition host_port (listen : bytes) : bool :=
  match split_last_colon listen with Some ([], _) | Some (_, []) | None => false | Some _ => true end.
Definition check_host_port (dotted : bytes) (c : Config) : result stop unit :=
  let* listen := get_string dotted [] c in
  if host_port listen then Ok tt else Err (Returns (key_error dotted (str "must look like host:port"))).

Definition returned {A} (prefix : bytes) (r : result bytes A) : result stop unit :=
  match r with Ok _ => Ok tt | Err e => Err (Returns (prefix ++ e)) end.

Definition peer_ids (l : list PeerConfig) : list N := map pc_node_id l.

(** The ids of the redirect table must be peers. *)
Fixpoint check_known (peers : list PeerConfig) (endpoints : list PeerConfig) : result stop unit :=
  match endpoints with
  | [] => Ok tt
  | e :: rest =>
      if existsb (N.eqb (pc_node_id e)) (peer_ids peers) then check_known peers rest
      else Err (Returns (key_error (str "raft.sql_endpoints")
             (str "node id " ++ unsigned_to_string (pc_node_id e) ++ str " is not in raft.peers")))
  end.

Definition to_u64 (z : Z) : N := Z.to_N (z mod 18446744073709551616).

Definition check_disabled (raft_peers : bytes) (c : Config) : result stop unit :=
  let* _ := if bool_decide (raft_peers = []) then Ok tt else returned [] (parse_peer_list raft_peers) in
  let* endpoints := get_string (str "raft.sql_endpoints") [] c in
  if bool_decide (endpoints = []) then Ok tt
  else returned (key_error (str "raft.sql_endpoints") []) (parse_peer_list endpoints).

Definition check_endpoints (peers : list PeerConfig) (c : Config) : result stop unit :=
  let* text := get_string (str "raft.sql_endpoints") [] c in
  if bool_decide (text = []) then Ok tt
  else match parse_peer_list text with
       | Err e => Err (Returns (key_error (str "raft.sql_endpoints") e))
       | Ok endpoints => check_known peers endpoints
       end.

Definition check_enabled (raft_peers : bytes) (c : Config) : result stop unit :=
  if bool_decide (raft_peers = [])
  then Err (Returns (key_error (str "raft.peers") (str "must not be empty when raft.enabled = true")))
  else match parse_peer_list raft_peers with
  | Err e => Err (Returns e)
  | Ok peers =>
      let* node_id := get_int (str "raft.node_id") 0 c in
      if negb (existsb (fun p => (pc_node_id p =? to_u64 node_id)%N) peers)
      then Err (Returns (key_error (str "raft.node_id") (str "must appear in raft.peers (peers = " ++ raft_peers ++ str ")")))
      else
        let* _ := check_endpoints peers c in
        let* _ := check_host_port (str "raft.listen") c in
        let* log_path := get_string (str "raft.log_path") [] c in
        if bool_decide (log_path = [])
        then Err (Returns (key_error (str "raft.log_path") (str "must not be empty when raft.enabled = true")))
        else Ok tt
  end.

Definition validate_raft (c : Config) : result stop unit :=
  let* raft_enabled := get_bool (str "raft.enabled") false c in
  let* election_timeout := get_int (str "raft.election_timeout_ms") 0 c in
  let* heartbeat := get_int (str "raft.heartbeat_ms") 0 c in
  if election_timeout <=? heartbeat
  then Err (Returns (key_error (str "raft.heartbeat_ms") (str "must be smaller than raft.election_timeout_ms")))
  else
    let* raft_peers := get_string (str "raft.peers") [] c in
    let* shards := get_string (str "raft.shards") [] c in
    let* _ := if bool_decide (shards = []) then Ok tt
              else returned (key_error (str "raft.shards") []) (parse_shards shards) in
    if raft_enabled then check_enabled raft_peers c else check_disabled raft_peers c.

Definition config_validate (c : Config) : result stop unit :=
  let* _ := check_sections (table_ c) in
  let* _ := check_rules kIntRules c in
  let* _ := check_enum (str "server.log_level") [str "error"; str "warn"; str "info"; str "debug"] c in
  let* _ := check_enum (str "storage.engine") [str "leveldb"; str "mock"] c in
  let* _ := check_host_port (str "server.listen") c in
  let* path := get_string (str "storage.path") [] c in
  if bool_decide (path = []) then Err (Returns (key_error (str "storage.path") (str "must not be empty")))
  else validate_raft c.

Example defaults_valid : config_validate new_config = Ok tt.
Proof. vm_compute. reflexivity. Qed.

(** ** [class ServerConfig]: one method per field *)

Definition ServerConfig : Type := Config.

Definition int_field (dotted : string) (c : ServerConfig) : result stop Z := get_int (str dotted) 0 c.
Definition size_field (dotted : string) (c : ServerConfig) : result stop N :=
  let* v := get_int (str dotted) 0 c in Ok (to_u64 v).
Definition str_field (dotted : string) (c : ServerConfig) : result stop bytes := get_string (str dotted) [] c.
Definition bool_field (dotted : string) (c : ServerConfig) : result stop bool := get_bool (str dotted) false c.
Definition host_field (dotted : string) (c : ServerConfig) : result stop bytes :=
  let* listen := str_field dotted c in
  Ok (match split_last_colon listen with Some (host, _) => host | None => [] end).
Definition port_field (dotted : string) (c : ServerConfig) : result stop bytes :=
  let* listen := str_field dotted c in
  Ok (match split_last_colon listen with Some (_, port) => port | None => [] end).

Definition listen : ServerConfig -> result stop bytes := str_field "server.listen".
Definition max_connections : ServerConfig -> result stop N := size_field "server.max_connections".
Definition idle_timeout_ms : ServerConfig -> result stop Z := int_field "server.idle_timeout_ms".
Definition idle_in_transaction_timeout_ms : ServerConfig -> result stop Z :=
  int_field "server.idle_in_transaction_timeout_ms".
Definition log_level : ServerConfig -> result stop bytes := str_field "server.log_level".
Definition log_file : ServerConfig -> result stop bytes := str_field "server.log_file".
Definition listen_host : ServerConfig -> result stop bytes := host_field "server.listen".
Definition listen_port : ServerConfig -> result stop bytes := port_field "server.listen".
Definition engine : ServerConfig -> result stop bytes := str_field "storage.engine".
Definition path : ServerConfig -> result stop bytes := str_field "storage.path".
Definition create_if_missing : ServerConfig -> result stop bool := bool_field "storage.create_if_missing".
Definition read_threads : ServerConfig -> result stop N := size_field "execution.read_threads".
Definition read_queue_max : ServerConfig -> result stop N := size_field "execution.read_queue_max".
Definition write_queue_max : ServerConfig -> result stop N := size_field "execution.write_queue_max".
Definition max_result_rows : ServerConfig -> result stop N := size_field "execution.max_result_rows".
Definition statement_timeout_ms : ServerConfig -> result stop Z := int_field "execution.statement_timeout_ms".
Definition default_database : ServerConfig -> result stop bytes := str_field "session.default_database".
Definition raft_enabled : ServerConfig -> result stop bool := bool_field "raft.enabled".
Definition raft_node_id : ServerConfig -> result stop N := size_field "raft.node_id".
Definition raft_listen : ServerConfig -> result stop bytes := str_field "raft.listen".
Definition raft_listen_host : ServerConfig -> result stop bytes := host_field "raft.listen".
Definition raft_listen_port : ServerConfig -> result stop bytes := port_field "raft.listen".
Definition raft_election_timeout_ms : ServerConfig -> result stop N := size_field "raft.election_timeout_ms".
Definition raft_heartbeat_ms : ServerConfig -> result stop N := size_field "raft.heartbeat_ms".
Definition raft_snapshot_entries : ServerConfig -> result stop N := size_field "raft.snapshot_entries".
Definition raft_proposal_timeout_ms : ServerConfig -> result stop N := size_field "raft.proposal_timeout_ms".
Definition raft_read_timeout_ms : ServerConfig -> result stop N := size_field "raft.read_timeout_ms".
Definition raft_log_path : ServerConfig -> result stop bytes := str_field "raft.log_path".

Definition raft_peers (c : ServerConfig) : result stop (list PeerConfig) :=
  let* text := str_field "raft.peers" c in
  if bool_decide (text = []) then Ok []
  else Ok (match parse_peer_list text with Ok l => l | Err _ => [] end).

Definition raft_group_router (c : ServerConfig) : result stop GroupRouter :=
  let* text := str_field "raft.shards" c in
  if bool_decide (text = []) then Ok empty_router
  else Ok (match parse_shards text with Ok rt => rt | Err _ => empty_router end).

(** The map from node id to address; a later entry with the same id would win. *)
Definition raft_sql_endpoints (c : ServerConfig) : result stop (gmap N bytes) :=
  let* text := str_field "raft.sql_endpoints" c in
  if bool_decide (text = []) then Ok ∅
  else Ok (match parse_peer_list text with
           | Ok l => fold_left (fun m e => <[pc_node_id e := endpoint e]> m) l ∅
           | Err _ => ∅
           end).

Definition parse_config (text : bytes) : result bytes ServerConfig :=
  let* overlay := parse_ini text in Ok (merge overlay new_config).

(** The contents of the file, or [None] when it cannot be opened. *)
Definition load_config (file_path : bytes) (contents : option bytes) : result bytes ServerConfig :=
  match contents with
  | None => Err (str "cannot open config file: " ++ file_path)
  | Some text => match parse_config text with
                 | Ok c => Ok c
                 | Err e => Err (file_path ++ str ": " ++ e)
                 end
  end.

Example config_example :
  (let* c := parse_config (str "[ Raft ]
enabled = YES
node_id = 2
peers = 1@a:1, 2@b:2
log_path = /tmp/r
[server]
read_threads = 9
; comment
[other]
x = y") in
   Ok (config_validate c, raft_node_id c, raft_peers c)) =
  Ok (Err (Returns (str "unknown key: server.read_threads")), Ok 2%N, Ok [mkPeer 1 (str "a") 1; mkPeer 2 (str "b") 2]).
Proof. vm_compute. reflexivity. Qed.
