(* ===== verification/ConfigSpec.v ===== *)
(** * What a configuration file comes to

    The value of a key is the last one the text gives, else the default
    ([parse_config_find]); a configuration that passes [Config::validate] can be
    read without an exception and its values are in range ([validated_usable]). *)

From S2P Require Import Prelude Bytes OMap SqlTypes Temporal Rewriter GroupRouter Session Remote Peers Config.
Local Open Scope Z_scope.

(** ** Tables as maps of maps *)

Definition table_find (section key : bytes) (t : ConfigTable) : option Value :=
  match mfind section t with Some s => mfind key s | None => None end.

Record table_wf (t : ConfigTable) : Prop := {
  tw_sections : sorted t; tw_entries : Forall (fun p => sorted p.2) t }.

Lemma mfind_in {V} k (m : omap V) v : mfind k m = Some v -> (k, v) ∈ m.
Proof.
  induction m as [|[k' v'] m IH]; simpl; [done|]. destruct (bytes_ltb k k') eqn:E1; [done|].
  destruct (bytes_ltb k' k) eqn:E2; [intros Hf; right; by apply IH|]. intros [= ->].
  rewrite (bytes_ltb_antisym _ _ E1 E2). left.
Qed.

Lemma section_sorted t s : table_wf t -> sorted (default [] (mfind s t)).
Proof.
  intros [_ He]. destruct (mfind s t) as [sec|] eqn:E; [|apply sorted_nil]. apply mfind_in in E.
  eapply Forall_forall in He; [|exact E]. done.
Qed.

Lemma table_set_wf s k v t : table_wf t -> table_wf (table_set s k v t).
Proof.
  intros Hw. pose proof (section_sorted t s Hw) as Hs. destruct Hw as [H1 H2]. split; [by apply msorted_insert|].
  unfold table_set. apply Forall_forall. intros [s' sec] Hin.
  assert (Hf : mfind s' (minsert s (minsert k v (default [] (mfind s t))) t) = Some sec)
    by (apply find_elem; [by apply msorted_insert|done]).
  destruct (decide (s' = s)) as [->|Hne].
  - rewrite mfind_insert_eq in Hf. injection Hf as <-. by apply msorted_insert.
  - rewrite mfind_insert_ne in Hf by done. apply mfind_in in Hf. eapply Forall_forall in H2; [|exact Hf]. done.
Qed.

Lemma table_find_set s k v t s' k' : table_wf t ->
  table_find s' k' (table_set s k v t) = if decide (s' = s /\ k' = k) then Some v else table_find s' k' t.
Proof.
  intros Hw. pose proof (section_sorted t s Hw) as Hs. destruct Hw as [H1 H2]. unfold table_find, table_set.
  destruct (decide (s' = s)) as [->|Hne].
  - rewrite mfind_insert_eq. destruct (decide (k' = k)) as [->|Hnk].
    + by rewrite mfind_insert_eq, decide_True.
    + rewrite mfind_insert_ne, decide_False by naive_solver. by destruct (mfind s t).
  - rewrite mfind_insert_ne, decide_False by naive_solver. done.
Qed.

Lemma merge_section_spec s entries t : sorted entries -> table_wf t ->
  table_wf (merge_section s entries t) /\
  forall s' k', table_find s' k' (merge_section s entries t) =
    if decide (s' = s) then match mfind k' entries with Some v => Some v | None => table_find s' k' t end
    else table_find s' k' t.
Proof.
  revert t. induction entries as [|[k v] entries IH]; intros t Hs Hw; simpl.
  { split; [done|]. intros s' k'. by case_decide. }
  destruct (IH (table_set s k v t) (sorted_tail _ _ Hs) (table_set_wf s k v t Hw)) as [Hw' Hf]. split; [done|].
  intros s' k'. rewrite Hf, table_find_set by done. unfold merge_section in Hf.
  case_decide as Hd; [|by rewrite decide_False by naive_solver]. subst s'.
  pose proof (find_elem k' v ((k, v) :: entries) Hs) as Hel. cbn [mfind].
  destruct (decide (k' = k)) as [->|Hne].
  - rewrite bytes_ltb_irrefl, decide_True by done.
    destruct (mfind k entries) as [w|] eqn:E; [|done]. exfalso. apply mfind_in in E.
    pose proof (sorted_head _ _ Hs) as Hh. eapply Forall_forall in Hh; [|exact E]. unfold key_before, bytes_lt in Hh.
    simpl in Hh. by rewrite bytes_ltb_irrefl in Hh.
  - rewrite (decide_False (P := s = s /\ k' = k)) by naive_solver.
    destruct (bytes_ltb k' k) eqn:E1; [|destruct (bytes_ltb k k') eqn:E2; [done|by destruct Hne; apply bytes_ltb_antisym]].
    rewrite find_above; [done|]. eapply Forall_impl; [apply (sorted_head _ _ Hs)|]. intros q Hq.
    unfold key_before, bytes_lt in *. simpl in *. by eapply bytes_ltb_trans.
Qed.

Lemma merge_spec overlay : table_wf overlay -> forall t, table_wf t ->
  let t' := fold_left (fun t '(section, entries) => merge_section section entries t) overlay t in
  table_wf t' /\
  forall s k, table_find s k t' = match table_find s k overlay with Some v => Some v | None => table_find s k t end.
Proof.
  induction overlay as [|[s0 entries] overlay IH]; intros Hov t Hw; simpl; [done|]. destruct Hov as [H1 H2].
  apply Forall_cons in H2 as [He H2]. destruct (merge_section_spec s0 entries t He Hw) as [Hw1 Hf1].
  destruct (IH (Build_table_wf _ (sorted_tail _ _ H1) H2) _ Hw1) as [Hw' Hf]. split; [done|].
  assert (Hnot : mfind s0 overlay = None).
  { destruct (mfind s0 overlay) as [x|] eqn:E; [|done]. apply mfind_in in E. pose proof (sorted_head _ _ H1) as Hh.
    eapply Forall_forall in Hh; [|exact E]. unfold key_before, bytes_lt in Hh. simpl in Hh. by rewrite bytes_ltb_irrefl in Hh. }
  intros s k. rewrite Hf, Hf1.
  assert (Hhead : table_find s k ((s0, entries) :: overlay) = if decide (s = s0) then mfind k entries else table_find s k overlay).
  { unfold table_find. case_decide as Hd; [subst s; by rewrite find_cons_eq|]. by rewrite find_cons_ne. }
  rewrite Hhead. case_decide as Hd; [|done]. subst s. unfold table_find at 1. by rewrite Hnot.
Qed.

Lemma parse_line_wf n line st st' : table_wf st.2 -> parse_line n line st = Ok st' -> table_wf st'.2.
Proof.
  intros Hw. destruct st as [section t]. unfold parse_line. destruct (trim_spaces line) as [|b raw]; [by intros [= <-]|].
  destruct (_ || _); [by intros [= <-]|]. destruct (bool_decide (b = x5b)).
  - destruct (negb _); [done|]. by intros [= <-].
  - destruct (split_at _ _) as [[before after]|]; [|done]. case_bool_decide; [done|]. intros [= <-]. by apply table_set_wf.
Qed.

Lemma parse_ini_wf text t : parse_ini text = Ok t -> table_wf t.
Proof.
  unfold parse_ini. assert (Hl : forall lines n st st', table_wf st.2 -> parse_ini_lines n lines st = Ok st' -> table_wf st'.2).
  { induction lines as [|line lines IH]; intros n st st' Hw; simpl; [by intros [= <-]|].
    destruct (parse_line (S n) line st) as [st1|] eqn:E; [|done]. cbn. apply IH. by eapply parse_line_wf. }
  destruct (parse_ini_lines 0 _ _) as [st|] eqn:E; [|done]. cbn. intros [= <-]. eapply Hl; [|exact E].
  split; [apply sorted_nil|constructor].
Qed.

Lemma defaults_wf : table_wf defaults_table.
Proof.
  unfold defaults_table. destruct (parse_ini kDefaultsIni) as [t|] eqn:E; [by eapply parse_ini_wf|].
  split; [apply sorted_nil|constructor].
Qed.

#[local] Opaque defaults_table.

(** The text decides, the defaults fill in. *)
Lemma parse_config_find text overlay c dotted : parse_ini text = Ok overlay -> parse_config text = Ok c ->
  config_find dotted c = match config_find dotted (mkConfig overlay) with
                         | Some v => Some v
                         | None => config_find dotted new_config
                         end.
Proof.
  intros Hi. unfold parse_config. rewrite Hi. cbn. intros [= <-]. unfold config_find. destruct (split_key dotted) as [s k].
  exact (proj2 (merge_spec overlay (parse_ini_wf _ _ Hi) defaults_table defaults_wf) s k).
Qed.

(** Reading back what was set, here or elsewhere. *)
Lemma config_set_find dotted v c dotted' : table_wf (table_ c) ->
  config_find dotted' (config_set dotted v c) = if decide (split_key dotted' = split_key dotted) then Some v else config_find dotted' c.
Proof.
  intros Hw. unfold config_find, config_set. destruct (split_key dotted) as [s k], (split_key dotted') as [s' k']. simpl.
  etransitivity; [exact (table_find_set s k v (table_ c) s' k' Hw)|].
  destruct (decide (s' = s /\ k' = k)) as [[-> ->]|Hn]; [by rewrite decide_True|]. rewrite decide_False; [done|]. intros [= -> ->]. naive_solver.
Qed.

(** ** The schema *)

Lemma entries_typed s schema entries k v : check_entries s schema entries = Ok tt -> (k, v) ∈ entries ->
  exists d, mfind k schema = Some d /\ type_of v = type_of d.
Proof.
  induction entries as [|[k0 v0] entries IH]; simpl; [by intros _ ?%elem_of_nil|].
  destruct (mfind k0 schema) as [d|] eqn:E; [|done]. destruct (negb _) eqn:Et; [done|].
  apply negb_false_iff, bool_decide_eq_true in Et. intros Hc [[= <- <-]|Hin]%elem_of_cons; [by exists d|by apply IH].
Qed.

Lemma sections_typed t s entries schema : check_sections t = Ok tt -> (s, entries) ∈ t -> mfind s defaults_table = Some schema ->
  check_entries s schema entries = Ok tt.
Proof.
  intros Hc Hin Hd. induction t as [|[s0 e0] t IH]; simpl in *; [by apply elem_of_nil in Hin|].
  apply elem_of_cons in Hin as [[= <- <-]|Hin].
  - rewrite Hd in Hc. by destruct (check_entries s schema entries) as [[]|].
  - apply IH; [|done]. destruct (match mfind s0 defaults_table with Some _ => _ | None => _ end) as [[]|]; done.
Qed.

Lemma find_typed c dotted d v : check_sections (table_ c) = Ok tt -> config_find dotted new_config = Some d ->
  config_find dotted c = Some v -> type_of v = type_of d.
Proof.
  unfold config_find. destruct (split_key dotted) as [s k]. change (table_ new_config) with defaults_table.
  intros Hc. destruct (mfind s defaults_table) as [schema|] eqn:Es; [|done]. intros Hd.
  destruct (mfind s (table_ c)) as [entries|] eqn:Et; [|done]. intros Hv%mfind_in. apply mfind_in in Et.
  destruct (entries_typed _ _ _ _ _ (sections_typed _ _ _ _ Hc Et Es) Hv) as (d' & Hd' & ->). congruence.
Qed.

(** A field can be read with the type of its default. *)
Definition readable (c : Config) (dotted : bytes) (d : Value) : Prop :=
  match d with
  | VInt _ _ => exists x, get_int dotted 0 c = Ok x
  | VBool _ => exists b, get_bool dotted false c = Ok b
  | VStr _ _ => exists s, get_string dotted [] c = Ok s
  | VNull => True
  end.

(** The integers of the defaults are of the type the parser gives. *)
Definition plain (v : Value) : bool := match v with VInt I_BIGINT _ | VBool _ | VStr S_VARCHAR _ => true | _ => false end.
Lemma defaults_plain dotted d : config_find dotted new_config = Some d -> plain d = true.
Proof.
  assert (Hall : forallb (fun p => forallb (fun q => plain q.2) p.2) defaults_table = true) by (vm_compute; reflexivity).
  unfold config_find. destruct (split_key dotted) as [s k]. change (table_ new_config) with defaults_table.
  destruct (mfind s defaults_table) as [entries|] eqn:E; [|done]. intros Hd%mfind_in. apply mfind_in in E.
  rewrite forallb_forall in Hall. apply list_elem_of_In in E, Hd. specialize (Hall _ E). rewrite forallb_forall in Hall.
  exact (Hall _ Hd).
Qed.

Lemma schema_readable c dotted d : check_sections (table_ c) = Ok tt -> config_find dotted new_config = Some d ->
  readable c dotted d.
Proof.
  intros Hc Hd. assert (Hb : forall t x, d = VInt t x -> t = I_BIGINT).
  { intros t x ->. apply defaults_plain in Hd. by destruct t. }
  pose proof (fun v => find_typed c dotted d v Hc Hd) as Ht. unfold readable, get_int, get_bool, get_string.
  destruct (config_find dotted c) as [v|]; [|by destruct d; eexists]. specialize (Ht v eq_refl).
  destruct d as [|t x|b|t s]; [done|..].
  - rewrite (Hb t x eq_refl) in Ht. destruct v as [|t' x'|b'|t' s']; simpl in Ht; try done; [|by destruct t'].
    destruct t'; try done. simpl. by eexists.
  - destruct v as [|t' x'|b'|t' s']; simpl in Ht; try done; [by destruct t'|by eexists|by destruct t'].
  - destruct v as [|t' x'|b'|t' s']; simpl in Ht; try (by destruct t); [by destruct t, t'|by eexists].
Qed.

(** ** Validation *)

(** No exception: a result, or an error that is returned. *)
Definition no_throw {A} (r : result stop A) : Prop := match r with Err (Throws _) => False | _ => True end.

Lemma stop_bind {A B} (m : result stop A) (k : A -> result stop B) :
  no_throw m -> (forall a, m = Ok a -> no_throw (k a)) -> no_throw (result_bind m k).
Proof. destruct m as [a|[w|w]]; simpl; auto. Qed.

Lemma returned_calm {A} p (r : result bytes A) : no_throw (returned p r).
Proof. by destruct r. Qed.

Lemma check_sections_calm t : no_throw (check_sections t).
Proof.
  assert (He : forall s schema entries, no_throw (check_entries s schema entries)).
  { intros s schema entries. induction entries as [|[k v] entries IH]; simpl; [done|].
    destruct (mfind k schema); [|done]. by destruct (negb _). }
  induction t as [|[s entries] t IH]; simpl; [done|]. apply stop_bind; [by destruct (mfind s defaults_table)|by intros].
Qed.

Lemma check_known_calm peers l : no_throw (check_known peers l).
Proof. induction l as [|e l IH]; simpl; [done|]. by destruct (existsb _ _). Qed.

Section validated.
Context (c : Config) (Hs : check_sections (table_ c) = Ok tt).

Lemma read_int dotted x0 : config_find dotted new_config = Some (VInt I_BIGINT x0) -> exists x, get_int dotted 0 c = Ok x.
Proof. intros Hd. exact (schema_readable c dotted _ Hs Hd). Qed.
Lemma read_str dotted x0 : config_find dotted new_config = Some (VStr S_VARCHAR x0) -> exists x, get_string dotted [] c = Ok x.
Proof. intros Hd. exact (schema_readable c dotted _ Hs Hd). Qed.
Lemma read_bool dotted x0 : config_find dotted new_config = Some (VBool x0) -> exists x, get_bool dotted false c = Ok x.
Proof. intros Hd. exact (schema_readable c dotted _ Hs Hd). Qed.

(** A key whose default is known, evaluated. *)
Ltac known := eexists; vm_compute; reflexivity.

Definition int_key (dotted : bytes) : Prop := exists x, config_find dotted new_config = Some (VInt I_BIGINT x).
Definition str_key (dotted : bytes) : Prop := exists x, config_find dotted new_config = Some (VStr S_VARCHAR x).
Definition bool_key (dotted : bytes) : Prop := exists x, config_find dotted new_config = Some (VBool x).

Lemma int_calm dotted : int_key dotted -> no_throw (get_int dotted 0 c).
Proof. intros [x Hx]. by destruct (read_int _ _ Hx) as [y ->]. Qed.
Lemma str_calm dotted : str_key dotted -> no_throw (get_string dotted [] c).
Proof. intros [x Hx]. by destruct (read_str _ _ Hx) as [y ->]. Qed.
Lemma bool_calm dotted : bool_key dotted -> no_throw (get_bool dotted false c).
Proof. intros [x Hx]. by destruct (read_bool _ _ Hx) as [y ->]. Qed.

Lemma rules_known : Forall (fun r => int_key (ir_key r)) kIntRules.
Proof. repeat constructor; known. Qed.

Lemma check_rules_calm rules : Forall (fun r => int_key (ir_key r)) rules -> no_throw (check_rules rules c).
Proof.
  induction 1 as [|r rules Hr _ IH]; simpl; [done|]. apply stop_bind; [by apply int_calm|]. intros v _. by destruct (_ || _).
Qed.

Lemma check_enum_calm dotted allowed : str_key dotted -> no_throw (check_enum dotted allowed c).
Proof. intros Hk. apply stop_bind; [by apply str_calm|]. intros v _. by destruct (existsb _ _). Qed.

Lemma check_host_port_calm dotted : str_key dotted -> no_throw (check_host_port dotted c).
Proof. intros Hk. apply stop_bind; [by apply str_calm|]. intros v _. by destruct (host_port v). Qed.

Lemma validate_raft_calm : no_throw (validate_raft c).
Proof.
  unfold validate_raft. apply stop_bind; [apply bool_calm; known|]. intros en _.
  apply stop_bind; [apply int_calm; known|]. intros et _. apply stop_bind; [apply int_calm; known|]. intros hb _.
  destruct (et <=? hb); [done|]. apply stop_bind; [apply str_calm; known|]. intros ps _.
  apply stop_bind; [apply str_calm; known|]. intros sh _.
  apply stop_bind; [case_bool_decide; [done|apply returned_calm]|]. intros _ _. destruct en.
  - unfold check_enabled. case_bool_decide; [done|]. destruct (parse_peer_list ps) as [peers|]; [|done].
    apply stop_bind; [apply int_calm; known|]. intros id _. destruct (negb _); [done|]. apply stop_bind.
    { unfold check_endpoints. apply stop_bind; [apply str_calm; known|]. intros txt _. case_bool_decide; [done|].
      destruct (parse_peer_list txt); [apply check_known_calm|done]. }
    intros _ _. apply stop_bind; [apply check_host_port_calm; known|]. intros _ _.
    apply stop_bind; [apply str_calm; known|]. intros lp _. by case_bool_decide.
  - unfold check_disabled. apply stop_bind; [case_bool_decide; [done|apply returned_calm]|]. intros _ _.
    apply stop_bind; [apply str_calm; known|]. intros txt _. case_bool_decide; [done|apply returned_calm].
Qed.
End validated.

Lemma validate_calm c : no_throw (config_validate c).
Proof.
  unfold config_validate. apply stop_bind; [apply check_sections_calm|]. intros [] Hs.
  apply stop_bind; [apply check_rules_calm; [done|apply rules_known]|]. intros _ _.
  apply stop_bind; [apply check_enum_calm; [done|]; eexists; vm_compute; reflexivity|]. intros _ _.
  apply stop_bind; [apply check_enum_calm; [done|]; eexists; vm_compute; reflexivity|]. intros _ _.
  apply stop_bind; [apply check_host_port_calm; [done|]; eexists; vm_compute; reflexivity|]. intros _ _.
  apply stop_bind; [apply str_calm; [done|]; eexists; vm_compute; reflexivity|]. intros p _.
  case_bool_decide; [done|]. by apply validate_raft_calm.
Qed.

Lemma bind_ok {E A B} (m : result E A) (k : A -> result E B) b : result_bind m k = Ok b -> exists a, m = Ok a /\ k a = Ok b.
Proof. destruct m as [a|]; [|done]. simpl. eauto. Qed.

Lemma check_rules_ok rules c : check_rules rules c = Ok tt ->
  Forall (fun r => exists v, get_int (ir_key r) 0 c = Ok v /\ ir_min r <= v <= ir_max r) rules.
Proof.
  induction rules as [|r rules IH]; cbn [check_rules]; [constructor|]. intros (v & Hv & Hr)%bind_ok.
  destruct (_ || _) eqn:E; [done|]. apply orb_false_iff in E as [E1 E2]. boolify.
  constructor; [by exists v|by apply IH].
Qed.

(** A number in range is read as itself, whatever the type it is cast to. *)
Lemma rule_field key lo hi c : mkIntRule (str key) lo hi ∈ kIntRules -> check_rules kIntRules c = Ok tt -> 0 <= lo -> hi <= int64_max ->
  exists v, int_field key c = Ok v /\ size_field key c = Ok (Z.to_N v) /\ lo <= v <= hi.
Proof.
  intros Hin Hr Hlo Hhi. apply check_rules_ok in Hr. eapply Forall_forall in Hr; [|exact Hin]. simpl in Hr.
  destruct Hr as (v & Hv & Hb). exists v. unfold int_field, size_field. rewrite Hv. cbn. split; [done|]. split; [|done].
  unfold to_u64. unfold int64_max in Hhi. by rewrite Z.mod_small by lia.
Qed.

Lemma host_port_split dotted c : check_host_port (str dotted) c = Ok tt ->
  exists h p, host_field dotted c = Ok h /\ port_field dotted c = Ok p /\ str_field dotted c = Ok (h ++ [colon] ++ p) /\
    h <> [] /\ p <> [] /\ colon ∉ p.
Proof.
  intros (l & Hl & Hc)%bind_ok. unfold host_field, port_field, str_field. rewrite Hl. cbn.
  destruct (host_port l) eqn:E; [|done]. unfold host_port in E. destruct (split_last_colon l) as [[h p]|] eqn:Es; [|done].
  apply split_last_colon_inv in Es as [-> Hn]. exists h, p. by destruct h, p.
Qed.

Lemma enum_field dotted allowed c : check_enum (str dotted) allowed c = Ok tt -> exists v, str_field dotted c = Ok v /\ v ∈ allowed.
Proof.
  intros (v & Hv & Hc)%bind_ok. exists v. split; [done|]. destruct (existsb _ _) eqn:E; [|done].
  apply existsb_exists in E as (x & Hx & E). apply bytes_eqb_eq in E as ->. by apply list_elem_of_In.
Qed.

(** ** The raft section *)

Lemma check_known_ok peers l : check_known peers l = Ok tt -> Forall (fun e => pc_node_id e ∈ peer_ids peers) l.
Proof.
  induction l as [|e l IH]; simpl; [constructor|]. destruct (existsb _ _) eqn:E; [|done]. intros Hl.
  constructor; [by apply existsb_eqb_elem|by apply IH].
Qed.

Lemma endpoints_dom l (m : gmap N bytes) id : id ∈ dom (fold_left (fun m e => <[pc_node_id e := endpoint e]> m) l m) ->
  id ∈ dom m \/ id ∈ peer_ids l.
Proof.
  revert m. induction l as [|e l IH]; intros m; simpl; [by left|]. intros [Hm|Hl]%IH; [|right; by right].
  apply dom_insert, elem_of_union in Hm as [->%elem_of_singleton|Hm]; [right; left|by left].
Qed.

(** What a server that runs raft relies on. *)
Record raft_usable (c : ServerConfig) : Prop := {
  ru_peers : exists id peers, raft_node_id c = Ok id /\ raft_peers c = Ok peers /\ peers_ok peers /\ id ∈ peer_ids peers;
  ru_endpoints : exists peers eps, raft_peers c = Ok peers /\ raft_sql_endpoints c = Ok eps /\
    forall id, id ∈ dom eps -> id ∈ peer_ids peers;
  ru_listen : exists h p, raft_listen_host c = Ok h /\ raft_listen_port c = Ok p /\ h <> [] /\ p <> [];
  ru_log : exists p, raft_log_path c = Ok p /\ p <> [] }.

Lemma enabled_usable text c : str_field "raft.peers" c = Ok text -> check_rules kIntRules c = Ok tt ->
  check_enabled text c = Ok tt -> raft_usable c.
Proof.
  intros Ht Hrules. unfold check_enabled. case_bool_decide as Hne; [done|].
  destruct (parse_peer_list text) as [peers|] eqn:Ep; [|done].
  assert (Hpeers : raft_peers c = Ok peers) by (unfold raft_peers; rewrite Ht; cbn; by rewrite bool_decide_eq_false_2, Ep).
  intros (nid & Hn & Hrest)%bind_ok. destruct (negb _) eqn:Ex; [done|]. apply negb_false_iff, existsb_exists in Ex as (p & Hp & Hid).
  apply bind_ok in Hrest as ([] & He & Hrest). apply bind_ok in Hrest as ([] & Hl & Hrest).
  apply bind_ok in Hrest as (lp & Hlp & Hrest). case_bool_decide as Hlne; [done|]. boolify. split.
  - exists (pc_node_id p), peers. split; [unfold raft_node_id, size_field; rewrite Hn; cbn; by rewrite Hid|]. split; [done|].
    split; [by eapply (proj1 peer_list_roundtrip)|]. apply list_elem_of_In, in_map_iff. by exists p.
  - apply bind_ok in He as (txt & Htxt & He). unfold raft_sql_endpoints, str_field. rewrite Htxt. cbn. case_bool_decide as Hte.
    + exists peers. eexists. split; [done|]. split; [done|]. intros id Hid'. set_solver.
    + destruct (parse_peer_list txt) as [eps|]; [|done]. exists peers. eexists. split; [done|]. split; [done|].
      intros id [Hd|Hd]%endpoints_dom; [set_solver|]. apply check_known_ok in He.
      apply list_elem_of_In, in_map_iff in Hd as (e & <- & Hin). eapply Forall_forall in He; [done|]. by apply list_elem_of_In.
  - apply host_port_split in Hl as (h & pt & H1 & H2 & _ & H3 & H4 & _). by exists h, pt.
  - by exists lp.
Qed.

Lemma shards_usable text c : str_field "raft.shards" c = Ok text ->
  (if bool_decide (text = []) then Ok tt else returned (key_error (str "raft.shards") []) (parse_shards text)) = Ok tt ->
  exists rt, raft_group_router c = Ok rt /\ router_ok rt.
Proof.
  intros Ht Hc. unfold raft_group_router. rewrite Ht. cbn. case_bool_decide as Hte.
  - exists empty_router. split; [done|]. split; simpl; try constructor. intros id Hid. lia.
  - destruct (parse_shards text) as [rt|] eqn:Ep; [|done]. exists rt. split; [done|]. unfold parse_shards in Ep.
    apply bind_ok in Ep as (rt0 & _ & Ep). destruct (validate rt0) eqn:Ev; [done|]. injection Ep as <-. by apply validate_ok.
Qed.

(** What the rest of the server relies on. *)
Record usable (c : ServerConfig) : Prop := {
  us_fields : forall dotted d, config_find dotted new_config = Some d -> readable c dotted d;
  us_connections : exists n, max_connections c = Ok n /\ (1 <= n)%N;
  us_threads : exists n, read_threads c = Ok n /\ (1 <= n <= 64)%N;
  us_queues : exists r w, read_queue_max c = Ok r /\ write_queue_max c = Ok w /\ (1 <= r)%N /\ (1 <= w)%N;
  us_rows : exists n, max_result_rows c = Ok n /\ (1 <= n)%N;
  us_timeouts : exists i t s, idle_timeout_ms c = Ok i /\ idle_in_transaction_timeout_ms c = Ok t /\
    statement_timeout_ms c = Ok s /\ 0 <= i /\ 0 <= t /\ 0 <= s;
  us_engine : exists e, engine c = Ok e /\ (e = str "leveldb" \/ e = str "mock");
  us_path : exists p, path c = Ok p /\ p <> [];
  us_listen : exists h p, listen_host c = Ok h /\ listen_port c = Ok p /\ listen c = Ok (h ++ [colon] ++ p) /\ h <> [] /\ p <> [];
  us_timing : exists h e, raft_heartbeat_ms c = Ok h /\ raft_election_timeout_ms c = Ok e /\ (1 <= h < e)%N;
  us_router : exists rt, raft_group_router c = Ok rt /\ router_ok rt;
  us_raft : exists b, raft_enabled c = Ok b /\ (b = true -> raft_usable c) }.

Ltac in_rules := repeat first [left | right].
Ltac rule key lo hi H v := destruct (rule_field key lo hi _ ltac:(in_rules) H ltac:(lia) ltac:(unfold int64_max; lia)) as (v & ? & ? & ?).

Lemma validate_raft_ok c : check_rules kIntRules c = Ok tt -> validate_raft c = Ok tt ->
  (exists h e, raft_heartbeat_ms c = Ok h /\ raft_election_timeout_ms c = Ok e /\ (1 <= h < e)%N) /\
  (exists rt, raft_group_router c = Ok rt /\ router_ok rt) /\
  (exists b, raft_enabled c = Ok b /\ (b = true -> raft_usable c)).
Proof.
  intros Hr (en & Hen & (et & Het & (hb & Hhb & Hrest)%bind_ok)%bind_ok)%bind_ok.
  destruct (et <=? hb) eqn:E; [done|]. boolify. apply bind_ok in Hrest as (ps & Hps & Hrest).
  apply bind_ok in Hrest as (sh & Hsh & Hrest). apply bind_ok in Hrest as ([] & Hshok & Hrest). split_and!.
  - rule "raft.heartbeat_ms" 1 int64_max Hr h. rule "raft.election_timeout_ms" 1 int64_max Hr e.
    assert (h = hb) as -> by (unfold int_field in *; congruence). assert (e = et) as -> by (unfold int_field in *; congruence).
    exists (Z.to_N hb), (Z.to_N et). split; [done|]. split; [done|]. lia.
  - by eapply shards_usable.
  - exists en. split; [done|]. intros ->. by eapply enabled_usable.
Qed.

Lemma validate_usable c : config_validate c = Ok tt -> usable c.
Proof.
  intros ([] & Hs & ([] & Hr & ([] & _ & ([] & He & ([] & Hl & (p & Hp & Hrest)%bind_ok)%bind_ok)%bind_ok)%bind_ok)%bind_ok)%bind_ok.
  case_bool_decide as Hne; [done|]. destruct (validate_raft_ok c Hr Hrest) as (Htime & Hrt & Hraft). split; try done.
  - intros dotted d. by apply schema_readable.
  - rule "server.max_connections" 1 int64_max Hr v. exists (Z.to_N v). split; [done|lia].
  - rule "execution.read_threads" 1 64 Hr v. exists (Z.to_N v). split; [done|lia].
  - rule "execution.read_queue_max" 1 int64_max Hr v. rule "execution.write_queue_max" 1 int64_max Hr w.
    exists (Z.to_N v), (Z.to_N w). split_and!; [done|done|lia|lia].
  - rule "execution.max_result_rows" 1 int64_max Hr v. exists (Z.to_N v). split; [done|lia].
  - rule "server.idle_timeout_ms" 0 int64_max Hr v. rule "server.idle_in_transaction_timeout_ms" 0 int64_max Hr w.
    rule "execution.statement_timeout_ms" 0 int64_max Hr x. exists v, w, x. split_and!; [done|done|done|lia|lia|lia].
  - apply enum_field in He as (e & He & Hin). exists e. split; [done|].
    apply elem_of_cons in Hin as [->|Hin]; [by left|]. apply list_elem_of_singleton in Hin as ->. by right.
  - by exists p.
  - apply host_port_split in Hl as (h & pt & H1 & H2 & H3 & H4 & H5 & _). by exists h, pt.
Qed.

(** C34: a validated configuration can be used. Validation never throws, whatever
    the text held; and when it accepts, every field can be read without an
    exception, in the range the server needs: connections, threads, queues and row
    limits are positive, timeouts not negative, the heartbeat shorter than the
    election timeout, addresses have a host and a port, the shard table is one the
    router can use, and with raft enabled the peers are a proper list that contains
    the node itself and every node clients may be sent to. *)
Theorem validated_usable (c : ServerConfig) : no_throw (config_validate c) /\ (config_validate c = Ok tt -> usable c).
Proof. split; [apply validate_calm|apply validate_usable]. Qed.

Definition demo_config : ServerConfig :=
  match parse_config (str "[raft]
enabled = yes
node_id = 2
peers = 1@a:5434, 2@b:5434
sql_endpoints = 2@b:5433
shards = a,m,1; n,z,2
log_path = /var/lib/raft
[execution]
read_threads = 8") with Ok c => c | Err _ => new_config end.

Lemma validated_usable_witness : usable demo_config /\ raft_enabled demo_config = Ok true.
Proof.
  split; [|vm_compute; reflexivity]. apply (validated_usable demo_config). vm_compute. reflexivity.
Defined.
