(* ===== verification/AstHeap.v ===== *)
(** * Syntax trees in memory: [parser/ast.cpp], [parser/ast.h], [common/source_span.h]

    The C side of the parser: nodes and their strings are heap allocations that
    the grammar links by pointers, and [free_ast] gives back. The heap maps
    addresses to the two kinds of allocations, [ASTNode]s and [strdup]ed texts;
    reading or freeing an address that is not live is a fault, so a use after
    free and a double free are visible. The allocator grants [h_budget]
    allocations and then answers NULL.

    A [const char *] argument is its text, NULL being [None]; [data[]], the
    flexible array that holds the payload, is a sum of the payload structs. A
    constructor tests [data == nullptr], where [data] is the address of a field
    of [node]: it is never null, also when [node] is, so the test is not a
    branch of the model, and a write through a null [node] is a fault. *)

From S2P Require Import Prelude Bytes SqlTypes SqlTruth Rewriter Schema Planner StmtBuilder.
Local Open Scope Z_scope.

(** ** Positions: [common/source_span.h] *)

Record SSpan := mkSSpan { begin_line : N; begin_column : N; end_line : N; end_column : N }.

Definition sspan_unknown : SSpan := mkSSpan 0 0 0 0.
Definition sspan_make (begin_line begin_column end_line end_column : N) : SSpan :=
  mkSSpan begin_line begin_column end_line end_column.
Definition sspan_valid (span : SSpan) : bool :=
  (0 <? begin_line span)%N && (0 <? begin_column span)%N && (0 <? end_line span)%N && (0 <? end_column span)%N.
Definition sspan_equal (a b : SSpan) : bool :=
  (begin_line a =? begin_line b)%N && (begin_column a =? begin_column b)%N &&
  (end_line a =? end_line b)%N && (end_column a =? end_column b)%N.
Definition sspan_width (span : SSpan) : N :=
  if negb (sspan_valid span) || negb (begin_line span =? end_line span)%N || (end_column span <=? begin_column span)%N
  then 0%N else (end_column span - begin_column span)%N.

(** ** Nodes: [parser/ast.h] *)

Inductive NodeType :=
| NODE_NUMBER | NODE_STRING | NODE_IDENT | NODE_LITERAL
| NODE_USE | NODE_SELECT | NODE_INSERT | NODE_UPDATE | NODE_DELETE
| NODE_COMPARE | NODE_BINARY_OP | NODE_ASSIGNMENT | NODE_LIST | NODE_NOT | NODE_IN | NODE_NOT_IN
| NODE_ORDER | NODE_LIMIT
| NODE_CREATE_DATABASE | NODE_DROP_DATABASE | NODE_CREATE_TABLE | NODE_DROP_TABLE | NODE_COLUMN_DEF
| NODE_TRANSACTION | NODE_EXPLAIN | NODE_TYPE_COUNT.
#[export] Instance NodeType_eq_dec : EqDecision NodeType.
Proof. solve_decision. Defined.

Inductive ListType := LIST_COLUMN | LIST_VALUE | LIST_ASSIGNMENT | LIST_COLUMN_DEF | LIST_ORDER | LIST_UNKNOWN.

(** A pointer: [None] is NULL. *)
Definition ptr : Type := option positive.

(** The payload structs. *)
Record NumberNode := mkNumberNode { nn_value : Z }.
Record LiteralNode := mkLiteralNode { li_kind : LiteralKind }.
Record StringNode := mkStringNode { st_value : ptr }.
Record IdentNode := mkIdentNode { id_name : ptr }.
Record SelectNode := mkSelectNode { se_table : ptr; se_table_span : SSpan;
  se_columns : ptr; se_condition : ptr; se_order_by : ptr; se_limit : ptr }.
Record InsertNode := mkInsertNode { in_table : ptr; in_table_span : SSpan; in_columns : ptr; in_values : ptr }.
Record UpdateNode := mkUpdateNode { up_table : ptr; up_table_span : SSpan; up_assignments : ptr; up_condition : ptr }.
Record AssignmentNode := mkAssignmentNode { as_column : ptr; as_value : ptr }.
Record DeleteNode := mkDeleteNode { de_table : ptr; de_table_span : SSpan; de_condition : ptr }.
Record CompareNode := mkCompareNode { co_column : ptr; co_op : COpType; co_right : ptr }.
Record InNode := mkInNode { inn_column : ptr; inn_values : ptr; inn_excluded : Z }.
Record BinaryOpNode := mkBinaryOpNode { bi_left : ptr; bi_op : COpType; bi_right : ptr }.
Record NotNode := mkNotNode { no_child : ptr }.
Record ASTNodeList := mkASTNodeList { al_list_type : ListType; al_head : ptr; al_tail : ptr; al_count : Z }.
Record OrderNode := mkOrderNode { or_column : ptr; or_direction : COpType }.
Record LimitNode := mkLimitNode { lm_limit : Z; lm_offset : Z; lm_has_limit : Z; lm_has_offset : Z }.
Record DatabaseNode := mkDatabaseNode { db_name : ptr; db_span : SSpan }.
Record CreateTableNode := mkCreateTableNode { ct_table_name : ptr; ct_table_span : SSpan; ct_columns : ptr }.
Record DropTableNode := mkDropTableNode { dt_table_name : ptr; dt_table_span : SSpan }.
Record ColumnDefNode := mkColumnDefNode { cd_name : ptr; cd_data_type : CDataType; cd_length : N;
  cd_is_primary_key : Z; cd_nullable : Z }.
Record TransactionNode := mkTransactionNode { tn_kind : AstTransactionKind }.
Record ExplainNode := mkExplainNode { ex_analyze : Z; ex_statement : ptr }.

Inductive NodeData :=
| DNumber (d : NumberNode) | DLiteral (d : LiteralNode) | DString (d : StringNode) | DIdent (d : IdentNode)
| DSelect (d : SelectNode) | DInsert (d : InsertNode) | DUpdate (d : UpdateNode) | DAssignment (d : AssignmentNode)
| DDelete (d : DeleteNode) | DCompare (d : CompareNode) | DIn (d : InNode) | DBinaryOp (d : BinaryOpNode)
| DNot (d : NotNode) | DList (d : ASTNodeList) | DOrder (d : OrderNode) | DLimit (d : LimitNode)
| DDatabase (d : DatabaseNode) | DCreateTable (d : CreateTableNode) | DDropTable (d : DropTableNode)
| DColumnDef (d : ColumnDefNode) | DTransaction (d : TransactionNode) | DExplain (d : ExplainNode).

(** [struct ASTNode] *)
Record AstNode := mkAstNode { n_type : NodeType; n_next : ptr; n_span : SSpan; n_data : NodeData }.

(** Reading [data[]] as one of the structs ([AST_NODE_DATA]); [None] when it holds another. *)
Definition as_number (d : NodeData) : option NumberNode := match d with DNumber x => Some x | _ => None end.
Definition as_literal (d : NodeData) : option LiteralNode := match d with DLiteral x => Some x | _ => None end.
Definition as_string (d : NodeData) : option StringNode := match d with DString x => Some x | _ => None end.
Definition as_ident (d : NodeData) : option IdentNode := match d with DIdent x => Some x | _ => None end.
Definition as_select (d : NodeData) : option SelectNode := match d with DSelect x => Some x | _ => None end.
Definition as_insert (d : NodeData) : option InsertNode := match d with DInsert x => Some x | _ => None end.
Definition as_update (d : NodeData) : option UpdateNode := match d with DUpdate x => Some x | _ => None end.
Definition as_assignment (d : NodeData) : option AssignmentNode := match d with DAssignment x => Some x | _ => None end.
Definition as_delete (d : NodeData) : option DeleteNode := match d with DDelete x => Some x | _ => None end.
Definition as_compare (d : NodeData) : option CompareNode := match d with DCompare x => Some x | _ => None end.
Definition as_in (d : NodeData) : option InNode := match d with DIn x => Some x | _ => None end.
Definition as_binary (d : NodeData) : option BinaryOpNode := match d with DBinaryOp x => Some x | _ => None end.
Definition as_not (d : NodeData) : option NotNode := match d with DNot x => Some x | _ => None end.
Definition as_node_list (d : NodeData) : option ASTNodeList := match d with DList x => Some x | _ => None end.
Definition as_order (d : NodeData) : option OrderNode := match d with DOrder x => Some x | _ => None end.
Definition as_limit (d : NodeData) : option LimitNode := match d with DLimit x => Some x | _ => None end.
Definition as_database (d : NodeData) : option DatabaseNode := match d with DDatabase x => Some x | _ => None end.
Definition as_create_table (d : NodeData) : option CreateTableNode := match d with DCreateTable x => Some x | _ => None end.
Definition as_drop_table (d : NodeData) : option DropTableNode := match d with DDropTable x => Some x | _ => None end.
Definition as_column_def (d : NodeData) : option ColumnDefNode := match d with DColumnDef x => Some x | _ => None end.
Definition as_transaction (d : NodeData) : option TransactionNode := match d with DTransaction x => Some x | _ => None end.
Definition as_explain (d : NodeData) : option ExplainNode := match d with DExplain x => Some x | _ => None end.

(** ** The heap *)

Inductive HeapCell := CText (text : bytes) | CNode (n : AstNode).

Record Heap := mkHeap { h_cells : gmap positive HeapCell; h_budget : nat; g_parsed_ast : ptr }.

Inductive HeapFault :=
| NullDereference  (* a read or a write through NULL *)
| DanglingPointer  (* a read, a write or a [free] of an address that is not live *)
| WrongPayload     (* [data[]] read as a struct it does not hold *)
| CountOverflow    (* [int] overflow of a list's [count] *)
| BufferOverrun    (* a write outside the buffer of a printer *)
| OutOfFuel.

Definition Heaped (A : Type) : Type := Heap -> result HeapFault (A * Heap).

#[export] Instance heaped_ret : MRet Heaped := fun A a h => Ok (a, h).
#[export] Instance heaped_bind : MBind Heaped := fun A B k m h => let* (a, h') := m h in k a h'.

Definition fault {A} (e : HeapFault) : Heaped A := fun _ => Err e.

Definition with_cells (f : gmap positive HeapCell -> gmap positive HeapCell) (h : Heap) : Heap :=
  mkHeap (f (h_cells h)) (h_budget h) (g_parsed_ast h).

(** [malloc]/[calloc]: a fresh address, or NULL when the budget is spent. *)
Definition allocate (c : HeapCell) : Heaped ptr := fun h =>
  match h_budget h with
  | O => Ok (None, h)
  | S b => let a := fresh (dom (h_cells h)) in
           Ok (Some a, mkHeap (<[a := c]> (h_cells h)) b (g_parsed_ast h))
  end.

(** [free]; [free(NULL)] does nothing. *)
Definition free_cell (p : ptr) : Heaped unit := fun h =>
  match p with
  | None => Ok (tt, h)
  | Some a => match h_cells h !! a with
              | Some _ => Ok (tt, with_cells (delete a) h)
              | None => Err DanglingPointer
              end
  end.

Definition read_node (p : ptr) : Heaped AstNode := fun h =>
  match p with
  | None => Err NullDereference
  | Some a => match h_cells h !! a with
              | Some (CNode n) => Ok (n, h)
              | _ => Err DanglingPointer
              end
  end.

Definition write_node (p : ptr) (n : AstNode) : Heaped unit := fun h =>
  match p with
  | None => Err NullDereference
  | Some a => match h_cells h !! a with
              | Some (CNode _) => Ok (tt, with_cells <[a := CNode n]> h)
              | _ => Err DanglingPointer
              end
  end.

(** A field of the payload of a node. *)
Definition read_field {A} (p : ptr) (field : NodeData -> option A) : Heaped A :=
  n ← read_node p;
  match field (n_data n) with Some x => mret x | None => fault WrongPayload end.

Definition write_data (p : ptr) (d : NodeData) : Heaped unit :=
  n ← read_node p; write_node p (mkAstNode (n_type n) (n_next n) (n_span n) d).
Definition write_next (p next : ptr) : Heaped unit :=
  n ← read_node p; write_node p (mkAstNode (n_type n) next (n_span n) (n_data n)).

(** ** Allocation *)

(** [strdup] copies up to the terminator. *)
Fixpoint c_text (text : bytes) : bytes :=
  match text with
  | [] => []
  | b :: text' => if bool_decide (b = x00) then [] else b :: c_text text'
  end.

Definition ast_strdup (text : option bytes) : Heaped ptr :=
  match text with
  | Some t => allocate (CText (c_text t))
  | None => mret None
  end.

(** [calloc]: the payload starts as the zeroed struct [zero]. *)
Definition ast_alloc_node (type : NodeType) (zero : NodeData) : Heaped ptr :=
  allocate (CNode (mkAstNode type None sspan_unknown zero)).

Definition ast_set_span (node : ptr) (begin_line begin_column end_line end_column : N) : Heaped unit :=
  match node with
  | None => mret tt
  | Some _ => n ← read_node node;
      write_node node (mkAstNode (n_type n) (n_next n)
        (sspan_make begin_line begin_column end_line end_column) (n_data n))
  end.

(** ** Constructors

    Each allocates a node with a zeroed payload, copies its strings and fills in
    the fields; the children are taken over. *)

Definition make_number_node (num : Z) : Heaped ptr :=
  node ← ast_alloc_node NODE_NUMBER (DNumber (mkNumberNode 0));
  _ ← write_data node (DNumber (mkNumberNode num));
  mret node.

Definition make_literal_node (kind : LiteralKind) : Heaped ptr :=
  node ← ast_alloc_node NODE_LITERAL (DLiteral (mkLiteralNode LITERAL_NULL));
  _ ← write_data node (DLiteral (mkLiteralNode kind));
  mret node.

Definition make_string_node (str : option bytes) : Heaped ptr :=
  node ← ast_alloc_node NODE_STRING (DString (mkStringNode None));
  text ← ast_strdup str;
  _ ← write_data node (DString (mkStringNode text));
  mret node.

Definition make_ident_node (name : option bytes) : Heaped ptr :=
  node ← ast_alloc_node NODE_IDENT (DIdent (mkIdentNode None));
  text ← ast_strdup name;
  _ ← write_data node (DIdent (mkIdentNode text));
  mret node.

Definition make_select_node (table : option bytes) (columns condition order_by limit : ptr) : Heaped ptr :=
  node ← ast_alloc_node NODE_SELECT (DSelect (mkSelectNode None sspan_unknown None None None None));
  text ← ast_strdup table;
  _ ← write_data node (DSelect (mkSelectNode text sspan_unknown columns condition order_by limit));
  mret node.

Definition make_insert_node (table : option bytes) (columns values : ptr) : Heaped ptr :=
  node ← ast_alloc_node NODE_INSERT (DInsert (mkInsertNode None sspan_unknown None None));
  text ← ast_strdup table;
  _ ← write_data node (DInsert (mkInsertNode text sspan_unknown columns values));
  mret node.

Definition make_update_node (table : option bytes) (assignments condition : ptr) : Heaped ptr :=
  node ← ast_alloc_node NODE_UPDATE (DUpdate (mkUpdateNode None sspan_unknown None None));
  text ← ast_strdup table;
  _ ← write_data node (DUpdate (mkUpdateNode text sspan_unknown assignments condition));
  mret node.

Definition make_delete_node (table : option bytes) (condition : ptr) : Heaped ptr :=
  node ← ast_alloc_node NODE_DELETE (DDelete (mkDeleteNode None sspan_unknown None));
  text ← ast_strdup table;
  _ ← write_data node (DDelete (mkDeleteNode text sspan_unknown condition));
  mret node.

Definition make_assignment_node (column : option bytes) (value : ptr) : Heaped ptr :=
  node ← ast_alloc_node NODE_ASSIGNMENT (DAssignment (mkAssignmentNode None None));
  text ← ast_strdup column;
  _ ← write_data node (DAssignment (mkAssignmentNode text value));
  mret node.

Definition make_compare_node (column : option bytes) (optype : COpType) (right : ptr) : Heaped ptr :=
  node ← ast_alloc_node NODE_COMPARE (DCompare (mkCompareNode None COP_EQ None));
  text ← ast_strdup column;
  _ ← write_data node (DCompare (mkCompareNode text optype right));
  mret node.

Definition make_in_node (column : option bytes) (values : ptr) : Heaped ptr :=
  node ← ast_alloc_node NODE_IN (DIn (mkInNode None None 0));
  text ← ast_strdup column;
  _ ← write_data node (DIn (mkInNode text values 0));
  mret node.

(** The node keeps the type [NODE_IN]; only [excluded] tells the two apart. *)
Definition make_not_in_node (column : option bytes) (values : ptr) : Heaped ptr :=
  node ← make_in_node column values;
  d ← read_field node as_in;
  _ ← write_data node (DIn (mkInNode (inn_column d) (inn_values d) 1));
  mret node.

Definition make_binary_node (left : ptr) (optype : COpType) (right : ptr) : Heaped ptr :=
  node ← ast_alloc_node NODE_BINARY_OP (DBinaryOp (mkBinaryOpNode None COP_EQ None));
  _ ← write_data node (DBinaryOp (mkBinaryOpNode left optype right));
  mret node.

Definition make_not_node (child : ptr) : Heaped ptr :=
  node ← ast_alloc_node NODE_NOT (DNot (mkNotNode None));
  _ ← write_data node (DNot (mkNotNode child));
  mret node.

(** *** Lists *)

Definition INT_MAX : Z := 2 ^ 31 - 1.

Definition create_list (elem : ptr) (lst : ListType) : Heaped ptr :=
  node ← ast_alloc_node NODE_LIST (DList (mkASTNodeList LIST_COLUMN None None 0));
  _ ← write_data node (DList (mkASTNodeList lst elem elem 1));
  mret node.

(** The tail is dereferenced unseen: a list made from a NULL element has none. *)
Definition append_to_list (list_node elem : ptr) : Heaped ptr :=
  match list_node, elem with
  | None, _ => create_list elem LIST_UNKNOWN
  | Some _, None => mret list_node
  | Some _, Some _ =>
      l ← read_field list_node as_node_list;
      _ ← write_next (al_tail l) elem;
      l ← read_field list_node as_node_list;
      if al_count l =? INT_MAX then fault CountOverflow
      else _ ← write_data list_node (DList (mkASTNodeList (al_list_type l) (al_head l) elem (al_count l + 1)));
           mret list_node
  end.

Definition make_order_node (column : option bytes) (direction : COpType) : Heaped ptr :=
  node ← ast_alloc_node NODE_ORDER (DOrder (mkOrderNode None COP_EQ));
  text ← ast_strdup column;
  _ ← write_data node (DOrder (mkOrderNode text direction));
  mret node.

Definition make_limit_node (limit has_limit offset has_offset : Z) : Heaped ptr :=
  node ← ast_alloc_node NODE_LIMIT (DLimit (mkLimitNode 0 0 0 0));
  _ ← write_data node (DLimit (mkLimitNode limit offset has_limit has_offset));
  mret node.

Definition make_use_node (db_name : option bytes) : Heaped ptr :=
  node ← ast_alloc_node NODE_USE (DDatabase (mkDatabaseNode None sspan_unknown));
  text ← ast_strdup db_name;
  _ ← write_data node (DDatabase (mkDatabaseNode text sspan_unknown));
  mret node.

Definition make_create_database_node (db_name : option bytes) : Heaped ptr :=
  node ← ast_alloc_node NODE_CREATE_DATABASE (DDatabase (mkDatabaseNode None sspan_unknown));
  text ← ast_strdup db_name;
  _ ← write_data node (DDatabase (mkDatabaseNode text sspan_unknown));
  mret node.

Definition make_drop_database_node (db_name : option bytes) : Heaped ptr :=
  node ← ast_alloc_node NODE_DROP_DATABASE (DDatabase (mkDatabaseNode None sspan_unknown));
  text ← ast_strdup db_name;
  _ ← write_data node (DDatabase (mkDatabaseNode text sspan_unknown));
  mret node.

Definition make_create_table_node (table_name : option bytes) (columns : ptr) : Heaped ptr :=
  node ← ast_alloc_node NODE_CREATE_TABLE (DCreateTable (mkCreateTableNode None sspan_unknown None));
  text ← ast_strdup table_name;
  _ ← write_data node (DCreateTable (mkCreateTableNode text sspan_unknown columns));
  mret node.

Definition make_drop_table_node (table_name : option bytes) : Heaped ptr :=
  node ← ast_alloc_node NODE_DROP_TABLE (DDropTable (mkDropTableNode None sspan_unknown));
  text ← ast_strdup table_name;
  _ ← write_data node (DDropTable (mkDropTableNode text sspan_unknown));
  mret node.

Definition make_column_def_node (name : option bytes) (data_type : CDataType) (length : N) (is_primary_key nullable : Z) : Heaped ptr :=
  node ← ast_alloc_node NODE_COLUMN_DEF (DColumnDef (mkColumnDefNode None DT_INT 0 0 0));
  text ← ast_strdup name;
  _ ← write_data node (DColumnDef (mkColumnDefNode text data_type length is_primary_key nullable));
  mret node.

Definition make_transaction_node (kind : AstTransactionKind) : Heaped ptr :=
  node ← ast_alloc_node NODE_TRANSACTION (DTransaction (mkTransactionNode TXN_BEGIN));
  _ ← write_data node (DTransaction (mkTransactionNode kind));
  mret node.

Definition make_explain_node (analyze : Z) (statement : ptr) : Heaped ptr :=
  node ← ast_alloc_node NODE_EXPLAIN (DExplain (mkExplainNode 0 None));
  _ ← write_data node (DExplain (mkExplainNode analyze statement));
  mret node.

(** ** Destructors

    [rec] is [free_ast]. Every field is read again before it is released. *)

Section Destructors.
Context (rec : ptr -> Heaped unit).

Definition free_text (node : ptr) (field : NodeData -> option ptr) : Heaped unit :=
  p ← read_field node field;
  match p with Some _ => free_cell p | None => mret tt end.
Definition free_child (node : ptr) (field : NodeData -> option ptr) : Heaped unit :=
  p ← read_field node field;
  match p with Some _ => rec p | None => mret tt end.

Definition free_number_node (node : ptr) : Heaped unit := free_cell node.
Definition free_literal_node (node : ptr) : Heaped unit := free_cell node.

Definition free_string_node (node : ptr) : Heaped unit :=
  _ ← free_text node (fun d => st_value <$> as_string d);
  free_cell node.

Definition free_ident_node (node : ptr) : Heaped unit :=
  _ ← free_text node (fun d => id_name <$> as_ident d);
  free_cell node.

Definition free_select_node (node : ptr) : Heaped unit :=
  _ ← free_text node (fun d => se_table <$> as_select d);
  _ ← free_child node (fun d => se_columns <$> as_select d);
  _ ← free_child node (fun d => se_condition <$> as_select d);
  _ ← free_child node (fun d => se_order_by <$> as_select d);
  _ ← free_child node (fun d => se_limit <$> as_select d);
  free_cell node.

Definition free_insert_node (node : ptr) : Heaped unit :=
  _ ← free_text node (fun d => in_table <$> as_insert d);
  _ ← free_child node (fun d => in_columns <$> as_insert d);
  _ ← free_child node (fun d => in_values <$> as_insert d);
  free_cell node.

Definition free_update_node (node : ptr) : Heaped unit :=
  _ ← free_text node (fun d => up_table <$> as_update d);
  _ ← free_child node (fun d => up_assignments <$> as_update d);
  _ ← free_child node (fun d => up_condition <$> as_update d);
  free_cell node.

Definition free_delete_node (node : ptr) : Heaped unit :=
  _ ← free_text node (fun d => de_table <$> as_delete d);
  _ ← free_child node (fun d => de_condition <$> as_delete d);
  free_cell node.

Definition free_assignment_node (node : ptr) : Heaped unit :=
  _ ← free_text node (fun d => as_column <$> as_assignment d);
  _ ← free_child node (fun d => as_value <$> as_assignment d);
  free_cell node.

Definition free_compare_node (node : ptr) : Heaped unit :=
  _ ← free_text node (fun d => co_column <$> as_compare d);
  _ ← free_child node (fun d => co_right <$> as_compare d);
  free_cell node.

Definition free_in_node (node : ptr) : Heaped unit :=
  _ ← free_text node (fun d => inn_column <$> as_in d);
  _ ← free_child node (fun d => inn_values <$> as_in d);
  free_cell node.

Definition free_binary_node (node : ptr) : Heaped unit :=
  _ ← free_child node (fun d => bi_left <$> as_binary d);
  _ ← free_child node (fun d => bi_right <$> as_binary d);
  free_cell node.

Definition free_not_node (node : ptr) : Heaped unit :=
  _ ← free_child node (fun d => no_child <$> as_not d);
  free_cell node.

(** The loop of [free_list]: the link is read before the element is released. *)
Fixpoint free_items (fuel : nat) (curr : ptr) : Heaped unit :=
  match fuel with
  | O => fault OutOfFuel
  | S fuel' =>
      match curr with
      | None => mret tt
      | Some _ =>
          n ← read_node curr;
          let next := n_next n in
          _ ← rec curr;
          free_items fuel' next
      end
  end.

Definition free_list (fuel : nat) (list_node : ptr) : Heaped unit :=
  match list_node with
  | None => mret tt
  | Some _ =>
      head ← read_field list_node (fun d => al_head <$> as_node_list d);
      _ ← free_items fuel head;
      free_cell list_node
  end.

Definition free_order_node (node : ptr) : Heaped unit :=
  _ ← free_text node (fun d => or_column <$> as_order d);
  free_cell node.

Definition free_limit_node (node : ptr) : Heaped unit := free_cell node.

Definition free_use_node (node : ptr) : Heaped unit :=
  _ ← free_text node (fun d => db_name <$> as_database d);
  free_cell node.

Definition free_create_database_node (node : ptr) : Heaped unit :=
  _ ← free_text node (fun d => db_name <$> as_database d);
  free_cell node.

Definition free_drop_database_node (node : ptr) : Heaped unit :=
  _ ← free_text node (fun d => db_name <$> as_database d);
  free_cell node.

Definition free_create_table_node (node : ptr) : Heaped unit :=
  _ ← free_text node (fun d => ct_table_name <$> as_create_table d);
  _ ← free_child node (fun d => ct_columns <$> as_create_table d);
  free_cell node.

Definition free_drop_table_node (node : ptr) : Heaped unit :=
  _ ← free_text node (fun d => dt_table_name <$> as_drop_table d);
  free_cell node.

Definition free_column_def_node (node : ptr) : Heaped unit :=
  _ ← free_text node (fun d => cd_name <$> as_column_def d);
  free_cell node.

Definition free_transaction_node (node : ptr) : Heaped unit := free_cell node.

Definition free_explain_node (node : ptr) : Heaped unit :=
  _ ← free_child node (fun d => ex_statement <$> as_explain d);
  free_cell node.

(** The column [do_free] of the table [nodes], by [get_node_lifetime]; [None]
    for a type outside the table. *)
Definition do_free (fuel : nat) (type : NodeType) : option (ptr -> Heaped unit) :=
  match type with
  | NODE_NUMBER => Some free_number_node
  | NODE_STRING => Some free_string_node
  | NODE_IDENT => Some free_ident_node
  | NODE_LITERAL => Some free_literal_node
  | NODE_USE => Some free_use_node
  | NODE_SELECT => Some free_select_node
  | NODE_INSERT => Some free_insert_node
  | NODE_UPDATE => Some free_update_node
  | NODE_DELETE => Some free_delete_node
  | NODE_COMPARE => Some free_compare_node
  | NODE_BINARY_OP => Some free_binary_node
  | NODE_ASSIGNMENT => Some free_assignment_node
  | NODE_LIST => Some (free_list fuel)
  | NODE_NOT => Some free_not_node
  | NODE_IN => Some free_in_node
  | NODE_NOT_IN => Some free_in_node
  | NODE_ORDER => Some free_order_node
  | NODE_LIMIT => Some free_limit_node
  | NODE_CREATE_DATABASE => Some free_create_database_node
  | NODE_DROP_DATABASE => Some free_drop_database_node
  | NODE_CREATE_TABLE => Some free_create_table_node
  | NODE_DROP_TABLE => Some free_drop_table_node
  | NODE_COLUMN_DEF => Some free_column_def_node
  | NODE_TRANSACTION => Some free_transaction_node
  | NODE_EXPLAIN => Some free_explain_node
  | NODE_TYPE_COUNT => None
  end.

End Destructors.

(** ** Management *)

(** The recursion goes one level down a tree, or one element along a list, per
    unit of fuel. *)
Fixpoint free_ast (fuel : nat) (node : ptr) : Heaped unit :=
  match fuel with
  | O => fault OutOfFuel
  | S fuel' =>
      match node with
      | None => mret tt
      | Some _ =>
          n ← read_node node;
          match do_free (free_ast fuel') fuel' (n_type n) with
          | Some destroy => destroy node
          | None => free_cell node
          end
      end
  end.

Definition set_parsed_ast (node : ptr) : Heaped unit := fun h =>
  Ok (tt, mkHeap (h_cells h) (h_budget h) node).
Definition get_parsed_ast : Heaped ptr := fun h => Ok (g_parsed_ast h, h).
Definition reset_parser (fuel : nat) : Heaped unit :=
  p ← get_parsed_ast;
  match p with
  | Some _ => _ ← free_ast fuel p; set_parsed_ast None
  | None => mret tt
  end.
