(* ===== verification/AstOwn.v ===== *)
(** * Ownership of syntax trees: what [parser/ast.cpp] allocates is what it frees

    A layout is a tree together with the addresses it occupies. [owned h ls]
    says that the live cells of the heap are exactly those of the disjoint trees
    [ls], the pointers a grammar holds on its stack. [free_ast] on one of them
    gives back exactly its cells; every constructor call takes its arguments
    from the owned trees and leaves an owned forest.

    A grammar runs a sequence of constructor calls, each of which takes pointers
    that earlier calls returned. When every pointer is handed over at most once,
    no call reads or writes a dead or null pointer, and freeing what is left
    with [free_ast] empties the heap. *)

From S2P Require Import Prelude Bytes SqlTypes SqlTruth Rewriter Schema Planner StmtBuilder AstHeap.
Local Open Scope nat_scope.
Local Set Warnings "-register-all".

(** ** Layouts *)

(** The strings and the child pointers a payload owns, in field order; a list
    owns the chain that starts at its head instead. *)
Definition data_texts (d : NodeData) : list ptr :=
  match d with
  | DString x => [st_value x] | DIdent x => [id_name x]
  | DSelect x => [se_table x] | DInsert x => [in_table x] | DUpdate x => [up_table x] | DDelete x => [de_table x]
  | DAssignment x => [as_column x] | DCompare x => [co_column x] | DIn x => [inn_column x]
  | DOrder x => [or_column x] | DDatabase x => [db_name x]
  | DCreateTable x => [ct_table_name x] | DDropTable x => [dt_table_name x] | DColumnDef x => [cd_name x]
  | _ => []
  end.
Definition data_children (d : NodeData) : list ptr :=
  match d with
  | DSelect x => [se_columns x; se_condition x; se_order_by x; se_limit x]
  | DInsert x => [in_columns x; in_values x]
  | DUpdate x => [up_assignments x; up_condition x]
  | DDelete x => [de_condition x]
  | DAssignment x => [as_value x]
  | DCompare x => [co_right x]
  | DIn x => [inn_values x]
  | DBinaryOp x => [bi_left x; bi_right x]
  | DNot x => [no_child x]
  | DCreateTable x => [ct_columns x]
  | DExplain x => [ex_statement x]
  | _ => []
  end.
Definition data_head (d : NodeData) : ptr := match d with DList x => al_head x | _ => None end.
Definition data_tail (d : NodeData) : ptr := match d with DList x => al_tail x | _ => None end.

(** The payload a node of each type holds. *)
Definition holds (type : NodeType) (d : NodeData) : bool :=
  match type, d with
  | NODE_NUMBER, DNumber _ | NODE_STRING, DString _ | NODE_IDENT, DIdent _ | NODE_LITERAL, DLiteral _
  | NODE_USE, DDatabase _ | NODE_SELECT, DSelect _ | NODE_INSERT, DInsert _ | NODE_UPDATE, DUpdate _
  | NODE_DELETE, DDelete _ | NODE_COMPARE, DCompare _ | NODE_BINARY_OP, DBinaryOp _
  | NODE_ASSIGNMENT, DAssignment _ | NODE_LIST, DList _ | NODE_NOT, DNot _ | NODE_IN, DIn _ | NODE_NOT_IN, DIn _
  | NODE_ORDER, DOrder _ | NODE_LIMIT, DLimit _ | NODE_CREATE_DATABASE, DDatabase _
  | NODE_DROP_DATABASE, DDatabase _ | NODE_CREATE_TABLE, DCreateTable _ | NODE_DROP_TABLE, DDropTable _
  | NODE_COLUMN_DEF, DColumnDef _ | NODE_TRANSACTION, DTransaction _ | NODE_EXPLAIN, DExplain _ => true
  | _, _ => false
  end.

Inductive Layout :=
  Lay (addr : positive) (node : AstNode) (texts : list (option (positive * bytes)))
      (kids : list (option Layout)) (items : list Layout).

Definition lay_addr (l : Layout) : positive := let 'Lay a _ _ _ _ := l in a.
Definition lay_node (l : Layout) : AstNode := let 'Lay _ n _ _ _ := l in n.
Definition lay_items (l : Layout) : list Layout := let 'Lay _ _ _ _ its := l in its.

Definition text_addrs (ts : list (option (positive * bytes))) : list positive := omap (fmap fst) ts.

Fixpoint addrs (l : Layout) : list positive :=
  let 'Lay a _ ts ks its := l in
  a :: text_addrs ts
    ++ (fix of_kids ks := match ks with
                          | [] => []
                          | None :: ks' => of_kids ks'
                          | Some k :: ks' => addrs k ++ of_kids ks'
                          end) ks
    ++ (fix of_items its := match its with [] => [] | i :: its' => addrs i ++ of_items its' end) its.

Definition addrs_all (ls : list Layout) : list positive := concat (map addrs ls).
(** The children that are there. *)
Definition present (ks : list (option Layout)) : list Layout := omap id ks.

Lemma addrs_eq a n ts ks its :
  addrs (Lay a n ts ks its) = a :: text_addrs ts ++ addrs_all (present ks) ++ addrs_all its.
Proof.
  cbn. f_equal. f_equal. f_equal.
  - induction ks as [|[k|] ks IH]; cbn; [done| |done]. by rewrite IH.
  - induction its as [|i its IH]; cbn; [done|]. by rewrite IH.
Qed.

(** The chain of [next] pointers from [p] to NULL through the items. *)
Fixpoint linked (p : ptr) (its : list Layout) : Prop :=
  match its with
  | [] => p = None
  | i :: its' => p = Some (lay_addr i) /\ linked (n_next (lay_node i)) its'
  end.

(** What one node demands of its own cell and of its strings. *)
Definition cell_laid (m : gmap positive HeapCell) (a : positive) (n : AstNode) (ts : list (option (positive * bytes)))
    (ks : list (option Layout)) (its : list Layout) : Prop :=
  m !! a = Some (CNode n) /\ holds (n_type n) (n_data n) = true /\
  data_texts (n_data n) = map (fmap fst) ts /\
  (forall t, In (Some t) ts -> m !! t.1 = Some (CText t.2)) /\
  data_children (n_data n) = map (fmap lay_addr) ks /\
  linked (data_head (n_data n)) its /\ data_tail (n_data n) = lay_addr <$> last its.

Fixpoint laid (m : gmap positive HeapCell) (l : Layout) : Prop :=
  let 'Lay a n ts ks its := l in
  cell_laid m a n ts ks its /\
  (fix all ks := match ks with
                 | [] => True
                 | None :: ks' => all ks'
                 | Some k :: ks' => laid m k /\ all ks'
                 end) ks /\
  (fix all its := match its with [] => True | i :: its' => laid m i /\ all its' end) its.

Lemma laid_eq m a n ts ks its :
  laid m (Lay a n ts ks its) <->
  cell_laid m a n ts ks its /\ Forall (laid m) (present ks) /\ Forall (laid m) its.
Proof.
  cbn. split; intros (H & Hk & Hi); (split; [exact H|split]).
  - clear H Hi. induction ks as [|[k|] ks IH]; cbn; [done| |by apply IH].
    destruct Hk. constructor; [done|by apply IH].
  - clear H Hk. induction its as [|i its IH]; cbn; [done|]. destruct Hi. constructor; [done|by apply IH].
  - clear H Hi. induction ks as [|[k|] ks IH]; cbn in *; [done| |by apply IH].
    inversion Hk; subst. split; [done|by apply IH].
  - clear H Hk. induction its as [|i its IH]; cbn in *; [done|]. inversion Hi; subst. split; [done|by apply IH].
Qed.

(** Induction over the subtrees of a layout. *)
Section LayoutInd.
Context (P : Layout -> Prop).
Hypothesis step : forall a n ts ks its, Forall P (present ks) -> Forall P its -> P (Lay a n ts ks its).

Fixpoint layout_rect (l : Layout) : P l :=
  let 'Lay a n ts ks its := l in
  step a n ts ks its
    ((fix go ks : Forall P (present ks) :=
        match ks with
        | [] => Forall_nil_2 P
        | None :: ks' => go ks'
        | Some k :: ks' => Forall_cons_2 P k (present ks') (layout_rect k) (go ks')
        end) ks)
    ((fix go its : Forall P its :=
        match its with
        | [] => Forall_nil_2 P
        | i :: its' => Forall_cons_2 P i its' (layout_rect i) (go its')
        end) its).
End LayoutInd.

Lemma addrs_all_cons l ls : addrs_all (l :: ls) = addrs l ++ addrs_all ls.
Proof. done. Qed.
Lemma addrs_all_app l1 l2 : addrs_all (l1 ++ l2) = addrs_all l1 ++ addrs_all l2.
Proof. unfold addrs_all. by rewrite map_app, concat_app. Qed.
Lemma addrs_in_all l ls x : In l ls -> x ∈ addrs l -> x ∈ addrs_all ls.
Proof.
  intros Hl Hx. apply list_elem_of_In. apply list_elem_of_In in Hx. unfold addrs_all.
  apply in_concat. exists (addrs l). split; [by apply in_map|done].
Qed.
#[export] Instance addrs_all_perm : Proper ((≡ₚ) ==> (≡ₚ)) addrs_all.
Proof. intros l1 l2 H. unfold addrs_all. induction H; cbn; [done|by f_equiv| |by etrans]. rewrite !app_assoc. f_equiv. apply Permutation_app_comm. Qed.

(** Every tree has at least one cell. *)
Lemma items_le_addrs its : length its <= length (addrs_all its).
Proof. induction its as [|[] its IH]; [done|]. rewrite addrs_all_cons, length_app, addrs_eq. cbn. lia. Qed.

Lemma lay_addr_in l : lay_addr l ∈ addrs l.
Proof. destruct l. rewrite addrs_eq. cbn. by left. Qed.

(** A layout only depends on the cells at its own addresses. *)
Lemma laid_frame l m m' : laid m l -> (forall x, x ∈ addrs l -> m' !! x = m !! x) -> laid m' l.
Proof.
  induction l as [a n ts ks its IHk IHi] using layout_rect.
  rewrite !laid_eq, addrs_eq. intros ((Ha & Hh & Ht & Hts & Hc) & Hk & Hi) Heq. split; [|split].
  - split; [rewrite Heq; [done|by left]|]. do 2 (split; [done|]). split; [|done].
    intros t Hin. rewrite Heq; [by apply Hts|]. right. apply elem_of_app. left.
    unfold text_addrs. apply list_elem_of_omap. exists (Some t). split; [by apply list_elem_of_In|done].
  - rewrite !Forall_forall in *. intros k Hin. apply (IHk k Hin); [by apply Hk|]. intros x Hx. apply Heq.
    right. apply elem_of_app. right. apply elem_of_app. left. eapply addrs_in_all; [by apply list_elem_of_In|done].
  - rewrite !Forall_forall in *. intros i Hin. apply (IHi i Hin); [by apply Hi|]. intros x Hx. apply Heq.
    right. apply elem_of_app. right. apply elem_of_app. right. eapply addrs_in_all; [by apply list_elem_of_In|done].
Qed.

(** ** Releasing addresses *)

Definition release (A : list positive) (h : Heap) : Heap := with_cells (fun m => foldr delete m A) h.

Lemma foldr_delete_lookup (A : list positive) (m : gmap positive HeapCell) x :
  foldr delete m A !! x = if bool_decide (x ∈ A) then None else m !! x.
Proof.
  induction A as [|a A IH]; cbn; [by rewrite bool_decide_eq_false_2 by apply not_elem_of_nil|].
  destruct (decide (x = a)) as [->|Hne].
  - by rewrite lookup_delete_eq, bool_decide_eq_true_2 by by left.
  - rewrite lookup_delete_ne, IH by done. repeat case_bool_decide; set_solver.
Qed.

Lemma release_lookup A h x : h_cells (release A h) !! x = if bool_decide (x ∈ A) then None else h_cells h !! x.
Proof. apply foldr_delete_lookup. Qed.
Lemma release_other A h x : x ∉ A -> h_cells (release A h) !! x = h_cells h !! x.
Proof. intros H. by rewrite release_lookup, bool_decide_eq_false_2. Qed.
Lemma release_app A B h : release (A ++ B) h = release B (release A h).
Proof.
  unfold release, with_cells. cbn. f_equal. apply map_eq. intros x. rewrite !foldr_delete_lookup.
  repeat case_bool_decide; set_solver.
Qed.
#[export] Instance release_perm : Proper ((≡ₚ) ==> eq ==> eq) release.
Proof.
  intros A B HAB h ? <-. unfold release, with_cells. f_equal. apply map_eq. intros x. rewrite !foldr_delete_lookup.
  repeat case_bool_decide; try done; rewrite HAB in *; done.
Qed.
Lemma release_nil h : release [] h = h.
Proof. by destruct h. Qed.

(** ** [free_ast] gives back exactly the cells of a tree *)

(** The fields each destructor releases, in its order. *)
Definition text_fields (type : NodeType) : list (NodeData -> option ptr) :=
  match type with
  | NODE_STRING => [fun d => st_value <$> as_string d]
  | NODE_IDENT => [fun d => id_name <$> as_ident d]
  | NODE_SELECT => [fun d => se_table <$> as_select d]
  | NODE_INSERT => [fun d => in_table <$> as_insert d]
  | NODE_UPDATE => [fun d => up_table <$> as_update d]
  | NODE_DELETE => [fun d => de_table <$> as_delete d]
  | NODE_ASSIGNMENT => [fun d => as_column <$> as_assignment d]
  | NODE_COMPARE => [fun d => co_column <$> as_compare d]
  | NODE_IN | NODE_NOT_IN => [fun d => inn_column <$> as_in d]
  | NODE_ORDER => [fun d => or_column <$> as_order d]
  | NODE_USE | NODE_CREATE_DATABASE | NODE_DROP_DATABASE => [fun d => db_name <$> as_database d]
  | NODE_CREATE_TABLE => [fun d => ct_table_name <$> as_create_table d]
  | NODE_DROP_TABLE => [fun d => dt_table_name <$> as_drop_table d]
  | NODE_COLUMN_DEF => [fun d => cd_name <$> as_column_def d]
  | _ => []
  end.
Definition child_fields (type : NodeType) : list (NodeData -> option ptr) :=
  match type with
  | NODE_SELECT => [fun d => se_columns <$> as_select d; fun d => se_condition <$> as_select d;
                    fun d => se_order_by <$> as_select d; fun d => se_limit <$> as_select d]
  | NODE_INSERT => [fun d => in_columns <$> as_insert d; fun d => in_values <$> as_insert d]
  | NODE_UPDATE => [fun d => up_assignments <$> as_update d; fun d => up_condition <$> as_update d]
  | NODE_DELETE => [fun d => de_condition <$> as_delete d]
  | NODE_ASSIGNMENT => [fun d => as_value <$> as_assignment d]
  | NODE_COMPARE => [fun d => co_right <$> as_compare d]
  | NODE_IN | NODE_NOT_IN => [fun d => inn_values <$> as_in d]
  | NODE_BINARY_OP => [fun d => bi_left <$> as_binary d; fun d => bi_right <$> as_binary d]
  | NODE_NOT => [fun d => no_child <$> as_not d]
  | NODE_CREATE_TABLE => [fun d => ct_columns <$> as_create_table d]
  | NODE_EXPLAIN => [fun d => ex_statement <$> as_explain d]
  | _ => []
  end.

Fixpoint each_field (f : (NodeData -> option ptr) -> Heaped unit) (fields : list (NodeData -> option ptr))
    (k : Heaped unit) : Heaped unit :=
  match fields with
  | [] => k
  | x :: fields' => _ ← f x; each_field f fields' k
  end.

Lemma do_free_fields rec fuel type : type <> NODE_LIST -> type <> NODE_TYPE_COUNT ->
  do_free rec fuel type = Some (fun node =>
    each_field (free_text node) (text_fields type) (each_field (free_child rec node) (child_fields type) (free_cell node))).
Proof. destruct type; done. Qed.

Lemma holds_fields type d : holds type d = true ->
  map (fun f => f d) (text_fields type) = map Some (data_texts d) /\
  map (fun f => f d) (child_fields type) = map Some (data_children d) /\
  type <> NODE_TYPE_COUNT /\ (type = NODE_LIST <-> exists l, d = DList l).
Proof. destruct type, d; intros H; try discriminate H; cbn; repeat split; try done; intros; deex; eauto; discriminate. Qed.

Section FreeSteps.
Context (h : Heap) (a : positive) (n : AstNode).
Hypothesis Ha : h_cells h !! a = Some (CNode n).

Lemma read_node_released A : a ∉ A -> read_node (Some a) (release A h) = Ok (n, release A h).
Proof. intros H. unfold read_node. by rewrite release_other, Ha. Qed.

Lemma read_field_released {X} A (field : NodeData -> option X) x : a ∉ A -> field (n_data n) = Some x ->
  read_field (Some a) field (release A h) = Ok (x, release A h).
Proof. intros H Hf. unfold read_field, mbind, heaped_bind, result_bind. by rewrite read_node_released, Hf. Qed.

Lemma free_cell_released A c x : x ∉ A -> h_cells h !! x = Some c ->
  free_cell (Some x) (release A h) = Ok (tt, release (A ++ [x]) h).
Proof. intros H Hx. unfold free_cell. by rewrite release_other, Hx, release_app by done. Qed.

Lemma free_texts_run K fields ts : forall A, map (fun f => f (n_data n)) fields = map Some (map (fmap fst) ts) ->
  (forall t, In (Some t) ts -> h_cells h !! t.1 = Some (CText t.2)) -> NoDup (A ++ text_addrs ts) ->
  a ∉ A ++ text_addrs ts ->
  each_field (free_text (Some a)) fields K (release A h) = K (release (A ++ text_addrs ts) h).
Proof.
  revert ts. induction fields as [|f fields IH]; intros [|t ts] A Hm Hl Hnd Hna; try discriminate Hm.
  { by rewrite app_nil_r. }
  injection Hm as Hf Hm. cbn [each_field]. unfold mbind at 1, heaped_bind at 1.
  unfold free_text, mbind, heaped_bind. rewrite (read_field_released _ _ (fmap fst t)) by (done || set_solver). cbn [result_bind fst snd].
  destruct t as [[x s]|]; cbn -[release free_cell text_addrs].
  - assert (E : text_addrs (Some (x, s) :: ts) = [x] ++ text_addrs ts) by done.
    rewrite E, app_assoc in Hnd, Hna. rewrite E, app_assoc.
    assert (Hx : x ∉ A) by (intros ?; apply NoDup_app in Hnd as (Hnd & _ & _); apply NoDup_app in Hnd as (_ & Hd & _); apply (Hd x); set_solver).
    rewrite (free_cell_released _ (CText s)) by (done || by apply (Hl (x, s)); left). cbn -[release text_addrs].
    apply IH; [done|intros; apply Hl; by right|done|done].
  - apply (IH ts); [done|intros; apply Hl; by right|done|done].
Qed.

(** [rec] releases the layouts [ok] singles out. *)
Context (rec : ptr -> Heaped unit) (ok : Layout -> Prop).
Hypothesis Hrec : forall k h', ok k -> laid (h_cells h') k -> NoDup (addrs k) ->
  rec (Some (lay_addr k)) h' = Ok (tt, release (addrs k) h').

Lemma rec_released A k : ok k -> laid (h_cells h) k -> NoDup (A ++ addrs k) ->
  rec (Some (lay_addr k)) (release A h) = Ok (tt, release (A ++ addrs k) h).
Proof.
  intros Hok Hk Hnd. apply NoDup_app in Hnd as (_ & Hd & Hnd). rewrite Hrec; [by rewrite release_app|done| |done].
  eapply laid_frame; [done|]. intros x Hx. apply release_other. intros ?. by apply (Hd x).
Qed.

Lemma free_children_run K fields ks : forall A, map (fun f => f (n_data n)) fields = map Some (map (fmap lay_addr) ks) ->
  Forall ok (present ks) -> Forall (laid (h_cells h)) (present ks) -> NoDup (A ++ addrs_all (present ks)) ->
  a ∉ A ++ addrs_all (present ks) ->
  each_field (free_child rec (Some a)) fields K (release A h) = K (release (A ++ addrs_all (present ks)) h).
Proof.
  revert ks. induction fields as [|f fields IH]; intros [|k ks] A Hm Hok Hl Hnd Hna; try discriminate Hm.
  { by rewrite app_nil_r. }
  injection Hm as Hf Hm. cbn [each_field]. unfold mbind at 1, heaped_bind at 1.
  unfold free_child, mbind, heaped_bind. rewrite (read_field_released _ _ (fmap lay_addr k)) by (done || set_solver). cbn [result_bind fst snd].
  destruct k as [k|]; cbn [fmap option_fmap option_map].
  - assert (E : present (Some k :: ks) = k :: present ks) by done. rewrite E in Hok, Hl.
    rewrite E, addrs_all_cons, app_assoc in Hnd, Hna. rewrite E, addrs_all_cons, app_assoc.
    inversion Hok; inversion Hl; subst.
    rewrite rec_released; [|done|done|by apply NoDup_app in Hnd as (? & _)]. by apply IH.
  - by apply (IH ks).
Qed.

Lemma free_items_run its : forall fuel p A, linked p its -> length its < fuel ->
  Forall ok its -> Forall (laid (h_cells h)) its -> NoDup (A ++ addrs_all its) ->
  free_items rec fuel p (release A h) = Ok (tt, release (A ++ addrs_all its) h).
Proof.
  induction its as [|i its IH]; intros [|fuel] p A Hc Hlen Hok Hl Hnd; try (cbn in Hlen; lia); cbn in Hc.
  { subst p. by rewrite app_nil_r. }
  destruct Hc as [-> Hc]. inversion Hok; inversion Hl; subst. rewrite addrs_all_cons, app_assoc in Hnd. rewrite addrs_all_cons, app_assoc.
  cbn [free_items]. unfold mbind, heaped_bind. apply NoDup_app in Hnd as Hnd'. destruct Hnd' as (Hnd1 & _).
  assert (Hi : read_node (Some (lay_addr i)) (release A h) = Ok (lay_node i, release A h)).
  { destruct i as [x ni ti ki ii]. assert (Hx : x ∉ A) by (apply NoDup_app in Hnd1 as (_ & Hd & _); intros ?; apply (Hd x); [done|by apply (lay_addr_in (Lay x ni ti ki ii))]).
    unfold read_node. cbn [lay_addr lay_node]. rewrite release_other by done. by match goal with H : laid _ (Lay x _ _ _ _) |- _ => apply laid_eq in H as ((-> & _) & _) end. }
  rewrite Hi. cbn [result_bind]. rewrite rec_released by done. cbn [result_bind]. apply IH; [done|cbn in Hlen; lia|done|done|done].
Qed.
End FreeSteps.

Lemma free_ast_run fuel : forall l h, length (addrs l) < fuel -> laid (h_cells h) l -> NoDup (addrs l) ->
  free_ast fuel (Some (lay_addr l)) h = Ok (tt, release (addrs l) h).
Proof.
  induction fuel as [|fuel IH]; intros [a n ts ks its] h Hlen Hl Hnd; [lia|].
  rewrite addrs_eq in *. apply laid_eq in Hl as ((Ha & Hh & Ht & Hts & Hk & Hc & _) & Hks & Hits).
  assert (Hsub : forall ls, length (addrs_all ls) < fuel -> Forall (fun k => length (addrs k) < fuel) ls).
  { intros ls Hls. apply Forall_forall. intros k Hin. apply list_elem_of_In, in_split in Hin as (l1 & l2 & ->).
    rewrite addrs_all_app, addrs_all_cons, !length_app in Hls. lia. }
  cbn [length] in Hlen. rewrite !length_app in Hlen.
  apply NoDup_cons in Hnd as [Hna Hnd].
  cbn [free_ast lay_addr]. unfold mbind at 1, heaped_bind at 1. unfold read_node. rewrite Ha. cbn [result_bind].
  destruct (holds_fields _ _ Hh) as (Hft & Hfk & Hcount & Hlist).
  destruct (decide (n_type n = NODE_LIST)) as [Htype|Htype].
  - destruct (proj1 Hlist Htype) as [l Hd]. rewrite Htype. cbn [do_free]. unfold free_list, mbind, heaped_bind.
    rewrite Hd in Ht, Hk, Hc. destruct ts; [|discriminate Ht]. destruct ks; [|discriminate Hk]. cbn in Hna, Hnd, Hlen.
    rewrite <- (release_nil h) at 1. rewrite (read_field_released h a n Ha [] _ (al_head l)); [|apply not_elem_of_nil|by rewrite Hd].
    cbn [result_bind].
    rewrite (free_items_run h (free_ast fuel) (fun k => length (addrs k) < fuel) ltac:(auto) its); [|done| |apply Hsub; lia|done|done].
    2:{ pose proof (items_le_addrs its). lia. }
    cbn [result_bind]. rewrite (free_cell_released h _ (CNode n)); [|done|done].
    cbn [app]. f_equal. f_equal. apply release_perm; [|done]. by rewrite Permutation_app_comm.
  - rewrite do_free_fields by done. cbv beta iota. rewrite <- (release_nil h) at 1.
    rewrite (free_texts_run h a n Ha _ (text_fields (n_type n)) ts []); [|etrans; [apply Hft|by rewrite Ht]|done| |]; cbn [app].
    2:{ by apply NoDup_app in Hnd as (? & _). } 2:{ set_solver. }
    assert (Hi : its = []) by (destruct its; [done|]; destruct (n_data n); try by destruct Hc; exfalso; apply Htype, Hlist; eauto).
    subst its. cbn [addrs_all map concat] in *. rewrite app_nil_r in *.
    rewrite (free_children_run h a n Ha (free_ast fuel) (fun k => length (addrs k) < fuel) ltac:(auto) _ (child_fields (n_type n)) ks);
      [|etrans; [apply Hfk|by rewrite Hk]|apply Hsub; lia|done|done|done].
    rewrite (free_cell_released h _ (CNode n)); [|done|done]. f_equal. f_equal.
    apply release_perm; [|done]. by rewrite Permutation_app_comm.
Qed.

(** ** The forest of live trees *)

(** The live cells are those of the disjoint trees [ls], none of which is linked
    into a list. *)
Definition owned (h : Heap) (ls : list Layout) : Prop :=
  NoDup (addrs_all ls) /\ (forall x, is_Some (h_cells h !! x) <-> x ∈ addrs_all ls) /\
  Forall (laid (h_cells h)) ls /\ Forall (fun l => n_next (lay_node l) = None) ls.

#[export] Instance owned_perm h : Proper ((≡ₚ) ==> iff) (owned h).
Proof.
  assert (Himp : forall l1 l2, l1 ≡ₚ l2 -> owned h l1 -> owned h l2).
  { intros l1 l2 H (Hnd & Hd & Hl & Hn). split; [by rewrite <- H|]. split; [intros x; by rewrite <- H|].
    by rewrite <- H. }
  intros l1 l2 H. split; by apply Himp.
Qed.

Lemma owned_nil b p : owned (mkHeap ∅ b p) [].
Proof. split; [constructor|]. split; [|by split]. intros x. cbn. rewrite lookup_empty. split; [by intros []|by intros ?%elem_of_nil]. Qed.

Lemma owned_empty h : owned h [] -> h_cells h = ∅.
Proof.
  intros (_ & Hd & _). apply map_eq. intros x. rewrite lookup_empty. apply eq_None_not_Some. rewrite Hd. apply not_elem_of_nil.
Qed.

(** Trees whose cells a heap keeps stay laid. *)
Lemma laid_all_frame m m' ls : Forall (laid m) ls -> (forall x, x ∈ addrs_all ls -> m' !! x = m !! x) -> Forall (laid m') ls.
Proof.
  rewrite !Forall_forall. intros Hl Heq l Hin. eapply laid_frame; [by apply Hl|]. intros x Hx. apply Heq.
  eapply addrs_in_all; [by apply list_elem_of_In|done].
Qed.

Lemma owned_free fuel h l ls : owned h (l :: ls) -> length (addrs l) < fuel ->
  exists h', free_ast fuel (Some (lay_addr l)) h = Ok (tt, h') /\ owned h' ls.
Proof.
  intros (Hnd & Hd & Hl & Hn) Hf. rewrite addrs_all_cons in Hnd. apply NoDup_app in Hnd as (Hnd1 & Hdis & Hnd2).
  inversion Hl; subst. inversion Hn; subst.
  exists (release (addrs l) h). split; [by apply free_ast_run|].
  split; [done|]. split; [|split; [|done]].
  - intros x. rewrite release_lookup. specialize (Hd x). rewrite addrs_all_cons, elem_of_app in Hd.
    case_bool_decide; [|set_solver]. split; [by intros []|]. intros Hx. by destruct (Hdis x).
  - eapply laid_all_frame; [done|]. intros x Hx. apply release_other. intros ?. by destruct (Hdis x).
Qed.

(** [free_ast] on each of some pointers. *)
Fixpoint free_all (fuel : nat) (roots : list positive) : Heaped unit :=
  match roots with
  | [] => mret tt
  | p :: roots' => _ ← free_ast fuel (Some p); free_all fuel roots'
  end.

Lemma owned_free_all fuel ls : forall h, owned h ls -> length (addrs_all ls) < fuel ->
  exists h', free_all fuel (map lay_addr ls) h = Ok (tt, h') /\ h_cells h' = ∅.
Proof.
  induction ls as [|l ls IH]; intros h Ho Hf; [exists h; split; [done|by apply owned_empty]|].
  rewrite addrs_all_cons, length_app in Hf. destruct (owned_free fuel h l ls Ho) as (h1 & Hrun & Ho1); [lia|].
  destruct (IH h1 Ho1) as (h2 & Hrun2 & He); [lia|]. exists h2. split; [|done].
  cbn. unfold mbind, heaped_bind. by rewrite Hrun.
Qed.

Lemma owned_total h ls : owned h ls -> length (addrs_all ls) = size (h_cells h).
Proof.
  intros (Hnd & Hd & _). rewrite <- size_dom, <- (size_list_to_set (C := gset positive)) by done. apply set_size_proper.
  intros x. by rewrite elem_of_list_to_set, elem_of_dom, Hd.
Qed.

(** ** Constructors take over their arguments *)

(** A new root over some of the trees. *)
Lemma owned_add h m b p a n ts ks its rest :
  owned h (present ks ++ its ++ rest) ->
  NoDup (a :: text_addrs ts) -> (forall x, x ∈ a :: text_addrs ts -> h_cells h !! x = None) ->
  (forall x, x ∉ a :: text_addrs ts -> m !! x = h_cells h !! x) ->
  cell_laid m a n ts ks its -> n_next n = None ->
  owned (mkHeap m b p) (Lay a n ts ks its :: rest).
Proof.
  intros (Hnd & Hd & Hl & Hn) Hnew Hfresh Hm Hc Hnext. rewrite !addrs_all_app in Hnd, Hd.
  rewrite !Forall_app in Hl, Hn. destruct Hl as (Hlk & Hli & Hlr), Hn as (_ & _ & Hnr).
  assert (Hold : forall x, x ∈ addrs_all (present ks) ++ addrs_all its ++ addrs_all rest -> x ∉ a :: text_addrs ts).
  { intros x Hx Hin. apply Hd in Hx as [c Hx]. by rewrite Hfresh in Hx. }
  assert (Hkeep : forall x, x ∈ addrs_all (present ks) ++ addrs_all its ++ addrs_all rest -> m !! x = h_cells h !! x).
  { intros x Hx. by apply Hm, Hold. }
  split; [|split; [|split]].
  - rewrite addrs_all_cons, addrs_eq. change (?x :: ?l) with ([x] ++ l). rewrite <- !app_assoc.
    change ([a] ++ text_addrs ts ++ ?l) with ((a :: text_addrs ts) ++ l). apply NoDup_app. split; [done|]. split; [|done].
    intros x Hx Hin. by apply (Hold x).
  - intros x. cbn [h_cells]. rewrite addrs_all_cons, addrs_eq. change (?x :: ?l) with ([x] ++ l). rewrite <- !app_assoc.
    change ([a] ++ text_addrs ts ++ ?l) with ((a :: text_addrs ts) ++ l). rewrite elem_of_app.
    destruct (decide (x ∈ a :: text_addrs ts)) as [Hin|Hout].
    + split; [by left|]. intros _. destruct Hc as (Ha & _ & _ & Hts & _). apply elem_of_cons in Hin as [->|Hin]; [by eexists|].
      apply list_elem_of_omap in Hin as ([t|] & Hin & [= <-]). eexists. by apply Hts, list_elem_of_In.
    + rewrite Hm, Hd by done. set_solver.
  - constructor.
    + apply laid_eq. split; [done|]. split; (eapply laid_all_frame; [done|]); intros x Hx; apply Hkeep; set_solver.
    + eapply laid_all_frame; [done|]. intros x Hx; apply Hkeep; set_solver.
  - by constructor.
Qed.

(** The common shape of the constructors. *)
Definition make_with (type : NodeType) (zero : NodeData) (name : option bytes) (fill : ptr -> NodeData) : Heaped ptr :=
  node ← ast_alloc_node type zero;
  text ← ast_strdup name;
  _ ← write_data node (fill text);
  mret node.

(** What [make_with] does to the heap: a node at a fresh address, and its text at
    another one when there is a name and memory for it. *)
Lemma make_with_run type zero name fill h : 0 < h_budget h ->
  exists a ts h', make_with type zero name fill h = Ok (Some a, h') /\
    let n := mkAstNode type None sspan_unknown (fill (t ← ts; Some t.1)) in
    let new := a :: text_addrs [ts] in
    NoDup new /\ (forall x, x ∈ new -> h_cells h !! x = None) /\
    (forall x, x ∉ new -> h_cells h' !! x = h_cells h !! x) /\
    h_cells h' !! a = Some (CNode n) /\ (forall t, ts = Some t -> h_cells h' !! t.1 = Some (CText t.2)) /\
    (name = None -> ts = None) /\
    h_budget h <= h_budget h' + 2 /\ g_parsed_ast h' = g_parsed_ast h.
Proof.
  destruct h as [m [|b] g]; [cbn; lia|]. intros _. set (a := fresh (dom m)).
  assert (Ha : m !! a = None) by apply not_elem_of_dom, is_fresh.
  unfold make_with, ast_alloc_node, allocate, mbind, heaped_bind, result_bind. cbn [h_budget h_cells g_parsed_ast].
  fold a.
  assert (Hnone : forall b', exists h', (let* (_, h'') := write_data (Some a) (fill None)
      (mkHeap (<[a := CNode (mkAstNode type None sspan_unknown zero)]> m) b' g) in Ok (Some a, h'')) = Ok (Some a, h') /\
      h' = mkHeap (<[a := CNode (mkAstNode type None sspan_unknown (fill None))]> m) b' g).
  { intros b'. eexists. split; [|done]. unfold write_data, mbind, heaped_bind, read_node, write_node, with_cells.
    cbn. rewrite lookup_insert_eq. cbn. rewrite lookup_insert_eq. cbn. by rewrite insert_insert_eq. }
  destruct name as [s|]; cbn [ast_strdup]; unfold allocate, mret, heaped_ret; cbn [h_budget h_cells g_parsed_ast];
    [destruct b as [|b]|].
  2:{ set (m1 := <[a := _]> m). set (t := fresh (dom m1)).
    assert (Ht : m1 !! t = None) by apply not_elem_of_dom, is_fresh.
    assert (Hta : t <> a) by (intros E; rewrite E in Ht; unfold m1 in Ht; by rewrite lookup_insert_eq in Ht).
    assert (Htm : m !! t = None) by (unfold m1 in Ht; by rewrite lookup_insert_ne in Ht).
    exists a, (Some (t, c_text s)). eexists. split.
    { unfold write_data, mbind, heaped_bind, read_node, write_node, with_cells, result_bind. cbn.
      rewrite lookup_insert_ne by done. unfold m1. rewrite lookup_insert_eq. cbn.
      rewrite lookup_insert_ne by done. rewrite lookup_insert_eq. cbn. reflexivity. }
    cbn. split; [|split; [|split; [|split; [|split; [|split; [|split]]]]]]; try done; try lia.
    - constructor; [set_solver|]. by apply NoDup_singleton.
    - intros x Hx. set_solver.
    - intros x Hx. rewrite !lookup_insert_ne by set_solver. done.
    - apply lookup_insert_eq.
    - intros ? [= <-]. cbn. rewrite lookup_insert_ne by done. apply lookup_insert_eq. }
  all: match goal with |- context [mkHeap (<[_ := _]> _) ?b' _] => destruct (Hnone b') as (h' & Hrun & ->) end.
  all: exists a, None; eexists; split; [exact Hrun|]; cbn.
  all: split; [apply NoDup_singleton|]; split; [set_solver|]; split; [intros x Hx; rewrite lookup_insert_ne by set_solver; done|].
  all: split; [apply lookup_insert_eq|]; repeat split; try done; lia.
Qed.

(** Named nodes keep the copy of their name, the others have no text. *)
Lemma make_with_owned type zero name fill (named : bool) ks its rest h :
  owned h (present ks ++ its ++ rest) -> 0 < h_budget h -> (named = false -> name = None) ->
  (forall p, holds type (fill p) = true /\ data_texts (fill p) = (if named then [p] else []) /\
    data_children (fill p) = map (fmap lay_addr) ks /\ linked (data_head (fill p)) its /\
    data_tail (fill p) = lay_addr <$> last its) ->
  exists h' l p, make_with type zero name fill h = Ok (Some (lay_addr l), h') /\ owned h' (l :: rest) /\
    lay_node l = mkAstNode type None sspan_unknown (fill p) /\ h_budget h <= h_budget h' + 2.
Proof.
  intros Ho Hb Hname Hfill.
  destruct (make_with_run type zero name fill h Hb) as (a & ts & h' & Hrun & Hnd & Hnew & Hkeep & Ha & Hts & Hno & Hb' & _).
  set (n := mkAstNode _ _ _ _) in Ha.
  set (texts := if named then [ts] else []).
  assert (Hadd : text_addrs texts = text_addrs [ts]) by (unfold texts; destruct named; [done|]; by rewrite Hno by auto).
  exists h', (Lay a n texts ks its), (t ← ts; Some t.1). split; [done|]. split; [|done].
  destruct h' as [m' b' g']. rewrite <- Hadd in *. eapply owned_add; [done|done|done|done| |done].
  destruct (Hfill (t ← ts; Some t.1)) as (Hh & Ht & Hrest). split; [done|]. split; [done|]. split; [|split; [|done]].
  - cbn -[data_texts]. rewrite Ht. unfold texts. destruct named; [|done]. by destruct ts.
  - intros t Hin. unfold texts in Hin. destruct named; [|destruct Hin]. destruct Hin as [Hin|[]]. by apply Hts.
Qed.

(** *** Changes of a root *)

Lemma insert_live_lookup h a n x c : h_cells h !! a = Some c ->
  is_Some (h_cells (with_cells <[a := CNode n]> h) !! x) <-> is_Some (h_cells h !! x).
Proof.
  intros Ha. cbn. destruct (decide (x = a)) as [->|]; [rewrite lookup_insert_eq, Ha|by rewrite lookup_insert_ne].
  split; eauto.
Qed.

Lemma owned_head h l ls : owned h (l :: ls) -> laid (h_cells h) l /\ NoDup (addrs l) /\
  (forall x, x ∈ addrs l -> x ∉ addrs_all ls) /\ n_next (lay_node l) = None.
Proof.
  intros (Hnd & _ & Hl & Hn). rewrite addrs_all_cons in Hnd. apply NoDup_app in Hnd as (? & Hd & _).
  inversion Hl; inversion Hn; subst. by repeat split.
Qed.

Lemma owned_write h a n n' ts ks its rest : owned h (Lay a n ts ks its :: rest) ->
  n_next n' = None -> holds (n_type n') (n_data n') = true ->
  data_texts (n_data n') = data_texts (n_data n) -> data_children (n_data n') = data_children (n_data n) ->
  data_head (n_data n') = data_head (n_data n) -> data_tail (n_data n') = data_tail (n_data n) ->
  write_node (Some a) n' h = Ok (tt, with_cells <[a := CNode n']> h) /\
  owned (with_cells <[a := CNode n']> h) (Lay a n' ts ks its :: rest).
Proof.
  intros Ho Hnext Hh Et Ec Eh El. destruct (owned_head _ _ _ Ho) as (Hlaid & Hnd & Hdis & _).
  destruct Ho as (Hnds & Hd & Hl & Hn). apply laid_eq in Hlaid as ((Ha & _ & Ht & Hts & Hk & Hc & Htl) & Hks & Hits).
  rewrite addrs_eq in Hnd, Hdis. apply NoDup_cons in Hnd as [Hna _].
  assert (Hsame : forall x, x <> a -> h_cells (with_cells <[a := CNode n']> h) !! x = h_cells h !! x).
  { intros x Hx. cbn. by rewrite lookup_insert_ne. }
  split; [unfold write_node; by rewrite Ha|]. split; [done|]. split.
  { intros x. rewrite (insert_live_lookup _ _ _ _ _ Ha). apply Hd. }
  inversion Hl; inversion Hn; subst. split; [constructor|by constructor].
  - apply laid_eq. split; [|split; eapply laid_all_frame; try done; intros x Hx; apply Hsame; set_solver].
    split; [cbn; apply lookup_insert_eq|]. rewrite Et, Ec, Eh, El. do 2 (split; [done|]). split; [|done].
    intros t Hin. rewrite Hsame; [by apply Hts|]. intros E. apply Hna. rewrite <- E. apply elem_of_app. left.
    apply list_elem_of_omap. exists (Some t). split; [by apply list_elem_of_In|done].
  - eapply laid_all_frame; [done|]. intros x Hx. apply Hsame. intros ->. apply (Hdis a); [by left|done].
Qed.

(** *** Lists *)

Definition set_next (l : Layout) (p : ptr) : Layout :=
  let 'Lay a n ts ks its := l in Lay a (mkAstNode (n_type n) p (n_span n) (n_data n)) ts ks its.

Lemma set_next_addrs l p : addrs (set_next l p) = addrs l.
Proof. by destruct l. Qed.
Lemma set_next_addr l p : lay_addr (set_next l p) = lay_addr l.
Proof. by destruct l. Qed.

Lemma linked_snoc its i e : forall p, linked p (its ++ [i]) -> n_next (lay_node e) = None ->
  linked p (its ++ [set_next i (Some (lay_addr e)); e]).
Proof.
  induction its as [|j its IH]; intros p; cbn.
  - intros [-> _] He. rewrite set_next_addr. by destruct i.
  - intros [-> H] He. split; [done|by apply IH].
Qed.

Lemma laid_set_next m l p : laid m l -> NoDup (addrs l) ->
  laid (<[lay_addr l := CNode (lay_node (set_next l p))]> m) (set_next l p).
Proof.
  destruct l as [a n ts ks its]. rewrite addrs_eq. intros Hl [Hna _]%NoDup_cons.
  apply laid_eq in Hl as ((Ha & Hh & Ht & Hts & Hc) & Hks & Hits). cbn [set_next lay_addr lay_node].
  assert (Hsame : forall x, x ∈ text_addrs ts ++ addrs_all (present ks) ++ addrs_all its -> forall c, <[a := c]> m !! x = m !! x).
  { intros x Hx c. rewrite lookup_insert_ne; [done|]. intros ->. done. }
  apply laid_eq. split; [|split; eapply laid_all_frame; try done; intros x Hx; apply Hsame; set_solver].
  split; [apply lookup_insert_eq|]. do 2 (split; [done|]). split; [|done].
  intros t Hin. rewrite Hsame; [by apply Hts|]. apply elem_of_app. left.
  apply list_elem_of_omap. exists (Some t). split; [by apply list_elem_of_In|done].
Qed.

Lemma read_live h a n : h_cells h !! a = Some (CNode n) -> read_node (Some a) h = Ok (n, h).
Proof. intros H. unfold read_node. by rewrite H. Qed.
Lemma write_live h a n n' : h_cells h !! a = Some (CNode n) ->
  write_node (Some a) n' h = Ok (tt, with_cells <[a := CNode n']> h).
Proof. intros H. unfold write_node. by rewrite H. Qed.

Lemma append_to_list_run h a n l x nx e : h_cells h !! a = Some (CNode n) -> n_data n = DList l ->
  al_tail l = Some x -> h_cells h !! x = Some (CNode nx) -> x <> a -> (al_count l <> INT_MAX)%Z ->
  append_to_list (Some a) (Some e) h = Ok (Some a, with_cells (fun m =>
    <[a := CNode (mkAstNode (n_type n) (n_next n) (n_span n)
            (DList (mkASTNodeList (al_list_type l) (al_head l) (Some e) (al_count l + 1))))]>
      (<[x := CNode (mkAstNode (n_type nx) (Some e) (n_span nx) (n_data nx))]> m)) h).
Proof.
  intros Ha Hd Ht Hx Hne Hc. unfold append_to_list, read_field, write_next, write_data, mbind, heaped_bind.
  set (h1 := with_cells <[x := CNode (mkAstNode (n_type nx) (Some e) (n_span nx) (n_data nx))]> h).
  assert (Ha1 : h_cells h1 !! a = Some (CNode n)) by (cbn; by rewrite lookup_insert_ne).
  rewrite (read_live h a n Ha). cbn -[read_node write_node INT_MAX]. rewrite Hd. cbn -[read_node write_node INT_MAX].
  rewrite Ht, (read_live h x nx Hx). cbn -[read_node write_node INT_MAX].
  rewrite (write_live h x nx _ Hx). fold h1. cbn -[read_node write_node INT_MAX].
  rewrite (read_live h1 a n Ha1). cbn -[read_node write_node INT_MAX]. rewrite Hd. cbn -[read_node write_node INT_MAX].
  destruct (Z.eqb_spec (al_count l) INT_MAX) as [|_]; [done|].
  rewrite (read_live h1 a n Ha1). cbn -[read_node write_node INT_MAX]. by rewrite (write_live h1 a n _ Ha1).
Qed.

Lemma addrs_appended a n n' its i e q rest :
  addrs_all (Lay a n' [] [] (its ++ [set_next i q; e]) :: rest) = addrs_all (Lay a n [] [] (its ++ [i]) :: e :: rest).
Proof.
  rewrite !addrs_all_cons, !addrs_eq, !addrs_all_app. cbn [addrs_all map concat]. rewrite set_next_addrs.
  cbn [app]. f_equal. by rewrite !app_nil_r, <- !app_assoc.
Qed.

Lemma owned_append h a n l its i e rest : owned h (Lay a n [] [] (its ++ [i]) :: e :: rest) ->
  n_data n = DList l -> (al_count l <> INT_MAX)%Z ->
  exists h' l', append_to_list (Some a) (Some (lay_addr e)) h = Ok (Some a, h') /\ owned h' (l' :: rest) /\
    lay_addr l' = a /\ h_budget h' = h_budget h.
Proof.
  intros (Hnds & Hd & Hl & Hn) Hdata Hcount.
  apply Forall_cons in Hl as [Hlaid Hl]. apply Forall_cons in Hl as [Hle Hlr].
  apply Forall_cons in Hn as [Hnext Hn]. apply Forall_cons in Hn as [Hne Hnr].
  apply laid_eq in Hlaid as ((Ha & Hh & _ & _ & _ & Hc & Htl) & _ & Hits).
  rewrite Hdata in Hc, Htl. cbn in Hc, Htl. rewrite last_snoc in Htl. cbn in Htl.
  apply Forall_app in Hits as [Hits Hli]. apply Forall_cons in Hli as [Hli _].
  pose proof Hnds as Hu. rewrite !addrs_all_cons, addrs_eq, addrs_all_app, !addrs_all_cons in Hu.
  cbn [addrs_all map concat text_addrs present omap list_omap app] in Hu. rewrite app_nil_r in Hu.
  apply NoDup_cons in Hu as [Hna Hu]. rewrite <- !app_assoc in Hna, Hu.
  rewrite !NoDup_app in Hu. destruct Hu as (_ & Hdi & Hndi & Hdr & _).
  pose proof (lay_addr_in i) as Hini.
  assert (Hai : lay_addr i <> a) by (intros E; apply Hna; rewrite <- E; set_solver).
  assert (Hli' : h_cells h !! lay_addr i = Some (CNode (lay_node i))).
  { destruct i. by apply laid_eq in Hli as ((? & _) & _). }
  pose proof (append_to_list_run h a n l _ _ (lay_addr e) Ha Hdata Htl Hli' Hai Hcount) as Hrun.
  eexists _, (Lay a _ [] [] (its ++ [set_next i (Some (lay_addr e)); e])). split; [exact Hrun|]. split; [|done].
  set (m' := fun m : gmap positive HeapCell => _).
  assert (Hsame : forall x, x <> a -> x <> lay_addr i -> h_cells (with_cells m' h) !! x = h_cells h !! x).
  { intros x Hx Hxi. unfold m'. cbn. by rewrite !lookup_insert_ne. }
  split; [by rewrite (addrs_appended a n)|]. split; [|split].
  - intros x. rewrite (addrs_appended a n), <- Hd. unfold m'. cbn.
    destruct (decide (x = a)) as [->|]; [rewrite lookup_insert_eq, Ha; split; eauto|]. rewrite lookup_insert_ne by done.
    destruct (decide (x = lay_addr i)) as [->|]; [|by rewrite lookup_insert_ne].
    rewrite lookup_insert_eq, Hd. split; [|eauto]. intros _. rewrite addrs_all_cons, addrs_eq, addrs_all_app, addrs_all_cons. set_solver.
  - constructor; [apply laid_eq; split; [|split; [done|]]|].
    + split; [unfold m'; cbn; apply lookup_insert_eq|]. split; [cbn; by rewrite Hdata in Hh|]. repeat (split; [done|]).
      split; [by apply linked_snoc|]. cbn [n_data data_tail al_tail]. by rewrite last_app.
    + apply Forall_app. split; [|repeat constructor].
      * eapply laid_all_frame; [done|]. intros x Hx. apply Hsame; intros ->; [set_solver|]. by apply (Hdi (lay_addr i)); [|set_solver].
      * eapply laid_frame; [by apply (laid_set_next (h_cells h) i (Some (lay_addr e)))|]. intros x. rewrite set_next_addrs. intros Hx.
        unfold m'. cbn. rewrite lookup_insert_ne by (intros ->; set_solver). by destruct i.
      * eapply laid_frame; [done|]. intros x Hx. apply Hsame; intros ->; [set_solver|]. by apply (Hdr (lay_addr i)); [|set_solver].
    + eapply laid_all_frame; [done|]. intros x Hx. apply Hsame; intros ->; [set_solver|]. by apply (Hdr (lay_addr i)); [|set_solver].
  - by constructor.
Qed.

(** ** Calls *)

Inductive Call :=
| CallNumber (num : Z) | CallLiteral (kind : LiteralKind) | CallString (str : option bytes) | CallIdent (name : option bytes)
| CallSelect (table : option bytes) (columns condition order_by limit : ptr)
| CallInsert (table : option bytes) (columns values : ptr)
| CallUpdate (table : option bytes) (assignments condition : ptr)
| CallDelete (table : option bytes) (condition : ptr)
| CallAssignment (column : option bytes) (value : ptr)
| CallCompare (column : option bytes) (op : COpType) (right : ptr)
| CallIn (column : option bytes) (values : ptr) | CallNotIn (column : option bytes) (values : ptr)
| CallBinary (left : ptr) (op : COpType) (right : ptr) | CallNot (child : ptr)
| CallCreateList (elem : ptr) (lst : ListType) | CallAppend (list_node elem : ptr)
| CallOrder (column : option bytes) (direction : COpType)
| CallLimit (limit has_limit offset has_offset : Z)
| CallUse (name : option bytes) | CallCreateDatabase (name : option bytes) | CallDropDatabase (name : option bytes)
| CallCreateTable (name : option bytes) (columns : ptr) | CallDropTable (name : option bytes)
| CallColumnDef (name : option bytes) (data_type : CDataType) (length : N) (is_primary_key nullable : Z)
| CallTransaction (kind : AstTransactionKind)
| CallExplain (analyze : Z) (statement : ptr)
| CallSetSpan (node : ptr) (begin_line begin_column end_line end_column : N).

Definition run_ctor (c : Call) : Heaped ptr :=
  match c with
  | CallNumber num => make_number_node num
  | CallLiteral kind => make_literal_node kind
  | CallString s => make_string_node s
  | CallIdent name => make_ident_node name
  | CallSelect table columns condition order_by limit => make_select_node table columns condition order_by limit
  | CallInsert table columns values => make_insert_node table columns values
  | CallUpdate table assignments condition => make_update_node table assignments condition
  | CallDelete table condition => make_delete_node table condition
  | CallAssignment column value => make_assignment_node column value
  | CallCompare column op value => make_compare_node column op value
  | CallIn column values => make_in_node column values
  | CallNotIn column values => make_not_in_node column values
  | CallBinary l op r => make_binary_node l op r
  | CallNot child => make_not_node child
  | CallCreateList elem lst => create_list elem lst
  | CallAppend list_node elem => append_to_list list_node elem
  | CallOrder column direction => make_order_node column direction
  | CallLimit limit has_limit offset has_offset => make_limit_node limit has_limit offset has_offset
  | CallUse name => make_use_node name
  | CallCreateDatabase name => make_create_database_node name
  | CallDropDatabase name => make_drop_database_node name
  | CallCreateTable name columns => make_create_table_node name columns
  | CallDropTable name => make_drop_table_node name
  | CallColumnDef name data_type length is_primary_key nullable =>
      make_column_def_node name data_type length is_primary_key nullable
  | CallTransaction kind => make_transaction_node kind
  | CallExplain analyze statement => make_explain_node analyze statement
  | CallSetSpan node l c l' c' => _ ← ast_set_span node l c l' c'; mret node
  end.

(** The pointers a call takes. *)
Definition call_args (c : Call) : list ptr :=
  match c with
  | CallSelect _ columns condition order_by limit => [columns; condition; order_by; limit]
  | CallInsert _ columns values => [columns; values]
  | CallUpdate _ assignments condition => [assignments; condition]
  | CallDelete _ p | CallAssignment _ p | CallCompare _ _ p | CallIn _ p | CallNotIn _ p | CallNot p
  | CallCreateList p _ | CallCreateTable _ p | CallExplain _ p | CallSetSpan p _ _ _ _ => [p]
  | CallBinary l _ r => [l; r]
  | CallAppend list_node elem => [list_node; elem]
  | _ => []
  end.

(** An element is appended to a list that has one, and counts it in an [int]. *)
Definition appendable (h : Heap) (c : Call) : bool :=
  match c with
  | CallAppend (Some a) (Some _) =>
      match h_cells h !! a with
      | Some (CNode (mkAstNode NODE_LIST _ _ (DList l))) => bool_decide (al_tail l <> None) && negb (al_count l =? INT_MAX)%Z
      | _ => false
      end
  | _ => true
  end.

Fixpoint take_root (a : positive) (roots : list positive) : option (list positive) :=
  match roots with
  | [] => None
  | x :: roots' => if bool_decide (x = a) then Some roots' else cons x <$> take_root a roots'
  end.
Fixpoint take_roots (args : list ptr) (roots : list positive) : option (list positive) :=
  match args with
  | [] => Some roots
  | None :: args' => take_roots args' roots
  | Some a :: args' => rest ← take_root a roots; take_roots args' rest
  end.

(** A call that does not keep to the discipline is [None], a fault of the code
    [Some (Err e)]. [roots] are the pointers that were returned and not yet
    handed over. *)
Definition step_call (c : Call) (h : Heap) (roots : list positive) : option (result HeapFault (Heap * list positive)) :=
  match take_roots (call_args c) roots with
  | Some rest =>
      if appendable h c
      then Some (let* (p, h') := run_ctor c h in
                 Ok (h', match p with Some a => a :: rest | None => rest end))
      else None
  | None => None
  end.

Fixpoint run_calls (cs : list Call) (h : Heap) (roots : list positive)
    : option (result HeapFault (Heap * list positive)) :=
  match cs with
  | [] => Some (Ok (h, roots))
  | c :: cs' =>
      match step_call c h roots with
      | Some (Ok (h', roots')) => run_calls cs' h' roots'
      | other => other
      end
  end.

(** ** Each call keeps the forest *)

(** The trees the taken pointers stand for. *)
Lemma take_root_tree a ls : forall rest, take_root a (map lay_addr ls) = Some rest ->
  exists l left, ls ≡ₚ l :: left /\ lay_addr l = a /\ map lay_addr left = rest.
Proof.
  induction ls as [|l ls IH]; intros rest H; [discriminate H|]. cbn in H. case_bool_decide as E.
  - injection H as <-. by exists l, ls.
  - destruct (take_root a (map lay_addr ls)) as [r|]; [|discriminate H]. injection H as <-.
    destruct (IH r eq_refl) as (k & left & Hp & Hk & <-). exists k, (l :: left). split; [|done].
    rewrite Hp. apply Permutation_swap.
Qed.

Lemma take_trees args : forall ls rest, take_roots args (map lay_addr ls) = Some rest ->
  exists ks left, ls ≡ₚ present ks ++ left /\ args = map (fmap lay_addr) ks /\ map lay_addr left = rest.
Proof.
  induction args as [|[a|] args IH]; intros ls rest H; cbn in H.
  - injection H as <-. by exists [], ls.
  - destruct (take_root a (map lay_addr ls)) as [r|] eqn:E; [|discriminate H]. cbn in H.
    destruct (take_root_tree _ _ _ E) as (l & left & Hp & <- & <-).
    destruct (IH left rest H) as (ks & left' & Hp' & -> & Hr). exists (Some l :: ks), left'. split; [|done].
    rewrite Hp. cbn. by rewrite Hp'.
  - destruct (IH ls rest H) as (ks & left & Hp & -> & Hr). by exists (None :: ks), left.
Qed.

(** The constructors that follow the common shape. *)
Definition plain_call (c : Call) : bool :=
  match c with CallNotIn _ _ | CallCreateList _ _ | CallAppend _ _ | CallSetSpan _ _ _ _ _ => false | _ => true end.

Lemma plain_call_shape c : plain_call c = true -> exists type zero name fill (named : bool),
  run_ctor c = make_with type zero name fill /\ (named = false -> name = None) /\
  (forall p, holds type (fill p) = true /\ data_texts (fill p) = (if named then [p] else []) /\
    data_children (fill p) = call_args c /\ data_head (fill p) = None /\ data_tail (fill p) = None).
Proof.
  destruct c; intros H; try discriminate H;
  first
    [ eexists _, _, _, _, true; split; [reflexivity|split; [discriminate|repeat split]]
    | eexists _, _, None, (fun _ => _), false; split; [reflexivity|split; [done|repeat split]]].
Qed.

(** What a step owes: an owned forest with the returned pointer in front. *)
Definition keeps_forest (m : Heaped ptr) (h : Heap) (left : list Layout) : Prop :=
  exists p h' ls', m h = Ok (p, h') /\ owned h' ls' /\
    map lay_addr ls' = match p with Some a => a :: map lay_addr left | None => map lay_addr left end /\
    h_budget h <= h_budget h' + 2.

Lemma keeps_plain c h ks left : plain_call c = true -> owned h (present ks ++ left) ->
  call_args c = map (fmap lay_addr) ks -> 0 < h_budget h -> keeps_forest (run_ctor c) h left.
Proof.
  intros Hp Ho Hargs Hb. destruct (plain_call_shape c Hp) as (type & zero & name & fill & named & Hrun & Hname & Hfill).
  destruct (make_with_owned type zero name fill named ks [] left h) as (h' & l & p & Hmake & Ho' & _ & Hb'); try done.
  { intros p. destruct (Hfill p) as (H1 & H2 & H3 & H4 & H5). rewrite <- Hargs. by repeat split. }
  exists (Some (lay_addr l)), h', (l :: left). by rewrite Hrun.
Qed.

Lemma keeps_create_list h k lst left : owned h (present [k] ++ left) -> 0 < h_budget h ->
  keeps_forest (create_list (lay_addr <$> k) lst) h left.
Proof.
  intros Ho Hb.
  destruct (make_with_owned NODE_LIST (DList (mkASTNodeList LIST_COLUMN None None 0)) None
    (fun _ => DList (mkASTNodeList lst (lay_addr <$> k) (lay_addr <$> k) 1)) false [] (present [k]) left h)
    as (h' & l & p & Hmake & Ho' & _ & Hb'); try done.
  { intros p. repeat split; destruct k as [k|]; cbn; try done. split; [done|].
    by destruct Ho as (_ & _ & _ & Hn); apply Forall_cons in Hn as [? _]. }
  by exists (Some (lay_addr l)), h', (l :: left).
Qed.

(** Writing the root of an owned tree, its pointers kept. *)
Lemma keeps_write h l left n' : owned h (l :: left) ->
  n_next n' = None -> holds (n_type n') (n_data n') = true ->
  data_texts (n_data n') = data_texts (n_data (lay_node l)) -> data_children (n_data n') = data_children (n_data (lay_node l)) ->
  data_head (n_data n') = data_head (n_data (lay_node l)) -> data_tail (n_data n') = data_tail (n_data (lay_node l)) ->
  keeps_forest (_ ← write_node (Some (lay_addr l)) n'; mret (Some (lay_addr l))) h left.
Proof.
  intros Ho H1 H2 H3 H4 H5 H6. destruct l as [a n ts ks its].
  destruct (owned_write h a n n' ts ks its left Ho H1 H2 H3 H4 H5 H6) as [Hw Ho'].
  exists (Some a), (with_cells <[a := CNode n']> h), (Lay a n' ts ks its :: left).
  unfold mbind, heaped_bind. cbn [lay_addr]. rewrite Hw. split; [done|]. split; [done|]. split; [done|]. cbn. lia.
Qed.

Lemma owned_root h l left : owned h (l :: left) ->
  h_cells h !! lay_addr l = Some (CNode (lay_node l)) /\ holds (n_type (lay_node l)) (n_data (lay_node l)) = true /\
  n_next (lay_node l) = None.
Proof. intros Ho. destruct (owned_head _ _ _ Ho) as (Hl & _ & _ & Hn). destruct l. by apply laid_eq in Hl as ((? & ? & _) & _). Qed.

Lemma keeps_set_span h l left bl bc el ec : owned h (l :: left) ->
  keeps_forest (run_ctor (CallSetSpan (Some (lay_addr l)) bl bc el ec)) h left.
Proof.
  intros Ho. destruct (owned_root _ _ _ Ho) as (Ha & Hh & Hn).
  pose proof (keeps_write h l left (mkAstNode (n_type (lay_node l)) (n_next (lay_node l)) (sspan_make bl bc el ec)
    (n_data (lay_node l))) Ho Hn Hh eq_refl eq_refl eq_refl eq_refl) as (p & h' & ls & Hrun & Hrest).
  exists p, h', ls. split; [|done]. rewrite <- Hrun. cbn [run_ctor ast_set_span]. unfold mbind, heaped_bind.
  by rewrite (read_live _ _ _ Ha).
Qed.

Lemma keeps_not_in h column k left : owned h (present [k] ++ left) -> 0 < h_budget h ->
  keeps_forest (make_not_in_node column (lay_addr <$> k)) h left.
Proof.
  intros Ho Hb.
  destruct (make_with_owned NODE_IN (DIn (mkInNode None None 0)) column
    (fun text => DIn (mkInNode text (lay_addr <$> k) 0)) true [k] [] left h)
    as (h1 & l & p & Hmake & Ho1 & Hl & Hb1); try done.
  destruct (owned_root _ _ _ Ho1) as (Ha & _ & _).
  destruct (keeps_write h1 l left (mkAstNode NODE_IN None sspan_unknown (DIn (mkInNode p (lay_addr <$> k) 1))) Ho1)
    as (q & h2 & ls & Hrun & Ho2 & Hls & Hb2); [done|done|by rewrite Hl..|].
  exists q, h2, ls. split; [|split; [done|split; [done|]]].
  - unfold make_not_in_node. change (make_in_node column (lay_addr <$> k)) with
      (make_with NODE_IN (DIn (mkInNode None None 0)) column (fun text => DIn (mkInNode text (lay_addr <$> k) 0))).
    unfold mbind at 1, heaped_bind at 1. rewrite Hmake. cbn [result_bind].
    unfold read_field, write_data, mbind, heaped_bind. rewrite (read_live _ _ _ Ha), Hl. cbn -[read_node write_node].
    rewrite (read_live _ _ _ Ha), Hl. cbn -[write_node]. exact Hrun.
  - assert (h_budget h2 = h_budget h1); [|lia].
    unfold mbind, heaped_bind, write_node in Hrun. rewrite Ha in Hrun. by injection Hrun as _ <-.
Qed.

Lemma keeps_append h k e left : owned h (present [k; e] ++ left) ->
  appendable h (CallAppend (lay_addr <$> k) (lay_addr <$> e)) = true -> 0 < h_budget h ->
  keeps_forest (append_to_list (lay_addr <$> k) (lay_addr <$> e)) h left.
Proof.
  intros Ho Happ Hb. destruct k as [k|]; [|by apply (keeps_create_list h e LIST_UNKNOWN)].
  destruct e as [e|]; cycle 1.
  { exists (Some (lay_addr k)), h, (k :: left). repeat split; try apply Ho. lia. }
  change (present [Some k; Some e] ++ left) with (k :: e :: left) in Ho.
  destruct (owned_root _ _ _ Ho) as (Ha & _ & Hn). cbn -[INT_MAX] in Happ. rewrite Ha in Happ.
  destruct (owned_head _ _ _ Ho) as (Hl & _).
  destruct k as [a n ts ks its]. cbn [lay_addr lay_node] in *. destruct n as [[] next span []] eqn:En; try discriminate Happ.
  apply andb_prop in Happ as [Htail Hcount]. apply bool_decide_eq_true in Htail. apply negb_true_iff, Z.eqb_neq in Hcount.
  apply laid_eq in Hl as ((_ & _ & Ht & _ & Hk & _ & Htl) & _). cbn in Ht, Hk, Htl.
  destruct ts; [|discriminate Ht]. destruct ks; [|discriminate Hk].
  destruct its as [|i its _] using rev_ind; [by rewrite Htl in Htail|].
  destruct (owned_append _ _ _ _ _ _ _ _ Ho eq_refl Hcount) as (h' & l' & Hrun & Ho' & <- & Hbud).
  exists (Some (lay_addr l')), h', (l' :: left). repeat split; try apply Ho'; [done|]. lia.
Qed.

Lemma call_keeps c h ls rest : owned h ls -> take_roots (call_args c) (map lay_addr ls) = Some rest ->
  appendable h c = true -> 0 < h_budget h ->
  exists left, map lay_addr left = rest /\ keeps_forest (run_ctor c) h left.
Proof.
  intros Ho Ht Happ Hb. destruct (take_trees _ _ _ Ht) as (ks & left & Hp & Hargs & Hrest). rewrite Hp in Ho.
  exists left. split; [done|]. destruct (plain_call c) eqn:Hplain; [by apply (keeps_plain c h ks)|].
  destruct c; try discriminate Hplain; cbn in Hargs.
  - destruct ks as [|k []]; try discriminate Hargs. injection Hargs as ->. by apply keeps_not_in.
  - destruct ks as [|k []]; try discriminate Hargs. injection Hargs as ->. by apply keeps_create_list.
  - destruct ks as [|k [|e []]]; try discriminate Hargs. injection Hargs as -> ->. by apply keeps_append.
  - destruct ks as [|[k|] []]; try discriminate Hargs; injection Hargs as ->.
    + by apply keeps_set_span.
    + exists None, h, left. repeat split; try apply Ho. lia.
Qed.

(** ** Whole sequences *)

Lemma calls_owned cs : forall h ls, owned h ls -> 2 * length cs <= h_budget h ->
  match run_calls cs h (map lay_addr ls) with
  | Some (Ok (h', roots')) => exists ls', owned h' ls' /\ map lay_addr ls' = roots'
  | Some (Err _) => False
  | None => True
  end.
Proof.
  induction cs as [|c cs IH]; intros h ls Ho Hb; [by exists ls|]. cbn [run_calls]. unfold step_call.
  destruct (take_roots (call_args c) (map lay_addr ls)) as [rest|] eqn:Et; [|done].
  destruct (appendable h c) eqn:Ea; [|done]. cbn [length] in Hb.
  destruct (call_keeps c h ls rest Ho Et Ea) as (left & <- & p & h' & ls' & Hrun & Ho' & Hls & Hb'); [lia|].
  rewrite Hrun. cbn [result_bind]. rewrite <- Hls. apply IH; [done|lia].
Qed.

(** C29: whatever constructor calls a grammar makes, handing each pointer over at
    most once and appending only to lists that have an element, none of them
    reads or writes through a dead or null pointer while memory lasts, the
    allocations that are live are exactly the cells of the trees it still holds,
    and [free_ast] on each of these returns without a double free and leaves
    nothing allocated. *)
Theorem trees_freed_exactly (cs : list Call) (budget : nat) (parsed : ptr) :
  2 * length cs <= budget ->
  match run_calls cs (mkHeap ∅ budget parsed) [] with
  | Some (Ok (h, roots)) =>
      (exists ls, owned h ls /\ map lay_addr ls = roots) /\
      forall fuel, size (h_cells h) < fuel ->
        exists h', free_all fuel roots h = Ok (tt, h') /\ h_cells h' = ∅
  | Some (Err _) => False
  | None => True
  end.
Proof.
  intros Hb. pose proof (calls_owned cs (mkHeap ∅ budget parsed) [] (owned_nil budget parsed) Hb) as H.
  cbn [map] in H. destruct (run_calls cs _ []) as [[[h roots]|]|]; [|done|done].
  split; [done|]. intros fuel Hf. destruct H as (ls & Ho & <-). apply owned_free_all; [done|]. by rewrite (owned_total h).
Qed.

(** [EXPLAIN SELECT a, b FROM t WHERE a IN (1, 2) AND NOT b = 'x' LIMIT 3], and a number
    that is left over. *)
Definition demo_program : list Call :=
  let t s := Some (bytes_of_string s) in
  let at_ a := Some (Pos.of_nat a) in
  [CallIdent (t "a"); CallCreateList (at_ 1) LIST_COLUMN; CallIdent (t "b"); CallSetSpan (at_ 4) 1 11 1 12;
   CallAppend (at_ 3) (at_ 4);
   CallNumber 1; CallCreateList (at_ 6) LIST_VALUE; CallNumber 2; CallAppend (at_ 7) (at_ 8);
   CallIn (t "a") (at_ 7);
   CallString (t "x"); CallCompare (t "b") COP_EQ (at_ 11); CallNot (at_ 13); CallBinary (at_ 9) COP_AND (at_ 15);
   CallLimit 3 1 0 0; CallSelect (t "t") (at_ 3) (at_ 16) None (at_ 17); CallNumber 7; CallExplain 0 (at_ 18)].

Lemma trees_freed_exactly_witness :
  exists h, run_calls demo_program (mkHeap ∅ 36 None) [] = Some (Ok (h, [21%positive; 20%positive])) /\
    size (h_cells h) = 21 /\ exists h', free_all 22 [21%positive; 20%positive] h = Ok (tt, h') /\ h_cells h' = ∅.
Proof.
  pose proof (trees_freed_exactly demo_program 36 None ltac:(cbn; lia)) as H.
  assert (Hrun : exists h, run_calls demo_program (mkHeap ∅ 36 None) [] = Some (Ok (h, [21%positive; 20%positive])) /\
    size (h_cells h) = 21) by (eexists; split; vm_compute; reflexivity).
  destruct Hrun as (h & Hrun & Hsize). rewrite Hrun in H. exists h. split; [done|]. split; [done|].
  apply (proj2 H). rewrite Hsize. lia.
Defined.

(** *** Out of memory *)

(** The test [data == nullptr] of the constructors does not catch a failed
    allocation: a null [node] is written through. *)
Theorem allocation_failure_faults (c : Call) (h : Heap) : plain_call c = true -> h_budget h = 0 ->
  run_ctor c h = Err NullDereference.
Proof.
  intros Hp Hb. destruct (plain_call_shape c Hp) as (type & zero & name & fill & named & -> & _).
  unfold make_with, ast_alloc_node, allocate, mbind, heaped_bind, result_bind. rewrite Hb.
  destruct name; cbn; unfold allocate; by rewrite ?Hb.
Qed.
