(* ===== verification/AstPrint.v ===== *)
(** * Printing syntax trees: [parser/ast.cpp]

    The printers write into a buffer of fixed size through [safe_append], which
    cuts what does not fit; [print_ast] doubles the buffer up to a limit. A
    buffer is a list of bytes and a write outside it a fault.

    The text a format call produces is shorter than [INT_MAX], so [vsnprintf]
    does not fail. *)

From S2P Require Import Prelude Bytes SqlTypes SqlTruth Rewriter Schema Planner StmtBuilder AstHeap.
Local Open Scope Z_scope.
Local Set Warnings "-abstract-large-number".

(** ** Names of enumerators: [common/c_types.h], [parser/ast.h] *)

Definition op_to_string (op : COpType) : bytes :=
  str match op with
  | COP_EQ => "=" | COP_NE => "!=" | COP_GT => ">" | COP_GE => ">=" | COP_LT => "<" | COP_LE => "<="
  | COP_AND => "AND" | COP_OR => "OR" | COP_NOT => "NOT" | COP_IN => "IN" | COP_NOT_IN => "NOT IN"
  | COP_ASC => "ASC" | COP_DESC => "DESC" | COP_IS_NULL => "IS NULL" | COP_IS_NOT_NULL => "IS NOT NULL"
  | COP_LIKE => "LIKE" | COP_NOT_LIKE => "NOT LIKE" | COP_UNKNOWN => "UNKNOWN"
  end.
Definition data_type_to_string (dt : CDataType) : bytes :=
  str match dt with
  | DT_INT => "INT" | DT_BIGINT => "BIG_INT" | DT_VARCHAR => "VARCHAR" | DT_TEXT => "TEXT" | DT_BOOLEAN => "BOOLEAN"
  | DT_NULL => "NULL" | DT_TINYINT => "TINYINT" | DT_SMALLINT => "SMALLINT" | DT_DATE => "DATE" | DT_TIME => "TIME"
  | DT_DATETIME => "DATETIME" | DT_CHAR => "CHAR" | DT_UNKNOWN => "UNKNOWN"
  end.
Definition list_type_to_string (type : ListType) : bytes :=
  str match type with
  | LIST_COLUMN => "COLUMNS" | LIST_VALUE => "VALUES" | LIST_ASSIGNMENT => "ASSIGNMENTS"
  | LIST_COLUMN_DEF => "COLUMN_DEFINES" | LIST_ORDER => "ORDER_BY" | LIST_UNKNOWN => "UNKNOWN_LIST_TYPE"
  end.
Definition literal_kind_to_string (kind : LiteralKind) : bytes :=
  str match kind with LITERAL_NULL => "NULL" | LITERAL_TRUE => "TRUE" | LITERAL_FALSE => "FALSE" end.
Definition transaction_kind_to_string (kind : AstTransactionKind) : bytes :=
  str match kind with TXN_BEGIN => "BEGIN" | TXN_COMMIT => "COMMIT" | TXN_ROLLBACK => "ROLLBACK" end.

(** ** The printing monad: a heap that is read and a buffer that is written *)

Definition Printed (A : Type) : Type := Heap -> bytes -> result HeapFault (A * bytes).

#[export] Instance printed_ret : MRet Printed := fun A a h buf => Ok (a, buf).
#[export] Instance printed_bind : MBind Printed := fun A B k m h buf => let* (a, buf') := m h buf in k a h buf'.

Definition heap_read {A} (m : Heaped A) : Printed A := fun h buf => let* (a, _) := m h in Ok (a, buf).

(** A [char *] printed with [%s], NULL as the empty text. *)
Definition text_at (p : ptr) : Printed bytes := fun h buf =>
  match p with
  | None => Ok ([], buf)
  | Some a => match h_cells h !! a with
              | Some (CText t) => Ok (t, buf)
              | _ => Err DanglingPointer
              end
  end.

(** Storing bytes at an offset of the buffer. *)
Definition store (offset : Z) (data : bytes) : Printed unit := fun _ buf =>
  if (0 <=? offset) && (offset + Z.of_nat (length data) <=? Z.of_nat (length buf))
  then Ok (tt, take (Z.to_nat offset) buf ++ data ++ drop (Z.to_nat offset + length data) buf)
  else Err BufferOverrun.

Definition NUL : bytes := [x00].
Definition nl : bytes := [x0a].

(** [vsnprintf(buf + offset, n, ...)]: at most [n - 1] bytes and a terminator;
    the length of the whole text. *)
Definition vsnprintf (offset n : Z) (text : bytes) : Printed Z :=
  _ ← store offset (take (Z.to_nat (n - 1)) text ++ NUL);
  mret (Z.of_nat (length text)).

(** [snprintf] into a local array of [n] bytes. *)
Definition snprintf (n : nat) (text : bytes) : bytes := take (n - 1) text.

Definition safe_append (size offset : Z) (text : bytes) : Printed Z :=
  if offset <? 0 then mret offset
  else
    let remaining := size - offset in
    if remaining <=? 0 then mret offset
    else
      written ← vsnprintf offset remaining text;
      if written <? 0 then mret offset
      else if remaining <=? written then _ ← store (size - 1) NUL; mret (size - 1)
      else mret (offset + written).

(** The loop runs [indent] times. *)
Fixpoint append_indent_loop (n : nat) (size offset : Z) : Printed Z :=
  match n with
  | O => mret offset
  | S n' => offset ← safe_append size offset (str "  "); append_indent_loop n' size offset
  end.
Definition append_indent (size offset indent : Z) : Printed Z := append_indent_loop (Z.to_nat indent) size offset.

(** [ast_indent_step], which nothing changes. *)
Definition STEP : Z := 1.
Definition step (indent : Z) : Z := indent + STEP.

(** ** Printers

    [print_node] is the recursion; every printer is called with a node. *)

Section Printers.
Context (print_node : ptr -> Z -> Z -> Printed Z) (size : Z).

Definition print_title (title : bytes) (indent offset : Z) : Printed Z :=
  offset ← append_indent size offset indent;
  safe_append size offset (title ++ nl).

(** A field of the payload; a [char *] field as text. *)
Definition field {A} (node : ptr) (f : NodeData -> option A) : Printed A := heap_read (read_field node f).
Definition text_field (node : ptr) (f : NodeData -> option ptr) : Printed bytes := p ← field node f; text_at p.

Definition print_number_node (node : ptr) (indent offset : Z) : Printed Z :=
  offset ← append_indent size offset indent;
  value ← field node (fun d => nn_value <$> as_number d);
  safe_append size offset (str "NUMBER(" ++ int_to_string value ++ str ")" ++ nl).

Definition print_literal_node (node : ptr) (indent offset : Z) : Printed Z :=
  offset ← append_indent size offset indent;
  kind ← field node (fun d => li_kind <$> as_literal d);
  safe_append size offset (str "LITERAL(" ++ literal_kind_to_string kind ++ str ")" ++ nl).

Definition print_string_node (node : ptr) (indent offset : Z) : Printed Z :=
  offset ← append_indent size offset indent;
  text ← text_field node (fun d => st_value <$> as_string d);
  safe_append size offset (str "STRING('" ++ text ++ str "')" ++ nl).

Definition print_ident_node (node : ptr) (indent offset : Z) : Printed Z :=
  offset ← append_indent size offset indent;
  text ← text_field node (fun d => id_name <$> as_ident d);
  safe_append size offset (str "IDENTITY('" ++ text ++ str "')" ++ nl).

(** The optional parts of a node: a child printed one step further in; one under
    a title. *)
Definition print_part (node : ptr) (f : NodeData -> option ptr) (indent offset : Z) : Printed Z :=
  p ← field node f;
  match p with
  | Some _ => print_node p (step indent) offset
  | None => mret offset
  end.
Definition print_where (node : ptr) (f : NodeData -> option ptr) (title : bytes) (indent offset : Z) : Printed Z :=
  p ← field node f;
  match p with
  | Some _ =>
      offset ← print_title title (step indent) offset;
      print_node p (step (step indent)) offset
  | None => mret offset
  end.

Definition print_select_node (node : ptr) (indent offset : Z) : Printed Z :=
  offset ← append_indent size offset indent;
  table ← text_field node (fun d => se_table <$> as_select d);
  offset ← safe_append size offset (str "SELECT(table='" ++ table ++ str "')" ++ nl);
  offset ← print_part node (fun d => se_columns <$> as_select d) indent offset;
  offset ← print_where node (fun d => se_condition <$> as_select d) (str "WHERE:") indent offset;
  offset ← print_part node (fun d => se_order_by <$> as_select d) indent offset;
  print_part node (fun d => se_limit <$> as_select d) indent offset.

Definition print_insert_node (node : ptr) (indent offset : Z) : Printed Z :=
  offset ← append_indent size offset indent;
  table ← text_field node (fun d => in_table <$> as_insert d);
  offset ← safe_append size offset (str "INSERT(table='" ++ table ++ str "')" ++ nl);
  columns ← field node (fun d => in_columns <$> as_insert d);
  offset ← match columns with
           | Some _ => print_node columns (step indent) offset
           | None => print_title (str "COLUMNS: NULL") (step indent) offset
           end;
  print_part node (fun d => in_values <$> as_insert d) indent offset.

Definition print_update_node (node : ptr) (indent offset : Z) : Printed Z :=
  offset ← append_indent size offset indent;
  table ← text_field node (fun d => up_table <$> as_update d);
  offset ← safe_append size offset (str "UPDATE(table='" ++ table ++ str "')" ++ nl);
  offset ← print_part node (fun d => up_assignments <$> as_update d) indent offset;
  print_where node (fun d => up_condition <$> as_update d) (str "WHERE: ") indent offset.

Definition print_delete_node (node : ptr) (indent offset : Z) : Printed Z :=
  offset ← append_indent size offset indent;
  table ← text_field node (fun d => de_table <$> as_delete d);
  offset ← safe_append size offset (str "DELETE(table='" ++ table ++ str "')" ++ nl);
  print_where node (fun d => de_condition <$> as_delete d) (str "WHERE: ") indent offset.

(** A value on the same line: its last byte, the newline, is written over. *)
Definition print_inline (value : ptr) (offset : Z) : Printed Z :=
  offset ← match value with
           | None => safe_append size offset (str "NULL ")
           | Some _ => print_node value 0 offset
           end;
  safe_append size (offset - 1) (str ")" ++ nl).

Definition print_assignment_node (node : ptr) (indent offset : Z) : Printed Z :=
  offset ← append_indent size offset indent;
  column ← text_field node (fun d => as_column <$> as_assignment d);
  offset ← safe_append size offset (str "ASSIGN(column='" ++ column ++ str "',value=");
  value ← field node (fun d => as_value <$> as_assignment d);
  print_inline value offset.

Definition print_compare_node (node : ptr) (indent offset : Z) : Printed Z :=
  offset ← append_indent size offset indent;
  column ← text_field node (fun d => co_column <$> as_compare d);
  op ← field node (fun d => co_op <$> as_compare d);
  offset ← safe_append size offset (str "COMPARE(column='" ++ column ++ str "', op='" ++ op_to_string op ++ str "', value=");
  right ← field node (fun d => co_right <$> as_compare d);
  print_inline right offset.

Definition print_in_node (node : ptr) (indent offset : Z) : Printed Z :=
  offset ← append_indent size offset indent;
  excluded ← field node (fun d => inn_excluded <$> as_in d);
  column ← text_field node (fun d => inn_column <$> as_in d);
  offset ← safe_append size offset
    ((if 0 <? excluded then str "NOT_IN" else str "IN") ++ str "(column='" ++ column ++ str "')" ++ nl);
  values ← field node (fun d => inn_values <$> as_in d);
  match values with
  | Some _ => print_node values (step indent) offset
  | None =>
      offset ← append_indent size offset (step indent);
      safe_append size offset (str "VALUES: NULL" ++ nl)
  end.

(** One side of a connective, titled. *)
Definition print_side (node : ptr) (f : NodeData -> option ptr) (title missing : bytes) (deeper indent offset : Z) : Printed Z :=
  p ← field node f;
  match p with
  | Some _ =>
      offset ← print_title title (step indent) offset;
      print_node p deeper offset
  | None => print_title missing (step indent) offset
  end.

Definition print_binary_node (node : ptr) (indent offset : Z) : Printed Z :=
  offset ← append_indent size offset indent;
  op ← field node (fun d => bi_op <$> as_binary d);
  offset ← safe_append size offset (str "BINARY(op=" ++ op_to_string op ++ str ")" ++ nl);
  offset ← print_side node (fun d => bi_left <$> as_binary d) (str "LEFT:") (str "LEFT: NULL") (step (step indent)) indent offset;
  print_side node (fun d => bi_right <$> as_binary d) (str "RIGHT:") (str "RIGHT: NULL") (step (step indent)) indent offset.

Definition print_not_node (node : ptr) (indent offset : Z) : Printed Z :=
  offset ← append_indent size offset indent;
  offset ← safe_append size offset (str "NOT" ++ nl);
  print_side node (fun d => no_child <$> as_not d) (str "CHILD:") (str "CHILD: NULL") (step indent) indent offset.

(** The loop of [print_list]. *)
Fixpoint print_items (fuel : nat) (curr : ptr) (indent offset : Z) : Printed Z :=
  match fuel with
  | O => fun _ _ => Err OutOfFuel
  | S fuel' =>
      match curr with
      | None => mret offset
      | Some _ =>
          offset ← print_node curr (step indent) offset;
          n ← heap_read (read_node curr);
          print_items fuel' (n_next n) indent offset
      end
  end.

Definition print_list (fuel : nat) (node : ptr) (indent offset : Z) : Printed Z :=
  offset ← append_indent size offset indent;
  l ← field node as_node_list;
  offset ← safe_append size offset
    (list_type_to_string (al_list_type l) ++ str "(count=" ++ int_to_string (al_count l) ++ str ")" ++ nl);
  head ← field node (fun d => al_head <$> as_node_list d);
  print_items fuel head indent offset.

Definition print_order_node (node : ptr) (indent offset : Z) : Printed Z :=
  offset ← append_indent size offset indent;
  column ← text_field node (fun d => or_column <$> as_order d);
  direction ← field node (fun d => or_direction <$> as_order d);
  safe_append size offset (str "ORDER_BY(column='" ++ column ++ str "', dir=" ++ op_to_string direction ++ str ")" ++ nl).

Definition print_limit_node (node : ptr) (indent offset : Z) : Printed Z :=
  d ← field node as_limit;
  offset ← append_indent size offset indent;
  let limit_text := snprintf 32 (if lm_has_limit d =? 0 then str "-" else int_to_string (lm_limit d)) in
  let offset_text := snprintf 32 (if lm_has_offset d =? 0 then str "-" else int_to_string (lm_offset d)) in
  safe_append size offset (str "LIMIT(limit=" ++ limit_text ++ str ", offset=" ++ offset_text ++ str ")" ++ nl).

Definition print_use_node (node : ptr) (indent offset : Z) : Printed Z :=
  offset ← append_indent size offset indent;
  text ← text_field node (fun d => db_name <$> as_database d);
  safe_append size offset (str "USE_DATABASE('" ++ text ++ str "')" ++ nl).

Definition print_create_database_node (node : ptr) (indent offset : Z) : Printed Z :=
  offset ← append_indent size offset indent;
  text ← text_field node (fun d => db_name <$> as_database d);
  safe_append size offset (str "CREATE_DATABASE('" ++ text ++ str "')" ++ nl).

Definition print_drop_database_node (node : ptr) (indent offset : Z) : Printed Z :=
  offset ← append_indent size offset indent;
  text ← text_field node (fun d => db_name <$> as_database d);
  safe_append size offset (str "DROP_DATABASE('" ++ text ++ str "')" ++ nl).

Definition print_create_table_node (node : ptr) (indent offset : Z) : Printed Z :=
  offset ← append_indent size offset indent;
  table ← text_field node (fun d => ct_table_name <$> as_create_table d);
  offset ← safe_append size offset (str "CREATE_TABLE(table='" ++ table ++ str "')" ++ nl);
  print_part node (fun d => ct_columns <$> as_create_table d) indent offset.

Definition print_drop_table_node (node : ptr) (indent offset : Z) : Printed Z :=
  offset ← append_indent size offset indent;
  text ← text_field node (fun d => dt_table_name <$> as_drop_table d);
  safe_append size offset (str "DROP_TABLE(table='" ++ text ++ str "')" ++ nl).

(** Type name and optional length; the result is cut to [out_size]. *)
Definition format_column_type (data : ColumnDefNode) (out_size : nat) : bytes :=
  if (0 <? cd_length data)%N && (match cd_data_type data with DT_CHAR | DT_VARCHAR => true | _ => false end)
  then snprintf out_size (data_type_to_string (cd_data_type data) ++ str "(" ++ int_to_string (Z.of_N (cd_length data)) ++ str ")")
  else snprintf out_size (data_type_to_string (cd_data_type data)).

Definition print_column_def_node (node : ptr) (indent offset : Z) : Printed Z :=
  d ← field node as_column_def;
  let type_name := format_column_type d 64 in
  offset ← append_indent size offset indent;
  name ← text_field node (fun d => cd_name <$> as_column_def d);
  safe_append size offset
    (str "COLUMN_DEFINE(NAME='" ++ name ++ str "', DATA_TYPE=" ++ type_name ++ str ", PRIMARY_KEY=" ++
     int_to_string (cd_is_primary_key d) ++ str ", NULLABLE=" ++ int_to_string (cd_nullable d) ++ str ")" ++ nl).

Definition print_transaction_node (node : ptr) (indent offset : Z) : Printed Z :=
  offset ← append_indent size offset indent;
  kind ← field node (fun d => tn_kind <$> as_transaction d);
  safe_append size offset (str "TRANSACTION(" ++ transaction_kind_to_string kind ++ str ")" ++ nl).

Definition print_explain_node (node : ptr) (indent offset : Z) : Printed Z :=
  offset ← append_indent size offset indent;
  analyze ← field node (fun d => ex_analyze <$> as_explain d);
  offset ← safe_append size offset (str "EXPLAIN(analyze=" ++ int_to_string analyze ++ str ")" ++ nl);
  statement ← field node (fun d => ex_statement <$> as_explain d);
  print_node statement (step indent) offset.

(** The column [to_string] of the table [nodes], by [get_node_lifetime]. *)
Definition node_printer (fuel : nat) (type : NodeType) : option (ptr -> Z -> Z -> Printed Z) :=
  match type with
  | NODE_NUMBER => Some print_number_node
  | NODE_STRING => Some print_string_node
  | NODE_IDENT => Some print_ident_node
  | NODE_LITERAL => Some print_literal_node
  | NODE_USE => Some print_use_node
  | NODE_SELECT => Some print_select_node
  | NODE_INSERT => Some print_insert_node
  | NODE_UPDATE => Some print_update_node
  | NODE_DELETE => Some print_delete_node
  | NODE_COMPARE => Some print_compare_node
  | NODE_BINARY_OP => Some print_binary_node
  | NODE_ASSIGNMENT => Some print_assignment_node
  | NODE_LIST => Some (print_list fuel)
  | NODE_NOT => Some print_not_node
  | NODE_IN => Some print_in_node
  | NODE_NOT_IN => Some print_in_node
  | NODE_ORDER => Some print_order_node
  | NODE_LIMIT => Some print_limit_node
  | NODE_CREATE_DATABASE => Some print_create_database_node
  | NODE_DROP_DATABASE => Some print_drop_database_node
  | NODE_CREATE_TABLE => Some print_create_table_node
  | NODE_DROP_TABLE => Some print_drop_table_node
  | NODE_COLUMN_DEF => Some print_column_def_node
  | NODE_TRANSACTION => Some print_transaction_node
  | NODE_EXPLAIN => Some print_explain_node
  | NODE_TYPE_COUNT => None
  end.

End Printers.

(** Only [NODE_TYPE_COUNT], 25, has no printer. *)
Fixpoint print_node (fuel : nat) (size : Z) (node : ptr) (indent offset : Z) : Printed Z :=
  match fuel with
  | O => fun _ _ => Err OutOfFuel
  | S fuel' =>
      match node with
      | None =>
          offset ← append_indent size offset indent;
          safe_append size offset (str "NULL" ++ nl)
      | Some _ =>
          n ← heap_read (read_node node);
          match node_printer (print_node fuel' size) size fuel' (n_type n) with
          | Some print => print node indent offset
          | None =>
              offset ← append_indent size offset indent;
              safe_append size offset (str "UNKNOWN_NODE(" ++ int_to_string 25 ++ str ")" ++ nl)
          end
      end
  end.

(** ** [print_ast] *)

Definition MIN_BUF_SIZE : nat := 4096.
Definition MAX_BUF_SIZE : nat := 16384.

(** [granted size] says whether [malloc]/[realloc] answers for a buffer of that
    size; what [realloc] leaves in the new part, and [malloc] in all of it, is
    [junk]. The result is what goes to standard output. *)
Section PrintAst.
Context (granted : nat -> bool) (junk : nat -> bytes).

Definition resized (buffer : bytes) (size : nat) : bytes :=
  take size (buffer ++ junk size ++ replicate size x00).

(** Doubling from 4096 to 16384 takes three rounds. *)
Fixpoint print_rounds (rounds fuel : nat) (node : ptr) (indent : Z) (buf_size : nat) (buffer : bytes) (h : Heap)
    : result HeapFault bytes :=
  match rounds with
  | O => Err OutOfFuel
  | S rounds' =>
      let* (offset, buffer) := print_node fuel (Z.of_nat buf_size) node indent 0 h buffer in
      if offset <? 0 then Ok []
      else if (offset <? Z.of_nat buf_size - 1) || (MAX_BUF_SIZE <=? buf_size)%nat then Ok (c_text buffer ++ nl)
      else
        let buf_size := (buf_size * 2)%nat in
        if granted buf_size then print_rounds rounds' fuel node indent buf_size (resized buffer buf_size) h
        else Ok []
  end.

Definition print_ast (fuel : nat) (node : ptr) (indent : Z) (h : Heap) : result HeapFault bytes :=
  match node with
  | None => Ok (str "NULL" ++ nl)
  | Some _ =>
      let* (n, _) := read_node node h in
      match node_printer (print_node fuel 0) 0 fuel (n_type n) with
      | None => Ok (str "UNKNOWN NODE" ++ nl)
      | Some _ =>
          if granted MIN_BUF_SIZE
          then print_rounds 3 fuel node indent MIN_BUF_SIZE (resized [] MIN_BUF_SIZE) h
          else Ok []
      end
  end.

End PrintAst.
