(* ===== verification/AstPrintSpec.v ===== *)
(** * What [print_ast] prints

    The text of a tree, written as a function of its layout, and the proof that
    the printers of [parser/ast.cpp] produce it: completely when it fits into
    the buffer, otherwise up to the last byte before the terminator, and without
    a write outside the buffer. *)

From S2P Require Import Prelude Bytes SqlTypes Temporal SqlTruth Rewriter Schema Planner StmtBuilder AstHeap AstOwn AstPrint.
Local Open Scope Z_scope.
Local Set Warnings "-register-all".

(** ** The text of a tree *)

Definition spaces (indent : Z) : bytes := concat (replicate (Z.to_nat indent) (str "  ")).
Definition line (indent : Z) (text : bytes) : bytes := spaces indent ++ text ++ nl.
Definition named_line (indent : Z) (pre : string) (name : bytes) (post : string) : bytes :=
  line indent (str pre ++ name ++ str post).

Definition lay_text (t : option (positive * bytes)) : bytes := match t with Some (_, s) => s | None => [] end.
Definition first_text (ts : list (option (positive * bytes))) : bytes := match ts with t :: _ => lay_text t | [] => [] end.

Definition limit_bound (has value : Z) : bytes := if has =? 0 then str "-" else int_to_string value.
Definition type_text (d : ColumnDefNode) : bytes :=
  data_type_to_string (cd_data_type d) ++
  (match cd_data_type d with
   | DT_CHAR | DT_VARCHAR => if (0 <? cd_length d)%N then str "(" ++ int_to_string (Z.of_N (cd_length d)) ++ str ")" else []
   | _ => []
   end).

(** What follows [value=]: the text of the value without its newline, closed. *)
Definition inline (text : bytes) : bytes := removelast text ++ str ")" ++ nl.

(** The parts of a node; [r] is the text of a subtree at an indentation. *)
Definition part {A} (r : Z -> A -> bytes) (indent : Z) (k : option A) : bytes :=
  match k with Some k => r indent k | None => [] end.
Definition titled {A} (r : Z -> A -> bytes) (title missing : bytes) (indent deeper : Z) (k : option A) : bytes :=
  match k with Some k => line indent title ++ r deeper k | None => missing end.

Definition node_text {A} (r : Z -> A -> bytes) (indent : Z) (n : AstNode) (name : bytes)
    (ks : list (option A)) (its : list A) : bytes :=
  match n_type n, n_data n, ks with
  | _, DNumber d, _ => line indent (str "NUMBER(" ++ int_to_string (nn_value d) ++ str ")")
  | _, DLiteral d, _ => line indent (str "LITERAL(" ++ literal_kind_to_string (li_kind d) ++ str ")")
  | _, DString _, _ => named_line indent "STRING('" name "')"
  | _, DIdent _, _ => named_line indent "IDENTITY('" name "')"
  | _, DSelect _, [columns; condition; order_by; limit] =>
      named_line indent "SELECT(table='" name "')" ++ part r (indent + 1) columns ++
      titled r (str "WHERE:") [] (indent + 1) (indent + 2) condition ++
      part r (indent + 1) order_by ++ part r (indent + 1) limit
  | _, DInsert _, [columns; values] =>
      named_line indent "INSERT(table='" name "')" ++
      (match columns with Some k => r (indent + 1) k | None => line (indent + 1) (str "COLUMNS: NULL") end) ++
      part r (indent + 1) values
  | _, DUpdate _, [assignments; condition] =>
      named_line indent "UPDATE(table='" name "')" ++ part r (indent + 1) assignments ++
      titled r (str "WHERE: ") [] (indent + 1) (indent + 2) condition
  | _, DDelete _, [condition] =>
      named_line indent "DELETE(table='" name "')" ++ titled r (str "WHERE: ") [] (indent + 1) (indent + 2) condition
  | _, DAssignment _, [value] =>
      spaces indent ++ str "ASSIGN(column='" ++ name ++ str "',value=" ++
      inline (match value with Some k => r 0 k | None => str "NULL " end)
  | _, DCompare d, [value] =>
      spaces indent ++ str "COMPARE(column='" ++ name ++ str "', op='" ++ op_to_string (co_op d) ++ str "', value=" ++
      inline (match value with Some k => r 0 k | None => str "NULL " end)
  | _, DIn d, [values] =>
      named_line indent (if 0 <? inn_excluded d then "NOT_IN(column='" else "IN(column='") name "')" ++
      (match values with Some k => r (indent + 1) k | None => line (indent + 1) (str "VALUES: NULL") end)
  | _, DBinaryOp d, [l; r'] =>
      line indent (str "BINARY(op=" ++ op_to_string (bi_op d) ++ str ")") ++
      titled r (str "LEFT:") (line (indent + 1) (str "LEFT: NULL")) (indent + 1) (indent + 2) l ++
      titled r (str "RIGHT:") (line (indent + 1) (str "RIGHT: NULL")) (indent + 1) (indent + 2) r'
  | _, DNot _, [child] =>
      line indent (str "NOT") ++ titled r (str "CHILD:") (line (indent + 1) (str "CHILD: NULL")) (indent + 1) (indent + 1) child
  | _, DList d, _ =>
      line indent (list_type_to_string (al_list_type d) ++ str "(count=" ++ int_to_string (al_count d) ++ str ")") ++
      concat (map (r (indent + 1)) its)
  | _, DOrder d, _ =>
      line indent (str "ORDER_BY(column='" ++ name ++ str "', dir=" ++ op_to_string (or_direction d) ++ str ")")
  | _, DLimit d, _ =>
      line indent (str "LIMIT(limit=" ++ limit_bound (lm_has_limit d) (lm_limit d) ++
                   str ", offset=" ++ limit_bound (lm_has_offset d) (lm_offset d) ++ str ")")
  | NODE_USE, DDatabase _, _ => named_line indent "USE_DATABASE('" name "')"
  | NODE_CREATE_DATABASE, DDatabase _, _ => named_line indent "CREATE_DATABASE('" name "')"
  | _, DDatabase _, _ => named_line indent "DROP_DATABASE('" name "')"
  | _, DCreateTable _, [columns] => named_line indent "CREATE_TABLE(table='" name "')" ++ part r (indent + 1) columns
  | _, DDropTable _, _ => named_line indent "DROP_TABLE(table='" name "')"
  | _, DColumnDef d, _ =>
      line indent (str "COLUMN_DEFINE(NAME='" ++ name ++ str "', DATA_TYPE=" ++ type_text d ++ str ", PRIMARY_KEY=" ++
        int_to_string (cd_is_primary_key d) ++ str ", NULLABLE=" ++ int_to_string (cd_nullable d) ++ str ")")
  | _, DTransaction d, _ => line indent (str "TRANSACTION(" ++ transaction_kind_to_string (tn_kind d) ++ str ")")
  | _, DExplain d, [statement] =>
      line indent (str "EXPLAIN(analyze=" ++ int_to_string (ex_analyze d) ++ str ")") ++
      (match statement with Some k => r (indent + 1) k | None => line (indent + 1) (str "NULL") end)
  | _, _, _ => []
  end.

Fixpoint render (indent : Z) (l : Layout) : bytes :=
  let 'Lay _ n ts ks its := l in node_text render indent n (first_text ts) ks its.

(** ** The buffer *)

(** The buffer of [size] bytes after [full] was printed: all of it when it fits,
    terminated; the offset stops before the last byte. *)
Definition buffer_fits (size off : Z) (buf full : bytes) : Prop :=
  Z.of_nat (length buf) = size /\ off = Z.min (Z.of_nat (length full)) (size - 1) /\
  (Z.of_nat (length full) <= size - 1 -> take (length full) buf = full).
Definition buffer_shows (size off : Z) (buf full : bytes) : Prop :=
  buffer_fits size off buf full /\ (full <> [] -> buf !! Z.to_nat off = Some x00).

Lemma store_run off data h buf : 0 <= off -> off + Z.of_nat (length data) <= Z.of_nat (length buf) ->
  exists buf', store off data h buf = Ok (tt, buf') /\ length buf' = length buf /\
    take (Z.to_nat off) buf' = take (Z.to_nat off) buf /\
    (forall i x, data !! i = Some x -> buf' !! (Z.to_nat off + i)%nat = Some x) /\
    take (Z.to_nat off + length data) buf' = take (Z.to_nat off) buf ++ data.
Proof.
  intros H0 Hle. unfold store. rewrite (proj2 (Z.leb_le _ _) H0), (proj2 (Z.leb_le _ _) Hle). cbn [andb].
  set (o := Z.to_nat off). assert (Ho : (o + length data <= length buf)%nat) by lia.
  assert (Hlen : length (take o buf) = o) by (rewrite length_take; lia).
  eexists. split; [reflexivity|]. split; [|split; [|split]].
  - rewrite !length_app, length_take, length_drop. lia.
  - rewrite take_app_le by lia. by rewrite take_take, Nat.min_id.
  - intros i x Hi. rewrite lookup_app_r by lia. rewrite Hlen, Nat.add_comm, Nat.add_sub.
    rewrite lookup_app_l; [done|]. by apply lookup_lt_Some in Hi.
  - rewrite app_assoc. apply take_app_length'. rewrite length_app. lia.
Qed.

Section Append.
Context (size : Z) (h : Heap).
Hypothesis Hsize : 1 < size.

Lemma safe_append_shows off buf full text : buffer_fits size off buf full ->
  exists off' buf', safe_append size off text h buf = Ok (off', buf') /\ buffer_shows size off' buf' (full ++ text) /\
    buf' !! Z.to_nat off' = Some x00.
Proof.
  intros (Hb & Hoff & Hc). unfold safe_append.
  destruct (Z.ltb_spec off 0) as [|_]; [lia|]. destruct (Z.leb_spec (size - off) 0) as [|_]; [lia|].
  unfold vsnprintf, mbind, printed_bind.
  set (cut := take (Z.to_nat (size - off - 1)) text).
  assert (Hcut : length cut = Nat.min (Z.to_nat (size - off - 1)) (length text)) by apply length_take.
  destruct (store_run off (cut ++ NUL) h buf) as (buf1 & Hrun & Hlen1 & Htake1 & Hat1 & Hfull1);
    [lia|rewrite length_app; cbn; lia|].
  rewrite Hrun. cbn [result_bind]. unfold mret, printed_ret. cbn [result_bind].
  destruct (Z.ltb_spec (Z.of_nat (length text)) 0) as [|_]; [lia|].
  assert (Hlen : Z.of_nat (length (full ++ text)) = Z.of_nat (length full) + Z.of_nat (length text)) by (rewrite length_app; lia).
  destruct (Z.leb_spec (size - off) (Z.of_nat (length text))) as [Hover|Hfit].
  - destruct (store_run (size - 1) NUL h buf1) as (buf2 & Hrun2 & Hlen2 & _ & Hat2 & _); [lia|cbn; lia|].
    rewrite Hrun2. cbn [result_bind]. do 2 eexists. split; [reflexivity|].
    assert (Hz : buf2 !! Z.to_nat (size - 1) = Some x00) by (rewrite <- (Nat.add_0_r (Z.to_nat _)); by apply Hat2).
    split; [|done]. split; [|done]. split; [lia|]. split; [lia|]. intros. lia.
  - do 2 eexists. split; [reflexivity|].
    assert (Ecut : cut = text) by (apply take_ge; lia). rewrite Ecut in *.
    assert (Hz : buf1 !! Z.to_nat (off + Z.of_nat (length text)) = Some x00).
    { rewrite Z2Nat.inj_add, Nat2Z.id by lia. apply Hat1. by rewrite lookup_app_r, Nat.sub_diag. }
    split; [|done]. split; [|done]. split; [lia|]. split; [lia|]. intros Hle.
    assert (Eoff : Z.to_nat off = length full) by lia. rewrite Eoff in *.
    rewrite length_app. rewrite Hc in Hfull1 by lia. rewrite length_app in Hfull1.
    apply (f_equal (take (length full + length text))) in Hfull1. rewrite take_take in Hfull1.
    rewrite Nat.min_l in Hfull1 by (cbn; lia). rewrite Hfull1, app_assoc. apply take_app_length'. by rewrite length_app.
Qed.

(** Writing over the last byte of what was printed. *)
Lemma safe_append_back off buf full text : buffer_shows size off buf full -> full <> [] -> (2 <= length text)%nat ->
  exists off' buf', safe_append size (off - 1) text h buf = Ok (off', buf') /\ buffer_shows size off' buf' (removelast full ++ text).
Proof.
  intros ((Hb & Hoff & Hc) & _) Hne Ht.
  assert (Hrl : length (removelast full) = (length full - 1)%nat).
  { rewrite removelast_firstn_len, length_take. lia. }
  assert (Hpos : (0 < length full)%nat) by (destruct full; [done|cbn; lia]).
  destruct (Z_le_gt_dec (Z.of_nat (length full)) (size - 1)) as [Hle|Hgt].
  - destruct (safe_append_shows (off - 1) buf (removelast full) text) as (off' & buf' & Hrun & Hs & _); [|eauto].
    split; [done|]. split; [lia|]. intros _. rewrite Hrl, removelast_firstn_len. 
    transitivity (take (pred (length full)) (take (length full) buf)); [rewrite take_take; f_equal; lia|by rewrite Hc].
  - destruct (safe_append_shows (off - 1) buf (take (Z.to_nat (size - 2)) buf) text) as (off' & buf' & Hrun & ((H1 & H2 & _) & _) & Hz).
    { assert (length (take (Z.to_nat (size - 2)) buf) = Z.to_nat (size - 2)) by (rewrite length_take; lia).
      split; [done|]. split; [lia|]. intros _. by rewrite H. }
    exists off', buf'. split; [done|]. rewrite length_app, length_take in H2.
    split; [split; [done|split]|]; [rewrite length_app; lia|rewrite length_app; lia|done].
Qed.
End Append.

(** ** Printing a text *)

(** From a buffer that shows [full], the computation goes on with [text]. *)
Definition prints (size : Z) (h : Heap) (off : Z) (full : bytes) (c : Printed Z) (text : bytes) : Prop :=
  forall buf, buffer_shows size off buf full -> exists off' buf', c h buf = Ok (off', buf') /\ buffer_shows size off' buf' (full ++ text).

Section Prints.
Context (size : Z) (h : Heap).
Hypothesis Hsize : 1 < size.
Local Abbreviation pr := (prints size h).

Lemma prints_eq off full c t t' : pr off full c t -> t = t' -> pr off full c t'.
Proof. by intros H <-. Qed.
Lemma prints_ret off full : pr off full (mret off) [].
Proof. intros buf Hs. exists off, buf. by rewrite app_nil_r. Qed.
Lemma prints_bind off full c k t1 t2 : pr off full c t1 -> (forall off', pr off' (full ++ t1) (k off') t2) ->
  pr off full (c ≫= k) (t1 ++ t2).
Proof.
  intros H1 H2 buf Hs. destruct (H1 buf Hs) as (off1 & buf1 & Hrun & Hs1). destruct (H2 off1 buf1 Hs1) as (off2 & buf2 & Hrun2 & Hs2).
  exists off2, buf2. unfold mbind, printed_bind. rewrite Hrun. cbn [result_bind]. by rewrite <- app_assoc in Hs2.
Qed.
Lemma prints_read {A} off full (c : Printed A) k x t : (forall buf, c h buf = Ok (x, buf)) -> pr off full (k x) t ->
  pr off full (c ≫= k) t.
Proof.
  intros H1 H2 buf Hs. destruct (H2 buf Hs) as (off2 & buf2 & Hrun2 & Hs2).
  exists off2, buf2. unfold mbind, printed_bind. rewrite H1. cbn [result_bind]. done.
Qed.
Lemma prints_append off full text : pr off full (safe_append size off text) text.
Proof. intros buf [Hf _]. destruct (safe_append_shows size h Hsize off buf full text Hf) as (o & b & Hr & Hs & _). eauto. Qed.
Lemma prints_indent off full indent : pr off full (append_indent size off indent) (spaces indent).
Proof.
  unfold append_indent, spaces. revert off full. induction (Z.to_nat indent) as [|n IH]; intros off full; [apply prints_ret|].
  cbn [append_indent_loop replicate concat]. apply prints_bind; [apply prints_append|]. intros. apply IH.
Qed.
Lemma prints_title off full title indent : pr off full (print_title size title indent off) (line indent title).
Proof. apply prints_bind; [apply prints_indent|]. intros. apply prints_append. Qed.

Lemma field_read {A} a n (f : NodeData -> option A) x : h_cells h !! a = Some (CNode n) -> f (n_data n) = Some x ->
  forall buf, field (Some a) f h buf = Ok (x, buf).
Proof.
  intros Ha Hf buf. unfold field, heap_read, read_field, mbind, heaped_bind. by rewrite (read_live _ _ _ Ha); cbn; rewrite Hf.
Qed.
Lemma text_read a n f t : h_cells h !! a = Some (CNode n) -> f (n_data n) = Some (fst <$> t) ->
  (forall s, t = Some s -> h_cells h !! s.1 = Some (CText s.2)) ->
  forall buf, text_field (Some a) f h buf = Ok (lay_text t, buf).
Proof.
  intros Ha Hf Ht buf. unfold text_field, mbind, printed_bind. rewrite (field_read a n f _ Ha Hf). cbn [result_bind].
  destruct t as [s|]; [|done]. unfold text_at. cbn -[lookup]. rewrite (Ht s eq_refl). by destruct s.
Qed.

(** *** The parts of a node *)
Context (rec : ptr -> Z -> Z -> Printed Z) (a : positive) (n : AstNode).
Hypothesis Ha : h_cells h !! a = Some (CNode n).
Definition printable (k : option Layout) : Prop :=
  forall l, k = Some l -> render 0 l <> [] /\
    forall indent off full, pr off full (rec (Some (lay_addr l)) indent off) (render indent l).

Lemma printable_run k l : printable k -> k = Some l ->
  forall indent off full, pr off full (rec (Some (lay_addr l)) indent off) (render indent l).
Proof. intros H E. by apply H. Qed.

Lemma prints_part f k indent off full : f (n_data n) = Some (lay_addr <$> k) -> printable k ->
  pr off full (print_part rec (Some a) f indent off) (part render (indent + 1) k).
Proof.
  intros Hf Hk. eapply prints_read; [by eapply field_read|]. destruct k as [l|]; [|apply prints_ret].
  by apply (printable_run (Some l)).
Qed.
Lemma prints_titled k title missing (m : Z -> Printed Z) indent deeper off full :
  printable k -> (forall off full, pr off full (m off) missing) ->
  pr off full (match lay_addr <$> k with
               | Some _ => off ← print_title size title indent off; rec (lay_addr <$> k) deeper off
               | None => m off
               end) (titled render title missing indent deeper k).
Proof.
  intros Hk Hm. destruct k as [l|]; [|apply Hm]. apply prints_bind; [apply prints_title|]. intros. by apply (printable_run (Some l)).
Qed.
Lemma prints_where f k title indent off full : f (n_data n) = Some (lay_addr <$> k) -> printable k ->
  pr off full (print_where rec size (Some a) f title indent off) (titled render title [] (indent + 1) (indent + 2) k).
Proof.
  intros Hf Hk. eapply prints_read; [by eapply field_read|]. replace (indent + 2) with (step (step indent)) by (unfold step, STEP; lia).
  apply (prints_titled k title [] mret); [done|]. intros; apply prints_ret.
Qed.
Lemma prints_side f k title missing deeper indent off full : f (n_data n) = Some (lay_addr <$> k) -> printable k ->
  pr off full (print_side rec size (Some a) f title missing deeper indent off)
    (titled render title (line (indent + 1) missing) (indent + 1) deeper k).
Proof.
  intros Hf Hk. eapply prints_read; [by eapply field_read|].
  apply (prints_titled k title _ (print_title size missing (step indent))); [done|]. intros; apply prints_title.
Qed.
Lemma prints_or k (m : Z -> Printed Z) missing indent off full : printable k -> (forall off full, pr off full (m off) missing) ->
  pr off full (match lay_addr <$> k with Some _ => rec (lay_addr <$> k) indent off | None => m off end)
    (match k with Some l => render indent l | None => missing end).
Proof. intros Hk Hm. destruct k as [l|]; [|apply Hm]. by apply (printable_run (Some l)). Qed.
Lemma prints_child k missing indent off full : printable k -> (forall off full, pr off full (rec None indent off) missing) ->
  pr off full (rec (lay_addr <$> k) indent off) (match k with Some l => render indent l | None => missing end).
Proof. intros Hk Hm. destruct k as [l|]; [|apply Hm]. by apply (printable_run (Some l)). Qed.
Lemma prints_inline k off full : printable k ->
  pr off full (print_inline rec size (lay_addr <$> k) off) (inline (match k with Some l => render 0 l | None => str "NULL " end)).
Proof.
  intros Hk buf Hs. set (v := match k with Some l => render 0 l | None => str "NULL " end).
  assert (Hv : v <> []) by (destruct k as [l|]; [by apply (Hk l)|done]).
  assert (H1 : pr off full (match lay_addr <$> k with None => safe_append size off (str "NULL ") | Some _ => rec (lay_addr <$> k) 0 off end) v).
  { destruct k as [l|]; [by apply (printable_run (Some l))|apply prints_append]. }
  destruct (H1 buf Hs) as (off1 & buf1 & Hrun & Hs1).
  destruct (safe_append_back size h Hsize off1 buf1 (full ++ v) (str ")" ++ nl)) as (off2 & buf2 & Hrun2 & Hs2);
    [done|by destruct full|cbn; lia|].
  exists off2, buf2. split; [|by rewrite removelast_app, <- app_assoc in Hs2].
  unfold print_inline, mbind, printed_bind. rewrite Hrun. exact Hrun2.
Qed.

Lemma prints_items its : forall fuel p indent off full, linked p its -> (length its < fuel)%nat ->
  Forall (fun i => printable (Some i)) its -> Forall (laid (h_cells h)) its ->
  pr off full (print_items rec fuel p indent off) (concat (map (render (indent + 1)) its)).
Proof.
  induction its as [|i its IH]; intros [|fuel] p indent off full Hc Hlen Hk Hl; try (cbn in Hlen; lia); cbn in Hc.
  { subst p. apply prints_ret. }
  destruct Hc as [-> Hc]. apply Forall_cons in Hk as [Hki Hk]. apply Forall_cons in Hl as [Hli Hl].
  cbn [print_items map concat]. apply prints_bind; [by apply (printable_run (Some i))|]. intros off1.
  eapply (prints_read _ _ _ _ (lay_node i)); [|apply IH; [done|cbn in Hlen; lia|done|done]].
  intros buf. unfold heap_read. destruct i. apply laid_eq in Hli as ((Hi & _) & _). cbn [lay_addr]. by rewrite (read_live _ _ _ Hi).
Qed.
End Prints.

(** ** Every printer prints the text of its node *)

Lemma dec_digits_length fuel : forall z, (length (dec_digits fuel z) <= fuel)%nat.
Proof. induction fuel as [|fuel IH]; intros z; cbn; [lia|]. rewrite length_app. destruct (z <? 10); cbn; [lia|]. specialize (IH (z / 10)). lia. Qed.
Lemma int_to_string_length z : (length (int_to_string z) <= 21)%nat.
Proof.
  unfold int_to_string. pose proof (dec_digits_length 20 z). pose proof (dec_digits_length 20 (- z)).
  case_match; [|lia]. rewrite length_app. change (length (str "-")) with 1%nat. lia.
Qed.
Lemma snprintf_all n text : (length text < n)%nat -> snprintf n text = text.
Proof. intros. apply take_ge. lia. Qed.
Lemma limit_text has value : snprintf 32 (if has =? 0 then str "-" else int_to_string value) = limit_bound has value.
Proof. apply snprintf_all. unfold limit_bound. pose proof (int_to_string_length value). case_match; [cbn; lia|lia]. Qed.
Lemma type_name_text d : format_column_type d 64 = type_text d.
Proof.
  unfold format_column_type, type_text. pose proof (int_to_string_length (Z.of_N (cd_length d))).
  assert (Hn : (length (data_type_to_string (cd_data_type d)) <= 8)%nat) by (destruct (cd_data_type d); cbn; lia).
  set (digits := int_to_string _) in *.
  destruct (0 <? cd_length d)%N, (cd_data_type d); cbn [andb]; rewrite ?app_nil_r; apply snprintf_all; try lia;
    rewrite !length_app; change (length (str "(")) with 1%nat; change (length (str ")")) with 1%nat; lia.
Qed.

(** One step of a printer. *)
Ltac print_step Hsize Hnull Ha Hts :=
  first
    [ apply (prints_bind _ _ _ _ (append_indent _ _ _)); [apply prints_indent; exact Hsize|intros ?]
    | apply (prints_bind _ _ _ _ (safe_append _ _ _)); [apply prints_append; exact Hsize|intros ?]
    | apply (prints_bind _ _ _ _ (print_part _ _ _ _ _)); [eapply prints_part; [exact Ha|reflexivity|by auto]|intros ?]
    | apply (prints_bind _ _ _ _ (print_where _ _ _ _ _ _ _)); [eapply prints_where; [exact Hsize|exact Ha|reflexivity|by auto]|intros ?]
    | apply (prints_bind _ _ _ _ (print_side _ _ _ _ _ _ _ _ _)); [eapply prints_side; [exact Hsize|exact Ha|reflexivity|by auto]|intros ?]
    | apply (prints_bind _ _ _ _ (match _ with Some _ => _ | None => _ end)); [eapply prints_or; [by auto|intros ? ?; apply prints_title; exact Hsize]|intros ?]
    | eapply prints_part; [exact Ha|reflexivity|by auto]
    | eapply prints_where; [exact Hsize|exact Ha|reflexivity|by auto]
    | eapply prints_side; [exact Hsize|exact Ha|reflexivity|by auto]
    | apply prints_append; exact Hsize
    | apply prints_inline; [exact Hsize|by auto]
    | eapply prints_items; [eassumption..]
    | eapply (prints_read _ _ _ _ (text_field _ _)); [eapply text_read; [exact Ha|reflexivity|intros ? ->; apply Hts; by left]|]
    | eapply (prints_read _ _ _ _ (field _ _)); [eapply field_read; [exact Ha|reflexivity]|];
      cbn [in_columns as_value co_right inn_values ex_statement al_head]
    | eapply prints_or; [by auto|intros ? ?; apply prints_title; exact Hsize]
    | apply prints_child; [by auto|intros ? ?; apply Hnull] ].

Section NodeText.
Context (size : Z) (h : Heap) (rec : ptr -> Z -> Z -> Printed Z) (fuel : nat).
Hypothesis Hsize : 1 < size.
Hypothesis Hnull : forall indent off full, prints size h off full (rec None indent off) (line indent (str "NULL")).

Lemma prints_node_text a n ts ks its print indent off full :
  laid (h_cells h) (Lay a n ts ks its) -> (length its < fuel)%nat ->
  Forall (printable size h rec) ks -> Forall (fun i => printable size h rec (Some i)) its ->
  node_printer rec size fuel (n_type n) = Some print ->
  prints size h off full (print (Some a) indent off) (render indent (Lay a n ts ks its)).
Proof.
  intros Hl Hlen Hks Hits Hp. apply laid_eq in Hl as ((Ha & Hh & Ht & Hts & Hk & Hc & _) & _ & Hli).
  cbn [render]. destruct n as [type next span d]. cbn [n_type n_data] in *.
  destruct type; cbn in Hp; try discriminate Hp; injection Hp as <-;
    destruct d as [[]|[]|[]|[]|[]|[]|[]|[]|[]|[]|[]|[]|[]|[]|[]|[]|[]|[]|[]|[]|[]|[]]; try discriminate Hh; clear Hh;
    cbn in Ht, Hk, Hc;
    repeat match goal with
    | H : [] = map _ ?l |- _ => destruct l; [clear H|discriminate H]
    | H : _ :: _ = map _ ?l |- _ => destruct l; [discriminate H|injection H; clear H; intros H ?]
    end; subst; repeat match goal with H : Forall _ (_ :: _) |- _ => apply Forall_cons in H as [? H] end.
  all: eapply prints_eq;
    [cbv beta delta [print_number_node print_string_node print_ident_node print_literal_node print_use_node
      print_select_node print_insert_node print_update_node print_delete_node print_compare_node print_binary_node
      print_assignment_node print_list print_not_node print_in_node print_order_node print_limit_node
      print_create_database_node print_drop_database_node print_create_table_node print_drop_table_node
      print_column_def_node print_transaction_node print_explain_node];
     repeat print_step Hsize Hnull Ha Hts
    |unfold node_text, named_line, line, inline, step, STEP; cbn [n_type n_data first_text];
     rewrite ?limit_text, ?type_name_text, <- ?app_assoc, <- ?Z.add_assoc; try reflexivity].
  all: try by destruct (0 <? _).
  all: apply (prints_or size h rec o (fun off => print_title size (str "VALUES: NULL") (step indent) off)); [done|].
  all: intros ? ?; by apply prints_title.
Qed.
End NodeText.

Lemma line_ne indent text : line indent text <> [].
Proof. unfold line. intros H. apply (f_equal (@length byte)) in H. rewrite !length_app in H. cbn in H. lia. Qed.

Lemma app_ne_l (x y : bytes) : x <> [] -> x ++ y <> [].
Proof. by destruct x. Qed.
Lemma app_ne_r (x y : bytes) : y <> [] -> x ++ y <> [].
Proof. destruct x; [done|discriminate]. Qed.

(** A laid node has a text. *)
Lemma render_ne m l indent : laid m l -> render indent l <> [].
Proof.
  destruct l as [a n ts ks its]. intros Hl. apply laid_eq in Hl as ((_ & Hh & _ & _ & Hk & _) & _).
  destruct n as [type next span d]. cbn [n_type n_data] in *.
  destruct type, d; try discriminate Hh; cbn in Hk;
    repeat match goal with
    | H : [] = map _ ?l |- _ => destruct l; [clear H|discriminate H]
    | H : _ :: _ = map _ ?l |- _ => destruct l; [discriminate H|injection H; clear H; intros H ?]
    end; cbn [render]; unfold node_text, named_line; cbn [n_type n_data];
    first [apply line_ne|apply app_ne_l, line_ne|apply app_ne_r, app_ne_l; discriminate].
Qed.

Lemma print_node_shows fuel size h : 1 < size -> forall l indent off full,
  (length (addrs l) < fuel)%nat -> laid (h_cells h) l ->
  prints size h off full (print_node fuel size (Some (lay_addr l)) indent off) (render indent l).
Proof.
  intros Hsize. induction fuel as [|fuel IH]; intros l indent off full Hlen Hl; [lia|].
  destruct l as [a n ts ks its]. pose proof Hl as Hl'. apply laid_eq in Hl' as ((Ha & Hh & _) & Hks & Hits).
  rewrite addrs_eq in Hlen. cbn [length] in Hlen. rewrite !length_app in Hlen.
  assert (Hsub : forall ls, (length (addrs_all ls) < fuel)%nat -> Forall (laid (h_cells h)) ls ->
    Forall (fun i => printable size h (print_node fuel size) (Some i)) ls).
  { intros ls Hls Hlaid. apply Forall_forall. intros k Hin. rewrite Forall_forall in Hlaid. pose proof (Hlaid k Hin) as Hk.
    apply list_elem_of_In, in_split in Hin as (l1 & l2 & ->).
    rewrite addrs_all_app, addrs_all_cons, !length_app in Hls. intros l [= <-]. split; [by apply (render_ne (h_cells h))|].
    intros. apply IH; [lia|done]. }
  cbn [print_node lay_addr]. eapply prints_read; [intros buf; unfold heap_read; by rewrite (read_live _ _ _ Ha)|].
  destruct (node_printer (print_node fuel size) size fuel (n_type n)) as [print|] eqn:Hp.
  - apply (prints_node_text size h (print_node fuel size) fuel); try done.
    + intros i o f. destruct fuel as [|fuel]; [lia|]. by apply prints_title.
    + pose proof (items_le_addrs its). lia.
    + assert (Hk : Forall (fun i => printable size h (print_node fuel size) (Some i)) (present ks)) by (apply Hsub; [lia|done]).
      clear - Hk. induction ks as [|[k|] ks IH]; constructor; try (intros ? [=]); try by apply IH.
      * subst. inversion Hk; subst. eauto.
      * apply IH. by inversion Hk.
    + apply Hsub; [lia|done].
  - destruct (n_type n); try discriminate Hp. by destruct (n_data n).
Qed.

(** ** [print_ast] *)

Lemma c_text_exact full : forall buf, x00 ∉ full -> take (length full) buf = full -> buf !! length full = Some x00 ->
  c_text buf = full.
Proof.
  induction full as [|b full IH]; intros [|c buf] Hn Ht Hz; try discriminate; cbn in *.
  - injection Hz as ->. by rewrite bool_decide_eq_true_2.
  - injection Ht as -> Ht. rewrite bool_decide_eq_false_2 by (intros ->; apply Hn; left). f_equal. apply IH; [|done|done].
    intros ?. apply Hn. by right.
Qed.
Lemma c_text_short buf : forall i, buf !! i = Some x00 -> (length (c_text buf) <= i)%nat.
Proof.
  induction buf as [|c buf IH]; intros [|i] Hz; try discriminate; cbn in *.
  - injection Hz as ->. by rewrite bool_decide_eq_true_2.
  - case_bool_decide; cbn; [lia|]. apply IH in Hz. lia.
Qed.

Lemma resized_length junk buffer size : length (resized junk buffer size) = size.
Proof. unfold resized. rewrite length_take, !length_app, length_replicate. lia. Qed.

Section PrintAstSpec.
Context (granted : nat -> bool) (junk : nat -> bytes) (fuel : nat) (h : Heap) (l : Layout) (indent : Z).
Hypothesis Hfuel : (length (addrs l) < fuel)%nat.
Hypothesis Hl : laid (h_cells h) l.

(** What each outcome of the loop owes. *)
Definition printed_well (out : bytes) : Prop :=
  (length out <= MAX_BUF_SIZE)%nat /\
  ((forall s, granted s = true) -> x00 ∉ render indent l -> (length (render indent l) < MAX_BUF_SIZE)%nat ->
   out = render indent l ++ nl).

(** One round: the buffer shows the tree, and is what to print when the text fits
    or the buffer is the largest. *)
Lemma round_shows size buf : length buf = size -> (1 < size <= MAX_BUF_SIZE)%nat ->
  exists off buf', print_node fuel (Z.of_nat size) (Some (lay_addr l)) indent 0 h buf = Ok (off, buf') /\ 0 <= off /\
    (off < Z.of_nat size - 1 \/ size = MAX_BUF_SIZE -> printed_well (c_text buf' ++ nl)).
Proof.
  intros Hb Hs.
  destruct (print_node_shows fuel (Z.of_nat size) h ltac:(lia) l indent 0 [] Hfuel Hl buf)
    as (off & buf' & Hrun & (Hlen & Hoff & Hall) & Hz).
  { split; [split; [lia|split; [cbn; lia|done]]|done]. }
  cbn [app] in *. specialize (Hz (render_ne _ _ indent Hl)). exists off, buf'. split; [done|]. split; [lia|]. intros Hcase. split.
  - rewrite length_app. apply c_text_short in Hz. change (length nl) with 1%nat. lia.
  - intros _ Hno Hshort. rewrite (c_text_exact (render indent l)); [done|done|apply Hall; lia|].
    replace (length (render indent l)) with (Z.to_nat off) by lia. exact Hz.
Qed.

Lemma nothing_printed : (exists s, granted s = false) -> printed_well [].
Proof. intros [s Hs]. split; [apply Nat.le_0_l|]. intros Hg. by rewrite Hg in Hs. Qed.

Lemma buf_size_le size rounds : (size * 2 ^ rounds = MAX_BUF_SIZE)%nat -> (size <= MAX_BUF_SIZE)%nat.
Proof. intros <-. pose proof (Nat.pow_nonzero 2 rounds ltac:(lia)). nia. Qed.

Lemma print_rounds_spec rounds : forall size buf, length buf = size -> (1 < size)%nat ->
  (size * 2 ^ rounds = MAX_BUF_SIZE)%nat ->
  exists out, print_rounds granted junk (S rounds) fuel (Some (lay_addr l)) indent size buf h = Ok out /\ printed_well out.
Proof.
  induction rounds as [|rounds IH]; intros size buf Hb Hs Hmax.
  all: destruct (round_shows size buf Hb (conj Hs (buf_size_le _ _ Hmax))) as (off & buf' & Hrun & H0 & Hwell).
  all: cbn [print_rounds]; rewrite Hrun; cbn [result_bind].
  all: destruct (Z.ltb_spec off 0) as [|_]; [lia|].
  - rewrite (proj2 (Nat.leb_le MAX_BUF_SIZE size)) by (rewrite <- Hmax; cbn; lia). rewrite orb_true_r.
    eexists. split; [done|]. apply Hwell. right. rewrite <- Hmax. cbn. lia.
  - destruct (Z.ltb_spec off (Z.of_nat size - 1)) as [Hfit|Hfull]; [eexists; split; [done|]; apply Hwell; by left|].
    cbn [orb]. destruct (Nat.leb_spec MAX_BUF_SIZE size) as [Hle|_]; [pose proof (Nat.pow_nonzero 2 rounds ltac:(lia)); rewrite <- Hmax in Hle; cbn [Nat.pow] in Hle; nia|].
    destruct (granted (size * 2)) eqn:Hg; [|exists []; split; [done|apply nothing_printed; eauto]].
    apply IH; [apply resized_length|lia|]. rewrite <- Hmax. cbn [Nat.pow]. lia.
Qed.
End PrintAstSpec.

(** C30: printing a tree never writes outside its buffer, follows a dead pointer or
    runs forever, whatever the buffer held before and whatever allocation fails;
    what is printed is at most 16384 bytes long, and when memory is granted and
    the text of the tree is shorter than that, it is exactly this text. *)
Theorem print_ast_exact (granted : nat -> bool) (junk : nat -> bytes) (fuel : nat) (h : Heap) (l : Layout) (indent : Z) :
  laid (h_cells h) l -> (length (addrs l) < fuel)%nat ->
  exists out, print_ast granted junk fuel (Some (lay_addr l)) indent h = Ok out /\
    (length out <= MAX_BUF_SIZE)%nat /\
    ((forall s, granted s = true) -> x00 ∉ render indent l -> (length (render indent l) < MAX_BUF_SIZE)%nat ->
     out = render indent l ++ nl).
Proof.
  intros Hl Hfuel. assert (Hn : read_node (Some (lay_addr l)) h = Ok (lay_node l, h) /\ n_type (lay_node l) <> NODE_TYPE_COUNT).
  { destruct l as [a n ts ks its]. pose proof Hl as Hc. apply laid_eq in Hc as ((Ha & Hh & _) & _).
    split; [by apply read_live|]. intros E. cbn in E. rewrite E in Hh. by destruct (n_data n). }
  destruct Hn as [Hread Htype]. unfold print_ast. rewrite Hread. cbn [result_bind].
  destruct (node_printer _ 0 fuel _) as [print|] eqn:Hp; [|by destruct (n_type (lay_node l))].
  destruct (granted MIN_BUF_SIZE) eqn:Hg.
  - apply print_rounds_spec; [done|done|apply resized_length|apply Nat.ltb_lt; reflexivity|reflexivity].
  - exists []. split; [done|]. split; [apply Nat.le_0_l|]. intros Hall. by rewrite Hall in Hg.
Qed.

(** [WHERE a IN (1) OR b = 'x'], as the grammar builds it. *)
Definition demo_tree : Layout :=
  let name a s := Some (Z.to_pos a, bytes_of_string s) in
  let node type d := mkAstNode type None sspan_unknown d in
  let at_ a := Some (Z.to_pos a) in
  let one := Lay 1 (node NODE_NUMBER (DNumber (mkNumberNode 1))) [] [] [] in
  let values := Lay 2 (node NODE_LIST (DList (mkASTNodeList LIST_VALUE (at_ 1) (at_ 1) 1))) [] [] [one] in
  let in_a := Lay 3 (node NODE_IN (DIn (mkInNode (at_ 4) (at_ 2) 0))) [name 4 "a"] [Some values] [] in
  let x := Lay 5 (node NODE_STRING (DString (mkStringNode (at_ 6)))) [name 6 "x"] [] [] in
  let b_x := Lay 7 (node NODE_COMPARE (DCompare (mkCompareNode (at_ 8) COP_EQ (at_ 5)))) [name 8 "b"] [Some x] [] in
  Lay 9 (node NODE_BINARY_OP (DBinaryOp (mkBinaryOpNode (at_ 3) COP_OR (at_ 7)))) [] [Some in_a; Some b_x] [].

Fixpoint cells_of (l : Layout) : gmap positive HeapCell :=
  let 'Lay a n ts ks its := l in
  <[a := CNode n]> (list_to_map (map (prod_map id CText) (omap id ts)) ∪
    (fix go ks := match ks with [] => ∅ | None :: ks' => go ks' | Some k :: ks' => cells_of k ∪ go ks' end) ks ∪
    (fix go its := match its with [] => ∅ | i :: its' => cells_of i ∪ go its' end) its).

Lemma demo_tree_laid : laid (cells_of demo_tree) demo_tree.
Proof.
  unfold demo_tree. cbn [laid]. unfold cell_laid. repeat split; try reflexivity; intros t Hin; cbn in Hin; destruct_or? Hin; try done;
  injection Hin as <-; reflexivity.
Qed.

Lemma print_ast_exact_witness :
  exists out, print_ast (fun _ => true) (fun n => replicate n x41) 10 (Some 9%positive) 0 (mkHeap (cells_of demo_tree) 0 None) = Ok out /\
    out = str "BINARY(op=OR)" ++ nl ++ str "  LEFT:" ++ nl ++ str "    IN(column='a')" ++ nl ++ str "      VALUES(count=1)" ++ nl ++
          str "        NUMBER(1)" ++ nl ++ str "  RIGHT:" ++ nl ++ str "    COMPARE(column='b', op='=', value=STRING('x'))" ++ nl ++ nl.
Proof.
  destruct (print_ast_exact (fun _ => true) (fun n => replicate n x41) 10 (mkHeap (cells_of demo_tree) 0 None) demo_tree 0
    demo_tree_laid ltac:(vm_compute; lia)) as (out & Hrun & _ & Hout).
  exists out. split; [exact Hrun|]. rewrite Hout; [vm_compute; reflexivity|done| |].
  - apply (bool_decide_eq_false_1 _). vm_compute. reflexivity.
  - apply Nat.ltb_lt. vm_compute. reflexivity.
Defined.
