(* ===== verification/Parser.v ===== *)
(** * The parser facade: [parser/parser.cpp], [parser/parser.h]

    The C++ class around the generated lexer and grammar: the process-wide error
    receiver that [yyerror] writes, the state it is reset to for each statement,
    the transfer of the finished tree out of [g_parsed_ast], and the splitting of
    a text into statements. What [yyparse] does on a text is a parameter: its
    return code, the [yyerror] calls it makes with the position of the lexer at
    each, and the heap it leaves. Log output is left out. *)

From S2P Require Import Prelude Bytes SqlTypes SqlTruth Rewriter Schema Planner StmtBuilder AstHeap.
Local Open Scope Z_scope.

(** ** State *)

Record ParserGlobals := mkGlobals {
  instance : bool; error_buffer : bytes; has_error : bool;
  error_line : Z; error_column : Z; error_end_line : Z; error_end_column : Z }.

Record Parser := mkParser { last_error_ : bytes; parse_count_ : N; error_count_ : N }.

Record ParseError := mkParseError { pe_line : Z; pe_column : Z; pe_message : bytes; pe_token : bytes }.
Record ParseResult := mkParseResult { pr_sql : bytes; pr_success : bool; pr_ast : ptr; pr_error : option ParseError }.

Definition parse_error_to_string (e : ParseError) : bytes :=
  if 0 <? pe_line e
  then str "Parse error at line " ++ int_to_string (pe_line e) ++ str ", column " ++ int_to_string (pe_column e) ++
       str ": " ++ pe_message e
  else str "Parse error: " ++ pe_message e.

(** The globals, one parser object, and the heap with [g_parsed_ast]. *)
Record PState := mkPState { ps_globals : ParserGlobals; ps_parser : Parser; ps_heap : Heap }.

(** One run of the generated parser. *)
Record YyRun := mkYyRun { yy_result : Z; yy_errors : list (bytes * (Z * Z * Z * Z)); yy_heap : Heap }.

Definition set_last_error (err : bytes) (p : Parser) : Parser := mkParser err (parse_count_ p) (error_count_ p).

Definition yyerror (s : bytes) (loc : Z * Z * Z * Z) (st : PState) : PState :=
  let g := ps_globals st in
  if instance g then
    if negb (has_error g) then
      let '(l, c, l', c') := loc in
      mkPState (mkGlobals (instance g) s true l c l' c') (set_last_error s (ps_parser st)) (ps_heap st)
    else st
  else st.

Definition clear_error_state (st : PState) : PState :=
  mkPState (mkGlobals (instance (ps_globals st)) [] false 0 0 0 0) (set_last_error [] (ps_parser st)) (ps_heap st).
Definition reset (st : PState) : PState := clear_error_state st.

(** Filling [last_error_] when it is empty. *)
Definition error_or (text : bytes) (st : PState) : PState :=
  match last_error_ (ps_parser st), text with
  | [], _ :: _ => mkPState (ps_globals st) (set_last_error text (ps_parser st)) (ps_heap st)
  | _, _ => st
  end.

Section ParserModel.
Context (yyparse : bytes -> Heap -> YyRun) (scanner_ready : bytes -> bool).

(** The tree is handed over and [g_parsed_ast] cleared only on success. *)
Definition do_parse (sql : bytes) (st : PState) : PState * bool * ptr :=
  let text := c_text sql in
  if negb (scanner_ready text)
  then (mkPState (ps_globals st) (set_last_error (str "Failed to create scanner buffer") (ps_parser st)) (ps_heap st), false, None)
  else
    let run := yyparse text (ps_heap st) in
    let st := fold_left (fun st e => yyerror e.1 e.2 st) (yy_errors run) st in
    let st := mkPState (ps_globals st) (ps_parser st) (yy_heap run) in
    match (if yy_result run =? 0 then g_parsed_ast (ps_heap st) else None) with
    | None =>
        let st := error_or (error_buffer (ps_globals st)) st in
        (error_or (str "Syntax error (parse_result=" ++ int_to_string (yy_result run) ++ str ")") st, false, None)
    | Some a =>
        let h := ps_heap st in
        (mkPState (ps_globals st) (ps_parser st) (mkHeap (h_cells h) (h_budget h) None), true, Some a)
    end.

Definition two64N : N := (2 ^ 64)%N.
Definition set_instance (b : bool) (g : ParserGlobals) : ParserGlobals :=
  mkGlobals b (error_buffer g) (has_error g) (error_line g) (error_column g) (error_end_line g) (error_end_column g).

Definition parse (sql : bytes) (st : PState) : PState * ParseResult :=
  let st := mkPState (set_instance true (ps_globals st)) (ps_parser st) (ps_heap st) in
  let '(st, success, raw_ast) := do_parse sql (clear_error_state st) in
  let p := ps_parser st in
  let st := mkPState (ps_globals st) (mkParser (last_error_ p) ((parse_count_ p + 1) mod two64N) (error_count_ p)) (ps_heap st) in
  let unregister st := mkPState (set_instance false (ps_globals st)) (ps_parser st) (ps_heap st) in
  match (if success then raw_ast else None) with
  | Some a => (unregister st, mkParseResult sql true (Some a) None)
  | None =>
      let p := ps_parser st in
      let st := mkPState (ps_globals st) (mkParser (last_error_ p) (parse_count_ p) ((error_count_ p + 1) mod two64N)) (ps_heap st) in
      let st := error_or (error_buffer (ps_globals st)) st in
      let st := error_or (str "Syntax error") st in
      let g := ps_globals st in
      (unregister st, mkParseResult sql false None
        (Some (mkParseError (error_line g) (error_column g) (last_error_ (ps_parser st)) [])))
  end.

(** [std::getline(ss, statement, ';')] until it fails: a text after the last
    separator counts unless it is empty. *)
Fixpoint split_semicolons (acc text : bytes) : list bytes :=
  match text with
  | [] => match acc with [] => [] | _ => [rev acc] end
  | c :: text' => if bool_decide (c = ";"%byte) then rev acc :: split_semicolons [] text' else split_semicolons (c :: acc) text'
  end.

Definition blank_char (c : byte) : bool := bool_decide (c ∈ [" "%byte; x09; x0a; x0d]).
Fixpoint skip_blanks (text : bytes) : bytes :=
  match text with
  | [] => []
  | c :: text' => if blank_char c then skip_blanks text' else text
  end.
Definition trim_blanks (text : bytes) : bytes := rev (skip_blanks (rev (skip_blanks text))).

Fixpoint parse_pieces (pieces : list bytes) (st : PState) : PState * list ParseResult :=
  match pieces with
  | [] => (st, [])
  | piece :: pieces' =>
      match trim_blanks piece with
      | [] => parse_pieces pieces' st
      | statement =>
          let '(st, r) := parse (statement ++ str ";") st in
          let '(st, rs) := parse_pieces pieces' st in
          (st, r :: rs)
      end
  end.
Definition parse_multi (sql : bytes) (st : PState) : PState * list ParseResult := parse_pieces (split_semicolons [] sql) st.

(** [parse_sql]: a parser of its own; the tree or NULL with the text of the error. *)
Definition parse_sql (sql : bytes) (g : ParserGlobals) (h : Heap) : ParserGlobals * Heap * ptr * option bytes :=
  let '(st, r) := parse sql (mkPState g (mkParser [] 0 0) h) in
  if negb (pr_success r)
  then (ps_globals st, ps_heap st, None,
        Some match pr_error r with Some e => parse_error_to_string e | None => str "Unknown error" end)
  else (ps_globals st, ps_heap st, pr_ast r, None).

(** The same steps; the tree goes into an owning pointer. *)
Definition parse_sql_smart (sql : bytes) (g : ParserGlobals) (h : Heap) : ParserGlobals * Heap * ptr * option bytes :=
  let '(st, r) := parse sql (mkPState g (mkParser [] 0 0) h) in
  if negb (pr_success r)
  then (ps_globals st, ps_heap st, None,
        Some match pr_error r with Some e => parse_error_to_string e | None => str "Unknown error" end)
  else (ps_globals st, ps_heap st, pr_ast r, None).

(** [ASTNodeDeleter], which [~ParseResult] and [parse_sql_smart] free a tree with. *)
Definition delete_ast (fuel : nat) (node : ptr) : Heaped unit :=
  match node with Some _ => free_ast fuel node | None => mret tt end.

(** ** The outcome of a parse *)

Definition first_error (errors : list (bytes * (Z * Z * Z * Z))) : option (bytes * (Z * Z * Z * Z)) := head errors.

Lemma yyerrors_kept errors : forall st, has_error (ps_globals st) = true -> fold_left (fun st e => yyerror e.1 e.2 st) errors st = st.
Proof.
  induction errors as [|e errors IH]; intros st H; [done|]. cbn. unfold yyerror at 2.
  rewrite H. cbn. destruct (instance (ps_globals st)); by apply IH.
Qed.

(** With a receiver and no error yet, only the first call counts. *)
Lemma yyerrors_first errors st : instance (ps_globals st) = true -> has_error (ps_globals st) = false ->
  fold_left (fun st e => yyerror e.1 e.2 st) errors st =
  match first_error errors with Some e => yyerror e.1 e.2 st | None => st end.
Proof.
  intros Hi Hh. destruct errors as [|[s [[[l c] l'] c']] errors]; [done|]. cbn. apply yyerrors_kept.
  unfold yyerror. by rewrite Hi, Hh.
Qed.

(** What a failed parse reports: the first [yyerror] call with its position, and
    only when there was none the generic text. *)
Definition reported (run : YyRun) : ParseError :=
  match first_error (yy_errors run) with
  | Some (c :: s, (line, column, _, _)) => mkParseError line column (c :: s) []
  | Some ([], (line, column, _, _)) => mkParseError line column (str "Syntax error (parse_result=" ++ int_to_string (yy_result run) ++ str ")") []
  | None => mkParseError 0 0 (str "Syntax error (parse_result=" ++ int_to_string (yy_result run) ++ str ")") []
  end.

(** A parse succeeds exactly when the grammar accepts and leaves a tree, which the
    result takes over while [g_parsed_ast] is cleared; otherwise it reports the
    first error with its position, and [g_parsed_ast] stays as the grammar left
    it. The receiver is unregistered, the counters are exact, and nothing of an
    earlier statement shows. *)
Theorem parse_outcome (sql : bytes) (st : PState) : scanner_ready (c_text sql) = true ->
  let run := yyparse (c_text sql) (ps_heap st) in
  let '(st', r) := parse sql st in
  instance (ps_globals st') = false /\ parse_count_ (ps_parser st') = ((parse_count_ (ps_parser st) + 1) mod two64N)%N /\
  match (if yy_result run =? 0 then g_parsed_ast (yy_heap run) else None) with
  | Some a => r = mkParseResult sql true (Some a) None /\
      ps_heap st' = mkHeap (h_cells (yy_heap run)) (h_budget (yy_heap run)) None /\
      error_count_ (ps_parser st') = error_count_ (ps_parser st)
  | None => r = mkParseResult sql false None (Some (reported run)) /\ ps_heap st' = yy_heap run /\
      error_count_ (ps_parser st') = ((error_count_ (ps_parser st) + 1) mod two64N)%N
  end.
Proof.
  intros Hready run. unfold parse, do_parse. rewrite Hready. cbn [negb ps_heap clear_error_state]. fold run.
  rewrite yyerrors_first by done.
  unfold reported. destruct (first_error (yy_errors run)) as [[s [[[l c] l'] c']]|]; cbn -[two64N int_to_string str N.modulo];
    destruct (yy_result run =? 0); try destruct (g_parsed_ast (yy_heap run)); cbn -[two64N int_to_string str N.modulo];
    try (by repeat split); try destruct s; cbn -[two64N int_to_string N.modulo]; by repeat split.
Qed.

(** A tree of a rejected text (a complete statement with tokens behind it) is owned
    by nobody but [g_parsed_ast], which the next accepted text overwrites. *)
Corollary rejected_tree_stays (sql : bytes) (st : PState) a : scanner_ready (c_text sql) = true ->
  yy_result (yyparse (c_text sql) (ps_heap st)) <> 0 -> g_parsed_ast (yy_heap (yyparse (c_text sql) (ps_heap st))) = Some a ->
  pr_ast (parse sql st).2 = None /\ g_parsed_ast (ps_heap (parse sql st).1) = Some a.
Proof.
  intros Hready Hres Hg. pose proof (parse_outcome sql st Hready) as H. apply Z.eqb_neq in Hres. cbn zeta in H. rewrite Hres in H.
  destruct (parse sql st) as [st' r]. destruct H as (_ & _ & -> & Hh & _). cbn [fst snd]. by rewrite Hh.
Qed.

Definition statements_of (sql : bytes) : list bytes :=
  map (fun piece => piece ++ str ";") (filter (fun piece => piece <> []) (map trim_blanks (split_semicolons [] sql))).

Lemma parse_keeps_sql sql st : pr_sql (parse sql st).2 = sql.
Proof. unfold parse. by destruct (do_parse sql _) as [[st1 []] [a|]]. Qed.

(** One result per statement, in order. *)
Theorem parse_multi_statements (sql : bytes) (st : PState) : map pr_sql (parse_multi sql st).2 = statements_of sql.
Proof.
  unfold parse_multi, statements_of. revert st. induction (split_semicolons [] sql) as [|piece pieces IH]; intros st; [done|].
  cbn [parse_pieces map]. destruct (trim_blanks piece) as [|c s]; [by rewrite filter_cons_False by auto|].
  rewrite filter_cons_True by done. pose proof (parse_keeps_sql ((c :: s) ++ str ";") st) as Hsql.
  destruct (parse _ st) as [st1 r]. specialize (IH st1). destruct (parse_pieces pieces st1) as [st2 rs].
  cbn [map snd] in *. by rewrite Hsql, IH.
Qed.

(** A semicolon inside a quoted text ends a statement too. *)
Corollary parse_multi_splits_quotes (st : PState) :
  map pr_sql (parse_multi (str "INSERT INTO t VALUES ('a;b');") st).2 = [str "INSERT INTO t VALUES ('a;"; str "b');"].
Proof. rewrite parse_multi_statements. reflexivity. Qed.

End ParserModel.
