(* ===== verification/SourceSpans.v ===== *)
(** * Positions, colours and scripts: [statement/source_span], [statement/sql_highlight], [common/ansi_color.h], [client/repl.cpp]

    Where in the SQL text an error is: the positions a tree carries by name, the
    marked line of an error message, the colouring of a statement, and the cutting
    of a script into statements with their places. The tokens of the lexer and its
    token numbers are parameters. *)

From S2P Require Import Prelude Bytes SqlTypes SqlTruth Rewriter Schema Planner StmtBuilder AstHeap AstOwn.
Local Open Scope Z_scope.

(** ** [common/ansi_color.h] *)

Definition esc (s : string) : bytes := x1b :: str s.
Definition kReset : bytes := esc "[0m".
Definition kBold : bytes := esc "[1m".
Definition kDim : bytes := esc "[2m".
Definition kRed : bytes := esc "[31m".
Definition kGreen : bytes := esc "[32m".
Definition kYellow : bytes := esc "[33m".
Definition kMagenta : bytes := esc "[35m".
Definition kCyan : bytes := esc "[36m".
Definition kKeyword : bytes := esc "[1;34m".
Definition kErrorSpan : bytes := esc "[1;91m".

Definition paint (text code : bytes) (enabled : bool) : bytes :=
  match code with
  | [] => text
  | _ => if enabled then code ++ text ++ kReset else text
  end.

(** ** [statement/source_span.h] *)

Definition NtoS (n : N) : bytes := int_to_string (Z.of_N n).

Definition sspan_to_string (span : SSpan) : bytes :=
  if negb (sspan_valid span) then []
  else str "line " ++ NtoS (begin_line span) ++ str ":" ++ NtoS (begin_column span) ++
       (if (end_line span =? begin_line span)%N && (begin_column span <? end_column span)%N
        then str "-" ++ NtoS (end_column span)
        else if (begin_line span <? end_line span)%N
        then str ".." ++ NtoS (end_line span) ++ str ":" ++ NtoS (end_column span)
        else []).

(** The text behind the next newline, and the one before it. *)
Fixpoint after_newline (text : bytes) : option bytes :=
  match text with
  | [] => None
  | c :: text' => if bool_decide (c = x0a) then Some text' else after_newline text'
  end.
Fixpoint up_to_newline (text : bytes) : bytes :=
  match text with
  | [] => []
  | c :: text' => if bool_decide (c = x0a) then [] else c :: up_to_newline text'
  end.
Fixpoint skip_lines (n : nat) (text : bytes) : option bytes :=
  match n with
  | O => Some text
  | S n' => match after_newline text with Some rest => skip_lines n' rest | None => None end
  end.

Definition sspan_line_text (sql : bytes) (line : N) : bytes :=
  if (line =? 0)%N then []
  else match skip_lines (N.to_nat (line - 1)) sql with Some rest => up_to_newline rest | None => [] end.

Definition sspan_caret (sql : bytes) (span : SSpan) (label : bytes) (colors : bool) : bytes :=
  if negb (sspan_valid span) then []
  else
    let line_text := sspan_line_text sql (begin_line span) in
    if bool_decide (line_text = []) && negb (begin_line span =? 1)%N then []
    else
      let begin := if (0 <? begin_column span)%N then N.to_nat (begin_column span - 1) else 0%nat in
      let width := match N.to_nat (sspan_width span) with O => 1%nat | w => w end in
      let line_len := length line_text in
      let hl_begin := if (begin <=? line_len)%nat then begin else line_len in
      let hl_end := if (hl_begin + width <=? line_len)%nat then (hl_begin + width)%nat else line_len in
      let where_ := sspan_to_string span in
      paint (str "  ") kDim colors ++
      take hl_begin line_text ++ paint (take (hl_end - hl_begin) (drop hl_begin line_text)) kErrorSpan colors ++
      drop hl_end line_text ++ [x0a] ++ str "  " ++ replicate begin " "%byte ++
      paint (replicate width "^"%byte) kErrorSpan colors ++
      (match label with [] => [] | _ => str " " ++ paint label kRed colors end) ++
      (match where_ with [] => [] | _ => paint (str " (" ++ where_ ++ str ")") kDim colors end).

(** ** [statement/source_span.cpp]: the names of a tree *)

Record NamedSpan := mkNamedSpan { ns_name : Identifier; ns_span : SSpan }.

(** The text a [char *] points at, NULL as the empty one. *)
Definition c_string (p : ptr) : Heaped bytes := fun h =>
  match p with
  | None => Ok ([], h)
  | Some a => match h_cells h !! a with
              | Some (CText t) => Ok (t, h)
              | _ => Err DanglingPointer
              end
  end.
Definition name_field (node : ptr) (f : NodeData -> option ptr) : Heaped Identifier :=
  p ← read_field node f; t ← c_string p; mret (identifier t).

(** One entry: the name in a field, at the node's own position. *)
Definition named_here (node : ptr) (f : NodeData -> option ptr) : Heaped (list NamedSpan) :=
  name ← name_field node f;
  n ← read_node node;
  mret [mkNamedSpan name (n_span n)].

Definition collect_item (item : ptr) : Heaped (list NamedSpan) :=
  n ← read_node item;
  match n_type n with
  | NODE_IDENT => named_here item (fun d => id_name <$> as_ident d)
  | NODE_ORDER => named_here item (fun d => or_column <$> as_order d)
  | NODE_ASSIGNMENT => named_here item (fun d => as_column <$> as_assignment d)
  | NODE_COLUMN_DEF => named_here item (fun d => cd_name <$> as_column_def d)
  | _ => mret []
  end.

Fixpoint collect_items (fuel : nat) (item : ptr) : Heaped (list NamedSpan) :=
  match fuel with
  | O => fault OutOfFuel
  | S fuel' =>
      match item with
      | None => mret []
      | Some _ =>
          here ← collect_item item;
          n ← read_node item;
          rest ← collect_items fuel' (n_next n);
          mret (here ++ rest)
      end
  end.

Definition collect_from_list (fuel : nat) (list_node : ptr) : Heaped (list NamedSpan) :=
  match list_node with
  | None => mret []
  | Some _ =>
      n ← read_node list_node;
      match n_type n with
      | NODE_LIST =>
          head ← read_field list_node (fun d => al_head <$> as_node_list d);
          collect_items fuel head
      | _ => mret []
      end
  end.

Fixpoint collect_from_condition (fuel : nat) (node : ptr) : Heaped (list NamedSpan) :=
  match fuel with
  | O => fault OutOfFuel
  | S fuel' =>
      match node with
      | None => mret []
      | Some _ =>
          n ← read_node node;
          match n_type n with
          | NODE_COMPARE => named_here node (fun d => co_column <$> as_compare d)
          | NODE_IN | NODE_NOT_IN => named_here node (fun d => inn_column <$> as_in d)
          | NODE_BINARY_OP =>
              l ← read_field node (fun d => bi_left <$> as_binary d);
              here ← collect_from_condition fuel' l;
              r ← read_field node (fun d => bi_right <$> as_binary d);
              rest ← collect_from_condition fuel' r;
              mret (here ++ rest)
          | NODE_NOT =>
              child ← read_field node (fun d => no_child <$> as_not d);
              collect_from_condition fuel' child
          | _ => mret []
          end
      end
  end.

(** The name of a table or database, at the position recorded for it. *)
Definition named_at (node : ptr) (f : NodeData -> option ptr) (at_ : NodeData -> option SSpan) : Heaped (list NamedSpan) :=
  name ← name_field node f;
  span ← read_field node at_;
  mret [mkNamedSpan name span].
Definition from_list (fuel : nat) (node : ptr) (f : NodeData -> option ptr) : Heaped (list NamedSpan) :=
  p ← read_field node f; collect_from_list fuel p.
Definition from_condition (fuel : nat) (node : ptr) (f : NodeData -> option ptr) : Heaped (list NamedSpan) :=
  p ← read_field node f; collect_from_condition fuel p.

Fixpoint in_order (ms : list (Heaped (list NamedSpan))) : Heaped (list NamedSpan) :=
  match ms with
  | [] => mret []
  | m :: ms' => x ← m; y ← in_order ms'; mret (x ++ y)
  end.

Fixpoint collect_from_statement (fuel : nat) (ast : ptr) : Heaped (list NamedSpan) :=
  match fuel with
  | O => fault OutOfFuel
  | S fuel' =>
      match ast with
      | None => mret []
      | Some _ =>
          n ← read_node ast;
          match n_type n with
          | NODE_SELECT => in_order
              [named_at ast (fun d => se_table <$> as_select d) (fun d => se_table_span <$> as_select d);
               from_list fuel' ast (fun d => se_columns <$> as_select d);
               from_condition fuel' ast (fun d => se_condition <$> as_select d);
               from_list fuel' ast (fun d => se_order_by <$> as_select d)]
          | NODE_INSERT => in_order
              [named_at ast (fun d => in_table <$> as_insert d) (fun d => in_table_span <$> as_insert d);
               from_list fuel' ast (fun d => in_columns <$> as_insert d)]
          | NODE_UPDATE => in_order
              [named_at ast (fun d => up_table <$> as_update d) (fun d => up_table_span <$> as_update d);
               from_list fuel' ast (fun d => up_assignments <$> as_update d);
               from_condition fuel' ast (fun d => up_condition <$> as_update d)]
          | NODE_DELETE => in_order
              [named_at ast (fun d => de_table <$> as_delete d) (fun d => de_table_span <$> as_delete d);
               from_condition fuel' ast (fun d => de_condition <$> as_delete d)]
          | NODE_CREATE_TABLE => in_order
              [named_at ast (fun d => ct_table_name <$> as_create_table d) (fun d => ct_table_span <$> as_create_table d);
               from_list fuel' ast (fun d => ct_columns <$> as_create_table d)]
          | NODE_DROP_TABLE =>
              named_at ast (fun d => dt_table_name <$> as_drop_table d) (fun d => dt_table_span <$> as_drop_table d)
          | NODE_USE | NODE_CREATE_DATABASE | NODE_DROP_DATABASE =>
              named_at ast (fun d => db_name <$> as_database d) (fun d => db_span <$> as_database d)
          | NODE_EXPLAIN =>
              statement ← read_field ast (fun d => ex_statement <$> as_explain d);
              collect_from_statement fuel' statement
          | _ => mret []
          end
      end
  end.

Definition collect_source_spans (fuel : nat) (ast : ptr) : Heaped (list NamedSpan) := collect_from_statement fuel ast.

(** The resolver over the collected entries: the first of that name, case ignored. *)
Fixpoint resolve_span (spans : list NamedSpan) (name : Identifier) : SSpan :=
  match spans with
  | [] => sspan_unknown
  | e :: spans' =>
      if negb (ident_empty (ns_name e)) && ident_eqb (ns_name e) name then ns_span e
      else resolve_span spans' name
  end.

(** ** [statement/sql_highlight.cpp] *)

(** The token numbers of the generated grammar that have a colour of their own. *)
Record TokenKinds := mkTokenKinds {
  TOK_NUMBER : Z; TOK_STRING : Z; TOK_TYPE_NAME : Z; TOK_NULL : Z; TOK_TRUE : Z; TOK_FALSE : Z;
  TOK_LEX_ERROR : Z; TOK_IDENT : Z; TOK_EQ : Z; TOK_NE : Z; TOK_GT : Z; TOK_GE : Z; TOK_LT : Z; TOK_LE : Z }.

(** [struct LexToken]. *)
Record LexToken := mkLexToken { lt_kind : Z; lt_span : SSpan; lt_offset : nat; lt_length : nat }.

Definition kFirstTokenKind : Z := 258.

(** [string_view::substr], which throws ([None]) behind the end. *)
Definition substr (text : bytes) (pos count : nat) : option bytes :=
  if (pos <=? length text)%nat then Some (take count (drop pos text)) else None.

Section Highlight.
Context (tk : TokenKinds) (lex_collect_tokens : bytes -> option (list LexToken)).

Definition color_for (kind : Z) : bytes :=
  if kind =? TOK_NUMBER tk then kYellow
  else if kind =? TOK_STRING tk then kGreen
  else if kind =? TOK_TYPE_NAME tk then kCyan
  else if (kind =? TOK_NULL tk) || (kind =? TOK_TRUE tk) || (kind =? TOK_FALSE tk) then kMagenta
  else if kind =? TOK_LEX_ERROR tk then kErrorSpan
  else if kind =? TOK_IDENT tk then []
  else if (kind =? TOK_EQ tk) || (kind =? TOK_NE tk) || (kind =? TOK_GT tk) || (kind =? TOK_GE tk) ||
          (kind =? TOK_LT tk) || (kind =? TOK_LE tk) then kBold
  else if kFirstTokenKind <=? kind then kKeyword
  else [].

Fixpoint highlight_tokens (sql : bytes) (colors : bool) (cursor : nat) (tokens : list LexToken) : option bytes :=
  match tokens with
  | [] => if (cursor <? length sql)%nat then substr sql cursor (length sql) else Some []
  | token :: tokens' =>
      gap ← (if (cursor <? lt_offset token)%nat then substr sql cursor (lt_offset token - cursor) else Some []);
      piece ← substr sql (lt_offset token) (lt_length token);
      rest ← highlight_tokens sql colors (lt_offset token + lt_length token) tokens';
      Some (gap ++ paint piece (color_for (lt_kind token)) colors ++ rest)
  end.

Definition highlight_sql (sql : bytes) (colors : bool) : option bytes :=
  match sql with
  | [] => Some []
  | _ => match lex_collect_tokens (c_text sql) with
         | None | Some [] => Some sql
         | Some tokens => highlight_tokens sql colors 0 tokens
         end
  end.

(** The start of line [n], counted from the start of the text. *)
Fixpoint line_start (n : nat) (text : bytes) (base : nat) : option nat :=
  match n with
  | O => Some base
  | S n' => match after_newline text with
            | Some rest => line_start n' rest (base + (length text - length rest))%nat
            | None => None
            end
  end.

Definition highlight_span (sql : bytes) (span : SSpan) (colors : bool) : bytes :=
  if negb (sspan_valid span) then sql
  else
    match line_start (N.to_nat (begin_line span - 1)) sql 0 with
    | None => sql
    | Some line_begin =>
        let begin := (line_begin + (if (0 <? begin_column span)%N then N.to_nat (begin_column span - 1) else 0))%nat in
        let end_ := if (end_line span =? begin_line span)%N && (begin_column span <? end_column span)%N
                    then (line_begin + N.to_nat (end_column span) - 1)%nat else begin in
        if (length sql <? begin)%nat || (length sql <? end_)%nat || (end_ <? begin)%nat then sql
        else take begin sql ++ paint (take (end_ - begin) (drop begin sql)) kErrorSpan colors ++ drop end_ sql
    end.

(** ** Colours do not change the text *)

(** What a terminal shows: escape sequences, from ESC to [m], are not printed. *)
Fixpoint visible (inside : bool) (text : bytes) : bytes :=
  match text with
  | [] => []
  | c :: text' =>
      if inside then visible (negb (bool_decide (c = "m"%byte))) text'
      else if bool_decide (c = x1b) then visible true text'
      else c :: visible false text'
  end.

(** The lexer's contract: tokens in order, apart, inside the text. *)
Fixpoint lexed (size cursor : nat) (tokens : list LexToken) : Prop :=
  match tokens with
  | [] => (cursor <= size)%nat
  | t :: tokens' => (cursor <= lt_offset t)%nat /\ lexed size (lt_offset t + lt_length t) tokens'
  end.

Lemma visible_plain text rest : x1b ∉ text -> visible false (text ++ rest) = text ++ visible false rest.
Proof.
  induction text as [|c text IH]; intros H; [done|]. cbn. rewrite bool_decide_eq_false_2 by (intros ->; apply H; left).
  f_equal. apply IH. intros ?. apply H. by right.
Qed.

(** Everything the painters use as a colour. *)
Definition invisible (code : bytes) : Prop := forall rest, visible false (code ++ rest) = visible false rest.

Lemma visible_paint text code enabled rest : invisible code -> x1b ∉ text ->
  visible false (paint text code enabled ++ rest) = text ++ visible false rest.
Proof.
  intros Hc Ht. unfold paint. destruct code as [|b code]; [by apply visible_plain|].
  destruct enabled; [|by apply visible_plain]. rewrite <- !app_assoc, Hc, visible_plain by done. done.
Qed.

Lemma color_invisible kind : invisible (color_for kind).
Proof. unfold color_for. repeat case_match; intros rest; reflexivity. Qed.

Lemma lexed_le size tokens : forall cursor, lexed size cursor tokens -> (cursor <= size)%nat.
Proof. induction tokens as [|t tokens IH]; intros cursor H; cbn in H; [done|]. destruct H as [H1 H2]. apply IH in H2. lia. Qed.

(** A view of the output under which plain text stays and painted text is its
    text: what a terminal shows, and the output itself when nothing is painted. *)
Definition sees (colors : bool) (P : bytes -> Prop) (view : bytes -> bytes) : Prop :=
  view [] = [] /\ (forall text rest, P text -> view (text ++ rest) = text ++ view rest) /\
  (forall text code rest, P text -> invisible code -> view (paint text code colors ++ rest) = text ++ view rest).

Lemma sees_visible colors : sees colors (fun text => x1b ∉ text) (visible false).
Proof. split; [done|]. split; [intros; by apply visible_plain|intros; by apply visible_paint]. Qed.
Lemma sees_plain : sees false (fun _ => True) id.
Proof. split; [done|]. split; [done|]. intros text [] rest _ _; done. Qed.

Section Sees.
Context (colors : bool) (P : bytes -> Prop) (view : bytes -> bytes) (sql : bytes).
Hypothesis Hview : sees colors P view.
Hypothesis Hparts : forall n m, P (take n (drop m sql)).

Lemma view_part n m : view (take n (drop m sql)) = take n (drop m sql).
Proof. destruct Hview as (H0 & H1 & _). rewrite <- (app_nil_r (take _ _)), H1, H0; [done|apply Hparts]. Qed.

Lemma highlight_tokens_view tokens : forall cursor, lexed (length sql) cursor tokens ->
  exists out, highlight_tokens sql colors cursor tokens = Some out /\ view out = drop cursor sql.
Proof.
  destruct Hview as (H0 & H1 & H2). induction tokens as [|t tokens IH]; intros cursor H; cbn [highlight_tokens].
  - cbn in H. unfold substr. destruct (Nat.ltb_spec cursor (length sql)) as [Hlt|Hge].
    + rewrite (proj2 (Nat.leb_le cursor (length sql))) by lia. eexists. split; [done|]. rewrite view_part.
      apply take_ge. rewrite length_drop. lia.
    + exists []. split; [done|]. by rewrite drop_ge by lia.
  - destruct H as [Hle H]. pose proof (lexed_le _ _ _ H) as Hend. destruct (IH _ H) as (rest & Hrest & Hvis).
    assert (Hpiece : substr sql (lt_offset t) (lt_length t) = Some (take (lt_length t) (drop (lt_offset t) sql))).
    { unfold substr. by rewrite (proj2 (Nat.leb_le (lt_offset t) (length sql))) by lia. }
    assert (Hgap : (if (cursor <? lt_offset t)%nat then substr sql cursor (lt_offset t - cursor) else Some []) =
      Some (take (lt_offset t - cursor) (drop cursor sql))).
    { destruct (Nat.ltb_spec cursor (lt_offset t)) as [Hlt|Hge].
      - unfold substr. by rewrite (proj2 (Nat.leb_le cursor (length sql))) by lia.
      - by replace (lt_offset t - cursor)%nat with 0%nat by lia. }
    rewrite Hgap, Hpiece, Hrest. cbn [mbind option_bind]. eexists. split; [done|].
    rewrite H1, H2, Hvis, <- drop_drop, take_drop by (apply Hparts || apply color_invisible).
    replace (drop (lt_offset t) sql) with (drop (lt_offset t - cursor) (drop cursor sql)) by (rewrite drop_drop; f_equal; lia).
    apply take_drop.
Qed.

Lemma highlight_span_view span : view (highlight_span sql span colors) = sql.
Proof.
  destruct Hview as (H0 & H1 & H2).
  assert (Hall : view sql = sql) by (pose proof (view_part (length sql) 0) as H; by rewrite drop_0, take_ge in H).
  unfold highlight_span. destruct (negb _); [done|]. destruct (line_start _ _ _) as [lb|]; [|done]. cbv zeta.
  match goal with |- context [(length sql <? ?b)%nat || _ || _] => generalize b; intros begin end.
  match goal with |- context [(_ || (length sql <? ?e)%nat || _)] => generalize e; intros end_ end.
  destruct ((length sql <? begin)%nat || (length sql <? end_)%nat || (end_ <? begin)%nat) eqn:Eb; [done|]. boolify.
  rewrite <- (drop_0 sql) at 1. rewrite H1, H2 by (apply Hparts || (intros rest; reflexivity)). rewrite drop_0.
  assert (He : view (drop end_ sql) = drop (end_ - begin) (drop begin sql)).
  { rewrite drop_drop. replace (begin + (end_ - begin))%nat with end_ by lia. pose proof (view_part (length sql) end_) as Hv.
    by rewrite take_ge in Hv by (rewrite length_drop; lia). }
  rewrite He, take_drop. apply take_drop.
Qed.
End Sees.

Lemma lexed_mono size size' tokens : (size <= size')%nat -> forall cursor, lexed size cursor tokens -> lexed size' cursor tokens.
Proof. intros Hle. induction tokens as [|t tokens IH]; intros cursor H; cbn in *; [lia|]. destruct H. split; [done|by apply IH]. Qed.
Lemma c_text_le text : (length (c_text text) <= length text)%nat.
Proof. induction text as [|c text IH]; cbn; [lia|]. case_bool_decide; cbn; lia. Qed.

(** Colouring a statement or an error in it changes nothing but the colours: with
    colours off the text comes out byte for byte, with colours on a terminal shows
    it. The lexer reports tokens in order, apart and inside the text. *)
Theorem highlight_transparent (sql : bytes) (span : SSpan) :
  (forall text tokens, lex_collect_tokens text = Some tokens -> lexed (length text) 0 tokens) ->
  highlight_sql sql false = Some sql /\ highlight_span sql span false = sql /\
  (x1b ∉ sql -> (exists out, highlight_sql sql true = Some out /\ visible false out = sql) /\
                visible false (highlight_span sql span true) = sql).
Proof.
  intros Hlex.
  assert (Hrun : forall colors P view, sees colors P view -> (forall n m, P (take n (drop m sql))) ->
    exists out, highlight_sql sql colors = Some out /\ view out = sql).
  { intros colors P view Hview Hparts. unfold highlight_sql. destruct sql as [|b sql'] eqn:Es; [exists []; by destruct Hview|]. rewrite <- Es in *.
    assert (Hall : view sql = sql) by (pose proof (view_part colors P view sql Hview Hparts (length sql) 0) as H; by rewrite drop_0, take_ge in H).
    destruct (lex_collect_tokens (c_text sql)) as [[|t tokens]|] eqn:Et; try by exists sql.
    apply (highlight_tokens_view colors P view sql Hview Hparts). apply (lexed_mono (length (c_text sql))); [apply c_text_le|by apply Hlex]. }
  split; [|split; [|intros Hesc; split]].
  - destruct (Hrun false _ _ sees_plain) as (out & -> & <-); done.
  - by apply (highlight_span_view false _ id sql sees_plain).
  - apply (Hrun true _ _ (sees_visible true)). intros n m Hin. apply Hesc. eapply subseteq_drop, subseteq_take, Hin.
  - apply (highlight_span_view true _ (visible false) sql (sees_visible true)). intros n m Hin. apply Hesc. eapply subseteq_drop, subseteq_take, Hin.
Qed.

End Highlight.

(** ** The collected names are those of the statement *)

Definition text_of (t : option (positive * bytes)) : bytes := match t with Some (_, s) => s | None => [] end.
Definition first_name (ts : list (option (positive * bytes))) (span : SSpan) : list NamedSpan :=
  match ts with t :: _ => [mkNamedSpan (identifier (text_of t)) span] | [] => [] end.
Definition names_of {A} (f : A -> list NamedSpan) (k : option A) : list NamedSpan :=
  match k with Some x => f x | None => [] end.

(** The name an element of a list carries. *)
Definition item_names (l : Layout) : list NamedSpan :=
  let 'Lay _ n ts _ _ := l in
  match n_data n with
  | DIdent _ | DOrder _ | DAssignment _ | DColumnDef _ => first_name ts (n_span n)
  | _ => []
  end.
Definition list_names (l : Layout) : list NamedSpan :=
  match n_data (lay_node l) with DList _ => concat (map item_names (lay_items l)) | _ => [] end.

(** The columns of a condition, from left to right. *)
Fixpoint condition_names (l : Layout) : list NamedSpan :=
  let 'Lay _ n ts ks _ := l in
  match n_data n, ks with
  | DCompare _, _ | DIn _, _ => first_name ts (n_span n)
  | DBinaryOp _, [l'; r] => names_of condition_names l' ++ names_of condition_names r
  | DNot _, [child] => names_of condition_names child
  | _, _ => []
  end.

(** The table or database first, then columns, condition and order. *)
Fixpoint statement_names (l : Layout) : list NamedSpan :=
  let 'Lay _ n ts ks _ := l in
  match n_data n, ks with
  | DSelect d, [columns; condition; order_by; _] =>
      first_name ts (se_table_span d) ++ names_of list_names columns ++ names_of condition_names condition ++
      names_of list_names order_by
  | DInsert d, [columns; _] => first_name ts (in_table_span d) ++ names_of list_names columns
  | DUpdate d, [assignments; condition] =>
      first_name ts (up_table_span d) ++ names_of list_names assignments ++ names_of condition_names condition
  | DDelete d, [condition] => first_name ts (de_table_span d) ++ names_of condition_names condition
  | DCreateTable d, [columns] => first_name ts (ct_table_span d) ++ names_of list_names columns
  | DDropTable d, _ => first_name ts (dt_table_span d)
  | DDatabase d, _ => first_name ts (db_span d)
  | DExplain _, [statement] => names_of statement_names statement
  | _, _ => []
  end.

Section Collect.
Context (h : Heap).
Definition reads_as {A} (m : Heaped A) (x : A) : Prop := m h = Ok (x, h).

Lemma yields_bind {A B} (m : Heaped A) (k : A -> Heaped B) x y : reads_as m x -> reads_as (k x) y -> reads_as (m ≫= k) y.
Proof. unfold reads_as, mbind, heaped_bind. intros ->. done. Qed.
Lemma yields_ret {A} (x : A) : reads_as (mret x) x.
Proof. done. Qed.
Lemma yields_cons (m : Heaped (list NamedSpan)) ms x y : reads_as m x -> reads_as (in_order ms) y -> reads_as (in_order (m :: ms)) (x ++ y).
Proof. intros Hm Hms. cbn. eapply yields_bind; [done|]. by eapply yields_bind. Qed.
Lemma yields_last (m : Heaped (list NamedSpan)) x : reads_as m x -> reads_as (in_order [m]) x.
Proof. intros Hm. rewrite <- (app_nil_r x). by apply yields_cons. Qed.

(** The cell of a laid node, its first text and its children. *)
Context (a : positive) (n : AstNode) (ts : list (option (positive * bytes))) (ks : list (option Layout)) (its : list Layout).
Hypothesis Hl : laid (h_cells h) (Lay a n ts ks its).

Lemma laid_read : reads_as (read_node (Some a)) n.
Proof. pose proof Hl as E. apply laid_eq in E as ((Ha & _) & _). unfold reads_as. by apply read_live. Qed.
Lemma laid_field {A} (f : NodeData -> option A) x : f (n_data n) = Some x -> reads_as (read_field (Some a) f) x.
Proof. intros Hf. eapply yields_bind; [apply laid_read|]. by rewrite Hf. Qed.
Lemma laid_name f t ts' : ts = t :: ts' -> f (n_data n) = Some (fst <$> t) -> reads_as (name_field (Some a) f) (identifier (text_of t)).
Proof.
  intros Et Hf. eapply yields_bind; [by apply laid_field|]. eapply yields_bind; [|done].
  pose proof Hl as E. apply laid_eq in E as ((_ & _ & _ & Hts & _) & _). destruct t as [s|]; [|done].
  unfold reads_as, c_string. cbn -[lookup]. rewrite (Hts s ltac:(rewrite Et; by left)). by destruct s.
Qed.
Lemma laid_here f t ts' : ts = t :: ts' -> f (n_data n) = Some (fst <$> t) ->
  reads_as (named_here (Some a) f) (first_name ts (n_span n)).
Proof.
  intros Et Hf. eapply yields_bind; [by eapply laid_name|]. eapply yields_bind; [apply laid_read|]. by rewrite Et.
Qed.
Lemma laid_at f g t ts' span : ts = t :: ts' -> f (n_data n) = Some (fst <$> t) -> g (n_data n) = Some span ->
  reads_as (named_at (Some a) f g) (first_name ts span).
Proof.
  intros Et Hf Hg. eapply yields_bind; [by eapply laid_name|]. eapply yields_bind; [by apply laid_field|]. by rewrite Et.
Qed.
End Collect.

Lemma collect_item_run h i : laid (h_cells h) i -> reads_as h (collect_item (Some (lay_addr i))) (item_names i).
Proof.
  destruct i as [a [type next span d] ts ks its]. intros Hl. eapply yields_bind; [by apply (laid_read _ _ _ _ _ _ Hl)|].
  pose proof Hl as E. apply laid_eq in E as ((_ & Hh & Ht & _) & _). cbn [n_type n_data lay_addr item_names] in *.
  destruct type, d; try discriminate Hh; try done; cbn in Ht; destruct ts as [|t ts]; try discriminate Ht; injection Ht as Ht;
    (eapply (laid_here _ _ _ _ _ _ Hl); [done|cbn; by rewrite Ht]).
Qed.

Lemma collect_items_run h its : forall fuel p, linked p its -> Forall (laid (h_cells h)) its -> (length its < fuel)%nat ->
  reads_as h (collect_items fuel p) (concat (map item_names its)).
Proof.
  induction its as [|i its IH]; intros [|fuel] p Hc Hl Hf; try (cbn in Hf; lia); cbn in Hc; [by subst|].
  destruct Hc as [-> Hc]. apply Forall_cons in Hl as [Hi Hl]. cbn [collect_items map concat].
  eapply yields_bind; [by apply collect_item_run|]. eapply (yields_bind h _ _ (lay_node i)).
  - destruct i. by eapply laid_read.
  - eapply yields_bind; [|done]. apply IH; [done|done|cbn in Hf; lia].
Qed.

Lemma collect_from_list_run h k fuel : (forall l, k = Some l -> laid (h_cells h) l /\ (length (addrs l) <= fuel)%nat) ->
  reads_as h (collect_from_list fuel (lay_addr <$> k)) (names_of list_names k).
Proof.
  intros Hk. destruct k as [l|]; [|done]. destruct (Hk l eq_refl) as [Hl Hf]. destruct l as [a [type next span d] ts ks its].
  eapply yields_bind; [by apply (laid_read _ _ _ _ _ _ Hl)|].
  pose proof Hl as E. apply laid_eq in E as ((_ & Hh & _ & _ & _ & Hc & _) & _ & Hits). cbn [n_type n_data] in *.
  destruct type, d; try discriminate Hh; try done.
  eapply yields_bind; [by eapply (laid_field _ _ _ _ _ _ Hl)|]. apply collect_items_run; [done|done|].
  rewrite addrs_eq in Hf. cbn [length] in Hf. rewrite !length_app in Hf.
  pose proof (items_le_addrs its). cbn [lay_items]. lia.
Qed.

(** The children of a laid node are laid and smaller. *)
Lemma laid_child h a n ts ks its l : laid (h_cells h) (Lay a n ts ks its) -> In (Some l) ks ->
  laid (h_cells h) l /\ (length (addrs l) < length (addrs (Lay a n ts ks its)))%nat.
Proof.
  intros Hl Hin. apply laid_eq in Hl as (_ & Hks & _). rewrite Forall_forall in Hks.
  assert (Hp : l ∈ present ks) by (apply list_elem_of_omap; exists (Some l); split; [by apply list_elem_of_In|done]).
  split; [by apply Hks|]. rewrite addrs_eq. cbn [length]. rewrite !length_app.
  apply list_elem_of_In, in_split in Hp as (l1 & l2 & ->). rewrite addrs_all_app, addrs_all_cons, !length_app. lia.
Qed.

Lemma collect_from_condition_run h fuel : forall k, (forall l, k = Some l -> laid (h_cells h) l /\ (length (addrs l) < fuel)%nat) ->
  (0 < fuel)%nat -> reads_as h (collect_from_condition fuel (lay_addr <$> k)) (names_of condition_names k).
Proof.
  induction fuel as [|fuel IH]; intros k Hk Hf; [lia|]. destruct k as [l|]; [|done].
  destruct (Hk l eq_refl) as [Hl Hlen]. destruct l as [a [type next span d] ts ks its].
  eapply yields_bind; [by apply (laid_read _ _ _ _ _ _ Hl)|].
  assert (Hsub : forall k, In k ks -> reads_as h (collect_from_condition fuel (lay_addr <$> k)) (names_of condition_names k)).
  { intros k' Hin. apply IH; [|rewrite addrs_eq in Hlen; cbn in Hlen; lia]. intros l ->.
    destruct (laid_child _ _ _ _ _ _ _ Hl Hin). split; [done|lia]. }
  pose proof Hl as E. apply laid_eq in E as ((_ & Hh & Ht & _ & Hc & _) & _). cbn [n_type n_data] in *.
  destruct type, d; try discriminate Hh; try done; cbn in Ht, Hc;
    repeat match goal with
    | H : [] = map _ ?l |- _ => destruct l; [clear H|discriminate H]
    | H : _ :: _ = map _ ?l |- _ => destruct l; [discriminate H|injection H; clear H; intros H ?]
    end.
  all: cbn [statement_names condition_names names_of n_data n_span].
  all: try (eapply (laid_here _ _ _ _ _ _ Hl); [done|match goal with H : _ = fmap fst _ |- _ => by rewrite <- H end]).
  all: eapply yields_bind; [eapply (laid_field _ _ _ _ _ _ Hl); cbn; reflexivity|].
  all: match goal with H : _ = fmap lay_addr ?o |- context [names_of _ ?o] => rewrite H end.
  - eapply yields_bind; [by apply Hsub; left|].
    eapply yields_bind; [eapply (laid_field _ _ _ _ _ _ Hl); cbn; reflexivity|].
    match goal with H : bi_right _ = _ |- _ => rewrite H end. eapply yields_bind; [by apply Hsub; right; left|done].
  - by apply Hsub; left.
Qed.

Section Parts.
Context (h : Heap) (a : positive) (n : AstNode) (ts : list (option (positive * bytes))) (ks : list (option Layout)) (its : list Layout).
Hypothesis Hl : laid (h_cells h) (Lay a n ts ks its).
Context (fuel : nat) (f : NodeData -> option ptr) (k : option Layout).
Hypothesis Hf : f (n_data n) = Some (lay_addr <$> k).
Hypothesis Hk : forall l, k = Some l -> laid (h_cells h) l /\ (length (addrs l) < fuel)%nat.

Lemma from_list_run : reads_as h (from_list fuel (Some a) f) (names_of list_names k).
Proof.
  eapply yields_bind; [by eapply (laid_field _ _ _ _ _ _ Hl)|]. apply collect_from_list_run.
  intros l E. destruct (Hk l E). split; [done|lia].
Qed.
Lemma from_condition_run : (0 < fuel)%nat -> reads_as h (from_condition fuel (Some a) f) (names_of condition_names k).
Proof. intros. eapply yields_bind; [by eapply (laid_field _ _ _ _ _ _ Hl)|]. by apply collect_from_condition_run. Qed.
End Parts.

(** The table, columns, conditions and order of a statement, in this order: no dead
    pointer is followed, and the heap stays. *)
Theorem collect_exact (h : Heap) (l : Layout) (fuel : nat) : laid (h_cells h) l -> (length (addrs l) < fuel)%nat ->
  collect_source_spans fuel (Some (lay_addr l)) h = Ok (statement_names l, h).
Proof.
  intros Hl Hf. change (reads_as h (collect_from_statement fuel (Some (lay_addr l))) (statement_names l)).
  revert l Hl Hf. induction fuel as [|fuel IH]; intros l Hl Hf; [lia|]. destruct l as [a [type next span d] ts ks its].
  eapply yields_bind; [by apply (laid_read _ _ _ _ _ _ Hl)|].
  assert (Hsub : forall k l, In k ks -> k = Some l -> laid (h_cells h) l /\ (length (addrs l) < fuel)%nat).
  { intros k l Hin ->. destruct (laid_child _ _ _ _ _ _ _ Hl Hin). split; [done|lia]. }
  assert (Hpos : (0 < fuel)%nat) by (rewrite addrs_eq in Hf; cbn in Hf; lia).
  pose proof Hl as E. apply laid_eq in E as ((_ & Hh & Ht & _ & Hc & _) & _). cbn [n_type n_data] in *.
  destruct type, d; try discriminate Hh; try done; cbn in Ht, Hc;
    repeat match goal with
    | H : [] = map _ ?l |- _ => destruct l; [clear H|discriminate H]
    | H : _ :: _ = map _ ?l |- _ => destruct l; [discriminate H|injection H; clear H; intros H ?]
    end.
  all: cbn [statement_names n_data].
  all: repeat first [apply yields_last|apply yields_cons].
  all: try (eapply (laid_at _ _ _ _ _ _ Hl); [done|match goal with H : _ = fmap fst _ |- _ => by rewrite <- H end|done]).
  all: try (eapply (from_list_run _ _ _ _ _ _ Hl);
    [match goal with H : _ = fmap lay_addr ?k |- _ = Some (fmap lay_addr ?k) => by rewrite <- H end|intros ? E; eapply Hsub; [|exact E]; cbn; tauto]).
  all: try (eapply (from_condition_run _ _ _ _ _ _ Hl);
    [match goal with H : _ = fmap lay_addr ?k |- _ = Some (fmap lay_addr ?k) => by rewrite <- H end|intros ? E; eapply Hsub; [|exact E]; cbn; tauto|done]).
  eapply yields_bind; [eapply (laid_field _ _ _ _ _ _ Hl); cbn; reflexivity|].
  match goal with H : _ = fmap lay_addr ?o |- _ => rewrite H; destruct o as [k|] end.
  - apply IH; eapply Hsub; [by left|done|by left|done].
  - by destruct fuel; [lia|].
Qed.

(** ** Scripts: [client/repl.cpp]

    A script is cut into meta commands and statements, each statement with the
    line and column it starts at, so that an error position inside the statement
    becomes one of the script. Texts are shorter than [2^32] bytes. *)

Record Statement := mkStatement { st_text : bytes; st_line : N; st_column : N }.

(** The state of the loop of [split_statements]; texts are kept reversed. *)
Record Splitting := mkSplitting {
  sp_done : list Statement; sp_current : bytes; sp_line : N; sp_column : N;
  sp_start_line : N; sp_start_column : N; sp_quote : option byte }.

Definition push_statement (s : Splitting) : list Statement :=
  match sp_current s with
  | [] => sp_done s
  | _ => mkStatement (rev (sp_current s)) (sp_start_line s) (sp_start_column s) :: sp_done s
  end.

Definition split_char (s : Splitting) (c : byte) : Splitting :=
  let fresh := bool_decide (sp_current s = []) && negb (bool_decide (c = ";"%byte)) in
  let start_line := if fresh then sp_line s else sp_start_line s in
  let start_column := if fresh then sp_column s else sp_start_column s in
  let line := if bool_decide (c = x0a) then (sp_line s + 1)%N else sp_line s in
  let column := if bool_decide (c = x0a) then 1%N else (sp_column s + 1)%N in
  let push quote := mkSplitting (sp_done s) (c :: sp_current s) line column start_line start_column quote in
  match sp_quote s with
  | Some q => push (if bool_decide (c = q) then None else Some q)
  | None =>
      if bool_decide (c = "'"%byte) || bool_decide (c = x22) then push (Some c)
      else if bool_decide (c = ";"%byte)
      then mkSplitting (push_statement (mkSplitting (sp_done s) (sp_current s) line column start_line start_column None)) [] line column line column None
      else push None
  end.

Definition split_start : Splitting := mkSplitting [] [] 1 1 1 1 None.
Definition split_statements (text : bytes) : list Statement := rev (push_statement (fold_left split_char text split_start)).

(** A position inside a statement as one of the text it stands in. *)
Definition to_absolute (span : SSpan) (s : Statement) : SSpan :=
  if negb (sspan_valid span) then span
  else mkSSpan (begin_line span + (st_line s - 1))
         (if (begin_line span =? 1)%N then begin_column span + (st_column s - 1) else begin_column span)
         (end_line span + (st_line s - 1))
         (if (end_line span =? 1)%N then end_column span + (st_column s - 1) else end_column span).

Definition is_exit_command (line : bytes) : bool :=
  existsb (bytes_eqb line) [str "exit"; str "quit"; str "\q"; str "EXIT"; str "QUIT"].

(** [std::isspace] of the "C" locale. *)
Definition c_isspace (c : byte) : bool := bool_decide (c ∈ [" "%byte; x09; x0a; x0b; x0c; x0d]).
Fixpoint skip_space (line : bytes) : bytes :=
  match line with
  | [] => []
  | c :: line' => if c_isspace c then skip_space line' else line
  end.
Definition is_meta_command (line : bytes) : bool :=
  match skip_space line with c :: _ => bool_decide (c = x5c) | [] => false end.

Fixpoint take_word (line : bytes) : bytes * bytes :=
  match line with
  | [] => ([], [])
  | c :: line' => if c_isspace c then ([], line) else let '(w, rest) := take_word line' in (c :: w, rest)
  end.
Definition split_meta_line (line : bytes) : bytes * bytes :=
  let '(command, rest) := take_word (skip_space line) in
  (command, rev (skip_space (rev (skip_space rest)))).

(** What a script makes the connection do. *)
Inductive Action := RunMeta (line : bytes) | RunSql (s : Statement).

Definition blank_statement (text : bytes) : bool := forallb (fun c => bool_decide (c ∈ [" "%byte; x09; x0d; x0a])) text.

(** [flush]: the statements of the pending lines, moved to where these start. *)
Definition flush_pending (pending : bytes) (start_line start_column : N) : list Action :=
  map (fun s => RunSql (mkStatement (st_text s) (start_line + st_line s - 1)
                          (if (st_line s =? 1)%N then start_column + st_column s - 1 else st_column s)))
    (filter (fun s => blank_statement (st_text s) = false) (split_statements pending)).

(** The lines of a text: one more than it has newlines. *)
Fixpoint text_lines (acc text : bytes) : list bytes :=
  match text with
  | [] => [rev acc]
  | c :: text' => if bool_decide (c = x0a) then rev acc :: text_lines [] text' else text_lines (c :: acc) text'
  end.

(** The loop of [run_text]; what it does never depends on the outcomes. *)
Fixpoint run_lines (lines : list bytes) (line_number : N) (pending : bytes) (start_line : N) : list Action :=
  match lines with
  | [] => flush_pending pending start_line 1
  | line :: lines' =>
      if bool_decide (pending = []) && is_meta_command line
      then RunMeta line :: run_lines lines' (line_number + 1) pending start_line
      else
        let start_line := if bool_decide (pending = []) then line_number else start_line in
        let pending := pending ++ line ++ [x0a] in
        if bool_decide (";"%byte ∈ line)
        then flush_pending pending start_line 1 ++ run_lines lines' (line_number + 1) [] start_line
        else run_lines lines' (line_number + 1) pending start_line
  end.
Definition run_text (text : bytes) : list Action := run_lines (text_lines [] text) 1 [] 1.

(** *** Statements stand where they are said to *)

(** Line and column behind a text, both from one. *)
Definition text_position (text : bytes) : N * N :=
  fold_left (fun '(line, column) c => if bool_decide (c = x0a) then (line + 1, 1)%N else (line, column + 1)%N) text (1, 1)%N.

(** A position relative to another. *)
Definition shift (p q : N * N) : N * N := (p.1 + q.1 - 1, if (q.1 =? 1)%N then p.2 + q.2 - 1 else q.2)%N.

Lemma position_snoc text c : text_position (text ++ [c]) =
  if bool_decide (c = x0a) then ((text_position text).1 + 1, 1)%N else ((text_position text).1, (text_position text).2 + 1)%N.
Proof. unfold text_position. rewrite fold_left_app. cbn. by destruct (fold_left _ text _). Qed.

Lemma position_pos text : (1 <= (text_position text).1 /\ 1 <= (text_position text).2)%N.
Proof. induction text as [|c text IH] using rev_ind; [done|]. rewrite position_snoc. case_bool_decide; cbn; lia. Qed.

Lemma position_app s t : text_position (s ++ t) = shift (text_position s) (text_position t).
Proof.
  induction t as [|c t IH] using rev_ind.
  - rewrite app_nil_r. unfold shift. cbn. destruct (text_position s) as [l col] eqn:E. pose proof (position_pos s). rewrite E in *. cbn in *. f_equal; lia.
  - rewrite app_assoc, !position_snoc, IH. unfold shift. pose proof (position_pos s). pose proof (position_pos t).
    destruct (text_position s), (text_position t). cbn [fst snd] in *. case_bool_decide; cbn [fst snd].
    + rewrite (proj2 (N.eqb_neq _ _)) by lia. f_equal; lia.
    + destruct (N.eqb_spec n1 1); f_equal; lia.
Qed.

(** [s] occurs in [text] where it says. *)
Definition stands_in (text : bytes) (s : Statement) : Prop :=
  exists pre post, text = pre ++ st_text s ++ post /\ text_position pre = (st_line s, st_column s).

Lemma stands_app text rest s : stands_in text s -> stands_in (text ++ rest) s.
Proof. intros (pre & post & -> & Hp). exists pre, (post ++ rest). by rewrite <- !app_assoc. Qed.

(** The loop invariant: the finished statements and the current one stand in what
    was read, and the counters are the position behind it. *)
Definition splitting_at (text : bytes) (s : Splitting) : Prop :=
  text_position text = (sp_line s, sp_column s) /\ Forall (stands_in text) (sp_done s) /\
  (sp_quote s <> None -> sp_current s <> []) /\
  exists pre, text = pre ++ rev (sp_current s) /\ (sp_current s <> [] -> text_position pre = (sp_start_line s, sp_start_column s)).

Lemma push_stands text s : splitting_at text s -> Forall (stands_in text) (push_statement s).
Proof.
  intros (_ & Hd & _ & pre & Ht & Hp). unfold push_statement. destruct (sp_current s) as [|c cur] eqn:E; [done|].
  constructor; [|done]. exists pre, []. rewrite app_nil_r. cbn [st_text st_line st_column]. split; [done|by apply Hp].
Qed.

Lemma split_char_at text s c : splitting_at text s -> splitting_at (text ++ [c]) (split_char s c).
Proof.
  intros Hs. pose proof (push_stands text s Hs) as Hemit. destruct Hs as (Hpos & Hd & Hq & pre & Ht & Hp).
  assert (Hpos' : text_position (text ++ [c]) = (if bool_decide (c = x0a) then (sp_line s + 1)%N else sp_line s,
                                            if bool_decide (c = x0a) then 1%N else (sp_column s + 1)%N)).
  { rewrite position_snoc, Hpos. by case_bool_decide. }
  assert (Hd' : Forall (stands_in (text ++ [c])) (sp_done s)) by (eapply Forall_impl; [done|]; intros; by apply stands_app).
  assert (Hpush : forall quote, let fresh := bool_decide (sp_current s = []) && negb (bool_decide (c = ";"%byte)) in
    (fresh = true \/ sp_current s <> []) ->
    splitting_at (text ++ [c]) (mkSplitting (sp_done s) (c :: sp_current s)
      (if bool_decide (c = x0a) then (sp_line s + 1)%N else sp_line s) (if bool_decide (c = x0a) then 1%N else (sp_column s + 1)%N)
      (if fresh then sp_line s else sp_start_line s) (if fresh then sp_column s else sp_start_column s) quote)).
  { intros quote fresh Hf. split; [done|]. split; [done|]. split; [done|]. cbn [sp_current sp_start_line sp_start_column rev].
    destruct (decide (sp_current s = [])) as [E|E].
    - destruct Hf as [Hf|Hf]; [|done]. rewrite Hf. exists text. split; [by rewrite E|]. by intros _.
    - exists pre. split; [by rewrite Ht, <- app_assoc|]. intros _. unfold fresh. rewrite bool_decide_eq_false_2 by done. by apply Hp. }
  assert (Hfresh : c <> ";"%byte -> bool_decide (sp_current s = []) && negb (bool_decide (c = ";"%byte)) = true \/ sp_current s <> []).
  { intros Hc. rewrite (bool_decide_eq_false_2 (c = _)) by done. destruct (decide (sp_current s = [])); [left|by right].
    by rewrite bool_decide_eq_true_2. }
  unfold split_char. cbv zeta. destruct (sp_quote s) as [q|] eqn:Eq; [apply Hpush; right; by apply Hq|].
  destruct (bool_decide (c = "'"%byte) || bool_decide (c = x22)) eqn:Ec.
  { apply Hpush, Hfresh. intros ->. discriminate Ec. }
  destruct (decide (c = ";"%byte)) as [Es|Es]; cycle 1.
  { specialize (Hpush None (Hfresh Es)). rewrite (bool_decide_eq_false_2 (c = ";"%byte)) in Hpush |- * by done. exact Hpush. }
  rewrite (bool_decide_eq_true_2 (c = ";"%byte)) by done.
  split; [done|]. split; [|split; [done|by exists (text ++ [c]); rewrite app_nil_r]].
  cbn [sp_done]. eapply Forall_impl; [|intros x Hx; by apply stands_app, Hx].
  subst c. unfold push_statement in *. cbn [sp_current sp_done sp_start_line sp_start_column]. cbn [negb]. rewrite andb_false_r. exact Hemit.
Qed.

Lemma split_chars_at text2 : forall text s, splitting_at text s -> splitting_at (text ++ text2) (fold_left split_char text2 s).
Proof.
  induction text2 as [|c text2 IH]; intros text s H; [by rewrite app_nil_r|]. cbn.
  change (text ++ c :: text2) with (text ++ [c] ++ text2). rewrite app_assoc. by apply IH, split_char_at.
Qed.

Lemma split_stands text s : In s (split_statements text) -> stands_in text s.
Proof.
  unfold split_statements. rewrite <- in_rev, <- list_elem_of_In. revert s. apply Forall_forall, push_stands.
  apply (split_chars_at text []). split; [done|]. split; [done|]. split; [done|]. by exists [].
Qed.

(** *** Whole scripts *)

(** The chunk in front of a line, and the statements a flush takes from it. *)
Lemma flush_stands before pending after line s : text_position before = (line, 1)%N -> In (RunSql s) (flush_pending pending line 1) ->
  stands_in (before ++ pending ++ after) s.
Proof.
  intros Hb Hin. unfold flush_pending in Hin. apply in_map_iff in Hin as (s' & [= <-] & Hin).
  apply list_elem_of_In, list_elem_of_filter in Hin as [_ Hin]. apply list_elem_of_In, split_stands in Hin as (pre & post & Ht & Hp).
  exists (before ++ pre), (post ++ after). cbn [st_text st_line st_column]. rewrite Ht, <- !app_assoc. split; [done|].
  rewrite position_app, Hb, Hp. unfold shift. cbn [fst snd]. done.
Qed.

Definition unlines (lines : list bytes) : bytes := concat (map (fun l => l ++ [x0a]) lines).

Lemma position_newline text : text_position (text ++ [x0a]) = ((text_position text).1 + 1, 1)%N.
Proof. rewrite position_snoc. by rewrite bool_decide_eq_true_2. Qed.
Lemma position_plain line : x0a ∉ line -> (text_position line).1 = 1%N.
Proof.
  induction line as [|c line IH] using rev_ind; intros Hn; [done|]. rewrite position_snoc, bool_decide_eq_false_2 by set_solver.
  cbn. apply IH. set_solver.
Qed.
Lemma position_line before line n : text_position before = (n, 1)%N -> x0a ∉ line -> text_position (before ++ line ++ [x0a]) = (n + 1, 1)%N.
Proof.
  intros Hb Hn. rewrite app_assoc, position_newline, position_app, Hb. unfold shift. rewrite (position_plain line Hn). cbn. f_equal. lia.
Qed.

Lemma run_lines_stands lines : Forall (fun l => x0a ∉ l) lines -> forall before pending n start s,
  text_position (before ++ pending) = (n, 1)%N -> (pending <> [] -> text_position before = (start, 1)%N) ->
  In (RunSql s) (run_lines lines n pending start) -> stands_in (before ++ pending ++ unlines lines) s.
Proof.
  induction 1 as [|line lines Hline _ IH]; intros before pending n start s Hpos Hstart Hin; cbn [run_lines] in Hin.
  { destruct pending as [|c pending]; [destruct Hin|]. eapply flush_stands; [by apply Hstart|done]. }
  assert (Hnext : text_position (before ++ pending ++ line ++ [x0a]) = (n + 1, 1)%N) by (rewrite app_assoc; by apply position_line).
  assert (Hun : pending ++ unlines (line :: lines) = (pending ++ line ++ [x0a]) ++ unlines lines).
  { unfold unlines. cbn. by rewrite <- !app_assoc. }
  destruct (bool_decide (pending = []) && is_meta_command line) eqn:Em.
  - destruct Hin as [[=]|Hin]. apply andb_prop in Em as [Ep _]. apply bool_decide_eq_true in Ep. subst pending.
    rewrite Hun, app_assoc. cbn [app] in *. rewrite app_nil_r in Hnext || idtac.
    apply (IH (before ++ line ++ [x0a]) [] (n + 1)%N start); [by rewrite app_nil_r|done|done].
  - set (start' := if bool_decide (pending = []) then n else start) in Hin.
    assert (Hs' : text_position before = (start', 1)%N).
    { unfold start'. destruct (decide (pending = [])) as [E|E].
      - rewrite bool_decide_eq_true_2 by done. by rewrite E, app_nil_r in Hpos.
      - rewrite bool_decide_eq_false_2 by done. by apply Hstart. }
    rewrite Hun. destruct (bool_decide (";"%byte ∈ line)).
    + apply in_app_or in Hin as [Hin|Hin]; [by eapply flush_stands|].
      rewrite app_assoc. apply (IH (before ++ pending ++ line ++ [x0a]) [] (n + 1)%N start'); [by rewrite app_nil_r|done|done].
    + by apply (IH before (pending ++ line ++ [x0a]) (n + 1)%N start').
Qed.

Lemma elem_of_rev {A} (x : A) l : x ∈ rev l <-> x ∈ l.
Proof. rewrite !list_elem_of_In. symmetry. apply in_rev. Qed.

Lemma text_lines_spec text : forall acc, x0a ∉ acc ->
  unlines (text_lines acc text) = rev acc ++ text ++ [x0a] /\ Forall (fun l => x0a ∉ l) (text_lines acc text).
Proof.
  induction text as [|c text IH]; intros acc Hacc; cbn [text_lines].
  - unfold unlines. cbn. rewrite app_nil_r. split; [done|]. constructor; [|done]. by rewrite elem_of_rev.
  - case_bool_decide as Ec.
    + destruct (IH []) as [Hu Hf]; [apply not_elem_of_nil|]. subst c. unfold unlines in *. cbn [map concat]. rewrite Hu. cbn [rev app].
      split; [by rewrite <- app_assoc|]. constructor; [|done]. by rewrite elem_of_rev.
    + destruct (IH (c :: acc)) as [Hu Hf]; [set_solver|]. rewrite Hu. cbn [rev]. rewrite <- !app_assoc. done.
Qed.

(** *** Nothing of a script is lost

    Blanks and semicolons may be dropped; everything else is in one statement or
    meta command, in the order of the script. *)

Definition ink (text : bytes) : bytes := filter (fun c => c ∉ [" "%byte; x09; x0d; x0a; ";"%byte]) text.
Definition action_text (a : Action) : bytes := match a with RunMeta line => line | RunSql s => st_text s end.
Definition action_ink (l : list Action) : bytes := ink (concat (map action_text l)).

Lemma ink_app a b : ink (a ++ b) = ink a ++ ink b.
Proof. apply filter_app. Qed.
Lemma action_ink_app a b : action_ink (a ++ b) = action_ink a ++ action_ink b.
Proof. unfold action_ink. by rewrite map_app, concat_app, ink_app. Qed.

Definition split_text (s : Splitting) : bytes := concat (map st_text (rev (sp_done s))) ++ rev (sp_current s).

Lemma push_statement_text s : concat (map st_text (rev (push_statement s))) = split_text s.
Proof.
  unfold push_statement, split_text. destruct (sp_current s) as [|c l] eqn:E; [by rewrite app_nil_r|].
  cbn [rev]. rewrite map_app, concat_app. cbn. by rewrite app_nil_r.
Qed.
Lemma split_char_text s c : ink (split_text (split_char s c)) = ink (split_text s) ++ ink [c].
Proof.
  assert (Hpush : forall l co sl sc q, ink (split_text (mkSplitting (sp_done s) (c :: sp_current s) l co sl sc q)) = ink (split_text s) ++ ink [c]).
  { intros. unfold split_text. cbn. by rewrite !ink_app, app_assoc. }
  unfold split_char. cbv zeta. destruct (sp_quote s); [apply Hpush|]. destruct (bool_decide (c = "'"%byte) || _); [apply Hpush|].
  destruct (bool_decide (c = ";"%byte)) eqn:Ec; [|apply Hpush]. apply bool_decide_eq_true in Ec. subst c. change (ink [";"%byte]) with (@nil byte). rewrite app_nil_r.
  unfold split_text at 1. cbn [sp_done sp_current rev]. by rewrite app_nil_r, push_statement_text.
Qed.
Lemma split_statements_ink text : ink (concat (map st_text (split_statements text))) = ink text.
Proof.
  unfold split_statements. rewrite push_statement_text.
  induction text as [|c text IH] using rev_ind; [done|]. rewrite fold_left_app. cbn. by rewrite split_char_text, IH, ink_app.
Qed.

Lemma blank_no_ink text : blank_statement text = true -> ink text = [].
Proof.
  unfold blank_statement, ink. induction text as [|c text IH]; [done|]. cbn [forallb]. intros [Hc Ht]%andb_prop.
  rewrite filter_cons_False; [by apply IH|]. apply bool_decide_eq_true in Hc. set_solver.
Qed.
Lemma flush_ink pending line column : action_ink (flush_pending pending line column) = ink pending.
Proof.
  rewrite <- (split_statements_ink pending). unfold flush_pending, action_ink.
  induction (split_statements pending) as [|s l IH]; [done|]. cbn [map concat]. rewrite ink_app, <- IH.
  destruct (blank_statement (st_text s)) eqn:Eb.
  - rewrite filter_cons_False by congruence. by rewrite (blank_no_ink _ Eb).
  - rewrite filter_cons_True by done. cbn [map concat action_text st_text]. by rewrite ink_app.
Qed.
Lemma run_lines_ink lines : forall n pending start,
  action_ink (run_lines lines n pending start) = ink pending ++ ink (unlines lines).
Proof.
  induction lines as [|line lines IH]; intros n pending start; cbn [run_lines].
  { by rewrite flush_ink, app_nil_r. }
  assert (Hl : ink (unlines (line :: lines)) = ink line ++ ink (unlines lines)).
  { unfold unlines. cbn [map concat]. rewrite !ink_app. change (ink [x0a]) with (@nil byte). by rewrite app_nil_r. }
  assert (Hp : ink (pending ++ line ++ [x0a]) = ink pending ++ ink line).
  { rewrite !ink_app. change (ink [x0a]) with (@nil byte). by rewrite app_nil_r. }
  rewrite Hl, (app_assoc (ink pending)). destruct (bool_decide (pending = []) && is_meta_command line) eqn:Em.
  - apply andb_prop in Em as [Ep _]. apply bool_decide_eq_true in Ep. subst pending.
    change (action_ink (RunMeta line :: ?l)) with (action_ink ([RunMeta line] ++ l)). rewrite action_ink_app, IH.
    unfold action_ink. cbn. by rewrite app_nil_r.
  - cbv zeta. destruct (bool_decide (";"%byte ∈ line)).
    + rewrite action_ink_app, flush_ink, IH, Hp. done.
    + by rewrite IH, Hp.
Qed.

(** C40: a script is run whole, and errors are placed in it. Every character of a
    script other than blanks and semicolons is in exactly one of the statements
    and meta commands it runs, in order. Every statement stands in the script at
    the line and column it is run with, and an error position inside the
    statement, made absolute, is the position in the script of the same place. *)
Theorem script_positions (text : bytes) (s : Statement) :
  action_ink (run_text text) = ink text /\
  (In (RunSql s) (run_text text) ->
   stands_in (text ++ [x0a]) s /\
   forall before marked after, st_text s = before ++ marked ++ after ->
    exists pre, (exists post, text ++ [x0a] = pre ++ before ++ marked ++ post) /\
      let '(bl, bc) := text_position before in let '(el, ec) := text_position (before ++ marked) in
      let '(bl', bc') := text_position (pre ++ before) in let '(el', ec') := text_position (pre ++ before ++ marked) in
      to_absolute (mkSSpan bl bc el ec) s = mkSSpan bl' bc' el' ec').
Proof.
  destruct (text_lines_spec text [] ltac:(apply not_elem_of_nil)) as [Hu Hf]. split.
  { unfold run_text. rewrite run_lines_ink, Hu. cbn [rev app]. rewrite ink_app. change (ink [x0a]) with (@nil byte). apply app_nil_r. }
  intros Hin.
  assert (Hs : stands_in (text ++ [x0a]) s).
  { pose proof (run_lines_stands _ Hf [] [] 1%N 1%N s eq_refl ltac:(done) Hin) as H. cbn [app] in H. by rewrite Hu in H. }
  split; [done|]. intros before marked after Es. destruct Hs as (pre & post & Ht & Hp). exists pre. split.
  { exists (after ++ post). rewrite Ht, Es. by rewrite <- !app_assoc. }
  rewrite !(position_app pre), Hp. pose proof (position_pos before). pose proof (position_pos (before ++ marked)).
  assert (Hpp : (1 <= st_line s /\ 1 <= st_column s)%N) by (pose proof (position_pos pre) as H'; by rewrite Hp in H').
  destruct (text_position before) as [bl bc], (text_position (before ++ marked)) as [el ec]. cbn [fst snd] in *.
  unfold shift, to_absolute, sspan_valid. cbn [fst snd begin_line begin_column end_line end_column].
  rewrite !(proj2 (N.ltb_lt _ _)) by lia. cbn [andb negb].
  f_equal; try lia; case_match; lia.
Qed.

(** Two statements in three lines: the second starts behind the semicolon of the
    first, and its error is in the third line. *)
Lemma script_positions_witness :
  let script := str "SELECT 1;" ++ [x0a] ++ str "SELECT x" ++ [x0a] ++ str " FROM t;" in
  let s := mkStatement (str "SELECT x" ++ [x0a] ++ str " FROM t") 2 1 in
  In (RunSql s) (run_text script) /\ stands_in (script ++ [x0a]) s /\
  to_absolute (mkSSpan 2 7 2 8) s = mkSSpan 3 7 3 8 /\ action_ink (run_text script) = ink script.
Proof.
  cbv zeta. split; [vm_compute; auto|]. split; [|split; [reflexivity|]].
  - apply script_positions. vm_compute. auto.
  - apply (script_positions _ (mkStatement [] 1 1)).
Defined.

(** *** What the console prints of an error *)

(** The snippet of [print_error]: the statement of the error with the position the
    caller made absolute. *)
Definition error_snippet (error_sql : bytes) (error_span : SSpan) (colors : bool) : list bytes :=
  if negb (bool_decide (error_sql = [])) && sspan_valid error_span
  then let snippet := highlight_span error_sql error_span colors in
       [if negb (bool_decide (snippet = [])) && negb (bool_decide (snippet = error_sql)) then snippet else error_sql]
  else [].

(** The position is the script's, the text the statement's: an error in the second
    line of a script is not marked, although the statement has it. *)
Example snippet_unmarked :
  let script := str "SELECT 1;" ++ [x0a] ++ str "SELECT x FROM t;" in
  let s := mkStatement (str "SELECT x FROM t") 2 1 in
  let span := mkSSpan 1 8 1 9 in
  In (RunSql s) (run_text script) /\
  error_snippet (st_text s) (to_absolute span s) true = [st_text s] /\
  error_snippet (st_text s) span true = [str "SELECT " ++ kErrorSpan ++ str "x" ++ kReset ++ str " FROM t"].
Proof. split; [vm_compute; auto|]. split; reflexivity. Qed.

(** A line with a semicolon ends what is pending, also inside a quoted text. *)
Example quoted_semicolon_flushes :
  run_text (str "INSERT INTO t VALUES ('a;" ++ [x0a] ++ str "b');") =
  [RunSql (mkStatement (str "INSERT INTO t VALUES ('a;" ++ [x0a]) 1 1); RunSql (mkStatement (str "b');" ++ [x0a]) 2 1)].
Proof. reflexivity. Qed.

(** A quote in a comment hides the semicolons behind it. *)
Example comment_quote_joins :
  length (split_statements (str "-- it's" ++ [x0a] ++ str "SELECT 1; SELECT 2;")) = 1%nat.
Proof. reflexivity. Qed.
